(* ===== verification/_CoqProject ===== *)
-Q . S2P
Prelude.v
Text.v
Float64.v
TokenFacts.v
Contract.v
Details.v
Accounts.v
ModelNames.v
RecordedUsage.v
PeriodAttribution.v
Security.v
Json.v
JsonSchema.v
ThreadContract.v
Topology.v
ThreadSelection.v
Pricing.v
SourceAdmission.v
EventAdmission.v
SessionRecord.v
Rollout.v
Recognition.v
Calendar.v
Protocol.v
QuotaJournal.v
UsageLedger.v
LedgerSums.v
AuthKeys.v
Schedule.v
History.v
ChangedHistory.v
Recordings.v
Spans.v
PendingUsage.v
RecordedValues.v
LocalUse.v
RecordedReports.v
ReadIntervals.v
TaskActivity.v
TaskSpans.v
TaskRows.v
SqlRow.v
TaskEvidence.v
EvidenceFacts.v
ReadActivity.v
StoredHistory.v
Regression.v
RegressionFacts.v
HistoryProjection.v
ProjectionFacts.v
Canonicalize.v
CanonicalFacts.v
ThreadState.v
DescendantFacts.v
DescendantSearch.v
HistoryPeriods.v
PeriodFacts.v
DocumentHistory.v
DocumentGaps.v
GapLedger.v
GapFacts.v
GapReconcile.v
GapProperties.v
ModelReconcile.v
QuotaPeriods.v
SessionReplay.v
AnchorRecovery.v
AnchorFacts.v
HistoryIndex.v
HistoryRows.v
HistoryCursor.v
HistoryPages.v
PublishFrame.v
PublishStore.v
PublishFacts.v
PeriodDirectory.v
HttpRequest.v
ServerDetails.v
HistoryClient.v
ClientFacts.v
