(* ===== verification/Prelude.v ===== *)
(** * Codex Info: verification library

    Codex Info watches the local session files of the Codex command line and its
    account quota. A recorder ([crates/codex-info-recorder]) reads the records of
    the session files and the quota answers of the server, decides what each of
    them proves and hands numeric events with their evidence to a writer
    ([crates/codex-info-db-writer]), which stores only what the evidence supports
    and attributes consumption to official quota periods. A reader
    ([crates/codex-info-db-reader]) turns the tables into a snapshot, and a REST
    server ([crates/codex-info-rest]) publishes snapshots as documents with a
    contract of their own ([crates/codex-info-rest-contract]); the desktop
    application ([src/]) also lists the active threads over JSON-RPC and reads
    their rollouts. The library models the deciding code of these programs: what
    is recognized, admitted, attributed, summed, reconciled, selected, published
    served and shown. The input and output around it (files, SQL, sockets, processes,
    user interface) is left out.

    The files come in the order in which the data flows. A component is one file
    of definitions; where its theorems need lemmas of their own these are in the
    files named after it.

    ** From a record to a pending response

    - [SessionRecord] ([src/session_input.rs]): the summary of one JSON line, the
      predicates that recognize it, and [ModelAttributionState], which follows the
      model named by the context records. [interval_reports_adoptions]: the model
      of an interval is the one adopted by all its contexts, or none.
    - [Recognition] ([observe_response_classification] of the recorder): a summary
      becomes the input of the state machine below.
    - [SourceAdmission] ([source_admission.rs] and the value checks of [lib.rs] of
      the writer): the durable state of one source. A response waits for its
      boundary, is classified, and is associated with a raw counter.
      [model_needs_evidence] characterises the sequences of inputs that give a
      response a model; [next_record_keeps_state_valid] (in [Recognition]) shows
      that what is stored stays valid whatever record comes next.
    - [EventAdmission] ([event_admission.rs]): the check of a numeric event against
      its evidence, for counters and for responses. [admitted_event_is_evidenced]
      states what an accepted event is backed by;
      [requalification_relaxes_model_only] compares the two entry points.
    - [AuthKeys], [Schedule] ([lib.rs] of the recorder): the scanner that rejects
      repeated keys in the authentication file, equivalent to a parser of the
      grammar ([scanner_exact]), and the fixed-rate schedule of the loop.
    - [History], [ChangedHistory] ([lib.rs] of the recorder): totals per model and
      the minute history, rebuilt from a changed minute with the same result as
      from the start ([changed_minutes_exact]).

    ** Quantities, quota and periods

    - [TokenFacts] ([token_facts.rs]): totals with components any of which may be
      unknown; sums and counter differences. Accepted facts are exactly those that
      complete to consistent numbers, sums stay consistent, differences telescope.
    - [RecordedUsage] ([recorded_usage.rs]): intervals of local usage, and the
      persisted prefix sums with decimal quantities.
    - [PeriodAttribution] ([period_attribution.rs] of the writer): quota
      observations become a timeline of disjoint spans. No attribution contradicts
      an observation, none leaves the official window, only the set of the
      observations matters, and revisiting [changed_ranges] finds every instant
      whose attribution two timelines disagree on.
    - [Calendar], [Protocol] ([src/protocol_contract.rs]): the calendar arithmetic
      of monthly windows, plans, the strict validators and the decoding of the
      account and quota answers.
    - [QuotaJournal] ([quota_journal.rs]): the table of observations with its
      owners; reading it incrementally refines replaying all of it
      ([replay_exact]).
    - [QuotaPeriods] ([lib.rs] of the writer): when an observation opens a new
      period ([quota_boundary_exact]), which retained state is the authority before
      a deadline, the reset periods of the samples and the ownership intervals of
      an account.
    - [Pricing] ([crates/codex-info-pricing]): the reference price of an
      observation, in binary floating point ([Float64]).

    ** What the writer keeps

    - [UsageLedger], [LedgerSums] ([recorded_usage.rs] of the writer): the table of
      facts with its prefix sums. Recomputing the suffixes behind the dirty heads
      restores all sums ([finish_restores_sums]).
    - [GapLedger], with [GapFacts], [GapReconcile] and [GapProperties] ([lib.rs] of
      the writer): the table of recorder gaps. Its operations refine a ledger of
      intervals opened once and closed once, closed gaps are final, and a
      reconciliation with a source rescan can be repeated. A pending gap stamped
      after the rescan on the monotonic clock, as after a restart of the machine,
      makes the reconciliation fail ([restarted_clock_blocks_reconciliation]).
    - [ModelReconcile]: canonical totals, their sums, domination and the proof of a
      reset, and the merge of a rejected generation.
    - [SessionReplay]: saved session events, their canonical order, replay and
      lineage tests, and their sums.
    - [AnchorRecovery], [AnchorFacts]: the text a token-anchor recovery is stored
      as; decoding accepts exactly the encodings of valid recoveries.

    ** What the reader makes of it

    - [Recordings] ([recordings.rs] of the reader): prefixes, reports and local
      use by minute; [Spans] holds the lemmas on merged spans, [PendingUsage] the
      times that are still pending, [RecordedValues], [LocalUse] and
      [RecordedReports] compose the reading with the writer's refresh: a report is
      the sum of the facts of its range ([report_is_sum_of_facts]).
    - [ReadIntervals], [TaskActivity] with [TaskSpans] and [TaskRows], and
      [TaskEvidence] with [EvidenceFacts] and [ReadActivity] ([lib.rs] of the
      reader): owned intervals, and when tasks ran. A claim of complete evidence is
      backed by every row of the tables ([complete_evidence]).
    - [SqlRow], [StoredHistory], [Regression] with [RegressionFacts],
      [HistoryProjection] with [ProjectionFacts]: the stored model rows become
      published rows, whose totals never fall within a period.
    - [Canonicalize], [CanonicalFacts]: rows of older databases are grouped by
      period; each published row was recorded ([canonical_rows_recorded]).
    - [HistoryPeriods] with [PeriodFacts], [DocumentHistory] and [DocumentGaps]:
      the periods and gaps of a document; for a canonical history with a quota
      receipt inside its window the validator of [Details] accepts them.
    - [ThreadState] with [DescendantFacts] and [DescendantSearch]
      ([src/thread_state.rs]): the bounded search over parent edges.

    ** Published documents

    - [Contract], [Details], [Accounts], [ModelNames] ([lib.rs] and
      [model_names.rs] of the contract crate): identities, versions, text
      predicates, the details document of versions 1 to 3 with its validation and
      projections, the account selector, and the names of models. The validators
      are loops with early returns over accumulated state; each is shown to accept
      exactly the documents without a violation, and to report the first violated
      clause of a list of declarative clauses.

    ** The REST server

    - [HistoryIndex] ([history.rs]), with [HistoryRows], [HistoryCursor] and
      [HistoryPages]: the rows of each period, the fingerprint of every prefix of
      them, and the cursor that names one. Following the cursors ends and delivers
      every row once ([pages_exact]); a client that resumes against a later
      snapshot holds exactly the rows of that snapshot, or its cursor is refused
      ([resumed_client_complete], for a digest without collision on what is
      hashed).
    - [PublishFrame], [PublishStore], [PublishFacts] ([lib.rs]): a frame, the
      comparisons of two frames, and the store of one account with all its
      operations. Two frames ever served under one identity have the same
      canonical documents ([identity_fixes_documents]; the local-usage recordings
      and the pages of raw periods are not compared when an identity is shared);
      the events of a store ([apply_event]) replace the frame only after a
      successful read and by one of no older generation, failed reads serve it on
      as the last good one, guards withdraw it, and a withdrawn frame is not served
      again before a successful read ([last_good_is_kept]).
    - [PeriodDirectory] ([lib.rs]): directories in pages of bounded size. The cache
      of pages never changes an answer, and where every row fits on a page the
      cursors visit every row once, whatever other clients ask in between
      ([directory_visits_all]).
    - [HttpRequest] ([lib.rs]): the bounded read of a request, which within the
      time limit does not depend on how the socket cuts it ([request_chunking]),
      and the targets, which
      print and parse back ([target_roundtrip]).

    ** The history in the desktop application

    - [ServerDetails] ([src/server.rs], in [Module Server]): the validation of the
      three versions of the details document that the application applies to what
      it reads. A document with a history is accepted exactly when the rows are a
      history of the periods ([rows_accepted]); unlike the contract, it does not
      keep a row of the minute in which its period starts
      ([first_minute_refused]).
    - [HistoryClient] ([src/main.rs]): the routes, the documents, the merge of the
      rows, the loop over the pages with its one restart after a stale cursor, the
      commit and the outcome of [poll_service_graph_resources_with].
    - [ClientFacts]: the loop ends whatever the server answers
      ([client_loop_finishes]), and against the server of [HttpRequest] and
      [HistoryIndex] a client in step with one publication is in step with the
      next after a poll ([client_stays_in_step]): not modified, resumed or
      restarted, it shows exactly the rows and gaps that are served, unless its own
      check refuses the joined document and the view stays as it was. The record
      [reads_back] says that JSON printed by the server is read back,
      [succeeds] that names, digests and printed rows tell publications apart.

    ** Threads

    - [Json], [JsonSchema] ([src/thread_contract.rs]): the validator of the pinned
      schemas with its depth and work budgets, against conformance to the schema.
    - [ThreadContract]: one item of a page, and the accumulator of a page cycle,
      which ends after a bounded number of pages and keeps for each thread its
      newest statement.
    - [Topology], [ThreadSelection]: the parent check of the selected threads, and
      the publication of a cycle as one unit. The check is modelled in both build
      modes: [release_topology_check_is_void] shows that without debug assertions
      it accepts every slice, so the theorems on the selection
      ([selection_outcome], [published_threads_hang_together]) are stated for
      both.
    - [Rollout]: the application of the records of a rollout, all or none, and its
      independence of whether a file is read at once or as it grows.
    - [Security] ([src/security.rs]): text for the user interface, hosts of the
      authentication page, lines and RPC limits.

    ** How the code is written down

    Structs are records, enums inductive types, a [Result] is [result E A] with
    the [?] operator as its bind and an early [return Err(e)] under a condition as
    [reject e when b]. Machine integers are [Z] with the checked, saturating and
    wrapping operations written out at their width; [f64] is the Standard
    Library's executable binary64. A [String] is the list of its scalar values
    ([Text]); a [BTreeMap] or [HashMap] is a [gmap], or an association list where
    its order is observed. Objects that are mutated in place are passed and
    returned; a shared cache is named by a number in the frames that hold it. A
    transaction is the result of one step, and its tables are maps or lists of
    rows with the constraints of the schema as hypotheses.

    Names follow the source; a record's fields carry a short prefix. Loops over
    collections are folds or structural recursions. The loops that need a measure:
    the walk of [Topology] (one unit more than the slice has nodes, [walk_spec]);
    the exclusion of children in [ThreadSelection] (one more than the snapshots,
    since every round but the last removes one); the scanner of [AuthKeys] (twice
    the length and one, [scanner_exact]); the grid of [TaskActivity.cadence_from]
    (the minutes of the range and one, [full_cadence_spec]); the groups of
    [Canonicalize.shadow_from] (their number); the search of [ThreadState] (the
    limit and three, [descendants_end]); the binary search of [HistoryIndex] (the
    number of rows and one, [search_spec]); the page loop of [HistoryClient] (two
    more than the bound on the pages the source counts to, [client_loop_finishes]); the minutes of an interval (their
    count, [interval_minutes_elem]); the decimal digits of a number (its binary
    length). The validator of [JsonSchema] recurses on the depth budget of the
    source itself (64).

    ** Code outside this repository

    The libraries the program calls are parameters: the JSON library (the
    accessors of class [JsonNumber], parsing a text, printing a value, reading a
    derived structure), the parser
    of decimal floating point, the pinned schema document, the RFC 3339 parser,
    calendar months of the date library, SHA-256 and its encodings, the parser of
    URLs, the upper-case table of characters, the price catalog and the results of
    SQL queries (with the hypotheses that a query answers its table). The parser
    of a rollout file and the filter of current candidates are closures in the
    source and arguments here. Where the source compares derived structures with
    floating-point fields, the comparison is an argument ([frames_equal]).

    ** What is not modelled

    The streaming JSON parser that fills a [SessionRecordSummary] (the rest of
    [session_input.rs]); the polling loop, file cursors and worker threads of the
    recorder; the SQL text, migrations and checks of the schema of the writer and
    the reader, and the qualification that reads through them; the reader worker
    threads and the account catalog of the REST server, its response writing and
    diagnostics log; the polls of the application for its other resources, and the
    wrapper that asks for the newer directory routes. Serde derivations, the desktop interface, processes, lock
    files and the search for credentials have no counterpart: they are input and
    output.

    This file holds what the components share: results and options, machine
    integers, sorting, folds with early exit and the library by which a
    validator is shown to report its first violation. *)

From Stdlib Require Export ZArith Lia ZifyBool.
From stdpp Require Export base tactics option strings list sorting gmap.


#[export] Set Default Goal Selector "!".
Global Open Scope Z_scope.

(** ** Fallible results

    Rust's [Result<T, E>] with the error type first, so that [result E] is a
    monad; the [?] operator of the source is the bind [x ← m; k]. *)
Inductive result (E A : Type) : Type :=
  | Ok (a : A)
  | Err (e : E).
Arguments Ok {E A} a.
Arguments Err {E A} e.

#[export] Instance result_ret {E} : MRet (result E) := fun A a => Ok a.
#[export] Instance result_bind {E} : MBind (result E) := fun A B f m =>
  match m with Ok a => f a | Err e => Err e end.
#[export] Instance result_fmap {E} : FMap (result E) := fun A B f m =>
  match m with Ok a => Ok (f a) | Err e => Err e end.

#[export] Instance result_eq_dec `{EqDecision E, EqDecision A} :
  EqDecision (result E A).
Proof. solve_decision. Defined.

(** [Option::ok_or], [Result::map_err], [Result::ok], [Result::is_ok]. *)
Definition ok_or {E A} (o : option A) (e : E) : result E A :=
  match o with Some a => Ok a | None => Err e end.
Definition map_err {E F A} (f : E → F) (r : result E A) : result F A :=
  match r with Ok a => Ok a | Err e => Err (f e) end.
Definition result_ok {E A} (r : result E A) : option A :=
  match r with Ok a => Some a | Err _ => None end.
Definition is_ok {E A} (r : result E A) : bool :=
  match r with Ok _ => true | Err _ => false end.

(** An early [return Err(e)] under a condition. *)
Notation "'reject' e 'when' b ; k" := (if (b : bool) then Err e else k)
  (at level 100, e at level 0, b at level 200, k at level 200,
   format "'[v' 'reject'  e  'when'  b ; '/' k ']'").

Section result_laws.
Context {E : Type}.

Lemma bind_Ok {A B} (m : result E A) (f : A → result E B) b :
  (m ≫= f) = Ok b ↔ ∃ a, m = Ok a ∧ f a = Ok b.
Proof. destruct m; simpl; naive_solver. Qed.

Lemma bind_Err {A B} (m : result E A) (f : A → result E B) e :
  (m ≫= f) = Err e ↔ m = Err e ∨ ∃ a, m = Ok a ∧ f a = Err e.
Proof. destruct m; simpl; naive_solver. Qed.

Lemma ok_or_Ok {A} (o : option A) (e : E) a : ok_or o e = Ok a ↔ o = Some a.
Proof. destruct o; simpl; naive_solver. Qed.

Lemma ok_or_Err {A} (o : option A) (e e' : E) :
  ok_or o e = Err e' ↔ o = None ∧ e = e'.
Proof. destruct o; simpl; naive_solver. Qed.

Lemma map_err_Ok {F A} (f : E → F) (r : result E A) a :
  map_err f r = Ok a ↔ r = Ok a.
Proof. destruct r; simpl; naive_solver. Qed.

Lemma reject_Ok {A} (e : E) (b : bool) (k : result E A) a :
  (if b then Err e else k) = Ok a ↔ b = false ∧ k = Ok a.
Proof. destruct b; naive_solver. Qed.

Lemma is_ok_Ok {A} (r : result E A) : is_ok r = true ↔ ∃ a, r = Ok a.
Proof. destruct r; simpl; naive_solver. Qed.
End result_laws.

(** ** Option combinators of the Rust standard library *)
Definition is_some_and {A} (f : A → bool) (o : option A) : bool :=
  match o with Some a => f a | None => false end.
Definition is_none_or {A} (f : A → bool) (o : option A) : bool :=
  match o with Some a => f a | None => true end.
(** [Option::and_then] *)
Definition and_then {A B} (o : option A) (f : A → option B) : option B :=
  match o with Some a => f a | None => None end.
Notation "o ?> f" := (and_then o f) (at level 61, left associativity).
Definition opt_zip {A B} (a : option A) (b : option B) : option (A * B) :=
  match a, b with Some x, Some y => Some (x, y) | _, _ => None end.
Definition opt_filter {A} (f : A → bool) (o : option A) : option A :=
  match o with Some a => if f a then Some a else None | None => None end.
Definition opt_list {A} (o : option A) : list A :=
  match o with Some a => [a] | None => [] end.
Definition opt_is_some {A} (o : option A) : bool :=
  match o with Some _ => true | None => false end.
(** [b.then_some(a)] *)
Definition then_some {A} (b : bool) (a : A) : option A :=
  if b then Some a else None.

(** [Iterator::try_fold] over an [Option]-valued step. *)
Fixpoint try_fold {A B} (f : A → B → option A) (acc : A) (l : list B) : option A :=
  match l with
  | [] => Some acc
  | x :: l' => match f acc x with Some acc' => try_fold f acc' l' | None => None end
  end.

Lemma opt_filter_Some {A} (f : A → bool) o a :
  opt_filter f o = Some a ↔ o = Some a ∧ f a = true.
Proof.
  destruct o as [x|]; simpl; [|split; [done|by intros [? _]]].
  destruct (f x) eqn:E; split; [by intros [= <-]|by intros [[= <-] _]|done|].
  intros [[= <-] ?]. congruence.
Qed.

(** ** Machine integers

    A [u64], [i64], ... is the [Z] it denotes; the operations write out the
    width. A value of the type lies in the range given by [is_u64], [is_i64]. *)
Definition u64_max : Z := 2 ^ 64 - 1.
Definition u128_max : Z := 2 ^ 128 - 1.
Definition i64_max : Z := 2 ^ 63 - 1.
Definition i64_min : Z := - 2 ^ 63.
Definition i32_max : Z := 2 ^ 31 - 1.
Definition i32_min : Z := - 2 ^ 31.

Definition is_u64 (z : Z) : Prop := 0 ≤ z ≤ u64_max.
Definition is_u128 (z : Z) : Prop := 0 ≤ z ≤ u128_max.
Definition is_i64 (z : Z) : Prop := i64_min ≤ z ≤ i64_max.

(** [lo..=hi] ranges: [(lo..=hi).contains(&z)]. *)
Definition in_range (lo hi z : Z) : bool := (lo <=? z) && (z <=? hi).

Definition u64_checked_add (a b : Z) : option Z :=
  if a + b <=? u64_max then Some (a + b) else None.
Definition u64_checked_sub (a b : Z) : option Z :=
  if b <=? a then Some (a - b) else None.
Definition u64_saturating_add (a b : Z) : Z := Z.min (a + b) u64_max.
Definition u128_checked_add (a b : Z) : option Z :=
  if a + b <=? u128_max then Some (a + b) else None.
Definition u128_checked_sub (a b : Z) : option Z :=
  if b <=? a then Some (a - b) else None.
(** [u64::try_from] of an unsigned wider integer *)
Definition u64_try_from (a : Z) : option Z :=
  if in_range 0 u64_max a then Some a else None.
Definition i32_try_from (a : Z) : option Z :=
  if in_range i32_min i32_max a then Some a else None.
Definition i64_checked_sub (a b : Z) : option Z :=
  if in_range i64_min i64_max (a - b) then Some (a - b) else None.
Definition i64_checked_mul (a b : Z) : option Z :=
  if in_range i64_min i64_max (a * b) then Some (a * b) else None.
Definition i64_saturating_sub (a b : Z) : Z :=
  Z.max i64_min (Z.min i64_max (a - b)).
Definition i64_saturating_add (a b : Z) : Z :=
  Z.max i64_min (Z.min i64_max (a + b)).

(** Unfold the machine constants for [lia]. *)
Ltac unfold_width :=
  unfold is_u64, is_u128, is_i64, u64_max, u128_max, i64_max, i64_min,
    i32_max, i32_min in *.
Ltac width := unfold_width; lia.
(** [lia] with division and remainder. *)
Ltac div_lia := Z.to_euclidean_division_equations; lia.

Section checked_arithmetic.
Lemma in_range_true lo hi z : in_range lo hi z = true ↔ lo ≤ z ≤ hi.
Proof. unfold in_range. lia. Qed.
Lemma in_range_false lo hi z : in_range lo hi z = false ↔ z < lo ∨ hi < z.
Proof. unfold in_range. lia. Qed.
Lemma u64_checked_add_Some a b c :
  u64_checked_add a b = Some c ↔ c = a + b ∧ a + b ≤ u64_max.
Proof. unfold u64_checked_add. case_match; split; intros; simplify_eq; naive_solver lia. Qed.
Lemma u64_checked_add_None a b :
  u64_checked_add a b = None ↔ u64_max < a + b.
Proof. unfold u64_checked_add. case_match; split; intros; simplify_eq; naive_solver lia. Qed.
Lemma u64_checked_sub_Some a b c :
  u64_checked_sub a b = Some c ↔ c = a - b ∧ b ≤ a.
Proof. unfold u64_checked_sub. case_match; split; intros; simplify_eq; naive_solver lia. Qed.
Lemma u64_checked_sub_None a b : u64_checked_sub a b = None ↔ a < b.
Proof. unfold u64_checked_sub. case_match; split; intros; simplify_eq; naive_solver lia. Qed.
Lemma u128_checked_add_Some a b c :
  u128_checked_add a b = Some c ↔ c = a + b ∧ a + b ≤ u128_max.
Proof. unfold u128_checked_add. case_match; split; intros; simplify_eq; naive_solver lia. Qed.
Lemma u128_checked_sub_Some a b c :
  u128_checked_sub a b = Some c ↔ c = a - b ∧ b ≤ a.
Proof. unfold u128_checked_sub. case_match; split; intros; simplify_eq; naive_solver lia. Qed.
Lemma u64_try_from_Some a c : u64_try_from a = Some c ↔ c = a ∧ is_u64 a.
Proof.
  unfold u64_try_from, is_u64. destruct (in_range 0 u64_max a) eqn:E.
  - apply in_range_true in E. naive_solver.
  - apply in_range_false in E. naive_solver lia.
Qed.
Lemma i64_checked_sub_Some a b c :
  i64_checked_sub a b = Some c ↔ c = a - b ∧ is_i64 (a - b).
Proof.
  unfold i64_checked_sub, is_i64. destruct (in_range _ _ _) eqn:E.
  - apply in_range_true in E. naive_solver.
  - apply in_range_false in E. naive_solver lia.
Qed.
End checked_arithmetic.

Create Rewrite HintDb checked.
#[export] Hint Rewrite @bind_Ok @ok_or_Ok @map_err_Ok @reject_Ok
  in_range_true in_range_false u64_checked_add_Some u64_checked_add_None
  u64_checked_sub_Some u64_checked_sub_None u128_checked_add_Some
  u128_checked_sub_Some u64_try_from_Some i64_checked_sub_Some : checked.

(** Invert every successful monadic step of the hypotheses. *)
Ltac inv_ok :=
  repeat match goal with
  | H : Ok _ = Ok _ |- _ => injection H as H; try subst
  | H : Err _ = Err _ |- _ => injection H as H; try subst
  | H : Ok _ = Err _ |- _ => discriminate H
  | H : Err _ = Ok _ |- _ => discriminate H
  | H : mret _ = Ok _ |- _ => unfold mret, result_ret in H
  | H : (_ ≫= _) = Ok _ |- _ => apply bind_Ok in H as (? & ? & H)
  | H : ok_or _ _ = Ok _ |- _ => apply ok_or_Ok in H
  | H : map_err _ _ = Ok _ |- _ => apply map_err_Ok in H
  | H : (if _ then Err _ else _) = Ok _ |- _ => apply reject_Ok in H as [? H]
  end.

(** ** Boolean quantifiers over lists *)
Section boolean_lists.
Context {A : Type} (f : A → bool).
Lemma forallb_Forall l : forallb f l = true ↔ Forall (λ x, f x = true) l.
Proof. rewrite Forall_forall, forallb_forall. by setoid_rewrite list_elem_of_In. Qed.
Lemma existsb_Exists l : existsb f l = true ↔ Exists (λ x, f x = true) l.
Proof. rewrite Exists_exists, existsb_exists. by setoid_rewrite list_elem_of_In. Qed.
Lemma existsb_false_Forall l : existsb f l = false ↔ Forall (λ x, f x = false) l.
Proof.
  induction l as [|x l IH]; simpl; [by split|].
  by rewrite orb_false_iff, IH, Forall_cons.
Qed.
End boolean_lists.

(** ** Stable sorting and searching of slices

    [slice::sort_by_key] is stable; insertion from the right keeps the order of
    equal keys. [slice::partition_point] is used on partitioned slices only. *)
Section sorting.
Context {A : Type} (leb : A → A → bool).
Fixpoint insert_sorted (x : A) (l : list A) : list A :=
  match l with
  | [] => [x]
  | y :: l' => if leb x y then x :: l else y :: insert_sorted x l'
  end.
Definition sort_by (l : list A) : list A := foldr insert_sorted [] l.

Lemma insert_sorted_perm x l : insert_sorted x l ≡ₚ x :: l.
Proof.
  induction l as [|y l IH]; simpl; [done|]. destruct (leb x y); [done|].
  rewrite IH. constructor.
Qed.
Lemma sort_by_perm l : sort_by l ≡ₚ l.
Proof. induction l as [|x l IH]; simpl; [done|]. by rewrite insert_sorted_perm, IH. Qed.
Lemma sort_by_elem x l : x ∈ sort_by l ↔ x ∈ l.
Proof. by rewrite sort_by_perm. Qed.

Context (leb_total : ∀ x y, leb x y = true ∨ leb y x = true).
Context (leb_trans : ∀ x y z, leb x y = true → leb y z = true → leb x z = true).
Lemma insert_sorted_sorted x l :
  StronglySorted (λ a b, leb a b = true) l →
  StronglySorted (λ a b, leb a b = true) (insert_sorted x l).
Proof.
  induction 1 as [|y l Hs IH Hy]; simpl; [by repeat constructor|].
  destruct (leb x y) eqn:E.
  - constructor; [by constructor|]. constructor; [done|].
    eapply Forall_impl; [exact Hy|]. eauto.
  - constructor; [done|]. rewrite insert_sorted_perm. constructor; [|done].
    destruct (leb_total x y); congruence.
Qed.
Lemma sort_by_sorted l : StronglySorted (λ a b, leb a b = true) (sort_by l).
Proof. induction l; simpl; [constructor|]. by apply insert_sorted_sorted. Qed.
End sorting.

Fixpoint partition_point {A} (pred : A → bool) (l : list A) : nat :=
  match l with
  | x :: l' => if pred x then S (partition_point pred l') else O
  | [] => O
  end.

Lemma partition_point_length {A} (pred : A → bool) l : (partition_point pred l ≤ length l)%nat.
Proof. induction l as [|x l IH]; simpl; [lia|]. destruct (pred x); lia. Qed.
(** On a partitioned slice the point separates the elements. *)
Lemma partition_point_lookup {A} (pred : A → bool) l i a :
  StronglySorted (λ a b, pred b = true → pred a = true) l → l !! i = Some a →
  (i < partition_point pred l)%nat ↔ pred a = true.
Proof.
  intros Hs. revert i. induction Hs as [|x l Hl IH Hx]; intros i Hi; simpl; [done|].
  destruct i as [|i]; simpl in Hi.
  - injection Hi as ->. destruct (pred a); [lia|]. split; [lia|done].
  - specialize (IH i Hi). destruct (pred x) eqn:E; [rewrite <-IH; lia|].
    rewrite Forall_forall in Hx. specialize (Hx a (list_elem_of_lookup_2 _ _ _ Hi)).
    split; [lia|]. intros Ha. apply Hx in Ha. congruence.
Qed.

(** [Iterator::filter_map] *)
Fixpoint filter_map {A B} (f : A → option B) (l : list A) : list B :=
  match l with
  | [] => []
  | x :: l' => match f x with Some y => y :: filter_map f l' | None => filter_map f l' end
  end.
Lemma elem_of_filter_map {A B} (f : A → option B) l y :
  y ∈ filter_map f l ↔ ∃ x, x ∈ l ∧ f x = Some y.
Proof.
  induction l as [|x l IH]; simpl.
  - split; [by intros ?%elem_of_nil|by intros (? & ?%elem_of_nil & _)].
  - destruct (f x) eqn:E; rewrite ?elem_of_cons, IH; setoid_rewrite elem_of_cons; naive_solver.
Qed.
Lemma elem_of_filter_bool {A} (p : A → bool) l (a : A) :
  a ∈ List.filter p l ↔ a ∈ l ∧ p a = true.
Proof. by rewrite !list_elem_of_In, filter_In. Qed.
Lemma filter_NoDup_map {A B} (f : A → B) (p : A → bool) l :
  NoDup (map f l) → NoDup (map f (List.filter p l)).
Proof.
  induction l as [|a l IH]; simpl; [done|]. intros [Ha Hl]%NoDup_cons.
  destruct (p a); [|by apply IH]. simpl. apply NoDup_cons. split; [|by apply IH].
  intros (b & E & Hb)%list_elem_of_fmap. apply Ha, list_elem_of_fmap. exists b.
  split; [done|]. by apply elem_of_filter_bool in Hb as [? _].
Qed.
Lemma map_inj_on {A B} (f : A → B) l (a b : A) :
  NoDup (map f l) → a ∈ l → b ∈ l → f a = f b → a = b.
Proof.
  induction l as [|c l IH]; intros Hnd Ha Hb E; [by apply elem_of_nil in Ha|].
  apply NoDup_cons in Hnd as [Hc Hnd]. apply elem_of_cons in Ha, Hb.
  destruct Ha as [->|Ha], Hb as [->|Hb]; [done| | |by apply IH];
    exfalso; apply Hc, list_elem_of_fmap; eauto.
Qed.
Lemma filter_map_app {A B} (f : A → option B) l l' :
  filter_map f (l ++ l') = filter_map f l ++ filter_map f l'.
Proof. induction l as [|a l IH]; simpl; [done|]. destruct (f a); simpl; by rewrite IH. Qed.
Lemma filter_map_perm {A B} (f : A → option B) l l' :
  l ≡ₚ l' → filter_map f l ≡ₚ filter_map f l'.
Proof.
  induction 1 as [|a l l' _ IH|a b l|l1 l2 l3 _ IH1 _ IH2]; simpl; [done| | |by etrans].
  - by destruct (f a); [f_equiv|].
  - destruct (f a), (f b); try done. by constructor.
Qed.
Lemma filter_bool_perm {A} (p : A → bool) l l' : l ≡ₚ l' → List.filter p l ≡ₚ List.filter p l'.
Proof.
  induction 1 as [|a l l' _ IH|a b l|]; simpl; [done| | |by etrans].
  - by destruct (p a); [f_equiv|].
  - destruct (p a), (p b); (done || apply perm_swap).
Qed.
Lemma filter_map_comm {A B} (f : A → B) (p : B → bool) l :
  List.filter p (map f l) = map f (List.filter (λ a, p (f a)) l).
Proof. induction l as [|a l IH]; simpl; [done|]. destruct (p (f a)); simpl; by rewrite IH. Qed.
Lemma filter_andb {A} (p q : A → bool) l :
  List.filter (λ a, p a && q a) l = List.filter q (List.filter p l).
Proof.
  induction l as [|a l IH]; simpl; [done|]. destruct (p a); simpl; [|done].
  by destruct (q a); [f_equal|].
Qed.

Section filters.
Context {A : Type} (f : A → bool).
Lemma StronglySorted_filter_bool (R : A → A → Prop) l :
  StronglySorted R l → StronglySorted R (List.filter f l).
Proof.
  induction 1 as [|x l Hs IH Hx]; simpl; [constructor|]. destruct (f x); [|done].
  constructor; [done|]. rewrite Forall_forall in *. intros y [? _]%elem_of_filter_bool. auto.
Qed.
End filters.

(** ** Loops that validate

    [for x in xs { ... return Err(e) ... }] with the variables the body updates
    as the state. [every P pre xs] says that each element of [xs] satisfies [P]
    against the elements before it; the lemmas below turn the common clauses
    into statements on the whole list. *)
Fixpoint fold_result {E S A} (step : S → A → result E S) (s : S) (xs : list A) : result E S :=
  match xs with
  | [] => Ok s
  | x :: rest => match step s x with Ok s => fold_result step s rest | Err e => Err e end
  end.

(** [decides e P I r]: [r] succeeds exactly under [P], with a value in [I], and
    fails with [e] only. *)
Definition decides {E S} (e : E) (P : Prop) (I : S → Prop) (r : result E S) : Prop :=
  match r with Ok s => P ∧ I s | Err e' => e' = e ∧ ¬ P end.
Section decides.
Context {E S : Type} (e : E) (I : S → Prop).
Lemma decides_iff (P Q : Prop) (r : result E S) :
  (P ↔ Q) → decides e P I r → decides e Q I r.
Proof. unfold decides. destruct r; tauto. Qed.
Lemma decides_ok (P : Prop) s : P → I s → decides e P I (Ok s).
Proof. by split. Qed.
Lemma decides_err (P : Prop) : ¬ P → decides e P I (Err e).
Proof. by split. Qed.
Lemma decides_reject (c : bool) (P Q : Prop) (k : result E S) :
  (c = false ↔ P) → (P → decides e Q I k) → decides e (P ∧ Q) I (if c then Err e else k).
Proof.
  intros Hc Hk. destruct c.
  - apply decides_err. intros [HP _]. by apply Hc in HP.
  - apply (decides_iff Q); [|by apply Hk, Hc]. assert P by by apply Hc. tauto.
Qed.
Lemma decides_reject_last (c : bool) (P : Prop) s :
  (c = false ↔ P) → (P → I s) → decides e P I (if c then Err e else Ok s).
Proof.
  intros Hc Hs. apply (decides_iff (P ∧ True)); [tauto|].
  apply decides_reject; [done|]. intros. apply decides_ok; auto.
Qed.
Lemma decides_bind {T} (P Q : Prop) (J : T → Prop) (r : result E S) (k : S → result E T) :
  decides e P I r → (∀ s, P → I s → decides e Q J (k s)) → decides e (P ∧ Q) J (r ≫= k).
Proof.
  unfold decides. intros Hr Hk. destruct r as [s|e']; simpl; [|tauto].
  destruct Hr as [HP HI]. specialize (Hk s HP HI). destruct (k s); tauto.
Qed.
End decides.

Fixpoint every {A} (P : list A → A → Prop) (pre xs : list A) : Prop :=
  match xs with
  | [] => True
  | x :: rest => P pre x ∧ every P (pre ++ [x]) rest
  end.

Section loops.
Context {A : Type}.
Implicit Types (P Q : list A → A → Prop) (pre xs : list A).

(** The loop ends well exactly when every element is admitted; [inv] is what the
    state says of the elements seen. *)
Lemma fold_result_every {E S} (e0 : E) (inv : list A → S → Prop) P (step : S → A → result E S) :
  (∀ pre s x, inv pre s → decides e0 (P pre x) (inv (pre ++ [x])) (step s x)) →
  ∀ xs pre s, inv pre s → decides e0 (every P pre xs) (inv (pre ++ xs)) (fold_result step s xs).
Proof.
  intros Hstep. induction xs as [|x xs IH]; intros pre s Hi; simpl.
  { rewrite app_nil_r. by split. }
  specialize (Hstep pre s x Hi). destruct (step s x) as [s'|e]; [|unfold decides in *; tauto].
  destruct Hstep as [HP Hi']. specialize (IH _ _ Hi'). rewrite <-(assoc_L (++)) in IH.
  simpl in IH. unfold decides in *. destruct (fold_result step s' xs); tauto.
Qed.
(** As [decides], whatever the error is. *)
Definition guards {E S} (P : Prop) (I : S → Prop) (r : result E S) : Prop :=
  match r with Ok s => P ∧ I s | Err _ => ¬ P end.
Lemma guards_bind {E S T} (P Q : Prop) (I : S → Prop) (J : T → Prop) (r : result E S)
    (k : S → result E T) :
  guards P I r → (∀ s, P → I s → guards Q J (k s)) → guards (P ∧ Q) J (r ≫= k).
Proof.
  unfold guards. intros Hr Hk. destruct r as [s|e]; simpl; [|tauto].
  destruct Hr as [HP HI]. specialize (Hk s HP HI). destruct (k s); tauto.
Qed.
Lemma guards_reject {E S} (c : bool) (P Q : Prop) (I : S → Prop) (e : E) (k : result E S) :
  (c = false ↔ P) → (P → guards Q I k) → guards (P ∧ Q) I (if c then Err e else k).
Proof.
  intros Hc Hk. unfold guards in *. destruct c.
  - intros [HP _]. by apply Hc in HP.
  - assert P as HP by by apply Hc. specialize (Hk HP). destruct k; tauto.
Qed.
Lemma guards_ok {E S} (r : result E S) (P : Prop) :
  (is_ok r = true ↔ P) → guards P (λ s, r = Ok s) r.
Proof. unfold guards. destruct r; simpl; intuition congruence. Qed.
Lemma guards_iff {E S} (P Q : Prop) (I : S → Prop) (r : result E S) :
  (P ↔ Q) → guards P I r → guards Q I r.
Proof. unfold guards. destruct r; tauto. Qed.
Lemma fold_result_guards {E S} (inv : list A → S → Prop) P (step : S → A → result E S) :
  (∀ pre s x, inv pre s → guards (P pre x) (inv (pre ++ [x])) (step s x)) →
  ∀ xs pre s, inv pre s → guards (every P pre xs) (inv (pre ++ xs)) (fold_result step s xs).
Proof.
  intros Hstep. induction xs as [|x xs IH]; intros pre s Hi; simpl.
  { rewrite app_nil_r. by split. }
  specialize (Hstep pre s x Hi). destruct (step s x) as [s'|e]; [|unfold guards in *; tauto].
  destruct Hstep as [HP Hi']. specialize (IH _ _ Hi'). rewrite <-(assoc_L (++)) in IH.
  simpl in IH. unfold guards in *. destruct (fold_result step s' xs); tauto.
Qed.
Lemma fold_result_decides {E S} (e0 : E) (inv : list A → S → Prop) P (Q : Prop)
    (step : S → A → result E S) s xs :
  inv [] s →
  (∀ pre s x, inv pre s → decides e0 (P pre x) (inv (pre ++ [x])) (step s x)) →
  (every P [] xs ↔ Q) →
  decides e0 Q (inv xs) (fold_result step s xs).
Proof. intros Hi Hstep HQ. apply (decides_iff _ _ _ _ _ HQ). by apply fold_result_every. Qed.

Lemma every_impl P Q pre xs : (∀ pre x, P pre x → Q pre x) → every P pre xs → every Q pre xs.
Proof. intros Himp. revert pre. induction xs; simpl; naive_solver. Qed.
Lemma every_iff P Q pre xs : (∀ pre x, P pre x ↔ Q pre x) → every P pre xs ↔ every Q pre xs.
Proof. intros Himp. split; apply every_impl; intros; by apply Himp. Qed.
Lemma every_split P pre xs :
  every P pre xs ↔ ∀ l1 x l2, xs = l1 ++ x :: l2 → P (pre ++ l1) x.
Proof.
  revert pre. induction xs as [|y xs IH]; intros pre; simpl.
  { split; [|done]. by intros _ [|] ? ?. }
  rewrite IH. split.
  - intros [Hy Hxs] [|z l1] x l2 [= <- ->]; [by rewrite app_nil_r|].
    specialize (Hxs l1 x l2 eq_refl). by rewrite <-(assoc_L (++)) in Hxs.
  - intros H. split; [by specialize (H [] y xs eq_refl); rewrite app_nil_r in H|].
    intros l1 x l2 ->. rewrite <-(assoc_L (++)). by apply (H (y :: l1) x l2).
Qed.
Lemma every_and P Q pre xs :
  every (λ pre x, P pre x ∧ Q pre x) pre xs ↔ every P pre xs ∧ every Q pre xs.
Proof. revert pre. induction xs; intros pre; simpl; [tauto|]. rewrite IHxs. tauto. Qed.
Lemma every_Forall (Q : A → Prop) pre xs : every (λ _, Q) pre xs ↔ Forall Q xs.
Proof. revert pre. induction xs; intros pre; simpl; [by split|]. by rewrite Forall_cons, IHxs. Qed.

Lemma every_pairs_aux (R : A → A → Prop) pre xs :
  every (λ pre x, ∀ y, y ∈ pre → R y x) pre xs ↔
  (∀ y x, y ∈ pre → x ∈ xs → R y x) ∧ StronglySorted R xs.
Proof.
  revert pre. induction xs as [|x xs IH]; intros pre; simpl.
  { split; [|done]. intros _. split; [by intros ? ? _ ?%elem_of_nil|constructor]. }
  rewrite IH. setoid_rewrite elem_of_app. setoid_rewrite elem_of_cons.
  setoid_rewrite elem_of_nil. split.
  - intros (H1 & H2 & H3). split; [naive_solver|]. constructor; [done|].
    apply Forall_forall. naive_solver.
  - intros [H1 H2]. inversion H2 as [|? ? H3 H4]. rewrite Forall_forall in H4. naive_solver.
Qed.
Lemma every_pairs (R : A → A → Prop) xs :
  every (λ pre x, ∀ y, y ∈ pre → R y x) [] xs ↔ StronglySorted R xs.
Proof. rewrite every_pairs_aux. split; [tauto|]. split; [|done]. by intros ? ? ?%elem_of_nil. Qed.
Lemma every_fresh {B} (f : A → B) xs :
  every (λ pre x, f x ∉ map f pre) [] xs ↔ NoDup (map f xs).
Proof.
  trans (every (λ pre x, ∀ y, y ∈ pre → f y ≠ f x) [] xs).
  { apply every_iff. intros pre x. rewrite list_elem_of_fmap. naive_solver. }
  rewrite every_pairs. induction xs as [|x xs IH]; simpl; [by split; constructor|].
  rewrite NoDup_cons, <-IH, list_elem_of_fmap. split.
  - inversion 1 as [|? ? Hs Hx]; subst. rewrite Forall_forall in Hx. naive_solver.
  - intros [Hx Hs]. constructor; [done|]. apply Forall_forall. naive_solver.
Qed.
(** Each element against the one just before it. *)
Lemma every_adjacent_aux (R : A → A → Prop) pre xs :
  every (λ pre x, ∀ y, last pre = Some y → R y x) pre xs ↔
  match xs with x :: _ => ∀ y, last pre = Some y → R y x | [] => True end ∧ Sorted R xs.
Proof.
  revert pre. induction xs as [|x xs IH]; intros pre; simpl; [by split; [split; [|constructor]|]|].
  rewrite IH, last_snoc. split.
  - intros (H1 & H2 & H3). split; [done|]. constructor; [done|].
    destruct xs; constructor. by apply H2.
  - intros [H1 H2]. inversion H2 as [|? ? H3 H4]; subst. split_and!; [done| |done].
    destruct xs; [done|]. inversion H4. naive_solver.
Qed.
Lemma every_adjacent (R : A → A → Prop) xs :
  every (λ pre x, ∀ y, last pre = Some y → R y x) [] xs ↔ Sorted R xs.
Proof. rewrite every_adjacent_aux. simpl. destruct xs; naive_solver. Qed.
End loops.

(** ** Results decided by the first violated clause *)
Fixpoint first_violation {E A} (clauses : list (E * Prop)) (value : A) (r : result E A) : Prop :=
  match clauses with
  | [] => r = Ok value
  | (e, P) :: rest => (¬ P ∧ r = Err e) ∨ (P ∧ first_violation rest value r)
  end.
Lemma first_violation_Ok {E A} clauses (value : A) (r : result E A) :
  first_violation clauses value r →
  (r = Ok value ↔ Forall (λ clause, snd clause) clauses).
Proof.
  induction clauses as [|[e P] rest IH]; simpl; [by intros ->|]. rewrite Forall_cons. simpl.
  intros [[? ->]|[? Hr]]; [naive_solver|]. rewrite (IH Hr). tauto.
Qed.
Lemma first_violation_last {E} (e : E) (P : Prop) (I : () → Prop) (r : result E ()) :
  decides e P I r → first_violation [(e, P)] tt r.
Proof. destruct r as [[]|e']; simpl; unfold decides; [tauto|]. intros [-> ?]. by left. Qed.
Section first_violation.
Context {E S A : Type} (e : E) (rest : list (E * Prop)) (value : A).
Lemma first_violation_reject (c : bool) (P : Prop) (k : result E A) :
  (c = false ↔ P) → (P → first_violation rest value k) →
  first_violation ((e, P) :: rest) value (if c then Err e else k).
Proof.
  intros Hc Hk. destruct c; simpl.
  - left. split; [|done]. intros HP. by apply Hc in HP.
  - right. assert P by by apply Hc. auto.
Qed.
Lemma first_violation_bind (P : Prop) (I : S → Prop) (r : result E S) (k : S → result E A) :
  decides e P I r → (∀ s, P → I s → first_violation rest value (k s)) →
  first_violation ((e, P) :: rest) value (r ≫= k).
Proof. intros Hr Hk. destruct r; simpl; [right|left]; destruct Hr; naive_solver. Qed.
End first_violation.

(** ** Splitting folds, filters and sorted lists *)
(** What every successful step of a fold preserves. *)
Lemma fold_result_ind {E S A} (inv : list A → S → Prop) (step : S → A → result E S) xs s s' :
  inv [] s →
  (∀ pre x s s', x ∈ xs → inv pre s → step s x = Ok s' → inv (pre ++ [x]) s') →
  fold_result step s xs = Ok s' → inv xs s'.
Proof.
  intros Hi Hstep. cut (∀ post pre s, pre ++ post = xs → inv pre s → fold_result step s post = Ok s' → inv xs s').
  { intros H. by apply (H xs []). }
  induction post as [|x post IH]; intros pre s0 Epre Hpre; simpl.
  { intros [= <-]. by rewrite app_nil_r in Epre; subst. }
  destruct (step s0 x) as [s1|e] eqn:Es; [|done]. apply (IH (pre ++ [x])).
  - by rewrite <-(assoc_L (++)).
  - apply (Hstep pre x s0); [|done..]. rewrite <-Epre, elem_of_app. right. apply list_elem_of_here.
Qed.
Lemma fold_result_app {E S A} (step : S → A → result E S) s l l' :
  fold_result step s (l ++ l') = (fold_result step s l ≫= λ s, fold_result step s l').
Proof.
  revert s. induction l as [|x l IH]; intros s; simpl; [done|]. destruct (step s x); simpl; [apply IH|done].
Qed.
(** A filter that holds up to some point splits the list there. *)
Lemma filter_split {A} (p : A → bool) l :
  StronglySorted (λ a b, p b = true → p a = true) l →
  l = List.filter p l ++ List.filter (λ a, negb (p a)) l.
Proof.
  induction 1 as [|a l _ IH Ha]; [done|]. simpl. destruct (p a) eqn:E; simpl; [by f_equal|].
  rewrite Forall_forall in Ha.
  assert (List.filter p l = []) as Hn.
  { destruct (List.filter p l) as [|b l'] eqn:Hf; [done|].
    assert (b ∈ List.filter p l) as Hb by (rewrite Hf; apply list_elem_of_here).
    apply elem_of_filter_bool in Hb as [Hb Hp]. specialize (Ha b Hb Hp). congruence. }
  rewrite Hn in *. simpl in *. by f_equal.
Qed.
Lemma filter_all {A} (p : A → bool) l : (∀ a, a ∈ l → p a = true) → List.filter p l = l.
Proof.
  induction l as [|a l IH]; intros Hall; simpl; [done|].
  rewrite (Hall a (list_elem_of_here _ _)). f_equal. apply IH. intros b Hb.
  by apply Hall, list_elem_of_further.
Qed.
Lemma filter_none {A} (p : A → bool) l : (∀ a, a ∈ l → p a = false) → List.filter p l = [].
Proof.
  induction l as [|a l IH]; intros Hall; simpl; [done|].
  rewrite (Hall a (list_elem_of_here _ _)). apply IH. intros b Hb.
  by apply Hall, list_elem_of_further.
Qed.
Lemma existsb_false {A} (p : A → bool) l : (∀ a, a ∈ l → p a = false) → existsb p l = false.
Proof.
  intros Hall. destruct (existsb p l) eqn:E; [|done]. apply existsb_exists in E as (a & Ha & Hp).
  rewrite <-list_elem_of_In in Ha. by rewrite Hall in Hp.
Qed.
Lemma StronglySorted_weaken {A} (R R' : A → A → Prop) l :
  (∀ a b, R a b → R' a b) → StronglySorted R l → StronglySorted R' l.
Proof.
  intros Hi. induction 1 as [|a l _ IH Ha]; constructor; [done|]. by eapply Forall_impl; [exact Ha|auto].
Qed.
Lemma StronglySorted_nth {A} (R : A → A → Prop) l i j a b :
  StronglySorted R l → l !! i = Some a → l !! j = Some b → (i < j)%nat → R a b.
Proof.
  intros Hs. revert i j. induction Hs as [|x l _ IH Hx]; intros i j Hi Hj Hij; [done|].
  destruct j as [|j]; [lia|]. destruct i as [|i]; simpl in Hi, Hj.
  - injection Hi as ->. rewrite Forall_forall in Hx. by apply Hx, list_elem_of_lookup_2 with j.
  - apply (IH i j); [done|done|lia].
Qed.
Lemma sort_by_map {A B} (leb : A → A → bool) (leb' : B → B → bool) (f : A → B) l :
  (∀ a b, leb' (f a) (f b) = leb a b) → map f (sort_by leb l) = sort_by leb' (map f l).
Proof.
  intros Hf. induction l as [|a l IH]; simpl; [done|]. rewrite <-IH.
  generalize (sort_by leb l). intros l0. induction l0 as [|b l0 IH0]; simpl; [done|].
  rewrite Hf. destruct (leb a b); simpl; [done|]. by rewrite IH0.
Qed.
(** Sorting by distinct times gives increasing times. *)
Lemma sort_by_strict {A} (time : A → Z) l :
  NoDup (map time l) → StronglySorted (λ a b, time a < time b) (sort_by (λ a b, time a <=? time b) l).
Proof.
  intros Hnd. assert (NoDup (map time (sort_by (λ a b, time a <=? time b) l))) as Hnd'
    by by rewrite (sort_by_perm _ _).
  assert (StronglySorted (λ a b, (time a <=? time b) = true) (sort_by (λ a b, time a <=? time b) l)) as Hs
    by (apply sort_by_sorted; [intros x y|intros x y z]; rewrite !Z.leb_le; lia).
  induction Hs as [|a l' Hl IH Ha]; [constructor|]. apply NoDup_cons in Hnd' as [Hnew Hnd'].
  constructor; [by apply IH|]. rewrite Forall_forall in *. intros b Hb. specialize (Ha b Hb).
  apply Z.leb_le in Ha. assert (time a ≠ time b); [|lia]. intros Heq. apply Hnew. rewrite Heq.
  by apply list_elem_of_fmap_2.
Qed.
