(* ===== verification/Text.v ===== *)
(** * Text: Rust strings as sequences of Unicode scalar values

    A [String]/[&str] is the list of its [char]s, each the [Z] of its scalar
    value. [str::len] counts UTF-8 bytes ([str_len]); [chars().count()] counts
    scalars. Comparing two strings byte by byte is comparing their scalars,
    because UTF-8 keeps the scalar order. *)

From S2P Require Import Prelude.
From Stdlib Require Import Ascii.

Abbreviation text := (list Z).

(** ** Literals of the source: UTF-8 bytes decoded to scalars *)
Fixpoint string_bytes (s : string) : list Z :=
  match s with
  | EmptyString => []
  | String a s' => Z.of_N (N_of_ascii a) :: string_bytes s'
  end.

Fixpoint utf8_scalars (bytes : list Z) : text :=
  match bytes with
  | [] => []
  | a :: rest =>
      if a <? 128 then a :: utf8_scalars rest
      else if a <? 224 then
        match rest with
        | b :: rest' => ((a - 192) * 64 + (b - 128)) :: utf8_scalars rest'
        | _ => []
        end
      else if a <? 240 then
        match rest with
        | b :: c :: rest' =>
            ((a - 224) * 4096 + (b - 128) * 64 + (c - 128)) :: utf8_scalars rest'
        | _ => []
        end
      else
        match rest with
        | b :: c :: d :: rest' =>
            ((a - 240) * 262144 + (b - 128) * 4096 + (c - 128) * 64 + (d - 128))
              :: utf8_scalars rest'
        | _ => []
        end
  end.

(** [lit "..."] is the source's string literal. *)
Definition lit (s : string) : text := utf8_scalars (string_bytes s).
Arguments lit s%_string_scope.

Definition text_eqb (a b : text) : bool := bool_decide (a = b).
(** [matches!(s, "a" | "b" | ...)] *)
Definition is_any (s : text) (alternatives : list string) : bool :=
  existsb (λ a, text_eqb s (lit a)) alternatives.
Arguments is_any s alternatives%_string_scope.

(** ** Lengths *)
Definition utf8_width (c : Z) : Z :=
  if c <? 128 then 1 else if c <? 2048 then 2 else if c <? 65536 then 3 else 4.
Definition str_len (s : text) : Z := foldr (λ c n, utf8_width c + n) 0 s.
(** [s.as_bytes()]: the UTF-8 encoding. *)
Definition utf8_char (c : Z) : list Z :=
  if c <? 128 then [c]
  else if c <? 2048 then [192 + c / 64; 128 + c mod 64]
  else if c <? 65536 then [224 + c / 4096; 128 + (c / 64) mod 64; 128 + c mod 64]
  else [240 + c / 262144; 128 + (c / 4096) mod 64; 128 + (c / 64) mod 64; 128 + c mod 64].
Definition as_bytes (s : text) : list Z := flat_map utf8_char s.
Definition chars_count (s : text) : Z := Z.of_nat (length s).

(** ** [char] predicates of the Rust standard library *)
Definition is_control (c : Z) : bool := in_range 0 31 c || in_range 127 159 c.
Definition is_ascii_digit (c : Z) : bool := in_range 48 57 c.
Definition is_whitespace (c : Z) : bool :=
  in_range 9 13 c || (c =? 32) || (c =? 133) || (c =? 160) || (c =? 5760)
  || in_range 8192 8202 c || (c =? 8232) || (c =? 8233) || (c =? 8239)
  || (c =? 8287) || (c =? 12288).

Definition to_ascii_lowercase (s : text) : text :=
  map (λ c, if in_range 65 90 c then c + 32 else c) s.
Definition to_ascii_uppercase (s : text) : text :=
  map (λ c, if in_range 97 122 c then c - 32 else c) s.

(** ** Trimming *)
Fixpoint trim_start_matches (p : Z → bool) (s : text) : text :=
  match s with
  | c :: s' => if p c then trim_start_matches p s' else s
  | [] => []
  end.
Definition trim_end_matches (p : Z → bool) (s : text) : text :=
  reverse (trim_start_matches p (reverse s)).
Definition trim_matches (p : Z → bool) (s : text) : text :=
  trim_end_matches p (trim_start_matches p s).
Definition trim (s : text) : text := trim_matches is_whitespace s.

(** ** Splitting *)
Fixpoint strip_prefix (p s : text) : option text :=
  match p, s with
  | [], _ => Some s
  | a :: p', b :: s' => if a =? b then strip_prefix p' s' else None
  | _ :: _, [] => None
  end.
(** [s.split(c)]: the components between separators, at least one. *)
Fixpoint split (c : Z) (s : text) : list text :=
  match s with
  | [] => [[]]
  | x :: s' =>
      if x =? c then [] :: split c s'
      else match split c s' with
           | w :: ws => (x :: w) :: ws
           | [] => [[x]]
           end
  end.
(** [s.split_once(pat)] *)
Fixpoint split_once (pat s : text) : option (text * text) :=
  match strip_prefix pat s with
  | Some rest => Some ([], rest)
  | None =>
      match s with
      | [] => None
      | c :: s' =>
          match split_once pat s' with
          | Some (before, after) => Some (c :: before, after)
          | None => None
          end
      end
  end.

(** ** Decimal numbers: [to_string] and [parse] *)
Fixpoint dec_digits (fuel : nat) (n : Z) (acc : text) : text :=
  match fuel with
  | O => acc
  | S fuel =>
      if n <? 10 then (48 + n) :: acc
      else dec_digits fuel (n / 10) ((48 + n mod 10) :: acc)
  end.
(** A decimal numeral has at most as many digits as binary digits. *)
Definition to_dec (n : Z) : text := dec_digits (S (Z.to_nat (Z.log2 n))) n [].

Fixpoint parse_digits (max acc : Z) (s : text) : option Z :=
  match s with
  | [] => Some acc
  | c :: s' =>
      if is_ascii_digit c && (acc * 10 + (c - 48) <=? max)
      then parse_digits max (acc * 10 + (c - 48)) s'
      else None
  end.
(** [s.parse::<u64>()], [s.parse::<u128>()]: at least one digit, an optional
    leading plus sign, no overflow. *)
Definition parse_unsigned (max : Z) (s : text) : option Z :=
  match s with
  | [] => None
  | c :: s' =>
      if c =? 43 then match s' with [] => None | _ => parse_digits max 0 s' end
      else parse_digits max 0 s
  end.

Section decimal.
Definition value_of (acc : Z) (s : text) : Z :=
  fold_left (λ a c, a * 10 + (c - 48)) s acc.
Definition digit (c : Z) : Prop := 48 ≤ c ≤ 57.

Lemma dec_digits_digit fuel n acc :
  0 ≤ n → Forall digit acc → Forall digit (dec_digits fuel n acc).
Proof.
  revert n acc. induction fuel as [|fuel IH]; simpl; intros n acc Hn Hacc; [done|].
  destruct (Z.ltb_spec n 10).
  - constructor; [unfold digit; lia|done].
  - apply IH; [div_lia|]. constructor; [unfold digit; div_lia|done].
Qed.

Lemma dec_digits_value fuel n acc :
  0 ≤ n < 2 ^ Z.of_nat fuel → value_of 0 (dec_digits fuel n acc) = value_of n acc.
Proof.
  revert n acc. induction fuel as [|fuel IH]; intros n acc Hn.
  - replace n with 0 by lia. done.
  - rewrite Nat2Z.inj_succ, Z.pow_succ_r in Hn by lia. simpl.
    destruct (Z.ltb_spec n 10).
    + unfold value_of. simpl. f_equal. lia.
    + rewrite IH; [|div_lia]. unfold value_of. simpl. f_equal. div_lia.
Qed.

Lemma value_of_ge acc s : 0 ≤ acc → Forall digit s → acc ≤ value_of acc s.
Proof.
  intros Hacc Hs. revert acc Hacc. induction Hs as [|c s Hc _ IH]; intros acc Hacc.
  - done.
  - unfold value_of in *. simpl. unfold digit in Hc.
    specialize (IH (acc * 10 + (c - 48))). lia.
Qed.

Lemma parse_digits_value max acc s :
  0 ≤ acc → Forall digit s → value_of acc s ≤ max →
  parse_digits max acc s = Some (value_of acc s).
Proof.
  intros Hacc Hs. revert acc Hacc. induction Hs as [|c s Hc Hs IH]; intros acc Hacc Hmax.
  - done.
  - simpl. pose proof Hc as Hd. unfold digit in Hd.
    assert (acc * 10 + (c - 48) ≤ max) as Hle.
    { transitivity (value_of (acc * 10 + (c - 48)) s); [apply value_of_ge; [lia|done]|done]. }
    replace (is_ascii_digit c && (acc * 10 + (c - 48) <=? max)) with true
      by (unfold is_ascii_digit, in_range; lia).
    apply IH; [lia|done].
Qed.

Lemma to_dec_digits n : 0 ≤ n → Forall digit (to_dec n).
Proof. intros. by apply dec_digits_digit. Qed.
Lemma to_dec_value n : 0 ≤ n → value_of 0 (to_dec n) = n.
Proof.
  intros Hn. unfold to_dec. rewrite dec_digits_value; [done|]. split; [done|].
  rewrite Nat2Z.inj_succ, Z2Nat.id by apply Z.log2_nonneg.
  destruct (decide (n = 0)) as [->|]; [done|]. apply Z.log2_spec. lia.
Qed.

Lemma to_dec_inj m n : 0 ≤ m → 0 ≤ n → to_dec m = to_dec n → m = n.
Proof. intros Hm Hn E. rewrite <-(to_dec_value m), <-(to_dec_value n), E by done. done. Qed.

Lemma dec_digits_nonnil fuel n acc : dec_digits (S fuel) n acc ≠ [].
Proof.
  revert n acc. induction fuel as [|fuel IH]; intros n acc; simpl in *.
  - by case_match.
  - case_match; [done|]. apply IH.
Qed.

(** Printing an unsigned number and parsing it back. *)
Lemma parse_to_dec max n : 0 ≤ n ≤ max → parse_unsigned max (to_dec n) = Some n.
Proof.
  intros [Hn Hmax]. pose proof (to_dec_digits n Hn) as Hd.
  pose proof (to_dec_value n Hn) as Hv. unfold parse_unsigned.
  destruct (to_dec n) as [|c s] eqn:E; [by destruct (dec_digits_nonnil _ _ _ E)|].
  replace (c =? 43) with false by (inversion Hd; unfold digit in *; lia).
  rewrite parse_digits_value; [by rewrite Hv|lia|done|lia].
Qed.

Lemma parse_digits_range max acc s n :
  0 ≤ acc ≤ max → parse_digits max acc s = Some n → 0 ≤ n ≤ max.
Proof.
  revert acc. induction s as [|c s IH]; intros acc Hacc; simpl; [naive_solver|].
  destruct (_ && _) eqn:E; [|done]. apply IH.
  unfold is_ascii_digit, in_range in E. lia.
Qed.
Lemma parse_unsigned_range max s n :
  0 ≤ max → parse_unsigned max s = Some n → 0 ≤ n ≤ max.
Proof.
  intros Hm. unfold parse_unsigned. destruct s as [|c s]; [done|].
  case_match; [case_match; [done|]|]; by apply parse_digits_range.
Qed.
End decimal.

Lemma text_eqb_true a b : text_eqb a b = true ↔ a = b.
Proof. unfold text_eqb. by rewrite bool_decide_eq_true. Qed.

(** ** Canonical decimals: digits without a superfluous leading zero *)
Section canonical.
Lemma value_of_snoc acc s c : value_of acc (s ++ [c]) = value_of acc s * 10 + (c - 48).
Proof. unfold value_of. by rewrite fold_left_app. Qed.

Lemma value_of_pos c s : 48 < c ≤ 57 → Forall digit s → 1 ≤ value_of 0 (c :: s).
Proof.
  intros Hc Hs. change (value_of 0 (c :: s)) with (value_of (c - 48) s).
  transitivity (c - 48); [lia|]. by apply value_of_ge; [lia|].
Qed.

Definition leading_ok (s : text) : Prop := length s = 1%nat ∨ head s ≠ Some 48.

Lemma dec_digits_canonical s fuel acc :
  s ≠ [] → Forall digit s → leading_ok s → (0 < fuel)%nat →
  value_of 0 s < 2 ^ Z.of_nat fuel →
  dec_digits fuel (value_of 0 s) acc = s ++ acc.
Proof.
  revert fuel acc. induction s as [|c s IH] using rev_ind; intros fuel acc Hne Hd Hl Hp Hf.
  { done. }
  apply Forall_app in Hd as [Hd Hc]. apply Forall_cons in Hc as [Hc _]. unfold digit in Hc.
  rewrite value_of_snoc in *. pose proof (value_of_ge 0 s ltac:(lia) Hd) as Hge.
  destruct fuel as [|fuel]; [lia|]. clear Hp.
  rewrite Nat2Z.inj_succ, Z.pow_succ_r in Hf by lia. cbn [dec_digits].
  destruct s as [|x s].
  - simpl app. change (value_of 0 []) with 0. rewrite Z.mul_0_l, Z.add_0_l.
    destruct (Z.ltb_spec (c - 48) 10); [|lia].
    by replace (48 + (c - 48)) with c by lia.
  - assert (1 ≤ value_of 0 (x :: s)) as Hpos.
    { inversion Hd as [|? ? Hx ?]; subst. unfold digit in Hx. apply value_of_pos; [|done].
      destruct Hl as [Hl|Hl]; simpl in Hl; [rewrite length_app in Hl; simpl in Hl; lia|].
      assert (x ≠ 48) by congruence. lia. }
    destruct (Z.ltb_spec (value_of 0 (x :: s) * 10 + (c - 48)) 10); [lia|].
    replace ((value_of 0 (x :: s) * 10 + (c - 48)) / 10) with (value_of 0 (x :: s))
      by div_lia.
    replace (48 + (value_of 0 (x :: s) * 10 + (c - 48)) mod 10) with c by div_lia.
    rewrite IH; [by rewrite <-app_assoc|done..| | |lia].
    2: { destruct fuel; [change (2 ^ Z.of_nat 0) with 1 in Hf; lia|lia]. }
    destruct Hl as [Hl|Hl]; [|by right]. left.
    rewrite length_app in Hl. simpl in *. lia.
Qed.

Lemma to_dec_canonical s :
  s ≠ [] → Forall digit s → leading_ok s → to_dec (value_of 0 s) = s.
Proof.
  intros Hne Hd Hl. unfold to_dec. rewrite dec_digits_canonical; [by rewrite app_nil_r|done..|lia|].
  pose proof (value_of_ge 0 s ltac:(lia) Hd) as Hge.
  rewrite Nat2Z.inj_succ, Z2Nat.id by apply Z.log2_nonneg.
  destruct (decide (value_of 0 s = 0)) as [->|]; [done|]. apply Z.log2_spec. lia.
Qed.

Lemma dec_digits_head fuel n acc :
  0 < n < 2 ^ Z.of_nat fuel → head (dec_digits fuel n acc) ≠ Some 48.
Proof.
  revert n acc. induction fuel as [|fuel IH]; intros n acc Hn; [simpl in Hn; lia|].
  rewrite Nat2Z.inj_succ, Z.pow_succ_r in Hn by lia. simpl.
  destruct (Z.ltb_spec n 10); [simpl; intros [= ?]; lia|]. apply IH. div_lia.
Qed.

Lemma to_dec_leading n : 0 ≤ n → leading_ok (to_dec n).
Proof.
  intros Hn. destruct (decide (n = 0)) as [->|]; [by left|]. right.
  apply dec_digits_head. rewrite Nat2Z.inj_succ, Z2Nat.id by apply Z.log2_nonneg.
  split; [lia|]. apply Z.log2_spec. lia.
Qed.

(** The decimal numerals are exactly the canonical digit strings. *)
Lemma to_dec_iff s :
  (∃ n, 0 ≤ n ∧ s = to_dec n) ↔ s ≠ [] ∧ Forall digit s ∧ leading_ok s.
Proof.
  split.
  - intros (n & Hn & ->). split_and!; [apply dec_digits_nonnil|by apply to_dec_digits|].
    by apply to_dec_leading.
  - intros (Hne & Hd & Hl). exists (value_of 0 s). split; [by apply value_of_ge|].
    by rewrite to_dec_canonical.
Qed.
End canonical.

(** ** Splitting and joining *)
Fixpoint join (c : Z) (ws : list text) : text :=
  match ws with
  | [] => []
  | [w] => w
  | w :: ws' => w ++ c :: join c ws'
  end.

Section splitting.
Lemma split_nonnil c s : split c s ≠ [].
Proof. destruct s as [|x s]; simpl; [done|]. repeat case_match; done. Qed.

Lemma join_split c s : join c (split c s) = s.
Proof.
  induction s as [|x s IH]; simpl; [done|].
  pose proof (split_nonnil c s) as Hne. destruct (split c s) as [|w ws]; [done|].
  destruct (Z.eqb_spec x c) as [->|]; simpl in *; [by rewrite IH|].
  destruct ws; simpl in *; by rewrite IH.
Qed.

Lemma split_absent c w : c ∉ w → split c w = [w].
Proof.
  induction w as [|x w IH]; simpl; [done|]. intros Hx. apply not_elem_of_cons in Hx as [Hx Hw].
  destruct (Z.eqb_spec x c); [congruence|]. by rewrite IH.
Qed.
Lemma split_app c w s : c ∉ w → split c (w ++ c :: s) = w :: split c s.
Proof.
  induction w as [|x w IH]; simpl; intros Hx; [by rewrite Z.eqb_refl|].
  apply not_elem_of_cons in Hx as [Hx Hw].
  destruct (Z.eqb_spec x c); [congruence|]. by rewrite IH.
Qed.

Lemma strip_prefix_Some p s r : strip_prefix p s = Some r ↔ s = p ++ r.
Proof.
  revert s. induction p as [|a p IH]; intros s; simpl; [naive_solver|].
  destruct s as [|b s]; [done|]. destruct (Z.eqb_spec a b) as [->|]; [|naive_solver].
  rewrite IH. naive_solver.
Qed.
Lemma strip_prefix_app p s : strip_prefix p (p ++ s) = Some s.
Proof. by apply strip_prefix_Some. Qed.

Lemma split_once_Some pat s b a : split_once pat s = Some (b, a) → s = b ++ pat ++ a.
Proof.
  revert b a. induction s as [|c s IH]; intros b a; simpl.
  - destruct (strip_prefix pat []) eqn:E; [|done]. intros [= <- <-].
    by apply strip_prefix_Some in E.
  - destruct (strip_prefix pat (c :: s)) eqn:E.
    + intros [= <- <-]. by apply strip_prefix_Some in E.
    + destruct (split_once pat s) as [[b' a']|]; [|done]. intros [= <- <-].
      simpl. f_equal. by apply IH.
Qed.

Lemma split_once_app x p b a :
  x ∉ b → split_once (x :: p) (b ++ (x :: p) ++ a) = Some (b, a).
Proof.
  induction b as [|c b IH]; intros Hx.
  - cbn [app split_once strip_prefix]. rewrite Z.eqb_refl. by rewrite strip_prefix_app.
  - apply not_elem_of_cons in Hx as [Hc Hb].
    change ((c :: b) ++ (x :: p) ++ a) with (c :: (b ++ (x :: p) ++ a)).
    cbn [split_once strip_prefix].
    destruct (Z.eqb_spec x c); [done|]. by rewrite IH.
Qed.
Lemma split_once_absent x p s : x ∉ s → split_once (x :: p) s = None.
Proof.
  induction s as [|c s IH]; intros Hx; [done|]. apply not_elem_of_cons in Hx as [Hc Hs].
  simpl. destruct (Z.eqb_spec x c); [done|]. by rewrite IH.
Qed.
End splitting.

(** ** Slices of bytes as UTF-8

    [String::from_utf8] accepts exactly the well-formed sequences: no overlong
    form, no surrogate, nothing above U+10FFFF. *)
Definition is_cont (b : Z) : bool := in_range 128 191 b.
Fixpoint from_utf8 (bytes : list Z) : option text :=
  match bytes with
  | [] => Some []
  | a :: rest =>
      if in_range 0 127 a then cons a <$> from_utf8 rest
      else if in_range 194 223 a then
        match rest with
        | b :: rest' =>
            if is_cont b then cons ((a - 192) * 64 + (b - 128)) <$> from_utf8 rest' else None
        | _ => None
        end
      else if in_range 224 239 a then
        match rest with
        | b :: c :: rest' =>
            let scalar := (a - 224) * 4096 + (b - 128) * 64 + (c - 128) in
            if is_cont b && is_cont c && (2048 <=? scalar) && negb (in_range 55296 57343 scalar)
            then cons scalar <$> from_utf8 rest' else None
        | _ => None
        end
      else if in_range 240 244 a then
        match rest with
        | b :: c :: d :: rest' =>
            let scalar := (a - 240) * 262144 + (b - 128) * 4096 + (c - 128) * 64 + (d - 128) in
            if is_cont b && is_cont c && is_cont d && in_range 65536 1114111 scalar
            then cons scalar <$> from_utf8 rest' else None
        | _ => None
        end
      else None
  end.

(** ** Prefixes and suffixes *)
Definition starts_with (s p : text) : bool := opt_is_some (strip_prefix p s).
Definition ends_with (s p : text) : bool := bool_decide (p `suffix_of` s).
Definition is_ascii (s : text) : bool := forallb (λ c, c <? 128) s.
Definition is_ascii_alphanumeric (c : Z) : bool :=
  is_ascii_digit c || in_range 65 90 c || in_range 97 122 c.
Definition is_ascii_hexdigit (c : Z) : bool :=
  is_ascii_digit c || in_range 65 70 c || in_range 97 102 c.
Definition eq_ignore_ascii_case (a b : text) : bool :=
  text_eqb (to_ascii_lowercase a) (to_ascii_lowercase b).
(** [s.contains(c)] *)
Definition contains_char (s : text) (c : Z) : bool := existsb (Z.eqb c) s.

Lemma str_len_ascii s : is_ascii s = true → str_len s = chars_count s.
Proof.
  unfold is_ascii, chars_count. induction s as [|c s IH]; simpl; [done|].
  intros [Hc Hs]%andb_true_iff. unfold utf8_width. rewrite Hc, IH by done. lia.
Qed.

(** ** The order of strings *)
Fixpoint text_compare (a b : text) : comparison :=
  match a, b with
  | [], [] => Eq
  | [], _ => Lt
  | _, [] => Gt
  | x :: a', y :: b' => match x ?= y with Eq => text_compare a' b' | c => c end
  end.

Lemma text_compare_Eq a b : text_compare a b = Eq ↔ a = b.
Proof.
  revert b. induction a as [|x a IH]; intros [|y b]; simpl; try done.
  destruct (Z.compare_spec x y) as [->| |]; [rewrite IH|..]; split; try done;
    intros [=]; subst; try done; lia.
Qed.
Lemma text_compare_antisym a b : text_compare b a = CompOpp (text_compare a b).
Proof.
  revert b. induction a as [|x a IH]; intros [|y b]; simpl; try done.
  rewrite (Z.compare_antisym x y). destruct (x ?= y); simpl; [apply IH|done|done].
Qed.
Lemma text_compare_trans a b c :
  text_compare a b ≠ Gt → text_compare b c ≠ Gt → text_compare a c ≠ Gt.
Proof.
  revert b c. induction a as [|x a IH]; intros [|y b] [|z c]; simpl; try done.
  destruct (Z.compare_spec x y), (Z.compare_spec y z), (Z.compare_spec x z);
    try done; try lia; apply IH.
Qed.

(** The order of the bytes: of [ORDER BY] on text columns and of [BTreeMap<String, _>]. *)
Definition text_leb (a b : text) : bool :=
  match text_compare a b with Gt => false | _ => true end.
Lemma text_leb_total a b : text_leb a b = true ∨ text_leb b a = true.
Proof. unfold text_leb. rewrite (text_compare_antisym a b). destruct (text_compare a b); auto. Qed.
Lemma text_leb_trans a b c : text_leb a b = true → text_leb b c = true → text_leb a c = true.
Proof.
  unfold text_leb. pose proof (text_compare_trans a b c).
  destruct (text_compare a b), (text_compare b c), (text_compare a c); naive_solver.
Qed.
Lemma text_leb_antisym a b : text_leb a b = true → text_leb b a = true → a = b.
Proof.
  unfold text_leb. rewrite (text_compare_antisym a b). pose proof (text_compare_Eq a b).
  destruct (text_compare a b); naive_solver.
Qed.

(** The entries of a [BTreeMap<String, _>], in the order of its keys. *)
Definition rows {A} (values : gmap text A) : list (text * A) :=
  sort_by (λ a b, text_leb a.1 b.1) (map_to_list values).
Lemma elem_of_rows {A} (values : gmap text A) k a : (k, a) ∈ rows values ↔ values !! k = Some a.
Proof. unfold rows. by rewrite sort_by_elem, elem_of_map_to_list. Qed.
Lemma rows_NoDup {A} (values : gmap text A) : NoDup (map fst (rows values)).
Proof. unfold rows. rewrite (sort_by_perm _ _). apply NoDup_fst_map_to_list. Qed.
Lemma rows_sorted {A} (values : gmap text A) :
  StronglySorted (λ a b, text_leb a.1 b.1 = true) (rows values).
Proof.
  apply sort_by_sorted; [intros x y; apply text_leb_total|intros x y z; apply text_leb_trans].
Qed.
