(* ===== verification/Float64.v ===== *)
(** * IEEE-754 binary64

    [f64] is the Standard Library's executable specification of binary
    floats at precision 53 and exponent bound 1024, so every operation rounds
    as the source's hardware does (round to nearest, ties to even). *)

From S2P Require Import Prelude.
From Stdlib Require Import SpecFloat.

Abbreviation f64 := spec_float.
#[export] Instance spec_float_eq_dec : EqDecision spec_float.
Proof. solve_decision. Defined.

Definition f64_add : f64 → f64 → f64 := SFadd 53 1024.
Definition f64_mul : f64 → f64 → f64 := SFmul 53 1024.
Definition f64_div : f64 → f64 → f64 := SFdiv 53 1024.
(** [x as f64] of an integer: correctly rounded. *)
Definition f64_of_Z (z : Z) : f64 := binary_normalize 53 1024 z 0 false.
(** The literal [n.d] read as the ratio of two exactly represented integers:
    division rounds once, to the double nearest the decimal. *)
Definition f64_ratio (num den : Z) : f64 := f64_div (f64_of_Z num) (f64_of_Z den).

Definition f64_is_finite (x : f64) : bool :=
  match x with S754_zero _ | S754_finite _ _ _ => true | _ => false end.
Definition f64_eqb (x y : f64) : bool := SFeqb x y.
Definition f64_ltb (x y : f64) : bool := SFltb x y.
Definition f64_leb (x y : f64) : bool := SFleb x y.
Definition f64_zero : f64 := f64_of_Z 0.

(** The comparison is transitive; a NaN is below nothing. *)
Lemma f64_leb_trans a b c : f64_leb a b = true → f64_leb b c = true → f64_leb a c = true.
Proof.
  unfold f64_leb, SFleb, SFcompare.
  destruct a as [[]|[]| |[] ma ea], b as [[]|[]| |[] mb eb], c as [[]|[]| |[] mc ec]; try done;
    destruct (Z.compare_spec ea eb), (Z.compare_spec eb ec), (Z.compare_spec ea ec);
    subst; try lia; try done;
    repeat match goal with |- context [Pos.compare_cont Eq ?x ?y] =>
      change (Pos.compare_cont Eq x y) with (Pos.compare x y) end;
    destruct (Pos.compare_spec ma mb), (Pos.compare_spec mb mc), (Pos.compare_spec ma mc); subst; try lia; done.
Qed.
