(* ===== verification/TokenFacts.v ===== *)
(** * Lossless token arithmetic

    Models [crates/codex-info-rest-contract/src/token_facts.rs]: a token fact
    is a total with four components any of which may be unknown; facts
    describe one consumption, raw counters are running values, a delta of two
    counters is a fact and facts can be summed. *)

From S2P Require Import Prelude.

Record TokenFacts := {
  tf_total : Z;
  tf_input : option Z;
  tf_cached_input : option Z;
  tf_cache_write_input : option Z;
  tf_output : option Z
}.

Inductive TokenFactError :=
  | ComponentExceedsTotal
  | TotalDoesNotMatchComponents
  | DiscountedInputExceedsInput
  | ArithmeticOverflow
  | CounterRegression.

#[export] Instance TokenFacts_eq_dec : EqDecision TokenFacts.
Proof. solve_decision. Defined.
#[export] Instance TokenFactError_eq_dec : EqDecision TokenFactError.
Proof. solve_decision. Defined.

Definition tf_validate (self : TokenFacts) (exact_total : bool) :
    result TokenFactError () :=
  reject ComponentExceedsTotal when
    is_some_and (λ value, tf_total self <? value) (tf_input self)
    || is_some_and (λ value, tf_total self <? value) (tf_output self);
  _ ← match opt_zip (tf_input self) (tf_output self) with
      | Some (input, output) =>
          sum ← ok_or (u64_checked_add input output) ArithmeticOverflow;
          reject TotalDoesNotMatchComponents when
            (tf_total self <? sum) || (exact_total && negb (sum =? tf_total self));
          Ok ()
      | None => Ok ()
      end;
  lower_bound ←
    ok_or (try_fold (λ sum value, u64_checked_add sum value) 0
             (opt_list (tf_cached_input self) ++ opt_list (tf_cache_write_input self)))
          ArithmeticOverflow;
  let input_bound :=
    match tf_input self, tf_output self with
    | Some input, _ => input
    | None, Some output => tf_total self - output
    | None, None => tf_total self
    end in
  reject DiscountedInputExceedsInput when input_bound <? lower_bound;
  Ok ().

Definition validate_fact (self : TokenFacts) := tf_validate self true.
Definition validate_raw_counter (self : TokenFacts) := tf_validate self false.

Definition subtract (current previous : option Z) :
    result TokenFactError (option Z) :=
  match opt_zip current previous with
  | Some (current, previous) =>
      ok_or (Some <$> u64_checked_sub current previous) CounterRegression
  | None => Ok None
  end.

Definition add (left_ right_ : option Z) : result TokenFactError (option Z) :=
  match opt_zip left_ right_ with
  | Some (left_, right_) =>
      ok_or (Some <$> u64_checked_add left_ right_) ArithmeticOverflow
  | None => Ok None
  end.

Definition checked_delta (self previous : TokenFacts) :
    result TokenFactError TokenFacts :=
  _ ← validate_raw_counter self;
  _ ← validate_raw_counter previous;
  total ← ok_or (u64_checked_sub (tf_total self) (tf_total previous)) CounterRegression;
  input ← subtract (tf_input self) (tf_input previous);
  cached_input ← subtract (tf_cached_input self) (tf_cached_input previous);
  cache_write_input ←
    subtract (tf_cache_write_input self) (tf_cache_write_input previous);
  output ← subtract (tf_output self) (tf_output previous);
  let delta := {|
    tf_total := total; tf_input := input; tf_cached_input := cached_input;
    tf_cache_write_input := cache_write_input; tf_output := output |} in
  _ ← validate_fact delta;
  Ok delta.

Definition checked_sum (self other : TokenFacts) :
    result TokenFactError TokenFacts :=
  _ ← validate_fact self;
  _ ← validate_fact other;
  total ← ok_or (u64_checked_add (tf_total self) (tf_total other)) ArithmeticOverflow;
  input ← add (tf_input self) (tf_input other);
  cached_input ← add (tf_cached_input self) (tf_cached_input other);
  cache_write_input ← add (tf_cache_write_input self) (tf_cache_write_input other);
  output ← add (tf_output self) (tf_output other);
  let sum := {|
    tf_total := total; tf_input := input; tf_cached_input := cached_input;
    tf_cache_write_input := cache_write_input; tf_output := output |} in
  _ ← validate_fact sum;
  Ok sum.

(** ** Well-formed values: every number is a [u64] *)
Definition opt_u64 (o : option Z) : Prop := from_option is_u64 True o.

Record tf_wf (t : TokenFacts) : Prop := {
  wf_total : is_u64 (tf_total t);
  wf_input : opt_u64 (tf_input t);
  wf_cached_input : opt_u64 (tf_cached_input t);
  wf_cache_write_input : opt_u64 (tf_cache_write_input t);
  wf_output : opt_u64 (tf_output t)
}.

(** ** Specification: what an unknown component may stand for *)

(** [completes t i c w o]: the numbers [i], [c], [w], [o] (input, cached
    input, cache writes, output) agree with every component [t] knows. *)
Definition agrees (known : option Z) (v : Z) : Prop :=
  0 ≤ v ∧ from_option (λ k, v = k) True known.
Definition completes (t : TokenFacts) (i c w o : Z) : Prop :=
  agrees (tf_input t) i ∧ agrees (tf_cached_input t) c
  ∧ agrees (tf_cache_write_input t) w ∧ agrees (tf_output t) o.

(** A consumption splits its total exactly into input and output; a running
    counter may hold a context adjustment beyond them. Discounted input is
    part of the input. *)
Definition splits (exact : bool) (t : TokenFacts) (i c w o : Z) : Prop :=
  (if exact then i + o = tf_total t else i + o ≤ tf_total t) ∧ c + w ≤ i.
Definition satisfiable (exact : bool) (t : TokenFacts) : Prop :=
  ∃ i c w o, completes t i c w o ∧ splits exact t i c w o.

Ltac tf_cases t :=
  destruct t as [? [?|] [?|] [?|] [?|]].

Ltac tf_unfold :=
  unfold validate_fact, validate_raw_counter, tf_validate, satisfiable,
    completes, splits, agrees, opt_u64, is_u64, u64_checked_add, u64_checked_sub,
    subtract, add, ok_or, mbind, result_bind, fmap, option_fmap, option_map,
    opt_zip, is_some_and in *;
  cbn -[Z.add Z.sub Z.ltb Z.leb Z.eqb u64_max] in *.

Ltac destruct_if :=
  match goal with
  | |- context [if ?b then _ else _] => destruct b eqn:?
  | H : context [if ?b then _ else _] |- _ => destruct b eqn:?
  end.

(** The completion [tf_validate] implicitly chooses: the largest input the
    known components allow, zero for an unknown discounted component. *)
Definition widest_input (t : TokenFacts) : Z :=
  match tf_input t, tf_output t with
  | Some i, _ => i
  | None, Some o => tf_total t - o
  | None, None => tf_total t
  end.

Ltac tf_solve t :=
  tf_cases t; tf_unfold; repeat (destruct_if; try discriminate; try (exfalso; lia));
  try done; try lia.

Lemma tf_validate_complete t exact :
  tf_wf t → satisfiable exact t → tf_validate t exact = Ok ().
Proof. intros [H1 H2 H3 H4 H5] (i & c & w & o & H). destruct exact; tf_solve t. Qed.

Lemma tf_validate_sound t exact :
  tf_wf t → tf_validate t exact = Ok () → satisfiable exact t.
Proof.
  intros [H1 H2 H3 H4 H5] H.
  exists (widest_input t), (default 0 (tf_cached_input t)),
    (default 0 (tf_cache_write_input t)),
    (default (tf_total t - widest_input t) (tf_output t)).
  unfold widest_input. destruct exact; tf_solve t.
Qed.

Lemma tf_validate_satisfiable t exact :
  tf_wf t → tf_validate t exact = Ok () ↔ satisfiable exact t.
Proof. split; [by apply tf_validate_sound | by apply tf_validate_complete]. Qed.

(** ** Deltas and sums, component by component *)

Lemma subtract_Ok c p d :
  subtract c p = Ok d ↔
  match c, p with
  | Some x, Some y => y ≤ x ∧ d = Some (x - y)
  | _, _ => d = None
  end.
Proof.
  unfold subtract, opt_zip, u64_checked_sub.
  destruct c, p; try destruct_if; simpl; split; intros; simplify_eq; naive_solver lia.
Qed.

Lemma add_Ok x y s :
  add x y = Ok s ↔
  match x, y with
  | Some a, Some b => a + b ≤ u64_max ∧ s = Some (a + b)
  | _, _ => s = None
  end.
Proof.
  unfold add, opt_zip, u64_checked_add.
  destruct x, y; try destruct_if; simpl; split; intros; simplify_eq; naive_solver lia.
Qed.

(** The pointwise view of a delta and of a sum. *)
Definition is_delta (c p d : option Z) : Prop := subtract c p = Ok d.
Definition is_sum (x y s : option Z) : Prop := add x y = Ok s.

Record tf_pointwise (R : Z → Z → Z → Prop) (Q : option Z → option Z → option Z → Prop)
    (a b c : TokenFacts) : Prop := {
  pw_total : R (tf_total a) (tf_total b) (tf_total c);
  pw_input : Q (tf_input a) (tf_input b) (tf_input c);
  pw_cached_input : Q (tf_cached_input a) (tf_cached_input b) (tf_cached_input c);
  pw_cache_write_input :
    Q (tf_cache_write_input a) (tf_cache_write_input b) (tf_cache_write_input c);
  pw_output : Q (tf_output a) (tf_output b) (tf_output c)
}.

Lemma checked_delta_Ok cur prev d :
  checked_delta cur prev = Ok d ↔
  validate_raw_counter cur = Ok () ∧ validate_raw_counter prev = Ok ()
  ∧ tf_pointwise (λ c p d, p ≤ c ∧ d = c - p) is_delta cur prev d
  ∧ validate_fact d = Ok ().
Proof.
  unfold checked_delta. split.
  - intros H. inv_ok. rewrite u64_checked_sub_Some in *. destruct_and!; simplify_eq.
    repeat match goal with u : () |- _ => destruct u end. by repeat split.
  - intros (-> & -> & [[? Ht] Hi Hc Hw Ho] & Hd). unfold is_delta in *. simpl.
    rewrite (proj2 (u64_checked_sub_Some _ _ _) (conj Ht H)). simpl.
    rewrite Hi, Hc, Hw, Ho. simpl. destruct d; simpl in *. by rewrite Hd.
Qed.

Lemma checked_sum_Ok a b s :
  checked_sum a b = Ok s ↔
  validate_fact a = Ok () ∧ validate_fact b = Ok ()
  ∧ tf_pointwise (λ a b s, a + b ≤ u64_max ∧ s = a + b) is_sum a b s
  ∧ validate_fact s = Ok ().
Proof.
  unfold checked_sum. split.
  - intros H. inv_ok. rewrite u64_checked_add_Some in *. destruct_and!; simplify_eq.
    repeat match goal with u : () |- _ => destruct u end. by repeat split.
  - intros (-> & -> & [[? Ht] Hi Hc Hw Ho] & Hd). unfold is_sum in *. simpl.
    rewrite (proj2 (u64_checked_add_Some _ _ _) (conj Ht H)). simpl.
    rewrite Hi, Hc, Hw, Ho. simpl. destruct s; simpl in *. by rewrite Hd.
Qed.

Lemma satisfiable_weaken t : satisfiable true t → satisfiable false t.
Proof. intros (i & c & w & o & H & Hs & Hc). exists i, c, w, o. split; [done|]. split; lia. Qed.

Definition opt_add (x y : option Z) : option Z :=
  match x, y with Some a, Some b => Some (a + b) | _, _ => None end.
Definition pointwise_sum (a b : TokenFacts) : TokenFacts := {|
  tf_total := tf_total a + tf_total b;
  tf_input := opt_add (tf_input a) (tf_input b);
  tf_cached_input := opt_add (tf_cached_input a) (tf_cached_input b);
  tf_cache_write_input := opt_add (tf_cache_write_input a) (tf_cache_write_input b);
  tf_output := opt_add (tf_output a) (tf_output b) |}.

Lemma agrees_add x y a b : agrees x a → agrees y b → agrees (opt_add x y) (a + b).
Proof. intros [? Hx] [? Hy]. split; [lia|]. destruct x, y; simpl in *; lia. Qed.

(** Pointwise sums of consumptions are consumptions: completions add up. *)
Lemma satisfiable_sum a b :
  satisfiable true a → satisfiable true b → satisfiable true (pointwise_sum a b).
Proof.
  intros (i & c & w & o & (?&?&?&?) & ? & ?) (i' & c' & w' & o' & (?&?&?&?) & ? & ?).
  exists (i + i'), (c + c'), (w + w'), (o + o'). split.
  - refine (conj _ (conj _ (conj _ _))); by eapply agrees_add.
  - simpl in *. unfold splits, pointwise_sum. simpl. lia.
Qed.

(** Every known component of a consumption is bounded by its total. *)
Definition opt_le (o : option Z) (n : Z) : Prop := from_option (λ v, 0 ≤ v ≤ n) True o.
Lemma satisfiable_le t :
  satisfiable true t →
  opt_le (tf_input t) (tf_total t) ∧ opt_le (tf_cached_input t) (tf_total t)
  ∧ opt_le (tf_cache_write_input t) (tf_total t) ∧ opt_le (tf_output t) (tf_total t).
Proof.
  intros (i & c & w & o & (?&?&?&?) & ? & ?). unfold agrees, opt_le in *.
  tf_cases t; simpl in *; lia.
Qed.

Lemma is_sum_opt_add x y m n :
  opt_le x m → opt_le y n → m + n ≤ u64_max → is_sum x y (opt_add x y).
Proof. unfold is_sum, opt_le. rewrite add_Ok. destruct x, y; simpl; try done. intros. split; [lia|done]. Qed.

Lemma is_sum_wf x y s m n :
  is_sum x y s → opt_le x m → opt_le y n → m + n ≤ u64_max → opt_u64 s.
Proof.
  unfold is_sum, opt_le, opt_u64, is_u64. rewrite add_Ok.
  destruct x, y; simpl; intros; simplify_eq/=; destruct_and?; simplify_eq/=; try done; lia.
Qed.

Lemma pointwise_sum_valid a b :
  tf_wf a → tf_wf b → validate_fact a = Ok () → validate_fact b = Ok () →
  tf_total a + tf_total b ≤ u64_max →
  tf_wf (pointwise_sum a b) ∧ validate_fact (pointwise_sum a b) = Ok ()
  ∧ tf_pointwise (λ a b s, a + b ≤ u64_max ∧ s = a + b) is_sum a b (pointwise_sum a b).
Proof.
  intros Ha Hb Va Vb Hfit.
  pose proof (proj1 (tf_validate_satisfiable _ _ Ha) Va) as Sa.
  pose proof (proj1 (tf_validate_satisfiable _ _ Hb) Vb) as Sb.
  destruct (satisfiable_le _ Sa) as (?&?&?&?), (satisfiable_le _ Sb) as (?&?&?&?).
  assert (tf_pointwise (λ a b s, a + b ≤ u64_max ∧ s = a + b) is_sum
            a b (pointwise_sum a b)) as Hpw by (split; [done|..]; by eapply is_sum_opt_add).
  assert (tf_wf (pointwise_sum a b)) as Hwf.
  { destruct Hpw. split; [destruct Ha as [[] _ _ _ _], Hb as [[] _ _ _ _]; split; simpl; lia|..];
      by eapply is_sum_wf. }
  split_and!; [done| |done]. apply tf_validate_satisfiable; [done|]. by apply satisfiable_sum.
Qed.
Lemma checked_sum_fits a b :
  tf_wf a → tf_wf b → validate_fact a = Ok () → validate_fact b = Ok () →
  tf_total a + tf_total b ≤ u64_max → checked_sum a b = Ok (pointwise_sum a b).
Proof.
  intros Ha Hb Va Vb Hfit. apply checked_sum_Ok.
  by destruct (pointwise_sum_valid a b) as (_ & ? & ?).
Qed.

(** A token fact is accepted exactly when its unknown components can be
    filled in so that input and output partition the total and the discounted
    input (cached and cache-write) fits in the input; a raw counter exactly
    when input and output fit in the total. Unknown components never hide a
    contradiction and are never invented. *)
Theorem validate_satisfiable t :
  tf_wf t →
  (validate_fact t = Ok () ↔
     ∃ i c w o, completes t i c w o ∧ i + o = tf_total t ∧ c + w ≤ i)
  ∧ (validate_raw_counter t = Ok () ↔
     ∃ i c w o, completes t i c w o ∧ i + o ≤ tf_total t ∧ c + w ≤ i).
Proof. intros Hwf. split; exact (tf_validate_satisfiable t _ Hwf). Qed.

(** Summing two accepted facts never produces an inconsistent fact: the
    result is the component-wise sum (unknown where either side is unknown)
    exactly when the totals fit in 64 bits, and otherwise the error is
    [ArithmeticOverflow]. *)
Theorem checked_sum_total_decides a b :
  tf_wf a → tf_wf b → validate_fact a = Ok () → validate_fact b = Ok () →
  checked_sum a b =
    if tf_total a + tf_total b <=? u64_max then Ok (pointwise_sum a b)
    else Err ArithmeticOverflow.
Proof.
  intros Ha Hb Va Vb. destruct (Z.leb_spec (tf_total a + tf_total b) u64_max).
  - by apply checked_sum_fits.
  - unfold checked_sum. rewrite Va, Vb. simpl.
    by rewrite (proj2 (u64_checked_add_None _ _)).
Qed.

(** [known_in a b]: [b] knows at least the components [a] knows. *)
Definition known_in (x y : option Z) : Prop := is_Some x → is_Some y.

Lemma is_delta_telescope x y z d e s :
  is_delta y x d → is_delta z y e → is_sum d e s →
  (is_Some x → is_Some z → is_Some y) → is_delta z x s.
Proof.
  unfold is_delta, is_sum. rewrite !subtract_Ok, add_Ok. unfold is_Some.
  destruct x, y, z; intros; simplify_eq/=; destruct_and?; simplify_eq/=; destruct_and?;
    simplify_eq/=; try done; try naive_solver.
  all: split; [lia|f_equal; lia].
Qed.

Definition bridges (f : TokenFacts → option Z) (a b c : TokenFacts) : Prop :=
  is_Some (f a) → is_Some (f c) → is_Some (f b).

(** Counter deltas telescope: when the counter in the middle knows every
    component known at both ends, the sum of two consecutive deltas is the
    delta across both steps. *)
Theorem checked_delta_telescopes a b c d e s :
  bridges tf_input a b c → bridges tf_cached_input a b c →
  bridges tf_cache_write_input a b c → bridges tf_output a b c →
  checked_delta b a = Ok d → checked_delta c b = Ok e → checked_sum d e = Ok s →
  checked_delta c a = Ok s.
Proof.
  rewrite !checked_delta_Ok, checked_sum_Ok.
  intros Bi Bc Bw Bo (_ & Va & [[] ????] & _) (Vc & _ & [[] ????] & _)
    (_ & _ & [[] ????] & Vs).
  split_and!; try done. split; [lia|..]; by eapply is_delta_telescope.
Qed.

Lemma is_delta_of_sum x d s :
  opt_u64 d → is_sum x d s → known_in d x → is_delta s x d.
Proof.
  unfold is_delta, is_sum, known_in, opt_u64, is_u64. rewrite subtract_Ok, add_Ok.
  intros Hwf Hs Hk. destruct x, d; destruct_and?; simplify_eq/=; try done.
  - split; [lia|f_equal; lia].
  - destruct Hk as [? [=]]. by eexists.
Qed.

(** Adding a delta to a fact and taking the delta again gives the delta
    back, provided the fact knows every component the delta knows. *)
Theorem checked_delta_of_sum a d s :
  tf_wf a → tf_wf d → tf_wf s →
  known_in (tf_input d) (tf_input a) → known_in (tf_cached_input d) (tf_cached_input a) →
  known_in (tf_cache_write_input d) (tf_cache_write_input a) →
  known_in (tf_output d) (tf_output a) →
  checked_sum a d = Ok s → checked_delta s a = Ok d.
Proof.
  intros Wa [[] ????] Ws Ki Kc Kw Ko. rewrite checked_sum_Ok, checked_delta_Ok.
  intros (Va & Vd & [[] ????] & Vs). split_and!; [..|by split; [lia|..]; apply is_delta_of_sum|done].
  all: apply tf_validate_satisfiable; [done|]; apply satisfiable_weaken;
    by apply tf_validate_satisfiable.
Qed.

(** [decreased c p]: the counter knows both readings and the later is lower. *)
Definition decreased (c p : option Z) : Prop :=
  match c, p with Some x, Some y => x < y | _, _ => False end.
Definition regressed (cur prev : TokenFacts) : Prop :=
  tf_total cur < tf_total prev ∨ decreased (tf_input cur) (tf_input prev)
  ∨ decreased (tf_cached_input cur) (tf_cached_input prev)
  ∨ decreased (tf_cache_write_input cur) (tf_cache_write_input prev)
  ∨ decreased (tf_output cur) (tf_output prev).

Lemma subtract_cases c p :
  decreased c p ∧ subtract c p = Err CounterRegression
  ∨ ¬ decreased c p ∧ ∃ d, subtract c p = Ok d.
Proof.
  unfold subtract, opt_zip, decreased, u64_checked_sub.
  destruct c, p; simpl; try (right; split; [tauto|by eexists]).
  destruct_if; simpl; [right|left]; split; try done; try lia. by eexists.
Qed.

Lemma tf_validate_not_regression t exact : tf_validate t exact ≠ Err CounterRegression.
Proof. intros H. destruct exact; tf_solve t. Qed.

(** Between two valid counter readings, [CounterRegression] is reported
    exactly when the total or a component known on both sides went down: a
    decrease is never turned into a zero or wrapped delta. *)
Theorem checked_delta_regression cur prev :
  validate_raw_counter cur = Ok () → validate_raw_counter prev = Ok () →
  checked_delta cur prev = Err CounterRegression ↔ regressed cur prev.
Proof.
  intros Vc Vp. unfold checked_delta, regressed. rewrite Vc, Vp. simpl.
  destruct (u64_checked_sub (tf_total cur) (tf_total prev)) eqn:E; simpl.
  2: { apply u64_checked_sub_None in E. naive_solver. }
  apply u64_checked_sub_Some in E as [_ E].
  destruct (subtract_cases (tf_input cur) (tf_input prev)) as [[? ->]|[? [? ->]]];
    simpl; [naive_solver|].
  destruct (subtract_cases (tf_cached_input cur) (tf_cached_input prev))
    as [[? ->]|[? [? ->]]]; simpl; [naive_solver|].
  destruct (subtract_cases (tf_cache_write_input cur) (tf_cache_write_input prev))
    as [[? ->]|[? [? ->]]]; simpl; [naive_solver|].
  destruct (subtract_cases (tf_output cur) (tf_output prev)) as [[? ->]|[? [? ->]]];
    simpl; [naive_solver|].
  split; [|intros; exfalso; naive_solver lia]. unfold validate_fact.
  destruct (tf_validate _ true) eqn:F; simpl; [done|]. intros [= ->].
  by apply tf_validate_not_regression in F.
Qed.

(** ** Concrete instances *)
Definition fact_of (total : Z) (input cached write output : option Z) : TokenFacts := {|
  tf_total := total; tf_input := input; tf_cached_input := cached;
  tf_cache_write_input := write; tf_output := output |}.

Ltac fact_wf := split; cbn; unfold opt_u64; cbn; width.

Lemma validate_satisfiable_witness :
  validate_fact (fact_of 10 (Some 7) (Some 2) None (Some 3)) = Ok () ↔
  ∃ i c w o, completes (fact_of 10 (Some 7) (Some 2) None (Some 3)) i c w o
    ∧ i + o = 10 ∧ c + w ≤ i.
Proof. apply (validate_satisfiable (fact_of 10 (Some 7) (Some 2) None (Some 3))). fact_wf. Defined.

Lemma checked_sum_total_decides_witness :
  checked_sum (fact_of 10 (Some 7) None None (Some 3)) (fact_of 5 (Some 5) None (Some 1) (Some 0))
  = Ok (fact_of 15 (Some 12) None None (Some 3)).
Proof.
  refine (checked_sum_total_decides (fact_of 10 (Some 7) None None (Some 3))
    (fact_of 5 (Some 5) None (Some 1) (Some 0)) _ _ _ _); [fact_wf|fact_wf|reflexivity|reflexivity].
Defined.

Lemma checked_delta_telescopes_witness :
  checked_delta (fact_of 30 (Some 20) (Some 6) None (Some 10)) (fact_of 10 (Some 7) (Some 2) None (Some 3))
  = Ok (fact_of 20 (Some 13) (Some 4) None (Some 7)).
Proof.
  apply (checked_delta_telescopes (fact_of 10 (Some 7) (Some 2) None (Some 3))
    (fact_of 15 (Some 10) (Some 3) None (Some 5)) (fact_of 30 (Some 20) (Some 6) None (Some 10))
    (fact_of 5 (Some 3) (Some 1) None (Some 2)) (fact_of 15 (Some 10) (Some 3) None (Some 5)));
    try reflexivity; unfold bridges; cbn; eauto.
Defined.

Lemma checked_delta_of_sum_witness :
  checked_delta (fact_of 15 (Some 12) (Some 4) None (Some 3)) (fact_of 10 (Some 7) (Some 2) None (Some 3))
  = Ok (fact_of 5 (Some 5) (Some 2) None (Some 0)).
Proof.
  apply (checked_delta_of_sum (fact_of 10 (Some 7) (Some 2) None (Some 3))
    (fact_of 5 (Some 5) (Some 2) None (Some 0)) (fact_of 15 (Some 12) (Some 4) None (Some 3)));
    try reflexivity; try fact_wf; unfold known_in; cbn; eauto.
Defined.

Lemma checked_delta_regression_witness :
  checked_delta (fact_of 15 (Some 6) None None (Some 5)) (fact_of 10 (Some 7) None None (Some 3))
    = Err CounterRegression
  ↔ regressed (fact_of 15 (Some 6) None None (Some 5)) (fact_of 10 (Some 7) None None (Some 3)).
Proof.
  apply (checked_delta_regression (fact_of 15 (Some 6) None None (Some 5))
    (fact_of 10 (Some 7) None None (Some 3))); reflexivity.
Defined.
