(* ===== verification/Contract.v ===== *)
(** * The REST contract: shared values and text predicates

    Models the top-level part of [crates/codex-info-rest-contract/src/lib.rs]:
    the published identity, runtime versions, period bounds, the contract
    errors and the predicates every wire value is checked with. *)

From S2P Require Import Prelude Text Float64.

Definition API_VERSION : text := lit "v1".
Definition MAX_PUBLIC_MODELS : Z := 3.
Definition MAX_PUBLIC_HISTORY_SAMPLES : Z := 31 * 24 * 60.
Definition MAX_PUBLIC_HISTORY_GAPS : Z := 4096.
Definition MAX_PUBLIC_THREADS : Z := 256.
Definition MAX_PUBLIC_ACCOUNTS : Z := 256.
Definition MAX_PUBLIC_ID_SCALARS : Z := 512.
Definition MAX_PUBLIC_LOGIN_ID_SCALARS : Z := 254.
Definition MAX_PUBLIC_UNIX_SECONDS : Z := 253402300799.
Definition MAX_PUBLIC_HISTORY_LABEL_SCALARS : Z := 512.
Definition MAX_PUBLIC_STATUS_SCALARS : Z := 160.
Definition MAX_PUBLIC_PLAN_SCALARS : Z := 64.
Definition MAX_PUBLIC_MODEL_SCALARS : Z := 128.
Definition MAX_PUBLIC_MODEL_LABEL_SCALARS : Z := 24.

Inductive ContractError :=
  | InvalidTimestamp
  | InvalidNumber
  | InvalidPeriod
  | InvalidSample
  | InvalidGap
  | InvalidModel
  | TooManyItems.
#[export] Instance ContractError_eq_dec : EqDecision ContractError.
Proof. solve_decision. Defined.

Definition ContractError_message (self : ContractError) : text :=
  match self with
  | InvalidTimestamp => lit "invalid timestamp"
  | InvalidNumber => lit "invalid numeric value"
  | InvalidPeriod => lit "invalid history period"
  | InvalidSample => lit "invalid history sample"
  | InvalidGap => lit "invalid history gap"
  | InvalidModel => lit "invalid model"
  | TooManyItems => lit "too many public items"
  end.

(** ** Predicates on wire values *)
Definition valid_timestamp (value : Z) : bool := in_range 1 MAX_PUBLIC_UNIX_SECONDS value.

Definition is_bidi_formatting (value : Z) : bool :=
  (value =? 0x61c) || (value =? 0x200e) || (value =? 0x200f)
  || in_range 0x202a 0x202e value || in_range 0x2066 0x2069 value.

Definition valid_text (value : text) (limit : Z) : bool :=
  negb (bool_decide (value = []))
  && (chars_count value <=? limit)
  && negb (existsb (λ c, is_control c || is_bidi_formatting c) value).

Definition is_valid_public_model_name (value : text) : bool :=
  valid_text value MAX_PUBLIC_MODEL_SCALARS.

Definition valid_rate (value : f64) : bool :=
  f64_is_finite value && f64_leb f64_zero value.

Definition is_lower_hex (byte : Z) : bool := is_ascii_digit byte || in_range 97 102 byte.
Definition valid_lower_hex32 (value : text) : bool :=
  (str_len value =? 32) && forallb is_lower_hex value.

(** ** Published identity *)
Record PublishedPair := { identity : text }.

Definition HEX (nibble : Z) : Z :=
  if nibble <? 10 then 48 + nibble else 97 + (nibble - 10).

(** [for shift in (0..n).rev()]: the nibbles of [value], highest first. *)
Fixpoint hex_nibbles (n : nat) (value : Z) : text :=
  match n with
  | O => []
  | S shift =>
      HEX (Z.land (Z.shiftr value (Z.of_nat shift * 4)) 0x0f) :: hex_nibbles shift value
  end.

Definition from_epoch_counter (epoch : list Z) (counter : Z) : PublishedPair := {|
  identity :=
    lit "v1:"
    ++ flat_map (λ byte, [HEX (Z.shiftr byte 4); HEX (Z.land byte 0x0f)]) epoch
    ++ hex_nibbles 32 counter |}.

(** ** Runtime versions *)
Definition valid_component (component : text) : bool :=
  negb (bool_decide (component = []))
  && (text_eqb component (lit "0") || negb (opt_is_some (strip_prefix (lit "0") component)))
  && forallb is_ascii_digit component.
Definition valid_positive (component : text) : bool :=
  negb (text_eqb component (lit "0")) && valid_component component.

Definition valid_runtime_version (version : text) : bool :=
  if 32 <? str_len version then false
  else
    let '(basis, beta) :=
      match split_once (lit "-beta.") version with
      | Some (basis, beta) => (basis, Some beta)
      | None => (version, None)
      end in
    match split 46 basis with
    | [a; b; c] =>
        valid_component a && valid_component b && valid_component c
        && is_none_or (λ beta,
             match split 46 beta with
             | [d; e] => valid_positive d && valid_positive e
             | _ => false
             end) beta
    | _ => false
    end.

Record PublicRuntimeVersions := {
  api_version : text;
  rest_version : text;
  recorder_version : option text;
  recorder_status : text
}.
#[export] Instance PublicRuntimeVersions_eq_dec : EqDecision PublicRuntimeVersions.
Proof. solve_decision. Defined.

Definition PublicRuntimeVersions_new (rest_version : text) (recorder_version : option text) :
    PublicRuntimeVersions := {|
  api_version := API_VERSION;
  rest_version := rest_version;
  recorder_version := recorder_version;
  recorder_status :=
    match recorder_version with
    | None => lit "unavailable"
    | Some version =>
        if text_eqb version rest_version then lit "available" else lit "mismatch"
    end |}.

Definition PublicRuntimeVersions_validate (self : PublicRuntimeVersions) : result text () :=
  reject (lit "invalid runtime versions") when
    negb (text_eqb (api_version self) API_VERSION)
    || negb (valid_runtime_version (rest_version self))
    || is_some_and (λ v, negb (valid_runtime_version v)) (recorder_version self)
    || negb (bool_decide
         (self = PublicRuntimeVersions_new (rest_version self) (recorder_version self)));
  Ok ().

(** ** Period bounds *)
Definition current_period_start_at (reset_at window_seconds : Z) : option Z :=
  if negb (valid_timestamp reset_at) || (window_seconds <=? 0) then None
  else opt_filter valid_timestamp (i64_checked_sub reset_at window_seconds).

Definition current_period_bounds (reset_at window_seconds observed_at : Z) :
    option (Z * Z) :=
  if negb (valid_timestamp observed_at) then None
  else
    start_at ← current_period_start_at reset_at window_seconds;
    let end_at := Z.min reset_at observed_at in
    then_some (start_at <=? end_at) (start_at, end_at).

Definition history_minute_in_period (timestamp start_at end_at : Z) : bool :=
  (start_at - start_at mod 60 <=? timestamp) && (timestamp <=? end_at).

(** ** Values shared by the usage resources *)
Inductive PublicState := Initializing | Ready | AuthRequired | StateError.
#[export] Instance PublicState_eq_dec : EqDecision PublicState.
Proof. solve_decision. Defined.

Record PublicQuota := {
  pq_remaining_percent : f64;
  pq_reset_at : Z;
  pq_window_seconds : Z;
  pq_monthly : bool
}.

Record PublicModelCostV3 := {
  mc_price_version : text;
  mc_ordinary_input_dollars : f64;
  mc_cached_input_dollars : f64;
  mc_cache_write_input_dollars : f64;
  mc_output_dollars : f64;
  mc_total_dollars : f64
}.

(** ** Laws *)
Section bounds.
Lemma valid_timestamp_true t : valid_timestamp t = true ↔ 1 ≤ t ≤ MAX_PUBLIC_UNIX_SECONDS.
Proof. apply in_range_true. Qed.

Lemma current_period_start_at_Some reset window s :
  current_period_start_at reset window = Some s ↔
  valid_timestamp reset = true ∧ 0 < window ∧ s = reset - window
  ∧ valid_timestamp s = true.
Proof.
  unfold current_period_start_at. unfold i64_checked_sub.
  destruct (valid_timestamp reset) eqn:Hr; simpl; [|naive_solver].
  apply valid_timestamp_true in Hr. unfold MAX_PUBLIC_UNIX_SECONDS in Hr.
  destruct (Z.leb_spec window 0); simpl; [split; [done|]; intros (_ & ? & _); lia|].
  destruct (in_range _ _ _) eqn:E; simpl.
  - destruct (valid_timestamp (reset - window)) eqn:?.
    + split; [by intros [= <-]|]. by intros (_ & _ & -> & _).
    + split; [done|]. intros (_ & _ & -> & ?). congruence.
  - apply in_range_false in E. split; [done|]. intros (_ & _ & -> & H1).
    apply valid_timestamp_true in H1. unfold MAX_PUBLIC_UNIX_SECONDS in H1. width.
Qed.
End bounds.

(** The current public period is exactly the quota window seen so far: it
    starts one window before the deadline, ends at the earlier of deadline and
    observation, is never empty or outside the public time domain, and it is
    refused (never repaired) when the window does not reach the observation. *)
Theorem current_period_bounds_exact reset window observed s e :
  current_period_bounds reset window observed = Some (s, e) ↔
  valid_timestamp reset = true ∧ valid_timestamp observed = true ∧ 0 < window
  ∧ s = reset - window ∧ e = Z.min reset observed ∧ 1 ≤ s ≤ e.
Proof.
  unfold current_period_bounds, then_some.
  destruct (valid_timestamp observed) eqn:Ho; simpl; [|naive_solver].
  destruct (current_period_start_at reset window) as [s'|] eqn:E; simpl.
  - apply current_period_start_at_Some in E as (Hr & Hw & -> & Hs).
    rewrite valid_timestamp_true in Hs.
    destruct (Z.leb_spec (reset - window) (Z.min reset observed)); naive_solver lia.
  - split; [done|]. intros (Hr & _ & Hw & -> & -> & Hs). exfalso.
    apply (proj1 (eq_None_not_Some _)) in E. apply E. exists (reset - window).
    apply current_period_start_at_Some. rewrite valid_timestamp_true in *.
    rewrite valid_timestamp_true. unfold MAX_PUBLIC_UNIX_SECONDS in *. lia.
Qed.

Section published.
Lemma HEX_inj a b : 0 ≤ a < 16 → 0 ≤ b < 16 → HEX a = HEX b → a = b.
Proof. unfold HEX. repeat case_match; lia. Qed.
Lemma HEX_is_lower_hex a : 0 ≤ a < 16 → is_lower_hex (HEX a) = true.
Proof. unfold HEX, is_lower_hex, is_ascii_digit, in_range. case_match; lia. Qed.

Lemma nibble_mod v : Z.land v 0x0f = v mod 16.
Proof. change 0x0f with (Z.ones 4). by rewrite Z.land_ones. Qed.
Lemma nibble_bound v : 0 ≤ Z.land v 0x0f < 16.
Proof. rewrite nibble_mod. by apply Z.mod_pos_bound. Qed.

Lemma length_hex_nibbles n v : length (hex_nibbles n v) = n.
Proof. induction n; simpl; congruence. Qed.

Lemma hex_nibbles_mod n v w :
  hex_nibbles n v = hex_nibbles n w →
  v mod 2 ^ (Z.of_nat n * 4) = w mod 2 ^ (Z.of_nat n * 4).
Proof.
  induction n as [|n IH]; intros E; [by rewrite !Z.mod_1_r|].
  injection E as E1 E2. specialize (IH E2).
  apply HEX_inj in E1; [|apply nibble_bound..].
  rewrite !nibble_mod, !Z.shiftr_div_pow2 in E1 by lia.
  replace (2 ^ (Z.of_nat (S n) * 4)) with (2 ^ (Z.of_nat n * 4) * 16)
    by (rewrite <-(Z.pow_add_r 2 _ 4); [f_equal; lia|lia..]).
  rewrite !Z.rem_mul_r by (try lia; apply Z.pow_nonzero; lia). congruence.
Qed.

Definition epoch_text (epoch : list Z) : text :=
  flat_map (λ byte, [HEX (Z.shiftr byte 4); HEX (Z.land byte 0x0f)]) epoch.

Lemma byte_shiftr_bound b : 0 ≤ b < 256 → 0 ≤ Z.shiftr b 4 < 16.
Proof. rewrite Z.shiftr_div_pow2 by lia. change (2 ^ 4) with 16. intros. div_lia. Qed.

Lemma epoch_text_inj e e' :
  Forall (λ b, 0 ≤ b < 256) e → Forall (λ b, 0 ≤ b < 256) e' →
  epoch_text e = epoch_text e' → e = e'.
Proof.
  intros He. revert e'. induction He as [|b e Hb He IH]; intros [|b' e'] He'; try done.
  intros E. injection E as E1 E2 E3. apply Forall_cons in He' as [Hb' He'].
  apply HEX_inj in E1, E2; try apply nibble_bound; try by apply byte_shiftr_bound.
  f_equal; [|by apply IH]. rewrite !nibble_mod in E2.
  rewrite !Z.shiftr_div_pow2 in E1 by lia. change (2 ^ 4) with 16 in E1. div_lia.
Qed.

Lemma length_epoch_text e : length (epoch_text e) = (2 * length e)%nat.
Proof. induction e; simpl in *; lia. Qed.

Lemma epoch_text_hex e :
  Forall (λ b, 0 ≤ b < 256) e → forallb is_lower_hex (epoch_text e) = true.
Proof.
  induction 1; [done|]. simpl. rewrite !HEX_is_lower_hex; [done|apply nibble_bound|].
  by apply byte_shiftr_bound.
Qed.
Lemma hex_nibbles_hex n v : forallb is_lower_hex (hex_nibbles n v) = true.
Proof. induction n; [done|]. simpl. rewrite HEX_is_lower_hex; [done|apply nibble_bound]. Qed.
End published.

(** The published identity names its epoch and counter: for a 16-byte
    epoch it is [v1:] followed by exactly 64 lower-case hexadecimal digits, and
    two publications share an identity only if epoch and counter agree. *)
Theorem from_epoch_counter_identifies e c e' c' :
  length e = 16%nat → Forall (λ b, 0 ≤ b < 256) e → is_u128 c →
  length e' = 16%nat → Forall (λ b, 0 ≤ b < 256) e' → is_u128 c' →
  (∃ hex, identity (from_epoch_counter e c) = lit "v1:" ++ hex
     ∧ length hex = 64%nat ∧ forallb is_lower_hex hex = true)
  ∧ (from_epoch_counter e c = from_epoch_counter e' c' → e = e' ∧ c = c').
Proof.
  intros Le Be Bc Le' Be' Bc'. split.
  - exists (epoch_text e ++ hex_nibbles 32 c). split_and!; [done|..].
    + rewrite length_app, length_epoch_text, length_hex_nibbles. lia.
    + rewrite forallb_app, epoch_text_hex, hex_nibbles_hex by done. done.
  - intros E. apply (f_equal identity) in E. cbn [identity from_epoch_counter] in E.
    apply app_inv_head in E. apply (app_inj_1 (epoch_text e)) in E as [E1 E2].
    2: { by rewrite !length_epoch_text, Le, Le'. }
    split; [by apply epoch_text_inj|]. apply hex_nibbles_mod in E2.
    rewrite !Z.mod_small in E2 by (split; unfold is_u128, u128_max in *; lia). done.
Qed.

(** ** The version grammar *)
Section versions.
(** [major.minor.patch], optionally followed by [-beta.a.b]. *)
Definition render_version (a b c : Z) (beta : option (Z * Z)) : text :=
  to_dec a ++ lit "." ++ to_dec b ++ lit "." ++ to_dec c
  ++ match beta with
     | Some (d, e) => lit "-beta." ++ to_dec d ++ lit "." ++ to_dec e
     | None => []
     end.

Lemma valid_component_iff s :
  valid_component s = true ↔ ∃ n, 0 ≤ n ∧ s = to_dec n.
Proof.
  rewrite to_dec_iff. unfold valid_component, leading_ok, opt_is_some.
  change (lit "0") with [48].
  rewrite !andb_true_iff, negb_true_iff, bool_decide_eq_false, orb_true_iff, negb_true_iff,
    text_eqb_true, forallb_Forall.
  assert (Forall (λ x, is_ascii_digit x = true) s ↔ Forall digit s) as ->.
  { apply Forall_iff. intros x. apply in_range_true. }
  split; [intros [[? Hl] Hd]|intros (? & Hd & Hl)]; split_and!; try done.
  - destruct Hl as [->|Hl]; [by left|]. right. intros Hh. destruct s as [|c s]; [done|].
    injection Hh as ->. done.
  - destruct s as [|c s]; [done|]. simpl in Hl. destruct Hl as [Hl|Hl].
    + destruct s; [|done]. destruct (decide (c = 48)) as [->|]; [by left|right]. cbn -[Z.eqb].
      by destruct (Z.eqb_spec 48 c).
    + right. cbn -[Z.eqb]. destruct (Z.eqb_spec 48 c); [congruence|done].
Qed.

Lemma valid_positive_iff s :
  valid_positive s = true ↔ ∃ n, 0 < n ∧ s = to_dec n.
Proof.
  unfold valid_positive. rewrite andb_true_iff, negb_true_iff, valid_component_iff.
  split.
  - intros [H0 (n & Hn & ->)]. exists n. split; [|done].
    destruct (decide (n = 0)) as [->|]; [by vm_compute in H0|lia].
  - intros (n & Hn & ->). split; [|exists n; split; [lia|done]].
    apply not_true_iff_false. rewrite text_eqb_true. change (lit "0") with (to_dec 0).
    intros E. apply to_dec_inj in E; lia.
Qed.

Lemma digit_not_in n c : 0 ≤ n → ¬ digit c → c ∉ to_dec n.
Proof. intros Hn Hc Hin. by eapply Hc, Forall_forall, Hin; first apply to_dec_digits. Qed.

Ltac flatten := unfold render_version; change (lit ".") with [46];
  change (lit "-beta.") with (45 :: lit "beta.");
  repeat (rewrite <-app_assoc || cbn [app join]); try done.

Ltac absent := repeat rewrite not_elem_of_app; repeat split;
  try (apply digit_not_in; [lia|unfold digit; lia]);
  try (apply not_elem_of_cons; split; [lia|apply not_elem_of_nil]).

Lemma split_pair a b :
  0 ≤ a → 0 ≤ b → split 46 (to_dec a ++ [46] ++ to_dec b) = [to_dec a; to_dec b].
Proof.
  intros. cbn [app]. rewrite split_app, split_absent; [done|absent..].
Qed.
Lemma split_triple a b c :
  0 ≤ a → 0 ≤ b → 0 ≤ c →
  split 46 (to_dec a ++ [46] ++ to_dec b ++ [46] ++ to_dec c)
  = [to_dec a; to_dec b; to_dec c].
Proof.
  intros. pose proof (split_pair b c) as E. cbn [app] in *.
  rewrite split_app, E; [done|lia..|absent].
Qed.
Lemma component_to_dec n : 0 ≤ n → valid_component (to_dec n) = true.
Proof. intros. apply valid_component_iff. eauto. Qed.
Lemma positive_to_dec n : 0 < n → valid_positive (to_dec n) = true.
Proof. intros. apply valid_positive_iff. eauto. Qed.

(** A version with a beta pair, taken apart. *)
Lemma render_beta a b c d e : 0 ≤ a → 0 ≤ b → 0 ≤ c → 0 < d → 0 < e →
  split_once (lit "-beta.") (render_version a b c (Some (d, e)))
  = Some (to_dec a ++ [46] ++ to_dec b ++ [46] ++ to_dec c, to_dec d ++ [46] ++ to_dec e).
Proof.
  intros. unfold render_version. change (lit ".") with [46].
  change (lit "-beta.") with (45 :: lit "beta.").
  rewrite <-(split_once_app 45 (lit "beta.") _ (to_dec d ++ [46] ++ to_dec e)).
  - by rewrite <-!app_assoc.
  - absent.
Qed.
Lemma render_plain a b c : 0 ≤ a → 0 ≤ b → 0 ≤ c →
  split_once (lit "-beta.") (render_version a b c None) = None.
Proof.
  intros. unfold render_version. change (lit ".") with [46].
  change (lit "-beta.") with (45 :: lit "beta.").
  apply split_once_absent. absent. apply not_elem_of_nil.
Qed.

(** A runtime version is accepted exactly when it is at most 32 bytes and
    is the canonical rendering of three naturals, optionally with a beta pair
    of positive numbers; no padding, sign, suffix or extra field passes. *)
Theorem valid_runtime_version_grammar v :
  valid_runtime_version v = true ↔
  str_len v ≤ 32 ∧ ∃ a b c beta,
    0 ≤ a ∧ 0 ≤ b ∧ 0 ≤ c ∧ from_option (λ '(d, e), 0 < d ∧ 0 < e) True beta
    ∧ v = render_version a b c beta.
Proof.
  unfold valid_runtime_version. destruct (Z.ltb_spec 32 (str_len v)); [naive_solver lia|].
  change (lit "-beta.") with (45 :: lit "beta.").
  split.
  - intros Hv. split; [done|].
    destruct (split_once _ v) as [[basis beta]|] eqn:E.
    + apply split_once_Some in E as ->.
      destruct (split 46 basis) as [|a [|b [|c [|]]]] eqn:Eb; try done.
      cbn [is_none_or] in Hv.
      destruct (split 46 beta) as [|d [|e [|]]] eqn:Ed; try by rewrite andb_false_r in Hv.
      rewrite !andb_true_iff in Hv. destruct Hv as (((Va & Vb) & Vc) & Vd & Ve).
      apply valid_component_iff in Va as (a' & ? & ->), Vb as (b' & ? & ->), Vc as (c' & ? & ->).
      apply valid_positive_iff in Vd as (d' & ? & ->), Ve as (e' & ? & ->).
      exists a', b', c', (Some (d', e')). split_and!; [done..|].
      rewrite <-(join_split 46 basis), <-(join_split 46 beta), Eb, Ed. flatten.
    + destruct (split 46 v) as [|a [|b [|c [|]]]] eqn:Eb; try done.
      cbn [is_none_or] in Hv. rewrite andb_true_r, !andb_true_iff in Hv.
      destruct Hv as ((Va & Vb) & Vc).
      apply valid_component_iff in Va as (a' & ? & ->), Vb as (b' & ? & ->), Vc as (c' & ? & ->).
      exists a', b', c', None. split_and!; [done..|].
      rewrite <-(join_split 46 v), Eb. flatten. by rewrite app_nil_r.
  - intros (_ & a & b & c & [[d e]|] & Ha & Hb & Hc & Hbeta & ->); simpl in Hbeta.
    + destruct Hbeta as [Hd He]. change (45 :: lit "beta.") with (lit "-beta.").
      rewrite render_beta by done. change (lit ".") with [46].
      rewrite split_triple by lia. cbn [is_none_or].
      rewrite split_pair by lia. by rewrite !component_to_dec, !positive_to_dec by lia.
    + change (45 :: lit "beta.") with (lit "-beta."). rewrite render_plain by done.
      unfold render_version. change (lit ".") with [46]. rewrite app_nil_r.
      rewrite split_triple by lia. cbn [is_none_or]. by rewrite !component_to_dec by lia.
Qed.
End versions.

Lemma from_epoch_counter_identifies_witness :
  (∃ hex, identity (from_epoch_counter (repeat 7 16) 1) = lit "v1:" ++ hex
     ∧ length hex = 64%nat ∧ forallb is_lower_hex hex = true)
  ∧ (from_epoch_counter (repeat 7 16) 1 = from_epoch_counter (repeat 7 16) 2 →
     repeat 7 16 = repeat 7 16 ∧ 1 = 2).
Proof.
  apply (from_epoch_counter_identifies (repeat 7 16) 1 (repeat 7 16) 2);
    try reflexivity; first [width | repeat constructor; lia].
Defined.
