(* ===== verification/Details.v ===== *)
(** * The details document

    Models the details part of [crates/codex-info-rest-contract/src/lib.rs]: the
    wire structs, [PublicDetails::validate] with all its loops, and the
    projections between the three versions of the document. *)

From S2P Require Import Prelude Text Float64 Contract.

(** ** The wire structs *)
Record PublicDetailedModelUsage := {
  dm_name : text;
  dm_input_tokens : Z;
  dm_cached_input_tokens : Z;
  dm_output_tokens : Z;
  dm_input_dollars : f64;
  dm_cached_input_dollars : f64;
  dm_output_dollars : f64
}.
Record PublicHistoryPeriod := {
  hp_id : text;
  hp_start_at : Z;
  hp_end_at : Z;
  hp_reset_at : Z;
  hp_label : text;
  hp_current : bool
}.
Record PublicHistorySample := {
  hs_timestamp : Z;
  hs_reset_at : Z;
  hs_remaining_percent : option f64;
  hs_sol_dollars : f64;
  hs_terra_dollars : f64;
  hs_luna_dollars : f64;
  hs_sol_tokens : Z;
  hs_terra_tokens : Z;
  hs_luna_tokens : Z
}.
Record PublicHistoryObservation := {
  ho_timestamp : Z;
  ho_reset_at : Z;
  ho_remaining_percent : option f64;
  ho_sol_dollars : option f64;
  ho_terra_dollars : option f64;
  ho_luna_dollars : option f64;
  ho_sol_tokens : option Z;
  ho_terra_tokens : option Z;
  ho_luna_tokens : option Z;
  ho_model_source : text
}.
Record PublicHistoryGap := {
  hg_gap_id : text;
  hg_reset_at : Z;
  hg_start_at : Z;
  hg_end_at : Z;
  hg_reason : text
}.
Inductive PublicThreadActivityStatus := PublicRunning | PublicStopped | PublicUnknown.
Record PublicThread := {
  pt_id : text;
  pt_title : text;
  pt_activity_status : option PublicThreadActivityStatus;
  pt_parent_thread_id : option text;
  pt_model : text;
  pt_model_label : text;
  pt_total_tokens : option Z;
  pt_context_usage_tokens : option Z;
  pt_context_window_tokens : option Z;
  pt_created_at : option Z;
  pt_last_user_message_at : option Z;
  pt_is_subagent : bool;
  pt_depth : option Z
}.
Record PublicDetails := {
  d_state : PublicState;
  d_observed_at : option Z;
  d_authenticated : bool;
  d_plan_label : option text;
  d_quota : option PublicQuota;
  d_models : list PublicDetailedModelUsage;
  d_active_thread_count : Z;
  d_history_periods : list PublicHistoryPeriod;
  d_history_samples : list PublicHistorySample;
  d_history_gaps : list PublicHistoryGap;
  d_threads : list PublicThread;
  d_estimated_cost_label : text
}.
Definition PublicDetails_default : PublicDetails := {|
  d_state := Initializing; d_observed_at := None; d_authenticated := false;
  d_plan_label := None; d_quota := None; d_models := []; d_active_thread_count := 0;
  d_history_periods := []; d_history_samples := []; d_history_gaps := []; d_threads := [];
  d_estimated_cost_label := lit "概算 —" |}.

(** ** Validation *)
Definition f64_hundred : f64 := f64_of_Z 100.
Definition invalid_percent (value : f64) : bool :=
  negb (valid_rate value) || f64_ltb f64_hundred value.

Definition validate_quota (quota : PublicQuota) : bool :=
  invalid_percent (pq_remaining_percent quota)
  || negb (valid_timestamp (pq_reset_at quota)) || (pq_window_seconds quota <=? 0).

(** The body of the models loop; [HashSet::insert] returns whether the value is
    new. *)
Definition check_model (names : gset text) (model : PublicDetailedModelUsage) :
    result ContractError (gset text) :=
  reject InvalidModel when
    negb (is_any (dm_name model) ["SOL"; "TERRA"; "LUNA"])
    || bool_decide (dm_name model ∈ names)
    || negb (valid_rate (dm_input_dollars model))
    || negb (valid_rate (dm_cached_input_dollars model))
    || negb (valid_rate (dm_output_dollars model));
  Ok ({[dm_name model]} ∪ names).

Record period_state := {
  ps_ids : gset text;
  ps_resets : gset Z;
  ps_current : Z
}.
Definition check_period (s : period_state) (period : PublicHistoryPeriod) :
    result ContractError period_state :=
  reject InvalidPeriod when
    negb (valid_text (hp_id period) MAX_PUBLIC_ID_SCALARS)
    || bool_decide (hp_id period ∈ ps_ids s)
    || bool_decide (hp_reset_at period ∈ ps_resets s)
    || negb (valid_timestamp (hp_start_at period))
    || negb (valid_timestamp (hp_end_at period))
    || negb (valid_timestamp (hp_reset_at period))
    || (hp_end_at period <? hp_start_at period)
    || (hp_reset_at period <? hp_end_at period)
    || negb (valid_text (hp_label period) MAX_PUBLIC_HISTORY_LABEL_SCALARS);
  Ok {| ps_ids := {[hp_id period]} ∪ ps_ids s; ps_resets := {[hp_reset_at period]} ∪ ps_resets s;
        ps_current := if hp_current period then ps_current s + 1 else ps_current s |}.

(** The second loop over the periods. *)
Definition check_current_period (observed_at : option Z) (quota : option PublicQuota)
    (_ : ()) (period : PublicHistoryPeriod) : result ContractError () :=
  if hp_current period then
    match observed_at with
    | None => Err InvalidPeriod
    | Some observed_at =>
        match quota with
        | Some quota =>
            match current_period_bounds (pq_reset_at quota) (pq_window_seconds quota)
                    observed_at with
            | None => Err InvalidPeriod
            | Some (expected_start_at, expected_end_at) =>
                reject InvalidPeriod when
                  negb (hp_start_at period =? expected_start_at)
                  || negb (hp_end_at period =? expected_end_at);
                Ok tt
            end
        | None =>
            reject InvalidPeriod when
              negb (hp_end_at period =? Z.min (hp_reset_at period) observed_at);
            Ok tt
        end
    end
  else Ok tt.

(** A reset names its period, or an unlisted reset up to a minute before it. *)
Definition reset_matches (period_resets : gset Z) (reset_at : Z) (period : PublicHistoryPeriod) :
    bool :=
  (reset_at =? hp_reset_at period)
  || (negb (bool_decide (reset_at ∈ period_resets))
      && (i64_saturating_sub (hp_reset_at period) 60 <=? reset_at)
      && (reset_at <=? hp_reset_at period)).

Definition sample_in_period (period_resets : gset Z) (sample : PublicHistorySample)
    (period : PublicHistoryPeriod) : bool :=
  reset_matches period_resets (hs_reset_at sample) period
  && history_minute_in_period (hs_timestamp sample) (hp_start_at period) (hp_end_at period).

(** [previous > key] of pairs and of the gap keys. *)
Definition sample_key (sample : PublicHistorySample) : Z * Z :=
  (hs_reset_at sample, hs_timestamp sample).
Definition pair_gtb (a b : Z * Z) : bool :=
  (b.1 <? a.1) || ((b.1 =? a.1) && (b.2 <? a.2)).

Record sample_state := {
  ss_ids : gset (Z * Z);
  ss_canonical_ids : gset (text * Z);
  ss_previous : option (Z * Z)
}.
Definition check_sample (periods : list PublicHistoryPeriod) (period_resets : gset Z)
    (s : sample_state) (sample : PublicHistorySample) : result ContractError sample_state :=
  reject InvalidSample when
    negb (valid_timestamp (hs_timestamp sample))
    || negb (valid_timestamp (hs_reset_at sample))
    || negb (hs_timestamp sample mod 60 =? 0)
    || is_some_and invalid_percent (hs_remaining_percent sample)
    || negb (valid_rate (hs_sol_dollars sample))
    || negb (valid_rate (hs_terra_dollars sample))
    || negb (valid_rate (hs_luna_dollars sample));
  reject InvalidSample when bool_decide (sample_key sample ∈ ss_ids s);
  match List.filter (sample_in_period period_resets sample) periods with
  | [period] =>
      reject InvalidSample when
        bool_decide ((hp_id period, hs_timestamp sample) ∈ ss_canonical_ids s);
      reject InvalidSample when
        is_some_and (λ previous, pair_gtb previous (sample_key sample)) (ss_previous s);
      Ok {| ss_ids := {[sample_key sample]} ∪ ss_ids s;
            ss_canonical_ids := {[(hp_id period, hs_timestamp sample)]} ∪ ss_canonical_ids s;
            ss_previous := Some (sample_key sample) |}
  | _ => Err InvalidSample
  end.

Definition gap_in_period (period_resets : gset Z) (gap : PublicHistoryGap)
    (period : PublicHistoryPeriod) : bool :=
  reset_matches period_resets (hg_reset_at gap) period
  && (hp_start_at period <=? hg_start_at gap) && (hg_end_at gap <=? hp_end_at period).

(** The order of the tuples [(reset_at, start_at, end_at, gap_id)]. *)
Definition gap_compare (a b : PublicHistoryGap) : comparison :=
  match hg_reset_at a ?= hg_reset_at b with
  | Eq =>
      match hg_start_at a ?= hg_start_at b with
      | Eq =>
          match hg_end_at a ?= hg_end_at b with
          | Eq => text_compare (hg_gap_id a) (hg_gap_id b)
          | c => c
          end
      | c => c
      end
  | c => c
  end.
Definition gap_gtb (a b : PublicHistoryGap) : bool :=
  match gap_compare a b with Gt => true | _ => false end.

Record gap_state := {
  gs_ids : gset text;
  gs_previous : option PublicHistoryGap;
  gs_ranges : list (text * Z * Z)
}.
Definition check_gap (periods : list PublicHistoryPeriod) (period_resets : gset Z)
    (s : gap_state) (gap : PublicHistoryGap) : result ContractError gap_state :=
  reject InvalidGap when
    negb (valid_lower_hex32 (hg_gap_id gap))
    || bool_decide (hg_gap_id gap ∈ gs_ids s)
    || negb (valid_timestamp (hg_reset_at gap))
    || negb (valid_timestamp (hg_start_at gap))
    || negb (valid_timestamp (hg_end_at gap))
    || (hg_end_at gap <? hg_start_at gap)
    || negb (is_any (hg_reason gap)
         ["daemon_stop_unrecoverable"; "reset_hint_expired"; "auth_epoch_tombstoned"]);
  match List.filter (gap_in_period period_resets gap) periods with
  | [period] =>
      reject InvalidGap when is_some_and (λ previous, gap_gtb previous gap) (gs_previous s);
      reject InvalidGap when
        existsb (λ '(period_id, start_at, end_at),
          text_eqb period_id (hp_id period)
          && (hg_start_at gap <=? end_at) && (start_at <=? hg_end_at gap)) (gs_ranges s);
      Ok {| gs_ids := {[hg_gap_id gap]} ∪ gs_ids s; gs_previous := Some gap;
            gs_ranges := gs_ranges s ++ [(hp_id period, hg_start_at gap, hg_end_at gap)] |}
  | _ => Err InvalidGap
  end.

Definition check_thread (thread_ids : gset text) (thread : PublicThread) :
    result ContractError (gset text) :=
  reject InvalidModel when
    negb (valid_text (pt_id thread) MAX_PUBLIC_ID_SCALARS)
    || bool_decide (pt_id thread ∈ thread_ids)
    || negb (valid_text (pt_title thread) MAX_PUBLIC_ID_SCALARS)
    || negb (valid_text (pt_model thread) MAX_PUBLIC_MODEL_SCALARS)
    || negb (valid_text (pt_model_label thread) MAX_PUBLIC_MODEL_LABEL_SCALARS)
    || negb (is_none_or (λ id, valid_text id MAX_PUBLIC_ID_SCALARS) (pt_parent_thread_id thread))
    || negb (is_none_or valid_timestamp (pt_created_at thread))
    || negb (is_none_or valid_timestamp (pt_last_user_message_at thread))
    || negb (is_none_or (in_range 0 1024) (pt_depth thread));
  Ok ({[pt_id thread]} ∪ thread_ids).

Definition count {A} (l : list A) : Z := Z.of_nat (length l).

Definition validate_threads (self : PublicDetails) : result ContractError () :=
  reject TooManyItems when MAX_PUBLIC_THREADS <? count (d_threads self);
  _ ← fold_result check_thread ∅ (d_threads self);
  Ok tt.

Definition validate_with_history_limit (self : PublicDetails) (history_limit : Z) :
    result ContractError () :=
  reject InvalidTimestamp when is_some_and (λ v, negb (valid_timestamp v)) (d_observed_at self);
  reject InvalidNumber when is_some_and validate_quota (d_quota self);
  reject TooManyItems when
    (MAX_PUBLIC_MODELS <? count (d_models self))
    || (history_limit <? count (d_history_samples self))
    || (MAX_PUBLIC_HISTORY_GAPS <? count (d_history_gaps self))
    || (MAX_PUBLIC_THREADS <? count (d_threads self));
  reject InvalidModel when
    is_some_and (λ label, negb (valid_text label MAX_PUBLIC_PLAN_SCALARS)) (d_plan_label self)
    || negb (valid_text (d_estimated_cost_label self) MAX_PUBLIC_STATUS_SCALARS);
  _ ← fold_result check_model ∅ (d_models self);
  periods ← fold_result check_period {| ps_ids := ∅; ps_resets := ∅; ps_current := 0 |}
              (d_history_periods self);
  reject InvalidPeriod when 1 <? ps_current periods;
  _ ← fold_result (check_current_period (d_observed_at self) (d_quota self)) tt
        (d_history_periods self);
  _ ← fold_result (check_sample (d_history_periods self) (ps_resets periods))
        {| ss_ids := ∅; ss_canonical_ids := ∅; ss_previous := None |} (d_history_samples self);
  _ ← fold_result (check_gap (d_history_periods self) (ps_resets periods))
        {| gs_ids := ∅; gs_previous := None; gs_ranges := [] |} (d_history_gaps self);
  validate_threads self.

Definition usize_max : Z := 2 ^ 64 - 1.
Definition PublicDetails_validate (self : PublicDetails) : result ContractError () :=
  validate_with_history_limit self MAX_PUBLIC_HISTORY_SAMPLES.
Definition validate_history_domain (self : PublicDetails) : result ContractError () :=
  validate_with_history_limit self usize_max.

(** ** What a valid document is

    Stated on the lists as wholes: uniqueness as [NoDup], order as [Sorted], the
    hosting period as the only one that matches. *)
Section specification.
Definition percent_ok (value : f64) : Prop :=
  valid_rate value = true ∧ f64_ltb f64_hundred value = false.
Definition timestamp_ok (t : Z) : Prop := 1 ≤ t ≤ MAX_PUBLIC_UNIX_SECONDS.
Definition given {A} (P : A → Prop) (o : option A) : Prop := ∀ a, o = Some a → P a.

Definition quota_ok (q : PublicQuota) : Prop :=
  percent_ok (pq_remaining_percent q) ∧ timestamp_ok (pq_reset_at q) ∧ 0 < pq_window_seconds q.
Definition model_ok (m : PublicDetailedModelUsage) : Prop :=
  dm_name m ∈ [lit "SOL"; lit "TERRA"; lit "LUNA"]
  ∧ valid_rate (dm_input_dollars m) = true ∧ valid_rate (dm_cached_input_dollars m) = true
  ∧ valid_rate (dm_output_dollars m) = true.
Definition period_ok (p : PublicHistoryPeriod) : Prop :=
  valid_text (hp_id p) MAX_PUBLIC_ID_SCALARS = true
  ∧ valid_text (hp_label p) MAX_PUBLIC_HISTORY_LABEL_SCALARS = true
  ∧ 1 ≤ hp_start_at p ≤ hp_end_at p ∧ hp_end_at p ≤ hp_reset_at p ≤ MAX_PUBLIC_UNIX_SECONDS.
(** The current period ends at the observation, or at the reset before it, and
    with a quota it is the quota's window. *)
Definition current_ok (observed_at : option Z) (quota : option PublicQuota)
    (p : PublicHistoryPeriod) : Prop :=
  ∃ now, observed_at = Some now ∧
    match quota with
    | Some q => current_period_bounds (pq_reset_at q) (pq_window_seconds q) now
                = Some (hp_start_at p, hp_end_at p)
    | None => hp_end_at p = Z.min (hp_reset_at p) now
    end.

(** A reset stands for its period; one that no period lists stands for a period
    that resets at most 60 seconds later. *)
Definition stands_for (periods : list PublicHistoryPeriod) (reset_at : Z)
    (p : PublicHistoryPeriod) : Prop :=
  reset_at = hp_reset_at p
  ∨ (reset_at ∉ map hp_reset_at periods) ∧ hp_reset_at p - 60 ≤ reset_at < hp_reset_at p.
Definition only_one {A} (P : A → Prop) (l : list A) (x : A) : Prop :=
  ∃ before after, l = before ++ x :: after ∧ P x ∧ Forall (λ y, ¬ P y) (before ++ after).

Definition sample_fits periods (s : PublicHistorySample) (p : PublicHistoryPeriod) : Prop :=
  stands_for periods (hs_reset_at s) p
  ∧ hp_start_at p - hp_start_at p mod 60 ≤ hs_timestamp s ≤ hp_end_at p.
Definition sample_ok (s : PublicHistorySample) : Prop :=
  timestamp_ok (hs_timestamp s) ∧ timestamp_ok (hs_reset_at s) ∧ (60 | hs_timestamp s)
  ∧ given percent_ok (hs_remaining_percent s)
  ∧ valid_rate (hs_sol_dollars s) = true ∧ valid_rate (hs_terra_dollars s) = true
  ∧ valid_rate (hs_luna_dollars s) = true.
Definition key_le (a b : Z * Z) : Prop := a.1 < b.1 ∨ a.1 = b.1 ∧ a.2 ≤ b.2.

Definition gap_fits periods (g : PublicHistoryGap) (p : PublicHistoryPeriod) : Prop :=
  stands_for periods (hg_reset_at g) p
  ∧ hp_start_at p ≤ hg_start_at g ∧ hg_end_at g ≤ hp_end_at p.
Definition gap_ok (g : PublicHistoryGap) : Prop :=
  valid_lower_hex32 (hg_gap_id g) = true ∧ timestamp_ok (hg_reset_at g)
  ∧ timestamp_ok (hg_start_at g) ∧ timestamp_ok (hg_end_at g) ∧ hg_start_at g ≤ hg_end_at g
  ∧ hg_reason g ∈ [lit "daemon_stop_unrecoverable"; lit "reset_hint_expired";
                   lit "auth_epoch_tombstoned"].
Definition thread_ok (t : PublicThread) : Prop :=
  valid_text (pt_id t) MAX_PUBLIC_ID_SCALARS = true
  ∧ valid_text (pt_title t) MAX_PUBLIC_ID_SCALARS = true
  ∧ valid_text (pt_model t) MAX_PUBLIC_MODEL_SCALARS = true
  ∧ valid_text (pt_model_label t) MAX_PUBLIC_MODEL_LABEL_SCALARS = true
  ∧ given (λ id, valid_text id MAX_PUBLIC_ID_SCALARS = true) (pt_parent_thread_id t)
  ∧ given timestamp_ok (pt_created_at t) ∧ given timestamp_ok (pt_last_user_message_at t)
  ∧ given (λ depth, 0 ≤ depth ≤ 1024) (pt_depth t).

(** Two samples with one minute are hosted by different periods; two gaps of one
    period do not meet. *)
Definition hosts_apart periods (s t : PublicHistorySample) : Prop :=
  ∀ p q, only_one (sample_fits periods s) periods p → only_one (sample_fits periods t) periods q →
    hp_id p = hp_id q → hs_timestamp s ≠ hs_timestamp t.
Definition gaps_apart periods (g h : PublicHistoryGap) : Prop :=
  ∀ p q, only_one (gap_fits periods g) periods p → only_one (gap_fits periods h) periods q →
    hp_id p = hp_id q → hg_end_at g < hg_start_at h ∨ hg_end_at h < hg_start_at g.

(** The clauses in the order the code reports them. *)
Definition details_clauses (d : PublicDetails) (limit : Z) : list (ContractError * Prop) := [
  (InvalidTimestamp, given timestamp_ok (d_observed_at d));
  (InvalidNumber, given quota_ok (d_quota d));
  (TooManyItems, count (d_models d) ≤ 3 ∧ count (d_history_samples d) ≤ limit
     ∧ count (d_history_gaps d) ≤ 4096 ∧ count (d_threads d) ≤ 256);
  (InvalidModel, given (λ l, valid_text l MAX_PUBLIC_PLAN_SCALARS = true) (d_plan_label d)
     ∧ valid_text (d_estimated_cost_label d) MAX_PUBLIC_STATUS_SCALARS = true);
  (InvalidModel, Forall model_ok (d_models d) ∧ NoDup (map dm_name (d_models d)));
  (InvalidPeriod, let periods := d_history_periods d in
     Forall period_ok periods ∧ NoDup (map hp_id periods) ∧ NoDup (map hp_reset_at periods));
  (InvalidPeriod, count (List.filter hp_current (d_history_periods d)) ≤ 1);
  (InvalidPeriod, Forall (λ p, hp_current p = true → current_ok (d_observed_at d) (d_quota d) p)
     (d_history_periods d));
  (InvalidSample, let samples := d_history_samples d in let periods := d_history_periods d in
     Forall sample_ok samples ∧ NoDup (map sample_key samples)
     ∧ Forall (λ s, ∃ p, only_one (sample_fits periods s) periods p) samples
     ∧ StronglySorted (hosts_apart periods) samples
     ∧ Sorted (λ s t, key_le (sample_key s) (sample_key t)) samples);
  (InvalidGap, let gaps := d_history_gaps d in let periods := d_history_periods d in
     Forall gap_ok gaps ∧ NoDup (map hg_gap_id gaps)
     ∧ Forall (λ g, ∃ p, only_one (gap_fits periods g) periods p) gaps
     ∧ StronglySorted (gaps_apart periods) gaps
     ∧ Sorted (λ g h, gap_compare g h ≠ Gt) gaps);
  (InvalidModel, Forall thread_ok (d_threads d) ∧ NoDup (map pt_id (d_threads d)))].
End specification.

(** ** Reflection of the checks *)
Section reflection.
Lemma is_any_true s alternatives : is_any s alternatives = true ↔ s ∈ map lit alternatives.
Proof.
  unfold is_any. rewrite existsb_Exists, Exists_exists, list_elem_of_fmap.
  setoid_rewrite text_eqb_true. naive_solver.
Qed.
Lemma is_some_and_false {A} (f : A → bool) o :
  is_some_and f o = false ↔ given (λ a, f a = false) o.
Proof. unfold given. destruct o; simpl; naive_solver. Qed.
Lemma is_none_or_true {A} (f : A → bool) o : is_none_or f o = true ↔ given (λ a, f a = true) o.
Proof. unfold given. destruct o; simpl; naive_solver. Qed.
Lemma given_iff {A} (P Q : A → Prop) o : (∀ a, P a ↔ Q a) → given P o ↔ given Q o.
Proof. unfold given. naive_solver. Qed.
#[export] Instance given_proper {A} :
  Proper (pointwise_relation A iff ==> eq ==> iff) (@given A).
Proof. intros P Q Hpq o _ <-. by apply given_iff. Qed.
Lemma invalid_percent_false v : invalid_percent v = false ↔ percent_ok v.
Proof. unfold invalid_percent, percent_ok. by rewrite orb_false_iff, negb_false_iff. Qed.
Lemma timestamp_true t : valid_timestamp t = true ↔ timestamp_ok t.
Proof. apply in_range_true. Qed.
Lemma timestamp_opt o : is_none_or valid_timestamp o = true ↔ given timestamp_ok o.
Proof. rewrite is_none_or_true. apply given_iff, timestamp_true. Qed.
Lemma quota_false q : validate_quota q = false ↔ quota_ok q.
Proof.
  unfold validate_quota, quota_ok. rewrite !orb_false_iff, negb_false_iff, invalid_percent_false,
    timestamp_true, Z.leb_gt. tauto.
Qed.
Lemma pair_gtb_false a b : pair_gtb a b = false ↔ key_le a b.
Proof. destruct a, b. unfold pair_gtb, key_le. simpl. lia. Qed.
Lemma gap_gtb_false g h : gap_gtb g h = false ↔ gap_compare g h ≠ Gt.
Proof. unfold gap_gtb. by destruct (gap_compare g h). Qed.

Lemma filter_only_one {A} (f : A → bool) l x :
  List.filter f l = [x] ↔ only_one (λ y, f y = true) l x.
Proof.
  unfold only_one. induction l as [|y l IH]; simpl.
  { split; [done|]. by intros ([] & ? & ? & _). }
  assert (∀ l', Forall (λ z, ¬ f z = true) l' ↔ List.filter f l' = []) as Hnil.
  { clear. induction l' as [|z l' IH]; simpl; [by split; [|constructor]|].
    rewrite Forall_cons, IH. destruct (f z); naive_solver. }
  setoid_rewrite Hnil in IH. setoid_rewrite Hnil. destruct (f y) eqn:E.
  - split.
    + intros [= <- Hl]. by exists [], l.
    + intros ([|z before] & after & [= <- ->] & Hx & Hf); simpl in Hf; [by rewrite Hf|].
      by rewrite E in Hf.
  - rewrite IH. split.
    + intros (before & after & -> & Hx & Hf). exists (y :: before), after. simpl. by rewrite E.
    + intros ([|z before] & after & [= <- ->] & Hx & Hf); [congruence|]. simpl in Hf.
      rewrite E in Hf. by exists before, after.
Qed.
Lemma only_one_iff {A} (P Q : A → Prop) l x :
  (∀ y, y ∈ l → P y ↔ Q y) → only_one P l x ↔ only_one Q l x.
Proof.
  intros Hpq. unfold only_one. setoid_rewrite Forall_forall. split.
  - intros (before & after & -> & Hx & Hf). exists before, after. set_solver.
  - intros (before & after & -> & Hx & Hf). exists before, after. set_solver.
Qed.
Lemma only_one_unique {A} (P : A → Prop) l x y : only_one P l x → only_one P l y → x = y.
Proof.
  intros (b & a & -> & Hx & Hf) (b' & a' & E & Hy & _). rewrite Forall_forall in Hf.
  assert (y ∈ b ++ x :: a) as Hin by (rewrite E; set_solver).
  rewrite elem_of_app, elem_of_cons in Hin. destruct Hin as [?|[?|?]]; [|done|];
    destruct (Hf y); set_solver.
Qed.
Lemma only_one_fits {A} (P : A → Prop) l x : only_one P l x → x ∈ l ∧ P x.
Proof. intros (b & a & -> & Hx & _). set_solver. Qed.
(** The three outcomes of collecting the matching periods. *)
Lemma filter_single {A} (f : A → bool) l :
  (∃ x, List.filter f l = [x]) ∨ ∀ x, ¬ only_one (λ y, f y = true) l x.
Proof.
  setoid_rewrite <-filter_only_one. destruct (List.filter f l) as [|x [|y l']]; naive_solver.
Qed.
End reflection.

(** Turn a disjunction of rejected conditions into the clauses. *)
Ltac clause :=
  rewrite ?orb_false_iff, ?negb_false_iff, ?bool_decide_eq_false, ?timestamp_true,
    ?is_any_true, ?timestamp_opt, ?Z.ltb_ge, ?Z.leb_gt, ?Z.eqb_eq.

(** ** The loops *)
Section loops.
(** The state of a loop that collects what is seen. *)
Definition seen {A B} `{Countable B} (f : A → B) (pre : list A) (s : gset B) : Prop :=
  ∀ b, b ∈ s ↔ b ∈ map f pre.
Lemma seen_empty {A B} `{Countable B} (f : A → B) : seen f [] ∅.
Proof. intros b. simpl. set_solver. Qed.
Lemma seen_snoc {A B} `{Countable B} (f : A → B) pre s x :
  seen f pre s → seen f (pre ++ [x]) ({[f x]} ∪ s).
Proof. intros Hs b. rewrite map_app. simpl. specialize (Hs b). set_solver. Qed.

Lemma models_loop models :
  decides InvalidModel (Forall model_ok models ∧ NoDup (map dm_name models))
    (seen dm_name models) (fold_result check_model ∅ models).
Proof.
  apply (fold_result_decides _ _ (λ pre m, model_ok m ∧ (dm_name m ∉ map dm_name pre))).
  - apply seen_empty.
  - intros pre names m Hn. apply decides_reject_last; [|by intros; apply seen_snoc].
    unfold model_ok. clause. rewrite (Hn (dm_name m)). tauto.
  - by rewrite every_and, every_Forall, every_fresh.
Qed.
Lemma threads_loop threads :
  decides InvalidModel (Forall thread_ok threads ∧ NoDup (map pt_id threads))
    (seen pt_id threads) (fold_result check_thread ∅ threads).
Proof.
  apply (fold_result_decides _ _ (λ pre t, thread_ok t ∧ (pt_id t ∉ map pt_id pre))).
  - apply seen_empty.
  - intros pre names t Hn. apply decides_reject_last; [|by intros; apply seen_snoc].
    unfold thread_ok. clause. rewrite (Hn (pt_id t)), !is_none_or_true.
    rewrite (given_iff _ (λ depth, 0 ≤ depth ≤ 1024) (pt_depth t)) by (intros; apply in_range_true).
    tauto.
  - by rewrite every_and, every_Forall, every_fresh.
Qed.

Record periods_seen (pre : list PublicHistoryPeriod) (s : period_state) : Prop := {
  seen_ids : seen hp_id pre (ps_ids s);
  seen_resets : seen hp_reset_at pre (ps_resets s);
  seen_current : ps_current s = count (List.filter hp_current pre)
}.
Lemma periods_loop periods :
  decides InvalidPeriod
    (Forall period_ok periods ∧ NoDup (map hp_id periods) ∧ NoDup (map hp_reset_at periods))
    (periods_seen periods)
    (fold_result check_period {| ps_ids := ∅; ps_resets := ∅; ps_current := 0 |} periods).
Proof.
  apply (fold_result_decides _ _ (λ pre p, period_ok p ∧ (hp_id p ∉ map hp_id pre)
    ∧ (hp_reset_at p ∉ map hp_reset_at pre))).
  - split; [apply seen_empty..|done].
  - intros pre s p [Hi Hr Hc]. apply decides_reject_last.
    + unfold period_ok. clause. unfold timestamp_ok. rewrite (Hi (hp_id p)), (Hr (hp_reset_at p)).
      intuition lia.
    + intros _. split; simpl; [by apply seen_snoc..|].
      rewrite List.filter_app, Hc. unfold count. rewrite length_app. simpl.
      destruct (hp_current p); simpl; lia.
  - by rewrite !every_and, every_Forall, !every_fresh.
Qed.

Lemma current_loop observed_at quota periods :
  decides InvalidPeriod (Forall (λ p, hp_current p = true → current_ok observed_at quota p) periods)
    (λ _, True) (fold_result (check_current_period observed_at quota) tt periods).
Proof.
  apply (fold_result_decides _ (λ _ _, True)
    (λ _ p, hp_current p = true → current_ok observed_at quota p)); [done| |apply every_Forall].
  intros _ [] p _. unfold check_current_period, current_ok.
  destruct (hp_current p); [|by apply decides_ok].
  destruct observed_at as [now|]; [|apply decides_err; naive_solver].
  destruct quota as [q|].
  - destruct (current_period_bounds _ _ now) as [[start_at end_at]|] eqn:E.
    + apply decides_reject_last; [|done]. clause. split.
      * intros [-> ->] _. by exists now.
      * intros Hb. destruct (Hb eq_refl) as (? & [= <-] & Heq). rewrite E in Heq. by injection Heq.
    + apply decides_err. intros Hno. destruct Hno as (? & [= <-] & ?); congruence.
  - apply decides_reject_last; [|done]. clause. naive_solver.
Qed.
End loops.

(** The loops over the samples and the gaps, on validated periods. *)
Section hosted_loops.
Context (periods : list PublicHistoryPeriod) (period_resets : gset Z)
  (periods_ok : Forall period_ok periods) (resets_seen : seen hp_reset_at periods period_resets).

Lemma reset_matches_true reset_at p :
  p ∈ periods → reset_matches period_resets reset_at p = true ↔ stands_for periods reset_at p.
Proof.
  intros Hp. rewrite Forall_forall in periods_ok. destruct (periods_ok p Hp) as (_ & _ & Hb).
  unfold reset_matches, stands_for. rewrite orb_true_iff, !andb_true_iff, negb_true_iff,
    bool_decide_eq_false, (resets_seen reset_at), Z.eqb_eq, !Z.leb_le.
  unfold i64_saturating_sub. unfold MAX_PUBLIC_UNIX_SECONDS in Hb.
  rewrite Z.min_r, Z.max_r by width. split; [|intuition lia].
  intros [?|[[? ?] ?]]; [by left|]. destruct (decide (reset_at = hp_reset_at p)); [by left|right].
  split; [done|lia].
Qed.
Lemma sample_in_period_true s p :
  p ∈ periods → sample_in_period period_resets s p = true ↔ sample_fits periods s p.
Proof.
  intros Hp. unfold sample_in_period, sample_fits, history_minute_in_period.
  rewrite !andb_true_iff, (reset_matches_true _ _ Hp), !Z.leb_le. tauto.
Qed.
Lemma gap_in_period_true g p :
  p ∈ periods → gap_in_period period_resets g p = true ↔ gap_fits periods g p.
Proof.
  intros Hp. unfold gap_in_period, gap_fits.
  rewrite !andb_true_iff, (reset_matches_true _ _ Hp), !Z.leb_le. tauto.
Qed.
Lemma hosted (f : PublicHistoryPeriod → bool) (P : PublicHistoryPeriod → Prop) :
  (∀ p, p ∈ periods → f p = true ↔ P p) →
  (∃ p, List.filter f periods = [p] ∧ only_one P periods p) ∨
  ((∀ p, List.filter f periods ≠ [p]) ∧ ∀ p, ¬ only_one P periods p).
Proof.
  intros Hf. assert (∀ p, List.filter f periods = [p] ↔ only_one P periods p) as Hp.
  { intros p. rewrite filter_only_one. by apply only_one_iff. }
  destruct (filter_single f periods) as [[p E]|Hn]; [left; exists p; by rewrite <-Hp|right].
  setoid_rewrite <-filter_only_one in Hn. split; [done|]. intros p. rewrite <-Hp. apply Hn.
Qed.

Record samples_seen (pre : list PublicHistorySample) (s : sample_state) : Prop := {
  samples_ids : seen sample_key pre (ss_ids s);
  samples_hosts id t : (id, t) ∈ ss_canonical_ids s ↔
    ∃ y p, y ∈ pre ∧ only_one (sample_fits periods y) periods p ∧ hp_id p = id
      ∧ hs_timestamp y = t;
  samples_previous : ss_previous s = sample_key <$> last pre
}.
Lemma sample_conditions s :
  negb (valid_timestamp (hs_timestamp s)) || negb (valid_timestamp (hs_reset_at s))
    || negb (hs_timestamp s mod 60 =? 0)
    || is_some_and invalid_percent (hs_remaining_percent s)
    || negb (valid_rate (hs_sol_dollars s)) || negb (valid_rate (hs_terra_dollars s))
    || negb (valid_rate (hs_luna_dollars s)) = false ↔ sample_ok s.
Proof.
  unfold sample_ok. clause. rewrite is_some_and_false, (given_iff _ percent_ok) by
    (intros; apply invalid_percent_false).
  rewrite Z.mod_divide by done. tauto.
Qed.
Definition sample_admitted (pre : list PublicHistorySample) (x : PublicHistorySample) : Prop :=
  sample_ok x ∧ (sample_key x ∉ map sample_key pre)
  ∧ (∃ p, only_one (sample_fits periods x) periods p)
  ∧ (∀ y, y ∈ pre → hosts_apart periods y x)
  ∧ (∀ y, last pre = Some y → key_le (sample_key y) (sample_key x)).
Lemma sample_step pre s x :
  samples_seen pre s →
  decides InvalidSample (sample_admitted pre x) (samples_seen (pre ++ [x]))
    (check_sample periods period_resets s x).
Proof.
  intros [Hids Hhosts Hprev]. unfold check_sample, sample_admitted.
  apply decides_reject; [apply sample_conditions|intros _].
  apply decides_reject; [clause; by rewrite (Hids (sample_key x))|intros _].
  destruct (hosted _ _ (sample_in_period_true x)) as [(p & -> & Hp)|[Hne Hno]].
  2: { destruct (List.filter _ periods) as [|p [|]]; [|by destruct (Hne p)|];
       apply decides_err; naive_solver. }
  apply (decides_iff _ _ ((∀ y, y ∈ pre → hosts_apart periods y x)
    ∧ ∀ y, last pre = Some y → key_le (sample_key y) (sample_key x))); [naive_solver|].
  apply decides_reject; [|intros _; apply decides_reject_last].
  - clause. rewrite Hhosts. unfold hosts_apart. split.
    + intros Hn y Hy q r Hq Hr Hid E. apply Hn. exists y, q. split_and!; [done|done| |done].
      by rewrite Hid, (only_one_unique _ _ _ _ Hp Hr).
    + intros Hn (y & q & Hy & Hq & Hid & E). by apply (Hn y Hy q p).
  - rewrite is_some_and_false, Hprev. unfold given.
    destruct (last pre) as [y|]; simpl; [|naive_solver]. setoid_rewrite pair_gtb_false. naive_solver.
  - intros _. split; simpl.
    + by apply seen_snoc.
    + intros id t. rewrite elem_of_union, elem_of_singleton, Hhosts. setoid_rewrite elem_of_app.
      setoid_rewrite list_elem_of_singleton. split.
      * intros [[= -> ->]|(y & q & ?)]; [exists x, p|exists y, q]; naive_solver.
      * intros (y & q & [Hy| ->] & Hq & <- & <-); [right; by exists y, q|left].
        by rewrite (only_one_unique _ _ _ _ Hp Hq).
    + by rewrite last_snoc.
Qed.
Lemma samples_loop samples :
  decides InvalidSample
    (Forall sample_ok samples ∧ NoDup (map sample_key samples)
     ∧ Forall (λ s, ∃ p, only_one (sample_fits periods s) periods p) samples
     ∧ StronglySorted (hosts_apart periods) samples
     ∧ Sorted (λ s t, key_le (sample_key s) (sample_key t)) samples)
    (samples_seen samples)
    (fold_result (check_sample periods period_resets)
       {| ss_ids := ∅; ss_canonical_ids := ∅; ss_previous := None |} samples).
Proof.
  apply (fold_result_decides _ _ sample_admitted).
  - split; [apply seen_empty| |done]. intros id t. simpl. set_solver.
  - apply sample_step.
  - unfold sample_admitted.
    by rewrite !every_and, !every_Forall, every_fresh, every_pairs, every_adjacent.
Qed.

Record gaps_seen (pre : list PublicHistoryGap) (s : gap_state) : Prop := {
  gaps_ids : seen hg_gap_id pre (gs_ids s);
  gaps_ranges r : r ∈ gs_ranges s ↔
    ∃ y p, y ∈ pre ∧ only_one (gap_fits periods y) periods p
      ∧ r = (hp_id p, hg_start_at y, hg_end_at y);
  gaps_previous : gs_previous s = last pre
}.
Definition gap_admitted (pre : list PublicHistoryGap) (x : PublicHistoryGap) : Prop :=
  (gap_ok x ∧ (hg_gap_id x ∉ map hg_gap_id pre))
  ∧ (∃ p, only_one (gap_fits periods x) periods p)
  ∧ (∀ y, last pre = Some y → gap_compare y x ≠ Gt)
  ∧ (∀ y, y ∈ pre → gaps_apart periods y x).
Lemma gap_step pre s x :
  gaps_seen pre s →
  decides InvalidGap (gap_admitted pre x) (gaps_seen (pre ++ [x]))
    (check_gap periods period_resets s x).
Proof.
  intros [Hids Hranges Hprev]. unfold check_gap, gap_admitted.
  apply decides_reject.
  { unfold gap_ok. clause. rewrite (Hids (hg_gap_id x)). tauto. }
  intros _. destruct (hosted _ _ (gap_in_period_true x)) as [(p & -> & Hp)|[Hne Hno]].
  2: { destruct (List.filter _ periods) as [|p [|]]; [|by destruct (Hne p)|];
       apply decides_err; naive_solver. }
  apply (decides_iff _ _ ((∀ y, last pre = Some y → gap_compare y x ≠ Gt)
    ∧ ∀ y, y ∈ pre → gaps_apart periods y x)); [naive_solver|].
  apply decides_reject; [|intros _; apply decides_reject_last].
  - rewrite is_some_and_false, Hprev. unfold given. by setoid_rewrite gap_gtb_false.
  - rewrite existsb_false_Forall, Forall_forall. unfold gaps_apart. split.
    + intros Hn y Hy q r Hq Hr Hid. rewrite (only_one_unique _ _ _ _ Hr Hp) in Hid.
      specialize (Hn (hp_id q, hg_start_at y, hg_end_at y)). simpl in Hn.
      rewrite Hid in Hn. unfold text_eqb in Hn. rewrite bool_decide_eq_true_2 in Hn by done.
      assert (true && (hg_start_at x <=? hg_end_at y) && (hg_start_at y <=? hg_end_at x) = false)
        as Hf by (apply Hn, Hranges; exists y, q; by rewrite Hid). lia.
    + intros Hn [[id a] b] Hr. apply Hranges in Hr as (y & q & Hy & Hq & [= -> -> ->]).
      apply not_true_iff_false. rewrite !andb_true_iff, text_eqb_true, !Z.leb_le.
      intros [[Hid ?] ?]. specialize (Hn y Hy q p Hq Hp Hid). lia.
  - intros _. split; simpl.
    + by apply seen_snoc.
    + intros r. rewrite elem_of_app, list_elem_of_singleton, Hranges. setoid_rewrite elem_of_app.
      setoid_rewrite list_elem_of_singleton. split.
      * intros [(y & q & ?)| ->]; [exists y, q|exists x, p]; naive_solver.
      * intros (y & q & [Hy| ->] & Hq & ->); [left; by exists y, q|right].
        by rewrite (only_one_unique _ _ _ _ Hp Hq).
    + by rewrite last_snoc.
Qed.
Lemma gaps_loop gaps :
  decides InvalidGap
    (Forall gap_ok gaps ∧ NoDup (map hg_gap_id gaps)
     ∧ Forall (λ g, ∃ p, only_one (gap_fits periods g) periods p) gaps
     ∧ StronglySorted (gaps_apart periods) gaps
     ∧ Sorted (λ g h, gap_compare g h ≠ Gt) gaps)
    (gaps_seen gaps)
    (fold_result (check_gap periods period_resets)
       {| gs_ids := ∅; gs_previous := None; gs_ranges := [] |} gaps).
Proof.
  apply (fold_result_decides _ _ gap_admitted).
  - split; [apply seen_empty| |done]. intros r. simpl. set_solver.
  - apply gap_step.
  - unfold gap_admitted.
    rewrite !every_and, !every_Forall, every_fresh, every_pairs, every_adjacent. tauto.
Qed.
End hosted_loops.

(** C20. Validation is decided by the first violated clause: the eleven clauses of
    [details_clauses], on the whole lists and in this order, are exactly what the
    loops check, and the error is the one of the first clause that fails. *)
Theorem validate_first_violation (d : PublicDetails) (history_limit : Z) :
  first_violation (details_clauses d history_limit) tt (validate_with_history_limit d history_limit).
Proof.
  unfold validate_with_history_limit, details_clauses, validate_threads.
  apply first_violation_reject; [|intros _].
  { rewrite is_some_and_false. apply given_iff. intros. by rewrite negb_false_iff, timestamp_true. }
  apply first_violation_reject; [|intros _].
  { rewrite is_some_and_false. apply given_iff, quota_false. }
  apply first_violation_reject; [|intros (_ & _ & _ & Hthreads)].
  { clause. unfold MAX_PUBLIC_MODELS, MAX_PUBLIC_HISTORY_GAPS, MAX_PUBLIC_THREADS. tauto. }
  apply first_violation_reject; [|intros _].
  { clause. rewrite is_some_and_false. by setoid_rewrite negb_false_iff. }
  eapply first_violation_bind; [apply models_loop|intros _ _ _].
  eapply first_violation_bind; [apply periods_loop|intros periods (Hp & _) [_ Hresets Hcurrent]].
  apply first_violation_reject; [by rewrite Hcurrent, Z.ltb_ge|intros _].
  eapply first_violation_bind; [apply current_loop|intros _ _ _].
  eapply first_violation_bind; [by apply samples_loop|intros _ _ _].
  eapply first_violation_bind; [by apply gaps_loop|intros _ _ _].
  replace (MAX_PUBLIC_THREADS <? count (d_threads d)) with false
    by (symmetry; by apply Z.ltb_ge).
  eapply first_violation_bind; [apply threads_loop|]. by intros.
Qed.

(** ** The versions of the document *)
Record PublicDetailsV2 := {
  d2_state : PublicState;
  d2_observed_at : option Z;
  d2_authenticated : bool;
  d2_plan_label : option text;
  d2_quota : option PublicQuota;
  d2_models : list PublicDetailedModelUsage;
  d2_active_thread_count : Z;
  d2_history_periods : list PublicHistoryPeriod;
  d2_history_samples : list PublicHistoryObservation;
  d2_history_gaps : list PublicHistoryGap;
  d2_threads : list PublicThread;
  d2_estimated_cost_label : text
}.
Record PublicModelUsageV3 := {
  m3_model : text;
  m3_total_tokens : Z;
  m3_input_tokens : Z;
  m3_cached_input_tokens : Z;
  m3_cache_write_input_tokens : option Z;
  m3_output_tokens : Z;
  m3_estimated_cost : option PublicModelCostV3
}.
Record PublicHistoryModelUsageV3 := {
  h3_model : text;
  h3_total_tokens : Z;
  h3_input_tokens : option Z;
  h3_cached_input_tokens : option Z;
  h3_cache_write_input_tokens : option Z;
  h3_output_tokens : option Z;
  h3_total_dollars : option f64
}.
Record PublicHistoryObservationV3 := {
  o3_timestamp : Z;
  o3_reset_at : Z;
  o3_remaining_percent : option f64;
  o3_task_active_since_previous : option bool;
  o3_models : option (list PublicHistoryModelUsageV3);
  o3_models_complete : bool;
  o3_model_source : text
}.
Record PublicDetailsV3 := {
  d3_state : PublicState;
  d3_observed_at : option Z;
  d3_authenticated : bool;
  d3_plan_label : option text;
  d3_quota : option PublicQuota;
  d3_models : list PublicModelUsageV3;
  d3_active_thread_count : Z;
  d3_open_session_thread_count : Z;
  d3_history_periods : list PublicHistoryPeriod;
  d3_history_samples : list PublicHistoryObservationV3;
  d3_history_gaps : list PublicHistoryGap;
  d3_threads : list PublicThread
}.

Definition legacy_source (source : text) : bool := is_any source ["confirmed"; "legacy-unknown"].

Definition as_legacy_sample (self : PublicHistoryObservation) : option PublicHistorySample :=
  if negb (legacy_source (ho_model_source self)) then None
  else
    sol_dollars ← ho_sol_dollars self;
    terra_dollars ← ho_terra_dollars self;
    luna_dollars ← ho_luna_dollars self;
    sol_tokens ← ho_sol_tokens self;
    terra_tokens ← ho_terra_tokens self;
    luna_tokens ← ho_luna_tokens self;
    Some {| hs_timestamp := ho_timestamp self; hs_reset_at := ho_reset_at self;
            hs_remaining_percent := ho_remaining_percent self; hs_sol_dollars := sol_dollars;
            hs_terra_dollars := terra_dollars; hs_luna_dollars := luna_dollars;
            hs_sol_tokens := sol_tokens; hs_terra_tokens := terra_tokens;
            hs_luna_tokens := luna_tokens |}.

Definition observation_of_sample (sample : PublicHistorySample) : PublicHistoryObservation := {|
  ho_timestamp := hs_timestamp sample; ho_reset_at := hs_reset_at sample;
  ho_remaining_percent := hs_remaining_percent sample;
  ho_sol_dollars := Some (hs_sol_dollars sample);
  ho_terra_dollars := Some (hs_terra_dollars sample);
  ho_luna_dollars := Some (hs_luna_dollars sample);
  ho_sol_tokens := Some (hs_sol_tokens sample);
  ho_terra_tokens := Some (hs_terra_tokens sample);
  ho_luna_tokens := Some (hs_luna_tokens sample);
  ho_model_source := lit "legacy-unknown" |}.

Definition v2_of_v1 (details : PublicDetails) : PublicDetailsV2 := {|
  d2_state := d_state details; d2_observed_at := d_observed_at details;
  d2_authenticated := d_authenticated details; d2_plan_label := d_plan_label details;
  d2_quota := d_quota details; d2_models := d_models details;
  d2_active_thread_count := d_active_thread_count details;
  d2_history_periods := d_history_periods details;
  d2_history_samples := map observation_of_sample (d_history_samples details);
  d2_history_gaps := d_history_gaps details; d2_threads := d_threads details;
  d2_estimated_cost_label := d_estimated_cost_label details |}.

Definition legacy_model (model : text) (total_tokens : Z) (total_dollars : f64) :
    PublicHistoryModelUsageV3 := {|
  h3_model := model; h3_total_tokens := total_tokens; h3_input_tokens := None;
  h3_cached_input_tokens := None; h3_cache_write_input_tokens := None; h3_output_tokens := None;
  h3_total_dollars := Some total_dollars |}.
Definition legacy_history_models_v3 (sample : PublicHistoryObservation) :
    option (list PublicHistoryModelUsageV3) :=
  if negb (legacy_source (ho_model_source sample)) then None
  else
    sol_tokens ← ho_sol_tokens sample;
    sol_dollars ← ho_sol_dollars sample;
    terra_tokens ← ho_terra_tokens sample;
    terra_dollars ← ho_terra_dollars sample;
    luna_tokens ← ho_luna_tokens sample;
    luna_dollars ← ho_luna_dollars sample;
    Some [legacy_model (lit "SOL") sol_tokens sol_dollars;
          legacy_model (lit "TERRA") terra_tokens terra_dollars;
          legacy_model (lit "LUNA") luna_tokens luna_dollars].

Definition model_v3_of_v1 (model : PublicDetailedModelUsage) : PublicModelUsageV3 := {|
  m3_model := dm_name model;
  m3_total_tokens := u64_saturating_add
    (u64_saturating_add (dm_input_tokens model) (dm_cached_input_tokens model))
    (dm_output_tokens model);
  m3_input_tokens := u64_saturating_add (dm_input_tokens model) (dm_cached_input_tokens model);
  m3_cached_input_tokens := dm_cached_input_tokens model;
  m3_cache_write_input_tokens := None;
  m3_output_tokens := dm_output_tokens model;
  m3_estimated_cost := None |}.

Definition observation_v3_of_v2 (sample : PublicHistoryObservation) :
    PublicHistoryObservationV3 :=
  let models := legacy_history_models_v3 sample in
  let source := ho_model_source sample in
  {| o3_timestamp := ho_timestamp sample; o3_reset_at := ho_reset_at sample;
     o3_remaining_percent := ho_remaining_percent sample;
     o3_task_active_since_previous := None;
     o3_models := models;
     o3_models_complete := false;
     o3_model_source :=
       if legacy_source source && opt_is_some models then lit "legacy-unknown"
       else if text_eqb source (lit "reconstructed-from-session")
       then lit "reconstructed-from-session"
       else lit "unavailable" |}.
Definition with_activity (thread : PublicThread) : PublicThread := {|
  pt_id := pt_id thread; pt_title := pt_title thread;
  pt_activity_status :=
    Some match pt_activity_status thread with Some s => s | None => PublicRunning end;
  pt_parent_thread_id := pt_parent_thread_id thread; pt_model := pt_model thread;
  pt_model_label := pt_model_label thread; pt_total_tokens := pt_total_tokens thread;
  pt_context_usage_tokens := pt_context_usage_tokens thread;
  pt_context_window_tokens := pt_context_window_tokens thread;
  pt_created_at := pt_created_at thread;
  pt_last_user_message_at := pt_last_user_message_at thread;
  pt_is_subagent := pt_is_subagent thread; pt_depth := pt_depth thread |}.
Definition from_v2_with_models (details : PublicDetailsV2) (models : list PublicModelUsageV3) :
    PublicDetailsV3 := {|
  d3_state := d2_state details; d3_observed_at := d2_observed_at details;
  d3_authenticated := d2_authenticated details; d3_plan_label := d2_plan_label details;
  d3_quota := d2_quota details; d3_models := models;
  d3_active_thread_count := d2_active_thread_count details;
  d3_open_session_thread_count := count (d2_threads details);
  d3_history_periods := d2_history_periods details;
  d3_history_samples := map observation_v3_of_v2 (d2_history_samples details);
  d3_history_gaps := d2_history_gaps details;
  d3_threads := map with_activity (d2_threads details) |}.
Definition v3_of_v2 (details : PublicDetailsV2) : PublicDetailsV3 :=
  from_v2_with_models details (map model_v3_of_v1 (d2_models details)).
Definition from_v2_with_models_and_history (details : PublicDetailsV2)
    (models : list PublicModelUsageV3) (history_samples : list PublicHistoryObservationV3) :
    PublicDetailsV3 :=
  let projected := from_v2_with_models details models in
  {| d3_state := d3_state projected; d3_observed_at := d3_observed_at projected;
     d3_authenticated := d3_authenticated projected; d3_plan_label := d3_plan_label projected;
     d3_quota := d3_quota projected; d3_models := d3_models projected;
     d3_active_thread_count := d3_active_thread_count projected;
     d3_open_session_thread_count := d3_open_session_thread_count projected;
     d3_history_periods := d3_history_periods projected; d3_history_samples := history_samples;
     d3_history_gaps := d3_history_gaps projected; d3_threads := d3_threads projected |}.

Section projections.
Lemma legacy_source_true s : legacy_source s = true ↔ s ∈ [lit "confirmed"; lit "legacy-unknown"].
Proof. apply is_any_true. Qed.
Definition with_source (o : PublicHistoryObservation) (source : text) :
    PublicHistoryObservation := {|
  ho_timestamp := ho_timestamp o; ho_reset_at := ho_reset_at o;
  ho_remaining_percent := ho_remaining_percent o; ho_sol_dollars := ho_sol_dollars o;
  ho_terra_dollars := ho_terra_dollars o; ho_luna_dollars := ho_luna_dollars o;
  ho_sol_tokens := ho_sol_tokens o; ho_terra_tokens := ho_terra_tokens o;
  ho_luna_tokens := ho_luna_tokens o; ho_model_source := source |}.
Lemma as_legacy_sample_Some o s :
  as_legacy_sample o = Some s ↔
  ho_model_source o ∈ [lit "confirmed"; lit "legacy-unknown"]
  ∧ o = with_source (observation_of_sample s) (ho_model_source o).
Proof.
  unfold as_legacy_sample. rewrite <-legacy_source_true.
  destruct (legacy_source (ho_model_source o)) eqn:E; simpl; [|naive_solver].
  destruct o as [t r p [a|] [b|] [c|] [x|] [y|] [z|] m], s; cbn [mbind option_bind
    ho_sol_dollars ho_terra_dollars ho_luna_dollars ho_sol_tokens ho_terra_tokens ho_luna_tokens];
    unfold with_source, observation_of_sample; cbn; split; try done; try (by intros [_ [=]]).
  - intros [= <- <- <- <- <- <- <- <- <-]. done.
  - intros [_ [= <- <- <- <- <- <- <- <- <-]]. done.
Qed.
End projections.

(** Version 1 samples are exactly the fully known legacy observations: an
    observation converts to a sample if and only if its source is a legacy one and
    it is that sample's observation, whatever of the two sources it names; so
    going to version 2 and back returns every sample. *)
Theorem legacy_sample_round_trip :
  (∀ o s, as_legacy_sample o = Some s ↔
     ho_model_source o ∈ [lit "confirmed"; lit "legacy-unknown"]
     ∧ o = with_source (observation_of_sample s) (ho_model_source o))
  ∧ ∀ d, map as_legacy_sample (d2_history_samples (v2_of_v1 d)) = map Some (d_history_samples d).
Proof.
  split; [apply as_legacy_sample_Some|]. intros d. simpl. rewrite map_map.
  apply map_ext. intros s. apply as_legacy_sample_Some. split; [|by destruct s].
  right. by left.
Qed.

(** The version 3 projection turns no unknown value into a number: an
    observation carries model rows exactly when it converts to a version 1 sample,
    the rows are that sample's numbers and the source then reads [legacy-unknown];
    otherwise there are no rows and only a session reconstruction keeps its
    name. *)
Theorem history_projection_invents_nothing (o : PublicHistoryObservation) :
  let o3 := observation_v3_of_v2 o in
  match as_legacy_sample o with
  | Some s =>
      o3_models o3 = Some [legacy_model (lit "SOL") (hs_sol_tokens s) (hs_sol_dollars s);
                           legacy_model (lit "TERRA") (hs_terra_tokens s) (hs_terra_dollars s);
                           legacy_model (lit "LUNA") (hs_luna_tokens s) (hs_luna_dollars s)]
      ∧ o3_model_source o3 = lit "legacy-unknown"
  | None =>
      o3_models o3 = None
      ∧ o3_model_source o3 =
          (if decide (ho_model_source o = lit "reconstructed-from-session")
           then lit "reconstructed-from-session" else lit "unavailable")
  end.
Proof.
  unfold observation_v3_of_v2, as_legacy_sample, legacy_history_models_v3. cbn [o3_models o3_model_source].
  destruct (legacy_source (ho_model_source o)) eqn:E; simpl.
  - assert (text_eqb (ho_model_source o) (lit "reconstructed-from-session") = false) as Hs.
    { apply legacy_source_true in E. unfold text_eqb. apply bool_decide_eq_false. intros Hs.
      rewrite Hs in E. rewrite !elem_of_cons, elem_of_nil in E. by destruct E as [E|[E|[]]]. }
    rewrite Hs. unfold text_eqb in Hs. apply bool_decide_eq_false in Hs.
    destruct o as [t r p [a|] [b|] [c|] [x|] [y|] [z|] m]; simpl in *; try done;
      by rewrite decide_False.
  - split; [done|]. unfold text_eqb. destruct (decide _) as [Hs|Hs];
      [by rewrite bool_decide_eq_true_2|by rewrite bool_decide_eq_false_2].
Qed.

(** The model rows of the version 3 projection keep their bounds: cached input
    is part of the input, the input of the total, and the total is the saturated
    sum of the three version 1 counters. *)
Theorem model_projection_bounds (m : PublicDetailedModelUsage) :
  is_u64 (dm_input_tokens m) → is_u64 (dm_cached_input_tokens m) → is_u64 (dm_output_tokens m) →
  let m3 := model_v3_of_v1 m in
  m3_cached_input_tokens m3 ≤ m3_input_tokens m3 ≤ m3_total_tokens m3
  ∧ m3_total_tokens m3 =
      Z.min u64_max (dm_input_tokens m + dm_cached_input_tokens m + dm_output_tokens m).
Proof.
  intros Hi Hc Ho. cbn [model_v3_of_v1 m3_cached_input_tokens m3_input_tokens m3_total_tokens].
  unfold u64_saturating_add. width.
Qed.

(** ** Concrete documents *)
Definition example_model : PublicDetailedModelUsage := {|
  dm_name := lit "SOL"; dm_input_tokens := 2 ^ 63; dm_cached_input_tokens := 2 ^ 63;
  dm_output_tokens := 5; dm_input_dollars := f64_zero; dm_cached_input_dollars := f64_zero;
  dm_output_dollars := f64_zero |}.
Lemma model_projection_bounds_witness :
  (let m3 := model_v3_of_v1 example_model in
   m3_cached_input_tokens m3 ≤ m3_input_tokens m3 ≤ m3_total_tokens m3
   ∧ m3_total_tokens m3 = Z.min u64_max (2 ^ 63 + 2 ^ 63 + 5))
  ∧ m3_input_tokens (model_v3_of_v1 example_model) = u64_max.
Proof. split; [|done]. by apply (model_projection_bounds example_model). Defined.

Definition example_details : PublicDetails := {|
  d_state := Ready; d_observed_at := Some 100000; d_authenticated := true;
  d_plan_label := None;
  d_quota := Some {| pq_remaining_percent := f64_of_Z 40; pq_reset_at := 120000;
                     pq_window_seconds := 30000; pq_monthly := false |};
  d_models := [example_model]; d_active_thread_count := 0;
  d_history_periods := [{| hp_id := lit "p"; hp_start_at := 90000; hp_end_at := 100000;
                           hp_reset_at := 120000; hp_label := lit "now"; hp_current := true |}];
  d_history_samples := [{| hs_timestamp := 90000; hs_reset_at := 119940;
                           hs_remaining_percent := None; hs_sol_dollars := f64_zero;
                           hs_terra_dollars := f64_zero; hs_luna_dollars := f64_zero;
                           hs_sol_tokens := 1; hs_terra_tokens := 2; hs_luna_tokens := 3 |}];
  d_history_gaps := [{| hg_gap_id := lit "0123456789abcdef0123456789abcdef";
                        hg_reset_at := 120000; hg_start_at := 91000; hg_end_at := 92000;
                        hg_reason := lit "reset_hint_expired" |}];
  d_threads := []; d_estimated_cost_label := lit "-" |}.
Example example_details_valid : PublicDetails_validate example_details = Ok tt.
Proof. vm_compute. reflexivity. Qed.
