(* ===== verification/Accounts.v ===== *)
(** * The account selector

    Models the version 3 account selector of
    [crates/codex-info-rest-contract/src/lib.rs]: the account identifiers and
    [PublicAccountsV3::validate]. *)

From S2P Require Import Prelude Text Contract Details.

Record PublicAccountOwnershipInterval := {
  oi_start_at : option Z;
  oi_end_at : option Z
}.
Record PublicAccountV3 := {
  pa_id : text;
  pa_is_current : bool;
  pa_activation_at : option Z;
  pa_deactivation_at : option Z;
  pa_ownership_intervals : list PublicAccountOwnershipInterval;
  pa_login_id : option text
}.
Record PublicAccountsV3 := {
  default_account_id : option text;
  accounts : list PublicAccountV3
}.

Definition valid_public_account_id (value : text) : bool :=
  match strip_prefix (lit "account-") value with
  | None => false
  | Some epoch =>
      match parse_unsigned u64_max epoch with
      | None => false
      | Some epoch => (0 <? epoch) && text_eqb value (lit "account-" ++ to_dec epoch)
      end
  end.
Definition valid_public_login_id (value : text) : bool :=
  negb (bool_decide (value = [])) && text_eqb (trim value) value
  && (chars_count value <=? MAX_PUBLIC_LOGIN_ID_SCALARS) && negb (existsb is_control value).

(** The body of the intervals loop; the state is [previous_end]. *)
Definition check_interval (previous_end : option Z) (interval : PublicAccountOwnershipInterval) :
    result ContractError (option Z) :=
  let bounds := opt_zip (oi_start_at interval) (oi_end_at interval) in
  reject InvalidModel when
    is_some_and (λ value, negb (valid_timestamp value)) (oi_start_at interval)
    || is_some_and (λ value, negb (valid_timestamp value)) (oi_end_at interval)
    || is_some_and (λ '(start_at, end_at), end_at <? start_at) bounds;
  if is_some_and (λ '(start_at, end_at), start_at =? end_at) bounds then Ok previous_end
  else
    reject InvalidModel when
      is_some_and (λ end_at, default i64_min (oi_start_at interval) <? end_at) previous_end;
    Ok (Some (default i64_max (oi_end_at interval))).

Record accounts_state := {
  acs_ids : gset text;
  acs_current_count : Z;
  acs_default_found : bool
}.
Definition check_account (default_id : option text) (s : accounts_state)
    (account : PublicAccountV3) : result ContractError accounts_state :=
  reject InvalidModel when
    negb (valid_public_account_id (pa_id account))
    || bool_decide (pa_id account ∈ acs_ids s)
    || is_some_and (λ timestamp, negb (valid_timestamp timestamp)) (pa_activation_at account)
    || is_some_and (λ timestamp, negb (valid_timestamp timestamp)) (pa_deactivation_at account)
    || is_some_and (λ '(activation, deactivation), deactivation <? activation)
         (opt_zip (pa_activation_at account) (pa_deactivation_at account))
    || is_some_and (λ value, negb (valid_public_login_id value)) (pa_login_id account);
  _ ← fold_result check_interval None (pa_ownership_intervals account);
  let is_default := bool_decide (default_id = Some (pa_id account)) in
  reject InvalidModel when is_default && negb (pa_is_current account);
  Ok {| acs_ids := {[pa_id account]} ∪ acs_ids s;
        acs_current_count :=
          if pa_is_current account then acs_current_count s + 1 else acs_current_count s;
        acs_default_found := is_default || acs_default_found s |}.

Definition PublicAccountsV3_validate (self : PublicAccountsV3) : result ContractError () :=
  reject TooManyItems when MAX_PUBLIC_ACCOUNTS <? count (accounts self);
  reject InvalidModel when
    is_some_and (λ account_id, negb (valid_public_account_id account_id)) (default_account_id self);
  s ← fold_result (check_account (default_account_id self))
        {| acs_ids := ∅; acs_current_count := 0; acs_default_found := false |} (accounts self);
  match default_account_id self with
  | Some _ =>
      reject InvalidModel when negb (acs_default_found s) || negb (acs_current_count s =? 1);
      Ok tt
  | None => reject InvalidModel when negb (acs_current_count s =? 0); Ok tt
  end.

(** ** What a valid selector is *)
Section specification.
(** [account-<epoch>] with a positive epoch in canonical decimal. *)
Definition account_id (value : text) : Prop :=
  ∃ epoch, 1 ≤ epoch ≤ u64_max ∧ value = lit "account-" ++ to_dec epoch.
Definition ordered_bounds (start_at end_at : option Z) : Prop :=
  given timestamp_ok start_at ∧ given timestamp_ok end_at
  ∧ ∀ s e, start_at = Some s → end_at = Some e → s ≤ e.
(** An interval that owns some time. *)
Definition owns (i : PublicAccountOwnershipInterval) : Prop :=
  ∀ t, oi_start_at i = Some t → oi_end_at i ≠ Some t.
Definition ends_before (i j : PublicAccountOwnershipInterval) : Prop :=
  owns i → owns j → default i64_max (oi_end_at i) ≤ default i64_min (oi_start_at j).
Definition intervals_ok (l : list PublicAccountOwnershipInterval) : Prop :=
  Forall (λ i, ordered_bounds (oi_start_at i) (oi_end_at i)) l ∧ StronglySorted ends_before l.
Definition account_ok (a : PublicAccountV3) : Prop :=
  account_id (pa_id a) ∧ ordered_bounds (pa_activation_at a) (pa_deactivation_at a)
  ∧ given (λ l, valid_public_login_id l = true) (pa_login_id a)
  ∧ intervals_ok (pa_ownership_intervals a).
(** The default is the one current account; without a default there is none. *)
Definition default_ok (self : PublicAccountsV3) : Prop :=
  match default_account_id self with
  | Some id => ∃ a, only_one (λ a, pa_is_current a = true) (accounts self) a ∧ pa_id a = id
  | None => Forall (λ a, pa_is_current a = false) (accounts self)
  end.
Definition accounts_ok (self : PublicAccountsV3) : Prop :=
  Forall account_ok (accounts self) ∧ NoDup (map pa_id (accounts self)) ∧ default_ok self.
End specification.

(** ** Reflection and loops *)
Section loops.
Lemma valid_public_account_id_true value :
  valid_public_account_id value = true ↔ account_id value.
Proof.
  unfold valid_public_account_id, account_id. split.
  - destruct (strip_prefix _ value) as [epoch|] eqn:E; [|done].
    destruct (parse_unsigned _ epoch) as [n|] eqn:En; [|done].
    rewrite andb_true_iff, Z.ltb_lt, text_eqb_true. intros [Hn ->].
    apply parse_unsigned_range in En; [|by width]. exists n. split; [lia|done].
  - intros (n & Hn & ->). rewrite strip_prefix_app, parse_to_dec by lia.
    rewrite andb_true_iff, text_eqb_true. split; [lia|done].
Qed.
Lemma bounds_false start_at end_at :
  is_some_and (λ value, negb (valid_timestamp value)) start_at
    || is_some_and (λ value, negb (valid_timestamp value)) end_at
    || is_some_and (λ '(s, e), e <? s) (opt_zip start_at end_at) = false
  ↔ ordered_bounds start_at end_at.
Proof.
  unfold ordered_bounds. rewrite !orb_false_iff, !is_some_and_false.
  setoid_rewrite negb_false_iff. setoid_rewrite timestamp_true. rewrite (and_assoc (given _ _)).
  apply and_iff_compat_l. unfold given. destruct start_at as [s|], end_at as [e|]; simpl; try naive_solver.
  split; [intros Hb ? ? [= <-] [= <-]; specialize (Hb _ eq_refl); simpl in Hb; lia|].
  intros Hb ? [= <-]. specialize (Hb s e eq_refl eq_refl). lia.
Qed.

Lemma instant_true i :
  is_some_and (λ '(s, e), s =? e) (opt_zip (oi_start_at i) (oi_end_at i)) = true ↔ ¬ owns i.
Proof.
  unfold owns. destruct i as [[s|] [e|]]; simpl; try naive_solver.
  rewrite Z.eqb_eq. split; [intros -> Hn; by apply (Hn e)|].
  intros Hn. destruct (decide (s = e)); [done|]. destruct Hn. congruence.
Qed.

(** The remembered end is the greatest upper bound of the owning intervals. *)
Definition previous_is (pre : list PublicAccountOwnershipInterval) (previous : option Z) : Prop :=
  match previous with
  | None => Forall (λ i, ¬ owns i) pre
  | Some e => (∃ i, i ∈ pre ∧ owns i ∧ default i64_max (oi_end_at i) = e)
              ∧ Forall (λ i, owns i → default i64_max (oi_end_at i) ≤ e) pre
  end.
Lemma previous_before pre previous x :
  previous_is pre previous → owns x →
  is_some_and (λ e, default i64_min (oi_start_at x) <? e) previous = false
  ↔ ∀ y, y ∈ pre → ends_before y x.
Proof.
  intros Hp Hx. unfold previous_is, ends_before in *. destruct previous as [e|]; simpl.
  - rewrite Z.ltb_ge. destruct Hp as [(i & Hi & Ho & <-) Hall]. rewrite Forall_forall in Hall. split.
    + intros Hle y Hy Hoy _. specialize (Hall y Hy Hoy). lia.
    + intros Hy. by apply Hy.
  - split; [|done]. rewrite Forall_forall in Hp. intros _ y Hy Ho. by destruct (Hp y Hy).
Qed.
Lemma interval_step pre previous x :
  previous_is pre previous →
  decides InvalidModel
    (ordered_bounds (oi_start_at x) (oi_end_at x) ∧ ∀ y, y ∈ pre → ends_before y x)
    (previous_is (pre ++ [x])) (check_interval previous x).
Proof.
  intros Hp. unfold check_interval. apply decides_reject; [apply bounds_false|intros (Hs & He & Hle)].
  destruct (is_some_and _ (opt_zip _ _)) eqn:E.
  - apply instant_true in E. apply decides_ok; [by intros ???|]. unfold previous_is in *.
    destruct previous as [e|]; [|by rewrite Forall_app, Forall_singleton].
    rewrite Forall_app, Forall_singleton. split; [|naive_solver]. destruct Hp as [(i & ? & ?) _].
    exists i. rewrite elem_of_app. auto.
  - assert (owns x) as Ho.
    { intros t Ht Et. enough (¬ ¬ owns x) as Hnn by (apply Hnn; intros Ho; by apply (Ho t)).
      rewrite <-instant_true. congruence. }
    apply decides_reject_last; [by apply previous_before|]. intros Hall. split.
    + exists x. rewrite elem_of_app, list_elem_of_singleton. auto.
    + rewrite Forall_app, Forall_singleton. split; [|done]. apply Forall_forall. intros y Hy Hoy.
      specialize (Hall y Hy Hoy Ho). etrans; [exact Hall|].
      unfold given, timestamp_ok, MAX_PUBLIC_UNIX_SECONDS in *.
      destruct x as [[s|] [e|]]; simpl in *.
      * by apply Hle.
      * specialize (Hs s eq_refl). width.
      * specialize (He e eq_refl). width.
      * width.
Qed.
Lemma intervals_loop intervals :
  decides InvalidModel (intervals_ok intervals) (previous_is intervals)
    (fold_result check_interval None intervals).
Proof.
  apply (fold_result_decides _ _ (λ pre x,
    ordered_bounds (oi_start_at x) (oi_end_at x) ∧ ∀ y, y ∈ pre → ends_before y x)).
  - constructor.
  - apply interval_step.
  - unfold intervals_ok. rewrite every_and, every_pairs.
    by rewrite (every_Forall (λ x, ordered_bounds (oi_start_at x) (oi_end_at x))).
Qed.

Section accounts_loop.
Context (default_id : option text).
Record accounts_seen (pre : list PublicAccountV3) (s : accounts_state) : Prop := {
  as_ids : seen pa_id pre (acs_ids s);
  as_count : acs_current_count s = count (List.filter pa_is_current pre);
  as_found : acs_default_found s = true ↔ ∃ a, a ∈ pre ∧ default_id = Some (pa_id a)
}.
Definition account_admitted (pre : list PublicAccountV3) (a : PublicAccountV3) : Prop :=
  (account_id (pa_id a) ∧ (pa_id a ∉ map pa_id pre)
   ∧ ordered_bounds (pa_activation_at a) (pa_deactivation_at a)
   ∧ given (λ l, valid_public_login_id l = true) (pa_login_id a))
  ∧ intervals_ok (pa_ownership_intervals a)
  ∧ (default_id = Some (pa_id a) → pa_is_current a = true).
Lemma account_step pre s a :
  accounts_seen pre s →
  decides InvalidModel (account_admitted pre a) (accounts_seen (pre ++ [a]))
    (check_account default_id s a).
Proof.
  intros [Hids Hcount Hfound]. unfold check_account, account_admitted. apply decides_reject.
  { rewrite <-(bounds_false (pa_activation_at a)), !orb_false_iff, negb_false_iff,
      bool_decide_eq_false, (Hids (pa_id a)), valid_public_account_id_true,
      (is_some_and_false _ (pa_login_id a)).
    setoid_rewrite negb_false_iff. tauto. }
  intros _. eapply decides_bind; [apply intervals_loop|intros _ _ _].
  apply decides_reject_last.
  - rewrite andb_false_iff, negb_false_iff, bool_decide_eq_false.
    destruct (decide (default_id = Some (pa_id a))); tauto.
  - intros _. split; simpl.
    + by apply seen_snoc.
    + rewrite List.filter_app, Hcount. unfold count. rewrite length_app. simpl.
      destruct (pa_is_current a); simpl; lia.
    + rewrite orb_true_iff, bool_decide_eq_true, Hfound. setoid_rewrite elem_of_app.
      setoid_rewrite list_elem_of_singleton. naive_solver.
Qed.
Lemma accounts_loop l :
  decides InvalidModel
    (Forall account_ok l ∧ NoDup (map pa_id l)
     ∧ Forall (λ a, default_id = Some (pa_id a) → pa_is_current a = true) l)
    (accounts_seen l)
    (fold_result (check_account default_id)
       {| acs_ids := ∅; acs_current_count := 0; acs_default_found := false |} l).
Proof.
  apply (fold_result_decides _ _ account_admitted).
  - split; [apply seen_empty|done|]. simpl. split; [done|]. by intros (? & ?%elem_of_nil & _).
  - apply account_step.
  - rewrite <-every_fresh, <-(every_Forall account_ok []),
      <-(every_Forall (λ a, default_id = Some (pa_id a) → _) []), <-!every_and.
    apply every_iff. unfold account_admitted, account_ok. tauto.
Qed.
End accounts_loop.

Lemma count_only_one {A} (f : A → bool) (l : list A) :
  count (List.filter f l) = 1 ↔ ∃ a, only_one (λ a, f a = true) l a.
Proof.
  setoid_rewrite <-filter_only_one. unfold count.
  destruct (List.filter f l) as [|x [|y l']]; simpl; split; try lia; try naive_solver.
Qed.
Lemma count_none {A} (f : A → bool) (l : list A) :
  count (List.filter f l) = 0 ↔ Forall (λ a, f a = false) l.
Proof.
  unfold count. induction l as [|x l IH]; simpl; [by split; [constructor|]|].
  rewrite Forall_cons, <-IH. destruct (f x); simpl; naive_solver lia.
Qed.
Lemma default_is_current self :
  NoDup (map pa_id (accounts self)) → default_ok self →
  Forall (λ a, default_account_id self = Some (pa_id a) → pa_is_current a = true) (accounts self).
Proof.
  intros Hnd Hd. apply Forall_forall. intros b Hb Eb. unfold default_ok in Hd. rewrite Eb in Hd.
  destruct Hd as (a & Ha & E). apply only_one_fits in Ha as [Ha Hc].
  enough (a = b) by by subst. apply list_elem_of_lookup_1 in Ha as [i Hi], Hb as [j Hj].
  enough (i = j) by congruence. apply (NoDup_lookup (map pa_id (accounts self)) i j (pa_id b));
    [done|..]; change (map ?f ?l) with (f <$> l); rewrite list_lookup_fmap; [by rewrite Hi; simpl; f_equal|].
  by rewrite Hj.
Qed.
Lemma default_decided self s id :
  NoDup (map pa_id (accounts self)) →
  Forall (λ a, Some id = Some (pa_id a) → pa_is_current a = true) (accounts self) →
  accounts_seen (Some id) (accounts self) s →
  negb (acs_default_found s) || negb (acs_current_count s =? 1) = false ↔
  ∃ a, only_one (λ a, pa_is_current a = true) (accounts self) a ∧ pa_id a = id.
Proof.
  intros Hnd Hcur [_ Hcount Hfound].
  rewrite orb_false_iff, !negb_false_iff, Hfound, Hcount, Z.eqb_eq, count_only_one.
  rewrite Forall_forall in Hcur. split.
  - intros [(a & Ha & [= ->]) (b & Hb)]. exists b. split; [done|].
    destruct Hb as (before & after & E & Hb & Hno). rewrite Forall_forall in Hno.
    rewrite E, elem_of_app, elem_of_cons in Ha.
    assert (pa_is_current a = true) by (apply Hcur; [|done]; rewrite E; set_solver).
    destruct Ha as [Ha|[->|Ha]]; [|done|]; destruct (Hno a); set_solver.
  - intros (a & Ha & <-). split; [|by exists a]. exists a. split; [|done].
    by apply only_one_fits in Ha as [].
Qed.
End loops.

(** The selector validation accepts exactly the well-formed selectors of at most
    256 accounts: canonical distinct ids, ordered timestamps, owning intervals in
    order and apart, and as default the one current account (none current without
    a default); everything else is an [InvalidModel]. *)
Theorem accounts_first_violation (self : PublicAccountsV3) :
  first_violation
    [(TooManyItems, count (accounts self) ≤ 256);
     (InvalidModel, given account_id (default_account_id self) ∧ accounts_ok self)]
    tt (PublicAccountsV3_validate self).
Proof.
  unfold PublicAccountsV3_validate. apply first_violation_reject.
  { by rewrite Z.ltb_ge. }
  intros _. eapply first_violation_last.
  apply (decides_iff _ (λ _, True) (given account_id (default_account_id self)
    ∧ (Forall account_ok (accounts self) ∧ NoDup (map pa_id (accounts self))
       ∧ Forall (λ a, default_account_id self = Some (pa_id a) → pa_is_current a = true)
           (accounts self))
    ∧ default_ok self)).
  { unfold accounts_ok. split; [tauto|]. intros (Hd & Hok & Hnd & Hdef). split_and!; try done.
    by apply default_is_current. }
  apply decides_reject.
  { rewrite is_some_and_false. setoid_rewrite negb_false_iff.
    by setoid_rewrite valid_public_account_id_true. }
  intros _. eapply decides_bind; [apply accounts_loop|].
  intros s (_ & Hnd & Hcur) Hs. unfold default_ok.
  destruct (default_account_id self) as [id|].
  - by apply decides_reject_last; [apply default_decided|].
  - apply decides_reject_last; [|done]. destruct Hs as [_ -> _].
    rewrite negb_false_iff, Z.eqb_eq. apply count_none.
Qed.

(** A selector of two accounts, and the same one with two current accounts. *)
Definition example_account (epoch : Z) (current : bool) : PublicAccountV3 := {|
  pa_id := lit "account-" ++ to_dec epoch; pa_is_current := current;
  pa_activation_at := Some 10; pa_deactivation_at := None;
  pa_ownership_intervals := [{| oi_start_at := None; oi_end_at := Some 5 |};
                             {| oi_start_at := Some 5; oi_end_at := Some 5 |};
                             {| oi_start_at := Some 5; oi_end_at := None |}];
  pa_login_id := Some (lit "user@example.com") |}.
Example example_selectors :
  PublicAccountsV3_validate {| default_account_id := Some (lit "account-12");
    accounts := [example_account 7 false; example_account 12 true] |} = Ok tt
  ∧ PublicAccountsV3_validate {| default_account_id := Some (lit "account-12");
      accounts := [example_account 7 true; example_account 12 true] |} = Err InvalidModel.
Proof. vm_compute. done. Qed.
