(* ===== verification/ModelNames.v ===== *)
(** * Session model names

    Models [crates/codex-info-rest-contract/src/model_names.rs]: the batch
    normalization of a model name and the bounded streaming builder the record
    parser feeds one character at a time. *)

From S2P Require Import Prelude Text Contract.

Definition forbidden (character : Z) : bool :=
  in_range 0x0000 0x001f character || in_range 0x007f 0x009f character
  || is_bidi_formatting character.

Definition white_space (character : Z) : bool :=
  in_range 0x0009 0x000d character || (character =? 0x0020) || (character =? 0x0085)
  || (character =? 0x00a0) || (character =? 0x1680) || in_range 0x2000 0x200a character
  || in_range 0x2028 0x2029 character || (character =? 0x202f) || (character =? 0x205f)
  || (character =? 0x3000).

Definition normalize_model_name (original : text) : option text :=
  if existsb forbidden original then None
  else
    let normalized := trim_matches white_space original in
    then_some (negb (bool_decide (normalized = []))
               && (chars_count normalized <=? MAX_PUBLIC_MODEL_SCALARS)) normalized.

Record ModelNameBuilder := {
  normalized : text;
  pending_white_space : text;
  scalars : Z;
  pending_scalars : Z;
  invalid : bool
}.
Definition ModelNameBuilder_default : ModelNameBuilder := {|
  normalized := []; pending_white_space := []; scalars := 0; pending_scalars := 0;
  invalid := false |}.

Definition invalidated (self : ModelNameBuilder) : ModelNameBuilder := {|
  normalized := normalized self; pending_white_space := pending_white_space self;
  scalars := scalars self; pending_scalars := pending_scalars self; invalid := true |}.

(** [usize] counters: the saturating addition cannot reach the width, because
    the counter is clamped to [MAX_PUBLIC_MODEL_SCALARS + 1]. *)
Definition push (self : ModelNameBuilder) (character : Z) : ModelNameBuilder :=
  let self := if forbidden character then invalidated self else self in
  if invalid self then self
  else if white_space character then
    if 0 <? scalars self then
      let pending :=
        Z.min (u64_saturating_add (pending_scalars self) 1) (MAX_PUBLIC_MODEL_SCALARS + 1) in
      {| normalized := normalized self;
         pending_white_space :=
           if scalars self + pending <=? MAX_PUBLIC_MODEL_SCALARS
           then pending_white_space self ++ [character] else pending_white_space self;
         scalars := scalars self; pending_scalars := pending; invalid := invalid self |}
    else self
  else
    let next := scalars self + pending_scalars self + 1 in
    if MAX_PUBLIC_MODEL_SCALARS <? next then invalidated self
    else
      {| normalized := normalized self ++ pending_white_space self ++ [character];
         pending_white_space := []; scalars := next; pending_scalars := 0;
         invalid := invalid self |}.

Definition finish (self : ModelNameBuilder) : option text :=
  then_some (negb (invalid self) && (0 <? scalars self)) (normalized self).

(** Feeding a whole string. *)
Definition push_all (self : ModelNameBuilder) (s : text) : ModelNameBuilder :=
  fold_left push s self.

(** ** Trimming lemmas *)
Section trimming.
Context (p : Z → bool).

Lemma trim_start_all s : Forall (λ c, p c = true) s → trim_start_matches p s = [].
Proof. induction 1 as [|c s Hc _ IH]; simpl; [done|]. by rewrite Hc. Qed.
Lemma trim_start_app_all s r :
  Forall (λ c, p c = true) s → trim_start_matches p (s ++ r) = trim_start_matches p r.
Proof. induction 1 as [|c s Hc _ IH]; simpl; [done|]. by rewrite Hc. Qed.

Lemma trim_end_app_all s r :
  Forall (λ c, p c = true) r → trim_end_matches p (s ++ r) = trim_end_matches p s.
Proof.
  intros Hr. unfold trim_end_matches. rewrite reverse_app, trim_start_app_all; [done|].
  by apply Forall_reverse.
Qed.
Lemma trim_end_snoc s c : p c = false → trim_end_matches p (s ++ [c]) = s ++ [c].
Proof.
  intros Hc. unfold trim_end_matches. rewrite reverse_snoc. simpl. rewrite Hc.
  by rewrite reverse_cons, reverse_involutive.
Qed.

Lemma trim_start_length s r c :
  p c = false → (S (length r) ≤ length (trim_start_matches p (s ++ c :: r)))%nat.
Proof.
  intros Hc. induction s as [|x s IH]; simpl; [by rewrite Hc|].
  destruct (p x); [done|]. simpl. rewrite length_app. simpl. lia.
Qed.
Lemma trim_end_length s r c :
  p c = false → (S (length s) ≤ length (trim_end_matches p (s ++ c :: r)))%nat.
Proof.
  intros Hc. unfold trim_end_matches. rewrite length_reverse, reverse_app, reverse_cons.
  rewrite <-app_assoc. simpl.
  pose proof (trim_start_length (reverse r) (reverse s) c Hc) as H.
  by rewrite length_reverse in H.
Qed.
End trimming.

(** ** The builder's state after a prefix

    [c] is the name so far (it ends in a visible character), [t] the white
    space read since. *)
Section builder.
Abbreviation MAX := MAX_PUBLIC_MODEL_SCALARS.

Definition state_of (c t : text) : ModelNameBuilder := {|
  normalized := c;
  pending_white_space := take (Z.to_nat (MAX - Z.of_nat (length c))) t;
  scalars := Z.of_nat (length c);
  pending_scalars := Z.min (Z.of_nat (length t)) (MAX + 1);
  invalid := false |}.

Lemma push_invalid s b : invalid b = true → invalid (push_all b s) = true.
Proof.
  revert b. induction s as [|x s IH]; intros b Hb; [done|]. apply IH.
  unfold push. destruct (forbidden x); simpl; [done|]. by rewrite Hb.
Qed.
Lemma finish_invalid s b : invalid b = true → finish (push_all b s) = None.
Proof. intros Hb. unfold finish. by rewrite push_invalid. Qed.

Lemma push_white c t x :
  0 < Z.of_nat (length c) → forbidden x = false → white_space x = true →
  push (state_of c t) x = state_of c (t ++ [x]).
Proof.
  intros Hc Hf Hw. unfold push. rewrite Hf, Hw. cbn [invalid state_of scalars].
  destruct (Z.ltb_spec 0 (Z.of_nat (length c))); [|lia].
  cbn [normalized pending_white_space pending_scalars state_of]. unfold state_of.
  rewrite length_app. cbn [length].
  assert (Z.min (u64_saturating_add (Z.min (Z.of_nat (length t)) (MAX + 1)) 1) (MAX + 1)
          = Z.min (Z.of_nat (length t + 1)) (MAX + 1)) as ->.
  { unfold u64_saturating_add, MAX_PUBLIC_MODEL_SCALARS, u64_max. lia. }
  f_equal. unfold MAX_PUBLIC_MODEL_SCALARS. destruct (Z.leb_spec
    (Z.of_nat (length c) + Z.min (Z.of_nat (length t + 1)) (128 + 1)) 128).
  - rewrite !take_ge; [done|rewrite ?length_app; simpl; lia..].
  - rewrite take_app_le; [done|lia].
Qed.

Lemma push_visible c t x :
  forbidden x = false → white_space x = false →
  push (state_of c t) x =
    if Z.of_nat (length c + length t) <? MAX then state_of (c ++ t ++ [x]) []
    else invalidated (state_of c t).
Proof.
  intros Hf Hw. unfold push. rewrite Hf, Hw. cbn [invalid state_of scalars pending_scalars].
  unfold MAX_PUBLIC_MODEL_SCALARS.
  destruct (Z.ltb_spec 128
    (Z.of_nat (length c) + Z.min (Z.of_nat (length t)) (128 + 1) + 1)) as [H|H],
    (Z.ltb_spec (Z.of_nat (length c + length t)) 128); try lia; [done|].
  unfold state_of. cbn [normalized pending_white_space]. f_equal.
  - rewrite take_ge; [done|]. unfold MAX_PUBLIC_MODEL_SCALARS. lia.
  - by rewrite take_nil.
  - rewrite !length_app. simpl. lia.
Qed.

Lemma builder_from_core rest c t :
  0 < Z.of_nat (length c) ≤ MAX → last c = None ∨ (∃ y, last c = Some y ∧ white_space y = false) →
  Forall (λ x, white_space x = true) t →
  finish (push_all (state_of c t) rest) =
    if existsb forbidden rest then None
    else let r := trim_end_matches white_space (c ++ t ++ rest) in
         then_some (chars_count r <=? MAX) r.
Proof.
  revert c t. induction rest as [|x rest IH]; intros c t Hc Hl Ht.
  - simpl existsb. cbn iota. rewrite app_nil_r, trim_end_app_all by done.
    assert (trim_end_matches white_space c = c) as ->.
    { destruct c as [|y c _] using rev_ind; [done|].
      rewrite last_snoc in Hl. apply trim_end_snoc. naive_solver. }
    unfold finish, chars_count. cbn.
    destruct (Z.ltb_spec 0 (Z.of_nat (length c))), (Z.leb_spec (Z.of_nat (length c)) MAX); done || lia.
  - simpl push_all. simpl existsb. destruct (forbidden x) eqn:Hf; simpl.
    { apply finish_invalid. unfold push. by rewrite Hf. }
    destruct (white_space x) eqn:Hw.
    + rewrite push_white by (done || lia). rewrite IH; [by rewrite <-app_assoc|done..|].
      apply Forall_app. by split; [|constructor].
    + rewrite push_visible by done.
      destruct (Z.ltb_spec (Z.of_nat (length c + length t)) MAX).
      * rewrite IH; [simpl; by rewrite <-!app_assoc|..|done].
        -- rewrite !length_app. simpl. lia.
        -- right. exists x. by rewrite app_assoc, last_snoc.
      * rewrite finish_invalid by done. destruct (existsb forbidden rest); [done|].
        rewrite app_assoc.
        pose proof (trim_end_length white_space (c ++ t) rest x Hw) as Hlen.
        rewrite length_app in Hlen. unfold chars_count.
        destruct (Z.leb_spec (Z.of_nat (length (trim_end_matches white_space
          ((c ++ t) ++ x :: rest)))) MAX); [lia|done].
Qed.
End builder.

(** Streaming a name through the bounded builder, one character at a time,
    gives exactly the batch normalization: the same rejections, the same
    trimming of arbitrarily long outer white space, never a truncated name. *)
Theorem builder_is_normalize s :
  finish (push_all ModelNameBuilder_default s) = normalize_model_name s.
Proof.
  unfold normalize_model_name, trim_matches.
  induction s as [|x s IH]; [done|].
  cbn [push_all fold_left existsb trim_start_matches].
  destruct (forbidden x) eqn:Hf; simpl.
  { apply finish_invalid. unfold push. by rewrite Hf. }
  destruct (white_space x) eqn:Hw.
  - assert (push ModelNameBuilder_default x = ModelNameBuilder_default) as ->; [|exact IH].
    unfold push. by rewrite Hf, Hw.
  - assert (push ModelNameBuilder_default x = state_of [x] []) as ->.
    { unfold push. by rewrite Hf, Hw. }
    fold (push_all (state_of [x] []) s).
    rewrite builder_from_core; [|done|right; by exists x|done].
    destruct (existsb forbidden s); [done|]. simpl app. f_equal.
    pose proof (trim_end_length white_space [] s x Hw) as Hlen. simpl app in Hlen.
    by destruct (trim_end_matches white_space (x :: s)); [simpl in Hlen; lia|].
Qed.
