(* ===== verification/RecordedUsage.v ===== *)
(** * Recorded usage: local intervals, recording scopes and token prefixes

    Models [crates/codex-info-rest-contract/src/recorded_usage.rs]. *)

From S2P Require Import Prelude Text Float64 TokenFacts Contract.

Definition MAX_END_EXCLUSIVE : Z := 253402300800.

(** ** Local usage intervals *)
Inductive LocalUsageState := Used | Unused | Unavailable.
Record LocalUsageInterval := {
  lui_start_at : Z;
  lui_end_at : Z;
  lui_state : LocalUsageState
}.
Record LocalUsage := {
  lu_version : Z;
  lu_start_at : Z;
  lu_end_at : Z;
  lu_intervals : list LocalUsageInterval
}.

Definition LocalUsage_unavailable (start_at end_at : Z) : LocalUsage := {|
  lu_version := 1;
  lu_start_at := start_at;
  lu_end_at := end_at;
  lu_intervals :=
    [{| lui_start_at := start_at; lui_end_at := end_at; lui_state := Unavailable |}] |}.

(** The loop of [LocalUsage::validate], from a cursor. *)
Fixpoint walk_intervals (end_at cursor : Z) (intervals : list LocalUsageInterval) :
    result ContractError Z :=
  match intervals with
  | [] => Ok cursor
  | interval :: rest =>
      reject InvalidPeriod when
        negb (lui_start_at interval =? cursor)
        || (lui_end_at interval <=? cursor)
        || (end_at <? lui_end_at interval);
      walk_intervals end_at (lui_end_at interval) rest
  end.

Definition LocalUsage_validate (self : LocalUsage) : result ContractError () :=
  reject InvalidPeriod when
    negb (lu_version self =? 1)
    || (lu_start_at self <? 1)
    || (lu_end_at self <=? lu_start_at self)
    || (MAX_END_EXCLUSIVE <? lu_end_at self);
  cursor ← walk_intervals (lu_end_at self) (lu_start_at self) (lu_intervals self);
  reject InvalidPeriod when negb (cursor =? lu_end_at self);
  Ok ().

(** ** Period identity and recording scopes *)
Record PeriodIdentity := { pi_state : text; pi_reason : text }.
#[export] Instance PeriodIdentity_eq_dec : EqDecision PeriodIdentity.
Proof. solve_decision. Defined.
Definition PeriodIdentity_default : PeriodIdentity := {|
  pi_state := lit "unknown"; pi_reason := lit "provider-period-identity-unavailable" |}.
Definition PeriodIdentity_validate (self : PeriodIdentity) : result ContractError () :=
  reject InvalidPeriod when negb (bool_decide (self = PeriodIdentity_default));
  Ok ().

Inductive RecordingCoverage := Complete | Partial | Unknown.
Record RecordingScope := {
  rs_kind : text;
  rs_start_at : Z;
  rs_end_at : Z;
  rs_coverage : RecordingCoverage
}.
Definition RecordingScope_validate (self : RecordingScope) : result ContractError () :=
  reject InvalidTimestamp when
    negb (text_eqb (rs_kind self) (lit "recorded-time"))
    || (rs_start_at self <? 1)
    || (rs_end_at self <=? rs_start_at self)
    || (MAX_END_EXCLUSIVE <? rs_end_at self);
  Ok ().
Definition RecordingScope_new (start_at end_at : Z) (coverage : RecordingCoverage) :
    result ContractError RecordingScope :=
  let scope := {|
    rs_kind := lit "recorded-time"; rs_start_at := start_at; rs_end_at := end_at;
    rs_coverage := coverage |} in
  _ ← RecordingScope_validate scope;
  Ok scope.
Definition RecordingScope_contains (self : RecordingScope) (timestamp : Z) : bool :=
  (rs_start_at self <=? timestamp) && (timestamp <? rs_end_at self).

(** ** Recorded model usage *)
Record RecordedModelUsage := {
  rmu_model : text;
  rmu_total_tokens : Z;
  rmu_input_tokens : option Z;
  rmu_cached_input_tokens : option Z;
  rmu_cache_write_input_tokens : option Z;
  rmu_output_tokens : option Z;
  rmu_estimated_cost : option PublicModelCostV3
}.
Definition RecordedModelUsage_tokens (self : RecordedModelUsage) : TokenFacts := {|
  tf_total := rmu_total_tokens self;
  tf_input := rmu_input_tokens self;
  tf_cached_input := rmu_cached_input_tokens self;
  tf_cache_write_input := rmu_cache_write_input_tokens self;
  tf_output := rmu_output_tokens self |}.
Definition RecordedModelUsage_validate (self : RecordedModelUsage) : result ContractError () :=
  reject InvalidModel when negb (is_valid_public_model_name (rmu_model self));
  _ ← map_err (λ _, InvalidNumber) (validate_fact (RecordedModelUsage_tokens self));
  match rmu_estimated_cost self with
  | Some cost =>
      reject InvalidNumber when
        negb (opt_is_some (rmu_input_tokens self))
        || negb (opt_is_some (rmu_cached_input_tokens self))
        || negb (opt_is_some (rmu_cache_write_input_tokens self))
        || negb (opt_is_some (rmu_output_tokens self))
        || bool_decide (mc_price_version cost = [])
        || existsb (λ value, negb (f64_is_finite value) || f64_ltb value f64_zero)
             [mc_ordinary_input_dollars cost; mc_cached_input_dollars cost;
              mc_cache_write_input_dollars cost; mc_output_dollars cost;
              mc_total_dollars cost];
      Ok ()
  | None => Ok ()
  end.
Definition RecordedModelUsage_from_tokens (model : text) (tokens : TokenFacts) :
    result ContractError RecordedModelUsage :=
  let value := {|
    rmu_model := model;
    rmu_total_tokens := tf_total tokens;
    rmu_input_tokens := tf_input tokens;
    rmu_cached_input_tokens := tf_cached_input tokens;
    rmu_cache_write_input_tokens := tf_cache_write_input tokens;
    rmu_output_tokens := tf_output tokens;
    rmu_estimated_cost := None |} in
  _ ← RecordedModelUsage_validate value;
  Ok value.

(** ** Persisted token prefixes: sums as decimal strings *)
Record PrefixComponent := { known_sum : text; unknown_count : Z }.
#[export] Instance PrefixComponent_eq_dec : EqDecision PrefixComponent.
Proof. solve_decision. Defined.
Definition PrefixComponent_default : PrefixComponent := {|
  known_sum := lit "0"; unknown_count := 0 |}.

Record RecordedTokenPrefix := {
  event_count : Z;
  px_total : text;
  px_input : PrefixComponent;
  px_cached_input : PrefixComponent;
  px_cache_write_input : PrefixComponent;
  px_output : PrefixComponent
}.
#[export] Instance RecordedTokenPrefix_eq_dec : EqDecision RecordedTokenPrefix.
Proof. solve_decision. Defined.
Definition RecordedTokenPrefix_default : RecordedTokenPrefix := {|
  event_count := 0;
  px_total := lit "0";
  px_input := PrefixComponent_default;
  px_cached_input := PrefixComponent_default;
  px_cache_write_input := PrefixComponent_default;
  px_output := PrefixComponent_default |}.

Definition quantity (value : text) : result ContractError Z :=
  parsed ← ok_or (parse_unsigned u128_max value) InvalidNumber;
  reject InvalidNumber when negb (text_eqb (to_dec parsed) value);
  Ok parsed.

(** The component loop of [RecordedTokenPrefix::validate]. *)
Fixpoint validate_components (event_count total : Z) (components : list PrefixComponent) :
    result ContractError () :=
  match components with
  | [] => Ok ()
  | component :: rest =>
      known ← quantity (known_sum component);
      reject InvalidNumber when (total <? known) || (event_count <? unknown_count component);
      validate_components event_count total rest
  end.

Definition prefix_validate (self : RecordedTokenPrefix) : result ContractError () :=
  total ← quantity (px_total self);
  _ ← validate_components (event_count self) total
        [px_input self; px_cached_input self; px_cache_write_input self; px_output self];
  input ← quantity (known_sum (px_input self));
  output ← quantity (known_sum (px_output self));
  components ← ok_or (u128_checked_add input output) InvalidNumber;
  cached_input ← quantity (known_sum (px_cached_input self));
  cache_write ← quantity (known_sum (px_cache_write_input self));
  cached ← ok_or (u128_checked_add cached_input cache_write) InvalidNumber;
  reject InvalidNumber when
    (total <? components)
    || ((unknown_count (px_input self) =? 0) && (unknown_count (px_output self) =? 0)
        && negb (components =? total))
    || ((if unknown_count (px_input self) =? 0 then input else total) <? cached)
    || ((event_count self =? 0) && negb (bool_decide (self = RecordedTokenPrefix_default)));
  Ok ().

(** One round of the component loop of [RecordedTokenPrefix::add]. *)
Definition component_add (component : PrefixComponent) (value : option Z) :
    result ContractError PrefixComponent :=
  match value with
  | Some value =>
      known ← quantity (known_sum component);
      sum ← ok_or (u128_checked_add known value) InvalidNumber;
      Ok {| known_sum := to_dec sum; unknown_count := unknown_count component |}
  | None =>
      count ← ok_or (u64_checked_add (unknown_count component) 1) InvalidNumber;
      Ok {| known_sum := known_sum component; unknown_count := count |}
  end.

(** [RecordedTokenPrefix::add] mutates [self] only on success: the new state is
    the value of [Ok]. *)
Definition prefix_add (self : RecordedTokenPrefix) (tokens : TokenFacts) :
    result ContractError RecordedTokenPrefix :=
  _ ← map_err (λ _, InvalidNumber) (validate_fact tokens);
  _ ← prefix_validate self;
  count ← ok_or (u64_checked_add (event_count self) 1) InvalidNumber;
  total ← quantity (px_total self);
  total ← ok_or (u128_checked_add total (tf_total tokens)) InvalidNumber;
  input ← component_add (px_input self) (tf_input tokens);
  cached_input ← component_add (px_cached_input self) (tf_cached_input tokens);
  cache_write_input ←
    component_add (px_cache_write_input self) (tf_cache_write_input tokens);
  output ← component_add (px_output self) (tf_output tokens);
  let candidate := {|
    event_count := count; px_total := to_dec total; px_input := input;
    px_cached_input := cached_input; px_cache_write_input := cache_write_input;
    px_output := output |} in
  _ ← prefix_validate candidate;
  Ok candidate.

Definition quantity_difference (after before : text) : result ContractError Z :=
  after ← quantity after;
  before ← quantity before;
  value ← ok_or (u128_checked_sub after before) InvalidNumber;
  ok_or (u64_try_from value) InvalidNumber.

Definition component_difference (after before : PrefixComponent) :
    result ContractError (option Z) :=
  unknown ← ok_or (u64_checked_sub (unknown_count after) (unknown_count before)) InvalidNumber;
  known_after ← quantity (known_sum after);
  known_before ← quantity (known_sum before);
  known ← ok_or (u128_checked_sub known_after known_before) InvalidNumber;
  if unknown =? 0 then Some <$> ok_or (u64_try_from known) InvalidNumber else Ok None.

Definition prefix_difference (self before : RecordedTokenPrefix) :
    result ContractError (option TokenFacts) :=
  _ ← prefix_validate self;
  _ ← prefix_validate before;
  count ← ok_or (u64_checked_sub (event_count self) (event_count before)) InvalidNumber;
  total ← quantity_difference (px_total self) (px_total before);
  input ← component_difference (px_input self) (px_input before);
  cached_input ← component_difference (px_cached_input self) (px_cached_input before);
  cache_write_input ←
    component_difference (px_cache_write_input self) (px_cache_write_input before);
  output ← component_difference (px_output self) (px_output before);
  let tokens := {|
    tf_total := total; tf_input := input; tf_cached_input := cached_input;
    tf_cache_write_input := cache_write_input; tf_output := output |} in
  if count =? 0 then
    reject InvalidNumber when negb (bool_decide (self = before));
    Ok None
  else
    _ ← map_err (λ _, InvalidNumber) (validate_fact tokens);
    Ok (Some tokens).

(** ** Local usage partitions its range *)
Definition interval_contains (t : Z) (i : LocalUsageInterval) : bool :=
  (lui_start_at i <=? t) && (t <? lui_end_at i).

Lemma walk_intervals_partition end_at cursor l c :
  walk_intervals end_at cursor l = Ok c →
  cursor ≤ c ∧ (l = [] ∨ c ≤ end_at)
  ∧ ∀ t, length (List.filter (interval_contains t) l)
         = if (cursor <=? t) && (t <? c) then 1%nat else 0%nat.
Proof.
  revert cursor. induction l as [|i l IH]; intros cursor H; simpl in H.
  - injection H as ->. split_and!; [done|by left|]. intros t. simpl.
    case_match; [lia|done].
  - apply reject_Ok in H as [Hb H]. destruct (IH _ H) as (Hle & Hend & Hcount).
    split_and!; [lia| |].
    { right. destruct Hend as [->|]; [simpl in H; injection H as <-|]; lia. }
    intros t. simpl. unfold interval_contains at 1.
    pose proof (Hcount t) as Hc. repeat case_match; simpl in *; try lia.
Qed.

(** An accepted local usage record partitions its range: every instant of
    [start_at, end_at) lies in exactly one interval, and no interval reaches
    outside. *)
Theorem local_usage_partition u :
  LocalUsage_validate u = Ok () →
  ∀ t, length (List.filter (interval_contains t) (lu_intervals u))
       = if (lu_start_at u <=? t) && (t <? lu_end_at u) then 1%nat else 0%nat.
Proof.
  unfold LocalUsage_validate. intros H t. apply reject_Ok in H as [_ H].
  apply bind_Ok in H as (c & Hw & H). apply reject_Ok in H as [Hc _].
  assert (c = lu_end_at u) as -> by lia. by apply walk_intervals_partition in Hw as (_ & _ & Hw).
Qed.

(** ** Quantities: canonical decimals *)
Lemma quantity_Ok s n : quantity s = Ok n ↔ is_u128 n ∧ s = to_dec n.
Proof.
  unfold quantity. split.
  - intros Hq. apply bind_Ok in Hq as (x & Hx & Hq). apply ok_or_Ok in Hx.
    apply reject_Ok in Hq as [Hq [= ->]]. apply negb_false_iff, text_eqb_true in Hq.
    by apply parse_unsigned_range in Hx.
  - intros [Hn ->]. rewrite parse_to_dec by done. simpl.
    replace (text_eqb (to_dec n) (to_dec n)) with true; [done|]. symmetry. by apply text_eqb_true.
Qed.
Lemma quantity_to_dec n : is_u128 n → quantity (to_dec n) = Ok n.
Proof. intros. by apply quantity_Ok. Qed.
Lemma quantity_bind {A} n (f : Z → result ContractError A) :
  is_u128 n → (quantity (to_dec n) ≫= f) = f n.
Proof. intros. by rewrite quantity_to_dec. Qed.
Lemma quantity_Err s e : quantity s = Err e → e = InvalidNumber.
Proof.
  unfold quantity. destruct (parse_unsigned _ _); simpl; [|congruence].
  destruct (negb _); congruence.
Qed.

(** ** The abstract prefix: plain numbers *)
Record comp := { c_known : Z; c_unknown : Z }.
Record prefix := {
  p_count : Z; p_total : Z; p_in : comp; p_cached : comp; p_write : comp; p_out : comp }.

Definition render_comp (c : comp) : PrefixComponent := {|
  known_sum := to_dec (c_known c); unknown_count := c_unknown c |}.
Definition render (a : prefix) : RecordedTokenPrefix := {|
  event_count := p_count a; px_total := to_dec (p_total a);
  px_input := render_comp (p_in a); px_cached_input := render_comp (p_cached a);
  px_cache_write_input := render_comp (p_write a); px_output := render_comp (p_out a) |}.

(** Well-formed machine numbers of an abstract prefix. *)
Definition comp_wf (c : comp) : Prop := is_u128 (c_known c) ∧ is_u64 (c_unknown c).
Definition prefix_wf (a : prefix) : Prop :=
  is_u64 (p_count a) ∧ is_u128 (p_total a) ∧ comp_wf (p_in a) ∧ comp_wf (p_cached a)
  ∧ comp_wf (p_write a) ∧ comp_wf (p_out a).

Definition comp_le (a : prefix) (c : comp) : Prop :=
  c_known c ≤ p_total a ∧ c_unknown c ≤ p_count a.
Record prefix_valid (a : prefix) : Prop := {
  pv_wf : prefix_wf a;
  pv_in : comp_le a (p_in a);
  pv_cached : comp_le a (p_cached a);
  pv_write : comp_le a (p_write a);
  pv_out : comp_le a (p_out a);
  pv_split : c_known (p_in a) + c_known (p_out a) ≤ p_total a;
  pv_exact : c_unknown (p_in a) = 0 → c_unknown (p_out a) = 0 →
    c_known (p_in a) + c_known (p_out a) = p_total a;
  pv_discount : c_known (p_cached a) + c_known (p_write a)
    ≤ if c_unknown (p_in a) =? 0 then c_known (p_in a) else p_total a;
  pv_empty : p_count a = 0 → p_total a = 0 ∧ c_known (p_in a) = 0 ∧ c_known (p_out a) = 0
    ∧ c_known (p_cached a) = 0 ∧ c_known (p_write a) = 0
}.

Lemma render_comp_zero c :
  comp_wf c → render_comp c = PrefixComponent_default ↔ c_known c = 0 ∧ c_unknown c = 0.
Proof.
  intros [[Hk _] _]. destruct c as [k u]. unfold render_comp, PrefixComponent_default. simpl in *.
  change (lit "0") with (to_dec 0). split; [|by intros [-> ->]].
  intros [= E ->]. apply to_dec_inj in E; [done|lia..].
Qed.

Lemma render_default a :
  prefix_wf a → render a = RecordedTokenPrefix_default ↔
  p_count a = 0 ∧ p_total a = 0 ∧ Forall (λ c, c_known c = 0 ∧ c_unknown c = 0)
    [p_in a; p_cached a; p_write a; p_out a].
Proof.
  intros (_ & [Ht _] & Hi & Hc & Hw & Ho). rewrite !Forall_cons, Forall_nil.
  rewrite <-!render_comp_zero by done.
  unfold render, RecordedTokenPrefix_default. change (lit "0") with (to_dec 0). split.
  - intros E. split_and!; [exact (f_equal event_count E)| |exact (f_equal px_input E)
      |exact (f_equal px_cached_input E)|exact (f_equal px_cache_write_input E)
      |exact (f_equal px_output E)|done].
    apply to_dec_inj; [done|done|exact (f_equal px_total E)].
  - by intros (-> & -> & -> & -> & -> & -> & _).
Qed.

Lemma prefix_validate_render a :
  prefix_wf a → prefix_validate (render a) = Ok () ↔ prefix_valid a.
Proof.
  intros Hwf. pose proof (render_default a Hwf) as Hdef.
  pose proof Hwf as (Hn & Ht & [Hi ?] & [Hc ?] & [Hw ?] & [Ho ?]).
  unfold prefix_validate. cbn [render render_comp px_total px_input px_cached_input
    px_cache_write_input px_output known_sum unknown_count event_count validate_components].
  rewrite !quantity_bind by done.
  rewrite bind_Ok. setoid_rewrite bind_Ok. setoid_rewrite ok_or_Ok.
  setoid_rewrite u128_checked_add_Some. split.
  - intros ([] & Hfit & x & [-> _] & Hrest).
    repeat (apply reject_Ok in Hfit as [? Hfit]).
    rewrite quantity_bind in Hrest by done. rewrite quantity_bind in Hrest by done.
    apply bind_Ok in Hrest as (y & Hy & Hrest). apply ok_or_Ok, u128_checked_add_Some in Hy as [-> _].
    apply reject_Ok in Hrest as [Hb _]. rewrite !orb_false_iff in Hb.
    destruct Hb as (((? & ?) & ?) & Hz).
    split; unfold comp_le; try done; try lia.
    intros E0. rewrite E0 in Hz. simpl in Hz. apply negb_false_iff, bool_decide_eq_true in Hz.
    apply Hdef in Hz as (_ & ? & Hz). rewrite !Forall_cons in Hz. naive_solver.
  - intros [_ [? ?] [? ?] [? ?] [? ?] Hs He Hd Hz]. exists (). split.
    { repeat (apply reject_Ok; split; [lia|]). done. }
    exists (c_known (p_in a) + c_known (p_out a)). split; [unfold is_u128 in *; lia|].
    rewrite !quantity_bind by done. apply bind_Ok.
    exists (c_known (p_cached a) + c_known (p_write a)). split.
    { apply ok_or_Ok, u128_checked_add_Some. unfold is_u128 in *.
      destruct (_ =? 0) in Hd; lia. }
    apply reject_Ok. split; [|done]. rewrite !orb_false_iff. split_and!; try lia.
    destruct (Z.eqb_spec (p_count a) 0) as [E0|]; [simpl|done].
    apply negb_false_iff, bool_decide_eq_true, Hdef. split; [done|].
    specialize (Hz E0). unfold is_u64 in *. split; [lia|]. repeat constructor; lia.
Qed.

(** Every accepted prefix is the rendering of a valid abstract one. *)
Definition RecordedTokenPrefix_wf (p : RecordedTokenPrefix) : Prop :=
  is_u64 (event_count p)
  ∧ Forall (λ c, is_u64 (unknown_count c))
      [px_input p; px_cached_input p; px_cache_write_input p; px_output p].

Lemma render_comp_surj c n :
  quantity (known_sum c) = Ok n → c = render_comp {| c_known := n; c_unknown := unknown_count c |}.
Proof. intros H. apply quantity_Ok in H as [_ H]. destruct c; simpl in *. by rewrite H. Qed.

Lemma prefix_validate_surj p :
  RecordedTokenPrefix_wf p → prefix_validate p = Ok () → ∃ a, p = render a ∧ prefix_valid a.
Proof.
  intros [Hn Hu] Hv. pose proof Hv as Hv'.
  unfold prefix_validate, validate_components in Hv.
  apply bind_Ok in Hv as (t & Ht & Hv). apply bind_Ok in Hv as ([] & Hc & _).
  apply bind_Ok in Hc as (i & Hi & Hc). apply reject_Ok in Hc as [_ Hc].
  apply bind_Ok in Hc as (c & Hcc & Hc). apply reject_Ok in Hc as [_ Hc].
  apply bind_Ok in Hc as (w & Hw & Hc). apply reject_Ok in Hc as [_ Hc].
  apply bind_Ok in Hc as (o & Ho & _).
  set (comp_of := λ n x, {| c_known := n; c_unknown := unknown_count x |}).
  set (a := {| p_count := event_count p; p_total := t; p_in := comp_of i (px_input p);
    p_cached := comp_of c (px_cached_input p);
    p_write := comp_of w (px_cache_write_input p); p_out := comp_of o (px_output p) |}).
  exists a. assert (p = render a) as Hp.
  { unfold render, a, comp_of. simpl. rewrite <-!render_comp_surj by done.
    apply quantity_Ok in Ht as [_ Ht]. destruct p; simpl in *. by rewrite Ht. }
  split; [done|]. rewrite Hp in Hv'. apply prefix_validate_render; [|done].
  apply quantity_Ok in Ht as [? _], Hi as [? _], Hcc as [? _], Hw as [? _], Ho as [? _].
  rewrite !Forall_cons in Hu. destruct Hu as (? & ? & ? & ? & _). by refine (conj Hn (conj _ _)).
Qed.

(** ** Adding a fact *)
Definition comp_add (c : comp) (v : option Z) : comp :=
  match v with
  | Some v => {| c_known := c_known c + v; c_unknown := c_unknown c |}
  | None => {| c_known := c_known c; c_unknown := c_unknown c + 1 |}
  end.
Definition prefix_plus (a : prefix) (t : TokenFacts) : prefix := {|
  p_count := p_count a + 1; p_total := p_total a + tf_total t;
  p_in := comp_add (p_in a) (tf_input t);
  p_cached := comp_add (p_cached a) (tf_cached_input t);
  p_write := comp_add (p_write a) (tf_cache_write_input t);
  p_out := comp_add (p_out a) (tf_output t) |}.

Lemma component_add_render c v a m :
  comp_wf c → comp_le a c → opt_le v m → p_total a + m ≤ u128_max → p_count a < u64_max →
  component_add (render_comp c) v = Ok (render_comp (comp_add c v)).
Proof.
  intros [Hk Hu] [Hle Hcnt] Hm Hfit Hn. unfold component_add. destruct v as [v|]; simpl in *.
  - rewrite quantity_bind by done. rewrite (proj2 (u128_checked_add_Some _ _ (c_known c + v))).
    + done.
    + split; [done|lia].
  - rewrite (proj2 (u64_checked_add_Some _ _ (c_unknown c + 1))); [done|]. split; [done|lia].
Qed.

(** The sum of a valid prefix and a valid fact is valid. *)
Lemma prefix_plus_valid a t :
  prefix_valid a → satisfiable true t → p_count a < u64_max →
  p_total a + tf_total t ≤ u128_max → prefix_valid (prefix_plus a t).
Proof.
  intros [Hwf [? ?] [? ?] [? ?] [? ?] Hs He Hd Hz] Hsat Hn Hfit.
  pose proof (satisfiable_le t Hsat) as (Hli & Hlc & Hlw & Hlo).
  destruct Hsat as (i & c & w & o & (Ai & Ac & Aw & Ao) & Hsum & Hdisc).
  destruct Hwf as ([? ?] & [? ?] & [[? ?] [? ?]] & [[? ?] [? ?]] & [[? ?] [? ?]] & [[? ?] [? ?]]).
  unfold opt_le, agrees, is_u64, is_u128, comp_le in *.
  tf_cases t; simpl in *; repeat match goal with
  | H : context [if ?b =? 0 then _ else _] |- _ => destruct (Z.eqb_spec b 0) end.
  all: split; unfold prefix_wf, comp_wf, comp_le, is_u64, is_u128; simpl; try lia.
  all: match goal with |- context [if ?b =? 0 then _ else _] =>
    destruct (Z.eqb_spec b 0); lia end.
Qed.

Lemma prefix_add_render a t :
  prefix_valid a → tf_wf t → validate_fact t = Ok () →
  prefix_add (render a) t =
    if (p_count a <? u64_max) && (p_total a + tf_total t <=? u128_max)
    then Ok (render (prefix_plus a t)) else Err InvalidNumber.
Proof.
  intros Ha Ht Hv. pose proof (proj1 (tf_validate_satisfiable t true Ht) Hv) as Hsat.
  pose proof (satisfiable_le t Hsat) as (? & ? & ? & ?).
  pose proof (pv_wf a Ha) as (Hn & Htot & ? & ? & ? & ?).
  unfold prefix_add. rewrite Hv, (proj2 (prefix_validate_render a (pv_wf a Ha)) Ha). simpl.
  rewrite quantity_to_dec by done. simpl. unfold u64_checked_add, u128_checked_add.
  destruct (Z.ltb_spec (p_count a) u64_max), (Z.leb_spec (p_count a + 1) u64_max);
    try lia; simpl; [|done].
  destruct (Z.leb_spec (p_total a + tf_total t) u128_max); simpl; [|done].
  rewrite (component_add_render _ _ a (tf_total t)) by (done || apply Ha). simpl.
  rewrite (component_add_render _ _ a (tf_total t)) by (done || apply Ha). simpl.
  rewrite (component_add_render _ _ a (tf_total t)) by (done || apply Ha). simpl.
  rewrite (component_add_render _ _ a (tf_total t)) by (done || apply Ha). simpl.
  change {| event_count := _; px_total := _; px_input := _; px_cached_input := _;
    px_cache_write_input := _; px_output := _ |} with (render (prefix_plus a t)).
  pose proof (prefix_plus_valid a t Ha Hsat) as Hp. specialize (Hp ltac:(done) ltac:(done)).
  by rewrite (proj2 (prefix_validate_render _ (pv_wf _ Hp)) Hp).
Qed.

(** Refinement of the persisted prefix: an accepted prefix is the decimal
    rendering of plain sums and counts, and adding an accepted fact is addition
    on them. It succeeds exactly when the event count fits in 64 bits and the
    total in 128, and then the new prefix is again accepted. *)
Theorem prefix_add_refines p t :
  RecordedTokenPrefix_wf p → prefix_validate p = Ok () →
  tf_wf t → validate_fact t = Ok () →
  ∃ a, p = render a ∧ prefix_valid a
  ∧ prefix_add p t =
      (if (p_count a <? u64_max) && (p_total a + tf_total t <=? u128_max)
       then Ok (render (prefix_plus a t)) else Err InvalidNumber)
  ∧ ∀ p', prefix_add p t = Ok p' → prefix_validate p' = Ok ().
Proof.
  intros Hp Hv Ht Hf. destruct (prefix_validate_surj p Hp Hv) as (a & -> & Ha).
  exists a. split_and!; [done|done|by apply prefix_add_render|].
  intros p' Hadd. unfold prefix_add in Hadd. inv_ok.
  match goal with H : prefix_validate _ = Ok ?u |- _ => by destruct u end.
Qed.

(** ** Ranges: the difference of two prefixes of one history *)
Fixpoint add_all (p : RecordedTokenPrefix) (ts : list TokenFacts) :
    result ContractError RecordedTokenPrefix :=
  match ts with
  | [] => Ok p
  | t :: ts => p' ← prefix_add p t; add_all p' ts
  end.

(** The aggregate of a range: a component is known if it is known throughout. *)
Definition opt_sum (l : list (option Z)) : option Z := foldr opt_add (Some 0) l.
Definition range_facts (ts : list TokenFacts) : TokenFacts := {|
  tf_total := foldr (λ t n, tf_total t + n) 0 ts;
  tf_input := opt_sum (map tf_input ts);
  tf_cached_input := opt_sum (map tf_cached_input ts);
  tf_cache_write_input := opt_sum (map tf_cache_write_input ts);
  tf_output := opt_sum (map tf_output ts) |}.

Section ranges.
Definition known_total (l : list (option Z)) : Z := foldr (λ o n, default 0 o + n) 0 l.
Definition unknowns (l : list (option Z)) : Z :=
  foldr (λ o n, (if opt_is_some o then 0 else 1) + n) 0 l.

Lemma unknowns_nonneg l : 0 ≤ unknowns l.
Proof. induction l as [|[] l IH]; simpl; lia. Qed.

Lemma opt_sum_spec l : opt_sum l = if unknowns l =? 0 then Some (known_total l) else None.
Proof.
  induction l as [|o l IH]; [done|]. unfold opt_sum in *. simpl. rewrite IH.
  pose proof (unknowns_nonneg l). destruct o as [v|]; cbn -[Z.add Z.eqb].
  - rewrite Z.add_0_l. by destruct (unknowns l =? 0).
  - destruct (Z.eqb_spec (1 + unknowns l) 0); [lia|]. by destruct (unknowns l =? 0).
Qed.

Lemma comp_add_all l c :
  fold_left comp_add l c =
    {| c_known := c_known c + known_total l; c_unknown := c_unknown c + unknowns l |}.
Proof.
  revert c. induction l as [|o l IH]; intros [k u]; simpl; [by rewrite !Z.add_0_r|].
  rewrite IH. destruct o; simpl; f_equal; lia.
Qed.

Lemma prefix_plus_all ts a :
  fold_left prefix_plus ts a = {|
    p_count := p_count a + Z.of_nat (length ts);
    p_total := p_total a + tf_total (range_facts ts);
    p_in := fold_left comp_add (map tf_input ts) (p_in a);
    p_cached := fold_left comp_add (map tf_cached_input ts) (p_cached a);
    p_write := fold_left comp_add (map tf_cache_write_input ts) (p_write a);
    p_out := fold_left comp_add (map tf_output ts) (p_out a) |}.
Proof.
  revert a. induction ts as [|t ts IH]; intros a; simpl.
  - rewrite !Z.add_0_r. by destruct a.
  - rewrite IH. unfold prefix_plus. simpl. f_equal; lia.
Qed.

Lemma range_satisfiable ts :
  Forall (satisfiable true) ts → satisfiable true (range_facts ts).
Proof.
  induction 1 as [|t ts Ht _ IH].
  - exists 0, 0, 0, 0. by repeat split.
  - change (range_facts (t :: ts)) with (pointwise_sum t (range_facts ts)).
    by apply satisfiable_sum.
Qed.

Lemma component_difference_render c l m :
  comp_wf c → comp_wf (fold_left comp_add l c) → opt_le (opt_sum l) m → m ≤ u64_max →
  0 ≤ known_total l →
  component_difference (render_comp (fold_left comp_add l c)) (render_comp c)
  = Ok (opt_sum l).
Proof.
  intros [Hk Hu] Hwf' Hle Hm Hnn. pose proof (unknowns_nonneg l).
  rewrite comp_add_all in *. destruct Hwf' as [Hk' Hu']. simpl in *.
  unfold component_difference. simpl. unfold u64_checked_sub, u128_checked_sub.
  destruct (Z.leb_spec (c_unknown c) (c_unknown c + unknowns l)); [simpl|lia].
  rewrite !quantity_to_dec by done. simpl.
  destruct (Z.leb_spec (c_known c) (c_known c + known_total l)); [simpl|lia].
  replace (c_unknown c + unknowns l - c_unknown c) with (unknowns l) by lia.
  replace (c_known c + known_total l - c_known c) with (known_total l) by lia.
  rewrite opt_sum_spec in *. destruct (unknowns l =? 0); simpl in *; [|done].
  rewrite (proj2 (u64_try_from_Some _ (known_total l))); [done|]. split; [done|split; lia].
Qed.
End ranges.

Arguments range_facts : simpl never.

Lemma add_all_render ts a p :
  prefix_valid a → Forall tf_wf ts → add_all (render a) ts = Ok p →
  p = render (fold_left prefix_plus ts a) ∧ prefix_valid (fold_left prefix_plus ts a)
  ∧ Forall (λ t, validate_fact t = Ok ()) ts.
Proof.
  intros Ha Hts. revert a Ha. induction Hts as [|t ts Ht _ IH]; intros a Ha H; simpl in *.
  - naive_solver.
  - apply bind_Ok in H as (p' & Hadd & H).
    assert (validate_fact t = Ok ()) as Hv.
    { unfold prefix_add in Hadd. destruct (validate_fact t) as [[]|]; [done|discriminate Hadd]. }
    rewrite prefix_add_render in Hadd by done.
    destruct (Z.ltb_spec (p_count a) u64_max), (Z.leb_spec (p_total a + tf_total t) u128_max);
      simplify_eq/=.
    assert (prefix_valid (prefix_plus a t)) as Hp.
    { apply prefix_plus_valid; try done. by apply tf_validate_satisfiable. }
    destruct (IH _ Hp H) as (? & ? & ?). split_and!; [done..|by constructor].
Qed.

Lemma known_total_nonneg (f : TokenFacts → option Z) ts :
  Forall (λ t, opt_u64 (f t)) ts → 0 ≤ known_total (map f ts).
Proof.
  induction 1 as [|t ts Ht _ IH]; simpl; [done|].
  unfold opt_u64, is_u64 in Ht. destruct (f t); simpl in *; lia.
Qed.

(** A range whose total fits is a valid fact. *)
Lemma range_wf ts :
  Forall tf_wf ts → Forall (satisfiable true) ts →
  tf_total (range_facts ts) ≤ u64_max → tf_wf (range_facts ts).
Proof.
  intros Hwf Hsat Hmax. pose proof (range_satisfiable ts Hsat) as Hr.
  pose proof (satisfiable_le _ Hr) as (Hi & Hc & Hw & Ho).
  destruct Hr as (i & c & w & o & ([? ?] & _ & _ & [? ?]) & Hs & _).
  assert (∀ f : TokenFacts → option Z, (∀ t, tf_wf t → opt_u64 (f t)) →
    opt_le (opt_sum (map f ts)) (tf_total (range_facts ts)) → opt_u64 (opt_sum (map f ts))) as Hopt.
  { intros f Hf Hle. rewrite opt_sum_spec in *. case_match; simpl in *; [|done].
    assert (0 ≤ known_total (map f ts)); [|split; lia].
    apply known_total_nonneg. eapply Forall_impl; [exact Hwf|done]. }
  split; [split; lia|apply Hopt; [|done]..]; by intros ? [].
Qed.

Lemma prefix_difference_range p ts p' :
  RecordedTokenPrefix_wf p → prefix_validate p = Ok () →
  Forall tf_wf ts → ts ≠ [] → add_all p ts = Ok p' →
  prefix_difference p' p =
    if tf_total (range_facts ts) <=? u64_max then Ok (Some (range_facts ts))
    else Err InvalidNumber.
Proof.
  intros Hp Hv Hts Hne Hadd. destruct (prefix_validate_surj p Hp Hv) as (a & -> & Ha).
  destruct (add_all_render ts a p' Ha Hts Hadd) as (-> & Ha' & Hvs).
  assert (Forall (satisfiable true) ts) as Hall.
  { rewrite Forall_forall in *. intros t Ht.
    by apply tf_validate_satisfiable; [apply Hts|apply Hvs]. }
  pose proof (range_satisfiable ts Hall) as Hsat.
  pose proof (satisfiable_le _ Hsat) as (Hli & Hlc & Hlw & Hlo).
  assert (0 ≤ tf_total (range_facts ts)) as Hnn.
  { destruct Hsat as (i & c & w & o & ([??]&_&_&[??]) & Hs & _). lia. }
  unfold prefix_difference. rewrite Hv, (proj2 (prefix_validate_render _ (pv_wf _ Ha')) Ha').
  pose proof (pv_wf _ Ha) as (_ & Ht0 & Wi & Wc & Ww & Wo).
  pose proof (pv_wf _ Ha') as (_ & Ht & Wi' & Wc' & Ww' & Wo').
  assert (tf_total (range_facts ts) ≤ u64_max → tf_wf (range_facts ts)) as Hrwf
    by (intros; by apply range_wf).
  rewrite prefix_plus_all in *.
  remember (range_facts ts) as r eqn:Er.
  simpl in Ht, Wi', Wc', Ww', Wo' |- *.
  unfold u64_checked_sub at 1. destruct (Z.leb_spec (p_count a) (p_count a + Z.of_nat (length ts)));
    [simpl|lia].
  replace (p_count a + Z.of_nat (length ts) - p_count a) with (Z.of_nat (length ts)) by lia.
  unfold quantity_difference. rewrite !quantity_to_dec by done. simpl.
  unfold u128_checked_sub.
  destruct (Z.leb_spec (p_total a) (p_total a + tf_total r)) as [_|]; [|lia].
  replace (p_total a + tf_total r - p_total a) with (tf_total r) by lia. simpl.
  destruct (Z.leb_spec (tf_total r) u64_max) as [Hmax|Hmax].
  2: { destruct (u64_try_from (tf_total r)) eqn:E; [|done].
       apply u64_try_from_Some in E as [_ [_ ?]]. lia. }
  rewrite (proj2 (u64_try_from_Some _ (tf_total r))) by done. simpl. subst r.
  rewrite !(component_difference_render _ _ (tf_total (range_facts ts)))
    by (done || (apply known_total_nonneg; eapply Forall_impl; [exact Hts|by intros ? []])).
  simpl. destruct (Z.eqb_spec (Z.of_nat (length ts)) 0); [by destruct ts|].
  change {| tf_total := _; tf_input := _; tf_cached_input := _; tf_cache_write_input := _;
    tf_output := _ |} with (range_facts ts).
  unfold validate_fact. by rewrite (proj2 (tf_validate_satisfiable _ true (Hrwf Hmax)) Hsat).
Qed.

(** Two prefixes of one recorded history determine the range between them:
    the difference is the exact aggregate of the facts added in between (each
    component known exactly when every fact of the range knows it), whatever
    unknown components or sums beyond 64 bits came before; only a range whose
    own total exceeds 64 bits is refused. *)
Theorem prefix_difference_is_range p ts p' :
  RecordedTokenPrefix_wf p → prefix_validate p = Ok () →
  Forall tf_wf ts → ts ≠ [] → add_all p ts = Ok p' →
  prefix_difference p' p =
    if tf_total (range_facts ts) <=? u64_max then Ok (Some (range_facts ts))
    else Err InvalidNumber.
Proof. apply prefix_difference_range. Qed.

(** ** Concrete instances *)
Definition example_facts : list TokenFacts := [
  {| tf_total := 10; tf_input := Some 7; tf_cached_input := None;
     tf_cache_write_input := Some 1; tf_output := Some 3 |};
  {| tf_total := 5; tf_input := Some 4; tf_cached_input := Some 2;
     tf_cache_write_input := Some 0; tf_output := Some 1 |}].
Definition example_prefix : RecordedTokenPrefix :=
  default RecordedTokenPrefix_default (result_ok (add_all RecordedTokenPrefix_default example_facts)).

Ltac facts_wf := repeat constructor; cbn; unfold opt_u64; cbn; width.

Lemma local_usage_partition_witness :
  length (List.filter (interval_contains 20)
    [{| lui_start_at := 10; lui_end_at := 20; lui_state := Used |};
     {| lui_start_at := 20; lui_end_at := 30; lui_state := Unused |}])
  = 1%nat.
Proof.
  refine (local_usage_partition {| lu_version := 1; lu_start_at := 10; lu_end_at := 30;
    lu_intervals := [{| lui_start_at := 10; lui_end_at := 20; lui_state := Used |};
      {| lui_start_at := 20; lui_end_at := 30; lui_state := Unused |}] |} _ 20). reflexivity.
Defined.

Lemma prefix_add_refines_witness :
  ∃ a, example_prefix = render a ∧ prefix_valid a
  ∧ prefix_add example_prefix (TokenFacts.fact_of 1 None None None None) =
      (if (p_count a <? u64_max) && (p_total a + 1 <=? u128_max)
       then Ok (render (prefix_plus a (TokenFacts.fact_of 1 None None None None)))
       else Err InvalidNumber)
  ∧ ∀ p', prefix_add example_prefix (TokenFacts.fact_of 1 None None None None) = Ok p' →
          prefix_validate p' = Ok ().
Proof.
  apply (prefix_add_refines example_prefix (TokenFacts.fact_of 1 None None None None)).
  - split; [vm_compute; split; congruence|]. repeat constructor; vm_compute; congruence.
  - vm_compute. reflexivity.
  - fact_wf.
  - reflexivity.
Defined.

Lemma prefix_difference_is_range_witness :
  prefix_difference example_prefix RecordedTokenPrefix_default
  = Ok (Some (TokenFacts.fact_of 15 (Some 11) None (Some 1) (Some 4))).
Proof.
  refine (prefix_difference_is_range RecordedTokenPrefix_default example_facts example_prefix _ _ _ _ _).
  - split; [vm_compute; split; congruence|]. repeat constructor; vm_compute; congruence.
  - vm_compute. reflexivity.
  - facts_wf.
  - discriminate.
  - vm_compute. reflexivity.
Defined.
