(* ===== verification/PeriodAttribution.v ===== *)
(** * Attribution of consumption times to official quota periods

    Models [crates/codex-info-db-writer/src/period_attribution.rs]: qualified
    observations of the official quota are turned into a timeline of disjoint
    spans, each proving one official period for one ownership interval. *)

From S2P Require Import Prelude.

Definition MAX_UNIX_SECONDS : Z := 253402300799.

Record OfficialPeriod := { op_reset_at : Z; op_window_seconds : Z }.
#[export] Instance OfficialPeriod_eq_dec : EqDecision OfficialPeriod.
Proof. solve_decision. Defined.

Record OfficialObservation := {
  oo_lower_at : Z;
  oo_upper_at : Z;
  oo_reset_at : option Z;
  oo_window_seconds : option Z;
  oo_acquisition_sequence : option Z;
  oo_ownership_interval : Z
}.
#[export] Instance OfficialObservation_eq_dec : EqDecision OfficialObservation.
Proof. solve_decision. Defined.
#[export] Instance OfficialObservation_countable : Countable OfficialObservation.
Proof.
  refine (inj_countable'
    (λ o, (oo_lower_at o, oo_upper_at o, oo_reset_at o, oo_window_seconds o,
           oo_acquisition_sequence o, oo_ownership_interval o))
    (λ '(a, b, c, d, e, f), Build_OfficialObservation a b c d e f) _).
  by intros [].
Defined.

Inductive AttributionError :=
  | InvalidBounds | InvalidReset | InvalidWindow
  | InvalidReceiptSequence | ConflictingReceiptSequence.

Record Bounds := { b_lower : Z; b_upper : Z }.
#[export] Instance Bounds_eq_dec : EqDecision Bounds.
Proof. solve_decision. Defined.
Record Component := {
  cp_ownership_interval : Z;
  cp_bounds : Bounds;
  cp_period : option OfficialPeriod
}.
Record Run := {
  run_ownership_interval : Z;
  run_first : Bounds;
  run_last : Bounds;
  run_period : option OfficialPeriod
}.
Record AttributedSpan := {
  sp_ownership_interval : Z;
  sp_bounds : Bounds;
  sp_period : OfficialPeriod
}.
#[export] Instance AttributedSpan_eq_dec : EqDecision AttributedSpan.
Proof. solve_decision. Defined.
Record AttributionTimeline := { spans : list AttributedSpan }.

(** ** Admission of the observations

    The three collections the first loop fills: a [BTreeMap] by receipt
    sequence, the [BTreeSet] of the distinct observations and the windows seen
    for each reset. *)
Record Admission := {
  receipts : gmap Z OfficialObservation;
  unique : gset OfficialObservation;
  windows : gmap Z (gset Z)
}.
Definition Admission_new : Admission := {| receipts := ∅; unique := ∅; windows := ∅ |}.

(** [windows.entry(reset).or_default().insert(window)] *)
Definition record_window (windows : gmap Z (gset Z)) (reset window : Z) : gmap Z (gset Z) :=
  <[reset := {[window]} ∪ default ∅ (windows !! reset)]> windows.

(** One round of the admission loop. The [expect] of a window without a reset
    cannot fire: such an observation has just been rejected. *)
Definition admit_observation (st : Admission) (observation : OfficialObservation) :
    result AttributionError Admission :=
  reject InvalidBounds when
    negb (in_range 1 MAX_UNIX_SECONDS (oo_lower_at observation))
    || negb (in_range (oo_lower_at observation) MAX_UNIX_SECONDS (oo_upper_at observation));
  reject InvalidReset when
    is_some_and (λ reset, negb (in_range 1 MAX_UNIX_SECONDS reset)) (oo_reset_at observation)
    || (negb (opt_is_some (oo_reset_at observation))
        && opt_is_some (oo_window_seconds observation));
  reject InvalidWindow when
    is_some_and (λ window, window <=? 0) (oo_window_seconds observation);
  let windows :=
    match oo_window_seconds observation, oo_reset_at observation with
    | Some window, Some reset => record_window (windows st) reset window
    | _, _ => windows st
    end in
  let unique := {[observation]} ∪ unique st in
  match oo_acquisition_sequence observation with
  | Some sequence =>
      reject InvalidReceiptSequence when
        (sequence =? 0)
        || negb (oo_lower_at observation =? oo_upper_at observation);
      reject ConflictingReceiptSequence when
        is_some_and (λ previous, negb (bool_decide (previous = observation)))
          (receipts st !! sequence);
      Ok {| receipts := <[sequence := observation]> (receipts st);
            unique := unique; windows := windows |}
  | None => Ok {| receipts := receipts st; unique := unique; windows := windows |}
  end.

Fixpoint admit_observations (st : Admission) (observations : list OfficialObservation) :
    result AttributionError Admission :=
  match observations with
  | [] => Ok st
  | observation :: rest =>
      st ← admit_observation st observation;
      admit_observations st rest
  end.

(** ** Qualified components *)

(** The derived [Ord] of observations: fields in order, [None] first. *)
Definition compare_opt (a b : option Z) : comparison :=
  match a, b with
  | None, None => Eq
  | None, Some _ => Lt
  | Some _, None => Gt
  | Some x, Some y => x ?= y
  end.
Definition lex (c d : comparison) : comparison := match c with Eq => d | _ => c end.
Definition observation_compare (a b : OfficialObservation) : comparison :=
  lex (oo_lower_at a ?= oo_lower_at b)
  (lex (oo_upper_at a ?= oo_upper_at b)
  (lex (compare_opt (oo_reset_at a) (oo_reset_at b))
  (lex (compare_opt (oo_window_seconds a) (oo_window_seconds b))
  (lex (compare_opt (oo_acquisition_sequence a) (oo_acquisition_sequence b))
  (oo_ownership_interval a ?= oo_ownership_interval b))))).
Definition observation_leb (a b : OfficialObservation) : bool :=
  match observation_compare a b with Gt => false | _ => true end.

Definition op_origin (period : OfficialPeriod) : Z :=
  op_reset_at period - op_window_seconds period.

Definition clip (bounds : Bounds) (period : OfficialPeriod) : Bounds := {|
  b_lower := Z.max (b_lower bounds) (op_origin period);
  b_upper := Z.min (b_upper bounds) (op_reset_at period - 1) |}.

Definition qualified_period (windows : gmap Z (gset Z)) (observation : OfficialObservation) :
    option OfficialPeriod :=
  window ← oo_window_seconds observation;
  reset_at ← oo_reset_at observation;
  origin ← i64_checked_sub reset_at window;
  then_some ((1 <=? origin) && (size (default ∅ (windows !! reset_at)) =? 1)%nat)
    {| op_reset_at := reset_at; op_window_seconds := window |}.

Definition component_of (windows : gmap Z (gset Z)) (observation : OfficialObservation) :
    Component :=
  let original := {|
    b_lower := oo_lower_at observation; b_upper := oo_upper_at observation |} in
  let '(bounds, period) :=
    match qualified_period windows observation with
    | Some period =>
        let clipped := clip original period in
        if b_lower clipped <=? b_upper clipped then (clipped, Some period)
        else (original, None)
    | None => (original, None)
    end in
  {| cp_ownership_interval := oo_ownership_interval observation;
     cp_bounds := bounds; cp_period := period |}.

(** ** Clock reversals, in acquisition order *)
Fixpoint reversals (previous_time : gmap Z Z) (receipts : list OfficialObservation) :
    list Component :=
  match receipts with
  | [] => []
  | observation :: rest =>
      let own := oo_ownership_interval observation in
      let lower := oo_lower_at observation in
      let found :=
        match previous_time !! own with
        | Some previous =>
            if lower <? previous then
              [{| cp_ownership_interval := own;
                  cp_bounds := {| b_lower := lower; b_upper := previous |};
                  cp_period := None |}]
            else []
        | None => []
        end in
      found ++ reversals (<[own := lower]> previous_time) rest
  end.

(** [BTreeMap::values]: in the order of the keys. *)
Definition receipt_leb (a b : Z * OfficialObservation) : bool := a.1 <=? b.1.
Definition receipts_in_order (receipts : gmap Z OfficialObservation) :
    list OfficialObservation :=
  map snd (sort_by receipt_leb (map_to_list receipts)).

Definition component_leb (a b : Component) : bool :=
  (cp_ownership_interval a <? cp_ownership_interval b)
  || (cp_ownership_interval a =? cp_ownership_interval b)
     && ((b_lower (cp_bounds a) <? b_lower (cp_bounds b))
         || (b_lower (cp_bounds a) =? b_lower (cp_bounds b))
            && (b_upper (cp_bounds a) <=? b_upper (cp_bounds b))).

Definition components_of (st : Admission) : list Component :=
  map (component_of (windows st)) (sort_by observation_leb (elements (unique st)))
  ++ reversals ∅ (receipts_in_order (receipts st)).

(** ** Merging overlapping components *)
Definition overlaps (previous component : Component) : bool :=
  (cp_ownership_interval previous =? cp_ownership_interval component)
  && (b_lower (cp_bounds component) <=? b_upper (cp_bounds previous)).
Definition absorb (previous component : Component) : Component := {|
  cp_ownership_interval := cp_ownership_interval previous;
  cp_bounds := {|
    b_lower := b_lower (cp_bounds previous);
    b_upper := Z.max (b_upper (cp_bounds previous)) (b_upper (cp_bounds component)) |};
  cp_period :=
    if bool_decide (cp_period previous = cp_period component) then cp_period previous
    else None |}.
(** [previous] is [merged.last_mut()]. *)
Fixpoint merge_from (previous : Component) (components : list Component) : list Component :=
  match components with
  | [] => [previous]
  | component :: rest =>
      if overlaps previous component then merge_from (absorb previous component) rest
      else previous :: merge_from component rest
  end.
Definition merge_components (components : list Component) : list Component :=
  match components with
  | [] => []
  | component :: rest => merge_from component rest
  end.

(** ** Runs of one period *)
Definition run_of (component : Component) : Run := {|
  run_ownership_interval := cp_ownership_interval component;
  run_first := cp_bounds component;
  run_last := cp_bounds component;
  run_period := cp_period component |}.
Definition continues (previous : Run) (component : Component) : bool :=
  opt_is_some (cp_period component)
  && (run_ownership_interval previous =? cp_ownership_interval component)
  && bool_decide (run_period previous = cp_period component).
Definition extend (previous : Run) (component : Component) : Run := {|
  run_ownership_interval := run_ownership_interval previous;
  run_first := run_first previous;
  run_last := cp_bounds component;
  run_period := run_period previous |}.
Fixpoint runs_from (previous : Run) (merged : list Component) : list Run :=
  match merged with
  | [] => [previous]
  | component :: rest =>
      if continues previous component then runs_from (extend previous component) rest
      else previous :: runs_from (run_of component) rest
  end.
Definition collect_runs (merged : list Component) : list Run :=
  match merged with
  | [] => []
  | component :: rest => runs_from (run_of component) rest
  end.

(** ** Limits of the runs *)
Definition run_limits (run : Run) : Bounds := {|
  b_lower := b_upper (run_first run); b_upper := b_lower (run_last run) |}.

(** The origin that separates two adjacent runs, if the new period proves one. *)
Definition boundary (previous current : Run) : option Z :=
  match run_period previous, run_period current with
  | Some old, Some new =>
      let origin := op_origin new in
      then_some
        ((run_ownership_interval previous =? run_ownership_interval current)
         && negb (bool_decide (old = new))
         && (b_upper (run_last previous) <? origin)
         && (origin <=? b_lower (run_first current)))
        origin
  | _, _ => None
  end.

(** The loop over [runs.windows(2)]: [limits[index].upper] and
    [limits[index + 1].lower] move to the boundary. *)
Fixpoint adjust_limits (runs : list Run) (limits : list Bounds) : list Bounds :=
  match runs, limits with
  | previous :: ((current :: _) as rest), b1 :: b2 :: bs =>
      match boundary previous current with
      | Some origin =>
          {| b_lower := b_lower b1; b_upper := origin - 1 |}
          :: adjust_limits rest ({| b_lower := origin; b_upper := b_upper b2 |} :: bs)
      | None => b1 :: adjust_limits rest (b2 :: bs)
      end
  | _, _ => limits
  end.

Definition span_of (run_bounds : Run * Bounds) : option AttributedSpan :=
  let '(run, bounds) := run_bounds in
  period ← run_period run;
  let clipped := clip bounds period in
  then_some (b_lower clipped <=? b_upper clipped)
    {| sp_ownership_interval := run_ownership_interval run;
       sp_bounds := clipped; sp_period := period |}.

Definition timeline_of (components : list Component) : AttributionTimeline :=
  let merged := merge_components (sort_by component_leb components) in
  let runs := collect_runs merged in
  let limits := adjust_limits runs (map run_limits runs) in
  {| spans := filter_map span_of (zip runs limits) |}.

Definition from_observations (observations : list OfficialObservation) :
    result AttributionError AttributionTimeline :=
  st ← admit_observations Admission_new observations;
  Ok (timeline_of (components_of st)).

(** ** Queries *)
Definition starts_by (ownership_interval observed_at : Z) (span : AttributedSpan) : bool :=
  (sp_ownership_interval span <? ownership_interval)
  || (sp_ownership_interval span =? ownership_interval)
     && (b_lower (sp_bounds span) <=? observed_at).
Definition attribution_at (self : AttributionTimeline) (observed_at ownership_interval : Z) :
    option (OfficialPeriod * Z * Z) :=
  let index := partition_point (starts_by ownership_interval observed_at) (spans self) in
  match index with
  | O => None
  | S index =>
      span ← spans self !! index;
      then_some
        ((sp_ownership_interval span =? ownership_interval)
         && (observed_at <=? b_upper (sp_bounds span)))
        (sp_period span, b_lower (sp_bounds span), b_upper (sp_bounds span))
  end.
Definition period_at (self : AttributionTimeline) (observed_at ownership_interval : Z) :
    option OfficialPeriod :=
  (λ '(period, _, _), period) <$> attribution_at self observed_at ownership_interval.

(** ** Changed ranges *)
Definition span_contains (new old : AttributedSpan) : bool :=
  (sp_ownership_interval new =? sp_ownership_interval old)
  && bool_decide (sp_period new = sp_period old)
  && (b_lower (sp_bounds new) <=? b_lower (sp_bounds old))
  && (b_upper (sp_bounds old) <=? b_upper (sp_bounds new)).

(** The parts of [new] from [lower] on that no span of [olds] covers. *)
Fixpoint uncovered (lower upper : Z) (olds : list AttributedSpan) : list (Z * Z) :=
  match olds with
  | [] => if lower <=? upper then [(lower, upper)] else []
  | old :: rest =>
      (if lower <? b_lower (sp_bounds old) then [(lower, b_lower (sp_bounds old) - 1)] else [])
      ++ uncovered (Z.max lower (i64_saturating_add (b_upper (sp_bounds old)) 1)) upper rest
  end.

Definition range_leb (a b : Z * Z) : bool :=
  (a.1 <? b.1) || (a.1 =? b.1) && (a.2 <=? b.2).
(** [last] is [merged.last_mut()]. *)
Fixpoint merge_ranges_from (last : Z * Z) (ranges : list (Z * Z)) : list (Z * Z) :=
  match ranges with
  | [] => [last]
  | (lower, upper) :: rest =>
      if lower <=? i64_saturating_add last.2 1
      then merge_ranges_from (last.1, Z.max last.2 upper) rest
      else last :: merge_ranges_from (lower, upper) rest
  end.
Definition merge_ranges (ranges : list (Z * Z)) : list (Z * Z) :=
  match ranges with
  | [] => []
  | range :: rest => merge_ranges_from range rest
  end.

Definition changed_ranges (self previous : AttributionTimeline) : list (Z * Z) :=
  let dropped :=
    map (λ old, (b_lower (sp_bounds old), b_upper (sp_bounds old)))
      (List.filter (λ old, negb (existsb (λ new, span_contains new old) (spans self)))
        (spans previous)) in
  let added :=
    flat_map (λ new,
      uncovered (b_lower (sp_bounds new)) (b_upper (sp_bounds new))
        (List.filter (span_contains new) (spans previous))) (spans self) in
  merge_ranges (sort_by range_leb (dropped ++ added)).

(** ** Separated components *)
Definition b_valid (b : Bounds) : Prop := b_lower b ≤ b_upper b.
Definition b_contains (b : Bounds) (t : Z) : Prop := b_lower b ≤ t ≤ b_upper b.
(** [before o b o' b']: an earlier owner, or the same and disjoint bounds. *)
Definition before (o : Z) (b : Bounds) (o' : Z) (b' : Bounds) : Prop :=
  o < o' ∨ o = o' ∧ b_upper b < b_lower b'.
Definition cp_before (c d : Component) : Prop :=
  before (cp_ownership_interval c) (cp_bounds c) (cp_ownership_interval d) (cp_bounds d).
Definition cp_valid (c : Component) : Prop := b_valid (cp_bounds c).
(** [at_instant c o t]: the component is about owner [o] and instant [t]. *)
Definition cp_at (c : Component) (o t : Z) : Prop :=
  cp_ownership_interval c = o ∧ b_contains (cp_bounds c) t.

Ltac geometry :=
  unfold cp_before, cp_at, cp_valid, before, b_contains, b_valid in *; simpl in *; lia.

Lemma component_leb_total a b : component_leb a b = true ∨ component_leb b a = true.
Proof. unfold component_leb. lia. Qed.
Lemma component_leb_trans a b c :
  component_leb a b = true → component_leb b c = true → component_leb a c = true.
Proof. unfold component_leb. lia. Qed.

Section merging.
(** [m] summarises [c]: it covers it, and proves a period only if [c] does. *)
Definition covers (m c : Component) : Prop :=
  cp_ownership_interval m = cp_ownership_interval c
  ∧ b_lower (cp_bounds m) ≤ b_lower (cp_bounds c)
  ∧ b_upper (cp_bounds c) ≤ b_upper (cp_bounds m)
  ∧ (is_Some (cp_period m) → cp_period c = cp_period m).
(** The end points of [m] are end points of components with its period. *)
Definition supported (cs : list Component) (m : Component) : Prop :=
  is_Some (cp_period m) →
  (∃ c, c ∈ cs ∧ covers m c ∧ b_lower (cp_bounds c) = b_lower (cp_bounds m))
  ∧ (∃ c, c ∈ cs ∧ covers m c ∧ b_upper (cp_bounds c) = b_upper (cp_bounds m)).

Lemma covers_refl c : covers c c.
Proof. by refine (conj _ (conj _ (conj _ _))). Qed.
Lemma covers_trans m n c : covers m n → covers n c → covers m c.
Proof.
  intros (? & ? & ? & Hm) (? & ? & ? & Hn). split_and!; [congruence|lia..|].
  intros Hp. rewrite <-(Hm Hp). apply Hn. by rewrite (Hm Hp).
Qed.
Lemma absorb_covers m c :
  overlaps m c = true → b_lower (cp_bounds m) ≤ b_lower (cp_bounds c) →
  covers (absorb m c) m ∧ covers (absorb m c) c.
Proof.
  unfold overlaps, covers, absorb. simpl. intros. case_bool_decide as E; simpl.
  - split_and!; try lia; congruence.
  - unfold is_Some. split_and!; try lia; naive_solver.
Qed.
Lemma absorb_valid m c : cp_valid m → cp_valid (absorb m c).
Proof. geometry. Qed.

Lemma supported_cons c cs m : supported cs m → supported (c :: cs) m.
Proof.
  intros H Hm. destruct (H Hm) as [(x & ? & ?) (y & ? & ?)].
  split; [exists x|exists y]; (split; [by apply list_elem_of_further|done]).
Qed.
Lemma supported_absorb cs p c m :
  overlaps p c = true → b_lower (cp_bounds p) ≤ b_lower (cp_bounds c) →
  supported (absorb p c :: cs) m → supported (p :: c :: cs) m.
Proof.
  intros Ho Hle H Hm. destruct (absorb_covers p c Ho Hle) as [Hp Hc].
  assert (∀ x, x ∈ absorb p c :: cs → covers m x → x = absorb p c ∨ x ∈ p :: c :: cs) as Hx.
  { intros x [->|Hin]%elem_of_cons _; [by left|right]. by do 2 apply list_elem_of_further. }
  destruct (H Hm) as [(x & Hxi & Hcov & Hl) (y & Hyi & Hcov' & Hu)]. split.
  - destruct (Hx x Hxi Hcov) as [->|]; [|by eauto]. exists p.
    split_and!; [apply list_elem_of_here|exact (covers_trans _ _ _ Hcov Hp)|by rewrite <-Hl].
  - destruct (Hx y Hyi Hcov') as [->|]; [|by eauto]. rewrite <-Hu. unfold absorb at 1. simpl.
    destruct (Z.max_spec (b_upper (cp_bounds p)) (b_upper (cp_bounds c))) as [[_ ->]|[_ ->]].
    + exists c. split_and!; [apply elem_of_cons; right; apply list_elem_of_here
        |exact (covers_trans _ _ _ Hcov' Hc)|done].
    + exists p. split_and!; [apply list_elem_of_here|exact (covers_trans _ _ _ Hcov' Hp)|done].
Qed.

Definition starts (a b : Component) : Prop :=
  cp_ownership_interval a < cp_ownership_interval b
  ∨ cp_ownership_interval a = cp_ownership_interval b
    ∧ b_lower (cp_bounds a) ≤ b_lower (cp_bounds b).
Lemma component_leb_starts a b : component_leb a b = true → starts a b.
Proof. unfold component_leb, starts. lia. Qed.

(** What holds along the loop: the remaining components start later. *)
Definition mergeable (p : Component) (cs : list Component) : Prop :=
  Forall cp_valid (p :: cs) ∧ StronglySorted starts (p :: cs).
Lemma mergeable_step p c cs : mergeable p (c :: cs) → starts p c ∧ mergeable c cs.
Proof.
  intros [[? [? ?]%Forall_cons]%Forall_cons [Hs Hf]%StronglySorted_inv].
  apply Forall_cons in Hf as [? ?]. split; [done|split; [by constructor|done]].
Qed.
Lemma mergeable_absorb p c cs : mergeable p (c :: cs) → mergeable (absorb p c) cs.
Proof.
  intros [[? [? ?]%Forall_cons]%Forall_cons [Hs Hf]%StronglySorted_inv].
  apply Forall_cons in Hf as [? ?]. apply StronglySorted_inv in Hs as [? ?].
  split; constructor; try done. by apply absorb_valid.
Qed.
Lemma overlaps_starts p c :
  overlaps p c = true → starts p c → b_lower (cp_bounds p) ≤ b_lower (cp_bounds c).
Proof. unfold overlaps, starts. lia. Qed.

(** Induction along the merge loop. *)
Lemma merge_from_ind (P : Component → list Component → list Component → Prop) :
  (∀ p, P p [] [p]) →
  (∀ p c cs, overlaps p c = true → b_lower (cp_bounds p) ≤ b_lower (cp_bounds c) →
     mergeable (absorb p c) cs →
     P (absorb p c) cs (merge_from (absorb p c) cs) →
     P p (c :: cs) (merge_from (absorb p c) cs)) →
  (∀ p c cs, overlaps p c = false → starts p c → cp_valid p → mergeable c cs →
     P c cs (merge_from c cs) → P p (c :: cs) (p :: merge_from c cs)) →
  ∀ p cs, mergeable p cs → P p cs (merge_from p cs).
Proof.
  intros Hnil Habs Hnext p cs. revert p. induction cs as [|c cs IH]; intros p Hm; [done|].
  destruct (mergeable_step p c cs Hm) as [Hst Hc]. simpl. destruct (overlaps p c) eqn:E.
  - apply Habs; [done|by apply overlaps_starts|by apply mergeable_absorb|].
    by apply IH, mergeable_absorb.
  - apply Hnext; [done..| |done|by apply IH]. by destruct Hm as [[]%Forall_cons _].
Qed.

Lemma merge_from_starts p cs : mergeable p cs → Forall (starts p) (merge_from p cs).
Proof.
  revert p cs. apply (merge_from_ind (λ p _ l, Forall (starts p) l)).
  - intros p. constructor; [unfold starts; lia|constructor].
  - intros p c cs _ _ _ IH. eapply Forall_impl; [exact IH|]. done.
  - intros p c cs _ Hst _ _ IH. constructor; [unfold starts; lia|].
    eapply Forall_impl; [exact IH|]. unfold starts in *. intros; lia.
Qed.
Lemma merge_from_sorted p cs :
  mergeable p cs → StronglySorted cp_before (merge_from p cs).
Proof.
  revert p cs. apply (merge_from_ind (λ _ _ l, StronglySorted cp_before l));
    [by repeat constructor|done|].
  intros p c cs Ho Hst Hv Hm IH. constructor; [done|].
  eapply Forall_impl; [by apply merge_from_starts|]. simpl. intros m Hcm.
  unfold overlaps, starts, cp_before, before in *. lia.
Qed.
Lemma merge_from_valid p cs :
  mergeable p cs → cp_valid p → Forall cp_valid (merge_from p cs).
Proof.
  revert p cs. apply (merge_from_ind (λ p _ l, cp_valid p → Forall cp_valid l)).
  - by repeat constructor.
  - intros p c cs _ _ _ IH Hp. by apply IH, absorb_valid.
  - intros p c cs _ _ _ [[? ?]%Forall_cons _] IH Hp. constructor; auto.
Qed.
Lemma merge_from_covers p cs :
  mergeable p cs → ∀ c, c ∈ p :: cs → ∃ m, m ∈ merge_from p cs ∧ covers m c.
Proof.
  revert p cs. apply (merge_from_ind
    (λ p cs l, ∀ c, c ∈ p :: cs → ∃ m, m ∈ l ∧ covers m c)).
  - intros p c ->%list_elem_of_singleton. exists p.
    split; [apply list_elem_of_here|apply covers_refl].
  - intros p c cs Ho Hle _ IH x Hx. destruct (absorb_covers p c Ho Hle) as [Hp Hc].
    destruct (IH (absorb p c)) as (a & ? & H1); [apply list_elem_of_here|].
    apply elem_of_cons in Hx as [->|[->|Hx]%elem_of_cons].
    + exists a. split; [done|exact (covers_trans _ _ _ H1 Hp)].
    + exists a. split; [done|exact (covers_trans _ _ _ H1 Hc)].
    + apply IH. by apply list_elem_of_further.
  - intros p c cs _ _ _ _ IH x [->|Hx]%elem_of_cons.
    + exists p. split; [apply list_elem_of_here|apply covers_refl].
    + destruct (IH x Hx) as (m & ? & ?). exists m. split; [by apply list_elem_of_further|done].
Qed.
Lemma merge_from_supported p cs :
  mergeable p cs → Forall (supported (p :: cs)) (merge_from p cs).
Proof.
  revert p cs. apply (merge_from_ind (λ p cs l, Forall (supported (p :: cs)) l)).
  - intros p. constructor; [|constructor]. intros _.
    split; exists p; (split_and!; [apply list_elem_of_here|apply covers_refl|done]).
  - intros p c cs Ho Hle _ IH. eapply Forall_impl; [exact IH|].
    intros m. by apply supported_absorb.
  - intros p c cs _ _ _ _ IH. constructor.
    + intros _. split; exists p; (split_and!; [apply list_elem_of_here|apply covers_refl|done]).
    + eapply Forall_impl; [exact IH|]. intros m. apply supported_cons.
Qed.

(** The merged list of a set of valid components. *)
Record merged_of (cs merged : list Component) : Prop := {
  mg_sorted : StronglySorted cp_before merged;
  mg_valid : Forall cp_valid merged;
  mg_covers : ∀ c, c ∈ cs → ∃ m, m ∈ merged ∧ covers m c;
  mg_supported : Forall (supported cs) merged
}.
Lemma merge_components_spec cs :
  Forall cp_valid cs → merged_of cs (merge_components (sort_by component_leb cs)).
Proof.
  intros Hv. pose proof (sort_by_perm component_leb cs) as Hp.
  pose proof (sort_by_sorted component_leb component_leb_total component_leb_trans cs) as Hs.
  rewrite <-Hp in Hv. assert (∀ c, c ∈ cs ↔ c ∈ sort_by component_leb cs) as Hin.
  { intros c. by rewrite Hp. }
  clear Hp. destruct (sort_by component_leb cs) as [|p l]; simpl.
  { split; [constructor..| |constructor]. intros c Hc%Hin. by apply elem_of_nil in Hc. }
  assert (mergeable p l) as Hm.
  { split; [done|]. clear -Hs. induction Hs as [|a l' _ IH Ha]; constructor; [done|].
    eapply Forall_impl; [exact Ha|]. apply component_leb_starts. }
  split.
  - by apply merge_from_sorted.
  - apply merge_from_valid; [done|]. by apply Forall_cons in Hv as [? _].
  - intros c Hc%Hin. by apply merge_from_covers.
  - eapply Forall_impl; [by apply merge_from_supported|]. intros m H Hm'.
    destruct (H Hm') as [(x & ? & ?) (y & ? & ?)].
    split; [exists x|exists y]; (split; [by apply Hin|done]).
Qed.
End merging.

(** ** Runs group the merged components *)
Section runs.
Definition block_of (b : list Component) (r : Run) : Prop :=
  Forall (λ m, cp_ownership_interval m = run_ownership_interval r
               ∧ cp_period m = run_period r) b
  ∧ (∃ m, head b = Some m ∧ cp_bounds m = run_first r)
  ∧ (∃ m, last b = Some m ∧ cp_bounds m = run_last r).

Inductive grouped : list Component → list Run → Prop :=
  | grouped_nil : grouped [] []
  | grouped_cons b r merged runs :
      block_of b r → grouped merged runs → grouped (b ++ merged) (r :: runs).

Lemma runs_from_grouped merged b r :
  block_of b r → grouped (b ++ merged) (runs_from r merged).
Proof.
  revert b r. induction merged as [|m merged IH]; intros b r Hb; simpl.
  - constructor; [done|constructor].
  - destruct (continues r m) eqn:E.
    + unfold continues in E. rewrite !andb_true_iff, Z.eqb_eq, bool_decide_eq_true in E.
      destruct E as [[_ Ho] Hp]. rewrite cons_middle, (assoc_L (++)). apply IH.
      destruct Hb as (Hf & (h & Hh & Hhb) & _). split_and!.
      * apply Forall_app. split; [done|]. by repeat constructor.
      * exists h. split; [|done]. by destruct b.
      * exists m. by rewrite last_snoc.
    + constructor; [done|]. apply (IH [m]).
      split_and!; [by repeat constructor|by exists m|by exists m].
Qed.
Lemma collect_runs_grouped merged : grouped merged (collect_runs merged).
Proof.
  destruct merged as [|m merged]; simpl; [constructor|].
  apply (runs_from_grouped merged [m]).
  split_and!; [by repeat constructor|by exists m|by exists m].
Qed.

Definition sorted_valid (l : list Component) : Prop :=
  StronglySorted cp_before l ∧ Forall cp_valid l.
Lemma sorted_valid_app l k :
  sorted_valid (l ++ k) →
  sorted_valid l ∧ sorted_valid k ∧ ∀ x y, x ∈ l → y ∈ k → cp_before x y.
Proof.
  intros [Hs [Hl Hk]%Forall_app]. induction l as [|x l IH]; simpl in *.
  - split_and!; [by repeat constructor|done|]. intros x y Hx%elem_of_nil. done.
  - apply StronglySorted_inv in Hs as [Hs Hx]. apply Forall_cons in Hl as [Hxv Hl].
    apply Forall_app in Hx as [Hxl Hxk]. destruct (IH Hs Hl) as ([? ?] & ? & Hb).
    split_and!; [split; by constructor|done|].
    intros z y [->|Hz]%elem_of_cons Hy; [|by apply Hb].
    rewrite Forall_forall in Hxk. by apply Hxk.
Qed.

(** The shape of a block in a sorted list. *)
Record block_shape (b : list Component) (r : Run) : Prop := {
  bs_all m : m ∈ b →
    cp_ownership_interval m = run_ownership_interval r ∧ cp_period m = run_period r
    ∧ b_lower (run_first r) ≤ b_lower (cp_bounds m)
    ∧ b_upper (cp_bounds m) ≤ b_upper (run_last r);
  bs_first : ∃ m, m ∈ b ∧ cp_bounds m = run_first r;
  bs_last : ∃ m, m ∈ b ∧ cp_bounds m = run_last r;
  bs_valid : b_valid (run_first r) ∧ b_valid (run_last r)
}.
Lemma block_of_shape b r : sorted_valid b → block_of b r → block_shape b r.
Proof.
  intros [Hs Hv] (Hf & (h & Hh & Hhb) & (e & He & Heb)).
  rewrite Forall_forall in Hf, Hv.
  assert (h ∈ b) as Hhin by (by apply head_Some_elem_of).
  assert (e ∈ b) as Hein by (by apply last_Some_elem_of).
  split; [|by exists h|by exists e|rewrite <-Hhb, <-Heb; by split; apply Hv].
  intros m Hm. destruct (Hf m Hm) as [Ho ?]. destruct (Hf h Hhin) as [Hoh _].
  destruct (Hf e Hein) as [Hoe _]. pose proof (Hv m Hm) as Hmv.
  split_and!; [done..| |].
  - destruct b as [|x b]; [done|]. simplify_eq/=.
    apply StronglySorted_inv in Hs as [_ Hs]. apply elem_of_cons in Hm as [->|Hm].
    + by rewrite Hhb.
    + rewrite <-Hhb. rewrite Forall_forall in Hs. specialize (Hs m Hm).
      pose proof (Hv h ltac:(apply list_elem_of_here)). geometry.
  - apply last_Some in He as (k & ->).
    apply elem_of_app in Hm as [Hm| ->%list_elem_of_singleton]; [|by rewrite Heb].
    destruct (sorted_valid_app k [e]) as (_ & _ & Hb).
    { split; [done|]. by apply Forall_forall. }
    specialize (Hb m e Hm ltac:(apply list_elem_of_here)).
    pose proof (Hv e Hein). rewrite <-Heb. geometry.
Qed.

Lemma grouped_inv merged r rs :
  grouped merged (r :: rs) → sorted_valid merged →
  ∃ b merged', merged = b ++ merged' ∧ block_shape b r ∧ grouped merged' rs
    ∧ sorted_valid merged' ∧ ∀ x y, x ∈ b → y ∈ merged' → cp_before x y.
Proof.
  inversion 1 as [|b r' merged' rs' Hb Hg]; subst. intros Hs.
  apply sorted_valid_app in Hs as (Hb' & Hm & ?).
  exists b, merged'. split_and!; try done. by apply block_of_shape.
Qed.
End runs.

(** ** Limits: where each run is proved *)
Section placements.
(** The runs with their final limits, [lo] being the first lower limit. *)
Definition place (lo : Z) (r : Run) (rs : list Run) : list (Run * Bounds) :=
  zip (r :: rs) (adjust_limits (r :: rs)
    ({| b_lower := lo; b_upper := b_lower (run_last r) |} :: map run_limits rs)).

Lemma place_nil lo r : place lo r [] = [(r, {| b_lower := lo; b_upper := b_lower (run_last r) |})].
Proof. done. Qed.
Lemma place_cons lo r r' rs :
  place lo r (r' :: rs) =
    match boundary r r' with
    | Some g => (r, {| b_lower := lo; b_upper := g - 1 |}) :: place g r' rs
    | None => (r, {| b_lower := lo; b_upper := b_lower (run_last r) |})
              :: place (b_upper (run_first r')) r' rs
    end.
Proof. unfold place. cbn [adjust_limits map]. by destruct (boundary r r'). Qed.

Lemma boundary_Some r r' g :
  boundary r r' = Some g → ∃ old new,
    run_period r = Some old ∧ run_period r' = Some new ∧ g = op_origin new ∧ old ≠ new
    ∧ run_ownership_interval r = run_ownership_interval r'
    ∧ b_upper (run_last r) < g ∧ g ≤ b_lower (run_first r').
Proof.
  unfold boundary. destruct (run_period r) as [old|]; [|done].
  destruct (run_period r') as [new|]; [|done]. unfold then_some.
  destruct (_ && _) eqn:E; [|done]. intros [= <-].
  rewrite !andb_true_iff, negb_true_iff, bool_decide_eq_false in E.
  exists old, new. destruct E as [[[? ?] ?] ?]. split_and!; [done..|lia|lia|lia].
Qed.

(** Induction along the limits: the lower limit of the next run is its
    official origin, or the upper bound of its first component. *)
Lemma place_ind (P : Z → Run → list Run → list Component → list (Run * Bounds) → Prop) :
  (∀ lo r b, block_shape b r →
     P lo r [] b [(r, {| b_lower := lo; b_upper := b_lower (run_last r) |})]) →
  (∀ lo r r' rs b b' merged hi lo' l,
     block_shape b r → block_shape b' r' → sorted_valid (b' ++ merged) →
     (∀ x y, x ∈ b → y ∈ b' ++ merged → cp_before x y) →
     (∀ y, y ∈ merged → ∀ x, x ∈ b' → cp_before x y) →
     (∃ g, boundary r r' = Some g ∧ hi = g - 1 ∧ lo' = g
      ∨ boundary r r' = None ∧ hi = b_lower (run_last r) ∧ lo' = b_upper (run_first r')) →
     P lo' r' rs (b' ++ merged) l →
     P lo r (r' :: rs) (b ++ b' ++ merged)
       ((r, {| b_lower := lo; b_upper := hi |}) :: l)) →
  ∀ rs lo r merged, grouped merged (r :: rs) → sorted_valid merged →
    P lo r rs merged (place lo r rs).
Proof.
  intros Hnil Hcons rs. induction rs as [|r' rs IH]; intros lo r merged Hg Hs.
  - destruct (grouped_inv _ _ _ Hg Hs) as (b & m' & -> & Hb & Hg' & _).
    inversion Hg'. subst. rewrite app_nil_r, place_nil. by apply Hnil.
  - destruct (grouped_inv _ _ _ Hg Hs) as (b & m' & -> & Hb & Hg' & Hs' & Hbef).
    pose proof (grouped_inv _ _ _ Hg' Hs') as (b' & m'' & Hm & Hb' & _ & _ & Hbef').
    subst m'. rewrite place_cons. destruct (boundary r r') as [g|] eqn:E.
    + apply (Hcons lo r r' rs b b' m'' (g - 1) g); try done; [by eauto|by exists g; left|].
      by apply IH.
    + apply (Hcons lo r r' rs b b' m'' (b_lower (run_last r)) (b_upper (run_first r')));
        try done; [by eauto|by exists 0; right|]. by apply IH.
Qed.

Lemma block_shape_le b r :
  block_shape b r →
  b_lower (run_first r) ≤ b_lower (run_last r) ∧ b_upper (run_first r) ≤ b_upper (run_last r)
  ∧ b_lower (run_first r) ≤ b_upper (run_first r) ∧ b_lower (run_last r) ≤ b_upper (run_last r).
Proof.
  intros [Hall (f & Hf & Hfb) (l & Hl & Hlb) []].
  destruct (Hall f Hf) as (_ & _ & _ & ?), (Hall l Hl) as (_ & _ & ? & _).
  rewrite Hfb, Hlb in *. unfold b_valid in *. split_and!; done.
Qed.
Lemma block_shape_before b r b' r' :
  block_shape b r → block_shape b' r' → (∀ x y, x ∈ b → y ∈ b' → cp_before x y) →
  before (run_ownership_interval r) (run_last r) (run_ownership_interval r') (run_first r').
Proof.
  intros [Hall _ (l & Hl & Hlb) _] [Hall' (f & Hf & Hfb) _ _] Hb.
  destruct (Hall l Hl) as (<- & _), (Hall' f Hf) as (<- & _).
  rewrite <-Hlb, <-Hfb. by apply Hb.
Qed.

(** The limits on both sides of a step between two runs. *)
Lemma place_step r r' b b' hi lo' :
  block_shape b r → block_shape b' r' → (∀ x y, x ∈ b → y ∈ b' → cp_before x y) →
  (∃ g, boundary r r' = Some g ∧ hi = g - 1 ∧ lo' = g
   ∨ boundary r r' = None ∧ hi = b_lower (run_last r) ∧ lo' = b_upper (run_first r')) →
  lo' ≤ b_upper (run_first r')
  ∧ (run_ownership_interval r < run_ownership_interval r'
     ∨ run_ownership_interval r = run_ownership_interval r' ∧ hi < lo'
       ∧ hi < b_lower (run_first r') ∧ b_upper (run_last r) < lo').
Proof.
  intros Hb Hb' Hbef Hg. pose proof (block_shape_before b r b' r' Hb Hb' Hbef) as H.
  pose proof (block_shape_le b r Hb). pose proof (block_shape_le b' r' Hb').
  destruct Hg as [g [(Hg & -> & ->)|(_ & -> & ->)]].
  - apply boundary_Some in Hg as (? & ? & _ & _ & _ & _ & ? & ? & ?). geometry.
  - geometry.
Qed.

Definition pl_before (x y : Run * Bounds) : Prop :=
  before (run_ownership_interval x.1) x.2 (run_ownership_interval y.1) y.2.

Lemma place_sorted rs lo r merged :
  grouped merged (r :: rs) → sorted_valid merged → lo ≤ b_upper (run_first r) →
  StronglySorted pl_before (place lo r rs).
Proof.
  intros Hg Hs Hlo. cut (Forall (λ x, run_ownership_interval r < run_ownership_interval x.1
    ∨ run_ownership_interval r = run_ownership_interval x.1 ∧ lo ≤ b_lower x.2) (place lo r rs)
    ∧ StronglySorted pl_before (place lo r rs)); [by intros []|].
  revert Hlo. revert rs lo r merged Hg Hs.
  apply (place_ind (λ lo r _ _ l, lo ≤ b_upper (run_first r) →
    Forall (λ x, run_ownership_interval r < run_ownership_interval x.1
    ∨ run_ownership_interval r = run_ownership_interval x.1 ∧ lo ≤ b_lower x.2) l
    ∧ StronglySorted pl_before l)).
  - intros lo r b _ _. split; [constructor; [simpl; lia|constructor]|by repeat constructor].
  - intros lo r r' rs b b' m hi lo' l Hb Hb' _ Hbef _ Hg IH Hlo.
    destruct (place_step r r' b b' hi lo' Hb Hb') as [Hlo' Hstep]; [|done|].
    { intros x y Hx Hy. apply Hbef; [done|]. apply elem_of_app. by left. }
    pose proof (block_shape_le b r Hb). destruct (IH Hlo') as [Hf Hs].
    split; constructor; simpl; [lia| |done|].
    all: eapply Forall_impl; [exact Hf|]; simpl; unfold pl_before, before; simpl; lia.
Qed.

(** Nothing in conflict reaches into the limits of a run. *)
Lemma place_clear rs lo r merged :
  grouped merged (r :: rs) → sorted_valid merged →
  ∀ pre, (∀ m, m ∈ pre → cp_ownership_interval m = run_ownership_interval r →
            b_upper (cp_bounds m) < lo) →
  (∀ x y, x ∈ pre → y ∈ merged → cp_before x y) →
  ∀ r0 b0 p t m, (r0, b0) ∈ place lo r rs → run_period r0 = Some p → b_contains b0 t →
    m ∈ pre ++ merged → cp_at m (run_ownership_interval r0) t → cp_period m = Some p.
Proof.
  revert rs lo r merged. apply (place_ind (λ lo r _ merged l,
    ∀ pre, (∀ m, m ∈ pre → cp_ownership_interval m = run_ownership_interval r →
            b_upper (cp_bounds m) < lo) →
    (∀ x y, x ∈ pre → y ∈ merged → cp_before x y) →
    ∀ r0 b0 p t m, (r0, b0) ∈ l → run_period r0 = Some p → b_contains b0 t →
      m ∈ pre ++ merged → cp_at m (run_ownership_interval r0) t → cp_period m = Some p)).
  - intros lo r b [Hall _ _ _] pre Hpre _ r0 b0 p t m [= -> ->]%list_elem_of_singleton Hp Ht
      [Hm|Hm]%elem_of_app Hat.
    + assert (b_upper (cp_bounds m) < lo) by (apply Hpre; [done|by destruct Hat]). geometry.
    + destruct (Hall m Hm) as (_ & -> & _). done.
  - intros lo r r' rs b b' m hi lo' l Hb Hb' Hs Hbef Hbef' Hg IH pre Hpre Hpm
      r0 b0 p t x Hin Hp Ht Hx Hat.
    assert (∀ x y, x ∈ b → y ∈ b' → cp_before x y) as Hbb'.
    { intros y z Hy Hz. apply Hbef; [done|]. apply elem_of_app. by left. }
    destruct (place_step r r' b b' hi lo' Hb Hb' Hbb' Hg) as [Hlo' Hstep].
    apply elem_of_cons in Hin as [[= -> ->]|Hin].
    + (* the head run *) apply elem_of_app in Hx as [Hx|Hx].
      { assert (b_upper (cp_bounds x) < lo) by (apply Hpre; [done|by destruct Hat]). geometry. }
      apply elem_of_app in Hx as [Hx|Hx]; [by destruct (bs_all _ _ Hb x Hx) as (_ & -> & _)|].
      exfalso. destruct (bs_first _ _ Hb') as (f & Hf & Hfb).
      destruct (bs_all _ _ Hb' f Hf) as (Hfo & _).
      assert (run_ownership_interval r' < cp_ownership_interval x
        ∨ run_ownership_interval r' = cp_ownership_interval x
          ∧ b_lower (run_first r') ≤ b_lower (cp_bounds x)) as Hxl.
      { apply elem_of_app in Hx as [Hx|Hx].
        - destruct (bs_all _ _ Hb' x Hx) as (-> & _ & ? & _). lia.
        - specialize (Hbef' x Hx f Hf). pose proof (block_shape_le _ _ Hb').
          rewrite <-Hfo, <-Hfb in *. geometry. }
      geometry.
    + apply (IH (pre ++ b)) with (r0 := r0) (b0 := b0) (t := t); try done.
      * intros y Hy Hyo. apply elem_of_app in Hy as [Hy|Hy].
        -- destruct (bs_last _ _ Hb) as (e & He & Heb).
           assert (cp_before y e) as Hye by (apply Hpm; [done|apply elem_of_app; by left]).
           destruct (bs_all _ _ Hb e He) as (Heo & _).
           pose proof (block_shape_le _ _ Hb). rewrite <-Heb in *. geometry.
        -- destruct (bs_all _ _ Hb y Hy) as (? & _ & _ & ?). lia.
      * intros y z [Hy|Hy]%elem_of_app Hz; [|by apply Hbef].
        apply Hpm; [done|]. apply elem_of_app. by right.
      * by rewrite <-(assoc_L (++)).
Qed.
End placements.

(** ** What supports an attribution

    [evidence cs o p b]: the components prove period [p] on [b] for owner [o];
    [E] below is any such relation between periods and bounds.
    An instant is proved from the left by earlier evidence of its period, or by
    the official origin when another period was observed before it; and
    likewise to the right. *)
Definition evidence (cs : list Component) (o : Z) (p : OfficialPeriod) (b : Bounds) : Prop :=
  ∃ c, c ∈ cs ∧ cp_ownership_interval c = o ∧ cp_period c = Some p ∧ cp_bounds c = b.
Definition proved_from (E : OfficialPeriod → Bounds → Prop) (p : OfficialPeriod) (t : Z) : Prop :=
  (∃ b, E p b ∧ b_upper b ≤ t)
  ∨ (op_origin p ≤ t ∧ ∃ q b, E q b ∧ q ≠ p ∧ b_upper b < op_origin p).
Definition proved_until (E : OfficialPeriod → Bounds → Prop) (p : OfficialPeriod) (t : Z) : Prop :=
  (∃ b, E p b ∧ t ≤ b_lower b)
  ∨ (∃ q b, E q b ∧ q ≠ p ∧ t < op_origin q ≤ b_lower b).

Lemma proved_from_impl (E E' : OfficialPeriod → Bounds → Prop) p t :
  (∀ q b, E q b → ∃ b', E' q b' ∧ b_upper b' = b_upper b) →
  proved_from E p t → proved_from E' p t.
Proof.
  intros H [(b & Hb & ?)|(? & q & b & Hb & ? & ?)]; destruct (H _ _ Hb) as (b' & ? & Eq).
  - left. exists b'. by rewrite Eq.
  - right. split; [done|]. exists q, b'. by rewrite Eq.
Qed.
Lemma proved_until_impl (E E' : OfficialPeriod → Bounds → Prop) p t :
  (∀ q b, E q b → ∃ b', E' q b' ∧ b_lower b' = b_lower b) →
  proved_until E p t → proved_until E' p t.
Proof.
  intros H [(b & Hb & ?)|(q & b & Hb & ? & ?)]; destruct (H _ _ Hb) as (b' & ? & Eq).
  - left. exists b'. by rewrite Eq.
  - right. exists q, b'. by rewrite Eq.
Qed.

Section support.
Lemma block_evidence b r p cs :
  block_shape b r → (∀ m, m ∈ b → m ∈ cs) → run_period r = Some p →
  evidence cs (run_ownership_interval r) p (run_first r)
  ∧ evidence cs (run_ownership_interval r) p (run_last r).
Proof.
  intros [Hall (f & Hf & Hfb) (l & Hl & Hlb) _] Hin Hp.
  destruct (Hall f Hf) as (? & ? & _), (Hall l Hl) as (? & ? & _).
  split; [exists f|exists l]; (split_and!; [by apply Hin|done|congruence|done]).
Qed.

Lemma place_supported cs rs lo r merged :
  grouped merged (r :: rs) → sorted_valid merged → (∀ m, m ∈ merged → m ∈ cs) →
  (∀ p t, run_period r = Some p → lo ≤ t → proved_from (evidence cs (run_ownership_interval r)) p t) →
  ∀ r0 b0 p t, (r0, b0) ∈ place lo r rs → run_period r0 = Some p → b_contains b0 t →
    proved_from (evidence cs (run_ownership_interval r0)) p t
    ∧ proved_until (evidence cs (run_ownership_interval r0)) p t
    ∧ ∃ b, evidence cs (run_ownership_interval r0) p b.
Proof.
  revert rs lo r merged. apply (place_ind (λ lo r _ merged l, (∀ m, m ∈ merged → m ∈ cs) →
    (∀ p t, run_period r = Some p → lo ≤ t → proved_from (evidence cs (run_ownership_interval r)) p t) →
    ∀ r0 b0 p t, (r0, b0) ∈ l → run_period r0 = Some p → b_contains b0 t →
    proved_from (evidence cs (run_ownership_interval r0)) p t
    ∧ proved_until (evidence cs (run_ownership_interval r0)) p t
    ∧ ∃ b, evidence cs (run_ownership_interval r0) p b)).
  - intros lo r b Hb Hin Hlo r0 b0 p t [= -> ->]%list_elem_of_singleton Hp [Ht Ht'].
    destruct (block_evidence b r p cs Hb Hin Hp) as [_ He]. simpl in *.
    split_and!; [by apply Hlo|left; by exists (run_last r)|by exists (run_last r)].
  - intros lo r r' rs b b' m hi lo' l Hb Hb' _ _ _ [g Hg] IH Hin Hlo r0 b0 p t Hr Hp Ht.
    assert (∀ x, x ∈ b → x ∈ cs) as Hinb by (intros; apply Hin, elem_of_app; by left).
    assert (∀ x, x ∈ b' → x ∈ cs) as Hinb'.
    { intros; apply Hin, elem_of_app; right. apply elem_of_app. by left. }
    apply elem_of_cons in Hr as [[= -> ->]|Hr].
    + destruct (block_evidence b r p cs Hb Hinb Hp) as [_ He]. destruct Ht as [Ht Ht'].
      simpl in *. split_and!; [by apply Hlo| |by exists (run_last r)].
      destruct Hg as [(Hg & -> & ->)|(_ & -> & ->)]; [|left; by exists (run_last r)].
      apply boundary_Some in Hg as (old & new & Ho & Hn & -> & Hne & Hown & _ & Hle).
      right. exists new, (run_first r'). rewrite Hown.
      destruct (block_evidence b' r' new cs Hb' Hinb' Hn) as [? _].
      split_and!; [done|congruence|lia|done].
    + apply (IH) with (b0 := b0); try done.
      { intros x Hx. apply Hin, elem_of_app. by right. }
      intros q u Hq Hu. destruct Hg as [(Hg & -> & ->)|(_ & -> & ->)].
      * apply boundary_Some in Hg as (old & new & Ho & Hn & -> & Hne & Hown & Hlt & _).
        assert (q = new) as -> by congruence. right. split; [done|].
        exists old, (run_last r). rewrite <-Hown.
        by destruct (block_evidence b r old cs Hb Hinb Ho).
      * left. exists (run_first r').
        by destruct (block_evidence b' r' q cs Hb' Hinb' Hq).
Qed.

(** Evidence of merged components is evidence of the components. *)
Lemma merged_evidence cs merged o p b :
  merged_of cs merged → evidence merged o p b →
  (∃ b', evidence cs o p b' ∧ b_lower b' = b_lower b)
  ∧ (∃ b', evidence cs o p b' ∧ b_upper b' = b_upper b).
Proof.
  intros [_ _ _ Hsup] (m & Hm & <- & Hp & <-).
  rewrite Forall_forall in Hsup. destruct (Hsup m Hm) as [(x & ? & Hx & ?) (y & ? & Hy & ?)].
  { by rewrite Hp. }
  destruct Hx as (Hxo & _ & _ & Hxp), Hy as (Hyo & _ & _ & Hyp). rewrite Hp in *.
  split; [exists (cp_bounds x)|exists (cp_bounds y)]; (split; [|done]);
    [exists x|exists y]; (split_and!; [done|done|auto|done]).
Qed.
Lemma proved_from_merged cs merged o p t :
  merged_of cs merged → proved_from (evidence merged o) p t → proved_from (evidence cs o) p t.
Proof.
  intros Hm. apply proved_from_impl. intros q b Hb. by destruct (merged_evidence cs merged o q b).
Qed.
Lemma proved_until_merged cs merged o p t :
  merged_of cs merged → proved_until (evidence merged o) p t → proved_until (evidence cs o) p t.
Proof.
  intros Hm. apply proved_until_impl. intros q b Hb. by destruct (merged_evidence cs merged o q b).
Qed.
End support.

(** ** The spans of a timeline *)
Definition span_at (s : AttributedSpan) (o t : Z) : Prop :=
  sp_ownership_interval s = o ∧ b_contains (sp_bounds s) t.
Definition sp_before (s s' : AttributedSpan) : Prop :=
  before (sp_ownership_interval s) (sp_bounds s) (sp_ownership_interval s') (sp_bounds s').
Definition span_wf (s : AttributedSpan) : Prop :=
  op_origin (sp_period s) ≤ b_lower (sp_bounds s) ∧ b_valid (sp_bounds s)
  ∧ b_upper (sp_bounds s) < op_reset_at (sp_period s).
Definition timeline_wf (tl : AttributionTimeline) : Prop :=
  StronglySorted sp_before (spans tl) ∧ Forall span_wf (spans tl).

Lemma then_some_Some {A} (b : bool) (a x : A) : then_some b a = Some x ↔ b = true ∧ x = a.
Proof. destruct b; simpl; naive_solver. Qed.

Lemma span_of_Some r b s :
  span_of (r, b) = Some s ↔ ∃ p, run_period r = Some p
    ∧ s = {| sp_ownership_interval := run_ownership_interval r;
             sp_bounds := clip b p; sp_period := p |}
    ∧ b_lower (clip b p) ≤ b_upper (clip b p).
Proof.
  unfold span_of. destruct (run_period r) as [p|]; simpl; [|naive_solver].
  rewrite then_some_Some, Z.leb_le. naive_solver.
Qed.

Section timeline.
Context (cs : list Component) (Hvalid : Forall cp_valid cs).
Let merged := merge_components (sort_by component_leb cs).

Lemma timeline_spans :
  spans (timeline_of cs) = match collect_runs merged with
    | [] => []
    | r :: rs => filter_map span_of (place (b_upper (run_first r)) r rs)
    end.
Proof. unfold timeline_of, merged. by destruct (collect_runs _). Qed.

Lemma span_inv s :
  s ∈ spans (timeline_of cs) → ∃ r rs r0 b0 p,
    collect_runs merged = r :: rs ∧ (r0, b0) ∈ place (b_upper (run_first r)) r rs
    ∧ run_period r0 = Some p
    ∧ s = {| sp_ownership_interval := run_ownership_interval r0;
             sp_bounds := clip b0 p; sp_period := p |}
    ∧ b_lower (clip b0 p) ≤ b_upper (clip b0 p).
Proof.
  rewrite timeline_spans. destruct (collect_runs merged) as [|r rs];
    [by intros ?%elem_of_nil|].
  intros ([r0 b0] & Hin & Hs)%elem_of_filter_map. apply span_of_Some in Hs as (p & ? & ? & ?).
  by exists r, rs, r0, b0, p.
Qed.

Lemma merged_spec : merged_of cs merged ∧ sorted_valid merged.
Proof.
  pose proof (merge_components_spec cs Hvalid) as H. split; [done|]. by destruct H.
Qed.

Lemma timeline_of_wf : timeline_wf (timeline_of cs).
Proof.
  split.
  - rewrite timeline_spans. pose proof (collect_runs_grouped merged) as Hg.
    destruct (collect_runs merged) as [|r rs]; [constructor|].
    destruct merged_spec as [_ Hs].
    pose proof (place_sorted rs _ r merged Hg Hs (Z.le_refl _)) as Hp. clear Hg.
    induction Hp as [|[r0 b0] l _ IH Hf]; cbn [filter_map]; [constructor|].
    destruct (span_of (r0, b0)) as [s|] eqn:E; [|done]. constructor; [done|].
    apply span_of_Some in E as (p & _ & -> & _). apply Forall_forall.
    intros s ([r1 b1] & Hin & E)%elem_of_filter_map. apply span_of_Some in E as (q & _ & -> & _).
    rewrite Forall_forall in Hf. specialize (Hf _ Hin).
    unfold sp_before, pl_before, before in *. simpl in *. lia.
  - apply Forall_forall. intros s (r & rs & r0 & b0 & p & _ & _ & _ & -> & ?)%span_inv.
    unfold span_wf, b_valid. simpl in *. lia.
Qed.

Lemma timeline_of_sound s t :
  s ∈ spans (timeline_of cs) → b_contains (sp_bounds s) t →
  let o := sp_ownership_interval s in let p := sp_period s in
  (∀ c, c ∈ cs → cp_at c o t → cp_period c = Some p)
  ∧ proved_from (evidence cs o) p t ∧ proved_until (evidence cs o) p t ∧ ∃ b, evidence cs o p b.
Proof.
  intros (r & rs & r0 & b0 & p & Hr & Hin & Hp & -> & _)%span_inv Ht. simpl in *.
  assert (b_contains b0 t) as Hb0 by geometry.
  destruct merged_spec as [Hm Hs]. pose proof (collect_runs_grouped merged) as Hg.
  rewrite Hr in Hg. split.
  - intros c Hc Hat. destruct (mg_covers _ _ Hm c Hc) as (m & Hmin & Ho & ? & ? & Hmp).
    assert (cp_period m = Some p) as Hpm.
    { eapply (place_clear rs (b_upper (run_first r)) r merged Hg Hs []); try done; try (by intros ? ?%elem_of_nil).
      - by intros ? ? ?%elem_of_nil.
      - geometry. }
    rewrite <-Hpm. apply Hmp. by rewrite Hpm.
  - destruct (place_supported merged rs (b_upper (run_first r)) r merged Hg Hs) with (r0 := r0) (b0 := b0) (p := p) (t := t)
      as (Hf & Hu & b & He); try done.
    { intros q u Hq Hu. left. exists (run_first r).
      destruct (grouped_inv _ _ _ Hg Hs) as (b & m' & Hmm & Hb & _).
      destruct (block_evidence b r q merged Hb) as [? _]; [|done|done].
      intros m ?. rewrite Hmm. apply elem_of_app. by left. }
    split_and!; [by eapply proved_from_merged|by eapply proved_until_merged|].
    destruct (merged_evidence cs merged _ _ _ Hm He) as [(b' & ? & _) _]. by exists b'.
Qed.
End timeline.

(** ** Lookup *)
Lemma lookup_span l o t s :
  StronglySorted sp_before l → Forall span_wf l →
  (∃ i, partition_point (starts_by o t) l = S i ∧ l !! i = Some s
    ∧ sp_ownership_interval s = o ∧ t ≤ b_upper (sp_bounds s))
  ↔ s ∈ l ∧ span_at s o t.
Proof.
  intros Hs Hw. induction Hs as [|x l Hs IH Hx]; simpl.
  { split; [by intros (? & ? & _)|by intros [?%elem_of_nil _]]. }
  apply Forall_cons in Hw as [Hxw Hw]. specialize (IH Hw). rewrite Forall_forall in Hx, Hw.
  destruct (starts_by o t x) eqn:Ex; unfold starts_by in Ex.
  - split.
    + intros (i & [= Ei] & Hi & Ho & Ht). destruct i as [|i]; simpl in Hi.
      * injection Hi as ->. split; [apply list_elem_of_here|].
        split; [done|]. split; lia.
      * destruct (proj1 IH) as [? ?]; [by exists i|]. split; [by apply list_elem_of_further|done].
    + intros [[->|Hin]%elem_of_cons Hat].
      * exists O. destruct Hat as [Ho Hat]. split_and!; [|done|done|by destruct Hat].
        destruct l as [|y l]; [done|]. simpl.
        specialize (Hx y ltac:(apply list_elem_of_here)). unfold sp_before, before in Hx.
        destruct (starts_by o t y) eqn:Ey; [|done]. unfold starts_by in Ey. geometry.
      * destruct (proj2 IH) as (i & Hi & ?); [done|]. exists (S i). by rewrite Hi.
  - split; [by intros (? & ? & _)|]. intros [[->|Hin]%elem_of_cons [Ho Hat]].
    + destruct Hat. lia.
    + specialize (Hx s Hin). unfold sp_before, before in Hx. unfold span_wf, b_valid in Hxw.
      unfold b_contains in Hat. lia.
Qed.

Lemma attribution_at_Some tl o t p lo hi :
  timeline_wf tl → attribution_at tl t o = Some (p, lo, hi) ↔
  ∃ s, s ∈ spans tl ∧ span_at s o t ∧ p = sp_period s
       ∧ lo = b_lower (sp_bounds s) ∧ hi = b_upper (sp_bounds s).
Proof.
  intros [Hs Hw]. unfold attribution_at. split.
  - intros H. destruct (partition_point _ _) as [|i] eqn:E; [done|].
    destruct (spans tl !! i) as [s|] eqn:Ei; simpl in H; [|done].
    apply then_some_Some in H as [Hb [= -> -> ->]]. exists s.
    destruct (proj1 (lookup_span (spans tl) o t s Hs Hw)) as [? ?]; [|done].
    exists i. split_and!; [done|done|lia|lia].
  - intros (s & Hin & Hat & -> & -> & ->).
    destruct (proj2 (lookup_span (spans tl) o t s Hs Hw)) as (i & Hi & Hl & ? & ?); [done|].
    rewrite Hi, Hl. simpl. apply then_some_Some. split; [lia|done].
Qed.

(** Two spans that contain an instant of an owner are the same. *)
Lemma span_at_unique tl s s' o t :
  timeline_wf tl → s ∈ spans tl → s' ∈ spans tl → span_at s o t → span_at s' o t → s = s'.
Proof.
  intros [Hs _] Hin Hin' [Ho Ht] [Ho' Ht']. induction Hs as [|x l Hs IH Hx].
  { by apply elem_of_nil in Hin. }
  rewrite Forall_forall in Hx. unfold sp_before, before, b_contains in *.
  apply elem_of_cons in Hin as [->|Hin], Hin' as [->|Hin']; [done|..|by apply IH].
  - specialize (Hx _ Hin'). lia.
  - specialize (Hx _ Hin). lia.
Qed.
Lemma period_at_Some tl o t p :
  timeline_wf tl → period_at tl t o = Some p ↔
  ∃ s, s ∈ spans tl ∧ span_at s o t ∧ p = sp_period s.
Proof.
  intros Hw. unfold period_at. rewrite fmap_Some. split.
  - intros ([[q lo] hi] & H & ->). apply attribution_at_Some in H as (s & ? & ? & -> & _); [|done].
    by exists s.
  - intros (s & ? & ? & ->).
    exists (sp_period s, b_lower (sp_bounds s), b_upper (sp_bounds s)). split; [|done].
    apply attribution_at_Some; [done|]. by exists s.
Qed.

(** ** Admission: what is accepted, and that only the set matters *)
Record observation_valid (o : OfficialObservation) : Prop := {
  ov_lower : 1 ≤ oo_lower_at o ≤ MAX_UNIX_SECONDS;
  ov_upper : oo_lower_at o ≤ oo_upper_at o ≤ MAX_UNIX_SECONDS;
  ov_reset r : oo_reset_at o = Some r → 1 ≤ r ≤ MAX_UNIX_SECONDS;
  ov_window w : oo_window_seconds o = Some w → is_Some (oo_reset_at o) ∧ 0 < w;
  ov_receipt n : oo_acquisition_sequence o = Some n → n ≠ 0 ∧ oo_lower_at o = oo_upper_at o
}.
(** One receipt sequence never names two observations. *)
Definition consistent (l : list OfficialObservation) : Prop :=
  ∀ x y n, x ∈ l → y ∈ l → oo_acquisition_sequence x = Some n →
    oo_acquisition_sequence y = Some n → x = y.
(** The windows officially reported for a reset. *)
Definition reported (l : list OfficialObservation) (reset window : Z) : Prop :=
  ∃ o, o ∈ l ∧ oo_reset_at o = Some reset ∧ oo_window_seconds o = Some window.

Record admits (l : list OfficialObservation) (st : Admission) : Prop := {
  ad_unique o : o ∈ unique st ↔ o ∈ l;
  ad_receipts n o : receipts st !! n = Some o ↔ o ∈ l ∧ oo_acquisition_sequence o = Some n;
  ad_windows r w : w ∈ default ∅ (windows st !! r) ↔ reported l r w
}.

Section admission.
Lemma admits_new : admits [] Admission_new.
Proof.
  split; unfold Admission_new, reported; simpl.
  - intros o. rewrite elem_of_nil. set_solver.
  - intros n o. rewrite lookup_empty, elem_of_nil. naive_solver.
  - intros r w. rewrite lookup_empty. simpl. setoid_rewrite elem_of_nil. set_solver.
Qed.

Definition record (st : Admission) (o : OfficialObservation) : Admission := {|
  receipts := match oo_acquisition_sequence o with
    | Some n => <[n := o]> (receipts st) | None => receipts st end;
  unique := {[o]} ∪ unique st;
  windows := match oo_window_seconds o, oo_reset_at o with
    | Some w, Some r => record_window (windows st) r w | _, _ => windows st end |}.

Lemma observation_checks o :
  observation_valid o ↔
  negb (in_range 1 MAX_UNIX_SECONDS (oo_lower_at o))
    || negb (in_range (oo_lower_at o) MAX_UNIX_SECONDS (oo_upper_at o)) = false
  ∧ is_some_and (λ reset, negb (in_range 1 MAX_UNIX_SECONDS reset)) (oo_reset_at o)
    || (negb (opt_is_some (oo_reset_at o)) && opt_is_some (oo_window_seconds o)) = false
  ∧ is_some_and (λ window, window <=? 0) (oo_window_seconds o) = false
  ∧ match oo_acquisition_sequence o with
    | Some n => (n =? 0) || negb (oo_lower_at o =? oo_upper_at o) = false
    | None => True
    end.
Proof.
  unfold in_range. split.
  - intros [? ? Hr Hw Hn]. split_and!; [lia| | |].
    + destruct (oo_reset_at o) as [r|]; simpl.
      * specialize (Hr r eq_refl). lia.
      * destruct (oo_window_seconds o) as [w|]; [|done].
        destruct (Hw w eq_refl) as [[] _]. done.
    + destruct (oo_window_seconds o) as [w|]; [|done]. destruct (Hw w eq_refl). simpl. lia.
    + destruct (oo_acquisition_sequence o) as [n|]; [|done]. specialize (Hn n eq_refl). lia.
  - intros (? & Hr & Hw & Hn). split; [lia|lia|..].
    + intros r E. rewrite E in Hr. simpl in Hr. lia.
    + intros w E. rewrite E in Hr, Hw. simpl in Hr, Hw.
      destruct (oo_reset_at o); simpl in Hr; [by split; [|lia]|done].
    + intros n E. rewrite E in Hn. lia.
Qed.

Lemma admit_observation_Ok st o st' :
  admit_observation st o = Ok st' ↔
  observation_valid o ∧ st' = record st o
  ∧ ∀ n p, oo_acquisition_sequence o = Some n → receipts st !! n = Some p → p = o.
Proof.
  rewrite observation_checks. unfold admit_observation, record. rewrite !reject_Ok.
  destruct (oo_acquisition_sequence o) as [n|] eqn:En; rewrite ?reject_Ok.
  - destruct (receipts st !! n) as [p|] eqn:Ep; simpl.
    + rewrite negb_false_iff, bool_decide_eq_true. split.
      * intros (? & ? & ? & ? & -> & [= <-]). split_and!; try done.
        intros ? ? [= <-]. congruence.
      * intros ((? & ? & ? & ?) & -> & Hsame). split_and!; try done. by apply (Hsame n).
    + split.
      * intros (? & ? & ? & ? & _ & [= <-]). split_and!; try done.
        intros ? ? [= <-]. congruence.
      * intros ((? & ? & ? & ?) & -> & Hsame). by split_and!.
  - split.
    + intros (? & ? & ? & [= <-]). by split_and!.
    + intros ((? & ? & ? & ?) & -> & Hsame). by split_and!.
Qed.

Lemma record_admits l st o :
  admits l st → observation_valid o →
  (∀ n p, oo_acquisition_sequence o = Some n → receipts st !! n = Some p → p = o) →
  admits (l ++ [o]) (record st o).
Proof.
  intros [Hu Hr Hw] Hv Hc. split; simpl.
  - intros x. rewrite elem_of_union, elem_of_singleton, Hu, elem_of_app, list_elem_of_singleton.
    tauto.
  - intros n x. rewrite elem_of_app, list_elem_of_singleton.
    destruct (oo_acquisition_sequence o) as [k|] eqn:E; [|rewrite Hr; naive_solver].
    destruct (decide (k = n)) as [->|Hne].
    + rewrite lookup_insert_eq. split; [naive_solver|].
      intros [[Hx| ->] Hn]; [|done]. f_equal. symmetry. eapply Hc; [done|]. by apply Hr.
    + rewrite lookup_insert_ne, Hr by done. naive_solver.
  - intros r w. assert (reported (l ++ [o]) r w ↔ reported l r w
      ∨ oo_reset_at o = Some r ∧ oo_window_seconds o = Some w) as ->.
    { unfold reported. setoid_rewrite elem_of_app. setoid_rewrite list_elem_of_singleton.
      naive_solver. }
    rewrite <-Hw. clear.
    destruct (oo_window_seconds o) as [v|], (oo_reset_at o) as [s|];
      [|split; [by left|by intros [?|[? ?]]]..].
    unfold record_window. destruct (decide (s = r)) as [->|Hne].
    + rewrite lookup_insert_eq. simpl. rewrite elem_of_union, elem_of_singleton.
      split; [by intros [->|?]; [right|left]|intros [?|[_ [= ->]]]; auto].
    + rewrite lookup_insert_ne by done. split; [by left|]. by intros [?|[[= ?] _]].
Qed.

Lemma admit_observations_sound l st l0 st' :
  admits l0 st → admit_observations st l = Ok st' →
  admits (l0 ++ l) st' ∧ Forall observation_valid l ∧ (consistent l0 → consistent (l0 ++ l)).
Proof.
  revert st l0. induction l as [|o l IH]; intros st l0 Ha H; simpl in H.
  - injection H as ->. rewrite app_nil_r. by split_and!.
  - apply bind_Ok in H as (st1 & Ho & H). apply admit_observation_Ok in Ho as (Hv & -> & Hc).
    destruct (IH _ (l0 ++ [o]) (record_admits _ _ _ Ha Hv Hc) H) as (Ha' & Hf & Hcon).
    rewrite <-(assoc_L (++)) in Ha', Hcon. simpl in *.
    split_and!; [done|by constructor|]. intros H0. apply Hcon. clear Hcon IH Ha'.
    assert (∀ x n, x ∈ l0 → oo_acquisition_sequence x = Some n →
      oo_acquisition_sequence o = Some n → x = o) as Hx.
    { intros x n Hx Hn Hon. eapply Hc; [done|]. by apply (ad_receipts _ _ Ha). }
    intros x y n. rewrite !elem_of_app, !list_elem_of_singleton.
    intros [?| ->] [?| ->] ??; [by eapply H0|by eapply Hx|symmetry; by eapply Hx|done].
Qed.
Lemma admit_observations_complete l st l0 :
  admits l0 st → Forall observation_valid l → consistent (l0 ++ l) →
  ∃ st', admit_observations st l = Ok st'.
Proof.
  revert st l0. induction l as [|o l IH]; intros st l0 Ha Hv Hc; simpl; [by eexists|].
  apply Forall_cons in Hv as [Ho Hv].
  assert (admit_observation st o = Ok (record st o)) as E.
  { apply admit_observation_Ok. split_and!; [done..|]. intros n p Hn Hp.
    apply (ad_receipts _ _ Ha) in Hp as [? ?].
    eapply Hc; [by apply elem_of_app; left| |done|done].
    apply elem_of_app; right; apply list_elem_of_here. }
  rewrite E. simpl. apply (IH _ (l0 ++ [o])); [|done|by rewrite <-(assoc_L (++))].
  by apply admit_observation_Ok in E as (? & _ & ?); apply record_admits.
Qed.

Lemma admit_Ok l st :
  admit_observations Admission_new l = Ok st →
  admits l st ∧ Forall observation_valid l ∧ consistent l.
Proof.
  intros H. destruct (admit_observations_sound l _ [] st admits_new H) as (? & ? & Hc).
  split_and!; [done..|]. apply Hc. by intros ? ? ? ?%elem_of_nil.
Qed.
Lemma admit_is_Ok l :
  Forall observation_valid l → consistent l → ∃ st, admit_observations Admission_new l = Ok st.
Proof. apply (admit_observations_complete l _ []), admits_new. Qed.

Lemma component_of_ext w w' o :
  (∀ r, default ∅ (w !! r) = default (∅ : gset Z) (w' !! r)) → component_of w o = component_of w' o.
Proof.
  intros H. unfold component_of. replace (qualified_period w o) with (qualified_period w' o); [done|].
  unfold qualified_period. destruct (oo_window_seconds o) as [v|]; simpl; [|done].
  destruct (oo_reset_at o) as [r|]; simpl; [|done].
  destruct (i64_checked_sub r v); simpl; [|done]. by rewrite H.
Qed.
Lemma components_of_ext l l' st st' :
  admits l st → admits l' st' → (∀ o, o ∈ l ↔ o ∈ l') → components_of st = components_of st'.
Proof.
  intros [Hu Hr Hw] [Hu' Hr' Hw'] Hl. unfold components_of.
  assert (unique st = unique st') as ->.
  { apply set_eq. intros o. by rewrite Hu, Hu'. }
  assert (receipts st = receipts st') as ->.
  { apply map_eq. intros n. apply option_eq. intros o. by rewrite Hr, Hr', Hl. }
  f_equal. apply map_ext. intros o. apply component_of_ext. intros r.
  apply set_eq. intros w. rewrite Hw, Hw'. unfold reported. by setoid_rewrite Hl.
Qed.
End admission.

(** ** What an observation proves *)
Definition observed_bounds (o : OfficialObservation) : Bounds := {|
  b_lower := oo_lower_at o; b_upper := oo_upper_at o |}.
(** [o] proves [p] among the observations [l]: its reset was reported with one
    window only, the origin is a real instant, and [o] was made in the period. *)
Definition proves (l : list OfficialObservation) (o : OfficialObservation) (p : OfficialPeriod) :
    Prop :=
  oo_reset_at o = Some (op_reset_at p) ∧ oo_window_seconds o = Some (op_window_seconds p)
  ∧ 1 ≤ op_origin p ∧ (∀ w, reported l (op_reset_at p) w → w = op_window_seconds p)
  ∧ b_valid (clip (observed_bounds o) p).
Definition observed (l : list OfficialObservation) (own : Z) (p : OfficialPeriod) (b : Bounds) :
    Prop :=
  ∃ o, o ∈ l ∧ oo_ownership_interval o = own ∧ proves l o p ∧ b = clip (observed_bounds o) p.

Section qualified.
Context (l : list OfficialObservation) (st : Admission) (Hst : admits l st).

Lemma qualified_period_Some o p :
  o ∈ l → observation_valid o →
  qualified_period (windows st) o = Some p ↔
  oo_reset_at o = Some (op_reset_at p) ∧ oo_window_seconds o = Some (op_window_seconds p)
  ∧ 1 ≤ op_origin p ∧ ∀ w, reported l (op_reset_at p) w → w = op_window_seconds p.
Proof.
  intros Hin [_ _ Hr Hw _]. unfold qualified_period, op_origin. split.
  - intros H. destruct (oo_window_seconds o) as [w|] eqn:Ew; simpl in H; [|done].
    destruct (oo_reset_at o) as [r|] eqn:Er; simpl in H; [|done].
    destruct (i64_checked_sub r w) as [g|] eqn:Eg; simpl in H; [|done].
    apply i64_checked_sub_Some in Eg as [-> _]. apply then_some_Some in H as [H ->]. simpl.
    apply andb_true_iff in H as [? Hs]. split_and!; [done..|lia|].
    intros v Hv. apply (ad_windows _ _ Hst) in Hv.
    assert (w ∈ default ∅ (windows st !! r)) as Hw' by (apply (ad_windows _ _ Hst); by exists o).
    apply Nat.eqb_eq, size_1_elem_of in Hs as [x Hs].
    apply Hs, elem_of_singleton in Hv. apply Hs, elem_of_singleton in Hw'. congruence.
  - intros (Er & Ew & Ho & Hall). rewrite Er, Ew in *. simpl.
    destruct (Hw _ eq_refl) as [_ ?]. specialize (Hr _ eq_refl). unfold MAX_UNIX_SECONDS in *.
    rewrite (proj2 (i64_checked_sub_Some _ _ (op_reset_at p - op_window_seconds p)))
      by (split; [done|width]). simpl.
    apply then_some_Some. split; [|by destruct p]. apply andb_true_iff. split; [lia|].
    apply Nat.eqb_eq. replace (default ∅ (windows st !! op_reset_at p))
      with ({[op_window_seconds p]} : gset Z); [apply size_singleton|].
    apply set_eq. intros w. rewrite (ad_windows _ _ Hst), elem_of_singleton.
    split; [intros ->; by exists o|apply Hall].
Qed.

Lemma component_of_period o p :
  o ∈ l → observation_valid o →
  cp_period (component_of (windows st) o) = Some p ↔ proves l o p.
Proof.
  intros Hin Hv. unfold component_of, proves.
  destruct (qualified_period (windows st) o) as [q|] eqn:E.
  - apply (qualified_period_Some o q Hin Hv) in E as (Er & Ew & ? & ?).
    fold (observed_bounds o).
    destruct (Z.leb_spec (b_lower (clip (observed_bounds o) q))
      (b_upper (clip (observed_bounds o) q))) as [Hc|Hc]; simpl; split.
    + intros [= ->]. by split_and!.
    + intros (Er' & Ew' & _). destruct p, q; simpl in *. congruence.
    + done.
    + intros (Er' & Ew' & _ & _ & Hb). assert (p = q) as -> by (destruct p, q; simpl in *; congruence).
      unfold b_valid in Hb. lia.
  - simpl. split; [done|]. intros (? & ? & ? & ? & _).
    rewrite (proj2 (qualified_period_Some o p Hin Hv)) in E by done. done.
Qed.

Lemma component_of_bounds o :
  cp_bounds (component_of (windows st) o) =
    match cp_period (component_of (windows st) o) with
    | Some p => clip (observed_bounds o) p
    | None => observed_bounds o
    end
  ∧ cp_ownership_interval (component_of (windows st) o) = oo_ownership_interval o.
Proof.
  unfold component_of. destruct (qualified_period _ o) as [q|]; [|done].
  by destruct (_ <=? _).
Qed.

Lemma component_of_valid o :
  o ∈ l → observation_valid o → cp_valid (component_of (windows st) o).
Proof.
  intros Hin Hv. unfold cp_valid. destruct (component_of_bounds o) as [-> _].
  destruct (cp_period _) as [p|] eqn:E.
  - apply component_of_period in E; [|done..]. by destruct E as (_ & _ & _ & _ & ?).
  - destruct Hv. unfold b_valid. simpl. lia.
Qed.
End qualified.

(** ** Clock reversals *)
Section clock.
Lemma reversals_valid pt rs : Forall (λ c, cp_valid c ∧ cp_period c = None) (reversals pt rs).
Proof.
  revert pt. induction rs as [|o rs IH]; intros pt; simpl; [constructor|].
  apply Forall_app. split; [|done]. destruct (pt !! _) as [q|]; [|constructor].
  destruct (Z.ltb_spec (oo_lower_at o) q); [|constructor].
  constructor; [|constructor]. split; [|done]. unfold cp_valid, b_valid. simpl. lia.
Qed.

(** After a reading at or above [t], a later lower one crosses [t]. *)
Lemma reversals_cross pt rs own a y t :
  pt !! own = Some a → y ∈ rs → oo_ownership_interval y = own →
  oo_lower_at y ≤ t ≤ a → oo_lower_at y < a →
  ∃ c, c ∈ reversals pt rs ∧ cp_at c own t.
Proof.
  revert pt a. induction rs as [|z rs IH]; intros pt a Hpt Hy Hown Ht Hlt.
  { by apply elem_of_nil in Hy. }
  cbn [reversals]. setoid_rewrite elem_of_app.
  destruct (decide (oo_ownership_interval z = own)) as [Hz|Hz].
  - destruct (decide (oo_lower_at z ≤ t ∧ oo_lower_at z < a)) as [[? Hza]|Hno].
    + rewrite Hz, Hpt. rewrite (proj2 (Z.ltb_lt _ _) Hza). eexists. split.
      * left. apply list_elem_of_here.
      * split; [done|]. unfold b_contains. simpl. lia.
    + apply elem_of_cons in Hy as [->|Hy]; [lia|].
      destruct (IH (<[oo_ownership_interval z:=oo_lower_at z]> pt) (oo_lower_at z))
        as (c & ? & ?); [by rewrite Hz, lookup_insert_eq|done|done|lia|lia|].
      exists c. by split; [right|].
  - apply elem_of_cons in Hy as [->|Hy]; [done|].
    destruct (IH (<[oo_ownership_interval z:=oo_lower_at z]> pt) a) as (c & ? & ?);
      [by rewrite lookup_insert_ne|done..|]. exists c. by split; [right|].
Qed.
Lemma reversals_from pt rs1 x rs2 own y t :
  y ∈ rs2 → oo_ownership_interval x = own → oo_ownership_interval y = own →
  oo_lower_at y ≤ t ≤ oo_lower_at x → oo_lower_at y < oo_lower_at x →
  ∃ c, c ∈ reversals pt (rs1 ++ x :: rs2) ∧ cp_at c own t.
Proof.
  intros Hy Hx Hown Ht Hlt. revert pt. induction rs1 as [|z rs1 IH]; intros pt;
    cbn [reversals app]; setoid_rewrite elem_of_app.
  - destruct (reversals_cross (<[oo_ownership_interval x:=oo_lower_at x]> pt) rs2 own
      (oo_lower_at x) y t) as (c & ? & ?); try done; [by rewrite Hx, lookup_insert_eq|].
    exists c. by split; [right|].
  - destruct (IH (<[oo_ownership_interval z:=oo_lower_at z]> pt)) as (c & ? & ?).
    exists c. by split; [right|].
Qed.

Lemma receipts_split (m : gmap Z OfficialObservation) n k x y :
  m !! n = Some x → m !! k = Some y → n < k →
  ∃ l1 l2, receipts_in_order m = l1 ++ x :: l2 ∧ y ∈ l2.
Proof.
  intros Hx Hy Hlt. unfold receipts_in_order.
  pose proof (sort_by_sorted receipt_leb ltac:(unfold receipt_leb; lia)
    ltac:(unfold receipt_leb; lia) (map_to_list m)) as Hs.
  assert ((n, x) ∈ sort_by receipt_leb (map_to_list m)) as Hin
    by (by apply sort_by_elem, elem_of_map_to_list).
  assert ((k, y) ∈ sort_by receipt_leb (map_to_list m)) as Hin'
    by (by apply sort_by_elem, elem_of_map_to_list).
  apply list_elem_of_split in Hin as (l1 & l2 & E). rewrite E in *.
  exists (map snd l1), (map snd l2). rewrite map_app. split; [done|].
  apply elem_of_app in Hin' as [Hl|[[= -> ->]|Hr]%elem_of_cons].
  - exfalso. clear E. induction l1 as [|z l1 IH]; [by apply elem_of_nil in Hl|].
    apply StronglySorted_inv in Hs as [Hs Hz].
    apply elem_of_cons in Hl as [<-|Hl]; [|by apply IH].
    apply Forall_app in Hz as [_ [Hz _]%Forall_cons]. unfold receipt_leb in Hz. simpl in Hz. lia.
  - lia.
  - apply list_elem_of_fmap. by exists (k, y).
Qed.
End clock.

(** ** The timeline of a set of observations *)
Section observations.
Context (l : list OfficialObservation) (tl : AttributionTimeline).
Context (Htl : from_observations l = Ok tl).

Lemma from_observations_Ok :
  ∃ st, tl = timeline_of (components_of st) ∧ admits l st ∧ Forall observation_valid l.
Proof.
  unfold from_observations in Htl. apply bind_Ok in Htl as (st & H & [= <-]).
  exists st. apply admit_Ok in H as (? & ? & _). by split_and!.
Qed.

Lemma elem_of_components st c :
  admits l st → c ∈ components_of st ↔
  (∃ o, o ∈ l ∧ c = component_of (windows st) o)
  ∨ c ∈ reversals ∅ (receipts_in_order (receipts st)).
Proof.
  intros Hst. unfold components_of. rewrite elem_of_app, list_elem_of_fmap.
  setoid_rewrite sort_by_elem. setoid_rewrite elem_of_elements.
  setoid_rewrite (ad_unique _ _ Hst). naive_solver.
Qed.

Lemma components_valid st :
  admits l st → Forall observation_valid l → Forall cp_valid (components_of st).
Proof.
  intros Hst Hv. apply Forall_forall. intros c [(o & Ho & ->)|Hc]%elem_of_components; [| |done].
  - rewrite Forall_forall in Hv. by eapply component_of_valid, Hv.
  - pose proof (reversals_valid ∅ (receipts_in_order (receipts st))) as Hr.
    rewrite Forall_forall in Hr. by apply Hr.
Qed.

Lemma timeline_wf_of : timeline_wf tl.
Proof.
  destruct from_observations_Ok as (st & -> & Hst & Hv). by apply timeline_of_wf, components_valid.
Qed.

Lemma observed_evidence st own p b :
  admits l st → Forall observation_valid l →
  evidence (components_of st) own p b → observed l own p b.
Proof.
  intros Hst Hv (c & Hc & Hown & Hp & Hb). rewrite Forall_forall in Hv.
  apply (elem_of_components st c Hst) in Hc as [(o & Ho & ->)|Hc].
  - destruct (component_of_bounds st o) as [Eb Eo]. rewrite Hp in Eb.
    exists o. split_and!; [done|congruence| |congruence].
    eapply component_of_period; [done..|by apply Hv|done].
  - pose proof (reversals_valid ∅ (receipts_in_order (receipts st))) as Hr.
    rewrite Forall_forall in Hr. specialize (Hr c Hc) as [_ ?]. congruence.
Qed.

(** Everything known about an attributed instant. *)
Lemma period_at_inv own t p :
  period_at tl t own = Some p → ∃ st, admits l st ∧ Forall observation_valid l ∧
    op_origin p ≤ t < op_reset_at p
    ∧ (∀ c, c ∈ components_of st → cp_at c own t → cp_period c = Some p)
    ∧ proved_from (observed l own) p t ∧ proved_until (observed l own) p t
    ∧ ∃ b, observed l own p b.
Proof.
  intros H. apply period_at_Some in H as (s & Hs & [Ho Ht] & ->); [|apply timeline_wf_of].
  pose proof timeline_wf_of as [_ Hw]. rewrite Forall_forall in Hw. specialize (Hw s Hs).
  destruct from_observations_Ok as (st & E & Hst & Hv). rewrite E in Hs. exists st.
  destruct (timeline_of_sound _ (components_valid st Hst Hv) s t Hs Ht)
    as (Hc & Hf & Hu & b & He). rewrite Ho in *.
  assert (∀ q x, evidence (components_of st) own q x → observed l own q x) as Hev
    by (intros; by eapply observed_evidence).
  split_and!; [done|done|unfold span_wf, b_contains in *; lia|unfold span_wf, b_contains in *; lia
    |done|eapply proved_from_impl; [|done]; eauto|eapply proved_until_impl; [|done]; eauto|eauto].
Qed.
End observations.

(** C1. No attribution against the evidence: an observation of the owner whose
    bounds contain an attributed instant proves the very period attributed,
    unless the period it proves excludes the instant. So conflicting, unqualified
    and window-less observations block attribution for their whole extent. *)
Theorem attribution_agrees_with_observations l tl own t p o :
  from_observations l = Ok tl → period_at tl t own = Some p →
  o ∈ l → oo_ownership_interval o = own → oo_lower_at o ≤ t ≤ oo_upper_at o →
  proves l o p ∨ ∃ q, proves l o q ∧ ¬ (op_origin q ≤ t < op_reset_at q).
Proof.
  intros Htl Hp Ho Hown Ht.
  destruct (period_at_inv l tl Htl own t p Hp) as (st & Hst & Hv & _ & Hc & _).
  rewrite Forall_forall in Hv.
  specialize (Hv o Ho). destruct (component_of_bounds st o) as [Eb Eo].
  specialize (Hc (component_of (windows st) o)).
  rewrite (elem_of_components l st _ Hst) in Hc.
  specialize (Hc ltac:(left; by exists o)). unfold cp_at in Hc. rewrite Eb, Eo in Hc.
  destruct (cp_period (component_of (windows st) o)) as [q|] eqn:E.
  - apply (component_of_period l st Hst o q Ho Hv) in E.
    destruct (decide (op_origin q ≤ t < op_reset_at q)) as [Hq|]; [left|right; by exists q].
    assert (Some q = Some p) as [= ->]; [|done]. apply Hc. split; [done|].
    unfold b_contains. simpl. lia.
  - assert (None = Some p); [|done]. by apply Hc.
Qed.

(** No extrapolation: an attributed instant lies in the official window of
    its period, the owner observed that period, and the instant is enclosed: on
    each side lies an observation of the period, or the official origin that
    separates it from another observed period. *)
Theorem attribution_is_enclosed l tl own t p :
  from_observations l = Ok tl → period_at tl t own = Some p →
  op_origin p ≤ t < op_reset_at p
  ∧ (∃ b, observed l own p b)
  ∧ proved_from (observed l own) p t ∧ proved_until (observed l own) p t.
Proof.
  intros Htl Hp.
  destruct (period_at_inv l tl Htl own t p Hp) as (st & _ & _ & ? & _ & ? & ? & ?).
  done.
Qed.

(** Clock reversals are never hidden by sorting: when a later receipt of an
    owner was taken at an earlier time, no instant between the two times is
    attributed to any period. *)
Theorem reversed_clock_is_unattributed l tl own t x y n k :
  from_observations l = Ok tl →
  x ∈ l → y ∈ l → oo_ownership_interval x = own → oo_ownership_interval y = own →
  oo_acquisition_sequence x = Some n → oo_acquisition_sequence y = Some k → n < k →
  oo_lower_at y < oo_lower_at x → oo_lower_at y ≤ t ≤ oo_lower_at x →
  period_at tl t own = None.
Proof.
  intros Htl Hx Hy Hxo Hyo Hn Hk Hnk Hlt Ht.
  destruct (period_at tl t own) as [p|] eqn:Hp; [exfalso|done].
  destruct (period_at_inv l tl Htl own t p Hp) as (st & Hst & _ & _ & Hc & _).
  destruct (receipts_split (receipts st) n k x y) as (l1 & l2 & E & Hin);
    [by apply (ad_receipts _ _ Hst)..|done|].
  destruct (reversals_from ∅ l1 x l2 own y t Hin Hxo Hyo Ht Hlt) as (c & Hcin & Hat).
  rewrite <-E in Hcin. pose proof (reversals_valid ∅ (receipts_in_order (receipts st))) as Hr.
  rewrite Forall_forall in Hr. specialize (Hr c Hcin) as [_ Hr].
  rewrite (Hc c) in Hr; [done| |done]. apply (elem_of_components l); [done|by right].
Qed.

(** Only the set of observations matters: reordering or repeating them
    changes neither whether they are accepted nor the timeline. *)
Theorem from_observations_set l l' :
  (∀ o, o ∈ l ↔ o ∈ l') →
  result_ok (from_observations l) = result_ok (from_observations l').
Proof.
  intros Hl. assert (∀ a b tl, (∀ o, o ∈ a ↔ o ∈ b) → from_observations a = Ok tl →
    from_observations b = Ok tl) as Hone.
  { intros a b tl Hab H. unfold from_observations in *.
    apply bind_Ok in H as (st & H & [= <-]). apply admit_Ok in H as (Hst & Hv & Hc).
    destruct (admit_is_Ok b) as (st' & E).
    - rewrite Forall_forall in *. intros o Ho. by apply Hv, Hab.
    - intros x y n Hx Hy. apply Hc; by apply Hab.
    - rewrite E. simpl. apply admit_Ok in E as (Hst' & _).
      by rewrite (components_of_ext b a st' st). }
  destruct (from_observations l) as [tl|e] eqn:E.
  - by rewrite (Hone l l' tl Hl E).
  - destruct (from_observations l') as [tl'|e'] eqn:E'; [|done].
    rewrite (Hone l' l tl') in E; [done|by intros; rewrite Hl|done].
Qed.

(** The spans of a timeline are disjoint, sorted and inside their official
    windows, and [attribution_at] finds exactly the span that contains the
    instant, if there is one. *)
Theorem attribution_at_is_lookup l tl own t p lo hi :
  from_observations l = Ok tl →
  timeline_wf tl
  ∧ (attribution_at tl t own = Some (p, lo, hi) ↔
     ∃ s, s ∈ spans tl ∧ span_at s own t ∧ p = sp_period s
          ∧ lo = b_lower (sp_bounds s) ∧ hi = b_upper (sp_bounds s)).
Proof.
  intros H. pose proof (timeline_wf_of l tl H). split; [done|]. by apply attribution_at_Some.
Qed.

(** ** Changed ranges *)
Definition in_ranges (rs : list (Z * Z)) (t : Z) : Prop := ∃ r, r ∈ rs ∧ r.1 ≤ t ≤ r.2.
(** Spans on the calendar: saturation of the successor cannot happen. *)
Definition on_calendar (s : AttributedSpan) : Prop :=
  1 ≤ b_lower (sp_bounds s) ∧ b_upper (sp_bounds s) < MAX_UNIX_SECONDS.
Definition normalised (rs : list (Z * Z)) : Prop :=
  Forall (λ r, r.1 ≤ r.2) rs ∧ StronglySorted (λ r r', r.2 + 1 < r'.1) rs.

Section ranges.
Lemma succ_in_range u : 0 ≤ u ≤ MAX_UNIX_SECONDS → i64_saturating_add u 1 = u + 1.
Proof. unfold i64_saturating_add, MAX_UNIX_SECONDS. width. Qed.

Lemma in_ranges_nil t : ¬ in_ranges [] t.
Proof. by intros (r & ?%elem_of_nil & _). Qed.
Lemma in_ranges_cons r rs t : in_ranges (r :: rs) t ↔ r.1 ≤ t ≤ r.2 ∨ in_ranges rs t.
Proof. unfold in_ranges. setoid_rewrite elem_of_cons. naive_solver. Qed.
Lemma in_ranges_app rs rs' t : in_ranges (rs ++ rs') t ↔ in_ranges rs t ∨ in_ranges rs' t.
Proof. unfold in_ranges. setoid_rewrite elem_of_app. naive_solver. Qed.

Definition range_ok (r : Z * Z) : Prop := 1 ≤ r.1 ≤ r.2 ∧ r.2 ≤ MAX_UNIX_SECONDS.

(** Merging keeps the instants and leaves gaps. *)
Lemma merge_ranges_from_spec rs last :
  range_ok last → Forall range_ok rs →
  StronglySorted (λ a b, range_leb a b = true) (last :: rs) →
  normalised (merge_ranges_from last rs)
  ∧ Forall (λ r, last.1 ≤ r.1) (merge_ranges_from last rs)
  ∧ ∀ t, in_ranges (merge_ranges_from last rs) t ↔ in_ranges (last :: rs) t.
Proof.
  revert last. induction rs as [|[lo up] rs IH]; intros last Hl Hrs Hs; simpl.
  - split_and!; [|by repeat constructor|done].
    split; repeat constructor. unfold range_ok in Hl. lia.
  - apply Forall_cons in Hrs as [Hr Hrs]. unfold range_ok in Hl, Hr. simpl in Hr.
    apply StronglySorted_inv in Hs as [Hs Hf].
    pose proof Hf as [Hle Hf']%Forall_cons. unfold range_leb in Hle. simpl in Hle.
    rewrite succ_in_range by lia. destruct (Z.leb_spec lo (last.2 + 1)) as [Hj|Hj].
    + destruct (IH (last.1, Z.max last.2 up)) as (Hn & Hst & Hin); [unfold range_ok; simpl; lia|done| |].
      { apply StronglySorted_inv in Hs as [Hs Hup]. constructor; [done|].
        rewrite Forall_forall in Hf', Hup |- *. intros r Hrin. specialize (Hf' r Hrin).
        specialize (Hup r Hrin). unfold range_leb in *. simpl in *.
        destruct (Z.max_spec last.2 up) as [[_ ->]|[_ ->]]; lia. }
      split_and!; [done|done|]. intros t. rewrite Hin, !in_ranges_cons. simpl. intuition lia.
    + destruct (IH (lo, up)) as ([Hn Hn'] & Hst & Hin); [done|done|done|].
      split_and!.
      * split; constructor; [lia|done|done|]. eapply Forall_impl; [exact Hst|]. simpl. lia.
      * constructor; [lia|]. eapply Forall_impl; [exact Hst|]. simpl. lia.
      * intros t. rewrite in_ranges_cons, Hin. by rewrite <-in_ranges_cons.
Qed.
Lemma merge_ranges_spec rs :
  Forall range_ok rs →
  normalised (merge_ranges (sort_by range_leb rs))
  ∧ ∀ t, in_ranges (merge_ranges (sort_by range_leb rs)) t ↔ in_ranges rs t.
Proof.
  intros Hok. rewrite <-(sort_by_perm range_leb) in Hok.
  pose proof (sort_by_sorted range_leb ltac:(unfold range_leb; lia)
    ltac:(unfold range_leb; lia) rs) as Hs.
  assert (∀ t, in_ranges (sort_by range_leb rs) t ↔ in_ranges rs t) as Hin.
  { intros t. unfold in_ranges. by setoid_rewrite sort_by_elem. }
  destruct (sort_by range_leb rs) as [|r l]; simpl; [split; [by repeat constructor|done]|].
  apply Forall_cons in Hok as [? ?].
  destruct (merge_ranges_from_spec l r) as (? & _ & Hmi); [done..|].
  split; [done|]. intros t. by rewrite Hmi.
Qed.

(** The uncovered part of a span, past the disjoint older spans it contains. *)
Lemma uncovered_spec lo up olds t :
  StronglySorted sp_before olds →
  Forall (λ s, on_calendar s ∧ b_valid (sp_bounds s)) olds →
  (∀ s s', s ∈ olds → s' ∈ olds → sp_ownership_interval s = sp_ownership_interval s') →
  Forall (λ s, b_upper (sp_bounds s) ≤ up) olds →
  in_ranges (uncovered lo up olds) t ↔
  lo ≤ t ≤ up ∧ ∀ s, s ∈ olds → ¬ b_contains (sp_bounds s) t.
Proof.
  intros Hs. revert lo. induction Hs as [|s olds Hs IH Hsb]; intros lo Hc Hown Hup; simpl.
  - destruct (Z.leb_spec lo up); rewrite ?in_ranges_cons; simpl; split.
    + intros [?|Hn%in_ranges_nil]; [|done]. split; [done|]. by intros ? ?%elem_of_nil.
    + intros [? _]. by left.
    + by intros Hn%in_ranges_nil.
    + intros [? _]. lia.
  - apply Forall_cons in Hc as [[[? ?] ?] Hc], Hup as [? Hup].
    rewrite succ_in_range by (unfold b_valid in *; lia).
    rewrite in_ranges_app, IH; try done.
    2: { intros x y Hx Hy. apply Hown; by apply list_elem_of_further. }
    setoid_rewrite elem_of_cons.
    assert (∀ x, x ∈ olds → b_upper (sp_bounds s) < b_lower (sp_bounds x)) as Hgap.
    { intros x Hx. rewrite Forall_forall in Hsb. specialize (Hsb x Hx).
      assert (sp_ownership_interval s = sp_ownership_interval x)
        by (apply Hown; [apply list_elem_of_here|by apply list_elem_of_further]).
      unfold sp_before, before in Hsb. lia. }
    assert (in_ranges (if lo <? b_lower (sp_bounds s)
        then [(lo, b_lower (sp_bounds s) - 1)] else []) t ↔ lo ≤ t < b_lower (sp_bounds s)) as ->.
    { destruct (Z.ltb_spec lo (b_lower (sp_bounds s))).
      - rewrite in_ranges_cons. simpl. split; [intros [?|H'%in_ranges_nil]; [lia|done]|lia].
      - split; [by intros H'%in_ranges_nil|lia]. }
    unfold b_valid, b_contains in *. split.
    + intros [Ht|[Ht Hno]].
      * split; [lia|]. intros x [->|Hx]; [lia|]. specialize (Hgap x Hx). lia.
      * split; [lia|]. intros x [->|Hx]; [lia|]. by apply Hno.
    + intros [Ht Hno]. destruct (decide (t < b_lower (sp_bounds s))); [left; lia|right].
      specialize (Hno s (or_introl eq_refl)) as Hns. split; [lia|]. intros x Hx. by apply Hno; right.
Qed.
End ranges.

Lemma spans_on_calendar l tl s :
  from_observations l = Ok tl → s ∈ spans tl → on_calendar s.
Proof.
  intros Htl Hs. pose proof (timeline_wf_of l tl Htl) as Hwf.
  pose proof Hwf as [_ Hw]. rewrite Forall_forall in Hw. destruct (Hw s Hs) as (? & ? & ?).
  destruct (period_at_inv l tl Htl (sp_ownership_interval s) (b_lower (sp_bounds s)) (sp_period s))
    as (st & _ & Hv & _ & _ & _ & _ & b & o & Ho & _ & (Hr & _ & ? & _) & _).
  { apply period_at_Some; [done|]. exists s. split_and!; [done| |done].
    split; [done|]. unfold b_valid, b_contains in *. lia. }
  rewrite Forall_forall in Hv. apply (ov_reset o (Hv o Ho)) in Hr.
  unfold on_calendar in *. lia.
Qed.

Section changes.
Context (self previous : AttributionTimeline).
Context (Hself : timeline_wf self) (Hprev : timeline_wf previous).
Context (Hcal : ∀ s, s ∈ spans self ∨ s ∈ spans previous → on_calendar s).

Lemma span_contains_true new old :
  span_contains new old = true ↔
  sp_ownership_interval new = sp_ownership_interval old ∧ sp_period new = sp_period old
  ∧ b_lower (sp_bounds new) ≤ b_lower (sp_bounds old)
  ∧ b_upper (sp_bounds old) ≤ b_upper (sp_bounds new).
Proof.
  unfold span_contains. rewrite !andb_true_iff, bool_decide_eq_true, Z.eqb_eq, !Z.leb_le. tauto.
Qed.

Lemma added_spec new t :
  new ∈ spans self →
  in_ranges (uncovered (b_lower (sp_bounds new)) (b_upper (sp_bounds new))
    (List.filter (span_contains new) (spans previous))) t ↔
  b_contains (sp_bounds new) t
  ∧ ∀ old, old ∈ spans previous → span_contains new old = true → ¬ b_contains (sp_bounds old) t.
Proof.
  intros Hnew. destruct Hprev as [Hs Hw]. rewrite Forall_forall in Hw. rewrite uncovered_spec.
  - setoid_rewrite elem_of_filter_bool. unfold b_contains. naive_solver.
  - by apply StronglySorted_filter_bool.
  - apply Forall_forall. intros s [? _]%elem_of_filter_bool.
    split; [by apply Hcal; right|by apply Hw].
  - intros s s' [_ H]%elem_of_filter_bool [_ H']%elem_of_filter_bool.
    apply span_contains_true in H as [? _], H' as [? _]. congruence.
  - apply Forall_forall. intros s [_ H]%elem_of_filter_bool.
    apply span_contains_true in H. tauto.
Qed.

Lemma uncovered_ok olds lo up :
  1 ≤ lo → up ≤ MAX_UNIX_SECONDS →
  Forall (λ s, on_calendar s ∧ b_valid (sp_bounds s)) olds →
  Forall range_ok (uncovered lo up olds).
Proof.
  intros Hlo Hup Hc. revert lo Hlo.
  induction Hc as [|s olds [[? ?] ?] _ IH]; intros lo Hlo; simpl.
  - destruct (Z.leb_spec lo up); constructor; [|constructor]. unfold range_ok. simpl. lia.
  - apply Forall_app. split; [|apply IH; lia].
    destruct (Z.ltb_spec lo (b_lower (sp_bounds s))); constructor; [|constructor].
    unfold range_ok, b_valid in *. simpl. lia.
Qed.

Lemma spans_ok tl s : (tl = self ∨ tl = previous) → s ∈ spans tl →
  on_calendar s ∧ b_valid (sp_bounds s).
Proof.
  intros Htl Hs. split; [apply Hcal; destruct Htl as [->| ->]; tauto|].
  destruct Hself as [_ Hw], Hprev as [_ Hw']. rewrite Forall_forall in Hw, Hw'.
  destruct Htl as [->| ->]; [by apply (Hw s Hs)|by apply (Hw' s Hs)].
Qed.

Lemma changed_ranges_spec :
  normalised (changed_ranges self previous)
  ∧ ∀ t, in_ranges (changed_ranges self previous) t ↔
    (∃ old, old ∈ spans previous ∧ b_contains (sp_bounds old) t
       ∧ ∀ new, new ∈ spans self → span_contains new old = false)
    ∨ (∃ new, new ∈ spans self ∧ b_contains (sp_bounds new) t
       ∧ ∀ old, old ∈ spans previous → span_contains new old = true →
           ¬ b_contains (sp_bounds old) t).
Proof.
  unfold changed_ranges. cbv zeta.
  set (dropped := map _ _). set (added := flat_map _ _).
  assert (Forall range_ok (dropped ++ added)) as Hok.
  { apply Forall_app. split; apply Forall_forall; intros r Hr.
    - apply list_elem_of_fmap in Hr as (s & -> & [Hs _]%elem_of_filter_bool).
      destruct (spans_ok previous s) as [[? ?] ?]; [by right|done|].
      unfold range_ok, b_valid in *. simpl. lia.
    - apply list_elem_of_In, in_flat_map in Hr as (s & Hs%list_elem_of_In & Hr%list_elem_of_In).
      destruct (spans_ok self s) as [[? ?] ?]; [by left|done|]. revert r Hr.
      apply Forall_forall, uncovered_ok; [done|lia|].
      apply Forall_forall. intros x [Hx _]%elem_of_filter_bool. apply (spans_ok previous); auto. }
  destruct (merge_ranges_spec _ Hok) as [Hn Hin]. split; [done|]. intros t.
  rewrite Hin, in_ranges_app. f_equiv.
  - unfold in_ranges, dropped. setoid_rewrite list_elem_of_fmap.
    setoid_rewrite elem_of_filter_bool. setoid_rewrite negb_true_iff.
    setoid_rewrite existsb_false_Forall. setoid_rewrite Forall_forall. unfold b_contains. split.
    + intros (r & (old & -> & ? & ?) & ?). by exists old.
    + intros (old & ? & ? & ?). eexists. split; [by exists old|done].
  - assert (in_ranges added t ↔ ∃ new, new ∈ spans self ∧ in_ranges
      (uncovered (b_lower (sp_bounds new)) (b_upper (sp_bounds new))
        (List.filter (span_contains new) (spans previous))) t) as ->.
    { unfold in_ranges, added. setoid_rewrite list_elem_of_In at 1.
      setoid_rewrite in_flat_map. setoid_rewrite <-list_elem_of_In. naive_solver. }
    split; intros (new & Hnew & H); exists new; (split; [done|]); by apply added_spec.
Qed.
End changes.

(** The changed ranges are disjoint, sorted and never adjacent, and they
    hold exactly the instants of the old spans that no new span supports any more
    and the instants that new spans cover beyond the old spans they keep. *)
Theorem changed_ranges_exact l l' self previous t :
  from_observations l = Ok self → from_observations l' = Ok previous →
  normalised (changed_ranges self previous)
  ∧ (in_ranges (changed_ranges self previous) t ↔
     (∃ old, old ∈ spans previous ∧ b_contains (sp_bounds old) t
        ∧ ∀ new, new ∈ spans self → span_contains new old = false)
     ∨ (∃ new, new ∈ spans self ∧ b_contains (sp_bounds new) t
        ∧ ∀ old, old ∈ spans previous → span_contains new old = true →
            ¬ b_contains (sp_bounds old) t)).
Proof.
  intros H H'. destruct (changed_ranges_spec self previous) as [? Hin].
  - by eapply timeline_wf_of.
  - by eapply timeline_wf_of.
  - intros s [Hs|Hs];
      [by apply (spans_on_calendar l self)|by apply (spans_on_calendar l' previous)].
  - split; [done|apply Hin].
Qed.

(** Revisiting the changed ranges is enough: where an instant of any owner
    is attributed differently by the new timeline, it lies in a changed range. *)
Theorem changed_ranges_complete l l' self previous own t :
  from_observations l = Ok self → from_observations l' = Ok previous →
  period_at self t own ≠ period_at previous t own →
  in_ranges (changed_ranges self previous) t.
Proof.
  intros H H' Hne. pose proof (timeline_wf_of l self H) as Hw.
  pose proof (timeline_wf_of l' previous H') as Hw'.
  destruct (changed_ranges_spec self previous) as [_ Hin]; [done..| |].
  { intros s [Hs|Hs];
      [by apply (spans_on_calendar l self)|by apply (spans_on_calendar l' previous)]. }
  apply Hin. destruct (period_at previous t own) as [p|] eqn:Ep.
  - apply period_at_Some in Ep as (old & Hold & [Ho Ht] & ->); [|done].
    destruct (existsb (λ new, span_contains new old) (spans self)) eqn:E.
    + apply existsb_Exists, Exists_exists in E as (new & Hnew & Hc).
      apply span_contains_true in Hc as (? & Hp & ? & ?). destruct Hne.
      apply period_at_Some; [done|]. exists new. split_and!; [done| |congruence].
      split; [congruence|]. unfold b_contains in *. lia.
    + left. exists old. split_and!; [done..|]. intros new Hnew.
      apply existsb_false_Forall in E. rewrite Forall_forall in E. by apply E.
  - destruct (period_at self t own) as [p|] eqn:Es; [|done].
    apply period_at_Some in Es as (new & Hnew & [Ho Ht] & ->); [|done].
    right. exists new. split_and!; [done..|]. intros old Hold Hc Hin'.
    apply span_contains_true in Hc as (Hown & _).
    assert (period_at previous t own = Some (sp_period old)) as E'; [|congruence].
    apply period_at_Some; [done|]. exists old. split_and!; [done| |done].
    split; [congruence|done].
Qed.

(** ** Concrete timelines, from the scenarios of the source's tests *)
Definition point (time reset : Z) (window : option Z) (sequence : Z) : OfficialObservation := {|
  oo_lower_at := time; oo_upper_at := time; oo_reset_at := Some reset;
  oo_window_seconds := window; oo_acquisition_sequence := Some sequence;
  oo_ownership_interval := 1 |}.
Definition bounded (lower upper reset window : Z) : OfficialObservation := {|
  oo_lower_at := lower; oo_upper_at := upper; oo_reset_at := Some reset;
  oo_window_seconds := Some window; oo_acquisition_sequence := None;
  oo_ownership_interval := 1 |}.
Definition timeline (l : list OfficialObservation) : AttributionTimeline :=
  default {| spans := [] |} (result_ok (from_observations l)).
Definition resets_at (l : list OfficialObservation) (ts : list Z) : list (option Z) :=
  map (λ t, op_reset_at <$> period_at (timeline l) t 1) ts.

Example stable :
  resets_at [point 600 1000 (Some 500) 1; point 700 1000 (Some 500) 2] [599; 600; 650; 700; 701]
  = [None; Some 1000; Some 1000; Some 1000; None].
Proof. vm_compute. reflexivity. Qed.
Example minute_precision :
  resets_at [bounded 600 659 1000 500; bounded 720 779 1000 500] [658; 659; 700; 720; 721]
  = [None; Some 1000; Some 1000; Some 1000; None].
Proof. vm_compute. reflexivity. Qed.
Example official_origin :
  resets_at [point 600 1000 (Some 500) 1; point 700 1050 (Some 400) 2] [600; 649; 650; 699; 700; 701]
  = [Some 1000; Some 1000; Some 1050; Some 1050; Some 1050; None].
Proof. vm_compute. reflexivity. Qed.
Example same_second_conflict :
  resets_at [point 600 1000 (Some 500) 1; point 600 1001 (Some 500) 2; point 700 1000 (Some 500) 3;
             point 800 1000 (Some 500) 4] [600; 650; 700; 750]
  = [None; None; Some 1000; Some 1000].
Proof. vm_compute. reflexivity. Qed.
Example window_clips_minute :
  resets_at [bounded 480 539 1000 500; point 600 1000 (Some 500) 1] [499; 500; 539; 550; 600]
  = [None; None; Some 1000; Some 1000; Some 1000].
Proof. vm_compute. reflexivity. Qed.

(** The observations behind the witnesses: two agreeing points, and the same
    with a late reading of a shifted reset in between. *)
Definition before_recovery : list OfficialObservation :=
  [point 600 1000 (Some 500) 1; point 700 1000 (Some 500) 3].
Definition after_recovery : list OfficialObservation :=
  [point 700 1000 (Some 500) 3; point 650 1001 (Some 500) 2; point 600 1000 (Some 500) 1].
Definition reversed : list OfficialObservation :=
  [point 700 1000 (Some 500) 1; point 650 1000 (Some 500) 2].
Definition period_a : OfficialPeriod := {| op_reset_at := 1000; op_window_seconds := 500 |}.

Lemma attribution_agrees_with_observations_witness :
  proves before_recovery (point 600 1000 (Some 500) 1) period_a
  ∨ ∃ q, proves before_recovery (point 600 1000 (Some 500) 1) q
         ∧ ¬ (op_origin q ≤ 600 < op_reset_at q).
Proof.
  apply (attribution_agrees_with_observations before_recovery (timeline before_recovery) 1 600 period_a);
    [reflexivity|reflexivity|apply list_elem_of_here|reflexivity|cbn; lia].
Defined.

Lemma attribution_is_enclosed_witness :
  500 ≤ 650 < 1000
  ∧ (∃ b, observed before_recovery 1 period_a b)
  ∧ proved_from (observed before_recovery 1) period_a 650
  ∧ proved_until (observed before_recovery 1) period_a 650.
Proof.
  apply (attribution_is_enclosed before_recovery (timeline before_recovery) 1 650 period_a); reflexivity.
Defined.

Lemma reversed_clock_is_unattributed_witness : period_at (timeline reversed) 680 1 = None.
Proof.
  apply (reversed_clock_is_unattributed reversed (timeline reversed) 1 680
    (point 700 1000 (Some 500) 1) (point 650 1000 (Some 500) 2) 1 2); try reflexivity; try (cbn; lia).
  - apply list_elem_of_here.
  - apply list_elem_of_further, list_elem_of_here.
Defined.

Lemma from_observations_set_witness :
  result_ok (from_observations (before_recovery ++ before_recovery))
  = result_ok (from_observations before_recovery).
Proof.
  apply (from_observations_set (before_recovery ++ before_recovery) before_recovery).
  intros o. rewrite elem_of_app. tauto.
Defined.

Lemma attribution_at_is_lookup_witness :
  timeline_wf (timeline before_recovery)
  ∧ (attribution_at (timeline before_recovery) 650 1 = Some (period_a, 600, 700) ↔
     ∃ s, s ∈ spans (timeline before_recovery) ∧ span_at s 1 650 ∧ period_a = sp_period s
          ∧ 600 = b_lower (sp_bounds s) ∧ 700 = b_upper (sp_bounds s)).
Proof.
  apply (attribution_at_is_lookup before_recovery (timeline before_recovery) 1 650 period_a 600 700).
  reflexivity.
Defined.

Lemma changed_ranges_exact_witness :
  normalised (changed_ranges (timeline after_recovery) (timeline before_recovery))
  ∧ (in_ranges (changed_ranges (timeline after_recovery) (timeline before_recovery)) 625 ↔
     (∃ old, old ∈ spans (timeline before_recovery) ∧ b_contains (sp_bounds old) 625
        ∧ ∀ new, new ∈ spans (timeline after_recovery) → span_contains new old = false)
     ∨ (∃ new, new ∈ spans (timeline after_recovery) ∧ b_contains (sp_bounds new) 625
        ∧ ∀ old, old ∈ spans (timeline before_recovery) → span_contains new old = true →
            ¬ b_contains (sp_bounds old) 625)).
Proof.
  apply (changed_ranges_exact after_recovery before_recovery (timeline after_recovery)
    (timeline before_recovery) 625); reflexivity.
Defined.

Lemma changed_ranges_complete_witness :
  in_ranges (changed_ranges (timeline after_recovery) (timeline before_recovery)) 625.
Proof.
  apply (changed_ranges_complete after_recovery before_recovery (timeline after_recovery)
    (timeline before_recovery) 1 625); [reflexivity|reflexivity|].
  vm_compute. discriminate.
Defined.
