(* ===== verification/Security.v ===== *)
(** * Security boundaries: text for the UI, authentication hosts, bounded lines

    Models the pure part of [src/security.rs]. The [url] crate is not under
    src/: [validate_auth_url] takes the parser as a parameter and reads the
    parsed URL through the accessors the source uses. A [BufRead] is the
    sequence of buffers its [fill_buf] returns. *)

From S2P Require Import Prelude Text.

Definition MAX_EMAIL_SCALARS : Z := 254.
Definition MAX_PLAN_SCALARS : Z := 64.
Definition MAX_MODEL_SCALARS : Z := 128.
Definition MAX_THREAD_TITLE_SCALARS : Z := 512.
Definition MAX_LIMIT_NAME_SCALARS : Z := 96.
Definition MAX_STATUS_SCALARS : Z := 160.
Definition MAX_ACCOUNT_ACTIVITY_LABEL_SCALARS : Z := 24.
Definition MAX_AUTH_URL_SCALARS : Z := 2048.
Definition MAX_JSONL_LINE_BYTES : Z := 4 * 1024 * 1024.
Definition MAX_RPC_LINE_BYTES : Z := MAX_JSONL_LINE_BYTES.
Definition MAX_RPC_IGNORED_MESSAGES : Z := 1024.

Inductive SecurityErrorKind :=
  | InvalidInput | InvalidUrl | TooLong | UnsafePath | UnsafeExecutable
  | LimitExceeded | Unterminated | Io | Parse | Child.
#[export] Instance SecurityErrorKind_eq_dec : EqDecision SecurityErrorKind.
Proof. solve_decision. Defined.

Definition SecurityErrorKind_message (kind : SecurityErrorKind) : text :=
  lit match kind with
      | InvalidInput => "invalid input"
      | InvalidUrl => "invalid authentication URL"
      | TooLong => "input exceeds security limit"
      | UnsafePath => "unsafe path"
      | UnsafeExecutable => "unsafe executable"
      | LimitExceeded => "security limit exceeded"
      | Unterminated => "unterminated protected record"
      | Io => "protected file operation failed"
      | Parse => "protected data could not be parsed"
      | Child => "protected process operation failed"
      end%string.

(** ** Text for the UI *)
(** The scalar of the ellipsis […]. *)
Definition ellipsis : Z := 8230.
Definition shorten_unicode (value : text) (limit : Z) : text :=
  if chars_count value <=? limit then value
  else if limit =? 0 then []
  else if limit =? 1 then [ellipsis]
  else take (Z.to_nat (limit - 1)) value ++ [ellipsis].

Definition is_forbidden_ui_scalar (value : Z) : bool :=
  in_range 0 31 value || in_range 127 159 value || (value =? 1564)
  || in_range 8206 8207 value || in_range 8232 8238 value || in_range 8294 8297 value.

(** The loop of [normalize_ui_text]; 32 is the space. *)
Fixpoint normalize_from (previous_was_space : bool) (value : text) : text :=
  match value with
  | [] => []
  | scalar :: rest =>
      let scalar := if is_forbidden_ui_scalar scalar then 32 else scalar in
      if scalar =? 32 then
        if previous_was_space then normalize_from true rest
        else scalar :: normalize_from true rest
      else scalar :: normalize_from false rest
  end.
Definition normalize_ui_text (value : text) : text := normalize_from false value.

Definition bounded_ui_text (value : text) (limit : Z) : result SecurityErrorKind text :=
  Ok (shorten_unicode (normalize_ui_text value) limit).
Definition bounded_email (value : text) := bounded_ui_text value MAX_EMAIL_SCALARS.
Definition bounded_contract_text (value : text) (limit : Z) : result SecurityErrorKind text :=
  let normalized := normalize_ui_text value in
  reject TooLong when limit <? chars_count normalized;
  Ok normalized.
Definition bounded_plan (value : text) := bounded_contract_text value MAX_PLAN_SCALARS.
Definition bounded_model (value : text) := bounded_contract_text value MAX_MODEL_SCALARS.
Definition bounded_model_label (value : text) :=
  bounded_ui_text value MAX_ACCOUNT_ACTIVITY_LABEL_SCALARS.
Definition bounded_thread_title (value : text) := bounded_ui_text value MAX_THREAD_TITLE_SCALARS.
Definition bounded_limit_name (value : text) := bounded_ui_text value MAX_LIMIT_NAME_SCALARS.
Definition bounded_status (value : text) := bounded_ui_text value MAX_STATUS_SCALARS.

(** ** Authentication hosts; 46 is the dot, 45 the hyphen *)
Definition valid_dns_label (label : text) : bool :=
  if bool_decide (label = []) || (63 <? str_len label) || negb (is_ascii label) then false
  else if starts_with label [45] || ends_with label [45] then false
  else forallb (λ byte, is_ascii_alphanumeric byte || (byte =? 45)) label.

Definition allowed_auth_host (host : text) : bool :=
  if bool_decide (host = []) || ends_with host [46] || negb (is_ascii host) then false
  else
    let labels := split 46 host in
    if existsb (λ label, negb (valid_dns_label label)) labels then false
    else
      let lower := to_ascii_lowercase host in
      existsb (λ base, text_eqb lower base || ends_with lower (46 :: base))
        [lit "openai.com"; lit "chatgpt.com"].

(** What [validate_auth_url] reads of a parsed URL. *)
Record Url := {
  url_scheme : text;
  url_username : text;
  url_password : option text;
  url_fragment : option text;
  url_host_str : option text;
  url_port : option Z
}.
Definition validate_auth_url (Url_parse : text → option Url) (value : text) :
    result SecurityErrorKind Url :=
  reject TooLong when MAX_AUTH_URL_SCALARS <? chars_count value;
  url ← ok_or (Url_parse value) InvalidUrl;
  reject InvalidUrl when
    negb (eq_ignore_ascii_case (url_scheme url) (lit "https"))
    || negb (bool_decide (url_username url = []))
    || opt_is_some (url_password url)
    || opt_is_some (url_fragment url)
    || negb (allowed_auth_host (default [] (url_host_str url)))
    || is_some_and (λ port, negb (port =? 443)) (url_port url);
  Ok url.

(** ** Bounded JSONL records *)

(** The state of a [BufRead]: what its next [fill_buf] calls return. *)
Inductive chunk := Buffer (bytes : list Z) | IoFailure.
Abbreviation reader := (list chunk).

Fixpoint position (byte : Z) (bytes : list Z) : option nat :=
  match bytes with
  | [] => None
  | b :: rest => if b =? byte then Some O else S <$> position byte rest
  end.
(** [reader.consume(n)] within the buffer just returned. *)
Definition consume (n : nat) (bytes : list Z) (rest : reader) : reader :=
  match drop n bytes with [] => rest | remaining => Buffer remaining :: rest end.

Fixpoint drain_until_newline (r : reader) : result SecurityErrorKind bool * reader :=
  match r with
  | [] => (Ok false, [])
  | IoFailure :: rest => (Err Io, rest)
  | Buffer [] :: rest => (Ok false, rest)
  | Buffer buffer :: rest =>
      match position 10 buffer with
      | Some position => (Ok true, consume (S position) buffer rest)
      | None => drain_until_newline rest
      end
  end.

(** What follows the loop: drop a carriage return and decode. *)
Definition finish_record (line : list Z) (terminated : bool) :
    result SecurityErrorKind (option (text * bool)) :=
  let line := match last line with Some 13 => removelast line | _ => line end in
  match from_utf8 line with
  | Some line => Ok (Some (line, terminated))
  | None => Err (if terminated then Parse else Unterminated)
  end.

(** The loop of [read_bounded_jsonl_record]. *)
Fixpoint read_record_from (line : list Z) (r : reader) :
    result SecurityErrorKind (option (text * bool)) * reader :=
  match r with
  | [] =>
      if bool_decide (line = []) then (Ok None, [])
      else (finish_record line false, [])
  | IoFailure :: rest => (Err Io, rest)
  | Buffer [] :: rest =>
      if bool_decide (line = []) then (Ok None, rest)
      else (finish_record line false, rest)
  | Buffer buffer :: rest =>
      match position 10 buffer with
      | Some position =>
          if MAX_JSONL_LINE_BYTES <? Z.of_nat (length line) + Z.of_nat position
          then (Err LimitExceeded, consume (S position) buffer rest)
          else (finish_record (line ++ take position buffer) true,
                consume (S position) buffer rest)
      | None =>
          if MAX_JSONL_LINE_BYTES <? Z.of_nat (length line) + Z.of_nat (length buffer)
          then
            match drain_until_newline rest with
            | (Ok terminated, r) => (Err (if terminated then LimitExceeded else Unterminated), r)
            | (Err e, r) => (Err e, r)
            end
          else read_record_from (line ++ buffer) rest
      end
  end.
Definition read_bounded_jsonl_record (r : reader) := read_record_from [] r.

Definition read_bounded_jsonl_line (r : reader) :
    result SecurityErrorKind (option text) * reader :=
  match read_bounded_jsonl_record r with
  | (Ok (Some (line, true)), r) => (Ok (Some line), r)
  | (Ok (Some (_, false)), r) => (Err Unterminated, r)
  | (Ok None, r) => (Ok None, r)
  | (Err e, r) => (Err e, r)
  end.

Definition RpcLine_new (value : text) : result SecurityErrorKind text :=
  reject LimitExceeded when MAX_RPC_LINE_BYTES <? str_len value;
  Ok value.
Definition RpcLine_read (r : reader) : result SecurityErrorKind (option text) * reader :=
  match read_bounded_jsonl_line r with
  | (Ok (Some line), r) => (Some <$> RpcLine_new line, r)
  | (Ok None, r) => (Ok None, r)
  | (Err e, r) => (Err e, r)
  end.

Record RpcLimits := { max_line_bytes : Z; max_ignored_messages : Z }.
Definition RpcLimits_standard : RpcLimits := {|
  max_line_bytes := MAX_RPC_LINE_BYTES; max_ignored_messages := MAX_RPC_IGNORED_MESSAGES |}.
(** Returns the new count. *)
Definition record_ignored_message (self : RpcLimits) (count : Z) : result SecurityErrorKind Z :=
  reject LimitExceeded when max_ignored_messages self <=? count;
  Ok (count + 1).

(** ** Clean text *)
Fixpoint clean_from (previous_was_space : bool) (value : text) : Prop :=
  match value with
  | [] => True
  | c :: rest =>
      is_forbidden_ui_scalar c = false ∧ (previous_was_space = true → c ≠ 32)
      ∧ clean_from (c =? 32) rest
  end.
(** No forbidden scalar, and no two spaces in a row. *)
Definition clean (value : text) : Prop :=
  Forall (λ c, is_forbidden_ui_scalar c = false) value
  ∧ ∀ i, value !! i = Some 32 → value !! S i ≠ Some 32.

Section ui_text.
Lemma clean_from_clean b s :
  clean_from b s ↔ clean s ∧ (b = true → head s ≠ Some 32).
Proof.
  revert b. induction s as [|c s IH]; intros b; simpl.
  - split; [|done]. intros _. split; [|by intros]. split; [constructor|by intros i].
  - rewrite IH. unfold clean. rewrite Forall_cons. split.
    + intros (Hc & Hb & (Hf & Hi) & Hh). split; [|by intros E [= ->]; apply Hb].
      split; [done|]. intros [|i]; simpl; [|apply Hi].
      intros [= ->]. destruct s as [|d s]; [done|]. simpl in *. by apply Hh.
    + intros [[[Hc Hf] Hi] Hb]. split_and!; [done| |done| |].
      * intros E ->. by apply Hb.
      * intros i. apply (Hi (S i)).
      * intros E%Z.eqb_eq. subst c. specialize (Hi O eq_refl). by destruct s.
Qed.

Lemma normalize_from_clean b s : clean_from b (normalize_from b s).
Proof.
  revert b. induction s as [|c s IH]; intros b; simpl; [done|].
  set (d := if is_forbidden_ui_scalar c then 32 else c).
  assert (is_forbidden_ui_scalar d = false) as Hd.
  { unfold d. by destruct (is_forbidden_ui_scalar c) eqn:E. }
  destruct (Z.eqb_spec d 32) as [->|Hne].
  - destruct b; [apply IH|]. simpl. split_and!; [done..|apply IH].
  - simpl. split_and!; [done..|]. rewrite (proj2 (Z.eqb_neq d 32) Hne). apply IH.
Qed.
Lemma normalize_from_id b s : clean_from b s → normalize_from b s = s.
Proof.
  revert b. induction s as [|c s IH]; intros b; simpl; [done|].
  intros (-> & Hb & Hs). destruct (Z.eqb_spec c 32) as [->|].
  - destruct b; [by destruct Hb|]. f_equal. by apply IH.
  - f_equal. by apply IH.
Qed.
Lemma normalize_clean s : clean (normalize_ui_text s).
Proof. pose proof (normalize_from_clean false s) as H. by apply clean_from_clean in H as [? _]. Qed.
Lemma normalize_id s : clean s → normalize_ui_text s = s.
Proof. intros. apply normalize_from_id, clean_from_clean. by split. Qed.

Lemma clean_take n s : clean s → clean (take n s).
Proof.
  intros [Hf Hi]. split; [by apply Forall_take|]. intros i. rewrite !lookup_take.
  intros H1 H2. repeat case_decide; try done. by apply (Hi i).
Qed.
Lemma clean_snoc s c : clean s → is_forbidden_ui_scalar c = false → c ≠ 32 → clean (s ++ [c]).
Proof.
  intros [Hf Hi] Hc Hne. split.
  - apply Forall_app. split; [done|by constructor].
  - intros i H1 H2. destruct (decide (S i < length s)%nat) as [Hlt|Hge].
    + rewrite lookup_app_l in H1 by lia. rewrite lookup_app_l in H2 by lia. by apply (Hi i).
    + rewrite lookup_app_r in H2 by lia.
      destruct (S i - length s)%nat as [|k]; by simplify_eq/=.
Qed.

Lemma shorten_unicode_count s limit :
  0 ≤ limit → chars_count (shorten_unicode s limit) ≤ limit.
Proof.
  intros Hl. unfold shorten_unicode. destruct (Z.leb_spec (chars_count s) limit); [done|].
  destruct (Z.eqb_spec limit 0); [by subst|]. destruct (Z.eqb_spec limit 1); [by subst|].
  unfold chars_count in *. rewrite length_app, length_take. simpl. lia.
Qed.
Lemma shorten_unicode_clean s limit : clean s → clean (shorten_unicode s limit).
Proof.
  intros Hs. unfold shorten_unicode. case_match; [done|]. case_match.
  { split; [constructor|by intros i]. }
  case_match.
  - apply (clean_snoc []); [split; [constructor|by intros i]|done|done].
  - apply clean_snoc; [by apply clean_take|done|done].
Qed.
Lemma shorten_unicode_id s limit : chars_count s ≤ limit → shorten_unicode s limit = s.
Proof. intros H. unfold shorten_unicode. by rewrite (proj2 (Z.leb_le _ _) H). Qed.
End ui_text.

(** Text bounded for the UI has at most [limit] scalars, none of them a
    control, line-break or bidirectional formatting character, and no two
    spaces in a row; text that already is so is returned unchanged, so bounding
    is idempotent. *)
Theorem bounded_ui_text_clean value limit :
  0 ≤ limit → ∃ bounded, bounded_ui_text value limit = Ok bounded
  ∧ clean bounded ∧ chars_count bounded ≤ limit
  ∧ (clean value → chars_count value ≤ limit → bounded = value)
  ∧ bounded_ui_text bounded limit = Ok bounded.
Proof.
  intros Hl. eexists. split; [done|].
  assert (∀ s, clean s → chars_count s ≤ limit →
    shorten_unicode (normalize_ui_text s) limit = s) as Hid.
  { intros s Hs Hc. by rewrite normalize_id, shorten_unicode_id. }
  assert (clean (shorten_unicode (normalize_ui_text value) limit)) as Hclean
    by apply shorten_unicode_clean, normalize_clean.
  pose proof (shorten_unicode_count (normalize_ui_text value) limit Hl).
  split_and!; [done|done|by auto|]. unfold bounded_ui_text. by rewrite Hid.
Qed.

(** ** Lines do not depend on the buffers *)
Definition flat (r : reader) : list Z :=
  concat (map (λ c, match c with Buffer bytes => bytes | IoFailure => [] end) r).
(** A reader that does not fail and reports its end only at the end. *)
Definition healthy (r : reader) : Prop :=
  Forall (λ c, match c with Buffer bytes => bytes ≠ [] | IoFailure => False end) r.

(** The record at the head of a byte stream, and the bytes after it. *)
Definition record_of (bytes : list Z) : result SecurityErrorKind (option (text * bool)) * list Z :=
  match position 10 bytes with
  | Some p =>
      (if MAX_JSONL_LINE_BYTES <? Z.of_nat p then Err LimitExceeded
       else finish_record (take p bytes) true, drop (S p) bytes)
  | None =>
      (if bool_decide (bytes = []) then Ok None
       else if MAX_JSONL_LINE_BYTES <? Z.of_nat (length bytes) then Err Unterminated
       else finish_record bytes false, [])
  end.

Section lines.
Lemma position_app_l b x y p : position b x = Some p → position b (x ++ y) = Some p.
Proof.
  revert p. induction x as [|a x IH]; intros p; simpl; [done|].
  destruct (a =? b); [done|]. destruct (position b x); simpl; [|done].
  intros [= <-]. by rewrite (IH n).
Qed.
Lemma position_app_r b x y :
  position b x = None → position b (x ++ y) = Nat.add (length x) <$> position b y.
Proof.
  induction x as [|a x IH]; simpl.
  - intros _. by destruct (position b y).
  - destruct (a =? b); [done|]. destruct (position b x); [done|]. intros _.
    rewrite IH by done. by destruct (position b y).
Qed.
Lemma position_lt b x p : position b x = Some p → (p < length x)%nat.
Proof.
  revert p. induction x as [|a x IH]; intros p; simpl; [done|].
  destruct (a =? b); [intros [= <-]; lia|].
  destruct (position b x); simpl; [|done]. intros [= <-]. specialize (IH n eq_refl). lia.
Qed.

Lemma consume_spec n bytes rest :
  healthy rest → flat (consume n bytes rest) = drop n bytes ++ flat rest
  ∧ healthy (consume n bytes rest).
Proof.
  intros Hr. unfold consume. destruct (drop n bytes) as [|x l]; [done|].
  split; [done|]. by constructor.
Qed.
Lemma healthy_cons c r :
  healthy (c :: r) → ∃ x l, c = Buffer (x :: l) ∧ healthy r.
Proof.
  intros [Hc Hr]%Forall_cons. destruct c as [[|x l]|]; [done| |done]. by exists x, l.
Qed.

Lemma drop_past (x y : list Z) p q : drop (S (length x + p)) (x ++ y) = drop (S p) y ∧
  ((q < length x)%nat → drop (S q) (x ++ y) = drop (S q) x ++ y).
Proof.
  split; [|intros; by rewrite drop_app_le by lia].
  rewrite drop_app_ge by lia. f_equal. lia.
Qed.

Lemma drain_spec r :
  healthy r → (drain_until_newline r).1 = Ok (opt_is_some (position 10 (flat r)))
  ∧ healthy (drain_until_newline r).2
  ∧ flat (drain_until_newline r).2 =
      match position 10 (flat r) with Some p => drop (S p) (flat r) | None => [] end.
Proof.
  induction r as [|c r IH]; intros H; [done|].
  apply healthy_cons in H as (x & l & -> & Hr). cbn [drain_until_newline].
  change (flat (Buffer (x :: l) :: r)) with ((x :: l) ++ flat r).
  destruct (position 10 (x :: l)) as [p|] eqn:E.
  - rewrite (position_app_l _ _ _ _ E). pose proof (position_lt _ _ _ E).
    destruct (consume_spec (S p) (x :: l) r Hr) as [Hf Hh]. cbn [fst snd].
    split_and!; [done|done|]. rewrite Hf. by rewrite (proj2 (drop_past (x :: l) (flat r) 0 p)).
  - rewrite (position_app_r _ _ _ E). destruct (IH Hr) as (-> & ? & ->).
    destruct (position 10 (flat r)) as [p|]; cbn [fmap option_fmap option_map opt_is_some];
      split_and!; try done. by rewrite (proj1 (drop_past (x :: l) (flat r) p 0)).
Qed.

Lemma read_record_from_spec line r :
  healthy r → position 10 line = None → Z.of_nat (length line) ≤ MAX_JSONL_LINE_BYTES →
  let bytes := line ++ flat r in
  (read_record_from line r).1 = (record_of bytes).1
  ∧ healthy (read_record_from line r).2
  ∧ flat (read_record_from line r).2 = (record_of bytes).2.
Proof.
  intros Hr. revert line. induction r as [|c r IH]; intros line Hline Hlen; cbv zeta.
  - unfold flat. simpl. rewrite app_nil_r. unfold record_of. rewrite Hline.
    case_bool_decide; [done|]. destruct (Z.ltb_spec MAX_JSONL_LINE_BYTES (Z.of_nat (length line)));
      [lia|done].
  - apply healthy_cons in Hr as (x & l & -> & Hr). cbn [read_record_from].
    change (flat (Buffer (x :: l) :: r)) with ((x :: l) ++ flat r).
    assert (position 10 (line ++ (x :: l) ++ flat r)
      = Nat.add (length line) <$> position 10 ((x :: l) ++ flat r)) as Hpos
      by (by apply position_app_r).
    destruct (position 10 (x :: l)) as [p|] eqn:E.
    + unfold record_of. rewrite Hpos, (position_app_l _ _ _ _ E). cbn [fmap option_fmap option_map].
      pose proof (position_lt _ _ _ E). rewrite Nat2Z.inj_add.
      destruct (consume_spec (S p) (x :: l) r Hr) as [Hf Hh].
      rewrite (proj1 (drop_past line _ p 0)), (proj2 (drop_past (x :: l) (flat r) 0 p)) by done.
      destruct (MAX_JSONL_LINE_BYTES <? _); cbn [fst snd]; split_and!; try done.
      by rewrite take_app_add', take_app_le by lia.
    + destruct (Z.ltb_spec MAX_JSONL_LINE_BYTES
        (Z.of_nat (length line) + Z.of_nat (length (x :: l)))) as [Hbig|Hfit].
      * destruct (drain_spec r Hr) as (Hd & Hh & Hf).
        destruct (drain_until_newline r) as [d r']. cbn [fst snd] in *. subst d.
        unfold record_of. rewrite Hpos, (position_app_r _ _ _ E).
        destruct (position 10 (flat r)) as [p|]; cbn [fmap option_fmap option_map opt_is_some fst snd].
        -- rewrite (proj2 (Z.ltb_lt _ _)) by (rewrite length_cons in *; lia).
           rewrite (proj1 (drop_past line _ _ 0)), (proj1 (drop_past (x :: l) _ p 0)). done.
        -- rewrite bool_decide_eq_false_2 by (by destruct line).
           rewrite (proj2 (Z.ltb_lt _ _)) by (rewrite !length_app in *; lia). done.
      * rewrite (assoc_L (++)). apply (IH Hr).
        -- by rewrite (position_app_r _ _ _ Hline), E.
        -- rewrite length_app. lia.
Qed.
End lines.

(** Reading a record is a function of the bytes alone: however the reader
    splits them into buffers, the result is that of the whole stream, and
    exactly the bytes after the line remain, even after an oversized line. *)
Theorem read_record_chunking r :
  healthy r →
  (read_bounded_jsonl_record r).1 = (record_of (flat r)).1
  ∧ flat (read_bounded_jsonl_record r).2 = (record_of (flat r)).2
  ∧ healthy (read_bounded_jsonl_record r).2.
Proof.
  intros Hr. destruct (read_record_from_spec [] r Hr) as (? & ? & ?); [done|done|].
  by split_and!.
Qed.

(** ** Authentication hosts *)
Section hosts.
Lemma split_app_sep c a b : split c (a ++ c :: b) = split c a ++ split c b.
Proof.
  induction a as [|x a IH]; simpl; [by rewrite Z.eqb_refl|]. destruct (x =? c).
  - by rewrite IH.
  - rewrite IH. destruct (split c a) eqn:E; [by apply split_nonnil in E|done].
Qed.
Lemma join_app c ws vs : ws ≠ [] → vs ≠ [] → join c (ws ++ vs) = join c ws ++ c :: join c vs.
Proof.
  intros Hw Hv. induction ws as [|w ws IH]; [done|]. destruct ws as [|w' ws].
  - simpl. by destruct vs.
  - cbn [app] in *. change (join c (w :: w' :: ws ++ vs)) with (w ++ c :: join c (w' :: ws ++ vs)).
    rewrite IH by done. change (join c (w :: w' :: ws)) with (w ++ c :: join c (w' :: ws)).
    by rewrite <-(assoc_L (++)).
Qed.

Lemma under_base c base s :
  text_eqb s base || ends_with s (c :: base) = true ↔ split c base `suffix_of` split c s.
Proof.
  unfold ends_with. rewrite orb_true_iff, text_eqb_true, bool_decide_eq_true. split.
  - intros [->|[k ->]]; [done|]. rewrite split_app_sep. by exists (split c k).
  - intros [k Hk]. rewrite <-(join_split c s), <-(join_split c base).
    rewrite Hk, !join_split. destruct k as [|w k]; [left; by rewrite app_nil_l, join_split|right].
    rewrite join_app, join_split by (done || apply split_nonnil). by eexists.
Qed.

Lemma valid_dns_label_ascii l : valid_dns_label l = true → l ≠ [] ∧ is_ascii l = true.
Proof.
  unfold valid_dns_label. destruct (_ || _ || _) eqn:E; [done|].
  rewrite !orb_false_iff, bool_decide_eq_false, negb_false_iff in E. tauto.
Qed.
Lemma split_ascii s :
  Forall (λ l, is_ascii l = true) (split 46 s) → is_ascii s = true.
Proof.
  unfold is_ascii. induction s as [|x s IH]; simpl; [done|].
  destruct (Z.eqb_spec x 46) as [->|Hne].
  - intros [_ H]%Forall_cons. by apply IH.
  - destruct (split 46 s) as [|w ws] eqn:E; [by apply split_nonnil in E|].
    intros [[Hx Hw]%andb_true_iff H]%Forall_cons. rewrite Hx. apply IH. by constructor.
Qed.
Lemma split_dot_end s : ends_with s [46] = true → [] ∈ split 46 s.
Proof.
  unfold ends_with. rewrite bool_decide_eq_true. intros [k ->].
  rewrite split_app_sep. apply elem_of_app. right. apply list_elem_of_here.
Qed.
End hosts.

(** A host is allowed exactly when all its labels are valid DNS labels and
    the last two are, in any case, those of openai.com or chatgpt.com: a suffix
    of the characters alone (notopenai.com, openai.com.evil.org) is not enough. *)
Theorem allowed_auth_host_labels host :
  allowed_auth_host host = true ↔
  Forall (λ label, valid_dns_label label = true) (split 46 host)
  ∧ ∃ base, base ∈ [[lit "openai"; lit "com"]; [lit "chatgpt"; lit "com"]]
            ∧ base `suffix_of` split 46 (to_ascii_lowercase host).
Proof.
  unfold allowed_auth_host.
  assert (existsb (λ base, text_eqb (to_ascii_lowercase host) base
      || ends_with (to_ascii_lowercase host) (46 :: base)) [lit "openai.com"; lit "chatgpt.com"] = true
    ↔ ∃ base, base ∈ [[lit "openai"; lit "com"]; [lit "chatgpt"; lit "com"]]
            ∧ base `suffix_of` split 46 (to_ascii_lowercase host)) as Hbase.
  { rewrite existsb_Exists, !Exists_cons, Exists_nil, !under_base.
    setoid_rewrite elem_of_cons. setoid_rewrite elem_of_cons. setoid_rewrite elem_of_nil.
    change (split 46 (lit "openai.com")) with [lit "openai"; lit "com"].
    change (split 46 (lit "chatgpt.com")) with [lit "chatgpt"; lit "com"]. naive_solver. }
  rewrite <-Hbase. clear Hbase. set (under := existsb _ _).
  assert (existsb (λ label, negb (valid_dns_label label)) (split 46 host) = false ↔
    Forall (λ label, valid_dns_label label = true) (split 46 host)) as Hlabels.
  { rewrite existsb_false_Forall. by setoid_rewrite negb_false_iff. }
  destruct (bool_decide (host = []) || ends_with host [46] || negb (is_ascii host)) eqn:E.
  - split; [done|]. intros [Hf _]. rewrite !orb_true_iff, bool_decide_eq_true in E.
    rewrite Forall_forall in Hf. destruct E as [[->|E]|E].
    + specialize (Hf [] ltac:(apply list_elem_of_here)). by apply valid_dns_label_ascii in Hf as [? _].
    + apply split_dot_end, Hf, valid_dns_label_ascii in E as [? _]. done.
    + rewrite split_ascii in E; [done|]. apply Forall_forall. intros l Hl.
      by apply Hf, valid_dns_label_ascii in Hl as [_ ?].
  - rewrite <-Hlabels. destruct (existsb _ (split 46 host)); naive_solver.
Qed.

(** ** Concrete instances *)
Lemma bounded_ui_text_clean_witness :
  ∃ bounded, bounded_ui_text (lit "a  b	c") 4 = Ok bounded
  ∧ clean bounded ∧ chars_count bounded ≤ 4
  ∧ (clean (lit "a  b	c") → chars_count (lit "a  b	c") ≤ 4 → bounded = lit "a  b	c")
  ∧ bounded_ui_text bounded 4 = Ok bounded.
Proof. apply (bounded_ui_text_clean (lit "a  b	c") 4). lia. Defined.

Lemma read_record_chunking_witness :
  (read_bounded_jsonl_record [Buffer [123]; Buffer [125; 13; 10; 65]; Buffer [66]]).1
    = Ok (Some (lit "{}", true))
  ∧ flat (read_bounded_jsonl_record [Buffer [123]; Buffer [125; 13; 10; 65]; Buffer [66]]).2
    = [65; 66]
  ∧ healthy (read_bounded_jsonl_record [Buffer [123]; Buffer [125; 13; 10; 65]; Buffer [66]]).2.
Proof.
  apply (read_record_chunking [Buffer [123]; Buffer [125; 13; 10; 65]; Buffer [66]]).
  repeat constructor; discriminate.
Defined.
