(* ===== verification/Json.v ===== *)
(** * JSON values as the source matches on them

    [serde_json] is not under src/. Its [Value] is the data type the source
    pattern-matches on; its [Number] is a parameter, read through the accessors
    the source calls. An object is a [BTreeMap] (the crate is built without
    [preserve_order]): an association list in key order. *)

From S2P Require Import Prelude Text Float64.

(** [serde_json::Number] through its accessors, equality and [From<u64>]. *)
Class JsonNumber (N : Type) := {
  as_i64 : N → option Z;
  as_u64 : N → option Z;
  as_f64 : N → option f64;
  number_eqb : N → N → bool;
  number_of_u64 : Z → N
}.

Inductive Value (N : Type) :=
  | Null
  | Bool (b : bool)
  | Number (n : N)
  | VString (s : text)
  | Array (items : list (Value N))
  | Object (members : list (text * Value N)).
Arguments Null {N}.
Arguments Bool {N} b.
Arguments Number {N} n.
Arguments VString {N} s.
Arguments Array {N} items.
Arguments Object {N} members.

(** ** Objects *)
Fixpoint get {A} (key : text) (members : list (text * A)) : option A :=
  match members with
  | [] => None
  | (k, v) :: rest => if text_eqb key k then Some v else get key rest
  end.
Definition contains_key {A} (key : text) (members : list (text * A)) : bool :=
  opt_is_some (get key members).
(** [BTreeMap::insert] *)
Fixpoint map_insert {A} (key : text) (value : A) (members : list (text * A)) :
    list (text * A) :=
  match members with
  | [] => [(key, value)]
  | (k, v) :: rest =>
      match text_compare key k with
      | Lt => (key, value) :: members
      | Eq => (k, value) :: rest
      | Gt => (k, v) :: map_insert key value rest
      end
  end.

Section accessors.
Context {N : Type} `{JsonNumber N}.

Definition as_object (v : Value N) : option (list (text * Value N)) :=
  match v with Object m => Some m | _ => None end.
Definition as_array (v : Value N) : option (list (Value N)) :=
  match v with Array l => Some l | _ => None end.
Definition as_str (v : Value N) : option text :=
  match v with VString s => Some s | _ => None end.
Definition as_number (v : Value N) : option N :=
  match v with Number n => Some n | _ => None end.
Definition as_bool (v : Value N) : option bool :=
  match v with Bool b => Some b | _ => None end.
Definition is_null (v : Value N) : bool :=
  match v with Null => true | _ => false end.
Definition value_as_i64 (v : Value N) : option Z := as_number v ≫= as_i64.
Definition value_as_u64 (v : Value N) : option Z := as_number v ≫= as_u64.
Definition value_as_f64 (v : Value N) : option f64 := as_number v ≫= as_f64.
(** [value.get(key)] *)
Definition value_get (key : text) (v : Value N) : option (Value N) :=
  as_object v ≫= get key.

(** [Value: PartialEq] *)
Fixpoint value_eqb (a b : Value N) : bool :=
  match a, b with
  | Null, Null => true
  | Bool x, Bool y => Bool.eqb x y
  | Number x, Number y => number_eqb x y
  | VString x, VString y => text_eqb x y
  | Array xs, Array ys =>
      (fix go (xs ys : list (Value N)) : bool :=
         match xs, ys with
         | [], [] => true
         | x :: xs', y :: ys' => value_eqb x y && go xs' ys'
         | _, _ => false
         end) xs ys
  | Object xs, Object ys =>
      (fix go (xs ys : list (text * Value N)) : bool :=
         match xs, ys with
         | [], [] => true
         | (k, x) :: xs', (l, y) :: ys' => text_eqb k l && value_eqb x y && go xs' ys'
         | _, _ => false
         end) xs ys
  | _, _ => false
  end.
End accessors.

(** A concrete number type for instances: integers only. *)
Definition integer_numbers : JsonNumber Z := {|
  as_i64 := λ n, if in_range i64_min i64_max n then Some n else None;
  as_u64 := u64_try_from;
  as_f64 := λ n, Some (f64_of_Z n);
  number_eqb := Z.eqb;
  number_of_u64 := id |}.
