(* ===== verification/JsonSchema.v ===== *)
(** * The JSON-schema validator

    Models the validator of [src/thread_contract.rs]: the assertion subset of
    Draft-07 used by the pinned schemas, under a depth and a work budget. *)

From S2P Require Import Prelude Text Float64 Json.

Definition MAX_VALIDATION_DEPTH : nat := 64.
Definition MAX_VALIDATION_WORK : Z := 100000.

Inductive ThreadContractError :=
  | InvalidCursor | InvalidRequest | InvalidEnvelope | InvalidItem
  | InvalidSchema | ValidationBudgetExceeded | InvalidManifest.
#[export] Instance ThreadContractError_eq_dec : EqDecision ThreadContractError.
Proof. solve_decision. Defined.

Definition ThreadContractError_message (self : ThreadContractError) : text :=
  lit match self with
      | InvalidCursor => "thread cursor rejected"
      | InvalidRequest => "thread request rejected"
      | InvalidEnvelope => "thread page envelope rejected"
      | InvalidItem => "thread item rejected"
      | InvalidSchema => "thread schema rejected"
      | ValidationBudgetExceeded => "thread validation budget exceeded"
      | InvalidManifest => "thread schema manifest rejected"
      end%string.

(** ** The validation monad

    [&mut ValidationState] is the work counter; it keeps its value when a step
    fails, because a failing branch of [oneOf] or [anyOf] is not the end. *)
Definition validation (A : Type) : Type := Z → result ThreadContractError A * Z.
#[export] Instance validation_ret : MRet validation := fun A a work => (Ok a, work).
#[export] Instance validation_bind : MBind validation := fun A B f m work =>
  match m work with
  | (Ok a, work) => f a work
  | (Err e, work) => (Err e, work)
  end.
Definition lift {A} (r : result ThreadContractError A) : validation A := λ work, (r, work).
Definition fail {A} (e : ThreadContractError) : validation A := λ work, (Err e, work).
Definition done_ : validation () := mret tt.
Definition require (b : bool) : validation () := if b then done_ else fail InvalidItem.

Fixpoint for_each {A} (f : A → validation ()) (l : list A) : validation () :=
  match l with
  | [] => done_
  | x :: l' => _ ← f x; for_each f l'
  end.
(** [if let Some(x) = o { ... }] *)
Definition if_some {A} (o : option A) (f : A → validation ()) : validation () :=
  match o with Some x => f x | None => done_ end.

Section schema.
Context {N : Type} `{JsonNumber N}.
Abbreviation value := (Value N).

(** ** Types and formats *)
Definition is_known_type_name (type_name : text) : bool :=
  is_any type_name
    ["null"; "boolean"; "object"; "array"; "string"; "number"; "integer"]%string.
Definition is_integer_instance (instance : value) : bool :=
  opt_is_some (value_as_i64 instance) || opt_is_some (value_as_u64 instance).
Definition matches_single_type (instance : value) (type_name : text) :
    result ThreadContractError bool :=
  if text_eqb type_name (lit "null") then Ok (is_null instance)
  else if text_eqb type_name (lit "boolean") then Ok (opt_is_some (as_bool instance))
  else if text_eqb type_name (lit "object") then Ok (opt_is_some (as_object instance))
  else if text_eqb type_name (lit "array") then Ok (opt_is_some (as_array instance))
  else if text_eqb type_name (lit "string") then Ok (opt_is_some (as_str instance))
  else if text_eqb type_name (lit "number") then Ok (opt_is_some (as_number instance))
  else if text_eqb type_name (lit "integer") then Ok (is_integer_instance instance)
  else Err InvalidSchema.
Fixpoint matches_any_type (instance : value) (matched : bool) (type_names : list value) :
    result ThreadContractError bool :=
  match type_names with
  | [] => Ok matched
  | type_name :: rest =>
      type_name ← ok_or (as_str type_name) InvalidSchema;
      this ← matches_single_type instance type_name;
      matches_any_type instance (matched || this) rest
  end.
Definition matches_type (instance type_value : value) : result ThreadContractError bool :=
  match type_value with
  | VString type_name => matches_single_type instance type_name
  | Array type_names => matches_any_type instance false type_names
  | _ => Err InvalidSchema
  end.

Definition matches_integer_format (instance : value) (format : text) : bool :=
  match as_number instance with
  | None => false
  | Some number =>
      let signed := as_i64 number in
      let unsigned := as_u64 number in
      if negb (opt_is_some signed || opt_is_some unsigned) then false
      else if text_eqb format (lit "int32")
      then is_some_and (in_range (-2147483648) 2147483647) signed
      else if text_eqb format (lit "int64") then opt_is_some signed
      else if is_any format ["uint"; "uint64"]%string then opt_is_some unsigned
      else if text_eqb format (lit "uint16") then is_some_and (λ v, v <=? 65535) unsigned
      else if text_eqb format (lit "uint32")
      then is_some_and (λ v, v <=? 4294967295) unsigned
      else true
  end.
Definition number_at_least (instance minimum : value) : result ThreadContractError bool :=
  minimum ← ok_or (value_as_f64 minimum) InvalidSchema;
  number ← ok_or (as_number instance) InvalidItem;
  match as_i64 number with
  | Some v => Ok (f64_leb minimum (f64_of_Z v))
  | None =>
      match as_u64 number with
      | Some v => Ok (f64_leb minimum (f64_of_Z v))
      | None => ok_or ((λ v, f64_leb minimum v) <$> as_f64 number) InvalidItem
      end
  end.

(** ** References *)
(** [s.replace(pat, with)] for a two-scalar pattern and one scalar. *)
Fixpoint replace2 (p q with_ : Z) (s : text) : text :=
  match s with
  | x :: ((y :: rest) as tail) =>
      if (x =? p) && (y =? q) then with_ :: replace2 p q with_ rest
      else x :: replace2 p q with_ tail
  | _ => s
  end.
(** [~1] is a slash, [~0] a tilde. *)
Definition unescape_token (encoded : text) : text :=
  replace2 126 48 126 (replace2 126 49 47 encoded).
Fixpoint resolve_tokens (current : value) (tokens : list text) : option value :=
  match tokens with
  | [] => Some current
  | encoded :: rest =>
      next ← value_get (unescape_token encoded) current;
      resolve_tokens next rest
  end.
Definition resolve_local_reference (root : value) (reference : text) : option value :=
  if text_eqb reference (lit "#") then Some root
  else
    pointer ← strip_prefix (lit "#/") reference;
    resolve_tokens root (split 47 pointer).

(** ** The shape of a schema object *)
Definition ensure_schema_value (v : value) : result ThreadContractError () :=
  match v with Bool _ | Object _ => Ok tt | _ => Err InvalidSchema end.
Fixpoint try_each {A} (f : A → result ThreadContractError ()) (l : list A) :
    result ThreadContractError () :=
  match l with
  | [] => Ok tt
  | x :: l' => _ ← f x; try_each f l'
  end.
Definition on_some {A} (o : option A) (f : A → result ThreadContractError ()) :
    result ThreadContractError () :=
  match o with Some x => f x | None => Ok tt end.
Definition ensure (b : bool) : result ThreadContractError () :=
  if b then Ok tt else Err InvalidSchema.

Definition validate_schema_keyword_shapes (schema : list (text * value)) :
    result ThreadContractError () :=
  _ ← on_some (get (lit "type") schema) (λ type_value,
    match type_value with
    | VString type_name => ensure (is_known_type_name type_name)
    | Array ((_ :: _) as type_names) =>
        try_each (λ type_name,
          type_name ← ok_or (as_str type_name) InvalidSchema;
          ensure (is_known_type_name type_name)) type_names
    | Array [] => Err InvalidSchema
    | _ => Err InvalidSchema
    end);
  _ ← on_some (get (lit "enum") schema) (λ enum_value,
    ensure (opt_is_some (as_array enum_value)));
  _ ← on_some (get (lit "required") schema) (λ required,
    required ← ok_or (as_array required) InvalidSchema;
    try_each (λ name, ensure (opt_is_some (as_str name))) required);
  _ ← on_some (get (lit "properties") schema) (λ properties,
    properties ← ok_or (as_object properties) InvalidSchema;
    try_each (λ '(_, property_schema), ensure_schema_value property_schema) properties);
  _ ← on_some (get (lit "additionalProperties") schema) ensure_schema_value;
  _ ← on_some (get (lit "items") schema) (λ items,
    match items with
    | Bool _ | Object _ => Ok tt
    | Array tuple_schemas => try_each ensure_schema_value tuple_schemas
    | _ => Err InvalidSchema
    end);
  _ ← try_each (λ keyword,
    on_some (get (lit keyword) schema) (λ branches,
      branches ← ok_or (as_array branches) InvalidSchema;
      try_each ensure_schema_value branches)) ["oneOf"; "anyOf"; "allOf"]%string;
  _ ← on_some (get (lit "minimum") schema) (λ minimum,
    ensure (opt_is_some (as_number minimum)));
  _ ← on_some (get (lit "minLength") schema) (λ min_length,
    ensure (opt_is_some (value_as_u64 min_length)));
  on_some (get (lit "format") schema) (λ format, ensure (opt_is_some (as_str format))).

(** ** One node *)

(** The work counter at the entry of [validate_node]. *)
Definition tick : validation () := λ work,
  match u64_checked_add work 1 with
  | None => (Err ValidationBudgetExceeded, work)
  | Some work =>
      if MAX_VALIDATION_WORK <? work then (Err ValidationBudgetExceeded, work)
      else (Ok tt, work)
  end.

Section node.
(** [node instance schema] is the recursive call one level deeper. *)
Context (node : value → value → validation ()) (instance : value)
  (schema : list (text * value)).

Definition check_type : validation () :=
  if_some (get (lit "type") schema) (λ type_value,
    matched ← lift (matches_type instance type_value);
    require matched).
Definition check_enum : validation () :=
  if_some (get (lit "enum") schema) (λ enum_value,
    values ← lift (ok_or (as_array enum_value) InvalidSchema);
    require (existsb (λ candidate, value_eqb candidate instance) values)).
Definition check_required (object : list (text * value)) : validation () :=
  if_some (get (lit "required") schema) (λ required,
    required ← lift (ok_or (as_array required) InvalidSchema);
    for_each (λ name,
      name ← lift (ok_or (as_str name) InvalidSchema);
      require (contains_key name object)) required).
(** [additionalProperties] for one property. *)
Definition check_additional (additional property : value) : validation () :=
  match additional with
  | Bool b => require b
  | Object _ => node property additional
  | _ => fail InvalidSchema
  end.
Definition check_properties (object : list (text * value)) : validation () :=
  match get (lit "properties") schema with
  | Some properties =>
      properties ← lift (ok_or (as_object properties) InvalidSchema);
      _ ← for_each (λ '(name, property_schema),
        if_some (get name object) (λ property, node property property_schema)) properties;
      if_some (get (lit "additionalProperties") schema) (λ additional,
        for_each (λ '(name, property),
          if contains_key name properties then done_
          else check_additional additional property) object)
  | None =>
      if_some (get (lit "additionalProperties") schema) (λ additional,
        for_each (λ '(_, property), check_additional additional property) object)
  end.
Fixpoint check_tuple (items tuple_schemas : list value) : validation () :=
  match items, tuple_schemas with
  | item :: items, item_schema :: tuple_schemas =>
      _ ← node item item_schema; check_tuple items tuple_schemas
  | _, _ => done_
  end.
Definition check_items (array : list value) : validation () :=
  if_some (get (lit "items") schema) (λ items,
    match items with
    | Object _ | Bool _ => for_each (λ item, node item items) array
    | Array tuple_schemas => check_tuple array tuple_schemas
    | _ => fail InvalidSchema
    end).

(** How many branches accept; only [InvalidItem] lets the loop go on. *)
Fixpoint count_matches (branches : list value) : validation nat :=
  match branches with
  | [] => mret O
  | branch :: rest => λ work,
      match node instance branch work with
      | (Ok tt, work) => (matches ← count_matches rest; mret (S matches)) work
      | (Err InvalidItem, work) => count_matches rest work
      | (Err e, work) => (Err e, work)
      end
  end.
Definition check_one_of : validation () :=
  if_some (get (lit "oneOf") schema) (λ one_of,
    branches ← lift (ok_or (as_array one_of) InvalidSchema);
    matched ← count_matches branches;
    require (matched =? 1)%nat).
Definition check_any_of : validation () :=
  if_some (get (lit "anyOf") schema) (λ any_of,
    branches ← lift (ok_or (as_array any_of) InvalidSchema);
    matched ← count_matches branches;
    require (negb (matched =? 0)%nat)).
Definition check_all_of : validation () :=
  if_some (get (lit "allOf") schema) (λ all_of,
    branches ← lift (ok_or (as_array all_of) InvalidSchema);
    for_each (λ branch, node instance branch) branches).
Definition check_minimum : validation () :=
  if_some (get (lit "minimum") schema) (λ minimum,
    if opt_is_some (as_number instance)
    then at_least ← lift (number_at_least instance minimum); require at_least
    else done_).
Definition check_min_length : validation () :=
  if_some (get (lit "minLength") schema) (λ min_length,
    if_some (as_str instance) (λ string,
      minimum ← lift (ok_or (value_as_u64 min_length) InvalidSchema);
      require (negb (is_some_and (λ length, length <? minimum)
                      (u64_try_from (chars_count string)))))).
Definition check_format : validation () :=
  if_some (get (lit "format") schema) (λ format,
    format ← lift (ok_or (as_str format) InvalidSchema);
    require (negb (is_integer_instance instance
      && is_any format ["int32"; "int64"; "uint"; "uint16"; "uint32"; "uint64"]%string
      && negb (matches_integer_format instance format)))).

(** The assertions of a schema object without [$ref], in order. *)
Definition check_keywords : validation () :=
  _ ← lift (validate_schema_keyword_shapes schema);
  _ ← check_type;
  _ ← check_enum;
  _ ← if_some (as_object instance) (λ object,
    _ ← check_required object; check_properties object);
  _ ← if_some (as_array instance) check_items;
  _ ← check_one_of;
  _ ← check_any_of;
  _ ← check_all_of;
  _ ← check_minimum;
  _ ← check_min_length;
  check_format.
End node.

(** [remaining] counts the levels left: [MAX_VALIDATION_DEPTH + 1 - depth]. *)
Fixpoint validate_node (remaining : nat) (root instance schema : value) : validation () :=
  match remaining with
  | O => fail ValidationBudgetExceeded
  | S remaining =>
      _ ← tick;
      match schema with
      | Bool true => done_
      | Bool false => fail InvalidItem
      | Object schema_object =>
          match get (lit "$ref") schema_object with
          | Some reference_value =>
              reference ← lift (ok_or (as_str reference_value) InvalidSchema);
              target ← lift (ok_or (resolve_local_reference root reference) InvalidSchema);
              validate_node remaining root instance target
          | None => check_keywords (validate_node remaining root) instance schema_object
          end
      | _ => fail InvalidSchema
      end
  end.

Definition validate_instance_with_root (instance subschema root_schema : value) :
    result ThreadContractError () :=
  (validate_node (S MAX_VALIDATION_DEPTH) root_schema instance subschema 0).1.
Definition validate_instance_against_schema (instance schema : value) :
    result ThreadContractError () :=
  validate_instance_with_root instance schema schema.
End schema.

(** ** What the validator decides

    [decides v P]: success of [v] proves [P], the verdict [InvalidItem] refutes
    it; a budget or a schema error says nothing, and there is no other result. *)
Definition undecided (e : ThreadContractError) : Prop :=
  e = InvalidSchema ∨ e = ValidationBudgetExceeded.
Definition verdict (e : ThreadContractError) : Prop := e = InvalidItem ∨ undecided e.
Definition decides (v : validation ()) (P : Prop) : Prop :=
  (∀ work work', v work = (Ok tt, work') → P)
  ∧ (∀ work work', v work = (Err InvalidItem, work') → ¬ P)
  ∧ (∀ work e work', v work = (Err e, work') → verdict e).

#[export] Instance decides_proper v : Proper (iff ==> iff) (decides v).
Proof. unfold decides. intros P Q HPQ. naive_solver. Qed.

Section decides.
Lemma conforming_iff v P Q : decides v P → (P ↔ Q) → decides v Q.
Proof. by intros ? <-. Qed.
Lemma undecided_not_item e : undecided e → e ≠ InvalidItem.
Proof. by intros [-> | ->]. Qed.
Lemma decides_done : decides done_ True.
Proof. split_and!; [done|by intros ? ? [=]|by intros ? ? ? [=]]. Qed.
Lemma decides_fail e P : undecided e → decides (fail e) P.
Proof.
  intros He. split_and!; [by intros ? ? [=]| |intros ? ? ? [= <- _]; by right].
  intros ? ? [=]. by destruct (undecided_not_item e).
Qed.
Lemma decides_require b : decides (require b) (b = true).
Proof.
  destruct b; [split_and!; [done|by intros ? ? [=]|by intros ? ? ? [=]]|].
  split_and!; [by intros ? ? [=]|done|]. intros ? ? ? [= <- _]. by left.
Qed.
Lemma decides_seq v w P Q : decides v P → decides w Q → decides (_ ← v; w) (P ∧ Q).
Proof.
  intros (Hv & Hv' & Hev) (Hw & Hw' & Hew). unfold mbind, validation_bind.
  split_and!; [intros n n'|intros n n'|intros n e' n']; destruct (v n) as [[[]|e] k] eqn:E.
  - intros Ew. split; [by eapply Hv|by eapply Hw].
  - intros [=].
  - intros Ew [_ HQ]. by eapply Hw'.
  - intros [= -> ->] [HP _]. by eapply Hv'.
  - apply Hew.
  - intros [= <- _]. by eapply Hev.
Qed.
Lemma decides_lift {A} (r : result ThreadContractError A) f P :
  (∀ a, r = Ok a → decides (f a) P) → (∀ e, r = Err e → verdict e) → (r = Err InvalidItem → ¬ P) →
  decides (x ← lift r; f x) P.
Proof.
  intros Hf Hv He. unfold mbind, validation_bind, lift.
  split_and!; [intros n n'|intros n n'|intros n e' n']; destruct r as [a|e].
  - by apply Hf.
  - intros [=].
  - by apply Hf.
  - intros [= -> _]. by apply He.
  - by apply Hf.
  - intros [= <- _]. by apply Hv.
Qed.
Lemma decides_lift_schema {A} (r : result ThreadContractError A) f P :
  (∀ a, r = Ok a → decides (f a) P) → (∀ e, r = Err e → e = InvalidSchema) →
  decides (x ← lift r; f x) P.
Proof.
  intros Hf He. apply decides_lift; [done| |by intros ?%He]. intros e ->%He. right. by left.
Qed.
Lemma decides_schema {A} (o : option A) f P :
  (∀ a, o = Some a → decides (f a) P) → decides (x ← lift (ok_or o InvalidSchema); f x) P.
Proof. intros Hf. apply decides_lift_schema; destruct o; naive_solver. Qed.
Lemma decides_each {A} (f : A → validation ()) (P : A → Prop) l :
  (∀ x, x ∈ l → decides (f x) (P x)) → decides (for_each f l) (Forall P l).
Proof.
  induction l as [|x l IH]; simpl; intros Hf.
  - eapply conforming_iff; [apply decides_done|]. by rewrite Forall_nil.
  - eapply conforming_iff; [|by rewrite Forall_cons].
    apply decides_seq; [apply Hf, list_elem_of_here|]. apply IH. intros y Hy.
    by apply Hf, list_elem_of_further.
Qed.
Lemma decides_some {A} (o : option A) f (P : A → Prop) :
  (∀ a, o = Some a → decides (f a) (P a)) → decides (if_some o f) (∀ a, o = Some a → P a).
Proof.
  intros Hf. destruct o as [a|]; simpl.
  - eapply conforming_iff; [by apply Hf|]. naive_solver.
  - eapply conforming_iff; [apply decides_done|]. naive_solver.
Qed.
End decides.

(** ** Conformance to a schema

    What the keywords mean, with [conforms] one level deeper as [C]. *)
Section conformance.
Context {N : Type} `{JsonNumber N}.
Abbreviation value := (Value N).

Definition has_type (instance : value) (name : value) : Prop :=
  ∃ type_name, as_str name = Some type_name ∧ matches_single_type instance type_name = Ok true.
Definition allows (C : value → value → Prop) (additional property : value) : Prop :=
  match additional with
  | Bool b => b = true
  | Object _ => C property additional
  | _ => False
  end.

Record satisfies (C : value → value → Prop) (instance : value) (schema : list (text * value)) :
    Prop := {
  sat_type t : get (lit "type") schema = Some t →
    Exists (has_type instance) (match t with Array names => names | _ => [t] end);
  sat_enum e : get (lit "enum") schema = Some e →
    ∃ values candidate, as_array e = Some values ∧ candidate ∈ values
      ∧ value_eqb candidate instance = true;
  sat_required r object : as_object instance = Some object → get (lit "required") schema = Some r →
    ∃ names, as_array r = Some names
      ∧ ∀ name, VString name ∈ names → is_Some (get name object);
  sat_properties p object : as_object instance = Some object →
    get (lit "properties") schema = Some p →
    ∃ properties, as_object p = Some properties
      ∧ ∀ name s v, (name, s) ∈ properties → get name object = Some v → C v s;
  sat_additional a object : as_object instance = Some object →
    get (lit "additionalProperties") schema = Some a →
    ∀ name v, (name, v) ∈ object →
      (∀ p properties, get (lit "properties") schema = Some p → as_object p = Some properties →
         get name properties = None) → allows C a v;
  sat_items i items : as_array instance = Some items → get (lit "items") schema = Some i →
    match i with
    | Array tuple => ∀ n item s, items !! n = Some item → tuple !! n = Some s → C item s
    | _ => Forall (λ item, C item i) items
    end;
  sat_one_of o : get (lit "oneOf") schema = Some o →
    ∃ branches before branch after, as_array o = Some branches
      ∧ branches = before ++ branch :: after ∧ C instance branch
      ∧ Forall (λ b, ¬ C instance b) (before ++ after);
  sat_any_of o : get (lit "anyOf") schema = Some o →
    ∃ branches, as_array o = Some branches ∧ Exists (C instance) branches;
  sat_all_of o : get (lit "allOf") schema = Some o →
    ∃ branches, as_array o = Some branches ∧ Forall (C instance) branches;
  sat_minimum m : get (lit "minimum") schema = Some m → is_Some (as_number instance) →
    number_at_least instance m = Ok true;
  sat_min_length m s : get (lit "minLength") schema = Some m → as_str instance = Some s →
    ∃ n, value_as_u64 m = Some n ∧ (is_u64 (chars_count s) → n ≤ chars_count s);
  sat_format f name : get (lit "format") schema = Some f → as_str f = Some name →
    is_integer_instance instance = true →
    is_any name ["int32"; "int64"; "uint"; "uint16"; "uint32"; "uint64"]%string = true →
    matches_integer_format instance name = true
}.

(** Conformance within [depth] nested schemas. *)
Fixpoint conforms (depth : nat) (root instance schema : value) : Prop :=
  match depth with
  | O => False
  | S depth =>
      match schema with
      | Bool b => b = true
      | Object s =>
          match get (lit "$ref") s with
          | Some r => ∃ reference target, as_str r = Some reference
              ∧ resolve_local_reference root reference = Some target
              ∧ conforms depth root instance target
          | None => satisfies (conforms depth root) instance s
          end
      | _ => False
      end
  end.
End conformance.

Section keywords.
Context {N : Type} `{JsonNumber N}.
Abbreviation value := (Value N).
Context (node : value → value → validation ()) (C : value → value → Prop).
Context (Hnode : ∀ i s, decides (node i s) (C i s)).
Context (instance : value) (schema : list (text * value)).

Lemma matches_single_type_error name e :
  matches_single_type instance name = Err e → e = InvalidSchema.
Proof. unfold matches_single_type. repeat case_match; congruence. Qed.
Lemma matches_any_type_spec names matched r :
  matches_any_type instance matched names = r →
  match r with
  | Ok b => b = true ↔ matched = true ∨ Exists (has_type instance) names
  | Err e => e = InvalidSchema
  end.
Proof.
  intros <-. revert matched. induction names as [|name names IH]; intros matched; simpl.
  - rewrite Exists_nil. tauto.
  - destruct (as_str name) as [s|] eqn:Es; simpl; [|done].
    destruct (matches_single_type instance s) as [b|e] eqn:E; simpl;
      [|by apply matches_single_type_error in E].
    specialize (IH (matched || b)). destruct (matches_any_type _ _ _) as [b'|]; [|done].
    assert (has_type instance name ↔ b = true) as Hn.
    { unfold has_type. rewrite Es. split; [intros (? & [= <-] & ?); congruence|].
      intros ->. by exists s. }
    rewrite IH, Exists_cons, Hn, orb_true_iff. tauto.
Qed.
Lemma matches_type_spec t r :
  matches_type instance t = r →
  match r with
  | Ok b => b = true ↔ Exists (has_type instance) (match t with Array names => names | _ => [t] end)
  | Err e => e = InvalidSchema
  end.
Proof.
  intros <-. destruct t as [| | |s|names|]; try done.
  - simpl. pose proof (matches_any_type_spec [VString s] false _ eq_refl) as Hs. simpl in Hs.
    destruct (matches_single_type instance s); simpl in *; [|done]. rewrite Hs. naive_solver.
  - pose proof (matches_any_type_spec names false _ eq_refl) as Hs. simpl.
    destruct (matches_any_type instance false names); [|done]. rewrite Hs. naive_solver.
Qed.
Lemma check_type_decides : decides (check_type instance schema)
  (∀ t, get (lit "type") schema = Some t →
    Exists (has_type instance) (match t with Array names => names | _ => [t] end)).
Proof.
  apply decides_some. intros t _. apply decides_lift_schema.
  - intros b Hb. apply matches_type_spec in Hb. rewrite <-Hb. apply decides_require.
  - intros e He. by apply matches_type_spec in He.
Qed.

Lemma check_enum_decides : decides (check_enum instance schema)
  (∀ e, get (lit "enum") schema = Some e → ∃ values candidate, as_array e = Some values
    ∧ candidate ∈ values ∧ value_eqb candidate instance = true).
Proof.
  apply decides_some. intros e _. apply decides_schema. intros values Hv.
  eapply conforming_iff; [apply decides_require|]. rewrite existsb_Exists, Exists_exists. naive_solver.
Qed.

Lemma check_required_decides object : decides (check_required schema object)
  (∀ r, get (lit "required") schema = Some r → ∃ names, as_array r = Some names
    ∧ ∀ name, VString name ∈ names → is_Some (get name object)).
Proof.
  apply decides_some. intros r _. apply decides_schema. intros names Hn.
  eapply conforming_iff; [apply (decides_each _
    (λ n, ∀ name, as_str n = Some name → is_Some (get name object)))|].
  - intros n _. apply decides_schema. intros name En. rewrite En.
    eapply conforming_iff; [apply decides_require|]. unfold contains_key.
    destruct (get name object) eqn:Eg; simpl; split; try done.
    + intros _ ? [= <-]. by rewrite Eg.
    + intros Hs. specialize (Hs name eq_refl). rewrite Eg in Hs. by destruct Hs.
  - rewrite Forall_forall. split.
    + intros Hall. exists names. split; [done|]. intros name Hin. by apply (Hall _ Hin).
    + intros (names' & E & Hall) n Hin name En. destruct n; simplify_eq/=. by apply Hall.
Qed.

Lemma check_additional_decides a v : decides (check_additional node a v) (allows C a v).
Proof. destruct a as [| | | | |]; simpl; try (by apply decides_fail; left); [apply decides_require|apply Hnode]. Qed.

Lemma check_properties_decides object : decides (check_properties node schema object)
  ((∀ p, get (lit "properties") schema = Some p →
      ∃ properties, as_object p = Some properties
        ∧ ∀ name s v, (name, s) ∈ properties → get name object = Some v → C v s)
   ∧ (∀ a, get (lit "additionalProperties") schema = Some a →
      ∀ name v, (name, v) ∈ object →
        (∀ p properties, get (lit "properties") schema = Some p → as_object p = Some properties →
           get name properties = None) → allows C a v)).
Proof.
  unfold check_properties. destruct (get (lit "properties") schema) as [p|].
  - apply decides_schema. intros properties Hp.
    eapply conforming_iff; [apply decides_seq|].
    + apply (decides_each _ (λ x, ∀ v, get x.1 object = Some v → C v x.2)).
      intros [name s] _. apply decides_some. intros v _. apply Hnode.
    + apply decides_some. intros a _. apply (decides_each _
        (λ x, get x.1 properties = None → allows C a x.2)).
      intros [name v] _. simpl. unfold contains_key. destruct (get name properties); simpl.
      * eapply conforming_iff; [apply decides_done|]. by split.
      * eapply conforming_iff; [apply check_additional_decides|]. split; [done|]. by intros ?; auto.
    + apply Morphisms_Prop.and_iff_morphism; [rewrite Forall_forall|setoid_rewrite Forall_forall].
      * split.
        -- intros Hall ? [= <-]. exists properties. split; [done|].
           intros name s v Hin. by apply (Hall (name, s)).
        -- intros Hall [name s] Hin v. destruct (Hall p eq_refl) as (? & E & Hs).
           rewrite Hp in E. injection E as <-. by apply Hs.
      * split.
        -- intros Hall a Ha name v Hin Hno. by apply (Hall a Ha (name, v)), (Hno p).
        -- intros Hall a Ha [name v] Hin Hno. apply (Hall a Ha name v Hin).
           intros ? ? [= <-]. simpl in *. congruence.
  - eapply conforming_iff; [apply decides_some|].
    + intros a _. apply (decides_each _ (λ x, allows C a x.2)). intros [name v] _.
      apply check_additional_decides.
    + split.
      * intros Hall. split; [done|]. intros a Ha name v Hin _. specialize (Hall a Ha).
        rewrite Forall_forall in Hall. by apply (Hall (name, v)).
      * intros [_ Hall] a Ha. apply Forall_forall. intros [name v] Hin. by apply (Hall a Ha name v Hin).
Qed.

Lemma check_tuple_decides items tuple : decides (check_tuple node items tuple)
  (∀ n item s, items !! n = Some item → tuple !! n = Some s → C item s).
Proof.
  revert tuple. induction items as [|item items IH]; intros [|s tuple]; simpl;
    try (eapply conforming_iff; [apply decides_done|]; naive_solver).
  eapply conforming_iff; [apply decides_seq; [apply Hnode|apply IH]|]. split.
  - intros [Hs Ht] [|n] i x; simpl; [naive_solver|apply Ht].
  - intros Hall. split; [by apply (Hall O)|]. intros n. apply (Hall (S n)).
Qed.
Lemma check_items_decides items : decides (check_items node schema items)
  (∀ i, get (lit "items") schema = Some i →
    match i with
    | Array tuple => ∀ n item s, items !! n = Some item → tuple !! n = Some s → C item s
    | _ => Forall (λ item, C item i) items
    end).
Proof.
  apply decides_some. intros i _.
  destruct i as [| | | |tuple|]; try (by apply decides_fail; left).
  1, 3: apply decides_each; intros x _; apply Hnode. apply check_tuple_decides.
Qed.

(** The counted branches: as many flags as branches, true where [C] holds. *)
Lemma count_matches_spec branches work n work' :
  count_matches node instance branches work = (Ok n, work') →
  ∃ flags, Forall2 (λ b f, if (f : bool) then C instance b else ¬ C instance b) branches flags
    ∧ n = length (List.filter id flags).
Proof.
  revert work n. induction branches as [|b branches IH]; intros work n; simpl.
  - intros [= <- _]. exists []. by split; [constructor|].
  - destruct (node instance b work) as [[[]|e] work1] eqn:E.
    + unfold mbind, validation_bind.
      destruct (count_matches node instance branches work1) as [[k|] w2] eqn:E2; [|done].
      intros [= <- <-]. destruct (IH _ _ E2) as (flags & Hf & ->).
      exists (true :: flags). split; [|done]. constructor; [|done].
      exact (proj1 (Hnode _ _) _ _ E).
    + destruct e; try done. intros E2. destruct (IH _ _ E2) as (flags & Hf & ->).
      exists (false :: flags). split; [|done]. constructor; [|done].
      exact (proj1 (proj2 (Hnode _ _)) _ _ E).
Qed.
Lemma count_matches_error branches work e work' :
  count_matches node instance branches work = (Err e, work') → undecided e.
Proof.
  revert work. induction branches as [|b branches IH]; intros work; simpl; [done|].
  destruct (node instance b work) as [[[]|e'] work1] eqn:E.
  - unfold mbind, validation_bind.
    destruct (count_matches node instance branches work1) as [[k|] w2] eqn:E2; [done|].
    intros Heq. simplify_eq. exact (IH _ E2).
  - pose proof (proj2 (proj2 (Hnode _ _)) _ _ _ E) as Hv.
    destruct e'; try (intros [= <- _]; by destruct Hv). apply IH.
Qed.

Lemma flags_any branches flags :
  Forall2 (λ b f, if (f : bool) then C instance b else ¬ C instance b) branches flags →
  length (List.filter id flags) ≠ O ↔ Exists (C instance) branches.
Proof.
  induction 1 as [|b f branches flags Hb _ IH]; simpl; [by rewrite Exists_nil|].
  rewrite Exists_cons. destruct f; simpl; [|rewrite IH]; naive_solver lia.
Qed.
Lemma flags_none branches flags :
  Forall2 (λ b f, if (f : bool) then C instance b else ¬ C instance b) branches flags →
  length (List.filter id flags) = O ↔ Forall (λ b, ¬ C instance b) branches.
Proof.
  induction 1 as [|b f branches flags Hb _ IH]; simpl; [by rewrite Forall_nil|].
  rewrite Forall_cons. destruct f; simpl; [|rewrite IH]; naive_solver lia.
Qed.
Lemma flags_one branches flags :
  Forall2 (λ b f, if (f : bool) then C instance b else ¬ C instance b) branches flags →
  length (List.filter id flags) = 1%nat ↔ ∃ before branch after,
    branches = before ++ branch :: after ∧ C instance branch
    ∧ Forall (λ b, ¬ C instance b) (before ++ after).
Proof.
  induction 1 as [|b f branches flags Hb Hf IH]; simpl.
  { split; [done|]. intros ([] & ? & ? & ? & _); done. }
  destruct f; simpl.
  - split.
    + intros [= Hn]. exists [], b, branches. split_and!; [done..|]. by eapply flags_none.
    + intros ([|x before] & y & after & [= -> E] & Hy & Hno); simpl in Hno.
      * subst after. by rewrite (proj2 (flags_none _ _ Hf) Hno).
      * by apply Forall_cons in Hno as [? _].
  - rewrite IH. split.
    + intros (before & y & after & -> & Hy & Hno). exists (b :: before), y, after.
      split_and!; [done..|]. by constructor.
    + intros ([|x before] & y & after & [= -> E] & Hy & Hno); [done|]. simpl in Hno.
      apply Forall_cons in Hno as [_ Hno]. by exists before, y, after.
Qed.

Lemma decides_count branches (f : nat → bool) P :
  (∀ n flags, Forall2 (λ b f, if (f : bool) then C instance b else ¬ C instance b) branches flags →
    n = length (List.filter id flags) → f n = true ↔ P) →
  decides (n ← count_matches node instance branches; require (f n)) P.
Proof.
  intros Hf. unfold mbind, validation_bind. split_and!; [intros w w'|intros w w'|intros w e0 w'];
    destruct (count_matches node instance branches w) as [[n|e] w1] eqn:E.
  - destruct (count_matches_spec _ _ _ _ E) as (flags & Hfl & Hn).
    intros Hr. apply (Hf n flags Hfl Hn). exact (proj1 (decides_require _) _ _ Hr).
  - done.
  - destruct (count_matches_spec _ _ _ _ E) as (flags & Hfl & Hn).
    intros Hr HP. apply (Hf n flags Hfl Hn) in HP.
    exact (proj1 (proj2 (decides_require _)) _ _ Hr HP).
  - intros [= -> _]. apply count_matches_error in E. by apply undecided_not_item in E.
  - apply (decides_require _).
  - intros [= <- _]. apply count_matches_error in E. by right.
Qed.

Lemma check_one_of_decides : decides (check_one_of node instance schema)
  (∀ o, get (lit "oneOf") schema = Some o → ∃ branches before branch after,
    as_array o = Some branches ∧ branches = before ++ branch :: after ∧ C instance branch
    ∧ Forall (λ b, ¬ C instance b) (before ++ after)).
Proof.
  apply decides_some. intros o _. apply decides_schema. intros branches Hb.
  apply decides_count. intros n flags Hf ->. rewrite Nat.eqb_eq, (flags_one _ _ Hf).
  rewrite Hb. split.
  - intros (x & y & z & ? & ?). by exists branches, x, y, z.
  - intros (? & x & y & z & [= <-] & ? & ?). by exists x, y, z.
Qed.
Lemma check_any_of_decides : decides (check_any_of node instance schema)
  (∀ o, get (lit "anyOf") schema = Some o →
    ∃ branches, as_array o = Some branches ∧ Exists (C instance) branches).
Proof.
  apply decides_some. intros o _. apply decides_schema. intros branches Hb.
  apply decides_count. intros n flags Hf ->.
  rewrite negb_true_iff, Nat.eqb_neq, (flags_any _ _ Hf), Hb. naive_solver.
Qed.
Lemma check_all_of_decides : decides (check_all_of node instance schema)
  (∀ o, get (lit "allOf") schema = Some o →
    ∃ branches, as_array o = Some branches ∧ Forall (C instance) branches).
Proof.
  apply decides_some. intros o _. apply decides_schema. intros branches Hb.
  eapply conforming_iff; [apply decides_each; intros b _; apply Hnode|]. rewrite Hb. naive_solver.
Qed.

Lemma number_at_least_error i m e : number_at_least i m = Err e → verdict e.
Proof.
  unfold number_at_least. intros [[_ <-]%ok_or_Err|(? & _ & H1)]%bind_Err; [right; by left|].
  apply bind_Err in H1 as [[_ <-]%ok_or_Err|(? & _ & H1)]; [by left|].
  destruct (as_i64 _); [done|]. destruct (as_u64 _); [done|]. apply ok_or_Err in H1 as [_ <-]. by left.
Qed.
Lemma check_minimum_decides : decides (check_minimum instance schema)
  (∀ m, get (lit "minimum") schema = Some m → is_Some (as_number instance) →
    number_at_least instance m = Ok true).
Proof.
  apply decides_some. intros m _.
  destruct (as_number instance) as [n|] eqn:En; cbn [opt_is_some].
  - apply decides_lift.
    + intros b Hb. eapply conforming_iff; [apply decides_require|]. rewrite Hb. naive_solver.
    + apply number_at_least_error.
    + intros Hb HP. rewrite HP in Hb; [done|by eexists].
  - eapply conforming_iff; [apply decides_done|]. split; [|done]. by intros _ [? ?].
Qed.
Lemma check_min_length_decides : decides (check_min_length instance schema)
  (∀ m, get (lit "minLength") schema = Some m → ∀ s, as_str instance = Some s →
    ∃ n, value_as_u64 m = Some n ∧ (is_u64 (chars_count s) → n ≤ chars_count s)).
Proof.
  apply decides_some. intros m _. apply decides_some. intros s _. apply decides_schema.
  intros n Hn. eapply conforming_iff; [apply decides_require|]. rewrite Hn.
  destruct (u64_try_from (chars_count s)) as [c|] eqn:E; simpl.
  - apply u64_try_from_Some in E as [-> Hu]. split.
    + intros. exists n. split; [done|]. unfold chars_count in *. lia.
    + intros (? & [= <-] & Hle). specialize (Hle Hu). unfold chars_count in *. lia.
  - split; [|done]. intros _. exists n. split; [done|]. intros Hu.
    by rewrite (proj2 (u64_try_from_Some _ (chars_count s))) in E.
Qed.
Lemma check_format_decides : decides (check_format instance schema)
  (∀ f, get (lit "format") schema = Some f → ∀ name, as_str f = Some name →
    is_integer_instance instance = true →
    is_any name ["int32"; "int64"; "uint"; "uint16"; "uint32"; "uint64"]%string = true →
    matches_integer_format instance name = true).
Proof.
  apply decides_some. intros f _. apply decides_schema. intros name Hn.
  eapply conforming_iff; [apply decides_require|]. rewrite Hn.
  rewrite negb_true_iff, !andb_false_iff, negb_false_iff. split.
  - intros [[Hi|Ha]|Hm] ? [= <-] ? ?; congruence.
  - intros Hall. specialize (Hall name eq_refl).
    destruct (is_integer_instance instance); [|tauto]. destruct (is_any name _); tauto.
Qed.

Lemma try_each_error {A} (f : A → result ThreadContractError ()) l e :
  (∀ x e, f x = Err e → e = InvalidSchema) → try_each f l = Err e → e = InvalidSchema.
Proof.
  intros Hf. induction l as [|x l IH]; simpl; [done|]. intros [Hx|(? & _ & Hl)]%bind_Err; eauto.
Qed.
Lemma on_some_error {A} (o : option A) f e :
  (∀ x e, f x = Err e → e = InvalidSchema) → on_some o f = Err e → e = InvalidSchema.
Proof. destruct o; simpl; eauto. done. Qed.
Lemma ensure_error b e : ensure b = Err e → e = InvalidSchema.
Proof. destruct b; simpl; congruence. Qed.
End keywords.

Section decision.
Context {N : Type} `{JsonNumber N}.
Abbreviation value := (Value N).

Ltac shape_error :=
  repeat match goal with
  | |- on_some _ _ = Err _ → _ => apply on_some_error; intros ? ?
  | |- try_each _ _ = Err _ → _ => apply try_each_error; intros ? ?
  | |- ensure _ = Err _ → _ => apply ensure_error
  | |- (ok_or _ _ ≫= _) = Err _ → _ =>
      intros [[_ <-]%ok_or_Err|(? & _ & ?)]%bind_Err; [done|]
  | H : ?r = Err ?e |- ?e = InvalidSchema => revert H
  | |- ensure_schema_value ?v = Err _ → _ => unfold ensure_schema_value
  | |- (match ?x with _ => _ end) = Err _ → _ => destruct x
  | |- Ok _ = Err _ → _ => intros [=]
  | |- Err _ = Err _ → _ => intros [=]; congruence
  end.
Lemma shapes_error (schema : list (text * value)) e :
  validate_schema_keyword_shapes schema = Err e → e = InvalidSchema.
Proof.
  unfold validate_schema_keyword_shapes. intros Hs.
  repeat (apply bind_Err in Hs as [Hs|(_ & _ & Hs)]; [revert Hs; shape_error|]).
  revert Hs. shape_error.
Qed.

Lemma check_keywords_decides node C instance (schema : list (text * value)) :
  (∀ i s, decides (node i s) (C i s)) →
  decides (check_keywords node instance schema) (satisfies C instance schema).
Proof.
  intros Hnode. unfold check_keywords. apply decides_lift_schema; [|by intros ? ?%shapes_error].
  intros _ _. eapply conforming_iff.
  { apply decides_seq; [apply check_type_decides|].
    apply decides_seq; [apply check_enum_decides|].
    apply decides_seq.
    { apply decides_some. intros object _.
      apply decides_seq; [apply check_required_decides|by apply check_properties_decides]. }
    apply decides_seq.
    { apply decides_some. intros items _. by apply check_items_decides. }
    apply decides_seq; [by apply check_one_of_decides|].
    apply decides_seq; [by apply check_any_of_decides|].
    apply decides_seq; [by apply check_all_of_decides|].
    apply decides_seq; [apply check_minimum_decides|].
    apply decides_seq; [apply check_min_length_decides|apply check_format_decides]. }
  split.
  - intros (Ht & He & Hobj & Hit & Ho & Ha & Hl & Hm & Hn & Hf).
    split; try done.
    + intros r object E. by apply Hobj.
    + intros p object E. by apply Hobj.
    + intros a object E. by apply Hobj.
    + intros i items E. by apply Hit.
    + intros m s E E'. by apply (Hn m).
    + intros f name E E'. by apply (Hf f).
  - intros []. split_and!; try done.
    + intros object E. split_and!; [intros r; by apply sat_required0|
        intros p; by apply sat_properties0|intros a; by apply sat_additional0].
    + intros items E i. by apply sat_items0.
    + intros m E s. by apply sat_min_length0.
    + intros f E name. by apply sat_format0.
Qed.

Lemma tick_decides v P : decides v P → decides (_ ← tick; v) P.
Proof.
  intros (Hv & Hv' & He). unfold mbind, validation_bind, tick.
  assert (verdict ValidationBudgetExceeded) as Hb by (right; by right).
  split_and!; [intros w w'|intros w w'|intros w e w'];
    (destruct (u64_checked_add w 1) as [k|]; [|by intros [= <-]]);
    (destruct (MAX_VALIDATION_WORK <? k); [by intros [= <-]|]); [apply Hv|apply Hv'|apply He].
Qed.

Lemma validate_node_decides depth root (instance schema : value) :
  decides (validate_node depth root instance schema) (conforms depth root instance schema).
Proof.
  revert instance schema. induction depth as [|depth IH]; intros instance schema;
    cbn [validate_node conforms]; [by apply decides_fail; right|].
  apply tick_decides. destruct schema as [|b| | | |s]; try (by apply decides_fail; left).
  - destruct b.
    + eapply conforming_iff; [apply decides_done|done].
    + apply (decides_require false).
  - destruct (get (lit "$ref") s) as [r|]; [|by apply check_keywords_decides].
    apply decides_schema. intros reference Hr. apply decides_schema. intros target Ht.
    eapply conforming_iff; [apply IH|]. split; [by exists reference, target|].
    intros (? & ? & ? & ? & ?). simplify_eq. congruence.
Qed.
End decision.

(** C14. The validator decides conformance: an accepted instance conforms to the
    schema (every keyword, [oneOf] by exactly one branch, references resolved in
    the root), and an instance rejected as invalid does not. The only other results
    are the schema error and the budget error, which decide nothing. *)
Theorem validator_decides_conformance {N} `{JsonNumber N} (instance schema : Value N) :
  match validate_instance_against_schema instance schema with
  | Ok () => conforms (S MAX_VALIDATION_DEPTH) schema instance schema
  | Err InvalidItem => ¬ conforms (S MAX_VALIDATION_DEPTH) schema instance schema
  | Err e => e = InvalidSchema ∨ e = ValidationBudgetExceeded
  end.
Proof.
  unfold validate_instance_against_schema, validate_instance_with_root.
  destruct (validate_node_decides (S MAX_VALIDATION_DEPTH) schema instance schema) as (Hok & Hno & Herr).
  destruct (validate_node _ _ _ _ 0) as [[[]|e] w] eqn:E; cbn [fst]; [by eapply Hok|].
  destruct (Herr _ _ _ E) as [-> |He]; [by eapply Hno|]. destruct He as [-> | ->]; auto.
Qed.

(** ** A concrete schema: exactly one branch accepts *)
Definition example_schema : Value Z :=
  Object [(lit "definitions", Object [(lit "Name", Object [(lit "minLength", Number 2)])]);
          (lit "oneOf", Array [Object [(lit "$ref", VString (lit "#/definitions/Name"))];
                               Object [(lit "type", VString (lit "integer"))]])].
Lemma validator_decides_conformance_witness :
  @conforms Z integer_numbers (S MAX_VALIDATION_DEPTH) example_schema (VString (lit "ab")) example_schema
  ∧ ¬ @conforms Z integer_numbers (S MAX_VALIDATION_DEPTH) example_schema (Number 3) example_schema.
Proof.
  split.
  - pose proof (@validator_decides_conformance Z integer_numbers (VString (lit "ab")) example_schema) as Hv.
    assert (@validate_instance_against_schema Z integer_numbers (VString (lit "ab")) example_schema = Ok ()) as E
      by (vm_compute; reflexivity).
    rewrite E in Hv. exact Hv.
  - pose proof (@validator_decides_conformance Z integer_numbers (Number 3) example_schema) as Hv.
    assert (@validate_instance_against_schema Z integer_numbers (Number 3) example_schema = Err InvalidItem) as E
      by (vm_compute; reflexivity).
    rewrite E in Hv. exact Hv.
Defined.
