(* ===== verification/ThreadContract.v ===== *)
(** * Thread pages: items, the cycle accumulator

    Models the request, the item validation and [ThreadCycleAccumulator] of
    [src/thread_contract.rs]. The pinned schema document and the number type of
    the JSON library are parameters. *)

From S2P Require Import Prelude Text Float64 Json JsonSchema Security.

Definition MAX_CURSOR_SCALARS : Z := 1024.
Definition MAX_THREAD_PAGES : Z := 32.
Definition MAX_UNIQUE_THREAD_IDS : Z := 1024.
Definition SOURCE_KINDS : list text := [
  lit "cli"; lit "vscode"; lit "exec"; lit "appServer"; lit "subAgent"; lit "subAgentReview";
  lit "subAgentCompact"; lit "subAgentThreadSpawn"; lit "subAgentOther"; lit "unknown"].

Inductive ThreadReadStatus := Active | Idle | NotLoaded | SystemError.
#[export] Instance ThreadReadStatus_eq_dec : EqDecision ThreadReadStatus.
Proof. solve_decision. Defined.

Definition validate_cursor (cursor : text) : result ThreadContractError () :=
  if in_range 1 MAX_CURSOR_SCALARS (chars_count cursor) then Ok tt else Err InvalidCursor.

(** ** The state of a cycle *)
Inductive PageAcceptance :=
  | NeedNextPage (cursor : text)
  | PageTerminal.
Inductive AccumulatorPhase := Collecting | Terminal | Failed.
#[export] Instance AccumulatorPhase_eq_dec : EqDecision AccumulatorPhase.
Proof. solve_decision. Defined.

Record ValidatedThreadCandidate (N : Type) := {
  tc_raw : Value N;
  tc_id : text;
  tc_created_at : Z;
  tc_updated_at : Z;
  tc_path : option text;
  tc_title : text;
  tc_status : ThreadReadStatus;
  tc_is_subagent : bool;
  tc_parent_thread_id : option text;
  tc_depth : option Z
}.
Arguments tc_raw {N}.
Arguments tc_id {N}.
Arguments tc_created_at {N}.
Arguments tc_updated_at {N}.
Arguments tc_path {N}.
Arguments tc_title {N}.
Arguments tc_status {N}.
Arguments tc_is_subagent {N}.
Arguments tc_parent_thread_id {N}.
Arguments tc_depth {N}.

Record ThreadCycleAccumulator (N : Type) := {
  candidates : gmap text (ValidatedThreadCandidate N);
  seen_ids : gset text;
  rejected_ids : gset text;
  seen_cursors : gset text;
  page_count : Z;
  rejected_count : Z;
  phase : AccumulatorPhase
}.
Arguments candidates {N}.
Arguments seen_ids {N}.
Arguments rejected_ids {N}.
Arguments seen_cursors {N}.
Arguments page_count {N}.
Arguments rejected_count {N}.
Arguments phase {N}.

Section thread_contract.
Context {N : Type} `{JsonNumber N}.
Abbreviation value := (Value N).
Abbreviation candidate := (ValidatedThreadCandidate N).
Abbreviation accumulator := (ThreadCycleAccumulator N).

(** ** The request *)
Definition thread_list_request (cursor : option text) : result ThreadContractError value :=
  _ ← match cursor with Some cursor => validate_cursor cursor | None => Ok tt end;
  let request := map_insert (lit "archived") (Bool false) [] in
  let request := map_insert (lit "limit") (Number (number_of_u64 100)) request in
  let request := map_insert (lit "sortKey") (VString (lit "updated_at")) request in
  let request := map_insert (lit "sortDirection") (VString (lit "desc")) request in
  let request := map_insert (lit "sourceKinds") (Array (map VString SOURCE_KINDS)) request in
  let request := map_insert (lit "useStateDbOnly") (Bool false) request in
  Ok (Object match cursor with
             | Some cursor => map_insert (lit "cursor") (VString cursor) request
             | None => request
             end).

(** ** Items *)
(** [ValidatedThreadCandidate: PartialEq] *)
Definition candidate_eqb (a b : candidate) : bool :=
  value_eqb (tc_raw a) (tc_raw b)
  && text_eqb (tc_id a) (tc_id b)
  && (tc_created_at a =? tc_created_at b)
  && (tc_updated_at a =? tc_updated_at b)
  && bool_decide (tc_path a = tc_path b)
  && text_eqb (tc_title a) (tc_title b)
  && Bool.eqb (tc_is_subagent a) (tc_is_subagent b)
  && bool_decide (tc_parent_thread_id a = tc_parent_thread_id b)
  && bool_decide (tc_depth a = tc_depth b).

Definition thread_relation (object : list (text * value)) : bool * option text * option Z :=
  match get (lit "source") object ?> value_get (lit "subAgent") with
  | None => (false, None, None)
  | Some subagent =>
      match value_get (lit "thread_spawn") subagent ?> as_object with
      | None => (true, None, None)
      | Some spawn =>
          (true, get (lit "parent_thread_id") spawn ?> as_str,
           get (lit "depth") spawn ?> value_as_i64 ?> i32_try_from)
      end
  end.

(** [Path::is_absolute] on Unix: a leading slash. *)
Definition is_absolute (path : text) : bool := starts_with path [47].

Definition status_of (name : text) : option ThreadReadStatus :=
  if text_eqb name (lit "active") then Some Active
  else if text_eqb name (lit "idle") then Some Idle
  else if text_eqb name (lit "notLoaded") then Some NotLoaded
  else if text_eqb name (lit "systemError") then Some SystemError
  else None.

Context (schema_document : result ThreadContractError value).

Definition validate_thread_item (item : value) : result ThreadContractError candidate :=
  schema ← schema_document;
  definitions ← ok_or (value_get (lit "definitions") schema ?> as_object) InvalidSchema;
  thread_schema ← ok_or (get (lit "Thread") definitions) InvalidSchema;
  _ ← validate_instance_with_root item thread_schema schema;
  object ← ok_or (as_object item) InvalidItem;
  updated_at ← ok_or (opt_filter (λ v, 0 <? v) (get (lit "updatedAt") object ?> value_as_i64))
                 InvalidItem;
  created_at ← ok_or (opt_filter (λ v, 0 <? v) (get (lit "createdAt") object ?> value_as_i64))
                 InvalidItem;
  id ← ok_or (opt_filter (λ v, in_range 1 128 (chars_count v)) (get (lit "id") object ?> as_str))
         InvalidItem;
  _ ← ok_or (opt_filter (λ v, negb (bool_decide (v = [])) && is_absolute v)
               (get (lit "cwd") object ?> as_str)) InvalidItem;
  path ← match get (lit "path") object with
         | None | Some Null => Ok None
         | Some (VString v) => if bool_decide (v = []) then Err InvalidItem else Ok (Some v)
         | _ => Err InvalidItem
         end;
  let name := get (lit "name") object ?> as_str in
  preview ← ok_or (get (lit "preview") object ?> as_str) InvalidItem;
  normalized_name ← match name with
                    | Some name => map_err (λ _, InvalidItem) (bounded_thread_title name)
                    | None => Ok []
                    end;
  _ ← map_err (λ _, InvalidItem) (bounded_thread_title preview);
  let title := if bool_decide (normalized_name = []) then lit "未設定" else normalized_name in
  status ← ok_or (get (lit "status") object ?> value_get (lit "type") ?> as_str ?> status_of)
             InvalidItem;
  let '(is_subagent, parent_thread_id, depth) := thread_relation object in
  Ok {| tc_raw := item; tc_id := id; tc_created_at := created_at; tc_updated_at := updated_at;
        tc_path := path; tc_title := title; tc_status := status; tc_is_subagent := is_subagent;
        tc_parent_thread_id := parent_thread_id; tc_depth := depth |}.

(** ** The accumulator *)
Definition accumulator_new : accumulator := {|
  candidates := ∅; seen_ids := ∅; rejected_ids := ∅; seen_cursors := ∅;
  page_count := 0; rejected_count := 0; phase := Collecting |}.

Definition count_rejection (self : accumulator) : result ThreadContractError accumulator :=
  count ← ok_or (u64_checked_add (rejected_count self) 1) ValidationBudgetExceeded;
  Ok {| candidates := candidates self; seen_ids := seen_ids self;
        rejected_ids := rejected_ids self; seen_cursors := seen_cursors self;
        page_count := page_count self; rejected_count := count; phase := phase self |}.

(** The updates of the two collections of candidates. *)
Definition with_candidates (self : accumulator) (cs : gmap text candidate) (seen rejected : gset text) :
    accumulator := {|
  candidates := cs; seen_ids := seen; rejected_ids := rejected;
  seen_cursors := seen_cursors self; page_count := page_count self;
  rejected_count := rejected_count self; phase := phase self |}.

Definition accept_candidate (self : accumulator) (c : candidate) :
    result ThreadContractError accumulator :=
  let id := tc_id c in
  if negb (bool_decide (id ∈ seen_ids self)) then
    reject ValidationBudgetExceeded when
      MAX_UNIQUE_THREAD_IDS <=? Z.of_nat (size (seen_ids self));
    Ok (with_candidates self (<[id := c]> (candidates self)) ({[id]} ∪ seen_ids self)
          (rejected_ids self))
  else if bool_decide (id ∈ rejected_ids self) then count_rejection self
  else
    existing ← ok_or (candidates self !! id) InvalidItem;
    if tc_updated_at existing <? tc_updated_at c then
      Ok (with_candidates self (<[id := c]> (candidates self)) (seen_ids self) (rejected_ids self))
    else if (tc_updated_at c =? tc_updated_at existing) && negb (candidate_eqb c existing) then
      count_rejection
        (with_candidates self (delete id (candidates self)) (seen_ids self)
           ({[id]} ∪ rejected_ids self))
    else Ok self.

(** The loop over the items of a page. *)
Fixpoint accept_items (self : accumulator) (items : list value) :
    result ThreadContractError accumulator :=
  match items with
  | [] => Ok self
  | item :: rest =>
      self ← match validate_thread_item item with
             | Ok c => accept_candidate self c
             | Err InvalidItem => count_rejection self
             | Err error => Err error
             end;
      accept_items self rest
  end.

Definition accept_page_transaction (self : accumulator) (page : value) :
    result ThreadContractError (accumulator * PageAcceptance) :=
  reject ValidationBudgetExceeded when MAX_THREAD_PAGES <=? page_count self;
  object ← ok_or (as_object page) InvalidEnvelope;
  data ← ok_or (get (lit "data") object) InvalidEnvelope;
  data_array ← ok_or (as_array data) InvalidEnvelope;
  let envelope := Object (map_insert (lit "data") (Array []) object) in
  schema ← map_err (λ _, InvalidEnvelope) schema_document;
  reject InvalidEnvelope when negb (is_ok (validate_instance_against_schema envelope schema));
  next_cursor ← match get (lit "nextCursor") object with
                | None | Some Null => Ok None
                | Some (VString cursor) =>
                    _ ← map_err (λ _, InvalidEnvelope) (validate_cursor cursor);
                    Ok (Some cursor)
                | Some _ => Err InvalidEnvelope
                end;
  cursors ← match next_cursor with
            | Some cursor =>
                reject ValidationBudgetExceeded when MAX_THREAD_PAGES <=? page_count self + 1;
                reject InvalidEnvelope when bool_decide (cursor ∈ seen_cursors self);
                Ok ({[cursor]} ∪ seen_cursors self)
            | None => Ok (seen_cursors self)
            end;
  self ← accept_items {| candidates := candidates self; seen_ids := seen_ids self;
           rejected_ids := rejected_ids self; seen_cursors := cursors;
           page_count := page_count self; rejected_count := rejected_count self;
           phase := phase self |} data_array;
  pages ← ok_or (u64_checked_add (page_count self) 1) ValidationBudgetExceeded;
  let finish phase := {| candidates := candidates self; seen_ids := seen_ids self;
    rejected_ids := rejected_ids self; seen_cursors := seen_cursors self; page_count := pages;
    rejected_count := rejected_count self; phase := phase |} in
  Ok match next_cursor with
     | Some cursor => (finish (phase self), NeedNextPage cursor)
     | None => (finish Terminal, PageTerminal)
     end.

Definition with_phase (self : accumulator) (phase : AccumulatorPhase) : accumulator := {|
  candidates := candidates self; seen_ids := seen_ids self; rejected_ids := rejected_ids self;
  seen_cursors := seen_cursors self; page_count := page_count self;
  rejected_count := rejected_count self; phase := phase |}.

(** The new state and the result: the transaction works on a copy. *)
Definition accept_page (self : accumulator) (page : value) :
    accumulator * result ThreadContractError PageAcceptance :=
  if negb (bool_decide (phase self = Collecting)) then (self, Err InvalidRequest)
  else
    match accept_page_transaction self page with
    | Ok (prospective, acceptance) => (prospective, Ok acceptance)
    | Err error => (with_phase self Failed, Err error)
    end.

(** Newest first, then by descending id. *)
Definition candidate_leb (left_ right_ : candidate) : bool :=
  (tc_updated_at right_ <? tc_updated_at left_)
  || (tc_updated_at right_ =? tc_updated_at left_)
     && match text_compare (tc_id right_) (tc_id left_) with Gt => false | _ => true end.
Definition ordered_candidates (self : accumulator) : result ThreadContractError (list candidate) :=
  reject InvalidRequest when negb (bool_decide (phase self = Terminal));
  Ok (sort_by candidate_leb ((map_to_list (candidates self)).*2)).
End thread_contract.

(** ** The order of the candidates *)
Section order.
Context {N : Type}.
Abbreviation candidate := (ValidatedThreadCandidate N).

Lemma candidate_leb_total (a b : candidate) : candidate_leb a b = true ∨ candidate_leb b a = true.
Proof.
  unfold candidate_leb. rewrite (text_compare_antisym (tc_id b) (tc_id a)).
  destruct (text_compare (tc_id b) (tc_id a)); simpl; lia.
Qed.
Lemma candidate_leb_true (a b : candidate) :
  candidate_leb a b = true ↔ tc_updated_at b < tc_updated_at a
    ∨ tc_updated_at b = tc_updated_at a ∧ text_compare (tc_id b) (tc_id a) ≠ Gt.
Proof.
  unfold candidate_leb. rewrite orb_true_iff, andb_true_iff, Z.ltb_lt, Z.eqb_eq.
  destruct (text_compare _ _); naive_solver.
Qed.
Lemma candidate_leb_trans (a b c : candidate) :
  candidate_leb a b = true → candidate_leb b c = true → candidate_leb a c = true.
Proof.
  rewrite !candidate_leb_true. intros [?|[? H]] [?|[? H']]; [left; lia..|right].
  split; [lia|]. by eapply text_compare_trans.
Qed.
End order.

(** ** Which candidate of an id is kept *)
Section cycle.
Context {N : Type} `{JsonNumber N} (schema_document : result ThreadContractError (Value N)).
Abbreviation value := (Value N).
Abbreviation candidate := (ValidatedThreadCandidate N).
Abbreviation accumulator := (ThreadCycleAccumulator N).

(** [same d c]: [d] repeats [c]. *)
Definition same (d c : candidate) : Prop := d = c ∨ candidate_eqb d c = true.
(** [c] is the newest of the offered candidates with its id. *)
Definition newest (cs : list candidate) (c : candidate) : Prop :=
  c ∈ cs ∧ ∀ d, d ∈ cs → tc_id d = tc_id c →
    tc_updated_at d < tc_updated_at c ∨ tc_updated_at d = tc_updated_at c ∧ same d c.
(** Two offered candidates with this id contradict each other. *)
Definition contradicted (cs : list candidate) (id : text) : Prop :=
  ∃ d e, d ∈ cs ∧ e ∈ cs ∧ tc_id d = id ∧ tc_id e = id
    ∧ tc_updated_at d = tc_updated_at e ∧ candidate_eqb d e = false.

Record collected (cs : list candidate) (a : accumulator) : Prop := {
  col_newest id c : candidates a !! id = Some c → tc_id c = id ∧ newest cs c;
  col_rejected id : id ∈ rejected_ids a → contradicted cs id ∧ candidates a !! id = None;
  col_seen id : id ∈ seen_ids a ↔ ∃ d, d ∈ cs ∧ tc_id d = id;
  col_cover id : id ∈ seen_ids a → is_Some (candidates a !! id) ∨ id ∈ rejected_ids a;
  col_size : Z.of_nat (size (seen_ids a)) ≤ MAX_UNIQUE_THREAD_IDS
}.

Lemma collected_new : collected [] accumulator_new.
Proof.
  split; simpl.
  - intros id c. by rewrite lookup_empty.
  - intros id. set_solver.
  - intros id. setoid_rewrite elem_of_nil. set_solver.
  - intros id. set_solver.
- by vm_compute.
Qed.

Lemma contradicted_app cs c id : contradicted cs id → contradicted (cs ++ [c]) id.
Proof.
  intros (d & e & ? & ? & ?). exists d, e. rewrite !elem_of_app. naive_solver.
Qed.
Lemma newest_other cs c k :
  tc_id c ≠ tc_id k → newest cs k → newest (cs ++ [c]) k.
Proof.
  intros Hne [Hin Hall]. split; [apply elem_of_app; by left|].
  intros d [Hd| ->%list_elem_of_singleton]%elem_of_app; [by apply Hall|done].
Qed.
Lemma newest_older cs c k :
  newest cs k → tc_updated_at c < tc_updated_at k
    ∨ tc_updated_at c = tc_updated_at k ∧ same c k → newest (cs ++ [c]) k.
Proof.
  intros [Hin Hall] Hc. split; [apply elem_of_app; by left|].
  intros d [Hd| ->%list_elem_of_singleton]%elem_of_app Hid; [by apply Hall|done].
Qed.
Lemma newest_newer cs c k :
  newest cs k → tc_id k = tc_id c → tc_updated_at k < tc_updated_at c → newest (cs ++ [c]) c.
Proof.
  intros [Hin Hall] Hid Hlt. split; [apply elem_of_app; right; by apply list_elem_of_singleton|].
  intros d [Hd| ->%list_elem_of_singleton]%elem_of_app Hd'; [|by right; split; [|left]].
  left. destruct (Hall d Hd); [congruence|lia|lia].
Qed.

Lemma count_rejection_Ok (a a' : accumulator) :
  count_rejection a = Ok a' → candidates a' = candidates a ∧ seen_ids a' = seen_ids a
    ∧ rejected_ids a' = rejected_ids a ∧ seen_cursors a' = seen_cursors a
    ∧ page_count a' = page_count a ∧ phase a' = phase a.
Proof. intros (? & _ & [= <-])%bind_Ok. done. Qed.
Lemma count_rejection_collected cs (a a' : accumulator) :
  count_rejection a = Ok a' → collected cs a → collected cs a'.
Proof.
  intros (E1 & E2 & E3 & _)%count_rejection_Ok [H1 H2 H3 H4 H5].
  split; rewrite ?E1, ?E2, ?E3; done.
Qed.

(** A newly seen id. *)
Lemma collected_first cs (a : accumulator) c :
  collected cs a → tc_id c ∉ seen_ids a →
  Z.of_nat (size (seen_ids a)) < MAX_UNIQUE_THREAD_IDS →
  collected (cs ++ [c])
    (with_candidates a (<[tc_id c := c]> (candidates a)) ({[tc_id c]} ∪ seen_ids a) (rejected_ids a)).
Proof.
  intros [H1 H2 H3 H4 H5] Hnew Hsize.
  assert (∀ d, d ∈ cs → tc_id d ≠ tc_id c) as Hno.
  { intros d Hd E. apply Hnew, H3. by exists d. }
  split; simpl.
  - intros id k. destruct (decide (tc_id c = id)) as [<-|Hne].
    + rewrite lookup_insert_eq. intros [= ->]. split; [done|].
      split; [apply elem_of_app; right; by apply list_elem_of_singleton|].
      intros d [Hd| ->%list_elem_of_singleton]%elem_of_app E; [by destruct (Hno d Hd)|].
      right. by split; [|left].
    + rewrite lookup_insert_ne by done. intros Hk. destruct (H1 id k Hk) as [<- ?].
      split; [done|]. by apply newest_other.
  - intros id Hid. destruct (H2 id Hid) as [Hcon Hnone]. split; [by apply contradicted_app|].
    rewrite lookup_insert_ne; [done|]. intros <-.
    destruct Hcon as (d & _ & Hd & _ & E & _). by apply (Hno d).
  - intros id. setoid_rewrite elem_of_app. setoid_rewrite list_elem_of_singleton.
    rewrite elem_of_union, elem_of_singleton, H3. naive_solver.
  - intros id. rewrite elem_of_union, elem_of_singleton. intros [->|Hid].
    + left. rewrite lookup_insert_eq. by eexists.
    + destruct (H4 id Hid); [left; by apply lookup_insert_is_Some'; right|by right].
  - rewrite size_union by set_solver. rewrite size_singleton. lia.
Qed.

(** A seen id that gets a newer candidate, or keeps the old one. *)
Lemma collected_again cs (a : accumulator) c existing k :
  collected cs a → candidates a !! tc_id c = Some existing →
  newest (cs ++ [c]) k → tc_id k = tc_id c →
  collected (cs ++ [c])
    (with_candidates a (<[tc_id c := k]> (candidates a)) (seen_ids a) (rejected_ids a)).
Proof.
  intros [H1 H2 H3 H4 H5] Hex Hnew Hk.
  assert (tc_id c ∈ seen_ids a) as Hseen.
  { destruct (H1 _ _ Hex) as [? [Hin _]]. apply H3. by exists existing. }
  split; simpl; [..|done].
  - intros id x. destruct (decide (tc_id c = id)) as [<-|Hne].
    + rewrite lookup_insert_eq. by intros [= <-].
    + rewrite lookup_insert_ne by done. intros Hx. destruct (H1 id x Hx) as [<- ?].
      split; [done|]. by apply newest_other.
  - intros id Hid. destruct (H2 id Hid) as [Hcon Hnone]. split; [by apply contradicted_app|].
    rewrite lookup_insert_ne; [done|]. intros <-. congruence.
  - intros id. setoid_rewrite elem_of_app. setoid_rewrite list_elem_of_singleton.
    rewrite H3. naive_solver.
  - intros id Hid. destruct (H4 id Hid); [left; by apply lookup_insert_is_Some'; right|by right].
Qed.

(** A contradiction removes the id for good. *)
Lemma collected_conflict cs (a : accumulator) c existing :
  collected cs a → candidates a !! tc_id c = Some existing →
  tc_updated_at c = tc_updated_at existing → candidate_eqb c existing = false →
  collected (cs ++ [c])
    (with_candidates a (delete (tc_id c) (candidates a)) (seen_ids a)
       ({[tc_id c]} ∪ rejected_ids a)).
Proof.
  intros [H1 H2 H3 H4 H5] Hex Hup Hne. destruct (H1 _ _ Hex) as [Hid [Hin _]].
  split; simpl; [..|done].
  - intros id x. destruct (decide (tc_id c = id)) as [<-|Hd].
    + by rewrite lookup_delete_eq.
    + rewrite lookup_delete_ne by done. intros Hx. destruct (H1 id x Hx) as [<- ?].
      split; [done|]. by apply newest_other.
  - intros id. rewrite elem_of_union, elem_of_singleton. intros [->|Hr].
    + split; [|by rewrite lookup_delete_eq]. exists c, existing.
      rewrite !elem_of_app, list_elem_of_singleton. naive_solver.
    + destruct (H2 id Hr) as [? Hnone]. split; [by apply contradicted_app|].
      by rewrite lookup_delete_None; right.
  - intros id. setoid_rewrite elem_of_app. setoid_rewrite list_elem_of_singleton.
    rewrite H3. naive_solver.
  - intros id Hs. rewrite elem_of_union, elem_of_singleton.
    destruct (decide (id = tc_id c)) as [->|]; [right; by left|].
    rewrite lookup_delete_ne by done. destruct (H4 id Hs); [by left|right; by right].
Qed.

(** Offering a candidate for an id that stays rejected. *)
Lemma collected_rejected cs (a : accumulator) c :
  collected cs a → tc_id c ∈ rejected_ids a → tc_id c ∈ seen_ids a → collected (cs ++ [c]) a.
Proof.
  intros [H1 H2 H3 H4 H5] Hr Hs. split; [..|done].
  - intros id x Hx. destruct (H1 id x Hx) as [<- ?]. split; [done|]. apply newest_other; [|done].
    intros E. destruct (H2 _ Hr) as [_ Hn]. rewrite E in Hn. congruence.
  - intros id Hid. destruct (H2 id Hid). split; [by apply contradicted_app|done].
  - intros id. setoid_rewrite elem_of_app. setoid_rewrite list_elem_of_singleton.
    rewrite H3 in *. naive_solver.
  - done.
Qed.

Lemma accept_candidate_collected cs (a a' : accumulator) c :
  collected cs a → accept_candidate a c = Ok a' → collected (cs ++ [c]) a'.
Proof.
  intros Hc. unfold accept_candidate.
  destruct (decide (tc_id c ∈ seen_ids a)) as [Hs|Hs].
  - rewrite bool_decide_eq_true_2 by done. cbn [negb].
    destruct (decide (tc_id c ∈ rejected_ids a)) as [Hr|Hr].
    + rewrite bool_decide_eq_true_2 by done. intros Ha.
      eapply count_rejection_collected; [exact Ha|]. by apply collected_rejected.
    + rewrite bool_decide_eq_false_2 by done. intros Ha.
      apply bind_Ok in Ha as (existing & Hex & Ha). apply ok_or_Ok in Hex.
      destruct (col_newest _ _ Hc _ _ Hex) as [Hid Hnew].
      destruct (Z.ltb_spec (tc_updated_at existing) (tc_updated_at c)).
      { injection Ha as <-. eapply collected_again; [done..| |done]. by apply (newest_newer _ _ existing). }
      destruct ((tc_updated_at c =? tc_updated_at existing) && negb (candidate_eqb c existing)) eqn:E.
      * apply andb_true_iff in E as [E1 E2%negb_true_iff].
        eapply count_rejection_collected; [exact Ha|]. eapply collected_conflict; [done..|lia|done].
      * injection Ha as <-. replace a with (with_candidates a (<[tc_id c := existing]> (candidates a))
          (seen_ids a) (rejected_ids a)) by (rewrite insert_id by done; by destruct a).
        eapply collected_again; [done..| |done]. apply newest_older; [done|].
        apply andb_false_iff in E as [E|E%negb_false_iff]; [left; lia|].
        destruct (decide (tc_updated_at c = tc_updated_at existing)); [right; by split; [|right]|left; lia].
  - rewrite bool_decide_eq_false_2 by done. cbn [negb]. intros Ha.
    apply reject_Ok in Ha as [Hsize [= <-]]. apply collected_first; [done|done|lia].
Qed.

(** ** A cycle of pages *)
Definition page_items (page : value) : list value :=
  default [] (as_object page ?> get (lit "data") ?> as_array).
(** The candidates a list of pages offers, in order. *)
Definition offered (pages : list value) : list candidate :=
  flat_map (λ page, filter_map (λ item, result_ok (validate_thread_item schema_document item))
    (page_items page)) pages.
Definition run (a : accumulator) (pages : list value) : accumulator :=
  fold_left (λ a page, (accept_page schema_document a page).1) pages a.

Lemma offered_snoc pages page : offered (pages ++ [page]) = offered pages ++ offered [page].
Proof. unfold offered. by rewrite flat_map_app. Qed.
Lemma run_snoc a pages page :
  run a (pages ++ [page]) = (accept_page schema_document (run a pages) page).1.
Proof. unfold run. by rewrite fold_left_app. Qed.

Lemma accept_candidate_rest (a a' : accumulator) c :
  accept_candidate a c = Ok a' → seen_cursors a' = seen_cursors a
    ∧ page_count a' = page_count a ∧ phase a' = phase a.
Proof.
  unfold accept_candidate. destruct (negb _).
  { by intros [_ [= <-]]%reject_Ok. }
  destruct (bool_decide (tc_id c ∈ rejected_ids a)).
  { intros Ha. apply count_rejection_Ok in Ha. tauto. }
  intros (e & _ & Ha)%bind_Ok. destruct (_ <? _); [by injection Ha as <-|].
  destruct (_ && _); [|by injection Ha as <-].
  apply count_rejection_Ok in Ha as (_ & _ & _ & ? & ? & ?). done.
Qed.

Lemma accept_items_spec items cs (a a' : accumulator) :
  collected cs a → accept_items schema_document a items = Ok a' →
  collected (cs ++ filter_map (λ item, result_ok (validate_thread_item schema_document item)) items) a'
  ∧ seen_cursors a' = seen_cursors a ∧ page_count a' = page_count a ∧ phase a' = phase a.
Proof.
  revert cs a. induction items as [|item items IH]; intros cs a Hc; cbn [accept_items filter_map].
  - intros [= <-]. by rewrite app_nil_r.
  - intros (b & Hb & Ha)%bind_Ok. destruct (validate_thread_item schema_document item) as [c|e];
      cbn [result_ok].
    + destruct (accept_candidate_rest _ _ _ Hb) as (<- & <- & <-).
      rewrite cons_middle, (assoc_L (++)). apply IH; [|done].
      by eapply accept_candidate_collected.
    + destruct e; try done. pose proof (count_rejection_Ok _ _ Hb) as (_ & _ & _ & <- & <- & <-).
      apply IH; [|done]. by eapply count_rejection_collected.
Qed.

Lemma accept_page_transaction_spec cs (a a' : accumulator) page acceptance :
  collected cs a → accept_page_transaction schema_document a page = Ok (a', acceptance) →
  collected (cs ++ offered [page]) a' ∧ page_count a < MAX_THREAD_PAGES
  ∧ page_count a' = page_count a + 1
  ∧ match acceptance with
    | NeedNextPage cursor =>
        phase a' = phase a ∧ page_count a' < MAX_THREAD_PAGES ∧ cursor ∉ seen_cursors a
    | PageTerminal => phase a' = Terminal
    end.
Proof.
  intros Hc. unfold accept_page_transaction. intros [Hpages H1]%reject_Ok.
  apply bind_Ok in H1 as (object & Ho%ok_or_Ok & H1).
  apply bind_Ok in H1 as (data & Hd%ok_or_Ok & H1).
  apply bind_Ok in H1 as (items & Hi%ok_or_Ok & H1).
  apply bind_Ok in H1 as (schema & _ & H1). apply reject_Ok in H1 as [_ H1].
  apply bind_Ok in H1 as (next & _ & H1).
  apply bind_Ok in H1 as (cursors & Hcur & H1).
  apply bind_Ok in H1 as (b & Hb & H1).
  apply bind_Ok in H1 as (pages & Hp & H1). injection H1 as Hacc.
  apply ok_or_Ok, u64_checked_add_Some in Hp as [-> _].
  apply (accept_items_spec _ cs) in Hb as (Hcol & Hbc & Hbp & Hbf);
    [|by destruct Hc; split]. simpl in Hbc, Hbp, Hbf.
  assert (offered [page] = filter_map
    (λ item, result_ok (validate_thread_item schema_document item)) items) as ->.
  { unfold offered, page_items. cbn [flat_map]. rewrite Ho. cbn [and_then]. rewrite Hd.
    cbn [and_then]. rewrite Hi. cbn [default].
    by rewrite app_nil_r. }
  assert (page_count a < MAX_THREAD_PAGES) by lia.
  destruct next as [cursor|]; injection Hacc as <- <-.
  - apply reject_Ok in Hcur as [Hlim Hcur]. apply reject_Ok in Hcur as [Hfresh _].
    apply bool_decide_eq_false in Hfresh. simpl. split_and!; try done; try lia. by destruct Hcol; split.
  - simpl. split_and!; try done; try lia. by destruct Hcol; split.
Qed.

(** What is known after a list of pages. *)
Definition cycle_inv (pages : list value) (a : accumulator) : Prop :=
  match phase a with
  | Collecting =>
      page_count a = Z.of_nat (length pages) ∧ page_count a < MAX_THREAD_PAGES
      ∧ collected (offered pages) a
  | Terminal =>
      ∃ used rest, pages = used ++ rest ∧ Z.of_nat (length used) ≤ MAX_THREAD_PAGES
        ∧ collected (offered used) a
  | Failed => True
  end.

Lemma accept_page_final (a : accumulator) page :
  phase a ≠ Collecting → accept_page schema_document a page = (a, Err InvalidRequest).
Proof. intros Hp. unfold accept_page. by rewrite bool_decide_eq_false_2. Qed.

Lemma run_inv pages : cycle_inv pages (run accumulator_new pages).
Proof.
  induction pages as [|page pages IH] using rev_ind.
  { unfold cycle_inv. simpl. split_and!; [done|done|apply collected_new]. }
  rewrite run_snoc. set (a := run accumulator_new pages) in *.
  destruct (decide (phase a = Collecting)) as [Hp|Hp].
  - unfold cycle_inv in IH. rewrite Hp in IH. destruct IH as (Hn & _ & Hc).
    unfold accept_page. rewrite bool_decide_eq_true_2 by done. cbn [negb].
    destruct (accept_page_transaction schema_document a page) as [[a' acc]|e] eqn:E; [|done].
    apply (accept_page_transaction_spec (offered pages)) in E as (Hc' & Hlt & Hn' & Hacc); [|done].
    rewrite <-offered_snoc in Hc'. unfold cycle_inv. cbn [fst]. destruct acc as [cursor|].
    + destruct Hacc as (-> & ? & _). rewrite Hp, length_app. simpl. split_and!; [lia|done|done].
    + rewrite Hacc. exists (pages ++ [page]), []. rewrite app_nil_r, length_app. simpl.
      split_and!; [done|lia|done].
  - rewrite accept_page_final by done. unfold cycle_inv in *. cbn [fst].
    destruct (phase a); [done| |done]. destruct IH as (used & rest & -> & ? & ?).
    exists used, (rest ++ [page]). by rewrite <-(assoc_L (++)).
Qed.

Lemma ordered_candidates_collected cs (a : accumulator) out :
  collected cs a → ordered_candidates a = Ok out →
  StronglySorted (λ c d, candidate_leb c d = true) out ∧ NoDup (map tc_id out)
  ∧ ∀ c, c ∈ out ↔ candidates a !! tc_id c = Some c.
Proof.
  intros Hc [_ [= <-]]%reject_Ok.
  pose proof (sort_by_perm candidate_leb (map_to_list (candidates a)).*2) as Hp.
  split_and!.
  - apply sort_by_sorted; [apply candidate_leb_total|apply candidate_leb_trans].
  - rewrite Hp. replace (map tc_id (map_to_list (candidates a)).*2)
      with ((map_to_list (candidates a)).*1); [apply NoDup_fst_map_to_list|].
    rewrite <-list_fmap_compose. apply list_fmap_ext. intros i [id c] Hi. simpl.
    apply list_elem_of_lookup_2, elem_of_map_to_list in Hi.
    by destruct (col_newest _ _ Hc _ _ Hi).
  - intros c. rewrite Hp, list_elem_of_fmap. split.
    + intros ([id d] & -> & Hin%elem_of_map_to_list). simpl.
      by destruct (col_newest _ _ Hc _ _ Hin) as [-> _].
    + intros Hin. exists (tc_id c, c). by rewrite elem_of_map_to_list.
Qed.
End cycle.

(** A page cycle ends: whatever pages the server sends, after 32 of them the
    accumulator has stopped collecting, and a stopped accumulator never changes
    again. *)
Theorem cycle_terminates {N} `{JsonNumber N} schema_document (pages : list (Value N)) page :
  MAX_THREAD_PAGES ≤ Z.of_nat (length pages) →
  let a := run schema_document accumulator_new pages in
  phase a ≠ Collecting ∧ accept_page schema_document a page = (a, Err InvalidRequest).
Proof.
  intros Hlen a. assert (phase a ≠ Collecting) as Hp.
  { intros Hp. pose proof (run_inv schema_document pages) as Hi. unfold cycle_inv in Hi.
    fold a in Hi. rewrite Hp in Hi. lia. }
  split; [done|]. by apply accept_page_final.
Qed.

(** A completed cycle yields, newest first and each id once, exactly one
    candidate per usable id: the newest one offered by its pages, all equally new
    repetitions being equal to it. An offered id is missing only when two equally
    new candidates contradicted each other. *)
Theorem completed_cycle_selects_newest {N} `{JsonNumber N} schema_document
    (pages : list (Value N)) out :
  ordered_candidates (run schema_document accumulator_new pages) = Ok out →
  ∃ used rest, pages = used ++ rest ∧ Z.of_nat (length used) ≤ MAX_THREAD_PAGES
  ∧ StronglySorted (λ c d, candidate_leb c d = true) out ∧ NoDup (map tc_id out)
  ∧ (∀ c, c ∈ out → newest (offered schema_document used) c)
  ∧ (∀ d, d ∈ offered schema_document used →
       (∃ c, c ∈ out ∧ tc_id c = tc_id d) ∨ contradicted (offered schema_document used) (tc_id d)).
Proof.
  intros Hout. pose proof (run_inv schema_document pages) as Hi. unfold cycle_inv in Hi.
  pose proof Hout as Hterm. unfold ordered_candidates in Hterm.
  apply reject_Ok in Hterm as [Hterm%negb_false_iff%bool_decide_eq_true _].
  rewrite Hterm in Hi. destruct Hi as (used & rest & -> & Hlen & Hc).
  destruct (ordered_candidates_collected _ _ _ Hc Hout) as (Hs & Hnd & Hin).
  exists used, rest. split_and!; [done..| |].
  - intros c Hcin. apply Hin in Hcin. by destruct (col_newest _ _ Hc _ _ Hcin).
  - intros d Hd. destruct (col_cover _ _ Hc (tc_id d)) as [[c Hcd]|Hr].
    + apply (col_seen _ _ Hc). by exists d.
    + left. destruct (col_newest _ _ Hc _ _ Hcd) as [Hid _]. exists c. rewrite Hin, Hid. done.
    + right. by apply (col_rejected _ _ Hc).
Qed.

(** ** A concrete cycle *)
#[local] Existing Instance integer_numbers.
Definition example_schema : result ThreadContractError (Value Z) :=
  Ok (Object [(lit "definitions",
    Object [(lit "Thread", Object [(lit "type", VString (lit "object"))])])]).
Definition example_item (id : text) (updated_at : Z) (status : text) (parent : option text) :
    Value Z :=
  Object ([(lit "createdAt", Number 1); (lit "cwd", VString (lit "/w")); (lit "id", VString id);
    (lit "path", VString (lit "/r")); (lit "preview", VString (lit "p"))]
    ++ match parent with
       | Some p => [(lit "source", Object [(lit "subAgent", Object [(lit "thread_spawn",
           Object [(lit "parent_thread_id", VString p)])])])]
       | None => []
       end
    ++ [(lit "status", Object [(lit "type", VString status)]); (lit "updatedAt", Number updated_at)]).
(** Two pages: a running root "a" offered twice, its idle child "b", and a
    stopped root "d" with a child "e". *)
Definition example_pages : list (Value Z) := [
  Object [(lit "data", Array [example_item (lit "a") 5 (lit "active") None;
             example_item (lit "b") 7 (lit "idle") (Some (lit "a"))]);
          (lit "nextCursor", VString (lit "n"))];
  Object [(lit "data", Array [example_item (lit "a") 6 (lit "active") None;
             example_item (lit "d") 6 (lit "idle") None;
             example_item (lit "e") 4 (lit "active") (Some (lit "d"))])]].
Definition example_cycle : ThreadCycleAccumulator Z :=
  run example_schema accumulator_new example_pages.
Definition example_candidates : list (ValidatedThreadCandidate Z) :=
  match ordered_candidates example_cycle with Ok cs => cs | Err _ => [] end.
Example example_candidates_ids :
  map (λ c, (tc_id c, tc_updated_at c)) example_candidates
  = [(lit "b", 7); (lit "d", 6); (lit "a", 6); (lit "e", 4)].
Proof. vm_compute. reflexivity. Qed.

Lemma cycle_terminates_witness :
  phase (run example_schema accumulator_new (replicate 32 (@Null Z))) ≠ Collecting
  ∧ accept_page example_schema (run example_schema accumulator_new (replicate 32 Null)) Null
    = (run example_schema accumulator_new (replicate 32 Null), Err InvalidRequest).
Proof. apply (cycle_terminates example_schema (replicate 32 Null) Null). vm_compute. done. Defined.

Lemma completed_cycle_selects_newest_witness :
  ∃ used rest, example_pages = used ++ rest ∧ Z.of_nat (length used) ≤ MAX_THREAD_PAGES
  ∧ StronglySorted (λ c d, candidate_leb c d = true) example_candidates
  ∧ NoDup (map tc_id example_candidates)
  ∧ (∀ c, c ∈ example_candidates → newest (offered example_schema used) c)
  ∧ (∀ d, d ∈ offered example_schema used →
       (∃ c, c ∈ example_candidates ∧ tc_id c = tc_id d)
       ∨ contradicted (offered example_schema used) (tc_id d)).
Proof.
  apply (completed_cycle_selects_newest example_schema example_pages example_candidates).
  vm_compute. reflexivity.
Defined.
