(* ===== verification/Topology.v ===== *)
(** * Parent topology of the selected threads

    Models [validate_selected_thread_topology] of [src/thread_contract.rs]. The
    index map is filled inside [debug_assert!], whose argument is evaluated only
    when the build has debug assertions, so the build mode is a parameter. *)

From S2P Require Import Prelude Text.

Record ThreadTopologyNode := { tn_id : text; tn_parent_thread_id : option text }.
Inductive ThreadTopologyError := Cycle.

(** [None] is the panic of a failed assertion. *)
Fixpoint fill_indices (debug_assertions : bool) (index : nat) (nodes : list ThreadTopologyNode)
    (indices : gmap text nat) : option (gmap text nat) :=
  match nodes with
  | [] => Some indices
  | node :: rest =>
      if debug_assertions then
        match indices !! tn_id node with
        | Some _ => None
        | None => fill_indices debug_assertions (S index) rest (<[tn_id node := index]> indices)
        end
      else fill_indices debug_assertions (S index) rest indices
  end.

Definition parent_indices (indices : gmap text nat) (nodes : list ThreadTopologyNode) :
    list (option nat) :=
  map (λ node, tn_parent_thread_id node ?> λ parent_id, indices !! parent_id) nodes.

(** What the inner loop ends with. [OutOfFuel] stands for not ending, and a
    colour outside 0, 1 and 2 for [unreachable!]. *)
Inductive walk_result :=
  | Walked (colors : list Z) (path : list nat)
  | FoundCycle
  | Unreachable
  | OutOfFuel.

(** The [while let] loop from [current]. *)
Fixpoint walk (fuel : nat) (parents : list (option nat)) (colors : list Z) (path : list nat)
    (current : option nat) : walk_result :=
  match fuel with
  | O => OutOfFuel
  | S fuel =>
      match current with
      | None => Walked colors path
      | Some index =>
          match colors !! index with
          | Some 0 =>
              walk fuel parents (<[index := 1]> colors) (path ++ [index])
                (parents !! index ?> id)
          | Some 1 => FoundCycle
          | Some 2 => Walked colors path
          | _ => Unreachable
          end
      end
  end.

(** [for index in path { colors[index] = 2; }] *)
Definition blacken (colors : list Z) (path : list nat) : list Z :=
  fold_left (λ colors index, <[index := 2]> colors) path colors.

(** The [for start in 0..nodes.len()] loop; every walk colours a node at each
    round but the last, so one more than the number of nodes is enough fuel. *)
Fixpoint scan (parents : list (option nat)) (colors : list Z) (starts : list nat) :
    option (result ThreadTopologyError ()) :=
  match starts with
  | [] => Some (Ok tt)
  | start :: rest =>
      if bool_decide (colors !! start = Some 2) then scan parents colors rest
      else
        match walk (S (length parents)) parents colors [] (Some start) with
        | Walked colors path => scan parents (blacken colors path) rest
        | FoundCycle => Some (Err Cycle)
        | Unreachable | OutOfFuel => None
        end
  end.

(** [None] is a panic (or a walk that does not end). *)
Definition validate_selected_thread_topology (debug_assertions : bool)
    (nodes : list ThreadTopologyNode) : option (result ThreadTopologyError ()) :=
  match fill_indices debug_assertions 0 nodes ∅ with
  | None => None
  | Some indices =>
      scan (parent_indices indices nodes) (replicate (length nodes) 0) (seq 0 (length nodes))
  end.

(** ** Walks along the parents *)
Section walks.
Context (parents : list (option nat)).

Definition parent (i : nat) : option nat := parents !! i ?> id.
Fixpoint ancestor (n : nat) (i : nat) : option nat :=
  match n with
  | O => Some i
  | S n => parent i ?> ancestor n
  end.
(** The chain of parents from [i] ends. *)
Definition rooted (i : nat) : Prop := ∃ n, ancestor n i = None.
Definition on_cycle (i : nat) : Prop := ∃ n, ancestor (S n) i = Some i.

Lemma ancestor_add n m i : ancestor (n + m) i = (ancestor n i ?> ancestor m).
Proof.
  revert i. induction n as [|n IH]; intros i; simpl; [done|].
  destruct (parent i); simpl; [apply IH|done].
Qed.
Lemma ancestor_S_r n i : ancestor (S n) i = (ancestor n i ?> parent).
Proof.
  rewrite <-Nat.add_1_r, ancestor_add. destruct (ancestor n i) as [j|]; simpl; [|done].
  by destruct (parent j).
Qed.
Lemma rooted_parent i : rooted i ↔ match parent i with Some j => rooted j | None => True end.
Proof.
  unfold rooted. split.
  - intros [[|n] Hn]; simpl in Hn; [done|]. destruct (parent i); simpl in Hn; [by exists n|done].
  - destruct (parent i) as [j|] eqn:E.
    + intros [n Hn]. exists (S n). simpl. by rewrite E.
    + intros _. exists 1%nat. simpl. by rewrite E.
Qed.
Lemma on_cycle_not_rooted i : on_cycle i → ¬ rooted i.
Proof.
  intros [k Hk] [n Hn]. revert Hn. assert (∀ m, ancestor (m * S k) i = Some i) as Hm.
  { induction m as [|m IH]; [done|]. change (S m * S k)%nat with (S k + m * S k)%nat.
    by rewrite ancestor_add, Hk. }
  assert (n * S k = n + n * k)%nat as E by lia. specialize (Hm n).
  rewrite E, ancestor_add in Hm. intros Hn. by rewrite Hn in Hm.
Qed.
(** Not being rooted passes to the parent. *)
Lemma not_rooted_parent i : ¬ rooted i → ∃ j, parent i = Some j ∧ ¬ rooted j.
Proof.
  rewrite rooted_parent. destruct (parent i) as [j|]; [by exists j|]. tauto.
Qed.
End walks.

(** ** The invariant of the colouring *)
Section colouring.
Context (parents : list (option nat)).
Let n := length parents.
Context (Hparents : ∀ i j, parent parents i = Some j → (j < n)%nat).

(** Outside the current path the nodes are white (0) or black (2); the path is
    grey (1); black nodes are rooted. *)
Record coloured (colors : list Z) (path : list nat) : Prop := {
  co_length : length colors = n;
  co_grey i : colors !! i = Some 1 ↔ i ∈ path;
  co_values i c : colors !! i = Some c → c = 0 ∨ c = 1 ∨ c = 2;
  co_black i : colors !! i = Some 2 → rooted parents i;
  co_nodup : NoDup path
}.
(** The path follows the parents and ends before [current]. *)
Fixpoint chained (path : list nat) (current : option nat) : Prop :=
  match path with
  | [] => True
  | i :: rest => parent parents i = match rest with [] => current | j :: _ => Some j end
                 ∧ chained rest current
  end.

Lemma chained_snoc path i current :
  chained path (Some i) → parent parents i = current → chained (path ++ [i]) current.
Proof.
  intros Hc Hi. induction path as [|j path IH]; simpl in *; [done|].
  destruct Hc as [Hj Hc]. split; [|by apply IH]. by destruct path.
Qed.
Lemma chained_ancestor path current i rest :
  chained path current → path = i :: rest → ancestor parents (length path) i = current.
Proof.
  revert i rest. induction path as [|j path IH]; intros i rest Hc [= -> ->].
  destruct Hc as [Hj Hc]. simpl. rewrite Hj. destruct rest as [|k rest]; simpl.
  - by destruct current.
  - by apply (IH k rest).
Qed.
Lemma chained_app pre path current : chained (pre ++ path) current → chained path current.
Proof. induction pre as [|j pre IH]; [done|]. intros [_ H]. by apply IH. Qed.
Lemma chained_rooted path current :
  chained path current → match current with Some j => rooted parents j | None => True end →
  Forall (rooted parents) path.
Proof.
  intros Hc Hr. induction path as [|i path IH]; [constructor|]. destruct Hc as [Hi Hc].
  specialize (IH Hc). constructor; [|done]. apply rooted_parent. rewrite Hi.
  destruct path as [|j path]; [done|]. by apply Forall_cons in IH as [? _].
Qed.

(** Stepping on a white node makes it grey. *)
Lemma coloured_grey colors path i :
  coloured colors path → colors !! i = Some 0 →
  coloured (<[i := 1]> colors) (path ++ [i]).
Proof.
  intros [H1 H2 H3 H4 H5] E. pose proof (lookup_lt_Some _ _ _ E) as Hi.
  assert (i ∉ path) as Hnew by (intros Hin%H2; congruence).
  split.
  - by rewrite length_insert.
  - intros j. rewrite elem_of_app, list_elem_of_singleton. destruct (decide (i = j)) as [->|Hne].
    + rewrite list_lookup_insert_eq by done. naive_solver.
    + rewrite list_lookup_insert_ne, H2 by done. naive_solver.
  - intros j c. destruct (decide (i = j)) as [->|Hne].
    + rewrite list_lookup_insert_eq by done. naive_solver.
    + rewrite list_lookup_insert_ne by done. apply H3.
  - intros j. destruct (decide (i = j)) as [->|Hne].
    + by rewrite list_lookup_insert_eq by done.
    + rewrite list_lookup_insert_ne by done. apply H4.
  - apply NoDup_app. split_and!; [done| |apply NoDup_singleton].
    by intros j Hj ->%list_elem_of_singleton.
Qed.
(** A path is not longer than the slice. *)
Lemma coloured_bound colors path : coloured colors path → (length path ≤ n)%nat.
Proof.
  intros Hc. pose proof (submseteq_length path (seq 0 n)) as Hsub. rewrite length_seq in Hsub.
  apply Hsub, NoDup_submseteq; [apply Hc|].
  intros j Hj. apply elem_of_seq. apply (co_grey _ _ Hc), lookup_lt_Some in Hj.
  rewrite (co_length _ _ Hc) in Hj. lia.
Qed.
(** Meeting the path again closes a cycle. *)
Lemma chained_cycle path i : chained path (Some i) → i ∈ path → ∃ i, on_cycle parents i.
Proof.
  intros Hch (pre & post & ->)%list_elem_of_split. exists i, (length post).
  apply chained_app in Hch. change (S (length post)) with (length (i :: post)).
  by eapply chained_ancestor.
Qed.

Lemma walk_spec fuel colors path current :
  coloured colors path → chained path current →
  (∀ i, current = Some i → (i < n)%nat) →
  (n < length path + fuel)%nat → (length path ≤ n)%nat →
  match walk fuel parents colors path current with
  | Walked colors' path' => coloured colors' path' ∧ Forall (rooted parents) path'
      ∧ (∀ i, current = Some i → i ∈ path' ∨ colors' !! i = Some 2)
      ∧ (∀ i, colors !! i = Some 2 → colors' !! i = Some 2)
      ∧ (∀ i, i ∈ path → i ∈ path')
  | FoundCycle => ∃ i, on_cycle parents i
  | Unreachable | OutOfFuel => False
  end.
Proof.
  revert colors path current.
  induction fuel as [|fuel IH]; intros colors path current Hc Hch Hcur Hfuel Hlen; simpl; [lia|].
  destruct current as [i|].
  2: { split_and!; try done. by eapply chained_rooted. }
  assert (i < n)%nat as Hi by (by apply Hcur).
  destruct (colors !! i) as [c|] eqn:E.
  2: { apply lookup_ge_None in E. rewrite (co_length _ _ Hc) in E. lia. }
  destruct (co_values _ _ Hc i c E) as [->|[->| ->]].
  - pose proof (coloured_grey _ _ _ Hc E) as Hc'.
    specialize (IH (<[i := 1]> colors) (path ++ [i]) (parent parents i)).
    change (parents !! i ?> id) with (parent parents i).
    pose proof (coloured_bound _ _ Hc') as Hbound.
    destruct (walk fuel parents _ _ _); try (apply IH; try done);
      try (rewrite length_app in *; simpl in *; lia); try (by apply chained_snoc);
      try (by intros j; apply Hparents).
    destruct IH as (H1 & H2 & H3 & H4 & H5); try done;
      try (rewrite length_app in *; simpl in *; lia); try (by apply chained_snoc).
    { by intros j; apply Hparents. }
    split_and!; [done|done| | |].
    + intros ? [= <-]. left. apply H5, elem_of_app. right. by apply list_elem_of_singleton.
    + intros j Hj. apply H4. rewrite list_lookup_insert_ne; [done|]. intros <-. congruence.
    + intros j Hj. apply H5, elem_of_app. by left.
  - eapply chained_cycle; [done|]. by apply (co_grey _ _ Hc).
  - split_and!; try done.
    + eapply chained_rooted; [done|]. by apply (co_black _ _ Hc).
    + intros ? [= <-]. by right.
Qed.

Lemma blacken_length colors path : length (blacken colors path) = length colors.
Proof.
  unfold blacken. revert colors. induction path as [|j path IH]; intros colors; simpl; [done|].
  by rewrite IH, length_insert.
Qed.
Lemma blacken_lookup colors path i :
  (i < length colors)%nat →
  blacken colors path !! i = if decide (i ∈ path) then Some 2 else colors !! i.
Proof.
  unfold blacken. revert colors. induction path as [|j path IH]; intros colors Hi; cbn [fold_left].
  - rewrite decide_False; [done|]. apply not_elem_of_nil.
  - rewrite IH by (by rewrite length_insert). destruct (decide (i ∈ path)) as [Hin|Hin].
    + rewrite decide_True; [done|]. by apply list_elem_of_further.
    + destruct (decide (j = i)) as [->|Hne].
      * rewrite list_lookup_insert_eq by done. rewrite decide_True; [done|]. apply list_elem_of_here.
      * rewrite list_lookup_insert_ne by done. rewrite decide_False; [done|].
        intros [?|?]%elem_of_cons; congruence.
Qed.
Lemma blacken_coloured colors path :
  coloured colors path → Forall (rooted parents) path → coloured (blacken colors path) [].
Proof.
  intros [H1 H2 H3 H4 H5] Hr. rewrite Forall_forall in Hr.
  assert (∀ i c, blacken colors path !! i = Some c →
    (i ∈ path ∧ c = 2) ∨ ((i ∉ path) ∧ colors !! i = Some c)) as Hb.
  { intros i c Hi. pose proof (lookup_lt_Some _ _ _ Hi) as Hlt. rewrite blacken_length in Hlt.
    rewrite blacken_lookup in Hi by done. destruct (decide (i ∈ path)); naive_solver. }
  split.
  - by rewrite blacken_length.
  - intros i. split; [|by intros ?%elem_of_nil].
    intros [[_ ?]|[Hn Hi]]%Hb; [done|]. by apply H2 in Hi.
  - intros i c [[_ ->]|[_ Hi]]%Hb; [tauto|by eapply H3].
  - intros i [[Hi _]|[_ Hi]]%Hb; auto.
  - constructor.
Qed.

Lemma scan_spec colors starts :
  coloured colors [] → (∀ s, s ∈ starts → (s < n)%nat) →
  (∀ i, (i < n)%nat → i ∉ starts → colors !! i = Some 2) →
  scan parents colors starts = Some (Ok tt) ∧ (∀ i, (i < n)%nat → rooted parents i)
  ∨ scan parents colors starts = Some (Err Cycle) ∧ ∃ i, on_cycle parents i.
Proof.
  revert colors. induction starts as [|s starts IH]; intros colors Hc Hlt Hdone; cbn [scan].
  { left. split; [done|]. intros i Hi. apply (co_black _ _ Hc), Hdone; [done|]. apply not_elem_of_nil. }
  case_bool_decide as Hs.
  - apply IH; [done|by intros; apply Hlt, list_elem_of_further|].
    intros i Hi Hni. destruct (decide (i = s)) as [->|]; [done|]. apply Hdone; [done|].
    by intros [?|?]%elem_of_cons.
  - pose proof (walk_spec (S n) colors [] (Some s) Hc I) as Hw.
    assert (match walk (S n) parents colors [] (Some s) with
      | Walked colors' path' => coloured colors' path' ∧ Forall (rooted parents) path'
          ∧ (∀ i, Some s = Some i → i ∈ path' ∨ colors' !! i = Some 2)
          ∧ (∀ i, colors !! i = Some 2 → colors' !! i = Some 2)
          ∧ (∀ i, i ∈ [] → i ∈ path')
      | FoundCycle => ∃ i, on_cycle parents i
      | Unreachable | OutOfFuel => False
      end) as Hw'.
    { apply Hw; simpl; [|lia|lia]. intros ? [= <-]. apply Hlt, list_elem_of_here. }
    clear Hw. fold n. destruct (walk (S n) parents colors [] (Some s)) as [colors' path'| | |];
      [|by right|done|done].
    destruct Hw' as (Hc' & Hr & Hcov & Hkeep & _).
    apply IH; [by apply blacken_coloured|by intros; apply Hlt, list_elem_of_further|].
    intros i Hi Hni. rewrite blacken_lookup by (rewrite (co_length _ _ Hc'); done).
    destruct (decide (i ∈ path')) as [|Hnp]; [done|].
    destruct (decide (i = s)) as [->|]; [by destruct (Hcov s eq_refl)|].
    apply Hkeep, Hdone; [done|]. by intros [?|?]%elem_of_cons.
Qed.

Lemma white_coloured : coloured (replicate n 0) [].
Proof.
  split.
  - by rewrite length_replicate.
  - intros i. split; [by intros [? _]%lookup_replicate|by intros ?%elem_of_nil].
  - intros i c [-> _]%lookup_replicate. by left.
  - by intros i [? _]%lookup_replicate.
  - constructor.
Qed.
Lemma scan_all :
  scan parents (replicate n 0) (seq 0 n) = Some (Ok tt) ∧ (∀ i, (i < n)%nat → rooted parents i)
  ∨ scan parents (replicate n 0) (seq 0 n) = Some (Err Cycle) ∧ ∃ i, on_cycle parents i.
Proof.
  apply scan_spec; [apply white_coloured|by intros s [_ ?]%elem_of_seq|].
  intros i Hi Hni. destruct Hni. apply elem_of_seq. lia.
Qed.
End colouring.

(** ** The index map *)
Lemma fill_indices_spec (nodes : list ThreadTopologyNode) (k : nat) (m : gmap text nat) :
  NoDup (map tn_id nodes) → (∀ node, node ∈ nodes → m !! tn_id node = None) →
  ∃ m', fill_indices true k nodes m = Some m'
  ∧ ∀ id (j : nat), m' !! id = Some j ↔ m !! id = Some j
      ∨ ∃ (i : nat) node, nodes !! i = Some node ∧ tn_id node = id ∧ j = (k + i)%nat.
Proof.
  revert k m. induction nodes as [|x nodes IH]; intros k m Hnd Hm; simpl.
  { exists m. split; [done|]. intros id j. split; [by left|]. intros [?|(i & ? & ? & _)]; [done|].
    by rewrite lookup_nil in *. }
  rewrite Hm by apply list_elem_of_here. apply NoDup_cons in Hnd as [Hx Hnd].
  destruct (IH (S k) (<[tn_id x := k]> m)) as (m' & -> & Hm'); [done| |].
  { intros y Hy. rewrite lookup_insert_ne; [by apply Hm, list_elem_of_further|].
    intros E. apply Hx. rewrite E. apply list_elem_of_fmap. by exists y. }
  exists m'. split; [done|]. intros id j. rewrite Hm'. split.
  - intros [Hid|(i & y & Hy & <- & ->)].
    + destruct (decide (tn_id x = id)) as [<-|Hne].
      * rewrite lookup_insert_eq in Hid. injection Hid as <-. right. exists O, x.
        split_and!; [done|done|lia].
      * rewrite lookup_insert_ne in Hid by done. by left.
    + right. exists (S i), y. split_and!; [done|done|lia].
  - intros [Hid|([|i] & y & Hy & <- & ->)].
    + left. rewrite lookup_insert_ne; [done|]. intros <-.
      rewrite Hm in Hid by apply list_elem_of_here. done.
    + simpl in Hy. injection Hy as ->. left. rewrite lookup_insert_eq. f_equal. lia.
    + right. exists i, y. split_and!; [done|done|lia].
Qed.

(** The parent edge between two selected threads. *)
Definition child_of (nodes : list ThreadTopologyNode) (a b : text) : Prop :=
  ∃ x y, x ∈ nodes ∧ y ∈ nodes ∧ tn_id x = a ∧ tn_id y = b ∧ tn_parent_thread_id x = Some b.

Section edges.
Context (nodes : list ThreadTopologyNode) (indices : gmap text nat).
Context (Hnd : NoDup (map tn_id nodes)).
Context (Hindices : ∀ id j, indices !! id = Some j ↔
  ∃ node, nodes !! j = Some node ∧ tn_id node = id).
Let parents := parent_indices indices nodes.

Lemma parent_Some i j :
  parent parents i = Some j ↔ ∃ x y, nodes !! i = Some x ∧ nodes !! j = Some y
    ∧ tn_parent_thread_id x = Some (tn_id y).
Proof.
  unfold parent, parents, parent_indices. rewrite list_lookup_fmap.
  destruct (nodes !! i) as [x|] eqn:Ex; simpl; [|naive_solver].
  destruct (tn_parent_thread_id x) as [b|] eqn:Eb; simpl; [|naive_solver].
  unfold id. rewrite Hindices. naive_solver.
Qed.
Lemma parent_lt i j : parent parents i = Some j → (j < length nodes)%nat.
Proof. intros (x & y & _ & Hy & _)%parent_Some. by apply lookup_lt_Some in Hy. Qed.

Lemma ancestor_tc k i j x y :
  ancestor parents (S k) i = Some j → nodes !! i = Some x → nodes !! j = Some y →
  tc (child_of nodes) (tn_id x) (tn_id y).
Proof.
  revert i x. induction k as [|k IH]; intros i x Ha Hx Hy; simpl in Ha.
  - destruct (parent parents i) as [l|] eqn:E; simpl in Ha; [|done]. injection Ha as ->.
    apply parent_Some in E as (x' & y' & Hx' & Hy' & Hp).
    assert (x' = x) as -> by congruence. assert (y' = y) as -> by congruence.
    apply tc_once. exists x, y. split_and!; try done; by eapply list_elem_of_lookup_2.
  - destruct (parent parents i) as [l|] eqn:E; simpl in Ha; [|done].
    apply parent_Some in E as (x' & z & Hx' & Hz & Hp).
    assert (x' = x) as -> by congruence.
    eapply tc_l; [|by eapply (IH l z)].
    exists x, z. split_and!; try done; by eapply list_elem_of_lookup_2.
Qed.

Lemma same_index i j x y :
  nodes !! i = Some x → nodes !! j = Some y → tn_id x = tn_id y → i = j.
Proof.
  intros Hx Hy E. eapply (NoDup_lookup (map tn_id nodes)); [done|..].
  - change (map tn_id nodes) with (tn_id <$> nodes). by rewrite list_lookup_fmap, Hx.
  - change (map tn_id nodes) with (tn_id <$> nodes). by rewrite list_lookup_fmap, Hy, E.
Qed.

Lemma tc_ancestor a b :
  tc (child_of nodes) a b → ∃ i j x y k, nodes !! i = Some x ∧ nodes !! j = Some y
    ∧ tn_id x = a ∧ tn_id y = b ∧ ancestor parents (S k) i = Some j.
Proof.
  induction 1 as [a b (x & y & Hx & Hy & <- & <- & Hp)|a c b (x & z & Hx & Hz & <- & <- & Hp) _ IH].
  - apply list_elem_of_lookup_1 in Hx as [i Hi], Hy as [j Hj].
    exists i, j, x, y, O. split_and!; try done. simpl.
    rewrite (proj2 (parent_Some i j)); [done|]. by exists x, y.
  - destruct IH as (l & j & z' & y & k & Hl & Hj & E & <- & Hk).
    apply list_elem_of_lookup_1 in Hx as [i Hi].
    exists i, j, x, y, (S k). split_and!; try done. cbn [ancestor].
    rewrite (proj2 (parent_Some i l)); [done|]. exists x, z'. split_and!; [done..|congruence].
Qed.
End edges.

(** The check returns on distinct ids, whatever the build. *)
Lemma check_total debug_assertions (nodes : list ThreadTopologyNode) :
  NoDup (map tn_id nodes) →
  ∃ r, validate_selected_thread_topology debug_assertions nodes = Some r.
Proof.
  intros Hnd. unfold validate_selected_thread_topology.
  assert (∃ m, fill_indices debug_assertions 0 nodes ∅ = Some m
    ∧ ∀ id j, m !! id = Some j → (j < length nodes)%nat) as (m & -> & Hm).
  { destruct debug_assertions.
    - destruct (fill_indices_spec nodes 0 ∅ Hnd) as (m & -> & Hm); [by intros; rewrite lookup_empty|].
      exists m. split; [done|]. intros id j. rewrite Hm, lookup_empty.
      intros [?|(i & x & Hi & _ & ->)]; [done|]. by apply lookup_lt_Some in Hi.
    - exists ∅. split; [|by intros; rewrite lookup_empty in *].
      generalize 0%nat (∅ : gmap text nat). clear.
      induction nodes as [|x l IH]; intros k m; simpl; [done|apply IH]. }
  assert (length (parent_indices m nodes) = length nodes) as El by apply length_map.
  pose proof (scan_all (parent_indices m nodes)) as Hs. rewrite El in Hs.
  destruct Hs as [[-> _]|[-> _]]; [|by eexists..].
  intros i j. unfold parent, parent_indices. rewrite list_lookup_fmap.
  destruct (nodes !! i) as [x|]; simpl; [|done].
  destruct (tn_parent_thread_id x) as [p|]; simpl; [apply Hm|done].
Qed.

(** With debug assertions, on threads with distinct ids, the check ends and
    is exact: it accepts exactly the slices in which no thread is its own
    ancestor; missing parents are no error. *)
Theorem topology_check_exact (nodes : list ThreadTopologyNode) :
  NoDup (map tn_id nodes) →
  validate_selected_thread_topology true nodes = Some (Ok tt)
    ∧ (∀ id, ¬ tc (child_of nodes) id id)
  ∨ validate_selected_thread_topology true nodes = Some (Err Cycle)
    ∧ ∃ id, tc (child_of nodes) id id.
Proof.
  intros Hnd. unfold validate_selected_thread_topology.
  destruct (fill_indices_spec nodes 0 ∅ Hnd) as (m & -> & Hm); [by intros; rewrite lookup_empty|].
  assert (∀ id j, m !! id = Some j ↔ ∃ node, nodes !! j = Some node ∧ tn_id node = id) as Hidx.
  { intros id j. rewrite Hm, lookup_empty. naive_solver. }
  pose proof (scan_all (parent_indices m nodes)) as Hs.
  assert (length (parent_indices m nodes) = length nodes) as El by apply length_map.
  rewrite El in Hs. destruct Hs as [[Hok Hr]|[Herr [i [k Hi]]]].
  { intros i j Hp. eapply parent_lt; done. }
  - left. split; [done|]. intros id Htc.
    destruct (tc_ancestor nodes m Hidx id id Htc) as (i & j & x & y & k & Hx & Hy & E & E' & Ha).
    assert (i = j) as <- by (eapply (same_index nodes Hnd); [done|done|congruence]).
    apply lookup_lt_Some in Hx. apply (on_cycle_not_rooted (parent_indices m nodes) i); [by exists k|].
    by apply Hr.
  - right. split; [done|].
    assert (∃ x, nodes !! i = Some x) as [x Hx].
    { simpl in Hi. destruct (parent (parent_indices m nodes) i) as [j|] eqn:E; [|done].
      apply (parent_Some nodes m Hidx) in E as (x & _ & ? & _). by exists x. }
    exists (tn_id x). by eapply (ancestor_tc nodes m Hidx k i i).
Qed.

(** C23. Without debug assertions (a release build) the index map stays empty, so
    no parent is ever found and every slice is accepted, cyclic ones included. *)
Theorem release_topology_check_is_void (nodes : list ThreadTopologyNode) :
  validate_selected_thread_topology false nodes = Some (Ok tt).
Proof.
  unfold validate_selected_thread_topology.
  assert (∀ k m, fill_indices false k nodes m = Some m) as ->.
  { induction nodes as [|x l IH]; intros k m; simpl; [done|apply IH]. }
  pose proof (scan_all (parent_indices ∅ nodes)) as Hs.
  assert (length (parent_indices ∅ nodes) = length nodes) as El by apply length_map.
  assert (∀ i, parent (parent_indices ∅ nodes) i = None) as Hnone.
  { intros i. unfold parent, parent_indices. rewrite list_lookup_fmap.
    destruct (nodes !! i) as [x|]; simpl; [|done]. by destruct (tn_parent_thread_id x). }
  rewrite El in Hs. destruct Hs as [[Hok _]|[_ [i [k Hi]]]]; [|done|].
  - intros i j Hp. by rewrite Hnone in Hp.
  - simpl in Hi. by rewrite Hnone in Hi.
Qed.

(** Two threads that are each other's parent. *)
Definition example_cycle : list ThreadTopologyNode := [
  {| tn_id := lit "a"; tn_parent_thread_id := Some (lit "b") |};
  {| tn_id := lit "b"; tn_parent_thread_id := Some (lit "a") |}].
Example cycle_by_build :
  validate_selected_thread_topology true example_cycle = Some (Err Cycle)
  ∧ validate_selected_thread_topology false example_cycle = Some (Ok tt).
Proof. vm_compute. by split. Qed.

Lemma topology_check_exact_witness :
  validate_selected_thread_topology true example_cycle = Some (Ok tt)
    ∧ (∀ id, ¬ tc (child_of example_cycle) id id)
  ∨ validate_selected_thread_topology true example_cycle = Some (Err Cycle)
    ∧ ∃ id, tc (child_of example_cycle) id id.
Proof.
  apply (topology_check_exact example_cycle). vm_compute.
  repeat constructor; rewrite ?elem_of_cons, ?elem_of_nil; intuition congruence.
Defined.
