(* ===== verification/ThreadSelection.v ===== *)
(** * Selection of the published threads

    Models [select_active_threads_parsed_where] of [src/thread_contract.rs]: a
    completed page cycle is turned into one atomic publication. The filter of
    current candidates and the rollout reader are the closures of the source. *)

From S2P Require Import Prelude Text Json JsonSchema ThreadContract Topology.

Inductive ThreadActivityStatus := Running | Stopped | ActivityUnknown.
#[export] Instance ThreadActivityStatus_eq_dec : EqDecision ThreadActivityStatus.
Proof. solve_decision. Defined.
Definition ThreadActivityStatus_as_str (self : ThreadActivityStatus) : text :=
  lit match self with
      | Running => "running"
      | Stopped => "stopped"
      | ActivityUnknown => "unknown"
      end%string.

Record ValidatedRollout := {
  vr_last_task_running : option bool;
  vr_model : text;
  vr_model_label : text;
  vr_total_tokens : option Z;
  vr_context_usage_tokens : option Z;
  vr_context_window_tokens : option Z;
  vr_last_user_message_at : option Z
}.

Record ActiveThreadSnapshot := {
  as_thread_id : text;
  as_created_at : Z;
  as_updated_at : Z;
  as_title : text;
  as_activity_status : ThreadActivityStatus;
  as_model : text;
  as_model_label : text;
  as_total_tokens : option Z;
  as_context_usage_tokens : option Z;
  as_context_window_tokens : option Z;
  as_last_user_message_at : option Z;
  as_is_subagent : bool;
  as_parent_thread_id : option text;
  as_depth : option Z
}.

Inductive ThreadCycleOutcome :=
  | Snapshots (snapshots : list ActiveThreadSnapshot)
  | NoThread
  | CycleError.

Definition activity_of (status : ThreadReadStatus) (rollout : ValidatedRollout) :
    ThreadActivityStatus :=
  match status with
  | Active => Running
  | Idle => Stopped
  | NotLoaded =>
      match vr_last_task_running rollout with
      | Some true => Running
      | Some false => Stopped
      | None => ActivityUnknown
      end
  | SystemError => ActivityUnknown
  end.

(** ** Exclusion of threads *)
Section exclusion.
Context (snapshots : list ActiveThreadSnapshot).

Definition thread_ids (p : ActiveThreadSnapshot → bool) : gset text :=
  list_to_set (map as_thread_id (List.filter p snapshots)).
(** Children of a thread that is not a candidate. *)
Definition is_orphan (snapshot : ActiveThreadSnapshot) : bool :=
  is_some_and (λ parent_id,
    negb (bool_decide (parent_id = []))
    && negb (bool_decide (parent_id ∈ thread_ids (λ _, true)))) (as_parent_thread_id snapshot).
Definition is_stopped (snapshot : ActiveThreadSnapshot) : bool :=
  bool_decide (as_activity_status snapshot = Stopped).
(** Stopped roots, and children of stopped threads. *)
Definition is_stopped_branch (snapshot : ActiveThreadSnapshot) : bool :=
  match as_parent_thread_id snapshot with
  | None => is_stopped snapshot
  | Some parent_id => bool_decide (parent_id ∈ thread_ids is_stopped)
  end.
Definition is_excluded_child (excluded : gset text) (snapshot : ActiveThreadSnapshot) : bool :=
  is_some_and (λ parent_id,
    bool_decide (parent_id ∈ excluded)
    && negb (bool_decide (as_thread_id snapshot ∈ excluded))) (as_parent_thread_id snapshot).

(** The [loop]: every round but the last excludes a further thread, so one more
    round than there are threads is enough. *)
Fixpoint exclude_children (fuel : nat) (excluded : gset text) : option (gset text) :=
  match fuel with
  | O => None
  | S fuel =>
      let excluded_children := thread_ids (is_excluded_child excluded) in
      if bool_decide (excluded_children = ∅) then Some excluded
      else exclude_children fuel (excluded ∪ excluded_children)
  end.

Definition initially_excluded (topology_is_ok : bool) : gset text :=
  thread_ids is_orphan ∪ (if topology_is_ok then thread_ids is_stopped_branch else ∅).
End exclusion.

Definition topology_of (snapshots : list ActiveThreadSnapshot) : list ThreadTopologyNode :=
  map (λ s, {| tn_id := as_thread_id s; tn_parent_thread_id := as_parent_thread_id s |}) snapshots.

(** What follows the collection of the snapshots. [None] is a panic of the
    topology check, or a loop that does not end. *)
Definition publish (debug_assertions : bool) (snapshots : list ActiveThreadSnapshot) :
    option ThreadCycleOutcome :=
  match validate_selected_thread_topology debug_assertions (topology_of snapshots) with
  | None => None
  | Some topology =>
      excluded ← exclude_children snapshots (S (length snapshots))
                   (initially_excluded snapshots (is_ok topology));
      let retained :=
        List.filter (λ s, negb (bool_decide (as_thread_id s ∈ excluded))) snapshots in
      Some match retained with [] => NoThread | _ => Snapshots retained end
  end.

Section selection.
Context {N : Type} `{JsonNumber N}.
Abbreviation candidate := (ValidatedThreadCandidate N).
Context (debug_assertions : bool) (is_current : candidate → bool)
  (read_rollout : candidate → option ValidatedRollout).

Definition snapshot_of (c : candidate) (rollout : ValidatedRollout) : ActiveThreadSnapshot := {|
  as_thread_id := tc_id c;
  as_created_at := tc_created_at c;
  as_updated_at := tc_updated_at c;
  as_title := tc_title c;
  as_activity_status := activity_of (tc_status c) rollout;
  as_model := vr_model rollout;
  as_model_label := vr_model_label rollout;
  as_total_tokens := vr_total_tokens rollout;
  as_context_usage_tokens := vr_context_usage_tokens rollout;
  as_context_window_tokens := vr_context_window_tokens rollout;
  as_last_user_message_at := vr_last_user_message_at rollout;
  as_is_subagent := tc_is_subagent c;
  as_parent_thread_id := tc_parent_thread_id c;
  as_depth := tc_depth c |}.

(** The loop over the candidates: whether one failed, and the snapshots. *)
Fixpoint collect_snapshots (saw_candidate_failure : bool) (cs : list candidate) :
    bool * list ActiveThreadSnapshot :=
  match cs with
  | [] => (saw_candidate_failure, [])
  | c :: rest =>
      if negb (is_current c) then collect_snapshots saw_candidate_failure rest
      else
        match tc_path c with
        | None => collect_snapshots true rest
        | Some _ =>
            match read_rollout c with
            | None => collect_snapshots true rest
            | Some rollout =>
                let '(failed, snapshots) := collect_snapshots saw_candidate_failure rest in
                (failed, snapshot_of c rollout :: snapshots)
            end
        end
  end.

Definition select_active_threads_parsed_where (accumulator : ThreadCycleAccumulator N) :
    option ThreadCycleOutcome :=
  let saw_candidate_failure := 0 <? rejected_count accumulator in
  match ordered_candidates accumulator with
  | Err _ => Some CycleError
  | Ok cs =>
      let '(failed, snapshots) := collect_snapshots saw_candidate_failure cs in
      if failed then Some CycleError else publish debug_assertions snapshots
  end.
End selection.

(** ** Which threads are dropped *)
Section dropped.
Context (snapshots : list ActiveThreadSnapshot) (topology_is_ok : bool).

(** The reasons to drop a thread: its parent was not collected, it is a stopped
    root or the child of a stopped thread (on a sound topology), or its parent is
    dropped. *)
Inductive dropped : text → Prop :=
  | dropped_initially id : id ∈ initially_excluded snapshots topology_is_ok → dropped id
  | dropped_with_parent s parent_id :
      s ∈ snapshots → as_parent_thread_id s = Some parent_id → dropped parent_id →
      dropped (as_thread_id s).

Lemma elem_of_thread_ids p id :
  id ∈ thread_ids snapshots p ↔ ∃ s, s ∈ snapshots ∧ p s = true ∧ as_thread_id s = id.
Proof.
  unfold thread_ids. rewrite elem_of_list_to_set, list_elem_of_fmap.
  setoid_rewrite elem_of_filter_bool. naive_solver.
Qed.

Lemma exclude_children_spec fuel excluded :
  (∀ id, id ∈ excluded → dropped id) →
  (∀ id, id ∈ initially_excluded snapshots topology_is_ok → id ∈ excluded) →
  (size (thread_ids snapshots (λ _, true) ∖ excluded) < fuel)%nat →
  ∃ final, exclude_children snapshots fuel excluded = Some final
    ∧ ∀ id, id ∈ final ↔ dropped id.
Proof.
  revert excluded. induction fuel as [|fuel IH]; intros excluded Hd Hi Hf; [lia|].
  cbn [exclude_children]. set (children := thread_ids snapshots (is_excluded_child excluded)).
  assert (∀ id, id ∈ children ↔ ∃ s p, s ∈ snapshots ∧ as_thread_id s = id
    ∧ as_parent_thread_id s = Some p ∧ p ∈ excluded ∧ id ∉ excluded) as Hch.
  { intros id. unfold children. rewrite elem_of_thread_ids. unfold is_excluded_child. split.
    - intros (s & Hs & Hp & <-). destruct (as_parent_thread_id s) as [p|] eqn:E; [|done].
      cbn [is_some_and] in Hp. rewrite andb_true_iff, negb_true_iff, bool_decide_eq_true,
        bool_decide_eq_false in Hp. exists s, p. naive_solver.
    - intros (s & p & Hs & <- & E & Hp & Hn). exists s. split_and!; [done| |done].
      rewrite E. cbn [is_some_and]. by rewrite bool_decide_eq_true_2, bool_decide_eq_false_2. }
  case_bool_decide as He.
  - exists excluded. split; [done|]. intros id. split; [apply Hd|].
    induction 1 as [id Hid|s p Hs Hp _ IHp]; [by apply Hi|].
    destruct (decide (as_thread_id s ∈ excluded)) as [|Hn]; [done|]. exfalso.
    assert (as_thread_id s ∈ children) as Hin by (apply Hch; by exists s, p).
    rewrite He in Hin. by apply elem_of_empty in Hin.
  - apply IH.
    + intros id [?|Hid]%elem_of_union; [by apply Hd|].
      apply Hch in Hid as (s & p & Hs & <- & Hp & Hin & _). eapply dropped_with_parent; eauto.
    + intros id Hid. apply elem_of_union. left. by apply Hi.
    + apply set_choose_L in He as [id Hid]. pose proof Hid as Hid'.
      apply Hch in Hid' as (s & _ & Hs & Eid & _ & _ & Hn).
      eapply Nat.lt_le_trans; [|apply Nat.lt_succ_r, Hf]. apply subset_size. split.
      * intros x [? ?]%elem_of_difference. apply elem_of_difference. split; [done|].
        intros ?. set_solver.
      * intros Hsub. assert (id ∈ thread_ids snapshots (λ _, true) ∖ (excluded ∪ children)) as Hbad.
        { apply Hsub, elem_of_difference. split; [|done]. apply elem_of_thread_ids. by exists s. }
        set_solver.
Qed.

Lemma list_to_set_size (l : list text) : (size (list_to_set l : gset text) ≤ length l)%nat.
Proof.
  induction l as [|x l IH]; cbn [list_to_set length]; [done|].
  rewrite size_union_alt, size_singleton.
  assert (size ((list_to_set l : gset text) ∖ {[x]}) ≤ size (list_to_set l : gset text))%nat
    by (apply subseteq_size; set_solver). lia.
Qed.
Lemma thread_ids_size p : (size (thread_ids snapshots p) ≤ length snapshots)%nat.
Proof.
  unfold thread_ids. etrans; [apply list_to_set_size|]. rewrite length_map.
  clear. induction snapshots as [|s l IH]; simpl; [done|]. destruct (p s); simpl; lia.
Qed.
Lemma exclusion_ends :
  ∃ final, exclude_children snapshots (S (length snapshots))
    (initially_excluded snapshots topology_is_ok) = Some final
  ∧ ∀ id, id ∈ final ↔ dropped id.
Proof.
  apply exclude_children_spec; [by constructor|done|].
  pose proof (thread_ids_size (λ _, true)) as Hs.
  apply Nat.lt_succ_r. etrans; [apply subseteq_size, subseteq_difference_l; reflexivity|done].
Qed.
End dropped.

(** ** The published threads *)
Lemma publish_spec debug snapshots topology :
  validate_selected_thread_topology debug (topology_of snapshots) = Some topology →
  ∃ retained,
    publish debug snapshots
      = Some (if bool_decide (retained = []) then NoThread else Snapshots retained)
    ∧ retained `sublist_of` snapshots
    ∧ ∀ s, s ∈ retained ↔ s ∈ snapshots ∧ ¬ dropped snapshots (is_ok topology) (as_thread_id s).
Proof.
  intros Ht. unfold publish. rewrite Ht.
  destruct (exclusion_ends snapshots (is_ok topology)) as (final & -> & Hf). cbn [mbind option_bind].
  set (keep := λ s, negb (bool_decide (as_thread_id s ∈ final))).
  exists (List.filter keep snapshots). split_and!.
  - by destruct (List.filter keep snapshots).
  - clear. induction snapshots as [|s l IH]; simpl; [done|].
    destruct (keep s); [by apply sublist_skip|by apply sublist_cons].
  - intros s. rewrite elem_of_filter_bool. unfold keep.
    rewrite negb_true_iff, bool_decide_eq_false, Hf. tauto.
Qed.

Lemma dropped_stopped_root snapshots s :
  s ∈ snapshots → as_parent_thread_id s = None → as_activity_status s = Stopped →
  dropped snapshots true (as_thread_id s).
Proof.
  intros Hs Hp Ha. apply dropped_initially. unfold initially_excluded.
  apply elem_of_union. right. apply elem_of_thread_ids. exists s. split_and!; [done| |done].
  unfold is_stopped_branch, is_stopped. rewrite Hp. by apply bool_decide_eq_true.
Qed.
Lemma dropped_orphan snapshots ok s parent_id :
  s ∈ snapshots → as_parent_thread_id s = Some parent_id → parent_id ≠ [] →
  (∀ q, q ∈ snapshots → as_thread_id q ≠ parent_id) →
  dropped snapshots ok (as_thread_id s).
Proof.
  intros Hs Hp Hne Hq. apply dropped_initially. unfold initially_excluded.
  apply elem_of_union. left. apply elem_of_thread_ids. exists s. split_and!; [done| |done].
  unfold is_orphan. rewrite Hp. cbn [is_some_and].
  rewrite andb_true_iff, !negb_true_iff, !bool_decide_eq_false. split; [done|].
  intros (q & ? & _ & ?)%elem_of_thread_ids. by apply (Hq q).
Qed.
Lemma dropped_stopped_child snapshots s q :
  s ∈ snapshots → q ∈ snapshots → as_parent_thread_id s = Some (as_thread_id q) →
  as_activity_status q = Stopped → dropped snapshots true (as_thread_id s).
Proof.
  intros Hs Hq Hp Ha. apply dropped_initially. unfold initially_excluded.
  apply elem_of_union. right. apply elem_of_thread_ids. exists s. split_and!; [done| |done].
  unfold is_stopped_branch. rewrite Hp. apply bool_decide_eq_true, elem_of_thread_ids.
  exists q. split_and!; [done| |done]. by apply bool_decide_eq_true.
Qed.

(** *** The collection of the snapshots *)
Section collection.
Context {N : Type} `{JsonNumber N} (is_current : ValidatedThreadCandidate N → bool)
  (read_rollout : ValidatedThreadCandidate N → option ValidatedRollout).

(** What a current candidate must have to be published. *)
Definition readable (c : ValidatedThreadCandidate N) : Prop :=
  is_Some (tc_path c) ∧ is_Some (read_rollout c).
Definition snapshot_from (c : ValidatedThreadCandidate N) (s : ActiveThreadSnapshot) : Prop :=
  ∃ rollout, read_rollout c = Some rollout ∧ s = snapshot_of c rollout.

Lemma collect_snapshots_failed saw cs :
  fst (collect_snapshots is_current read_rollout saw cs) = false ↔
  saw = false ∧ Forall readable (List.filter is_current cs).
Proof.
  revert saw. induction cs as [|c cs IH]; intros saw.
  { simpl. split; [by split; [|constructor]|by intros []]. }
  cbn [collect_snapshots List.filter].
  destruct (is_current c); cbn [negb]; [|apply IH].
  rewrite Forall_cons. unfold readable at 1.
  destruct (tc_path c) as [p|].
  2: { rewrite IH. split; [by intros []|]. by intros (_ & [[? ?] _] & _). }
  destruct (read_rollout c) as [r|].
  2: { rewrite IH. split; [by intros []|]. by intros (_ & [_ [? ?]] & _). }
  specialize (IH saw). destruct (collect_snapshots is_current read_rollout saw cs). simpl in *.
  rewrite IH. split; [intros []; split_and!; eauto|tauto].
Qed.
Lemma collect_snapshots_list saw cs :
  Forall readable (List.filter is_current cs) →
  Forall2 snapshot_from (List.filter is_current cs)
    (snd (collect_snapshots is_current read_rollout saw cs)).
Proof.
  revert saw. induction cs as [|c cs IH]; intros saw; [by constructor|].
  cbn [collect_snapshots List.filter]. destruct (is_current c); cbn [negb]; [|apply IH].
  intros [[[p ->] [r Hr]] Hall]%Forall_cons. rewrite Hr. specialize (IH saw Hall).
  destruct (collect_snapshots is_current read_rollout saw cs). simpl in *.
  constructor; [|done]. by exists r.
Qed.
End collection.

Section outcome.
Context {N : Type} `{JsonNumber N} (debug_assertions : bool)
  (is_current : ValidatedThreadCandidate N → bool)
  (read_rollout : ValidatedThreadCandidate N → option ValidatedRollout).
Abbreviation select := (select_active_threads_parsed_where debug_assertions is_current read_rollout).

Lemma select_split accumulator cs :
  ordered_candidates accumulator = Ok cs →
  (0 < rejected_count accumulator ∨ ¬ Forall (readable read_rollout) (List.filter is_current cs))
    ∧ select accumulator = Some CycleError
  ∨ rejected_count accumulator ≤ 0 ∧ Forall (readable read_rollout) (List.filter is_current cs)
    ∧ ∃ snapshots, Forall2 (snapshot_from read_rollout) (List.filter is_current cs) snapshots
      ∧ select accumulator = publish debug_assertions snapshots.
Proof.
  intros Hcs. unfold select_active_threads_parsed_where. rewrite Hcs.
  set (saw := 0 <? rejected_count accumulator).
  pose proof (collect_snapshots_failed is_current read_rollout saw cs) as Hf.
  pose proof (collect_snapshots_list is_current read_rollout saw cs) as Hl.
  destruct (collect_snapshots is_current read_rollout saw cs) as [[] snapshots]; cbn [fst snd] in *.
  - left. split; [|done]. destruct (decide (0 < rejected_count accumulator)) as [|Hz]; [by left|].
    right. intros Hall. assert (saw = false) by (unfold saw; lia). naive_solver.
  - right. apply proj1 in Hf. destruct (Hf eq_refl) as [Hz Hall]. unfold saw in Hz.
    split_and!; [lia|done|]. exists snapshots. auto.
Qed.
Lemma snapshots_ids cs snapshots :
  Forall2 (snapshot_from read_rollout) cs snapshots → map as_thread_id snapshots = map tc_id cs.
Proof. induction 1 as [|c s cs l (r & _ & ->) _ IH]; simpl; [done|by rewrite IH]. Qed.
Lemma NoDup_filter_ids {A} (p : A → bool) (f : A → text) (l : list A) :
  NoDup (map f l) → NoDup (map f (List.filter p l)).
Proof.
  induction l as [|x l IH]; simpl; [done|]. intros [Hx Hl]%NoDup_cons.
  destruct (p x); [|by apply IH]. simpl. apply NoDup_cons. split; [|by apply IH].
  intros Hin. apply Hx. apply list_elem_of_fmap in Hin as (y & E & Hy).
  apply elem_of_filter_bool in Hy as [Hy _]. apply list_elem_of_fmap. by exists y.
Qed.
Lemma topology_total snapshots :
  NoDup (map as_thread_id snapshots) →
  is_Some (validate_selected_thread_topology debug_assertions (topology_of snapshots)).
Proof.
  intros Hnd. apply check_total. unfold topology_of. by rewrite map_map.
Qed.
End outcome.

Lemma run_ids_distinct {N} `{JsonNumber N} schema_document (pages : list (Value N)) cs :
  ordered_candidates (run schema_document accumulator_new pages) = Ok cs → NoDup (map tc_id cs).
Proof.
  intros Hcs. pose proof (run_inv schema_document pages) as Hi. unfold cycle_inv in Hi.
  pose proof Hcs as Hterm. unfold ordered_candidates in Hterm.
  apply reject_Ok in Hterm as [Hterm%negb_false_iff%bool_decide_eq_true _].
  rewrite Hterm in Hi. destruct Hi as (used & rest & -> & _ & Hc).
  by destruct (ordered_candidates_collected _ _ _ Hc Hcs) as (_ & ? & _).
Qed.

(** A completed cycle is published as one unit, in either build and without
    a panic or a loop that does not end: it is an error exactly when an item was
    rejected or a current candidate has no path or no readable rollout; otherwise
    the snapshots of all current candidates are published, in order, less exactly
    the threads [dropped] describes, and an empty rest is [NoThread]. *)
Theorem selection_outcome {N} `{JsonNumber N} schema_document (pages : list (Value N))
    debug_assertions is_current read_rollout cs :
  let a := run schema_document accumulator_new pages in
  let current := List.filter is_current cs in
  let selected := select_active_threads_parsed_where debug_assertions is_current read_rollout a in
  ordered_candidates a = Ok cs →
  (0 < rejected_count a ∨ ¬ Forall (readable read_rollout) current) ∧ selected = Some CycleError
  ∨ rejected_count a ≤ 0 ∧ Forall (readable read_rollout) current
    ∧ ∃ snapshots topology retained,
        Forall2 (snapshot_from read_rollout) current snapshots
        ∧ validate_selected_thread_topology debug_assertions (topology_of snapshots) = Some topology
        ∧ selected = Some (if bool_decide (retained = []) then NoThread else Snapshots retained)
        ∧ retained `sublist_of` snapshots
        ∧ ∀ s, s ∈ retained ↔
            s ∈ snapshots ∧ ¬ dropped snapshots (is_ok topology) (as_thread_id s).
Proof.
  intros a current selected Hcs.
  destruct (select_split debug_assertions is_current read_rollout a cs Hcs)
    as [?|(Hz & Hall & snapshots & Hs & Hsel)]; [by left|right].
  split_and!; [done|done|].
  destruct (topology_total debug_assertions snapshots) as [topology Ht].
  { rewrite (snapshots_ids _ _ _ Hs). by eapply NoDup_filter_ids, run_ids_distinct. }
  destruct (publish_spec debug_assertions snapshots topology Ht) as (retained & Hp & Hsub & Hr).
  exists snapshots, topology, retained. split_and!; try done. unfold selected. by rewrite Hsel.
Qed.

(** C22. What is published hangs together: the named parent of a published thread
    is published too, and when the topology check accepted the cycle, no stopped
    root and no child of a stopped thread is published. *)
Theorem published_threads_hang_together debug_assertions snapshots out :
  publish debug_assertions snapshots = Some (Snapshots out) →
  (∀ s parent_id, s ∈ out → as_parent_thread_id s = Some parent_id → parent_id ≠ [] →
     ∃ q, q ∈ out ∧ as_thread_id q = parent_id)
  ∧ (validate_selected_thread_topology debug_assertions (topology_of snapshots) = Some (Ok tt) →
     ∀ s, s ∈ out → (as_parent_thread_id s = None → as_activity_status s ≠ Stopped)
       ∧ ∀ q, q ∈ snapshots → as_parent_thread_id s = Some (as_thread_id q) →
           as_activity_status q ≠ Stopped).
Proof.
  intros Hpub.
  destruct (validate_selected_thread_topology debug_assertions (topology_of snapshots))
    as [topology|] eqn:Ht; [|by unfold publish in Hpub; rewrite Ht in Hpub].
  destruct (publish_spec _ _ _ Ht) as (retained & Hp & _ & Hr). rewrite Hp in Hpub.
  case_bool_decide; [done|]. injection Hpub as <-. split.
  - intros s p [Hs Hd]%Hr Hpar Hne. destruct (existsb (λ q, text_eqb (as_thread_id q) p) snapshots) eqn:E.
    + apply existsb_exists in E as (q & Hq%list_elem_of_In & Eq%text_eqb_true). exists q. split; [|done].
      apply Hr. split; [done|]. rewrite Eq. intros Hd'. apply Hd. by eapply dropped_with_parent.
    + destruct Hd. eapply dropped_orphan; [done..|]. intros q Hq Eq.
      enough (existsb (λ q, text_eqb (as_thread_id q) p) snapshots = true) by congruence.
      apply existsb_exists. exists q. split; [by apply list_elem_of_In|]. by apply text_eqb_true.
  - intros [= ->] s [Hs Hd]%Hr. simpl in Hd. split.
    + intros Hpar Hst. destruct Hd. by apply dropped_stopped_root.
    + intros q Hq Hpar Hst. destruct Hd. by eapply dropped_stopped_child.
Qed.

(** ** A concrete publication *)
#[local] Existing Instance integer_numbers.
Definition example_rollout : ValidatedRollout := {|
  vr_last_task_running := None; vr_model := lit "m"; vr_model_label := lit "M";
  vr_total_tokens := Some 3; vr_context_usage_tokens := None; vr_context_window_tokens := None;
  vr_last_user_message_at := None |}.
Definition example_snapshots : list ActiveThreadSnapshot :=
  map (λ c, snapshot_of c example_rollout) example_candidates.
Definition example_published : list ActiveThreadSnapshot :=
  match publish false example_snapshots with Some (Snapshots out) => out | _ => [] end.
Example example_published_ids :
  map as_thread_id example_published = [lit "b"; lit "a"]
  ∧ select_active_threads_parsed_where true (λ _, true) (λ _, Some example_rollout)
      ThreadContract.example_cycle = Some (Snapshots example_published)
  ∧ select_active_threads_parsed_where false (λ _, true) (λ _, None) ThreadContract.example_cycle
      = Some CycleError.
Proof. vm_compute. done. Qed.

(** Stopped threads on a parent cycle: the comment of the source asks for them to
    be left in the publication, and a release build drops them. *)
Definition stopped_cycle : list ActiveThreadSnapshot :=
  map (λ ids, {| as_thread_id := fst ids; as_created_at := 1; as_updated_at := 1;
    as_title := []; as_activity_status := Stopped; as_model := []; as_model_label := [];
    as_total_tokens := None; as_context_usage_tokens := None; as_context_window_tokens := None;
    as_last_user_message_at := None; as_is_subagent := true; as_parent_thread_id := Some (snd ids);
    as_depth := None |}) [(lit "a", lit "b"); (lit "b", lit "a")].
Example stopped_cycle_by_build :
  publish true stopped_cycle = Some (Snapshots stopped_cycle)
  ∧ publish false stopped_cycle = Some NoThread.
Proof. vm_compute. done. Qed.

Lemma selection_outcome_witness :
  let selected := select_active_threads_parsed_where true (λ _, true) (λ _, Some example_rollout)
    ThreadContract.example_cycle in
  let current := List.filter (λ _, true) example_candidates in
  let read_rollout := λ _ : ValidatedThreadCandidate Z, Some example_rollout in
  (0 < rejected_count ThreadContract.example_cycle ∨ ¬ Forall (readable read_rollout) current)
    ∧ selected = Some CycleError
  ∨ rejected_count ThreadContract.example_cycle ≤ 0 ∧ Forall (readable read_rollout) current
    ∧ ∃ snapshots topology retained,
        Forall2 (snapshot_from read_rollout) current snapshots
        ∧ validate_selected_thread_topology true (topology_of snapshots) = Some topology
        ∧ selected = Some (if bool_decide (retained = []) then NoThread else Snapshots retained)
        ∧ retained `sublist_of` snapshots
        ∧ ∀ s, s ∈ retained ↔
            s ∈ snapshots ∧ ¬ dropped snapshots (is_ok topology) (as_thread_id s).
Proof.
  apply (selection_outcome example_schema example_pages true (λ _, true)
    (λ _, Some example_rollout) example_candidates).
  vm_compute. reflexivity.
Defined.

Lemma published_threads_hang_together_witness :
  (∀ s parent_id, s ∈ example_published → as_parent_thread_id s = Some parent_id →
     parent_id ≠ [] → ∃ q, q ∈ example_published ∧ as_thread_id q = parent_id)
  ∧ (validate_selected_thread_topology false (topology_of example_snapshots) = Some (Ok tt) →
     ∀ s, s ∈ example_published →
       (as_parent_thread_id s = None → as_activity_status s ≠ Stopped)
       ∧ ∀ q, q ∈ example_snapshots → as_parent_thread_id s = Some (as_thread_id q) →
           as_activity_status q ≠ Stopped).
Proof.
  apply (published_threads_hang_together false example_snapshots example_published).
  vm_compute. reflexivity.
Defined.
