(* ===== verification/Pricing.v ===== *)
(** * Reference prices

    Models [crates/codex-info-pricing/src/lib.rs]. The catalog is data parsed at
    run time: a parameter. *)

From S2P Require Import Prelude Text Float64.

Record Usage := {
  u_input_tokens : Z;
  u_cached_input_tokens : Z;
  u_cache_write_input_tokens : option Z;
  u_output_tokens : Z
}.
Record Cost := {
  c_price_version : text;
  c_ordinary_input_dollars : f64;
  c_cached_input_dollars : f64;
  c_cache_write_input_dollars : f64;
  c_output_dollars : f64;
  c_total_dollars : f64
}.
Record Rates := {
  r_input : f64;
  r_cached_input : f64;
  r_cache_write_input : f64;
  r_output : f64
}.
Record Revision := {
  rev_id : text;
  rev_observed_at : Z;
  rev_models : gmap text Rates
}.
Record Catalog := { revisions : list Revision }.

Definition million : f64 := f64_of_Z 1000000.
Definition dollars (tokens : Z) (rate : f64) : f64 :=
  f64_mul (f64_div (f64_of_Z tokens) million) rate.

Definition calculate (rates : Rates) (version : text) (usage : Usage) : option Cost :=
  writes ← u_cache_write_input_tokens usage;
  uncached ← u64_checked_sub (u_input_tokens usage) (u_cached_input_tokens usage);
  ordinary ← u64_checked_sub uncached writes;
  let ordinary_input_dollars := dollars ordinary (r_input rates) in
  let cached_input_dollars := dollars (u_cached_input_tokens usage) (r_cached_input rates) in
  let cache_write_input_dollars := dollars writes (r_cache_write_input rates) in
  let output_dollars := dollars (u_output_tokens usage) (r_output rates) in
  let total_dollars :=
    f64_add (f64_add (f64_add ordinary_input_dollars cached_input_dollars)
      cache_write_input_dollars) output_dollars in
  then_some (f64_is_finite total_dollars)
    {| c_price_version := version; c_ordinary_input_dollars := ordinary_input_dollars;
       c_cached_input_dollars := cached_input_dollars;
       c_cache_write_input_dollars := cache_write_input_dollars;
       c_output_dollars := output_dollars; c_total_dollars := total_dollars |}.

Definition price (revision : Revision) (model : text) (usage : Usage) : option Cost :=
  rates ← rev_models revision !! to_ascii_lowercase (trim model);
  calculate rates (rev_id revision) usage.

Section catalog.
Context (catalog : option Catalog).
Definition estimate (model : text) (usage : Usage) : option Cost :=
  catalog ← catalog;
  revision ← last (revisions catalog);
  price revision model usage.
Definition estimate_at (model : text) (usage : Usage) (observed_at : Z) : option Cost :=
  catalog ← catalog;
  revision ← List.find (λ r, rev_observed_at r <=? observed_at) (rev (revisions catalog));
  price revision model usage.
Definition estimate_with_revision (model : text) (usage : Usage) (revision : text) : option Cost :=
  catalog ← catalog;
  revision ← List.find (λ r, text_eqb (rev_id r) revision) (revisions catalog);
  price revision model usage.
End catalog.

Definition family (model : text) : option text :=
  let model := to_ascii_lowercase (trim model) in
  if is_any model ["sol"; "gpt-6.1-sol"; "gpt-6-sol"; "gpt-5.6-sol"] then Some (lit "SOL")
  else if is_any model ["terra"; "gpt-5.6-terra"] then Some (lit "TERRA")
  else if is_any model ["luna"; "gpt-6-luna"; "gpt-5.6-luna"] then Some (lit "LUNA")
  else if is_any model ["astra"; "gpt-6-astra"] then Some (lit "ASTRA")
  else None.

Definition rates_of (input cached write output : f64) : Rates := {|
  r_input := input; r_cached_input := cached; r_cache_write_input := write; r_output := output |}.
Definition estimate_legacy (model : text) (usage : Usage) : option Cost :=
  let name := to_ascii_uppercase (trim model) in
  let local rates := calculate rates (lit "LOCAL_ESTIMATE_V1_2026-08-14") usage in
  if text_eqb name (lit "ASTRA") then
    calculate (rates_of (f64_of_Z 10) (f64_of_Z 1) (f64_ratio 125 10) (f64_of_Z 50))
      (lit "ASTRA_USER_2026-09-05") usage
  else if bool_decide (u_cache_write_input_tokens usage = Some 0) then
    if text_eqb name (lit "SOL") then
      local (rates_of (f64_of_Z 5) (f64_ratio 5 10) f64_zero (f64_of_Z 30))
    else if text_eqb name (lit "TERRA") then
      local (rates_of (f64_of_Z 2) (f64_ratio 2 10) f64_zero (f64_of_Z 12))
    else if text_eqb name (lit "LUNA") then
      local (rates_of (f64_ratio 2 10) (f64_ratio 2 100) f64_zero (f64_ratio 12 10))
    else None
  else None.

Section laws.
Lemma find_last {A} (f : A → bool) (l : list A) x :
  List.find f (rev l) = Some x ↔
  ∃ before after, l = before ++ x :: after ∧ f x = true ∧ Forall (λ y, f y = false) after.
Proof.
  induction l as [|y l IH] using rev_ind; simpl.
  { split; [done|]. by intros ([] & ? & ? & _). }
  rewrite rev_app_distr. simpl. destruct (f y) eqn:E.
  - split.
    + intros [= <-]. by exists l, [].
    + intros (before & after & El & Hx & Ha). destruct after as [|z after _] using rev_ind.
      * by apply app_inj_tail in El as [_ ->].
      * rewrite app_comm_cons, (assoc_L (++)) in El. apply app_inj_tail in El as [_ ->].
        apply Forall_app in Ha as [_ Ha]. rewrite Forall_singleton in Ha. congruence.
  - rewrite IH. split.
    + intros (before & after & -> & Hx & Ha). exists before, (after ++ [y]).
      rewrite <-(assoc_L (++)). split_and!; [done|done|]. apply Forall_app. by rewrite Forall_singleton.
    + intros (before & after & El & Hx & Ha). destruct after as [|z after _] using rev_ind.
      * apply app_inj_tail in El as [_ ->]. congruence.
      * rewrite app_comm_cons, (assoc_L (++)) in El. apply app_inj_tail in El as [-> ->].
        apply Forall_app in Ha as [Ha _]. by exists before, after.
Qed.

(** A revision prices the usage of a model at this cost. *)
Definition priced (revision : Revision) (model : text) (usage : Usage) (cost : Cost) : Prop :=
  ∃ rates writes,
    rev_models revision !! to_ascii_lowercase (trim model) = Some rates
    ∧ u_cache_write_input_tokens usage = Some writes
    ∧ u_cached_input_tokens usage ≤ u_input_tokens usage
    ∧ writes ≤ u_input_tokens usage - u_cached_input_tokens usage
    ∧ c_price_version cost = rev_id revision
    ∧ c_ordinary_input_dollars cost =
        dollars (u_input_tokens usage - u_cached_input_tokens usage - writes) (r_input rates)
    ∧ c_cached_input_dollars cost = dollars (u_cached_input_tokens usage) (r_cached_input rates)
    ∧ c_cache_write_input_dollars cost = dollars writes (r_cache_write_input rates)
    ∧ c_output_dollars cost = dollars (u_output_tokens usage) (r_output rates)
    ∧ c_total_dollars cost =
        f64_add (f64_add (f64_add (c_ordinary_input_dollars cost) (c_cached_input_dollars cost))
          (c_cache_write_input_dollars cost)) (c_output_dollars cost)
    ∧ f64_is_finite (c_total_dollars cost) = true.
Lemma bind_Some_iff {A B} (o : option A) (f : A → option B) b :
  (o ≫= f) = Some b ↔ ∃ a, o = Some a ∧ f a = Some b.
Proof. destruct o; simpl; naive_solver. Qed.
Lemma price_Some revision model usage cost :
  price revision model usage = Some cost ↔ priced revision model usage cost.
Proof.
  unfold price, calculate, priced. rewrite bind_Some_iff. split.
  - intros (rates & Hr & (writes & Hw & (u & Hu & (o & Ho & Hc)%bind_Some_iff)%bind_Some_iff)%bind_Some_iff).
    apply u64_checked_sub_Some in Hu as [-> ?], Ho as [-> ?].
    destruct (f64_is_finite _) eqn:E; [|done]. injection Hc as <-.
    exists rates, writes. by split_and!.
  - intros (rates & writes & Hr & Hw & ? & ? & Hc). exists rates. split; [done|].
    rewrite Hw. cbn [mbind option_bind]. unfold u64_checked_sub.
    rewrite (proj2 (Z.leb_le _ _)) by done. cbn [mbind option_bind].
    rewrite (proj2 (Z.leb_le _ _)) by done. cbn [mbind option_bind].
    destruct cost as [v o c w out t]. cbn in Hc.
    destruct Hc as (-> & -> & -> & -> & -> & -> & ->). done.
Qed.
End laws.

(** An estimate for an observation uses the last revision of the catalog that is
    not newer than the observation, and exists exactly when that revision prices
    the usage: it lists the model, the cache writes are known, cached input and
    writes fit into the input, and the total is a finite number. *)
Theorem estimate_at_exact catalog model usage observed_at cost :
  estimate_at (Some catalog) model usage observed_at = Some cost ↔
  ∃ before revision after,
    revisions catalog = before ++ revision :: after
    ∧ rev_observed_at revision ≤ observed_at
    ∧ Forall (λ r, observed_at < rev_observed_at r) after
    ∧ priced revision model usage cost.
Proof.
  unfold estimate_at. cbn [mbind option_bind]. rewrite bind_Some_iff.
  setoid_rewrite find_last. setoid_rewrite price_Some. setoid_rewrite Z.leb_le.
  setoid_rewrite Z.leb_gt. naive_solver.
Qed.

Example astra_price :
  option_map c_total_dollars (estimate_legacy (lit " astra ")
    {| u_input_tokens := 3000000; u_cached_input_tokens := 1000000;
       u_cache_write_input_tokens := Some 1000000; u_output_tokens := 0 |})
  = Some (f64_ratio 235 10).
Proof. vm_compute. reflexivity. Qed.
