(* ===== verification/SourceAdmission.v ===== *)
(** * Source admission: responses waiting for their evidence

    Models [crates/codex-info-db-writer/src/source_admission.rs] and the value
    checks of [crates/codex-info-db-writer/src/lib.rs] it calls: the durable
    state of one session source, the classification of a pending response and
    its association with a raw counter, and what makes a stored state valid.
    The SHA-256 digest is a parameter. *)

From S2P Require Import Prelude Text Contract ModelNames.

(** ** Values of the writer *)
Definition MAX_RECORDED_ROOT_IDENTITY_BYTES : Z := 256.
Definition MAX_RECORDED_RELATIVE_PATH_BYTES : Z := 4096.

(** [active_thread_text_valid] repeats [valid_text] of the contract. *)
Definition active_thread_text_valid (value : text) (max_scalars : Z) : bool :=
  negb (bool_decide (value = [])) && (chars_count value <=? max_scalars)
  && negb (existsb (λ c, is_control c || is_bidi_formatting c) value).
Definition valid_identifier (value : text) : bool := active_thread_text_valid value 512.

Definition lower_hex (value : text) (bytes : Z) : bool :=
  (str_len value =? bytes * 2) && forallb is_lower_hex value.
Definition validate_sha256 (value : text) : bool :=
  negb (negb (str_len value =? 64) || existsb (λ byte, negb (is_lower_hex byte)) value).

(** [u128::from_str_radix(value, 16)] of checked digits. *)
Definition hex_digit (c : Z) : Z := if c <? 97 then c - 48 else c - 87.
Definition hex_value (value : text) : Z := fold_left (λ n c, n * 16 + hex_digit c) value 0.

Definition canonical_u64_text (value : text) : option Z :=
  parsed ← parse_unsigned u64_max value;
  if negb (text_eqb (to_dec parsed) value) then None else Some parsed.

(** [Path::components]: a relative path of normal components only. A leading
    [.] and every [..] are components of another kind; inner [.] and empty
    components are skipped. *)
Definition is_relative_normal (path : text) : bool :=
  negb (starts_with path (lit "/"))
  && negb (bool_decide (head (split 47 path) = Some (lit ".")))
  && negb (existsb (λ component, text_eqb component (lit "..")) (split 47 path)).
Definition validate_session_key (root_identity relative_path : text) : bool :=
  negb (bool_decide (root_identity = [])
        || (MAX_RECORDED_ROOT_IDENTITY_BYTES <? str_len root_identity)
        || negb (is_ascii root_identity))
  && negb (bool_decide (relative_path = [])
        || (MAX_RECORDED_RELATIVE_PATH_BYTES <? str_len relative_path))
  && is_relative_normal relative_path.

Record StoragePartitionIdentity := {
  schema_version : text;
  profile_scope_id : text;
  account_scope_id : text;
  storage_epoch : Z;
  partition_id : text
}.
Definition StoragePartitionIdentity_validate (self : StoragePartitionIdentity) : bool :=
  negb (negb (text_eqb (schema_version self) (lit "codex-info-account-db-v1"))
        || negb (lower_hex (profile_scope_id self) 16)
        || negb (lower_hex (account_scope_id self) 32)
        || (storage_epoch self =? 0)
        || negb (lower_hex (partition_id self) 32)).

Inductive SessionModelContextKind := ContextNone | InitialSettings | Turn | ContextUnknown.
#[export] Instance SessionModelContextKind_eq_dec : EqDecision SessionModelContextKind.
Proof. solve_decision. Defined.
Definition SessionModelContextKind_as_str (self : SessionModelContextKind) : text :=
  lit match self with
      | ContextNone => "none"
      | InitialSettings => "initial-settings"
      | Turn => "turn"
      | ContextUnknown => "unknown"
      end%string.
Definition SessionModelContextKind_parse (value : text) : option SessionModelContextKind :=
  if text_eqb value (lit "none") then Some ContextNone
  else if text_eqb value (lit "initial-settings") then Some InitialSettings
  else if text_eqb value (lit "turn") then Some Turn
  else if text_eqb value (lit "unknown") then Some ContextUnknown
  else None.

Inductive SessionModelInterval :=
  | IntervalNone
  | IntervalModel (model : text)
  | IntervalMixed
  | IntervalUnknown.
#[export] Instance SessionModelInterval_eq_dec : EqDecision SessionModelInterval.
Proof. solve_decision. Defined.
Definition SessionModelInterval_to_storage (self : SessionModelInterval) : text :=
  match self with
  | IntervalNone => lit "none"
  | IntervalModel model => lit "model:" ++ model
  | IntervalMixed => lit "mixed"
  | IntervalUnknown => lit "unknown"
  end.
Definition SessionModelInterval_parse (value : text) : option SessionModelInterval :=
  if text_eqb value (lit "none") then Some IntervalNone
  else if text_eqb value (lit "mixed") then Some IntervalMixed
  else if text_eqb value (lit "unknown") then Some IntervalUnknown
  else
    option_map IntervalModel
      (opt_filter (λ model, bool_decide (normalize_model_name model = Some model))
         (strip_prefix (lit "model:") value)).

(** ** Source facts *)
Inductive UsageStream := LegacyCounterStream | ResponseRecordStream.
#[export] Instance UsageStream_eq_dec : EqDecision UsageStream.
Proof. solve_decision. Defined.
Record SessionMetadata := { sm_thread_id : text; sm_session_id : option text }.
Record ForkHistory := { fh_parent_thread_id : text; fh_reading_inherited : bool }.

Record RecordPointer := {
  rp_start : Z;
  rp_end : Z;
  rp_sha256 : text;
  rp_timestamp : Z
}.
#[export] Instance RecordPointer_eq_dec : EqDecision RecordPointer.
Proof. solve_decision. Defined.
Definition RecordPointer_valid (self : RecordPointer) (end_ : Z) : bool :=
  (rp_start self <? rp_end self) && (rp_end self <=? end_)
  && in_range 1 MAX_PUBLIC_UNIX_SECONDS (rp_timestamp self) && validate_sha256 (rp_sha256 self).

Record CreatorOrigin := {
  co_pointer : RecordPointer;
  co_ownership_start_at : Z;
  co_ownership_end_at : option Z
}.
Record SourceBindingProcess := {
  bp_pid : Z;
  bp_starttime_ticks : Z;
  bp_executable_device : Z;
  bp_executable_inode : Z
}.
Inductive SourceBindingProof :=
  | Rpc (began_at ended_at : Z) (process : SourceBindingProcess)
  | AcceptedPrefix (anchor : RecordPointer).
Record SourceAccountBinding := {
  ab_version : Z;
  ab_partition : StoragePartitionIdentity;
  ab_root_identity : text;
  ab_relative_path : text;
  ab_file_device : Z;
  ab_file_inode : Z;
  ab_prefix_generation : text;
  ab_prefix_end : Z;
  ab_metadata : SessionMetadata;
  ab_proof : SourceBindingProof;
  ab_creator_origin : option CreatorOrigin
}.

Definition SourceAccountBinding_valid (self : SourceAccountBinding) (end_ : Z) : bool :=
  (ab_version self =? 1)
  && StoragePartitionIdentity_validate (ab_partition self)
  && validate_session_key (ab_root_identity self) (ab_relative_path self)
  && (str_len (ab_prefix_generation self) =? 32)
  && forallb is_lower_hex (ab_prefix_generation self)
  && negb (hex_value (ab_prefix_generation self) =? 0)
  && (0 <? ab_prefix_end self) && (ab_prefix_end self <=? end_) && (ab_prefix_end self <=? i64_max)
  && valid_identifier (sm_thread_id (ab_metadata self))
  && is_none_or valid_identifier (sm_session_id (ab_metadata self))
  && match ab_proof self with
     | Rpc began_at ended_at process =>
         in_range 1 MAX_PUBLIC_UNIX_SECONDS began_at && in_range 1 MAX_PUBLIC_UNIX_SECONDS ended_at
         && (began_at <=? ended_at) && (0 <? bp_pid process)
     | AcceptedPrefix anchor => RecordPointer_valid anchor (ab_prefix_end self)
     end
  && is_none_or (λ origin,
       match ab_proof self with
       | AcceptedPrefix _ => false
       | Rpc began_at ended_at _ =>
           (rp_start (co_pointer origin) =? 0)
           && RecordPointer_valid (co_pointer origin) (ab_prefix_end self)
           && in_range 1 MAX_PUBLIC_UNIX_SECONDS (co_ownership_start_at origin)
           && (co_ownership_start_at origin <=? rp_timestamp (co_pointer origin))
           && (rp_timestamp (co_pointer origin) <=? began_at)
           && is_none_or (λ end_at, in_range 1 MAX_PUBLIC_UNIX_SECONDS end_at && (ended_at <? end_at))
                (co_ownership_end_at origin)
       end) (ab_creator_origin self).

Definition eligible_from (self : SourceAccountBinding) : option Z :=
  match ab_proof self with
  | Rpc began_at _ _ =>
      Some match ab_creator_origin self with
           | Some origin => rp_timestamp (co_pointer origin)
           | None => began_at
           end
  | AcceptedPrefix _ => None
  end.

(** ** Response records *)
Record ResponseIds := {
  ri_thread_id : text;
  ri_session_id : text;
  ri_root_turn_id : text;
  ri_turn_id : text;
  ri_response_id : text
}.
#[export] Instance ResponseIds_eq_dec : EqDecision ResponseIds.
Proof. solve_decision. Defined.
Definition ordered (self : ResponseIds) : list text :=
  [ri_thread_id self; ri_session_id self; ri_root_turn_id self; ri_turn_id self;
   ri_response_id self].
Definition ResponseIds_valid (self : ResponseIds) : bool := forallb valid_identifier (ordered self).

Record ResponseUsage := {
  ru_total : Z;
  ru_input : Z;
  ru_cached_input : Z;
  ru_cache_write_input : Z;
  ru_output : Z;
  ru_reasoning_output : Z
}.
#[export] Instance ResponseUsage_eq_dec : EqDecision ResponseUsage.
Proof. solve_decision. Defined.
Definition ResponseUsage_valid (self : ResponseUsage) : bool :=
  forallb (λ v, v <=? i64_max)
    [ru_total self; ru_input self; ru_cached_input self; ru_cache_write_input self;
     ru_output self; ru_reasoning_output self]
  && bool_decide (u64_checked_add (ru_input self) (ru_output self) = Some (ru_total self))
  && is_some_and (λ v, v <=? ru_input self)
       (u64_checked_add (ru_cached_input self) (ru_cache_write_input self))
  && (ru_reasoning_output self <=? ru_output self).

Record ResponseRecord := {
  rr_ids : ResponseIds;
  rr_usage : ResponseUsage;
  rr_turn_usage : ResponseUsage;
  rr_thread_usage : ResponseUsage
}.
#[export] Instance ResponseRecord_eq_dec : EqDecision ResponseRecord.
Proof. solve_decision. Defined.
Definition ResponseRecord_valid (self : ResponseRecord) : bool :=
  ResponseIds_valid (rr_ids self) && ResponseUsage_valid (rr_usage self)
  && ResponseUsage_valid (rr_turn_usage self) && ResponseUsage_valid (rr_thread_usage self).

Record StrongContext := {
  sc_turn_id : option text;
  sc_root_turn_id : option text;
  sc_pointer : RecordPointer
}.
#[export] Instance StrongContext_eq_dec : EqDecision StrongContext.
Proof. solve_decision. Defined.
Record ResponseContext := { rc_model : text; rc_context : StrongContext }.
#[export] Instance ResponseContext_eq_dec : EqDecision ResponseContext.
Proof. solve_decision. Defined.

Record ClassificationPointer := { cp_start : Z; cp_end : Z; cp_sha256 : text }.
#[export] Instance ClassificationPointer_eq_dec : EqDecision ClassificationPointer.
Proof. solve_decision. Defined.
Definition ClassificationPointer_valid_after (self : ClassificationPointer) (start end_ : Z) : bool :=
  (start <=? cp_start self) && (cp_start self <? cp_end self) && (cp_end self <=? end_)
  && validate_sha256 (cp_sha256 self).
Inductive ClassificationProof :=
  | ProofRecord (pointer : ClassificationPointer)
  | SourceEnd (offset : Z).
#[export] Instance ClassificationProof_eq_dec : EqDecision ClassificationProof.
Proof. solve_decision. Defined.
Definition ClassificationProof_valid_after (self : ClassificationProof) (start end_ : Z) : bool :=
  match self with
  | ProofRecord pointer => ClassificationPointer_valid_after pointer start end_
  | SourceEnd offset => (start <=? offset) && (offset <=? end_)
  end.

Inductive ResponseModelFailure :=
  | UnrecognizedControl
  | SnapshotConflict
  | ReplacementMissing
  | ReplacementMismatch
  | FailureHistoryBoundary
  | SourceBoundary.
#[export] Instance ResponseModelFailure_eq_dec : EqDecision ResponseModelFailure.
Proof. solve_decision. Defined.

Inductive ResponseModelClassification :=
  | ClassLegacyUnknown
  | AwaitingBoundary
  | AwaitingReplacement (snapshot : ClassificationPointer)
  | Normal (boundary : ClassificationProof)
  | Compaction (snapshot : ClassificationPointer) (replacement : ResponseContext)
  | Unassigned (reason : ResponseModelFailure) (boundary : ClassificationProof).
#[export] Instance ResponseModelClassification_eq_dec : EqDecision ResponseModelClassification.
Proof. solve_decision. Defined.
Definition is_legacy_unknown (self : ResponseModelClassification) : bool :=
  match self with ClassLegacyUnknown => true | _ => false end.
Definition is_open (self : ResponseModelClassification) : bool :=
  match self with AwaitingBoundary | AwaitingReplacement _ => true | _ => false end.

Inductive ResponseClassificationInput :=
  | NoOp
  | Counter
  | Task
  | NextRoot
  | Strong (context : ResponseContext) (is_turn : bool)
  | Snapshot (record : ResponseRecord)
  | InputUnknown
  | HistoryBoundary.

Inductive ResponseCounterAssociation :=
  | AssocLegacyUnknown
  | Awaiting
  | Unmatched (boundary : ClassificationProof)
  | Matched (pointer : RecordPointer) (last : option ResponseUsage)
      (snapshot : option ClassificationPointer).
#[export] Instance ResponseCounterAssociation_eq_dec : EqDecision ResponseCounterAssociation.
Proof. solve_decision. Defined.

Record PendingResponse := {
  pr_key : text;
  pr_record : ResponseRecord;
  pr_pointer : RecordPointer;
  pr_session_scope_qualified : bool;
  pr_root_context : option ResponseContext;
  pr_classification : ResponseModelClassification;
  pr_counter_association : ResponseCounterAssociation
}.

(** ** Operations of a pending response *)
Definition with_classification (self : PendingResponse) (c : ResponseModelClassification) :
    PendingResponse := {|
  pr_key := pr_key self; pr_record := pr_record self; pr_pointer := pr_pointer self;
  pr_session_scope_qualified := pr_session_scope_qualified self;
  pr_root_context := pr_root_context self; pr_classification := c;
  pr_counter_association := pr_counter_association self |}.
Definition with_association (self : PendingResponse) (a : ResponseCounterAssociation) :
    PendingResponse := {|
  pr_key := pr_key self; pr_record := pr_record self; pr_pointer := pr_pointer self;
  pr_session_scope_qualified := pr_session_scope_qualified self;
  pr_root_context := pr_root_context self; pr_classification := pr_classification self;
  pr_counter_association := a |}.

Definition matched_counter (self : PendingResponse) : option RecordPointer :=
  match pr_counter_association self with Matched pointer _ _ => Some pointer | _ => None end.

(** The root context names the same model and turns. *)
Definition reaffirms_original (self : PendingResponse) (context : ResponseContext) : bool :=
  is_some_and (λ root,
    text_eqb (rc_model root) (rc_model context)
    && bool_decide (sc_turn_id (rc_context root) = sc_turn_id (rc_context context))
    && bool_decide (sc_root_turn_id (rc_context root) = sc_root_turn_id (rc_context context)))
    (pr_root_context self).
(** The context names the root's model and the turns of the response itself. *)
Definition names_response (self : PendingResponse) (context : ResponseContext) : bool :=
  bool_decide (sc_turn_id (rc_context context) = Some (ri_turn_id (rr_ids (pr_record self))))
  && bool_decide (sc_root_turn_id (rc_context context)
                  = Some (ri_root_turn_id (rr_ids (pr_record self)))).
Definition matches_root (self : PendingResponse) (context : ResponseContext) : bool :=
  is_some_and (λ root, text_eqb (rc_model root) (rc_model context)) (pr_root_context self)
  && names_response self context.

Definition is_replacement (self : PendingResponse) (context : ResponseContext) : bool :=
  match pr_classification self with
  | Compaction _ replacement => bool_decide (replacement = context)
  | _ => false
  end.

Definition observe_counter_association (self : PendingResponse)
    (input : ResponseClassificationInput) (proof : ClassificationPointer)
    (pointer : option RecordPointer) (last : option ResponseUsage) : PendingResponse :=
  let unmatched := with_association self (Unmatched (ProofRecord proof)) in
  if negb (bool_decide (pr_counter_association self = Awaiting)) then self
  else
    match input with
    | NoOp => self
    | Snapshot record => if bool_decide (record = pr_record self) then self else unmatched
    | Strong context _ =>
        if reaffirms_original self context || is_replacement self context then self else unmatched
    | Counter =>
        match pointer with
        | Some pointer =>
            let snapshot :=
              match pr_classification self with
              | Compaction snapshot _ => Some snapshot
              | _ => None
              end in
            if bool_decide (last = Some (rr_usage (pr_record self))) || opt_is_some snapshot
            then with_association self
                   (Matched pointer (if opt_is_some snapshot then None else last) snapshot)
            else unmatched
        | None => unmatched
        end
    | _ => unmatched
    end.

Definition observe_classification (self : PendingResponse)
    (input : ResponseClassificationInput) (pointer : ClassificationPointer) : PendingResponse :=
  let proof := ProofRecord pointer in
  let unassigned reason := with_classification self (Unassigned reason proof) in
  match pr_classification self with
  | AwaitingBoundary =>
      match input with
      | NoOp => self
      | Strong context _ =>
          if reaffirms_original self context then self
          else with_classification self (Normal proof)
      | Counter | Task | NextRoot => with_classification self (Normal proof)
      | Snapshot snapshot =>
          if bool_decide (snapshot = pr_record self)
          then with_classification self (AwaitingReplacement pointer)
          else unassigned SnapshotConflict
      | InputUnknown => unassigned UnrecognizedControl
      | HistoryBoundary => unassigned FailureHistoryBoundary
      end
  | AwaitingReplacement snapshot =>
      match input with
      | NoOp => self
      | Snapshot record =>
          if bool_decide (record = pr_record self) then self else unassigned SnapshotConflict
      | Strong context is_turn =>
          if is_turn && (pr_session_scope_qualified self && matches_root self context)
          then with_classification self (Compaction snapshot context)
          else unassigned ReplacementMismatch
      | InputUnknown => unassigned UnrecognizedControl
      | HistoryBoundary => unassigned FailureHistoryBoundary
      | Counter | Task | NextRoot => unassigned ReplacementMissing
      end
  | ClassLegacyUnknown | Normal _ | Compaction _ _ | Unassigned _ _ => self
  end.

Definition close_source_classification (self : PendingResponse) (offset : Z) : PendingResponse :=
  let self :=
    if bool_decide (pr_counter_association self = Awaiting)
    then with_association self (Unmatched (SourceEnd offset)) else self in
  if is_open (pr_classification self)
  then with_classification self (Unassigned SourceBoundary (SourceEnd offset)) else self.

(** Request model only. *)
Definition qualified_model (self : PendingResponse) : option text :=
  if negb (pr_session_scope_qualified self) then None
  else
    context ← pr_root_context self;
    match pr_classification self with
    | Normal _ => if names_response self context then Some (rc_model context) else None
    | Compaction _ _ =>
        if opt_is_some (sc_turn_id (rc_context context))
           && opt_is_some (sc_root_turn_id (rc_context context))
        then Some (rc_model context) else None
    | _ => None
    end.

Definition counter_association_valid (self : PendingResponse) (end_ : Z) : bool :=
  match pr_counter_association self with
  | AssocLegacyUnknown | Awaiting => true
  | Unmatched boundary =>
      ClassificationProof_valid_after boundary (rp_end (pr_pointer self)) end_
  | Matched pointer last snapshot =>
      RecordPointer_valid pointer end_
      && (rp_end (pr_pointer self) <=? rp_start pointer)
      && match last, snapshot with
         | Some last, None => bool_decide (last = rr_usage (pr_record self))
         | None, Some snapshot =>
             match pr_classification self with
             | Compaction original _ => bool_decide (original = snapshot)
             | _ => false
             end && (cp_end snapshot <=? rp_start pointer)
         | _, _ => false
         end
  end.

Definition classification_valid (self : PendingResponse) (end_ : Z) : bool :=
  let after := rp_end (pr_pointer self) in
  match pr_classification self with
  | ClassLegacyUnknown | AwaitingBoundary => true
  | AwaitingReplacement snapshot => ClassificationPointer_valid_after snapshot after end_
  | Normal boundary =>
      match boundary with ProofRecord _ => true | SourceEnd _ => false end
      && ClassificationProof_valid_after boundary after end_
  | Unassigned reason boundary =>
      Bool.eqb match boundary with SourceEnd _ => true | ProofRecord _ => false end
        (bool_decide (reason = SourceBoundary))
      && ClassificationProof_valid_after boundary after end_
  | Compaction snapshot replacement =>
      pr_session_scope_qualified self
      && ClassificationPointer_valid_after snapshot after end_
      && RecordPointer_valid (sc_pointer (rc_context replacement)) end_
      && (cp_end snapshot <=? rp_start (sc_pointer (rc_context replacement)))
      && is_some_and (λ root, text_eqb (rc_model root) (rc_model replacement)) (pr_root_context self)
      && names_response self replacement
  end.

(** ** The admission state of a source *)
Record SourceAdmission := {
  sa_version : Z;
  sa_stream : UsageStream;
  sa_metadata : option SessionMetadata;
  sa_metadata_qualified : bool;
  sa_fork_history : option ForkHistory;
  sa_strong_context : option StrongContext;
  sa_adopted_context : option ClassificationPointer;
  sa_previous_raw : option RecordPointer;
  sa_response_waiting_for_counter : bool;
  sa_responses : list PendingResponse;
  sa_account_binding : option SourceAccountBinding
}.

Definition requires_prefix_reconstruction (self : SourceAdmission) : bool :=
  negb (sa_version self =? 2)
  || existsb (λ r, is_legacy_unknown (pr_classification r)) (sa_responses self).

Definition from_prefix_start : SourceAdmission := {|
  sa_version := 2; sa_stream := LegacyCounterStream; sa_metadata := None;
  sa_metadata_qualified := false; sa_fork_history := None; sa_strong_context := None;
  sa_adopted_context := None; sa_previous_raw := None; sa_response_waiting_for_counter := false;
  sa_responses := []; sa_account_binding := None |}.
Definition from_response_boundary : SourceAdmission := {|
  sa_version := 2; sa_stream := ResponseRecordStream; sa_metadata := None;
  sa_metadata_qualified := false; sa_fork_history := None; sa_strong_context := None;
  sa_adopted_context := None; sa_previous_raw := None; sa_response_waiting_for_counter := false;
  sa_responses := []; sa_account_binding := None |}.

Definition with_responses (self : SourceAdmission) (version : Z) (rs : list PendingResponse) :
    SourceAdmission := {|
  sa_version := version; sa_stream := sa_stream self; sa_metadata := sa_metadata self;
  sa_metadata_qualified := sa_metadata_qualified self; sa_fork_history := sa_fork_history self;
  sa_strong_context := sa_strong_context self; sa_adopted_context := sa_adopted_context self;
  sa_previous_raw := sa_previous_raw self;
  sa_response_waiting_for_counter := sa_response_waiting_for_counter self;
  sa_responses := rs; sa_account_binding := sa_account_binding self |}.
Definition push_response (self : SourceAdmission) (response : PendingResponse) : SourceAdmission :=
  with_responses self 2 (sa_responses self ++ [response]).

(** [responses.last_mut()] *)
Definition update_last {A} (f : A → A) (l : list A) : list A :=
  match rev l with
  | x :: before => rev before ++ [f x]
  | [] => []
  end.
Definition observe_response_classification (self : SourceAdmission)
    (input : ResponseClassificationInput) (pointer : ClassificationPointer) : SourceAdmission :=
  with_responses self (sa_version self)
    (update_last (λ r, observe_classification r input pointer) (sa_responses self)).

Definition context_valid (end_ : Z) (context : StrongContext) : bool :=
  is_none_or valid_identifier (sc_turn_id context)
  && is_none_or valid_identifier (sc_root_turn_id context)
  && RecordPointer_valid (sc_pointer context) end_.

Section validity.
(** The digest of the ids, hexadecimal: [ResponseIds::key] is the SHA-256 of
    the length-prefixed ids. *)
Context (key : ResponseIds → text).

Definition response_valid (self : SourceAdmission) (end_ : Z) (response : PendingResponse) : bool :=
  ResponseRecord_valid (pr_record response)
  && ((sa_version self =? 2) || is_legacy_unknown (pr_classification response))
  && classification_valid response end_
  && counter_association_valid response end_
  && text_eqb (pr_key response) (key (rr_ids (pr_record response)))
  && RecordPointer_valid (pr_pointer response) end_
  && (negb (pr_session_scope_qualified response)
      || is_some_and (λ meta,
           text_eqb (sm_thread_id meta) (ri_thread_id (rr_ids (pr_record response)))
           && bool_decide (sm_session_id meta
                           = Some (ri_session_id (rr_ids (pr_record response)))))
           (sa_metadata self))
  && is_none_or (λ root,
       bool_decide (normalize_model_name (rc_model root) = Some (rc_model root))
       && context_valid end_ (rc_context root)
       && (rp_end (sc_pointer (rc_context root)) <=? rp_start (pr_pointer response))
       && is_some_and valid_identifier (sc_turn_id (rc_context root))
       && is_some_and valid_identifier (sc_root_turn_id (rc_context root)))
       (pr_root_context response).

Definition metadata_admits_binding (self : SourceAdmission) (binding : SourceAccountBinding) :
    bool :=
  is_some_and (λ current,
    text_eqb (sm_thread_id current) (sm_thread_id (ab_metadata binding))
    && is_none_or (λ saved, bool_decide (sm_session_id current = Some saved))
         (sm_session_id (ab_metadata binding))) (sa_metadata self).

Definition SourceAdmission_valid (self : SourceAdmission) (end_ : Z) : bool :=
  ((sa_version self =? 1) || (sa_version self =? 2))
  && is_none_or (λ meta, valid_identifier (sm_thread_id meta)
       && is_none_or valid_identifier (sm_session_id meta)) (sa_metadata self)
  && (negb (sa_metadata_qualified self) || opt_is_some (sa_metadata self))
  && is_none_or (λ fork, (sa_version self =? 2) && valid_identifier (fh_parent_thread_id fork)
       && is_some_and (λ meta, negb (text_eqb (sm_thread_id meta) (fh_parent_thread_id fork)))
            (sa_metadata self)) (sa_fork_history self)
  && is_none_or (λ binding, (sa_version self =? 2) && sa_metadata_qualified self
       && metadata_admits_binding self binding && SourceAccountBinding_valid binding end_)
       (sa_account_binding self)
  && is_none_or (context_valid end_) (sa_strong_context self)
  && is_none_or (λ pointer, (sa_version self =? 2)
       && ClassificationPointer_valid_after pointer 0 end_) (sa_adopted_context self)
  && is_none_or (λ p, RecordPointer_valid p end_) (sa_previous_raw self)
  && (bool_decide (sa_stream self = ResponseRecordStream)
      || (negb (sa_response_waiting_for_counter self) && bool_decide (sa_responses self = [])))
  && forallb (λ r, negb (is_open (pr_classification r))) (tail (rev (sa_responses self)))
  && forallb (response_valid self end_) (sa_responses self).
End validity.

(** ** The classification as a run over the records that follow *)
Section classification.
Abbreviation step := (ResponseClassificationInput * ClassificationPointer)%type.
Definition observe_all (r : PendingResponse) (steps : list step) : PendingResponse :=
  fold_left (λ r s, observe_classification r s.1 s.2) steps r.

(** Inputs a response that waits for a boundary, or for its replacement, ignores. *)
Definition quiet (r : PendingResponse) (s : step) : bool :=
  match s.1 with
  | NoOp => true
  | Strong context _ => reaffirms_original r context
  | _ => false
  end.
Definition repeats (r : PendingResponse) (s : step) : bool :=
  match s.1 with
  | NoOp => true
  | Snapshot record => bool_decide (record = pr_record r)
  | _ => false
  end.
(** Inputs that end the turn of the response. *)
Definition settles (r : PendingResponse) (i : ResponseClassificationInput) : Prop :=
  match i with
  | Counter | Task | NextRoot => True
  | Strong context _ => reaffirms_original r context = false
  | _ => False
  end.

Lemma observe_all_final r steps : is_open (pr_classification r) = false → observe_all r steps = r.
Proof.
  intros Ho. induction steps as [|s steps IH]; simpl; [done|].
  replace (observe_classification r s.1 s.2) with r; [done|].
  unfold observe_classification. by destruct (pr_classification r).
Qed.
Lemma observe_all_ignored r pre post :
  Forall (λ s, observe_classification r s.1 s.2 = r) pre →
  observe_all r (pre ++ post) = observe_all r post.
Proof. induction 1 as [|s pre Hs _ IH]; simpl; [done|]. by rewrite Hs. Qed.
Lemma observe_quiet r s :
  pr_classification r = AwaitingBoundary → quiet r s = true →
  observe_classification r s.1 s.2 = r.
Proof.
  intros Hc. unfold observe_classification, quiet. rewrite Hc.
  destruct s.1; try done. by intros ->.
Qed.
Lemma observe_repeats r s snapshot :
  pr_classification r = AwaitingReplacement snapshot → repeats r s = true →
  observe_classification r s.1 s.2 = r.
Proof.
  intros Hc. unfold observe_classification, repeats. rewrite Hc.
  destruct s.1; try done. by intros ->.
Qed.
Lemma split_first {A} (p : A → bool) (l : list A) :
  Forall (λ x, p x = true) l
  ∨ ∃ pre x post, l = pre ++ x :: post ∧ Forall (λ x, p x = true) pre ∧ p x = false.
Proof.
  induction l as [|y l IH]; [by left|]. destruct (p y) eqn:E.
  - destruct IH as [IH|(pre & x & post & -> & Hpre & Hx)]; [left; by constructor|right].
    exists (y :: pre), x, post. split_and!; [done|by constructor|done].
  - right. by exists [], y, l.
Qed.

Lemma first_unique {A} (p : A → bool) pre x post pre' x' post' :
  pre ++ x :: post = pre' ++ x' :: post' →
  Forall (λ x, p x = true) pre → Forall (λ x, p x = true) pre' → p x = false → p x' = false →
  pre = pre' ∧ x = x' ∧ post = post'.
Proof.
  intros E Hpre. revert pre' E. induction Hpre as [|y pre Hy _ IH]; intros [|y' pre'] E Hpre' Hx Hx';
    simpl in E; injection E as E1 E2; subst.
  - done.
  - inversion Hpre'. congruence.
  - congruence.
  - inversion Hpre'. destruct (IH pre' E2) as (-> & -> & ->); done.
Qed.
(** What the first input that is not ignored makes of the response. *)
Lemma waiting_run r pre s post :
  pr_classification r = AwaitingBoundary → Forall (λ s, quiet r s = true) pre →
  observe_all r (pre ++ s :: post) = observe_all (observe_classification r s.1 s.2) post.
Proof.
  intros Hc Hpre. rewrite observe_all_ignored; [done|].
  eapply Forall_impl; [exact Hpre|]. intros x. by apply observe_quiet.
Qed.
Lemma replacement_run r snapshot mid s post :
  pr_classification r = AwaitingReplacement snapshot → Forall (λ s, repeats r s = true) mid →
  observe_all r (mid ++ s :: post) = observe_all (observe_classification r s.1 s.2) post.
Proof.
  intros Hc Hmid. rewrite observe_all_ignored; [done|].
  eapply Forall_impl; [exact Hmid|]. intros x. by eapply observe_repeats.
Qed.

(** The two ways to a model, on the inputs. *)
Definition by_boundary (r : PendingResponse) (steps : list step) : Prop :=
  ∃ pre s post, steps = pre ++ s :: post ∧ Forall (λ s, quiet r s = true) pre ∧ settles r s.1.
Definition by_replacement (r : PendingResponse) (steps : list step) : Prop :=
  ∃ pre p mid context q post,
    steps = pre ++ (Snapshot (pr_record r), p) :: mid ++ (Strong context true, q) :: post
    ∧ Forall (λ s, quiet r s = true) pre ∧ Forall (λ s, repeats r s = true) mid
    ∧ pr_session_scope_qualified r = true ∧ matches_root r context = true.

Lemma settles_normal r s :
  pr_classification r = AwaitingBoundary → settles r s.1 →
  observe_classification r s.1 s.2 = with_classification r (Normal (ProofRecord s.2)).
Proof.
  intros Hc. unfold settles, observe_classification. rewrite Hc.
  destruct s.1; try done. by intros ->.
Qed.

(** After a snapshot of the response: compaction, or no model. *)
Lemma after_snapshot r snapshot steps :
  pr_classification r = AwaitingReplacement snapshot →
  (∃ mid context q post, steps = mid ++ (Strong context true, q) :: post
     ∧ Forall (λ s, repeats r s = true) mid ∧ pr_session_scope_qualified r = true
     ∧ matches_root r context = true
     ∧ observe_all r steps = with_classification r (Compaction snapshot context))
  ∨ (∀ mid context q post, steps = mid ++ (Strong context true, q) :: post →
       Forall (λ s, repeats r s = true) mid → pr_session_scope_qualified r = true →
       matches_root r context = false)
    ∧ qualified_model (observe_all r steps) = None.
Proof.
  intros Hc. assert (∀ reason p, qualified_model
    (with_classification r (Unassigned reason p)) = None) as Hun.
  { intros reason p. unfold qualified_model. simpl.
    destruct (pr_session_scope_qualified r); simpl; [|done]. by destruct (pr_root_context r). }
  destruct (split_first (repeats r) steps) as [Hall|(mid & [i q] & post & -> & Hmid & Hi)].
  - right. split.
    + intros mid context q post -> _. apply Forall_app in Hall as [_ Hall].
      by inversion Hall.
    + rewrite <-(app_nil_r steps), observe_all_ignored.
      * unfold qualified_model. simpl. rewrite Hc.
        destruct (pr_session_scope_qualified r); simpl; [|done]. by destruct (pr_root_context r).
      * eapply Forall_impl; [exact Hall|]. intros x. by eapply observe_repeats.
  - rewrite (replacement_run r snapshot) by done. cbn [fst snd].
    assert (∀ mid' context q' post', mid ++ (i, q) :: post = mid' ++ (Strong context true, q') :: post' →
      Forall (λ s, repeats r s = true) mid' → i = Strong context true) as Huniq.
    { intros mid' context q' post' E Hmid'.
      by destruct (first_unique (repeats r) _ _ _ _ _ _ E) as (_ & [= ->] & _). }
    unfold observe_classification. rewrite Hc. unfold repeats in Hi. cbn [fst] in Hi.
    destruct i as [| | | |context is_turn|record| |];
      try (right; split; [by intros ???? E Hm _; specialize (Huniq _ _ _ _ E Hm)|];
           rewrite observe_all_final by done; apply Hun).
    + done.
    + destruct (is_turn && (pr_session_scope_qualified r && matches_root r context)) eqn:E.
      * apply andb_true_iff in E as [-> [Hq Hm]%andb_true_iff].
        left. exists mid, context, q, post. split_and!; try done. by rewrite observe_all_final.
      * right. split; [|rewrite observe_all_final by done; apply Hun].
        intros mid' context' q' post' E' Hm Hq. specialize (Huniq _ _ _ _ E' Hm) as [= -> ->].
        by rewrite Hq in E.
    + rewrite Hi. right. split; [by intros ???? E Hm _; specialize (Huniq _ _ _ _ E Hm)|].
      rewrite observe_all_final by done. apply Hun.
Qed.

Lemma settles_loud r s : settles r s.1 → quiet r s = false.
Proof. unfold settles, quiet. by destruct s.1. Qed.
Lemma qualified_normal r p m :
  qualified_model (with_classification r (Normal p)) = Some m ↔
  pr_session_scope_qualified r = true ∧ ∃ root, pr_root_context r = Some root ∧ rc_model root = m
    ∧ names_response r root = true.
Proof.
  unfold qualified_model. cbn [with_classification pr_session_scope_qualified pr_root_context
    pr_classification]. destruct (pr_session_scope_qualified r); simpl; [|naive_solver].
  destruct (pr_root_context r) as [root|]; simpl; [|naive_solver].
  change (names_response (with_classification _ _) root) with (names_response r root).
  destruct (names_response r root) eqn:E; split.
  - intros [= <-]. split; [done|]. by exists root.
  - by intros (_ & ? & [= <-] & <- & _).
  - done.
  - intros (_ & ? & [= <-] & _ & ?). congruence.
Qed.
Lemma qualified_compaction r snapshot context m :
  qualified_model (with_classification r (Compaction snapshot context)) = Some m ↔
  pr_session_scope_qualified r = true ∧ ∃ root, pr_root_context r = Some root ∧ rc_model root = m
    ∧ is_Some (sc_turn_id (rc_context root)) ∧ is_Some (sc_root_turn_id (rc_context root)).
Proof.
  unfold qualified_model. cbn [with_classification pr_session_scope_qualified pr_root_context
    pr_classification]. destruct (pr_session_scope_qualified r); simpl; [|naive_solver].
  destruct (pr_root_context r) as [root|]; simpl; [|naive_solver].
  destruct (sc_turn_id (rc_context root)) eqn:E1, (sc_root_turn_id (rc_context root)) eqn:E2;
    simpl; split; try done.
  - intros [= <-]. split; [done|]. exists root. rewrite E1, E2. by split_and!.
  - by intros (_ & ? & [= <-] & <- & _).
  - intros (_ & ? & [= <-] & _ & _ & H2). rewrite E2 in H2. by apply is_Some_None in H2.
  - intros (_ & ? & [= <-] & _ & H1 & _). rewrite E1 in H1. by apply is_Some_None in H1.
  - intros (_ & ? & [= <-] & _ & H1 & _). rewrite E1 in H1. by apply is_Some_None in H1.
Qed.
Lemma qualified_other r c :
  match c with Normal _ | Compaction _ _ => False | _ => True end →
  qualified_model (with_classification r c) = None.
Proof.
  unfold qualified_model. simpl. destruct (pr_session_scope_qualified r); simpl; [|done].
  destruct (pr_root_context r); simpl; [|done]. by destruct c.
Qed.
Lemma with_classification_same r : with_classification r (pr_classification r) = r.
Proof. by destruct r. Qed.

(** The decompositions of a run that starts with a given loud input. *)
Lemma by_boundary_first r pre s post :
  Forall (λ s, quiet r s = true) pre → quiet r s = false →
  by_boundary r (pre ++ s :: post) ↔ settles r s.1.
Proof.
  intros Hpre Hs. split; [|intros; by exists pre, s, post].
  intros (pre' & s' & post' & E & Hpre' & Hset).
  by destruct (first_unique (quiet r) _ _ _ _ _ _ E) as (_ & -> & _);
    [..|by apply settles_loud|].
Qed.
Lemma by_replacement_first r pre s post :
  Forall (λ s, quiet r s = true) pre → quiet r s = false →
  by_replacement r (pre ++ s :: post) ↔
  s.1 = Snapshot (pr_record r) ∧ ∃ mid context q post',
    post = mid ++ (Strong context true, q) :: post' ∧ Forall (λ s, repeats r s = true) mid
    ∧ pr_session_scope_qualified r = true ∧ matches_root r context = true.
Proof.
  intros Hpre Hs. split.
  - intros (pre' & p & mid & context & q & post' & E & Hpre' & Hmid & Hq & Hm).
    destruct (first_unique (quiet r) _ _ _ _ _ _ E) as (_ & -> & ->); [done..|].
    split; [done|]. by exists mid, context, q, post'.
  - intros (E & mid & context & q & post' & -> & Hmid & Hq & Hm). destruct s as [i p]. simpl in E.
    subst i. by exists pre, p, mid, context, q, post'.
Qed.
(** The first loud input settles the response, is its own snapshot, or fails it. *)
Lemma loud_cases r s :
  pr_classification r = AwaitingBoundary → quiet r s = false →
  settles r s.1 ∨ (∃ p, s = (Snapshot (pr_record r), p))
  ∨ ¬ settles r s.1 ∧ s.1 ≠ Snapshot (pr_record r)
    ∧ ∃ reason, observe_classification r s.1 s.2
                = with_classification r (Unassigned reason (ProofRecord s.2)).
Proof.
  intros Hc Hs. destruct s as [i p]. unfold quiet in Hs. unfold observe_classification.
  rewrite Hc. cbn [fst snd settles] in *.
  destruct i as [| | | |c t|record| |]; try (by left); try done.
  - right. destruct (decide (record = pr_record r)) as [->|Hne]; [left; by exists p|right].
    split_and!; [tauto|congruence|]. rewrite bool_decide_eq_false_2 by done. by eexists.
  - right. right. split_and!; [tauto|done|by eexists].
  - right. right. split_and!; [tauto|done|by eexists].
Qed.
(** Without a loud input there is no evidence and no model. *)
Lemma quiet_no_evidence r steps :
  Forall (λ s, quiet r s = true) steps → ¬ by_boundary r steps ∧ ¬ by_replacement r steps.
Proof.
  rewrite Forall_forall. intros Hall. split.
  - intros (pre & s & post & -> & _ & Hs). apply settles_loud in Hs.
    rewrite Hall in Hs; [done|set_solver].
  - intros (pre & p & mid & c & q & post & -> & _).
    assert (quiet r (Snapshot (pr_record r), p) = true) by (apply Hall; set_solver). done.
Qed.
End classification.

(** A response that waits for its boundary gets a model exactly on evidence: its
    session is qualified, it has a root context whose model it is, and either the
    first record that is not ignored ends the turn and the root context names the
    response's own turns, or the first such record is a snapshot of the response
    itself, followed without anything else by a turn context with the same model
    and the response's turns. *)
Theorem model_needs_evidence (r : PendingResponse) steps m :
  pr_classification r = AwaitingBoundary →
  qualified_model (observe_all r steps) = Some m ↔
  pr_session_scope_qualified r = true ∧ ∃ root, pr_root_context r = Some root ∧ rc_model root = m
    ∧ (by_boundary r steps ∧ names_response r root = true
       ∨ by_replacement r steps ∧ is_Some (sc_turn_id (rc_context root))
         ∧ is_Some (sc_root_turn_id (rc_context root))).
Proof.
  intros Hc. destruct (split_first (quiet r) steps) as [Hall|(pre & s & post & -> & Hpre & Hs)].
  { split.
    - rewrite <-(app_nil_r steps), observe_all_ignored.
      + simpl. by rewrite <-(with_classification_same r), Hc, qualified_other.
      + eapply Forall_impl; [exact Hall|]. intros x. by apply observe_quiet.
    - destruct (quiet_no_evidence _ _ Hall). naive_solver. }
  rewrite waiting_run by done.
  setoid_rewrite (by_boundary_first r pre s post Hpre Hs).
  setoid_rewrite (by_replacement_first r pre s post Hpre Hs).
  destruct (loud_cases r s Hc Hs) as [Hset|[[p ->]|(Hset & Hne & reason & ->)]].
  - rewrite settles_normal, observe_all_final, qualified_normal by done.
    assert (s.1 ≠ Snapshot (pr_record r)) by (intros E; by rewrite E in Hset).
    naive_solver.
  - cbn [fst snd settles]. replace (observe_classification r (Snapshot (pr_record r)) p)
      with (with_classification r (AwaitingReplacement p))
      by (unfold observe_classification; by rewrite Hc, bool_decide_eq_true_2).
    destruct (after_snapshot (with_classification r (AwaitingReplacement p)) p post eq_refl)
      as [(mid & context & q & post' & -> & Hmid & Hq & Hm & ->)|[Hno ->]].
    + rewrite (qualified_compaction r p context m : qualified_model (with_classification
        (with_classification r _) _) = Some m ↔ _). split.
      * intros (? & root & ? & ? & ? & ?). split; [done|]. exists root. split_and!; [done..|].
        right. split; [|done]. split; [done|]. by exists mid, context, q, post'.
      * naive_solver.
    + split; [done|]. intros (Hq & root & _ & _ & [[[] _]|[(_ & Hrep) _]]).
      destruct Hrep as (mid & context & q & post' & -> & Hmid & _ & Hm).
      specialize (Hno mid context q post' eq_refl Hmid Hq).
      change (matches_root r context = false) in Hno. congruence.
  - rewrite observe_all_final, qualified_other by done. naive_solver.
Qed.

(** ** Stored states stay valid *)
(** What the recorder does with a record: the classification first, then the
    counter association, both of the last response. *)
Definition observe_record (self : SourceAdmission) (input : ResponseClassificationInput)
    (proof : ClassificationPointer) (pointer : option RecordPointer)
    (last : option ResponseUsage) : SourceAdmission :=
  let self := observe_response_classification self input proof in
  with_responses self (sa_version self)
    (update_last (λ r, observe_counter_association r input proof pointer last)
       (sa_responses self)).

Section monotone.
Context (key : ResponseIds → text) (end_ end' : Z) (Hend : end_ ≤ end').

Lemma RecordPointer_valid_mono p :
  RecordPointer_valid p end_ = true → RecordPointer_valid p end' = true.
Proof. unfold RecordPointer_valid. rewrite !andb_true_iff. intros [[[? ?] ?] ?]. split_and!; try done. lia. Qed.
Lemma pointer_after_mono p start :
  ClassificationPointer_valid_after p start end_ = true →
  ClassificationPointer_valid_after p start end' = true.
Proof.
  unfold ClassificationPointer_valid_after. rewrite !andb_true_iff. intros [[[? ?] ?] ?].
  split_and!; try done. lia.
Qed.
Lemma pointer_after_start p start :
  start ≤ end_ → ClassificationPointer_valid_after p end_ end' = true →
  ClassificationPointer_valid_after p start end' = true.
Proof.
  unfold ClassificationPointer_valid_after. rewrite !andb_true_iff. intros ? [[[? ?] ?] ?].
  split_and!; try done. lia.
Qed.
Lemma proof_after_mono p start :
  ClassificationProof_valid_after p start end_ = true →
  ClassificationProof_valid_after p start end' = true.
Proof. destruct p; simpl; [apply pointer_after_mono|]. lia. Qed.
Lemma context_valid_mono c : context_valid end_ c = true → context_valid end' c = true.
Proof.
  unfold context_valid. rewrite !andb_true_iff. intros [[? ?] ?]. split_and!; try done.
  by apply RecordPointer_valid_mono.
Qed.
Lemma binding_valid_mono b :
  SourceAccountBinding_valid b end_ = true → SourceAccountBinding_valid b end' = true.
Proof.
  unfold SourceAccountBinding_valid. rewrite !andb_true_iff. intros (((((Hb & Hle) & ?) & ?) & ?) & ?).
  split_and!; try tauto. lia.
Qed.
Lemma is_none_or_impl {A} (f g : A → bool) o :
  (∀ x, f x = true → g x = true) → is_none_or f o = true → is_none_or g o = true.
Proof. destruct o; simpl; auto. Qed.
Lemma classification_valid_mono r :
  classification_valid r end_ = true → classification_valid r end' = true.
Proof.
  unfold classification_valid. destruct (pr_classification r); rewrite ?andb_true_iff; try done.
  - apply pointer_after_mono.
  - intros [? ?]. split; [done|]. by apply proof_after_mono.
  - intros (((((? & ?) & ?) & ?) & ?) & ?).
    split_and!; try done; [by apply pointer_after_mono|by apply RecordPointer_valid_mono].
  - intros [? ?]. split; [done|]. by apply proof_after_mono.
Qed.
Lemma association_valid_mono r :
  counter_association_valid r end_ = true → counter_association_valid r end' = true.
Proof.
  unfold counter_association_valid. destruct (pr_counter_association r); rewrite ?andb_true_iff; try done.
  - apply proof_after_mono.
  - intros [[? ?] ?]. split_and!; try done. by apply RecordPointer_valid_mono.
Qed.
End monotone.

Lemma pointer_end p end_ : RecordPointer_valid p end_ = true → rp_end p ≤ end_.
Proof. unfold RecordPointer_valid. rewrite !andb_true_iff, Z.leb_le. tauto. Qed.
Lemma proof_end p start end_ :
  ClassificationPointer_valid_after p start end_ = true → cp_end p ≤ end_.
Proof. unfold ClassificationPointer_valid_after. rewrite !andb_true_iff, !Z.leb_le. tauto. Qed.

Section observed.
Context (end_ end' : Z) (Hend : end_ ≤ end') (input : ResponseClassificationInput)
  (proof : ClassificationPointer) (pointer : option RecordPointer) (last : option ResponseUsage).
(** The observed record lies between the two ends. *)
Record record_fits : Prop := {
  fits_proof : ClassificationPointer_valid_after proof end_ end' = true;
  fits_pointer p : pointer = Some p → RecordPointer_valid p end' = true ∧ end_ ≤ rp_start p;
  fits_context c t : input = Strong c t →
    RecordPointer_valid (sc_pointer (rc_context c)) end' = true
    ∧ end_ ≤ rp_start (sc_pointer (rc_context c))
}.
Context (Hfits : record_fits).

Lemma observe_classification_valid r :
  rp_end (pr_pointer r) ≤ end_ →
  classification_valid r end_ = true → counter_association_valid r end_ = true →
  classification_valid (observe_classification r input proof) end' = true
  ∧ counter_association_valid (observe_classification r input proof) end' = true.
Proof.
  intros Hr Hc Ha. destruct Hfits as [Hproof _ Hcontext].
  assert (ClassificationPointer_valid_after proof (rp_end (pr_pointer r)) end' = true) as Hp
    by by apply (pointer_after_start end_).
  assert (classification_valid r end' = true ∧ counter_association_valid r end' = true) as Hsame
    by (split; [by apply (classification_valid_mono end_)|by apply (association_valid_mono end_)]).
  (* an open classification supports no match by compaction *)
  assert (∀ c, is_open (pr_classification r) = true →
    counter_association_valid (with_classification r c) end' = true) as Hassoc.
  { intros c Ho. destruct Hsame as [_ Ha']. unfold counter_association_valid in *. simpl.
    destruct (pr_counter_association r) as [| | |p [u|] [sn|]]; try done.
    by destruct (pr_classification r); rewrite ?andb_false_r in Ha'. }
  assert (∀ reason, is_open (pr_classification r) = true → reason ≠ SourceBoundary →
    classification_valid (with_classification r (Unassigned reason (ProofRecord proof))) end' = true
    ∧ counter_association_valid (with_classification r (Unassigned reason (ProofRecord proof))) end'
      = true) as Hun.
  { intros reason Ho Hne. split; [|by apply Hassoc]. unfold classification_valid. simpl.
    by rewrite bool_decide_eq_false_2. }
  unfold observe_classification. destruct (pr_classification r) as [| |snapshot| | |] eqn:E; try done.
  - destruct input as [| | | |c t|record| |]; try done; try (by apply Hun);
      try (by split; [|apply Hassoc]).
    + destruct (reaffirms_original r c); [done|]. by split; [|apply Hassoc].
    + case_bool_decide; [|by apply Hun]. by split; [|apply Hassoc].
  - destruct input as [| | | |c t|record| |]; try done; try (by apply Hun).
    + destruct (t && _) eqn:Et; [|by apply Hun]. apply andb_true_iff in Et as [-> [Hq Hm]%andb_true_iff].
      split; [|by apply Hassoc]. destruct (Hcontext c true eq_refl) as [Hcp Hcs].
      unfold matches_root in Hm. apply andb_true_iff in Hm as [Hm Hn].
      unfold classification_valid in Hc |- *. rewrite E in Hc. simpl.
      rewrite !andb_true_iff. split_and!; try done; [by apply (pointer_after_mono end_)|].
      apply proof_end in Hc. apply Z.leb_le. by etrans.
    + case_bool_decide; [done|]. by apply Hun.
Qed.
Lemma observe_association_valid r :
  rp_end (pr_pointer r) ≤ end_ →
  classification_valid r end' = true → counter_association_valid r end' = true →
  (∀ sn c, pr_classification r = Compaction sn c →
     (∃ t, input = Strong c t) ∨ cp_end sn ≤ end_) →
  classification_valid (observe_counter_association r input proof pointer last) end' = true
  ∧ counter_association_valid (observe_counter_association r input proof pointer last) end' = true.
Proof.
  intros Hr Hc Ha Hsn. destruct Hfits as [Hproof Hpointer _].
  assert (ClassificationPointer_valid_after proof (rp_end (pr_pointer r)) end' = true) as Hp
    by by apply (pointer_after_start end_).
  assert (∀ a, classification_valid (with_association r a) end' = true) as Hclass by done.
  assert (classification_valid (with_association r (Unmatched (ProofRecord proof))) end' = true
    ∧ counter_association_valid (with_association r (Unmatched (ProofRecord proof))) end' = true)
    as Hun by by split.
  unfold observe_counter_association. destruct (negb _); [done|].
  destruct input as [| | | |c t|record| |] eqn:Ei; try done.
  - destruct pointer as [p|]; [|done]. destruct (Hpointer p eq_refl) as [Hpv Hps].
    destruct (bool_decide (last = _) || _) eqn:E; [|done]. split; [done|].
    unfold counter_association_valid. simpl. rewrite Hpv.
    replace (rp_end (pr_pointer r) <=? rp_start p) with true by (symmetry; apply Z.leb_le; by etrans). simpl.
    destruct (pr_classification r) as [| | | |sn c|] eqn:Ec; simpl in *;
      try (rewrite orb_false_r in E; apply bool_decide_eq_true in E; rewrite E;
           by apply bool_decide_eq_true).
    rewrite bool_decide_eq_true_2 by done. simpl.
    destruct (Hsn sn c eq_refl) as [[? ?]|?]; [done|apply Z.leb_le; by etrans].
  - by destruct (_ || _).
  - by case_bool_decide.
Qed.
End observed.

Section stored.
Context (key : ResponseIds → text) (end_ end' : Z) (Hend : end_ ≤ end').

Lemma update_last_nil {A} (f : A → A) : update_last f [] = [].
Proof. done. Qed.
Lemma update_last_snoc {A} (f : A → A) l x : update_last f (l ++ [x]) = l ++ [f x].
Proof. unfold update_last. rewrite rev_app_distr. simpl. by rewrite rev_involutive. Qed.

Lemma response_valid_mono a r :
  response_valid key a end_ r = true → response_valid key a end' r = true.
Proof.
  unfold response_valid. rewrite !andb_true_iff. intros (((((((? & ?) & ?) & ?) & ?) & ?) & ?) & Hroot).
  split_and!; try done; [by apply (classification_valid_mono end_)|
    by apply (association_valid_mono end_)|by apply (RecordPointer_valid_mono end_)|].
  revert Hroot. apply is_none_or_impl. intros root. rewrite !andb_true_iff.
  intros ((((? & ?) & ?) & ?) & ?). split_and!; try done. by apply (context_valid_mono end_).
Qed.
(** The state apart from its responses. *)
Lemma admission_valid_responses a rs :
  SourceAdmission_valid key a end_ = true →
  (sa_responses a = [] → rs = []) →
  forallb (λ r, negb (is_open (pr_classification r))) (tail (rev rs)) = true →
  Forall (λ r, response_valid key a end' r = true) rs →
  SourceAdmission_valid key (with_responses a (sa_version a) rs) end' = true.
Proof.
  unfold SourceAdmission_valid. rewrite !andb_true_iff.
  intros ((((((((((? & ?) & ?) & ?) & Hbind) & Hctx) & Hadopt) & Hraw) & Hstream) & _) & _) Hnil Hopen Hrs.
  cbn [with_responses sa_version sa_stream sa_metadata sa_metadata_qualified sa_fork_history
    sa_strong_context sa_adopted_context sa_previous_raw sa_response_waiting_for_counter
    sa_responses sa_account_binding].
  split_and!; try done.
  - revert Hbind. apply is_none_or_impl. intros b. rewrite !andb_true_iff. intros [? ?].
    split; [done|]. by apply (binding_valid_mono end_).
  - revert Hctx. apply is_none_or_impl. by apply context_valid_mono.
  - revert Hadopt. apply is_none_or_impl. intros p. rewrite !andb_true_iff. intros [? ?].
    split; [done|]. by apply (pointer_after_mono end_).
  - revert Hraw. apply is_none_or_impl. by apply RecordPointer_valid_mono.
  - revert Hstream. rewrite !orb_true_iff, !andb_true_iff, !bool_decide_eq_true. tauto.
  - by apply forallb_Forall.
Qed.
(** Only the classification and the association of a response change. *)
Definition same_response (r s : PendingResponse) : Prop :=
  (pr_key s = pr_key r ∧ pr_record s = pr_record r ∧ pr_pointer s = pr_pointer r
   ∧ pr_session_scope_qualified s = pr_session_scope_qualified r
   ∧ pr_root_context s = pr_root_context r)
  ∧ (is_legacy_unknown (pr_classification r) = true → pr_classification s = pr_classification r).
Lemma observe_classification_same r input proof :
  same_response r (observe_classification r input proof).
Proof.
  unfold same_response, observe_classification.
  destruct (pr_classification r) eqn:E; rewrite ?E; try by split.
  - split; [|done]. destruct input; try done; by case_match.
  - split; [|done]. destruct input; try done; by case_match.
Qed.
Lemma observe_association_same r input proof pointer last :
  same_response r (observe_counter_association r input proof pointer last).
Proof.
  unfold same_response, observe_counter_association.
  destruct (negb _); [done|]. destruct input; try done; repeat case_match; done.
Qed.
Lemma same_response_trans r s t : same_response r s → same_response s t → same_response r t.
Proof.
  unfold same_response. intros [(-> & -> & -> & -> & ->) Hl] [(-> & -> & -> & -> & ->) Hl'].
  split; [done|].
  intros E. rewrite <-(Hl E). apply Hl'. by rewrite (Hl E).
Qed.
Lemma response_valid_same a r s :
  response_valid key a end' r = true → same_response r s →
  classification_valid s end' = true → counter_association_valid s end' = true →
  response_valid key a end' s = true.
Proof.
  unfold response_valid, same_response. rewrite !andb_true_iff.
  intros (((((((? & Hv) & _) & _) & ?) & ?) & ?) & ?) [(-> & -> & -> & -> & ->) El] Hc Ha.
  split_and!; try done.
  destruct (sa_version a =? 2); [done|]. simpl in *. by rewrite El.
Qed.
Lemma response_observed a r input proof pointer last :
  record_fits end_ end' input proof pointer → response_valid key a end_ r = true →
  response_valid key a end'
    (observe_counter_association (observe_classification r input proof) input proof pointer last)
  = true.
Proof.
  intros Hfits Hv. pose proof (response_valid_mono a r Hv) as Hv'.
  assert (rp_end (pr_pointer r) ≤ end_ ∧ classification_valid r end_ = true
    ∧ counter_association_valid r end_ = true) as (Hr & Hc & Ha).
  { unfold response_valid, RecordPointer_valid in Hv. rewrite !andb_true_iff in Hv. split_and!; [|tauto..].
    apply pointer_end. unfold RecordPointer_valid. rewrite !andb_true_iff. tauto. }
  destruct (observe_classification_valid end_ end' Hend input proof pointer Hfits r Hr Hc Ha) as [Hc1 Ha1].
  set (r1 := observe_classification r input proof) in *.
  assert (pr_pointer r1 = pr_pointer r) as Hp1
    by apply observe_classification_same.
  destruct (observe_association_valid end_ end' input proof pointer last Hfits r1) as [Hc2 Ha2].
  - by rewrite Hp1.
  - done.
  - done.
  - intros sn c E. unfold r1, observe_classification in E.
    unfold classification_valid, ClassificationPointer_valid_after in Hc.
    destruct (pr_classification r) as [| |snapshot| | |] eqn:Ec; try congruence.
    + destruct input; simpl in E; try congruence; case_match; simpl in E; congruence.
    + destruct input as [| | | |c' t|record| |]; simpl in E; try congruence; case_match;
        simpl in E; try congruence.
      left. injection E as <- <-. by exists t.
    + right. rewrite Ec in E. injection E as <- <-. rewrite !andb_true_iff, !Z.leb_le in Hc. tauto.
  - eapply response_valid_same; [exact Hv'| |done..].
    eapply same_response_trans; [apply observe_classification_same|apply observe_association_same].
Qed.
End stored.

(** A stored state stays valid: when a valid state at [end_] observes a record that
    lies between [end_] and [end'], whatever its input, counter pointer and last
    usage, the new state is valid at [end']. *)
Lemma observed_state_stays_valid key (a : SourceAdmission) end_ end' input proof pointer last :
  SourceAdmission_valid key a end_ = true → end_ ≤ end' →
  record_fits end_ end' input proof pointer →
  SourceAdmission_valid key (observe_record a input proof pointer last) end' = true.
Proof.
  intros Hv Hend Hfits. unfold observe_record, observe_response_classification.
  change (with_responses (with_responses a ?v ?rs) ?v' ?rs') with (with_responses a v' rs').
  cbn [with_responses sa_version sa_responses].
  pose proof Hv as Hv'. unfold SourceAdmission_valid in Hv'. rewrite !andb_true_iff in Hv'.
  destruct Hv' as ((_ & Hopen) & Hrs). rewrite forallb_Forall in Hrs.
  assert (sa_responses a = [] ∨ ∃ rs r, sa_responses a = rs ++ [r]) as [E|(rs & r & E)]
    by (clear; generalize (sa_responses a); intros l;
        induction l as [|x l _] using rev_ind; [by left|right; by exists l, x]).
  - rewrite E. by apply (admission_valid_responses key end_ end' Hend a _ Hv).
  - rewrite E, !update_last_snoc. rewrite E in Hopen, Hrs.
    apply Forall_app in Hrs as [Hrs Hr]. rewrite Forall_singleton in Hr.
    apply (admission_valid_responses key end_ end' Hend a _ Hv).
    + rewrite E. by destruct rs.
    + rewrite rev_app_distr. by rewrite rev_app_distr in Hopen.
    + apply Forall_app. split; [|apply Forall_singleton; by eapply (response_observed key end_)].
      eapply Forall_impl; [exact Hrs|]. intros. by apply (response_valid_mono key end_).
Qed.

(** ** A concrete source *)
Definition example_usage : ResponseUsage := {|
  ru_total := 12; ru_input := 10; ru_cached_input := 4; ru_cache_write_input := 1; ru_output := 2;
  ru_reasoning_output := 1 |}.
Definition example_sha : text := replicate 64 48.
Definition example_pointer (start : Z) : RecordPointer := {|
  rp_start := start; rp_end := start + 10; rp_sha256 := example_sha; rp_timestamp := 1000 |}.
Definition example_proof (start : Z) : ClassificationPointer := {|
  cp_start := start; cp_end := start + 10; cp_sha256 := example_sha |}.
Definition example_context (turn : text) (start : Z) : ResponseContext := {|
  rc_model := lit "gpt-6-sol";
  rc_context := {| sc_turn_id := Some turn; sc_root_turn_id := Some (lit "root");
                   sc_pointer := example_pointer start |} |}.
Definition example_response : PendingResponse := {|
  pr_key := lit "response";
  pr_record := {| rr_ids := {| ri_thread_id := lit "thread"; ri_session_id := lit "session";
                               ri_root_turn_id := lit "root"; ri_turn_id := lit "turn";
                               ri_response_id := lit "response" |};
                  rr_usage := example_usage; rr_turn_usage := example_usage;
                  rr_thread_usage := example_usage |};
  pr_pointer := example_pointer 50; pr_session_scope_qualified := true;
  pr_root_context := Some (example_context (lit "other") 20);
  pr_classification := AwaitingBoundary; pr_counter_association := Awaiting |}.
(** The compaction of a response whose root context names another turn. *)
Definition example_steps : list (ResponseClassificationInput * ClassificationPointer) := [
  (NoOp, example_proof 60);
  (Snapshot (pr_record example_response), example_proof 70);
  (Strong (example_context (lit "turn") 80) true, example_proof 80);
  (Counter, example_proof 90)].
Example example_compaction :
  qualified_model (observe_all example_response example_steps) = Some (lit "gpt-6-sol")
  ∧ qualified_model (observe_all example_response [(Counter, example_proof 60)]) = None.
Proof. vm_compute. done. Qed.

Lemma model_needs_evidence_witness :
  qualified_model (observe_all example_response example_steps) = Some (lit "gpt-6-sol") ↔
  pr_session_scope_qualified example_response = true
  ∧ ∃ root, pr_root_context example_response = Some root ∧ rc_model root = lit "gpt-6-sol"
    ∧ (by_boundary example_response example_steps ∧ names_response example_response root = true
       ∨ by_replacement example_response example_steps ∧ is_Some (sc_turn_id (rc_context root))
         ∧ is_Some (sc_root_turn_id (rc_context root))).
Proof. by apply model_needs_evidence. Defined.

Definition example_admission : SourceAdmission := push_response {|
  sa_version := 2; sa_stream := ResponseRecordStream;
  sa_metadata := Some {| sm_thread_id := lit "thread"; sm_session_id := Some (lit "session") |};
  sa_metadata_qualified := true; sa_fork_history := None; sa_strong_context := None;
  sa_adopted_context := None; sa_previous_raw := None; sa_response_waiting_for_counter := false;
  sa_responses := []; sa_account_binding := None |} example_response.
