(* ===== verification/EventAdmission.v ===== *)
(** * Event admission: the evidence of a numeric event

    Models [crates/codex-info-db-writer/src/event_admission.rs]: the evidence
    persisted with a token event, and the check that it supports the event's
    numbers, time, model and period. *)

From S2P Require Import Prelude Text Contract TokenFacts ModelNames Pricing SourceAdmission.

Record SessionEventPeriod := { ep_reset_at : Z; ep_window_seconds : Z }.
Record EventOwnership := { eo_start_at : Z; eo_end_at : option Z }.
Definition valid_time (value : Z) : bool := in_range 1 MAX_PUBLIC_UNIX_SECONDS value.
Definition EventOwnership_valid (self : EventOwnership) : bool :=
  valid_time (eo_start_at self)
  && is_none_or (λ end_at, valid_time end_at && (eo_start_at self <=? end_at)) (eo_end_at self).
Definition EventOwnership_contains (self : EventOwnership) (timestamp : Z) : bool :=
  (eo_start_at self <=? timestamp) && is_none_or (λ end_at, timestamp <? end_at) (eo_end_at self).

Record CounterWitness := {
  cw_pointer : RecordPointer;
  cw_total : Z;
  cw_input : option Z;
  cw_cached_input : option Z;
  cw_cache_write_input : option Z;
  cw_output : option Z
}.
Definition CounterWitness_facts (self : CounterWitness) : TokenFacts := {|
  tf_total := cw_total self; tf_input := cw_input self; tf_cached_input := cw_cached_input self;
  tf_cache_write_input := cw_cache_write_input self; tf_output := cw_output self |}.
Record LegacyModelProof := {
  lm_pointer : ClassificationPointer;
  lm_kind : text;
  lm_interval : text
}.
Record LegacyCounterProof := {
  lc_before : CounterWitness;
  lc_after : CounterWitness;
  lc_model_context : option LegacyModelProof
}.
Inductive NumericEventProof :=
  | LegacyCounter (proof : LegacyCounterProof)
  | LegacyFamilyCounter (proof : LegacyCounterProof) (exact_model : text)
  | ResponseEvidence (candidate : PendingResponse) (legacy_family_exact_model : option text).
Record PeriodAttributionProof := {
  pp_rule_version : Z;
  pp_lower_at : Z;
  pp_upper_at : Z;
  pp_evidence_generation : text;
  pp_evidence_sha256 : text
}.
Record EventAdmission := {
  ea_version : Z;
  ea_source_binding : SourceAccountBinding;
  ea_verified_prefix_end : Z;
  ea_ownership : EventOwnership;
  ea_numeric : NumericEventProof;
  ea_period : option PeriodAttributionProof
}.

(** [SessionEventSource] and the fields of [LosslessSessionEvent] the check
    reads. *)
Record SessionEventSource := {
  es_root_identity : text;
  es_relative_path : text;
  es_file_device : Z;
  es_file_inode : Z;
  es_prefix_generation : Z;
  es_range_start : Z;
  es_range_end : Z;
  es_record_sha256 : text;
  es_event_index : Z
}.
Record LosslessSessionEvent := {
  le_source : SessionEventSource;
  le_timestamp : Z;
  le_model : text;
  le_tokens : TokenFacts;
  le_period : option SessionEventPeriod
}.

Definition legacy_family (model : text) : bool := is_any model ["SOL"; "TERRA"; "LUNA"].
(** The exact model behind a family key. *)
Definition family_model_ok (event_model exact : text) : bool :=
  legacy_family event_model
  && bool_decide (normalize_model_name exact = Some exact)
  && negb (is_any exact ["SOL"; "TERRA"; "LUNA"; "ASTRA"])
  && bool_decide (family exact = Some event_model).

Section valid_for.
Context (key : ResponseIds → text).

Definition source_matches (self : EventAdmission) (event : LosslessSessionEvent) : bool :=
  let source := le_source event in
  let binding := ea_source_binding self in
  negb (negb (ea_version self =? 1)
    || negb (SourceAccountBinding_valid binding (ea_verified_prefix_end self))
    || (i64_max <? ea_verified_prefix_end self)
    || (ea_verified_prefix_end self <? es_range_end source)
    || negb (text_eqb (es_root_identity source) (ab_root_identity binding))
    || negb (text_eqb (es_relative_path source) (ab_relative_path binding))
    || negb (es_file_device source =? ab_file_device binding)
    || negb (es_file_inode source =? ab_file_inode binding)
    || negb (text_eqb (hex_nibbles 32 (es_prefix_generation source)) (ab_prefix_generation binding))
    || negb (EventOwnership_valid (ea_ownership self))
    || negb (EventOwnership_contains (ea_ownership self) (le_timestamp event))).

Definition owns_time (self : EventAdmission) (timestamp : Z) : bool :=
  let binding := ea_source_binding self in
  EventOwnership_contains (ea_ownership self) timestamp
  && match ab_proof binding with
     | Rpc began_at ended_at _ =>
         (began_at <=? timestamp)
         || is_some_and (λ origin,
              (rp_timestamp (co_pointer origin) <=? timestamp)
              && (eo_start_at (ea_ownership self) =? co_ownership_start_at origin)
              && EventOwnership_contains (ea_ownership self) ended_at) (ab_creator_origin binding)
     | AcceptedPrefix _ => true
     end.

(** The pointer of the event's record when the counters prove its numbers. *)
Definition counter_primary (self : EventAdmission) (event : LosslessSessionEvent)
    (proof : LegacyCounterProof) (proof_model : text) : option RecordPointer :=
  let before := lc_before proof in
  let after := lc_after proof in
  if negb (RecordPointer_valid (cw_pointer before) (ea_verified_prefix_end self))
     || negb (RecordPointer_valid (cw_pointer after) (ea_verified_prefix_end self))
     || (rp_start (cw_pointer after) <? rp_end (cw_pointer before))
     || negb (owns_time self (rp_timestamp (cw_pointer before)))
     || negb (owns_time self (rp_timestamp (cw_pointer after)))
     || negb (rp_timestamp (cw_pointer after) =? le_timestamp event)
     || negb (bool_decide (checked_delta (CounterWitness_facts after) (CounterWitness_facts before)
                           = Ok (le_tokens event)))
  then None
  else if is_some_and (λ context,
       negb (is_any (lm_kind context) ["initial-settings"; "turn"]
             && (cp_start (lm_pointer context) <? cp_end (lm_pointer context))
             && (cp_end (lm_pointer context) <=? rp_start (cw_pointer after))
             && validate_sha256 (cp_sha256 (lm_pointer context))
             && opt_is_some (SessionModelInterval_parse (lm_interval context))))
       (lc_model_context proof)
  then None
  else
    let model_valid := is_some_and (λ context,
      bool_decide (SessionModelInterval_parse (lm_interval context) = Some IntervalNone)
      || bool_decide (SessionModelInterval_parse (lm_interval context)
                      = Some (IntervalModel proof_model))) (lc_model_context proof) in
    if negb (text_eqb (le_model event) (lit "UNATTRIBUTED")) && negb model_valid then None
    else Some (cw_pointer after).

Definition facts_of_usage (usage : ResponseUsage) : TokenFacts := {|
  tf_total := ru_total usage; tf_input := Some (ru_input usage);
  tf_cached_input := Some (ru_cached_input usage);
  tf_cache_write_input := Some (ru_cache_write_input usage); tf_output := Some (ru_output usage) |}.

Definition unconfirmed (c : ResponseModelClassification) : bool :=
  match c with
  | ClassLegacyUnknown | AwaitingBoundary | AwaitingReplacement _ | Unassigned _ _ => true
  | Normal _ | Compaction _ _ => false
  end.
Definition response_primary (self : EventAdmission) (event : LosslessSessionEvent)
    (allow_unconfirmed_model : bool) (candidate : PendingResponse) (exact : option text) :
    option RecordPointer :=
  proof_model ← match exact with
                | Some exact => then_some (family_model_ok (le_model event) exact) exact
                | None => Some (le_model event)
                end;
  let boundary := from_response_boundary in
  let admission := push_response {|
    sa_version := sa_version boundary; sa_stream := sa_stream boundary;
    sa_metadata := Some (ab_metadata (ea_source_binding self)); sa_metadata_qualified := true;
    sa_fork_history := None; sa_strong_context := None; sa_adopted_context := None;
    sa_previous_raw := None; sa_response_waiting_for_counter := false;
    sa_responses := sa_responses boundary; sa_account_binding := None |} candidate in
  let model := qualified_model candidate in
  let unconfirmed_model :=
    allow_unconfirmed_model && negb (opt_is_some model)
    && unconfirmed (pr_classification candidate) in
  if negb (pr_session_scope_qualified candidate)
     || negb (SourceAdmission_valid key admission (ea_verified_prefix_end self))
     || (negb (bool_decide (model = Some proof_model)) && negb unconfirmed_model)
     || negb (rp_timestamp (pr_pointer candidate) =? le_timestamp event)
     || negb (owns_time self (rp_timestamp (pr_pointer candidate)))
     || negb (bool_decide (le_tokens event = facts_of_usage (rr_usage (pr_record candidate))))
  then None
  else Some (pr_pointer candidate).

Definition primary_of (self : EventAdmission) (event : LosslessSessionEvent)
    (allow_unconfirmed_model : bool) : option RecordPointer :=
  match ea_numeric self with
  | LegacyCounter proof => counter_primary self event proof (le_model event)
  | LegacyFamilyCounter proof exact_model =>
      if family_model_ok (le_model event) exact_model
      then counter_primary self event proof exact_model else None
  | ResponseEvidence candidate exact =>
      response_primary self event allow_unconfirmed_model candidate exact
  end.

Definition period_ok (self : EventAdmission) (event : LosslessSessionEvent)
    (period : option SessionEventPeriod) : bool :=
  match ea_period self, period with
  | None, None => true
  | Some proof, Some period =>
      match i64_checked_sub (ep_reset_at period) (ep_window_seconds period) with
      | None => false
      | Some origin =>
          (pp_rule_version proof =? 1) && (0 <? ep_window_seconds period)
          && valid_time (ep_reset_at period) && valid_time origin
          && (origin <=? pp_lower_at proof) && (pp_upper_at proof <? ep_reset_at period)
          && (pp_lower_at proof <=? le_timestamp event) && (le_timestamp event <=? pp_upper_at proof)
          && EventOwnership_contains (ea_ownership self) (pp_lower_at proof)
          && EventOwnership_contains (ea_ownership self) (pp_upper_at proof)
          && is_some_and (λ value, 0 <? value) (canonical_u64_text (pp_evidence_generation proof))
          && validate_sha256 (pp_evidence_sha256 proof)
      end
  | _, _ => false
  end.

Definition valid_for_model_role (self : EventAdmission) (event : LosslessSessionEvent)
    (period : option SessionEventPeriod) (allow_unconfirmed_model : bool) : bool :=
  if negb (source_matches self event) then false
  else
    match primary_of self event allow_unconfirmed_model with
    | None => false
    | Some primary =>
        if (rp_start primary <? es_range_start (le_source event))
           || (es_range_end (le_source event) <? rp_end primary)
        then false
        else period_ok self event period
    end.
Definition valid_for (self : EventAdmission) event period : bool :=
  valid_for_model_role self event period false.
Definition valid_for_requalification (self : EventAdmission) event period : bool :=
  valid_for_model_role self event period true.
End valid_for.

(** ** What an admitted event is evidence for *)
Section evidence.
Context (key : ResponseIds → text).

(** The time lies in the ownership: from its start, before its end if it ended. *)
Definition owned (o : EventOwnership) (t : Z) : Prop :=
  eo_start_at o ≤ t ∧ ∀ e, eo_end_at o = Some e → t < e.
(** The name the model evidence is about: the event's own, or for a family key an
    exact model of the family. *)
Definition stands_for_model (event_model proof_model : text) (exact : option text) : Prop :=
  match exact with
  | None => proof_model = event_model
  | Some exact => proof_model = exact ∧ normalize_model_name exact = Some exact
                  ∧ family exact = Some event_model
  end.
Definition counter_evidence (event : LosslessSessionEvent) (proof : LegacyCounterProof)
    (proof_model : text) : Prop :=
  checked_delta (CounterWitness_facts (lc_after proof)) (CounterWitness_facts (lc_before proof))
    = Ok (le_tokens event)
  ∧ rp_end (cw_pointer (lc_before proof)) ≤ rp_start (cw_pointer (lc_after proof))
  ∧ rp_timestamp (cw_pointer (lc_after proof)) = le_timestamp event
  ∧ (le_model event = lit "UNATTRIBUTED" ∨
     ∃ context, lc_model_context proof = Some context
       ∧ cp_end (lm_pointer context) ≤ rp_start (cw_pointer (lc_after proof))
       ∧ (SessionModelInterval_parse (lm_interval context) = Some IntervalNone
          ∨ SessionModelInterval_parse (lm_interval context) = Some (IntervalModel proof_model))).
Definition response_evidence (self : EventAdmission) (event : LosslessSessionEvent)
    (candidate : PendingResponse) (proof_model : text) : Prop :=
  let ids := rr_ids (pr_record candidate) in
  let metadata := ab_metadata (ea_source_binding self) in
  le_tokens event = facts_of_usage (rr_usage (pr_record candidate))
  ∧ rp_timestamp (pr_pointer candidate) = le_timestamp event
  ∧ qualified_model candidate = Some proof_model
  ∧ sm_thread_id metadata = ri_thread_id ids ∧ sm_session_id metadata = Some (ri_session_id ids).
Definition numeric_evidence (self : EventAdmission) (event : LosslessSessionEvent) : Prop :=
  match ea_numeric self with
  | LegacyCounter proof => counter_evidence event proof (le_model event)
  | LegacyFamilyCounter proof exact =>
      stands_for_model (le_model event) exact (Some exact) ∧ counter_evidence event proof exact
  | ResponseEvidence candidate exact =>
      ∃ proof_model, stands_for_model (le_model event) proof_model exact
        ∧ response_evidence self event candidate proof_model
  end.
Definition evidence_pointer (numeric : NumericEventProof) : RecordPointer :=
  match numeric with
  | LegacyCounter proof | LegacyFamilyCounter proof _ => cw_pointer (lc_after proof)
  | ResponseEvidence candidate _ => pr_pointer candidate
  end.
(** The attributed interval lies in the period and in the ownership and holds the
    event. *)
Definition period_evidence (self : EventAdmission) (event : LosslessSessionEvent)
    (period : option SessionEventPeriod) : Prop :=
  match ea_period self, period with
  | None, None => True
  | Some proof, Some period =>
      ep_reset_at period - ep_window_seconds period ≤ pp_lower_at proof
      ∧ pp_lower_at proof ≤ le_timestamp event ≤ pp_upper_at proof
      ∧ pp_upper_at proof < ep_reset_at period
      ∧ ∀ t, pp_lower_at proof ≤ t ≤ pp_upper_at proof → owned (ea_ownership self) t
  | _, _ => False
  end.

Lemma contains_owned o t : EventOwnership_contains o t = true ↔ owned o t.
Proof.
  unfold EventOwnership_contains, owned. rewrite andb_true_iff, Z.leb_le.
  destruct (eo_end_at o) as [e|]; simpl; [rewrite Z.ltb_lt|]; naive_solver.
Qed.
Lemma family_model_ok_true m exact :
  family_model_ok m exact = true → stands_for_model m exact (Some exact).
Proof.
  unfold family_model_ok, stands_for_model. rewrite !andb_true_iff, !bool_decide_eq_true. tauto.
Qed.
Lemma counter_primary_Some self event proof proof_model p :
  counter_primary self event proof proof_model = Some p →
  p = cw_pointer (lc_after proof) ∧ counter_evidence event proof proof_model.
Proof.
  unfold counter_primary, counter_evidence.
  destruct (_ || _) eqn:E1; [done|]. destruct (is_some_and _ _) eqn:E2; [done|].
  destruct (_ && _) eqn:E3; [done|]. intros [= <-]. split; [done|].
  rewrite !orb_false_iff, !negb_false_iff, bool_decide_eq_true, Z.ltb_ge, Z.eqb_eq in E1.
  split_and!; [tauto..|].
  rewrite andb_false_iff, !negb_false_iff, text_eqb_true in E3. destruct E3 as [->|E3]; [by left|right].
  destruct (lc_model_context proof) as [context|]; [|done]. simpl in E2, E3. exists context.
  rewrite orb_true_iff, !bool_decide_eq_true in E3.
  rewrite negb_false_iff, !andb_true_iff, Z.leb_le in E2. split_and!; [done|tauto|done].
Qed.
Lemma response_primary_Some self event candidate exact p :
  response_primary key self event false candidate exact = Some p →
  p = pr_pointer candidate
  ∧ ∃ proof_model, stands_for_model (le_model event) proof_model exact
      ∧ response_evidence self event candidate proof_model.
Proof.
  unfold response_primary. rewrite bind_Some_iff. intros (m & Hm & Hp).
  destruct (_ || _) eqn:E; [done|]. injection Hp as <-. split; [done|]. exists m. split.
  - destruct exact as [e|]; [|by injection Hm].
    destruct (family_model_ok (le_model event) e) eqn:Ef; [|done]. injection Hm as <-.
    by apply family_model_ok_true.
  - unfold response_evidence. rewrite !orb_false_iff, !negb_false_iff, andb_false_iff, !negb_false_iff,
      !bool_decide_eq_true, Z.eqb_eq in E.
    destruct E as (((((Hq & Hv) & Hmodel) & Ht) & _) & Htok).
    destruct Hmodel as [Hmodel|]; [|done]. split_and!; [done..| |];
      unfold SourceAdmission_valid in Hv; rewrite !andb_true_iff in Hv; destruct Hv as [_ Hv];
      simpl in Hv; rewrite andb_true_r in Hv; unfold response_valid in Hv;
      rewrite !andb_true_iff, Hq in Hv; destruct Hv as [[_ Hmeta] _]; simpl in Hmeta;
      rewrite andb_true_iff, text_eqb_true, bool_decide_eq_true in Hmeta; tauto.
Qed.
Lemma period_ok_true self event period :
  period_ok self event period = true → period_evidence self event period.
Proof.
  unfold period_ok, period_evidence. destruct (ea_period self) as [proof|], period as [period|]; try done.
  destruct (i64_checked_sub _ _) as [origin|] eqn:E; [|done].
  apply i64_checked_sub_Some in E as [-> _].
  rewrite !andb_true_iff, !contains_owned, !Z.leb_le, !Z.ltb_lt. unfold owned.
  intros (((((((((((_ & _) & _) & _) & ?) & ?) & ?) & ?) & [Hl _]) & [_ Hu]) & _) & _).
  split_and!; [done..|]. intros t Ht. split; [lia|]. intros e He. specialize (Hu e He). lia.
Qed.
End evidence.

(** C2. An admitted event is what its evidence says: its time is owned, its record
    lies in the event's byte range, its tokens are the checked difference of two
    ordered counters or the usage of a response of the bound session, its model is
    unattributed or proved by the adopted context or the qualified response, and
    its period encloses an owned interval around the event. *)
Theorem admitted_event_is_evidenced key (self : EventAdmission) event period :
  valid_for key self event period = true →
  owned (ea_ownership self) (le_timestamp event)
  ∧ es_range_start (le_source event) ≤ rp_start (evidence_pointer (ea_numeric self))
  ∧ rp_end (evidence_pointer (ea_numeric self)) ≤ es_range_end (le_source event)
  ∧ numeric_evidence self event ∧ period_evidence self event period.
Proof.
  unfold valid_for, valid_for_model_role, source_matches. destruct (negb (negb _)) eqn:E; [done|].
  rewrite negb_involutive, !orb_false_iff, !negb_false_iff, (contains_owned _ (le_timestamp event)) in E.
  destruct (primary_of _ _ _ _) as [p|] eqn:Hp; [|done].
  destruct (_ || _) eqn:Er; [done|]. intros Hperiod%period_ok_true.
  rewrite orb_false_iff, !Z.ltb_ge in Er.
  assert (p = evidence_pointer (ea_numeric self) ∧ numeric_evidence self event) as [-> Hn].
  { unfold primary_of in Hp. unfold numeric_evidence. destruct (ea_numeric self) as [proof|proof exact|c exact].
    - by apply counter_primary_Some in Hp as [-> ?].
    - destruct (family_model_ok _ _) eqn:Ef; [|done]. apply family_model_ok_true in Ef.
      by apply counter_primary_Some in Hp as [-> ?].
    - by apply response_primary_Some in Hp as [-> ?]. }
  tauto.
Qed.

Lemma primary_of_requalified key self event :
  primary_of key self event true = primary_of key self event false
  ∨ primary_of key self event false = None
    ∧ ∃ candidate exact, ea_numeric self = ResponseEvidence candidate exact
        ∧ qualified_model candidate = None ∧ unconfirmed (pr_classification candidate) = true.
Proof.
  unfold primary_of. destruct (ea_numeric self) as [| |candidate exact]; [by left..|].
  unfold response_primary. destruct (match exact with Some _ => _ | None => _ end) as [m|];
    [|by left]. cbn [mbind option_bind].
  destruct (qualified_model candidate) as [q|] eqn:Eq; cbn [opt_is_some negb andb]; [by left|].
  destruct (unconfirmed (pr_classification candidate)) eqn:Eu; [|by left].
  right. rewrite bool_decide_eq_false_2 by done. cbn [negb andb]. rewrite orb_true_r. simpl.
  split; [done|]. by exists candidate, exact.
Qed.

(** Requalification relaxes nothing but the model of a response: it admits all
    that is admitted, and what it admits beyond is evidenced by a response that its
    classification gave no model. *)
Theorem requalification_relaxes_model_only key (self : EventAdmission) event period :
  (valid_for key self event period = true → valid_for_requalification key self event period = true)
  ∧ (valid_for_requalification key self event period = true →
     valid_for key self event period = true
     ∨ ∃ candidate exact, ea_numeric self = ResponseEvidence candidate exact
         ∧ qualified_model candidate = None ∧ unconfirmed (pr_classification candidate) = true).
Proof.
  unfold valid_for, valid_for_requalification, valid_for_model_role.
  destruct (negb (source_matches self event)); [split; [done|by left]|].
  destruct (primary_of_requalified key self event) as [->|[-> Hc]]; [by split; [|left]|].
  split; [done|]. by right.
Qed.

(** ** A concrete event *)
Definition example_binding : SourceAccountBinding := {|
  ab_version := 1;
  ab_partition := {| schema_version := lit "codex-info-account-db-v1";
    profile_scope_id := replicate 32 48; account_scope_id := replicate 64 49; storage_epoch := 1;
    partition_id := replicate 64 50 |};
  ab_root_identity := lit "unix:1:2"; ab_relative_path := lit "a/b.jsonl"; ab_file_device := 1;
  ab_file_inode := 2; ab_prefix_generation := hex_nibbles 32 7; ab_prefix_end := 500;
  ab_metadata := {| sm_thread_id := lit "thread"; sm_session_id := Some (lit "session") |};
  ab_proof := Rpc 900 1100 {| bp_pid := 3; bp_starttime_ticks := 1; bp_executable_device := 1;
                              bp_executable_inode := 1 |};
  ab_creator_origin := None |}.
Definition example_witness (start total : Z) : CounterWitness := {|
  cw_pointer := example_pointer start; cw_total := total; cw_input := Some total;
  cw_cached_input := Some 0; cw_cache_write_input := Some 0; cw_output := Some 0 |}.
Definition example_event : LosslessSessionEvent := {|
  le_source := {| es_root_identity := lit "unix:1:2"; es_relative_path := lit "a/b.jsonl";
    es_file_device := 1; es_file_inode := 2; es_prefix_generation := 7; es_range_start := 100;
    es_range_end := 200; es_record_sha256 := example_sha; es_event_index := 0 |};
  le_timestamp := 1000; le_model := lit "SOL";
  le_tokens := facts_of_usage {| ru_total := 5; ru_input := 5; ru_cached_input := 0;
    ru_cache_write_input := 0; ru_output := 0; ru_reasoning_output := 0 |};
  le_period := None |}.
Definition example_admission (model : text) : EventAdmission := {|
  ea_version := 1; ea_source_binding := example_binding; ea_verified_prefix_end := 500;
  ea_ownership := {| eo_start_at := 900; eo_end_at := Some 1200 |};
  ea_numeric := LegacyFamilyCounter {|
    lc_before := example_witness 100 7; lc_after := example_witness 150 12;
    lc_model_context := Some {| lm_pointer := example_proof 120; lm_kind := lit "turn";
                                lm_interval := lit "model:" ++ model |} |} (lit "gpt-6-sol");
  ea_period := Some {| pp_rule_version := 1; pp_lower_at := 950; pp_upper_at := 1050;
    pp_evidence_generation := lit "3"; pp_evidence_sha256 := example_sha |} |}.
Definition example_period : option SessionEventPeriod :=
  Some {| ep_reset_at := 2000; ep_window_seconds := 1500 |}.
Example example_models :
  valid_for ri_response_id (example_admission (lit "gpt-6-sol")) example_event example_period = true
  ∧ valid_for ri_response_id (example_admission (lit "gpt-6-luna")) example_event example_period
    = false.
Proof. vm_compute. done. Qed.

Lemma admitted_event_is_evidenced_witness :
  let self := example_admission (lit "gpt-6-sol") in
  owned (ea_ownership self) (le_timestamp example_event)
  ∧ es_range_start (le_source example_event) ≤ rp_start (evidence_pointer (ea_numeric self))
  ∧ rp_end (evidence_pointer (ea_numeric self)) ≤ es_range_end (le_source example_event)
  ∧ numeric_evidence self example_event ∧ period_evidence self example_event example_period.
Proof.
  apply (admitted_event_is_evidenced ri_response_id (example_admission (lit "gpt-6-sol"))
    example_event example_period).
  vm_compute. reflexivity.
Defined.
