(* ===== verification/SessionRecord.v ===== *)
(** * Session records: summaries and what they are recognized as

    Models the record summaries and their predicates, and the model attribution
    state, of [src/session_input.rs]. The RFC 3339 parser of the chrono library is
    a parameter. The streaming parser that fills the summaries is not modelled
    here. *)

From S2P Require Import Prelude Text Contract TokenFacts ModelNames SourceAdmission.

(** ** Token snapshots *)
Record TokenSnapshot := {
  ts_total : Z;
  ts_input : option Z;
  ts_cached_input : option Z;
  ts_output : option Z;
  ts_cache_write_input : option Z
}.
Definition facts (self : TokenSnapshot) : TokenFacts := {|
  tf_total := ts_total self; tf_input := ts_input self; tf_cached_input := ts_cached_input self;
  tf_cache_write_input := ts_cache_write_input self; tf_output := ts_output self |}.
Definition from_facts (tokens : TokenFacts) : TokenSnapshot := {|
  ts_total := tf_total tokens; ts_input := tf_input tokens;
  ts_cached_input := tf_cached_input tokens; ts_output := tf_output tokens;
  ts_cache_write_input := tf_cache_write_input tokens |}.
Definition is_zero (self : TokenSnapshot) : bool :=
  (ts_total self =? 0)
  && forallb (λ value, bool_decide (value = Some 0))
       [ts_input self; ts_cached_input self; ts_output self; ts_cache_write_input self].
Definition valid (self : TokenSnapshot) : bool := is_ok (validate_fact (facts self)).
Definition valid_raw (self : TokenSnapshot) : bool := is_ok (validate_raw_counter (facts self)).
Definition has_usage (self : TokenSnapshot) : bool := 0 <? ts_total self.

(** ** Keys of the record objects *)
Inductive SessionJsonKey :=
  | KType | KTimestamp | KModel | KPayload | KThreadSettings | KHistoryBase | KInfo
  | KTotalTokenUsage | KLastTokenUsage | KModelContextWindow | KTotalTokens
  | KCacheWriteInputTokens | KInputTokens | KCachedInputTokens | KOutputTokens
  | KReasoningOutputTokens | KId | KThreadId | KSessionId | KTurnId | KRootTurnId | KResponseId
  | KUsage | KTurnTokenUsage | KThreadTokenUsage | KLatestTokenUsageRecord | KMessage | KText
  | KFull | KState | KTriggerTurn | KReplacementHistory | KReplacementHistoryMetadata
  | KWindowNumber | KWindowId | KFirstWindowId | KPreviousWindowId | KThreadIdCamel
  | KTurnIdCamel | KGoal | KItem | KStartedAtMs | KCompletedAtMs | KItemId | KSummaryIndex
  | KObjective | KStatus | KTokensUsed | KTimeUsedSeconds | KCreatedAt | KUpdatedAt
  | KTokenBudget | KRole | KOrdinal | KMetadata | KForkedFromId | KCreatorAccountId | KOther.
#[export] Instance SessionJsonKey_eq_dec : EqDecision SessionJsonKey.
Proof. solve_decision. Defined.

(** The discriminants, in declaration order. *)
Definition ALL_KEYS : list SessionJsonKey := [
  KType; KTimestamp; KModel; KPayload; KThreadSettings; KHistoryBase; KInfo;
  KTotalTokenUsage; KLastTokenUsage; KModelContextWindow; KTotalTokens;
  KCacheWriteInputTokens; KInputTokens; KCachedInputTokens; KOutputTokens;
  KReasoningOutputTokens; KId; KThreadId; KSessionId; KTurnId; KRootTurnId; KResponseId;
  KUsage; KTurnTokenUsage; KThreadTokenUsage; KLatestTokenUsageRecord; KMessage; KText;
  KFull; KState; KTriggerTurn; KReplacementHistory; KReplacementHistoryMetadata;
  KWindowNumber; KWindowId; KFirstWindowId; KPreviousWindowId; KThreadIdCamel;
  KTurnIdCamel; KGoal; KItem; KStartedAtMs; KCompletedAtMs; KItemId; KSummaryIndex;
  KObjective; KStatus; KTokensUsed; KTimeUsedSeconds; KCreatedAt; KUpdatedAt;
  KTokenBudget; KRole; KOrdinal; KMetadata; KForkedFromId; KCreatorAccountId; KOther].
Fixpoint index_of (key : SessionJsonKey) (keys : list SessionJsonKey) : Z :=
  match keys with
  | [] => 0
  | k :: rest => if decide (k = key) then 0 else 1 + index_of key rest
  end.
Definition bit (self : SessionJsonKey) : Z := Z.shiftl 1 (index_of self ALL_KEYS).
(** [mask & key.bit() != 0] *)
Definition has (mask : Z) (key : SessionJsonKey) : bool := negb (Z.land mask (bit key) =? 0).
Definition has_any (mask : Z) (keys : list SessionJsonKey) : bool := existsb (has mask) keys.

Definition is_key (self : SessionJsonKey) (keys : list SessionJsonKey) : bool :=
  existsb (λ k, bool_decide (k = self)) keys.
Definition response_field (self : SessionJsonKey) : bool :=
  is_key self [KThreadId; KSessionId; KTurnId; KRootTurnId; KResponseId; KUsage; KTurnTokenUsage;
               KThreadTokenUsage].
Definition token_component (self : SessionJsonKey) : bool :=
  is_key self [KTotalTokens; KInputTokens; KCachedInputTokens; KCacheWriteInputTokens;
               KOutputTokens].

Inductive SessionJsonObject :=
  | Root
  | Payload
  | ThreadSettings
  | Info
  | TokenUsage
  | LastTokenUsage
  | ResponseSnapshot
  | ResponseUsageObject (snapshot : bool)
  | ResponseTurnUsage (snapshot : bool)
  | ResponseThreadUsage (snapshot : bool)
  | Goal.

(** ** Summaries *)
Record TokenUsageSummary := {
  tu_total : option Z;
  tu_cache_write_input : option Z;
  tu_input : option Z;
  tu_cached_input : option Z;
  tu_output : option Z;
  tu_reasoning_output : option Z;
  tu_reasoning_malformed : bool;
  tu_total_seen : bool;
  tu_malformed : bool
}.
Definition response_usage (self : TokenUsageSummary) : option ResponseUsage :=
  total ← tu_total self;
  input ← tu_input self;
  cached_input ← tu_cached_input self;
  cache_write_input ← tu_cache_write_input self;
  output ← tu_output self;
  reasoning_output ← tu_reasoning_output self;
  let usage := {| ru_total := total; ru_input := input; ru_cached_input := cached_input;
                  ru_cache_write_input := cache_write_input; ru_output := output;
                  ru_reasoning_output := reasoning_output |} in
  then_some (negb (tu_malformed self) && negb (tu_reasoning_malformed self)
             && ResponseUsage_valid usage) usage.
Definition snapshot (self : TokenUsageSummary) : option TokenSnapshot :=
  total ← tu_total self;
  Some {| ts_total := total; ts_cache_write_input := tu_cache_write_input self;
          ts_input := tu_input self; ts_cached_input := tu_cached_input self;
          ts_output := tu_output self |}.
Definition valid_snapshot (self : TokenUsageSummary) : option TokenSnapshot :=
  if negb (tu_malformed self) then snapshot self else None.

Record ResponsePayloadSummary := {
  rp_thread_id : option text;
  rp_session_id : option text;
  rp_session_id_seen : bool;
  rp_turn_id : option text;
  rp_root_turn_id : option text;
  rp_response_id : option text;
  rp_malformed_identifiers : Z;
  rp_usage : TokenUsageSummary;
  rp_turn_usage : TokenUsageSummary;
  rp_thread_usage : TokenUsageSummary
}.
Definition response_record (self : ResponsePayloadSummary) : option ResponseRecord :=
  if negb (rp_malformed_identifiers self =? 0) then None
  else
    thread_id ← rp_thread_id self;
    session_id ← rp_session_id self;
    root_turn_id ← rp_root_turn_id self;
    turn_id ← rp_turn_id self;
    response_id ← rp_response_id self;
    usage ← response_usage (rp_usage self);
    turn_usage ← response_usage (rp_turn_usage self);
    thread_usage ← response_usage (rp_thread_usage self);
    let record := {|
      rr_ids := {| ri_thread_id := thread_id; ri_session_id := session_id;
                   ri_root_turn_id := root_turn_id; ri_turn_id := turn_id;
                   ri_response_id := response_id |};
      rr_usage := usage; rr_turn_usage := turn_usage; rr_thread_usage := thread_usage |} in
    then_some (ResponseRecord_valid record) record.

Inductive SessionNoOp :=
  | NoOpResponseItem
  | ActivityNotice
  | WorldState
  | InterAgentMetadata
  | Compacted
  | ThreadGoal
  | ItemCompleted
  | NoOpMessage
  | Reasoning
  | ReasoningSection.
Definition noop_keys (self : SessionNoOp) : list SessionJsonKey :=
  match self with
  | NoOpResponseItem | ActivityNotice => []
  | WorldState => [KFull; KState]
  | InterAgentMetadata => [KTriggerTurn]
  | Compacted => [KMessage; KReplacementHistory; KReplacementHistoryMetadata; KWindowNumber;
                  KWindowId; KFirstWindowId; KPreviousWindowId; KLatestTokenUsageRecord]
  | ThreadGoal => [KThreadIdCamel; KTurnIdCamel; KGoal]
  | ItemCompleted => [KThreadId; KTurnId; KItem; KStartedAtMs; KCompletedAtMs]
  | NoOpMessage => [KMessage]
  | Reasoning => [KText]
  | ReasoningSection => [KItemId; KSummaryIndex]
  end.
Definition noop_required (self : SessionNoOp) : list SessionJsonKey :=
  match self with
  | Compacted => [KMessage]
  | ThreadGoal => [KThreadIdCamel; KGoal]
  | ItemCompleted => [KItem]
  | ReasoningSection => []
  | _ => noop_keys self
  end.

Record GoalShape := {
  gs_seen : Z;
  gs_malformed : Z;
  gs_duplicates : bool;
  gs_thread_id : option text
}.
Definition goal_keys : list SessionJsonKey :=
  [KThreadIdCamel; KObjective; KStatus; KTokensUsed; KTimeUsedSeconds; KCreatedAt; KUpdatedAt;
   KTokenBudget].
Definition goal_valid (self : GoalShape) (thread_id : option text) : bool :=
  negb (gs_duplicates self) && (gs_malformed self =? 0)
  && bool_decide (gs_thread_id self = thread_id)
  && forallb (has (gs_seen self))
       (List.filter (λ key, negb (bool_decide (key = KTokenBudget))) goal_keys).

Record NoOpShape := {
  ns_seen : Z;
  ns_malformed : Z;
  ns_thread_id : option text;
  ns_goal : GoalShape;
  ns_replacement_history : option Z;
  ns_replacement_metadata : option Z;
  ns_role_seen : bool;
  ns_role_is_string : bool;
  ns_role_is_user : bool
}.
Definition noop_field (self : NoOpShape) (key : SessionJsonKey) (valid : bool) : NoOpShape := {|
  ns_seen := Z.lor (ns_seen self) (bit key);
  ns_malformed := if valid then ns_malformed self else Z.lor (ns_malformed self) (bit key);
  ns_thread_id := ns_thread_id self; ns_goal := ns_goal self;
  ns_replacement_history := ns_replacement_history self;
  ns_replacement_metadata := ns_replacement_metadata self; ns_role_seen := ns_role_seen self;
  ns_role_is_string := ns_role_is_string self; ns_role_is_user := ns_role_is_user self |}.

Record PayloadSummary := {
  p_noop : NoOpShape;
  p_metadata_id : option text;
  p_metadata_id_malformed : bool;
  p_forked_from_id : option text;
  p_forked_from_id_malformed : bool;
  p_creator_account_sha256 : option (list Z);
  p_response : ResponsePayloadSummary;
  p_snapshot_non_null : bool;
  p_snapshot : ResponsePayloadSummary;
  p_event_type : option text;
  p_event_type_seen : bool;
  p_event_type_malformed : bool;
  p_model : option text;
  p_model_seen : bool;
  p_model_malformed : bool;
  p_thread_settings_seen : bool;
  p_thread_settings_object : bool;
  p_thread_settings_model : option text;
  p_thread_settings_model_seen : bool;
  p_thread_settings_model_malformed : bool;
  p_history_base_seen : bool;
  p_history_base_non_null : bool;
  p_info_seen : bool;
  p_info_null : bool;
  p_info_object : bool;
  p_token_usage_seen : bool;
  p_token_usage_object : bool;
  p_token_usage : TokenUsageSummary;
  p_last_token_usage_seen : bool;
  p_last_token_usage_null : bool;
  p_last_token_usage_object : bool;
  p_last_token_usage : TokenUsageSummary;
  p_context_window : option Z;
  p_context_window_seen : bool;
  p_context_window_malformed : bool
}.
Record SessionRecordSummary := {
  s_unknown_envelope_field : bool;
  s_ordinal_seen : bool;
  s_ordinal_malformed : bool;
  s_response_metadata_seen : bool;
  s_response_metadata_object : bool;
  s_response_metadata_null : bool;
  s_outer_type : option text;
  s_timestamp : option text;
  s_timestamp_seen : bool;
  s_timestamp_malformed : bool;
  s_root_model : option text;
  s_root_model_seen : bool;
  s_root_model_malformed : bool;
  s_payload_seen : bool;
  s_payload_object : bool;
  s_payload : PayloadSummary;
  s_duplicate_fields : bool;
  s_root_duplicates : Z;
  s_payload_duplicates : Z;
  s_info_duplicates : bool;
  s_counter_duplicates : bool;
  s_thread_settings_duplicates : bool;
  s_response_duplicates : bool;
  s_snapshot_duplicates : bool
}.

(** ** Updates of the summaries *)
Definition with_reasoning_malformed (self : TokenUsageSummary) : TokenUsageSummary := {|
  tu_total := tu_total self; tu_cache_write_input := tu_cache_write_input self;
  tu_input := tu_input self; tu_cached_input := tu_cached_input self;
  tu_output := tu_output self; tu_reasoning_output := tu_reasoning_output self;
  tu_reasoning_malformed := true; tu_total_seen := tu_total_seen self;
  tu_malformed := tu_malformed self |}.
Definition with_noop (self : PayloadSummary) (noop : NoOpShape) : PayloadSummary := {|
  p_noop := noop; p_metadata_id := p_metadata_id self;
  p_metadata_id_malformed := p_metadata_id_malformed self;
  p_forked_from_id := p_forked_from_id self;
  p_forked_from_id_malformed := p_forked_from_id_malformed self;
  p_creator_account_sha256 := p_creator_account_sha256 self; p_response := p_response self;
  p_snapshot_non_null := p_snapshot_non_null self; p_snapshot := p_snapshot self;
  p_event_type := p_event_type self; p_event_type_seen := p_event_type_seen self;
  p_event_type_malformed := p_event_type_malformed self; p_model := p_model self;
  p_model_seen := p_model_seen self; p_model_malformed := p_model_malformed self;
  p_thread_settings_seen := p_thread_settings_seen self;
  p_thread_settings_object := p_thread_settings_object self;
  p_thread_settings_model := p_thread_settings_model self;
  p_thread_settings_model_seen := p_thread_settings_model_seen self;
  p_thread_settings_model_malformed := p_thread_settings_model_malformed self;
  p_history_base_seen := p_history_base_seen self;
  p_history_base_non_null := p_history_base_non_null self; p_info_seen := p_info_seen self;
  p_info_null := p_info_null self; p_info_object := p_info_object self;
  p_token_usage_seen := p_token_usage_seen self;
  p_token_usage_object := p_token_usage_object self; p_token_usage := p_token_usage self;
  p_last_token_usage_seen := p_last_token_usage_seen self;
  p_last_token_usage_null := p_last_token_usage_null self;
  p_last_token_usage_object := p_last_token_usage_object self;
  p_last_token_usage := p_last_token_usage self; p_context_window := p_context_window self;
  p_context_window_seen := p_context_window_seen self;
  p_context_window_malformed := p_context_window_malformed self |}.
Definition with_token_usage (self : PayloadSummary) (usage : TokenUsageSummary) : PayloadSummary := {|
  p_noop := p_noop self; p_metadata_id := p_metadata_id self;
  p_metadata_id_malformed := p_metadata_id_malformed self;
  p_forked_from_id := p_forked_from_id self;
  p_forked_from_id_malformed := p_forked_from_id_malformed self;
  p_creator_account_sha256 := p_creator_account_sha256 self; p_response := p_response self;
  p_snapshot_non_null := p_snapshot_non_null self; p_snapshot := p_snapshot self;
  p_event_type := p_event_type self; p_event_type_seen := p_event_type_seen self;
  p_event_type_malformed := p_event_type_malformed self; p_model := p_model self;
  p_model_seen := p_model_seen self; p_model_malformed := p_model_malformed self;
  p_thread_settings_seen := p_thread_settings_seen self;
  p_thread_settings_object := p_thread_settings_object self;
  p_thread_settings_model := p_thread_settings_model self;
  p_thread_settings_model_seen := p_thread_settings_model_seen self;
  p_thread_settings_model_malformed := p_thread_settings_model_malformed self;
  p_history_base_seen := p_history_base_seen self;
  p_history_base_non_null := p_history_base_non_null self; p_info_seen := p_info_seen self;
  p_info_null := p_info_null self; p_info_object := p_info_object self;
  p_token_usage_seen := p_token_usage_seen self;
  p_token_usage_object := p_token_usage_object self; p_token_usage := usage;
  p_last_token_usage_seen := p_last_token_usage_seen self;
  p_last_token_usage_null := p_last_token_usage_null self;
  p_last_token_usage_object := p_last_token_usage_object self;
  p_last_token_usage := p_last_token_usage self; p_context_window := p_context_window self;
  p_context_window_seen := p_context_window_seen self;
  p_context_window_malformed := p_context_window_malformed self |}.
Definition with_last_token_usage (self : PayloadSummary) (usage : TokenUsageSummary) : PayloadSummary := {|
  p_noop := p_noop self; p_metadata_id := p_metadata_id self;
  p_metadata_id_malformed := p_metadata_id_malformed self;
  p_forked_from_id := p_forked_from_id self;
  p_forked_from_id_malformed := p_forked_from_id_malformed self;
  p_creator_account_sha256 := p_creator_account_sha256 self; p_response := p_response self;
  p_snapshot_non_null := p_snapshot_non_null self; p_snapshot := p_snapshot self;
  p_event_type := p_event_type self; p_event_type_seen := p_event_type_seen self;
  p_event_type_malformed := p_event_type_malformed self; p_model := p_model self;
  p_model_seen := p_model_seen self; p_model_malformed := p_model_malformed self;
  p_thread_settings_seen := p_thread_settings_seen self;
  p_thread_settings_object := p_thread_settings_object self;
  p_thread_settings_model := p_thread_settings_model self;
  p_thread_settings_model_seen := p_thread_settings_model_seen self;
  p_thread_settings_model_malformed := p_thread_settings_model_malformed self;
  p_history_base_seen := p_history_base_seen self;
  p_history_base_non_null := p_history_base_non_null self; p_info_seen := p_info_seen self;
  p_info_null := p_info_null self; p_info_object := p_info_object self;
  p_token_usage_seen := p_token_usage_seen self;
  p_token_usage_object := p_token_usage_object self; p_token_usage := p_token_usage self;
  p_last_token_usage_seen := p_last_token_usage_seen self;
  p_last_token_usage_null := p_last_token_usage_null self;
  p_last_token_usage_object := p_last_token_usage_object self; p_last_token_usage := usage;
  p_context_window := p_context_window self;
  p_context_window_seen := p_context_window_seen self;
  p_context_window_malformed := p_context_window_malformed self |}.
Definition with_goal (self : NoOpShape) (goal : GoalShape) : NoOpShape := {|
  ns_seen := ns_seen self; ns_malformed := ns_malformed self; ns_thread_id := ns_thread_id self;
  ns_goal := goal; ns_replacement_history := ns_replacement_history self;
  ns_replacement_metadata := ns_replacement_metadata self; ns_role_seen := ns_role_seen self;
  ns_role_is_string := ns_role_is_string self; ns_role_is_user := ns_role_is_user self |}.
Definition with_goal_duplicates (self : GoalShape) (duplicates : bool) : GoalShape := {|
  gs_seen := gs_seen self; gs_malformed := gs_malformed self; gs_duplicates := duplicates;
  gs_thread_id := gs_thread_id self |}.
Definition with_payload (self : SessionRecordSummary) (payload : PayloadSummary) : SessionRecordSummary := {|
  s_unknown_envelope_field := s_unknown_envelope_field self;
  s_ordinal_seen := s_ordinal_seen self; s_ordinal_malformed := s_ordinal_malformed self;
  s_response_metadata_seen := s_response_metadata_seen self;
  s_response_metadata_object := s_response_metadata_object self;
  s_response_metadata_null := s_response_metadata_null self; s_outer_type := s_outer_type self;
  s_timestamp := s_timestamp self; s_timestamp_seen := s_timestamp_seen self;
  s_timestamp_malformed := s_timestamp_malformed self; s_root_model := s_root_model self;
  s_root_model_seen := s_root_model_seen self;
  s_root_model_malformed := s_root_model_malformed self; s_payload_seen := s_payload_seen self;
  s_payload_object := s_payload_object self; s_payload := payload;
  s_duplicate_fields := s_duplicate_fields self; s_root_duplicates := s_root_duplicates self;
  s_payload_duplicates := s_payload_duplicates self;
  s_info_duplicates := s_info_duplicates self;
  s_counter_duplicates := s_counter_duplicates self;
  s_thread_settings_duplicates := s_thread_settings_duplicates self;
  s_response_duplicates := s_response_duplicates self;
  s_snapshot_duplicates := s_snapshot_duplicates self |}.
Definition with_duplicates (self : SessionRecordSummary) (root payload : Z) (info counter settings response snapshot_ : bool) : SessionRecordSummary := {|
  s_unknown_envelope_field := s_unknown_envelope_field self;
  s_ordinal_seen := s_ordinal_seen self; s_ordinal_malformed := s_ordinal_malformed self;
  s_response_metadata_seen := s_response_metadata_seen self;
  s_response_metadata_object := s_response_metadata_object self;
  s_response_metadata_null := s_response_metadata_null self; s_outer_type := s_outer_type self;
  s_timestamp := s_timestamp self; s_timestamp_seen := s_timestamp_seen self;
  s_timestamp_malformed := s_timestamp_malformed self; s_root_model := s_root_model self;
  s_root_model_seen := s_root_model_seen self;
  s_root_model_malformed := s_root_model_malformed self; s_payload_seen := s_payload_seen self;
  s_payload_object := s_payload_object self; s_payload := s_payload self;
  s_duplicate_fields := s_duplicate_fields self; s_root_duplicates := root;
  s_payload_duplicates := payload; s_info_duplicates := info; s_counter_duplicates := counter;
  s_thread_settings_duplicates := settings; s_response_duplicates := response;
  s_snapshot_duplicates := snapshot_ |}.

Definition observe_duplicate (self : SessionRecordSummary) (object : SessionJsonObject)
    (key : SessionJsonKey) : SessionRecordSummary :=
  let update root payload info counter settings response snapshot_ :=
    with_duplicates self (Z.lor (s_root_duplicates self) root)
      (Z.lor (s_payload_duplicates self) payload) (s_info_duplicates self || info)
      (s_counter_duplicates self || counter) (s_thread_settings_duplicates self || settings)
      (s_response_duplicates self || response) (s_snapshot_duplicates self || snapshot_) in
  let usage snapshot_ :=
    let counted := token_component key || bool_decide (key = KReasoningOutputTokens) in
    update 0 0 false false false (counted && negb snapshot_) (counted && snapshot_) in
  let payload := s_payload self in
  match object with
  | Root => update (bit key) 0 false false false false false
  | Payload => update 0 (bit key) false false false false false
  | Info =>
      update 0 0 (is_key key [KTotalTokenUsage; KLastTokenUsage; KModelContextWindow])
        false false false false
  | ThreadSettings => update 0 0 false false (bool_decide (key = KModel)) false false
  | TokenUsage =>
      let self := update 0 0 false (token_component key) false false false in
      if bool_decide (key = KReasoningOutputTokens)
      then with_payload self (with_token_usage payload
             (with_reasoning_malformed (p_token_usage payload)))
      else self
  | LastTokenUsage =>
      let self := update 0 0 false (token_component key) false false false in
      if bool_decide (key = KReasoningOutputTokens)
      then with_payload self (with_last_token_usage payload
             (with_reasoning_malformed (p_last_token_usage payload)))
      else self
  | ResponseSnapshot => update 0 0 false false false false (response_field key)
  | Goal =>
      let goal := ns_goal (p_noop payload) in
      with_payload self (with_noop payload (with_goal (p_noop payload)
        (with_goal_duplicates goal (gs_duplicates goal || is_key key goal_keys))))
  | ResponseUsageObject snapshot_ | ResponseTurnUsage snapshot_
  | ResponseThreadUsage snapshot_ => usage snapshot_
  end.

(** ** Recognition of records *)
(** [outer_type.as_deref() == Some("...")] *)
Definition opt_is (o : option text) (name : string) : bool := bool_decide (o = Some (lit name)).
Arguments opt_is o name%_string_scope.
Definition opt_is_any (o : option text) (names : list string) : bool :=
  is_some_and (λ value, is_any value names) o.
Arguments opt_is_any o names%_string_scope.

Definition noop_shape_valid (self : NoOpShape) (kind : SessionNoOp) (payload : PayloadSummary) :
    bool :=
  if has_any (ns_malformed self) (noop_keys kind)
     || existsb (λ key, negb (has (ns_seen self) key)) (noop_required kind)
  then false
  else
    match kind with
    | ThreadGoal => opt_is_some (ns_thread_id self) && goal_valid (ns_goal self) (ns_thread_id self)
    | ItemCompleted =>
        opt_is_some (rp_thread_id (p_response payload))
        && opt_is_some (rp_turn_id (p_response payload))
        && (Z.land (rp_malformed_identifiers (p_response payload))
              (Z.lor (bit KThreadId) (bit KTurnId)) =? 0)
    | Compacted =>
        is_none_or (λ count, bool_decide (ns_replacement_history self = Some count))
          (ns_replacement_metadata self)
        && (negb (p_snapshot_non_null payload) || opt_is_some (response_record (p_snapshot payload)))
    | _ => true
    end.

Definition task_running_for_event_type (event_type : text) : option bool :=
  if is_any event_type ["task_started"] then Some true
  else if is_any event_type ["task_complete"; "task_completed"; "turn_aborted"] then Some false
  else None.

Section record.
Context (parse_rfc3339 : text → option Z) (self : SessionRecordSummary).
Abbreviation payload := (s_payload self).
Abbreviation outer := (s_outer_type self).

Definition response_stream_marker : bool :=
  opt_is outer "token_usage_record" || (opt_is outer "compacted" && p_snapshot_non_null payload).

Definition event_type : option text :=
  if opt_is_any outer ["task_started"; "task_complete"; "task_completed"; "turn_aborted";
       "token_count"; "turn_context"; "thread_context"; "thread_settings_applied"]
  then outer
  else if opt_is outer "event_msg" then p_event_type payload
  else None.
Definition task_running : option bool := event_type ?> task_running_for_event_type.

Definition known_state_input : bool :=
  opt_is_any outer ["session_meta"; "token_usage_record"]
  || opt_is_any event_type ["token_count"; "turn_context"; "thread_context";
       "thread_settings_applied"; "task_started"; "task_complete"; "task_completed";
       "turn_aborted"].

Definition metadata_shape_valid : bool :=
  negb (s_duplicate_fields self) && s_payload_object self
  && opt_is_some (p_metadata_id payload) && negb (p_metadata_id_malformed payload)
  && negb (p_forked_from_id_malformed payload)
  && is_none_or (λ parent, negb (bool_decide (p_metadata_id payload = Some parent)))
       (p_forked_from_id payload)
  && negb (has (rp_malformed_identifiers (p_response payload)) KSessionId)
  && (negb (rp_session_id_seen (p_response payload))
      || opt_is_some (rp_session_id (p_response payload))).

Definition event_timestamp : Z := default 0 (s_timestamp self ?> parse_rfc3339).
Definition timestamp_ok : bool :=
  s_timestamp_seen self && negb (s_timestamp_malformed self)
  && in_range 1 253402300799 event_timestamp.

Definition context_envelope_valid : bool :=
  let payload_valid :=
    if s_payload_seen self then
      s_payload_object self && negb (p_event_type_malformed payload)
      && (if opt_is outer "event_msg"
          then p_event_type_seen payload && opt_is_some (p_event_type payload)
          else negb (p_event_type_seen payload) || bool_decide (p_event_type payload = outer))
    else
      opt_is_any outer ["turn_context"; "thread_context"; "thread_settings_applied";
        "task_started"; "task_complete"; "task_completed"; "turn_aborted"] in
  negb (s_duplicate_fields self) && timestamp_ok && payload_valid.
Definition task_shape_valid : bool := opt_is_some task_running && context_envelope_valid.

Definition ordinal_shape_valid : bool :=
  negb (s_ordinal_malformed self) && negb (has (s_root_duplicates self) KOrdinal).
Definition response_metadata_shape_valid : bool :=
  negb (s_response_metadata_seen self)
  || (opt_is outer "response_item"
      && (s_response_metadata_null self || s_response_metadata_object self)
      && negb (has (s_root_duplicates self) KMetadata)).
Definition envelope_metadata_shape_valid : bool :=
  ordinal_shape_valid && response_metadata_shape_valid.

Definition noop_kind : option SessionNoOp :=
  if opt_is outer "response_item" then Some NoOpResponseItem
  else if opt_is outer "world_state" then Some WorldState
  else if opt_is outer "inter_agent_communication_metadata" then Some InterAgentMetadata
  else if opt_is outer "compacted" then Some Compacted
  else if opt_is outer "event_msg" then
    p_event_type payload ?> λ kind,
      if is_any kind ["mcp_tool_call_begin"; "mcp_tool_call_end"; "sub_agent_activity";
           "web_search_end"; "patch_apply_end"; "context_compacted"] then Some ActivityNotice
      else if is_any kind ["thread_goal_updated"] then Some ThreadGoal
      else if is_any kind ["item_completed"] then Some ItemCompleted
      else if is_any kind ["agent_message"; "user_message"] then Some NoOpMessage
      else if is_any kind ["agent_reasoning"; "agent_reasoning_raw_content"] then Some Reasoning
      else if is_any kind ["agent_reasoning_section_break"] then Some ReasoningSection
      else None
  else None.
Definition noop_valid : option bool :=
  kind ← noop_kind;
  Some (negb (s_duplicate_fields self) && s_payload_object self && timestamp_ok
        && noop_shape_valid (p_noop payload) kind payload).

(** The three places of a model name in a context event: seen, value, malformed. *)
Fixpoint choose_model (chosen : option text) (positions : list (bool * option text * bool)) :
    option text :=
  match positions with
  | [] => chosen
  | (seen, value, malformed) :: rest =>
      if negb seen then choose_model chosen rest
      else
        value ← value;
        if malformed || negb (opt_is_some (normalize_model_name value))
           || is_some_and (λ prior, negb (text_eqb (trim prior) (trim value))) chosen
        then None
        else choose_model (Some value) rest
  end.
Definition event_model : option text :=
  let weak := opt_is event_type "thread_settings_applied" in
  if negb (opt_is_any event_type ["turn_context"; "thread_context"; "thread_settings_applied"])
  then None
  else if weak && p_thread_settings_seen payload && negb (p_thread_settings_object payload) then None
  else choose_model None
    [(s_root_model_seen self, s_root_model self, s_root_model_malformed self);
     (p_model_seen payload, p_model payload, p_model_malformed payload);
     (weak && p_thread_settings_model_seen payload, p_thread_settings_model payload,
      p_thread_settings_model_malformed payload)].
Definition qualified_context_model : option text :=
  if negb context_envelope_valid
     || (opt_is_any event_type ["turn_context"; "thread_context"]
         && negb (Z.land (rp_malformed_identifiers (p_response payload))
                    (Z.lor (bit KTurnId) (bit KRootTurnId)) =? 0))
  then None else event_model.

Definition token_snapshot : option TokenSnapshot :=
  if opt_is event_type "token_count" && s_payload_object self
  then valid_snapshot (p_token_usage payload) else None.
Definition history_base_continuation : bool :=
  opt_is outer "session_meta" && s_payload_object self && p_history_base_seen payload
  && p_history_base_non_null payload.
Definition last_token_snapshot : option TokenSnapshot :=
  opt_filter valid_raw
    (if opt_is event_type "token_count" && s_payload_object self && p_info_object payload
        && p_last_token_usage_seen payload && p_last_token_usage_object payload
     then valid_snapshot (p_last_token_usage payload) else None).
Definition context_usage_tokens : option Z := option_map ts_total last_token_snapshot.
Definition context_window_tokens : option Z :=
  opt_filter (λ window, 0 <? window)
    (if opt_is event_type "token_count" && s_payload_object self && p_info_object payload
        && p_context_window_seen payload && negb (p_context_window_malformed payload)
     then p_context_window payload else None).
Definition context_pair : option (Z * Z) :=
  if negb context_envelope_valid then None
  else opt_zip context_usage_tokens context_window_tokens.
Definition context_unparsed : bool :=
  if negb (opt_is event_type "token_count") || negb context_envelope_valid
     || negb (p_info_object payload)
  then false
  else
    p_context_window_malformed payload || bool_decide (p_context_window payload = Some 0)
    || (p_last_token_usage_seen payload && negb (p_last_token_usage_null payload)
        && negb (opt_is_some last_token_snapshot)).
Definition usage_unparsed : bool :=
  if opt_is event_type "token_count" then
    if negb context_envelope_valid || negb (p_info_seen payload) then true
    else if p_info_null payload then false
    else
      negb (p_info_object payload) || negb (p_token_usage_seen payload)
      || negb (p_token_usage_object payload) || negb (tu_total_seen (p_token_usage payload))
      || tu_malformed (p_token_usage payload)
  else if opt_is_any event_type ["turn_context"; "thread_context"; "thread_settings_applied"]
  then negb (opt_is_some qualified_context_model)
  else false.

Definition input_shape_valid_for_coverage : bool :=
  if negb envelope_metadata_shape_valid then false
  else
    match noop_valid with
    | Some valid => valid
    | None =>
        if opt_is_some task_running then task_shape_valid
        else if opt_is outer "session_meta" then metadata_shape_valid
        else if opt_is outer "token_usage_record" then
          negb (s_duplicate_fields self) && s_payload_object self && timestamp_ok
          && opt_is_some (response_record (p_response payload))
        else if negb known_state_input || usage_unparsed || context_unparsed then false
        else if opt_is event_type "token_count" then
          p_info_null payload || is_some_and valid_raw token_snapshot
        else true
    end.
Definition live_shape_valid : bool :=
  input_shape_valid_for_coverage && negb (s_unknown_envelope_field self)
  && (negb (opt_is outer "response_item")
      || ((negb (p_event_type_seen payload) || opt_is_some (p_event_type payload))
          && (negb (ns_role_seen (p_noop payload)) || ns_role_is_string (p_noop payload))
          && negb (has (s_payload_duplicates self) KRole))).
Definition user_message_timestamp : option Z :=
  if live_shape_valid
     && (opt_is event_type "user_message"
         || (opt_is outer "response_item" && opt_is (p_event_type payload) "message"
             && ns_role_is_user (p_noop payload)))
  then Some event_timestamp else None.

Definition important_duplicates : bool :=
  let root_has := has_any (s_root_duplicates self) in
  let payload_has := has_any (s_payload_duplicates self) in
  if root_has [KType; KTimestamp; KPayload; KOrdinal; KMetadata] || payload_has [KType] then true
  else
    match noop_kind with
    | Some kind =>
        payload_has (noop_keys kind)
        || (match kind with Compacted => true | _ => false end && s_snapshot_duplicates self)
        || (match kind with ThreadGoal => true | _ => false end
            && gs_duplicates (ns_goal (p_noop payload)))
    | None =>
        if opt_is outer "session_meta" then
          payload_has [KId; KSessionId; KHistoryBase; KForkedFromId]
        else if opt_is outer "token_usage_record" then
          s_response_duplicates self
          || (negb (s_payload_duplicates self =? 0)
              && existsb (λ key, response_field key && has (s_payload_duplicates self) key) ALL_KEYS)
        else if opt_is outer "compacted" then
          s_snapshot_duplicates self || payload_has [KLatestTokenUsageRecord]
        else if opt_is event_type "token_count" then
          payload_has [KInfo] || s_info_duplicates self || s_counter_duplicates self
        else if opt_is_any event_type ["turn_context"; "thread_context"] then
          root_has [KModel] || payload_has [KModel; KTurnId; KRootTurnId]
        else if opt_is event_type "thread_settings_applied" then
          root_has [KModel] || payload_has [KModel; KThreadSettings]
          || s_thread_settings_duplicates self
        else false
    end.
End record.

(** ** The model in effect *)
Record ModelAttributionState := {
  ma_model : option text;
  ma_kind : SessionModelContextKind;
  ma_interval : SessionModelInterval
}.
Definition ModelAttributionState_new : ModelAttributionState := {|
  ma_model := None; ma_kind := ContextNone; ma_interval := IntervalNone |}.
Definition invalidate (self : ModelAttributionState) : ModelAttributionState := {|
  ma_model := ma_model self; ma_kind := ContextUnknown; ma_interval := IntervalUnknown |}.
Definition start_interval (self : ModelAttributionState) : ModelAttributionState := {|
  ma_model := ma_model self; ma_kind := ma_kind self; ma_interval := IntervalNone |}.
Definition checkpoint_model (model : text) : option text :=
  opt_filter (λ model, negb (text_eqb model (lit "UNATTRIBUTED"))) (normalize_model_name model).

Definition extend_interval (interval : SessionModelInterval) (model : text) :
    SessionModelInterval :=
  match interval with
  | IntervalNone => IntervalModel model
  | IntervalModel previous =>
      if text_eqb previous model then IntervalModel model else IntervalMixed
  | IntervalMixed => IntervalMixed
  | IntervalUnknown => IntervalUnknown
  end.

Section observe.
Context (parse_rfc3339 : text → option Z).
(** The new state, and whether a recognized context was malformed. *)
Definition observe_context (self : ModelAttributionState) (record : SessionRecordSummary) :
    ModelAttributionState * bool :=
  let kind := event_type record in
  let weak := opt_is kind "thread_settings_applied" in
  if negb (weak || opt_is_any kind ["turn_context"; "thread_context"]) then (self, false)
  else
    match qualified_context_model parse_rfc3339 record ?> checkpoint_model with
    | None =>
        (if negb weak || negb (bool_decide (ma_kind self = Turn)) then invalidate self else self,
         true)
    | Some model =>
        if weak && negb (bool_decide (ma_kind self = ContextNone)) then (self, false)
        else
          ({| ma_model := Some model; ma_kind := if weak then InitialSettings else Turn;
              ma_interval := extend_interval (ma_interval self) model |}, false)
    end.
End observe.

Definition interval_model (self : ModelAttributionState) : option text :=
  match ma_interval self with
  | IntervalNone =>
      match ma_kind self with
      | InitialSettings | Turn => ma_model self
      | _ => None
      end
  | IntervalModel model => Some model
  | _ => None
  end.

(** ** Models adopted by a run of contexts *)
Section intervals.
Context (parse_rfc3339 : text → option Z).
Definition observe_contexts (self : ModelAttributionState) (rs : list SessionRecordSummary) :
    ModelAttributionState :=
  fold_left (λ s r, fst (observe_context parse_rfc3339 s r)) rs self.

(** What one record does to the model: nothing, adoption, or invalidation. *)
Inductive context_effect := Ignored | Adopted (model : text) | Invalidated.
Definition effect (self : ModelAttributionState) (record : SessionRecordSummary) :
    context_effect :=
  let weak := opt_is (event_type record) "thread_settings_applied" in
  if negb (weak || opt_is_any (event_type record) ["turn_context"; "thread_context"]) then Ignored
  else
    match qualified_context_model parse_rfc3339 record ?> checkpoint_model with
    | None => if weak && bool_decide (ma_kind self = Turn) then Ignored else Invalidated
    | Some model => if weak && negb (bool_decide (ma_kind self = ContextNone)) then Ignored
                    else Adopted model
    end.
Fixpoint effects (self : ModelAttributionState) (rs : list SessionRecordSummary) :
    list context_effect :=
  match rs with
  | [] => []
  | r :: rest => effect self r :: effects (fst (observe_context parse_rfc3339 self r)) rest
  end.
Definition adopted_models (es : list context_effect) : list text :=
  filter_map (λ e, match e with Adopted m => Some m | _ => None end) es.

(** An interval reports the models adopted in it. *)
Definition reports (interval : SessionModelInterval) (es : list context_effect) : Prop :=
  match interval with
  | IntervalUnknown => Invalidated ∈ es
  | IntervalNone => (Invalidated ∉ es) ∧ adopted_models es = []
  | IntervalModel m => (Invalidated ∉ es) ∧ m ∈ adopted_models es ∧ Forall (eq m) (adopted_models es)
  | IntervalMixed => (Invalidated ∉ es) ∧ ∃ m n, m ∈ adopted_models es ∧ n ∈ adopted_models es ∧ m ≠ n
  end.

Lemma adopted_models_app es es' :
  adopted_models (es ++ es') = adopted_models es ++ adopted_models es'.
Proof. unfold adopted_models. induction es as [|[] es IH]; simpl; [done|done|by rewrite IH|done]. Qed.
Lemma observe_context_effect self r :
  match effect self r with
  | Ignored => ma_interval (fst (observe_context parse_rfc3339 self r)) = ma_interval self
  | Adopted m =>
      ma_interval (fst (observe_context parse_rfc3339 self r)) = extend_interval (ma_interval self) m
  | Invalidated => ma_interval (fst (observe_context parse_rfc3339 self r)) = IntervalUnknown
  end.
Proof.
  unfold effect, observe_context. destruct (negb _); [done|].
  destruct (qualified_context_model _ _ ?> _) as [m|]; [by destruct (_ && _)|].
  destruct (opt_is _ _); simpl; [|done]. by destruct (bool_decide _).
Qed.
Lemma reports_step interval es e interval' :
  reports interval es →
  match e with
  | Ignored => interval' = interval
  | Adopted m => interval' = extend_interval interval m
  | Invalidated => interval' = IntervalUnknown
  end → reports interval' (es ++ [e]).
Proof.
  intros Hr. assert (∀ e', (e' ∈ es ++ [e]) ↔ e' ∈ es ∨ e' = e) as Hin.
  { intros e'. rewrite elem_of_app, list_elem_of_singleton. done. }
  destruct e as [|m|]; intros ->.
  - unfold reports in *. rewrite adopted_models_app, app_nil_r.
    destruct interval; rewrite Hin; naive_solver.
  - unfold reports in *. rewrite adopted_models_app. simpl.
    destruct interval as [|p| |]; simpl in *; rewrite ?Hin.
    + destruct Hr as [? ->]. simpl. split_and!; [naive_solver|by left|by constructor].
    + destruct Hr as (Hn & Hp & Hall). unfold text_eqb. case_bool_decide as Hpm.
      * subst. rewrite ?Hin. split_and!; [naive_solver|set_solver|]. apply Forall_app. split; [done|by constructor].
      * rewrite ?Hin. split; [naive_solver|]. exists p, m. set_solver.
    + destruct Hr as (Hn & p & q & ? & ? & ?). split; [naive_solver|]. exists p, q. set_solver.
    + naive_solver.
  - unfold reports. rewrite Hin. by right.
Qed.
Lemma reports_run self rs es :
  reports (ma_interval self) es →
  reports (ma_interval (observe_contexts self rs)) (es ++ effects self rs).
Proof.
  revert self es. induction rs as [|r rs IH]; intros self es Hr; simpl; [by rewrite app_nil_r|].
  assert (reports (ma_interval (fst (observe_context parse_rfc3339 self r))) (es ++ [effect self r]))
    as Hs by (eapply reports_step; [exact Hr|apply observe_context_effect]).
  specialize (IH _ _ Hs). by rewrite <-(assoc_L (++)) in IH.
Qed.
End intervals.

(** The model of an interval is never a guess: the interval reports exactly the
    contexts adopted since it started, so a model is attributed only when no
    context was malformed and every model adopted in the interval is that one. *)
Theorem interval_reports_adoptions parse_rfc3339 (s : ModelAttributionState) rs :
  let s0 := start_interval s in
  let s1 := observe_contexts parse_rfc3339 s0 rs in
  let es := effects parse_rfc3339 s0 rs in
  reports (ma_interval s1) es
  ∧ ∀ m, interval_model s1 = Some m → (Invalidated ∉ es) ∧ Forall (eq m) (adopted_models es).
Proof.
  intros s0 s1 es. assert (reports (ma_interval s1) es) as Hr.
  { apply (reports_run parse_rfc3339 s0 rs []). unfold reports. simpl.
    split; [by intros ?%elem_of_nil|done]. }
  split; [done|]. intros m Hm. unfold interval_model in Hm.
  destruct (ma_interval s1) as [|n| |]; simpl in Hr; [|injection Hm as ->; tauto|done..].
  destruct Hr as [? ->]. by split; [|constructor].
Qed.
