(* ===== verification/Rollout.v ===== *)
(** * Rollouts: the accumulator of the live reader

    Models [RolloutAccumulator] of [src/thread_contract.rs] on the sequence of
    framed records its reader yields. The deadline wrapper and the JSON text of a
    rejection are I/O and diagnostics and are left out; the rejection keeps its
    position, category and record. *)

From S2P Require Import Prelude Text TokenFacts SourceAdmission SessionRecord Security ThreadSelection.

Inductive RolloutError :=
  | FileTooLarge
  | DeadlineExceeded
  | InvalidUtf8
  | UnterminatedLine
  | LineTooLarge
  | InvalidJson
  | InvalidKnownEvent.
Definition RolloutError_message (self : RolloutError) : text :=
  lit match self with
      | FileTooLarge => "thread rollout exceeds file limit"
      | DeadlineExceeded => "thread rollout deadline exceeded"
      | InvalidUtf8 => "thread rollout is not UTF-8"
      | UnterminatedLine => "thread rollout has an unterminated line"
      | LineTooLarge => "thread rollout line exceeds limit"
      | InvalidJson => "thread rollout JSON is invalid"
      | InvalidKnownEvent => "thread rollout known event is invalid"
      end%string.

Record RolloutState := {
  ro_last_task_running : option bool;
  ro_model_context : ModelAttributionState;
  ro_last_total_tokens : option Z;
  ro_last_context_usage_tokens : option Z;
  ro_last_context_window_tokens : option Z;
  ro_last_user_message_at : option Z
}.
Definition RolloutState_default : RolloutState := {|
  ro_last_task_running := None; ro_model_context := ModelAttributionState_new;
  ro_last_total_tokens := None; ro_last_context_usage_tokens := None;
  ro_last_context_window_tokens := None; ro_last_user_message_at := None |}.

(** What [read_streaming_record] returns, or that it failed. *)
Inductive RecordRead :=
  | End
  | Present (summary : SessionRecordSummary) (consumed : Z)
  | Invalid (consumed : Z) (terminated : bool)
  | Unterminated (consumed : Z)
  | ReadFailed.

Record rejection := {
  rj_ordinal : Z;
  rj_start : Z;
  rj_end : option Z;
  rj_category : text;
  rj_record : option SessionRecordSummary
}.
Definition u64_saturating (a b : Z) : Z := u64_saturating_add a b.

Definition seeded_with_context (last_model : option text) (previous_total : option Z)
    (last_task_running : option bool) (context_usage_tokens context_window_tokens : option Z) :
    RolloutState :=
  let '(usage, window) :=
    match context_usage_tokens, context_window_tokens with
    | Some usage, Some window => (Some usage, Some window)
    | _, _ => (None, None)
    end in
  {| ro_last_task_running := last_task_running;
     ro_model_context := {|
       ma_model := last_model;
       ma_kind := if opt_is_some last_model then Turn else ContextNone;
       ma_interval := IntervalNone |};
     ro_last_total_tokens := previous_total;
     ro_last_context_usage_tokens := usage; ro_last_context_window_tokens := window;
     ro_last_user_message_at := None |}.
Definition seeded (last_model : option text) (previous_total : Z)
    (last_task_running : option bool) : RolloutState :=
  seeded_with_context last_model (Some previous_total) last_task_running None None.

(** The later value, if there is one. *)
Definition latest {A} (later earlier : option A) : option A :=
  match later with Some a => Some a | None => earlier end.

Section rollout.
Context (parse_rfc3339 : text → option Z).

(** One record: the new state, or the category of the rejection. *)
Definition apply_record (candidate : RolloutState) (summary : SessionRecordSummary) :
    result text RolloutState :=
  if negb (live_shape_valid parse_rfc3339 summary) then Err (lit "record-shape")
  else
    let '(model_context, malformed) :=
      observe_context parse_rfc3339 (ro_model_context candidate) summary in
    if malformed then Err (lit "model-context")
    else
      let context := context_pair parse_rfc3339 summary in
      Ok {|
        ro_last_task_running := latest (task_running summary) (ro_last_task_running candidate);
        ro_model_context := model_context;
        ro_last_total_tokens :=
          latest (option_map ts_total (token_snapshot summary)) (ro_last_total_tokens candidate);
        ro_last_context_usage_tokens :=
          latest (option_map fst context) (ro_last_context_usage_tokens candidate);
        ro_last_context_window_tokens :=
          latest (option_map snd context) (ro_last_context_window_tokens candidate);
        ro_last_user_message_at :=
          latest (user_message_timestamp parse_rfc3339 summary) (ro_last_user_message_at candidate)
      |}.

(** The loop over the records; the end of the list is the end of the input. *)
Fixpoint apply_loop (candidate : RolloutState) (ordinal offset : Z) (reads : list RecordRead) :
    result (RolloutError * rejection) RolloutState :=
  let reject_at ordinal end_ category record := {|
    rj_ordinal := ordinal; rj_start := offset; rj_end := end_; rj_category := category;
    rj_record := record |} in
  match reads with
  | [] | End :: _ => Ok candidate
  | ReadFailed :: _ =>
      Err (InvalidJson, reject_at (ordinal + 1) None (lit "source-io") None)
  | Invalid consumed _ :: _ =>
      Err (InvalidJson, reject_at (ordinal + 1) (Some (u64_saturating offset consumed))
             (lit "json-framing") None)
  | Unterminated consumed :: _ =>
      Err (UnterminatedLine, reject_at (ordinal + 1) (Some (u64_saturating offset consumed))
             (lit "unterminated-record") None)
  | Present summary consumed :: rest =>
      match apply_record candidate summary with
      | Ok candidate =>
          apply_loop candidate (ordinal + 1) (u64_saturating offset consumed) rest
      | Err category =>
          Err (InvalidKnownEvent,
               reject_at (ordinal + 1) (Some (u64_saturating offset consumed)) category
                 (Some summary))
      end
  end.

(** The accumulator keeps its state when a record is refused. *)
Definition apply_complete_records_diagnosed (self : RolloutState) (reads : list RecordRead) :
    RolloutState * result RolloutError () * option rejection :=
  match apply_loop self 0 0 reads with
  | Ok state => (state, Ok tt, None)
  | Err (error, rejection) => (self, Err error, Some rejection)
  end.

Definition MAX_SESSION_FILE_BYTES : Z := 256 * 1024 * 1024.
Definition apply_reader (self : RolloutState) (reads : list RecordRead) (snapshot_bytes : Z) :
    RolloutState * result RolloutError () :=
  if MAX_SESSION_FILE_BYTES <? snapshot_bytes then (self, Err FileTooLarge)
  else fst (apply_complete_records_diagnosed self reads).

Definition finish_rollout (state : RolloutState) : result RolloutError ValidatedRollout :=
  let model :=
    default (lit "不明")
      (opt_filter (λ value, negb (bool_decide (value = []))) (ma_model (ro_model_context state))) in
  model_label ← map_err (λ _, InvalidKnownEvent) (bounded_model_label model);
  Ok {| vr_last_task_running := ro_last_task_running state; vr_model := model;
        vr_model_label := model_label; vr_total_tokens := ro_last_total_tokens state;
        vr_context_usage_tokens := ro_last_context_usage_tokens state;
        vr_context_window_tokens := ro_last_context_window_tokens state;
        vr_last_user_message_at := ro_last_user_message_at state |}.

Definition parse_rollout_reader (reads : list RecordRead) (snapshot_bytes : Z) :
    result RolloutError ValidatedRollout :=
  match apply_reader RolloutState_default reads snapshot_bytes with
  | (_, Err error) => Err error
  | (state, Ok _) => finish_rollout state
  end.
End rollout.

(** ** What an accepted sequence of records leaves *)
Section latest_facts.
Context (parse_rfc3339 : text → option Z).
Abbreviation apply := (apply_complete_records_diagnosed parse_rfc3339).

(** Well-framed records and their lengths. *)
Definition framed (frames : list (SessionRecordSummary * Z)) : list RecordRead :=
  map (λ frame, Present frame.1 frame.2) frames.
(** A record the live reader admits: its shape, and its context if it is one. *)
Definition admissible (r : SessionRecordSummary) : Prop :=
  live_shape_valid parse_rfc3339 r = true
  ∧ snd (observe_context parse_rfc3339 ModelAttributionState_new r) = false.
Definition latest_of {A} (f : SessionRecordSummary → option A) (rs : list SessionRecordSummary)
    (earlier : option A) : option A :=
  latest (last (filter_map f rs)) earlier.
Definition state_after (s : RolloutState) (rs : list SessionRecordSummary) : RolloutState := {|
  ro_last_task_running := latest_of task_running rs (ro_last_task_running s);
  ro_model_context := observe_contexts parse_rfc3339 (ro_model_context s) rs;
  ro_last_total_tokens :=
    latest_of (λ r, option_map ts_total (token_snapshot r)) rs (ro_last_total_tokens s);
  ro_last_context_usage_tokens :=
    latest (option_map fst (last (filter_map (context_pair parse_rfc3339) rs)))
      (ro_last_context_usage_tokens s);
  ro_last_context_window_tokens :=
    latest (option_map snd (last (filter_map (context_pair parse_rfc3339) rs)))
      (ro_last_context_window_tokens s);
  ro_last_user_message_at :=
    latest_of (user_message_timestamp parse_rfc3339) rs (ro_last_user_message_at s) |}.

Lemma observe_context_malformed s s' r :
  snd (observe_context parse_rfc3339 s r) = snd (observe_context parse_rfc3339 s' r).
Proof.
  unfold observe_context. destruct (negb _); [done|].
  destruct (qualified_context_model _ _ ?> _); [|done].
  by destruct (opt_is _ _ && negb (bool_decide (ma_kind s = _))),
    (opt_is _ _ && negb (bool_decide (ma_kind s' = _))).
Qed.
Lemma last_filter_map_cons {A} (f : SessionRecordSummary → option A) r rs :
  last (filter_map f (r :: rs)) = latest (last (filter_map f rs)) (f r).
Proof.
  simpl. destruct (f r) as [a|]; [|by destruct (last _)].
  destruct (filter_map f rs) as [|b l] using rev_ind; [done|].
  by rewrite app_comm_cons, !last_snoc.
Qed.
Lemma latest_assoc {A} (a b c : option A) : latest a (latest b c) = latest (latest a b) c.
Proof. by destruct a. Qed.
Lemma latest_map {A B} (f : A → B) a b :
  latest (option_map f a) (option_map f b) = option_map f (latest a b).
Proof. by destruct a. Qed.
Lemma apply_record_spec s r :
  match apply_record parse_rfc3339 s r with
  | Ok s' => admissible r ∧ s' = state_after s [r]
  | Err _ => ¬ admissible r
  end.
Proof.
  unfold apply_record, admissible.
  rewrite (observe_context_malformed _ (ro_model_context s)).
  destruct (live_shape_valid parse_rfc3339 r); simpl; [|by intros [? _]].
  destruct (observe_context parse_rfc3339 (ro_model_context s) r) as [m []] eqn:E; simpl;
    [by intros [_ ?]|].
  split; [done|]. unfold state_after, latest_of. rewrite !last_filter_map_cons. simpl.
  by rewrite E.
Qed.
Lemma state_after_cons s r rs : state_after (state_after s [r]) rs = state_after s (r :: rs).
Proof.
  assert (∀ A (f : SessionRecordSummary → option A), last (filter_map f [r]) = f r) as Hone
    by (intros A f; rewrite last_filter_map_cons; done).
  unfold state_after, latest_of. cbn [ro_last_task_running ro_model_context ro_last_total_tokens
    ro_last_context_usage_tokens ro_last_context_window_tokens ro_last_user_message_at].
  rewrite !Hone, !last_filter_map_cons. f_equal; rewrite latest_assoc, ?latest_map; done.
Qed.
Lemma apply_loop_framed s ordinal offset frames rest :
  match apply_loop parse_rfc3339 s ordinal offset (framed frames ++ rest) with
  | Ok s' => Forall admissible frames.*1
      ∧ ∃ n m, apply_loop parse_rfc3339 (state_after s frames.*1) n m rest = Ok s'
  | Err (e, _) => Forall admissible frames.*1
      ∧ (∃ n m j, apply_loop parse_rfc3339 (state_after s frames.*1) n m rest = Err (e, j))
      ∨ e = InvalidKnownEvent ∧ ¬ Forall admissible frames.*1
  end.
Proof.
  revert s ordinal offset. induction frames as [|[r k] frames IH]; intros s ordinal offset.
  - cbn [framed map app fmap list_fmap].
    replace (state_after s []) with s by by destruct s.
    destruct (apply_loop parse_rfc3339 s ordinal offset rest) as [s'|[e j]] eqn:E.
    + split; [constructor|]. by exists ordinal, offset.
    + left. split; [constructor|]. by exists ordinal, offset, j.
  - change (((r, k) :: frames).*1) with (r :: frames.*1). cbn [framed map app apply_loop fst snd]. pose proof (apply_record_spec s r) as Hr.
    destruct (apply_record parse_rfc3339 s r) as [s1|c].
    + destruct Hr as [Ha ->]. specialize (IH (state_after s [r]) (ordinal + 1) (u64_saturating offset k)).
      unfold framed in IH. 
      destruct (apply_loop _ _ _ _ _) as [s'|[e j]]; rewrite state_after_cons in IH;
        rewrite Forall_cons; tauto.
    + right. split; [done|]. rewrite Forall_cons. tauto.
Qed.
(** Position is diagnostics only. *)
Definition outcome (r : result (RolloutError * rejection) RolloutState) :
    result RolloutError RolloutState := map_err fst r.
Lemma apply_loop_position s n m n' m' reads :
  outcome (apply_loop parse_rfc3339 s n m reads) = outcome (apply_loop parse_rfc3339 s n' m' reads).
Proof.
  revert s n m n' m'. induction reads as [|[|r k|k t|k|] reads IH]; intros; try done. simpl.
  destruct (apply_record parse_rfc3339 s r); [apply IH|done].
Qed.
Lemma apply_split s frames rest :
  Forall admissible frames.*1 →
  outcome (apply_loop parse_rfc3339 s 0 0 (framed frames ++ rest))
  = outcome (apply_loop parse_rfc3339 (state_after s frames.*1) 0 0 rest).
Proof.
  intros Ha. pose proof (apply_loop_framed s 0 0 frames rest) as Hl.
  destruct (apply_loop parse_rfc3339 s 0 0 _) as [s'|[e j]].
  - destruct Hl as (_ & n & m & E). rewrite (apply_loop_position _ 0 0 n m), E. done.
  - destruct Hl as [(_ & n & m & j' & E)|[_ Hn]]; [|done].
    rewrite (apply_loop_position _ 0 0 n m), E. done.
Qed.
Lemma apply_outcome s reads :
  (apply s reads).1 =
    match outcome (apply_loop parse_rfc3339 s 0 0 reads) with
    | Ok s' => (s', Ok tt)
    | Err e => (s, Err e)
    end.
Proof.
  unfold apply_complete_records_diagnosed. by destruct (apply_loop parse_rfc3339 s 0 0 reads) as [|[]].
Qed.
End latest_facts.

(** Framed records are applied all or none: if every record has an admissible
    shape and context, the state holds for each fact the value of the latest record
    that states it, usage and window taken from one record; otherwise the chunk is
    refused and the state is as before. *)
Theorem records_apply_atomically parse_rfc3339 s frames :
  let rs := frames.*1 in
  Forall (admissible parse_rfc3339) rs
    ∧ (apply_complete_records_diagnosed parse_rfc3339 s (framed frames)).1
      = (state_after parse_rfc3339 s rs, Ok tt)
  ∨ ¬ Forall (admissible parse_rfc3339) rs
    ∧ (apply_complete_records_diagnosed parse_rfc3339 s (framed frames)).1
      = (s, Err InvalidKnownEvent).
Proof.
  intros rs. pose proof (apply_loop_framed parse_rfc3339 s 0 0 frames []) as Hl.
  rewrite app_nil_r in Hl. unfold apply_complete_records_diagnosed.
  destruct (apply_loop parse_rfc3339 s 0 0 (framed frames)) as [s'|[e j]].
  - destruct Hl as (Ha & n & m & [= <-]). by left.
  - destruct Hl as [(_ & n & m & j' & ?)|[-> Hn]]; [done|]. by right.
Qed.

(** C21. Appending is incremental: after a prefix of records is applied, applying what
    was appended gives the same result, and on success the same state, as applying
    the whole file at once; on failure both keep what they had. *)
Theorem incremental_is_full parse_rfc3339 s s1 frames rest :
  (apply_complete_records_diagnosed parse_rfc3339 s (framed frames)).1 = (s1, Ok tt) →
  let full := (apply_complete_records_diagnosed parse_rfc3339 s (framed frames ++ rest)).1 in
  let appended := (apply_complete_records_diagnosed parse_rfc3339 s1 rest).1 in
  full.2 = appended.2
  ∧ (appended.2 = Ok tt → full.1 = appended.1)
  ∧ (appended.2 ≠ Ok tt → full.1 = s ∧ appended.1 = s1).
Proof.
  intros Hs1.
  assert (Forall (admissible parse_rfc3339) frames.*1 ∧ s1 = state_after parse_rfc3339 s frames.*1)
    as [Ha ->].
  { pose proof (apply_loop_framed parse_rfc3339 s 0 0 frames []) as Hl.
    rewrite app_nil_r in Hl. unfold apply_complete_records_diagnosed in Hs1.
    destruct (apply_loop parse_rfc3339 s 0 0 (framed frames)) as [s'|[e j]]; [|done].
    injection Hs1 as <-. by destruct Hl as (? & n & m & [= <-]). }
  rewrite !apply_outcome, apply_split by done.
  by destruct (outcome _); simpl; split_and!.
Qed.

(** ** A concrete rollout *)
Definition no_usage : TokenUsageSummary := {|
  tu_total := None; tu_cache_write_input := None; tu_input := None; tu_cached_input := None;
  tu_output := None; tu_reasoning_output := None; tu_reasoning_malformed := false;
  tu_total_seen := false; tu_malformed := false |}.
Definition no_response : ResponsePayloadSummary := {|
  rp_thread_id := None; rp_session_id := None; rp_session_id_seen := false; rp_turn_id := None;
  rp_root_turn_id := None; rp_response_id := None; rp_malformed_identifiers := 0;
  rp_usage := no_usage; rp_turn_usage := no_usage; rp_thread_usage := no_usage |}.
Definition no_noop : NoOpShape := {|
  ns_seen := 0; ns_malformed := 0; ns_thread_id := None;
  ns_goal := {| gs_seen := 0; gs_malformed := 0; gs_duplicates := false; gs_thread_id := None |};
  ns_replacement_history := None; ns_replacement_metadata := None; ns_role_seen := false;
  ns_role_is_string := false; ns_role_is_user := false |}.
(** A task or context record without a payload. *)
Definition bare_record (outer : text) (model : option text) : SessionRecordSummary := {|
  s_unknown_envelope_field := false; s_ordinal_seen := false; s_ordinal_malformed := false;
  s_response_metadata_seen := false; s_response_metadata_object := false;
  s_response_metadata_null := false; s_outer_type := Some outer; s_timestamp := Some [100];
  s_timestamp_seen := true; s_timestamp_malformed := false; s_root_model := model;
  s_root_model_seen := opt_is_some model; s_root_model_malformed := false;
  s_payload_seen := false; s_payload_object := false;
  s_payload := {|
    p_noop := no_noop; p_metadata_id := None; p_metadata_id_malformed := false;
    p_forked_from_id := None; p_forked_from_id_malformed := false;
    p_creator_account_sha256 := None; p_response := no_response; p_snapshot_non_null := false;
    p_snapshot := no_response; p_event_type := None; p_event_type_seen := false;
    p_event_type_malformed := false; p_model := None; p_model_seen := false;
    p_model_malformed := false; p_thread_settings_seen := false;
    p_thread_settings_object := false; p_thread_settings_model := None;
    p_thread_settings_model_seen := false; p_thread_settings_model_malformed := false;
    p_history_base_seen := false; p_history_base_non_null := false; p_info_seen := false;
    p_info_null := false; p_info_object := false; p_token_usage_seen := false;
    p_token_usage_object := false; p_token_usage := no_usage; p_last_token_usage_seen := false;
    p_last_token_usage_null := false; p_last_token_usage_object := false;
    p_last_token_usage := no_usage; p_context_window := None; p_context_window_seen := false;
    p_context_window_malformed := false |};
  s_duplicate_fields := false; s_root_duplicates := 0; s_payload_duplicates := 0;
  s_info_duplicates := false; s_counter_duplicates := false;
  s_thread_settings_duplicates := false; s_response_duplicates := false;
  s_snapshot_duplicates := false |}.
Definition example_frames : list (SessionRecordSummary * Z) := [
  (bare_record (lit "turn_context") (Some (lit "gpt-6-sol")), 40);
  (bare_record (lit "task_started") None, 30)].
Definition first_scalar (t : text) : option Z := head t.
Example example_rollout :
  option_map vr_last_task_running
    (result_ok (parse_rollout_reader first_scalar (framed example_frames) 70)) = Some (Some true)
  ∧ option_map vr_model
      (result_ok (parse_rollout_reader first_scalar (framed example_frames) 70))
    = Some (lit "gpt-6-sol").
Proof. vm_compute. done. Qed.

Definition example_state : RolloutState :=
  state_after first_scalar RolloutState_default example_frames.*1.
Lemma incremental_is_full_witness :
  let rest := [Present (bare_record (lit "task_complete") None) 30; Unterminated 5] in
  let full := (apply_complete_records_diagnosed first_scalar RolloutState_default
                 (framed example_frames ++ rest)).1 in
  let appended := (apply_complete_records_diagnosed first_scalar example_state rest).1 in
  full.2 = appended.2
  ∧ (appended.2 = Ok tt → full.1 = appended.1)
  ∧ (appended.2 ≠ Ok tt → full.1 = RolloutState_default ∧ appended.1 = example_state).
Proof. apply incremental_is_full. vm_compute. reflexivity. Defined.
