(* ===== verification/Recognition.v ===== *)
(** * Recognition: what a record tells a pending response

    Models [observe_response_classification] of
    [crates/codex-info-recorder/src/lib.rs]: a record summary is turned into the
    input of the classification and applied to the admission state. *)

From S2P Require Import Prelude Text ModelNames SourceAdmission SessionRecord Rollout.

Definition response_classification_name (summary : SessionRecordSummary) : option text :=
  let payload := s_payload summary in
  if negb (Z.land (s_root_duplicates summary) (Z.lor (bit KType) (bit KPayload)) =? 0)
     || has (s_payload_duplicates summary) KType
  then None
  else if opt_is (s_outer_type summary) "event_msg" then
    if negb (s_payload_object summary) || negb (p_event_type_seen payload)
       || p_event_type_malformed payload
    then None else event_type summary
  else if opt_is_some (event_type summary) && s_payload_object summary
     && p_event_type_seen payload
     && (p_event_type_malformed payload
         || negb (bool_decide (p_event_type payload = s_outer_type summary)))
  then None
  else event_type summary.

Section recognition.
Context (parse_rfc3339 : text → option Z).

Definition strong_context (summary : SessionRecordSummary) (pointer : option RecordPointer) :
    option ResponseContext :=
  if opt_is_any (response_classification_name summary) ["turn_context"; "thread_context"]
  then
    match opt_zip (qualified_context_model parse_rfc3339 summary ?> normalize_model_name) pointer with
    | Some (model, pointer) =>
        Some {| rc_model := model;
                rc_context := {|
                  sc_turn_id := rp_turn_id (p_response (s_payload summary));
                  sc_root_turn_id := rp_root_turn_id (p_response (s_payload summary));
                  sc_pointer := pointer |} |}
    | None => None
    end
  else None.

Definition next_root_ok (admission : SourceAdmission) (summary : SessionRecordSummary)
    (pointer : option RecordPointer) : bool :=
  negb (s_duplicate_fields summary) && s_payload_object summary && opt_is_some pointer
  && sa_metadata_qualified admission
  && is_some_and (λ root,
       is_some_and (λ meta,
         text_eqb (sm_thread_id meta) (ri_thread_id (rr_ids root))
         && bool_decide (sm_session_id meta = Some (ri_session_id (rr_ids root))))
         (sa_metadata admission))
       (response_record (p_response (s_payload summary))).

Definition classification_input (admission : SourceAdmission) (summary : SessionRecordSummary)
    (pointer : option RecordPointer) : ResponseClassificationInput :=
  let name := response_classification_name summary in
  let outer := s_outer_type summary in
  if opt_is outer "session_meta" then
    if negb (sa_metadata_qualified admission) || negb (metadata_shape_valid summary)
    then InputUnknown
    else if history_base_continuation summary then HistoryBoundary
    else NoOp
  else if opt_is outer "token_usage_record" then
    if next_root_ok admission summary pointer then NextRoot else InputUnknown
  else if opt_is outer "compacted" then
    if negb (bool_decide (noop_valid parse_rfc3339 summary = Some true)) then InputUnknown
    else if p_snapshot_non_null (s_payload summary) then
      match response_record (p_snapshot (s_payload summary)) with
      | Some record => Snapshot record
      | None => InputUnknown
      end
    else NoOp
  else if opt_is name "token_count" then Counter
  else if opt_is_any name ["task_started"; "task_complete"; "task_completed"; "turn_aborted"]
  then Task
  else if opt_is_any name ["turn_context"; "thread_context"] then
    match strong_context summary pointer with
    | Some context => Strong context (opt_is name "turn_context")
    | None => InputUnknown
    end
  else if opt_is name "thread_settings_applied" then
    if context_envelope_valid parse_rfc3339 summary
       && opt_is_some (event_model summary ?> normalize_model_name)
    then NoOp else InputUnknown
  else if bool_decide (noop_valid parse_rfc3339 summary = Some true) then NoOp
  else InputUnknown.

Definition observe_response_classification (admission : SourceAdmission)
    (summary : SessionRecordSummary) (proof : ClassificationPointer)
    (pointer : option RecordPointer) : SourceAdmission :=
  let last :=
    if negb (s_duplicate_fields summary)
       && opt_is_some (last_token_snapshot summary)
    then response_usage (p_last_token_usage (s_payload summary)) else None in
  observe_record admission (classification_input admission summary pointer) proof pointer last.

(** A context input carries the pointer of the record itself. *)
Lemma classification_input_context admission summary pointer context is_turn :
  classification_input admission summary pointer = Strong context is_turn →
  pointer = Some (sc_pointer (rc_context context)).
Proof.
  unfold classification_input, strong_context. intros E. repeat (case_match; try done).
  injection E as <- _. destruct (qualified_context_model _ _ ?> _), pointer; naive_solver.
Qed.
End recognition.

(** A stored state stays valid: whatever record is read next, if its evidence
    lies between the end of a valid state and a new end, the state after the record
    is valid at the new end. *)
Theorem next_record_keeps_state_valid parse_rfc3339 key (a : SourceAdmission) end_ end' summary
    proof pointer :
  SourceAdmission_valid key a end_ = true → end_ ≤ end' →
  ClassificationPointer_valid_after proof end_ end' = true →
  (∀ p, pointer = Some p → RecordPointer_valid p end' = true ∧ end_ ≤ rp_start p) →
  SourceAdmission_valid key
    (observe_response_classification parse_rfc3339 a summary proof pointer) end' = true.
Proof.
  intros Hv Hend Hproof Hpointer. apply (observed_state_stays_valid key a end_ end'); try done.
  split; [done|done|]. intros c t Hc%classification_input_context. by apply Hpointer.
Qed.

(** The end of the task of the pending example response. *)
Definition example_record : SessionRecordSummary := bare_record (lit "task_complete") None.
Example example_record_normal :
  map (λ r, qualified_model r)
    (sa_responses (observe_response_classification first_scalar example_admission example_record
       (example_proof 60) (Some (example_pointer 60)))) = [None]
  ∧ map pr_classification
      (sa_responses (observe_response_classification first_scalar example_admission example_record
         (example_proof 60) (Some (example_pointer 60)))) = [Normal (ProofRecord (example_proof 60))].
Proof. vm_compute. done. Qed.

Lemma next_record_keeps_state_valid_witness :
  SourceAdmission_valid ri_response_id example_admission 60 = true
  ∧ SourceAdmission_valid ri_response_id
      (observe_response_classification first_scalar example_admission example_record
         (example_proof 60) (Some (example_pointer 60))) 70 = true.
Proof.
  assert (SourceAdmission_valid ri_response_id example_admission 60 = true) as Hv
    by (vm_compute; reflexivity).
  split; [exact Hv|].
  apply (next_record_keeps_state_valid first_scalar ri_response_id example_admission 60 70).
  - exact Hv.
  - lia.
  - vm_compute. reflexivity.
  - intros p [= <-]. split; [vm_compute; reflexivity|]. vm_compute. discriminate.
Defined.
