(* ===== verification/Calendar.v ===== *)
(** * The civil calendar of the quota windows

    Models the date arithmetic of [src/protocol_contract.rs]: the proleptic
    Gregorian date of a day number, its inverse, and the length of the calendar
    month that ends at a reset. [i128] arithmetic cannot overflow on the
    [i64] inputs; [/] and [%] truncate towards zero. *)

From S2P Require Import Prelude.

Definition floor_div (value divisor : Z) : Z :=
  let quotient := Z.quot value divisor in
  if Z.rem value divisor <? 0 then quotient - 1 else quotient.

Definition civil_date_from_unix_days (days : Z) : Z * Z * Z :=
  let z := days + 719468 in
  let era := floor_div z 146097 in
  let day_of_era := z - era * 146097 in
  let year_of_era :=
    Z.quot (day_of_era - Z.quot day_of_era 1460 + Z.quot day_of_era 36524
            - Z.quot day_of_era 146096) 365 in
  let year := year_of_era + era * 400 in
  let day_of_year :=
    day_of_era - (365 * year_of_era + Z.quot year_of_era 4 - Z.quot year_of_era 100) in
  let month_prime := Z.quot (5 * day_of_year + 2) 153 in
  let day := day_of_year - Z.quot (153 * month_prime + 2) 5 + 1 in
  let month := month_prime + (if month_prime <? 10 then 3 else -9) in
  (year + (if month <=? 2 then 1 else 0), month, day).

Definition unix_days_from_civil_date (year month day : Z) : Z :=
  let adjusted_year := year - (if month <=? 2 then 1 else 0) in
  let era := floor_div adjusted_year 400 in
  let year_of_era := adjusted_year - era * 400 in
  let month_prime := month + (if 2 <? month then -3 else 9) in
  let day_of_year := Z.quot (153 * month_prime + 2) 5 + day - 1 in
  let day_of_era := year_of_era * 365 + Z.quot year_of_era 4 - Z.quot year_of_era 100
                    + day_of_year in
  era * 146097 + day_of_era - 719468.

Definition is_leap_year (year : Z) : bool :=
  (Z.rem year 4 =? 0) && (negb (Z.rem year 100 =? 0) || (Z.rem year 400 =? 0)).

(** [unreachable!] outside 1..=12. *)
Definition days_in_month (year month : Z) : option Z :=
  if existsb (Z.eqb month) [1; 3; 5; 7; 8; 10; 12] then Some 31
  else if existsb (Z.eqb month) [4; 6; 9; 11] then Some 30
  else if month =? 2 then Some (if is_leap_year year then 29 else 28)
  else None.

(** [None] is a panic: [unreachable!], the [debug_assert!] or the [expect]. *)
Definition monthly_window_seconds (reset_at : Z) : option Z :=
  let timestamp := reset_at in
  let unix_days := timestamp / 86400 in
  let seconds_of_day := timestamp mod 86400 in
  let '(year, month, day) := civil_date_from_unix_days unix_days in
  let '(previous_year, previous_month) :=
    if month =? 1 then (year - 1, 12) else (year, month - 1) in
  days ← days_in_month previous_year previous_month;
  let previous_day := Z.min day days in
  let previous_timestamp :=
    unix_days_from_civil_date previous_year previous_month previous_day * 86400
    + seconds_of_day in
  let difference := timestamp - previous_timestamp in
  if (0 <? difference) && (difference <=? 31 * 86400) then
    if in_range i64_min i64_max difference then Some difference else None
  else None.

(** ** The years of the March calendar

    Years start in March, so the leap day is the last of its year: [year_start]
    counts the days before the year. *)
Definition year_start (year : Z) : Z := 365 * year + year / 4 - year / 100 + year / 400.
(** The formula of the source for the year within an era. *)
Definition era_year (day_of_era : Z) : Z :=
  (day_of_era - day_of_era / 1460 + day_of_era / 36524 - day_of_era / 146096) / 365.

Lemma floor_div_div v d : 0 < d → floor_div v d = v / d.
Proof.
  intros Hd. unfold floor_div. destruct (Z.ltb_spec (Z.rem v d) 0).
  - apply Z.div_unique with (Z.rem v d + d); [|rewrite (Z.quot_rem' v d) at 1; lia].
    pose proof (Z.rem_bound_abs v d ltac:(lia)). lia.
  - apply Z.div_unique with (Z.rem v d); [|apply Z.quot_rem'].
    pose proof (Z.rem_bound_abs v d ltac:(lia)). lia.
Qed.

Lemma era_year_mono a b : 0 ≤ a ≤ b → era_year a ≤ era_year b.
Proof.
  intros [Ha Hab]. revert b Hab. apply Zlt_lower_bound_ind. intros b IH Hab.
  destruct (Z.eq_dec a b) as [->|]; [done|]. transitivity (era_year (b - 1)); [apply IH; lia|].
  unfold era_year. apply Z.div_le_mono; [done|].
  assert (b / 146096 = b / 36524 / 4 ∧ (b - 1) / 146096 = (b - 1) / 36524 / 4) as [-> ->]
    by (rewrite !Z.div_div by lia; done).
  Z.to_euclidean_division_equations; lia.
Qed.

(** The formula is right at both ends of every year of the era. *)
Lemma era_year_ends :
  forallb (λ k, let y := Z.of_nat k in
    (era_year (year_start y) =? y) && (era_year (year_start (y + 1) - 1) =? y)) (seq 0 400) = true.
Proof. vm_compute. reflexivity. Qed.
Lemma era_year_correct y day_of_era :
  0 ≤ y < 400 → year_start y ≤ day_of_era < year_start (y + 1) → era_year day_of_era = y.
Proof.
  intros Hy Hd. pose proof era_year_ends as H. rewrite forallb_forall in H.
  specialize (H (Z.to_nat y)). rewrite Z2Nat.id in H by lia.
  rewrite andb_true_iff, !Z.eqb_eq in H. destruct H as [Hlo Hhi].
  { apply in_seq. lia. }
  assert (0 ≤ year_start y) by (unfold year_start; Z.to_euclidean_division_equations; lia).
  pose proof (era_year_mono (year_start y) day_of_era).
  pose proof (era_year_mono day_of_era (year_start (y + 1) - 1)). lia.
Qed.
Lemma year_start_era e y : year_start (y + 400 * e) = year_start y + 146097 * e.
Proof. unfold year_start. Z.to_euclidean_division_equations; lia. Qed.
Lemma year_start_step y :
  year_start (y + 1) = year_start y + 365 + (if is_leap_year (y + 1) then 1 else 0).
Proof.
  unfold year_start, is_leap_year.
  destruct (Z.eqb_spec (Z.rem (y + 1) 4) 0), (Z.eqb_spec (Z.rem (y + 1) 100) 0),
    (Z.eqb_spec (Z.rem (y + 1) 400) 0); simpl; Z.to_euclidean_division_equations; lia.
Qed.
Lemma year_start_mono y y' : y < y' → year_start (y + 1) ≤ year_start y'.
Proof. intros. unfold year_start. Z.to_euclidean_division_equations; lia. Qed.
(** Every day lies in one year. *)
Lemma year_of_day z : ∃ y, year_start y ≤ z < year_start (y + 1).
Proof.
  assert (∀ n : nat, z < year_start (z / 146097 * 400 + Z.of_nat n) →
    ∃ y, year_start y ≤ z < year_start (y + 1)) as Hex.
  { induction n as [|n IH].
    - rewrite Z.add_0_r. intros Hz. exfalso.
      replace (z / 146097 * 400) with (0 + 400 * (z / 146097)) in Hz by lia.
      rewrite year_start_era in Hz. change (year_start 0) with 0 in Hz.
      pose proof (Z.mul_div_le z 146097). lia.
    - intros Hz. rewrite Nat2Z.inj_succ, <-Z.add_1_r, Z.add_assoc in Hz.
      destruct (Z.lt_ge_cases z (year_start (z / 146097 * 400 + Z.of_nat n))); [by apply IH|].
      by exists (z / 146097 * 400 + Z.of_nat n). }
  apply (Hex 400%nat). replace (z / 146097 * 400 + Z.of_nat 400) with (400 + 400 * (z / 146097)) by lia.
  rewrite year_start_era. change (year_start 400) with 146097.
  pose proof (Z.mul_succ_div_gt z 146097). lia.
Qed.

(** Days of the year before a month of the March calendar. *)
Definition month_start (month_prime : Z) : Z := (153 * month_prime + 2) / 5.

(** The day count of the source within the 400-year era of a year. *)
Lemma era_days Y :
  Y / 400 * 146097 + ((Y - Y / 400 * 400) * 365 + Z.quot (Y - Y / 400 * 400) 4
                      - Z.quot (Y - Y / 400 * 400) 100) = year_start Y.
Proof.
  pose proof (Z.mod_pos_bound Y 400 ltac:(lia)) as Hr. pose proof (Z.div_mod Y 400 ltac:(lia)) as E.
  replace (Y - Y / 400 * 400) with (Y mod 400) by lia.
  rewrite !Z.quot_div_nonneg by lia.
  replace (year_start Y) with (year_start (Y mod 400 + 400 * (Y / 400))) by (f_equal; lia).
  rewrite year_start_era. unfold year_start. rewrite (Z.div_small (Y mod 400) 400) by lia. lia.
Qed.

Lemma unix_days_eq y m d : 1 ≤ m ≤ 12 →
  unix_days_from_civil_date y m d
  = year_start (if m <=? 2 then y - 1 else y) + month_start (if 2 <? m then m - 3 else m + 9)
    + d - 1 - 719468.
Proof.
  intros Hm. unfold unix_days_from_civil_date, month_start. rewrite floor_div_div by done.
  destruct (Z.leb_spec m 2), (Z.ltb_spec 2 m); try lia; cbv zeta;
    rewrite ?Z.sub_0_r, (Z.quot_div_nonneg (153 * _ + 2)) by lia;
    [rewrite <-(era_days (y - 1))|rewrite <-(era_days y); change (m + -3) with (m - 3)]; ring.
Qed.

(** ** Dates *)
Definition valid_date (date : Z * Z * Z) : Prop :=
  let '(y, m, d) := date in ∃ days, days_in_month y m = Some days ∧ 1 ≤ d ≤ days.
Definition date_days (date : Z * Z * Z) : Z :=
  let '(y, m, d) := date in unix_days_from_civil_date y m d.
(** The next day, by the lengths of the months. *)
Definition next_day (date : Z * Z * Z) : Z * Z * Z :=
  let '(y, m, d) := date in
  if bool_decide (days_in_month y m = Some d) then
    if m =? 12 then (y + 1, 1, 1) else (y, m + 1, 1)
  else (y, m, d + 1).

Lemma days_in_month_range y m :
  match days_in_month y m with
  | Some k => 1 ≤ m ≤ 12 ∧ 28 ≤ k ≤ 31
  | None => ¬ 1 ≤ m ≤ 12
  end.
Proof.
  unfold days_in_month. simpl.
  repeat match goal with |- context [m =? ?k] => destruct (Z.eqb_spec m k); simpl; [try lia|] end;
    [|lia]. destruct (is_leap_year y); lia.
Qed.
Lemma month_cases (P : Z → Prop) m :
  1 ≤ m ≤ 12 → P 1 → P 2 → P 3 → P 4 → P 5 → P 6 → P 7 → P 8 → P 9 → P 10 → P 11 → P 12 → P m.
Proof.
  intros. assert (m = 1 ∨ m = 2 ∨ m = 3 ∨ m = 4 ∨ m = 5 ∨ m = 6 ∨ m = 7 ∨ m = 8 ∨ m = 9
    ∨ m = 10 ∨ m = 11 ∨ m = 12) as Hm by lia.
  by repeat destruct Hm as [->|Hm]; [..|rewrite Hm].
Qed.
(** Evaluates the comparisons and offsets of concrete months. *)
Ltac months :=
  repeat match goal with
  | |- context [Z.leb ?a 2] => let v := eval vm_compute in (Z.leb a 2) in change (Z.leb a 2) with v
  | |- context [Z.ltb 2 ?a] => let v := eval vm_compute in (Z.ltb 2 a) in change (Z.ltb 2 a) with v
  | |- context [Z.ltb ?a 10] => let v := eval vm_compute in (Z.ltb a 10) in change (Z.ltb a 10) with v
  | |- context [month_start ?k] =>
      let v := eval vm_compute in (month_start k) in change (month_start k) with v
  end; cbv iota.
(** The first day of a month follows the last of the month before. *)
Lemma month_length y m k :
  days_in_month y m = Some k →
  (if m =? 12 then unix_days_from_civil_date (y + 1) 1 1 else unix_days_from_civil_date y (m + 1) 1)
  = unix_days_from_civil_date y m 1 + k.
Proof.
  intros Hk. pose proof (days_in_month_range y m) as Hm. rewrite Hk in Hm. destruct Hm as [Hm _].
  revert Hk. pattern m. apply month_cases; [done|..]; simpl; intros [= <-];
    rewrite !unix_days_eq by lia; months; rewrite ?Z.add_simpl_r; try lia.
  pose proof (year_start_step (y - 1)) as Hs. rewrite Z.sub_add in Hs.
  destruct (is_leap_year y); lia.
Qed.
Lemma unix_days_day y m d : 
  unix_days_from_civil_date y m d = unix_days_from_civil_date y m 1 + d - 1.
Proof. unfold unix_days_from_civil_date. lia. Qed.

(** The date of a day in a known year of the March calendar. *)
Lemma civil_date_eq n Y (doy := n + 719468 - year_start Y) (mp := (5 * doy + 2) / 153) :
  year_start Y ≤ n + 719468 < year_start (Y + 1) →
  civil_date_from_unix_days n
  = (Y + (if mp <? 10 then 0 else 1), mp + (if mp <? 10 then 3 else -9), doy - month_start mp + 1).
Proof.
  intros Hz. set (z := n + 719468) in *.
  pose proof (Z.mod_pos_bound Y 400 ltac:(lia)) as Hr.
  assert (Y = Y mod 400 + 400 * (Y / 400)) as EY by (pose proof (Z.div_mod Y 400); lia).
  set (r := Y mod 400) in *. set (e := Y / 400) in *. clearbody r e.
  assert (year_start Y = year_start r + 146097 * e) as Es by (by rewrite EY, year_start_era).
  assert (year_start (Y + 1) = year_start (r + 1) + 146097 * e) as Es'
    by (rewrite <-year_start_era; f_equal; lia).
  assert (0 ≤ year_start r ∧ year_start (r + 1) ≤ 146097) as [Hlo Hhi]
    by (unfold year_start; Z.to_euclidean_division_equations; lia).
  assert (z / 146097 = e) as Ez by (symmetry; apply Z.div_unique with (z - 146097 * e); lia).
  assert (era_year (z - e * 146097) = r) as Ey by (apply era_year_correct; lia).
  unfold civil_date_from_unix_days. rewrite floor_div_div by done. fold z. rewrite Ez. cbv zeta.
  rewrite !(Z.quot_div_nonneg (z - e * 146097)) by lia.
  rewrite (Z.quot_div_nonneg _ 365) by (Z.to_euclidean_division_equations; lia).
  fold (era_year (z - e * 146097)). rewrite Ey, !(Z.quot_div_nonneg r) by lia.
  assert (z - e * 146097 - (365 * r + r / 4 - r / 100) = doy) as Ed.
  { unfold doy. rewrite Es. unfold year_start. rewrite (Z.div_small r 400) by lia. lia. }
  rewrite !Ed. assert (0 ≤ doy) by (unfold doy; lia).
  rewrite (Z.quot_div_nonneg (5 * doy + 2)) by lia. fold mp.
  assert (doy ≤ 365) as Hdoy
    by (pose proof (year_start_step Y); unfold doy; destruct (is_leap_year (Y + 1)); lia).
  assert (0 ≤ mp ≤ 11) by (unfold mp; Z.to_euclidean_division_equations; lia).
  rewrite (Z.quot_div_nonneg (153 * mp + 2)) by lia. fold (month_start mp).
  destruct (Z.ltb_spec mp 10), (Z.leb_spec (mp + 3) 2), (Z.leb_spec (mp + -9) 2);
    try lia; repeat f_equal; try lia.
Qed.

Lemma civil_date_spec n :
  valid_date (civil_date_from_unix_days n) ∧ date_days (civil_date_from_unix_days n) = n.
Proof.
  destruct (year_of_day (n + 719468)) as [Y HY]. rewrite (civil_date_eq n Y HY).
  set (doy := n + 719468 - year_start Y). set (mp := (5 * doy + 2) / 153).
  assert (0 ≤ doy ≤ 364 + (if is_leap_year (Y + 1) then 1 else 0)) as Hdoy
    by (pose proof (year_start_step Y); unfold doy; destruct (is_leap_year (Y + 1)); lia).
  assert (0 ≤ mp ≤ 11 ∧ month_start mp ≤ doy < month_start (mp + 1)) as (Hmp & Hlo & Hhi).
  { assert (doy ≤ 365) by (destruct (is_leap_year (Y + 1)); lia). clearbody doy.
    unfold mp, month_start. Z.to_euclidean_division_equations; lia. }
  clearbody mp. split.
  - assert (mp = 0 ∨ mp = 1 ∨ mp = 2 ∨ mp = 3 ∨ mp = 4 ∨ mp = 5 ∨ mp = 6 ∨ mp = 7 ∨ mp = 8
      ∨ mp = 9 ∨ mp = 10 ∨ mp = 11) as Hcases by lia. clear Hmp.
    repeat destruct Hcases as [->|Hcases]; [..|subst mp];
      revert Hlo Hhi; months; (intros Hlo Hhi; eexists; split; [reflexivity|]); try lia.
    destruct (is_leap_year (Y + 1)); lia.
  - unfold date_days. rewrite unix_days_eq by (destruct (Z.ltb_spec mp 10); lia).
    destruct (Z.ltb_spec mp 10), (Z.leb_spec (mp + 3) 2), (Z.leb_spec (mp + -9) 2); try lia.
    + destruct (Z.ltb_spec 2 (mp + 3)); [|lia]. rewrite ?Z.add_simpl_r, ?Z.add_0_r. lia.
    + destruct (Z.ltb_spec 2 (mp + -9)); [lia|]. rewrite Z.add_simpl_r.
      replace (mp + -9 + 9) with mp by lia. lia.
Qed.

(** A day and the next one have consecutive numbers, so dates and numbers
    determine each other. *)
Lemma next_day_spec date :
  valid_date date → valid_date (next_day date) ∧ date_days (next_day date) = date_days date + 1.
Proof.
  destruct date as [[y m] d]. intros (k & Hk & Hd). pose proof (days_in_month_range y m) as Hm.
  rewrite Hk in Hm. destruct Hm as [Hm Hk28]. unfold next_day. case_bool_decide as Hlast.
  - rewrite Hk in Hlast. injection Hlast as ->. pose proof (month_length y m d Hk) as Hlen.
    unfold date_days. rewrite (unix_days_day y m d). destruct (Z.eqb_spec m 12) as [->|Hne].
    + split; [|lia]. exists 31. split; [done|lia].
    + split; [|lia]. pose proof (days_in_month_range y (m + 1)) as Hm'. unfold valid_date.
      destruct (days_in_month y (m + 1)) as [k'|]; [|lia]. exists k'. split; [done|lia].
  - split.
    + exists k. split; [done|]. assert (d ≠ k) by congruence. lia.
    + unfold date_days. rewrite (unix_days_day y m (d + 1)), (unix_days_day y m d). lia.
Qed.
Lemma civil_date_days y m d :
  valid_date (y, m, d) → civil_date_from_unix_days (date_days (y, m, d)) = (y, m, d).
Proof.
  intros (k & Hk & Hd). pose proof (days_in_month_range y m) as Hm. rewrite Hk in Hm.
  destruct Hm as [Hm _]. unfold date_days. rewrite unix_days_eq by done.
  set (Y := if m <=? 2 then y - 1 else y). set (mp := if 2 <? m then m - 3 else m + 9).
  assert (0 ≤ month_start mp + d - 1 < year_start (Y + 1) - year_start Y
    ∧ (5 * (month_start mp + d - 1) + 2) / 153 = mp) as [Hdoy Hmp].
  { pose proof (year_start_step Y) as Hs. subst Y mp. revert Hk Hd Hs. pattern m.
    apply month_cases; [done|..]; months; intros [= <-] Hd; rewrite ?Z.sub_add; intros Hs;
      destruct (is_leap_year _) in Hs, Hd; (split; [lia|]); clear Hs;
      Z.to_euclidean_division_equations; lia. }
  rewrite (civil_date_eq _ Y) by (clearbody Y mp; lia).
  replace (_ + 719468 - year_start Y) with (month_start mp + d - 1) by lia. rewrite Hmp.
  subst Y mp. revert Hk. pattern m. apply month_cases; [done|..]; months; intros _;
    repeat f_equal; lia.
Qed.

(** The date arithmetic is the calendar: day 0 is 1970-01-01, every day is followed
    by the next day of the Gregorian calendar, and the day number of a valid date is
    the inverse of its date. *)
Theorem civil_calendar :
  civil_date_from_unix_days 0 = (1970, 1, 1)
  ∧ (∀ n, civil_date_from_unix_days (n + 1) = next_day (civil_date_from_unix_days n))
  ∧ (∀ n, valid_date (civil_date_from_unix_days n) ∧ date_days (civil_date_from_unix_days n) = n)
  ∧ (∀ date, valid_date date → civil_date_from_unix_days (date_days date) = date).
Proof.
  assert (∀ date, valid_date date → civil_date_from_unix_days (date_days date) = date) as Hinv
    by (intros [[y m] d]; apply civil_date_days).
  split_and!; [done| |apply civil_date_spec|done].
  intros n. destruct (civil_date_spec n) as [Hv Hn].
  destruct (next_day_spec _ Hv) as [Hv' Hn']. rewrite <-(Hinv _ Hv'), Hn', Hn. done.
Qed.

(** The month before, and the same day in it, at most its last. *)
Definition previous_month (y m : Z) : Z * Z := if m =? 1 then (y - 1, 12) else (y, m - 1).
Definition month_earlier (date : Z * Z * Z) : Z * Z * Z :=
  let '(y, m, d) := date in
  let '(y', m') := previous_month y m in (y', m', Z.min d (default 31 (days_in_month y' m'))).

Lemma previous_month_length y m (prev := previous_month y m) : 1 ≤ m ≤ 12 →
  ∃ k, days_in_month prev.1 prev.2 = Some k ∧ 28 ≤ k ≤ 31
    ∧ unix_days_from_civil_date y m 1 = unix_days_from_civil_date prev.1 prev.2 1 + k.
Proof.
  intros Hm. subst prev. unfold previous_month.
  assert (1 ≤ (if m =? 1 then (y - 1, 12) else (y, m - 1)).2 ≤ 12) as Hm'
    by (destruct (Z.eqb_spec m 1); simpl; lia).
  pose proof (days_in_month_range (if m =? 1 then (y - 1, 12) else (y, m - 1)).1
                (if m =? 1 then (y - 1, 12) else (y, m - 1)).2) as Hr.
  destruct (days_in_month _ _) as [k|] eqn:Hk; [|done]. exists k. split_and!; [done|lia..|].
  pose proof (month_length _ _ _ Hk) as Hl. destruct (Z.eqb_spec m 1) as [->|Hne]; simpl in *.
  - by rewrite Z.sub_add in Hl.
  - destruct (Z.eqb_spec (m - 1) 12); [lia|]. by rewrite Z.sub_add in Hl.
Qed.

Lemma monthly_window_spec reset_at :
  ∃ w, monthly_window_seconds reset_at = Some w
    ∧ 28 * 86400 ≤ w ≤ 31 * 86400
    ∧ civil_date_from_unix_days ((reset_at - w) / 86400)
      = month_earlier (civil_date_from_unix_days (reset_at / 86400))
    ∧ (reset_at - w) mod 86400 = reset_at mod 86400.
Proof.
  unfold monthly_window_seconds. destruct (civil_date_spec (reset_at / 86400)) as [Hv Hn].
  destruct (civil_date_from_unix_days (reset_at / 86400)) as [[y m] d] eqn:E.
  destruct Hv as (days & Hdays & Hd). pose proof (days_in_month_range y m) as Hm.
  rewrite Hdays in Hm. destruct (previous_month_length y m) as (k & Hk & Hkr & Hl); [tauto|].
  change (if m =? 1 then (y - 1, 12) else (y, m - 1)) with (previous_month y m).
  unfold month_earlier. destruct (previous_month y m) as [y' m']. simpl in Hk, Hl. rewrite Hk.
  cbn [mbind option_bind default from_option id].
  unfold date_days in Hn. rewrite unix_days_day in Hn. rewrite (unix_days_day y' m' (Z.min d k)).
  set (prev := unix_days_from_civil_date y' m' 1 + Z.min d k - 1).
  assert (reset_at - (prev * 86400 + reset_at mod 86400) = (k + d - Z.min d k) * 86400) as Hw
    by (pose proof (Z.div_mod reset_at 86400 ltac:(lia)); unfold prev; lia).
  rewrite Hw. set (n := k + d - Z.min d k). assert (28 ≤ n ≤ 31) as Hn' by lia.
  assert ((0 <? n * 86400) && (n * 86400 <=? 31 * 86400) = true) as -> by lia.
  rewrite (proj2 (in_range_true _ _ _)) by (unfold i64_min, i64_max; lia).
  exists (n * 86400). replace (reset_at - n * 86400) with (prev * 86400 + reset_at mod 86400) by lia.
  split_and!; [done|lia..| |].
  - pose proof (Z.mod_pos_bound reset_at 86400 ltac:(lia)).
    rewrite Z.div_add_l, Z.div_small, Z.add_0_r by lia. unfold prev. rewrite <-unix_days_day.
    apply (civil_date_days y' m' (Z.min d k)). exists k. split; [done|lia].
  - rewrite Z.add_comm, Z_mod_plus_full. by rewrite Z.mod_mod.
Qed.
Lemma monthly_window_some reset_at : ∃ w, monthly_window_seconds reset_at = Some w.
Proof. destruct (monthly_window_spec reset_at) as (w & Hw & _). by exists w. Qed.
Lemma monthly_window_range reset_at w :
  monthly_window_seconds reset_at = Some w → 28 * 86400 ≤ w ≤ 31 * 86400.
Proof. destruct (monthly_window_spec reset_at) as (w' & -> & Hr & _). by intros [= <-]. Qed.

(** C17. The monthly window ends at the reset and starts one calendar month earlier, at
    the same time of the same day of the month before, or of its last day; it has 28
    to 31 days, so the assertion and the conversion of the source never panic. *)
Theorem monthly_window_exact reset_at :
  ∃ w, monthly_window_seconds reset_at = Some w
    ∧ 28 * 86400 ≤ w ≤ 31 * 86400
    ∧ civil_date_from_unix_days ((reset_at - w) / 86400)
      = month_earlier (civil_date_from_unix_days (reset_at / 86400))
    ∧ (reset_at - w) mod 86400 = reset_at mod 86400.
Proof. apply monthly_window_spec. Qed.
