(* ===== verification/Protocol.v ===== *)
(** * The app-server protocol: accounts, plans and quotas

    Models [src/protocol_contract.rs]: the strict validators of the account and
    quota answers, their decoding, and the account notification. The
    deserialisation of a JSON text is a parameter. *)

From S2P Require Import Prelude Text Json Security Calendar.

Definition DEFAULT_LIMIT_NAME : text := lit "Codex".
Definition WEEK_SECONDS : Z := 7 * 86400.
Definition MAX_WINDOW_DURATION_MINS : Z := 527040.

Inductive ContractError :=
  | AccountSchema | AccountUpdatedSchema | QuotaSchema | InvalidPlanType
  | AccountQuotaPlanMismatch.
#[export] Instance ContractError_eq_dec : EqDecision ContractError.
Proof. solve_decision. Defined.

(** ** Plans *)
Inductive PlanFamily :=
  | FamFree | FamGo | FamPlus | FamPro | FamProLite | FamTeam | FamBusiness | FamEnterprise
  | FamEdu | FamUnset.
#[export] Instance PlanFamily_eq_dec : EqDecision PlanFamily.
Proof. solve_decision. Defined.
Definition is_known (self : PlanFamily) : bool :=
  match self with FamUnset => false | _ => true end.

Inductive PlanType :=
  | Free | Go | Plus | Pro | ProLite | Team | SelfServeBusinessProLite
  | SelfServeBusinessUsageBased | Business | Ent26 | EnterpriseCbpAutomation
  | EnterpriseCbpUsageBased | Enterprise | Edu | Unknown.
#[export] Instance PlanType_eq_dec : EqDecision PlanType.
Proof. solve_decision. Defined.

Definition PLAN_VALUES : list text := [
  lit "free"; lit "go"; lit "plus"; lit "pro"; lit "prolite"; lit "team";
  lit "self_serve_business_prolite"; lit "self_serve_business_usage_based"; lit "business";
  lit "ent26"; lit "enterprise_cbp_automation"; lit "enterprise_cbp_usage_based";
  lit "enterprise"; lit "edu"; lit "unknown"].

Definition PlanType_parse (value : text) : option PlanType :=
  if text_eqb value (lit "free") then Some Free
  else if text_eqb value (lit "go") then Some Go
  else if text_eqb value (lit "plus") then Some Plus
  else if text_eqb value (lit "pro") then Some Pro
  else if text_eqb value (lit "prolite") then Some ProLite
  else if text_eqb value (lit "team") then Some Team
  else if text_eqb value (lit "self_serve_business_prolite") then Some SelfServeBusinessProLite
  else if text_eqb value (lit "self_serve_business_usage_based")
  then Some SelfServeBusinessUsageBased
  else if text_eqb value (lit "business") then Some Business
  else if text_eqb value (lit "ent26") then Some Ent26
  else if text_eqb value (lit "enterprise_cbp_automation") then Some EnterpriseCbpAutomation
  else if text_eqb value (lit "enterprise_cbp_usage_based") then Some EnterpriseCbpUsageBased
  else if text_eqb value (lit "enterprise") then Some Enterprise
  else if text_eqb value (lit "edu") then Some Edu
  else if text_eqb value (lit "unknown") then Some Unknown
  else None.

Definition PlanType_as_str (self : PlanType) : text :=
  match self with
  | Free => lit "free" | Go => lit "go" | Plus => lit "plus" | Pro => lit "pro"
  | ProLite => lit "prolite" | Team => lit "team"
  | SelfServeBusinessProLite => lit "self_serve_business_prolite"
  | SelfServeBusinessUsageBased => lit "self_serve_business_usage_based"
  | Business => lit "business" | Ent26 => lit "ent26"
  | EnterpriseCbpAutomation => lit "enterprise_cbp_automation"
  | EnterpriseCbpUsageBased => lit "enterprise_cbp_usage_based"
  | Enterprise => lit "enterprise" | Edu => lit "edu" | Unknown => lit "unknown"
  end.

Definition family (self : PlanType) : PlanFamily :=
  match self with
  | Free => FamFree | Go => FamGo | Plus => FamPlus | Pro => FamPro | ProLite => FamProLite
  | Team => FamTeam
  | SelfServeBusinessProLite | SelfServeBusinessUsageBased | Business => FamBusiness
  | Ent26 | EnterpriseCbpAutomation | EnterpriseCbpUsageBased | Enterprise => FamEnterprise
  | Edu => FamEdu
  | Unknown => FamUnset
  end.

Definition PlanType_label (self : PlanType) : text :=
  match self with
  | Free => lit "無料" | Go => lit "Go" | Plus => lit "Plus" | Pro => lit "Pro"
  | ProLite => lit "Pro Lite" | Team => lit "Team"
  | SelfServeBusinessProLite | SelfServeBusinessUsageBased | Business => lit "Business"
  | Ent26 | EnterpriseCbpAutomation | EnterpriseCbpUsageBased | Enterprise =>
      lit "エンタープライズ"
  | Edu => lit "教育"
  | Unknown => lit "プラン未設定"
  end.

Definition plan_type_from_wire (value : option text) : option PlanType := value ?> PlanType_parse.
Definition plan_family_from_wire (value : option text) : option PlanFamily :=
  option_map family (plan_type_from_wire value).
Definition plan_label (value : option text) : text :=
  match value ?> PlanType_parse with
  | Some plan => PlanType_label plan
  | None => lit "プラン未設定"
  end.

(** ** Outcomes *)
Inductive AccountOutcome :=
  | AuthRequired
  | Supported (email : text) (plan_type : PlanType)
  | UnsupportedNoData.
Definition plan_family (self : AccountOutcome) : option PlanFamily :=
  match self with Supported _ plan_type => Some (family plan_type) | _ => None end.

Record QuotaSnapshot := {
  qs_fixed_used_percent : option Z;
  qs_remaining_percent : option Z;
  qs_reset_at : Z;
  qs_window_seconds : Z;
  qs_limit_name : text;
  qs_monthly : bool;
  qs_unlimited : bool
}.

Inductive Endpoint := Account | Quota.
Definition Endpoint_error (self : Endpoint) : ContractError :=
  match self with Account => AccountSchema | Quota => QuotaSchema end.

Record FixedCandidate := {
  fc_used : Z; fc_remaining : Z; fc_reset_at : Z; fc_window_seconds : Z; fc_priority : Z }.

(** The auth modes of [account/updated]. *)
Definition AUTH_MODES : list text := [
  lit "apikey"; lit "chatgpt"; lit "chatgptAuthTokens"; lit "headers"; lit "agentIdentity";
  lit "personalAccessToken"; lit "bedrockApiKey"].

Section protocol.
Context {N : Type} `{JsonNumber N}.
Implicit Types (value : Value N) (values : list (text * Value N)).

(** ** Reading fields *)
Definition object value (endpoint : Endpoint) : result ContractError (list (text * Value N)) :=
  ok_or (as_object value) (Endpoint_error endpoint).
Definition required values (key : text) (endpoint : Endpoint) : result ContractError (Value N) :=
  ok_or (get key values) (Endpoint_error endpoint).
(** [if let Some(value) = values.get(key) { check }] *)
Definition if_present values (key : text) (check : Value N → result ContractError ()) :
    result ContractError () :=
  match get key values with Some value => check value | None => Ok tt end.
Definition require (endpoint : Endpoint) (b : bool) : result ContractError () :=
  if b then Ok tt else Err (Endpoint_error endpoint).

Definition is_string value : bool := opt_is_some (as_str value).
Definition is_boolean value : bool := opt_is_some (as_bool value).
Definition i32_try_from (z : Z) : option Z :=
  if in_range i32_min i32_max z then Some z else None.
Definition is_integer value : bool := opt_is_some (value_as_i64 value).
Definition is_i32 value : bool := opt_is_some (value_as_i64 value ?> i32_try_from).
Definition is_nullable_string value : bool := is_null value || is_string value.
Definition is_nullable_i64 value : bool := is_null value || is_integer value.
Definition is_nullable_bool value : bool := is_null value || is_boolean value.

(** ** The account answer *)
Definition validate_plan value (endpoint : Endpoint) : result ContractError () :=
  require endpoint (opt_is_some (as_str value ?> PlanType_parse)).

Definition validate_account_variant value : result ContractError () :=
  values ← object value Account;
  kind ← required values (lit "type") Account;
  account_type ← ok_or (as_str kind) AccountSchema;
  if text_eqb account_type (lit "apiKey") then Ok tt
  else if text_eqb account_type (lit "chatgpt") then
    email ← required values (lit "email") Account;
    _ ← require Account (is_nullable_string email);
    plan ← required values (lit "planType") Account;
    validate_plan plan Account
  else if text_eqb account_type (lit "amazonBedrock") then
    if_present values (lit "usesCodexManagedCredentials") (λ value,
      require Account (is_boolean value))
  else Err AccountSchema.

Definition validate_account_response value : result ContractError () :=
  values ← object value Account;
  flag ← required values (lit "requiresOpenaiAuth") Account;
  _ ← require Account (is_boolean flag);
  if_present values (lit "account") (λ account,
    if is_null account then Ok tt else validate_account_variant account).

Definition decode_account value : result ContractError AccountOutcome :=
  _ ← validate_account_response value;
  values ← object value Account;
  flag ← required values (lit "requiresOpenaiAuth") Account;
  let requires_openai_auth := bool_decide (as_bool flag = Some true) in
  let fallback := Ok (if requires_openai_auth then AuthRequired else UnsupportedNoData) in
  match get (lit "account") values ?> as_object with
  | Some account =>
      if bool_decide (get (lit "type") account ?> as_str = Some (lit "chatgpt")) then
        let email :=
          opt_filter (λ email, negb (bool_decide (trim email = [])))
            (get (lit "email") account ?> as_str ?> (λ email, result_ok (bounded_email email))) in
        plan_type ← ok_or (get (lit "planType") account ?> as_str ?> PlanType_parse) AccountSchema;
        match email with
        | Some email => Ok (Supported email plan_type)
        | None => fallback
        end
      else fallback
  | None => fallback
  end.

(** ** The quota answer *)
Definition validate_credits value : result ContractError () :=
  if is_null value then Ok tt
  else
    values ← object value Quota;
    has_credits ← required values (lit "hasCredits") Quota;
    _ ← require Quota (is_boolean has_credits);
    unlimited ← required values (lit "unlimited") Quota;
    _ ← require Quota (is_boolean unlimited);
    if_present values (lit "balance") (λ balance, require Quota (is_nullable_string balance)).

Definition validate_spend_control value : result ContractError () :=
  if is_null value then Ok tt
  else
    values ← object value Quota;
    limit ← required values (lit "limit") Quota;
    _ ← require Quota (is_string limit);
    remaining ← required values (lit "remainingPercent") Quota;
    _ ← require Quota (is_i32 remaining);
    resets_at ← required values (lit "resetsAt") Quota;
    _ ← require Quota (is_integer resets_at);
    used ← required values (lit "used") Quota;
    require Quota (is_string used).

Definition validate_window value : result ContractError () :=
  if is_null value then Ok tt
  else
    values ← object value Quota;
    used ← required values (lit "usedPercent") Quota;
    _ ← require Quota (is_i32 used);
    _ ← if_present values (lit "resetsAt") (λ resets_at, require Quota (is_nullable_i64 resets_at));
    if_present values (lit "windowDurationMins") (λ duration,
      require Quota (is_nullable_i64 duration)).

Definition validate_reached_type value : result ContractError () :=
  require Quota (is_null value || is_some_and (λ s, is_any s
    ["rate_limit_reached"; "workspace_owner_credits_depleted";
     "workspace_member_credits_depleted"; "workspace_owner_usage_limit_reached";
     "workspace_member_usage_limit_reached"]) (as_str value)).

Definition validate_rate_limit_snapshot value : result ContractError () :=
  values ← object value Quota;
  _ ← if_present values (lit "credits") validate_credits;
  _ ← if_present values (lit "individualLimit") validate_spend_control;
  _ ← if_present values (lit "limitId") (λ v, require Quota (is_nullable_string v));
  _ ← if_present values (lit "limitName") (λ v, require Quota (is_nullable_string v));
  _ ← if_present values (lit "planType") (λ v,
        if is_null v then Ok tt else validate_plan v Quota);
  _ ← if_present values (lit "primary") validate_window;
  _ ← if_present values (lit "secondary") validate_window;
  _ ← if_present values (lit "rateLimitReachedType") validate_reached_type;
  if_present values (lit "spendControlReached") (λ v, require Quota (is_nullable_bool v)).

Definition validate_reset_credit value : result ContractError () :=
  values ← object value Quota;
  granted_at ← required values (lit "grantedAt") Quota;
  _ ← require Quota (is_integer granted_at);
  id ← required values (lit "id") Quota;
  _ ← require Quota (is_string id);
  reset_type ← required values (lit "resetType") Quota;
  _ ← require Quota (is_some_and (λ s, is_any s ["codexRateLimits"; "unknown"]) (as_str reset_type));
  status ← required values (lit "status") Quota;
  _ ← require Quota (is_some_and (λ s,
        is_any s ["available"; "redeeming"; "redeemed"; "unknown"]) (as_str status));
  _ ← if_present values (lit "description") (λ v, require Quota (is_nullable_string v));
  _ ← if_present values (lit "title") (λ v, require Quota (is_nullable_string v));
  if_present values (lit "expiresAt") (λ v, require Quota (is_nullable_i64 v)).

(** [for x in l { check(x)?; }] *)
Fixpoint check_all {A} (check : A → result ContractError ()) (l : list A) :
    result ContractError () :=
  match l with
  | [] => Ok tt
  | x :: rest => _ ← check x; check_all check rest
  end.

Definition validate_reset_credits value : result ContractError () :=
  if is_null value then Ok tt
  else
    values ← object value Quota;
    count ← required values (lit "availableCount") Quota;
    _ ← require Quota (is_integer count);
    if_present values (lit "credits") (λ credits,
      if is_null credits then Ok tt
      else credits ← ok_or (as_array credits) QuotaSchema; check_all validate_reset_credit credits).

Definition validate_rate_limits_response value : result ContractError () :=
  values ← object value Quota;
  limits ← required values (lit "rateLimits") Quota;
  _ ← validate_rate_limit_snapshot limits;
  _ ← if_present values (lit "rateLimitsByLimitId") (λ by_id,
        if is_null by_id then Ok tt
        else
          by_id ← ok_or (as_object by_id) QuotaSchema;
          check_all validate_rate_limit_snapshot (map snd by_id));
  if_present values (lit "rateLimitResetCredits") validate_reset_credits.

Definition bounded_limit_name (value : option (Value N)) : result ContractError text :=
  match value with
  | None => Ok DEFAULT_LIMIT_NAME
  | Some value =>
      if is_null value then Ok DEFAULT_LIMIT_NAME
      else
        value ← ok_or (as_str value) QuotaSchema;
        value ← map_err (λ _, QuotaSchema) (Security.bounded_limit_name value);
        if bool_decide (trim value = []) then Ok DEFAULT_LIMIT_NAME else Ok value
  end.

Definition valid_individual values : option (Z * Z) :=
  individual ← get (lit "individualLimit") values ?> as_object;
  remaining ← opt_filter (in_range 0 100)
                (get (lit "remainingPercent") individual ?> value_as_i64 ?> i32_try_from);
  reset_at ← opt_filter (λ v, 1 <=? v) (get (lit "resetsAt") individual ?> value_as_i64);
  Some (remaining, reset_at).

Definition i64_checked_mul (a b : Z) : option Z :=
  if in_range i64_min i64_max (a * b) then Some (a * b) else None.

Definition valid_fixed values (key : text) (priority : Z) : option FixedCandidate :=
  window ← get key values ?> as_object;
  used ← opt_filter (in_range 0 100)
           (get (lit "usedPercent") window ?> value_as_i64 ?> i32_try_from);
  reset_at ← opt_filter (λ v, 1 <=? v) (get (lit "resetsAt") window ?> value_as_i64);
  duration_mins ← opt_filter (in_range 1 MAX_WINDOW_DURATION_MINS)
                    (get (lit "windowDurationMins") window ?> value_as_i64);
  window_seconds ← i64_checked_mul duration_mins 60;
  Some {| fc_used := used; fc_remaining := 100 - used; fc_reset_at := reset_at;
          fc_window_seconds := window_seconds; fc_priority := priority |}.

(** [Ordering::then_with], [is_gt]. *)
Definition then_with (a b : comparison) : comparison := match a with Eq => b | _ => a end.
Definition is_gt (c : comparison) : bool := match c with Gt => true | _ => false end.
Definition fixed_is_better (candidate current : FixedCandidate) : bool :=
  is_gt (then_with
    (then_with (fc_window_seconds candidate ?= fc_window_seconds current)
       (fc_reset_at candidate ?= fc_reset_at current))
    (fc_priority current ?= fc_priority candidate)).

Definition canonical_plan_family values : option PlanFamily :=
  match get (lit "planType") values with
  | None => None
  | Some plan_type =>
      if is_null plan_type then None
      else option_map family (as_str plan_type ?> PlanType_parse)
  end.

(** The loop over [primary] and [secondary]. *)
Definition select_fixed values : option FixedCandidate :=
  fold_left (λ selected '(key, priority),
    match valid_fixed values key priority with
    | Some candidate =>
        if is_none_or (fixed_is_better candidate) selected then Some candidate else selected
    | None => selected
    end) [(lit "primary", 0); (lit "secondary", 1)] None.

Definition effective_family (account_family quota_family : option PlanFamily) : PlanFamily :=
  match opt_filter is_known account_family with
  | Some family => family
  | None => default FamUnset (opt_filter is_known quota_family)
  end.
Definition plans_mismatch (account_family quota_family : option PlanFamily) : bool :=
  match account_family, quota_family with
  | Some a, Some q => is_known a && is_known q && negb (bool_decide (a = q))
  | _, _ => false
  end.

(** An outer [None] is a panic of the calendar arithmetic. *)
Definition decode_quota value (account_family : option PlanFamily) :
    option (result ContractError (option QuotaSnapshot)) :=
  match
    (_ ← validate_rate_limits_response value;
     values ← object value Quota;
     limits ← required values (lit "rateLimits") Quota;
     canonical ← ok_or (as_object limits) QuotaSchema;
     reject AccountQuotaPlanMismatch when
       plans_mismatch account_family (canonical_plan_family canonical);
     limit_name ← bounded_limit_name (get (lit "limitName") canonical);
     Ok (canonical, limit_name))
  with
  | Err e => Some (Err e)
  | Ok (canonical, limit_name) =>
      let effective := effective_family account_family (canonical_plan_family canonical) in
      let individual :=
        if bool_decide (effective = FamEnterprise) then valid_individual canonical else None in
      match individual with
      | Some (remaining, reset_at) =>
          window_seconds ← monthly_window_seconds reset_at;
          Some (Ok (Some {|
            qs_fixed_used_percent := None; qs_remaining_percent := Some remaining;
            qs_reset_at := reset_at; qs_window_seconds := window_seconds;
            qs_limit_name := limit_name; qs_monthly := true; qs_unlimited := false |}))
      | None =>
          Some (Ok
            match select_fixed canonical with
            | Some candidate => Some {|
                qs_fixed_used_percent := Some (fc_used candidate);
                qs_remaining_percent := Some (fc_remaining candidate);
                qs_reset_at := fc_reset_at candidate;
                qs_window_seconds := fc_window_seconds candidate;
                qs_limit_name := limit_name; qs_monthly := false; qs_unlimited := false |}
            | None =>
                if bool_decide (get (lit "credits") canonical ?> as_object ?> get (lit "unlimited")
                                ?> as_bool = Some true)
                then Some {|
                  qs_fixed_used_percent := None; qs_remaining_percent := None;
                  qs_reset_at := 0; qs_window_seconds := WEEK_SECONDS;
                  qs_limit_name := limit_name; qs_monthly := false; qs_unlimited := true |}
                else None
            end)
      end
  end.

Definition decode_quota_for_plan value (account_plan : option text) :
    option (result ContractError (option QuotaSnapshot)) :=
  match
    (_ ← validate_rate_limits_response value;
     match account_plan with
     | Some plan =>
         plan_type ← ok_or (PlanType_parse plan) InvalidPlanType;
         Ok (Some (family plan_type))
     | None => Ok None
     end)
  with
  | Ok account_family => decode_quota value account_family
  | Err e => Some (Err e)
  end.

(** ** The account notification *)
Definition validate_account_updated_notification value : result ContractError () :=
  message ← ok_or (as_object value) AccountUpdatedSchema;
  reject AccountUpdatedSchema when
    negb (length message =? 3)%nat
    || negb (bool_decide (get (lit "jsonrpc") message ?> as_str = Some (lit "2.0")))
    || negb (bool_decide (get (lit "method") message ?> as_str = Some (lit "account/updated")))
    || contains_key (lit "id") message;
  params ← ok_or (get (lit "params") message ?> as_object) AccountUpdatedSchema;
  reject AccountUpdatedSchema when
    existsb (λ '(key, _), negb (text_eqb key (lit "authMode")) && negb (text_eqb key (lit "planType")))
      params;
  _ ← if_present params (lit "authMode") (λ auth_mode,
        reject AccountUpdatedSchema when
          negb (is_null auth_mode)
          && negb (is_some_and (λ mode, existsb (text_eqb mode) AUTH_MODES) (as_str auth_mode));
        Ok tt);
  if_present params (lit "planType") (λ plan_type,
    reject AccountUpdatedSchema when
      negb (is_null plan_type) && negb (opt_is_some (as_str plan_type ?> PlanType_parse));
    Ok tt).

(** [MethodVisitor::visit_map] on the members in document order, duplicates kept. *)
Fixpoint visit_methods (method_seen account_updated : bool) (members : list (text * Value N)) :
    result ContractError bool :=
  match members with
  | [] => Ok account_updated
  | (key, value) :: rest =>
      if text_eqb key (lit "method") then
        let current := bool_decide (as_str value = Some (lit "account/updated")) in
        if method_seen && (account_updated || current) then Err AccountUpdatedSchema
        else visit_methods true (account_updated || current) rest
      else visit_methods method_seen account_updated rest
  end.
Definition is_account_updated_notification_json
    (read_members : text → option (list (text * Value N))) (raw : text) :
    result ContractError bool :=
  members ← ok_or (read_members raw) AccountUpdatedSchema;
  visit_methods false false members.

(** The strict envelope, as far as its fields are read. *)
Record StrictAccountUpdatedEnvelope := { ae_jsonrpc : text; ae_method : text }.
Definition validate_account_updated_notification_json
    (read_envelope : text → option StrictAccountUpdatedEnvelope)
    (read_value : text → option (Value N)) (raw : text) : result ContractError () :=
  envelope ← ok_or (read_envelope raw) AccountUpdatedSchema;
  reject AccountUpdatedSchema when
    negb (text_eqb (ae_jsonrpc envelope) (lit "2.0"))
    || negb (text_eqb (ae_method envelope) (lit "account/updated"));
  value ← ok_or (read_value raw) AccountUpdatedSchema;
  validate_account_updated_notification value.
End protocol.

(** ** Plans on the wire *)
Lemma plan_parse_as_str p : PlanType_parse (PlanType_as_str p) = Some p.
Proof. by destruct p. Qed.
Lemma plan_parse_iff s p : PlanType_parse s = Some p ↔ s = PlanType_as_str p.
Proof.
  split; [|intros ->; apply plan_parse_as_str]. unfold PlanType_parse, text_eqb.
  repeat case_bool_decide; by intros [= <-].
Qed.

(** ** The fixed windows *)
Section windows.
Context {N : Type} `{JsonNumber N}.
Implicit Types values : list (text * Value N).

(** The windows an answer offers, and the order of preference: longer, then later
    reset, then primary. *)
Definition offered values : list FixedCandidate :=
  opt_list (valid_fixed values (lit "primary") 0)
  ++ opt_list (valid_fixed values (lit "secondary") 1).
Definition preferred (a b : FixedCandidate) : Prop :=
  fc_window_seconds b < fc_window_seconds a
  ∨ fc_window_seconds a = fc_window_seconds b
    ∧ (fc_reset_at b < fc_reset_at a
       ∨ fc_reset_at a = fc_reset_at b ∧ fc_priority a < fc_priority b).

Lemma fixed_is_better_iff a b : fixed_is_better a b = true ↔ preferred a b.
Proof.
  unfold fixed_is_better, preferred.
  destruct (Z.compare_spec (fc_window_seconds a) (fc_window_seconds b)),
    (Z.compare_spec (fc_reset_at a) (fc_reset_at b)),
    (Z.compare_spec (fc_priority b) (fc_priority a)); simpl; split; (done || lia).
Qed.
Lemma valid_fixed_priority values key p c : valid_fixed values key p = Some c → fc_priority c = p.
Proof. unfold valid_fixed. intros Hc. by simplify_option_eq. Qed.

Lemma select_fixed_spec values :
  match select_fixed values with
  | Some c => c ∈ offered values ∧ ∀ c', c' ∈ offered values → c' = c ∨ preferred c c'
  | None => offered values = []
  end.
Proof.
  unfold select_fixed, offered. simpl.
  destruct (valid_fixed values (lit "primary") 0) as [p|] eqn:Ep,
    (valid_fixed values (lit "secondary") 1) as [s|] eqn:Es; simpl; try set_solver.
  apply valid_fixed_priority in Ep, Es. destruct (fixed_is_better s p) eqn:E.
  - apply fixed_is_better_iff in E. split; [set_solver|]. intros c. set_unfold. naive_solver.
  - split; [set_solver|]. intros c. set_unfold. intros [->|[->|[]]]; [by left|right].
    assert (¬ preferred s p) as Hn by (by rewrite <-fixed_is_better_iff, E).
    unfold preferred in *. lia.
Qed.

Lemma valid_fixed_bounds values key p c :
  valid_fixed values key p = Some c →
  0 ≤ fc_used c ≤ 100 ∧ fc_remaining c = 100 - fc_used c ∧ 1 ≤ fc_reset_at c
  ∧ 60 ≤ fc_window_seconds c ≤ 60 * MAX_WINDOW_DURATION_MINS.
Proof.
  unfold valid_fixed, i64_checked_mul. intros Hc.
  destruct (get key values ?> as_object) as [w|]; simpl in Hc; [|done].
  destruct (opt_filter (in_range 0 100) _) as [u|] eqn:Eu; simpl in Hc; [|done].
  destruct (opt_filter (λ v, 1 <=? v) _) as [r|] eqn:Er; simpl in Hc; [|done].
  destruct (opt_filter (in_range 1 _) _) as [d|] eqn:Ed; simpl in Hc; [|done].
  apply opt_filter_Some in Eu as [_ Eu], Er as [_ Er], Ed as [_ Ed].
  apply in_range_true in Eu, Ed. destruct (in_range _ _ (d * 60)); simplify_eq/=. lia.
Qed.
Lemma offered_bounds values c :
  c ∈ offered values →
  0 ≤ fc_used c ≤ 100 ∧ fc_remaining c = 100 - fc_used c ∧ 1 ≤ fc_reset_at c
  ∧ 60 ≤ fc_window_seconds c ≤ 60 * MAX_WINDOW_DURATION_MINS.
Proof.
  unfold offered. rewrite elem_of_app. intros [Hc|Hc];
    destruct (valid_fixed _ _ _) eqn:E in Hc; simpl in Hc; set_unfold in Hc; try tauto;
    destruct Hc as [->|[]]; by eapply valid_fixed_bounds.
Qed.
End windows.

(** ** What a quota answer says *)
Section quota.
Context {N : Type} `{JsonNumber N}.
Implicit Types (value : Value N) (values canonical : list (text * Value N)).

(** The individual limit counts for enterprise plans only. *)
Definition individual_of (family : PlanFamily) canonical : option (Z * Z) :=
  if bool_decide (family = FamEnterprise) then valid_individual canonical else None.
Definition unlimited_credits canonical : Prop :=
  get (lit "credits") canonical ?> as_object ?> get (lit "unlimited") ?> as_bool = Some true.

(** The quota of a valid answer: the individual limit of an enterprise plan over its
    calendar month, else the preferred fixed window, else unlimited credits. *)
Inductive quota_of (family : PlanFamily) canonical : option QuotaSnapshot → Prop :=
  | quota_individual remaining reset_at window name :
      individual_of family canonical = Some (remaining, reset_at) →
      monthly_window_seconds reset_at = Some window →
      bounded_limit_name (get (lit "limitName") canonical) = Ok name →
      quota_of family canonical (Some {|
        qs_fixed_used_percent := None; qs_remaining_percent := Some remaining;
        qs_reset_at := reset_at; qs_window_seconds := window; qs_limit_name := name;
        qs_monthly := true; qs_unlimited := false |})
  | quota_fixed c name :
      individual_of family canonical = None →
      c ∈ offered canonical → (∀ c', c' ∈ offered canonical → c' = c ∨ preferred c c') →
      bounded_limit_name (get (lit "limitName") canonical) = Ok name →
      quota_of family canonical (Some {|
        qs_fixed_used_percent := Some (fc_used c); qs_remaining_percent := Some (fc_remaining c);
        qs_reset_at := fc_reset_at c; qs_window_seconds := fc_window_seconds c;
        qs_limit_name := name; qs_monthly := false; qs_unlimited := false |})
  | quota_unlimited name :
      individual_of family canonical = None → offered canonical = [] →
      unlimited_credits canonical →
      bounded_limit_name (get (lit "limitName") canonical) = Ok name →
      quota_of family canonical (Some {|
        qs_fixed_used_percent := None; qs_remaining_percent := None; qs_reset_at := 0;
        qs_window_seconds := WEEK_SECONDS; qs_limit_name := name; qs_monthly := false;
        qs_unlimited := true |})
  | quota_none :
      individual_of family canonical = None → offered canonical = [] →
      ¬ unlimited_credits canonical → quota_of family canonical None.

(** What a valid answer looks like, as far as its decoding relies on it. *)
Lemma if_present_Ok values key check v :
  if_present values key check = Ok tt → get key values = Some v → check v = Ok tt.
Proof. unfold if_present. intros Hc E. by rewrite E in Hc. Qed.
Lemma validate_rate_limits_canonical value :
  validate_rate_limits_response value = Ok tt →
  ∃ values canonical, as_object value = Some values
    ∧ get (lit "rateLimits") values = Some (Object canonical)
    ∧ ∃ name, bounded_limit_name (get (lit "limitName") canonical) = Ok name.
Proof.
  unfold validate_rate_limits_response, object, required. rewrite bind_Ok.
  intros (values & Ho & Hv). rewrite bind_Ok in Hv. destruct Hv as (limits & Hl & Hv).
  apply ok_or_Ok in Ho, Hl. rewrite bind_Ok in Hv. destruct Hv as ([] & Hs & _).
  unfold validate_rate_limit_snapshot, object in Hs. rewrite bind_Ok in Hs.
  destruct Hs as (canonical & Hc & Hs). apply ok_or_Ok in Hc.
  destruct limits as [| | | | |c]; try done. injection Hc as ->.
  exists values, canonical. split_and!; [done..|].
  do 3 (rewrite bind_Ok in Hs; destruct Hs as ([] & _ & Hs)).
  rewrite bind_Ok in Hs. destruct Hs as ([] & Hname & _).
  unfold bounded_limit_name. destruct (get (lit "limitName") canonical) as [v|] eqn:E; [|by eexists].
  apply (if_present_Ok _ _ _ _ Hname) in E. unfold Protocol.require, is_nullable_string in E.
  destruct v; simpl in *; try done; [by eexists|]. by destruct (bool_decide _); eexists.
Qed.

(** ** The only error of the validator *)
Definition quota_errors {A} (r : result ContractError A) : Prop := ∀ e, r = Err e → e = QuotaSchema.
Lemma quota_errors_ok {A} (a : A) : quota_errors (Ok a).
Proof. done. Qed.
Lemma quota_errors_err {A} : quota_errors (Err (A:=A) QuotaSchema).
Proof. by intros e [= <-]. Qed.
Lemma quota_errors_bind {A B} (m : result ContractError A) (f : A → result ContractError B) :
  quota_errors m → (∀ a, quota_errors (f a)) → quota_errors (m ≫= f).
Proof. intros Hm Hf e. rewrite bind_Err. intros [?|(a & _ & ?)]; [by apply Hm|by eapply Hf]. Qed.
Lemma quota_errors_ok_or {A} (o : option A) : quota_errors (ok_or o QuotaSchema).
Proof. by destruct o; intros e [= <-]. Qed.
Lemma quota_errors_require b : quota_errors (require Quota b).
Proof. by destruct b; intros e [= <-]. Qed.
Lemma quota_errors_present values key check :
  (∀ v, quota_errors (check v)) → quota_errors (if_present values key check).
Proof. intros Hc. unfold if_present. destruct (get key values); [apply Hc|done]. Qed.
Lemma quota_errors_all {A} (check : A → result ContractError ()) l :
  (∀ x, quota_errors (check x)) → quota_errors (check_all check l).
Proof. intros Hc. induction l; simpl; [done|]. by apply quota_errors_bind. Qed.

Create HintDb quota_errors.
Hint Resolve quota_errors_ok quota_errors_err quota_errors_ok_or quota_errors_require : quota_errors.
Ltac quota_errors :=
  unfold object, required; cbn [Endpoint_error];
  repeat first
    [ progress intros
    | solve [auto with quota_errors]
    | apply quota_errors_bind | apply quota_errors_present | apply quota_errors_all
    | match goal with |- quota_errors (if ?b then _ else _) => destruct b end ].

Lemma validate_plan_errors value : quota_errors (validate_plan value Quota).
Proof. unfold validate_plan. quota_errors. Qed.
Lemma validate_credits_errors value : quota_errors (validate_credits value).
Proof. unfold validate_credits. quota_errors. Qed.
Lemma validate_spend_control_errors value : quota_errors (validate_spend_control value).
Proof. unfold validate_spend_control. quota_errors. Qed.
Lemma validate_window_errors value : quota_errors (validate_window value).
Proof. unfold validate_window. quota_errors. Qed.
Lemma validate_reached_type_errors value : quota_errors (validate_reached_type value).
Proof. unfold validate_reached_type. quota_errors. Qed.
Hint Resolve validate_plan_errors validate_credits_errors validate_spend_control_errors
  validate_window_errors validate_reached_type_errors : quota_errors.
Lemma validate_snapshot_errors value : quota_errors (validate_rate_limit_snapshot value).
Proof. unfold validate_rate_limit_snapshot. quota_errors. Qed.
Lemma validate_reset_credit_errors value : quota_errors (validate_reset_credit value).
Proof. unfold validate_reset_credit. quota_errors. Qed.
Hint Resolve validate_snapshot_errors validate_reset_credit_errors : quota_errors.
Lemma validate_reset_credits_errors value : quota_errors (validate_reset_credits value).
Proof. unfold validate_reset_credits. quota_errors. Qed.
Hint Resolve validate_reset_credits_errors : quota_errors.
Lemma validate_response_errors value : quota_errors (validate_rate_limits_response value).
Proof. unfold validate_rate_limits_response. quota_errors. Qed.
End quota.

Section decoding.
Context {N : Type} `{JsonNumber N}.
Implicit Types (value : Value N) (canonical : list (text * Value N)).

Definition canonical_of value : option (list (text * Value N)) :=
  value_get (lit "rateLimits") value ?> as_object.

(** Decoding a valid answer whose plans agree. *)
Lemma decode_quota_valid value account_family canonical name :
  validate_rate_limits_response value = Ok tt →
  canonical_of value = Some canonical →
  plans_mismatch account_family (canonical_plan_family canonical) = false →
  bounded_limit_name (get (lit "limitName") canonical) = Ok name →
  ∃ out, decode_quota value account_family = Some (Ok out)
    ∧ quota_of (effective_family account_family (canonical_plan_family canonical)) canonical out.
Proof.
  intros Hv Hc Hm Hn. unfold decode_quota. rewrite Hv. simpl.
  unfold canonical_of, value_get in Hc. unfold object, required.
  destruct (as_object value) as [values|]; simpl in *; [|done].
  destruct (get (lit "rateLimits") values) as [limits|]; simpl in *; [|done].
  rewrite Hc. simpl. rewrite Hm, Hn. simpl.
  fold (individual_of (effective_family account_family (canonical_plan_family canonical)) canonical).
  destruct (individual_of _ _) as [[remaining reset_at]|] eqn:Hi.
  - destruct (monthly_window_some reset_at) as [w Hw]. rewrite Hw. simpl.
    eexists. split; [done|]. by econstructor.
  - pose proof (select_fixed_spec canonical) as Hs. destruct (select_fixed canonical) as [c|].
    + eexists. split; [done|]. destruct Hs. by econstructor.
    + case_bool_decide; eexists; (split; [done|]); by econstructor.
Qed.

Lemma decode_quota_cases value account_family :
  ∃ r, decode_quota value account_family = Some r ∧
  match r with
  | Err e =>
      e = QuotaSchema ∧ validate_rate_limits_response value ≠ Ok tt
      ∨ e = AccountQuotaPlanMismatch ∧ validate_rate_limits_response value = Ok tt
        ∧ ∃ canonical a q, canonical_of value = Some canonical ∧ account_family = Some a
          ∧ canonical_plan_family canonical = Some q ∧ a ≠ q ∧ a ≠ FamUnset ∧ q ≠ FamUnset
  | Ok out => validate_rate_limits_response value = Ok tt ∧
      ∃ canonical, canonical_of value = Some canonical
        ∧ plans_mismatch account_family (canonical_plan_family canonical) = false
        ∧ quota_of (effective_family account_family (canonical_plan_family canonical)) canonical out
  end.
Proof.
  destruct (validate_rate_limits_response value) as [[]|e] eqn:Hv.
  2: { exists (Err e). unfold decode_quota. rewrite Hv. split; [done|]. left.
       split; [by eapply validate_response_errors|done]. }
  destruct (validate_rate_limits_canonical value Hv) as (values & canonical & Ho & Hl & name & Hn).
  assert (canonical_of value = Some canonical) as Hc
    by (unfold canonical_of, value_get; by rewrite Ho; simpl; rewrite Hl).
  destruct (plans_mismatch account_family (canonical_plan_family canonical)) eqn:Hm.
  - exists (Err AccountQuotaPlanMismatch). split.
    + unfold decode_quota, object, required. rewrite Hv, Ho. simpl. rewrite Hl. simpl. by rewrite Hm.
    + right. split_and!; [done..|]. unfold plans_mismatch in Hm.
      destruct account_family as [a|], (canonical_plan_family canonical) as [q|] eqn:Hq; try done.
      rewrite !andb_true_iff, negb_true_iff, bool_decide_eq_false in Hm.
      destruct Hm as [[Ha Hq'] Hne]. exists canonical, a, q.
      split_and!; [done..| |]; by intros ->.
  - destruct (decode_quota_valid value account_family canonical name) as (out & Hout & Hq); [done..|].
    exists (Ok out). split; [done|]. split; [done|]. by exists canonical.
Qed.

(** Decoding a quota answer always ends in one of three ways, without a panic: the
    answer is malformed; both plans are known and differ; or the result is what the
    answer says under the effective plan, namely the individual limit of an
    enterprise plan, else the longest, latest valid window, else unlimited
    credits, else nothing. *)
Theorem decode_quota_outcome value account_family :
  ∃ r, decode_quota value account_family = Some r ∧
  match r with
  | Err e =>
      e = QuotaSchema ∧ validate_rate_limits_response value ≠ Ok tt
      ∨ e = AccountQuotaPlanMismatch ∧ validate_rate_limits_response value = Ok tt
        ∧ ∃ canonical a q, canonical_of value = Some canonical ∧ account_family = Some a
          ∧ canonical_plan_family canonical = Some q ∧ a ≠ q ∧ a ≠ FamUnset ∧ q ≠ FamUnset
  | Ok out => validate_rate_limits_response value = Ok tt ∧
      ∃ canonical, canonical_of value = Some canonical
        ∧ plans_mismatch account_family (canonical_plan_family canonical) = false
        ∧ quota_of (effective_family account_family (canonical_plan_family canonical)) canonical out
  end.
Proof. apply decode_quota_cases. Qed.

Lemma bounded_limit_name_ok (v : option (Value N)) name :
  bounded_limit_name v = Ok name →
  clean name ∧ chars_count name ≤ MAX_LIMIT_NAME_SCALARS ∧ trim name ≠ [].
Proof.
  assert (clean DEFAULT_LIMIT_NAME ∧ chars_count DEFAULT_LIMIT_NAME ≤ MAX_LIMIT_NAME_SCALARS
    ∧ trim DEFAULT_LIMIT_NAME ≠ []) as Hd.
  { split_and!; [|by vm_compute|by vm_compute].
    change DEFAULT_LIMIT_NAME with (normalize_ui_text DEFAULT_LIMIT_NAME). apply normalize_clean. }
  unfold bounded_limit_name. destruct v as [v|]; [|by intros [= <-]].
  destruct (is_null v); [by intros [= <-]|]. rewrite bind_Ok. intros (s & _ & Hs).
  simpl in Hs. case_bool_decide; injection Hs as <-; [done|].
  split_and!; [by apply shorten_unicode_clean, normalize_clean| |done].
  by apply shorten_unicode_count.
Qed.
Lemma individual_bounds canonical remaining reset_at :
  valid_individual canonical = Some (remaining, reset_at) → 0 ≤ remaining ≤ 100 ∧ 1 ≤ reset_at.
Proof.
  unfold valid_individual.
  destruct (get (lit "individualLimit") canonical ?> as_object); simpl; [|done].
  destruct (opt_filter (in_range 0 100) _) eqn:Er; simpl; [|done].
  destruct (opt_filter (λ v, 1 <=? v) _) eqn:Et; simpl; [|done]. intros [= <- <-].
  apply opt_filter_Some in Er as [_ Er], Et as [_ Et]. apply in_range_true in Er. lia.
Qed.
End decoding.

(** A decoded quota is presentable: it is of exactly one kind, its percentages lie in
    0..=100 and are complementary, a bounded quota has a positive reset and a window
    of its kind (a calendar month, or 1 minute to 366 days), and its name is a
    clean, non-blank text of at most 96 scalars. *)
Theorem decoded_quota_bounds {N} `{JsonNumber N} (value : Value N) account_family q :
  decode_quota value account_family = Some (Ok (Some q)) →
  match qs_monthly q, qs_unlimited q, qs_fixed_used_percent q, qs_remaining_percent q with
  | true, false, None, Some remaining =>
      0 ≤ remaining ≤ 100 ∧ 1 ≤ qs_reset_at q
      ∧ 28 * 86400 ≤ qs_window_seconds q ≤ 31 * 86400
  | false, false, Some used, Some remaining =>
      0 ≤ used ≤ 100 ∧ used + remaining = 100 ∧ 1 ≤ qs_reset_at q
      ∧ 60 ≤ qs_window_seconds q ≤ 366 * 86400
  | false, true, None, None => qs_reset_at q = 0 ∧ qs_window_seconds q = 7 * 86400
  | _, _, _, _ => False
  end
  ∧ clean (qs_limit_name q) ∧ chars_count (qs_limit_name q) ≤ 96 ∧ trim (qs_limit_name q) ≠ [].
Proof.
  intros Hq. destruct (decode_quota_cases value account_family) as (r & Hr & Hspec).
  rewrite Hq in Hr. injection Hr as <-. destruct Hspec as (_ & canonical & _ & _ & Hof).
  revert Hof. generalize (effective_family account_family (canonical_plan_family canonical)).
  intros fam Hof. inversion Hof as
    [remaining reset_at window name Hi Hw Hn|c name _ Hc _ Hn|name _ _ _ Hn|]; subst; simpl.
  - split; [|by eapply bounded_limit_name_ok]. unfold individual_of in Hi.
    case_bool_decide; [|done]. apply individual_bounds in Hi.
    apply monthly_window_range in Hw. lia.
  - split; [|by eapply bounded_limit_name_ok]. apply offered_bounds in Hc.
    unfold MAX_WINDOW_DURATION_MINS in Hc. lia.
  - split; [done|by eapply bounded_limit_name_ok].
Qed.

(** ** Which parts of an answer matter *)
(** Answers that agree on the fields the decoding reads. *)
Definition same_quota_fields {N} (a b : list (text * Value N)) : Prop :=
  Forall (λ key, get key a = get key b)
    [lit "planType"; lit "limitName"; lit "individualLimit"; lit "primary"; lit "secondary";
     lit "credits"].

(** Only the canonical limits count: two valid answers whose canonical limits agree
    on the six fields of a quota decode alike, whatever limits by id, reset credits,
    reached types or unknown fields they carry. *)
Theorem decode_reads_canonical_fields {N} `{JsonNumber N} (v w : Value N) account_family a b :
  validate_rate_limits_response v = Ok tt → validate_rate_limits_response w = Ok tt →
  canonical_of v = Some a → canonical_of w = Some b → same_quota_fields a b →
  decode_quota v account_family = decode_quota w account_family.
Proof.
  intros Hv Hw Ha Hb Hf. unfold same_quota_fields in Hf. rewrite !Forall_cons in Hf.
  destruct Hf as (Hplan & Hname & Hind & Hpri & Hsec & Hcred & _).
  unfold decode_quota, object, required. rewrite Hv, Hw. simpl.
  unfold canonical_of, value_get in Ha, Hb.
  destruct (as_object v) as [vs|], (as_object w) as [ws|]; simpl in *; try done.
  destruct (get (lit "rateLimits") vs), (get (lit "rateLimits") ws); simpl in *; try done.
  rewrite Ha, Hb. simpl.
  assert (canonical_plan_family a = canonical_plan_family b) as Hfam
    by (unfold canonical_plan_family; by rewrite Hplan).
  assert (valid_individual a = valid_individual b) as Hi
    by (unfold valid_individual; by rewrite Hind).
  assert (select_fixed a = select_fixed b) as Hs
    by (unfold select_fixed, valid_fixed; simpl; by rewrite Hpri, Hsec).
  rewrite Hfam, Hname. destruct (plans_mismatch _ _); [done|].
  destruct (bounded_limit_name _); simpl; [|done]. by rewrite Hfam, Hi, Hs, Hcred.
Qed.

(** ** The method of a notification *)
Definition methods {N} (members : list (text * Value N)) : list (Value N) :=
  map snd (List.filter (λ '(key, _), text_eqb key (lit "method")) members).
Definition is_account_updated {N} (value : Value N) : bool :=
  bool_decide (as_str value = Some (lit "account/updated")).

Lemma visit_methods_spec {N} (members : list (text * Value N)) :
  visit_methods false false members
  = if existsb is_account_updated (methods members) then
      if (length (methods members) =? 1)%nat then Ok true else Err AccountUpdatedSchema
    else Ok false.
Proof.
  assert (∀ seen updated, (updated = true → seen = true) →
    visit_methods seen updated members
    = if updated || existsb is_account_updated (methods members) then
        if ((if seen : bool then 1 else 0) + length (methods members) =? 1)%nat
        then Ok true else Err AccountUpdatedSchema
      else Ok false) as Hgen; [|by rewrite Hgen].
  induction members as [|[key value] members IH]; intros seen updated Hs; simpl.
  { rewrite orb_false_r. destruct updated; [|done]. by rewrite Hs. }
  unfold methods. simpl. destruct (text_eqb key (lit "method")); [|by apply IH].
  fold (methods members). simpl. fold (is_account_updated value).
  rewrite IH by done. destruct seen, updated, (is_account_updated value); simpl; try done.
  clear. fold (methods members). destruct (methods members) as [|m ms]; [done|]. by destruct (existsb _ _).
Qed.

(** A notification is taken for an account update only without ambiguity: when a
    method is the account update, it must be the only method of the object. *)
Theorem account_update_unambiguous {N} (members : list (text * Value N)) :
  visit_methods false false members
  = if existsb is_account_updated (methods members) then
      if (length (methods members) =? 1)%nat then Ok true else Err AccountUpdatedSchema
    else Ok false.
Proof. apply visit_methods_spec. Qed.

(** ** Concrete answers *)
#[local] Existing Instance integer_numbers.
Definition example_window (used reset_at minutes : Z) : Value Z :=
  Object [(lit "resetsAt", Number reset_at); (lit "usedPercent", Number used);
          (lit "windowDurationMins", Number minutes)].
Definition example_limits (extra : list (text * Value Z)) : Value Z :=
  Object ([(lit "primary", example_window 56 1800000000 300);
           (lit "secondary", example_window 1 1800604800 10080)] ++ extra).
Definition example_answer (extra : list (text * Value Z)) : Value Z :=
  Object [(lit "rateLimits", example_limits extra)].
(** The same limits, with a reached type and limits by id. *)
Definition example_answer_by_id : Value Z :=
  Object [(lit "rateLimits",
             example_limits [(lit "rateLimitReachedType", VString (lit "rate_limit_reached"))]);
          (lit "rateLimitsByLimitId",
             Object [(lit "codex", Object [(lit "primary", example_window 99 1700000000 300)])])].
Definition enterprise_answer : Value Z :=
  example_answer [(lit "planType", VString (lit "ent26"));
    (lit "individualLimit", Object [(lit "limit", VString (lit "10"));
       (lit "remainingPercent", Number 69); (lit "resetsAt", Number 1800000000);
       (lit "used", VString (lit "3"))])].
Example weekly_window_is_preferred :
  option_map (result_ok ) (decode_quota (example_answer []) None)
  = Some (Some (Some {| qs_fixed_used_percent := Some 1; qs_remaining_percent := Some 99;
      qs_reset_at := 1800604800; qs_window_seconds := 604800; qs_limit_name := lit "Codex";
      qs_monthly := false; qs_unlimited := false |})).
Proof. vm_compute. reflexivity. Qed.

Lemma decoded_quota_bounds_witness :
  let q := {| qs_fixed_used_percent := None; qs_remaining_percent := Some 69;
    qs_reset_at := 1800000000; qs_window_seconds := 31 * 86400; qs_limit_name := lit "Codex";
    qs_monthly := true; qs_unlimited := false |} in
  clean (qs_limit_name q) ∧ chars_count (qs_limit_name q) ≤ 96 ∧ trim (qs_limit_name q) ≠ [].
Proof.
  intros q. apply (decoded_quota_bounds enterprise_answer None q). vm_compute. reflexivity.
Defined.
Lemma decode_reads_canonical_fields_witness :
  decode_quota (example_answer []) (Some FamPro) = decode_quota example_answer_by_id (Some FamPro).
Proof.
  eapply decode_reads_canonical_fields; [vm_compute; reflexivity..|].
  repeat constructor.
Defined.
