(* ===== verification/QuotaJournal.v ===== *)
(** * The quota journal: official quota input and its replay

    Models [interpret_official_quota] of [crates/codex-info-recorder/src/lib.rs] and
    [crates/codex-info-recorder/src/quota_journal.rs]: the table of quota
    observations, the owners of unverified receipts, and the incremental replay of
    the table through a cursor. The JSON parser and the SHA-256 digest are
    parameters; the statements of the table are written as list operations. *)

From S2P Require Import Prelude Text Float64 Json Calendar Protocol.

(** ** Interpretation of an official answer *)
Definition MAX_PUBLIC_UNIX_SECONDS : Z := 253402300799.
Inductive InterpretError :=
  | InvalidObservationTime | MalformedResponse | InvalidPlan | Unavailable | PlansDoNotMatch
  | NoBoundedWindow.
#[export] Instance InterpretError_eq_dec : EqDecision InterpretError.
Proof. solve_decision. Defined.

(** [QuotaSnapshot] of the recorder; [remaining_percent] is always present here. *)
Record OfficialSnapshot := {
  os_observed_at : Z;
  os_reset_at : Z;
  os_window_seconds : Z;
  os_remaining_percent : option f64
}.
Definition i64_checked_sub (a b : Z) : option Z :=
  if in_range i64_min i64_max (a - b) then Some (a - b) else None.

(** A candidate of the selection. *)
Record OfficialWindow := {
  ow_window_seconds : Z; ow_reset_at : Z; ow_remaining : Z; ow_priority : Z }.

Section interpret.
Context {N : Type} `{JsonNumber N}.

Definition official_window (limits : list (text * Value N)) (key : text) (priority : Z) :
    option OfficialWindow :=
  window ← get key limits ?> as_object;
  let used := opt_filter (in_range 0 100) (get (lit "usedPercent") window ?> value_as_i64) in
  let reset_at := opt_filter (in_range 1 MAX_PUBLIC_UNIX_SECONDS)
                    (get (lit "resetsAt") window ?> value_as_i64) in
  let duration_minutes := opt_filter (λ value, 0 <? value)
                            (get (lit "windowDurationMins") window ?> value_as_i64) in
  used ← used;
  reset_at ← reset_at;
  duration_minutes ← duration_minutes;
  window_seconds ← i64_checked_mul duration_minutes 60;
  if is_none_or (λ origin, negb (in_range 1 MAX_PUBLIC_UNIX_SECONDS origin))
       (i64_checked_sub reset_at window_seconds)
  then None
  else Some {| ow_window_seconds := window_seconds; ow_reset_at := reset_at;
               ow_remaining := 100 - used; ow_priority := priority |}.

Definition official_is_better (candidate current : OfficialWindow) : bool :=
  (ow_window_seconds current <? ow_window_seconds candidate)
  || ((ow_window_seconds candidate =? ow_window_seconds current)
      && (ow_reset_at current <? ow_reset_at candidate))
  || ((ow_window_seconds candidate =? ow_window_seconds current)
      && (ow_reset_at candidate =? ow_reset_at current)
      && (ow_priority candidate <? ow_priority current)).

Definition select_official (limits : list (text * Value N)) : option OfficialWindow :=
  fold_left (λ selected '(key, priority),
    match official_window limits key priority with
    | Some candidate =>
        if is_none_or (official_is_better candidate) selected then Some candidate else selected
    | None => selected
    end) [(lit "primary", 0); (lit "secondary", 1)] None.

Definition interpret_official_quota (value : Value N) (plan_type : text) (observed_at : Z) :
    result InterpretError OfficialSnapshot :=
  reject InvalidObservationTime when negb (in_range 1 MAX_PUBLIC_UNIX_SECONDS observed_at);
  _ ← map_err (λ _, MalformedResponse) (validate_rate_limits_response value);
  account_family ← ok_or (plan_family_from_wire (Some plan_type)) InvalidPlan;
  limits ← ok_or (as_object value ?> get (lit "rateLimits") ?> as_object) Unavailable;
  let quota_family := plan_family_from_wire (get (lit "planType") limits ?> as_str) in
  reject PlansDoNotMatch when
    is_some_and (λ family,
      is_known family && is_known account_family && negb (bool_decide (family = account_family)))
      quota_family;
  selected ← ok_or (select_official limits) NoBoundedWindow;
  Ok {| os_observed_at := observed_at; os_reset_at := ow_reset_at selected;
        os_window_seconds := ow_window_seconds selected;
        os_remaining_percent := Some (f64_of_Z (ow_remaining selected)) |}.
End interpret.

(** ** The table and its owners *)
(** A row of [quota_observations]. The table is the list of its rows in the order of
    their [sequence]. *)
Record Observation := {
  ob_sequence : Z;
  ob_receipt_id : text;
  ob_observed_at : Z;
  ob_account_scope : option text;
  ob_plan_type : text;
  ob_payload : text;
  ob_account_verified : bool
}.

#[export] Instance Observation_eq_dec : EqDecision Observation.
Proof. solve_decision. Defined.

(** [QuotaReceipt] of the recorder: the owner of one acquisition. *)
Record QuotaReceipt := {
  qr_id : text;
  qr_observed_at : Z;
  qr_account_scope : option text;
  qr_plan_type : text;
  qr_payload : text
}.
Definition QuotaReceipt_new (observed_at : Z) (account_scope : option text)
    (plan_type payload : text) : QuotaReceipt := {|
  qr_id := []; qr_observed_at := observed_at; qr_account_scope := account_scope;
  qr_plan_type := plan_type; qr_payload := payload |}.
(** [with_id]: the set of active receipts, and the receipt. *)
Definition with_id (active : gset text) (self : QuotaReceipt) (id : text) :
    gset text * QuotaReceipt :=
  ({[id]} ∪ active ∖ {[qr_id self]},
   {| qr_id := id; qr_observed_at := qr_observed_at self;
      qr_account_scope := qr_account_scope self; qr_plan_type := qr_plan_type self;
      qr_payload := qr_payload self |}).
(** [Drop::drop] *)
Definition drop_receipt (active : gset text) (self : QuotaReceipt) : gset text :=
  active ∖ {[qr_id self]}.

Definition verify_row (verified : bool) (row : Observation) : Observation := {|
  ob_sequence := ob_sequence row; ob_receipt_id := ob_receipt_id row;
  ob_observed_at := ob_observed_at row; ob_account_scope := ob_account_scope row;
  ob_plan_type := ob_plan_type row; ob_payload := ob_payload row;
  ob_account_verified := ob_account_verified row || verified |}.
(** [save_inner]: the upsert of a row; [sequence] is what AUTOINCREMENT allots. *)
Definition save (rows : list Observation) (self : QuotaReceipt) (verified : bool) (sequence : Z) :
    list Observation :=
  let flag := verified && opt_is_some (qr_account_scope self) in
  if existsb (λ row, text_eqb (ob_receipt_id row) (qr_id self)) rows then
    map (λ row, if text_eqb (ob_receipt_id row) (qr_id self) then verify_row flag row else row) rows
  else rows ++ [{|
    ob_sequence := sequence; ob_receipt_id := qr_id self; ob_observed_at := qr_observed_at self;
    ob_account_scope := qr_account_scope self; ob_plan_type := qr_plan_type self;
    ob_payload := qr_payload self; ob_account_verified := flag |}].

(** ** The replay *)
(** [QuotaReceipt] and [OfficialQuotaInput] of the writer. *)
Record AcceptedReceipt := {
  ar_receipt_id : text;
  ar_sequence : Z;
  ar_observed_at : Z;
  ar_reset_at : Z;
  ar_window_seconds : Z;
  ar_remaining_percent : f64
}.
Record OfficialQuotaInput := {
  oq_input_id : text;
  oq_account_scope : text;
  oq_sequence : Z;
  oq_observed_at : Z;
  oq_content_sha256 : text;
  oq_reset_at : option Z;
  oq_window_seconds : option Z;
  oq_reason : option text
}.
Record ReplayBatch := {
  rb_receipts : list AcceptedReceipt;
  rb_official_inputs : list OfficialQuotaInput;
  rb_unresolved : Z;
  rb_latest_input_unresolved : option bool
}.
Definition ReplayBatch_default : ReplayBatch := {|
  rb_receipts := []; rb_official_inputs := []; rb_unresolved := 0;
  rb_latest_input_unresolved := None |}.
Record ReplayCursor := {
  rc_scope : option text;
  rc_sequence : Z;
  rc_verifying : gset text;
  rc_unresolved : gset Z;
  rc_latest : option (Z * bool)
}.
Definition ReplayCursor_default : ReplayCursor := {|
  rc_scope := None; rc_sequence := 0; rc_verifying := ∅; rc_unresolved := ∅; rc_latest := None |}.

Definition settle (self : ReplayCursor) (sequence : Z) (failed : bool) : ReplayCursor := {|
  rc_scope := rc_scope self; rc_sequence := rc_sequence self; rc_verifying := rc_verifying self;
  rc_unresolved := if failed then {[sequence]} ∪ rc_unresolved self
                   else rc_unresolved self ∖ {[sequence]};
  rc_latest := if is_none_or (λ '(latest, _), latest <=? sequence) (rc_latest self)
               then Some (sequence, failed) else rc_latest self |}.
Definition with_verifying (self : ReplayCursor) (sequence : Z) (verifying : gset text) :
    ReplayCursor := {|
  rc_scope := rc_scope self; rc_sequence := sequence; rc_verifying := verifying;
  rc_unresolved := rc_unresolved self; rc_latest := rc_latest self |}.

Section replay.
Context {N : Type} `{JsonNumber N}.
Context (from_str : text → option (Value N)) (sha256 : text → text).

(** The snapshot of a verified row: [None] when it cannot be interpreted. *)
Definition row_snapshot (row : Observation) : option OfficialSnapshot :=
  opt_filter (λ snapshot, opt_is_some (os_remaining_percent snapshot))
    (from_str (ob_payload row) ?> (λ value,
       result_ok (interpret_official_quota value (ob_plan_type row) (ob_observed_at row)))).

Definition row_input (account_scope : text) (row : Observation) : option OfficialQuotaInput :=
  if in_range 1 253402300799 (ob_observed_at row) && (0 <? ob_sequence row) then
    let snapshot := row_snapshot row in
    Some {|
      oq_input_id := ob_receipt_id row; oq_account_scope := account_scope;
      oq_sequence := ob_sequence row; oq_observed_at := ob_observed_at row;
      oq_content_sha256 := sha256 (ob_payload row);
      oq_reset_at := option_map os_reset_at snapshot;
      oq_window_seconds := option_map os_window_seconds snapshot;
      oq_reason := then_some (negb (opt_is_some snapshot)) (lit "interpretation-unavailable") |}
  else None.

Record replay_state := {
  rs_next : ReplayCursor;
  rs_receipts : list AcceptedReceipt;
  rs_inputs : list OfficialQuotaInput
}.
(** One turn of the loop over the rows. [None] is the panic of [expect]. *)
Definition replay_row (account_scope : text) (active applied : gset text) (s : replay_state)
    (row : Observation) : option replay_state :=
  let receipt_id := ob_receipt_id row in
  let sequence := ob_sequence row in
  let next := with_verifying (rs_next s) (Z.max (rc_sequence (rs_next s)) sequence)
                (rc_verifying (rs_next s) ∖ {[receipt_id]}) in
  let continue next := Some {| rs_next := next; rs_receipts := rs_receipts s;
                               rs_inputs := rs_inputs s |} in
  if negb (ob_account_verified row) then
    if negb (bool_decide (receipt_id ∈ active)) then continue (settle next sequence true)
    else continue (with_verifying next (rc_sequence next) ({[receipt_id]} ∪ rc_verifying next))
  else
    let inputs := rs_inputs s ++ opt_list (row_input account_scope row) in
    match row_snapshot row with
    | None => Some {| rs_next := settle next sequence true; rs_receipts := rs_receipts s;
                      rs_inputs := inputs |}
    | Some snapshot =>
        let next := settle next sequence false in
        if bool_decide (receipt_id ∈ applied) then
          Some {| rs_next := next; rs_receipts := rs_receipts s; rs_inputs := inputs |}
        else
          remaining ← os_remaining_percent snapshot;
          Some {| rs_next := next;
                  rs_receipts := rs_receipts s ++ [{|
                    ar_receipt_id := receipt_id; ar_sequence := sequence;
                    ar_observed_at := ob_observed_at row; ar_reset_at := os_reset_at snapshot;
                    ar_window_seconds := os_window_seconds snapshot;
                    ar_remaining_percent := remaining |}];
                  rs_inputs := inputs |}
    end.

(** The rows of the query: those after the cursor, and those it was verifying. *)
Definition wanted (account_scope : text) (cursor : ReplayCursor) (row : Observation) : bool :=
  bool_decide (ob_account_scope row = Some account_scope)
  && ((rc_sequence cursor <? ob_sequence row)
      || bool_decide (ob_receipt_id row ∈ rc_verifying cursor)).

Inductive ReplayError := ScopeChanged.
(** [rows] is [None] when the journal does not exist. An outer [None] is a panic. *)
Definition read_since (rows : option (list Observation)) (active : gset text)
    (account_scope : text) (applied : gset text) (cursor : ReplayCursor) :
    option (result ReplayError (ReplayBatch * ReplayCursor)) :=
  if is_some_and (λ scope, negb (text_eqb scope account_scope)) (rc_scope cursor)
  then Some (Err ScopeChanged)
  else
    match rows with
    | None => Some (Ok (ReplayBatch_default, cursor))
    | Some rows =>
        let start := {|
          rs_next := {| rc_scope := Some account_scope; rc_sequence := rc_sequence cursor;
                        rc_verifying := rc_verifying cursor;
                        rc_unresolved := rc_unresolved cursor; rc_latest := rc_latest cursor |};
          rs_receipts := []; rs_inputs := [] |} in
        s ← try_fold (replay_row account_scope active applied) start
              (List.filter (wanted account_scope cursor) rows);
        let next := rs_next s in
        Some (Ok ({|
          rb_receipts := rs_receipts s; rb_official_inputs := rs_inputs s;
          rb_unresolved := Z.of_nat (size (rc_unresolved next));
          rb_latest_input_unresolved := option_map snd (rc_latest next) |}, next))
    end.
Definition read_incremental (rows : option (list Observation)) (active : gset text)
    (account_scope : text) (cursor : ReplayCursor) :=
  read_since rows active account_scope ∅ cursor.
End replay.

(** ** The journal as a system

    The rows, the live owners, the cursor of the recorder and what the replays have
    delivered since it started. *)
Record System := {
  sy_rows : list Observation;
  sy_active : gset text;
  sy_cursor : ReplayCursor;
  sy_receipts : list AcceptedReceipt;
  sy_inputs : list OfficialQuotaInput
}.
Definition System_start (rows : list Observation) : System := {|
  sy_rows := rows; sy_active := ∅; sy_cursor := ReplayCursor_default; sy_receipts := [];
  sy_inputs := [] |}.

(** A set that holds the sequences of the rows of a list has their number. *)
Lemma size_sequences (u : gset Z) L :
  NoDup (map ob_sequence L) → (∀ q, q ∈ u ↔ ∃ r, r ∈ L ∧ ob_sequence r = q) →
  size u = length L.
Proof.
  intros Hnd Hu. rewrite <-(length_map ob_sequence), <-(size_list_to_set (C:=gset Z)) by done.
  f_equal. apply set_eq. intros q. rewrite Hu, elem_of_list_to_set, list_elem_of_fmap. naive_solver.
Qed.

Section system.
Context {N : Type} `{JsonNumber N}.
Context (from_str : text → option (Value N)) (sha256 : text → text) (account_scope : text).

Inductive step (s : System) : System → Prop :=
  | step_register receipt id :
      qr_id receipt = [] → id ≠ [] → id ∉ sy_active s → id ∉ map ob_receipt_id (sy_rows s) →
      step s {| sy_rows := sy_rows s; sy_active := (with_id (sy_active s) receipt id).1;
                sy_cursor := sy_cursor s; sy_receipts := sy_receipts s;
                sy_inputs := sy_inputs s |}
  | step_save receipt verified sequence :
      qr_id receipt ∈ sy_active s → 0 < sequence →
      Forall (λ row, ob_sequence row < sequence) (sy_rows s) →
      step s {| sy_rows := save (sy_rows s) receipt verified sequence; sy_active := sy_active s;
                sy_cursor := sy_cursor s; sy_receipts := sy_receipts s;
                sy_inputs := sy_inputs s |}
  | step_drop receipt :
      step s {| sy_rows := sy_rows s; sy_active := drop_receipt (sy_active s) receipt;
                sy_cursor := sy_cursor s; sy_receipts := sy_receipts s;
                sy_inputs := sy_inputs s |}
  | step_replay batch next :
      read_incremental from_str sha256 (Some (sy_rows s)) (sy_active s) account_scope (sy_cursor s)
        = Some (Ok (batch, next)) →
      step s {| sy_rows := sy_rows s; sy_active := sy_active s; sy_cursor := next;
                sy_receipts := sy_receipts s ++ rb_receipts batch;
                sy_inputs := sy_inputs s ++ rb_official_inputs batch |}
  | step_restart :
      step s (System_start (sy_rows s)).

(** What a row amounts to. *)
Definition in_scope (row : Observation) : bool :=
  bool_decide (ob_account_scope row = Some account_scope).
Definition failing (row : Observation) : bool :=
  negb (ob_account_verified row && opt_is_some (row_snapshot from_str row)).
Definition settled (active : gset text) (row : Observation) : bool :=
  ob_account_verified row || negb (bool_decide (ob_receipt_id row ∈ active)).
Definition receipt_of (row : Observation) : option AcceptedReceipt :=
  if ob_account_verified row then
    snapshot ← row_snapshot from_str row;
    remaining ← os_remaining_percent snapshot;
    Some {| ar_receipt_id := ob_receipt_id row; ar_sequence := ob_sequence row;
            ar_observed_at := ob_observed_at row; ar_reset_at := os_reset_at snapshot;
            ar_window_seconds := os_window_seconds snapshot; ar_remaining_percent := remaining |}
  else None.
Definition input_of (row : Observation) : option OfficialQuotaInput :=
  if ob_account_verified row then row_input from_str sha256 account_scope row else None.

(** A cursor that stands for the settled rows [K]. *)
Definition represents (K : list Observation) (cursor : ReplayCursor) : Prop :=
  (∀ q, q ∈ rc_unresolved cursor ↔ ∃ r, r ∈ K ∧ ob_sequence r = q ∧ failing r = true)
  ∧ match rc_latest cursor with
    | None => K = []
    | Some (q, b) => (∃ r, r ∈ K ∧ ob_sequence r = q ∧ failing r = b)
                     ∧ ∀ r, r ∈ K → ob_sequence r ≤ q
    end.

Lemma settle_represents K cursor r :
  represents K cursor → (∀ r', r' ∈ K → ob_sequence r' ≠ ob_sequence r) →
  represents (K ++ [r]) (settle cursor (ob_sequence r) (failing r)).
Proof.
  intros [Hu Hl] Hnew.
  assert (∀ x, x ∈ K ++ [r] ↔ x ∈ K ∨ x = r) as Hin
    by (intros x; by rewrite elem_of_app, list_elem_of_singleton).
  split; simpl.
  - intros q. destruct (failing r) eqn:Ef.
    + rewrite elem_of_union, elem_of_singleton, Hu. set_solver.
    + rewrite elem_of_difference, elem_of_singleton, Hu. split.
      * intros [(r' & ? & ? & ?) _]. exists r'. rewrite Hin. tauto.
      * intros (r' & [Hr'| ->]%Hin & <- & ?); [|congruence]. split; [by eauto|by apply Hnew].
  - destruct (rc_latest cursor) as [[q b]|]; simpl.
    + destruct Hl as [(r' & ? & ? & ?) Hmax]. destruct (Z.leb_spec q (ob_sequence r)).
      * split; [exists r; rewrite Hin; tauto|].
        intros x [Hx| ->]%Hin; [|done]. specialize (Hmax x Hx). lia.
      * split; [exists r'; rewrite Hin; tauto|]. intros x [Hx| ->]%Hin; [by apply Hmax|lia].
    + subst K. split; [exists r; rewrite Hin; tauto|]. by intros x [Hx%elem_of_nil| ->]%Hin.
Qed.
Lemma represents_verifying K cursor q v : represents K (with_verifying cursor q v) ↔ represents K cursor.
Proof. done. Qed.
Lemma row_snapshot_remaining row snapshot :
  row_snapshot from_str row = Some snapshot → is_Some (os_remaining_percent snapshot).
Proof.
  unfold row_snapshot. rewrite opt_filter_Some. intros [_ Hs].
  destruct (os_remaining_percent snapshot); [by eexists|done].
Qed.

(** ** One replay *)
Local Abbreviation loop active := (try_fold (replay_row from_str sha256 account_scope active ∅)).
Lemma replay_row_spec active s K r :
  represents K (rs_next s) → (∀ r', r' ∈ K → ob_sequence r' ≠ ob_sequence r) →
  ∃ s', replay_row from_str sha256 account_scope active ∅ s r = Some s'
    ∧ represents (K ++ if settled active r then [r] else []) (rs_next s')
    ∧ rc_scope (rs_next s') = rc_scope (rs_next s)
    ∧ rc_sequence (rs_next s') = Z.max (rc_sequence (rs_next s)) (ob_sequence r)
    ∧ rc_verifying (rs_next s') = rc_verifying (rs_next s) ∖ {[ob_receipt_id r]}
        ∪ (if settled active r then ∅ else {[ob_receipt_id r]})
    ∧ rs_receipts s' = rs_receipts s ++ opt_list (receipt_of r)
    ∧ rs_inputs s' = rs_inputs s ++ opt_list (input_of r).
Proof.
  intros Hrep Hnew. unfold replay_row, settled, receipt_of, input_of. cbv zeta.
  set (next := with_verifying _ _ _).
  assert (represents K next) as Hn by done.
  pose proof (settle_represents K next r Hn Hnew) as Hs. unfold failing in Hs.
  destruct (ob_account_verified r); cbn [negb orb andb] in *.
  - destruct (row_snapshot from_str r) as [snapshot|] eqn:E; cbn [opt_is_some negb] in Hs.
    + rewrite bool_decide_eq_false_2 by apply not_elem_of_empty.
      simpl. destruct (row_snapshot_remaining _ _ E) as [remaining ->]. simpl.
      eexists. split_and!; [done|done|done|done|set_solver|done|done].
    + eexists. split_and!; [done|done|done|done|simpl; set_solver|by rewrite app_nil_r|done].
  - case_bool_decide; cbn [negb].
    + eexists. split_and!; [done|by rewrite app_nil_r|done|done|simpl; set_solver| |];
        simpl; by rewrite app_nil_r.
    + eexists. split_and!; [done|done|done|done|simpl; set_solver| |]; simpl; by rewrite app_nil_r.
Qed.

Lemma replay_rows active L s K :
  represents K (rs_next s) → NoDup (map ob_sequence L) → NoDup (map ob_receipt_id L) →
  (∀ r r', r ∈ L → r' ∈ K → ob_sequence r' ≠ ob_sequence r) →
  ∃ s', loop active s L = Some s'
    ∧ represents (K ++ List.filter (settled active) L) (rs_next s')
    ∧ rc_scope (rs_next s') = rc_scope (rs_next s)
    ∧ rc_sequence (rs_next s') = foldl (λ m r, Z.max m (ob_sequence r)) (rc_sequence (rs_next s)) L
    ∧ (∀ id, id ∈ rc_verifying (rs_next s') ↔
        (id ∈ rc_verifying (rs_next s) ∧ id ∉ map ob_receipt_id L)
        ∨ ∃ r, r ∈ L ∧ ob_receipt_id r = id ∧ settled active r = false)
    ∧ rs_receipts s' = rs_receipts s ++ filter_map receipt_of L
    ∧ rs_inputs s' = rs_inputs s ++ filter_map input_of L.
Proof.
  revert s K. induction L as [|r L IH]; intros s K Hrep Hq Hid Hnew; simpl.
  - exists s. rewrite !app_nil_r. split_and!; try done.
    intros id. split; [intros ?; left; split; [done|apply not_elem_of_nil]|].
    intros [[? _]|(r & Hr & _)]; [done|by apply elem_of_nil in Hr].
  - apply NoDup_cons in Hq as [Hq1 Hq], Hid as [Hid1 Hid].
    destruct (replay_row_spec active s K r) as (s1 & -> & Hrep1 & Hsc & Hseq & Hver & Hrc & Hin);
      [done|intros r' Hr'; apply Hnew; [apply list_elem_of_here|done]|].
    edestruct (IH s1 _ Hrep1 Hq Hid) as (s' & Hl & Hrep' & Hsc' & Hseq' & Hver' & Hrc' & Hin').
    { intros r1 r' Hr1 [Hr'|Hr']%elem_of_app.
      - apply Hnew; [by apply list_elem_of_further|done].
      - destruct (settled active r); [|by apply elem_of_nil in Hr'].
        apply list_elem_of_singleton in Hr' as ->. intros E. apply Hq1. rewrite E.
        by apply list_elem_of_fmap_2. }
    exists s'. split_and!; [done| |congruence|congruence| | |].
    + destruct (settled active r); [by rewrite <-(assoc_L (++)) in Hrep'|by rewrite app_nil_r in Hrep'].
    + intros id. rewrite Hver', Hver. split.
      * intros [[[[Hi Hne]%elem_of_difference|Hi]%elem_of_union Hni]|(r' & ? & ? & ?)].
        -- left. split; [done|]. rewrite not_elem_of_cons. set_solver.
        -- destruct (settled active r) eqn:Es; [set_solver|]. right. exists r. set_solver.
        -- right. exists r'. set_solver.
      * rewrite not_elem_of_cons. setoid_rewrite elem_of_cons.
        intros [(Hi & Hne & Hni)|(r' & [->|Hr'] & <- & Hs)]; [left; set_solver| |right; by eauto].
        left. rewrite Hs. set_solver.
    + rewrite Hrc', Hrc, <-(assoc_L (++)). f_equal. by destruct (receipt_of r).
    + rewrite Hin', Hin, <-(assoc_L (++)). f_equal. by destruct (input_of r).
Qed.

(** ** The invariant *)
(** The rows the cursor has settled. *)
Definition known (rows : list Observation) (cursor : ReplayCursor) (r : Observation) : Prop :=
  r ∈ rows ∧ in_scope r = true ∧ ob_sequence r ≤ rc_sequence cursor
  ∧ ob_receipt_id r ∉ rc_verifying cursor.
Record table_ok (rows : list Observation) : Prop := {
  to_ids : NoDup (map ob_receipt_id rows);
  to_sequences : NoDup (map ob_sequence rows);
  to_positive : Forall (λ r, 0 < ob_sequence r) rows
}.
Record cursor_ok (s : System) (K : list Observation) : Prop := {
  cu_scope : rc_scope (sy_cursor s) = None ∨ rc_scope (sy_cursor s) = Some account_scope;
  cu_bound : rc_sequence (sy_cursor s) = 0
             ∨ ∃ r, r ∈ sy_rows s ∧ ob_sequence r = rc_sequence (sy_cursor s);
  cu_nodup : NoDup K;
  cu_known r : r ∈ K ↔ known (sy_rows s) (sy_cursor s) r;
  cu_settled r : r ∈ K → settled (sy_active s) r = true;
  cu_represents : represents K (sy_cursor s);
  cu_receipts : sy_receipts s ≡ₚ filter_map receipt_of K;
  cu_inputs : sy_inputs s ≡ₚ filter_map input_of K
}.
Record invariant (s : System) : Prop := {
  in_table : table_ok (sy_rows s);
  in_active : [] ∉ sy_active s;
  in_cursor : ∃ K, cursor_ok s K
}.

Lemma foldl_max_spec L m (M := foldl (λ m r, Z.max m (ob_sequence r)) m L) :
  m ≤ M ∧ (∀ r, r ∈ L → ob_sequence r ≤ M) ∧ (M = m ∨ ∃ r, r ∈ L ∧ ob_sequence r = M).
Proof.
  subst M. revert m. induction L as [|r L IH]; intros m; simpl.
  - split_and!; [done|by intros r ?%elem_of_nil|by left].
  - destruct (IH (Z.max m (ob_sequence r))) as (H1 & H2 & H3). split_and!; [lia| |].
    + intros r' [->|Hr']%elem_of_cons; [lia|by apply H2].
    + setoid_rewrite elem_of_cons. destruct H3 as [->|(r' & ? & ?)]; [|right; eauto].
      destruct (Z.max_spec m (ob_sequence r)) as [[_ ->]|[_ ->]]; [right; eauto|by left].
Qed.

(** Only verified rows are delivered, and those are settled. *)
Lemma filter_map_settled {B} (f : Observation → option B) active L :
  (∀ r, ob_account_verified r = false → f r = None) →
  filter_map f (List.filter (settled active) L) = filter_map f L.
Proof.
  intros Hf. induction L as [|r L IH]; simpl; [done|].
  unfold settled at 1. destruct (ob_account_verified r) eqn:E; simpl.
  - by rewrite IH.
  - rewrite (Hf r E). destruct (negb _); simpl; [by rewrite (Hf r E)|done].
Qed.
Lemma receipt_of_unverified r : ob_account_verified r = false → receipt_of r = None.
Proof. unfold receipt_of. by intros ->. Qed.
Lemma input_of_unverified r : ob_account_verified r = false → input_of r = None.
Proof. unfold input_of. by intros ->. Qed.


Lemma read_spec s K :
  table_ok (sy_rows s) → cursor_ok s K →
  ∃ batch next K',
    read_incremental from_str sha256 (Some (sy_rows s)) (sy_active s) account_scope (sy_cursor s)
      = Some (Ok (batch, next))
    ∧ cursor_ok {| sy_rows := sy_rows s; sy_active := sy_active s; sy_cursor := next;
                   sy_receipts := sy_receipts s ++ rb_receipts batch;
                   sy_inputs := sy_inputs s ++ rb_official_inputs batch |} K'
    ∧ (∀ r, r ∈ K' ↔ r ∈ sy_rows s ∧ in_scope r = true ∧ settled (sy_active s) r = true)
    ∧ rb_unresolved batch = Z.of_nat (size (rc_unresolved next))
    ∧ rb_latest_input_unresolved batch = option_map snd (rc_latest next).
Proof.
  intros [Hids Hseqs Hpos] [Hsc Hbound Hnd Hknown Hset Hrep Hrc Hin].
  unfold read_incremental, read_since.
  assert (is_some_and (λ scope, negb (text_eqb scope account_scope)) (rc_scope (sy_cursor s)) = false)
    as -> by (destruct Hsc as [->| ->]; simpl; [done|];
              unfold text_eqb; by rewrite bool_decide_eq_true_2).
  set (L := List.filter (wanted account_scope (sy_cursor s)) (sy_rows s)).
  assert (∀ r, r ∈ L ↔ r ∈ sy_rows s ∧ in_scope r = true
    ∧ (rc_sequence (sy_cursor s) < ob_sequence r ∨ ob_receipt_id r ∈ rc_verifying (sy_cursor s)))
    as HL.
  { intros r. unfold L, wanted, in_scope. rewrite elem_of_filter_bool, andb_true_iff, orb_true_iff.
    by rewrite Z.ltb_lt, !bool_decide_eq_true. }
  edestruct (replay_rows (sy_active s) L {| rs_next := {| rc_scope := Some account_scope;
      rc_sequence := rc_sequence (sy_cursor s); rc_verifying := rc_verifying (sy_cursor s);
      rc_unresolved := rc_unresolved (sy_cursor s); rc_latest := rc_latest (sy_cursor s) |};
      rs_receipts := []; rs_inputs := [] |} K)
    as (s' & -> & Hrep' & Hsc' & Hseq' & Hver' & Hrc' & Hin'); [done|by apply filter_NoDup_map..| |].
  { intros r r' (Hr & Hs & Hw)%HL (Hr' & _ & Hle & Hnv)%Hknown E.
    assert (r' = r) as -> by (by eapply map_inj_on).
    destruct Hw as [?|?]; [lia|done]. }
  cbn [mbind option_bind]. do 2 eexists. exists (K ++ List.filter (settled (sy_active s)) L).
  split; [done|]. simpl in *.
  destruct (foldl_max_spec L (rc_sequence (sy_cursor s))) as (Hge & Hall & Hat).
  rewrite <-Hseq' in Hge, Hall, Hat.
  assert (∀ r, r ∈ K ++ List.filter (settled (sy_active s)) L ↔
    r ∈ sy_rows s ∧ in_scope r = true ∧ settled (sy_active s) r = true) as HK'.
  { intros r. rewrite elem_of_app, elem_of_filter_bool. split.
    - intros [Hr|[(? & ? & _)%HL ?]]; [|done]. pose proof (Hset r Hr). by apply Hknown in Hr as (? & ? & _).
    - intros (Hr & Hs & Hst). destruct (decide (r ∈ K)) as [|HnK]; [by left|right].
      split; [|done]. apply HL. split_and!; [done..|].
      destruct (Z.lt_ge_cases (rc_sequence (sy_cursor s)) (ob_sequence r)); [by left|right].
      destruct (decide (ob_receipt_id r ∈ rc_verifying (sy_cursor s))); [done|].
      exfalso. by apply HnK, Hknown. }
  split_and!; [|done..]. split; simpl.
  - by right.
  - destruct Hat as [->|(r & Hr & <-)]; [done|]. right. exists r. by apply HL in Hr as [? _].
  - apply NoDup_app. split_and!; [done| |].
    + intros r Hr Hr'. apply elem_of_filter_bool in Hr' as [(_ & _ & Hw)%HL _].
      apply Hknown in Hr as (_ & _ & Hle & Hnv). destruct Hw; [lia|done].
    + eapply (NoDup_fmap_1 ob_receipt_id). by apply filter_NoDup_map, filter_NoDup_map.
  - intros r. rewrite HK'. unfold known; simpl. rewrite Hver'. split.
    + intros (Hr & Hs & Hst). split_and!; [done..| |].
      * destruct (decide (r ∈ L)); [by apply Hall|].
        destruct (Z.le_gt_cases (ob_sequence r) (rc_sequence (sy_cursor s))); [lia|].
        exfalso. apply n, HL. split_and!; [done..|]. left. lia.
      * intros [[Hv HnL]|(r' & Hr' & E & Hst')].
        -- apply HnL, list_elem_of_fmap. exists r. split; [done|]. apply HL. tauto.
        -- apply HL in Hr' as [Hr' _]. assert (r' = r) as -> by (by apply (map_inj_on ob_receipt_id (sy_rows s))).
           congruence.
    + intros (Hr & Hs & Hle & Hnv). split_and!; [done..|].
      destruct (settled (sy_active s) r) eqn:Est; [done|]. exfalso. apply Hnv.
      destruct (decide (r ∈ L)) as [|HnL]; [right; by eauto|].
      assert (r ∈ K) as HrK.
      { apply Hknown. split_and!; [done..| |].
        - destruct (Z.le_gt_cases (ob_sequence r) (rc_sequence (sy_cursor s))); [done|].
          exfalso. apply HnL, HL. auto.
        - intros ?. apply HnL, HL. auto. }
      apply Hset in HrK. congruence.
  - intros r Hr. by apply HK' in Hr as (_ & _ & ?).
  - done.
  - rewrite Hrc, Hrc', filter_map_app. f_equiv.
    by rewrite filter_map_settled by apply receipt_of_unverified.
  - rewrite Hin, Hin', filter_map_app. f_equiv.
    by rewrite filter_map_settled by apply input_of_unverified.
Qed.

(** ** Every step keeps the invariant *)
Lemma settled_shrink active active' r :
  (ob_receipt_id r ∈ active' → ob_receipt_id r ∈ active) →
  settled active r = true → settled active' r = true.
Proof.
  unfold settled. rewrite !orb_true_iff, !negb_true_iff, !bool_decide_eq_false. tauto.
Qed.
Lemma cursor_ok_active s K active :
  cursor_ok s K → (∀ r, r ∈ K → ob_receipt_id r ∈ active → ob_receipt_id r ∈ sy_active s) →
  cursor_ok {| sy_rows := sy_rows s; sy_active := active; sy_cursor := sy_cursor s;
               sy_receipts := sy_receipts s; sy_inputs := sy_inputs s |} K.
Proof.
  intros [Hsc Hb Hnd Hk Hs Hr Hrc Hin] Ha. split; try done.
  intros r HrK. eapply settled_shrink; [by apply Ha|by apply Hs].
Qed.

(** Verifying the row of a live receipt changes no settled row. *)
Definition upsert (id : text) (flag : bool) (row : Observation) : Observation :=
  if text_eqb (ob_receipt_id row) id then verify_row flag row else row.
Lemma upsert_fields id flag row :
  ob_receipt_id (upsert id flag row) = ob_receipt_id row
  ∧ ob_sequence (upsert id flag row) = ob_sequence row
  ∧ in_scope (upsert id flag row) = in_scope row.
Proof. unfold upsert. by destruct (text_eqb _ _). Qed.
Lemma upsert_settled id flag active row :
  id ∈ active → settled active row = true → upsert id flag row = row.
Proof.
  unfold upsert, settled, text_eqb. intros Ha Hs.
  destruct (decide (ob_receipt_id row = id)) as [E|E];
    [rewrite bool_decide_eq_true_2 by done|by rewrite bool_decide_eq_false_2].
  rewrite E, (bool_decide_eq_true_2 _ Ha), orb_false_r in Hs.
  destruct row. simpl in *. by subst.
Qed.
Lemma cursor_ok_upsert s K id flag :
  id ∈ sy_active s → cursor_ok s K →
  cursor_ok {| sy_rows := map (upsert id flag) (sy_rows s); sy_active := sy_active s;
               sy_cursor := sy_cursor s; sy_receipts := sy_receipts s;
               sy_inputs := sy_inputs s |} K.
Proof.
  intros Ha [Hsc Hb Hnd Hk Hs Hr Hrc Hin]. split; try done; simpl.
  - destruct Hb as [?|(r & Hr0 & E)]; [by left|right]. exists (upsert id flag r).
    split; [by apply list_elem_of_fmap_2|]. by destruct (upsert_fields id flag r) as (_ & -> & _).
  - intros r. split.
    + intros HrK. pose proof (Hs r HrK) as Hst. apply Hk in HrK as (Hin0 & ?).
      split; [|done]. apply list_elem_of_fmap. exists r. split; [|done].
      symmetry. by eapply upsert_settled.
    + intros (Hr0 & Hsc0 & Hle & Hnv). apply list_elem_of_fmap in Hr0 as (r0 & -> & Hr0).
      destruct (upsert_fields id flag r0) as (E1 & E2 & E3). rewrite E1, E2, E3 in *.
      assert (r0 ∈ K) as HrK by (by apply Hk).
      by rewrite (upsert_settled _ _ (sy_active s)) by (done || by apply Hs).
Qed.
Lemma cursor_ok_append s K row :
  0 < ob_sequence row → Forall (λ r, ob_sequence r < ob_sequence row) (sy_rows s) →
  cursor_ok s K →
  cursor_ok {| sy_rows := sy_rows s ++ [row]; sy_active := sy_active s;
               sy_cursor := sy_cursor s; sy_receipts := sy_receipts s;
               sy_inputs := sy_inputs s |} K.
Proof.
  intros Hpos Hlt [Hsc Hb Hnd Hk Hs Hr Hrc Hin]. rewrite Forall_forall in Hlt.
  assert (rc_sequence (sy_cursor s) < ob_sequence row) as Hnew
    by (destruct Hb as [->|(r & Hr0 & <-)]; [done|by apply Hlt]).
  split; try done; simpl.
  - destruct Hb as [?|(r & ? & ?)]; [by left|right]. exists r. split; [|done].
    apply elem_of_app. by left.
  - intros r. rewrite Hk. unfold known. rewrite elem_of_app, list_elem_of_singleton.
    split; [tauto|]. intros ([?| ->] & ? & ? & ?); [done|lia].
Qed.
Lemma cursor_ok_start rows :
  Forall (λ r, 0 < ob_sequence r) rows → cursor_ok (System_start rows) [].
Proof.
  rewrite Forall_forall. intros Hpos. split; simpl; try done; try (by left); try by constructor.
  - intros r. split; [by intros ?%elem_of_nil|]. intros (Hr & _ & Hle & _).
    specialize (Hpos r Hr). simpl in Hle. lia.
  - by intros r ?%elem_of_nil.
  - split; simpl; [|done]. intros q. split; [set_solver|]. by intros (r & ?%elem_of_nil & _).
Qed.

Lemma table_ok_save rows receipt verified sequence :
  0 < sequence → Forall (λ row, ob_sequence row < sequence) rows →
  table_ok rows → table_ok (save rows receipt verified sequence).
Proof.
  intros Hpos Hlt [Hids Hseqs Hp]. unfold save. fold (upsert (qr_id receipt)
    (verified && opt_is_some (qr_account_scope receipt))).
  destruct (existsb _ rows) eqn:E.
  - split; rewrite ?Forall_map, ?map_map.
    + by erewrite map_ext by (intros; apply upsert_fields).
    + by erewrite map_ext by (intros; apply upsert_fields).
    + eapply Forall_impl; [exact Hp|]. intros r ?. by destruct (upsert_fields (qr_id receipt)
        (verified && opt_is_some (qr_account_scope receipt)) r) as (_ & -> & _).
  - rewrite Forall_forall in Hlt. split; rewrite ?map_app, ?Forall_app.
    + apply NoDup_app. split_and!; [done| |apply NoDup_singleton].
      intros id Hid ->%list_elem_of_singleton. apply list_elem_of_fmap in Hid as (r & Er & Hr).
      apply not_true_iff_false in E. apply E, existsb_exists. exists r.
      split; [by apply list_elem_of_In|]. unfold text_eqb. by apply bool_decide_eq_true.
    + apply NoDup_app. split_and!; [done| |apply NoDup_singleton].
      intros q Hq ->%list_elem_of_singleton. apply list_elem_of_fmap in Hq as (r & Er & Hr).
      specialize (Hlt r Hr). simpl in *. lia.
    + split; [done|]. by constructor.
Qed.

Lemma step_invariant s s' : invariant s → step s s' → invariant s'.
Proof.
  intros [Ht Ha [K HK]] Hs. destruct Hs as [receipt id Hnil Hne Hnew Hids|receipt verified q Hact Hpos Hlt
    |receipt|batch next Hread|].
  - split; simpl; [done|set_solver|]. exists K. apply cursor_ok_active; [done|].
    intros r HrK. apply (cu_known _ _ HK) in HrK as [Hr _]. rewrite Hnil. intros Hin.
    assert (ob_receipt_id r ≠ id) by (intros <-; by apply Hids, list_elem_of_fmap_2). set_solver.
  - split; simpl; [by apply table_ok_save|done|]. exists K. unfold save.
    fold (upsert (qr_id receipt) (verified && opt_is_some (qr_account_scope receipt))).
    destruct (existsb _ _); [by apply cursor_ok_upsert|]. by apply cursor_ok_append.
  - split; simpl; [done|unfold drop_receipt; set_solver|]. exists K.
    apply cursor_ok_active; [done|]. unfold drop_receipt. set_solver.
  - destruct (read_spec s K Ht HK) as (batch' & next' & K' & E & HK' & _).
    rewrite Hread in E. injection E as -> ->. split; [done|done|]. by exists K'.
  - split; simpl; [done|set_solver|]. exists []. apply cursor_ok_start, Ht.
Qed.
Lemma reachable_invariant rows s :
  table_ok rows → rtc step (System_start rows) s → invariant s.
Proof.
  intros Ht Hs. assert (invariant (System_start rows)) as Hi
    by (split; simpl; [done|set_solver|exists []; apply cursor_ok_start, Ht]).
  clear Ht. induction Hs as [|s1 s2 s3 H12 _ IH]; [done|]. apply IH. by eapply step_invariant.
Qed.
End system.

(** C16. The incremental replay is exact: in every reachable state of the journal, with
    owners registering, saving, verifying and leaving between replays and restarts,
    the next replay completes, what has been delivered is then every verified
    receipt (and official input) of the account exactly once, the unresolved count is
    that of the failed rows, and the latest result is that of the newest row
    that is not awaiting verification. *)
Theorem replay_exact {N} `{JsonNumber N} (from_str : text → option (Value N))
    (sha256 : text → text) account_scope rows s :
  table_ok rows → rtc (step from_str sha256 account_scope) (System_start rows) s →
  let mine := List.filter (in_scope account_scope) (sy_rows s) in
  let failed r := settled (sy_active s) r && failing from_str r in
  ∃ batch next,
    read_incremental from_str sha256 (Some (sy_rows s)) (sy_active s) account_scope (sy_cursor s)
      = Some (Ok (batch, next))
    ∧ sy_receipts s ++ rb_receipts batch ≡ₚ filter_map (receipt_of from_str) mine
    ∧ sy_inputs s ++ rb_official_inputs batch
      ≡ₚ filter_map (input_of from_str sha256 account_scope) mine
    ∧ rb_unresolved batch = Z.of_nat (length (List.filter failed mine))
    ∧ match rb_latest_input_unresolved batch with
      | None => List.filter (settled (sy_active s)) mine = []
      | Some result => ∃ r, r ∈ List.filter (settled (sy_active s)) mine
          ∧ failing from_str r = result
          ∧ ∀ r', r' ∈ List.filter (settled (sy_active s)) mine → ob_sequence r' ≤ ob_sequence r
      end.
Proof.
  intros Ht Hs mine failed. destruct (reachable_invariant _ _ _ _ _ Ht Hs) as [Ht' _ [K HK]].
  destruct (read_spec _ _ _ _ _ Ht' HK) as (batch & next & K' & Hread & HK' & Hin & Hu & Hl).
  exists batch, next. split; [done|]. destruct HK' as [_ _ Hnd _ _ [Hun Hlat] Hrc Hinp].
  simpl in *. set (done_rows := List.filter (settled (sy_active s)) mine).
  assert (K' ≡ₚ done_rows) as HP.
  { apply NoDup_Permutation; [done| |].
    - eapply (NoDup_fmap_1 ob_receipt_id). by apply filter_NoDup_map, filter_NoDup_map, Ht'.
    - intros r. rewrite Hin. unfold done_rows, mine. rewrite !elem_of_filter_bool. tauto. }
  split_and!.
  - rewrite Hrc, (filter_map_perm _ _ _ HP). unfold done_rows.
    by rewrite filter_map_settled by apply receipt_of_unverified.
  - rewrite Hinp, (filter_map_perm _ _ _ HP). unfold done_rows.
    by rewrite filter_map_settled by apply input_of_unverified.
  - rewrite Hu. f_equal. unfold failed. rewrite filter_andb. fold done_rows.
    apply size_sequences; [by apply filter_NoDup_map, filter_NoDup_map, filter_NoDup_map, Ht'|].
    intros q. rewrite Hun. setoid_rewrite elem_of_filter_bool. setoid_rewrite HP. naive_solver.
  - rewrite Hl. destruct (rc_latest next) as [[q b]|]; simpl.
    + destruct Hlat as [(r & Hr & <- & Hb) Hmax]. exists r. rewrite <-HP. split_and!; [done..|].
      intros r' Hr'. apply Hmax. by rewrite HP.
    + subst K'. by apply Permutation_nil.
Qed.

(** ** Agreement with the display *)
Section agreement.
Context {N : Type} `{JsonNumber N}.
Implicit Types limits : list (text * Value N).

Definition offered_official limits : list OfficialWindow :=
  opt_list (official_window limits (lit "primary") 0)
  ++ opt_list (official_window limits (lit "secondary") 1).
Definition official_preferred (a b : OfficialWindow) : Prop :=
  ow_window_seconds b < ow_window_seconds a
  ∨ ow_window_seconds a = ow_window_seconds b
    ∧ (ow_reset_at b < ow_reset_at a
       ∨ ow_reset_at a = ow_reset_at b ∧ ow_priority a < ow_priority b).
Lemma official_is_better_iff a b : official_is_better a b = true ↔ official_preferred a b.
Proof.
  unfold official_is_better, official_preferred.
  rewrite !orb_true_iff, !andb_true_iff, !Z.ltb_lt, !Z.eqb_eq. tauto.
Qed.

(** The windows of the two readers of one field. *)
Definition official_of_fixed (c : FixedCandidate) : OfficialWindow := {|
  ow_window_seconds := fc_window_seconds c; ow_reset_at := fc_reset_at c;
  ow_remaining := fc_remaining c; ow_priority := fc_priority c |}.
Definition recordable (c : FixedCandidate) : Prop :=
  fc_reset_at c ≤ MAX_PUBLIC_UNIX_SECONDS ∧ 1 ≤ fc_reset_at c - fc_window_seconds c.

Lemma i32_percent z : in_range 0 100 z = true → i32_try_from z = Some z.
Proof.
  rewrite in_range_true. intros ?. unfold i32_try_from.
  rewrite (proj2 (in_range_true _ _ _)); [done|]. unfold i32_min, i32_max. lia.
Qed.
Lemma used_percent (o : option Z) :
  opt_filter (in_range 0 100) (o ?> i32_try_from) = opt_filter (in_range 0 100) o.
Proof.
  destruct o as [z|]; [|done]. simpl. destruct (in_range 0 100 z) eqn:E.
  - by rewrite (i32_percent _ E); simpl; rewrite E.
  - unfold i32_try_from. destruct (in_range i32_min i32_max z); simpl; [by rewrite E|done].
Qed.
Lemma official_window_of_fixed limits key p c :
  valid_fixed limits key p = Some c → recordable c →
  official_window limits key p = Some (official_of_fixed c).
Proof.
  unfold valid_fixed, official_window, recordable. intros Hc [Hmax Horigin].
  destruct (get key limits ?> as_object) as [w|]; simpl in *; [|done].
  rewrite used_percent in Hc.
  destruct (opt_filter (in_range 0 100) _) as [u|]; simpl in *; [|done].
  destruct (opt_filter (λ v, 1 <=? v) _) as [r|] eqn:Er; simpl in *; [|done].
  destruct (opt_filter (in_range 1 _) _) as [d|] eqn:Ed; simpl in *; [|done].
  destruct (i64_checked_mul d 60) as [s|] eqn:Es; simpl in *; [|done]. injection Hc as <-.
  simpl in *. apply opt_filter_Some in Er as [-> Er], Ed as [-> Ed]. simpl.
  apply in_range_true in Ed. rewrite (proj2 (in_range_true _ _ r)) by lia. simpl.
  assert ((0 <? d) = true) as -> by lia. simpl. rewrite Es. simpl.
  unfold i64_checked_mul in Es. destruct (in_range _ _ (d * 60)); [|done]. injection Es as <-.
  unfold i64_checked_sub, MAX_WINDOW_DURATION_MINS, MAX_PUBLIC_UNIX_SECONDS in *.
  rewrite (proj2 (in_range_true _ _ (r - d * 60))) by (unfold i64_min, i64_max; lia). simpl.
  by rewrite (proj2 (in_range_true _ _ _)) by lia.
Qed.
Lemma fixed_of_official_window limits key p w :
  official_window limits key p = Some w →
  ow_window_seconds w ≤ 60 * MAX_WINDOW_DURATION_MINS →
  ∃ c, valid_fixed limits key p = Some c ∧ w = official_of_fixed c.
Proof.
  unfold valid_fixed, official_window. intros Hw Hle.
  destruct (get key limits ?> as_object) as [o|]; simpl in *; [|done].
  rewrite used_percent. destruct (opt_filter (in_range 0 100) _) as [u|]; simpl in *; [|done].
  destruct (opt_filter (in_range 1 _) _) as [r|] eqn:Er; simpl in *; [|done].
  destruct (opt_filter (λ v, 0 <? v) _) as [d|] eqn:Ed; simpl in *; [|done].
  destruct (i64_checked_mul d 60) as [s|] eqn:Es; simpl in *; [|done].
  destruct (is_none_or _ _); [done|]. injection Hw as <-. simpl in *.
  apply opt_filter_Some in Er as [-> Er], Ed as [-> Ed]. apply in_range_true in Er.
  unfold i64_checked_mul in Es. destruct (in_range _ _ (d * 60)) eqn:E; [|done]. injection Es as <-.
  simpl. assert ((1 <=? r) = true) as -> by lia. simpl.
  rewrite (proj2 (in_range_true _ _ d)) by lia. simpl. unfold i64_checked_mul. rewrite E.
  by eexists.
Qed.
Lemma select_official_spec limits :
  match select_official limits with
  | Some w => w ∈ offered_official limits
              ∧ ∀ w', w' ∈ offered_official limits → w' = w ∨ official_preferred w w'
  | None => offered_official limits = []
  end.
Proof.
  unfold select_official, offered_official. simpl.
  assert (∀ key p w, official_window limits key p = Some w → ow_priority w = p) as Hp.
  { intros key p w Hw. unfold official_window, mbind, option_bind in Hw.
    repeat case_match; by simplify_eq/=. }
  destruct (official_window limits (lit "primary") 0) as [p|] eqn:Ep,
    (official_window limits (lit "secondary") 1) as [s|] eqn:Es; simpl; try set_solver.
  apply Hp in Ep, Es. destruct (official_is_better s p) eqn:E.
  - apply official_is_better_iff in E. split; [set_solver|]. intros c. set_unfold. naive_solver.
  - split; [set_solver|]. intros c. set_unfold. intros [->|[->|[]]]; [by left|right].
    assert (¬ official_preferred s p) as Hn by (by rewrite <-official_is_better_iff, E).
    unfold official_preferred in *. lia.
Qed.

(** Two readings of the plan field agree. *)
Lemma quota_family_agrees limits :
  plan_family_from_wire (get (lit "planType") limits ?> as_str) = canonical_plan_family limits.
Proof.
  unfold plan_family_from_wire, plan_type_from_wire, canonical_plan_family.
  destruct (get (lit "planType") limits) as [v|]; [|done]. by destruct v.
Qed.
(** The recorder selects the window the display selects. *)
Lemma select_official_fixed limits c :
  c ∈ offered limits → (∀ c', c' ∈ offered limits → c' = c ∨ preferred c c') → recordable c →
  (∀ w, w ∈ offered_official limits → ow_window_seconds w ≤ 60 * MAX_WINDOW_DURATION_MINS) →
  select_official limits = Some (official_of_fixed c).
Proof.
  intros Hc Hbest Hrec Hle.
  assert (official_of_fixed c ∈ offered_official limits) as Hin.
  { revert Hc. unfold offered, offered_official. rewrite !elem_of_app.
    intros [Hc|Hc]; [left|right]; destruct (valid_fixed _ _ _) as [c'|] eqn:E in Hc;
      simpl in Hc; set_unfold in Hc; try tauto; destruct Hc as [->|[]];
      rewrite (official_window_of_fixed _ _ _ _ E Hrec); set_solver. }
  assert (∀ w, w ∈ offered_official limits → ∃ c', c' ∈ offered limits ∧ w = official_of_fixed c')
    as Hback.
  { intros w Hw. pose proof (Hle w Hw) as Hlew. revert Hw. unfold offered, offered_official.
    setoid_rewrite elem_of_app.
    intros [Hw|Hw]; destruct (official_window _ _ _) as [w'|] eqn:E in Hw;
      simpl in Hw; set_unfold in Hw; try tauto; destruct Hw as [->|[]];
      destruct (fixed_of_official_window _ _ _ _ E Hlew) as (c' & -> & ->); set_solver. }
  pose proof (select_official_spec limits) as Hs. destruct (select_official limits) as [w|].
  - destruct Hs as [Hw Hsel]. f_equal. destruct (Hback w Hw) as (c' & Hc' & ->).
    destruct (Hbest c' Hc') as [->|Hp]; [done|]. destruct (Hsel _ Hin) as [->|Hp']; [done|].
    unfold preferred, official_preferred, official_of_fixed in *. simpl in *. lia.
  - rewrite Hs in Hin. by apply elem_of_nil in Hin.
Qed.
End agreement.

(** The recorder and the display agree: when the display shows a fixed window for a
    plan, and that window starts and ends at a recordable time and no window is
    longer than the display's bound, the recorder interprets the same answer as the
    same window with the same remaining percentage. *)
Theorem recorder_agrees_with_display {N} `{JsonNumber N} (value : Value N) plan observed_at q used
    canonical :
  decode_quota_for_plan value (Some plan) = Some (Ok (Some q)) →
  qs_fixed_used_percent q = Some used →
  canonical_of value = Some canonical →
  1 ≤ observed_at ≤ MAX_PUBLIC_UNIX_SECONDS →
  qs_reset_at q ≤ MAX_PUBLIC_UNIX_SECONDS → 1 ≤ qs_reset_at q - qs_window_seconds q →
  (∀ w, w ∈ offered_official canonical →
    ow_window_seconds w ≤ 60 * MAX_WINDOW_DURATION_MINS) →
  interpret_official_quota value plan observed_at = Ok {|
    os_observed_at := observed_at; os_reset_at := qs_reset_at q;
    os_window_seconds := qs_window_seconds q;
    os_remaining_percent := Some (f64_of_Z (100 - used)) |}.
Proof.
  intros Hq Hused Hcan Hobs Hmax Horigin Hle. unfold decode_quota_for_plan in Hq.
  unfold interpret_official_quota. rewrite (proj2 (in_range_true _ _ _)) by done. cbn [negb].
  destruct (validate_rate_limits_response value) as [[]|]; [|done]. cbn [map_err mbind result_bind] in *.
  change (plan_family_from_wire (Some plan)) with (option_map family (PlanType_parse plan)).
  destruct (PlanType_parse plan) as [p|]; [|done]. cbn [ok_or option_map mbind result_bind] in *.
  destruct (decode_quota_cases value (Some (family p))) as (r & Hr & Hspec).
  rewrite Hq in Hr. injection Hr as <-. destruct Hspec as (_ & c' & Hc' & Hmis & Hof).
  rewrite Hcan in Hc'. injection Hc' as <-.
  assert (as_object value ?> get (lit "rateLimits") ?> as_object = Some canonical) as ->.
  { revert Hcan. unfold canonical_of, value_get. by destruct (as_object value). }
  cbn [ok_or mbind result_bind]. rewrite quota_family_agrees.
  assert (is_some_and (λ f, is_known f && is_known (family p) && negb (bool_decide (f = family p)))
    (canonical_plan_family canonical) = false) as ->.
  { revert Hmis. unfold plans_mismatch. destruct (canonical_plan_family canonical) as [f|]; [|done].
    simpl. rewrite (andb_comm (is_known f)). intros <-. f_equal. f_equal.
    apply bool_decide_ext. split; by intros ->. }
  inversion Hof as [|c name _ Hc Hbest _ E| |]; subst; try done. simpl in *. injection Hused as <-.
  rewrite (select_official_fixed canonical c) by done. simpl. 
  destruct (offered_bounds canonical c Hc) as (_ & -> & _). done.
Qed.

(** ** A concrete journal *)
#[local] Existing Instance integer_numbers.
Lemma recorder_agrees_with_display_witness :
  interpret_official_quota (example_answer []) (lit "pro") 1791763418 = Ok {|
    os_observed_at := 1791763418; os_reset_at := 1800604800; os_window_seconds := 604800;
    os_remaining_percent := Some (f64_of_Z 99) |}.
Proof.
  eapply (recorder_agrees_with_display (example_answer []) (lit "pro") 1791763418 {|
    qs_fixed_used_percent := Some 1; qs_remaining_percent := Some 99;
    qs_reset_at := 1800604800; qs_window_seconds := 604800; qs_limit_name := lit "Codex";
    qs_monthly := false; qs_unlimited := false |} 1);
    [vm_compute; reflexivity|reflexivity|vm_compute; reflexivity
    |vm_compute; split; discriminate|vm_compute; discriminate|vm_compute; discriminate|].
  apply Forall_forall. repeat constructor; vm_compute; discriminate.
Defined.

Definition example_from_str (payload : text) : option (Value Z) :=
  if text_eqb payload (lit "{}") then Some (example_answer []) else None.
Definition example_receipt (id payload : text) : QuotaReceipt := {|
  qr_id := id; qr_observed_at := 1791763418; qr_account_scope := Some (lit "account");
  qr_plan_type := lit "pro"; qr_payload := payload |}.
(** One receipt is saved, replayed while it awaits verification, and verified; then
    another, which cannot be interpreted, is saved and verified. *)
Definition example_rows : list Observation :=
  save (save (save [] (example_receipt (lit "a") (lit "{}")) false 1)
          (example_receipt (lit "a") (lit "{}")) true 2)
    (example_receipt (lit "b") (lit "?")) true 3.
Definition example_pending : list Observation :=
  save [] (example_receipt (lit "a") (lit "{}")) false 1.
Definition live_a : gset text := (with_id ∅ (QuotaReceipt_new 0 None [] []) (lit "a")).1.
Definition live_ab : gset text := (with_id live_a (QuotaReceipt_new 0 None [] []) (lit "b")).1.
Definition example_read : ReplayBatch * ReplayCursor :=
  match read_incremental example_from_str id (Some example_pending) live_a (lit "account")
          ReplayCursor_default with
  | Some (Ok read) => read
  | _ => (ReplayBatch_default, ReplayCursor_default)
  end.
Definition example_system : System := {|
  sy_rows := example_rows; sy_active := live_ab; sy_cursor := example_read.2;
  sy_receipts := [] ++ rb_receipts example_read.1;
  sy_inputs := [] ++ rb_official_inputs example_read.1 |}.
Lemma example_run : rtc (step example_from_str id (lit "account")) (System_start []) example_system.
Proof.
  eapply rtc_l; [apply (step_register _ _ _ _ (QuotaReceipt_new 0 None [] []) (lit "a"));
    [done|done|set_solver|apply not_elem_of_nil]|].
  eapply rtc_l; [apply (step_save _ _ _ _ (example_receipt (lit "a") (lit "{}")) false 1);
    [by apply (bool_decide_unpack _); vm_compute|done|constructor]|].
  eapply rtc_l; [apply (step_replay _ _ _ _ example_read.1 example_read.2);
    vm_compute; reflexivity|].
  eapply rtc_l; [apply (step_save _ _ _ _ (example_receipt (lit "a") (lit "{}")) true 2);
    [by apply (bool_decide_unpack _); vm_compute|done|by repeat constructor]|].
  eapply rtc_l; [apply (step_register _ _ _ _ (QuotaReceipt_new 0 None [] []) (lit "b"));
    [done|done|by apply (bool_decide_unpack _); vm_compute|by apply (bool_decide_unpack _); vm_compute]|].
  eapply rtc_l; [apply (step_save _ _ _ _ (example_receipt (lit "b") (lit "?")) true 3);
    [by apply (bool_decide_unpack _); vm_compute|done|by repeat constructor]|].
  apply rtc_refl.
Qed.
Lemma replay_exact_witness :
  ∃ batch next,
    read_incremental example_from_str id (Some example_rows) live_ab (lit "account") example_read.2
      = Some (Ok (batch, next))
    ∧ [] ++ rb_receipts batch
      ≡ₚ filter_map (receipt_of example_from_str) (List.filter (in_scope (lit "account")) example_rows).
Proof.
  destruct (replay_exact example_from_str id (lit "account") [] example_system)
    as (batch & next & Hread & Hreceipts & _); [by repeat constructor|apply example_run|].
  exists batch, next. split; [exact Hread|exact Hreceipts].
Defined.
