(* ===== verification/UsageLedger.v ===== *)
(** * The usage ledger: recorded facts and their prefix sums

    Models [crates/codex-info-db-writer/src/recorded_usage.rs]: the facts of admitted
    events, the eligibility of ambiguous ones, and the incremental maintenance of
    the prefix sums per model. The three tables are finite maps; a statement is an
    operation on them, and a transaction that fails keeps nothing. A prefix is stored
    as the value its JSON text encodes. The digest and the JSON text of compound
    values are parameters, and so are the two checks that read other tables. *)

From S2P Require Import Prelude Text Contract TokenFacts RecordedUsage SourceAdmission EventAdmission.

Inductive UsageStoreError := InvalidImport (message : text) | Sqlite.
Definition invalid (message : string) : UsageStoreError := InvalidImport (lit message).

(** A row of [recorded_usage_facts], without its key [fact_id]. *)
Record UsageFact := {
  uf_source_key : text;
  uf_timestamp : Z;
  uf_model : text;
  uf_tokens : TokenFacts;
  uf_evidence_sha256 : text;
  uf_source_identity : text;
  uf_ambiguity_key : option text;
  uf_eligible : bool
}.
(** The tables. The state row holds the last five fields. *)
Record Ledger := {
  lg_facts : gmap text UsageFact;
  lg_prefixes : gmap (text * Z) RecordedTokenPrefix;
  lg_initialized : bool;
  lg_fact_revision : Z;
  lg_models : list text;
  lg_coverage : RecordingCoverage;
  lg_dirty : gmap text Z
}.
(** The tables [SCHEMA] creates. *)
Definition Ledger_new : Ledger := {|
  lg_facts := ∅; lg_prefixes := ∅; lg_initialized := false; lg_fact_revision := 0;
  lg_models := []; lg_coverage := Unknown; lg_dirty := ∅ |}.
Definition with_facts (self : Ledger) (facts : gmap text UsageFact) : Ledger := {|
  lg_facts := facts; lg_prefixes := lg_prefixes self; lg_initialized := lg_initialized self;
  lg_fact_revision := lg_fact_revision self; lg_models := lg_models self;
  lg_coverage := lg_coverage self; lg_dirty := lg_dirty self |}.
Definition with_prefixes (self : Ledger) (prefixes : gmap (text * Z) RecordedTokenPrefix) :
    Ledger := {|
  lg_facts := lg_facts self; lg_prefixes := prefixes; lg_initialized := lg_initialized self;
  lg_fact_revision := lg_fact_revision self; lg_models := lg_models self;
  lg_coverage := lg_coverage self; lg_dirty := lg_dirty self |}.
Definition with_evidence (self : UsageFact) (evidence : text) : UsageFact := {|
  uf_source_key := uf_source_key self; uf_timestamp := uf_timestamp self;
  uf_model := uf_model self; uf_tokens := uf_tokens self; uf_evidence_sha256 := evidence;
  uf_source_identity := uf_source_identity self; uf_ambiguity_key := uf_ambiguity_key self;
  uf_eligible := uf_eligible self |}.
Definition with_eligible (eligible : bool) (self : UsageFact) : UsageFact := {|
  uf_source_key := uf_source_key self; uf_timestamp := uf_timestamp self;
  uf_model := uf_model self; uf_tokens := uf_tokens self;
  uf_evidence_sha256 := uf_evidence_sha256 self;
  uf_source_identity := uf_source_identity self; uf_ambiguity_key := uf_ambiguity_key self;
  uf_eligible := eligible |}.

Definition fact_id_leb (a b : text * UsageFact) : bool := text_leb a.1 b.1.
(** [ORDER BY timestamp, fact_id] *)
Definition time_leb (a b : text * UsageFact) : bool :=
  (uf_timestamp a.2 <? uf_timestamp b.2)
  || ((uf_timestamp a.2 =? uf_timestamp b.2) && text_leb a.1 b.1).

(** ** Changes and their dirty heads *)
Definition dirty (self : Ledger) (model : text) (at_ : Z) : result UsageStoreError Ledger :=
  revision ← ok_or (u64_checked_add (lg_fact_revision self) 1)
               (invalid "recorded fact revision overflow");
  Ok {| lg_facts := lg_facts self; lg_prefixes := lg_prefixes self;
        lg_initialized := lg_initialized self; lg_fact_revision := revision;
        lg_models := lg_models self; lg_coverage := lg_coverage self;
        lg_dirty := <[model := match lg_dirty self !! model with
                               | Some v => Z.min v at_
                               | None => at_
                               end]> (lg_dirty self) |}.

(** The rows of an ambiguity key, by [fact_id]. *)
Definition ambiguous (facts : gmap text UsageFact) (key : text) : list (text * UsageFact) :=
  sort_by fact_id_leb
    (List.filter (λ row, bool_decide (uf_ambiguity_key row.2 = Some key)) (map_to_list facts)).
Definition reconcile_row (eligible : bool) (self : Ledger) (row : text * UsageFact) :
    result UsageStoreError Ledger :=
  if Bool.eqb eligible (uf_eligible row.2) then Ok self
  else dirty (with_facts self (alter (with_eligible eligible) row.1 (lg_facts self)))
         (uf_model row.2) (uf_timestamp row.2).
Definition reconcile_ambiguity (self : Ledger) (key : text) : result UsageStoreError Ledger :=
  let values := ambiguous (lg_facts self) key in
  let distinct := size (list_to_set (map (λ row, uf_source_identity row.2) values) : gset text) in
  fold_result (reconcile_row (distinct <=? 1)%nat) self values.

(** The row with a given [source_key], which is unique. *)
Definition row_of_source (facts : gmap text UsageFact) (key : text) : option (text * UsageFact) :=
  List.find (λ row, text_eqb (uf_source_key row.2) key) (map_to_list facts).

(** [INSERT INTO recorded_usage_facts]: the keys are unique and the time positive. *)
Definition insert_fact (self : Ledger) (fact_id : text) (fact : UsageFact) :
    result UsageStoreError Ledger :=
  if opt_is_some (lg_facts self !! fact_id)
     || opt_is_some (row_of_source (lg_facts self) (uf_source_key fact))
     || negb (0 <? uf_timestamp fact)
  then Err Sqlite
  else Ok (with_facts self (<[fact_id := fact]> (lg_facts self))).

(** Values whose JSON text is hashed. *)
Record AmbiguityMarker := {
  am_root_identity : text;
  am_metadata : SessionMetadata;
  am_model : text;
  am_timestamp : Z;
  am_before_timestamp : Z;
  am_before : TokenFacts;
  am_after : TokenFacts
}.
Record ResponseEvidenceValue := {
  rv_model : text;
  rv_timestamp : Z;
  rv_tokens : TokenFacts;
  rv_ids : ResponseIds;
  rv_usage : ResponseUsage;
  rv_session_scope_qualified : bool
}.
Record CounterEvidenceValue := {
  cv_admission : EventAdmission;
  cv_timestamp : Z;
  cv_model : text;
  cv_tokens : TokenFacts
}.

Section ledger.
Context (key : ResponseIds → text).
Context (encode_strings : list text → text) (encode_marker : AmbiguityMarker → text)
  (encode_response : ResponseEvidenceValue → text) (encode_counter : CounterEvidenceValue → text)
  (hash : text → text).
Context (is_retired : SessionEventSource → result UsageStoreError bool)
  (validate_storage_partition_identity : StoragePartitionIdentity → result UsageStoreError ()).

Definition source_key (source : SessionEventSource) : text :=
  encode_strings [
    es_root_identity source; es_relative_path source; to_dec (es_file_device source);
    to_dec (es_file_inode source); hex_nibbles 32 (es_prefix_generation source);
    to_dec (es_range_start source); to_dec (es_range_end source); es_record_sha256 source;
    to_dec (es_event_index source)].

Definition remove (self : Ledger) (source : SessionEventSource) : result UsageStoreError Ledger :=
  match row_of_source (lg_facts self) (source_key source) with
  | None => Ok self
  | Some (fact_id, fact) =>
      self ← dirty (with_facts self (delete fact_id (lg_facts self)))
               (uf_model fact) (uf_timestamp fact);
      match uf_ambiguity_key fact with
      | Some key => reconcile_ambiguity self key
      | None => Ok self
      end
  end.

Definition exact_model_of (event : LosslessSessionEvent) (admission : EventAdmission) : text :=
  match ea_numeric admission with
  | LegacyFamilyCounter _ exact_model => exact_model
  | ResponseEvidence _ (Some exact_model) => exact_model
  | _ => le_model event
  end.
Definition without_period (self : EventAdmission) : EventAdmission := {|
  ea_version := ea_version self; ea_source_binding := ea_source_binding self;
  ea_verified_prefix_end := ea_verified_prefix_end self; ea_ownership := ea_ownership self;
  ea_numeric := ea_numeric self; ea_period := None |}.

(** The identity of a fact, and the key of the facts it may repeat. *)
Definition fact_identity (event : LosslessSessionEvent) (admission : EventAdmission)
    (model : text) : text * option text :=
  match ea_numeric admission with
  | ResponseEvidence candidate _ => (lit "r:" ++ pr_key candidate, None)
  | LegacyCounter proof | LegacyFamilyCounter proof _ =>
      (lit "c:" ++ hash (source_key (le_source event)),
       Some (hash (encode_marker {|
         am_root_identity := es_root_identity (le_source event);
         am_metadata := ab_metadata (ea_source_binding admission);
         am_model := model; am_timestamp := le_timestamp event;
         am_before_timestamp := rp_timestamp (cw_pointer (lc_before proof));
         am_before := CounterWitness_facts (lc_before proof);
         am_after := CounterWitness_facts (lc_after proof) |})))
  end.
Definition fact_evidence (event : LosslessSessionEvent) (admission : EventAdmission)
    (model : text) : text :=
  match ea_numeric admission with
  | ResponseEvidence candidate _ =>
      hash (encode_response {|
        rv_model := model; rv_timestamp := le_timestamp event; rv_tokens := le_tokens event;
        rv_ids := rr_ids (pr_record candidate); rv_usage := rr_usage (pr_record candidate);
        rv_session_scope_qualified := pr_session_scope_qualified candidate |})
  | _ =>
      hash (encode_counter {|
        cv_admission := without_period admission; cv_timestamp := le_timestamp event;
        cv_model := le_model event; cv_tokens := le_tokens event |})
  end.
Definition fact_of (event : LosslessSessionEvent) (admission : EventAdmission) (model : text) :
    UsageFact :=
  let source := le_source event in {|
  uf_source_key := source_key source; uf_timestamp := le_timestamp event; uf_model := model;
  uf_tokens := le_tokens event; uf_evidence_sha256 := fact_evidence event admission model;
  uf_source_identity := encode_strings [
    es_root_identity source; es_relative_path source; to_dec (es_file_device source);
    to_dec (es_file_inode source); hex_nibbles 32 (es_prefix_generation source)];
  uf_ambiguity_key := (fact_identity event admission model).2; uf_eligible := true |}.

(** The comparison with the fact stored under the same identity. *)
Definition observe_existing (self : Ledger) (fact_id : text) (existing fact : UsageFact) :
    result UsageStoreError Ledger :=
  if negb (text_eqb (uf_model existing) (uf_model fact))
     || negb (uf_timestamp existing =? uf_timestamp fact)
     || negb (bool_decide (uf_tokens existing = uf_tokens fact))
  then Err (invalid "recorded fact identity has conflicting immutable values")
  else if starts_with fact_id (lit "r:")
          && negb (text_eqb (uf_evidence_sha256 existing) (uf_evidence_sha256 fact))
  then Err (invalid "recorded response has conflicting six-component identity")
  else if negb (text_eqb (uf_source_key existing) (uf_source_key fact)) then
    if negb (starts_with fact_id (lit "r:")) then Err (invalid "recorded counter source changed")
    else Ok self
  else if negb (text_eqb (uf_evidence_sha256 existing) (uf_evidence_sha256 fact)) then
    Ok (with_facts self
          (alter (λ f, with_evidence f (uf_evidence_sha256 fact)) fact_id (lg_facts self)))
  else Ok self.

Definition observe (self : Ledger) (event : LosslessSessionEvent)
    (admission : option EventAdmission) : result UsageStoreError Ledger :=
  retired ← is_retired (le_source event);
  if (retired : bool) then remove self (le_source event)
  else
    match admission with
    | None => Ok self
    | Some admission =>
        if negb (valid_for key admission event (le_period event))
        then Err (invalid "recorded fact has invalid source qualification")
        else
          let model := exact_model_of event admission in
          if text_eqb model (lit "UNATTRIBUTED") then Ok self
          else
            _ ← validate_storage_partition_identity (ab_partition (ea_source_binding admission));
            let '(fact_id, ambiguity) := fact_identity event admission model in
            let fact := fact_of event admission model in
            match lg_facts self !! fact_id with
            | Some existing => observe_existing self fact_id existing fact
            | None =>
                self ← insert_fact self fact_id fact;
                self ← dirty self model (le_timestamp event);
                match ambiguity with
                | Some key => reconcile_ambiguity self key
                | None => Ok self
                end
            end
    end.

(** ** The prefix sums *)
(** The last stored prefix of a model before a time. *)
Definition last_prefix (prefixes : gmap (text * Z) RecordedTokenPrefix) (model : text) (since : Z) :
    option RecordedTokenPrefix :=
  fold_left (λ best '((m, t), p),
    if text_eqb m model && (t <? since) then
      match best with
      | Some (t', _) => if t' <? t then Some (t, p) else best
      | None => Some (t, p)
      end
    else best) (map_to_list prefixes) None ?> (λ '(_, p), Some p).
(** The eligible rows of a model from a time on, in the order of the sums. *)
Definition eligible_rows (facts : gmap text UsageFact) (model : text) (since : Z) :
    list (text * UsageFact) :=
  sort_by time_leb
    (List.filter (λ row, text_eqb (uf_model row.2) model && (since <=? uf_timestamp row.2)
                         && uf_eligible row.2) (map_to_list facts)).
Definition add_row (model : text)
    (s : RecordedTokenPrefix * gmap (text * Z) RecordedTokenPrefix) (row : text * UsageFact) :
    result UsageStoreError (RecordedTokenPrefix * gmap (text * Z) RecordedTokenPrefix) :=
  prefix ← map_err (λ _, invalid "recorded prefix arithmetic failed")
             (prefix_add s.1 (uf_tokens row.2));
  Ok (prefix, <[(model, uf_timestamp row.2) := prefix]> s.2).
Definition finish_model (self : Ledger) (change : text * Z) : result UsageStoreError Ledger :=
  let '(model, since) := change in
  let prefix := default RecordedTokenPrefix_default (last_prefix (lg_prefixes self) model since) in
  _ ← map_err (λ _, invalid "invalid recorded prefix") (prefix_validate prefix);
  let rows := eligible_rows (lg_facts self) model since in
  let kept := filter (λ row, ¬ (row.1.1 = model ∧ since ≤ row.1.2)) (lg_prefixes self) in
  s ← fold_result (add_row model) (prefix, kept) rows;
  Ok (with_prefixes self s.2).

(** [SELECT DISTINCT model ... WHERE eligible=1 ORDER BY model] *)
Definition eligible_models (facts : gmap text UsageFact) : list text :=
  sort_by text_leb (elements (list_to_set
    (map (λ row, uf_model row.2) (List.filter (λ row, uf_eligible row.2) (map_to_list facts)))
    : gset text)).

(** [read_canonical_projection] reads the events of another table: a parameter. *)
Definition finish (self : Ledger) (qualified : list (LosslessSessionEvent * option EventAdmission)) :
    result UsageStoreError Ledger :=
  self ← (if lg_initialized self then Ok self
          else
            self ← fold_result (λ s '(event, admission), observe s event admission) self qualified;
            Ok {| lg_facts := lg_facts self; lg_prefixes := lg_prefixes self;
                  lg_initialized := true; lg_fact_revision := lg_fact_revision self;
                  lg_models := lg_models self; lg_coverage := lg_coverage self;
                  lg_dirty := lg_dirty self |});
  let changes := sort_by (λ a b, text_leb a.1 b.1) (map_to_list (lg_dirty self)) in
  self ← fold_result finish_model self changes;
  let models := eligible_models (lg_facts self) in
  Ok {| lg_facts := lg_facts self; lg_prefixes := lg_prefixes self;
        lg_initialized := lg_initialized self; lg_fact_revision := lg_fact_revision self;
        lg_models := models;
        lg_coverage := match models with [] => Unknown | _ => Partial end;
        lg_dirty := ∅ |}.
End ledger.

(** ** What the tables should hold *)
(** An eligible fact as the sums see it: its identity, time and tokens. *)
Abbreviation entry := (text * Z * TokenFacts)%type.
Definition entry_of (row : text * UsageFact) : entry :=
  (row.1, uf_timestamp row.2, uf_tokens row.2).
Definition entry_leb (a b : entry) : bool :=
  (a.1.2 <? b.1.2) || ((a.1.2 =? b.1.2) && text_leb a.1.1 b.1.1).
Definition entries (facts : gmap text UsageFact) (model : text) : list entry :=
  sort_by entry_leb (map entry_of
    (List.filter (λ row, text_eqb (uf_model row.2) model && uf_eligible row.2) (map_to_list facts))).
(** The sum of entries, and the entries up to a time. *)
Definition sum_from (p : RecordedTokenPrefix) (es : list entry) :
    result Contract.ContractError RecordedTokenPrefix :=
  fold_result (λ p e, prefix_add p e.2) p es.
Definition sum_of := sum_from RecordedTokenPrefix_default.
Definition until (t : Z) (es : list entry) : list entry := List.filter (λ e, e.1.2 <=? t) es.
(** The prefix a model should have at a time. *)
Definition view (facts : gmap text UsageFact) (model : text) (t : Z) : option RecordedTokenPrefix :=
  if existsb (λ e, e.1.2 =? t) (entries facts model)
  then result_ok (sum_of (until t (entries facts model))) else None.

Lemma entry_leb_iff a b :
  entry_leb a b = true ↔ a.1.2 < b.1.2 ∨ a.1.2 = b.1.2 ∧ text_leb a.1.1 b.1.1 = true.
Proof. unfold entry_leb. by rewrite orb_true_iff, andb_true_iff, Z.ltb_lt, Z.eqb_eq. Qed.
Lemma entry_leb_total a b : entry_leb a b = true ∨ entry_leb b a = true.
Proof.
  rewrite !entry_leb_iff. destruct (text_leb_total a.1.1 b.1.1), (Z.lt_trichotomy a.1.2 b.1.2) as [|[]];
    naive_solver lia.
Qed.
Lemma entry_leb_trans a b c : entry_leb a b = true → entry_leb b c = true → entry_leb a c = true.
Proof.
  rewrite !entry_leb_iff. intros [?|[? ?]] [?|[? ?]]; try (left; lia).
  right. split; [lia|]. by eapply text_leb_trans.
Qed.

Lemma elem_of_entries facts m e :
  e ∈ entries facts m ↔
  ∃ i f, facts !! i = Some f ∧ uf_model f = m ∧ uf_eligible f = true ∧ e = entry_of (i, f).
Proof.
  unfold entries. rewrite sort_by_elem, list_elem_of_fmap.
  setoid_rewrite elem_of_filter_bool. setoid_rewrite andb_true_iff. setoid_rewrite text_eqb_true.
  split.
  - intros ([i f] & -> & Hin%elem_of_map_to_list & <- & ?). by exists i, f.
  - intros (i & f & ? & <- & ? & ->). exists (i, f). rewrite elem_of_map_to_list. by split_and!.
Qed.
Lemma entries_sorted facts m : StronglySorted (λ a b, entry_leb a b = true) (entries facts m).
Proof. apply sort_by_sorted; [apply entry_leb_total|apply entry_leb_trans]. Qed.
Lemma entries_NoDup facts m : NoDup (map (λ e, e.1.1) (entries facts m)).
Proof.
  unfold entries. rewrite (sort_by_perm _ _). rewrite map_map.
  apply (filter_NoDup_map fst). apply NoDup_fst_map_to_list.
Qed.
Lemma sorted_entries_unique l l' :
  StronglySorted (λ a b, entry_leb a b = true) l → StronglySorted (λ a b, entry_leb a b = true) l' →
  NoDup (map (λ e : entry, e.1.1) l) → NoDup (map (λ e : entry, e.1.1) l') →
  (∀ e, e ∈ l ↔ e ∈ l') → l = l'.
Proof.
  intros Hs Hs' Hn Hn' Hin. eapply (StronglySorted_unique_strong (λ a b, entry_leb a b = true));
    [|done|done|].
  - intros a b Ha Hb Hab Hba. rewrite entry_leb_iff in Hab, Hba.
    apply (map_inj_on (λ e : entry, e.1.1) l); [done|done|by apply Hin|].
    destruct Hab as [?|[? Hab]], Hba as [?|[? Hba]]; try lia. by apply text_leb_antisym.
  - apply NoDup_Permutation; [by eapply NoDup_fmap_1..|done].
Qed.
Lemma until_entries facts m t :
  StronglySorted (λ a b, entry_leb a b = true) (until t (entries facts m))
  ∧ NoDup (map (λ e : entry, e.1.1) (until t (entries facts m))).
Proof.
  split; [apply StronglySorted_filter_bool, entries_sorted|apply filter_NoDup_map, entries_NoDup].
Qed.

(** ** Changes of the facts *)
(** The facts agree on the entries of a model up to a time. *)
Definition agree_until (facts facts' : gmap text UsageFact) (m : text) (t : Z) : Prop :=
  ∀ e : entry, e.1.2 ≤ t → e ∈ entries facts m ↔ e ∈ entries facts' m.
(** A change at one time of one model. *)
Definition changed_at (facts facts' : gmap text UsageFact) (model : text) (at_ : Z) : Prop :=
  ∀ m t, (m = model → t < at_) → agree_until facts facts' m t.

Lemma agree_until_same facts facts' m t :
  agree_until facts facts' m t → until t (entries facts m) = until t (entries facts' m).
Proof.
  intros Ha. destruct (until_entries facts m t), (until_entries facts' m t).
  apply sorted_entries_unique; [done..|]. intros e. unfold until.
  rewrite !elem_of_filter_bool, Z.leb_le. specialize (Ha e). tauto.
Qed.
Lemma agree_until_view facts facts' m t :
  agree_until facts facts' m t → view facts m t = view facts' m t.
Proof.
  intros Ha. unfold view. rewrite (agree_until_same _ _ _ _ Ha).
  assert (existsb (λ e, e.1.2 =? t) (entries facts m) = existsb (λ e, e.1.2 =? t) (entries facts' m))
    as ->; [|done].
  apply eq_true_iff_eq. rewrite !existsb_exists. setoid_rewrite <-list_elem_of_In.
  split; intros (e & He & Ht); exists e; (split; [|done]); apply Z.eqb_eq in Ht; apply (Ha e); (lia || done).
Qed.

(** The stored prefixes are right where no dirty head stands before them. *)
Definition clean (L : Ledger) (m : text) (t : Z) : Prop :=
  ∀ since, lg_dirty L !! m = Some since → t < since.
Definition summed (L : Ledger) (m : text) (t : Z) : Prop :=
  lg_prefixes L !! (m, t) = view (lg_facts L) m t
  ∧ is_ok (sum_of (until t (entries (lg_facts L) m))) = true.
Definition views_ok (L : Ledger) : Prop := ∀ m t, clean L m t → summed L m t.

Lemma dirty_fields L m at_ L' :
  dirty L m at_ = Ok L' →
  lg_facts L' = lg_facts L ∧ lg_prefixes L' = lg_prefixes L
  ∧ lg_initialized L' = lg_initialized L
  ∧ lg_dirty L' = <[m := match lg_dirty L !! m with Some v => Z.min v at_ | None => at_ end]>
                     (lg_dirty L).
Proof. unfold dirty. rewrite bind_Ok. intros (r & _ & [= <-]). done. Qed.
Lemma dirty_views L facts' m at_ L' :
  views_ok L → changed_at (lg_facts L) facts' m at_ →
  dirty (with_facts L facts') m at_ = Ok L' → views_ok L'.
Proof.
  intros Hv Hc Hd. apply dirty_fields in Hd as (Hf & Hp & _ & Hdirty). simpl in *.
  intros m' t Hclean.
  assert (clean L m' t ∧ (m' = m → t < at_)) as [Hcl Ht].
  { unfold clean in *. rewrite Hdirty in Hclean. destruct (decide (m' = m)) as [->|Hne].
    - rewrite lookup_insert_eq in Hclean. specialize (Hclean _ eq_refl).
      destruct (lg_dirty L !! m) as [v|].
      + split; [intros s [= <-]; lia|lia].
      + split; [done|lia].
    - rewrite lookup_insert_ne in Hclean by done. by split. }
  destruct (Hv m' t Hcl) as [Hview Hok]. specialize (Hc m' t Ht). unfold summed.
  rewrite Hf, Hp, <-(agree_until_view _ _ _ _ Hc), <-(agree_until_same _ _ _ _ Hc). done.
Qed.
Lemma same_entries_views L facts' :
  views_ok L → (∀ m e, e ∈ entries (lg_facts L) m ↔ e ∈ entries facts' m) →
  views_ok (with_facts L facts').
Proof.
  intros Hv Hs m t Hclean. destruct (Hv m t Hclean) as [Hview Hok]. unfold summed. simpl.
  assert (agree_until (lg_facts L) facts' m t) as Ha by (intros e _; apply Hs).
  by rewrite <-(agree_until_view _ _ _ _ Ha), <-(agree_until_same _ _ _ _ Ha).
Qed.
(** One fact replaced, added or deleted. *)
Lemma changed_one (facts facts' : gmap text UsageFact) i m at_ :
  (∀ j, j ≠ i → facts !! j = facts' !! j) →
  (∀ f, facts !! i = Some f ∨ facts' !! i = Some f → uf_model f = m ∧ uf_timestamp f = at_) →
  changed_at facts facts' m at_.
Proof.
  intros Hother Hi m' t Ht e He. rewrite !elem_of_entries.
  assert (∀ j f, facts !! j = Some f ∨ facts' !! j = Some f → uf_model f = m' →
    uf_timestamp f ≤ t → facts !! j = facts' !! j) as Hsame.
  { intros j f Hf Hm Hle. destruct (decide (j = i)) as [->|]; [|by apply Hother].
    destruct (Hi f Hf) as [<- <-]. specialize (Ht (eq_sym Hm)). lia. }
  split; intros (j & f & Hf & Hm & Hel & ->); exists j, f; simpl in He;
    [rewrite <-(Hsame j f) by auto|rewrite (Hsame j f) by auto]; done.
Qed.

(** ** Eligibility *)
(** A fact counts exactly when all facts of its ambiguity key have its source. *)
Definition unambiguous (facts : gmap text UsageFact) (f : UsageFact) : Prop :=
  ∀ j g k, facts !! j = Some g → uf_ambiguity_key f = Some k → uf_ambiguity_key g = Some k →
    uf_source_identity g = uf_source_identity f.
Definition eligible_ok (facts : gmap text UsageFact) (f : UsageFact) : Prop :=
  uf_eligible f = true ↔ unambiguous facts f.

Lemma with_eligible_same f : with_eligible (uf_eligible f) f = f.
Proof. by destruct f. Qed.
Lemma reconcile_row_spec b L row L' :
  lg_facts L !! row.1 = Some row.2 → views_ok L → reconcile_row b L row = Ok L' →
  views_ok L' ∧ lg_facts L' = alter (with_eligible b) row.1 (lg_facts L)
  ∧ lg_initialized L' = lg_initialized L.
Proof.
  intros Hrow Hv. unfold reconcile_row. destruct (Bool.eqb_spec b (uf_eligible row.2)) as [->|Hne].
  - intros [= <-]. split_and!; [done| |done]. apply map_eq. intros j.
    destruct (decide (j = row.1)) as [->|].
    + by rewrite lookup_alter_eq, Hrow; simpl; rewrite with_eligible_same.
    + by rewrite lookup_alter_ne.
  - intros Hd. pose proof (dirty_fields _ _ _ _ Hd) as (Hf & _ & Hi & _). simpl in *.
    split_and!; [|done|done]. eapply dirty_views; [done| |exact Hd].
    apply (changed_one _ _ row.1); intros j Hj.
    + by rewrite lookup_alter_ne.
    + rewrite lookup_alter_eq, Hrow in Hj. destruct Hj as [[= <-]|[= <-]]; done.
Qed.
Lemma reconcile_rows_spec b rows L L' :
  NoDup (map fst rows) → (∀ row, row ∈ rows → lg_facts L !! row.1 = Some row.2) →
  views_ok L → fold_result (reconcile_row b) L rows = Ok L' →
  views_ok L'
  ∧ (∀ i, lg_facts L' !! i = if bool_decide (i ∈ map fst rows)
                              then with_eligible b <$> lg_facts L !! i else lg_facts L !! i)
  ∧ lg_initialized L' = lg_initialized L.
Proof.
  revert L. induction rows as [|row rows IH]; intros L Hnd Hrows Hv; simpl.
  { by intros [= <-]. }
  apply NoDup_cons in Hnd as [Hnew Hnd].
  destruct (reconcile_row b L row) as [L1|e] eqn:E; [|done]. intros Hfold.
  destruct (reconcile_row_spec _ _ _ _ (Hrows row (list_elem_of_here _ _)) Hv E) as (Hv1 & Hf1 & Hi1).
  destruct (IH L1 Hnd) as (Hv' & Hf' & Hi'); [|done|done|].
  { intros r Hr. rewrite Hf1, lookup_alter_ne; [by apply Hrows, list_elem_of_further|].
    intros Heq. apply Hnew. rewrite Heq. by apply list_elem_of_fmap_2. }
  split_and!; [done| |congruence]. intros i. rewrite Hf', Hf1.
  destruct (decide (i = row.1)) as [->|Hne].
  - rewrite bool_decide_eq_false_2 by done.
    rewrite bool_decide_eq_true_2 by apply list_elem_of_here. by rewrite lookup_alter_eq.
  - rewrite lookup_alter_ne by done. by rewrite (bool_decide_ext _ (i ∈ row.1 :: map fst rows))
      by (rewrite elem_of_cons; naive_solver).
Qed.
Lemma elem_of_ambiguous facts k i f :
  (i, f) ∈ ambiguous facts k ↔ facts !! i = Some f ∧ uf_ambiguity_key f = Some k.
Proof.
  unfold ambiguous. by rewrite sort_by_elem, elem_of_filter_bool, elem_of_map_to_list, bool_decide_eq_true.
Qed.
Lemma ambiguous_NoDup facts k : NoDup (map fst (ambiguous facts k)).
Proof. unfold ambiguous. rewrite (sort_by_perm _ _). apply filter_NoDup_map, NoDup_fst_map_to_list. Qed.
(** A set of at most one element. *)
Lemma at_most_one (X : gset text) : (size X <=? 1)%nat = true ↔ ∀ x y, x ∈ X → y ∈ X → x = y.
Proof.
  rewrite Nat.leb_le. split.
  - intros Hs x y Hx Hy. destruct (decide (size X = 0)%nat) as [E|E].
    + apply size_empty_inv in E. set_solver.
    + by apply (size_singleton_inv X x y); [lia|..].
  - intros Hall. destruct (decide (X = ∅)) as [->|[x Hx]%set_choose_L]; [by rewrite size_empty; lia|].
    assert (X = {[x]}) as ->; [|by rewrite size_singleton].
    apply set_eq. intros y. rewrite elem_of_singleton. split; [by intros; apply Hall|by intros ->].
Qed.
Lemma reconcile_spec L k L' :
  views_ok L → (∀ i f, lg_facts L !! i = Some f → uf_ambiguity_key f ≠ Some k → eligible_ok (lg_facts L) f) →
  reconcile_ambiguity L k = Ok L' →
  views_ok L' ∧ (∀ i f, lg_facts L' !! i = Some f → eligible_ok (lg_facts L') f)
  ∧ (∀ i, option_map (with_eligible true) (lg_facts L' !! i)
          = option_map (with_eligible true) (lg_facts L !! i))
  ∧ lg_initialized L' = lg_initialized L.
Proof.
  intros Hv Hel Hr. unfold reconcile_ambiguity in Hr.
  set (b := (size (list_to_set (map (λ row, uf_source_identity row.2) (ambiguous (lg_facts L) k))
                   : gset text) <=? 1)%nat) in Hr.
  destruct (reconcile_rows_spec b (ambiguous (lg_facts L) k) L L') as (Hv' & Hf' & Hi');
    [apply ambiguous_NoDup|by intros [i f] [? _]%elem_of_ambiguous|done|done|].
  assert (∀ i, lg_facts L' !! i = (λ f, if bool_decide (uf_ambiguity_key f = Some k)
    then with_eligible b f else f) <$> lg_facts L !! i) as Hf.
  { intros i. rewrite Hf'. destruct (lg_facts L !! i) as [f|] eqn:E; simpl.
    - assert (i ∈ map fst (ambiguous (lg_facts L) k) ↔ uf_ambiguity_key f = Some k) as Hin.
      { rewrite list_elem_of_fmap. split.
        - intros ([j g] & -> & [Hj ?]%elem_of_ambiguous). simpl in E. congruence.
        - intros ?. exists (i, f). by rewrite elem_of_ambiguous. }
      rewrite (bool_decide_ext _ _ Hin). by case_bool_decide.
    - by case_bool_decide. }
  assert (∀ f, uf_ambiguity_key (if bool_decide (uf_ambiguity_key f = Some k)
      then with_eligible b f else f) = uf_ambiguity_key f
    ∧ uf_source_identity (if bool_decide (uf_ambiguity_key f = Some k)
      then with_eligible b f else f) = uf_source_identity f) as Hkeep
    by (intros f; by case_bool_decide).
  split_and!; [done| | |done].
  - intros i f' Hi. rewrite Hf in Hi. destruct (lg_facts L !! i) as [f|] eqn:E; [|done].
    simpl in Hi. injection Hi as <-. unfold eligible_ok, unambiguous.
    destruct (Hkeep f) as [-> ->]. setoid_rewrite Hf.
    assert (unambiguous (lg_facts L) f ↔ ∀ j g k',
      ((λ f, if bool_decide (uf_ambiguity_key f = Some k) then with_eligible b f else f)
         <$> lg_facts L !! j) = Some g →
      uf_ambiguity_key f = Some k' → uf_ambiguity_key g = Some k' →
      uf_source_identity g = uf_source_identity f) as Hun.
    { unfold unambiguous. split; intros H j g k'.
      - intros (g0 & Hg & ->)%fmap_Some. destruct (Hkeep g0) as [-> ->]. by eapply H.
      - intros Hg Hk Hk'. specialize (H j _ k' ltac:(by rewrite Hg) Hk).
        simpl in H. destruct (Hkeep g) as [Eg1 Eg2]. rewrite Eg1, Eg2 in H. by apply H. }
    rewrite <-Hun. case_bool_decide as Hk; [|by apply (Hel i)].
    simpl. unfold b. rewrite at_most_one. setoid_rewrite elem_of_list_to_set.
    assert (∀ x, x ∈ map (λ row, uf_source_identity row.2) (ambiguous (lg_facts L) k) ↔
      ∃ j g, lg_facts L !! j = Some g ∧ uf_ambiguity_key g = Some k ∧ x = uf_source_identity g) as Hx.
    { intros x. rewrite list_elem_of_fmap. split.
      - intros ([j g] & -> & [? ?]%elem_of_ambiguous). by exists j, g.
      - intros (j & g & ? & ? & ->). exists (j, g). by rewrite elem_of_ambiguous. }
    setoid_rewrite Hx. unfold unambiguous. split.
    + intros Hall j g k' Hg Hk1 Hk2. assert (k' = k) as -> by congruence.
      apply Hall; [by exists j, g|by exists i, f].
    + intros Hall x y (j & g & ? & ? & ->) (j' & g' & ? & ? & ->).
      by rewrite (Hall j g k), (Hall j' g' k).
  - intros i. rewrite Hf. destruct (lg_facts L !! i) as [f|]; simpl; [|done].
    by case_bool_decide; destruct f.
Qed.

(** ** The operations keep the ledger *)
Definition sources_unique (facts : gmap text UsageFact) : Prop :=
  ∀ i j f g, facts !! i = Some f → facts !! j = Some g → uf_source_key f = uf_source_key g → i = j.
Record ledger_ok (L : Ledger) : Prop := {
  lo_sources : sources_unique (lg_facts L);
  lo_eligible i f : lg_facts L !! i = Some f → eligible_ok (lg_facts L) f;
  lo_views : views_ok L
}.

Lemma eligible_ok_ext facts facts' f :
  (∀ j g k, uf_ambiguity_key f = Some k → uf_ambiguity_key g = Some k →
     facts !! j = Some g ↔ facts' !! j = Some g) →
  eligible_ok facts f → eligible_ok facts' f.
Proof.
  unfold eligible_ok, unambiguous. intros Hj ->. split; intros H j g k Hg Hk Hk';
    by apply (H j g k); [apply (Hj j g k)|..].
Qed.
Lemma sources_unique_eligible facts facts' :
  (∀ i, option_map (with_eligible true) (facts' !! i) = option_map (with_eligible true) (facts !! i)) →
  sources_unique facts → sources_unique facts'.
Proof.
  intros Hsame Hu i j f g Hf Hg Hk.
  assert (∀ i f, facts' !! i = Some f → ∃ f0, facts !! i = Some f0
    ∧ uf_source_key f0 = uf_source_key f) as Hback.
  { intros i0 f0 Hf0. specialize (Hsame i0). rewrite Hf0 in Hsame.
    destruct (facts !! i0) as [f1|]; [|done]. exists f1. split; [done|].
    simpl in Hsame. by destruct f0, f1; simplify_eq/=. }
  destruct (Hback i f Hf) as (f0 & Hf0 & Ef), (Hback j g Hg) as (g0 & Hg0 & Eg).
  apply (Hu i j f0 g0); congruence.
Qed.
(** A change of one fact, its dirty head, and the reconciliation of its key. *)
Lemma change_ok L facts' i m at_ (ambiguity : option text) L1 L' :
  ledger_ok L → sources_unique facts' →
  (∀ j, j ≠ i → lg_facts L !! j = facts' !! j) →
  (∀ f, lg_facts L !! i = Some f ∨ facts' !! i = Some f →
    uf_model f = m ∧ uf_timestamp f = at_ ∧ uf_ambiguity_key f = ambiguity) →
  (ambiguity = None → ∀ f, facts' !! i = Some f → uf_eligible f = true) →
  dirty (with_facts L facts') m at_ = Ok L1 →
  match ambiguity with Some k => reconcile_ambiguity L1 k | None => Ok L1 end = Ok L' →
  ledger_ok L' ∧ lg_initialized L' = lg_initialized L.
Proof.
  intros [Hsrc Hel Hv] Hsrc' Hother Hi Hnone Hd Hr.
  assert (views_ok L1) as Hv1.
  { eapply dirty_views; [exact Hv| |exact Hd]. apply (changed_one _ _ i); [done|].
    intros f Hf. by destruct (Hi f Hf) as (? & ? & _). }
  pose proof (dirty_fields _ _ _ _ Hd) as (Hf1 & _ & Hinit & _). simpl in Hf1, Hinit.
  assert (∀ j f, facts' !! j = Some f → (∀ k, ambiguity = Some k → uf_ambiguity_key f ≠ Some k) →
    eligible_ok facts' f) as Helse.
  { intros j f Hf Hk. destruct (decide (j = i)) as [->|Hne].
    - destruct (Hi f (or_intror Hf)) as (_ & _ & Ha). destruct ambiguity as [k|].
      { by destruct (Hk k eq_refl). }
      split; [|by intros _; apply Hnone]. intros _ j' g' k' _ Hk' _. congruence.
    - rewrite <-Hother in Hf by done. apply (eligible_ok_ext (lg_facts L)); [|by apply (Hel j)].
      intros j' g k Hk1 Hk2. destruct (decide (j' = i)) as [->|]; [|by rewrite Hother].
      split; intros Hg; destruct (Hi g ltac:(auto)) as (_ & _ & Ha);
        exfalso; apply (Hk k); congruence. }
  destruct ambiguity as [k|].
  - destruct (reconcile_spec L1 k L') as (Hv' & Hel' & Hsame & Hinit'); [done| |done|].
    { rewrite Hf1. intros j f Hf Hne. apply (Helse j); [done|]. by intros k' [= <-]. }
    split; [|congruence]. split; [|done|done]. eapply sources_unique_eligible; [exact Hsame|].
    by rewrite Hf1.
  - injection Hr as <-. split; [|done]. split; rewrite ?Hf1; [done| |done].
    intros j f Hf. by apply (Helse j).
Qed.

Section preserved.
Context (key : ResponseIds → text).
Context (encode_strings : list text → text) (encode_marker : AmbiguityMarker → text)
  (encode_response : ResponseEvidenceValue → text) (encode_counter : CounterEvidenceValue → text)
  (hash : text → text).
Context (is_retired : SessionEventSource → result UsageStoreError bool)
  (validate_storage_partition_identity : StoragePartitionIdentity → result UsageStoreError ()).
Local Abbreviation remove := (remove encode_strings).
Local Abbreviation observe := (observe key encode_strings encode_marker encode_response encode_counter
  hash is_retired validate_storage_partition_identity).
Local Abbreviation finish := (finish key encode_strings encode_marker encode_response encode_counter
  hash is_retired validate_storage_partition_identity).

Lemma row_of_source_spec facts k :
  match row_of_source facts k with
  | Some (i, f) => facts !! i = Some f ∧ uf_source_key f = k
  | None => ∀ i f, facts !! i = Some f → uf_source_key f ≠ k
  end.
Proof.
  unfold row_of_source. destruct (List.find _ _) as [[i f]|] eqn:E.
  - apply find_some in E as [Hin Hk]. apply list_elem_of_In, elem_of_map_to_list in Hin.
    by apply text_eqb_true in Hk.
  - intros i f Hf Hk. eapply (find_none _ _) in E; [|by apply list_elem_of_In, elem_of_map_to_list].
    simpl in E. unfold text_eqb in E. by rewrite bool_decide_eq_true_2 in E.
Qed.
Lemma remove_ok L source L' :
  ledger_ok L → remove L source = Ok L' → ledger_ok L' ∧ lg_initialized L' = lg_initialized L.
Proof.
  intros HL. unfold UsageLedger.remove. pose proof (row_of_source_spec (lg_facts L)
    (source_key encode_strings source)) as Hrow.
  destruct (row_of_source _ _) as [[i f]|]; [|by intros [= <-]]. destruct Hrow as [Hf _].
  rewrite bind_Ok. intros (L1 & Hd & Hr).
  eapply (change_ok L (delete i (lg_facts L)) i _ _ (uf_ambiguity_key f)); [done| | | | |exact Hd|done].
  - intros j j' g g' [_ Hg]%lookup_delete_Some [_ Hg']%lookup_delete_Some. by apply (lo_sources L HL).
  - intros j Hne. by rewrite lookup_delete_ne.
  - intros g [Hg|Hg]; [|by rewrite lookup_delete_eq in Hg]. by simplify_eq.
  - intros _ g Hg. by rewrite lookup_delete_eq in Hg.
Qed.
Lemma with_evidence_ok L i evidence :
  ledger_ok L →
  ledger_ok (with_facts L (alter (λ f, with_evidence f evidence) i (lg_facts L))).
Proof.
  intros [Hsrc Hel Hv].
  assert (∀ j, alter (λ f, with_evidence f evidence) i (lg_facts L) !! j
    = (λ f, if bool_decide (i = j) then with_evidence f evidence else f) <$> lg_facts L !! j) as Hf.
  { intros j. destruct (decide (i = j)) as [->|Hne].
    - rewrite lookup_alter_eq. destruct (lg_facts L !! j); simpl; [|done].
      by rewrite bool_decide_eq_true_2.
    - rewrite lookup_alter_ne by done. destruct (lg_facts L !! j); simpl; [|done].
      by rewrite bool_decide_eq_false_2. }
  split.
  - intros j j' f g Hj Hj' Hk. simpl in Hj, Hj'. rewrite Hf in Hj, Hj'.
    apply fmap_Some in Hj as (f0 & Hj & ->), Hj' as (g0 & Hj' & ->).
    apply (Hsrc j j' f0 g0); [done..|]. by destruct (bool_decide _), (bool_decide _).
  - intros j f Hj. simpl in *. rewrite Hf in Hj. apply fmap_Some in Hj as (f0 & Hj & ->).
    pose proof (Hel j f0 Hj) as Hel0. unfold eligible_ok, unambiguous in *. setoid_rewrite Hf.
    assert (∀ (b : bool) h, uf_eligible (if b then with_evidence h evidence else h) = uf_eligible h
      ∧ uf_ambiguity_key (if b then with_evidence h evidence else h) = uf_ambiguity_key h
      ∧ uf_source_identity (if b then with_evidence h evidence else h) = uf_source_identity h)
      as Hkeep by (intros [] ?; done).
    destruct (Hkeep (bool_decide (i = j)) f0) as (-> & -> & ->). rewrite Hel0.
    split; intros H j' g k Hg Hk Hk'.
    + apply fmap_Some in Hg as (g0 & Hg & ->).
      destruct (Hkeep (bool_decide (i = j')) g0) as (_ & Eg & ->). rewrite Eg in Hk'. by apply (H j' g0 k).
    + specialize (H j' _ k ltac:(by rewrite Hg) Hk).
      destruct (Hkeep (bool_decide (i = j')) g) as (_ & Eg & Ei). rewrite Eg, Ei in H. by apply H.
  - apply same_entries_views; [done|]. intros m e. rewrite !elem_of_entries. setoid_rewrite Hf. split.
    + intros (j & f & Hj & Hm & He & ->). eexists j, _. rewrite Hj. simpl.
      split; [done|]. by destruct (bool_decide _).
    + intros (j & f & (f0 & Hj & ->)%fmap_Some & Hm & He & ->). exists j, f0.
      by destruct (bool_decide _).
Qed.
Lemma observe_existing_ok L fact_id existing fact L' :
  ledger_ok L → observe_existing L fact_id existing fact = Ok L' →
  ledger_ok L' ∧ lg_initialized L' = lg_initialized L.
Proof.
  intros HL. unfold observe_existing.
  destruct (_ || _ || _); [done|]. destruct (_ && _); [done|].
  destruct (negb (text_eqb (uf_source_key existing) _)).
  - destruct (negb _); [done|]. by intros [= <-].
  - destruct (negb _); intros [= <-]; [|done]. split; [by apply with_evidence_ok|done].
Qed.
Lemma insert_fact_Ok L fact_id fact L' :
  insert_fact L fact_id fact = Ok L' →
  lg_facts L !! fact_id = None
  ∧ (∀ i f, lg_facts L !! i = Some f → uf_source_key f ≠ uf_source_key fact)
  ∧ 0 < uf_timestamp fact ∧ L' = with_facts L (<[fact_id := fact]> (lg_facts L)).
Proof.
  unfold insert_fact. pose proof (row_of_source_spec (lg_facts L) (uf_source_key fact)) as Hrow.
  destruct (lg_facts L !! fact_id) as [f|]; [done|].
  destruct (row_of_source _ _) as [[]|]; [done|].
  destruct (Z.ltb_spec 0 (uf_timestamp fact)); [|done]. by intros [= <-].
Qed.
Lemma observe_ok L event admission L' :
  ledger_ok L → observe L event admission = Ok L' →
  ledger_ok L' ∧ lg_initialized L' = lg_initialized L.
Proof.
  intros HL. unfold UsageLedger.observe. rewrite bind_Ok. intros ([] & _ & Ho).
  { by eapply remove_ok. }
  destruct admission as [admission|]; [|by injection Ho as <-].
  destruct (negb _); [done|]. destruct (text_eqb _ _); [by injection Ho as <-|].
  rewrite bind_Ok in Ho. destruct Ho as ([] & _ & Ho).
  set (model := exact_model_of event admission) in *.
  set (fact := fact_of _ _ _ _ _ event admission model) in *.
  pose proof (eq_refl : uf_ambiguity_key fact
    = (fact_identity encode_strings encode_marker hash event admission model).2) as Hamb.
  destruct (fact_identity _ _ _ event admission model) as [fact_id ambiguity]. simpl in Hamb.
  destruct (lg_facts L !! fact_id) as [existing|] eqn:Hid; [by eapply observe_existing_ok|].
  rewrite bind_Ok in Ho. destruct Ho as (L0 & Hins & Ho). rewrite bind_Ok in Ho.
  destruct Ho as (L1 & Hd & Hr). apply insert_fact_Ok in Hins as (_ & Hrow & _ & ->).
  eapply (change_ok L (<[fact_id := fact]> (lg_facts L)) fact_id _ _ ambiguity);
    [done| | | | |exact Hd|done].
  - intros j j' g g' Hg Hg' Hk.
    apply lookup_insert_Some in Hg as [[<- <-]|[_ Hg]], Hg' as [[<- <-]|[_ Hg']]; [done| | |].
    + exfalso. by apply (Hrow j' g').
    + exfalso. by apply (Hrow j g).
    + by apply (lo_sources L HL j j' g g').
  - intros j Hne. by rewrite lookup_insert_ne.
  - intros g [Hg|Hg]; [congruence|]. rewrite lookup_insert_eq in Hg. injection Hg as <-. done.
  - intros _ g Hg. rewrite lookup_insert_eq in Hg. injection Hg as <-. done.
Qed.
End preserved.
