(* ===== verification/LedgerSums.v ===== *)
(** * The ledger's refresh: every prefix is the sum of its facts

    Proves of [UsageLedger.finish] that recomputing the suffixes after the dirty
    heads restores all prefix sums, whatever sequence of observations, removals and
    refreshes led to the ledger, and that it succeeds exactly when the sums exist. *)

From S2P Require Import Prelude Text Contract TokenFacts RecordedUsage SourceAdmission EventAdmission UsageLedger.

(** ** Splitting sorted entries *)
(** Entries from a time on. *)
Definition since (t : Z) (es : list entry) : list entry := List.filter (λ e, t <=? e.1.2) es.
(** Entries in the order of their times. *)
Definition timed (es : list entry) : Prop := StronglySorted (λ a b, a.1.2 ≤ b.1.2) es.

Lemma entries_timed facts m : timed (entries facts m).
Proof.
  refine (StronglySorted_weaken _ _ _ _ (entries_sorted facts m)). intros a b.
  rewrite entry_leb_iff. lia.
Qed.
Lemma until_app t es es' : until t (es ++ es') = until t es ++ until t es'.
Proof. apply List.filter_app. Qed.
Lemma until_prefix t es : timed es → ∃ rest, es = until t es ++ rest.
Proof.
  intros Hs. eexists. apply (filter_split (λ e : entry, e.1.2 <=? t)).
  refine (StronglySorted_weaken _ _ _ _ Hs). intros a b ?. simpl. rewrite !Z.leb_le. lia.
Qed.
Lemma until_since t es : timed es → es = until (t - 1) es ++ since t es.
Proof.
  intros Hs. rewrite (filter_split (λ e : entry, e.1.2 <=? t - 1) es) at 1.
  - unfold until, since. f_equal. apply filter_ext. intros e.
    destruct (Z.leb_spec e.1.2 (t - 1)), (Z.leb_spec t e.1.2); (done || lia).
  - refine (StronglySorted_weaken _ _ _ _ Hs). intros a b ?. simpl. rewrite !Z.leb_le. lia.
Qed.
(** From a time on, what the sums need of the entries before it is their sum. *)
Lemma until_later t t' es :
  timed es → t ≤ t' → until t' es = until (t - 1) es ++ until t' (since t es).
Proof.
  intros Hs Ht. rewrite (until_since t es) at 1 by done. rewrite until_app. f_equal.
  apply filter_all. intros e [_ He]%elem_of_filter_bool. apply Z.leb_le in He. apply Z.leb_le. lia.
Qed.
Lemma sum_from_app p es es' : sum_from p (es ++ es') = (sum_from p es ≫= λ q, sum_from q es').
Proof. apply fold_result_app. Qed.
Lemma sum_until_ok t p es :
  timed es → is_ok (sum_from p es) = true → is_ok (sum_from p (until t es)) = true.
Proof.
  intros Hs Hok. destruct (until_prefix t es Hs) as [rest E]. rewrite E, sum_from_app in Hok.
  by destruct (sum_from p (until t es)).
Qed.

Lemma prefix_add_valid p tokens q : prefix_add p tokens = Ok q → prefix_validate q = Ok ().
Proof.
  unfold prefix_add. intros H. repeat (apply bind_Ok in H as (? & ? & H)).
  injection H as <-. by destruct x8.
Qed.
Lemma sum_from_valid es p q : prefix_validate p = Ok () → sum_from p es = Ok q → prefix_validate q = Ok ().
Proof.
  revert p. induction es as [|e es IH]; intros p Hp; unfold sum_from; simpl; [by intros [= <-]|].
  destruct (prefix_add p e.2) as [p'|] eqn:E; [|done]. apply IH. by eapply prefix_add_valid.
Qed.
Lemma sum_of_valid es q : sum_of es = Ok q → prefix_validate q = Ok ().
Proof. by apply sum_from_valid. Qed.

Lemma elem_of_since t es e : e ∈ since t es ↔ e ∈ es ∧ t ≤ e.1.2.
Proof. unfold since. by rewrite elem_of_filter_bool, Z.leb_le. Qed.
Lemma elem_of_until t es e : e ∈ until t es ↔ e ∈ es ∧ e.1.2 ≤ t.
Proof. unfold until. by rewrite elem_of_filter_bool, Z.leb_le. Qed.
Lemma has_time (es : list entry) t : existsb (λ e, e.1.2 =? t) es = true ↔ ∃ e, e ∈ es ∧ e.1.2 = t.
Proof.
  rewrite existsb_exists. setoid_rewrite <-list_elem_of_In. by setoid_rewrite Z.eqb_eq.
Qed.

(** ** The last stored prefix *)
Definition last_before (m : text) (s : Z) (rows : list (text * Z * RecordedTokenPrefix))
    (best : option (Z * RecordedTokenPrefix)) : Prop :=
  match best with
  | Some (t, p) => ((m, t), p) ∈ rows ∧ t < s ∧ ∀ t' p', ((m, t'), p') ∈ rows → t' < s → t' ≤ t
  | None => ∀ t p, ((m, t), p) ∈ rows → s ≤ t
  end.
Lemma last_before_fold m s rows done_rows best :
  last_before m s done_rows best →
  last_before m s (done_rows ++ rows) (fold_left (λ best '((m', t), p),
    if text_eqb m' m && (t <? s) then
      match best with
      | Some (t', _) => if t' <? t then Some (t, p) else best
      | None => Some (t, p)
      end
    else best) rows best).
Proof.
  revert done_rows best. induction rows as [|[[m' t] p] rows IH]; intros done_rows best Hb; simpl.
  { by rewrite app_nil_r. }
  rewrite (assoc_L (++) done_rows [_] rows : done_rows ++ (m', t, p) :: rows = _). apply IH. clear IH.
  assert (∀ x, x ∈ done_rows ++ [(m', t, p)] ↔ x ∈ done_rows ∨ x = (m', t, p)) as Hin
    by (intros; by rewrite elem_of_app, list_elem_of_singleton).
  unfold last_before in *.
  destruct (text_eqb m' m) eqn:Em, (Z.ltb_spec t s) as [Ht|Ht]; simpl;
    [apply text_eqb_true in Em as ->| |apply bool_decide_eq_false_1 in Em..];
    destruct best as [[t0 p0]|]; try (destruct (Z.ltb_spec t0 t));
    setoid_rewrite Hin; try destruct Hb as (Hb0 & Hs0 & Hb);
    repeat match goal with
    | |- _ ∧ _ => split
    | |- _ → _ => intros
    | |- ∀ _, _ => intros
    | H : _ ∨ _ |- _ => destruct H
    | H : (_, _) = (_, _) |- _ => injection H as -> ->; subst
    | H : (_, _) = (_, _) |- _ => injection H as ? ? ?; subst
    | H : ((m, ?t'), ?p') ∈ done_rows |- _ => specialize (Hb t' p' H)
    end; first [by left|by right|done|lia|naive_solver lia].
Qed.
Lemma last_prefix_spec prefixes m s :
  match last_prefix prefixes m s with
  | Some p => ∃ t, prefixes !! (m, t) = Some p ∧ t < s
      ∧ ∀ t' p', prefixes !! (m, t') = Some p' → t' < s → t' ≤ t
  | None => ∀ t p, prefixes !! (m, t) = Some p → s ≤ t
  end.
Proof.
  unfold last_prefix. pose proof (last_before_fold m s (map_to_list prefixes) [] None) as H.
  simpl in H. destruct (fold_left _ _ _) as [[t p]|]; simpl in *.
  - destruct H as (Hin & Ht & Hmax); [by intros ? ? ?%elem_of_nil|]. exists t.
    setoid_rewrite elem_of_map_to_list in Hmax. by apply elem_of_map_to_list in Hin.
  - intros t p Hp. apply (H ltac:(by intros ? ? ?%elem_of_nil) t p). by apply elem_of_map_to_list.
Qed.

(** ** One model *)
Lemma rows_are_entries facts m s :
  map entry_of (eligible_rows facts m s) = since s (entries facts m).
Proof.
  unfold eligible_rows. rewrite (sort_by_map time_leb entry_leb entry_of) by done.
  apply sorted_entries_unique.
  - apply sort_by_sorted; [apply entry_leb_total|apply entry_leb_trans].
  - apply StronglySorted_filter_bool, entries_sorted.
  - rewrite (sort_by_perm _ _), map_map. apply (filter_NoDup_map fst), NoDup_fst_map_to_list.
  - apply filter_NoDup_map, entries_NoDup.
  - intros e. rewrite sort_by_elem, elem_of_since. unfold entries. rewrite sort_by_elem.
    rewrite !list_elem_of_fmap. setoid_rewrite elem_of_filter_bool.
    setoid_rewrite andb_true_iff. setoid_rewrite andb_true_iff. setoid_rewrite Z.leb_le.
    split.
    + intros ([i f] & -> & ? & (? & ?) & ?). split; [by exists (i, f)|done].
    + intros (([i f] & -> & ? & ? & ?) & ?). by exists (i, f).
Qed.
Lemma sum_from_snoc p es e : sum_from p (es ++ [e]) = (sum_from p es ≫= λ q, prefix_add q e.2).
Proof.
  rewrite sum_from_app. destruct (sum_from p es) as [q|]; simpl; [|done].
  unfold sum_from. simpl. by destruct (prefix_add q e.2).
Qed.
(** Inserting the rows' running sums: the last row of a time decides its prefix. *)
Definition running (m : text) (p : RecordedTokenPrefix) (es : list entry)
    (prefixes : gmap (text * Z) RecordedTokenPrefix) (k : text * Z) : option RecordedTokenPrefix :=
  if text_eqb k.1 m && existsb (λ e, e.1.2 =? k.2) es
  then result_ok (sum_from p (until k.2 es)) else prefixes !! k.
Lemma running_snoc m p es e q prefixes k :
  timed (es ++ [e]) → sum_from p (es ++ [e]) = Ok q →
  running m p (es ++ [e]) prefixes k
  = if text_eqb k.1 m && (k.2 =? e.1.2) then Some q else running m p es prefixes k.
Proof.
  intros Hs Hq. unfold running. destruct (text_eqb k.1 m); simpl; [|done].
  rewrite existsb_app, until_app. simpl. rewrite orb_false_r.
  assert (∀ x, x ∈ es → x.1.2 ≤ e.1.2) as Hle.
  { intros x Hx. apply (StronglySorted_app_1_elem_of (λ a b : entry, a.1.2 ≤ b.1.2) es [e]);
      [done..|apply list_elem_of_here]. }
  destruct (Z.eqb_spec k.2 e.1.2) as [->|Hne].
  - rewrite Z.eqb_refl, orb_true_r. unfold until at 1. rewrite filter_all; cycle 1.
    { intros x Hx. apply Z.leb_le. auto. }
    simpl. rewrite Z.leb_refl. by rewrite Hq.
  - rewrite (Z.eqb_sym e.1.2), (proj2 (Z.eqb_neq _ _) Hne), orb_false_r.
    destruct (Z.leb_spec e.1.2 k.2); [|by rewrite app_nil_r].
    rewrite existsb_false; [done|]. intros x Hx. apply Z.eqb_neq. specialize (Hle x Hx). lia.
Qed.
Lemma add_rows_spec m p prefixes rows :
  timed (map entry_of rows) →
  match sum_from p (map entry_of rows) with
  | Ok q => ∃ prefixes', fold_result (add_row m) (p, prefixes) rows = Ok (q, prefixes')
      ∧ ∀ k, prefixes' !! k = running m p (map entry_of rows) prefixes k
  | Err _ => is_ok (fold_result (add_row m) (p, prefixes) rows) = false
  end.
Proof.
  induction rows as [|row rows IH] using rev_ind; intros Hs; simpl.
  { exists prefixes. split; [done|]. intros k. unfold running. simpl. by rewrite andb_false_r. }
  rewrite map_app in *. simpl in *.
  assert (timed (map entry_of rows)) as Hs0.
  { eapply (StronglySorted_app_1_l _ _ [entry_of row]). exact Hs. }
  specialize (IH Hs0). pose proof (sum_from_snoc p (map entry_of rows) (entry_of row)) as Hsnoc.
  rewrite fold_result_app. destruct (sum_from p (map entry_of rows)) as [q|e]; simpl in Hsnoc.
  - destruct IH as (prefixes1 & -> & Hp1). simpl. unfold add_row. simpl.
    destruct (prefix_add q (uf_tokens row.2)) as [q'|e'] eqn:Ea; rewrite Hsnoc; simpl; [|done].
    eexists. split; [done|]. intros k. rewrite (running_snoc _ _ _ _ q') by done.
    simpl. destruct (decide (k = (m, uf_timestamp row.2))) as [->|Hne].
    + rewrite lookup_insert_eq. simpl. rewrite Z.eqb_refl. by rewrite (proj2 (text_eqb_true m m) eq_refl).
    + rewrite lookup_insert_ne by done. rewrite Hp1. destruct k as [m' t]. simpl in *.
      destruct (text_eqb m' m) eqn:Em; [apply text_eqb_true in Em as ->|done]. simpl.
      destruct (Z.eqb_spec t (uf_timestamp row.2)) as [->|]; [done|done].
  - rewrite Hsnoc. by destruct (fold_result (add_row m) (p, prefixes) rows).
Qed.

(** The last prefix before a clean time is the sum of the entries before it. *)
Lemma last_prefix_sum L m s :
  (∀ t, t < s → summed L m t) →
  sum_of (until (s - 1) (entries (lg_facts L) m))
  = Ok (default RecordedTokenPrefix_default (last_prefix (lg_prefixes L) m s)).
Proof.
  intros Hs. set (es := entries (lg_facts L) m).
  assert (∀ e, e ∈ es → e.1.2 < s →
    ∃ p, lg_prefixes L !! (m, e.1.2) = Some p ∧ sum_of (until e.1.2 es) = Ok p) as Hstored.
  { intros e He Hlt. destruct (Hs e.1.2 Hlt) as [Hv Hok]. unfold view in Hv. fold es in Hv, Hok.
    rewrite (proj2 (has_time es _)) in Hv by eauto. apply is_ok_Ok in Hok as [p Hp].
    rewrite Hp in Hv. by exists p. }
  pose proof (last_prefix_spec (lg_prefixes L) m s) as Hlast.
  destruct (last_prefix (lg_prefixes L) m s) as [p|]; simpl.
  - destruct Hlast as (t & Hp & Ht & Hmax). destruct (Hs t Ht) as [Hv Hok].
    unfold view in Hv. fold es in Hv, Hok. rewrite Hp in Hv.
    destruct (existsb _ es); [|done]. apply is_ok_Ok in Hok as [p' Hp']. rewrite Hp' in Hv.
    injection Hv as ->. rewrite <-Hp'. f_equal. unfold until.
    apply List.filter_ext_in. intros e He. apply list_elem_of_In in He.
    destruct (Z.leb_spec e.1.2 (s - 1)), (Z.leb_spec e.1.2 t); [done| |lia|done].
    destruct (Hstored e He ltac:(lia)) as (p1 & Hp1 & _).
    specialize (Hmax _ _ Hp1 ltac:(lia)). lia.
  - unfold until. rewrite filter_none; [done|]. intros e He. apply Z.leb_gt.
    destruct (decide (e.1.2 < s)) as [Hlt|]; [|lia].
    destruct (Hstored e He Hlt) as (p & Hp & _). specialize (Hlast _ _ Hp). lia.
Qed.
(** The sum and the view after a time, from the sum before it. *)
Lemma view_later facts m s t p :
  sum_of (until (s - 1) (entries facts m)) = Ok p → s ≤ t →
  let es := since s (entries facts m) in
  sum_of (until t (entries facts m)) = sum_from p (until t es)
  ∧ view facts m t = (if existsb (λ e, e.1.2 =? t) es then result_ok (sum_from p (until t es)) else None).
Proof.
  intros Hp Ht es.
  assert (sum_of (until t (entries facts m)) = sum_from p (until t es)) as Hsum.
  { unfold sum_of. rewrite (until_later s) by (apply entries_timed || done).
    rewrite sum_from_app. unfold sum_of in Hp. by rewrite Hp. }
  split; [done|]. unfold view. rewrite Hsum.
  rewrite (eq_true_iff_eq (existsb _ (entries facts m)) (existsb (λ e, e.1.2 =? t) es)); [done|].
  rewrite !has_time. unfold es. setoid_rewrite elem_of_since. naive_solver lia.
Qed.
(** The prefixes the [DELETE] leaves. *)
Lemma kept_lookup (prefixes : gmap (text * Z) RecordedTokenPrefix) m s k :
  ¬ (k.1 = m ∧ s ≤ k.2) →
  filter (λ row, ¬ (row.1.1 = m ∧ s ≤ row.1.2)) prefixes !! k = prefixes !! k.
Proof.
  intros Hk. apply option_eq. intros p. rewrite map_lookup_filter_Some. simpl. tauto.
Qed.
Lemma kept_dropped (prefixes : gmap (text * Z) RecordedTokenPrefix) m s t :
  s ≤ t → filter (λ row, ¬ (row.1.1 = m ∧ s ≤ row.1.2)) prefixes !! (m, t) = None.
Proof. intros Ht. apply map_lookup_filter_None. right. intros p _ Hn. by apply Hn. Qed.
Lemma finish_model_spec L m s :
  (∀ t, t < s → summed L m t) →
  match sum_of (entries (lg_facts L) m) with
  | Ok _ => ∃ prefixes, finish_model L (m, s) = Ok (with_prefixes L prefixes)
      ∧ (∀ t, summed (with_prefixes L prefixes) m t)
      ∧ ∀ m' t, m' ≠ m → prefixes !! (m', t) = lg_prefixes L !! (m', t)
  | Err _ => is_ok (finish_model L (m, s)) = false
  end.
Proof.
  intros Hs. pose proof (last_prefix_sum L m s Hs) as Hlast. unfold finish_model.
  set (p := default _ _) in *. set (kept := filter _ (lg_prefixes L)).
  pose proof (entries_timed (lg_facts L) m) as Htimed.
  rewrite (sum_of_valid _ _ Hlast). simpl.
  pose proof (add_rows_spec m p kept (eligible_rows (lg_facts L) m s)) as Hrows.
  rewrite rows_are_entries in Hrows.
  assert (timed (since s (entries (lg_facts L) m))) as Hsince by by apply StronglySorted_filter_bool.
  specialize (Hrows Hsince).
  assert (sum_of (entries (lg_facts L) m) = sum_from p (since s (entries (lg_facts L) m))) as ->.
  { unfold sum_of in *. rewrite (until_since s (entries (lg_facts L) m) Htimed) at 1.
    by rewrite sum_from_app, Hlast. }
  destruct (sum_from p (since s _)) as [q|e] eqn:Eq; cycle 1.
  { by destruct (fold_result (add_row m) (p, kept) _). }
  destruct Hrows as (prefixes & -> & Hp). exists prefixes. split; [done|]. split.
  - intros t. unfold summed. simpl. rewrite Hp. unfold running. simpl.
    rewrite (proj2 (text_eqb_true m m) eq_refl). simpl. destruct (decide (t < s)) as [Hlt|Hge].
    + rewrite existsb_false; cycle 1.
      { intros e [_ He]%elem_of_since. apply Z.eqb_neq. lia. }
      destruct (Hs t Hlt) as [Hv Hok]. split; [|done]. rewrite <-Hv. apply kept_lookup. simpl. lia.
    + destruct (view_later (lg_facts L) m s t p Hlast ltac:(lia)) as [Hsum Hview].
      rewrite Hview. unfold sum_of in Hsum. split.
      * destruct (existsb _ _); [done|]. apply kept_dropped. lia.
      * unfold sum_of. rewrite Hsum. apply sum_until_ok; [done|]. by rewrite Eq.
  - intros m' t Hne. rewrite Hp. unfold running. simpl.
    destruct (text_eqb m' m) eqn:Em; [by apply text_eqb_true in Em|]. simpl.
    apply kept_lookup. simpl. naive_solver.
Qed.
Lemma summed_ext L L' m :
  lg_facts L' = lg_facts L → (∀ t, lg_prefixes L' !! (m, t) = lg_prefixes L !! (m, t)) →
  ∀ t, summed L m t → summed L' m t.
Proof. intros Hf Hp t [Hv Hok]. unfold summed. by rewrite Hf, Hp. Qed.

(** ** All dirty models *)
Lemma finish_models_spec changes L :
  NoDup (map fst changes) → (∀ m s, (m, s) ∈ changes → ∀ t, t < s → summed L m t) →
  match fold_result finish_model L changes with
  | Ok L' => L' = with_prefixes L (lg_prefixes L')
      ∧ (∀ m, m ∈ map fst changes → ∀ t, summed L' m t)
      ∧ ∀ m t, m ∉ map fst changes → lg_prefixes L' !! (m, t) = lg_prefixes L !! (m, t)
  | Err _ => ∃ m, m ∈ map fst changes ∧ is_ok (sum_of (entries (lg_facts L) m)) = false
  end.
Proof.
  revert L. induction changes as [|[m s] changes IH]; intros L Hnd Hs; cbn [fold_result map fst].
  { split_and!; [by destruct L|by intros ? ?%elem_of_nil|done]. }
  apply NoDup_cons in Hnd as [Hnew Hnd].
  pose proof (finish_model_spec L m s (Hs m s (list_elem_of_here _ _))) as Hone.
  destruct (sum_of (entries (lg_facts L) m)) as [q|e] eqn:Eq; cycle 1.
  { destruct (finish_model L (m, s)); [done|]. exists m. split; [apply list_elem_of_here|by rewrite Eq]. }
  destruct Hone as (prefixes & -> & Hm & Hother). set (L1 := with_prefixes L prefixes) in *.
  assert (∀ m' s', (m', s') ∈ changes → ∀ t, t < s' → summed L1 m' t) as Hs1.
  { intros m' s' Hin t Ht. apply (summed_ext L L1); [done| |by apply (Hs m' s'); [apply list_elem_of_further|]].
    intros t'. apply Hother. intros ->. apply Hnew, list_elem_of_fmap. by exists (m, s'). }
  specialize (IH L1 Hnd Hs1). destruct (fold_result finish_model L1 changes) as [L'|e]; cycle 1.
  { destruct IH as (m' & Hm' & Herr). exists m'. split; [by apply list_elem_of_further|done]. }
  destruct IH as (HL' & Hsummed & Hrest).
  split_and!.
  - by rewrite HL' at 1.
  - intros m' [->|Hin]%elem_of_cons; [|by apply Hsummed]. intros t.
    apply (summed_ext L1 L'); [by rewrite HL'|by intros; apply Hrest|done].
  - intros m' t [Hne Hin]%not_elem_of_cons. by rewrite Hrest, Hother.
Qed.

(** ** Every ledger the operations reach *)
Section reached.
Context (key : ResponseIds → text).
Context (encode_strings : list text → text) (encode_marker : AmbiguityMarker → text)
  (encode_response : ResponseEvidenceValue → text) (encode_counter : CounterEvidenceValue → text)
  (hash : text → text).
Context (is_retired : SessionEventSource → result UsageStoreError bool)
  (validate_storage_partition_identity : StoragePartitionIdentity → result UsageStoreError ()).
Local Abbreviation observe := (observe key encode_strings encode_marker encode_response encode_counter
  hash is_retired validate_storage_partition_identity).
Local Abbreviation finish := (finish key encode_strings encode_marker encode_response encode_counter
  hash is_retired validate_storage_partition_identity).

(** One committed operation. A failed one rolls its transaction back. *)
Inductive ledger_step : Ledger → Ledger → Prop :=
| step_observe L event admission L' : observe L event admission = Ok L' → ledger_step L L'
| step_remove L source L' : remove encode_strings L source = Ok L' → ledger_step L L'
| step_finish L qualified L' : finish L qualified = Ok L' → ledger_step L L'.

(** A ledger the last refresh left nothing to do for. *)
Definition refreshed (L : Ledger) : Prop :=
  lg_dirty L = ∅ ∧ (∀ m t, summed L m t)
  ∧ (∀ m, m ∈ lg_models L ↔ ∃ i f, lg_facts L !! i = Some f ∧ uf_eligible f = true ∧ uf_model f = m)
  ∧ (lg_coverage L = Unknown ↔ lg_models L = []).

Lemma elem_of_eligible_models facts m :
  m ∈ eligible_models facts ↔ ∃ i f, facts !! i = Some f ∧ uf_eligible f = true ∧ uf_model f = m.
Proof.
  unfold eligible_models. rewrite sort_by_elem, elem_of_elements, elem_of_list_to_set, list_elem_of_fmap.
  setoid_rewrite elem_of_filter_bool. split.
  - intros ([i f] & -> & Hin%elem_of_map_to_list & He). by exists i, f.
  - intros (i & f & Hf & He & <-). exists (i, f). by rewrite elem_of_map_to_list.
Qed.
Lemma observe_all_ok qualified L L' :
  ledger_ok L → fold_result (λ s '(event, admission), observe s event admission) L qualified = Ok L' →
  ledger_ok L' ∧ lg_initialized L' = lg_initialized L.
Proof.
  revert L. induction qualified as [|[event admission] qualified IH]; intros L HL; simpl.
  { by intros [= <-]. }
  destruct (observe L event admission) as [L1|] eqn:E; [|done]. intros Hfold.
  destruct (observe_ok _ _ _ _ _ _ _ _ _ _ _ _ HL E) as [HL1 <-]. by apply IH.
Qed.
(** The dirty heads as the refresh takes them. *)
Definition changes_of (L : Ledger) : list (text * Z) :=
  sort_by (λ a b, text_leb a.1 b.1) (map_to_list (lg_dirty L)).
Lemma changes_of_spec L :
  NoDup (map fst (changes_of L))
  ∧ (∀ m s, (m, s) ∈ changes_of L ↔ lg_dirty L !! m = Some s)
  ∧ (∀ m, m ∉ map fst (changes_of L) → lg_dirty L !! m = None).
Proof.
  assert (∀ m s, (m, s) ∈ changes_of L ↔ lg_dirty L !! m = Some s) as Hin
    by (intros m s; unfold changes_of; by rewrite sort_by_elem, elem_of_map_to_list).
  split_and!; [|done|].
  - unfold changes_of. rewrite (sort_by_perm _ _). apply NoDup_fst_map_to_list.
  - intros m Hm. destruct (lg_dirty L !! m) as [s|] eqn:E; [|done]. exfalso. apply Hm.
    apply list_elem_of_fmap. exists (m, s). by rewrite Hin.
Qed.
Lemma refresh_spec L :
  views_ok L →
  match fold_result finish_model L (changes_of L) with
  | Ok L' => L' = with_prefixes L (lg_prefixes L') ∧ ∀ m t, summed L' m t
  | Err _ => ∃ m, is_ok (sum_of (entries (lg_facts L) m)) = false
  end.
Proof.
  intros Hv. destruct (changes_of_spec L) as (Hnd & Hin & Hout).
  pose proof (finish_models_spec (changes_of L) L Hnd) as Hspec.
  destruct (fold_result finish_model L (changes_of L)) as [L'|e]; cycle 1.
  - destruct Hspec as (m & _ & Hm); [|by exists m]. intros m s Hms t Ht. apply Hv.
    intros s' Hs'. apply Hin in Hms. congruence.
  - destruct Hspec as (HL' & Hdone & Hrest).
    { intros m s Hms t Ht. apply Hv. intros s' Hs'. apply Hin in Hms. congruence. }
    split; [done|]. intros m t. destruct (decide (m ∈ map fst (changes_of L))) as [Hm|Hm]; [by apply Hdone|].
    apply (summed_ext L L'); [by rewrite HL'|intros; by apply Hrest|]. apply Hv.
    intros s Hs. by rewrite Hout in Hs.
Qed.
Lemma finish_ok L qualified L' :
  ledger_ok L → finish L qualified = Ok L' → ledger_ok L' ∧ refreshed L'.
Proof.
  intros HL. unfold UsageLedger.finish. rewrite bind_Ok. intros (L1 & Hinit & Hfin).
  assert (ledger_ok L1) as [Hsrc Hel Hv].
  { destruct (lg_initialized L); [by injection Hinit as <-|]. apply bind_Ok in Hinit as (L0 & Hf & [= <-]).
    destruct (observe_all_ok _ _ _ HL Hf) as [[Hsrc Hel Hv] _]. by split. }
  fold (changes_of L1) in Hfin. apply bind_Ok in Hfin as (L2 & Hf & [= <-]).
  pose proof (refresh_spec L1 Hv) as Hr. rewrite Hf in Hr. destruct Hr as [HL2 Hsum].
  assert (lg_facts L2 = lg_facts L1) as Hfacts by by rewrite HL2.
  split; [split|split_and!]; simpl; rewrite ?Hfacts; try done.
  - intros m t _. specialize (Hsum m t). unfold summed in *. simpl. by rewrite Hfacts in *.
  - intros m t. specialize (Hsum m t). unfold summed in *. simpl. by rewrite Hfacts in *.
  - intros m. apply elem_of_eligible_models.
  - by destruct (eligible_models _).
Qed.
Lemma finish_head L qualified L' :
  ledger_ok L → finish L qualified = Ok L' →
  lg_initialized L' = true ∧ lg_models L' = eligible_models (lg_facts L').
Proof.
  intros HL. unfold UsageLedger.finish. rewrite bind_Ok. intros (L1 & Hinit & Hfin).
  assert (views_ok L1 ∧ lg_initialized L1 = true) as [Hv Hi].
  { destruct (lg_initialized L) eqn:E; [injection Hinit as <-; split; [apply lo_views, HL|done]|].
    apply bind_Ok in Hinit as (L0 & Hf & [= <-]).
    destruct (observe_all_ok _ _ _ HL Hf) as [[_ _ Hv] _]. by split. }
  fold (changes_of L1) in Hfin. apply bind_Ok in Hfin as (L2 & Hf & [= <-]).
  pose proof (refresh_spec L1 Hv) as Hr. rewrite Hf in Hr. destruct Hr as [HL2 _].
  split; [|done]. simpl. by rewrite HL2.
Qed.
Lemma Ledger_new_ok : ledger_ok Ledger_new.
Proof.
  split; simpl; [by intros i j f g ?%lookup_empty_Some|by intros i f ?%lookup_empty_Some|].
  intros m t _. done.
Qed.
Lemma reached_ok L : rtc ledger_step Ledger_new L → ledger_ok L.
Proof.
  intros Hr. assert (∀ L0, ledger_ok L0 → rtc ledger_step L0 L → ledger_ok L) as H;
    [|by apply (H Ledger_new Ledger_new_ok)].
  clear Hr. intros L0 HL0 Hr. induction Hr as [|L0 L1 L2 Hstep _ IH]; [done|]. apply IH.
  destruct Hstep as [L0 e a L1 H|L0 s L1 H|L0 q L1 H].
  - eapply observe_ok; [exact HL0|exact H].
  - eapply remove_ok; [exact HL0|exact H].
  - eapply finish_ok; [exact HL0|exact H].
Qed.
Lemma finish_decides L qualified :
  ledger_ok L → lg_initialized L = true →
  is_ok (finish L qualified) = true ↔ ∀ m, is_ok (sum_of (entries (lg_facts L) m)) = true.
Proof.
  intros [_ _ Hv] Hinit. unfold UsageLedger.finish. rewrite Hinit. simpl. fold (changes_of L).
  pose proof (refresh_spec L Hv) as Hr. destruct (fold_result finish_model L (changes_of L)) as [L'|e]; simpl.
  - destruct Hr as [HL' Hsum]. split; [|done]. intros _ m.
    assert (∃ t, until t (entries (lg_facts L) m) = entries (lg_facts L) m) as [t Ht].
    { exists (foldr (λ e : entry, Z.max e.1.2) 0 (entries (lg_facts L) m)). apply filter_all.
      intros e He. apply Z.leb_le. induction (entries (lg_facts L) m) as [|e' es IH]; [by apply elem_of_nil in He|].
      simpl. apply elem_of_cons in He as [->|He]; [lia|]. specialize (IH He). lia. }
    destruct (Hsum m t) as [_ Hok]. rewrite HL' in Hok. simpl in Hok. by rewrite Ht in Hok.
  - destruct Hr as [m Hm]. split; [done|]. intros Hall. by rewrite Hall in Hm.
Qed.

(** C3. After a refresh of a ledger the operations reached, a prefix is stored for a
    model and a time exactly when the model has an eligible fact at that time, and it
    is the sum of the eligible facts of the model up to then; a fact is eligible
    exactly when all facts of its ambiguity key come from one source; no dirty head
    is left, and the models listed are those with an eligible fact. *)
Theorem finish_restores_sums L qualified L' :
  rtc ledger_step Ledger_new L → finish L qualified = Ok L' →
  refreshed L'
  ∧ (∀ m t p, lg_prefixes L' !! (m, t) = Some p ↔
      (∃ i f, lg_facts L' !! i = Some f ∧ uf_model f = m ∧ uf_timestamp f = t ∧ uf_eligible f = true)
      ∧ sum_of (until t (entries (lg_facts L') m)) = Ok p)
  ∧ ∀ i f, lg_facts L' !! i = Some f → (uf_eligible f = true ↔ unambiguous (lg_facts L') f).
Proof.
  intros Hr Hf. destruct (finish_ok L qualified L' (reached_ok L Hr) Hf) as [[_ Hel _] Href].
  split_and!; [done| |exact Hel]. intros m t p. destruct Href as (_ & Hsum & _).
  destruct (Hsum m t) as [-> Hok]. unfold view.
  assert (existsb (λ e, e.1.2 =? t) (entries (lg_facts L') m) = true ↔ ∃ i f,
    lg_facts L' !! i = Some f ∧ uf_model f = m ∧ uf_timestamp f = t ∧ uf_eligible f = true) as <-.
  { rewrite has_time. setoid_rewrite elem_of_entries. naive_solver. }
  destruct (existsb _ _); [|naive_solver]. apply is_ok_Ok in Hok as [q Hq]. rewrite Hq. simpl. naive_solver.
Qed.

(** An initialized ledger the operations reached can be refreshed exactly when the
    eligible facts of every model have a sum, that is, when no count overflows and no
    fact is inconsistent: a stored prefix is never the reason for a failure. *)
Theorem finish_progress L qualified :
  rtc ledger_step Ledger_new L → lg_initialized L = true →
  is_ok (finish L qualified) = true ↔ ∀ m, is_ok (sum_of (entries (lg_facts L) m)) = true.
Proof. intros Hr. apply finish_decides, reached_ok, Hr. Qed.
End reached.

(** ** A concrete ledger

    An event, its copy in another file (which makes both ambiguous), a refresh, and
    the removal of the copy. *)
Definition example_copy (path : string) : LosslessSessionEvent * EventAdmission :=
  let source := le_source example_event in
  let admission := example_admission (lit "gpt-6-sol") in
  let binding := ea_source_binding admission in
  ({| le_source := {| es_root_identity := es_root_identity source; es_relative_path := lit path;
        es_file_device := es_file_device source; es_file_inode := es_file_inode source;
        es_prefix_generation := es_prefix_generation source;
        es_range_start := es_range_start source; es_range_end := es_range_end source;
        es_record_sha256 := es_record_sha256 source; es_event_index := es_event_index source |};
      le_timestamp := le_timestamp example_event; le_model := le_model example_event;
      le_tokens := le_tokens example_event; le_period := example_period |},
   {| ea_version := ea_version admission;
      ea_source_binding := {| ab_version := ab_version binding; ab_partition := ab_partition binding;
        ab_root_identity := ab_root_identity binding; ab_relative_path := lit path;
        ab_file_device := ab_file_device binding; ab_file_inode := ab_file_inode binding;
        ab_prefix_generation := ab_prefix_generation binding; ab_prefix_end := ab_prefix_end binding;
        ab_metadata := ab_metadata binding; ab_proof := ab_proof binding;
        ab_creator_origin := ab_creator_origin binding |};
      ea_verified_prefix_end := ea_verified_prefix_end admission;
      ea_ownership := ea_ownership admission; ea_numeric := ea_numeric admission;
      ea_period := ea_period admission |}).
Definition example_strings (l : list text) : text := concat (map (λ t, t ++ lit ";") l).
Definition example_observe (L : Ledger) (path : string) : result UsageStoreError Ledger :=
  observe ri_response_id example_strings (λ m, am_model m ++ to_dec (am_timestamp m))
    (λ v, rv_model v) (λ v, cv_model v) (λ t, t) (λ _, Ok false) (λ _, Ok ())
    L (example_copy path).1 (Some (example_copy path).2).
Definition example_finish (L : Ledger) : result UsageStoreError Ledger :=
  finish ri_response_id example_strings (λ m, am_model m ++ to_dec (am_timestamp m))
    (λ v, rv_model v) (λ v, cv_model v) (λ t, t) (λ _, Ok false) (λ _, Ok ()) L [].
Definition example_remove (L : Ledger) (path : string) : result UsageStoreError Ledger :=
  remove example_strings L (le_source (example_copy path).1).
Definition after (r : result UsageStoreError Ledger) : Ledger := default Ledger_new (result_ok r).

Definition example_one : Ledger := after (example_observe Ledger_new "a/b.jsonl").
Definition example_two : Ledger := after (example_observe example_one "a/c.jsonl").
Definition example_ambiguous : Ledger := after (example_finish example_two).
Definition example_resolved : Ledger := after (example_remove example_ambiguous "a/c.jsonl").
Definition example_final : Ledger := after (example_finish example_resolved).

Lemma after_Ok r : is_ok r = true → r = Ok (after r).
Proof. by destruct r. Qed.
Example example_sums :
  map_to_list (lg_prefixes example_ambiguous) = [] ∧ lg_models example_ambiguous = []
  ∧ map (λ row, (row.1.2, px_total row.2)) (map_to_list (lg_prefixes example_final)) = [(1000, lit "5")]
  ∧ lg_models example_final = [lit "gpt-6-sol"] ∧ lg_fact_revision example_final = 6.
Proof. by vm_compute. Qed.
Local Abbreviation example_step := (ledger_step ri_response_id example_strings
  (λ m, am_model m ++ to_dec (am_timestamp m)) (λ v, rv_model v) (λ v, cv_model v) (λ t, t)
  (λ _, Ok false) (λ _, Ok ())).
Lemma example_step_observe L path :
  is_ok (example_observe L path) = true → example_step L (after (example_observe L path)).
Proof.
  intros H%after_Ok.
  by eapply step_observe with (event := (example_copy path).1) (admission := Some (example_copy path).2).
Qed.
Lemma example_step_remove L path :
  is_ok (example_remove L path) = true → example_step L (after (example_remove L path)).
Proof.
  intros H%after_Ok. by eapply step_remove with (source := le_source (example_copy path).1).
Qed.
Lemma example_step_finish L :
  is_ok (example_finish L) = true → example_step L (after (example_finish L)).
Proof. intros H%after_Ok. by eapply step_finish with (qualified := []). Qed.
Lemma example_reached : rtc example_step Ledger_new example_resolved.
Proof.
  eapply rtc_l; [apply (example_step_observe Ledger_new "a/b.jsonl"); by vm_compute|].
  eapply rtc_l; [apply (example_step_observe example_one "a/c.jsonl"); by vm_compute|].
  eapply rtc_l; [apply (example_step_finish example_two); by vm_compute|].
  apply rtc_once, (example_step_remove example_ambiguous "a/c.jsonl"). by vm_compute.
Qed.
Lemma finish_restores_sums_witness :
  refreshed example_final
  ∧ (∀ m t p, lg_prefixes example_final !! (m, t) = Some p ↔
      (∃ i f, lg_facts example_final !! i = Some f ∧ uf_model f = m ∧ uf_timestamp f = t
              ∧ uf_eligible f = true)
      ∧ sum_of (until t (entries (lg_facts example_final) m)) = Ok p)
  ∧ ∀ i f, lg_facts example_final !! i = Some f →
      (uf_eligible f = true ↔ unambiguous (lg_facts example_final) f).
Proof.
  apply (finish_restores_sums ri_response_id example_strings
    (λ m, am_model m ++ to_dec (am_timestamp m)) (λ v, rv_model v) (λ v, cv_model v) (λ t, t)
    (λ _, Ok false) (λ _, Ok ()) example_resolved []); [exact example_reached|].
  apply (after_Ok (example_finish example_resolved)). vm_compute. reflexivity.
Defined.
Lemma finish_progress_witness :
  is_ok (finish ri_response_id example_strings (λ m, am_model m ++ to_dec (am_timestamp m))
    (λ v, rv_model v) (λ v, cv_model v) (λ t, t) (λ _, Ok false) (λ _, Ok ()) example_resolved []) = true
  ↔ ∀ m, is_ok (sum_of (entries (lg_facts example_resolved) m)) = true.
Proof.
  apply (finish_progress ri_response_id example_strings
    (λ m, am_model m ++ to_dec (am_timestamp m)) (λ v, rv_model v) (λ v, cv_model v) (λ t, t)
    (λ _, Ok false) (λ _, Ok ()) example_resolved []); [exact example_reached|].
  vm_compute. reflexivity.
Defined.
