(* ===== verification/AuthKeys.v ===== *)
(** * Account authority: the bytes of the authentication file

    Models the reading of [tokens.account_id] in
    [crates/codex-info-recorder/src/lib.rs]: a scanner of its own rejects a file in
    which an object repeats a key, before [serde_json] parses it. The scanner's
    offset is the list of bytes that remain. [serde_json] is a parameter: [decode]
    reads a string token, [from_slice] a whole document. *)

From S2P Require Import Prelude Text Json.

Abbreviation bytes := (list Z).

(** The scanner without its input: what follows [offset], and the depth. *)
Record AuthJsonKeyScanner := { as_rest : bytes; as_depth : Z }.
Definition MAX_AUTH_JSON_DEPTH : Z := 128.

(** [b' ' | b'\n' | b'\r' | b'\t'] *)
Definition is_blank (b : Z) : bool := (b =? 32) || (b =? 10) || (b =? 13) || (b =? 9).
(** What ends a scalar: a blank, [,], a closing bracket or a closing brace. *)
Definition ends_scalar (b : Z) : bool := is_blank b || (b =? 44) || (b =? 93) || (b =? 125).

Definition at_rest (s : AuthJsonKeyScanner) (rest : bytes) : AuthJsonKeyScanner :=
  {| as_rest := rest; as_depth := as_depth s |}.
Fixpoint skip_blanks (rest : bytes) : bytes :=
  match rest with
  | b :: rest' => if is_blank b then skip_blanks rest' else rest
  | [] => []
  end.
Definition skip_whitespace (s : AuthJsonKeyScanner) : AuthJsonKeyScanner :=
  at_rest s (skip_blanks (as_rest s)).
(** [consume]: the scanner after the expected byte, if it is next. *)
Definition consume (expected : Z) (s : AuthJsonKeyScanner) : option AuthJsonKeyScanner :=
  match as_rest s with
  | b :: rest => if b =? expected then Some (at_rest s rest) else None
  | [] => None
  end.
Definition enter_container (s : AuthJsonKeyScanner) : result () AuthJsonKeyScanner :=
  let depth := as_depth s + 1 in
  reject () when (MAX_AUTH_JSON_DEPTH <? depth);
  Ok {| as_rest := as_rest s; as_depth := depth |}.
Definition leave_container (s : AuthJsonKeyScanner) : AuthJsonKeyScanner :=
  {| as_rest := as_rest s; as_depth := Z.max 0 (as_depth s - 1) |}.

(** The loop of [scan_string], after the opening quote. *)
Fixpoint string_tail (rest : bytes) : result () bytes :=
  match rest with
  | [] => Err ()
  | b :: rest =>
      if b =? 34 then Ok rest
      else if b =? 92 then match rest with [] => Err () | _ :: rest => string_tail rest end
      else if b <? 32 then Err ()
      else string_tail rest
  end.
Definition scan_string (s : AuthJsonKeyScanner) : result () AuthJsonKeyScanner :=
  match consume 34 s with
  | None => Err ()
  | Some s => rest ← string_tail (as_rest s); Ok (at_rest s rest)
  end.
Fixpoint scalar_tail (rest : bytes) : bytes :=
  match rest with
  | b :: rest' => if ends_scalar b then rest else scalar_tail rest'
  | [] => []
  end.
Definition scan_scalar (s : AuthJsonKeyScanner) : result () AuthJsonKeyScanner :=
  match as_rest s with
  | b :: rest => if ends_scalar b then Err () else Ok (at_rest s (scalar_tail rest))
  | [] => Err ()
  end.
(** [bytes[start..offset]] between two states of the scanner. *)
Definition between (start s : AuthJsonKeyScanner) : bytes :=
  take (length (as_rest start) - length (as_rest s)) (as_rest start).

Section scanner.
(** [serde_json::from_slice::<String>] of a token. *)
Context (decode : bytes → option text).

(** The mutually recursive methods, each loop with the methods it calls. A call
    from a call of the same method consumes at least a byte, so that twice the length
    of the input and one is enough fuel. *)
Fixpoint scan_value (fuel : nat) (s : AuthJsonKeyScanner) {struct fuel} :
    result () AuthJsonKeyScanner :=
  match fuel with
  | O => Err ()
  | S fuel =>
      let s := skip_whitespace s in
      match as_rest s with
      | 34 :: _ => scan_string s
      | 123 :: rest =>
          s ← enter_container s;
          let s := skip_whitespace (at_rest s rest) in
          s ← match consume 125 s with
              | Some s => Ok s
              | None => scan_members fuel ∅ s
              end;
          Ok (leave_container s)
      | 91 :: rest =>
          s ← enter_container s;
          let s := skip_whitespace (at_rest s rest) in
          s ← match consume 93 s with
              | Some s => Ok s
              | None => scan_items fuel s
              end;
          Ok (leave_container s)
      | _ :: _ => scan_scalar s
      | [] => Err ()
      end
  end
(** The loop of [scan_object]. *)
with scan_members (fuel : nat) (keys : gset text) (s : AuthJsonKeyScanner) {struct fuel} :
    result () AuthJsonKeyScanner :=
  match fuel with
  | O => Err ()
  | S fuel =>
      let start := skip_whitespace s in
      s ← scan_string start;
      key ← ok_or (decode (between start s)) ();
      reject () when bool_decide (key ∈ keys);
      s ← ok_or (consume 58 (skip_whitespace s)) ();
      s ← scan_value fuel s;
      let s := skip_whitespace s in
      match consume 125 s with
      | Some s => Ok s
      | None =>
          s ← ok_or (consume 44 s) ();
          scan_members fuel ({[key]} ∪ keys) s
      end
  end
(** The loop of [scan_array]. *)
with scan_items (fuel : nat) (s : AuthJsonKeyScanner) {struct fuel} :
    result () AuthJsonKeyScanner :=
  match fuel with
  | O => Err ()
  | S fuel =>
      s ← scan_value fuel s;
      let s := skip_whitespace s in
      match consume 93 s with
      | Some s => Ok s
      | None =>
          s ← ok_or (consume 44 s) ();
          scan_items fuel s
      end
  end.

Definition scan (fuel : nat) (s : AuthJsonKeyScanner) : result () () :=
  s ← scan_value fuel s;
  match as_rest (skip_whitespace s) with [] => Ok () | _ => Err () end.
Definition reject_duplicate_json_keys (input : bytes) : result () () :=
  scan (S (2 * length input)) {| as_rest := input; as_depth := 0 |}.

(** ** The texts the scanner accepts *)
Definition blanks (w : bytes) : Prop := Forall (λ b, is_blank b = true) w.
(** The inside of a string token: no bare quote, backslash or control byte. *)
Inductive string_inside : bytes → Prop :=
| inside_end : string_inside []
| inside_byte b t : b ≠ 34 → b ≠ 92 → 32 ≤ b → string_inside t → string_inside (b :: t)
| inside_escape b t : string_inside t → string_inside (92 :: b :: t).
Definition string_token (t : bytes) : Prop := ∃ i, t = 34 :: i ++ [34] ∧ string_inside i.
Definition scalar_token (t : bytes) : Prop :=
  ∃ b i, t = b :: i ∧ b ≠ 34 ∧ b ≠ 123 ∧ b ≠ 91 ∧ Forall (λ c, ends_scalar c = false) t.

(** [value_text d t]: a value with containers nested at most [d] deep, in which no
    object repeats a key. [members_text d ks t] is the inside of an object with the
    keys [ks], [items_text d t] the inside of an array, both nonempty. *)
Inductive value_text : nat → bytes → Prop :=
| text_string d t : string_token t → value_text d t
| text_scalar d t : scalar_token t → value_text d t
| text_empty_object d w : blanks w → value_text (S d) (123 :: w ++ [125])
| text_object d ks t : members_text d ks t → NoDup ks → value_text (S d) (123 :: t ++ [125])
| text_empty_array d w : blanks w → value_text (S d) (91 :: w ++ [93])
| text_array d t : items_text d t → value_text (S d) (91 :: t ++ [93])
with members_text : nat → list text → bytes → Prop :=
| members_one d k t : member_text d k t → members_text d [k] t
| members_more d k t ks t' :
    member_text d k t → members_text d ks t' → members_text d (k :: ks) (t ++ 44 :: t')
with member_text : nat → text → bytes → Prop :=
| member_pair d k w1 t w2 w3 v w4 :
    blanks w1 → string_token t → decode t = Some k → blanks w2 → blanks w3 →
    value_text d v → blanks w4 →
    member_text d k (w1 ++ t ++ w2 ++ 58 :: w3 ++ v ++ w4)
with items_text : nat → bytes → Prop :=
| items_one d w1 v w2 : blanks w1 → value_text d v → blanks w2 → items_text d (w1 ++ v ++ w2)
| items_more d w1 v w2 t :
    blanks w1 → value_text d v → blanks w2 → items_text d t →
    items_text d (w1 ++ v ++ w2 ++ 44 :: t).
Scheme value_text_rec := Minimality for value_text Sort Prop
with members_text_rec := Minimality for members_text Sort Prop
with member_text_rec := Minimality for member_text Sort Prop
with items_text_rec := Minimality for items_text Sort Prop.
Combined Scheme texts_ind from value_text_rec, members_text_rec, member_text_rec, items_text_rec.

(** ** Tokens *)
(** What may follow a value: nothing, or a byte that ends a scalar. *)
Definition stops (rest : bytes) : Prop :=
  match rest with [] => True | b :: _ => ends_scalar b = true end.

Lemma skip_blanks_split r : ∃ w, blanks w ∧ r = w ++ skip_blanks r.
Proof.
  induction r as [|b r IH]; simpl; [exists []; by split; [constructor|]|]. destruct (is_blank b) eqn:E.
  - destruct IH as (w & Hw & Hr). exists (b :: w). split; [by constructor|]. simpl. by f_equal.
  - exists []. by split; [constructor|].
Qed.
Lemma skip_blanks_app w r : blanks w → skip_blanks (w ++ r) = skip_blanks r.
Proof. induction 1 as [|b w Hb _ IH]; simpl; [done|]. by rewrite Hb. Qed.
Lemma skip_blanks_stop b r : is_blank b = false → skip_blanks (b :: r) = b :: r.
Proof. intros Hb. simpl. by rewrite Hb. Qed.
Lemma skip_blanks_head r b r' : skip_blanks r = b :: r' → is_blank b = false.
Proof.
  induction r as [|c r IH]; simpl; [done|]. destruct (is_blank c) eqn:E; [done|]. congruence.
Qed.
Lemma skip_whitespace_app w s r :
  blanks w → as_rest s = w ++ r → skip_whitespace s = skip_whitespace (at_rest s r).
Proof. intros Hw Hr. unfold skip_whitespace. rewrite Hr, skip_blanks_app by done. done. Qed.

Lemma string_tail_sound n r r' :
  (length r ≤ n)%nat → string_tail r = Ok r' → ∃ i, r = i ++ 34 :: r' ∧ string_inside i.
Proof.
  revert r. induction n as [|n IH]; intros [|b r] Hn; simpl in *; try (done || lia).
  destruct (Z.eqb_spec b 34) as [->|H34].
  { intros [= ->]. exists []. split; [done|constructor]. }
  destruct (Z.eqb_spec b 92) as [->|H92].
  - destruct r as [|c r]; [done|]. simpl in Hn. intros (i & -> & Hi)%IH; [|lia].
    exists (92 :: c :: i). split; [done|by constructor].
  - destruct (Z.ltb_spec b 32); [done|]. intros (i & -> & Hi)%IH; [|lia].
    exists (b :: i). split; [done|by constructor].
Qed.
Lemma string_tail_complete i r : string_inside i → string_tail (i ++ 34 :: r) = Ok r.
Proof.
  induction 1 as [|b t H34 H92 H32 _ IH|b t _ IH]; simpl; [done| |done].
  apply Z.eqb_neq in H34 as ->. apply Z.eqb_neq in H92 as ->.
  by rewrite (proj2 (Z.ltb_ge b 32)).
Qed.
Lemma scan_string_sound s s' :
  scan_string s = Ok s' →
  as_depth s' = as_depth s ∧ ∃ t, string_token t ∧ as_rest s = t ++ as_rest s'.
Proof.
  unfold scan_string, consume. destruct (as_rest s) as [|b r] eqn:E; [done|].
  destruct (Z.eqb_spec b 34) as [->|]; [|done]. simpl.
  destruct (string_tail r) as [r'|] eqn:Er; [|done]. intros [= <-]. split; [done|].
  apply (string_tail_sound (length r)) in Er as (i & -> & Hi); [|lia].
  exists (34 :: i ++ [34]). simpl. rewrite <-app_assoc. split; [by exists i|done].
Qed.
Lemma scan_string_complete s t r :
  string_token t → as_rest s = t ++ r → scan_string s = Ok (at_rest s r).
Proof.
  intros (i & -> & Hi) Hr. unfold scan_string, consume. rewrite Hr. simpl.
  rewrite <-app_assoc. simpl. by rewrite string_tail_complete.
Qed.

Lemma scalar_tail_split r : ∃ t, r = t ++ scalar_tail r ∧ Forall (λ c, ends_scalar c = false) t.
Proof.
  induction r as [|b r (t & Hr & Ht)]; simpl; [exists []; by split; [constructor|]|]. destruct (ends_scalar b) eqn:E.
  - exists []. by split; [constructor|].
  - exists (b :: t). split; [simpl; by f_equal|by constructor].
Qed.
Lemma scalar_tail_complete t r :
  Forall (λ c, ends_scalar c = false) t → stops r → scalar_tail (t ++ r) = r.
Proof.
  intros Ht Hr. induction Ht as [|b t Hb _ IH]; simpl.
  - destruct r as [|b r]; [done|]. simpl in *. by rewrite Hr.
  - by rewrite Hb.
Qed.
Lemma consume_Some e s s' :
  consume e s = Some s' → as_rest s = e :: as_rest s' ∧ as_depth s' = as_depth s.
Proof.
  unfold consume. destruct (as_rest s) as [|b r]; [done|].
  destruct (Z.eqb_spec b e) as [->|]; [|done]. by intros [= <-].
Qed.
Lemma consume_head e s r : as_rest s = e :: r → consume e s = Some (at_rest s r).
Proof. intros Hr. unfold consume. by rewrite Hr, Z.eqb_refl. Qed.
Lemma consume_other e s b r : as_rest s = b :: r → b ≠ e → consume e s = None.
Proof. intros Hr Hb. unfold consume. rewrite Hr. by apply Z.eqb_neq in Hb as ->. Qed.
Lemma between_split start s t : as_rest start = t ++ as_rest s → between start s = t.
Proof.
  intros Hr. unfold between. rewrite Hr, length_app.
  replace (length t + length (as_rest s) - length (as_rest s))%nat with (length t) by lia.
  apply take_app_length.
Qed.
Lemma skip_whitespace_split s :
  ∃ w, blanks w ∧ as_rest s = w ++ as_rest (skip_whitespace s).
Proof. apply skip_blanks_split. Qed.

(** ** What the scanner accepts is such a text *)
Definition value_sound (fuel : nat) : Prop := ∀ d s s',
  as_depth s + Z.of_nat d = MAX_AUTH_JSON_DEPTH → 0 ≤ as_depth s →
  scan_value fuel s = Ok s' →
  as_depth s' = as_depth s
  ∧ ∃ w v, as_rest s = w ++ v ++ as_rest s' ∧ blanks w ∧ value_text d v.
Definition members_sound (fuel : nat) : Prop := ∀ d keys s s',
  as_depth s + Z.of_nat d = MAX_AUTH_JSON_DEPTH → 0 ≤ as_depth s →
  scan_members fuel keys s = Ok s' →
  as_depth s' = as_depth s
  ∧ ∃ ks t, as_rest s = t ++ 125 :: as_rest s' ∧ members_text d ks t
      ∧ NoDup ks ∧ ∀ k, k ∈ ks → k ∉ keys.
Definition items_sound (fuel : nat) : Prop := ∀ d s s',
  as_depth s + Z.of_nat d = MAX_AUTH_JSON_DEPTH → 0 ≤ as_depth s →
  scan_items fuel s = Ok s' →
  as_depth s' = as_depth s ∧ ∃ t, as_rest s = t ++ 93 :: as_rest s' ∧ items_text d t.

Lemma enter_Ok s s' d :
  as_depth s + Z.of_nat d = MAX_AUTH_JSON_DEPTH → enter_container s = Ok s' →
  as_depth s' = as_depth s + 1 ∧ ∃ d', d = S d'.
Proof.
  unfold enter_container. intros Hd. destruct (Z.ltb_spec MAX_AUTH_JSON_DEPTH (as_depth s + 1)); [done|].
  intros [= <-]. split; [done|]. destruct d as [|d]; [lia|by exists d].
Qed.
(** A container: [inner] scans what follows its opening byte. *)
Lemma container_sound (s s1 s' : AuthJsonKeyScanner) d close rest
    (inner : AuthJsonKeyScanner → result () AuthJsonKeyScanner) (P : bytes → Prop) :
  as_depth s + Z.of_nat (S d) = MAX_AUTH_JSON_DEPTH → 0 ≤ as_depth s → as_depth s1 = as_depth s + 1 →
  (∀ s2 s3, as_depth s2 + Z.of_nat d = MAX_AUTH_JSON_DEPTH → 0 ≤ as_depth s2 → inner s2 = Ok s3 →
     as_depth s3 = as_depth s2 ∧ ∃ t, as_rest s2 = t ++ close :: as_rest s3 ∧ P t) →
  (∀ w t, blanks w → P t → P (w ++ t)) →
  (s2 ← match consume close (skip_whitespace (at_rest s1 rest)) with
        | Some s => Ok s
        | None => inner (skip_whitespace (at_rest s1 rest))
        end; Ok (leave_container s2)) = Ok s' →
  as_depth s' = as_depth s ∧ ∃ t, rest = t ++ close :: as_rest s' ∧ (blanks t ∨ P t).
Proof.
  intros Hd H0 H1 Hinner Hblank Hok.
  destruct (skip_whitespace_split (at_rest s1 rest)) as (w & Hw & Hrest).
  set (s2 := skip_whitespace (at_rest s1 rest)) in *.
  change (rest = w ++ as_rest s2) in Hrest.
  assert (as_depth s2 = as_depth s + 1) as H2 by done.
  destruct (consume close s2) as [s3|] eqn:Ec; simpl in Hok.
  - injection Hok as <-. apply consume_Some in Ec as [Hr Hd3]. simpl. split; [lia|].
    exists w. rewrite <-Hr. split; [done|by left].
  - destruct (inner s2) as [s3|] eqn:Ei; [|done]. injection Hok as <-.
    destruct (Hinner s2 s3) as (Hd3 & t & Hr & Ht); [lia|lia|done|]. simpl. split; [lia|].
    exists (w ++ t). rewrite <-app_assoc, <-Hr. split; [done|]. right. by apply Hblank.
Qed.
Lemma blanks_app w w' : blanks w → blanks w' → blanks (w ++ w').
Proof. apply Forall_app_2. Qed.
Lemma members_blank d ks w t : blanks w → members_text d ks t → members_text d ks (w ++ t).
Proof.
  assert (∀ k t, blanks w → member_text d k t → member_text d k (w ++ t)) as Hm.
  { intros k m Hw Hm. inversion Hm as [? ? w1 tk w2 w3 v w4 Hw1]; subst.
    rewrite app_assoc. constructor; try done. by apply blanks_app. }
  intros Hw. destruct 1 as [d k t Hk|d k t ks t' Hk Hks]; [constructor; auto|].
  rewrite app_assoc. constructor; auto.
Qed.
Lemma items_blank d w t : blanks w → items_text d t → items_text d (w ++ t).
Proof.
  intros Hw. destruct 1 as [d w1 v w2 Hw1|d w1 v w2 t Hw1]; rewrite app_assoc; constructor;
    try done; by apply blanks_app.
Qed.
Lemma value_sound_step fuel :
  value_sound fuel → members_sound fuel → items_sound fuel → value_sound (S fuel).
Proof.
  intros Hvalue Hmembers Hitems d s s' Hd H0 Hok. cbn [scan_value] in Hok.
  destruct (skip_whitespace_split s) as (w & Hw & Hrest).
  pose proof (skip_blanks_head (as_rest s)) as Hhead.
  assert (as_depth (skip_whitespace s) = as_depth s) as Hd1 by done.
  set (s1 := skip_whitespace s) in *. change (skip_blanks (as_rest s)) with (as_rest s1) in Hhead.
  destruct (as_rest s1) as [|b rest] eqn:Er; [done|]. rewrite Hrest. clear Hrest.
  destruct (decide (b = 34)) as [->|H34].
  { apply scan_string_sound in Hok as (Hd' & t & Ht & Hr). split; [congruence|]. exists w, t.
    rewrite <-Hr, Er. by split_and!; [| |constructor]. }
  destruct (decide (b = 123)) as [->|H123].
  { cbn in Hok. apply bind_Ok in Hok as (s2 & He & Hok).
    destruct (enter_Ok _ _ _ ltac:(rewrite Hd1; exact Hd) He) as [Hd2 [d' ->]].
    apply (container_sound s s2 s' d' 125 rest (scan_members fuel ∅)
      (λ t, ∃ ks, members_text d' ks t ∧ NoDup ks)) in Hok
      as (Hd' & t & -> & Ht); [|done|done|congruence| |].
    - split; [done|]. exists w, (123 :: t ++ [125]). rewrite <-app_comm_cons, <-app_assoc.
      split_and!; [done|done|]. destruct Ht as [?|(ks & ? & ?)]; by econstructor.
    - intros s3 s4 Hd3 H3 Hs. apply (Hmembers d') in Hs as (Hd4 & ks & t & Ht & Hks & Hnd & _);
        [|done..]. split; [done|]. exists t. split; [done|]. by exists ks.
    - intros w' t Hw' (ks & Hks & Hnd). exists ks. split; [by apply members_blank|done]. }
  destruct (decide (b = 91)) as [->|H91].
  { cbn in Hok. apply bind_Ok in Hok as (s2 & He & Hok).
    destruct (enter_Ok _ _ _ ltac:(rewrite Hd1; exact Hd) He) as [Hd2 [d' ->]].
    apply (container_sound s s2 s' d' 93 rest (scan_items fuel) (items_text d')) in Hok
      as (Hd' & t & -> & Ht); [|done|done|congruence| |].
    - split; [done|]. exists w, (91 :: t ++ [93]). rewrite <-app_comm_cons, <-app_assoc.
      split_and!; [done|done|]. destruct Ht as [?|?]; by econstructor.
    - intros s3 s4 Hd3 H3 Hs. by apply (Hitems d') in Hs.
    - intros w' t. apply items_blank. }
  assert (scan_scalar s1 = Ok s') as Hs.
  { rewrite <-Hok. destruct b as [|p|p]; try done.
    repeat (destruct p as [p|p|]; try done). }
  unfold scan_scalar in Hs. rewrite Er in Hs. destruct (ends_scalar b) eqn:Eb; [done|].
  injection Hs as <-. split; [done|]. destruct (scalar_tail_split rest) as (t & Hrest & Ht).
  exists w, (b :: t). simpl. split_and!; [by rewrite <-Hrest|done|].
  apply text_scalar. exists b, t. split_and!; [done..|]. by constructor.
Qed.

Lemma members_sound_step fuel :
  value_sound fuel → members_sound fuel → members_sound (S fuel).
Proof.
  intros Hvalue Hmembers d keys s s' Hd H0 Hok. cbn [scan_members] in Hok.
  destruct (skip_whitespace_split s) as (w1 & Hw1 & Hr1).
  apply bind_Ok in Hok as (s2 & Hs & Hok). apply scan_string_sound in Hs as (Hd2 & t & Ht & Hr2).
  apply bind_Ok in Hok as (k & Hk & Hok). rewrite (between_split _ _ _ Hr2) in Hk.
  apply ok_or_Ok in Hk. case_bool_decide as Hnew; [done|].
  apply bind_Ok in Hok as (s4 & Hc & Hok). apply ok_or_Ok, consume_Some in Hc as [Hr3 Hd3].
  destruct (skip_whitespace_split s2) as (w2 & Hw2 & Hr2').
  apply bind_Ok in Hok as (s5 & Hv & Hok).
  assert (as_depth s4 = as_depth s) as Hd4 by (rewrite Hd3; exact Hd2).
  apply (Hvalue d) in Hv as (Hd5 & w3 & v & Hr4 & Hw3 & Hv); [|by rewrite Hd4..].
  destruct (skip_whitespace_split s5) as (w4 & Hw4 & Hr5).
  assert (as_rest s = (w1 ++ t ++ w2 ++ 58 :: w3 ++ v ++ w4) ++ as_rest (skip_whitespace s5)) as Hall.
  { rewrite Hr1, Hr2, Hr2', Hr3, Hr4, Hr5. rewrite <-!app_assoc. simpl.
    by rewrite <-!app_assoc. }
  assert (member_text d k (w1 ++ t ++ w2 ++ 58 :: w3 ++ v ++ w4)) as Hm by by constructor.
  assert (as_depth (skip_whitespace s5) = as_depth s) as Hd6 by (rewrite <-Hd4; exact Hd5).
  destruct (consume 125 (skip_whitespace s5)) as [s6|] eqn:E6.
  - injection Hok as <-. apply consume_Some in E6 as [Hr6 Hd7]. split; [congruence|].
    exists [k], (w1 ++ t ++ w2 ++ 58 :: w3 ++ v ++ w4). rewrite Hall, Hr6.
    split_and!; [done|by constructor|apply NoDup_singleton|].
    intros k' ->%list_elem_of_singleton. done.
  - apply bind_Ok in Hok as (s6 & E7 & Hok). apply ok_or_Ok, consume_Some in E7 as [Hr6 Hd7].
    apply (Hmembers d) in Hok as (Hd8 & ks & m & Hr8 & Hks & Hnd & Hfresh);
      [|rewrite Hd7, Hd6; done..].
    split; [congruence|]. exists (k :: ks), ((w1 ++ t ++ w2 ++ 58 :: w3 ++ v ++ w4) ++ 44 :: m).
    rewrite Hall, Hr6, Hr8, <-(app_assoc (_ ++ t ++ _)). split_and!; [done|by constructor| |].
    + constructor; [|done]. intros Hin%Hfresh. set_solver.
    + intros k' [->|Hin%Hfresh]%elem_of_cons; set_solver.
Qed.
Lemma items_sound_step fuel : value_sound fuel → items_sound fuel → items_sound (S fuel).
Proof.
  intros Hvalue Hitems d s s' Hd H0 Hok. cbn [scan_items] in Hok.
  apply bind_Ok in Hok as (s1 & Hv & Hok).
  apply (Hvalue d) in Hv as (Hd1 & w1 & v & Hr1 & Hw1 & Hv); [|done..].
  destruct (skip_whitespace_split s1) as (w2 & Hw2 & Hr2).
  assert (as_depth (skip_whitespace s1) = as_depth s) as Hd2 by exact Hd1.
  assert (as_rest s = (w1 ++ v ++ w2) ++ as_rest (skip_whitespace s1)) as Hall
    by (rewrite Hr1, Hr2; by rewrite !app_assoc).
  destruct (consume 93 (skip_whitespace s1)) as [s3|] eqn:E3.
  - injection Hok as <-. apply consume_Some in E3 as [Hr3 Hd3]. split; [congruence|].
    exists (w1 ++ v ++ w2). rewrite Hall, Hr3. split; [done|by constructor].
  - apply bind_Ok in Hok as (s3 & E4 & Hok). apply ok_or_Ok, consume_Some in E4 as [Hr3 Hd3].
    apply (Hitems d) in Hok as (Hd4 & t & Hr4 & Ht); [|rewrite Hd3, Hd2; done..].
    split; [congruence|]. exists (w1 ++ v ++ w2 ++ 44 :: t).
    rewrite Hall, Hr3, Hr4. split; [by rewrite <-!app_assoc|by constructor].
Qed.
Lemma scanner_sound fuel : value_sound fuel ∧ members_sound fuel ∧ items_sound fuel.
Proof.
  induction fuel as [|fuel (Hv & Hm & Hi)]; [by split_and!; intros ? **|].
  split_and!; [by apply value_sound_step|by apply members_sound_step|by apply items_sound_step].
Qed.

(** ** It accepts every such text *)
Lemma blank_ends b : is_blank b = true → ends_scalar b = true.
Proof. unfold ends_scalar. by intros ->. Qed.
Lemma stops_blanks w r : blanks w → stops r → stops (w ++ r).
Proof. destruct 1 as [|b w Hb _]; [done|]. intros _. by apply blank_ends. Qed.
Lemma skip_blanks_idem r : skip_blanks (skip_blanks r) = skip_blanks r.
Proof. induction r as [|b r IH]; simpl; [done|]. destruct (is_blank b) eqn:E; simpl; by rewrite ?E. Qed.
Lemma ends_blank b : ends_scalar b = false → is_blank b = false.
Proof. unfold ends_scalar. by destruct (is_blank b). Qed.
Lemma skip_whitespace_to s r : skip_blanks (as_rest s) = r → skip_whitespace s = at_rest s r.
Proof. unfold skip_whitespace. by intros ->. Qed.

(** Each statement takes a state by what follows its next blanks. *)
Definition value_complete (d : nat) (v : bytes) : Prop :=
  (∃ b v', v = b :: v' ∧ ends_scalar b = false)
  ∧ ∀ fuel s r, (2 * length v ≤ fuel)%nat → 0 ≤ as_depth s →
      as_depth s + Z.of_nat d ≤ MAX_AUTH_JSON_DEPTH → stops r →
      skip_blanks (as_rest s) = v ++ r → scan_value fuel s = Ok (at_rest s r).
Definition member_complete (d : nat) (k : text) (m : bytes) : Prop :=
  ∃ w1 t w2 w3 v w4, m = w1 ++ t ++ w2 ++ 58 :: w3 ++ v ++ w4
    ∧ blanks w1 ∧ string_token t ∧ decode t = Some k ∧ blanks w2 ∧ blanks w3 ∧ blanks w4
    ∧ value_complete d v.
(** The inside of a container: how it begins, and what [inner] does on it. *)
Definition inside_complete (d : nat) (close : Z) (t : bytes)
    (inner : nat → AuthJsonKeyScanner → result () AuthJsonKeyScanner) : Prop :=
  (∀ r, ∃ b t', skip_blanks (t ++ close :: r) = b :: t' ∧ b ≠ close)
  ∧ ∀ fuel s r, (2 * length t + 1 ≤ fuel)%nat → 0 ≤ as_depth s →
      as_depth s + Z.of_nat d ≤ MAX_AUTH_JSON_DEPTH →
      skip_blanks (as_rest s) = skip_blanks (t ++ close :: r) → inner fuel s = Ok (at_rest s r).
Definition members_complete (d : nat) (ks : list text) (t : bytes) : Prop :=
  ∀ keys, NoDup ks → (∀ k, k ∈ ks → k ∉ keys) →
    inside_complete d 125 t (λ fuel, scan_members fuel keys).
Definition items_complete (d : nat) (t : bytes) : Prop := inside_complete d 93 t scan_items.

Lemma skip_value d v w r :
  value_complete d v → blanks w → skip_blanks (w ++ v ++ r) = v ++ r.
Proof.
  intros [(b & v' & -> & Hb) _] Hw. rewrite skip_blanks_app by done.
  apply skip_blanks_stop, ends_blank, Hb.
Qed.
Lemma string_complete d t : string_token t → value_complete d t.
Proof.
  intros Ht. pose proof Ht as (i & -> & Hi). split; [by eexists 34, _|].
  intros [|fuel] s r Hf H0 Hd Hr Hs; simpl in Hf; [lia|]. cbn [scan_value].
  rewrite (skip_whitespace_to s _ Hs). simpl.
  by rewrite (scan_string_complete _ (34 :: i ++ [34]) r Ht).
Qed.
Lemma scalar_complete d t : scalar_token t → value_complete d t.
Proof.
  intros (b & i & -> & H34 & H123 & H91 & Hall). apply Forall_cons in Hall as [Hb Hi].
  split; [by eexists b, _|]. intros [|fuel] s r Hf H0 Hd Hr Hs; simpl in Hf; [lia|].
  cbn [scan_value]. rewrite (skip_whitespace_to s _ Hs).
  transitivity (scan_scalar (at_rest s (b :: i ++ r))).
  { cbn [as_rest at_rest app]. destruct b as [|p|p]; try done. repeat (destruct p as [p|p|]; try done). }
  unfold scan_scalar. simpl. rewrite Hb. by rewrite scalar_tail_complete.
Qed.
Lemma container_complete s d close t r fuel
    (inner : nat → AuthJsonKeyScanner → result () AuthJsonKeyScanner) :
  (2 * length t + 1 ≤ fuel)%nat → 0 ≤ as_depth s →
  as_depth s + Z.of_nat (S d) ≤ MAX_AUTH_JSON_DEPTH → is_blank close = false →
  blanks t ∨ inside_complete d close t inner →
  (s1 ← enter_container s;
   s2 ← match consume close (skip_whitespace (at_rest s1 (t ++ close :: r))) with
        | Some s => Ok s
        | None => inner fuel (skip_whitespace (at_rest s1 (t ++ close :: r)))
        end; Ok (leave_container s2)) = Ok (at_rest s r).
Proof.
  intros Hf H0 Hd Hclose Ht. unfold enter_container.
  rewrite (proj2 (Z.ltb_ge _ _)) by (unfold MAX_AUTH_JSON_DEPTH in *; lia). simpl.
  set (s1 := {| as_rest := as_rest s; as_depth := as_depth s + 1 |}).
  assert (leave_container (at_rest s1 r) = at_rest s r) as Hleave.
  { unfold leave_container, at_rest. simpl. f_equal. lia. }
  destruct Ht as [Ht|[Hhead Hinner]].
  - rewrite (skip_whitespace_to _ (close :: r)).
    + rewrite (consume_head close _ r) by done. simpl. by rewrite <-Hleave.
    + simpl. by rewrite skip_blanks_app, skip_blanks_stop.
  - destruct (Hhead r) as (b & t' & Hb & Hne).
    rewrite (skip_whitespace_to _ (b :: t')) by done.
    rewrite (consume_other close _ b t') by done.
    rewrite (Hinner fuel _ r); [by rewrite <-Hleave|done|simpl; lia|simpl; lia|].
    cbn [as_rest at_rest].
    by rewrite <-Hb, skip_blanks_idem.
Qed.
Lemma object_complete d ks t :
  blanks t ∨ (NoDup ks ∧ members_complete d ks t) → value_complete (S d) (123 :: t ++ [125]).
Proof.
  intros Ht. split; [by eexists 123, _|]. intros [|fuel] s r Hf H0 Hd Hr Hs; simpl in Hf; [lia|].
  cbn [scan_value]. rewrite (skip_whitespace_to s _ Hs).
  rewrite length_app in Hf. simpl in Hf. cbn [as_rest at_rest app]. rewrite <-app_assoc. simpl.
  apply (container_complete (at_rest s _) d 125 t r fuel (λ fuel, scan_members fuel ∅));
    [lia|done|done|done|].
  destruct Ht as [?|[Hnd Ht]]; [by left|right]. apply Ht; [done|]. set_solver.
Qed.
Lemma array_complete d t :
  blanks t ∨ items_complete d t → value_complete (S d) (91 :: t ++ [93]).
Proof.
  intros Ht. split; [by eexists 91, _|]. intros [|fuel] s r Hf H0 Hd Hr Hs; simpl in Hf; [lia|].
  cbn [scan_value]. rewrite (skip_whitespace_to s _ Hs).
  rewrite length_app in Hf. simpl in Hf. cbn [as_rest at_rest app]. rewrite <-app_assoc. simpl.
  by apply (container_complete (at_rest s _) d 93 t r fuel scan_items); [lia|..].
Qed.

Lemma member_scan fuel keys s d k m r :
  member_complete d k m → (2 * length m ≤ fuel)%nat → 0 ≤ as_depth s →
  as_depth s + Z.of_nat d ≤ MAX_AUTH_JSON_DEPTH → k ∉ keys → stops r →
  (∃ b r', r = b :: r' ∧ is_blank b = false) →
  skip_blanks (as_rest s) = skip_blanks (m ++ r) →
  scan_members (S fuel) keys s
  = match consume 125 (at_rest s r) with
    | Some s => Ok s
    | None => s ← ok_or (consume 44 (at_rest s r)) (); scan_members fuel ({[k]} ∪ keys) s
    end.
Proof.
  intros (w1 & t & w2 & w3 & v & w4 & -> & Hw1 & Ht & Hk & Hw2 & Hw3 & Hw4 & Hv) Hf H0 Hd Hnew Hstop
    (b & r' & -> & Hb) Hs.
  assert (skip_blanks (as_rest s) = t ++ w2 ++ 58 :: w3 ++ v ++ w4 ++ b :: r') as Hs'.
  { rewrite Hs, <-!app_assoc, skip_blanks_app by done. simpl. rewrite <-!app_assoc.
    destruct Ht as (i & -> & _). done. }
  cbn [scan_members]. rewrite (skip_whitespace_to s _ Hs').
  rewrite (scan_string_complete _ t (w2 ++ 58 :: w3 ++ v ++ w4 ++ b :: r') Ht) by done. simpl.
  rewrite (between_split _ _ t) by done. rewrite Hk. simpl. rewrite bool_decide_eq_false_2 by done.
  rewrite (skip_whitespace_to _ (58 :: w3 ++ v ++ w4 ++ b :: r'))
    by (simpl; by rewrite skip_blanks_app by done).
  rewrite (consume_head 58 _ (w3 ++ v ++ w4 ++ b :: r')) by done. simpl.
  rewrite (proj2 Hv fuel _ (w4 ++ b :: r')); cycle 1.
  { rewrite !length_app in Hf. simpl in Hf. rewrite !length_app in Hf. lia. }
  { done. }
  { done. }
  { by apply stops_blanks. }
  { by apply (skip_value d). }
  simpl. rewrite (skip_whitespace_to _ (b :: r'))
    by (simpl; by rewrite skip_blanks_app, skip_blanks_stop by done).
  done.
Qed.
Lemma member_head d k m r :
  member_complete d k m → ∃ t', skip_blanks (m ++ r) = 34 :: t'.
Proof.
  intros (w1 & t & w2 & w3 & v & w4 & -> & Hw1 & (i & -> & _) & _).
  rewrite <-!app_assoc, skip_blanks_app by done. by eexists.
Qed.
Lemma members_one_complete d k t : member_complete d k t → members_complete d [k] t.
Proof.
  intros Hm keys _ Hnew. split.
  - intros r. destruct (member_head d k t (125 :: r) Hm) as [t' ->]. by eexists 34, _.
  - intros [|fuel] s r Hf H0 Hd Hs; [lia|].
    rewrite (member_scan fuel keys s d k t (125 :: r)); try done; [lia| |by eexists 125, r].
    apply Hnew, list_elem_of_here.
Qed.
Lemma members_more_complete d k t ks t' :
  member_complete d k t → members_complete d ks t' → members_complete d (k :: ks) (t ++ 44 :: t').
Proof.
  intros Hm Hms keys [Hk Hnd]%NoDup_cons Hnew. split.
  - intros r. rewrite <-app_assoc. destruct (member_head d k t ((44 :: t') ++ 125 :: r) Hm) as [t0 ->].
    by eexists 34, _.
  - intros [|fuel] s r Hf H0 Hd Hs; [lia|]. rewrite length_app in Hf. simpl in Hf.
    rewrite <-app_assoc in Hs. simpl in Hs.
    rewrite (member_scan fuel keys s d k t (44 :: t' ++ 125 :: r)); try done;
      [|lia| |by eexists 44, _].
    + rewrite (consume_other 125 _ 44 (t' ++ 125 :: r)) by done.
      rewrite (consume_head 44 _ (t' ++ 125 :: r)) by done. simpl.
      destruct (Hms ({[k]} ∪ keys) Hnd) as [_ Hscan].
      { intros k' Hk'. apply not_elem_of_union. split; [|by apply Hnew, list_elem_of_further].
        intros ->%elem_of_singleton. done. }
      by rewrite (Hscan fuel _ r); [|lia|..].
    + apply Hnew, list_elem_of_here.
Qed.
Lemma items_scan fuel s d w1 v w2 r :
  value_complete d v → blanks w1 → blanks w2 → (2 * length v ≤ fuel)%nat → 0 ≤ as_depth s →
  as_depth s + Z.of_nat d ≤ MAX_AUTH_JSON_DEPTH → stops r →
  (∃ b r', r = b :: r' ∧ is_blank b = false) →
  skip_blanks (as_rest s) = skip_blanks (w1 ++ v ++ w2 ++ r) →
  scan_items (S fuel) s
  = match consume 93 (at_rest s r) with
    | Some s => Ok s
    | None => s ← ok_or (consume 44 (at_rest s r)) (); scan_items fuel s
    end.
Proof.
  intros Hv Hw1 Hw2 Hf H0 Hd Hstop (b & r' & -> & Hb) Hs. rewrite (skip_value d) in Hs by done.
  cbn [scan_items]. rewrite (proj2 Hv fuel s (w2 ++ b :: r')); try done; [|by apply stops_blanks].
  simpl. rewrite (skip_whitespace_to _ (b :: r')); [done|].
  simpl. by rewrite skip_blanks_app, skip_blanks_stop.
Qed.
Lemma items_one_complete d w1 v w2 :
  blanks w1 → value_complete d v → blanks w2 → items_complete d (w1 ++ v ++ w2).
Proof.
  intros Hw1 Hv Hw2. split.
  - intros r. rewrite <-!app_assoc, (skip_value d) by done. destruct Hv as [(b & v' & -> & Hb) _].
    eexists b, _. split; [done|]. by intros ->.
  - intros [|fuel] s r Hf H0 Hd Hs; [lia|]. rewrite !length_app in Hf. rewrite <-!app_assoc in Hs.
    rewrite (items_scan fuel s d w1 v w2 (93 :: r)); try done; [lia|by eexists 93, r].
Qed.
Lemma items_more_complete d w1 v w2 t :
  blanks w1 → value_complete d v → blanks w2 → items_complete d t →
  items_complete d (w1 ++ v ++ w2 ++ 44 :: t).
Proof.
  intros Hw1 Hv Hw2 Ht. split.
  - intros r. rewrite <-!app_assoc, (skip_value d) by done. destruct Hv as [(b & v' & -> & Hb) _].
    eexists b, _. split; [done|]. by intros ->.
  - intros [|fuel] s r Hf H0 Hd Hs; [lia|]. rewrite !length_app in Hf. simpl in Hf.
    rewrite <-!app_assoc in Hs. simpl in Hs.
    rewrite (items_scan fuel s d w1 v w2 (44 :: t ++ 93 :: r)); try done; [|lia|by eexists 44, _].
    rewrite (consume_other 93 _ 44 (t ++ 93 :: r)) by done.
    rewrite (consume_head 44 _ (t ++ 93 :: r)) by done. simpl.
    destruct Ht as [_ Hscan]. by rewrite (Hscan fuel _ r); [|lia|..].
Qed.
Lemma scanner_complete :
  (∀ d v, value_text d v → value_complete d v)
  ∧ (∀ d ks t, members_text d ks t → members_complete d ks t)
  ∧ (∀ d k t, member_text d k t → member_complete d k t)
  ∧ (∀ d t, items_text d t → items_complete d t).
Proof.
  apply texts_ind.
  - apply string_complete.
  - apply scalar_complete.
  - intros d w Hw. apply (object_complete d []). by left.
  - intros d ks t _ Ht Hnd. apply (object_complete d ks). by right.
  - intros d w Hw. apply array_complete. by left.
  - intros d t _ Ht. apply array_complete. by right.
  - intros. by apply members_one_complete.
  - intros. by apply members_more_complete.
  - intros d k w1 t w2 w3 v w4 **. by exists w1, t, w2, w3, v, w4.
  - intros. by apply items_one_complete.
  - intros. by apply items_more_complete.
Qed.

(** C24. The scanner accepts exactly the documents of one value between blanks, with
    containers nested at most [MAX_AUTH_JSON_DEPTH] deep, in which no object has two
    members whose keys decode to the same text. *)
Theorem scanner_exact (input : bytes) :
  reject_duplicate_json_keys input = Ok () ↔
  ∃ w v w', input = w ++ v ++ w' ∧ blanks w ∧ blanks w'
    ∧ value_text (Z.to_nat MAX_AUTH_JSON_DEPTH) v.
Proof.
  unfold reject_duplicate_json_keys, scan. rewrite bind_Ok. split.
  - intros (s & Hs & Hend). destruct (scanner_sound (S (2 * length input))) as [Hsound _].
    apply (Hsound (Z.to_nat MAX_AUTH_JSON_DEPTH)) in Hs as (_ & w & v & Hr & Hw & Hv); [|done..].
    destruct (skip_whitespace_split s) as (w' & Hw' & Hr'). simpl in Hr.
    destruct (as_rest (skip_whitespace s)) eqn:E; [|done]. exists w, v, w'.
    rewrite Hr, Hr', app_nil_r. done.
  - intros (w & v & w' & -> & Hw & Hw' & Hv). pose proof (proj1 scanner_complete _ _ Hv) as Hc.
    exists {| as_rest := w'; as_depth := 0 |}. split.
    + apply (proj2 Hc _ {| as_rest := _; as_depth := 0 |}); [|done|done| |].
      * rewrite !length_app. lia.
      * rewrite <-(app_nil_r w'). by apply stops_blanks.
      * by eapply skip_value.
    + rewrite (skip_whitespace_to _ []); [done|]. simpl.
    by rewrite <-(app_nil_r w'), skip_blanks_app.
Qed.
End scanner.

(** ** The account id of a file *)
Section account.
Context (decode : bytes → option text) {N : Type} `{JsonNumber N}.
(** [serde_json::from_slice::<Value>] *)
Context (from_slice : bytes → option (Value N)).
Definition MAX_AUTH_FILE_BYTES : Z := 64 * 1024.
Definition MAX_ACCOUNT_ID_BYTES : Z := 512.
Definition account_error : text := lit "Codex account authority is invalid".
(** [AccountAuthorityId::from_str] *)
Definition AccountAuthorityId_from_str (value : text) : result text text :=
  reject account_error when
    bool_decide (value = []) || (MAX_ACCOUNT_ID_BYTES <? str_len value) || existsb is_control value;
  Ok value.
Definition parse_account_authority (input : bytes) : result text text :=
  reject account_error when
    bool_decide (input = []) || (MAX_AUTH_FILE_BYTES <? Z.of_nat (length input));
  _ ← map_err (λ _, account_error) (reject_duplicate_json_keys decode input);
  value ← ok_or (from_slice input) account_error;
  account_id ← ok_or
    (as_object value ?> get (lit "tokens") ?> as_object ?> get (lit "account_id") ?> as_str)
    account_error;
  AccountAuthorityId_from_str account_id.
End account.

Lemma utf8_width_pos c : 0 < utf8_width c.
Proof. unfold utf8_width. by repeat case_match. Qed.
Lemma str_len_pos value : value ≠ [] ↔ 0 < str_len value.
Proof.
  destruct value as [|c value]; simpl; [split; [done|unfold str_len; simpl; lia]|].
  split; [intros _|done]. unfold str_len. simpl.
  assert (0 ≤ foldr (λ c n, utf8_width c + n) 0 value) as Hpos.
  { induction value as [|b l IH]; simpl; [done|]. pose proof (utf8_width_pos b). lia. }
  pose proof (utf8_width_pos c). lia.
Qed.
Lemma from_str_Ok value id :
  AccountAuthorityId_from_str value = Ok id ↔
  value = id ∧ 0 < str_len id ≤ MAX_ACCOUNT_ID_BYTES ∧ ∀ c, c ∈ id → is_control c = false.
Proof.
  unfold AccountAuthorityId_from_str. rewrite reject_Ok, !orb_false_iff, bool_decide_eq_false, Z.ltb_ge.
  rewrite str_len_pos. assert (existsb is_control value = false ↔ ∀ c, c ∈ value → is_control c = false) as ->.
  { split.
    - intros Hn c Hc. destruct (is_control c) eqn:E; [|done].
      rewrite <-Hn. symmetry. apply existsb_exists. exists c. by rewrite <-list_elem_of_In.
    - intros Hall. destruct (existsb is_control value) eqn:E; [|done].
      apply existsb_exists in E as (c & Hc & Hb). rewrite <-list_elem_of_In in Hc. by rewrite Hall in Hb. }
  split; [intros [[[? ?] ?] [= ->]]; split_and!; (done || lia)|].
  intros (-> & ? & ?). split_and!; (done || lia).
Qed.
Section authority.
Context (decode : bytes → option text) {N : Type} `{JsonNumber N}.
Context (from_slice : bytes → option (Value N)).

(** An account id is read exactly when the file has an admissible size, repeats no
    key, and parses to an object whose [tokens] object holds as [account_id] a text
    of 1 to 512 bytes without control characters; and it is that text. *)
Theorem account_authority_exact (input : bytes) (id : text) :
  parse_account_authority decode from_slice input = Ok id ↔
  0 < Z.of_nat (length input) ≤ MAX_AUTH_FILE_BYTES
  ∧ (∃ w v w', input = w ++ v ++ w' ∧ blanks w ∧ blanks w'
       ∧ value_text decode (Z.to_nat MAX_AUTH_JSON_DEPTH) v)
  ∧ (∃ members tokens, from_slice input = Some (Object members)
       ∧ get (lit "tokens") members = Some (Object tokens)
       ∧ get (lit "account_id") tokens = Some (VString id))
  ∧ 0 < str_len id ≤ MAX_ACCOUNT_ID_BYTES ∧ ∀ c, c ∈ id → is_control c = false.
Proof.
  unfold parse_account_authority. rewrite reject_Ok, bind_Ok. setoid_rewrite bind_Ok.
  setoid_rewrite bind_Ok. setoid_rewrite map_err_Ok. setoid_rewrite ok_or_Ok.
  setoid_rewrite from_str_Ok. rewrite <-scanner_exact.
  rewrite orb_false_iff, bool_decide_eq_false, Z.ltb_ge.
  assert (input ≠ [] ↔ 0 < Z.of_nat (length input)) as ->.
  { rewrite <-length_zero_iff_nil. lia. }
  split.
  - intros (Hlen & [] & Hscan & value & Hvalue & id' & Hid & -> & Hstr & Hc).
    split_and!; [lia..|done| |lia|lia|done].
    destruct value as [| | | | |members]; try done. simpl in Hid.
    destruct (get (lit "tokens") members) as [tokens|] eqn:Et; [|done]. simpl in Hid.
    destruct tokens as [| | | | |tokens]; try done. simpl in Hid.
    destruct (get (lit "account_id") tokens) as [[| | |s| |]|] eqn:Ea; try done.
    injection Hid as ->. by exists members, tokens.
  - intros (Hlen & Hscan & (members & tokens & Hvalue & Ht & Ha) & Hstr & Hc).
    split; [lia|]. exists (). split; [done|]. exists (Object members). split; [done|].
    exists id. simpl. rewrite Ht. simpl. by rewrite Ha.
Qed.
End authority.

(** ** Concrete files *)
Definition example_decode (token : bytes) : option text := Some (take (length token - 2) (drop 1 token)).
(** Literals with a backquote for the quote. *)
Definition quoted (s : string) : bytes := map (λ c, if c =? 96 then 34 else c) (lit s).
Definition example_scan (s : string) : bool := is_ok (reject_duplicate_json_keys example_decode (quoted s)).
Example scans :
  map example_scan
    ["{ `tokens` : {`account_id`:`a-1`, `n` : [1, {}] } } "; "{`a`:1,`a`:2}"; "{`a`:{`a`:[]}}";
     "[1,]"; "{`a`:1,}"; "[[`\`,1]`]]"; "nul"; "{}x"]%string
  = [true; false; true; false; false; true; true; false].
Proof. by vm_compute. Qed.
Example depths :
  map (λ n, is_ok (reject_duplicate_json_keys example_decode (repeat 91 n ++ repeat 93 n))) [128%nat; 129%nat]
  = [true; false].
Proof. by vm_compute. Qed.
