(* ===== verification/Schedule.v ===== *)
(** * Fixed-rate pacing of the recorder

    Models [FixedRateSchedule] of [crates/codex-info-recorder/src/lib.rs]. An
    [Instant] and a [Duration] are their nanoseconds; an instant is the [Timespec] of
    the platform the recorder runs on, whose seconds are an [i64], a duration has
    [u64] seconds. *)

From S2P Require Import Prelude.

Definition nanos_per_second : Z := 1000000000.
Definition instant_max : Z := i64_max * nanos_per_second + 999999999.
Definition duration_max : Z := u64_max * nanos_per_second + 999999999.
(** [Instant::checked_add] *)
Definition instant_add (at_ duration : Z) : option Z :=
  if at_ + duration <=? instant_max then Some (at_ + duration) else None.
(** [Instant::saturating_duration_since], [Instant::duration_since] *)
Definition since (later earlier : Z) : Z := Z.max 0 (later - earlier).

Record FixedRateSchedule := { fs_interval : Z; fs_next_deadline : Z }.
Record FixedRateWait := { fw_sleep_for : Z; fw_missed_deadlines : Z }.

(** [None]: one of its assertions fails. *)
Definition anchored (anchor interval : Z) : option FixedRateSchedule :=
  if interval =? 0 then None
  else option_map (λ deadline, {| fs_interval := interval; fs_next_deadline := deadline |})
         (instant_add anchor interval).
Definition time_until_deadline (self : FixedRateSchedule) (now : Z) : Z :=
  since (fs_next_deadline self) now.

Definition checked_duration_mul (duration count : Z) : option Z :=
  let nanos := duration * count in
  if u128_max <? nanos then None
  else
    let seconds := nanos / nanos_per_second in
    let subsec_nanos := nanos mod nanos_per_second in
    if u64_max <? seconds then None else Some (seconds * nanos_per_second + subsec_nanos).

Definition or_else {A} (o p : option A) : option A := match o with Some _ => o | None => p end.
Definition complete_cycle (self : FixedRateSchedule) (now : Z) : FixedRateSchedule * FixedRateWait :=
  if now <=? fs_next_deadline self then
    ({| fs_interval := fs_interval self;
        fs_next_deadline :=
          default now (or_else (instant_add (fs_next_deadline self) (fs_interval self))
                         (instant_add now (fs_interval self))) |},
     {| fw_sleep_for := since (fs_next_deadline self) now; fw_missed_deadlines := 0 |})
  else
    let late_nanos := since now (fs_next_deadline self) in
    let missed :=
      if fs_interval self =? 0 then u128_max else late_nanos / fs_interval self + 1 in
    let missed_deadlines := if u64_max <? missed then u64_max else missed in
    ({| fs_interval := fs_interval self;
        fs_next_deadline :=
          default now
            (or_else
               ((checked_duration_mul (fs_interval self) missed_deadlines
                 ≫= instant_add (fs_next_deadline self))
                ≫= λ deadline, if now <? deadline then Some deadline else None)
               (instant_add now (fs_interval self))) |},
     {| fw_sleep_for := 0; fw_missed_deadlines := missed_deadlines |}).

(** A run: the cycles complete at the given instants. *)
Fixpoint cycles (self : FixedRateSchedule) (nows : list Z) :
    FixedRateSchedule * list FixedRateWait :=
  match nows with
  | [] => (self, [])
  | now :: nows =>
      let '(self, wait) := complete_cycle self now in
      let '(self, waits) := cycles self nows in
      (self, wait :: waits)
  end.
Definition run (anchor interval : Z) (nows : list Z) : option (FixedRateSchedule * list FixedRateWait) :=
  option_map (λ self, cycles self nows) (anchored anchor interval).

(** The deadlines a cycle uses up: the one it waited for, or those it missed. *)
Definition used (wait : FixedRateWait) : Z := Z.max 1 (fw_missed_deadlines wait).
Definition total_used (waits : list FixedRateWait) : Z := foldr (λ w n, used w + n) 0 waits.

(** A schedule and an instant far enough from the end of the clock. *)
Definition in_range_of_clock (self : FixedRateSchedule) (now : Z) : Prop :=
  nanos_per_second ≤ fs_interval self ∧ 0 ≤ fs_next_deadline self ∧ 0 ≤ now
  ∧ Z.max now (fs_next_deadline self) + fs_interval self ≤ instant_max.

(** The cycle never leaves a deadline in the past. *)
Lemma complete_cycle_future self now :
  0 < fs_interval self → now + fs_interval self ≤ instant_max →
  now < fs_next_deadline (complete_cycle self now).1.
Proof.
  intros Hi Hroom. unfold complete_cycle.
  assert (instant_add now (fs_interval self) = Some (now + fs_interval self)) as Hadd.
  { unfold instant_add. by rewrite (proj2 (Z.leb_le _ _)). }
  rewrite Hadd. destruct (Z.leb_spec now (fs_next_deadline self)); cbn [fst fs_next_deadline].
  - unfold instant_add. destruct (_ <=? _); simpl; lia.
  - destruct ((checked_duration_mul _ _ ≫= _) ≫= _) as [d|] eqn:E; simpl; [|lia].
    apply bind_Some in E as (d' & _ & E). destruct (Z.ltb_spec now d'); [|done]. by injection E as <-.
Qed.
Lemma checked_mul_exact i n :
  0 ≤ i * n ≤ instant_max → checked_duration_mul i n = Some (i * n).
Proof.
  intros Hin. unfold checked_duration_mul.
  assert (instant_max ≤ u128_max) as Hu128 by (by apply Z.leb_le; vm_compute).
  rewrite (proj2 (Z.ltb_ge u128_max _)) by lia. rewrite (proj2 (Z.ltb_ge u64_max _)).
  - f_equal. pose proof (Z.div_mod (i * n) nanos_per_second ltac:(done)). lia.
  - transitivity (instant_max / nanos_per_second); [|by apply Z.leb_le; vm_compute].
    apply Z.div_le_mono; [done|lia].
Qed.
Lemma late_exact self now :
  in_range_of_clock self now → fs_next_deadline self < now →
  let missed := (now - fs_next_deadline self) / fs_interval self + 1 in
  fs_next_deadline self + (missed - 1) * fs_interval self ≤ now
  ∧ now < fs_next_deadline self + missed * fs_interval self ≤ now + fs_interval self
  ∧ complete_cycle self now
    = ({| fs_interval := fs_interval self;
          fs_next_deadline := fs_next_deadline self + missed * fs_interval self |},
       {| fw_sleep_for := 0; fw_missed_deadlines := missed |}).
Proof.
  intros (Hi & Hd & Hn & Hroom) Hlate missed.
  set (late := now - fs_next_deadline self) in *. set (i := fs_interval self) in *.
  assert (0 < i) as Hi0 by (unfold nanos_per_second in Hi; lia).
  pose proof (Z.div_mod late i ltac:(lia)) as Hdiv. pose proof (Z.mod_pos_bound late i Hi0) as Hmod.
  assert (0 ≤ late / i) as Hq by (apply Z.div_pos; lia).
  assert (missed * i = late - late mod i + i) as Hm by (unfold missed; lia).
  split; [unfold missed; lia|]. split; [lia|].
  unfold complete_cycle. cbv zeta. fold i. rewrite (proj2 (Z.leb_gt _ _)) by lia.
  rewrite (proj2 (Z.eqb_neq i 0)) by lia. unfold since. fold late. rewrite (Z.max_r 0 late) by lia.
  fold missed. rewrite (proj2 (Z.ltb_ge u64_max missed)); cycle 1.
  { transitivity (instant_max / nanos_per_second + 1); [|by apply Z.leb_le; vm_compute].
    unfold missed. apply Z.add_le_mono_r. transitivity (late / nanos_per_second).
    - apply Z.div_le_compat_l; [lia|]. split; [done|exact Hi].
    - apply Z.div_le_mono; [done|lia]. }
  rewrite (checked_mul_exact i missed) by lia.
  cbn [mbind option_bind]. unfold instant_add.
  rewrite (proj2 (Z.leb_le (fs_next_deadline self + i * missed) instant_max)) by lia.
  cbn [mbind option_bind]. rewrite (proj2 (Z.ltb_lt _ _)) by lia. cbn [or_else default].
  by rewrite (Z.mul_comm i missed).
Qed.
Lemma on_time_exact self now :
  in_range_of_clock self now → now ≤ fs_next_deadline self →
  complete_cycle self now
  = ({| fs_interval := fs_interval self;
        fs_next_deadline := fs_next_deadline self + fs_interval self |},
     {| fw_sleep_for := fs_next_deadline self - now; fw_missed_deadlines := 0 |}).
Proof.
  intros (Hi & Hd & Hn & Hroom) Hle. unfold complete_cycle. rewrite (proj2 (Z.leb_le _ _)) by done.
  unfold instant_add. rewrite (proj2 (Z.leb_le (fs_next_deadline self + _) _)) by lia.
  cbn [or_else default]. unfold since. by rewrite Z.max_r by lia.
Qed.

(** A completed cycle moves the deadline by the deadlines it uses up: the one it
    sleeps until when it is early, or else exactly those up to now, after which it
    runs at once; the next deadline lies in the future, at most one interval ahead
    of a late cycle. *)
Theorem cycle_exact self now :
  in_range_of_clock self now →
  let '(self', wait) := complete_cycle self now in
  fs_interval self' = fs_interval self
  ∧ fs_next_deadline self' = fs_next_deadline self + used wait * fs_interval self
  ∧ now < fs_next_deadline self'
  ∧ (now ≤ fs_next_deadline self →
      fw_missed_deadlines wait = 0 ∧ now + fw_sleep_for wait = fs_next_deadline self)
  ∧ (fs_next_deadline self < now →
      fw_sleep_for wait = 0 ∧ fs_next_deadline self' ≤ now + fs_interval self
      ∧ ∀ k, 0 ≤ k → fs_next_deadline self + k * fs_interval self ≤ now ↔ k < fw_missed_deadlines wait).
Proof.
  intros Hr. pose proof Hr as (Hi & Hd & Hn & Hroom).
  assert (0 < fs_interval self) as Hi0 by (unfold nanos_per_second in Hi; lia).
  destruct (Z.le_gt_cases now (fs_next_deadline self)) as [Hle|Hgt].
  - rewrite on_time_exact by done. unfold used. simpl. split_and!; lia.
  - destruct (late_exact self now Hr Hgt) as (Hlow & [Hhigh Hnext] & ->).
    assert (0 ≤ (now - fs_next_deadline self) / fs_interval self) as Hq by (apply Z.div_pos; lia).
    set (missed := (now - fs_next_deadline self) / fs_interval self + 1) in *.
    unfold used. cbn [fs_interval fs_next_deadline fw_missed_deadlines fw_sleep_for].
    rewrite (Z.max_r 1 missed) by lia. split_and!; [done|done|lia|lia|]. intros _.
    split_and!; [done|done|]. intros k Hk. split; intros H; nia.
Qed.

(** The cycles of a run keep to the clock when each completes before its end. *)
Fixpoint keeps_to_clock (self : FixedRateSchedule) (nows : list Z) : Prop :=
  match nows with
  | [] => True
  | now :: nows => in_range_of_clock self now ∧ keeps_to_clock (complete_cycle self now).1 nows
  end.
Lemma cycles_exact nows self :
  keeps_to_clock self nows →
  fs_interval (cycles self nows).1 = fs_interval self
  ∧ fs_next_deadline (cycles self nows).1
    = fs_next_deadline self + total_used (cycles self nows).2 * fs_interval self.
Proof.
  revert self. induction nows as [|now nows IH]; intros self; cbn [cycles keeps_to_clock].
  { intros _. simpl. split; [done|lia]. }
  intros [Hr Hrest]. pose proof (cycle_exact self now Hr) as Hone.
  destruct (complete_cycle self now) as [self1 wait]. simpl in Hrest.
  destruct Hone as (Hi & Hd & _). specialize (IH self1 Hrest).
  destruct (cycles self1 nows) as [self2 waits]. simpl in *. destruct IH as [-> ->].
  split; [done|]. rewrite Hd, Hi. ring.
Qed.

(** Cycle work never shifts the grid: after any run the deadline is the anchor plus
    one interval for itself and one for every deadline waited for or reported missed. *)
Theorem pacing_keeps_grid anchor interval nows self waits start :
  anchored anchor interval = Some start → keeps_to_clock start nows →
  run anchor interval nows = Some (self, waits) →
  fs_next_deadline self = anchor + (1 + total_used waits) * interval.
Proof.
  intros Hs Hk Hrun. unfold run in Hrun. rewrite Hs in Hrun. injection Hrun as Hrun.
  pose proof (cycles_exact nows start Hk) as [Hi Hd]. rewrite Hrun in Hi, Hd. simpl in *.
  unfold anchored, instant_add in Hs. destruct (interval =? 0); [done|].
  destruct (anchor + interval <=? instant_max); [|done]. injection Hs as <-. simpl in *. lia.
Qed.

(** A minute's schedule: one early cycle, one that misses two deadlines. *)
Definition example_minute : FixedRateSchedule :=
  {| fs_interval := 60 * nanos_per_second; fs_next_deadline := 160 * nanos_per_second |}.
Definition example_nows : list Z := [130 * nanos_per_second; 290 * nanos_per_second].
Example example_pacing :
  option_map (λ r, (fs_next_deadline r.1 / nanos_per_second, map fw_missed_deadlines r.2))
    (run (100 * nanos_per_second) (60 * nanos_per_second) example_nows)
  = Some (340, [0; 2]).
Proof. by vm_compute. Qed.

Lemma cycle_exact_witness :
  let wait := (complete_cycle example_minute (290 * nanos_per_second)).2 in
  fw_sleep_for wait = 0 ∧ fw_missed_deadlines wait = 3.
Proof.
  pose proof (cycle_exact example_minute (290 * nanos_per_second)) as H.
  assert (in_range_of_clock example_minute (290 * nanos_per_second)) as Hr
    by (split_and!; by apply Z.leb_le; vm_compute).
  specialize (H Hr). destruct H as (_ & _ & _ & _ & H).
  split; [apply H; reflexivity|vm_compute; reflexivity].
Defined.
Lemma pacing_keeps_grid_witness :
  340 * nanos_per_second = 100 * nanos_per_second + (1 + total_used
    (cycles example_minute example_nows).2) * (60 * nanos_per_second).
Proof.
  apply (pacing_keeps_grid (100 * nanos_per_second) (60 * nanos_per_second) example_nows
    {| fs_interval := 60 * nanos_per_second; fs_next_deadline := 340 * nanos_per_second |}
    _ example_minute).
  - vm_compute. reflexivity.
  - split; [|split; [|exact I]]; unfold in_range_of_clock; split_and!;
      apply Z.leb_le; vm_compute; reflexivity.
  - vm_compute. reflexivity.
Defined.
