(* ===== verification/History.v ===== *)
(** * The recorder's totals and minute history

    Models the token totals per model of [crates/codex-info-recorder/src/lib.rs]
    ([ModelCounter], [ModelTotals]) and the projection of admitted events to one
    sample per minute ([build_history], [exact_changed_minute_history]). A
    [ModelTotals] is a finite map; where the source walks its [BTreeMap], the model
    walks the entries in the order of the names. *)

From S2P Require Import Prelude Text Float64 TokenFacts ModelNames Pricing SessionRecord.

(** The errors these functions return, and the one way they could panic. *)
Inductive RecorderError := Invalid (message : text) | Panicked.
Definition UNATTRIBUTED_MODEL : text := lit "UNATTRIBUTED".

(** A [ModelCounter] has the five fields of a snapshot. *)
Abbreviation ModelCounter := TokenSnapshot.
Definition ModelCounter_default : ModelCounter := {|
  ts_total := 0; ts_input := Some 0; ts_cached_input := Some 0; ts_output := Some 0;
  ts_cache_write_input := Some 0 |}.
Record SessionModelTotal := { st_model : text; st_tokens : TokenSnapshot }.
#[export] Instance TokenSnapshot_eq_dec : EqDecision TokenSnapshot.
Proof. solve_decision. Defined.
#[export] Instance SessionModelTotal_eq_dec : EqDecision SessionModelTotal.
Proof. solve_decision. Defined.

Definition counter_add (self : ModelCounter) (delta : TokenSnapshot) :
    result RecorderError ModelCounter :=
  sum ← map_err (λ _, Invalid (lit "session token total arithmetic is invalid"))
          (checked_sum (facts self) (facts delta));
  Ok (from_facts sum).
Definition counter_dollars (self : ModelCounter) (model : text) : option f64 :=
  input ← ts_input self;
  cached_input ← ts_cached_input self;
  output ← ts_output self;
  cost ← estimate_legacy model {|
    u_input_tokens := input; u_cached_input_tokens := cached_input;
    u_cache_write_input_tokens :=
      if is_any model ["SOL"; "TERRA"; "LUNA"] then Some 0 else ts_cache_write_input self;
    u_output_tokens := output |};
  Some (c_total_dollars cost).

Abbreviation ModelTotals := (gmap text ModelCounter).
Definition from_state (state : list SessionModelTotal) : ModelTotals :=
  fold_left (λ values total, <[st_model total := st_tokens total]> values) state ∅.
Definition canonical_model (model : text) : option text := normalize_model_name model.
Definition usage_model (model : option text) : text :=
  default UNATTRIBUTED_MODEL (model ≫= canonical_model).
(** [entry(..).or_default()] leaves the new entry when the addition fails. *)
Definition totals_add (self : ModelTotals) (model : text) (delta : TokenSnapshot) :
    ModelTotals * result RecorderError () :=
  if negb (has_usage delta) then (self, Ok ())
  else
    let model := default UNATTRIBUTED_MODEL (canonical_model model) in
    let counter := default ModelCounter_default (self !! model) in
    match counter_add counter delta with
    | Ok counter => (<[model := counter]> self, Ok ())
    | Err e => (<[model := counter]> self, Err e)
    end.
Definition totals_subtract (self : ModelTotals) (model : text) (delta : TokenSnapshot) :
    result RecorderError ModelTotals :=
  if negb (has_usage delta) then Ok self
  else
    let model := default UNATTRIBUTED_MODEL (canonical_model model) in
    counter ← ok_or (self !! model) (Invalid (lit "replayed session event is absent from totals"));
    difference ← map_err (λ _, Invalid (lit "replayed session arithmetic is invalid"))
                   (checked_delta (facts counter) (facts delta));
    Ok (<[model := from_facts difference]> self).
Definition total_of (row : text * ModelCounter) : SessionModelTotal :=
  {| st_model := row.1; st_tokens := row.2 |}.
Definition to_totals (self : ModelTotals) : list SessionModelTotal := map total_of (rows self).
Definition positive_totals (self : ModelTotals) : list SessionModelTotal :=
  map total_of (List.filter (λ row, has_usage row.2) (rows self)).

(** One value per family column. *)
Record Columns (A : Type) := { col_sol : A; col_terra : A; col_luna : A }.
Arguments col_sol {A}. Arguments col_terra {A}. Arguments col_luna {A}.
Definition same_columns {A} (a : A) : Columns A := {| col_sol := a; col_terra := a; col_luna := a |}.
(** A step of the walks: only the column of the model's family changes. *)
Definition in_family {A} (model : text) (f : text → A → A) (c : Columns A) : Columns A :=
  match family model with
  | Some name =>
      {| col_sol := if text_eqb name (lit "SOL") then f (lit "SOL") (col_sol c) else col_sol c;
         col_terra := if text_eqb name (lit "TERRA") then f (lit "TERRA") (col_terra c) else col_terra c;
         col_luna := if text_eqb name (lit "LUNA") then f (lit "LUNA") (col_luna c) else col_luna c |}
  | None => c
  end.
Definition dollar_totals (self : ModelTotals) : Columns (option f64) :=
  fold_left (λ result '(model, counter),
    in_family model (λ name column,
      sum ← column;
      cost ← counter_dollars counter name;
      let next := f64_add sum cost in
      then_some (f64_is_finite next) next) result)
    (rows self) (same_columns (Some f64_zero)).
Definition token_totals (self : ModelTotals) : Columns Z :=
  fold_left (λ result '(model, counter),
    in_family model (λ _ column, u64_saturating_add column (ts_total counter)) result)
    (rows self) (same_columns 0).

Record UsageHistorySample := {
  hs_timestamp : Z;
  hs_reset_at : Z;
  hs_remaining_percent : option f64;
  hs_dollars : Columns f64;
  hs_tokens : Columns Z
}.
Definition at_timestamp (timestamp : Z) (self : UsageHistorySample) : UsageHistorySample := {|
  hs_timestamp := timestamp; hs_reset_at := hs_reset_at self;
  hs_remaining_percent := hs_remaining_percent self; hs_dollars := hs_dollars self;
  hs_tokens := hs_tokens self |}.
(** The sample of the totals when every column has a price. *)
Definition known_dollars (self : ModelTotals) : option (Columns f64) :=
  let dollars := dollar_totals self in
  sol ← col_sol dollars; terra ← col_terra dollars; luna ← col_luna dollars;
  Some {| col_sol := sol; col_terra := terra; col_luna := luna |}.
Definition history_sample (self : ModelTotals) (timestamp reset_at : Z) (remaining_percent : f64) :
    option UsageHistorySample :=
  dollars ← known_dollars self;
  Some {| hs_timestamp := timestamp; hs_reset_at := reset_at;
          hs_remaining_percent := Some remaining_percent; hs_dollars := dollars;
          hs_tokens := token_totals self |}.

Record TimedModelUsage := { tu_timestamp : Z; tu_model : text; tu_delta : TokenSnapshot }.
(** The fields of a durable [SessionEvent] this conversion reads. *)
Definition session_event_to_timed_usage (timestamp : Z) (model : text) (delta : TokenSnapshot) :
    result RecorderError TimedModelUsage :=
  reject Invalid (lit "durable session event has invalid token components") when negb (valid delta);
  Ok {| tu_timestamp := timestamp; tu_model := model; tu_delta := delta |}.

(** [timestamp.div_euclid(60) * 60]: the timestamps of admitted events are positive,
    so that the product stays in range. *)
Definition minute_of (timestamp : Z) : Z := timestamp / 60 * 60.
Abbreviation HistoryPoint := (UsageHistorySample * list SessionModelTotal)%type.
Definition by_time (events : list TimedModelUsage) : list TimedModelUsage :=
  sort_by (λ a b, tu_timestamp a <=? tu_timestamp b) events.

Section build.
Context (reset_at : Z) (complete : bool).
(** The point the totals give at a minute. *)
Definition point_at (totals : ModelTotals) (minute : Z) : option HistoryPoint :=
  dollars ← known_dollars totals;
  Some ({| hs_timestamp := minute; hs_reset_at := reset_at; hs_remaining_percent := None;
           hs_dollars := dollars; hs_tokens := token_totals totals |},
        if complete then to_totals totals else positive_totals totals).
Definition build_step (s : ModelTotals * gmap Z HistoryPoint) (event : TimedModelUsage) :
    ModelTotals * gmap Z HistoryPoint :=
  let '(totals, by_minute) := s in
  let '(totals, added) := totals_add totals (tu_model event) (tu_delta event) in
  match added with
  | Err _ => (totals, by_minute)
  | Ok () =>
      let minute := minute_of (tu_timestamp event) in
      if minute <=? 0 then (totals, by_minute)
      else
        match point_at totals minute with
        | Some point => (totals, <[minute := point]> by_minute)
        | None => (totals, by_minute)
        end
  end.
Definition build_points (events : list TimedModelUsage) (totals : ModelTotals) : gmap Z HistoryPoint :=
  (fold_left build_step (by_time events) (totals, ∅)).2.
(** The entries of a map of minutes, in order. *)
Definition minutes {A} (m : gmap Z A) : list (Z * A) :=
  sort_by (λ a b, a.1 <=? b.1) (map_to_list m).
Definition build_history (events : list TimedModelUsage) (totals : ModelTotals) :
    list UsageHistorySample * gmap Z (list SessionModelTotal) :=
  let by_minute := build_points events totals in
  (map (λ row, row.2.1) (minutes by_minute), snd <$> by_minute).

(** Holding the last point at a minute that was recorded before. *)
Definition reproject (source_samples : list UsageHistorySample)
    (s : list UsageHistorySample * gmap Z (list SessionModelTotal)) (timestamp : Z) :
    result RecorderError (list UsageHistorySample * gmap Z (list SessionModelTotal)) :=
  let '(samples, models) := s in
  if opt_is_some (models !! timestamp) then Ok s
  else
    match List.find (λ sample, hs_timestamp sample <=? timestamp) (rev source_samples) with
    | None => Ok s
    | Some previous =>
        totals ← ok_or (models !! hs_timestamp previous) Panicked;
        Ok (samples ++ [at_timestamp timestamp previous], <[timestamp := totals]> models)
    end.
Definition add_all (events : list TimedModelUsage) : result RecorderError ModelTotals :=
  fold_result (λ totals event,
    let '(totals, added) := totals_add totals (tu_model event) (tu_delta event) in
    _ ← added; Ok totals) ∅ events.
Definition exact_changed_minute_history (admitted : list TimedModelUsage) (changed_since : Z)
    (expected : ModelTotals) (existing_minutes : list Z) :
    result RecorderError (option (list UsageHistorySample * gmap Z (list SessionModelTotal))) :=
  source_totals ← add_all admitted;
  if negb (bool_decide (positive_totals source_totals = positive_totals expected)) then Ok None
  else
    let '(source_samples, models) := build_history admitted ∅ in
    s ← fold_result (reproject source_samples) (source_samples, models)
          (List.filter (λ at_, changed_since <=? at_) existing_minutes);
    let samples := sort_by (λ a b, hs_timestamp a <=? hs_timestamp b) s.1 in
    Ok (Some (List.filter (λ sample, changed_since <=? hs_timestamp sample) samples,
              filter (λ row, changed_since ≤ row.1) s.2)).
End build.

(** ** The totals are sums *)
Definition zero_facts : TokenFacts := facts ModelCounter_default.
Definition sum_facts (ds : list TokenFacts) : TokenFacts := fold_left pointwise_sum ds zero_facts.
Definition key_of (event : TimedModelUsage) : text :=
  default UNATTRIBUTED_MODEL (canonical_model (tu_model event)).
Definition used (event : TimedModelUsage) : bool := has_usage (tu_delta event).
(** The counted tokens of the events of a model. *)
Definition model_deltas (events : list TimedModelUsage) (m : text) : list TokenFacts :=
  map (λ e, facts (tu_delta e)) (List.filter (λ e, used e && text_eqb (key_of e) m) events).
Definition totals_spec (events : list TimedModelUsage) (m : text) : option TokenFacts :=
  match model_deltas events m with [] => None | ds => Some (sum_facts ds) end.
Definition totals_are (events : list TimedModelUsage) (totals : ModelTotals) : Prop :=
  ∀ m, facts <$> totals !! m = totals_spec events m.
(** Every counted event is consistent, and the total of each model fits. *)
Definition sums_fit (events : list TimedModelUsage) : Prop :=
  ∀ e, e ∈ events → used e = true →
    validate_fact (facts (tu_delta e)) = Ok ()
    ∧ tf_total (sum_facts (model_deltas events (key_of e))) ≤ u64_max.
Definition deltas_wf (events : list TimedModelUsage) : Prop :=
  Forall (λ e, tf_wf (facts (tu_delta e))) events.
Definition total_error : RecorderError := Invalid (lit "session token total arithmetic is invalid").

Lemma facts_from t : facts (from_facts t) = t.
Proof. by destruct t. Qed.
Lemma from_facts_of s : from_facts (facts s) = s.
Proof. by destruct s. Qed.
Lemma facts_inj s s' : facts s = facts s' → s = s'.
Proof. intros E. rewrite <-(from_facts_of s), <-(from_facts_of s'). by f_equal. Qed.

Lemma opt_add_assoc x y z : opt_add (opt_add x y) z = opt_add x (opt_add y z).
Proof. destruct x, y, z; simpl; try done. f_equal. lia. Qed.
Lemma opt_add_comm x y : opt_add x y = opt_add y x.
Proof. destruct x, y; simpl; try done. f_equal. lia. Qed.
Lemma pointwise_sum_swap a b c : pointwise_sum (pointwise_sum a b) c = pointwise_sum (pointwise_sum a c) b.
Proof.
  unfold pointwise_sum. simpl. f_equal; [lia|..]; rewrite !opt_add_assoc; f_equal; apply opt_add_comm.
Qed.
Lemma sum_facts_snoc ds d : sum_facts (ds ++ [d]) = pointwise_sum (sum_facts ds) d.
Proof. apply fold_left_app. Qed.
Lemma sum_facts_perm ds ds' : ds ≡ₚ ds' → sum_facts ds = sum_facts ds'.
Proof.
  unfold sum_facts. generalize zero_facts. intros z Hp. revert z.
  induction Hp as [|d ds ds' _ IH|d d' ds|ds1 ds2 ds3 _ IH1 _ IH2]; intros z; simpl; [done|apply IH| |].
  - by rewrite pointwise_sum_swap.
  - by rewrite IH1.
Qed.
Lemma model_deltas_snoc events e m :
  model_deltas (events ++ [e]) m
  = model_deltas events m ++ (if used e && text_eqb (key_of e) m then [facts (tu_delta e)] else []).
Proof.
  unfold model_deltas. rewrite List.filter_app, map_app. simpl. by destruct (_ && _).
Qed.
Lemma model_deltas_perm events events' m :
  events ≡ₚ events' → model_deltas events m ≡ₚ model_deltas events' m.
Proof.
  intros Hp. apply Permutation_map. induction Hp; simpl; repeat case_match; by econstructor.
Qed.

(** Sums of consistent facts are consistent as long as their total fits. *)
Definition good_fact (d : TokenFacts) : Prop := tf_wf d ∧ validate_fact d = Ok ().
Lemma good_fact_nonneg d : good_fact d → 0 ≤ tf_total d.
Proof. by intros [[[? _] _ _ _ _] _]. Qed.
Lemma sum_facts_good ds :
  Forall good_fact ds → tf_total (sum_facts ds) ≤ u64_max → good_fact (sum_facts ds).
Proof.
  induction ds as [|d ds IH] using rev_ind; intros Hds Hfit.
  { split; [|by vm_compute]. by repeat split. }
  apply Forall_app in Hds as [Hds Hd]. rewrite Forall_singleton in Hd.
  rewrite sum_facts_snoc in *. simpl in Hfit. pose proof (good_fact_nonneg _ Hd).
  destruct (IH Hds ltac:(lia)) as [Hw Hv], Hd as [Hwd Hvd].
  by destruct (pointwise_sum_valid _ _ Hw Hwd Hv Hvd Hfit) as (? & ? & _).
Qed.
(** Adding a delta to a counter that holds the sum of others. *)
Lemma counter_add_sum ds d :
  Forall good_fact ds → tf_total (sum_facts ds) ≤ u64_max → tf_wf (facts d) →
  counter_add (from_facts (sum_facts ds)) d
  = if bool_decide (validate_fact (facts d) = Ok ()
                    ∧ tf_total (sum_facts (ds ++ [facts d])) ≤ u64_max)
    then Ok (from_facts (sum_facts (ds ++ [facts d]))) else Err total_error.
Proof.
  intros Hds Hfit Hwd. destruct (sum_facts_good ds Hds Hfit) as [Hw Hv].
  unfold counter_add. rewrite facts_from, sum_facts_snoc. simpl.
  destruct (decide (validate_fact (facts d) = Ok ())) as [Hvd|Hnd].
  - rewrite (checked_sum_total_decides _ _ Hw Hwd Hv Hvd).
    destruct (Z.leb_spec (tf_total (sum_facts ds) + ts_total d) u64_max) as [Hle|Hgt]; simpl in *.
    + rewrite (proj2 (Z.leb_le _ _)) by done. by rewrite bool_decide_eq_true_2.
    + rewrite (proj2 (Z.leb_gt _ _)) by done. rewrite bool_decide_eq_false_2; [done|lia].
  - rewrite bool_decide_eq_false_2 by tauto. unfold checked_sum. rewrite Hv. simpl.
    destruct (validate_fact (facts d)) as [[]|]; [done|]. done.
Qed.
(** The events so far are consistent and their sums fit. *)
Definition counted_good (events : list TimedModelUsage) : Prop :=
  ∀ m, Forall good_fact (model_deltas events m) ∧ tf_total (sum_facts (model_deltas events m)) ≤ u64_max.
Lemma totals_are_default events totals m :
  totals_are events totals →
  default ModelCounter_default (totals !! m) = from_facts (sum_facts (model_deltas events m)).
Proof.
  intros Ht. specialize (Ht m). unfold totals_spec in Ht.
  destruct (totals !! m) as [c|]; simpl in *.
  - destruct (model_deltas events m); [done|]. injection Ht as <-. by rewrite from_facts_of.
  - by destruct (model_deltas events m).
Qed.
Lemma totals_add_spec events totals e :
  totals_are events totals → counted_good events → tf_wf (facts (tu_delta e)) →
  let added := from_facts (sum_facts (model_deltas (events ++ [e]) (key_of e))) in
  totals_add totals (tu_model e) (tu_delta e)
  = if negb (used e) then (totals, Ok ())
    else if bool_decide (validate_fact (facts (tu_delta e)) = Ok ()
                         ∧ tf_total (sum_facts (model_deltas (events ++ [e]) (key_of e))) ≤ u64_max)
    then (<[key_of e := added]> totals, Ok ())
    else (<[key_of e := from_facts (sum_facts (model_deltas events (key_of e)))]> totals, Err total_error).
Proof.
  intros Ht Hg Hw added. unfold totals_add. fold (used e) (key_of e).
  destruct (used e) eqn:Hu; simpl; [|done]. rewrite (totals_are_default events) by done.
  destruct (Hg (key_of e)) as [Hds Hfit]. rewrite counter_add_sum by done.
  assert (model_deltas (events ++ [e]) (key_of e) = model_deltas events (key_of e) ++ [facts (tu_delta e)])
    as Hsnoc by (by rewrite model_deltas_snoc, Hu, (proj2 (text_eqb_true _ _) eq_refl)).
  unfold added. rewrite Hsnoc. by destruct (bool_decide _).
Qed.
Lemma totals_are_snoc events totals e :
  totals_are events totals →
  totals_are (events ++ [e])
    (if used e then <[key_of e := from_facts (sum_facts (model_deltas (events ++ [e]) (key_of e)))]> totals
     else totals).
Proof.
  intros Ht m. specialize (Ht m). unfold totals_spec in *. rewrite (model_deltas_snoc _ _ m).
  destruct (used e) eqn:Hu; simpl; [|by rewrite app_nil_r]. destruct (decide (m = key_of e)) as [->|Hne].
  - rewrite lookup_insert_eq, (proj2 (text_eqb_true _ _) eq_refl). simpl. rewrite facts_from.
    rewrite model_deltas_snoc, Hu, (proj2 (text_eqb_true _ _) eq_refl). simpl.
    by destruct (model_deltas events (key_of e)).
  - rewrite lookup_insert_ne by done. destruct (text_eqb (key_of e) m) eqn:E.
    + apply text_eqb_true in E. congruence.
    + by rewrite app_nil_r.
Qed.
Lemma sums_fit_good events : deltas_wf events → sums_fit events → counted_good events.
Proof.
  intros Hw Hf m. unfold deltas_wf in Hw. rewrite Forall_forall in Hw.
  assert (∀ e, e ∈ List.filter (λ e, used e && text_eqb (key_of e) m) events →
    e ∈ events ∧ used e = true ∧ key_of e = m) as Hin.
  { intros e [He Hb]%elem_of_filter_bool. apply andb_true_iff in Hb as [? ?%text_eqb_true]. done. }
  split.
  - rewrite Forall_forall. intros d (e & -> & (He & Hu & _)%Hin)%list_elem_of_fmap.
    split; [by apply Hw|by apply Hf].
  - destruct (model_deltas events m) as [|d ds] eqn:E; [by vm_compute|]. rewrite <-E.
    assert (d ∈ model_deltas events m) as Hd by (rewrite E; apply list_elem_of_here).
    apply list_elem_of_fmap in Hd as (e & _ & (He & Hu & <-)%Hin). by apply Hf.
Qed.
Lemma sum_total_le ds ds' :
  Forall good_fact ds' → tf_total (sum_facts ds) ≤ tf_total (sum_facts (ds ++ ds')).
Proof.
  induction ds' as [|d ds' IH] using rev_ind; intros Hg; [by rewrite app_nil_r|].
  apply Forall_app in Hg as [Hg Hd]. rewrite Forall_singleton in Hd.
  rewrite (assoc_L (++)), sum_facts_snoc. simpl. specialize (IH Hg). apply good_fact_nonneg in Hd. lia.
Qed.
Lemma sums_fit_snoc events e :
  deltas_wf (events ++ [e]) →
  sums_fit (events ++ [e]) ↔
  sums_fit events ∧ (used e = true → validate_fact (facts (tu_delta e)) = Ok ()
    ∧ tf_total (sum_facts (model_deltas (events ++ [e]) (key_of e))) ≤ u64_max).
Proof.
  intros Hw. pose proof Hw as Hw'. apply Forall_app in Hw' as [Hwe Hw1]. rewrite Forall_singleton in Hw1.
  split.
  - intros Hf. split; [|by intros Hu; apply Hf; [apply elem_of_app; right; apply list_elem_of_singleton|]].
    intros e' He' Hu'. destruct (Hf e' ltac:(apply elem_of_app; by left) Hu') as [Hv Hle]. split; [done|].
    destruct (sums_fit_good _ Hw Hf (key_of e')) as [Hg _]. etrans; [|exact Hle].
    rewrite model_deltas_snoc in *. apply Forall_app in Hg as [_ Hg]. by apply sum_total_le.
  - intros [Hf He] e' [He'| ->%list_elem_of_singleton]%elem_of_app Hu'; [|by apply He].
    destruct (Hf e' He' Hu') as [Hv Hle]. split; [done|]. rewrite model_deltas_snoc.
    destruct (used e && text_eqb (key_of e) (key_of e')) eqn:E; [|by rewrite app_nil_r].
    apply andb_true_iff in E as [Hu <-%text_eqb_true]. destruct (He Hu) as [_ Hle'].
    rewrite model_deltas_snoc, Hu, (proj2 (text_eqb_true _ _) eq_refl) in Hle'. done.
Qed.
Lemma add_all_spec events :
  deltas_wf events → decides total_error (sums_fit events) (totals_are events) (add_all events).
Proof.
  induction events as [|e events IH] using rev_ind; intros Hw.
  { unfold add_all. simpl. split; [by intros e ?%elem_of_nil|by intros m]. }
  pose proof Hw as Hw'. apply Forall_app in Hw' as [Hwe Hw1]. rewrite Forall_singleton in Hw1.
  specialize (IH Hwe). unfold add_all in *. rewrite fold_result_app.
  destruct (fold_result _ ∅ events) as [totals|err]; simpl in *; cycle 1.
  { destruct IH as [-> Hn]. split; [done|]. rewrite sums_fit_snoc by done. tauto. }
  destruct IH as [Hf Ht]. pose proof (totals_add_spec events totals e Ht (sums_fit_good _ Hwe Hf) Hw1) as ->.
  pose proof (totals_are_snoc events totals e Ht) as Hnext. pose proof (sums_fit_snoc events e Hw) as Hsnoc.
  destruct (used e); simpl; [|by split; [apply Hsnoc|]]. case_bool_decide as Hb; simpl.
  - split; [by apply Hsnoc|done].
  - split; [done|]. intros [_ Hl]%Hsnoc. by apply Hb, Hl.
Qed.

Lemma sum_deltas_perm events events' m :
  events ≡ₚ events' →
  sum_facts (model_deltas events m) = sum_facts (model_deltas events' m)
  ∧ totals_spec events m = totals_spec events' m.
Proof.
  intros Hp. pose proof (model_deltas_perm events events' m Hp) as Hd.
  pose proof (sum_facts_perm _ _ Hd) as Hsum. split; [done|]. unfold totals_spec.
  destruct (model_deltas events m), (model_deltas events' m); try done.
  - by apply Permutation_nil_l in Hd.
  - by apply symmetry, Permutation_nil_l in Hd.
  - by rewrite Hsum.
Qed.
Lemma sums_fit_perm events events' : events ≡ₚ events' → sums_fit events → sums_fit events'.
Proof.
  intros Hp Hf e He Hu. rewrite <-Hp in He. destruct (Hf e He Hu) as [Hv Hle].
  by rewrite <-(proj1 (sum_deltas_perm events events' _ Hp)).
Qed.

(** Adding up events succeeds exactly when each counted event is consistent and the
    total of every model fits in 64 bits; the totals are then, for each model with a
    counted event, the component-wise sum of its events. *)
Theorem totals_are_sums events :
  deltas_wf events → decides total_error (sums_fit events) (totals_are events) (add_all events).
Proof. apply add_all_spec. Qed.

(** The order in which events are added does not matter, neither for the totals nor
    for whether they exist. *)
Theorem totals_order_independent events events' :
  deltas_wf events → events ≡ₚ events' → add_all events = add_all events'.
Proof.
  intros Hw Hp. assert (deltas_wf events') as Hw' by (unfold deltas_wf; by rewrite <-Hp).
  pose proof (add_all_spec events Hw) as H1. pose proof (add_all_spec events' Hw') as H2.
  pose proof (sums_fit_perm events events' Hp) as Hfit.
  pose proof (sums_fit_perm events' events (symmetry Hp)) as Hfit'.
  destruct (add_all events) as [t|e], (add_all events') as [t'|e']; simpl in *;
    [|tauto|tauto|destruct_and!; congruence].
  destruct H1 as [_ Ht], H2 as [_ Ht']. f_equal. apply map_eq. intros m. specialize (Ht m).
  specialize (Ht' m). rewrite (proj2 (sum_deltas_perm events events' m Hp)), <-Ht' in Ht.
  destruct (t !! m), (t' !! m); simpl in Ht; try done. f_equal. apply facts_inj. congruence.
Qed.

(** ** Columns of tokens *)
Definition weight (name : text) (row : text * ModelCounter) : Z :=
  if bool_decide (family row.1 = Some name) then ts_total row.2 else 0.
Definition column_sum (name : text) (l : list (text * ModelCounter)) : Z :=
  foldr (λ row n, weight name row + n) 0 l.
Definition totals_nonneg (totals : ModelTotals) : Prop := ∀ m c, totals !! m = Some c → 0 ≤ ts_total c.

Lemma column_sum_perm name l l' : l ≡ₚ l' → column_sum name l = column_sum name l'.
Proof. induction 1; simpl; lia. Qed.
Lemma saturating_fold (w : text * ModelCounter → Z) l r :
  Forall (λ row, 0 ≤ w row) l → r ≤ u64_max →
  fold_left (λ r row, u64_saturating_add r (w row)) l r
  = Z.min (r + foldr (λ row n, w row + n) 0 l) u64_max.
Proof.
  intros Hw. revert r. induction Hw as [|row l Hrow Hl IH]; intros r Hr; simpl; [lia|].
  assert (0 ≤ foldr (λ row n, w row + n) 0 l) as Hsum by (clear IH; induction Hl; simpl; lia).
  unfold u64_saturating_add at 2. rewrite IH by lia. lia.
Qed.
(** A column of the walk is the walk of the column. *)
Definition family_name_ok (name : text) (get : Columns Z → Z) : Prop :=
  ∀ model f c, get (in_family model f c) = if bool_decide (family model = Some name) then f name (get c) else get c.
Lemma family_columns :
  family_name_ok (lit "SOL") col_sol ∧ family_name_ok (lit "TERRA") col_terra
  ∧ family_name_ok (lit "LUNA") col_luna.
Proof.
  split_and!; intros model f c; unfold in_family; destruct (family model) as [name|]; try done;
    unfold text_eqb; simpl; repeat case_bool_decide; simplify_eq; done.
Qed.
Lemma token_column totals name get :
  family_name_ok name get → get (same_columns 0) = 0 → totals_nonneg totals →
  get (token_totals totals) = Z.min (column_sum name (map_to_list totals)) u64_max.
Proof.
  intros Hf H0 Hn. unfold token_totals.
  assert (Forall (λ row, 0 ≤ weight name row) (rows totals)) as Hw.
  { rewrite Forall_forall. intros [m c] Hin. unfold rows in Hin.
    rewrite sort_by_elem, elem_of_map_to_list in Hin. unfold weight.
    case_bool_decide; [by apply (Hn m)|done]. }
  assert (∀ l c, get (fold_left (λ result '(model, counter),
      in_family model (λ _ column, u64_saturating_add column (ts_total counter)) result) l c)
    = fold_left (λ r row, if bool_decide (family row.1 = Some name)
                          then u64_saturating_add r (ts_total row.2) else r) l (get c)) as Hfold.
  { induction l as [|[m k] l IH]; intros c; simpl; [done|]. rewrite IH. f_equal. apply Hf. }
  rewrite Hfold, H0.
  assert (∀ l r, r ≤ u64_max → fold_left (λ r row, if bool_decide (family row.1 = Some name)
      then u64_saturating_add r (ts_total row.2) else r) l r
    = fold_left (λ r row, u64_saturating_add r (weight name row)) l r) as Hskip.
  { induction l as [|[m k] l IH]; intros r Hr; simpl; [done|]. unfold weight at 2. simpl.
    case_bool_decide; [apply IH; unfold u64_saturating_add; lia|].
    rewrite IH by done. f_equal. unfold u64_saturating_add. lia. }
  rewrite Hskip, saturating_fold by done. f_equal.
  change (foldr (λ row n, weight name row + n) 0 (rows totals)) with (column_sum name (rows totals)).
  rewrite (column_sum_perm name (rows totals) (map_to_list totals)); [lia|apply sort_by_perm].
Qed.
Lemma column_sum_insert name totals m c :
  totals_nonneg totals → (∀ c0, totals !! m = Some c0 → ts_total c0 ≤ ts_total c) → 0 ≤ ts_total c →
  column_sum name (map_to_list totals) ≤ column_sum name (map_to_list (<[m := c]> totals)).
Proof.
  intros Hn Hle Hc. rewrite <-insert_delete_eq.
  rewrite (column_sum_perm name (map_to_list (<[m:=c]> (delete m totals)))
    ((m, c) :: map_to_list (delete m totals)));
    [|apply map_to_list_insert, lookup_delete_eq].
  destruct (totals !! m) as [c0|] eqn:E.
  - rewrite (column_sum_perm name (map_to_list totals) ((m, c0) :: map_to_list (delete m totals)));
      [|symmetry; by apply map_to_list_delete].
    simpl. specialize (Hle c0 eq_refl). unfold weight. simpl. case_bool_decide; lia.
  - rewrite delete_id by done. simpl. unfold weight. simpl. case_bool_decide; lia.
Qed.

(** ** The points of the history *)
Section points.
Context (reset_at : Z) (complete : bool).
Local Abbreviation point_at := (point_at reset_at complete).
Local Abbreviation build_step := (build_step reset_at complete).
Local Abbreviation build_points := (build_points reset_at complete).
Local Abbreviation build_history := (build_history reset_at complete).

(** The totals after a list of events; an event that cannot be added is skipped. *)
Definition totals_after (totals : ModelTotals) (events : list TimedModelUsage) : ModelTotals :=
  fold_left (λ totals e, (totals_add totals (tu_model e) (tu_delta e)).1) events totals.
(** After [pre], the event gives the minute [k] the point [p]. *)
Definition plots (totals : ModelTotals) (pre : list TimedModelUsage) (e : TimedModelUsage)
    (k : Z) (p : HistoryPoint) : Prop :=
  (totals_add (totals_after totals pre) (tu_model e) (tu_delta e)).2 = Ok ()
  ∧ minute_of (tu_timestamp e) = k ∧ 0 < k
  ∧ point_at (totals_after totals (pre ++ [e])) k = Some p.
(** The last event of [events] that gives the minute [k] a point gives it [p]. *)
Definition plotted (totals : ModelTotals) (events : list TimedModelUsage) (k : Z) (p : HistoryPoint) : Prop :=
  ∃ pre e post, events = pre ++ e :: post ∧ plots totals pre e k p
    ∧ ∀ pre' e' post' p', post = pre' ++ e' :: post' → ¬ plots totals (pre ++ e :: pre') e' k p'.

Lemma plotted_snoc totals events e k p :
  plotted totals (events ++ [e]) k p ↔
  plots totals events e k p ∨ (∀ p', ¬ plots totals events e k p') ∧ plotted totals events k p.
Proof.
  split.
  - intros (pre & e0 & post & Heq & Hp & Hlast). destruct post as [|e1 post _] using rev_ind.
    + apply app_inj_tail in Heq as [-> ->]. by left.
    + rewrite app_comm_cons, (assoc_L (++)) in Heq. apply app_inj_tail in Heq as [-> <-]. right. split.
      * intros p' Hp'. by apply (Hlast post e [] p').
      * exists pre, e0, post. split_and!; [done|done|]. intros pre' e' post' p' ->.
        apply (Hlast pre' e' (post' ++ [e])). by rewrite <-app_assoc.
  - intros [Hp|[Hn (pre & e0 & post & -> & Hp & Hlast)]].
    + exists events, e, []. split_and!; [done|done|]. by intros [] ? ? ?.
    + exists pre, e0, (post ++ [e]). rewrite <-app_assoc. split_and!; [done|done|].
      intros pre' e' post' p' Heq. destruct post' as [|e1 post' _] using rev_ind.
      * apply app_inj_tail in Heq as [-> ->]. apply Hn.
      * rewrite app_comm_cons, (assoc_L (++)) in Heq. apply app_inj_tail in Heq as [-> _].
        by apply (Hlast pre' e' post').
Qed.
Lemma plots_functional totals pre e k k' p p' :
  plots totals pre e k p → plots totals pre e k' p' → k = k' ∧ p = p'.
Proof. intros (_ & <- & _ & Hp) (_ & <- & _ & Hp'). split; [done|congruence]. Qed.
Lemma build_step_spec totals pre by_minute e :
  build_step (totals_after totals pre, by_minute) e
  = (totals_after totals (pre ++ [e]),
     match (totals_add (totals_after totals pre) (tu_model e) (tu_delta e)).2 with
     | Ok () =>
         let k := minute_of (tu_timestamp e) in
         match (if k <=? 0 then None else point_at (totals_after totals (pre ++ [e])) k) with
         | Some p => <[k := p]> by_minute
         | None => by_minute
         end
     | Err _ => by_minute
     end).
Proof.
  unfold History.build_step, totals_after. rewrite fold_left_app. simpl.
  destruct (totals_add _ _ _) as [totals' [[]|err]]; simpl; [|done].
  destruct (_ <=? 0); [done|]. by destruct (point_at totals' _).
Qed.
Lemma build_fold totals events :
  let s := fold_left build_step events (totals, ∅) in
  s.1 = totals_after totals events ∧ ∀ k p, s.2 !! k = Some p ↔ plotted totals events k p.
Proof.
  induction events as [|e events [IH1 IH2]] using rev_ind; cbv zeta.
  { split; [done|]. intros k p. simpl. rewrite lookup_empty. split; [done|].
    by intros ([] & ? & ? & ? & _). }
  rewrite fold_left_app. simpl. destruct (fold_left build_step events (totals, ∅)) as [t m]. simpl in IH1, IH2.
  subst t. rewrite build_step_spec. split; [done|]. intros k p. cbn [snd].
  rewrite plotted_snoc, <-IH2. unfold plots.
  destruct (totals_add _ _ _).2 as [[]|err]; [|naive_solver].
  cbv zeta. destruct (Z.leb_spec (minute_of (tu_timestamp e)) 0) as [Hle|Hgt].
  { split; [intros Hm; right; split; [|done]; intros p' (_ & <- & ? & _); lia|].
    intros [(_ & <- & ? & _)|[_ ?]]; [lia|done]. }
  destruct (decide (minute_of (tu_timestamp e) = k)) as [<-|Hne].
  - destruct (point_at (totals_after totals (events ++ [e])) _) as [q|]; [rewrite lookup_insert_eq|];
      naive_solver.
  - destruct (point_at _ _); [rewrite lookup_insert_ne by done|]; naive_solver.
Qed.

Lemma points_plotted totals events k p :
  build_points events totals !! k = Some p ↔ plotted totals (by_time events) k p.
Proof. apply build_fold. Qed.
Lemma point_timestamp totals events k p :
  build_points events totals !! k = Some p → hs_timestamp p.1 = k ∧ 0 < k ∧ k mod 60 = 0.
Proof.
  intros (pre & e & post & _ & (_ & Hk & Hpos & Hp) & _)%points_plotted.
  split_and!; [|done|].
  - unfold History.point_at in Hp. destruct (known_dollars _); [|done]. by injection Hp as <-.
  - subst k. unfold minute_of. by rewrite Z.mod_mul.
Qed.

Lemma totals_add_grows totals m d :
  totals_nonneg totals → tf_wf (facts d) →
  totals_nonneg (totals_add totals m d).1
  ∧ ∀ name, column_sum name (map_to_list totals) ≤ column_sum name (map_to_list (totals_add totals m d).1).
Proof.
  intros Hn [[Hd _] _ _ _ _]. unfold totals_add. destruct (negb (has_usage d)); [done|].
  set (key := default UNATTRIBUTED_MODEL (canonical_model m)).
  set (c := default ModelCounter_default (totals !! key)).
  assert (0 ≤ ts_total c) as Hc by (unfold c; destruct (totals !! key) eqn:E; [by apply (Hn key)|done]).
  assert (∀ c', ts_total c ≤ ts_total c' → totals_nonneg (<[key := c']> totals)
    ∧ ∀ name, column_sum name (map_to_list totals) ≤ column_sum name (map_to_list (<[key := c']> totals)))
    as Hgrow.
  { intros c' Hle. split.
    - intros m' c0. rewrite lookup_insert_Some. intros [[_ <-]|[_ H0]]; [lia|by apply (Hn m')].
    - intros name. apply column_sum_insert; [done| |lia]. intros c0 Hc0. unfold c in Hle.
      by rewrite Hc0 in Hle. }
  destruct (counter_add c d) as [c'|e] eqn:E; simpl; apply Hgrow; [|done].
  unfold counter_add in E. apply bind_Ok in E as (s & Hs%map_err_Ok & [= <-]).
  apply checked_sum_Ok in Hs as (_ & _ & [[_ Ht] _ _ _ _] & _). simpl in *. lia.
Qed.
Lemma totals_after_grows totals events events' :
  totals_nonneg totals → deltas_wf (events ++ events') →
  totals_nonneg (totals_after totals events)
  ∧ ∀ name, column_sum name (map_to_list (totals_after totals events))
          ≤ column_sum name (map_to_list (totals_after totals (events ++ events'))).
Proof.
  intros Hn Hw. assert (∀ l T, totals_nonneg T → deltas_wf l → totals_nonneg (totals_after T l)
    ∧ ∀ name, column_sum name (map_to_list T) ≤ column_sum name (map_to_list (totals_after T l))) as Hl.
  { induction l as [|e l IH]; intros T HT Hwl; simpl; [done|]. apply Forall_cons in Hwl as [He Hl].
    destruct (totals_add_grows T (tu_model e) (tu_delta e) HT He) as [HT' Hle].
    destruct (IH _ HT' Hl) as [HT'' Hle']. split; [done|]. intros name. etrans; [apply Hle|apply Hle']. }
  apply Forall_app in Hw as [Hw Hw']. destruct (Hl events totals Hn Hw) as [Ha _]. split; [done|].
  unfold totals_after at 2. rewrite fold_left_app. by apply Hl.
Qed.
Definition columns_le (a b : Columns Z) : Prop :=
  col_sol a ≤ col_sol b ∧ col_terra a ≤ col_terra b ∧ col_luna a ≤ col_luna b.
Lemma tokens_grow totals events events' :
  totals_nonneg totals → deltas_wf (events ++ events') →
  columns_le (token_totals (totals_after totals events))
             (token_totals (totals_after totals (events ++ events'))).
Proof.
  intros Hn Hw. destruct (totals_after_grows totals events events' Hn Hw) as [Hna Hle].
  destruct (totals_after_grows totals (events ++ events') [] Hn) as [Hnb _];
    [by rewrite app_nil_r|].
  destruct family_columns as (Hs & Ht & Hl).
  unfold columns_le. rewrite !(token_column _ _ _ Hs), !(token_column _ _ _ Ht),
    !(token_column _ _ _ Hl) by done.
  pose proof (Hle (lit "SOL")). pose proof (Hle (lit "TERRA")). pose proof (Hle (lit "LUNA")). lia.
Qed.
Lemma by_time_sorted events : StronglySorted (λ a b, tu_timestamp a ≤ tu_timestamp b) (by_time events).
Proof.
  eapply (StronglySorted_weaken (λ a b, (tu_timestamp a <=? tu_timestamp b) = true)).
  - intros a b. apply Z.leb_le.
  - apply sort_by_sorted; [intros x y|intros x y z]; rewrite !Z.leb_le; lia.
Qed.
Lemma minute_mono t t' : t ≤ t' → minute_of t ≤ minute_of t'.
Proof. intros Hle. unfold minute_of. pose proof (Z.div_le_mono t t' 60). lia. Qed.
Lemma points_grow totals events k k' p p' :
  totals_nonneg totals → deltas_wf events → k < k' →
  build_points events totals !! k = Some p → build_points events totals !! k' = Some p' →
  columns_le (hs_tokens p.1) (hs_tokens p'.1).
Proof.
  intros Hn Hw Hk (pre & e & post & Heq & (_ & Hm & _ & Hp) & _)%points_plotted
    (pre' & e' & post' & Heq' & (_ & Hm' & _ & Hp') & _)%points_plotted.
  assert (deltas_wf (by_time events)) as Hwt by (unfold deltas_wf, by_time; by rewrite (sort_by_perm _ _)).
  assert (∃ mid, pre' ++ [e'] = (pre ++ [e]) ++ mid) as [mid Hmid].
  { pose proof (by_time_sorted events) as Hs. rewrite Heq in Hs, Heq'.
    assert (length pre < length pre')%nat as Hlen.
    { apply Nat.nle_gt. intros Hle. assert (tu_timestamp e' ≤ tu_timestamp e) as Ht.
      { destruct (decide (length pre' = length pre)) as [El|Hne].
        - apply app_inj_1 in Heq' as [_ [= <- _]]; [done|lia].
        - assert (e' ∈ pre) as Hin.
          { apply (list_elem_of_lookup_2 _ (length pre')).
            rewrite <-(lookup_app_l pre (e :: post)) by lia. rewrite Heq'.
            by apply list_lookup_middle. }
          by apply (StronglySorted_app_1_elem_of _ _ _ e' e Hs Hin), list_elem_of_here. }
      pose proof (minute_mono _ _ Ht). lia. }
    exists (drop (S (length pre)) (pre' ++ [e'])). rewrite <-(take_drop (S (length pre)) (pre' ++ [e'])) at 1.
    f_equal. rewrite take_app_le by (simpl; lia).
    transitivity (take (S (length pre)) (pre ++ e :: post)).
    - rewrite Heq'. by rewrite take_app_le.
    - rewrite cons_middle, app_assoc. rewrite take_app_le by (rewrite length_app; simpl; lia).
      apply take_ge. rewrite length_app. simpl. lia. }
  unfold History.point_at in Hp, Hp'. destruct (known_dollars _) in Hp; [|done].
  destruct (known_dollars _) in Hp'; [|done]. injection Hp as <-. injection Hp' as <-. simpl.
  rewrite Hmid. apply tokens_grow; [done|]. rewrite <-Hmid. rewrite Heq', cons_middle, app_assoc in Hwt.
  by apply Forall_app in Hwt as [? _].
Qed.

Lemma elem_of_minutes {A} (m : gmap Z A) k a : (k, a) ∈ minutes m ↔ m !! k = Some a.
Proof. unfold minutes. by rewrite sort_by_elem, elem_of_map_to_list. Qed.
Lemma minutes_sorted {A} (m : gmap Z A) : StronglySorted (λ a b, a.1 < b.1) (minutes m).
Proof. apply (sort_by_strict fst), NoDup_fst_map_to_list. Qed.

(** The history has a point at a minute exactly when an event of that minute, taken
    in the order of time, can be added and leaves totals that can be priced: it is
    the running totals after the last such event. *)
Theorem history_point_exact totals events k p :
  build_points events totals !! k = Some p ↔ plotted totals (by_time events) k p.
Proof. apply points_plotted. Qed.

(** The samples of a history stand at distinct full minutes after the epoch, in
    order, and no token column ever falls from one sample to a later one. *)
Theorem history_is_cumulative totals events :
  totals_nonneg totals → deltas_wf events →
  let samples := (build_history events totals).1 in
  StronglySorted (λ a b, hs_timestamp a < hs_timestamp b ∧ columns_le (hs_tokens a) (hs_tokens b)) samples
  ∧ Forall (λ s, 0 < hs_timestamp s ∧ hs_timestamp s mod 60 = 0) samples.
Proof.
  intros Hn Hw. cbn [History.build_history fst].
  set (points := build_points events totals).
  assert (∀ row, row ∈ minutes points → points !! row.1 = Some row.2) as Hin
    by (intros [k p]; by rewrite elem_of_minutes).
  split.
  - pose proof (minutes_sorted points) as Hs. revert Hin.
    induction Hs as [|a l Hl IH Ha]; intros Hin; simpl; [constructor|].
    constructor; [apply IH; intros row Hrow; by apply Hin, list_elem_of_further|].
    rewrite Forall_forall in Ha. rewrite Forall_forall.
    intros s (b & -> & Hb)%list_elem_of_fmap. specialize (Ha b Hb).
    pose proof (Hin a (list_elem_of_here _ _)) as Hpa. pose proof (Hin b (list_elem_of_further _ _ _ Hb)) as Hpb.
    destruct (point_timestamp _ _ _ _ Hpa) as [-> _], (point_timestamp _ _ _ _ Hpb) as [-> _].
    split; [done|]. by eapply points_grow.
  - rewrite Forall_forall. intros s (b & -> & Hb)%list_elem_of_fmap.
    destruct (point_timestamp _ _ _ _ (Hin b Hb)) as (-> & ? & ?). done.
Qed.
End points.
