(* ===== verification/ChangedHistory.v ===== *)
(** * The history of changed minutes

    Proves of [History.exact_changed_minute_history] that it rebuilds exactly the
    points from a time on, holding the last known point at the minutes that were
    recorded before, and gives concrete histories. *)

From S2P Require Import Prelude Text Float64 TokenFacts ModelNames Pricing SessionRecord History.

Section changed.
Context (reset_at : Z) (complete : bool).
Local Abbreviation reproject := History.reproject.
Local Abbreviation build_points := (build_points reset_at complete).

(** The last point at or before a time. *)
Definition latest (points : gmap Z HistoryPoint) (t : Z) : option (Z * HistoryPoint) :=
  List.find (λ row, row.1 <=? t) (rev (minutes points)).
(** The point at a minute: its own, or at an existing minute the last one. *)
Definition held (points : gmap Z HistoryPoint) (existing : list Z) (t : Z) : option HistoryPoint :=
  if opt_is_some (points !! t) || bool_decide (t ∈ existing)
  then option_map (λ row, (at_timestamp t row.2.1, row.2.2)) (latest points t) else None.

Lemma find_sorted (l : list (Z * HistoryPoint)) t row :
  StronglySorted (λ a b, a.1 < b.1) l →
  List.find (λ row, row.1 <=? t) (rev l) = Some row ↔
  row ∈ l ∧ row.1 ≤ t ∧ ∀ row', row' ∈ l → row'.1 ≤ t → row'.1 ≤ row.1.
Proof.
  intros Hs. rewrite find_last. split.
  - intros (before & after & -> & Ht & Hafter). apply Z.leb_le in Ht.
    rewrite Forall_forall in Hafter. split; [apply elem_of_app; right; apply list_elem_of_here|].
    split; [done|]. intros row' [Hr|[->|Hr]%elem_of_cons]%elem_of_app Ht'; [|lia|].
    + apply Z.lt_le_incl. by apply (StronglySorted_app_1_elem_of _ _ _ row' row Hs Hr), list_elem_of_here.
    + specialize (Hafter row' Hr). apply Z.leb_gt in Hafter. lia.
  - intros (Hin & Ht & Hmax). apply list_elem_of_split in Hin as (before & after & ->).
    exists before, after. split_and!; [done|by apply Z.leb_le|]. rewrite Forall_forall.
    intros row' Hr. apply Z.leb_gt. apply Z.nle_gt. intros Hle.
    assert (row'.1 ≤ row.1) by (apply Hmax; [apply elem_of_app; right; by apply list_elem_of_further|done]).
    apply StronglySorted_app_1_r in Hs. inversion Hs as [|? ? _ Hall]; subst.
    rewrite Forall_forall in Hall. specialize (Hall row' Hr). lia.
Qed.
Lemma latest_spec points t k p :
  latest points t = Some (k, p) ↔
  points !! k = Some p ∧ k ≤ t ∧ ∀ k' p', points !! k' = Some p' → k' ≤ t → k' ≤ k.
Proof.
  unfold latest. rewrite (find_sorted _ t _ (minutes_sorted points)). rewrite elem_of_minutes. simpl.
  split; intros (H1 & H2 & H3); (split_and!; [done..|]).
  - intros k' p' Hk'. apply (H3 (k', p')). by apply elem_of_minutes.
  - intros [k' p'] Hk'%elem_of_minutes. by apply (H3 k' p').
Qed.
Lemma latest_own points t p : points !! t = Some p → latest points t = Some (t, p).
Proof. intros Hp. apply latest_spec. split_and!; [done|lia|]. lia. Qed.

Section points.
Context (points : gmap Z HistoryPoint).
Context (points_stamped : ∀ k p, points !! k = Some p → hs_timestamp p.1 = k).
Lemma at_own k p : points !! k = Some p → at_timestamp k p.1 = p.1.
Proof. intros <-%points_stamped. by destruct p as [[]]. Qed.
Lemma held_own existing t p : points !! t = Some p → held points existing t = Some p.
Proof.
  intros Hp. unfold held. rewrite Hp. simpl. rewrite (latest_own _ _ _ Hp). simpl.
  rewrite (at_own _ _ Hp). by destruct p.
Qed.
Lemma held_stamped existing t p : held points existing t = Some p → hs_timestamp p.1 = t.
Proof.
  unfold held. destruct (_ || _); [|done]. destruct (latest points t); [|done]. by intros [= <-].
Qed.

(** What the loop over the existing minutes maintains. *)
Record reprojected (done_minutes : list Z)
    (s : list UsageHistorySample * gmap Z (list SessionModelTotal)) : Prop := {
  rp_models t : s.2 !! t = snd <$> held points done_minutes t;
  rp_samples x : x ∈ s.1 ↔ ∃ t p, held points done_minutes t = Some p ∧ x = p.1;
  rp_nodup : NoDup (map hs_timestamp s.1)
}.
Lemma held_snoc done_minutes t t' :
  held points (done_minutes ++ [t]) t'
  = if bool_decide (t' = t) then option_map (λ row, (at_timestamp t row.2.1, row.2.2)) (latest points t)
    else held points done_minutes t'.
Proof.
  unfold held. destruct (decide (t' = t)) as [->|Hne].
  - rewrite (bool_decide_eq_true_2 (t = t)) by done.
    rewrite (bool_decide_eq_true_2 (t ∈ done_minutes ++ [t])); [by rewrite orb_true_r|].
    apply elem_of_app. right. apply list_elem_of_singleton. done.
  - rewrite (bool_decide_eq_false_2 (t' = t)) by done.
    rewrite (bool_decide_ext (t' ∈ done_minutes ++ [t]) (t' ∈ done_minutes)); [done|].
    rewrite elem_of_app, list_elem_of_singleton. naive_solver.
Qed.
Lemma held_latest done_minutes t p :
  held points done_minutes t = Some p → 
  option_map (λ row, (at_timestamp t row.2.1, row.2.2)) (latest points t) = Some p.
Proof. unfold held. by destruct (_ || _). Qed.
Lemma reproject_step done_minutes s t :
  reprojected done_minutes s →
  ∃ s', reproject (map (λ row, row.2.1) (minutes points)) s t = Ok s'
    ∧ reprojected (done_minutes ++ [t]) s'.
Proof.
  intros [Hm Hx Hnd]. destruct s as [samples models]. simpl in *. unfold History.reproject.
  rewrite Hm. destruct (held points done_minutes t) as [p|] eqn:Eh; simpl.
  { eexists. split; [done|]. apply held_latest in Eh as El.
    assert (∀ t', held points (done_minutes ++ [t]) t' = held points done_minutes t') as Hsame.
    { intros t'. rewrite held_snoc. case_bool_decide; [by subst; rewrite Eh|done]. }
    split; simpl; [|setoid_rewrite Hsame|]; [|done..]. intros t'. by rewrite Hsame. }
  assert (List.find (λ sample, hs_timestamp sample <=? t) (rev (map (λ row, row.2.1) (minutes points)))
    = option_map (λ row, row.2.1) (latest points t)) as ->.
  { unfold latest. rewrite <-map_rev.
    assert (∀ row, row ∈ rev (minutes points) → hs_timestamp row.2.1 = row.1) as Hst.
    { intros [k q] Hin. apply points_stamped. rewrite list_elem_of_In, <-in_rev, <-list_elem_of_In in Hin.
      by apply elem_of_minutes. }
    induction (rev (minutes points)) as [|row l IH]; simpl; [done|].
    rewrite (Hst row) by apply list_elem_of_here. destruct (row.1 <=? t); [done|].
    apply IH. intros r Hr. by apply Hst, list_elem_of_further. }
  destruct (latest points t) as [[k q]|] eqn:El; simpl; cycle 1.
  { eexists. split; [done|].
    assert (∀ t', held points (done_minutes ++ [t]) t' = held points done_minutes t') as Hsame.
    { intros t'. rewrite held_snoc. case_bool_decide; [|done]. subst. rewrite El. simpl. by rewrite Eh. }
    split; simpl; [|setoid_rewrite Hsame|]; [|done..]. intros t'. by rewrite Hsame. }
  pose proof El as (Hq & Hk & _)%latest_spec. rewrite (points_stamped k q Hq), Hm, (held_own _ _ _ Hq). simpl.
  eexists. split; [done|].
  assert (∀ t', held points (done_minutes ++ [t]) t'
    = if bool_decide (t' = t) then Some (at_timestamp t q.1, q.2) else held points done_minutes t') as Hnew
    by (intros t'; by rewrite held_snoc, El).
  split; simpl.
  - intros t'. rewrite Hnew. case_bool_decide as Ht; [subst; by rewrite lookup_insert_eq|].
    by rewrite lookup_insert_ne.
  - intros x. rewrite elem_of_app, list_elem_of_singleton, Hx. setoid_rewrite Hnew. split.
    + intros [(t' & p & Hp & ->)| ->].
      * exists t', p. rewrite bool_decide_eq_false_2; [done|]. intros ->. congruence.
      * exists t, (at_timestamp t q.1, q.2). by rewrite bool_decide_eq_true_2.
    + intros (t' & p & Hp & ->). case_bool_decide; [right; by simplify_eq|left; by exists t', p].
  - rewrite map_app. simpl. apply NoDup_app. split_and!; [done| |apply NoDup_singleton].
    intros t' (x & -> & (t0 & p & Hp & ->)%Hx)%list_elem_of_fmap Ht%list_elem_of_singleton.
    simpl in Ht. rewrite (held_stamped _ _ _ Hp) in Ht. subst. congruence.
Qed.
Lemma reproject_all existing s :
  reprojected [] s →
  ∃ s', fold_result (reproject (map (λ row, row.2.1) (minutes points))) s existing = Ok s'
    ∧ reprojected existing s'.
Proof.
  intros Hs. assert (∀ todo done_minutes s, reprojected done_minutes s →
    ∃ s', fold_result (reproject (map (λ row, row.2.1) (minutes points))) s todo = Ok s'
      ∧ reprojected (done_minutes ++ todo) s') as Hall; [|by apply (Hall existing [])].
  clear s Hs. induction todo as [|t todo IH]; intros done_minutes s Hs; simpl.
  { exists s. by rewrite app_nil_r. }
  destruct (reproject_step done_minutes s t Hs) as (s1 & -> & Hs1).
  destruct (IH _ _ Hs1) as (s' & Hf & Hs'). exists s'. by rewrite <-app_assoc in Hs'.
Qed.
Lemma reprojected_start : reprojected [] (map (λ row, row.2.1) (minutes points), snd <$> points).
Proof.
  assert (∀ t, held points [] t = points !! t) as Hh.
  { intros t. destruct (points !! t) as [p|] eqn:E; [by apply held_own|].
    unfold held. by rewrite E. }
  split; simpl.
  - intros t. by rewrite lookup_fmap, Hh.
  - intros x. rewrite list_elem_of_fmap. setoid_rewrite Hh. split.
    + intros ([k p] & -> & Hin%elem_of_minutes). by exists k, p.
    + intros (k & p & Hp & ->). exists (k, p). by rewrite elem_of_minutes.
  - assert (map hs_timestamp (map (λ row, row.2.1) (minutes points)) = map fst (minutes points)) as ->.
    { rewrite map_map. apply map_ext_in. intros [k p] Hin. apply points_stamped.
      by apply list_elem_of_In, elem_of_minutes in Hin. }
    unfold minutes. rewrite (sort_by_perm _ _). apply NoDup_fst_map_to_list.
Qed.
End points.

(** C15. The rebuilt history of the changed minutes, when the admitted events do not
    contradict the expected totals: from [changed_since] on, each minute with a point
    of its own keeps it, each minute that was recorded before and has none holds the
    last point before it, and nothing else appears; the samples stand in order, one
    per minute. It is left out exactly when the totals differ, and fails only when
    they cannot be added. *)
Theorem changed_minutes_exact admitted changed_since expected existing :
  match exact_changed_minute_history reset_at complete admitted changed_since expected existing with
  | Ok (Some (samples, models)) =>
      let points := held (build_points admitted ∅) (List.filter (λ t, changed_since <=? t) existing) in
      result_ok (positive_totals <$> add_all admitted) = Some (positive_totals expected)
      ∧ StronglySorted (λ a b, hs_timestamp a < hs_timestamp b) samples
      ∧ (∀ x, x ∈ samples ↔ ∃ t p, changed_since ≤ t ∧ points t = Some p ∧ x = p.1)
      ∧ ∀ t, models !! t = if changed_since <=? t then snd <$> points t else None
  | Ok None =>
      ∃ totals, add_all admitted = Ok totals ∧ positive_totals totals ≠ positive_totals expected
  | Err e => add_all admitted = Err e
  end.
Proof.
  unfold exact_changed_minute_history. destruct (add_all admitted) as [totals|e]; simpl; [|done].
  case_bool_decide as Htotals; simpl; [|by exists totals].
  set (P := build_points admitted ∅).
  assert (∀ k p, P !! k = Some p → hs_timestamp p.1 = k) as Hst.
  { intros k p Hp. by destruct (point_timestamp _ _ _ _ _ _ Hp). }
  set (ex := List.filter _ existing).
  destruct (reproject_all P Hst ex _ (reprojected_start P Hst)) as ([samples models] & -> & [Hm Hx Hnd]).
  simpl in *. split; [by rewrite Htotals|].
  set (sorted := sort_by (λ a b, hs_timestamp a <=? hs_timestamp b) samples).
  assert (StronglySorted (λ a b, hs_timestamp a < hs_timestamp b) sorted) as Hsorted.
  { by apply sort_by_strict. }
  split_and!.
  - by apply StronglySorted_filter_bool.
  - intros x. rewrite elem_of_filter_bool, Z.leb_le. unfold sorted. rewrite sort_by_elem, Hx. split.
    + intros [(t & p & Hp & ->) Ht]. exists t, p. by rewrite (held_stamped _ _ _ _ Hp) in Ht.
    + intros (t & p & Ht & Hp & ->). split; [by exists t, p|]. by rewrite (held_stamped _ _ _ _ Hp).
  - intros t. destruct (Z.leb_spec changed_since t) as [Hle|Hlt].
    + rewrite <-Hm. apply option_eq. intros l. rewrite map_lookup_filter_Some. simpl. tauto.
    + apply map_lookup_filter_None. right. intros l _. simpl. lia.
Qed.
End changed.

(** ** Replaying an event *)
Lemma checked_sum_comm a b s : checked_sum a b = Ok s → checked_sum b a = Ok s.
Proof.
  rewrite !checked_sum_Ok. intros (Ha & Hb & [[? Ht] Hi Hc Hw Ho] & Hs). split_and!; try done.
  unfold is_sum in *. rewrite add_Ok in *.
  assert (∀ x y z, match x, y with Some a, Some b => a + b ≤ u64_max ∧ z = Some (a + b) | _, _ => z = None end →
    is_sum y x z) as Hcomm.
  { intros [x|] [y|] z; unfold is_sum; rewrite add_Ok; try done. intros [? ->]. split; [lia|f_equal; lia]. }
  split; [lia|..]; by apply Hcomm.
Qed.
(** The delta knows every component the counter knows. *)
Definition delta_knows (counter delta : TokenFacts) : Prop :=
  known_in (tf_input counter) (tf_input delta)
  ∧ known_in (tf_cached_input counter) (tf_cached_input delta)
  ∧ known_in (tf_cache_write_input counter) (tf_cache_write_input delta)
  ∧ known_in (tf_output counter) (tf_output delta).
(** Taking back a counted event that was added restores the counter of its model,
    as long as the event knows every component the counter knew; a model without a
    counter is left with a counter of zero. *)
Theorem subtract_undoes_add totals model delta totals' :
  let key := default UNATTRIBUTED_MODEL (canonical_model model) in
  let counter := default ModelCounter_default (totals !! key) in
  good_fact (facts counter) → tf_wf (facts delta) → has_usage delta = true →
  delta_knows (facts counter) (facts delta) →
  totals_add totals model delta = (totals', Ok ()) →
  totals_subtract totals' model delta = Ok (<[key := counter]> totals).
Proof.
  intros key counter Hg Hw Hu (Ki & Kc & Kw & Ko). unfold totals_add, totals_subtract. rewrite Hu. simpl.
  fold key counter. destruct (counter_add counter delta) as [c|e] eqn:E; [|done]. intros [= <-].
  unfold counter_add in E. apply bind_Ok in E as (s & Hs%map_err_Ok & [= <-]).
  rewrite lookup_insert_eq. simpl. rewrite facts_from.
  assert (tf_wf s) as Hws.
  { pose proof Hs as (_ & Hv & [[Hle Ht] _ _ _ _] & _)%checked_sum_Ok. destruct Hg as [Hwc Hvc].
    pose proof (checked_sum_fits _ _ Hwc Hw Hvc Hv Hle) as Hs'. rewrite Hs in Hs'. injection Hs' as ->.
    by destruct (pointwise_sum_valid _ _ Hwc Hw Hvc Hv Hle). }
  pose proof (checked_sum_comm _ _ _ Hs) as Hcomm.
  assert (checked_delta s (facts delta) = Ok (facts counter)) as ->.
  { pose proof Hcomm as (Vd & Vc & [[] ????] & Vs)%checked_sum_Ok. destruct Hg as [Hwc _].
    apply checked_delta_Ok. split_and!.
    - apply tf_validate_satisfiable; [done|]. by apply satisfiable_weaken, tf_validate_satisfiable.
    - apply tf_validate_satisfiable; [done|]. by apply satisfiable_weaken, tf_validate_satisfiable.
    - destruct Hwc as [[] ????]. split; [lia|..]; by apply is_delta_of_sum.
    - done. }
  simpl. by rewrite from_facts_of, insert_insert_eq.
Qed.

(** ** A concrete history *)
Definition example_delta (total : Z) : TokenSnapshot := {|
  ts_total := total; ts_input := Some (total - 1); ts_cached_input := Some 1; ts_output := Some 1;
  ts_cache_write_input := None |}.
Definition example_usage (t : Z) (model : string) (total : Z) : TimedModelUsage := {|
  tu_timestamp := t; tu_model := lit model; tu_delta := example_delta total |}.
Definition example_events : list TimedModelUsage :=
  [example_usage 200 "gpt-6-sol" 40; example_usage 61 "gpt-6-sol" 10; example_usage 100 "terra" 5;
   example_usage 110 "gpt-6-sol" 3].
Definition example_totals : ModelTotals := default ∅ (result_ok (add_all example_events)).
Example example_history :
  option_map (λ h, map (λ s, (hs_timestamp s, col_sol (hs_tokens s), col_terra (hs_tokens s))) h.1)
    (result_ok (exact_changed_minute_history 5000 true example_events 60 example_totals [120; 300; 60])
     ≫= (λ h, h))
  = Some [(60, 13, 5); (120, 13, 5); (180, 53, 5); (300, 53, 5)].
Proof. by vm_compute. Qed.
Lemma example_wf : deltas_wf example_events.
Proof. unfold deltas_wf. repeat constructor; done. Qed.

Lemma totals_are_sums_witness : decides total_error (sums_fit example_events) (totals_are example_events)
  (add_all example_events).
Proof. apply (totals_are_sums example_events). exact example_wf. Defined.
Lemma totals_order_independent_witness : add_all example_events = add_all (rev example_events).
Proof.
  apply (totals_order_independent example_events (rev example_events));
    [exact example_wf|apply Permutation_rev].
Defined.
Lemma history_is_cumulative_witness :
  let samples := (build_history 5000 true example_events ∅).1 in
  StronglySorted (λ a b, hs_timestamp a < hs_timestamp b ∧ columns_le (hs_tokens a) (hs_tokens b)) samples
  ∧ Forall (λ s, 0 < hs_timestamp s ∧ hs_timestamp s mod 60 = 0) samples.
Proof.
  apply (history_is_cumulative 5000 true ∅ example_events); [|exact example_wf].
  intros m c Hm. discriminate Hm.
Defined.
Lemma subtract_undoes_add_witness :
  totals_subtract (totals_add example_totals (lit "terra") (example_delta 4)).1 (lit "terra") (example_delta 4)
  = Ok (<[default UNATTRIBUTED_MODEL (canonical_model (lit "terra"))
          := default ModelCounter_default (example_totals !! default UNATTRIBUTED_MODEL (canonical_model (lit "terra")))]>
        example_totals).
Proof.
  apply (subtract_undoes_add example_totals (lit "terra") (example_delta 4)).
  - split; [|vm_compute; reflexivity]. vm_compute. repeat constructor; discriminate.
  - vm_compute. repeat constructor; discriminate.
  - reflexivity.
  - vm_compute. split_and!; intros [? Hx]; (discriminate Hx || by eexists).
  - vm_compute. reflexivity.
Defined.
