(* ===== verification/Recordings.v ===== *)
(** * The reader of recorded usage

    Models the local lane of [crates/codex-info-db-reader/src/recordings.rs]: reading
    the prefix sums the writer stored ([read_prefixes]), the token reports of a range
    ([models], [samples]) and the presence of local use by minute ([local_usage]).
    The tables are those of UsageLedger.v; the digest stored beside a prefix, the
    layout of the tables and the observations of the other lanes are left out.
    A range that ends before it starts makes the source panic (an index below zero, or
    [BTreeSet::range]); the theorems are about ranges that do not. *)

From S2P Require Import Prelude Text Contract TokenFacts RecordedUsage SourceAdmission EventAdmission UsageLedger.

#[export] Instance LocalUsageState_eq_dec : EqDecision LocalUsageState. Proof. solve_decision. Defined.

(** The causes of [Io] and [Sqlite] are values of other libraries. *)
Inductive ReaderError :=
| ReaderIo | ReaderSqlite
| ReaderSchema (message : text)
| InvalidValue (message : text)
| ContractViolation (error : ContractError)
| TooManyRows (count : Z).
Definition reader_invalid (message : string) : ReaderError := InvalidValue (lit message).
(** [?] on a contract error. *)
Definition contract {A} (r : result ContractError A) : result ReaderError A :=
  map_err ContractViolation r.

(** The reasons a diagnostic names; the message stays out of it. *)
Definition value_reasons : list (string * string) := [
  ("partial recorded usage schema", "partial_recorded_usage_schema");
  ("invalid recorded usage row storage", "invalid_recorded_usage_row_storage");
  ("invalid recorded revision", "invalid_recorded_revision");
  ("uncommitted recorded projection", "uncommitted_recorded_projection");
  ("invalid recording coverage", "invalid_recording_coverage");
  ("invalid recorded model head", "invalid_recorded_model_head");
  ("unordered recorded model head", "unordered_recorded_model_head");
  ("invalid recorded prefix evidence", "invalid_recorded_prefix_evidence");
  ("invalid recorded prefix payload", "invalid_recorded_prefix_payload");
  ("recorded prefix/head mismatch", "recorded_prefix_head_mismatch");
  ("invalid stored official quota observation", "invalid_stored_official_quota_observation");
  ("saved observation timestamp is invalid", "saved_observation_timestamp_is_invalid");
  ("invalid recovery pointer", "invalid_recovery_pointer");
  ("invalid recovery pointer fields", "invalid_recovery_pointer_fields");
  ("invalid recovery pointer encoding", "invalid_recovery_pointer_encoding");
  ("invalid recovered fact tokens", "invalid_recovered_fact_tokens");
  ("invalid recovered numeric fact", "invalid_recovered_numeric_fact");
  ("recovery relation digest mismatch", "recovery_relation_digest_mismatch");
  ("invalid recovery relation", "invalid_recovery_relation");
  ("invalid recovery relation mode", "invalid_recovery_relation_mode");
  ("missing recovery prefixes", "missing_recovery_prefixes");
  ("invalid recovery parser version", "invalid_recovery_parser_version");
  ("missing recovery original inventory", "missing_recovery_original_inventory");
  ("invalid recovery original source", "invalid_recovery_original_source");
  ("invalid recovery original number", "invalid_recovery_original_number");
  ("invalid recovery original encoding", "invalid_recovery_original_encoding");
  ("missing recovery mappings", "missing_recovery_mappings");
  ("recovery mapping is outside original inventory", "recovery_mapping_is_outside_original_inventory");
  ("invalid recovery canonical relation", "invalid_recovery_canonical_relation");
  ("invalid recovery mapping tokens", "invalid_recovery_mapping_tokens");
  ("recovery relation differs from admitted fact", "recovery_relation_differs_from_admitted_fact")
  ]%string.
Definition recorded_projection_failure_reason (error : ReaderError) : text :=
  match error with
  | ReaderIo => lit "database_io_failure"
  | ReaderSqlite => lit "database_sqlite_failure"
  | ReaderSchema _ => lit "database_schema_failure"
  | ContractViolation _ => lit "recorded_contract_failure"
  | TooManyRows _ => lit "recorded_row_limit"
  | InvalidValue message =>
      default (lit "recorded_value_invalid")
        ((λ row, lit row.2) <$> List.find (λ row, text_eqb (lit row.1) message) value_reasons)
  end.
(** Every reason is its message with underscores for blanks and the slash. *)
Example reasons_are_slugs :
  forallb (λ row, text_eqb (map (λ c, if (c =? 32) || (c =? 47) then 95 else c) (lit row.1)) (lit row.2))
    value_reasons = true.
Proof. by vm_compute. Qed.

Abbreviation prefix_list := (list (Z * RecordedTokenPrefix)).
Record RecordedArchive := {
  ra_prefixes : gmap text prefix_list;
  ra_coverage : RecordingCoverage;
  ra_fact_revision : Z;
  ra_local_index_initialized : bool;
  ra_pending_numeric_times : gset Z
}.
Definition RecordedArchive_default : RecordedArchive := {|
  ra_prefixes := ∅; ra_coverage := Unknown; ra_fact_revision := 0;
  ra_local_index_initialized := false; ra_pending_numeric_times := ∅ |}.

(** ** Reading the prefixes *)
Definition zero_tokens : TokenFacts := {|
  tf_total := 0; tf_input := Some 0; tf_cached_input := Some 0; tf_cache_write_input := Some 0;
  tf_output := Some 0 |}.
Definition prefix_row : Type := (text * Z) * RecordedTokenPrefix.
(** [ORDER BY model,timestamp] *)
Definition row_leb (a b : prefix_row) : bool :=
  if text_eqb a.1.1 b.1.1 then a.1.2 <=? b.1.2 else text_leb a.1.1 b.1.1.
Definition prefix_rows (prefixes : gmap (text * Z) RecordedTokenPrefix) : list prefix_row :=
  sort_by row_leb (map_to_list prefixes).
Definition read_row (prefixes : gmap text prefix_list) (row : prefix_row) :
    result ReaderError (gmap text prefix_list) :=
  let '((model, at_), prefix) := row in
  reject reader_invalid "invalid recorded prefix evidence" when
    negb (in_range 1 (MAX_END_EXCLUSIVE - 1) at_);
  _ ← contract (prefix_validate prefix);
  let values := default [] (prefixes !! model) in
  _ ← match last values with
      | Some (_, previous) => _ ← contract (prefix_difference prefix previous); Ok ()
      | None => Ok ()
      end;
  _ ← contract (RecordedModelUsage_from_tokens model zero_tokens);
  Ok (<[model := values ++ [(at_, prefix)]]> prefixes).
(** [expected.windows(2).any(|v| v[0] >= v[1])] *)
Fixpoint unordered (l : list text) : bool :=
  match l with
  | a :: ((b :: _) as rest) => text_leb b a || unordered rest
  | _ => false
  end.
(** [present] tells which of the three tables exist. *)
Definition read_prefixes (present : bool * bool * bool) (tables : Ledger) (require_initialized : bool) :
    result ReaderError RecordedArchive :=
  let '(facts_present, prefixes_present, state_present) := present in
  let names := [facts_present; prefixes_present; state_present] in
  reject reader_invalid "partial recorded usage schema" when
    existsb (λ v, v) names && existsb negb names;
  reject reader_invalid "local usage index unavailable" when require_initialized && negb facts_present;
  if facts_present then
    reject reader_invalid "local usage index uninitialized" when
      require_initialized && negb (lg_initialized tables);
    reject reader_invalid "uncommitted recorded projection" when
      negb (bool_decide (lg_dirty tables = ∅));
    reject reader_invalid "unordered recorded model head" when unordered (lg_models tables);
    prefixes ← fold_result read_row ∅ (prefix_rows (lg_prefixes tables));
    reject reader_invalid "recorded prefix/head mismatch" when
      negb (bool_decide (map fst (rows prefixes) = lg_models tables))
      || (negb (lg_initialized tables) && negb (bool_decide (prefixes = ∅)));
    Ok {| ra_prefixes := prefixes; ra_coverage := lg_coverage tables;
          ra_fact_revision := lg_fact_revision tables;
          ra_local_index_initialized := lg_initialized tables; ra_pending_numeric_times := ∅ |}
  else Ok RecordedArchive_default.

(** ** Reports *)
(** [values[index].1], or the zero prefix before the first. *)
Definition prefix_before (values : prefix_list) (index : nat) : RecordedTokenPrefix :=
  match index with
  | O => RecordedTokenPrefix_default
  | S i => default RecordedTokenPrefix_default (snd <$> values !! i)
  end.
Definition model_step (start end_ : Z) (result : list RecordedModelUsage) (row : text * prefix_list) :
    Prelude.result ReaderError (list RecordedModelUsage) :=
  let '(model, values) := row in
  let before := partition_point (λ v, v.1 <? start) values in
  let after := partition_point (λ v, v.1 <? end_) values in
  if (before =? after)%nat then Ok result
  else
    difference ← contract (prefix_difference (prefix_before values after) (prefix_before values before));
    match difference with
    | Some tokens =>
        usage ← contract (RecordedModelUsage_from_tokens model tokens);
        Ok (result ++ [usage])
    | None => Ok result
    end.
Definition models (self : RecordedArchive) (start end_ : Z) :
    result ReaderError (list RecordedModelUsage) :=
  fold_result (model_step start end_) [] (rows (ra_prefixes self)).
Definition latest_fact_at (self : RecordedArchive) : option Z :=
  fold_left (λ best v, Some (match best with Some b => Z.max b v | None => v end))
    (filter_map (λ row, fst <$> last row.2) (rows (ra_prefixes self))) None.

Record RecordedSample := { rsm_timestamp : Z; rsm_models : list RecordedModelUsage }.
Definition samples (self : RecordedArchive) (start end_ : Z) :
    result ReaderError (list RecordedSample) :=
  let timestamps : gset Z := list_to_set
    (List.filter (λ at_, (start <=? at_) && (at_ <? end_))
       (concat (map (λ row, map fst row.2) (rows (ra_prefixes self))))) in
  fold_result (λ result timestamp,
    m ← models self start (timestamp + 1);
    Ok (result ++ [{| rsm_timestamp := timestamp; rsm_models := m |}]))
    [] (sort_by Z.leb (elements timestamps)).

(** ** Local use by minute *)
Definition minute_of (t : Z) : Z := t / 60 * 60.
(** What a stored prefix says about the minute of its facts. *)
Definition prefix_state (values : prefix_list) (index : nat) : result ReaderError (option LocalUsageState) :=
  difference ← contract (prefix_difference (prefix_before values (S index)) (prefix_before values index));
  match difference with
  | Some tokens => Ok (if 0 <? tf_total tokens then Some Used else None)
  | None => Ok (Some Unavailable)
  end.
Definition mark (minutes : gmap Z LocalUsageState) (at_ : Z) (state : LocalUsageState) :
    gmap Z LocalUsageState :=
  let minute := minute_of at_ in
  let entry := default state (minutes !! minute) in
  <[minute := match state with Used => Used | _ => entry end]> minutes.
Definition mark_prefix (values : prefix_list) (minutes : gmap Z LocalUsageState) (index : nat) :
    result ReaderError (gmap Z LocalUsageState) :=
  state ← prefix_state values index;
  Ok (match state, values !! index with
      | Some state, Some (at_, _) => mark minutes at_ state
      | _, _ => minutes
      end).
Definition mark_model (start end_ : Z) (minutes : gmap Z LocalUsageState) (row : text * prefix_list) :
    result ReaderError (gmap Z LocalUsageState) :=
  let values := row.2 in
  let first := partition_point (λ v, v.1 <? start) values in
  let last := partition_point (λ v, v.1 <? end_) values in
  fold_result (mark_prefix values) minutes (seq first (last - first)).
Definition mark_pending (minutes : gmap Z LocalUsageState) (at_ : Z) : gmap Z LocalUsageState :=
  <[minute_of at_ := default Unavailable (minutes !! minute_of at_)]> minutes.

Definition push_local_interval (intervals : list LocalUsageInterval) (start_at end_at : Z)
    (state : LocalUsageState) : list LocalUsageInterval :=
  if end_at <=? start_at then intervals
  else
    let pushed := intervals ++ [{| lui_start_at := start_at; lui_end_at := end_at; lui_state := state |}] in
    match last intervals with
    | Some previous =>
        if (lui_end_at previous =? start_at) && bool_decide (lui_state previous = state)
        then removelast intervals
               ++ [{| lui_start_at := lui_start_at previous; lui_end_at := end_at;
                      lui_state := lui_state previous |}]
        else pushed
    | None => pushed
    end.
Definition paint (start end_ : Z) (s : list LocalUsageInterval * Z) (row : Z * LocalUsageState) :
    list LocalUsageInterval * Z :=
  let '(intervals, cursor) := s in
  let '(minute, state) := row in
  let left_ := Z.max minute start in
  let right_ := Z.min (minute + 60) end_ in
  let intervals := if cursor <? left_ then push_local_interval intervals cursor left_ Unused
                   else intervals in
  (push_local_interval intervals left_ right_ state, right_).
Definition local_usage (self : RecordedArchive) (start end_ : Z) : result ReaderError LocalUsage :=
  reject reader_invalid "local usage index uninitialized" when negb (ra_local_index_initialized self);
  minutes ← fold_result (mark_model start end_) ∅ (rows (ra_prefixes self));
  let pending := List.filter (λ at_, (start <=? at_) && (at_ <? end_))
                   (sort_by Z.leb (elements (ra_pending_numeric_times self))) in
  let minutes := fold_left mark_pending pending minutes in
  let '(intervals, cursor) :=
    fold_left (paint start end_) (sort_by (λ a b, a.1 <=? b.1) (map_to_list minutes)) ([], start) in
  let intervals := if cursor <? end_ then push_local_interval intervals cursor end_ Unused
                   else intervals in
  let evidence := {| lu_version := 1; lu_start_at := start; lu_end_at := end_;
                     lu_intervals := intervals |} in
  _ ← contract (LocalUsage_validate evidence);
  Ok evidence.
