(* ===== verification/Spans.v ===== *)
(** * Sorted spans: merging, and lookups by binary search

    The loops that [crates/codex-info-db-reader] repeats over sorted pairs: merging
    spans that touch ([read_pending_numeric_times], [merge_closed_intervals]), the
    running maximum of the ends ([IndexedByteCoverage], [TaskActivityIntervals]), and the
    element before a partition point. What a span means (its bytes, or its seconds with
    both ends) is a parameter of the lemmas. *)

From S2P Require Import Prelude.

Abbreviation span := (Z * Z)%type.
Definition span_leb (a b : span) : bool := (a.1 <? b.1) || ((a.1 =? b.1) && (a.2 <=? b.2)).
Definition merge_span (merged : list span) (s : span) : list span :=
  match last merged with
  | Some l => if s.1 <=? l.2 then removelast merged ++ [(l.1, Z.max l.2 s.2)] else merged ++ [s]
  | None => merged ++ [s]
  end.
Definition merge_spans (spans : list span) : list span := fold_left merge_span spans [].
(** The greatest end so far, from a seed. *)
Fixpoint farthest_ends (farthest : Z) (spans : list span) : list Z :=
  match spans with
  | [] => []
  | s :: rest => Z.max farthest s.2 :: farthest_ends (Z.max farthest s.2) rest
  end.
(** [usize::checked_sub(1)] *)
Definition checked_pred (n : nat) : option nat := match n with O => None | S i => Some i end.
(** [values.partition_point(pred).checked_sub(1).is_some_and(|index| test(ends[index]))] *)
Definition last_passes {A} (pred : A → bool) (test : Z → bool) (values : list A) (ends : list Z) : bool :=
  is_some_and (λ index, is_some_and test (ends !! index)) (checked_pred (partition_point pred values)).

(** ** The order of spans *)
Lemma span_leb_iff a b : span_leb a b = true ↔ a.1 < b.1 ∨ a.1 = b.1 ∧ a.2 ≤ b.2.
Proof. unfold span_leb. by rewrite orb_true_iff, andb_true_iff, Z.ltb_lt, Z.eqb_eq, Z.leb_le. Qed.
Definition by_start (spans : list span) : Prop := StronglySorted (λ a b : span, a.1 ≤ b.1) spans.
Lemma sorted_by_start l : by_start (sort_by span_leb l).
Proof.
  refine (StronglySorted_weaken _ _ _ _ (sort_by_sorted span_leb _ _ l)).
  - intros a b. rewrite span_leb_iff. lia.
  - intros a b. rewrite !span_leb_iff. lia.
  - intros a b c. rewrite !span_leb_iff. lia.
Qed.

(** ** Merging *)
(** Merged spans are apart, in the order of their starts. *)
Definition apart (a b : span) : Prop := a.1 ≤ b.1 ∧ a.2 < b.1.
(** Some span meets a query, in the sense of [W]. *)
Definition covered {X} (W : X → span → Prop) (x : X) (spans : list span) : Prop :=
  ∃ s, s ∈ spans ∧ W x s.
Lemma covered_app {X} (W : X → span → Prop) x l l' : covered W x (l ++ l') ↔ covered W x l ∨ covered W x l'.
Proof. unfold covered. setoid_rewrite elem_of_app. naive_solver. Qed.
Lemma covered_one {X} (W : X → span → Prop) x s : covered W x [s] ↔ W x s.
Proof. unfold covered. setoid_rewrite list_elem_of_singleton. naive_solver. Qed.
Lemma covered_cons {X} (W : X → span → Prop) x s l : covered W x (s :: l) ↔ W x s ∨ covered W x l.
Proof. unfold covered. setoid_rewrite elem_of_cons. naive_solver. Qed.
Lemma covered_perm {X} (W : X → span → Prop) x l l' : (∀ s, s ∈ l ↔ s ∈ l') → covered W x l ↔ covered W x l'.
Proof. unfold covered. intros H. by setoid_rewrite H. Qed.

Lemma merge_span_apart merged s :
  StronglySorted apart merged → (∀ a, a ∈ merged → a.1 ≤ s.1) →
  StronglySorted apart (merge_span merged s) ∧ ∀ a, a ∈ merge_span merged s → a.1 ≤ s.1.
Proof.
  intros Hs Hle. unfold merge_span. destruct (last merged) as [l|] eqn:El; cycle 1.
  { apply last_None in El as ->. simpl. split; [by repeat constructor|].
    intros a ->%list_elem_of_singleton. lia. }
  apply last_Some in El as [m ->]. rewrite removelast_last.
  assert (StronglySorted apart m ∧ ∀ a, a ∈ m → apart a l) as [Hm Hml].
  { split; [by eapply StronglySorted_app_1_l|]. intros a Ha.
    eapply (StronglySorted_app_1_elem_of apart m [l]); [done|done|apply list_elem_of_here]. }
  assert (l.1 ≤ s.1) as Hls by (apply Hle; rewrite elem_of_app; right; apply list_elem_of_here).
  destruct (Z.leb_spec s.1 l.2) as [Hin|Hout]; split.
  - apply StronglySorted_app_2; [|done|by repeat constructor].
    intros a b Ha ->%list_elem_of_singleton. specialize (Hml a Ha). unfold apart in *. simpl. lia.
  - intros a [Ha| ->%list_elem_of_singleton]%elem_of_app; [apply Hle; rewrite elem_of_app; by left|done].
  - apply StronglySorted_app_2; [|done|by repeat constructor].
    intros a b [Ha| ->%list_elem_of_singleton]%elem_of_app ->%list_elem_of_singleton;
      [specialize (Hml a Ha)|]; unfold apart in *; lia.
  - intros a [Ha| ->%list_elem_of_singleton]%elem_of_app; [by apply Hle|lia].
Qed.
(** Merging in the order of the starts keeps every property that joining keeps. *)
Lemma merge_spans_ind (Q : list span → list span → Prop) spans :
  by_start spans → Q [] [] →
  (∀ done merged s, Q done merged → StronglySorted apart merged → (∀ a, a ∈ merged → a.1 ≤ s.1) →
    Q (done ++ [s]) (merge_span merged s)) →
  StronglySorted apart (merge_spans spans) ∧ Q spans (merge_spans spans).
Proof.
  intros Hs Hnil Hstep. assert (StronglySorted apart (merge_spans spans)
    ∧ (∀ a s, a ∈ merge_spans spans → last spans = Some s → a.1 ≤ s.1)
    ∧ Q spans (merge_spans spans)) as (? & _ & ?); [|done].
  unfold merge_spans. induction spans as [|s spans IH] using rev_ind; simpl.
  { split_and!; [constructor|by intros ? ? ?%elem_of_nil|done]. }
  rewrite fold_left_app, last_snoc. simpl.
  destruct IH as (Hm & Hle & Hc); [by eapply StronglySorted_app_1_l|].
  assert (∀ a, a ∈ fold_left merge_span spans [] → a.1 ≤ s.1) as Hbefore.
  { intros a Ha. destruct (last spans) as [s'|] eqn:El.
    - specialize (Hle a s' Ha eq_refl). apply last_Some in El as [l ->].
      assert (s'.1 ≤ s.1); [|lia].
      apply (StronglySorted_app_1_elem_of (λ a b : span, a.1 ≤ b.1) (l ++ [s']) [s]);
        [done|rewrite elem_of_app; right; apply list_elem_of_here|apply list_elem_of_here].
    - apply last_None in El as ->. by apply elem_of_nil in Ha. }
  destruct (merge_span_apart (fold_left merge_span spans []) s Hm Hbefore).
  split_and!; [done|by intros a s' Ha [= <-]; auto|by apply Hstep].
Qed.
Section merging.
Context {X : Type} (W : X → span → Prop).
Context (Hjoin : ∀ x (l s : span), l.1 ≤ s.1 ≤ l.2 → W x (l.1, Z.max l.2 s.2) ↔ W x l ∨ W x s).
Lemma merge_span_covered merged s x :
  (∀ a, a ∈ merged → a.1 ≤ s.1) → covered W x (merge_span merged s) ↔ covered W x merged ∨ W x s.
Proof.
  intros Hle. unfold merge_span. destruct (last merged) as [l|] eqn:El; cycle 1.
  { by rewrite covered_app, covered_one. }
  apply last_Some in El as [m ->]. rewrite removelast_last.
  assert (l.1 ≤ s.1) as Hls by (apply Hle; rewrite elem_of_app; right; apply list_elem_of_here).
  destruct (Z.leb_spec s.1 l.2) as [Hin|Hout]; rewrite !covered_app, !covered_one; [|done].
  rewrite Hjoin by lia. tauto.
Qed.
Lemma merge_spans_covered spans :
  by_start spans →
  StronglySorted apart (merge_spans spans) ∧ ∀ x, covered W x (merge_spans spans) ↔ covered W x spans.
Proof.
  intros Hs. apply (merge_spans_ind (λ done merged, ∀ x, covered W x merged ↔ covered W x done)); [done..|].
  intros done_ merged s Hc _ Hle x. by rewrite merge_span_covered, covered_app, covered_one, Hc.
Qed.
End merging.
(** Merging spans that do not end before they start gives such spans. *)
Lemma merge_spans_valid spans :
  by_start spans → (∀ s : span, s ∈ spans → s.1 ≤ s.2) → ∀ s : span, s ∈ merge_spans spans → s.1 ≤ s.2.
Proof.
  intros Hs. apply (merge_spans_ind (λ done merged,
    (∀ s : span, s ∈ done → s.1 ≤ s.2) → ∀ s : span, s ∈ merged → s.1 ≤ s.2)); [done|by intros _ ? ?%elem_of_nil|].
  intros l merged s IH _ Hle Hv a Ha.
  assert (s.1 ≤ s.2) by (apply Hv; rewrite elem_of_app; right; apply list_elem_of_here).
  assert (∀ b : span, b ∈ merged → b.1 ≤ b.2) as Hm by (apply IH; intros b Hb; apply Hv; rewrite elem_of_app; by left).
  unfold merge_span in Ha. destruct (last merged) as [t|] eqn:El; cycle 1.
  { apply elem_of_app in Ha as [Ha| ->%list_elem_of_singleton]; [by apply Hm|done]. }
  apply last_Some in El as [m ->]. rewrite removelast_last in Ha. destruct (Z.leb_spec s.1 t.2).
  - apply elem_of_app in Ha as [Ha| ->%list_elem_of_singleton]; [apply Hm; rewrite elem_of_app; by left|].
    simpl. assert (t.1 ≤ t.2) by (apply Hm; rewrite elem_of_app; right; apply list_elem_of_here). lia.
  - apply elem_of_app in Ha as [Ha| ->%list_elem_of_singleton]; [by apply Hm|done].
Qed.

(** ** Lookups *)
(** The ends at or before an index, against those of the spans the predicate admits. *)
Lemma last_passes_iff (pred : span → bool) test (spans : list span) (ends : list Z) :
  StronglySorted (λ a b, pred b = true → pred a = true) spans → length ends = length spans →
  (∀ i s, spans !! i = Some s → pred s = true → test s.2 = true →
    ∀ j e, (i ≤ j)%nat → (j < partition_point pred spans)%nat → ends !! j = Some e → test e = true) →
  (∀ j e, (j < partition_point pred spans)%nat → ends !! j = Some e → test e = true →
    ∃ i s, (i ≤ j)%nat ∧ spans !! i = Some s ∧ test s.2 = true) →
  last_passes pred test spans ends = true ↔ ∃ s, s ∈ spans ∧ pred s = true ∧ test s.2 = true.
Proof.
  intros Hs Hlen Hup Hdown. unfold last_passes.
  pose proof (partition_point_length pred spans) as Hpp.
  split.
  - destruct (partition_point pred spans) as [|k] eqn:Ek; [done|]. simpl.
    destruct (lookup_lt_is_Some_2 ends k) as [e He]; [lia|]. rewrite He. simpl. intros Ht.
    destruct (Hdown k e ltac:(lia) He Ht) as (i & s & Hik & Hi & Hts). exists s.
    split_and!; [by eapply list_elem_of_lookup_2| |done].
    apply (partition_point_lookup pred spans i s Hs Hi). lia.
  - intros (s & [i Hi]%list_elem_of_lookup & Hp & Ht).
    pose proof (proj2 (partition_point_lookup pred spans i s Hs Hi) Hp) as Hlt.
    destruct (partition_point pred spans) as [|k] eqn:Ek; [lia|]. simpl.
    destruct (lookup_lt_is_Some_2 ends k) as [e He]; [lia|]. rewrite He. simpl.
    apply (Hup i s Hi Hp Ht k e); (lia || done).
Qed.
Lemma farthest_ends_length f spans : length (farthest_ends f spans) = length spans.
Proof. revert f. induction spans as [|s spans IH]; intros f; simpl; [done|by rewrite IH]. Qed.
Lemma farthest_ends_spec spans f j e :
  farthest_ends f spans !! j = Some e →
  f ≤ e ∧ (∀ i s, (i ≤ j)%nat → spans !! i = Some s → s.2 ≤ e)
  ∧ (e = f ∨ ∃ i s, (i ≤ j)%nat ∧ spans !! i = Some s ∧ e = s.2).
Proof.
  revert f j. induction spans as [|s spans IH]; intros f j H; simpl in H; [done|].
  destruct j as [|j]; simpl in H.
  - injection H as <-. split_and!; [lia| |].
    + intros [|i] t Hi Ht; [|lia]. injection Ht as <-. lia.
    + destruct (Z.max_spec f s.2) as [[_ ->]|[_ ->]]; [right; by exists 0%nat, s|by left].
  - destruct (IH _ _ H) as (Hf & Hle & Hex). split_and!; [lia| |].
    + intros [|i] t Hi Ht; simpl in Ht; [injection Ht as <-; lia|]. apply (Hle i t); [lia|done].
    + destruct Hex as [->|(i & t & Hi & Ht & ->)]; [|right; exists (S i), t; split_and!; (lia || done)].
      destruct (Z.max_spec f s.2) as [[_ ->]|[_ ->]]; [right; exists 0%nat, s; split_and!; (lia || done)|by left].
Qed.
(** With the running maxima the lookup finds a span among all the admitted ones. *)
Lemma farthest_lookup (pred : span → bool) test f (spans : list span) :
  StronglySorted (λ a b, pred b = true → pred a = true) spans →
  (∀ a b, a ≤ b → test a = true → test b = true) → (∀ s : span, s ∈ spans → f ≤ s.2) →
  last_passes pred test spans (farthest_ends f spans) = true
  ↔ ∃ s, s ∈ spans ∧ pred s = true ∧ test s.2 = true.
Proof.
  intros Hs Hup Hf. apply last_passes_iff; [done|apply farthest_ends_length| |].
  - intros i s Hi _ Ht j e Hij _ He. destruct (farthest_ends_spec _ _ _ _ He) as (_ & Hle & _).
    by apply (Hup s.2 e); [apply (Hle i)|].
  - intros j e _ He Ht. destruct (farthest_ends_spec _ _ _ _ He) as (_ & Hle & [->|(i & s & ? & ? & ->)]).
    + destruct (lookup_lt_is_Some_2 spans 0) as [s Hs0].
      { apply lookup_lt_Some in He. rewrite farthest_ends_length in He. lia. }
      exists 0%nat, s. split_and!; [lia|done|]. apply (Hup f); [|done]. apply Hf. by eapply list_elem_of_lookup_2.
    + by exists i, s.
Qed.
(** On merged spans the last admitted one has the greatest end. *)
Lemma merged_lookup (pred : span → bool) test (spans : list span) :
  StronglySorted apart spans → (∀ s : span, s ∈ spans → s.1 ≤ s.2) →
  (∀ a b : span, a.1 ≤ b.1 → pred b = true → pred a = true) →
  (∀ a b, a ≤ b → test a = true → test b = true) →
  last_passes pred test spans (map snd spans) = true ↔ ∃ s, s ∈ spans ∧ pred s = true ∧ test s.2 = true.
Proof.
  intros Hs Hv Hpred Hup. apply last_passes_iff; [|apply length_map| |].
  - refine (StronglySorted_weaken _ _ _ _ Hs). intros a b [Hab _]. by apply Hpred.
  - intros i s Hi _ Ht j e Hij _ He. apply list_lookup_fmap_Some in He as (t & -> & Hj).
    destruct (decide (i = j)) as [->|Hne]; [by rewrite Hi in Hj; injection Hj as ->|].
    apply (Hup s.2); [|done]. destruct (StronglySorted_nth _ _ _ _ _ _ Hs Hi Hj ltac:(lia)).
    specialize (Hv t (list_elem_of_lookup_2 _ _ _ Hj)). lia.
  - intros j e _ He Ht. apply list_lookup_fmap_Some in He as (t & -> & Hj). by exists j, t.
Qed.
