(* ===== verification/PendingUsage.v ===== *)
(** * Local use that is not qualified yet

    Models [read_pending_numeric_times] and [read_local] of
    [crates/codex-info-db-reader/src/recordings.rs]: the times of numeric events whose
    record still lies in a pending range. A table is the list of its rows (only the
    columns read); the text of a JSON document is parsed by a parameter. *)

From S2P Require Import Prelude Text Spans Float64 Json Contract TokenFacts RecordedUsage UsageLedger Recordings.

(** The columns that name a version of a file. *)
Record FileVersion := {
  fv_root_identity : text;
  fv_relative_path : text;
  fv_file_device : text;
  fv_file_inode : text;
  fv_prefix_generation : text
}.
#[export] Instance FileVersion_eq_dec : EqDecision FileVersion. Proof. solve_decision. Defined.
Record PendingRow := { pr_file : FileVersion; pr_start_offset : Z; pr_end_offset : Z }.
Record EventRow := {
  ev_file : FileVersion;
  ev_range_start : Z;
  ev_range_end : Z;
  ev_timestamp : Z;
  ev_admission_json : option text;
  ev_total_tokens : text
}.
Record CheckpointRow := { ck_file : FileVersion; ck_source_admission : option text }.
(** The three tables; [None] for a table that does not exist. *)
Record PendingTables := {
  pt_pending : option (list PendingRow);
  pt_events : option (list EventRow);
  pt_checkpoints : option (list CheckpointRow)
}.

(** ** Spans *)
(** [ORDER BY start_offset,end_offset] *)
Definition spans_of (pending : list PendingRow) (file : FileVersion) : list span :=
  sort_by span_leb (map (λ p, (pr_start_offset p, pr_end_offset p))
    (List.filter (λ p, bool_decide (pr_file p = file)) pending)).
Definition still_pending (merged : list span) (start end_ : Z) : bool :=
  match partition_point (λ s : span, s.1 <=? start) merged with
  | O => false
  | S index => is_some_and (λ s, end_ <=? s.2) (merged !! index)
  end.

(** ** Events *)
(** The timestamps the join selects. [DISTINCT] only drops repetitions. *)
Definition pending_events (pending : list PendingRow) (events : list EventRow) : list Z :=
  map ev_timestamp
    (List.filter (λ e,
       existsb (λ p, bool_decide (pr_file p = ev_file e)
                     && (pr_start_offset p <=? ev_range_start e) && (ev_range_end e <=? pr_end_offset p))
         pending
       && negb (opt_is_some (ev_admission_json e))
       && negb (text_eqb (ev_total_tokens e) (lit "0"))) events).
(** [(1..MAX_END_EXCLUSIVE).contains(&at)] *)
Definition recorded_time (at_ : Z) : bool := in_range 1 (MAX_END_EXCLUSIVE - 1) at_.
Definition pending_event (includes : Z → bool) (times : gset Z) (at_ : Z) :
    result ReaderError (gset Z) :=
  reject reader_invalid "invalid pending usage timestamp" when negb (recorded_time at_);
  Ok (if includes at_ then {[at_]} ∪ times else times).

(** ** Responses *)
Section responses.
Context {N : Type} `{JsonNumber N}.
Context (from_str : text → option (Value N)).

(** [Value::pointer] for a path whose segments are no array indices. *)
Definition pointer (path : list string) (v : Value N) : option (Value N) :=
  fold_left (λ v segment, v ≫= value_get (lit segment)) path (Some v).
Definition pending_response (includes : Z → bool) (merged : list span) (times : gset Z)
    (response : Value N) : result ReaderError (gset Z) :=
  if negb (is_some_and (λ v, 0 <? v) (pointer ["record"; "usage"; "total"]%string response ≫= value_as_u64))
  then Ok times
  else
    at_ ← ok_or (pointer ["pointer"; "timestamp"]%string response ≫= value_as_i64)
            (reader_invalid "invalid pending response timestamp");
    start ← ok_or (pointer ["pointer"; "start"]%string response ≫= value_as_u64)
              (reader_invalid "invalid pending response range");
    end_ ← ok_or (pointer ["pointer"; "end"]%string response ≫= value_as_u64)
             (reader_invalid "invalid pending response range");
    reject reader_invalid "invalid pending response metadata" when
      negb (recorded_time at_) || (end_ <=? start);
    Ok (if still_pending merged start end_ && includes at_ then {[at_]} ∪ times else times).
Definition pending_checkpoint (includes : Z → bool) (pending : list PendingRow) (times : gset Z)
    (checkpoint : CheckpointRow) : result ReaderError (gset Z) :=
  match ck_source_admission checkpoint with
  | Some payload =>
      if existsb (λ p, bool_decide (pr_file p = ck_file checkpoint)) pending then
        let merged := merge_spans (spans_of pending (ck_file checkpoint)) in
        document ← ok_or (from_str payload) (reader_invalid "invalid pending response metadata");
        match value_get (lit "responses") document ≫= as_array with
        | Some responses => fold_result (pending_response includes merged) times responses
        | None => Ok times
        end
      else Ok times
  | None => Ok times
  end.

(** [archive.pending_numeric_times] after [read_pending_numeric_times]. *)
Definition read_pending_numeric_times (includes : Z → bool) (tables : PendingTables) (times : gset Z) :
    result ReaderError (gset Z) :=
  times ← match pt_events tables, pt_pending tables with
          | Some events, Some pending => fold_result (pending_event includes) times (pending_events pending events)
          | _, _ => Ok times
          end;
  match pt_checkpoints tables, pt_pending tables with
  | Some checkpoints, Some pending => fold_result (pending_checkpoint includes pending) times checkpoints
  | _, _ => Ok times
  end.
Definition with_pending (self : RecordedArchive) (times : gset Z) : RecordedArchive := {|
  ra_prefixes := ra_prefixes self; ra_coverage := ra_coverage self;
  ra_fact_revision := ra_fact_revision self;
  ra_local_index_initialized := ra_local_index_initialized self; ra_pending_numeric_times := times |}.
Definition read_local (includes : Z → bool) (present : bool * bool * bool) (ledger : Ledger)
    (tables : PendingTables) : result ReaderError RecordedArchive :=
  archive ← read_prefixes present ledger true;
  times ← read_pending_numeric_times includes tables (ra_pending_numeric_times archive);
  Ok (with_pending archive times).
End responses.

(** ** Merged spans cover what the spans cover *)
Definition within (x : Z) (s : span) : Prop := s.1 ≤ x < s.2.
Lemma within_join x (l s : span) :
  l.1 ≤ s.1 ≤ l.2 → within x (l.1, Z.max l.2 s.2) ↔ within x l ∨ within x s.
Proof. unfold within. simpl. lia. Qed.
(** The lookup by start finds a cover of the whole range. *)
Lemma still_pending_within merged start end_ :
  StronglySorted apart merged → start < end_ →
  still_pending merged start end_ = true ↔ ∃ s, s ∈ merged ∧ s.1 ≤ start ∧ end_ ≤ s.2.
Proof.
  intros Hs Hne. unfold still_pending.
  assert (∀ i (s : span), merged !! i = Some s →
    (i < partition_point (λ s : span, (s.1 <=? start)%Z) merged)%nat ↔ s.1 ≤ start) as Hpp.
  { intros i s Hi. rewrite (partition_point_lookup _ _ _ s), Z.leb_le; [done| |done].
    refine (StronglySorted_weaken _ _ _ _ Hs). intros a b [? _]. rewrite !Z.leb_le. lia. }
  pose proof (partition_point_length (λ s : span, s.1 <=? start) merged) as Hlen.
  split.
  - destruct (partition_point _ merged) as [|i]; [done|].
    destruct (lookup_lt_is_Some_2 merged i) as [s Hi]; [lia|]. rewrite Hi. simpl. rewrite Z.leb_le.
    exists s. split_and!; [by eapply list_elem_of_lookup_2|by apply (Hpp i); [|lia]|done].
  - intros (s & [j Hj]%list_elem_of_lookup & Hstart & Hend). apply (Hpp j) in Hstart as Hlt; [|done].
    destruct (partition_point _ merged) as [|i]; [lia|].
    destruct (lookup_lt_is_Some_2 merged i) as [s' Hi]; [lia|]. rewrite Hi. simpl. rewrite Z.leb_le.
    destruct (decide (i = j)) as [->|Hij]; [by rewrite Hi in Hj; injection Hj as ->|].
    destruct (StronglySorted_nth _ _ _ _ _ _ Hs Hj Hi ltac:(lia)) as [_ Hap].
    assert (s'.1 ≤ start); [|lia]. by apply (Hpp i); [|lia].
Qed.
Lemma covered_within merged start end_ :
  StronglySorted apart merged → start < end_ →
  (∃ s, s ∈ merged ∧ s.1 ≤ start ∧ end_ ≤ s.2) ↔ ∀ x, start ≤ x < end_ → covered within x merged.
Proof.
  intros Hs Hne. split.
  - intros (s & Hin & ? & ?) x Hx. exists s. split; [done|]. unfold within. lia.
  - intros Hall. destruct (Hall start ltac:(lia)) as (s & [i Hi]%list_elem_of_lookup & Hst).
    exists s. unfold within in Hst. split_and!; [by eapply list_elem_of_lookup_2|lia|].
    destruct (decide (end_ ≤ s.2)); [done|]. exfalso.
    destruct (Hall s.2 ltac:(lia)) as (s' & [j Hj]%list_elem_of_lookup & Hst'). unfold within in Hst'.
    destruct (Nat.lt_total i j) as [Hlt|[<-|Hlt]].
    + destruct (StronglySorted_nth _ _ _ _ _ _ Hs Hi Hj Hlt). lia.
    + assert (s' = s) as -> by congruence. lia.
    + destruct (StronglySorted_nth _ _ _ _ _ _ Hs Hj Hi Hlt). lia.
Qed.
Lemma elem_of_spans_of pending file s :
  s ∈ spans_of pending file ↔
  ∃ p, p ∈ pending ∧ pr_file p = file ∧ s = (pr_start_offset p, pr_end_offset p).
Proof.
  unfold spans_of. rewrite sort_by_elem, list_elem_of_fmap. setoid_rewrite elem_of_filter_bool.
  setoid_rewrite bool_decide_eq_true. naive_solver.
Qed.

(** A response of a file is still pending exactly when every byte of its record lies
    in some pending range of that version of the file, however the ranges overlap,
    repeat or touch. *)
Theorem still_pending_exact pending file start end_ :
  start < end_ →
  still_pending (merge_spans (spans_of pending file)) start end_ = true ↔
  ∀ x, start ≤ x < end_ →
    ∃ p, p ∈ pending ∧ pr_file p = file ∧ pr_start_offset p ≤ x < pr_end_offset p.
Proof.
  intros Hne. destruct (merge_spans_covered within within_join (spans_of pending file)) as [Hs Hc];
    [apply sorted_by_start|].
  rewrite still_pending_within, covered_within by done. setoid_rewrite Hc.
  unfold covered. setoid_rewrite elem_of_spans_of. unfold within. split.
  - intros Hall x Hx. destruct (Hall x Hx) as (s & (p & ? & ? & ->) & ?). by exists p.
  - intros Hall x Hx. destruct (Hall x Hx) as (p & ? & ? & ?). eexists. split; [by exists p|done].
Qed.

(** *** A concrete file: two ranges that touch, one that repeats and one apart *)
Definition example_file : FileVersion := {|
  fv_root_identity := lit "r"; fv_relative_path := lit "a/b.jsonl"; fv_file_device := lit "1";
  fv_file_inode := lit "2"; fv_prefix_generation := lit "0" |}.
Definition example_pending : list PendingRow :=
  map (λ s, {| pr_file := example_file; pr_start_offset := s.1; pr_end_offset := s.2 |})
    [(40, 50); (10, 20); (0, 10); (5, 9)].
Example example_merged : merge_spans (spans_of example_pending example_file) = [(0, 20); (40, 50)].
Proof. by vm_compute. Qed.
Lemma still_pending_exact_witness :
  still_pending (merge_spans (spans_of example_pending example_file)) 8 15 = true ↔
  ∀ x, 8 ≤ x < 15 →
    ∃ p, p ∈ example_pending ∧ pr_file p = example_file ∧ pr_start_offset p ≤ x < pr_end_offset p.
Proof. apply (still_pending_exact example_pending example_file 8 15). reflexivity. Defined.
