(* ===== verification/RecordedValues.v ===== *)
(** * The archive of recorded usage and the facts it stands for

    What reading (Recordings.v) makes of a ledger the writer refreshed (LedgerSums.v):
    the values of a model are its stored prefixes in the order of their times, the
    difference of two of them is the sum of the facts in between, a report is the sum
    of a range, and reading succeeds exactly on [readable] facts. *)

From S2P Require Import Prelude Text Contract TokenFacts RecordedUsage SourceAdmission EventAdmission UsageLedger LedgerSums Recordings.

(** ** The values of one model *)
(** The stored prefixes of a model, in the order of their times. *)
Record stored_values (prefixes : gmap (text * Z) RecordedTokenPrefix) (m : text)
    (values : prefix_list) : Prop := {
  sv_sorted : StronglySorted (λ a b, a.1 < b.1) values;
  sv_elem t p : (t, p) ∈ values ↔ prefixes !! (m, t) = Some p
}.
(** The number of values before a time. *)
Definition before_time (s : Z) (values : prefix_list) : nat := partition_point (λ v, v.1 <? s) values.

Lemma before_time_lookup s (values : prefix_list) i v :
  StronglySorted (λ a b : Z * RecordedTokenPrefix, a.1 < b.1) values → values !! i = Some v →
  (i < before_time s values)%nat ↔ v.1 < s.
Proof.
  intros Hs Hv. unfold before_time. rewrite (partition_point_lookup _ _ _ v), Z.ltb_lt; [done| |done].
  refine (StronglySorted_weaken _ _ _ _ Hs). intros a b ?. rewrite !Z.ltb_lt. lia.
Qed.
Lemma before_time_mono s s' values :
  StronglySorted (λ a b : Z * RecordedTokenPrefix, a.1 < b.1) values → s ≤ s' →
  (before_time s values ≤ before_time s' values)%nat.
Proof.
  intros Hs Hle. destruct (before_time s values) as [|i] eqn:E; [lia|].
  pose proof (partition_point_length (λ v, v.1 <? s) values) as Hlen. fold (before_time s values) in Hlen.
  destruct (lookup_lt_is_Some_2 values i) as [v Hv]; [lia|].
  pose proof (before_time_lookup s values i v Hs Hv). pose proof (before_time_lookup s' values i v Hs Hv). lia.
Qed.
(** Two times with the same index have no value between them. *)
Lemma before_time_between s s' values v :
  StronglySorted (λ a b : Z * RecordedTokenPrefix, a.1 < b.1) values →
  v ∈ values → s ≤ v.1 < s' → (before_time s values < before_time s' values)%nat.
Proof.
  intros Hs [i Hi]%list_elem_of_lookup Hv.
  pose proof (before_time_lookup s values i v Hs Hi). pose proof (before_time_lookup s' values i v Hs Hi). lia.
Qed.
Lemma prefix_before_last prefixes m values s :
  stored_values prefixes m values →
  prefix_before values (before_time s values)
  = default RecordedTokenPrefix_default (last_prefix prefixes m s).
Proof.
  intros [Hs Hin]. pose proof (last_prefix_spec prefixes m s) as Hlast.
  destruct (before_time s values) as [|i] eqn:E; simpl.
  - destruct (last_prefix prefixes m s) as [p|]; [|done]. destruct Hlast as (t & Hp & Ht & _).
    apply Hin, list_elem_of_lookup in Hp as [i Hi].
    pose proof (before_time_lookup s values i _ Hs Hi) as H. simpl in H. lia.
  - pose proof (partition_point_length (λ v, v.1 <? s) values) as Hlen. fold (before_time s values) in Hlen.
    destruct (lookup_lt_is_Some_2 values i) as [[t p] Hv]; [lia|]. rewrite Hv. simpl.
    pose proof (before_time_lookup s values i _ Hs Hv) as Ht. simpl in Ht.
    assert (prefixes !! (m, t) = Some p) as Hp by (apply Hin; by eapply list_elem_of_lookup_2).
    destruct (last_prefix prefixes m s) as [p'|]; simpl.
    + destruct Hlast as (t' & Hp' & Ht' & Hmax). specialize (Hmax t p Hp ltac:(lia)).
      assert (t = t') as ->; [|congruence].
      apply Hin, list_elem_of_lookup in Hp' as [j Hj].
      pose proof (before_time_lookup s values j _ Hs Hj) as Hjs. simpl in Hjs.
      destruct (decide (j = i)) as [->|Hne]; [rewrite Hj in Hv; congruence|].
      pose proof (StronglySorted_nth _ _ j i _ _ Hs Hj Hv ltac:(lia)) as Hlt. simpl in Hlt. lia.
    + specialize (Hlast t p Hp). lia.
Qed.

(** ** The facts of a range *)
Definition range_entries (facts : gmap text UsageFact) (m : text) (start end_ : Z) : list entry :=
  List.filter (λ e, (start <=? e.1.2) && (e.1.2 <? end_)) (entries facts m).
(** The tokens of the eligible facts of a model in a range, in the order of the sums. *)
Definition range_tokens (facts : gmap text UsageFact) (m : text) (start end_ : Z) : list TokenFacts :=
  map snd (range_entries facts m start end_).
Definition facts_wf (facts : gmap text UsageFact) : Prop :=
  ∀ i f, facts !! i = Some f → tf_wf (uf_tokens f).

Lemma elem_of_range_entries facts m start end_ e :
  e ∈ range_entries facts m start end_ ↔ e ∈ entries facts m ∧ start ≤ e.1.2 < end_.
Proof. unfold range_entries. rewrite elem_of_filter_bool, andb_true_iff, Z.leb_le, Z.ltb_lt. tauto. Qed.
Lemma entries_wf facts m : facts_wf facts → Forall tf_wf (map snd (entries facts m)).
Proof.
  intros Hwf. rewrite Forall_map, Forall_forall.
  intros e (i & f & Hf & _ & _ & ->)%elem_of_entries. by apply (Hwf i).
Qed.
Lemma range_tokens_wf facts m start end_ :
  facts_wf facts → Forall tf_wf (range_tokens facts m start end_).
Proof.
  intros Hwf. pose proof (entries_wf facts m Hwf) as H. unfold range_tokens.
  rewrite Forall_map, Forall_forall in *. intros e [He _]%elem_of_range_entries. by apply H.
Qed.
Lemma range_tokens_nil facts m start end_ :
  range_tokens facts m start end_ = [] ↔ ∀ e, e ∈ entries facts m → ¬ start ≤ e.1.2 < end_.
Proof.
  unfold range_tokens. split.
  - intros Hnil%map_eq_nil e He Ht. apply (elem_of_nil e). rewrite <-Hnil.
    by apply elem_of_range_entries.
  - intros Hno. unfold range_entries. rewrite filter_none; [done|]. intros e He.
    specialize (Hno e He). rewrite andb_false_iff, Z.leb_gt, Z.ltb_ge. lia.
Qed.
Lemma until_range facts m start end_ :
  start ≤ end_ →
  until (end_ - 1) (entries facts m)
  = until (start - 1) (entries facts m) ++ range_entries facts m start end_.
Proof.
  intros Hle. destruct (decide (start = end_)) as [->|Hne].
  - assert (range_tokens facts m end_ end_ = []) as Hnil by (apply range_tokens_nil; lia).
    apply map_eq_nil in Hnil. by rewrite Hnil, app_nil_r.
  - rewrite (until_later start (end_ - 1)) by (apply entries_timed || lia). f_equal.
    unfold until, since, range_entries. rewrite <-filter_andb. apply filter_ext. intros e.
    f_equal. apply eq_true_iff_eq. rewrite Z.leb_le, Z.ltb_lt. lia.
Qed.
Lemma sum_from_add_all p es : sum_from p es = add_all p (map snd es).
Proof.
  revert p. induction es as [|e es IH]; intros p; unfold sum_from in *; simpl; [done|].
  destruct (prefix_add p e.2); simpl; [apply IH|done].
Qed.

Lemma default_wf : RecordedTokenPrefix_wf RecordedTokenPrefix_default.
Proof. split; [vm_compute; split; congruence|]. repeat constructor; vm_compute; congruence. Qed.
Lemma sum_of_wf facts m es p :
  facts_wf facts → (∀ e, e ∈ es → e ∈ entries facts m) → sum_of es = Ok p →
  RecordedTokenPrefix_wf p ∧ prefix_validate p = Ok ().
Proof.
  intros Hwf Hes Hp. split; [|by eapply sum_of_valid].
  unfold sum_of in Hp. rewrite sum_from_add_all in Hp.
  destruct (prefix_validate_surj RecordedTokenPrefix_default default_wf eq_refl) as (a & Ea & Ha).
  rewrite Ea in Hp. apply add_all_render in Hp as (-> & Hv & _); [|done|].
  - destruct (pv_wf _ Hv) as (? & ? & [??] & [??] & [??] & [??]). split; [done|].
    rewrite !Forall_cons, Forall_nil. by split_and!.
  - pose proof (entries_wf facts m Hwf) as H. rewrite Forall_map, Forall_forall in *. auto.
Qed.
(** The sum of a range: present and within 64 bits. *)
Definition fits (ts : list TokenFacts) : bool := tf_total (range_facts ts) <=? u64_max.
Definition usage_of (m : text) (tokens : TokenFacts) : RecordedModelUsage := {|
  rmu_model := m; rmu_total_tokens := tf_total tokens; rmu_input_tokens := tf_input tokens;
  rmu_cached_input_tokens := tf_cached_input tokens;
  rmu_cache_write_input_tokens := tf_cache_write_input tokens;
  rmu_output_tokens := tf_output tokens; rmu_estimated_cost := None |}.

Lemma from_tokens_Ok m tokens :
  is_valid_public_model_name m = true → validate_fact tokens = Ok () →
  RecordedModelUsage_from_tokens m tokens = Ok (usage_of m tokens).
Proof.
  intros Hm Ht. unfold RecordedModelUsage_from_tokens, RecordedModelUsage_validate. cbn [rmu_model].
  rewrite Hm. simpl. destruct tokens. unfold RecordedModelUsage_tokens. simpl in *. by rewrite Ht.
Qed.
Lemma from_tokens_valid_name m tokens u :
  RecordedModelUsage_from_tokens m tokens = Ok u → is_valid_public_model_name m = true.
Proof.
  unfold RecordedModelUsage_from_tokens. intros (x & H & _)%bind_Ok.
  unfold RecordedModelUsage_validate in H. apply reject_Ok in H as [H _]. simpl in H. by destruct (is_valid_public_model_name m).
Qed.

Lemma prefix_difference_valid p p' tokens :
  prefix_difference p p' = Ok (Some tokens) → validate_fact tokens = Ok ().
Proof.
  unfold prefix_difference. intros H. repeat apply bind_Ok in H as (? & ? & H). simpl in H.
  destruct (_ =? 0); [by apply reject_Ok in H as [_ ?]|].
  apply bind_Ok in H as ([] & Hval & [= <-]). by apply map_err_Ok in Hval.
Qed.

(** A ledger without pending changes, and the values of a model in it. *)
Section model.
Context (L : Ledger) (m : text) (values : prefix_list).
Context (Hsummed : ∀ t, summed L m t) (Hfacts : facts_wf (lg_facts L))
  (Hvalues : stored_values (lg_prefixes L) m values).

Lemma before_is_sum s :
  sum_of (until (s - 1) (entries (lg_facts L) m)) = Ok (prefix_before values (before_time s values)).
Proof.
  rewrite (prefix_before_last _ _ _ _ Hvalues). apply last_prefix_sum. intros t _. apply Hsummed.
Qed.
Lemma before_valid s :
  RecordedTokenPrefix_wf (prefix_before values (before_time s values))
  ∧ prefix_validate (prefix_before values (before_time s values)) = Ok ().
Proof.
  refine (sum_of_wf _ m _ _ Hfacts _ (before_is_sum s)). intros e [He _]%elem_of_until. done.
Qed.
(** The values between two times are those of the facts between them. *)
Lemma value_at t :
  (∃ p, (t, p) ∈ values) ↔ ∃ e, e ∈ entries (lg_facts L) m ∧ e.1.2 = t.
Proof.
  setoid_rewrite (sv_elem _ _ _ Hvalues). destruct (Hsummed t) as [-> Hok]. unfold view.
  rewrite <-has_time. destruct (existsb _ _); [|split; [by intros [? ?]|done]].
  apply is_ok_Ok in Hok as [p ->]. split; [done|]. intros _. by exists p.
Qed.
Lemma no_values start end_ :
  start ≤ end_ →
  before_time start values = before_time end_ values ↔ range_tokens (lg_facts L) m start end_ = [].
Proof.
  intros Hle. pose proof (sv_sorted _ _ _ Hvalues) as Hs. rewrite range_tokens_nil. split.
  - intros Heq e He Ht. destruct (proj2 (value_at e.1.2)) as [p Hp]; [by exists e|].
    pose proof (before_time_between start end_ values _ Hs Hp Ht). lia.
  - intros Hno. pose proof (before_time_mono start end_ values Hs Hle) as Hmono.
    destruct (decide (before_time start values < before_time end_ values)%nat) as [Hlt|]; [|lia].
    pose proof (partition_point_length (λ v, v.1 <? end_) values) as Hlen.
    fold (before_time end_ values) in Hlen.
    destruct (lookup_lt_is_Some_2 values (before_time start values)) as [[t p] Hv]; [lia|].
    pose proof (before_time_lookup start values _ _ Hs Hv) as H1.
    pose proof (before_time_lookup end_ values _ _ Hs Hv) as H2. simpl in H1, H2.
    destruct (proj1 (value_at t)) as (e & He & <-); [exists p; by eapply list_elem_of_lookup_2|].
    destruct (Hno e He). lia.
Qed.
(** The difference of two prefixes is the sum of the facts between their times. *)
Lemma difference_is_range start end_ :
  start ≤ end_ → range_tokens (lg_facts L) m start end_ ≠ [] →
  prefix_difference (prefix_before values (before_time end_ values))
    (prefix_before values (before_time start values))
  = (if fits (range_tokens (lg_facts L) m start end_)
     then Ok (Some (range_facts (range_tokens (lg_facts L) m start end_))) else Err InvalidNumber).
Proof.
  intros Hle Hne. destruct (before_valid start) as [Hw Hv].
  refine (prefix_difference_range _ _ _ Hw Hv (range_tokens_wf _ _ _ _ Hfacts) Hne _).
  pose proof (before_is_sum end_) as He. rewrite (until_range _ _ start) in He by done.
  unfold sum_of in He. rewrite sum_from_app in He.
  pose proof (before_is_sum start) as Hs. unfold sum_of in Hs. rewrite Hs in He. simpl in He.
  by rewrite sum_from_add_all in He.
Qed.
Lemma range_valid start end_ :
  start ≤ end_ → fits (range_tokens (lg_facts L) m start end_) = true →
  validate_fact (range_facts (range_tokens (lg_facts L) m start end_)) = Ok ().
Proof.
  intros Hle Hfits. set (ts := range_tokens _ _ _ _) in *.
  assert (ts = [] ∨ ts ≠ []) as [->|Hne] by (destruct ts; auto); [by vm_compute|].
  pose proof (difference_is_range start end_ Hle Hne) as H. fold ts in H. rewrite Hfits in H.
  by apply prefix_difference_valid in H.
Qed.
Lemma model_step_exact start end_ result :
  start ≤ end_ → is_valid_public_model_name m = true →
  model_step start end_ result (m, values)
  = match range_tokens (lg_facts L) m start end_ with
    | [] => Ok result
    | ts => if fits ts then Ok (result ++ [usage_of m (range_facts ts)])
            else Err (ContractViolation InvalidNumber)
    end.
Proof.
  intros Hle Hm. unfold model_step. fold (before_time start values) (before_time end_ values).
  pose proof (no_values start end_ Hle) as Hnil. pose proof (difference_is_range start end_ Hle) as Hdiff.
  pose proof (range_valid start end_ Hle) as Hval.
  destruct (Nat.eqb_spec (before_time start values) (before_time end_ values)) as [Heq|Hneq].
  { by rewrite (proj1 Hnil Heq). }
  destruct (range_tokens (lg_facts L) m start end_) as [|t ts] eqn:E; [by rewrite (proj2 Hnil eq_refl) in Hneq|].
  rewrite Hdiff by done. destruct (fits (t :: ts)); [|done]. unfold contract.
  cbn [map_err mbind result_bind]. by rewrite (from_tokens_Ok m _ Hm (Hval eq_refl)).
Qed.
(** One stored value: what it adds to the one before it is the sum of the facts of
    its instant. *)
Lemma value_split t p l1 l2 :
  values = l1 ++ (t, p) :: l2 →
  before_time t values = length l1 ∧ before_time (t + 1) values = S (length l1).
Proof.
  intros E. pose proof (sv_sorted _ _ _ Hvalues) as Hs.
  assert (values !! length l1 = Some (t, p)) as Hv by by rewrite E, lookup_app_r, Nat.sub_diag.
  pose proof (before_time_lookup t values _ _ Hs Hv) as H0. simpl in H0.
  pose proof (before_time_lookup (t + 1) values _ _ Hs Hv) as H1. simpl in H1.
  assert (∀ s i, (i < before_time s values)%nat → ∃ v, values !! i = Some v ∧ v.1 < s) as Hlt.
  { intros s i Hi. pose proof (partition_point_length (λ v, v.1 <? s) values) as Hlen.
    fold (before_time s values) in Hlen. destruct (lookup_lt_is_Some_2 values i) as [v Hi']; [lia|].
    exists v. split; [done|]. by apply (before_time_lookup s values i v Hs Hi'). }
  split.
  - assert (∀ i, (i < length l1)%nat → (i < before_time t values)%nat) as Hge; [|destruct l1; simpl in *; [lia|]].
    { intros i Hi. destruct (lookup_lt_is_Some_2 values i) as [v Hi'].
      { rewrite E, length_app. lia. }
      apply (before_time_lookup t values i v Hs Hi').
      exact (StronglySorted_nth _ _ _ _ _ _ Hs Hi' Hv Hi). }
    specialize (Hge (length l1) ltac:(lia)). lia.
  - destruct (decide (S (length l1) < before_time (t + 1) values)%nat) as [Hlt1|]; [|lia].
    destruct (Hlt (t + 1) _ Hlt1) as (v & Hv' & Hvt).
    pose proof (StronglySorted_nth _ _ _ _ _ _ Hs Hv Hv' ltac:(lia)) as H. simpl in H. lia.
Qed.
Lemma prefix_before_split t p l1 l2 :
  values = l1 ++ (t, p) :: l2 →
  prefix_before values (length l1) = default RecordedTokenPrefix_default (snd <$> last l1)
  ∧ prefix_before values (S (length l1)) = p.
Proof.
  intros E. split; simpl; cycle 1.
  { by rewrite E, lookup_app_r, Nat.sub_diag. }
  destruct l1 as [|v l1 _] using rev_ind; [done|]. rewrite length_app, last_snoc, Nat.add_comm. simpl.
  by rewrite E, <-(assoc_L (++)), lookup_app_r, Nat.sub_diag.
Qed.
Lemma instant_nonempty t p : (t, p) ∈ values → range_tokens (lg_facts L) m t (t + 1) ≠ [].
Proof.
  intros Hin. rewrite range_tokens_nil. intros Hno.
  destruct (proj1 (value_at t)) as (e & He & Ht); [by exists p|]. apply (Hno e He). lia.
Qed.
Lemma value_step t p l1 l2 :
  values = l1 ++ (t, p) :: l2 →
  prefix_validate p = Ok ()
  ∧ prefix_difference p (default RecordedTokenPrefix_default (snd <$> last l1))
    = (if fits (range_tokens (lg_facts L) m t (t + 1))
       then Ok (Some (range_facts (range_tokens (lg_facts L) m t (t + 1)))) else Err InvalidNumber).
Proof.
  intros E. destruct (value_split t p l1 l2 E) as [E0 E1].
  destruct (prefix_before_split t p l1 l2 E) as [P0 P1].
  pose proof (before_valid (t + 1)) as [_ Hv]. rewrite E1, P1 in Hv. split; [done|].
  pose proof (difference_is_range t (t + 1) ltac:(lia)) as Hd. rewrite E0, E1, P0, P1 in Hd.
  apply Hd, (instant_nonempty t p). rewrite E. apply elem_of_app. right. apply list_elem_of_here.
Qed.
End model.

(** ** Reading the prefixes *)
Definition values_of (m : text) (rows : list prefix_row) : prefix_list :=
  filter_map (λ row, if text_eqb row.1.1 m then Some (row.1.2, row.2) else None) rows.
(** What reading requires of a row, after the rows before it. *)
Definition row_ok (pre : list prefix_row) (row : prefix_row) : Prop :=
  1 ≤ row.1.2 < MAX_END_EXCLUSIVE ∧ prefix_validate row.2 = Ok ()
  ∧ (∀ v, last (values_of row.1.1 pre) = Some v → is_ok (prefix_difference row.2 v.2) = true)
  ∧ is_valid_public_model_name row.1.1 = true.
Definition read_inv (pre : list prefix_row) (prefixes : gmap text prefix_list) : Prop :=
  ∀ m, prefixes !! m = match values_of m pre with [] => None | l => Some l end.

Lemma values_of_snoc m pre row :
  values_of m (pre ++ [row])
  = if text_eqb row.1.1 m then values_of m pre ++ [(row.1.2, row.2)] else values_of m pre.
Proof.
  unfold values_of. rewrite filter_map_app. simpl. destruct (text_eqb row.1.1 m); [done|].
  by rewrite app_nil_r.
Qed.
Lemma read_inv_default pre prefixes m :
  read_inv pre prefixes → default [] (prefixes !! m) = values_of m pre.
Proof. intros ->. by destruct (values_of m pre). Qed.
Lemma zero_usage_ok m :
  is_ok (contract (RecordedModelUsage_from_tokens m zero_tokens)) = true
  ↔ is_valid_public_model_name m = true.
Proof.
  split.
  - intros [u Hu%map_err_Ok]%is_ok_Ok. by eapply from_tokens_valid_name.
  - intros Hm. unfold contract. by rewrite (from_tokens_Ok m zero_tokens Hm).
Qed.
Lemma contract_ok {A} (r : result ContractError A) : is_ok (contract r) = is_ok r.
Proof. by destruct r. Qed.
Lemma read_row_guards pre prefixes row :
  read_inv pre prefixes →
  guards (row_ok pre row) (read_inv (pre ++ [row])) (read_row prefixes row).
Proof.
  intros Hi. destruct row as [[m t] p]. unfold read_row, row_ok. simpl.
  rewrite (read_inv_default pre prefixes m Hi).
  apply guards_reject; [rewrite negb_false_iff, in_range_true; lia|]. intros _.
  eapply guards_bind; [apply guards_ok|intros [] Hv _].
  { rewrite contract_ok, is_ok_Ok. split; [by intros [[] ?]|eauto]. }
  eapply guards_bind; [apply guards_ok|intros [] Hd _].
  { destruct (last (values_of m pre)) as [[t0 p0]|]; [|naive_solver].
    destruct (prefix_difference p p0) eqn:E; simpl; split; intros H; try done.
    - intros v [= <-]. simpl. by rewrite E.
    - specialize (H _ eq_refl). simpl in H. by rewrite E in H. }
  apply (guards_iff (is_valid_public_model_name m = true ∧ True)); [tauto|].
  eapply guards_bind; [apply guards_ok, zero_usage_ok|intros u Hm _]. split; [done|].
  intros m'. rewrite values_of_snoc. simpl. destruct (text_eqb m m') eqn:E.
  - apply text_eqb_true in E as <-. rewrite lookup_insert_eq. by destruct (values_of m pre).
  - rewrite lookup_insert_ne; [apply Hi|]. intros ->.
    by rewrite (proj2 (text_eqb_true m' m') eq_refl) in E.
Qed.
Lemma read_rows_guards rows :
  guards (every row_ok [] rows) (read_inv rows) (fold_result read_row ∅ rows).
Proof.
  apply (fold_result_guards (A := prefix_row) read_inv row_ok read_row) with (pre := []).
  - intros. by apply read_row_guards.
  - intros m. by rewrite lookup_empty.
Qed.

Lemma row_leb_total a b : row_leb a b = true ∨ row_leb b a = true.
Proof.
  unfold row_leb. destruct (text_eqb a.1.1 b.1.1) eqn:E.
  - apply text_eqb_true in E as ->. rewrite (proj2 (text_eqb_true _ _) eq_refl), !Z.leb_le. lia.
  - destruct (text_eqb b.1.1 a.1.1) eqn:E'; [apply text_eqb_true in E'; by rewrite E', (proj2 (text_eqb_true _ _) eq_refl) in E|].
    apply text_leb_total.
Qed.
Lemma row_leb_trans a b c : row_leb a b = true → row_leb b c = true → row_leb a c = true.
Proof.
  unfold row_leb. destruct a as [[ma ta] pa], b as [[mb tb] pb], c as [[mc tc] pc]. simpl.
  destruct (text_eqb ma mb) eqn:E1; [apply text_eqb_true in E1 as ->|];
    (destruct (text_eqb mb mc) eqn:E2; [apply text_eqb_true in E2 as ->|]);
    rewrite ?E1, ?(proj2 (text_eqb_true _ _) eq_refl); rewrite ?Z.leb_le; try done; [lia|].
  intros H1 H2. destruct (text_eqb ma mc) eqn:E3; [apply text_eqb_true in E3 as ->|by eapply text_leb_trans].
  rewrite (text_leb_antisym mb mc) in E2 by done. by rewrite (proj2 (text_eqb_true _ _) eq_refl) in E2.
Qed.
Lemma elem_of_values_of m rows t p : (t, p) ∈ values_of m rows ↔ ((m, t), p) ∈ rows.
Proof.
  unfold values_of. rewrite elem_of_filter_map. split.
  - intros ([[m' t'] p'] & Hin & H). simpl in H. destruct (text_eqb m' m) eqn:E; [|done].
    apply text_eqb_true in E as ->. by injection H as -> ->.
  - intros Hin. exists ((m, t), p). split; [done|]. simpl. by rewrite (proj2 (text_eqb_true m m) eq_refl).
Qed.
Lemma values_of_stored prefixes m : stored_values prefixes m (values_of m (prefix_rows prefixes)).
Proof.
  assert (StronglySorted (λ a b, row_leb a b = true) (prefix_rows prefixes)) as Hs
    by (apply sort_by_sorted; [apply row_leb_total|apply row_leb_trans]).
  assert (NoDup (map fst (prefix_rows prefixes))) as Hn
    by (unfold prefix_rows; rewrite (sort_by_perm _ _); apply NoDup_fst_map_to_list).
  split; cycle 1.
  { intros t p. rewrite elem_of_values_of. unfold prefix_rows. by rewrite sort_by_elem, elem_of_map_to_list. }
  induction Hs as [|[[m' t'] p'] rows Hrows IH Hhd]; [constructor|].
  apply NoDup_cons in Hn as [Hnew Hn]. specialize (IH Hn). unfold values_of in *. simpl.
  destruct (text_eqb m' m) eqn:E; [|done]. apply text_eqb_true in E as ->.
  constructor; [done|]. apply Forall_forall. intros [t p] Hin. simpl.
  apply elem_of_values_of in Hin. pose proof (proj1 (Forall_forall _ _) Hhd _ Hin) as Hle.
  unfold row_leb in Hle. simpl in Hle. rewrite (proj2 (text_eqb_true m m) eq_refl), Z.leb_le in Hle.
  assert (t' ≠ t); [|lia]. intros ->. apply Hnew. apply list_elem_of_fmap. by exists ((m, t), p).
Qed.
(** The archive holds the prefixes of the ledger. *)
Record archive_of (L : Ledger) (a : RecordedArchive) : Prop := {
  ao_initialized : ra_local_index_initialized a = lg_initialized L;
  ao_models : map fst (rows (ra_prefixes a)) = lg_models L;
  ao_values m values : ra_prefixes a !! m = Some values →
    stored_values (lg_prefixes L) m values ∧ is_valid_public_model_name m = true
}.
Lemma read_prefixes_archive L b a :
  read_prefixes (true, true, true) L b = Ok a → archive_of L a ∧ ra_pending_numeric_times a = ∅.
Proof.
  unfold read_prefixes. simpl. intros H.
  do 4 (apply reject_Ok in H as [_ H]).
  apply bind_Ok in H as (prefixes & Hread & H). apply reject_Ok in H as [Hhead [= <-]].
  pose proof (read_rows_guards (prefix_rows (lg_prefixes L))) as Hg. rewrite Hread in Hg.
  destruct Hg as [Hrows Hinv]. split; [|done]. split; simpl.
  - done.
  - apply orb_false_iff in Hhead as [Hhead _]. by apply negb_false_iff, bool_decide_eq_true in Hhead.
  - intros m values Hm. rewrite (Hinv m) in Hm. pose proof (values_of_stored (lg_prefixes L) m) as Hst.
    destruct (values_of m (prefix_rows (lg_prefixes L))) as [|[t p] l] eqn:E; [done|].
    injection Hm as <-. split; [done|].
    assert (((m, t), p) ∈ prefix_rows (lg_prefixes L)) as Hin
      by (apply elem_of_values_of; rewrite E; apply list_elem_of_here).
    apply list_elem_of_split in Hin as (l1 & l2 & Hin).
    by destruct (proj1 (every_split _ _ _) Hrows l1 _ l2 Hin) as (_ & _ & _ & ?).
Qed.

(** ** The reports *)
(** What a range holds of each model. *)
Definition model_report (facts : gmap text UsageFact) (start end_ : Z) (m : text) :
    option RecordedModelUsage :=
  match range_tokens facts m start end_ with [] => None | ts => Some (usage_of m (range_facts ts)) end.
Definition range_fits (facts : gmap text UsageFact) (start end_ : Z) (m : text) : bool :=
  fits (range_tokens facts m start end_).
Definition report (L : Ledger) (start end_ : Z) : result ReaderError (list RecordedModelUsage) :=
  if forallb (range_fits (lg_facts L) start end_) (lg_models L)
  then Ok (filter_map (model_report (lg_facts L) start end_) (lg_models L))
  else Err (ContractViolation InvalidNumber).

Section reports.
Context (L : Ledger) (a : RecordedArchive).
Context (Hsummed : ∀ m t, summed L m t) (Hfacts : facts_wf (lg_facts L)) (Ha : archive_of L a).

Lemma model_steps start end_ l result :
  start ≤ end_ → (∀ m values, (m, values) ∈ l → ra_prefixes a !! m = Some values) →
  fold_result (model_step start end_) result l
  = if forallb (range_fits (lg_facts L) start end_) (map fst l)
    then Ok (result ++ filter_map (model_report (lg_facts L) start end_) (map fst l))
    else Err (ContractViolation InvalidNumber).
Proof.
  intros Hle. revert result. induction l as [|[m values] l IH]; intros result Hl; cbn [fold_result map forallb filter_map].
  { by rewrite app_nil_r. }
  destruct (ao_values _ _ Ha m values (Hl _ _ (list_elem_of_here _ _))) as [Hst Hm].
  rewrite (model_step_exact L m values (Hsummed m) Hfacts Hst start end_ result Hle Hm).
  specialize (fun r => IH r ltac:(intros; apply Hl; by apply list_elem_of_further)).
  unfold range_fits at 1, model_report at 1. simpl. destruct (range_tokens (lg_facts L) m start end_) as [|t ts].
  { simpl. by rewrite IH. }
  destruct (fits (t :: ts)); simpl; [|done]. by rewrite IH, <-(assoc_L (++)).
Qed.
Lemma models_report start end_ : start ≤ end_ → models a start end_ = report L start end_.
Proof.
  intros Hle. unfold models, report. rewrite (model_steps start end_ _ [] Hle).
  - by rewrite (ao_models _ _ Ha).
  - intros m values. apply elem_of_rows.
Qed.
End reports.

(** ** Which ledgers can be read *)
(** What reading requires of the facts of a model at an instant: the first instant of
    a model may exceed 64 bits, since no prefix precedes it. *)
Definition readable_at (facts : gmap text UsageFact) (m : text) (t : Z) : Prop :=
  1 ≤ t < MAX_END_EXCLUSIVE ∧ is_valid_public_model_name m = true
  ∧ ((∃ e, e ∈ entries facts m ∧ e.1.2 < t) → range_fits facts t (t + 1) m = true).
Definition readable (facts : gmap text UsageFact) : Prop :=
  ∀ m e, e ∈ entries facts m → readable_at facts m e.1.2.

Section readable.
Context (L : Ledger).
Context (Hsummed : ∀ m t, summed L m t) (Hfacts : facts_wf (lg_facts L)).

Lemma values_of_split m t p l1 l2 :
  prefix_rows (lg_prefixes L) = l1 ++ ((m, t), p) :: l2 →
  values_of m (prefix_rows (lg_prefixes L)) = values_of m l1 ++ (t, p) :: values_of m l2.
Proof.
  intros ->. unfold values_of. rewrite filter_map_app. simpl. by rewrite (proj2 (text_eqb_true m m) eq_refl).
Qed.
Lemma earlier_entry m t p l1 l2 :
  values_of m (prefix_rows (lg_prefixes L)) = l1 ++ (t, p) :: l2 →
  (∃ e, e ∈ entries (lg_facts L) m ∧ e.1.2 < t) ↔ ∃ v, last l1 = Some v.
Proof.
  intros E. pose proof (values_of_stored (lg_prefixes L) m) as Hst.
  pose proof (sv_sorted _ _ _ Hst) as Hs.
  split.
  - intros (e & He & Ht). destruct (proj2 (value_at L m _ (Hsummed m) Hst e.1.2)) as [q Hq]; [by exists e|].
    rewrite E in Hq. apply elem_of_app in Hq as [Hq|Hq].
    + destruct l1 as [|w ws _] using rev_ind; [by apply elem_of_nil in Hq|].
      exists w. by rewrite last_snoc.
    + rewrite E in Hs. apply StronglySorted_app_1_r in Hs.
      apply StronglySorted_inv in Hs as [_ Hs]. rewrite Forall_forall in Hs.
      apply elem_of_cons in Hq as [[= Heq _]|Hq]; [lia|]. specialize (Hs _ Hq). simpl in Hs. lia.
  - intros [[t' p'] Hlast]. apply last_Some in Hlast as [l' Hl'].
    assert ((t', p') ∈ values_of m (prefix_rows (lg_prefixes L))) as Hin.
    { rewrite E, Hl', !elem_of_app. left. right. apply list_elem_of_here. }
    destruct (proj1 (value_at L m _ (Hsummed m) Hst t')) as (e & He & <-); [by exists p'|].
    exists e. split; [done|].
    assert ((e.1.2, p').1 < (t, p).1) as H; [|done].
    apply (StronglySorted_app_1_elem_of (λ a b : Z * RecordedTokenPrefix, a.1 < b.1)
      l1 ((t, p) :: l2)).
    + by rewrite <-E.
    + rewrite Hl', elem_of_app. right. apply list_elem_of_here.
    + apply list_elem_of_here.
Qed.
Lemma row_ok_split m t p l1 l2 :
  prefix_rows (lg_prefixes L) = l1 ++ ((m, t), p) :: l2 →
  row_ok l1 ((m, t), p) ↔ readable_at (lg_facts L) m t.
Proof.
  intros E%values_of_split. pose proof (values_of_stored (lg_prefixes L) m) as Hst.
  destruct (value_step L m _ (Hsummed m) Hfacts Hst t p _ _ E) as [Hv Hd].
  unfold row_ok, readable_at. simpl. rewrite Hv.
  assert ((∀ v, last (values_of m l1) = Some v → is_ok (prefix_difference p v.2) = true)
    ↔ ((∃ e, e ∈ entries (lg_facts L) m ∧ e.1.2 < t) → range_fits (lg_facts L) t (t + 1) m = true))
    as Hiff; [|rewrite Hiff; tauto].
  rewrite (earlier_entry m t p _ _ E).
  unfold range_fits. split.
  - intros Hall [v Hlast]. specialize (Hall v Hlast). rewrite Hlast in Hd. simpl in Hd. rewrite Hd in Hall.
    by destruct (fits _).
  - intros Hfit v Hlast. rewrite Hlast in Hd. simpl in Hd. rewrite Hd, (Hfit ltac:(by exists v)). done.
Qed.
Lemma rows_readable : every row_ok [] (prefix_rows (lg_prefixes L)) ↔ readable (lg_facts L).
Proof.
  rewrite every_split. split.
  - intros Hall m e He. pose proof (values_of_stored (lg_prefixes L) m) as Hst.
    destruct (proj2 (value_at L m _ (Hsummed m) Hst e.1.2)) as [p Hp]; [by exists e|].
    apply elem_of_values_of, list_elem_of_split in Hp as (l1 & l2 & E).
    by apply (row_ok_split m e.1.2 p l1 l2 E), (Hall l1 _ l2).
  - intros Hall l1 [[m t] p] l2 E. apply (row_ok_split m t p l1 l2 E).
    pose proof (values_of_stored (lg_prefixes L) m) as Hst.
    destruct (proj1 (value_at L m _ (Hsummed m) Hst t)) as (e & He & <-); [|by apply Hall].
    exists p. rewrite (values_of_split _ _ _ _ _ E), elem_of_app. right. apply list_elem_of_here.
Qed.
Lemma heads_match prefixes :
  lg_models L = eligible_models (lg_facts L) →
  read_inv (prefix_rows (lg_prefixes L)) prefixes → map fst (rows prefixes) = lg_models L.
Proof.
  intros -> Hinv.
  apply (StronglySorted_unique_strong (λ a b, text_leb a b = true)).
  - intros a b _ _. apply text_leb_antisym.
  - apply StronglySorted_fmap with (R1 := λ a b : text * prefix_list, text_leb a.1 b.1 = true);
      [done|apply rows_sorted].
  - apply sort_by_sorted; [apply text_leb_total|apply text_leb_trans].
  - apply NoDup_Permutation; [apply rows_NoDup| |].
    { unfold eligible_models. rewrite (sort_by_perm _ _). apply NoDup_elements. }
    intros m. rewrite elem_of_eligible_models, list_elem_of_fmap.
    pose proof (values_of_stored (lg_prefixes L) m) as Hst. split.
    + intros ([m' values] & -> & Hin%elem_of_rows). simpl in *. rewrite (Hinv m') in Hin.
      destruct (values_of m' (prefix_rows (lg_prefixes L))) as [|[t p] l] eqn:E; [done|].
      destruct (proj1 (value_at L m' _ (Hsummed m') Hst t)) as (e & He & _); [exists p; apply list_elem_of_here|].
      apply elem_of_entries in He as (i & f & ? & ? & ? & _). by exists i, f.
    + intros (i & f & Hf & He & <-). set (e := entry_of (i, f)).
      assert (e ∈ entries (lg_facts L) (uf_model f)) as Hin by (apply elem_of_entries; by exists i, f).
      destruct (proj2 (value_at L (uf_model f) _ (Hsummed _) Hst e.1.2)) as [p Hp]; [by exists e|].
      exists (uf_model f, values_of (uf_model f) (prefix_rows (lg_prefixes L))). split; [done|]. apply elem_of_rows. rewrite (Hinv (uf_model f)).
      destruct (values_of _ _) as [|v l]; [by apply elem_of_nil in Hp|done].
Qed.
End readable.

(** ** Facts whose total fits *)
(** When all facts together stay within 64 bits, every range does. *)
Definition total_tokens (rows : list (text * UsageFact)) : Z :=
  foldr (λ row n, tf_total (uf_tokens row.2) + n) 0 rows.
Lemma total_tokens_perm rows rows' : rows ≡ₚ rows' → total_tokens rows = total_tokens rows'.
Proof. induction 1; simpl; lia. Qed.
Lemma total_filter (p : text * UsageFact → bool) rows :
  Forall (λ row, tf_wf (uf_tokens row.2)) rows →
  0 ≤ total_tokens (List.filter p rows) ≤ total_tokens rows.
Proof. induction 1 as [|row rows [[? _] _] _ IH]; simpl; [lia|]. destruct (p row); simpl; lia. Qed.
Lemma facts_wf_rows facts : facts_wf facts ↔ Forall (λ row, tf_wf (uf_tokens row.2)) (map_to_list facts).
Proof.
  unfold facts_wf. rewrite Forall_forall. split.
  - intros Hwf [i f] Hin%elem_of_map_to_list. by apply (Hwf i).
  - intros Hwf i f Hf. apply (Hwf (i, f)). by apply elem_of_map_to_list.
Qed.
Lemma ranges_fit facts start end_ m :
  facts_wf facts → total_tokens (map_to_list facts) ≤ u64_max → range_fits facts start end_ m = true.
Proof.
  intros Hwf%facts_wf_rows Hfit. unfold range_fits, fits. rewrite Z.leb_le.
  assert (∀ rows, tf_total (range_facts (map snd (map entry_of rows))) = total_tokens rows) as Htotal
    by (intros rows; unfold total_tokens; simpl; induction rows; simpl; lia).
  assert (∃ q, range_tokens facts m start end_ ≡ₚ map snd (map entry_of (List.filter q (map_to_list facts))))
    as [q Hq].
  { exists (λ row, text_eqb (uf_model row.2) m && uf_eligible row.2
                   && ((start <=? uf_timestamp row.2) && (uf_timestamp row.2 <? end_))).
    unfold range_tokens, range_entries, entries. apply Permutation_map.
    rewrite (filter_bool_perm _ _ _ (sort_by_perm _ _)), filter_map_comm, <-filter_andb. done. }
  assert (∀ l l', l ≡ₚ l' → tf_total (range_facts l) = tf_total (range_facts l')) as Hperm
    by (intros l l'; induction 1; simpl in *; lia).
  rewrite (Hperm _ _ Hq), Htotal. pose proof (total_filter q _ Hwf). lia.
Qed.
