(* ===== verification/LocalUse.v ===== *)
(** * Local use by minute

    What [local_usage] of Recordings.v makes of a ledger the writer refreshed: the marked
    minutes are those with positive facts, and painting them gives the intervals. *)

From S2P Require Import Prelude Text Contract TokenFacts RecordedUsage SourceAdmission EventAdmission UsageLedger LedgerSums Recordings RecordedValues.

(** ** Local use by minute *)
(** What a range tells of the minute of an instant: a positive eligible fact of the
    minute within the range, else a pending one, else nothing. *)
Definition in_minute (start end_ minute at_ : Z) : bool :=
  (start <=? at_) && (at_ <? end_) && (minute_of at_ =? minute).
Definition minute_used (facts : gmap text UsageFact) (start end_ minute : Z) (m : text) : bool :=
  existsb (λ e, in_minute start end_ minute e.1.2 && (0 <? tf_total e.2)) (entries facts m).
Definition minute_use (L : Ledger) (pending : gset Z) (start end_ minute : Z) : LocalUsageState :=
  if existsb (minute_used (lg_facts L) start end_ minute) (lg_models L) then Used
  else if existsb (in_minute start end_ minute) (elements pending) then Unavailable
  else Unused.

Lemma walk_app end_ c l l' :
  walk_intervals end_ c (l ++ l') = (walk_intervals end_ c l ≫= λ c, walk_intervals end_ c l').
Proof. revert c. induction l as [|i l IH]; intros c; simpl; [done|]. destruct (_ || _); [done|apply IH]. Qed.
(** Adjacent intervals with different states. *)
Definition runs (l : list LocalUsageInterval) : Prop :=
  ∀ l1 i j l2, l = l1 ++ i :: j :: l2 → lui_state i ≠ lui_state j.
(** Intervals that cover [start, cursor) with the states of [f], as few as possible. *)
Record painted (f : Z → LocalUsageState) (start end_ : Z) (s : list LocalUsageInterval * Z) : Prop := {
  pt_walk : walk_intervals end_ start s.1 = Ok s.2;
  pt_state i t : i ∈ s.1 → lui_start_at i ≤ t < lui_end_at i → lui_state i = f t;
  pt_runs : runs s.1
}.
Lemma runs_snoc l i :
  runs l → (∀ j, last l = Some j → lui_state j ≠ lui_state i) → runs (l ++ [i]).
Proof.
  intros Hl Hi l1 a b l2 E. destruct l2 as [|c l2 _] using rev_ind.
  - change (l1 ++ [a; b]) with (l1 ++ [a] ++ [b]) in E. rewrite (assoc_L (++)) in E.
    apply app_inj_tail in E as [-> ->]. apply Hi. by rewrite last_snoc.
  - rewrite 2!app_comm_cons, (assoc_L (++)) in E. apply app_inj_tail in E as [E _]. by apply (Hl l1 a b l2).
Qed.
Lemma runs_replace l i j : runs (l ++ [i]) → lui_state i = lui_state j → runs (l ++ [j]).
Proof.
  intros Hl Hs. apply runs_snoc.
  - intros l1 a b l2 ->. apply (Hl l1 a b (l2 ++ [i])). by rewrite <-(assoc_L (++)).
  - intros k Hk. apply last_Some in Hk as [l' ->]. rewrite <-Hs.
    apply (Hl l' k i []). by rewrite <-(assoc_L (++)).
Qed.
Lemma walk_snoc end_ c l i c' :
  walk_intervals end_ c (l ++ [i]) = Ok c' ↔
  walk_intervals end_ c l = Ok (lui_start_at i) ∧ lui_start_at i < lui_end_at i ≤ end_
  ∧ c' = lui_end_at i.
Proof.
  rewrite walk_app, bind_Ok. simpl. setoid_rewrite reject_Ok.
  setoid_rewrite orb_false_iff. setoid_rewrite orb_false_iff.
  setoid_rewrite negb_false_iff. setoid_rewrite Z.eqb_eq. setoid_rewrite Z.leb_gt. setoid_rewrite Z.ltb_ge.
  split.
  - intros (x & Hw & ((-> & ?) & ?) & [= <-]). by split_and!.
  - intros (Hw & ? & ->). eexists. split; [exact Hw|]. split_and!; (done || lia).
Qed.
Lemma push_painted f start end_ l c c' state :
  painted f start end_ (l, c) → c ≤ c' ≤ end_ → (∀ t, c ≤ t < c' → f t = state) →
  painted f start end_ (push_local_interval l c c' state, c').
Proof.
  intros [Hw Hs Hr] Hc Hf. simpl in *. unfold push_local_interval.
  destruct (Z.leb_spec c' c) as [Hle|Hlt]; [by replace c' with c by lia; split|].
  set (i := {| lui_start_at := c; lui_end_at := c'; lui_state := state |}).
  assert (∀ j, last l = Some j → lui_end_at j = c) as Hlast.
  { intros j Hj. apply last_Some in Hj as [l' ->]. by apply walk_snoc in Hw as (_ & _ & ->). }
  assert ((∀ j, last l = Some j → lui_state j ≠ state) → painted f start end_ (l ++ [i], c')) as Hpush.
  { intros Hne. split; simpl.
    - apply walk_snoc. simpl. split_and!; (done || lia).
    - intros j t [Hj| ->%list_elem_of_singleton]%elem_of_app; [by apply Hs|]. simpl. intros Ht. symmetry. by apply Hf.
    - by apply runs_snoc. }
  destruct (last l) as [j|] eqn:Ej; [|by apply Hpush].
  specialize (Hlast j eq_refl). subst c. rewrite Z.eqb_refl. simpl.
  destruct (bool_decide_reflect (lui_state j = state)) as [Heq|Hne]; [|apply Hpush; naive_solver].
  apply last_Some in Ej as [l' ->]. rewrite removelast_last.
  apply walk_snoc in Hw as (Hw & ? & _). split; simpl.
  - apply walk_snoc. simpl. split_and!; (done || lia).
  - intros k t [Hk| ->%list_elem_of_singleton]%elem_of_app; simpl.
    + apply Hs. rewrite elem_of_app. by left.
    + intros Ht. destruct (decide (t < lui_end_at j)).
      * apply (Hs j t); [|lia]. rewrite elem_of_app. right. apply list_elem_of_here.
      * rewrite Heq. symmetry. apply Hf. lia.
  - by apply (runs_replace l' j).
Qed.

Lemma minute_of_spec t : minute_of t ≤ t < minute_of t + 60.
Proof.
  unfold minute_of. pose proof (Z.div_mod t 60 ltac:(lia)). pose proof (Z.mod_pos_bound t 60 ltac:(lia)). lia.
Qed.
Lemma minute_of_unique t u : minute_of u ≤ t < minute_of u + 60 → minute_of t = minute_of u.
Proof.
  unfold minute_of. pose proof (Z.div_mod t 60 ltac:(lia)). pose proof (Z.mod_pos_bound t 60 ltac:(lia)). lia.
Qed.
Lemma minute_of_next t u : minute_of t < minute_of u → minute_of t + 60 ≤ minute_of u.
Proof. unfold minute_of. lia. Qed.

(** Painting the marked minutes, in their order. *)
Lemma paint_rows f start end_ rows l c :
  start ≤ c ≤ end_ → start < end_ → painted f start end_ (l, c) →
  StronglySorted (λ a b : Z * LocalUsageState, a.1 < b.1) rows →
  (∀ k s, (k, s) ∈ rows → (∃ t, k = minute_of t ∧ start ≤ t < end_) ∧ c ≤ Z.max k start
    ∧ ∀ t, minute_of t = k → f t = s) →
  (∀ t, c ≤ t < end_ → minute_of t ∉ map fst rows → f t = Unused) →
  let '(l', c') := fold_left (paint start end_) rows (l, c) in
  painted f start end_ (l', c') ∧ start ≤ c' ≤ end_ ∧ ∀ t, c' ≤ t < end_ → f t = Unused.
Proof.
  intros Hc Hne Hp Hs. revert l c Hc Hp. induction Hs as [|[k s] rows _ IH Hhd]; intros l c Hc Hp Hrows Hrest; simpl.
  { split_and!; [done|lia|lia|]. intros t Ht. apply Hrest; [done|apply not_elem_of_nil]. }
  rewrite Forall_forall in Hhd.
  destruct (Hrows k s (list_elem_of_here _ _)) as ((u & Hk & Hu) & Hck & Hf).
  pose proof (minute_of_spec u) as Hmu. rewrite <-Hk in Hmu.
  set (left_ := Z.max k start). set (right_ := Z.min (k + 60) end_).
  assert (painted f start end_ (if c <? left_ then push_local_interval l c left_ Unused else l, left_)) as Hp1.
  { destruct (Z.ltb_spec c left_); [|by replace left_ with c by lia].
    apply push_painted; [done|lia|]. intros t Ht. apply Hrest; [lia|].
    rewrite list_elem_of_fmap. intros ([k' s'] & E & Hin). simpl in E. pose proof (minute_of_spec t).
    apply elem_of_cons in Hin as [[= -> ->]|Hin]; [lia|]. specialize (Hhd _ Hin). simpl in Hhd. lia. }
  apply IH; clear IH.
  - lia.
  - apply push_painted; [done|lia|]. intros t Ht. apply Hf. rewrite Hk. apply minute_of_unique. lia.
  - intros k' s' Hin. destruct (Hrows k' s' (list_elem_of_further _ _ _ Hin)) as ((u' & Hk' & Hu') & _ & Hf').
    split_and!; [by exists u'| |done]. specialize (Hhd _ Hin). simpl in Hhd.
    pose proof (minute_of_next u u'). lia.
  - intros t Ht Hnot. apply Hrest; [lia|]. simpl. rewrite elem_of_cons. intros [E|?]; [|done].
    pose proof (minute_of_spec t). lia.
Qed.
(** The intervals of a map of minutes cover the range with its states. *)
Lemma paint_minutes (minutes : gmap Z LocalUsageState) start end_ :
  1 ≤ start < end_ → end_ ≤ MAX_END_EXCLUSIVE →
  (∀ k s, minutes !! k = Some s → ∃ t, k = minute_of t ∧ start ≤ t < end_) →
  let '(intervals, cursor) :=
    fold_left (paint start end_) (sort_by (λ a b, a.1 <=? b.1) (map_to_list minutes)) ([], start) in
  let intervals := if cursor <? end_ then push_local_interval intervals cursor end_ Unused
                   else intervals in
  LocalUsage_validate {| lu_version := 1; lu_start_at := start; lu_end_at := end_;
                         lu_intervals := intervals |} = Ok ()
  ∧ painted (λ t, default Unused (minutes !! minute_of t)) start end_ (intervals, end_).
Proof.
  intros Hstart Hend Hkeys. set (f := λ t, default Unused (minutes !! minute_of t)).
  set (l := sort_by _ _).
  assert (∀ k s, (k, s) ∈ l ↔ minutes !! k = Some s) as Hl
    by (intros; unfold l; by rewrite sort_by_elem, elem_of_map_to_list).
  pose proof (paint_rows f start end_ l [] start) as H. destruct (fold_left _ _ _) as [intervals cursor].
  destruct H as (Hp & Hc & Hrest).
  - lia.
  - lia.
  - split; simpl; [done|by intros i t ?%elem_of_nil|by intros [|] ? ? ?].
  - apply (sort_by_strict fst), NoDup_fst_map_to_list.
  - intros k s Hks%Hl. split_and!; [by apply (Hkeys k s)|lia|]. intros t <-. unfold f. by rewrite Hks.
  - intros t Ht Hnot. unfold f. destruct (minutes !! minute_of t) as [s|] eqn:E; [|done].
    exfalso. apply Hnot, list_elem_of_fmap. exists (minute_of t, s). by rewrite Hl.
  - assert (painted f start end_
      (if cursor <? end_ then push_local_interval intervals cursor end_ Unused else intervals, end_)) as Hpt.
    { destruct (Z.ltb_spec cursor end_); [|by replace end_ with cursor at 2 by lia].
      by apply push_painted; [|lia|]. }
    split; [|done]. unfold LocalUsage_validate. cbn [lu_version lu_start_at lu_end_at lu_intervals].
    pose proof (pt_walk _ _ _ _ Hpt) as Hw. cbn [fst snd] in Hw. rewrite Hw. cbn [mbind result_bind].
    rewrite (proj2 (Z.ltb_ge start 1)), (proj2 (Z.leb_gt end_ start)),
      (proj2 (Z.ltb_ge MAX_END_EXCLUSIVE end_)) by lia.
    simpl. by rewrite Z.eqb_refl.
Qed.

(** ** Marking the minutes *)
Lemma tokens_nonneg ts : Forall tf_wf ts → 0 ≤ tf_total (range_facts ts).
Proof.
  induction 1 as [|t ts [[??] _] _ IH]; simpl in *; lia.
Qed.
Lemma positive_total ts :
  Forall tf_wf ts → 0 < tf_total (range_facts ts) ↔ ∃ t, t ∈ ts ∧ 0 < tf_total t.
Proof.
  induction 1 as [|t ts [[Ht _] _] Hts IH].
  - simpl. split; [lia|]. by intros (? & ?%elem_of_nil & _).
  - pose proof (tokens_nonneg ts Hts) as Hnn. setoid_rewrite elem_of_cons. simpl in *.
    destruct (decide (0 < tf_total t)); [naive_solver lia|].
    assert (0 < tf_total t + foldr (λ t n, tf_total t + n) 0 ts
      ↔ 0 < foldr (λ t n, tf_total t + n) 0 ts) as -> by lia. rewrite IH. naive_solver.
Qed.

Section marking.
Context (L : Ledger) (m : text) (values : prefix_list) (start end_ : Z).
Context (Hsummed : ∀ t, summed L m t) (Hfacts : facts_wf (lg_facts L))
  (Hvalues : stored_values (lg_prefixes L) m values).
Context (Hfits : ∀ t, start ≤ t < end_ → range_fits (lg_facts L) t (t + 1) m = true).

(** The facts of an instant. *)
Definition positive_at (t : Z) : bool :=
  0 <? tf_total (range_facts (range_tokens (lg_facts L) m t (t + 1))).
Lemma mark_prefix_exact minutes i t p :
  values !! i = Some (t, p) → start ≤ t < end_ →
  mark_prefix values minutes i
  = Ok (if positive_at t then <[minute_of t := Used]> minutes else minutes).
Proof.
  intros Hi Ht. pose proof (take_drop_middle _ _ _ Hi) as E. symmetry in E.
  destruct (value_step L m values Hsummed Hfacts Hvalues t p _ _ E) as [_ Hd].
  destruct (prefix_before_split values t p _ _ E) as [P0 P1].
  rewrite length_take_le in P0, P1 by (apply lookup_lt_Some in Hi; lia).
  unfold mark_prefix, prefix_state. rewrite P0, P1, Hd. specialize (Hfits t Ht). unfold range_fits in Hfits.
  rewrite Hfits. unfold contract, positive_at. cbn [map_err mbind result_bind]. rewrite Hi.
  by destruct (0 <? _).
Qed.
(** A value in the range whose facts mark a minute. *)
Definition marks (k : Z) (v : Z * RecordedTokenPrefix) : bool := (minute_of v.1 =? k) && positive_at v.1.
Lemma mark_indices n : ∀ first minutes,
  (∀ i v, (first ≤ i < first + n)%nat → values !! i = Some v → start ≤ v.1 < end_) →
  (first + n ≤ length values)%nat →
  ∃ minutes', fold_result (mark_prefix values) minutes (seq first n) = Ok minutes'
  ∧ ∀ k, minutes' !! k = if existsb (marks k) (take n (drop first values)) then Some Used else minutes !! k.
Proof.
  induction n as [|n IH]; intros first minutes Hr Hlen; simpl; [by exists minutes|].
  destruct (lookup_lt_is_Some_2 values first) as [[t p] Hi]; [lia|].
  rewrite (mark_prefix_exact minutes first t p Hi (Hr first _ ltac:(lia) Hi)).
  destruct (IH (S first) (if positive_at t then <[minute_of t := Used]> minutes else minutes)) as (minutes' & -> & Hm).
  - intros i v Hv. apply Hr. lia.
  - lia.
  - exists minutes'. split; [done|]. intros k. rewrite Hm, (drop_S values _ _ Hi). simpl.
    unfold marks at 2. simpl. destruct (existsb (marks k) _); [by rewrite orb_true_r|]. rewrite orb_false_r.
    destruct (positive_at t); [|by rewrite andb_false_r]. rewrite andb_true_r.
    destruct (Z.eqb_spec (minute_of t) k) as [<-|]; [by rewrite lookup_insert_eq|by rewrite lookup_insert_ne].
Qed.
Lemma values_between v :
  start ≤ end_ →
  v ∈ take (before_time end_ values - before_time start values) (drop (before_time start values) values)
  ↔ v ∈ values ∧ start ≤ v.1 < end_.
Proof.
  intros Hle. pose proof (sv_sorted _ _ _ Hvalues) as Hs.
  pose proof (before_time_mono start end_ values Hs Hle) as Hmono. split.
  - intros [i Hi]%list_elem_of_lookup. apply lookup_take_Some in Hi as [Hi Hlt].
    rewrite lookup_drop in Hi. split; [by eapply list_elem_of_lookup_2|].
    pose proof (before_time_lookup start values _ _ Hs Hi). pose proof (before_time_lookup end_ values _ _ Hs Hi). lia.
  - intros [[i Hi]%list_elem_of_lookup Hv].
    pose proof (before_time_lookup start values _ _ Hs Hi). pose proof (before_time_lookup end_ values _ _ Hs Hi).
    apply (list_elem_of_lookup_2 _ (i - before_time start values)). apply lookup_take_Some. split; [|lia].
    rewrite lookup_drop. by replace (before_time start values + (i - before_time start values))%nat with i by lia.
Qed.
Lemma positive_at_spec t :
  positive_at t = true ↔ ∃ e, e ∈ entries (lg_facts L) m ∧ e.1.2 = t ∧ 0 < tf_total e.2.
Proof.
  unfold positive_at. rewrite Z.ltb_lt, positive_total by by apply range_tokens_wf.
  unfold range_tokens. setoid_rewrite list_elem_of_fmap. setoid_rewrite elem_of_range_entries. split.
  - intros (x & (e & -> & He & Ht) & ?). exists e. split_and!; (done || lia).
  - intros (e & He & Ht & ?). exists e.2. split; [|done]. exists e. split_and!; (done || lia).
Qed.
Lemma minute_used_spec k :
  minute_used (lg_facts L) start end_ k m = true ↔
  ∃ e, e ∈ entries (lg_facts L) m ∧ start ≤ e.1.2 < end_ ∧ minute_of e.1.2 = k ∧ 0 < tf_total e.2.
Proof.
  unfold minute_used, in_minute. rewrite existsb_exists. setoid_rewrite <-list_elem_of_In.
  setoid_rewrite andb_true_iff. setoid_rewrite andb_true_iff. setoid_rewrite andb_true_iff.
  setoid_rewrite Z.leb_le. setoid_rewrite Z.ltb_lt. setoid_rewrite Z.eqb_eq. naive_solver.
Qed.
Lemma marks_used k :
  start ≤ end_ →
  existsb (marks k) (take (before_time end_ values - before_time start values)
                       (drop (before_time start values) values))
  = minute_used (lg_facts L) start end_ k m.
Proof.
  intros Hle. apply eq_true_iff_eq. rewrite minute_used_spec, existsb_exists.
  setoid_rewrite <-list_elem_of_In. setoid_rewrite (values_between _ Hle).
  unfold marks. setoid_rewrite andb_true_iff. setoid_rewrite Z.eqb_eq. setoid_rewrite positive_at_spec. split.
  - intros ([t p] & [_ Ht] & Hk & e & He & Het & Hpos). simpl in *. exists e. by rewrite Het.
  - intros (e & He & Ht & Hk & Hpos).
    destruct (proj2 (value_at L m values Hsummed Hvalues e.1.2)) as [p Hp]; [by exists e|].
    exists (e.1.2, p). simpl. split_and!; try done; try lia. by exists e.
Qed.
Lemma mark_model_exact minutes :
  start ≤ end_ →
  ∃ minutes', mark_model start end_ minutes (m, values) = Ok minutes'
  ∧ ∀ k, minutes' !! k = if minute_used (lg_facts L) start end_ k m then Some Used else minutes !! k.
Proof.
  intros Hle. unfold mark_model. cbn [snd]. fold (before_time start values) (before_time end_ values).
  pose proof (sv_sorted _ _ _ Hvalues) as Hs. pose proof (before_time_mono start end_ values Hs Hle) as Hmono.
  pose proof (partition_point_length (λ v, v.1 <? end_) values) as Hlen. fold (before_time end_ values) in Hlen.
  destruct (mark_indices (before_time end_ values - before_time start values) (before_time start values) minutes)
    as (minutes' & Hm & Hk).
  - intros i v Hi Hv. pose proof (before_time_lookup start values _ _ Hs Hv).
    pose proof (before_time_lookup end_ values _ _ Hs Hv). lia.
  - lia.
  - exists minutes'. split; [done|]. intros k. by rewrite Hk, marks_used.
Qed.
End marking.

Lemma mark_pending_all times minutes k :
  fold_left mark_pending times minutes !! k
  = match minutes !! k with
    | Some s => Some s
    | None => if existsb (λ at_, minute_of at_ =? k) times then Some Unavailable else None
    end.
Proof.
  revert minutes. induction times as [|t times IH]; intros minutes; simpl; [by destruct (minutes !! k)|].
  rewrite IH. unfold mark_pending. destruct (Z.eqb_spec (minute_of t) k) as [<-|Hne]; simpl.
  - rewrite lookup_insert_eq. by destruct (minutes !! minute_of t).
  - by rewrite lookup_insert_ne.
Qed.

Section local_use.
Context (L : Ledger) (a : RecordedArchive) (start end_ : Z).
Context (Hsummed : ∀ m t, summed L m t) (Hfacts : facts_wf (lg_facts L)) (Ha : archive_of L a).
Context (Hfits : ∀ m t, start ≤ t < end_ → range_fits (lg_facts L) t (t + 1) m = true).

Lemma mark_models l minutes :
  start ≤ end_ → (∀ m values, (m, values) ∈ l → ra_prefixes a !! m = Some values) →
  ∃ minutes', fold_result (mark_model start end_) minutes l = Ok minutes'
  ∧ ∀ k, minutes' !! k = if existsb (minute_used (lg_facts L) start end_ k) (map fst l) then Some Used
                         else minutes !! k.
Proof.
  intros Hle. revert minutes. induction l as [|[m values] l IH]; intros minutes Hl; cbn [fold_result map existsb]; [by exists minutes|].
  destruct (ao_values _ _ Ha m values (Hl _ _ (list_elem_of_here _ _))) as [Hst _].
  destruct (mark_model_exact L m values start end_ (Hsummed m) Hfacts Hst (Hfits m) minutes Hle) as (minutes1 & -> & Hm1).
  destruct (IH minutes1) as (minutes' & -> & Hm'); [intros; apply Hl; by apply list_elem_of_further|].
  exists minutes'. split; [done|]. intros k. rewrite Hm', Hm1. cbn [fst].
  by destruct (existsb _ _), (minute_used _ _ _ _ _).
Qed.
(** The marked minutes, after the pending times. *)
Lemma marked_minutes :
  start ≤ end_ →
  ∃ minutes, fold_result (mark_model start end_) ∅ (rows (ra_prefixes a)) = Ok minutes
  ∧ let minutes := fold_left mark_pending
      (List.filter (λ at_, (start <=? at_) && (at_ <? end_))
        (sort_by Z.leb (elements (ra_pending_numeric_times a)))) minutes in
    (∀ k, default Unused (minutes !! k) = minute_use L (ra_pending_numeric_times a) start end_ k)
    ∧ ∀ k s, minutes !! k = Some s → ∃ t, k = minute_of t ∧ start ≤ t < end_.
Proof.
  intros Hle. destruct (mark_models (rows (ra_prefixes a)) ∅ Hle) as (minutes & Hm & Hk).
  { intros m values. apply elem_of_rows. }
  exists minutes. split; [done|]. rewrite (ao_models _ _ Ha) in Hk.
  set (times := List.filter _ _). cbv zeta.
  assert (∀ k, existsb (λ at_, minute_of at_ =? k) times
    = existsb (in_minute start end_ k) (elements (ra_pending_numeric_times a))) as Htimes.
  { intros k. apply eq_true_iff_eq. rewrite !existsb_exists. setoid_rewrite <-list_elem_of_In.
    unfold times, in_minute. setoid_rewrite elem_of_filter_bool. setoid_rewrite sort_by_elem.
    split.
    - intros (t & [? Ht] & Hk'). exists t. split; [done|]. by rewrite Ht, Hk'.
    - intros (t & Hin & [Ht Hk']%andb_true_iff). by exists t. }
  split.
  - intros k. rewrite mark_pending_all, Htimes, Hk, lookup_empty. unfold minute_use.
    destruct (existsb (minute_used _ _ _ _) _); [done|].
    by destruct (existsb (in_minute start end_ k) _).
  - intros k s. rewrite mark_pending_all, Htimes, Hk, lookup_empty.
    destruct (existsb (minute_used _ _ _ _) _) eqn:E1; [|destruct (existsb (in_minute start end_ k) _) eqn:E2; [|done]]; intros _.
    + apply existsb_exists in E1 as (m & _ & (e & _ & He & <- & _)%minute_used_spec). by exists e.1.2.
    + apply existsb_exists in E2 as (t & _ & Ht). unfold in_minute in Ht. exists t. lia.
Qed.
Lemma local_usage_spec :
  ra_local_index_initialized a = true → 1 ≤ start < end_ → end_ ≤ MAX_END_EXCLUSIVE →
  ∃ u, local_usage a start end_ = Ok u ∧ lu_start_at u = start ∧ lu_end_at u = end_
  ∧ LocalUsage_validate u = Ok ()
  ∧ (∀ i t, i ∈ lu_intervals u → lui_start_at i ≤ t < lui_end_at i →
      lui_state i = minute_use L (ra_pending_numeric_times a) start end_ (minute_of t))
  ∧ runs (lu_intervals u).
Proof.
  intros Hinit Hstart Hend. unfold local_usage. rewrite Hinit. cbn [negb].
  destruct (marked_minutes ltac:(lia)) as (minutes & -> & Hm). cbv zeta in Hm. destruct Hm as [Hstate Hkeys].
  cbn [mbind result_bind]. cbv zeta.
  pose proof (paint_minutes _ start end_ Hstart Hend Hkeys) as H. cbv zeta in H.
  destruct (fold_left (paint start end_) _ _) as [intervals cursor]. destruct H as [Hv Hp].
  rewrite Hv. simpl. eexists. split; [done|]. cbn. split_and!; [done..| |].
  - intros i t Hi Ht. rewrite (pt_state _ _ _ _ Hp i t Hi Ht). apply Hstate.
  - apply (pt_runs _ _ _ _ Hp).
Qed.
End local_use.
