(* ===== verification/RecordedReports.v ===== *)
(** * What the reports of recorded usage say of the facts

    Composes the writer's refresh (LedgerSums.v) with the reader (Recordings.v): a
    report of a range, computed from two stored prefixes per model, is the sum of the
    eligible facts of the range; a ledger the writer refreshed is readable; and the
    intervals of local use follow from the facts of each minute. *)

From S2P Require Import Prelude Text Contract TokenFacts RecordedUsage SourceAdmission EventAdmission UsageLedger LedgerSums Recordings RecordedValues LocalUse PendingUsage.

(** ** From the writer to the reports *)
Lemma unordered_strict l :
  StronglySorted (λ a b, text_leb a b = true) l → NoDup l → unordered l = false.
Proof.
  intros Hs. induction Hs as [|a l _ IH Ha]; intros Hn; [done|]. apply NoDup_cons in Hn as [Hnew Hn].
  specialize (IH Hn). destruct l as [|b l]; [done|]. change (unordered (a :: b :: l)) with (text_leb b a || unordered (b :: l)).
  rewrite IH, orb_false_r.
  apply Forall_cons in Ha as [Hab _]. destruct (text_leb b a) eqn:E; [|done].
  destruct Hnew. rewrite (text_leb_antisym a b Hab E). apply list_elem_of_here.
Qed.
Lemma read_refreshed L :
  refreshed L → lg_initialized L = true → lg_models L = eligible_models (lg_facts L) →
  facts_wf (lg_facts L) →
  is_ok (read_prefixes (true, true, true) L true) = true ↔ readable (lg_facts L).
Proof.
  intros (Hdirty & Hsum & _) Hinit Hmodels Hwf. rewrite <-(rows_readable L Hsum Hwf).
  pose proof (read_rows_guards (prefix_rows (lg_prefixes L))) as Hg.
  unfold read_prefixes. cbn [existsb negb orb andb]. rewrite Hinit, Hdirty.
  rewrite (bool_decide_eq_true_2 (∅ = ∅)) by done. cbn [negb andb].
  rewrite unordered_strict; cycle 1.
  { rewrite Hmodels. apply sort_by_sorted; [apply text_leb_total|apply text_leb_trans]. }
  { rewrite Hmodels. unfold eligible_models. rewrite (sort_by_perm _ _). apply NoDup_elements. }
  destruct (fold_result read_row ∅ _) as [prefixes|e]; cbn [mbind result_bind]; [|by split].
  destruct Hg as [Hrows Hinv]. rewrite bool_decide_eq_true_2; [by split|].
  by apply (heads_match L Hsum prefixes Hmodels Hinv).
Qed.

Section composed.
Context (key : ResponseIds → text).
Context (encode_strings : list text → text) (encode_marker : AmbiguityMarker → text)
  (encode_response : ResponseEvidenceValue → text) (encode_counter : CounterEvidenceValue → text)
  (hash : text → text).
Context (is_retired : SessionEventSource → result UsageStoreError bool)
  (validate_storage_partition_identity : StoragePartitionIdentity → result UsageStoreError ()).
Local Abbreviation step := (ledger_step key encode_strings encode_marker encode_response encode_counter
  hash is_retired validate_storage_partition_identity).
Local Abbreviation finish := (finish key encode_strings encode_marker encode_response encode_counter
  hash is_retired validate_storage_partition_identity).

Lemma reached_refreshed L qualified L' :
  rtc step Ledger_new L → finish L qualified = Ok L' →
  refreshed L' ∧ lg_initialized L' = true ∧ lg_models L' = eligible_models (lg_facts L').
Proof.
  intros Hr Hf. apply reached_ok in Hr.
  split; [by destruct (finish_ok _ _ _ _ _ _ _ _ L qualified L' Hr Hf)|].
  by apply (finish_head _ _ _ _ _ _ _ _ L qualified L' Hr Hf).
Qed.

(** C6. What the writer leaves after a refresh, the reader accepts exactly when every
    eligible fact has a time of the supported calendar and a public model name, and
    every instant of a model but its first adds at most 64 bits of tokens: no stored
    head, order or prefix is ever the reason for a refusal. *)
Theorem refreshed_ledger_readable L qualified L' :
  rtc step Ledger_new L → finish L qualified = Ok L' → facts_wf (lg_facts L') →
  is_ok (read_prefixes (true, true, true) L' true) = true ↔ readable (lg_facts L').
Proof.
  intros Hr Hf Hwf. destruct (reached_refreshed L qualified L' Hr Hf) as (? & ? & ?).
  by apply read_refreshed.
Qed.

(** C4. End to end: after any sequence of observations, removals and refreshes, the report
    of a range lists, for each model with an eligible fact in the range, the sum of
    exactly those facts (a component known when every fact knows it); the report is
    refused only when the range of a model exceeds 64 bits. *)
Theorem report_is_sum_of_facts L qualified L' archive start end_ :
  rtc step Ledger_new L → finish L qualified = Ok L' → facts_wf (lg_facts L') →
  read_prefixes (true, true, true) L' true = Ok archive → start ≤ end_ →
  models archive start end_ = report L' start end_.
Proof.
  intros Hr Hf Hwf Hread Hle. destruct (reached_refreshed L qualified L' Hr Hf) as [(_ & Hsum & _) _].
  apply read_prefixes_archive in Hread as [Ha _]. by apply models_report.
Qed.

(** C5. End to end: the intervals of local use cover a valid range without gap or overlap,
    each with the state of its minutes: used when an eligible fact of the minute has
    tokens, unavailable when only an unqualified event does, else unused; and no two
    adjacent intervals could be one. *)
Theorem local_usage_exact L qualified L' archive times start end_ :
  rtc step Ledger_new L → finish L qualified = Ok L' → facts_wf (lg_facts L') →
  read_prefixes (true, true, true) L' true = Ok archive →
  1 ≤ start < end_ → end_ ≤ MAX_END_EXCLUSIVE →
  (∀ m t, start ≤ t < end_ → range_fits (lg_facts L') t (t + 1) m = true) →
  ∃ u, local_usage (with_pending archive times) start end_ = Ok u
  ∧ lu_start_at u = start ∧ lu_end_at u = end_ ∧ LocalUsage_validate u = Ok ()
  ∧ (∀ i t, i ∈ lu_intervals u → lui_start_at i ≤ t < lui_end_at i →
      lui_state i = minute_use L' times start end_ (minute_of t))
  ∧ runs (lu_intervals u).
Proof.
  intros Hr Hf Hwf Hread Hstart Hend Hfits.
  destruct (reached_refreshed L qualified L' Hr Hf) as [(_ & Hsum & _) [Hinit _]].
  apply read_prefixes_archive in Hread as [[Hi Hm Hv] _].
  apply (local_usage_spec L' (with_pending archive times) start end_ Hsum Hwf); [by split|done| |done|done].
  simpl. by rewrite Hi.
Qed.
End composed.

(** ** The concrete ledger, read *)
Local Abbreviation example_step := (ledger_step ri_response_id example_strings
  (λ m, am_model m ++ to_dec (am_timestamp m)) (λ v, rv_model v) (λ v, cv_model v) (λ t, t)
  (λ _, Ok false) (λ _, Ok ())).
Definition example_archive : RecordedArchive :=
  default RecordedArchive_default (result_ok (read_prefixes (true, true, true) example_final true)).

Lemma example_facts_wf : facts_wf (lg_facts example_final).
Proof.
  apply facts_wf_rows. vm_compute. apply Forall_cons_2; [|apply Forall_nil_2].
  repeat split; apply Z.leb_le; reflexivity.
Qed.
Lemma example_fits start end_ m : range_fits (lg_facts example_final) start end_ m = true.
Proof. apply ranges_fit; [exact example_facts_wf|]. by vm_compute. Qed.
Example example_report :
  models example_archive 1 2000
  = Ok [usage_of (lit "gpt-6-sol") (TokenFacts.fact_of 5 (Some 5) (Some 0) (Some 0) (Some 0))]
  ∧ models example_archive 1001 2000 = Ok [].
Proof. by vm_compute. Qed.
Lemma refreshed_ledger_readable_witness :
  is_ok (read_prefixes (true, true, true) example_final true) = true
  ↔ readable (lg_facts example_final).
Proof.
  apply (refreshed_ledger_readable ri_response_id example_strings
    (λ m, am_model m ++ to_dec (am_timestamp m)) (λ v, rv_model v) (λ v, cv_model v) (λ t, t)
    (λ _, Ok false) (λ _, Ok ()) example_resolved []).
  - exact example_reached.
  - apply (after_Ok (example_finish example_resolved)). vm_compute. reflexivity.
  - exact example_facts_wf.
Defined.
Lemma report_is_sum_of_facts_witness :
  models example_archive 1 2000 = report example_final 1 2000.
Proof.
  apply (report_is_sum_of_facts ri_response_id example_strings
    (λ m, am_model m ++ to_dec (am_timestamp m)) (λ v, rv_model v) (λ v, cv_model v) (λ t, t)
    (λ _, Ok false) (λ _, Ok ()) example_resolved []).
  - exact example_reached.
  - apply (after_Ok (example_finish example_resolved)). vm_compute. reflexivity.
  - exact example_facts_wf.
  - vm_compute. reflexivity.
  - lia.
Defined.
Lemma local_usage_exact_witness :
  ∃ u, local_usage (with_pending example_archive {[ 1100 ]}) 900 1200 = Ok u
  ∧ lu_start_at u = 900 ∧ lu_end_at u = 1200 ∧ LocalUsage_validate u = Ok ()
  ∧ (∀ i t, i ∈ lu_intervals u → lui_start_at i ≤ t < lui_end_at i →
      lui_state i = minute_use example_final {[ 1100 ]} 900 1200 (minute_of t))
  ∧ runs (lu_intervals u).
Proof.
  apply (local_usage_exact ri_response_id example_strings
    (λ m, am_model m ++ to_dec (am_timestamp m)) (λ v, rv_model v) (λ v, cv_model v) (λ t, t)
    (λ _, Ok false) (λ _, Ok ()) example_resolved []).
  - exact example_reached.
  - apply (after_Ok (example_finish example_resolved)). vm_compute. reflexivity.
  - exact example_facts_wf.
  - vm_compute. reflexivity.
  - lia.
  - by apply Z.leb_le; vm_compute.
  - intros m t _. apply example_fits.
Defined.
Example example_local_usage :
  map (λ i, (lui_start_at i, lui_end_at i, lui_state i))
    (default [] (lu_intervals <$> result_ok
       (local_usage (with_pending example_archive {[ 1100 ]}) 900 1200)))
  = [(900, 960, Unused); (960, 1020, Used); (1020, 1080, Unused); (1080, 1140, Unavailable);
     (1140, 1200, Unused)].
Proof. by vm_compute. Qed.
