(* ===== verification/ReadIntervals.v ===== *)
(** * The lifecycle intervals a partition owns

    Models [ReadInterval] and [ReadIntervals] of
    [crates/codex-info-db-reader/src/lib.rs]: the half-open intervals of time whose rows a
    reader may publish, and the lookups on them. Times are [i64]. *)

From S2P Require Import Prelude Text.

Definition MAX_PUBLIC_UNIX_SECONDS : Z := 253402300799.
Definition valid_public_timestamp (value : Z) : bool := (0 <? value) && (value <=? 253402300799).

Record ReadInterval := { ri_start_at : option Z; ri_end_at : option Z }.
#[export] Instance ReadInterval_eq_dec : EqDecision ReadInterval. Proof. solve_decision. Defined.

(** The message of [ReaderError::InvalidValue]. *)
Definition IntervalError := text.
(** Bounds outside the calendar, or an end before its start. *)
Definition invalid_bounds (interval : ReadInterval) : bool :=
  is_some_and (λ value, negb (in_range 1 MAX_PUBLIC_UNIX_SECONDS value)) (ri_start_at interval)
  || is_some_and (λ value, negb (in_range 1 MAX_PUBLIC_UNIX_SECONDS value)) (ri_end_at interval)
  || match ri_start_at interval, ri_end_at interval with
     | Some start, Some end_ => end_ <? start
     | _, _ => false
     end.
Definition ReadInterval_new (start_at end_at : option Z) : result IntervalError ReadInterval :=
  let interval := {| ri_start_at := start_at; ri_end_at := end_at |} in
  reject lit "read interval has invalid UTC bounds" when invalid_bounds interval;
  Ok interval.
Definition interval_contains (self : ReadInterval) (timestamp : Z) : bool :=
  is_none_or (λ start, start <=? timestamp) (ri_start_at self)
  && is_none_or (λ end_, timestamp <? end_) (ri_end_at self).
Definition is_empty (self : ReadInterval) : bool :=
  match ri_start_at self, ri_end_at self with
  | Some start, Some end_ => start =? end_
  | _, _ => false
  end.

Definition start_or_min (interval : ReadInterval) : Z := default i64_min (ri_start_at interval).
Definition end_or_max (interval : ReadInterval) : Z := default i64_max (ri_end_at interval).
Definition interval_leb (a b : ReadInterval) : bool :=
  (start_or_min a <? start_or_min b)
  || ((start_or_min a =? start_or_min b) && (end_or_max a <=? end_or_max b)).

Abbreviation ReadIntervals := (list ReadInterval).
Definition ReadIntervals_default : ReadIntervals := [{| ri_start_at := None; ri_end_at := None |}].
Definition unbounded : ReadIntervals := ReadIntervals_default.
(** The loop over the intervals that are not empty, from [previous_end]. *)
Fixpoint no_overlap (previous_end : option Z) (intervals : list ReadInterval) : bool :=
  match intervals with
  | [] => true
  | interval :: rest =>
      if is_some_and (λ end_, start_or_min interval <? end_) previous_end then false
      else no_overlap (Some (end_or_max interval)) rest
  end.
Definition ReadIntervals_new (intervals : list ReadInterval) : result IntervalError ReadIntervals :=
  reject lit "read intervals are missing or have invalid UTC bounds" when
    bool_decide (intervals = []) || existsb invalid_bounds intervals;
  let intervals := sort_by interval_leb intervals in
  reject lit "read intervals overlap" when
    negb (no_overlap None (List.filter (λ interval, negb (is_empty interval)) intervals));
  Ok intervals.

Definition contains (self : ReadIntervals) (timestamp : Z) : bool :=
  existsb (λ interval, interval_contains interval timestamp) self.
Definition intersects_canonical_minute (self : ReadIntervals) (timestamp : Z) : bool :=
  let minute_start := i64_saturating_sub timestamp (timestamp mod 60) in
  let minute_end := i64_saturating_add minute_start 60 in
  existsb (λ interval,
    negb (is_empty interval)
    && is_none_or (λ end_, minute_start <? end_) (ri_end_at interval)
    && is_none_or (λ start, start <? minute_end) (ri_start_at interval)) self.

(** The loop of [quota_only_prefix_end]: [None] is the early return. *)
Fixpoint prefix_end_from (quota_start : Z) (first_start : option Z) (intervals : list ReadInterval) :
    option (option Z) :=
  match intervals with
  | [] => Some first_start
  | interval :: rest =>
      if is_empty interval then prefix_end_from quota_start first_start rest
      else if is_none_or (λ start, start <=? quota_start) (ri_start_at interval)
              && is_none_or (λ end_, quota_start <? end_) (ri_end_at interval)
      then None
      else
        prefix_end_from quota_start
          (match opt_filter (λ start, quota_start <? start) (ri_start_at interval) with
           | Some start => Some (match first_start with Some current => Z.min current start | None => start end)
           | None => first_start
           end) rest
  end.
Definition quota_only_prefix_end (self : ReadIntervals) (quota_start : Z) : option Z :=
  default None (prefix_end_from quota_start None self).
Definition interval_containing (self : ReadIntervals) (timestamp : Z) : option ReadInterval :=
  List.find (λ interval, interval_contains interval timestamp) self.
Definition is_unbounded (self : ReadIntervals) : bool :=
  match self with
  | [interval] => negb (opt_is_some (ri_start_at interval)) && negb (opt_is_some (ri_end_at interval))
  | _ => false
  end.

(** ** Construction *)
(** The intervals that contain a time. *)
Definition owners (t : Z) (l : list ReadInterval) : list ReadInterval :=
  List.filter (λ interval, interval_contains interval t) l.
(** An interval whose bounds are accepted and that holds some time. *)
Definition proper (i : ReadInterval) : Prop := invalid_bounds i = false ∧ is_empty i = false.

Lemma interval_contains_iff i t :
  interval_contains i t = true ↔
  (∀ s, ri_start_at i = Some s → s ≤ t) ∧ (∀ e, ri_end_at i = Some e → t < e).
Proof.
  unfold interval_contains, is_none_or. rewrite andb_true_iff.
  destruct (ri_start_at i), (ri_end_at i); rewrite ?Z.leb_le, ?Z.ltb_lt; naive_solver.
Qed.
Lemma invalid_bounds_false i :
  invalid_bounds i = false ↔
  (∀ s, ri_start_at i = Some s → 1 ≤ s ≤ MAX_PUBLIC_UNIX_SECONDS)
  ∧ (∀ e, ri_end_at i = Some e → 1 ≤ e ≤ MAX_PUBLIC_UNIX_SECONDS)
  ∧ (∀ s e, ri_start_at i = Some s → ri_end_at i = Some e → s ≤ e).
Proof.
  unfold invalid_bounds. rewrite !orb_false_iff.
  destruct (ri_start_at i), (ri_end_at i); simpl; rewrite ?negb_false_iff, ?in_range_true, ?Z.ltb_ge;
    naive_solver.
Qed.
Lemma empty_owns_nothing i t : is_empty i = true → interval_contains i t = false.
Proof.
  unfold is_empty, interval_contains. destruct (ri_start_at i), (ri_end_at i); simpl; try done. lia.
Qed.
Lemma proper_bounds i :
  proper i → start_or_min i < end_or_max i ∧ i64_min ≤ start_or_min i < i64_max
  ∧ i64_min < end_or_max i ≤ i64_max.
Proof.
  intros [Hb He]. apply invalid_bounds_false in Hb as (Hs & Hend & Hse).
  unfold is_empty in He. unfold start_or_min, end_or_max, MAX_PUBLIC_UNIX_SECONDS, i64_min, i64_max in *.
  destruct (ri_start_at i) as [s|], (ri_end_at i) as [e|]; simpl in *; try lia;
    try specialize (Hs _ eq_refl); try specialize (Hend _ eq_refl); try lia.
  specialize (Hse _ _ eq_refl eq_refl). lia.
Qed.
Lemma proper_contains i t :
  proper i → is_i64 t → interval_contains i t = true ↔
  start_or_min i ≤ t ∧ (t < end_or_max i ∨ ri_end_at i = None).
Proof.
  intros Hp Ht. rewrite interval_contains_iff. unfold start_or_min, end_or_max, is_i64 in *.
  destruct (ri_start_at i), (ri_end_at i); simpl; naive_solver lia.
Qed.
Lemma owners_nonempty t l :
  owners t (List.filter (λ i, negb (is_empty i)) l) = owners t l.
Proof.
  unfold owners. induction l as [|i l IH]; simpl; [done|]. destruct (is_empty i) eqn:E; simpl; [|by rewrite IH].
  by rewrite (empty_owns_nothing i t E).
Qed.
Lemma no_overlap_sound l previous :
  Forall proper l → no_overlap previous l = true →
  (∀ e i, previous = Some e → i ∈ l → e ≤ start_or_min i)
  ∧ ∀ t, is_i64 t → (length (owners t l) ≤ 1)%nat.
Proof.
  intros Hp. revert previous. induction Hp as [|i l Hi Hl IH]; intros previous; simpl.
  { intros _. split; [by intros ? ? ? ?%elem_of_nil|lia]. }
  destruct (is_some_and _ previous) eqn:Ep; [done|]. intros Hno.
  destruct (IH _ Hno) as [Hge Hone]. pose proof (λ j, Hge _ j eq_refl) as Hle. clear Hge.
  pose proof (proper_bounds i Hi). split.
  - intros e j -> [->|Hj]%elem_of_cons; simpl in Ep; [lia|]. specialize (Hle j Hj). lia.
  - intros t Ht. unfold owners. simpl. destruct (interval_contains i t) eqn:Et; [|by apply Hone].
    simpl. fold (owners t l). assert (owners t l = []) as ->; [|simpl; lia]. apply filter_none. intros j Hj.
    rewrite Forall_forall in Hl. specialize (Hle j Hj). specialize (Hl j Hj).
    pose proof (proper_bounds j Hl).
    apply (proper_contains i t Hi Ht) in Et as [_ Et].
    destruct (interval_contains j t) eqn:Ej; [|done]. apply (proper_contains j t Hl Ht) in Ej as [Ej _].
    destruct Et as [|Et]; [lia|]. unfold end_or_max in *. rewrite Et in *. simpl in *. lia.
Qed.
Lemma no_overlap_complete l previous :
  Forall proper (opt_list previous ++ l) →
  StronglySorted (λ a b, start_or_min a ≤ start_or_min b) (opt_list previous ++ l) →
  no_overlap (end_or_max <$> previous) l = false →
  ∃ t, is_i64 t ∧ (1 < length (owners t (opt_list previous ++ l)))%nat.
Proof.
  revert previous. induction l as [|i l IH]; intros previous Hp Hs Hno; simpl in Hno; [done|].
  destruct (is_some_and _ _) eqn:Ep.
  - destruct previous as [p|]; [|done]. simpl in *. apply Z.ltb_lt in Ep.
    apply Forall_cons in Hp as [Hpp [Hpi _]%Forall_cons].
    apply StronglySorted_inv in Hs as [_ [Hle _]%Forall_cons].
    pose proof (proper_bounds i Hpi). exists (start_or_min i).
    assert (is_i64 (start_or_min i)) as Ht by (unfold is_i64; lia). split; [done|].
    unfold owners. simpl. rewrite (proj2 (proper_contains p _ Hpp Ht)) by lia.
    rewrite (proj2 (proper_contains i _ Hpi Ht)) by lia. simpl. lia.
  - destruct (IH (Some i)) as (t & Ht & Hlen).
    + by apply Forall_app in Hp as [_ Hp].
    + by apply StronglySorted_app_1_r in Hs.
    + done.
    + exists t. split; [done|]. unfold owners in *. rewrite List.filter_app, length_app. simpl in *. lia.
Qed.
Lemma interval_leb_iff a b :
  interval_leb a b = true ↔ start_or_min a < start_or_min b
    ∨ start_or_min a = start_or_min b ∧ end_or_max a ≤ end_or_max b.
Proof. unfold interval_leb. by rewrite orb_true_iff, andb_true_iff, Z.ltb_lt, Z.eqb_eq, Z.leb_le. Qed.
Lemma intervals_sorted l :
  StronglySorted (λ a b, start_or_min a ≤ start_or_min b) (sort_by interval_leb l).
Proof.
  refine (StronglySorted_weaken _ _ _ _ (sort_by_sorted interval_leb _ _ l)).
  - intros a b. rewrite interval_leb_iff. lia.
  - intros a b. rewrite !interval_leb_iff. lia.
  - intros a b c. rewrite !interval_leb_iff. lia.
Qed.
Lemma owners_sorted t l : length (owners t (sort_by interval_leb l)) = length (owners t l).
Proof. apply Permutation_length, filter_bool_perm, sort_by_perm. Qed.

Lemma read_intervals_spec l :
  match ReadIntervals_new l with
  | Ok intervals => intervals ≡ₚ l ∧ l ≠ [] ∧ Forall (λ i, invalid_bounds i = false) l
      ∧ ∀ t, is_i64 t → (length (owners t intervals) ≤ 1)%nat
  | Err _ => l = [] ∨ Exists (λ i, invalid_bounds i = true) l
      ∨ ∃ t, is_i64 t ∧ (1 < length (owners t l))%nat
  end.
Proof.
  unfold ReadIntervals_new. destruct (bool_decide_reflect (l = [])) as [->|Hne]; simpl; [by left|].
  destruct (existsb invalid_bounds l) eqn:Eb; [right; left; by apply existsb_Exists|].
  apply existsb_false_Forall in Eb. set (s := sort_by interval_leb l).
  set (m := List.filter (λ i, negb (is_empty i)) s).
  assert (Forall proper m) as Hm.
  { rewrite Forall_forall in *. intros i [Hi He]%elem_of_filter_bool.
    split; [by apply Eb, (sort_by_elem interval_leb)|by apply negb_true_iff]. }
  assert (∀ t, owners t m = owners t s) as Hown by (intros; apply owners_nonempty).
  destruct (no_overlap None m) eqn:Eo; simpl.
  - split_and!; [apply sort_by_perm|done|done|]. intros t Ht. rewrite <-Hown.
    by apply (no_overlap_sound m None).
  - right; right. destruct (no_overlap_complete m None) as (t & Ht & Hlen); [done| |done|].
    { apply StronglySorted_filter_bool, intervals_sorted. }
    exists t. split; [done|]. simpl in Hlen. rewrite Hown in Hlen. unfold s in Hlen. by rewrite owners_sorted in Hlen.
Qed.
(** Read intervals are accepted exactly when there is at least one, all bounds are
    public times in order, and no time belongs to two of them, whatever their order and
    however many are empty; accepted intervals are the given ones. *)
Theorem read_intervals_disjoint l :
  match ReadIntervals_new l with
  | Ok intervals => intervals ≡ₚ l ∧ l ≠ [] ∧ Forall (λ i, invalid_bounds i = false) l
      ∧ ∀ t, is_i64 t → (length (owners t intervals) ≤ 1)%nat
  | Err _ => l = [] ∨ Exists (λ i, invalid_bounds i = true) l
      ∨ ∃ t, is_i64 t ∧ (1 < length (owners t l))%nat
  end.
Proof. exact (read_intervals_spec l). Qed.

(** ** Lookups *)
Lemma contains_iff self t : contains self t = true ↔ ∃ i, i ∈ self ∧ interval_contains i t = true.
Proof. unfold contains. rewrite existsb_exists. by setoid_rewrite <-list_elem_of_In. Qed.
Lemma interval_containing_spec self t :
  match interval_containing self t with
  | Some i => i ∈ self ∧ interval_contains i t = true
  | None => contains self t = false
  end.
Proof.
  unfold interval_containing. destruct (List.find _ self) as [i|] eqn:E.
  - apply List.find_some in E as [Hin ?]. split; [by apply list_elem_of_In|done].
  - unfold contains. apply not_true_iff_false. rewrite existsb_exists. intros (i & Hin & Hi).
    by rewrite (List.find_none _ _ E i Hin) in Hi.
Qed.
Lemma unbounded_contains self t : is_unbounded self = true → contains self t = true.
Proof.
  unfold is_unbounded. destruct self as [|[[s|] [e|]] [|]]; simpl; try done.
Qed.

(** A minute bucket is kept exactly when one of its seconds is owned. *)
Theorem canonical_minute_exact self t :
  Forall (λ i, invalid_bounds i = false) self → 0 ≤ t ≤ MAX_PUBLIC_UNIX_SECONDS →
  intersects_canonical_minute self t = true ↔
  ∃ u, t - t mod 60 ≤ u < t - t mod 60 + 60 ∧ contains self u = true.
Proof.
  intros Hb Ht. pose proof (Z.mod_pos_bound t 60 ltac:(lia)) as Hm.
  unfold intersects_canonical_minute. set (m := t - t mod 60).
  assert (m mod 60 = 0) as Hm0.
  { unfold m. pose proof (Z.div_mod t 60 ltac:(lia)). replace (t - t mod 60) with (t / 60 * 60) by lia.
    by apply Z.mod_mul. }
  assert (0 ≤ m) by (pose proof (Z.div_mod t 60 ltac:(lia)); lia).
  replace (i64_saturating_sub t (t mod 60)) with m
    by (unfold i64_saturating_sub, i64_min, i64_max, MAX_PUBLIC_UNIX_SECONDS in *; lia).
  replace (i64_saturating_add m 60) with (m + 60)
    by (unfold i64_saturating_add, i64_min, i64_max, MAX_PUBLIC_UNIX_SECONDS in *; lia).
  rewrite existsb_exists. setoid_rewrite <-list_elem_of_In.
  setoid_rewrite contains_iff. setoid_rewrite interval_contains_iff.
  rewrite Forall_forall in Hb. split.
  - intros (i & Hi & Hov). specialize (Hb i Hi). apply invalid_bounds_false in Hb as (_ & _ & Hse).
    rewrite !andb_true_iff, negb_true_iff in Hov. destruct Hov as [[He Hend] Hstart].
    unfold is_empty in He. exists (Z.max m (default m (ri_start_at i))).
    destruct (ri_start_at i) as [s|] eqn:Es, (ri_end_at i) as [e|] eqn:Ee; simpl in *;
      try specialize (Hse _ _ eq_refl eq_refl);
      (split; [lia|]; exists i; rewrite ?Es, ?Ee; split; [done|]; naive_solver lia).
  - intros (u & Hu & i & Hi & Hs & He). exists i. split; [done|]. unfold is_empty.
    destruct (ri_start_at i) as [s|], (ri_end_at i) as [e|]; simpl;
      try specialize (Hs _ eq_refl); try specialize (He _ eq_refl); lia.
Qed.

(** An interval that does not own the start of the window: when it owns later times. *)
Lemma interval_after q i :
  invalid_bounds i = false → is_empty i = false → interval_contains i q = false →
  match opt_filter (λ start, q <? start) (ri_start_at i) with
  | Some s => q < s ∧ interval_contains i s = true ∧ ∀ u, q ≤ u < s → interval_contains i u = false
  | None => ∀ u, q ≤ u → interval_contains i u = false
  end.
Proof.
  intros (_ & _ & Hse)%invalid_bounds_false He Hq. unfold is_empty in He.
  unfold interval_contains in *. destruct (ri_start_at i) as [s|], (ri_end_at i) as [e|]; simpl in *;
    try (specialize (Hse _ _ eq_refl eq_refl)); try (destruct (Z.ltb_spec q s); simpl);
    try (split_and!); try intros; lia.
Qed.
(** [r] is the first owned time from [q] on, or the first of [first]. *)
Definition first_after (q : Z) (self : ReadIntervals) (first r : option Z) : Prop :=
  match r with
  | Some f => q < f ∧ (first = Some f ∨ contains self f = true)
      ∧ (∀ u, q ≤ u < f → contains self u = false) ∧ ∀ f0, first = Some f0 → f ≤ f0
  | None => first = None ∧ ∀ u, q ≤ u → contains self u = false
  end.
Lemma prefix_end_spec q self first :
  Forall (λ i, invalid_bounds i = false) self → (∀ f, first = Some f → q < f) →
  match prefix_end_from q first self with
  | None => contains self q = true
  | Some r => contains self q = false ∧ first_after q self first r
  end.
Proof.
  intros Hb. revert first. induction Hb as [|i l Hi _ IH]; intros first Hf; cbn [prefix_end_from].
  { split; [done|]. destruct first as [f|]; [|done]. split_and!; [by apply Hf|by left|done|].
    by intros ? [= ->]. }
  assert (∀ u, contains (i :: l) u = interval_contains i u || contains l u) as Hcons by done.
  destruct (is_empty i) eqn:Ee.
  { specialize (IH first Hf). assert (∀ u, contains (i :: l) u = contains l u) as Hsame
      by (intros u; by rewrite Hcons, empty_owns_nothing).
    unfold first_after in *.
    by destruct (prefix_end_from q first l) as [[f|]|]; setoid_rewrite Hsame. }
  fold (interval_contains i q). destruct (interval_contains i q) eqn:Eq; [by rewrite Hcons, Eq|].
  unfold first_after in *.
  pose proof (interval_after q i Hi Ee Eq) as Hafter.
  destruct (opt_filter _ (ri_start_at i)) as [s|]; cycle 1.
  { specialize (IH first Hf). destruct (prefix_end_from q first l) as [r|]; [|by rewrite Hcons, Eq].
    destruct IH as [Hq Hr]. rewrite Hcons, Eq. split; [done|]. destruct r as [f|].
    - destruct Hr as (Hqf & Hin & Hlt & Hmin). split_and!; [done| | |done].
      + rewrite Hcons, orb_true_iff. tauto.
      + intros u Hu. by rewrite Hcons, Hafter, Hlt by lia.
    - destruct Hr as [? Hr]. split; [done|]. intros u Hu. by rewrite Hcons, Hafter, Hr by lia. }
  destruct Hafter as (Hqs & Hs & Hbefore).
  specialize (IH (Some (match first with Some current => Z.min current s | None => s end))).
  destruct (prefix_end_from q _ l) as [r|]; cycle 1.
  { rewrite Hcons, Eq. apply IH. destruct first as [f|]; intros ? [= <-]; [|done]. specialize (Hf _ eq_refl). lia. }
  destruct IH as [Hq Hr].
  { destruct first as [f|]; intros ? [= <-]; [|done]. specialize (Hf _ eq_refl). lia. }
  rewrite Hcons, Eq. split; [done|]. destruct r as [f|]; [|by destruct Hr as [[=] _]]. rewrite Hcons.
  destruct Hr as (Hqf & Hin & Hlt & Hmin). specialize (Hmin _ eq_refl).
  assert (f ≤ s) by (destruct first; lia). split_and!; [done| | |].
  - destruct Hin as [[= <-]|Hin]; [|right; by rewrite Hin, orb_true_r].
    destruct first as [f0|]; [|right; by rewrite Hs].
    destruct (Z.min_spec f0 s) as [[_ ->]|[_ ->]]; [by left|right; by rewrite Hs].
  - intros u Hu. by rewrite Hcons, Hbefore, Hlt by lia.
  - intros f0 ->. lia.
Qed.

(** The leading prefix of a quota window that only the provider observed ends at the
    first time the partition owns: none when the partition owns the start of the window,
    or nothing from there on. *)
Theorem quota_prefix_exact self q :
  Forall (λ i, invalid_bounds i = false) self →
  match quota_only_prefix_end self q with
  | Some e => q < e ∧ contains self e = true ∧ ∀ u, q ≤ u < e → contains self u = false
  | None => contains self q = true ∨ ∀ u, q ≤ u → contains self u = false
  end.
Proof.
  intros Hb. unfold quota_only_prefix_end. pose proof (prefix_end_spec q self None Hb ltac:(done)) as H.
  destruct (prefix_end_from q None self) as [[e|]|]; simpl.
  - destruct H as (_ & Hq & [[=]|Hin] & Hlt & _). done.
  - destruct H as (_ & _ & H). by right.
  - by left.
Qed.

(** *** Concrete intervals: an account that was active twice *)
Definition example_intervals : list ReadInterval := [
  {| ri_start_at := Some 500; ri_end_at := None |}; {| ri_start_at := Some 300; ri_end_at := Some 300 |};
  {| ri_start_at := Some 100; ri_end_at := Some 200 |}].
Definition example_sorted : ReadIntervals := default [] (result_ok (ReadIntervals_new example_intervals)).
Example example_lookups :
  quota_only_prefix_end example_sorted 250 = Some 500 ∧ quota_only_prefix_end example_sorted 150 = None
  ∧ map (contains example_sorted) [99; 100; 199; 200; 300; 500] = [false; true; true; false; false; true]
  ∧ intersects_canonical_minute example_sorted 480 = true
  ∧ ReadIntervals_new ({| ri_start_at := None; ri_end_at := Some 101 |} :: example_intervals)
    = Err (lit "read intervals overlap").
Proof. by vm_compute. Qed.
Lemma example_bounds : Forall (λ i, invalid_bounds i = false) example_sorted.
Proof. apply existsb_false_Forall. by vm_compute. Qed.
Lemma canonical_minute_exact_witness :
  intersects_canonical_minute example_sorted 190 = true ↔
  ∃ u, 190 - 190 mod 60 ≤ u < 190 - 190 mod 60 + 60 ∧ contains example_sorted u = true.
Proof.
  apply (canonical_minute_exact example_sorted 190 example_bounds).
  unfold MAX_PUBLIC_UNIX_SECONDS. lia.
Defined.
Lemma quota_prefix_exact_witness :
  match quota_only_prefix_end example_sorted 250 with
  | Some e => 250 < e ∧ contains example_sorted e = true
      ∧ ∀ u, 250 ≤ u < e → contains example_sorted u = false
  | None => contains example_sorted 250 = true ∨ ∀ u, 250 ≤ u → contains example_sorted u = false
  end.
Proof. exact (quota_prefix_exact example_sorted 250 example_bounds). Defined.
