(* ===== verification/TaskActivity.v ===== *)
(** * Task activity of the published history

    Models the activity of tasks in [crates/codex-info-db-reader/src/lib.rs]: the spans in
    which a task ran or was verified idle ([TaskActivityIntervals]), their clipping to the
    intervals a partition owns, and the flag each history row carries
    ([assign_task_activity_for_intervals]). Times are [i64] seconds; a span of activity
    holds both its ends. *)

From S2P Require Import Prelude Text Float64 Contract Details Spans ReadIntervals.

(** ** History rows *)
Definition with_activity (active : option bool) (self : PublicHistoryObservationV3) :
    PublicHistoryObservationV3 := {|
  o3_timestamp := o3_timestamp self; o3_reset_at := o3_reset_at self;
  o3_remaining_percent := o3_remaining_percent self; o3_task_active_since_previous := active;
  o3_models := o3_models self; o3_models_complete := o3_models_complete self;
  o3_model_source := o3_model_source self |}.
(** A row that claims neither quota nor models. *)
Definition empty_point (reset_at timestamp : Z) : PublicHistoryObservationV3 := {|
  o3_timestamp := timestamp; o3_reset_at := reset_at; o3_remaining_percent := None;
  o3_task_active_since_previous := None; o3_models := None; o3_models_complete := false;
  o3_model_source := lit "unavailable" |}.

(** ** Evidence *)
Record TaskSourceKey := {
  sk_root_identity : text;
  sk_relative_path : text;
  sk_file_device : text;
  sk_file_inode : text
}.
#[export] Instance TaskSourceKey_eq_dec : EqDecision TaskSourceKey. Proof. solve_decision. Defined.
#[export] Instance TaskSourceKey_countable : Countable TaskSourceKey.
Proof.
  refine (inj_countable
    (λ k, [sk_root_identity k; sk_relative_path k; sk_file_device k; sk_file_inode k])
    (λ l, match l with
          | [a; b; c; d] => Some {| sk_root_identity := a; sk_relative_path := b; sk_file_device := c;
                                    sk_file_inode := d |}
          | _ => None
          end) _). by intros [].
Defined.
Record TaskTransition := { tt_event_index : Z; tt_timestamp : Z; tt_running : bool }.
Record TaskActivityEvidence := {
  te_complete : bool;
  te_transitions : gmap TaskSourceKey (list TaskTransition);
  te_source_observed_through : gmap TaskSourceKey Z;
  te_source_complete : gmap TaskSourceKey bool
}.

(** ** Spans of activity *)
Definition i64_saturating_mul (a b : Z) : Z := Z.max i64_min (Z.min i64_max (a * b)).
Definition run_step (s : list span * option Z) (event : TaskTransition) : list span * option Z :=
  let '(active, active_since) := s in
  if tt_running event then
    (active, Some (default (tt_timestamp event) active_since))
  else
    match active_since with
    | Some start => (active ++ [(start, tt_timestamp event)], None)
    | None => (active, None)
    end.
(** The spans in which one source ran. *)
Definition source_runs (observed_through : option Z) (events : list TaskTransition) : list span :=
  let '(active, active_since) := fold_left run_step events ([], None) in
  match active_since, observed_through with
  | Some start, Some end_ => if start <=? end_ then active ++ [(start, end_)] else active
  | _, _ => active
  end.
(** From a stop to the start that follows it. *)
Fixpoint idle_pairs (events : list TaskTransition) : list span :=
  match events with
  | a :: ((b :: _) as rest) =>
      if negb (tt_running a) && tt_running b then (tt_timestamp a, tt_timestamp b) :: idle_pairs rest
      else idle_pairs rest
  | _ => []
  end.
Definition transition_minutes (events : list TaskTransition) : list Z :=
  concat (map (λ event,
    let minute := i64_saturating_mul (tt_timestamp event / 60) 60 in
    [minute; i64_saturating_add minute 60]) events).
Definition observed_through (evidence : TaskActivityEvidence) (source : TaskSourceKey)
    (events : list TaskTransition) : option Z :=
  match te_source_observed_through evidence !! source with
  | Some t => Some t
  | None => tt_timestamp <$> last events
  end.
Definition merge_closed_intervals (intervals : list span) : list span :=
  merge_spans (sort_by span_leb intervals).

Record TaskActivityIntervals := {
  ta_active : list span;
  ta_verified_idle : list span;
  ta_verified_idle_prefix_end : list Z;
  ta_verified_idle_union : list span;
  ta_verified_transition_minutes : list Z
}.
Definition complete_source (evidence : TaskActivityEvidence) (source : TaskSourceKey) : bool :=
  bool_decide (te_source_complete evidence !! source = Some true).
(** The order of the sources does not matter: every list is sorted after the loop. *)
Definition from_evidence (evidence : TaskActivityEvidence) : TaskActivityIntervals :=
  let sources := map_to_list (te_transitions evidence) in
  let active := concat (map (λ '(source, events),
    source_runs (observed_through evidence source events) events) sources) in
  let complete := List.filter (λ '(source, _), complete_source evidence source) sources in
  let verified_idle := sort_by span_leb (concat (map (λ '(_, events), idle_pairs events) complete)) in
  let minutes := concat (map (λ '(_, events), transition_minutes events) complete) in
  {| ta_active := merge_closed_intervals active; ta_verified_idle := verified_idle;
     ta_verified_idle_prefix_end := farthest_ends i64_min verified_idle;
     ta_verified_idle_union := merge_closed_intervals verified_idle;
     ta_verified_transition_minutes := sort_by Z.leb (elements (list_to_set minutes : gset Z)) |}.

Definition clip_span (intervals : ReadIntervals) (range : span) : list span :=
  filter_map (λ interval,
    let interval_start := default i64_min (ri_start_at interval) in
    let interval_end := default i64_max (ri_end_at interval ≫= λ end_, i64_checked_sub end_ 1) in
    let start := Z.max range.1 interval_start in
    let end_ := Z.min range.2 interval_end in
    if start <=? end_ then Some (start, end_) else None) intervals.
Definition clip_closed_intervals (ranges : list span) (intervals : ReadIntervals) : list span :=
  merge_closed_intervals (concat (map (clip_span intervals) ranges)).
Definition from_evidence_for_intervals (evidence : TaskActivityEvidence) (intervals : ReadIntervals) :
    TaskActivityIntervals :=
  let activity := from_evidence evidence in
  if is_unbounded intervals then activity
  else
    let verified_idle := clip_closed_intervals (ta_verified_idle activity) intervals in
    {| ta_active := clip_closed_intervals (ta_active activity) intervals;
       ta_verified_idle := verified_idle;
       ta_verified_idle_prefix_end := farthest_ends i64_min verified_idle;
       ta_verified_idle_union := merge_closed_intervals verified_idle;
       ta_verified_transition_minutes :=
         List.filter (intersects_canonical_minute intervals) (ta_verified_transition_minutes activity) |}.

Definition task_interval_overlaps_verified_idle (activity : TaskActivityIntervals) (start end_ : Z) : bool :=
  (start <? end_)
  && last_passes (λ s : span, s.1 <? end_) (λ e, start <? e) (ta_verified_idle_union activity)
       (map snd (ta_verified_idle_union activity)).
Definition task_interval_is_verified_idle (activity : TaskActivityIntervals) (start end_ : Z) : bool :=
  if end_ <=? start then false
  else last_passes (λ s : span, s.1 <=? start) (λ e, end_ <=? e) (ta_verified_idle activity)
         (ta_verified_idle_prefix_end activity).
Definition task_active_in_interval (activity : TaskActivityIntervals) (start end_ : Z) : bool :=
  if end_ <? start then false
  else last_passes (λ s : span, s.1 <=? end_) (λ e, start <=? e) (ta_active activity)
         (map snd (ta_active activity)).

(** ** The flags of the rows *)
Definition RESET_AT_TOLERANCE_SECONDS : Z := 60.
(** [BTreeMap<(i64, i64), _>]: iteration is in the order of the keys. *)
Abbreviation history_map := (gmap (Z * Z) PublicHistoryObservationV3).
Definition keys_of (history : history_map) : list (Z * Z) :=
  sort_by span_leb (map fst (map_to_list history)).
Definition in_period (period : PublicHistoryPeriod) (key : Z * Z) : bool :=
  (Z.abs (key.1 - hp_reset_at period) <=? RESET_AT_TOLERANCE_SECONDS)
  && history_minute_in_period key.2 (hp_start_at period) (hp_end_at period).

(** The loop over [timestamp += 60]; the fuel is one more than the steps the distance allows. *)
Fixpoint cadence_from (fuel : nat) (timestamp right_ : Z) : list Z :=
  match fuel with
  | O => []
  | S fuel =>
      if timestamp <? right_ then timestamp :: cadence_from fuel (i64_saturating_add timestamp 60) right_
      else []
  end.
Definition full_cadence (left_ right_ : Z) : list Z :=
  cadence_from (S (Z.to_nat ((right_ - left_) / 60))) (i64_saturating_add left_ 60) right_.
(** [values[partition_point(<= left)..partition_point(< right)]] *)
Definition between (left_ right_ : Z) (values : list Z) : list Z :=
  let start := partition_point (λ t, t <=? left_) values in
  let end_ := partition_point (λ t, t <? right_) values in
  take (end_ - start) (drop start values).
Definition dedup_sorted (values : list Z) : list Z :=
  sort_by Z.leb (elements (list_to_set values : gset Z)).
Definition cadence (complete : bool) (activity : TaskActivityIntervals) (left_ right_ : Z) : list Z :=
  dedup_sorted
    (if complete || task_interval_overlaps_verified_idle activity left_ right_
     then full_cadence left_ right_
     else between left_ right_ (ta_verified_transition_minutes activity)).
Definition insert_missing (reset_at : Z) (history : history_map) (timestamp : Z) : history_map :=
  match history !! (reset_at, timestamp) with
  | Some _ => history
  | None => <[(reset_at, timestamp) := empty_point reset_at timestamp]> history
  end.
(** [timestamps.windows(2)] *)
Fixpoint windows {A} (l : list A) : list (A * A) :=
  match l with
  | a :: ((b :: _) as rest) => (a, b) :: windows rest
  | _ => []
  end.
Definition add_cadence (complete : bool) (activity : TaskActivityIntervals) (intervals : ReadIntervals)
    (period : PublicHistoryPeriod) (history : history_map) : history_map :=
  let timestamps := dedup_sorted (map snd (List.filter (in_period period) (keys_of history))) in
  fold_left (λ history '(left_, right_),
    if bool_decide (interval_containing intervals left_ = interval_containing intervals right_)
    then fold_left (insert_missing (hp_reset_at period)) (cadence complete activity left_ right_) history
    else history) (windows timestamps) history.

(** The seconds a row reports, after the row before it. *)
Definition row_interval (intervals : ReadIntervals) (period : PublicHistoryPeriod)
    (previous_timestamp : option Z) (timestamp : Z) : Z * Z :=
  let current_interval := interval_containing intervals timestamp in
  let same_interval := is_some_and (λ previous,
    bool_decide (interval_containing intervals previous = current_interval)) previous_timestamp in
  let interval_start :=
    if same_interval then i64_saturating_add (default (hp_start_at period) previous_timestamp) 60
    else default (hp_start_at period) (current_interval ≫= ri_start_at) in
  let interval_end := Z.min (i64_saturating_add timestamp 59) (hp_end_at period) in
  (Z.min interval_start interval_end, interval_end).
Definition row_flag (complete : bool) (activity : TaskActivityIntervals) (interval : Z * Z) : option bool :=
  let active := task_active_in_interval activity interval.1 interval.2 in
  let verified_idle := negb active && task_interval_is_verified_idle activity interval.1 interval.2 in
  if complete || verified_idle then Some active else then_some active true.
Definition assign_row (complete : bool) (activity : TaskActivityIntervals) (intervals : ReadIntervals)
    (period : PublicHistoryPeriod) (s : history_map * option Z) (key : Z * Z) : history_map * option Z :=
  let '(history, previous_timestamp) := s in
  (alter (with_activity (row_flag complete activity (row_interval intervals period previous_timestamp key.2)))
     key history, Some key.2).
Definition assign_period (complete : bool) (activity : TaskActivityIntervals) (intervals : ReadIntervals)
    (history : history_map) (period : PublicHistoryPeriod) : history_map :=
  let keys := sort_by (λ a b, a.2 <=? b.2) (List.filter (in_period period) (keys_of history)) in
  (fold_left (assign_row complete activity intervals period) keys (history, None)).1.
Definition assign_task_activity_for_intervals (history : history_map) (periods : list PublicHistoryPeriod)
    (evidence : TaskActivityEvidence) (intervals : ReadIntervals) : history_map :=
  let activity := from_evidence_for_intervals evidence intervals in
  let history := fold_left (λ history period,
    add_cadence (te_complete evidence) activity intervals period history) periods history in
  let history := with_activity None <$> history in
  fold_left (assign_period (te_complete evidence) activity intervals) periods history.
