(* ===== verification/TaskSpans.v ===== *)
(** * When tasks ran, and when they were verified idle

    Relates the lookups of TaskActivity.v, which search merged and clipped spans, to the
    recorded transitions of the sources. *)

From S2P Require Import Prelude Text Float64 Contract Details Spans ReadIntervals PendingUsage TaskActivity.

(** ** What the transitions say *)
(** Transitions in the order of their times, as they are read. *)
Definition timed_events (events : list TaskTransition) : Prop :=
  StronglySorted (λ a b, tt_timestamp a ≤ tt_timestamp b) events.
Definition next_stop (events : list TaskTransition) : option TaskTransition :=
  List.find (λ e, negb (tt_running e)) events.
(** A run lasts until the next stop, else as far as the source was observed. *)
Definition lasts_until (observed : option Z) (events : list TaskTransition) (x : Z) : Prop :=
  match next_stop events with
  | Some stop => x ≤ tt_timestamp stop
  | None => ∃ o, observed = Some o ∧ x ≤ o
  end.
Definition runs_at (observed : option Z) (events : list TaskTransition) (x : Z) : Prop :=
  ∃ l1 e l2, events = l1 ++ e :: l2 ∧ tt_running e = true ∧ tt_timestamp e ≤ x ∧ lasts_until observed l2 x.
(** Both ends of a span are part of it. *)
Definition during (x : Z) (s : span) : Prop := s.1 ≤ x ≤ s.2.

Lemma runs_at_nil observed x : ¬ runs_at observed [] x.
Proof. by intros ([|] & ? & ? & ? & _). Qed.
Lemma runs_at_cons observed e events x :
  runs_at observed (e :: events) x
  ↔ (tt_running e = true ∧ tt_timestamp e ≤ x ∧ lasts_until observed events x) ∨ runs_at observed events x.
Proof.
  split.
  - intros ([|e' l1] & e0 & l2 & [= -> ->] & H); [by left|right; by exists l1, e0, l2].
  - intros [H|(l1 & e0 & l2 & -> & H)]; [by exists [], e, events|by exists (e :: l1), e0, l2].
Qed.

(** The loop of [from_evidence], as a recursion on the transitions. *)
Fixpoint runs_from (observed active_since : option Z) (events : list TaskTransition) : list span :=
  match events with
  | [] =>
      match active_since, observed with
      | Some start, Some end_ => if start <=? end_ then [(start, end_)] else []
      | _, _ => []
      end
  | e :: rest =>
      if tt_running e then runs_from observed (Some (default (tt_timestamp e) active_since)) rest
      else match active_since with
           | Some start => (start, tt_timestamp e) :: runs_from observed None rest
           | None => runs_from observed None rest
           end
  end.
Lemma source_runs_from observed events : source_runs observed events = runs_from observed None events.
Proof.
  assert (∀ active since,
    (let '(active, active_since) := fold_left run_step events (active, since) in
     match active_since, observed with
     | Some start, Some end_ => if start <=? end_ then active ++ [(start, end_)] else active
     | _, _ => active
     end) = active ++ runs_from observed since events) as H; [|apply H].
  induction events as [|e events IH]; intros active since; simpl.
  - destruct since, observed; try (destruct (_ <=? _)); by rewrite ?app_nil_r.
  - destruct (tt_running e); simpl; [apply IH|]. destruct since as [s|]; [|apply IH].
    rewrite IH. by rewrite <-(assoc_L (++)).
Qed.
Lemma runs_from_exact observed events since x :
  timed_events events → (∀ s, since = Some s → ∀ e, e ∈ events → s ≤ tt_timestamp e) →
  covered during x (runs_from observed since events)
  ↔ (∃ s, since = Some s ∧ s ≤ x ∧ lasts_until observed events x) ∨ runs_at observed events x.
Proof.
  intros Hs. revert since. induction Hs as [|e events _ IH He]; intros since Hsince; simpl.
  { unfold lasts_until. simpl. split.
    - intros (s & Hs & Hx). unfold during in Hx. left. destruct since as [s0|]; [|by apply elem_of_nil in Hs].
      destruct observed as [o|]; [|by apply elem_of_nil in Hs].
      destruct (Z.leb_spec s0 o); [|by apply elem_of_nil in Hs].
      apply list_elem_of_singleton in Hs as ->. simpl in Hx. exists s0. split_and!; [done|lia|]. exists o. split; [done|lia].
    - intros [(s & -> & ? & o & -> & ?)|H]; [|by apply runs_at_nil in H].
      destruct (Z.leb_spec s o); [|lia]. apply covered_one. done. }
  rewrite Forall_forall in He. rewrite runs_at_cons.
  destruct (tt_running e) eqn:Er.
  - rewrite IH; cycle 1.
    { intros s [= <-] e' He'. destruct since as [s|]; simpl; [|by apply He].
      apply (Hsince s eq_refl). by apply list_elem_of_further. }
    assert (lasts_until observed (e :: events) x ↔ lasts_until observed events x) as Hlast
      by (unfold lasts_until, next_stop; simpl; by rewrite Er).
    setoid_rewrite Hlast. destruct since as [s|]; simpl; [|naive_solver].
    specialize (Hsince s eq_refl e (list_elem_of_here _ _)). split.
    + intros [(s' & [= <-] & ? & ?)|?]; [left; by exists s|by right; right].
    + intros [(s' & [= <-] & ? & ?)|[(_ & ? & ?)|?]]; [left; by exists s| |by right].
      left. exists s. split_and!; [done|lia|done].
  - assert (lasts_until observed (e :: events) x ↔ x ≤ tt_timestamp e) as Hlast
      by (unfold lasts_until, next_stop; simpl; by rewrite Er).
    setoid_rewrite Hlast. specialize (IH None ltac:(done)). destruct since as [s|].
    + rewrite covered_cons, IH. unfold during. simpl. naive_solver.
    + rewrite IH. naive_solver.
Qed.
(** The spans of a source hold exactly the seconds in which it ran. *)
Lemma source_runs_exact observed events x :
  timed_events events → covered during x (source_runs observed events) ↔ runs_at observed events x.
Proof. intros Hs. rewrite source_runs_from, runs_from_exact by done. naive_solver. Qed.
Lemma runs_from_valid observed events since :
  timed_events events → (∀ s, since = Some s → ∀ e, e ∈ events → s ≤ tt_timestamp e) →
  ∀ s : span, s ∈ runs_from observed since events → s.1 ≤ s.2.
Proof.
  intros Hs. revert since. induction Hs as [|e events _ IH He]; intros since Hsince s; simpl.
  { destruct since as [s0|], observed as [o|]; try (by intros ?%elem_of_nil).
    destruct (Z.leb_spec s0 o); [by intros ->%list_elem_of_singleton|by intros ?%elem_of_nil]. }
  rewrite Forall_forall in He. destruct (tt_running e).
  - apply IH. intros s' [= <-] e' He'. destruct since as [s0|]; simpl; [|by apply He].
    apply (Hsince s0 eq_refl). by apply list_elem_of_further.
  - destruct since as [s0|]; [|by apply IH]. intros [->|Hin]%elem_of_cons; [|by apply (IH None)].
    simpl. apply (Hsince s0 eq_refl), list_elem_of_here.
Qed.
Lemma source_runs_valid observed events (s : span) :
  timed_events events → s ∈ source_runs observed events → s.1 ≤ s.2.
Proof. intros Hs. rewrite source_runs_from. by apply runs_from_valid. Qed.

Lemma idle_pairs_split events (s : span) :
  s ∈ idle_pairs events ↔
  ∃ l1 a b l2, events = l1 ++ a :: b :: l2 ∧ tt_running a = false ∧ tt_running b = true
    ∧ s = (tt_timestamp a, tt_timestamp b).
Proof.
  induction events as [|a events IH]; simpl.
  { split; [by intros ?%elem_of_nil|by intros ([|] & ? & ? & ? & ? & _)]. }
  destruct events as [|b events].
  { split; [by intros ?%elem_of_nil|by intros ([|? [|]] & ? & ? & ? & ? & _)]. }
  assert ((∃ l1 a0 b0 l2, a :: b :: events = l1 ++ a0 :: b0 :: l2 ∧ tt_running a0 = false
      ∧ tt_running b0 = true ∧ s = (tt_timestamp a0, tt_timestamp b0))
    ↔ (tt_running a = false ∧ tt_running b = true ∧ s = (tt_timestamp a, tt_timestamp b))
      ∨ s ∈ idle_pairs (b :: events)) as ->.
  { rewrite IH. split.
    - intros ([|x l1] & a0 & b0 & l2 & E & H); simpl in E.
      + injection E as -> -> ->. by left.
      + injection E as -> E. right. by exists l1, a0, b0, l2.
    - intros [H|(l1 & a0 & b0 & l2 & E & H)]; [by exists [], a, b, events|].
      exists (a :: l1), a0, b0, l2. by rewrite E. }
  destruct (tt_running a), (tt_running b); simpl; rewrite ?elem_of_cons; naive_solver.
Qed.
Lemma idle_pairs_valid events (s : span) : timed_events events → s ∈ idle_pairs events → s.1 ≤ s.2.
Proof.
  intros Hs (l1 & a & b & l2 & -> & _ & _ & ->)%idle_pairs_split. simpl.
  apply StronglySorted_app_1_r in Hs. apply StronglySorted_inv in Hs as [_ [Hab _]%Forall_cons]. done.
Qed.

(** ** Activity *)
Definition well_timed (evidence : TaskActivityEvidence) : Prop :=
  ∀ source events, te_transitions evidence !! source = Some events → timed_events events.
(** Some source ran at a second. *)
Definition some_task_runs (evidence : TaskActivityEvidence) (x : Z) : Prop :=
  ∃ source events, te_transitions evidence !! source = Some events
    ∧ runs_at (observed_through evidence source events) events x.
(** Seconds as [i64], and the times at which a partition owns them. *)
Definition owned (intervals : ReadIntervals) (x : Z) : Prop := contains intervals x = true.
Definition valid_intervals (intervals : ReadIntervals) : Prop :=
  Forall (λ i, invalid_bounds i = false) intervals.

Lemma during_join x (l s : span) :
  l.1 ≤ s.1 ≤ l.2 → during x (l.1, Z.max l.2 s.2) ↔ during x l ∨ during x s.
Proof. unfold during. simpl. lia. Qed.
Lemma merged_covered {X} (W : X → span → Prop) l x :
  (∀ x (l s : span), l.1 ≤ s.1 ≤ l.2 → W x (l.1, Z.max l.2 s.2) ↔ W x l ∨ W x s) →
  covered W x (merge_closed_intervals l) ↔ covered W x l.
Proof.
  intros Hjoin. unfold merge_closed_intervals.
  destruct (merge_spans_covered W Hjoin (sort_by span_leb l)) as [_ ->]; [apply sorted_by_start|].
  apply covered_perm. intros s. apply sort_by_elem.
Qed.
Lemma merged_apart l : StronglySorted apart (merge_closed_intervals l).
Proof. apply (merge_spans_covered during during_join), sorted_by_start. Qed.
Lemma merged_valid l :
  (∀ s : span, s ∈ l → s.1 ≤ s.2) → ∀ s : span, s ∈ merge_closed_intervals l → s.1 ≤ s.2.
Proof.
  intros Hv. apply merge_spans_valid; [apply sorted_by_start|]. intros s. rewrite sort_by_elem. apply Hv.
Qed.
(** The lookup in merged spans finds a common second. *)
Lemma active_lookup (spans : list span) start end_ :
  StronglySorted apart spans → (∀ s : span, s ∈ spans → s.1 ≤ s.2) → start ≤ end_ →
  last_passes (λ s : span, s.1 <=? end_) (λ e, start <=? e) spans (map snd spans) = true
  ↔ ∃ x, start ≤ x ≤ end_ ∧ covered during x spans.
Proof.
  intros Hs Hv Hle. rewrite merged_lookup; [|done|done|intros a b; rewrite !Z.leb_le; lia|intros a b; rewrite !Z.leb_le; lia].
  setoid_rewrite Z.leb_le. split.
  - intros (s & Hin & ? & ?). specialize (Hv s Hin). exists (Z.max start s.1).
    split; [lia|]. exists s. split; [done|]. unfold during. lia.
  - intros (x & ? & s & ? & Hx). exists s. unfold during in Hx. split_and!; (done || lia).
Qed.

Lemma elem_of_concat_map {A B} (f : A → list B) l b : b ∈ concat (map f l) ↔ ∃ a, a ∈ l ∧ b ∈ f a.
Proof.
  induction l as [|a l IH]; simpl.
  - split; [by intros ?%elem_of_nil|by intros (? & ?%elem_of_nil & _)].
  - rewrite elem_of_app, IH. setoid_rewrite elem_of_cons. naive_solver.
Qed.
Lemma covered_concat {A X} (W : X → span → Prop) (f : A → list span) l x :
  covered W x (concat (map f l)) ↔ ∃ a, a ∈ l ∧ covered W x (f a).
Proof. unfold covered. setoid_rewrite elem_of_concat_map. naive_solver. Qed.

(** One interval owned by the partition, clipped from a span: the same seconds. *)
Lemma clip_span_spec intervals (range s : span) :
  valid_intervals intervals →
  s ∈ clip_span intervals range ↔
  ∃ i, i ∈ intervals ∧ s = (Z.max range.1 (start_or_min i),
         Z.min range.2 (match ri_end_at i with Some e => e - 1 | None => i64_max end)) ∧ s.1 ≤ s.2.
Proof.
  intros Hb. unfold clip_span. rewrite elem_of_filter_map. unfold valid_intervals in Hb.
  rewrite Forall_forall in Hb.
  assert (∀ i, i ∈ intervals → default i64_max (ri_end_at i ≫= λ end_, i64_checked_sub end_ 1)
    = match ri_end_at i with Some e => e - 1 | None => i64_max end) as Hend.
  { intros i Hi. specialize (Hb i Hi). apply invalid_bounds_false in Hb as (_ & He & _).
    destruct (ri_end_at i) as [e|]; simpl; [|done]. specialize (He e eq_refl).
    unfold i64_checked_sub, in_range, i64_min, i64_max, MAX_PUBLIC_UNIX_SECONDS in *.
    destruct (Z.leb_spec (- 2 ^ 63) (e - 1)), (Z.leb_spec (e - 1) (2 ^ 63 - 1)); simpl; lia. }
  split.
  - intros (i & Hi & H). cbv zeta in H. rewrite Hend in H by done. fold (start_or_min i) in H.
    destruct (Z.leb_spec (Z.max range.1 (start_or_min i))
      (Z.min range.2 (match ri_end_at i with Some e => e - 1 | None => i64_max end))) as [Hle|]; [|done].
    injection H as <-. exists i. split_and!; done.
  - intros (i & Hi & -> & Hle). exists i. split; [done|]. cbv zeta. rewrite Hend by done.
    fold (start_or_min i). cbn [fst snd] in Hle. by rewrite (proj2 (Z.leb_le _ _) Hle).
Qed.
Lemma clip_covered intervals ranges x :
  valid_intervals intervals → is_i64 x →
  covered during x (concat (map (clip_span intervals) ranges)) ↔ covered during x ranges ∧ owned intervals x.
Proof.
  intros Hb Hx. rewrite covered_concat. unfold covered, owned. rewrite contains_iff.
  setoid_rewrite (clip_span_spec _ _ _ Hb). setoid_rewrite interval_contains_iff.
  unfold during, start_or_min, is_i64 in *. split.
  - intros (range & Hin & s & (i & Hi & -> & Hle) & Hd). simpl in *. split.
    + exists range. split; [done|lia].
    + exists i. split; [done|]. destruct (ri_start_at i), (ri_end_at i); simpl in *; split; intros ? [= <-]; lia.
  - intros ((range & Hin & Hd) & i & Hi & Hs & He). exists range. split; [done|].
    eexists. split; [exists i; split_and!; [done|reflexivity|]|]; simpl;
      destruct (ri_start_at i) as [s|], (ri_end_at i) as [e|]; simpl;
      try specialize (Hs _ eq_refl); try specialize (He _ eq_refl); lia.
Qed.
Lemma clip_valid intervals ranges (s : span) :
  valid_intervals intervals → s ∈ concat (map (clip_span intervals) ranges) → s.1 ≤ s.2.
Proof. by intros Hb (range & _ & (i & _ & _ & ?)%clip_span_spec)%elem_of_concat_map. Qed.

Section activity.
Context (evidence : TaskActivityEvidence) (intervals : ReadIntervals).
Context (Htimed : well_timed evidence) (Hvalid : valid_intervals intervals).
Let activity := from_evidence_for_intervals evidence intervals.

Lemma all_runs x :
  covered during x (ta_active (from_evidence evidence)) ↔ some_task_runs evidence x.
Proof.
  simpl. rewrite (merged_covered during) by apply during_join. rewrite covered_concat.
  unfold some_task_runs. split.
  - intros ([source events] & Hin%elem_of_map_to_list & Hc). exists source, events. split; [done|].
    by apply source_runs_exact in Hc; [|by apply (Htimed source)].
  - intros (source & events & Hin & Hr). exists (source, events). rewrite elem_of_map_to_list. split; [done|].
    by apply source_runs_exact; [by apply (Htimed source)|].
Qed.
Lemma all_runs_valid (s : span) : s ∈ ta_active (from_evidence evidence) → s.1 ≤ s.2.
Proof.
  apply merged_valid. clear s. intros s ([source events] & Hin%elem_of_map_to_list & Hs)%elem_of_concat_map.
  by apply (source_runs_valid _ _ _ (Htimed source events Hin) Hs).
Qed.
Lemma active_spans :
  StronglySorted apart (ta_active activity) ∧ (∀ s : span, s ∈ ta_active activity → s.1 ≤ s.2)
  ∧ ∀ x, is_i64 x → covered during x (ta_active activity) ↔ some_task_runs evidence x ∧ owned intervals x.
Proof.
  subst activity. unfold from_evidence_for_intervals. destruct (is_unbounded intervals) eqn:Eu.
  - split_and!; [apply merged_apart|apply all_runs_valid|]. intros x _. rewrite all_runs.
    unfold owned. rewrite unbounded_contains by done. tauto.
  - cbn [ta_active]. split_and!; [apply merged_apart| |].
    + apply merged_valid. intros s. by apply clip_valid.
    + intros x Hx. unfold clip_closed_intervals. rewrite (merged_covered during) by apply during_join.
      by rewrite clip_covered, all_runs.
Qed.
(** A span of seconds is active exactly when some source ran in an owned second of it. *)
Lemma active_exact start end_ :
  i64_min ≤ start → start ≤ end_ ≤ i64_max →
  task_active_in_interval activity start end_ = true
  ↔ ∃ x, start ≤ x ≤ end_ ∧ some_task_runs evidence x ∧ owned intervals x.
Proof.
  intros Hmin Hle. destruct active_spans as (Hs & Hv & Hc). unfold task_active_in_interval.
  rewrite (proj2 (Z.ltb_ge end_ start)) by lia. rewrite active_lookup by (done || lia).
  split; intros (x & Hx & H); exists x; (split; [done|]); by apply Hc; [unfold is_i64; lia|].
Qed.

(** *** Verified idle *)
(** A source whose records are all known stopped before a span and started after it,
    and one owned interval holds the span. *)
Definition idle_through (start end_ : Z) : Prop :=
  ∃ source events (s : span) i, te_transitions evidence !! source = Some events
  ∧ te_source_complete evidence !! source = Some true
  ∧ s ∈ idle_pairs events ∧ s.1 ≤ start ∧ end_ ≤ s.2
  ∧ i ∈ intervals ∧ interval_contains i start = true ∧ interval_contains i end_ = true.
Definition all_idle : list span := concat (map (λ '(_, events), idle_pairs events)
  (List.filter (λ '(source, _), complete_source evidence source) (map_to_list (te_transitions evidence)))).
Lemma elem_of_all_idle (s : span) :
  s ∈ all_idle ↔ ∃ source events, te_transitions evidence !! source = Some events
    ∧ te_source_complete evidence !! source = Some true ∧ s ∈ idle_pairs events.
Proof.
  unfold all_idle. rewrite elem_of_concat_map. split.
  - intros ([source events] & [Hin Hc]%elem_of_filter_bool & Hs). exists source, events.
    apply elem_of_map_to_list in Hin. by apply bool_decide_eq_true in Hc.
  - intros (source & events & Hin & Hc & Hs). exists (source, events). split; [|done].
    apply elem_of_filter_bool. rewrite elem_of_map_to_list. split; [done|]. by apply bool_decide_eq_true.
Qed.

Context (Hdisjoint : ∀ t, is_i64 t → (length (owners t intervals) ≤ 1)%nat).
(** Every transition lies within the horizon of its source. *)
Context (Hhorizon : ∀ source events e, te_transitions evidence !! source = Some events → e ∈ events →
  is_i64 (tt_timestamp e)
  ∧ ∃ o, observed_through evidence source events = Some o ∧ tt_timestamp e ≤ o).

Lemma one_owner i j t :
  is_i64 t → i ∈ intervals → j ∈ intervals → interval_contains i t = true → interval_contains j t = true → i = j.
Proof.
  intros Ht Hi Hj Hit Hjt. specialize (Hdisjoint t Ht).
  assert (i ∈ owners t intervals ∧ j ∈ owners t intervals) as [Hi' Hj']
    by (unfold owners; by rewrite !elem_of_filter_bool).
  destruct (owners t intervals) as [|k [|]]; [by apply elem_of_nil in Hi'| |simpl in Hdisjoint; lia].
  apply list_elem_of_singleton in Hi' as ->. by apply list_elem_of_singleton in Hj' as ->.
Qed.
(** A verified idle span ends in a start: the source runs there. *)
Lemma idle_end_runs (s : span) : s ∈ all_idle → some_task_runs evidence s.2 ∧ is_i64 s.1 ∧ is_i64 s.2.
Proof.
  intros (source & events & Hin & _ & (l1 & a & b & l2 & E & _ & Hb & ->)%idle_pairs_split)%elem_of_all_idle.
  assert (a ∈ events ∧ b ∈ events) as [Ha Hbin].
  { rewrite E, !elem_of_app, !elem_of_cons. naive_solver. }
  destruct (Hhorizon source events a Hin Ha) as [Hia _].
  destruct (Hhorizon source events b Hin Hbin) as (Hib & o & Ho & Hbo). split_and!; [|done..]. simpl.
  exists source, events. split; [done|]. exists (l1 ++ [a]), b, l2.
  split_and!; [by rewrite E, <-(assoc_L (++))|done|done|]. unfold lasts_until.
  destruct (next_stop l2) as [stop|] eqn:Es; [|by exists o].
  apply List.find_some in Es as [Hstop%list_elem_of_In _].
  specialize (Htimed source events Hin). rewrite E in Htimed. apply StronglySorted_app_1_r in Htimed.
  apply StronglySorted_inv in Htimed as [Hs _]. apply StronglySorted_inv in Hs as [_ Hs].
  rewrite Forall_forall in Hs. by apply Hs.
Qed.
Lemma idle_lookup (spans : list span) start end_ :
  by_start spans → (∀ s : span, s ∈ spans → i64_min ≤ s.2) →
  last_passes (λ s : span, s.1 <=? start) (λ e, end_ <=? e) spans (farthest_ends i64_min spans) = true
  ↔ ∃ s : span, s ∈ spans ∧ s.1 ≤ start ∧ end_ ≤ s.2.
Proof.
  intros Hs Hmin. rewrite farthest_lookup; [by setoid_rewrite Z.leb_le| | |done].
  - refine (StronglySorted_weaken _ _ _ _ Hs). intros a b ?. rewrite !Z.leb_le. lia.
  - intros a b ?. rewrite !Z.leb_le. lia.
Qed.
(** Clipped spans that cover a range lie in the interval that owns its start. *)
Lemma interval_not_cut start end_ i :
  i64_min ≤ start → i ∈ intervals → interval_contains i start = true →
  (∀ y, start ≤ y < end_ → ∃ s, s ∈ all_idle ∧ covered within y (clip_span intervals s)) →
  ∀ e, ri_end_at i = Some e → end_ < e.
Proof.
  intros Hmin Hi Histart Hall e E. destruct (decide (end_ < e)) as [|Hge]; [done|]. exfalso.
  pose proof (proj1 (Forall_forall _ _) Hvalid i Hi) as Hb.
  apply invalid_bounds_false in Hb as (_ & Hib & _). specialize (Hib e E). unfold MAX_PUBLIC_UNIX_SECONDS in Hib.
  apply interval_contains_iff in Histart as [Hst Hen]. specialize (Hen e E).
  destruct (Hall (e - 1) ltac:(lia)) as (s' & _ & c' & Hc' & Hw).
  apply (clip_span_spec _ _ _ Hvalid) in Hc' as (j & Hj & -> & _). unfold within in Hw. simpl in Hw.
  assert (is_i64 (e - 1)) as He1 by (unfold is_i64, i64_min, i64_max in *; lia).
  assert (interval_contains j (e - 1) = true) as Hjc.
  { apply interval_contains_iff. unfold start_or_min in Hw.
    destruct (ri_start_at j), (ri_end_at j); simpl in Hw; split; intros ? [= <-]; lia. }
  assert (interval_contains i (e - 1) = true) as Hic.
  { apply interval_contains_iff. split; [intros s'' Es; specialize (Hst s'' Es); lia|].
    intros e' E'. rewrite E in E'. injection E' as <-. lia. }
  rewrite (one_owner j i (e - 1) He1 Hj Hi Hjc Hic), E in Hw. lia.
Qed.
(** What clipping and merging leave, where no task runs. *)
Lemma clipped_idle start end_ :
  i64_min ≤ start → start < end_ → end_ ≤ i64_max →
  (∀ x, start ≤ x ≤ end_ → ¬ (some_task_runs evidence x ∧ owned intervals x)) →
  (∀ y, start ≤ y < end_ → covered within y (concat (map (clip_span intervals) all_idle))) ↔ idle_through start end_.
Proof.
  intros Hmin Hlt Hmax Hquiet. setoid_rewrite covered_concat. split.
  - intros Hall. destruct (Hall start ltac:(lia)) as (s & Hs & c & Hc & Hcs).
    apply (clip_span_spec _ _ _ Hvalid) in Hc as (i & Hi & -> & _). unfold within in Hcs. simpl in Hcs.
    destruct (idle_end_runs s Hs) as (Hrun & Hs1 & Hs2).
    assert (interval_contains i start = true) as Histart.
    { apply interval_contains_iff. unfold start_or_min in Hcs.
      destruct (ri_start_at i), (ri_end_at i); simpl in Hcs; split; intros ? [= <-]; lia. }
    pose proof (interval_not_cut start end_ i Hmin Hi Histart Hall) as Hend.
    assert (∀ x, start ≤ x ≤ end_ → interval_contains i x = true) as Hix.
    { intros x Hx. apply interval_contains_iff in Histart as [Hst _]. apply interval_contains_iff.
      split; [intros s' E; specialize (Hst s' E)|intros e E; specialize (Hend e E)]; lia. }
    destruct (decide (end_ ≤ s.2)) as [Hends|Hends].
    + apply elem_of_all_idle in Hs as (source & events & ? & ? & ?).
      exists source, events, s, i. split_and!; try done; try lia; apply Hix; lia.
    + exfalso. apply (Hquiet s.2); [lia|]. split; [done|]. unfold owned. apply contains_iff.
      exists i. split; [done|]. apply Hix. lia.
  - intros (source & events & s & i & Hin & Hc & Hs & Hs1 & Hs2 & Hi & Hi1 & Hi2) y Hy.
    exists s. split; [by apply elem_of_all_idle; exists source, events|].
    apply interval_contains_iff in Hi1 as [Hst _]. apply interval_contains_iff in Hi2 as [_ Hen].
    eexists. split; [apply (clip_span_spec _ _ _ Hvalid); exists i; split_and!; [done|reflexivity|]|];
      unfold within, start_or_min; simpl;
      destruct (ri_start_at i) as [a|], (ri_end_at i) as [b|]; simpl;
      try specialize (Hst _ eq_refl); try specialize (Hen _ eq_refl); lia.
Qed.

Lemma unbounded_idle start end_ :
  is_unbounded intervals = true →
  (∃ s : span, s ∈ all_idle ∧ s.1 ≤ start ∧ end_ ≤ s.2) ↔ idle_through start end_.
Proof.
  intros Hu. setoid_rewrite elem_of_all_idle. split.
  - intros (s & (source & events & ? & ? & ?) & ? & ?).
    assert (∃ i, i ∈ intervals ∧ ∀ x, interval_contains i x = true) as (i & Hi & Hix).
    { clear -Hu. unfold is_unbounded in Hu. destruct intervals as [|i [|]]; [done| |done].
      exists i. split; [apply list_elem_of_here|]. intros x. unfold interval_contains.
      by destruct (ri_start_at i), (ri_end_at i). }
    by exists source, events, s, i.
  - intros (source & events & s & i & ? & ? & ? & ? & ? & _). exists s. split_and!; [|done..].
    by exists source, events.
Qed.
(** Where no task runs, a span of seconds is verified idle exactly when one complete source
    was stopped throughout it, within one owned interval: clipping and merging the idle
    spans of several sources adds no verdict. *)
Lemma idle_exact start end_ :
  i64_min ≤ start → start < end_ → end_ ≤ i64_max →
  (∀ x, start ≤ x ≤ end_ → ¬ (some_task_runs evidence x ∧ owned intervals x)) →
  task_interval_is_verified_idle activity start end_ = true ↔ idle_through start end_.
Proof.
  intros Hmin Hlt Hmax Hquiet. unfold task_interval_is_verified_idle.
  rewrite (proj2 (Z.leb_gt end_ start)) by lia.
  subst activity. unfold from_evidence_for_intervals. destruct (is_unbounded intervals) eqn:Eu.
  - cbn [from_evidence ta_verified_idle ta_verified_idle_prefix_end]. fold all_idle.
    rewrite idle_lookup; [|apply sorted_by_start|].
    + setoid_rewrite sort_by_elem. by apply unbounded_idle.
    + intros s. rewrite sort_by_elem. intros Hs. destruct (idle_end_runs s Hs) as (_ & _ & ?). unfold is_i64 in *. lia.
  - cbn [ta_verified_idle ta_verified_idle_prefix_end from_evidence]. fold all_idle.
    unfold clip_closed_intervals.
    set (clipped := concat (map (clip_span intervals) (sort_by span_leb all_idle))).
    assert (∀ y, covered within y clipped ↔ covered within y (concat (map (clip_span intervals) all_idle))) as Hsame.
    { intros y. unfold clipped. rewrite !covered_concat. by setoid_rewrite sort_by_elem. }
    pose proof (merged_apart clipped) as Hap. rewrite idle_lookup; cycle 1.
    + refine (StronglySorted_weaken _ _ _ _ Hap). by intros a b [? _].
    + intros s Hs. assert (∀ s : span, s ∈ clipped → s.1 ≤ s.2) as Hv by (intros s'; by apply clip_valid).
      pose proof (merged_valid clipped Hv s Hs) as Hs12.
      assert (covered during s.1 clipped) as (c & Hc & Hd).
      { apply (merged_covered during); [apply during_join|]. exists s. split; [done|]. unfold during. lia. }
      apply elem_of_concat_map in Hc as (r & Hr & (i & Hi & -> & _)%clip_span_spec); [|done].
      unfold during, start_or_min in Hd. simpl in Hd.
      pose proof (proj1 (Forall_forall _ _) Hvalid i Hi) as Hb. apply invalid_bounds_false in Hb as (Hb & _ & _).
      destruct (ri_start_at i) as [a|]; simpl in Hd; [specialize (Hb a eq_refl); unfold i64_min in *; lia|lia].
    + rewrite (covered_within _ start end_ Hap Hlt).
      setoid_rewrite (merged_covered within clipped _ within_join). setoid_rewrite Hsame.
      by apply clipped_idle.
Qed.

(** The flag of a row that reports the seconds from [start] to [end_]. *)
Lemma row_flag_exact complete start end_ :
  i64_min ≤ start → start < end_ → end_ ≤ i64_max →
  let runs := ∃ x, start ≤ x ≤ end_ ∧ some_task_runs evidence x ∧ owned intervals x in
  (row_flag complete activity (start, end_) = Some true ↔ runs)
  ∧ (row_flag complete activity (start, end_) = Some false ↔
      ¬ runs ∧ (complete = true ∨ idle_through start end_)).
Proof.
  intros Hmin Hlt Hmax runs. unfold row_flag. cbn [fst snd].
  pose proof (active_exact start end_ Hmin ltac:(lia)) as Ha. fold runs in Ha. fold activity in Ha.
  destruct (task_active_in_interval activity start end_) eqn:Ea; simpl.
  - assert runs by tauto. rewrite orb_false_r. destruct complete; simpl; naive_solver.
  - assert (¬ runs) as Hno by (intros Hr; by apply Ha in Hr).
    pose proof (idle_exact start end_ Hmin Hlt Hmax) as Hi.
    rewrite <-Hi by (intros x Hx Hc; apply Hno; by exists x).
    destruct complete, (task_interval_is_verified_idle activity start end_); simpl; naive_solver.
Qed.
End activity.

(** ** Concrete activity: a task that ran twice *)
Definition example_source : TaskSourceKey := {|
  sk_root_identity := lit "r"; sk_relative_path := lit "a.jsonl"; sk_file_device := lit "1";
  sk_file_inode := lit "2" |}.
Definition example_events : list TaskTransition :=
  map (λ '(t, running), {| tt_event_index := 0; tt_timestamp := t; tt_running := running |})
    [(100, true); (200, false); (700, true); (750, false)].
Definition example_evidence : TaskActivityEvidence := {|
  te_complete := false; te_transitions := {[ example_source := example_events ]};
  te_source_observed_through := {[ example_source := 750 ]};
  te_source_complete := {[ example_source := true ]} |}.
Definition example_owned : ReadIntervals := [{| ri_start_at := Some 60; ri_end_at := Some 1000 |}].

Lemma example_events_of source events :
  te_transitions example_evidence !! source = Some events → source = example_source ∧ events = example_events.
Proof. simpl. by intros [-> <-]%lookup_singleton_Some. Qed.
Lemma example_well_timed : well_timed example_evidence.
Proof.
  intros source events [_ ->]%example_events_of. unfold timed_events, example_events. simpl.
  repeat constructor; simpl; lia.
Qed.
Lemma example_horizon source events e :
  te_transitions example_evidence !! source = Some events → e ∈ events →
  is_i64 (tt_timestamp e)
  ∧ ∃ o, observed_through example_evidence source events = Some o ∧ tt_timestamp e ≤ o.
Proof.
  intros [-> ->]%example_events_of He. unfold is_i64, i64_min, i64_max.
  assert (observed_through example_evidence example_source example_events = Some 750) as -> by by vm_compute.
  unfold example_events in He. simpl in He.
  repeat (apply elem_of_cons in He as [->|He]; [simpl; split; [lia|exists 750; split; [done|lia]]|]).
  by apply elem_of_nil in He.
Qed.
Lemma example_owned_valid : valid_intervals example_owned.
Proof. apply existsb_false_Forall. by vm_compute. Qed.
Lemma example_disjoint t : is_i64 t → (length (owners t example_owned) ≤ 1)%nat.
Proof. intros _. unfold owners, example_owned. simpl. destruct (interval_contains _ t); simpl; lia. Qed.
Lemma row_flag_exact_witness :
  let runs := ∃ x, 240 ≤ x ≤ 299 ∧ some_task_runs example_evidence x ∧ owned example_owned x in
  let activity := from_evidence_for_intervals example_evidence example_owned in
  (row_flag false activity (240, 299) = Some true ↔ runs)
  ∧ (row_flag false activity (240, 299) = Some false ↔
      ¬ runs ∧ (false = true ∨ idle_through example_evidence example_owned 240 299)).
Proof.
  apply (row_flag_exact example_evidence example_owned example_well_timed example_owned_valid
    example_disjoint example_horizon false 240 299); unfold i64_min, i64_max; lia.
Defined.
