(* ===== verification/TaskRows.v ===== *)
(** * The rows that carry activity

    What [assign_task_activity_for_intervals] of TaskActivity.v does to the rows of one
    period: it keeps every value of the rows it finds, adds rows that claim nothing, and
    flags each row from the seconds after the row before it. *)

From S2P Require Import Prelude Text Float64 Contract Details Spans ReadIntervals TaskActivity TaskSpans.

(** ** Cadence *)
Lemma elem_of_dedup x values : x ∈ dedup_sorted values ↔ x ∈ values.
Proof. unfold dedup_sorted. by rewrite sort_by_elem, elem_of_elements, elem_of_list_to_set. Qed.
Lemma dedup_strict values : StronglySorted Z.lt (dedup_sorted values).
Proof.
  unfold dedup_sorted. apply (sort_by_strict (λ t : Z, t)). rewrite map_id. apply NoDup_elements.
Qed.
Lemma cadence_from_spec fuel t r x :
  0 ≤ t → r ≤ MAX_PUBLIC_UNIX_SECONDS → r - t ≤ 60 * Z.of_nat fuel →
  x ∈ cadence_from fuel t r ↔ ∃ k : Z, 0 ≤ k ∧ x = t + 60 * k ∧ x < r.
Proof.
  revert t. induction fuel as [|fuel IH]; intros t Ht Hr Hf; cbn [cadence_from].
  { split; [by intros ?%elem_of_nil|]. intros (k & ? & -> & ?). lia. }
  destruct (Z.ltb_spec t r).
  - assert (i64_saturating_add t 60 = t + 60) as ->
      by (unfold i64_saturating_add, i64_min, i64_max, MAX_PUBLIC_UNIX_SECONDS in *; lia).
    rewrite elem_of_cons, IH by lia. split.
    + intros [->|(k & ? & -> & ?)]; [exists 0; lia|exists (k + 1); lia].
    + intros (k & ? & -> & ?). destruct (decide (k = 0)) as [->|]; [left; lia|right; exists (k - 1); lia].
  - split; [by intros ?%elem_of_nil|]. intros (k & ? & -> & ?). lia.
Qed.
(** Every full minute after the left row and before the right one: the fuel suffices. *)
Lemma full_cadence_spec l r x :
  0 ≤ l → r ≤ MAX_PUBLIC_UNIX_SECONDS → l ≤ r →
  x ∈ full_cadence l r ↔ ∃ k : Z, 1 ≤ k ∧ x = l + 60 * k ∧ x < r.
Proof.
  intros Hl Hr Hle. unfold full_cadence.
  assert (i64_saturating_add l 60 = l + 60) as ->
    by (unfold i64_saturating_add, i64_min, i64_max, MAX_PUBLIC_UNIX_SECONDS in *; lia).
  rewrite cadence_from_spec; [|lia|done|].
  - split; intros (k & ? & -> & ?); [exists (k + 1)|exists (k - 1)]; lia.
  - rewrite Nat2Z.inj_succ, Z2Nat.id by (apply Z.div_pos; lia).
    pose proof (Z.div_mod (r - l) 60 ltac:(lia)). pose proof (Z.mod_pos_bound (r - l) 60 ltac:(lia)). lia.
Qed.
Lemma between_spec l r values x : StronglySorted Z.lt values → x ∈ between l r values → l < x < r.
Proof.
  intros Hs [i Hi]%list_elem_of_lookup. unfold between in Hi. apply lookup_take_Some in Hi as [Hi Hlt].
  rewrite lookup_drop in Hi. set (start := partition_point _ values) in Hi, Hlt.
  assert (∀ p : Z → bool, (∀ a b, a < b → p b = true → p a = true) →
    (start + i < partition_point p values)%nat ↔ p x = true) as Hpp.
  { intros p Hp. apply (partition_point_lookup p values _ x); [|done].
    refine (StronglySorted_weaken _ _ _ _ Hs). intros a b. apply Hp. }
  pose proof (Hpp (λ t, t <=? l) ltac:(intros a b; rewrite !Z.leb_le; lia)) as Hl.
  pose proof (Hpp (λ t, t <? r) ltac:(intros a b; rewrite !Z.ltb_lt; lia)) as Hr.
  rewrite Z.leb_le in Hl. rewrite Z.ltb_lt in Hr. fold start in Hl. lia.
Qed.
Lemma from_evidence_minutes evidence intervals :
  StronglySorted Z.lt (ta_verified_transition_minutes (from_evidence_for_intervals evidence intervals)).
Proof.
  unfold from_evidence_for_intervals. destruct (is_unbounded intervals); simpl.
  - apply dedup_strict.
  - apply StronglySorted_filter_bool, dedup_strict.
Qed.
Lemma cadence_inside complete activity l r x :
  StronglySorted Z.lt (ta_verified_transition_minutes activity) →
  0 ≤ l → r ≤ MAX_PUBLIC_UNIX_SECONDS → l ≤ r → x ∈ cadence complete activity l r → l < x < r.
Proof.
  intros Hs Hl Hr Hle. unfold cadence. rewrite elem_of_dedup. destruct (complete || _).
  - rewrite full_cadence_spec by done. intros (k & ? & -> & ?). lia.
  - by apply between_spec.
Qed.

(** ** Adding rows *)
(** [h'] extends [h] with rows that claim nothing, at the keys of [new]. *)
Definition extends (reset_at : Z) (new : Z → Prop) (h h' : history_map) : Prop :=
  (∀ k row, h !! k = Some row → h' !! k = Some row)
  ∧ ∀ k row, h !! k = None → h' !! k = Some row →
      k.1 = reset_at ∧ new k.2 ∧ row = empty_point reset_at k.2.
Lemma extends_refl reset_at new h : extends reset_at new h h.
Proof. split; [done|]. intros k row E. by rewrite E. Qed.
Lemma extends_trans reset_at new h h' h'' :
  extends reset_at new h h' → extends reset_at new h' h'' → extends reset_at new h h''.
Proof.
  intros [H1 H2] [H3 H4]. split; [auto|]. intros k row Hn Hk.
  destruct (h' !! k) as [row'|] eqn:E; [|by apply H4]. rewrite (H3 k row' E) in Hk. injection Hk as <-. by apply H2.
Qed.
Lemma insert_missing_extends reset_at (new : Z → Prop) h t :
  new t → extends reset_at new h (insert_missing reset_at h t).
Proof.
  intros Ht. unfold insert_missing. destruct (h !! (reset_at, t)) as [row|] eqn:E; [apply extends_refl|].
  split.
  - intros k row Hk. rewrite lookup_insert_ne; [done|]. intros <-. congruence.
  - intros k row Hn. destruct (decide ((reset_at, t) = k)) as [<-|Hne].
    + rewrite lookup_insert_eq. by intros [= <-].
    + rewrite lookup_insert_ne by done. congruence.
Qed.
Lemma fold_extends {A} (reset_at : Z) (new : Z → Prop) (step : history_map → A → history_map)
    (l : list A) (h : history_map) :
  (∀ h a, a ∈ l → extends reset_at new h (step h a)) → extends reset_at new h (fold_left step l h).
Proof.
  revert h. induction l as [|a l IH]; intros h Hstep; simpl; [apply extends_refl|].
  eapply extends_trans; [apply Hstep, list_elem_of_here|]. apply IH. intros h' b Hb. apply Hstep.
  by apply list_elem_of_further.
Qed.
Lemma windows_split {A} (l : list A) a b : (a, b) ∈ windows l → ∃ l1 l2, l = l1 ++ a :: b :: l2.
Proof.
  induction l as [|x l IH]; simpl; [by intros ?%elem_of_nil|]. destruct l as [|y l]; [by intros ?%elem_of_nil|].
  intros [[= -> ->]|Hin]%elem_of_cons; [by exists [], l|]. destruct (IH Hin) as (l1 & l2 & E).
  exists (x :: l1), l2. by rewrite E.
Qed.
Lemma elem_of_keys_of (k : Z * Z) (h : history_map) : k ∈ keys_of h ↔ is_Some (h !! k).
Proof.
  unfold keys_of. rewrite sort_by_elem, list_elem_of_fmap. split.
  - intros ([k' row] & -> & Hin%elem_of_map_to_list). by exists row.
  - intros [row Hk]. exists (k, row). by rewrite elem_of_map_to_list.
Qed.
Lemma keys_of_NoDup (h : history_map) : NoDup (keys_of h).
Proof. unfold keys_of. rewrite (sort_by_perm _ _). apply NoDup_fst_map_to_list. Qed.

(** Rows at public times. *)
Definition public_rows (h : history_map) : Prop :=
  ∀ k, is_Some (h !! k) → 0 ≤ k.2 ≤ MAX_PUBLIC_UNIX_SECONDS.
(** A time strictly between two rows of a period that the same owned interval holds, or
    that no owned interval holds. *)
Definition between_rows (intervals : ReadIntervals) (period : PublicHistoryPeriod) (h : history_map) (t : Z) : Prop :=
  ∃ k1 k2, is_Some (h !! k1) ∧ is_Some (h !! k2) ∧ in_period period k1 = true ∧ in_period period k2 = true
  ∧ k1.2 < t < k2.2 ∧ interval_containing intervals k1.2 = interval_containing intervals k2.2.
Lemma add_cadence_extends complete activity intervals period h :
  StronglySorted Z.lt (ta_verified_transition_minutes activity) → public_rows h →
  extends (hp_reset_at period) (between_rows intervals period h) h
    (add_cadence complete activity intervals period h).
Proof.
  intros Hs Hpub. unfold add_cadence. set (ts := dedup_sorted _).
  assert (∀ t, t ∈ ts ↔ ∃ k, is_Some (h !! k) ∧ in_period period k = true ∧ k.2 = t) as Hts.
  { intros t. unfold ts. rewrite elem_of_dedup, list_elem_of_fmap. setoid_rewrite elem_of_filter_bool.
    setoid_rewrite elem_of_keys_of. naive_solver. }
  apply (fold_extends _ _ (λ history '(left_, right_), _)). intros h' [l r] Hw.
  destruct (bool_decide_reflect (interval_containing intervals l = interval_containing intervals r)) as [Hsame|];
    [|apply extends_refl].
  apply windows_split in Hw as (l1 & l2 & E).
  assert (l ∈ ts ∧ r ∈ ts) as [Hl Hr] by (rewrite E, !elem_of_app, !elem_of_cons; naive_solver).
  assert (l < r) as Hlr.
  { pose proof (dedup_strict (map snd (List.filter (in_period period) (keys_of h)))) as Hd. fold ts in Hd.
    rewrite E in Hd. apply StronglySorted_app_1_r in Hd. by apply StronglySorted_inv in Hd as [_ [? _]%Forall_cons]. }
  apply Hts in Hl as (k1 & Hk1 & Hp1 & <-). apply Hts in Hr as (k2 & Hk2 & Hp2 & <-).
  apply fold_extends. intros h'' t Ht. apply insert_missing_extends.
  exists k1, k2. split_and!; try done; apply (cadence_inside complete activity k1.2 k2.2 t) in Ht;
    (done || lia || by apply Hpub).
Qed.

(** ** Flags *)
Definition period_keys (h : history_map) (period : PublicHistoryPeriod) : list (Z * Z) :=
  sort_by (λ a b, a.2 <=? b.2) (List.filter (in_period period) (keys_of h)).
Lemma assign_rows complete activity intervals period keys h previous :
  NoDup keys →
  let h' := (fold_left (assign_row complete activity intervals period) keys (h, previous)).1 in
  (∀ k, k ∉ keys → h' !! k = h !! k)
  ∧ ∀ pre k post, keys = pre ++ k :: post →
      h' !! k = with_activity (row_flag complete activity (row_interval intervals period
        (match last pre with Some k0 => Some k0.2 | None => previous end) k.2)) <$> h !! k.
Proof.
  revert h previous. induction keys as [|k keys IH]; intros h previous Hn; cbn [fold_left].
  { split; [done|]. by intros [|]. }
  apply NoDup_cons in Hn as [Hnew Hn]. cbn [assign_row].
  set (f := row_flag complete activity (row_interval intervals period previous k.2)).
  destruct (IH (alter (with_activity f) k h) (Some k.2) Hn) as [Hother Hflag]. split.
  - intros k' [Hne Hk']%not_elem_of_cons. rewrite Hother by done. by rewrite lookup_alter_ne.
  - intros [|k0 pre] k' post [= <- E].
    + rewrite Hother by done. by rewrite lookup_alter_eq.
    + rewrite (Hflag pre k' post E). assert (k ≠ k') as Hne.
      { intros ->. apply Hnew. rewrite E, elem_of_app. right. apply list_elem_of_here. }
      rewrite lookup_alter_ne by done. f_equal. f_equal. destruct pre as [|k1 pre]; [done|].
      rewrite last_cons_cons.
      by destruct (last (k1 :: pre)) eqn:El; [|apply last_None in El].
Qed.
Lemma keys_of_ext (h h' : history_map) : (∀ k, is_Some (h !! k) ↔ is_Some (h' !! k)) → keys_of h = keys_of h'.
Proof.
  intros Hsame. assert (∀ h : history_map, StronglySorted (λ a b, span_leb a b = true) (keys_of h)) as Hs.
  { intros h0. apply sort_by_sorted; intros ?; intros; rewrite ?span_leb_iff in *; lia. }
  apply (StronglySorted_unique_strong (λ a b, span_leb a b = true)); [|apply Hs..|].
  - intros [a b] [c d] _ _. rewrite !span_leb_iff. simpl. intros ? ?. f_equal; lia.
  - apply NoDup_Permutation; [apply keys_of_NoDup..|]. intros k. by rewrite !elem_of_keys_of.
Qed.
Lemma period_keys_ext (h h' : history_map) period :
  (∀ k, is_Some (h !! k) ↔ is_Some (h' !! k)) → period_keys h period = period_keys h' period.
Proof. intros Hsame. unfold period_keys. by rewrite (keys_of_ext h h' Hsame). Qed.
Lemma period_keys_NoDup (h : history_map) period : NoDup (period_keys h period).
Proof.
  unfold period_keys. rewrite (sort_by_perm _ _). rewrite <-(map_id (List.filter _ _)).
  apply filter_NoDup_map. rewrite map_id. apply keys_of_NoDup.
Qed.
Lemma elem_of_period_keys (h : history_map) period k :
  k ∈ period_keys h period ↔ is_Some (h !! k) ∧ in_period period k = true.
Proof. unfold period_keys. by rewrite sort_by_elem, elem_of_filter_bool, elem_of_keys_of. Qed.


(** *** Concrete rows: three before the cadence is added *)
Definition example_period : PublicHistoryPeriod := {|
  hp_id := lit "2000"; hp_start_at := 60; hp_end_at := 1000; hp_reset_at := 2000; hp_label := [];
  hp_current := true |}.
Definition example_rows : history_map :=
  list_to_map (map (λ t, ((2000, t), empty_point 2000 t)) [120; 240; 720]).
Example example_flags :
  map (λ k, (k.2, (assign_task_activity_for_intervals example_rows [example_period] example_evidence
                     example_owned !! k) ≫= o3_task_active_since_previous))
    (keys_of (assign_task_activity_for_intervals example_rows [example_period] example_evidence
                example_owned))
  = [(120, Some true); (180, Some true); (240, Some false); (300, Some false); (360, Some false);
     (420, Some false); (480, Some false); (540, Some false); (600, Some false); (660, Some true);
     (720, Some true)].
Proof. by vm_compute. Qed.
Lemma example_public : public_rows example_rows.
Proof.
  intros k [row Hk]. apply elem_of_list_to_map_2 in Hk. unfold MAX_PUBLIC_UNIX_SECONDS. simpl in Hk.
  repeat (apply elem_of_cons in Hk as [[= -> _]|Hk]; [simpl; lia|]). by apply elem_of_nil in Hk.
Qed.
