(* ===== verification/SqlRow.v ===== *)
(** * Columns of a query result

    The helpers of [crates/codex-info-db-reader/src/lib.rs] that read a column of a row
    ([sql_text], [sql_i64], [task_hex_text], ...). A row is the list of its values; a value
    is one of SQLite's storage classes, the bytes of a text not yet known to be UTF-8. The
    blob and real classes only appear to be rejected here. *)

From S2P Require Import Prelude Text Float64 Contract TokenFacts RecordedUsage SourceAdmission Recordings.

Inductive ValueRef :=
| SqlNull
| SqlInteger (value : Z)
| SqlReal (value : f64)
| SqlText (bytes : list Z)
| SqlBlob (bytes : list Z).
Abbreviation Row := (list ValueRef).

(** [i64::to_string] and [str::parse::<i64>]. *)
Definition i64_to_string (value : Z) : text := if value <? 0 then 45 :: to_dec (- value) else to_dec value.
Definition parse_i64 (s : text) : option Z :=
  match s with
  | 45 :: [] => None
  | 45 :: digits => Z.opp <$> parse_digits (i64_max + 1) 0 digits
  | _ => parse_unsigned i64_max s
  end.

Definition sql_text (row : Row) (index : nat) : option text :=
  match row !! index with
  | Some (SqlText bytes) => from_utf8 bytes
  | Some (SqlInteger value) => Some (i64_to_string value)
  | _ => None
  end.
Definition sql_text_option (row : Row) (index : nat) : option (option text) :=
  match row !! index with
  | Some SqlNull => Some None
  | Some (SqlText bytes) => Some <$> from_utf8 bytes
  | Some (SqlInteger value) => Some (Some (i64_to_string value))
  | _ => None
  end.
Definition canonical_timeline_u64 (value : text) : option Z :=
  parsed ← parse_unsigned u64_max value;
  then_some (text_eqb (to_dec parsed) value) parsed.
Definition sql_optional_token (row : Row) (index : nat) : option (option Z) :=
  value ← sql_text_option row index;
  match value with
  | None => Some None
  | Some value => Some <$> canonical_timeline_u64 value
  end.
Definition sql_i64 (row : Row) (index : nat) : option Z :=
  match row !! index with
  | Some (SqlInteger value) => Some value
  | Some (SqlText bytes) => from_utf8 bytes ≫= parse_i64
  | _ => None
  end.
(** [row.get::<_, i64>(index)?]: the conversion accepts the integer class only. *)
Definition get_i64 (row : Row) (index : nat) : result ReaderError Z :=
  match row !! index with
  | Some (SqlInteger value) => Ok value
  | _ => Err ReaderSqlite
  end.

(** ** Columns of the task tables *)
Definition valid_lower_hex (value : text) (length : Z) : bool :=
  (str_len value =? length) && forallb is_lower_hex value.
Definition field_invalid (prefix field : string) : ReaderError := InvalidValue (lit prefix ++ lit field).
Definition task_hex_text (row : Row) (index : nat) (length : Z) (field : string) : result ReaderError text :=
  ok_or (opt_filter (λ value, valid_lower_hex value length) (sql_text row index))
    (field_invalid "invalid task " field).
Definition task_decimal_text (row : Row) (index : nat) (field : string) : result ReaderError text :=
  ok_or (opt_filter (λ value, opt_is_some (canonical_timeline_u64 value)) (sql_text row index))
    (field_invalid "invalid task " field).
Definition task_non_negative_u64 (row : Row) (index : nat) (field : string) : result ReaderError Z :=
  value ← get_i64 row index;
  ok_or (u64_try_from value) (field_invalid "negative task " field).
Definition task_positive_u64 (row : Row) (index : nat) (field : string) : result ReaderError Z :=
  value ← task_non_negative_u64 row index field;
  ok_or (then_some (0 <? value) value) (field_invalid "zero task " field).

(** ** What the readers accept *)
Lemma canonical_timeline_u64_Some value n :
  canonical_timeline_u64 value = Some n ↔ is_u64 n ∧ value = to_dec n.
Proof.
  unfold canonical_timeline_u64. split.
  - intros (p & Hp & H)%bind_Some. unfold then_some in H. destruct (text_eqb (to_dec p) value) eqn:E; [|done].
    injection H as <-. apply bool_decide_eq_true in E. split; [|done].
    by apply parse_unsigned_range in Hp.
  - intros [Hn ->]. unfold is_u64 in Hn. rewrite parse_to_dec by lia. simpl.
    unfold then_some, text_eqb. by rewrite bool_decide_eq_true_2.
Qed.
Lemma get_i64_Ok row index n : get_i64 row index = Ok n ↔ row !! index = Some (SqlInteger n).
Proof. unfold get_i64. destruct (row !! index) as [[]|]; naive_solver. Qed.
Lemma task_non_negative_u64_Ok row index field n :
  task_non_negative_u64 row index field = Ok n ↔ row !! index = Some (SqlInteger n) ∧ is_u64 n.
Proof.
  unfold task_non_negative_u64. rewrite bind_Ok. setoid_rewrite get_i64_Ok.
  setoid_rewrite ok_or_Ok. setoid_rewrite u64_try_from_Some. naive_solver.
Qed.
Lemma task_positive_u64_Ok row index field n :
  task_positive_u64 row index field = Ok n ↔ row !! index = Some (SqlInteger n) ∧ 0 < n ≤ u64_max.
Proof.
  unfold task_positive_u64, is_u64. rewrite bind_Ok. setoid_rewrite task_non_negative_u64_Ok.
  setoid_rewrite ok_or_Ok. unfold then_some, is_u64. split.
  - intros (v & [? ?] & Hv). destruct (0 <? v) eqn:E; [|done]. injection Hv as ->. split; [done|lia].
  - intros [? ?]. exists n. replace (0 <? n) with true by lia. split_and!; [done|lia|lia|done].
Qed.
