(* ===== verification/TaskEvidence.v ===== *)
(** * Reading the evidence of task activity

    Models [read_task_activity_evidence] of [crates/codex-info-db-reader/src/lib.rs]: what
    the task tables prove about when tasks ran, and whether that is all there is to
    know ([te_complete]). A table is the list of the rows its query returns, in any order;
    [None] for a table that does not exist. The map of the indexed ranges from sources to
    prefixes is keyed by the pair. *)

From S2P Require Import Prelude Text Float64 Contract SourceAdmission Accounts Recordings Spans ReadIntervals TaskActivity SqlRow.

Record TaskRangeKey := {
  rk_source : TaskSourceKey;
  rk_prefix_generation : text;
  rk_start_offset : Z;
  rk_end_offset : Z;
  rk_record_sha256 : text
}.
#[export] Instance TaskRangeKey_eq_dec : EqDecision TaskRangeKey. Proof. solve_decision. Defined.
#[export] Instance TaskRangeKey_countable : Countable TaskRangeKey.
Proof.
  refine (inj_countable
    (λ k, let s := rk_source k in
          [sk_root_identity s; sk_relative_path s; sk_file_device s; sk_file_inode s;
           rk_prefix_generation k; [rk_start_offset k; rk_end_offset k]; rk_record_sha256 k])
    (λ l, match l with
          | [a; b; c; d; prefix; [start; end_]; sha] => Some
              {| rk_source := {| sk_root_identity := a; sk_relative_path := b; sk_file_device := c; sk_file_inode := d |};
                 rk_prefix_generation := prefix; rk_start_offset := start; rk_end_offset := end_;
                 rk_record_sha256 := sha |}
          | _ => None
          end) _). by intros [[] ????].
Defined.

(** ** Rows *)
Definition task_source_from_row (row : Row) (root path device inode : nat) : result ReaderError TaskSourceKey :=
  root_identity ← ok_or (opt_filter (λ value, negb (bool_decide (value = [])) && (str_len value <=? 256) && is_ascii value)
                    (sql_text row root)) (reader_invalid "invalid task root_identity");
  relative_path ← ok_or (sql_text row path) (reader_invalid "task source relative_path is missing");
  reject reader_invalid "task source relative_path is invalid" when
    bool_decide (relative_path = []) || (4096 <? str_len relative_path)
    || negb (is_relative_normal relative_path);
  file_device ← task_decimal_text row device "file_device";
  file_inode ← task_decimal_text row inode "file_inode";
  Ok {| sk_root_identity := root_identity; sk_relative_path := relative_path;
        sk_file_device := file_device; sk_file_inode := file_inode |}.
Definition task_range_from_row (row : Row) : result ReaderError TaskRangeKey :=
  source ← task_source_from_row row 0 1 2 3;
  start_offset ← task_non_negative_u64 row 5 "start_offset";
  end_offset ← task_positive_u64 row 6 "end_offset";
  reject reader_invalid "task range end does not follow start" when end_offset <=? start_offset;
  prefix_generation ← task_hex_text row 4 32 "prefix_generation";
  record_sha256 ← task_hex_text row 7 64 "record_sha256";
  Ok {| rk_source := source; rk_prefix_generation := prefix_generation; rk_start_offset := start_offset;
        rk_end_offset := end_offset; rk_record_sha256 := record_sha256 |}.

(** ** Byte coverage *)
Record IndexedByteCoverage := { bc_spans : list span; bc_farthest_ends : list Z }.
Definition IndexedByteCoverage_default : IndexedByteCoverage := {| bc_spans := []; bc_farthest_ends := [] |}.
Definition push_span (s : span) (self : IndexedByteCoverage) : IndexedByteCoverage := {|
  bc_spans := bc_spans self ++ [s]; bc_farthest_ends := bc_farthest_ends self |}.
Definition finish (self : IndexedByteCoverage) : IndexedByteCoverage :=
  let spans := sort_by span_leb (bc_spans self) in
  {| bc_spans := spans; bc_farthest_ends := farthest_ends 0 spans |}.
Definition covers (self : IndexedByteCoverage) (start end_ : Z) : bool :=
  if end_ <=? start then false
  else last_passes (λ s : span, s.1 <=? start) (λ e, end_ <=? e) (bc_spans self) (bc_farthest_ends self).

(** ** The tables *)
Record TaskTables := {
  tb_indexed : option (list Row);
  tb_persisted : option (list Row);
  tb_checkpoints : option (list Row);
  tb_pending : option (list Row);
  tb_events : option (list Row);
  tb_session_events : option (list Row)
}.
(** What the passes over the tables find: completeness, overall and of each source. *)
Record Coverage := { cv_complete : bool; cv_sources : gmap TaskSourceKey bool }.
(** [entry(source).or_insert(true)] *)
Definition see_source (source : TaskSourceKey) (self : Coverage) : Coverage := {|
  cv_complete := cv_complete self;
  cv_sources := match cv_sources self !! source with
                | Some _ => cv_sources self
                | None => <[source := true]> (cv_sources self)
                end |}.
(** [complete = false; source_complete.insert(source, false)] *)
Definition incomplete_source (source : TaskSourceKey) (self : Coverage) : Coverage := {|
  cv_complete := false; cv_sources := <[source := false]> (cv_sources self) |}.

Record Indexed := {
  ix_ranges : gset TaskRangeKey;
  ix_spans : gmap (TaskSourceKey * text) IndexedByteCoverage;
  ix_coverage : Coverage
}.
Definition indexed_row (s : Indexed) (row : Row) : result ReaderError Indexed :=
  range ← task_range_from_row row;
  reject reader_invalid "duplicate indexed task range" when bool_decide (range ∈ ix_ranges s);
  let key := (rk_source range, rk_prefix_generation range) in
  let span := (rk_start_offset range, rk_end_offset range) in
  Ok {| ix_ranges := {[range]} ∪ ix_ranges s;
        ix_spans := <[key := push_span span (default IndexedByteCoverage_default (ix_spans s !! key))]> (ix_spans s);
        ix_coverage := see_source (rk_source range) (ix_coverage s) |}.
Definition read_indexed (rows : list Row) : result ReaderError Indexed :=
  s ← fold_result indexed_row {| ix_ranges := ∅; ix_spans := ∅;
        ix_coverage := {| cv_complete := true; cv_sources := ∅ |} |} rows;
  Ok {| ix_ranges := ix_ranges s; ix_spans := finish <$> ix_spans s; ix_coverage := ix_coverage s |}.

Definition persisted_row (spans : gmap (TaskSourceKey * text) IndexedByteCoverage)
    (s : gset TaskRangeKey * Coverage) (row : Row) : result ReaderError (gset TaskRangeKey * Coverage) :=
  let '(persisted_ranges, coverage) := s in
  range ← task_range_from_row row;
  reject reader_invalid "duplicate persisted session range" when bool_decide (range ∈ persisted_ranges);
  let covered := is_some_and (λ spans, covers spans (rk_start_offset range) (rk_end_offset range))
                   (spans !! (rk_source range, rk_prefix_generation range)) in
  Ok ({[range]} ∪ persisted_ranges,
      if negb covered then incomplete_source (rk_source range) coverage
      else see_source (rk_source range) coverage).

(** The walk along the spans below the committed offset; [None] at a gap, or at a span
    that crosses the offset. *)
Fixpoint walk (committed_offset cursor : Z) (spans : list span) : option Z :=
  match spans with
  | [] => Some cursor
  | s :: rest =>
      if committed_offset <=? s.1 then Some cursor
      else if (cursor <? s.1) || (committed_offset <? s.2) then None
      else walk committed_offset s.2 rest
  end.
Definition checkpoint_complete (spans : gmap (TaskSourceKey * text) IndexedByteCoverage)
    (key : TaskSourceKey * text) (committed_offset : Z) : bool :=
  bool_decide (walk committed_offset 0 (from_option bc_spans [] (spans !! key)) = Some committed_offset).
Record Checkpoints := {
  cp_count : Z;
  cp_sources : gset TaskSourceKey;
  cp_coverage : Coverage
}.
Definition checkpoint_row (spans : gmap (TaskSourceKey * text) IndexedByteCoverage) (s : Checkpoints) (row : Row) :
    result ReaderError Checkpoints :=
  let count := Z.min (cp_count s + 1) u64_max in
  source ← task_source_from_row row 0 1 2 3;
  let coverage := see_source source (cp_coverage s) in
  offset ← get_i64 row 4;
  committed_offset ← ok_or (u64_try_from offset) (reader_invalid "negative session checkpoint offset");
  discard_until_lf ← get_i64 row 5;
  if negb (discard_until_lf =? 0) then
    Ok {| cp_count := count; cp_sources := cp_sources s; cp_coverage := incomplete_source source coverage |}
  else
    prefix_generation ← task_hex_text row 6 32 "prefix_generation";
    Ok (if negb (checkpoint_complete spans (source, prefix_generation) committed_offset) then
          {| cp_count := count; cp_sources := cp_sources s; cp_coverage := incomplete_source source coverage |}
        else {| cp_count := count; cp_sources := {[source]} ∪ cp_sources s; cp_coverage := coverage |}).

Definition pending_row (coverage : Coverage) (row : Row) : result ReaderError Coverage :=
  source ← task_source_from_row row 0 1 2 3;
  let coverage := see_source source coverage in
  complete ← get_i64 row 4;
  Ok (if negb (complete =? 1) then incomplete_source source coverage else coverage).

(** ** Events *)
Record Events := {
  es_keys : gset (TaskRangeKey * Z);
  es_transitions : gmap TaskSourceKey (list TaskTransition);
  es_observed_through : gmap TaskSourceKey Z;
  es_coverage : Coverage
}.
(** [and_modify(max).or_insert(timestamp)] *)
Definition observe (source : TaskSourceKey) (timestamp : Z) (observed : gmap TaskSourceKey Z) : gmap TaskSourceKey Z :=
  <[source := match observed !! source with Some o => Z.max o timestamp | None => timestamp end]> observed.
Definition event_row (indexed_ranges : gset TaskRangeKey) (s : Events) (row : Row) : result ReaderError Events :=
  source ← task_source_from_row row 0 1 2 3;
  let coverage := see_source source (es_coverage s) in
  prefix_generation ← task_hex_text row 4 32 "prefix_generation";
  start_offset ← task_non_negative_u64 row 5 "start_offset";
  end_offset ← task_positive_u64 row 6 "end_offset";
  record_sha256 ← task_hex_text row 7 64 "record_sha256";
  let range := {| rk_source := source; rk_prefix_generation := prefix_generation; rk_start_offset := start_offset;
                  rk_end_offset := end_offset; rk_record_sha256 := record_sha256 |} in
  if (end_offset <=? start_offset) || negb (bool_decide (range ∈ indexed_ranges)) then
    Ok {| es_keys := es_keys s; es_transitions := es_transitions s; es_observed_through := es_observed_through s;
          es_coverage := incomplete_source source coverage |}
  else
    event_index ← task_non_negative_u64 row 8 "event_index";
    reject reader_invalid "duplicate task event identity" when bool_decide ((range, event_index) ∈ es_keys s);
    timestamp ← get_i64 row 9;
    reject reader_invalid "task event timestamp is outside the public domain" when
      negb (valid_public_timestamp timestamp);
    flag ← get_i64 row 10;
    running ← match flag with
              | 0 => Ok false
              | 1 => Ok true
              | _ => Err (reader_invalid "task event running flag is not boolean")
              end;
    let event := {| tt_event_index := event_index; tt_timestamp := timestamp; tt_running := running |} in
    Ok {| es_keys := {[(range, event_index)]} ∪ es_keys s;
          es_transitions := <[source := default [] (es_transitions s !! source) ++ [event]]> (es_transitions s);
          es_observed_through := observe source timestamp (es_observed_through s);
          es_coverage := coverage |}.
Definition horizon_row (observed : gmap TaskSourceKey Z) (row : Row) : result ReaderError (gmap TaskSourceKey Z) :=
  source ← task_source_from_row row 0 1 2 3;
  timestamp ← get_i64 row 4;
  reject reader_invalid "task source observation horizon is outside the public domain" when
    negb (valid_public_timestamp timestamp);
  Ok (observe source timestamp observed).

(** ** The end of the reading *)
(** Sources without a complete checkpoint. *)
Definition require_checkpoints (checkpoints : gset TaskSourceKey) (coverage : Coverage) : Coverage :=
  foldr (λ source coverage,
    if bool_decide (source ∈ checkpoints) then coverage else incomplete_source source coverage)
    coverage (map fst (map_to_list (cv_sources coverage))).
Definition event_leb (a b : TaskTransition) : bool :=
  (tt_timestamp a <? tt_timestamp b)
  || ((tt_timestamp a =? tt_timestamp b) && (tt_event_index a <=? tt_event_index b)).
(** Starts and stops alternate: the flag follows [active], [complete] falls at a surprise. *)
Definition alternate_step (s : bool * bool) (event : TaskTransition) : bool * bool :=
  let '(complete, active) := s in
  if tt_running event then (if active then false else complete, true)
  else (if negb active then false else complete, false).
Definition alternates (complete : bool) (events : list TaskTransition) : bool :=
  let '(complete, active) := fold_left alternate_step events (complete, false) in
  if active then false else complete.

Definition no_evidence (has_history : bool) : TaskActivityEvidence := {|
  te_complete := negb has_history; te_transitions := ∅; te_source_observed_through := ∅; te_source_complete := ∅ |}.
Definition read_present (has_history : bool) (indexed persisted checkpoints pending events : list Row)
    (session_events : option (list Row)) : result ReaderError TaskActivityEvidence :=
  indexed ← read_indexed indexed;
  '(persisted_ranges, coverage) ← fold_result (persisted_row (ix_spans indexed)) (∅, ix_coverage indexed) persisted;
  checkpoints ← fold_result (checkpoint_row (ix_spans indexed))
                  {| cp_count := 0; cp_sources := ∅; cp_coverage := coverage |} checkpoints;
  coverage ← fold_result pending_row (cp_coverage checkpoints) pending;
  events ← fold_result (event_row (ix_ranges indexed))
             {| es_keys := ∅; es_transitions := ∅; es_observed_through := ∅; es_coverage := coverage |} events;
  observed ← fold_result horizon_row (es_observed_through events) (default [] session_events);
  let coverage := require_checkpoints (cp_sources checkpoints) (es_coverage events) in
  let empty := has_history && (cp_count checkpoints =? 0) && bool_decide (persisted_ranges = ∅)
               && bool_decide (es_transitions events = ∅) in
  let transitions := sort_by event_leb <$> es_transitions events in
  let complete := fold_left alternates (map snd (map_to_list transitions)) (cv_complete coverage && negb empty) in
  Ok {| te_complete := complete; te_transitions := transitions; te_source_observed_through := observed;
        te_source_complete := cv_sources coverage |}.
Definition read_task_activity_evidence_inner (has_history : bool) (tables : TaskTables) :
    result ReaderError TaskActivityEvidence :=
  match tb_events tables, tb_indexed tables, tb_persisted tables, tb_checkpoints tables, tb_pending tables with
  | Some events, Some indexed, Some persisted, Some checkpoints, Some pending =>
      read_present has_history indexed persisted checkpoints pending events (tb_session_events tables)
  | _, _, _, _, _ => Ok (no_evidence has_history)
  end.
Definition read_task_activity_evidence (has_history : bool) (tables : TaskTables) : TaskActivityEvidence :=
  match read_task_activity_evidence_inner has_history tables with
  | Ok evidence => evidence
  | Err _ => no_evidence has_history
  end.
(** Only transitions and horizons at owned times are kept. *)
Definition owned_evidence (intervals : ReadIntervals) (evidence : TaskActivityEvidence) : TaskActivityEvidence := {|
  te_complete := te_complete evidence;
  te_transitions := filter (λ kv, kv.2 ≠ [])
    (List.filter (λ event, contains intervals (tt_timestamp event)) <$> te_transitions evidence);
  te_source_observed_through :=
    filter (λ kv, contains intervals kv.2 = true) (te_source_observed_through evidence);
  te_source_complete := te_source_complete evidence |}.
Definition read_task_activity_evidence_for_intervals (has_history : bool) (tables : TaskTables)
    (intervals : ReadIntervals) : TaskActivityEvidence :=
  owned_evidence intervals (read_task_activity_evidence has_history tables).
