(* ===== verification/EvidenceFacts.v ===== *)
(** * What complete evidence of task activity proves

    Relates the passes of TaskEvidence.v to the rows of the tables: the claim of complete
    evidence is backed by every row, and the transitions that are read satisfy what the
    lookups of TaskSpans.v rely on. *)

From S2P Require Import Prelude Text Float64 Contract SourceAdmission Accounts Recordings Spans PendingUsage ReadIntervals TaskActivity TaskSpans SqlRow TaskEvidence.

Definition source_of (row : Row) : result ReaderError TaskSourceKey := task_source_from_row row 0 1 2 3.
Lemma range_source row range : task_range_from_row row = Ok range → source_of row = Ok (rk_source range).
Proof. unfold task_range_from_row, source_of. intros H. inv_ok. by subst. Qed.
Lemma range_order row range :
  task_range_from_row row = Ok range → 0 ≤ rk_start_offset range < rk_end_offset range.
Proof.
  unfold task_range_from_row. intros H. inv_ok. subst. simpl.
  match goal with H : task_non_negative_u64 _ _ _ = Ok _ |- _ =>
    apply task_non_negative_u64_Ok in H as [_ H]; unfold is_u64 in H end. lia.
Qed.

(** ** The state of completeness only falls, the sources it knows only grow *)
Definition sees (c : Coverage) (source : TaskSourceKey) : Prop := is_Some (cv_sources c !! source).
Definition grows (c c' : Coverage) : Prop :=
  (cv_complete c' = true → cv_complete c = true) ∧ ∀ source, sees c source → sees c' source.
#[export] Instance grows_preorder : PreOrder grows.
Proof. split; [done|]. intros a b c [] []. split; eauto. Qed.
Lemma see_source_grows source c : grows c (see_source source c).
Proof.
  split; [done|]. unfold sees. simpl. intros s Hs. case_match; [done|].
  destruct (decide (source = s)) as [->|]; simplify_map_eq; eauto.
Qed.
Lemma incomplete_source_grows source c : grows c (incomplete_source source c).
Proof.
  split; [done|]. unfold sees. simpl. intros s Hs.
  destruct (decide (source = s)) as [->|]; simplify_map_eq; eauto.
Qed.
Lemma see_source_sees source c : sees (see_source source c) source.
Proof. unfold sees. simpl. case_match eqn:E; [by rewrite E|]. rewrite lookup_insert_eq. eauto. Qed.
Lemma incomplete_source_sees source c : sees (incomplete_source source c) source.
Proof. unfold sees. simpl. rewrite lookup_insert_eq. eauto. Qed.
Create HintDb coverage.
#[export] Hint Resolve see_source_grows incomplete_source_grows see_source_sees incomplete_source_sees : coverage.

Definition names (row : Row) (c : Coverage) : Prop := ∃ source, source_of row = Ok source ∧ sees c source.
Lemma names_grows row c c' : grows c c' → names row c → names row c'.
Proof. intros [_ H] (s & ? & ?). exists s. eauto. Qed.
(** A pass over rows, each of which contributes a fact. *)
Lemma pass {S} (cov : S → Coverage) (P : Row → Prop) (step : S → Row → result ReaderError S) rows s s' :
  (∀ row s s', step s row = Ok s' →
    grows (cov s) (cov s') ∧ names row (cov s') ∧ (cv_complete (cov s') = true → P row)) →
  fold_result step s rows = Ok s' →
  grows (cov s) (cov s') ∧ ∀ row, row ∈ rows → names row (cov s') ∧ (cv_complete (cov s') = true → P row).
Proof.
  intros Hstep. apply (fold_result_ind (λ pre t, grows (cov s) (cov t) ∧
    ∀ row, row ∈ pre → names row (cov t) ∧ (cv_complete (cov t) = true → P row))).
  - split; [done|]. by intros ? ?%elem_of_nil.
  - intros pre x t t' _ [Hg Hall] (Hg' & Hn & HP)%Hstep. split; [by trans (cov t)|].
    intros row [Hin| ->%list_elem_of_singleton]%elem_of_app; [|done].
    specialize (Hall row Hin) as [Hr HPr]. split; [by eapply names_grows|]. intros Hc. by apply HPr, Hg'.
Qed.

(** ** Indexed ranges *)
(** The bytes from [start] to [end_] lie in one indexed range of a prefix of a source. *)
Definition indexed_at (indexed : list Row) (source : TaskSourceKey) (prefix : text) (start end_ : Z) : Prop :=
  ∃ row range, row ∈ indexed ∧ task_range_from_row row = Ok range ∧ rk_source range = source
    ∧ rk_prefix_generation range = prefix ∧ rk_start_offset range ≤ start ∧ end_ ≤ rk_end_offset range.
Definition from_ranges (indexed : list Row) (spans : gmap (TaskSourceKey * text) IndexedByteCoverage) : Prop :=
  ∀ source prefix c, spans !! (source, prefix) = Some c → ∀ s, s ∈ bc_spans c → ∃ row range,
    row ∈ indexed ∧ task_range_from_row row = Ok range ∧ rk_source range = source
    ∧ rk_prefix_generation range = prefix ∧ s = (rk_start_offset range, rk_end_offset range).
Definition finished (spans : gmap (TaskSourceKey * text) IndexedByteCoverage) : Prop :=
  ∀ key c, spans !! key = Some c → by_start (bc_spans c) ∧ bc_farthest_ends c = farthest_ends 0 (bc_spans c).

Lemma read_indexed_spec rows s :
  read_indexed rows = Ok s →
  from_ranges rows (ix_spans s) ∧ finished (ix_spans s)
  ∧ (∀ range, range ∈ ix_ranges s → ∃ row, row ∈ rows ∧ task_range_from_row row = Ok range)
  ∧ ∀ row, row ∈ rows → names row (ix_coverage s).
Proof.
  unfold read_indexed. intros (t & Ht & [= <-])%bind_Ok. simpl.
  assert (from_ranges rows (ix_spans t)
    ∧ ∀ range, range ∈ ix_ranges t → ∃ row, row ∈ rows ∧ task_range_from_row row = Ok range) as [Hfrom Hranges].
  { revert Ht. apply (fold_result_ind (λ pre t, from_ranges pre (ix_spans t)
      ∧ ∀ range, range ∈ ix_ranges t → ∃ row, row ∈ pre ∧ task_range_from_row row = Ok range)).
    - split; [by intros ? ? ? ?|]. set_solver.
    - intros pre x a a' _ [Hf Hr] H. unfold indexed_row in H. inv_ok. subst. simpl.
      rename x0 into range. split.
      + intros source prefix c Hc sp Hsp.
        destruct (decide ((source, prefix) = (rk_source range, rk_prefix_generation range))) as [[= -> ->]|Hne].
        * rewrite lookup_insert_eq in Hc. injection Hc as <-. simpl in Hsp.
          apply elem_of_app in Hsp as [Hsp| ->%list_elem_of_singleton].
          -- destruct (ix_spans a !! _) as [c|] eqn:Ec; [|by apply elem_of_nil in Hsp].
             destruct (Hf _ _ c Ec sp Hsp) as (row & r & ? & ?). exists row, r.
             rewrite elem_of_app. tauto.
          -- exists x, range. rewrite elem_of_app, list_elem_of_singleton. tauto.
        * rewrite lookup_insert_ne in Hc by done. destruct (Hf _ _ c Hc sp Hsp) as (row & r & ? & ?).
          exists row, r. rewrite elem_of_app. tauto.
      + intros r [->%elem_of_singleton|Hin]%elem_of_union.
        * exists x. by rewrite elem_of_app, list_elem_of_singleton; auto.
        * destruct (Hr r Hin) as (row & ? & ?). exists row. rewrite elem_of_app. auto. }
  split_and!.
  - intros source prefix c Hc s Hs. apply lookup_fmap_Some in Hc as (c' & <- & Hc'). simpl in Hs.
    rewrite sort_by_elem in Hs. destruct (Hfrom _ _ c' Hc' s Hs) as (row & r & ?). by exists row, r.
  - intros key c (c' & <- & Hc')%lookup_fmap_Some. split; [apply sorted_by_start|done].
  - done.
  - intros row Hin. apply (pass ix_coverage (λ _, True)) in Ht as [_ Ht]; [by apply Ht|].
    intros r a a' H. unfold indexed_row in H. inv_ok. subst. simpl.
    split_and!; [apply see_source_grows| |done]. eexists. split; [by apply range_source|apply see_source_sees].
Qed.

Lemma covers_spec indexed spans source prefix start end_ :
  from_ranges indexed spans → finished spans →
  is_some_and (λ c, covers c start end_) (spans !! (source, prefix)) = true →
  indexed_at indexed source prefix start end_.
Proof.
  intros Hfrom Hfin H. destruct (spans !! _) as [c|] eqn:Ec; [|done]. simpl in H.
  destruct (Hfin _ c Ec) as [Hs Hf]. unfold covers in H. destruct (end_ <=? start); [done|]. rewrite Hf in H.
  apply farthest_lookup in H as (s & Hin & Hlo & Hhi).
  - destruct (Hfrom _ _ c Ec s Hin) as (row & range & ? & ? & ? & ? & ->). exists row, range.
    simpl in *. split_and!; [done..|lia|lia].
  - refine (StronglySorted_weaken _ _ _ _ Hs). intros a b. rewrite !Z.leb_le. lia.
  - intros a b. rewrite !Z.leb_le. lia.
  - intros s Hin. destruct (Hfrom _ _ c Ec s Hin) as (row & range & ? & ?%range_order & ? & ? & ->). simpl. lia.
Qed.
(** A walk that arrives has passed over every byte. *)
Lemma walk_covers committed spans cursor :
  walk committed cursor spans = Some committed →
  ∀ x, cursor ≤ x < committed → ∃ s, s ∈ spans ∧ s.1 ≤ x < s.2.
Proof.
  revert cursor. induction spans as [|s spans IH]; intros cursor; simpl.
  - intros [= ->]. lia.
  - destruct (committed <=? s.1) eqn:E1; [intros [= ->]; lia|].
    destruct (_ || _) eqn:E2; [done|]. intros Hw x Hx. destruct (decide (x < s.2)).
    + exists s. split; [apply list_elem_of_here|lia].
    + destruct (IH _ Hw x ltac:(lia)) as (s' & ? & ?). exists s'. by rewrite elem_of_cons; auto.
Qed.

(** ** The passes *)
Lemma persisted_pass spans rows s s' :
  fold_result (persisted_row spans) s rows = Ok s' →
  grows s.2 s'.2 ∧ ∀ row, row ∈ rows → names row s'.2 ∧ (cv_complete s'.2 = true → ∃ range,
    task_range_from_row row = Ok range
    ∧ is_some_and (λ c, covers c (rk_start_offset range) (rk_end_offset range))
        (spans !! (rk_source range, rk_prefix_generation range)) = true).
Proof.
  apply pass. clear. intros row [r c] s' H. unfold persisted_row in H. inv_ok. subst. rename x into range.
  cbn [snd]. match goal with H : task_range_from_row row = _ |- _ => rename H into Hr end.
  destruct (is_some_and _ _) eqn:E; simpl negb; cbn [fst snd].
  - split_and!; [auto with coverage| |intros _; by exists range].
    exists (rk_source range). by eauto using range_source with coverage.
  - split_and!; [auto with coverage| |done].
    exists (rk_source range). by eauto using range_source with coverage.
Qed.

(** The checkpoint of a source whose committed bytes are all in indexed spans. *)
Definition walked (spans : gmap (TaskSourceKey * text) IndexedByteCoverage) (row : Row) : Prop :=
  ∃ source committed prefix,
    source_of row = Ok source ∧ get_i64 row 4 = Ok committed ∧ get_i64 row 5 = Ok 0
    ∧ task_hex_text row 6 32 "prefix_generation" = Ok prefix
    ∧ checkpoint_complete spans (source, prefix) committed = true.
Lemma checkpoint_pass spans rows s s' :
  fold_result (checkpoint_row spans) s rows = Ok s' →
  grows (cp_coverage s) (cp_coverage s') ∧ ∀ row, row ∈ rows →
    names row (cp_coverage s') ∧ (cv_complete (cp_coverage s') = true → walked spans row).
Proof.
  apply pass. clear. intros row s s' H. unfold checkpoint_row in H. inv_ok.
  rename x into source, x0 into offset, x1 into committed, x2 into discard.
  match goal with H : task_source_from_row _ _ _ _ _ = _ |- _ => rename H into Hsource end.
  match goal with H : u64_try_from _ = _ |- _ => apply u64_try_from_Some in H as [-> _] end.
  assert (grows (cp_coverage s) (incomplete_source source (see_source source (cp_coverage s)))) as Hg.
  { trans (see_source source (cp_coverage s)); auto with coverage. }
  destruct (discard =? 0) eqn:Ed; cbn [negb] in H; inv_ok; cycle 1.
  { subst. cbn [cp_coverage]. split_and!; [done| |done]. exists source. split; [done|]. auto with coverage. }
  apply Z.eqb_eq in Ed as ->. rename x into prefix.
  destruct (checkpoint_complete _ _ _) eqn:Ec; cbn [negb]; cbn [cp_coverage].
  - split_and!; [auto with coverage|exists source; by auto with coverage|]. intros _. by exists source, offset, prefix.
  - split_and!; [done| |done]. exists source. by auto with coverage.
Qed.
(** Sources with a complete checkpoint have one in the table. *)
Lemma checkpoint_sources spans rows s s' :
  fold_result (checkpoint_row spans) s rows = Ok s' → cp_sources s = ∅ →
  ∀ source, source ∈ cp_sources s' → ∃ row, row ∈ rows ∧ source_of row = Ok source.
Proof.
  intros H Hs. revert H. apply (fold_result_ind (λ pre t,
    ∀ source, source ∈ cp_sources t → ∃ row, row ∈ pre ∧ source_of row = Ok source)).
  { rewrite Hs. set_solver. }
  clear. intros pre row t t' _ Hall H source Hin. unfold checkpoint_row in H. inv_ok. rename x into found.
  assert (source ∈ cp_sources t ∨ source = found) as [Ht| ->].
  { destruct (negb (_ =? 0)); inv_ok; [by subst; left|]. subst. destruct (negb _); simpl in Hin; set_solver. }
  - destruct (Hall source Ht) as (r & ? & ?). exists r. rewrite elem_of_app. auto.
  - exists row. rewrite elem_of_app, list_elem_of_singleton. auto.
Qed.
Lemma pending_pass rows c c' :
  fold_result pending_row c rows = Ok c' →
  grows c c' ∧ ∀ row, row ∈ rows → names row c' ∧ (cv_complete c' = true → get_i64 row 4 = Ok 1).
Proof.
  apply (pass id). clear. intros row c c' H. unfold pending_row, id in *. inv_ok. subst.
  rename x into source, x0 into flag.
  destruct (flag =? 1) eqn:E; cbn [negb].
  - apply Z.eqb_eq in E as ->. split_and!; [auto with coverage| |done]. exists source. by auto with coverage.
  - split_and!; [|exists source; by auto with coverage|done].
    trans (see_source source c); auto with coverage.
Qed.
(** The range an event row names. *)
Definition event_range (row : Row) (range : TaskRangeKey) : Prop :=
  source_of row = Ok (rk_source range)
  ∧ task_hex_text row 4 32 "prefix_generation" = Ok (rk_prefix_generation range)
  ∧ get_i64 row 5 = Ok (rk_start_offset range) ∧ get_i64 row 6 = Ok (rk_end_offset range)
  ∧ task_hex_text row 7 64 "record_sha256" = Ok (rk_record_sha256 range).
Lemma events_pass indexed_ranges rows s s' :
  fold_result (event_row indexed_ranges) s rows = Ok s' →
  grows (es_coverage s) (es_coverage s') ∧ ∀ row, row ∈ rows → names row (es_coverage s')
    ∧ (cv_complete (es_coverage s') = true → ∃ range, event_range row range ∧ range ∈ indexed_ranges).
Proof.
  apply pass. clear. intros row s s' H. unfold event_row in H. inv_ok.
  rename x into source, x0 into prefix, x1 into start, x2 into end_, x3 into sha.
  repeat match goal with
  | H : task_non_negative_u64 _ _ _ = Ok _ |- _ => apply task_non_negative_u64_Ok in H as [H _]; apply get_i64_Ok in H
  | H : task_positive_u64 _ _ _ = Ok _ |- _ => apply task_positive_u64_Ok in H as [H _]; apply get_i64_Ok in H
  end.
  destruct (_ || _) eqn:E; inv_ok; subst; cbn [es_coverage].
  - split_and!; [trans (see_source source (es_coverage s)); auto with coverage| |done].
    exists source. by auto with coverage.
  - apply orb_false_iff in E as [_ E]. apply negb_false_iff, bool_decide_eq_true in E.
    split_and!; [auto with coverage|exists source; by auto with coverage|].
    intros _. eexists. by split; [|exact E].
Qed.

Definition timed_source (transitions : gmap TaskSourceKey (list TaskTransition)) (observed : gmap TaskSourceKey Z) : Prop :=
  ∀ source events, transitions !! source = Some events → events ≠ [] ∧ ∃ o, observed !! source = Some o
    ∧ ∀ e, e ∈ events → valid_public_timestamp (tt_timestamp e) = true ∧ tt_timestamp e ≤ o.
Lemma observe_le source t observed s o :
  observed !! s = Some o → ∃ o', observe source t observed !! s = Some o' ∧ o ≤ o'.
Proof.
  intros Ho. unfold observe. destruct (decide (source = s)) as [->|].
  - rewrite lookup_insert_eq, Ho. eexists. split; [done|]. lia.
  - rewrite lookup_insert_ne by done. eauto with lia.
Qed.
Lemma timed_source_observe transitions observed source t :
  timed_source transitions observed → timed_source transitions (observe source t observed).
Proof.
  intros H s events Hs. destruct (H s events Hs) as (? & o & Ho & Hall). split; [done|].
  destruct (observe_le source t observed s o Ho) as (o' & Ho' & ?). exists o'. split; [done|].
  intros e He. destruct (Hall e He). split; [done|lia].
Qed.
Lemma events_timed indexed_ranges rows s s' :
  fold_result (event_row indexed_ranges) s rows = Ok s' →
  timed_source (es_transitions s) (es_observed_through s) →
  timed_source (es_transitions s') (es_observed_through s').
Proof.
  intros H Hs. revert H. apply (fold_result_ind (λ _ t, timed_source (es_transitions t) (es_observed_through t)));
    [done|]. clear. intros _ row s s' _ Hs H. unfold event_row in H. inv_ok.
  destruct (_ || _); inv_ok; subst; cbn [es_transitions es_observed_through]; [done|].
  match goal with H : negb (valid_public_timestamp ?t) = false |- _ =>
    rename t into at_; apply negb_false_iff in H; rename H into Hvalid end.
  rename x into source. intros k events Hk.
  destruct (decide (source = k)) as [->|Hne].
  - rewrite lookup_insert_eq in Hk. injection Hk as <-. split; [by destruct (default _ _)|].
    unfold observe. rewrite lookup_insert_eq. eexists. split; [done|].
    intros e [He| ->%list_elem_of_singleton]%elem_of_app; simpl.
    + destruct (es_transitions s !! k) as [events|] eqn:Et; [|by apply elem_of_nil in He].
      destruct (Hs k events Et) as (_ & o & -> & Hall). destruct (Hall e He). split; [done|lia].
    + split; [done|]. destruct (es_observed_through s !! k); lia.
  - rewrite lookup_insert_ne in Hk by done. by apply (timed_source_observe _ _ source at_ Hs).
Qed.
Lemma horizons_timed transitions rows observed observed' :
  fold_result horizon_row observed rows = Ok observed' →
  timed_source transitions observed → timed_source transitions observed'.
Proof.
  intros H Hs. revert H. apply (fold_result_ind (λ _ o, timed_source transitions o)); [done|].
  clear. intros _ row o o' _ Ho H. unfold horizon_row in H. inv_ok. subst. by apply timed_source_observe.
Qed.

(** ** The end of the reading *)
Lemma require_checkpoints_spec checkpoints c :
  let c' := require_checkpoints checkpoints c in
  cv_complete c' = true → cv_complete c = true ∧ ∀ source, sees c source → source ∈ checkpoints.
Proof.
  cbn zeta. unfold require_checkpoints.
  assert (∀ l, cv_complete (foldr (λ source coverage,
      if bool_decide (source ∈ checkpoints) then coverage else incomplete_source source coverage) c l) = true →
    cv_complete c = true ∧ ∀ source, source ∈ l → source ∈ checkpoints) as H.
  { induction l as [|s l IH]; simpl; [intros ?; split; [done|]; by intros ? ?%elem_of_nil|].
    destruct (bool_decide_reflect (s ∈ checkpoints)); [|done]. intros [? Hl]%IH. split; [done|].
    intros source [->|Hin]%elem_of_cons; auto. }
  intros [? Hall]%H. split; [done|]. intros source [b Hb]. apply Hall.
  apply list_elem_of_fmap. exists (source, b). by rewrite elem_of_map_to_list.
Qed.

(** Transitions in pairs of a start and the stop that follows it. *)
Definition alternating (events : list TaskTransition) : Prop :=
  ∃ pairs : list (TaskTransition * TaskTransition), events = concat (map (λ p, [p.1; p.2]) pairs)
    ∧ Forall (λ p, tt_running p.1 = true ∧ tt_running p.2 = false) pairs.
Lemma alternate_false events active : (fold_left alternate_step events (false, active)).1 = false.
Proof. revert active. induction events as [|e events IH]; intros active; simpl; [done|]. by repeat case_match. Qed.
Lemma alternates_false events : alternates false events = false.
Proof.
  unfold alternates. pose proof (alternate_false events false). destruct (fold_left _ _ _) as [c a].
  simpl in *. subst. by destruct a.
Qed.
Lemma alternates_true c events : alternates c events = true → c = true ∧ alternating events.
Proof.
  destruct c; [|by rewrite alternates_false]. intros H. split; [done|].
  remember (length events) as n eqn:En. assert (length events ≤ n)%nat as Hn by lia. clear En.
  revert events H Hn. induction n as [|n IH]; intros events.
  { destruct events; [|simpl; lia]. exists []. by split. }
  destruct events as [|a [|b events]]; [by exists []| |].
  { unfold alternates. simpl. by destruct (tt_running a). }
  unfold alternates. simpl. destruct (tt_running a) eqn:Ea, (tt_running b) eqn:Eb; simpl; rewrite ?Eb; simpl; intros H Hn.
  2: { destruct (IH events H ltac:(lia)) as (pairs & -> & Hp). exists ((a, b) :: pairs). by split; [|constructor]. }
  all: match type of H with context [fold_left _ _ (false, ?a)] =>
    pose proof (alternate_false events a) as Hf; destruct (fold_left alternate_step events (false, a)) as [[] []]; done end.
Qed.
Lemma alternates_all L c :
  fold_left alternates L c = true → c = true ∧ ∀ events, events ∈ L → alternating events.
Proof.
  revert c. induction L as [|events L IH]; intros c; simpl; [intros ->; split; [done|]; by intros ? ?%elem_of_nil|].
  intros [[-> Ha]%alternates_true Hall]%IH. split; [done|]. intros l [->|Hin]%elem_of_cons; auto.
Qed.

Section reading.
Context (has_history : bool) (indexed persisted checkpoints pending events : list Row).
Context (session_events : option (list Row)) (evidence : TaskActivityEvidence).
Context (Hread : read_present has_history indexed persisted checkpoints pending events session_events = Ok evidence).

(** Complete evidence claims the following of the tables. *)
Definition evidence_backed : Prop :=
  (** every stored range lies in an indexed range *)
  (∀ row, row ∈ persisted → ∃ range, task_range_from_row row = Ok range
    ∧ indexed_at indexed (rk_source range) (rk_prefix_generation range) (rk_start_offset range) (rk_end_offset range))
  (** every checkpoint has all its committed bytes in indexed ranges *)
  ∧ (∀ row, row ∈ checkpoints → ∃ source committed prefix,
      source_of row = Ok source ∧ get_i64 row 4 = Ok committed ∧ get_i64 row 5 = Ok 0
      ∧ task_hex_text row 6 32 "prefix_generation" = Ok prefix
      ∧ ∀ x, 0 ≤ x < committed → indexed_at indexed source prefix x (x + 1))
  (** no pending range is open *)
  ∧ (∀ row, row ∈ pending → get_i64 row 4 = Ok 1)
  (** every event names an indexed range *)
  ∧ (∀ row, row ∈ events → ∃ range row', event_range row range ∧ row' ∈ indexed ∧ task_range_from_row row' = Ok range)
  (** every source that is named has a checkpoint *)
  ∧ (∀ row, row ∈ indexed ++ persisted ++ pending ++ events → ∃ source row',
      source_of row = Ok source ∧ row' ∈ checkpoints ∧ source_of row' = Ok source)
  (** every source starts and stops in turn *)
  ∧ ∀ source transitions, te_transitions evidence !! source = Some transitions → alternating transitions.
(** C26. Evidence that is read as complete is backed by every row of the tables: no byte a
    checkpoint or a stored range claims is outside the indexed ranges, nothing is pending,
    and the events of every source are starts each followed by its stop. *)
Theorem complete_evidence : te_complete evidence = true → evidence_backed.
Proof.
  intros Hc. unfold evidence_backed. unfold read_present in Hread. inv_ok. destruct x0 as [persisted_ranges c0]. inv_ok. subst.
  rename x into ix, x0 into cp, x1 into c1, x2 into es, x3 into observed. cbn [te_complete te_transitions] in *.
  match goal with H : read_indexed _ = _ |- _ => apply read_indexed_spec in H as (Hfrom & Hfin & Hranges & Hni) end.
  match goal with H : fold_result (persisted_row _) _ _ = _ |- _ => apply persisted_pass in H as [Hg1 Hrow1] end.
  match goal with H : fold_result (checkpoint_row _) _ _ = _ |- _ =>
    pose proof (checkpoint_sources _ _ _ _ H eq_refl) as Hsources; apply checkpoint_pass in H as [Hg2 Hrow2] end.
  match goal with H : fold_result pending_row _ _ = _ |- _ => apply pending_pass in H as [Hg3 Hrow3] end.
  match goal with H : fold_result (event_row _) _ _ = _ |- _ => apply events_pass in H as [Hg4 Hrow4] end.
  cbn [fst snd cp_coverage es_coverage] in *.
  apply alternates_all in Hc as [[Hc _]%andb_true_iff Halt].
  apply require_checkpoints_spec in Hc as [Hc Hcp].
  assert (grows c1 (es_coverage es)) as G3 by done.
  assert (grows (cp_coverage cp) (es_coverage es)) as G2 by (by trans c1).
  assert (grows c0 (es_coverage es)) as G1 by (by trans (cp_coverage cp)).
  split_and!.
  - intros row [_ H]%Hrow1. destruct (H (proj1 G1 Hc)) as (range & Hr & Hcov). exists range. split; [done|].
    by apply (covers_spec _ (ix_spans ix)).
  - intros row [_ H]%Hrow2. destruct (H (proj1 G2 Hc)) as (source & committed & prefix & ? & ? & ? & ? & Hw).
    exists source, committed, prefix. split_and!; [done..|]. intros x Hx.
    unfold checkpoint_complete in Hw. apply bool_decide_eq_true in Hw.
    destruct (walk_covers _ _ _ Hw x Hx) as (s & Hs & Hin).
    destruct (ix_spans ix !! (source, prefix)) as [c|] eqn:Ec; [|by apply elem_of_nil in Hs].
    destruct (Hfrom _ _ c Ec s Hs) as (r & range & ? & ? & ? & ? & ->). exists r, range.
    simpl in *. split_and!; [done..|lia|lia].
  - intros row [_ H]%Hrow3. apply H, G3, Hc.
  - intros row [_ H]%Hrow4. destruct (H Hc) as (range & ? & (r & ? & ?)%Hranges). by exists range, r.
  - intros row Hrow. assert (names row (es_coverage es)) as (source & Hs & Hin%Hcp).
    { rewrite !elem_of_app in Hrow. destruct Hrow as [Hr|[Hr|[Hr|Hr]]].
      - eapply names_grows; [|by apply Hni]. by trans c0.
      - eapply names_grows; [exact G1|]. by apply Hrow1.
      - eapply names_grows; [exact G3|]. by apply Hrow3.
      - by apply Hrow4. }
    destruct (Hsources source Hin) as (row' & ? & ?). by exists source, row'.
  - intros source transitions Ht. apply Halt, list_elem_of_fmap. exists (source, transitions).
    by rewrite elem_of_map_to_list.
Qed.

Lemma read_evidence_timed : timed_source (te_transitions evidence) (te_source_observed_through evidence).
Proof.
  unfold read_present in Hread. inv_ok. destruct x0 as [persisted_ranges c0]. inv_ok. subst.
  cbn [te_transitions te_source_observed_through].
  match goal with H : fold_result (event_row _) _ _ = _ |- _ => apply events_timed in H as He; [|by intros ??] end.
  match goal with H : fold_result horizon_row _ _ = _ |- _ => apply (horizons_timed _ _ _ _ H) in He end.
  intros source events' (l & <- & Hl)%lookup_fmap_Some. destruct (He source l Hl) as (Hne & o & Ho & Hall).
  split.
  - intros Hnil. apply Hne, Permutation_nil_r. rewrite <-Hnil. symmetry. apply sort_by_perm.
  - exists o. split; [done|]. intros e. rewrite sort_by_elem. apply Hall.
Qed.
Lemma read_evidence_sorted : well_timed evidence.
Proof.
  unfold read_present in Hread. inv_ok. destruct x0 as [persisted_ranges c0]. inv_ok. subst.
  intros source events' (l & <- & Hl)%lookup_fmap_Some. refine (StronglySorted_weaken _ _ _ _ (sort_by_sorted event_leb _ _ l)).
  - intros a b. unfold event_leb. lia.
  - intros a b. unfold event_leb. lia.
  - intros a b c. unfold event_leb. lia.
Qed.
End reading.

(** *** Concrete tables: one source whose task ran from 100 to 200 *)
Definition example_columns : Row := map (λ s, SqlText (string_bytes s)) ["r"; "a"; "1"; "2"]%string.
Definition example_prefix : ValueRef := SqlText (string_bytes "0123456789abcdef0123456789abcdef").
Definition example_sha : ValueRef :=
  SqlText (string_bytes "0123456789abcdef0123456789abcdef0123456789abcdef0123456789abcdef").
Definition example_range (start end_ : Z) : Row :=
  example_columns ++ [example_prefix; SqlInteger start; SqlInteger end_; example_sha].
Definition example_event (index timestamp running : Z) : Row :=
  example_range 5 9 ++ [SqlInteger index; SqlInteger timestamp; SqlInteger running].
Definition example_indexed : list Row := [example_range 5 9; example_range 0 5].
Definition example_persisted : list Row := [example_range 5 8].
Definition example_checkpoints : list Row := [example_columns ++ [SqlInteger 9; SqlInteger 0; example_prefix]].
Definition example_pending : list Row := [example_columns ++ [SqlInteger 1]].
Definition example_events_rows : list Row := [example_event 0 100 1; example_event 1 200 0].
Definition example_read : result ReaderError TaskActivityEvidence :=
  read_present true example_indexed example_persisted example_checkpoints example_pending example_events_rows None.
Definition example_evidence_read : TaskActivityEvidence :=
  match example_read with Ok evidence => evidence | Err _ => no_evidence true end.
Lemma complete_evidence_witness :
  te_complete example_evidence_read = true
  ∧ evidence_backed example_indexed example_persisted example_checkpoints example_pending example_events_rows
      example_evidence_read.
Proof.
  assert (te_complete example_evidence_read = true) as Hc by by vm_compute. split; [exact Hc|].
  refine (complete_evidence true example_indexed example_persisted example_checkpoints example_pending
    example_events_rows None example_evidence_read _ Hc).
  assert (is_ok example_read = true) as Hok by by vm_compute.
  fold example_read. unfold example_evidence_read. destruct example_read; [reflexivity|discriminate].
Defined.
Example example_gap_is_incomplete :
  (te_complete <$> read_present true [example_range 5 9; example_range 0 4] [] example_checkpoints [] [] None)
  = Ok false.
Proof. by vm_compute. Qed.
