(* ===== verification/ReadActivity.v ===== *)
(** * The task activity read from the tables

    Composes the reading of the evidence (TaskEvidence.v) with the lookups of the flags
    (TaskActivity.v). *)

From S2P Require Import Prelude Text Float64 Contract SourceAdmission Accounts Recordings Spans PendingUsage ReadIntervals TaskActivity TaskSpans SqlRow TaskEvidence EvidenceFacts.

(** ** What owned evidence satisfies *)
Lemma read_evidence_cases has_history tables :
  read_task_activity_evidence has_history tables = no_evidence has_history
  ∨ ∃ indexed persisted checkpoints pending events, read_present has_history indexed persisted checkpoints pending
      events (tb_session_events tables) = Ok (read_task_activity_evidence has_history tables).
Proof.
  unfold read_task_activity_evidence, read_task_activity_evidence_inner.
  destruct (tb_events tables) as [events|]; [|by left]. destruct (tb_indexed tables) as [indexed|]; [|by left].
  destruct (tb_persisted tables) as [persisted|]; [|by left].
  destruct (tb_checkpoints tables) as [checkpoints|]; [|by left].
  destruct (tb_pending tables) as [pending|]; [|by left].
  destruct (read_present _ _ _ _ _ _ _) as [evidence|e] eqn:E; [|by left].
  right. exists indexed, persisted, checkpoints, pending, events. done.
Qed.
Lemma read_well_timed has_history tables : well_timed (read_task_activity_evidence has_history tables).
Proof.
  destruct (read_evidence_cases has_history tables) as [->|(? & ? & ? & ? & ? & H)]; [by intros ??|].
  by eapply read_evidence_sorted.
Qed.
Lemma read_timed has_history tables (evidence := read_task_activity_evidence has_history tables) :
  timed_source (te_transitions evidence) (te_source_observed_through evidence).
Proof.
  subst evidence. destruct (read_evidence_cases has_history tables) as [->|(? & ? & ? & ? & ? & H)]; [by intros ??|].
  by eapply read_evidence_timed.
Qed.
Lemma valid_public_i64 t : valid_public_timestamp t = true → is_i64 t.
Proof. unfold valid_public_timestamp, is_i64, i64_min, i64_max. lia. Qed.

Section owned.
Context (intervals : ReadIntervals) (evidence : TaskActivityEvidence).
Context (Htimed : well_timed evidence).
Context (Hsource : timed_source (te_transitions evidence) (te_source_observed_through evidence)).
Lemma owned_transitions source events :
  te_transitions (owned_evidence intervals evidence) !! source = Some events ↔ events ≠ [] ∧ ∃ all,
    te_transitions evidence !! source = Some all
    ∧ events = List.filter (λ event, contains intervals (tt_timestamp event)) all.
Proof.
  unfold owned_evidence. cbn [te_transitions]. rewrite map_lookup_filter_Some, lookup_fmap_Some. naive_solver.
Qed.
Lemma owned_well_timed : well_timed (owned_evidence intervals evidence).
Proof.
  intros source events (_ & all & Hall & ->)%owned_transitions. by apply StronglySorted_filter_bool, (Htimed source).
Qed.
Lemma owned_horizon source events e :
  te_transitions (owned_evidence intervals evidence) !! source = Some events → e ∈ events →
  is_i64 (tt_timestamp e)
  ∧ ∃ o, observed_through (owned_evidence intervals evidence) source events = Some o ∧ tt_timestamp e ≤ o.
Proof.
  intros Hs He. pose proof (owned_well_timed source events Hs) as Hsorted.
  apply owned_transitions in Hs as (Hne & all & Hall & ->).
  destruct (Hsource source all Hall) as (_ & o & Ho & Hev).
  pose proof He as [Hin _]%elem_of_filter_bool. destruct (Hev e Hin) as [Hv Hle].
  split; [by apply valid_public_i64|]. unfold observed_through.
  destruct (te_source_observed_through (owned_evidence intervals evidence) !! source) as [o'|] eqn:Eo.
  - exists o'. split; [done|]. unfold owned_evidence in Eo. cbn [te_source_observed_through] in Eo.
    apply map_lookup_filter_Some in Eo as [Eo _]. congruence.
  - destruct (last_is_Some (List.filter (λ event, contains intervals (tt_timestamp event)) all)) as [_ Hl].
    destruct (Hl Hne) as [last_event El]. rewrite El. simpl. eexists. split; [done|].
    apply last_Some in El as [init El]. rewrite El in He, Hsorted.
    apply elem_of_app in He as [He| ->%list_elem_of_singleton]; [|done].
    apply (StronglySorted_app_1_elem_of (λ a b, tt_timestamp a ≤ tt_timestamp b) init [last_event]);
      [done..|apply list_elem_of_here].
Qed.
End owned.

(** ** The flags of rows *)
Section read.
Context (has_history : bool) (tables : TaskTables) (l intervals : list ReadInterval).
Context (Hnew : ReadIntervals_new l = Ok intervals).
Let evidence := read_task_activity_evidence_for_intervals has_history tables intervals.

(** With evidence read from the tables for the owned intervals, a row that reports the
    seconds from [start] to [end_] is flagged active exactly when some task ran at one of
    them that is owned, and inactive exactly when none did and either the evidence is
    complete or one source was verified idle throughout. *)
Theorem read_flag_exact start end_ :
  i64_min ≤ start → start < end_ → end_ ≤ i64_max →
  let runs := ∃ x, start ≤ x ≤ end_ ∧ some_task_runs evidence x ∧ owned intervals x in
  let flag := row_flag (te_complete evidence) (from_evidence_for_intervals evidence intervals) (start, end_) in
  (flag = Some true ↔ runs)
  ∧ (flag = Some false ↔ ¬ runs ∧ (te_complete evidence = true ∨ idle_through evidence intervals start end_)).
Proof.
  pose proof (read_intervals_spec l) as H. rewrite Hnew in H. destruct H as (Hperm & _ & Hvalid & Hone).
  apply row_flag_exact; [| |done|].
  - apply owned_well_timed, read_well_timed.
  - unfold valid_intervals. by rewrite Hperm.
  - intros source events e. apply owned_horizon; [apply read_well_timed|apply read_timed].
Qed.
End read.

(** *** Concrete tables, read for an account that owns the time from 120 on *)
Definition example_tables (events : list Row) : TaskTables := {|
  tb_indexed := Some example_indexed; tb_persisted := Some example_persisted;
  tb_checkpoints := Some example_checkpoints; tb_pending := Some example_pending; tb_events := Some events;
  tb_session_events := None |}.
Definition from_120 : ReadIntervals := [{| ri_start_at := Some 120; ri_end_at := None |}].
(** A task that ran from 130 to 200. *)
Definition run_130_200 : list Row := [example_event 0 130 1; example_event 1 200 0].
Lemma read_flag_exact_witness :
  let evidence := read_task_activity_evidence_for_intervals true (example_tables run_130_200) from_120 in
  let runs := ∃ x, 180 ≤ x ≤ 239 ∧ some_task_runs evidence x ∧ owned from_120 x in
  let flag := row_flag (te_complete evidence) (from_evidence_for_intervals evidence from_120) (180, 239) in
  (flag = Some true ↔ runs)
  ∧ (flag = Some false ↔ ¬ runs ∧ (te_complete evidence = true ∨ idle_through evidence from_120 180 239)).
Proof.
  refine (read_flag_exact true (example_tables run_130_200) from_120 from_120 _ 180 239 _ _ _);
    [reflexivity|unfold i64_min; lia|lia|unfold i64_max; lia].
Defined.

(** The transitions outside the owned intervals are dropped before the runs are clipped to
    them: of a task that ran from 100 to 200, of which an account owns the time from 120,
    only the stop is left. The evidence still counts as complete, so the row for the
    seconds 180 to 239 says that no task ran, although one did at 190. *)
Definition run_100_200 : list Row := [example_event 0 100 1; example_event 1 200 0].
Example run_across_boundary_is_lost :
  let read := read_task_activity_evidence true (example_tables run_100_200) in
  let evidence := read_task_activity_evidence_for_intervals true (example_tables run_100_200) from_120 in
  (some_task_runs read 190 ∧ owned from_120 190)
  ∧ row_flag (te_complete evidence) (from_evidence_for_intervals read from_120) (180, 239) = Some true
  ∧ row_flag (te_complete evidence) (from_evidence_for_intervals evidence from_120) (180, 239) = Some false.
Proof.
  split; [|split; by vm_compute]. split; [|by vm_compute].
  exists {| sk_root_identity := lit "r"; sk_relative_path := lit "a"; sk_file_device := lit "1"; sk_file_inode := lit "2" |},
    [{| tt_event_index := 0; tt_timestamp := 100; tt_running := true |};
     {| tt_event_index := 1; tt_timestamp := 200; tt_running := false |}].
  split; [by vm_compute|]. eexists [], _, _. split; [done|]. simpl. split_and!; [done|lia|].
  unfold lasts_until. simpl. lia.
Qed.
