(* ===== verification/StoredHistory.v ===== *)
(** * Stored history: parent rows, observations and model groups

    Models the readers of [crates/codex-info-db-reader/src/lib.rs] that turn the rows of
    [durable_state] and [usage_model_history] into what the projection of the history is
    built from: one observation and one group of model totals for every minute of a
    period. A table is the list of the rows its query returns, in its order. The parsers
    of JSON texts and of decimal floats are parameters. *)

From S2P Require Import Prelude Text Float64 Json Contract TokenFacts Details Accounts Spans ReadIntervals TaskActivity SqlRow.

(** ** Parent rows *)
Record RawSample (D T : Type) := {
  rs_timestamp : Z;
  rs_reset_at : Z;
  rs_remaining_percent : option f64;
  rs_sol_dollars : D;
  rs_terra_dollars : D;
  rs_luna_dollars : D;
  rs_sol_tokens : T;
  rs_terra_tokens : T;
  rs_luna_tokens : T
}.
Arguments rs_timestamp {D T}.
Arguments rs_reset_at {D T}.
Arguments rs_remaining_percent {D T}.
Arguments rs_sol_dollars {D T}.
Arguments rs_terra_dollars {D T}.
Arguments rs_luna_dollars {D T}.
Arguments rs_sol_tokens {D T}.
Arguments rs_terra_tokens {D T}.
Arguments rs_luna_tokens {D T}.
Abbreviation StoredHistorySample := (RawSample (option f64) (option Z)).
Definition legacy_raw (self : StoredHistorySample) : option (RawSample f64 Z) :=
  sol_dollars ← rs_sol_dollars self;
  terra_dollars ← rs_terra_dollars self;
  luna_dollars ← rs_luna_dollars self;
  sol_tokens ← rs_sol_tokens self;
  terra_tokens ← rs_terra_tokens self;
  luna_tokens ← rs_luna_tokens self;
  Some {| rs_timestamp := rs_timestamp self; rs_reset_at := rs_reset_at self;
          rs_remaining_percent := rs_remaining_percent self; rs_sol_dollars := sol_dollars;
          rs_terra_dollars := terra_dollars; rs_luna_dollars := luna_dollars; rs_sol_tokens := sol_tokens;
          rs_terra_tokens := terra_tokens; rs_luna_tokens := luna_tokens |}.
Definition stored_of_sample (sample : PublicHistorySample) : StoredHistorySample := {|
  rs_timestamp := hs_timestamp sample; rs_reset_at := hs_reset_at sample;
  rs_remaining_percent := hs_remaining_percent sample;
  rs_sol_dollars := Some (hs_sol_dollars sample); rs_terra_dollars := Some (hs_terra_dollars sample);
  rs_luna_dollars := Some (hs_luna_dollars sample); rs_sol_tokens := Some (hs_sol_tokens sample);
  rs_terra_tokens := Some (hs_terra_tokens sample); rs_luna_tokens := Some (hs_luna_tokens sample) |}.

(** ** Periods *)
Definition quota_period_start (reset_at window_seconds : Z) : option Z :=
  current_period_start_at reset_at window_seconds.
Definition canonical_period_reset_at (observed_reset_at timestamp : Z) (current_reset_at : option Z)
    (window_seconds : Z) : Z :=
  match current_reset_at with
  | None => observed_reset_at
  | Some authority =>
      match quota_period_start authority window_seconds with
      | None => observed_reset_at
      | Some start =>
          if (start <=? timestamp) && (timestamp <=? authority) then authority else observed_reset_at
      end
  end.
(** The reset of a new source wins, or yields to, the one already there. *)
Definition is_authority (current_reset_at : option Z) (reset_at : Z) : bool :=
  is_some_and (Z.eqb reset_at) current_reset_at.

(** ** Observations *)
Inductive HistoryModelSource := Confirmed | ReconstructedFromSession | Unavailable | LegacyUnknown.
#[export] Instance HistoryModelSource_eq_dec : EqDecision HistoryModelSource. Proof. solve_decision. Defined.
Definition source_str (self : HistoryModelSource) : text :=
  match self with
  | Confirmed => lit "confirmed"
  | ReconstructedFromSession => lit "reconstructed-from-session"
  | Unavailable => lit "unavailable"
  | LegacyUnknown => lit "legacy-unknown"
  end.
Definition source_of_str (s : text) : option HistoryModelSource :=
  if text_eqb s (lit "confirmed") then Some Confirmed
  else if text_eqb s (lit "reconstructed-from-session") then Some ReconstructedFromSession
  else if text_eqb s (lit "unavailable") then Some Unavailable
  else if text_eqb s (lit "legacy-unknown") then Some LegacyUnknown
  else None.
Record StoredHistoryObservation := {
  so_timestamp : Z;
  so_reset_at : Z;
  so_remaining_percent : option f64;
  so_model_source : HistoryModelSource;
  so_empty_model_set_complete : option bool;
  so_quota_only : bool
}.
Definition fixed_columns : list string :=
  ["sol_dollars"; "terra_dollars"; "luna_dollars"; "sol_tokens"; "terra_tokens"; "luna_tokens"].

Section observations.
Context {N : Type} `{JsonNumber N}.
Context (from_str : text → option (Value N)).

Definition percent_of (value : Value N) : option (option f64) :=
  if is_null value then Some None
  else
    x ← value_as_f64 value;
    if negb (f64_is_finite x) || negb (f64_leb f64_zero x && f64_leb x (f64_of_Z 100)) then None
    else Some (Some x).
Definition field (object : list (text * Value N)) (name : string) : option (Value N) := get (lit name) object.
Definition text_field (object : list (text * Value N)) (name : string) : option text := field object name ≫= as_str.
Definition object_of (snapshot_json : text) : option (list (text * Value N)) := from_str snapshot_json ≫= as_object.
Definition empty_set_of (object : list (text * Value N)) (model_source : HistoryModelSource) :
    option (option bool) :=
  match field object "empty_model_set_complete" with
  | None => Some None
  | Some value =>
      complete ← as_bool value;
      if bool_decide (model_source = Unavailable)
         || existsb (λ name, negb (is_some_and (λ x, f64_eqb x f64_zero)
              (field object name ≫= value_as_f64))) fixed_columns
      then None
      else Some (Some complete)
  end.
Definition parse_stored_history_observation (data_generation : Z) (snapshot_json : text) :
    option StoredHistoryObservation :=
  object ← object_of snapshot_json;
  if negb (bool_decide (text_field object "kind" = Some (lit "codex-info-usage-observation-v1")))
  then @None StoredHistoryObservation
  else
    timestamp ← field object "timestamp" ≫= value_as_i64;
    reset_at ← field object "reset_at" ≫= value_as_i64;
    if negb (timestamp =? data_generation) || negb (valid_public_timestamp timestamp)
       || negb (valid_public_timestamp reset_at)
    then @None StoredHistoryObservation
    else
      remaining_percent ← field object "remaining_percent" ≫= percent_of;
      model_source ← text_field object "model_source" ≫= source_of_str;
      empty_model_set_complete ← empty_set_of object model_source;
      Some {| so_timestamp := timestamp; so_reset_at := reset_at; so_remaining_percent := remaining_percent;
              so_model_source := model_source; so_empty_model_set_complete := empty_model_set_complete;
              so_quota_only :=
                bool_decide (model_source = Unavailable) && opt_is_some remaining_percent
                && forallb (λ name, is_some_and is_null (field object name)) fixed_columns |}.

Definition with_reset (reset_at : Z) (self : StoredHistoryObservation) : StoredHistoryObservation := {|
  so_timestamp := so_timestamp self; so_reset_at := reset_at;
  so_remaining_percent := so_remaining_percent self; so_model_source := so_model_source self;
  so_empty_model_set_complete := so_empty_model_set_complete self; so_quota_only := so_quota_only self |}.
(** Beside an observation, the reset its source names. *)
Record Observations := {
  ob_values : gmap (Z * Z) (Z * StoredHistoryObservation);
  ob_generations : gset Z
}.
Definition observation_row (intervals : ReadIntervals) (current_reset_at : option Z) (window_seconds : Z)
    (s : Observations) (row : Row) : Observations :=
  match sql_i64 row 1 with
  | None => s
  | Some data_generation =>
      if negb (valid_public_timestamp data_generation)
         || negb (intersects_canonical_minute intervals data_generation)
      then s
      else
        let s := {| ob_values := ob_values s; ob_generations := {[data_generation]} ∪ ob_generations s |} in
        match sql_text row 2 ≫= parse_stored_history_observation data_generation with
        | None => s
        | Some observation =>
            let source_reset_at := so_reset_at observation in
            let canonical_reset := canonical_period_reset_at (so_reset_at observation) (so_timestamp observation)
                                     current_reset_at window_seconds in
            let key := (canonical_reset, so_timestamp observation) in
            let entry := (source_reset_at, with_reset canonical_reset observation) in
            let authority := is_authority current_reset_at in
            let replaces := match ob_values s !! key with
              | None => true
              | Some (existing, _) =>
                  (authority source_reset_at && negb (authority existing))
                  || negb (authority existing && negb (authority source_reset_at))
              end in
            if replaces then
              {| ob_values := <[key := entry]> (ob_values s); ob_generations := ob_generations s |}
            else s
        end
  end.
Definition read_stored_history_observations_for_intervals (intervals : ReadIntervals)
    (current_reset_at : option Z) (window_seconds : Z) (rows : option (list Row)) :
    gmap (Z * Z) StoredHistoryObservation * gset Z :=
  let s := fold_left (observation_row intervals current_reset_at window_seconds) (default [] rows)
             {| ob_values := ∅; ob_generations := ∅ |} in
  (snd <$> ob_values s, ob_generations s).
End observations.

(** ** Model groups *)
Record RawModelTotal := {
  rm_model : text;
  rm_total_tokens : Z;
  rm_input_tokens : option Z;
  rm_cached_input_tokens : option Z;
  rm_output_tokens : option Z;
  rm_cache_write_input_tokens : option Z;
  rm_total_dollars : option f64
}.
Definition numeric_facts_are_consistent (self : RawModelTotal) : bool :=
  is_ok (validate_fact {| tf_total := rm_total_tokens self; tf_input := rm_input_tokens self;
    tf_cached_input := rm_cached_input_tokens self; tf_cache_write_input := rm_cache_write_input_tokens self;
    tf_output := rm_output_tokens self |}).
Record HistoryModelGroup := {
  hg_totals : gmap text RawModelTotal;
  hg_source_reset_at : gmap text Z;
  hg_complete : bool;
  hg_complete_known : bool;
  hg_valid : bool
}.
Definition HistoryModelGroup_default : HistoryModelGroup := {|
  hg_totals := ∅; hg_source_reset_at := ∅; hg_complete := false; hg_complete_known := false; hg_valid := true |}.
Definition model_set_complete (self : HistoryModelGroup) : bool :=
  hg_valid self && hg_complete_known self && hg_complete self.
Definition invalidate_group (self : HistoryModelGroup) : HistoryModelGroup := {|
  hg_totals := hg_totals self; hg_source_reset_at := hg_source_reset_at self; hg_complete := hg_complete self;
  hg_complete_known := hg_complete_known self; hg_valid := false |}.
Definition insert_total (row : RawModelTotal) (reset_at : Z) (complete valid : bool) (self : HistoryModelGroup) :
    HistoryModelGroup := {|
  hg_totals := <[rm_model row := row]> (hg_totals self);
  hg_source_reset_at := <[rm_model row := reset_at]> (hg_source_reset_at self);
  hg_complete := complete; hg_complete_known := true; hg_valid := valid |}.

Section groups.
Context (parse_f64 : text → option f64).
Definition sql_nonnegative_f64 (row : Row) (index : nat) : option f64 :=
  value ← match row !! index with
          | Some (SqlInteger value) => Some (f64_of_Z value)
          | Some (SqlReal value) => Some value
          | Some (SqlText bytes) => from_utf8 bytes ≫= parse_f64
          | _ => None
          end;
  then_some (f64_is_finite value && f64_leb f64_zero value) value.

(** The columns after the seven fixed ones depend on the age of the table. *)
Definition total_of_row (has_cache_write has_total_dollars : bool) (row : Row) : option (bool * RawModelTotal) :=
  complete ← sql_i64 row (7 + Nat.b2n has_cache_write + Nat.b2n has_total_dollars);
  complete ← match complete with 0 => Some false | 1 => Some true | _ => None end;
  model ← sql_text row 2;
  total_tokens ← sql_text row 3 ≫= canonical_timeline_u64;
  input_tokens ← sql_optional_token row 4;
  cached_input_tokens ← sql_optional_token row 5;
  output_tokens ← sql_optional_token row 6;
  cache_write_input_tokens ← (if has_cache_write then sql_optional_token row 7 else Some None);
  let total_dollars :=
    if has_total_dollars then sql_nonnegative_f64 row (7 + Nat.b2n has_cache_write) else None in
  Some (complete, {| rm_model := model; rm_total_tokens := total_tokens; rm_input_tokens := input_tokens;
    rm_cached_input_tokens := cached_input_tokens; rm_output_tokens := output_tokens;
    rm_cache_write_input_tokens := cache_write_input_tokens; rm_total_dollars := total_dollars |}).
Definition add_total (current_reset_at : option Z) (canonical_reset reset_at timestamp : Z)
    (self : HistoryModelGroup) (complete : bool) (row : RawModelTotal) : HistoryModelGroup :=
  if negb (valid_public_timestamp reset_at) || negb (valid_public_timestamp timestamp)
     || negb (is_valid_public_model_name (rm_model row)) || negb (numeric_facts_are_consistent row)
  then invalidate_group self
  else match hg_source_reset_at self !! rm_model row with
  | Some existing =>
      let authority := is_authority current_reset_at in
      if authority canonical_reset && authority existing && negb (authority reset_at) then self
      else if authority canonical_reset && authority reset_at && negb (authority existing)
      then insert_total row reset_at complete (hg_valid self) self
      else invalidate_group self
  | None =>
      if hg_complete_known self then
        insert_total row reset_at (hg_complete self)
          (hg_valid self && bool_decide (hg_complete self = complete)) self
      else insert_total row reset_at complete (hg_valid self) self
  end.
Definition group_row (has_cache_write has_total_dollars : bool) (intervals : ReadIntervals)
    (current_reset_at : option Z) (window_seconds : Z) (groups : gmap (Z * Z) HistoryModelGroup) (row : Row) :
    gmap (Z * Z) HistoryModelGroup :=
  match sql_i64 row 0, sql_i64 row 1 with
  | Some reset_at, Some timestamp =>
      if negb (intersects_canonical_minute intervals timestamp) then groups
      else
        let canonical_reset := canonical_period_reset_at reset_at timestamp current_reset_at window_seconds in
        let key := (canonical_reset, timestamp) in
        let group := default HistoryModelGroup_default (groups !! key) in
        <[key := match total_of_row has_cache_write has_total_dollars row with
                 | None => invalidate_group group
                 | Some (complete, total) =>
                     add_total current_reset_at canonical_reset reset_at timestamp group complete total
                 end]> groups
  | _, _ => groups
  end.
Definition read_history_model_groups_for_intervals (has_cache_write has_total_dollars : bool)
    (intervals : ReadIntervals) (current_reset_at : option Z) (window_seconds : Z) (rows : option (list Row)) :
    gmap (Z * Z) HistoryModelGroup :=
  fold_left (group_row has_cache_write has_total_dollars intervals current_reset_at window_seconds)
    (default [] rows) ∅.
End groups.
