(* ===== verification/Regression.v ===== *)
(** * Models whose published history would go backwards

    Models [suppress_regressing_history_models] of
    [crates/codex-info-db-reader/src/lib.rs]: of the rows of one period that were directly
    observed and are complete, only those are kept whose totals do not fall below an
    earlier one. The rows are visited in the order of their keys, period first. *)

From S2P Require Import Prelude Text Float64 Contract Details Spans TaskActivity.

(** ** The comparison of two observations of a model *)
Definition optional_u64_does_not_regress (candidate watermark : option Z) : bool :=
  match candidate, watermark with
  | Some candidate, Some watermark => watermark <=? candidate
  | _, _ => true
  end.
Definition optional_f64_does_not_regress (candidate watermark : option f64) : bool :=
  match candidate, watermark with
  | Some candidate, Some watermark => f64_leb watermark candidate
  | _, _ => true
  end.
Definition history_model_dominates (candidate watermark : PublicHistoryModelUsageV3) : bool :=
  (h3_total_tokens watermark <=? h3_total_tokens candidate)
  && optional_u64_does_not_regress (h3_input_tokens candidate) (h3_input_tokens watermark)
  && optional_u64_does_not_regress (h3_cached_input_tokens candidate) (h3_cached_input_tokens watermark)
  && optional_u64_does_not_regress (h3_cache_write_input_tokens candidate) (h3_cache_write_input_tokens watermark)
  && optional_u64_does_not_regress (h3_output_tokens candidate) (h3_output_tokens watermark)
  && optional_f64_does_not_regress (h3_total_dollars candidate) (h3_total_dollars watermark).
(** A known value replaces the watermark, an unknown one leaves it. *)
Definition latest {A} (candidate watermark : option A) : option A :=
  match candidate with Some _ => candidate | None => watermark end.
Definition advance_history_model_watermark (watermark candidate : PublicHistoryModelUsageV3) :
    PublicHistoryModelUsageV3 := {|
  h3_model := h3_model watermark;
  h3_total_tokens := h3_total_tokens candidate;
  h3_input_tokens := latest (h3_input_tokens candidate) (h3_input_tokens watermark);
  h3_cached_input_tokens := latest (h3_cached_input_tokens candidate) (h3_cached_input_tokens watermark);
  h3_cache_write_input_tokens :=
    latest (h3_cache_write_input_tokens candidate) (h3_cache_write_input_tokens watermark);
  h3_output_tokens := latest (h3_output_tokens candidate) (h3_output_tokens watermark);
  h3_total_dollars := latest (h3_total_dollars candidate) (h3_total_dollars watermark) |}.

(** ** Rows *)
Abbreviation watermarks := (gmap (Z * text) PublicHistoryModelUsageV3).
Definition regresses (marks : watermarks) (reset_at : Z) (candidate : PublicHistoryModelUsageV3) : bool :=
  is_some_and (λ watermark, negb (history_model_dominates candidate watermark))
    (marks !! (reset_at, h3_model candidate)).
Definition advance (reset_at : Z) (marks : watermarks) (candidate : PublicHistoryModelUsageV3) : watermarks :=
  let key := (reset_at, h3_model candidate) in
  <[key := match marks !! key with
           | Some watermark => advance_history_model_watermark watermark candidate
           | None => candidate
           end]> marks.
Definition by_model (models : list PublicHistoryModelUsageV3) : list PublicHistoryModelUsageV3 :=
  sort_by (λ left_ right_, text_leb (h3_model left_) (h3_model right_)) models.
Definition with_models (models : option (list PublicHistoryModelUsageV3)) (complete : bool) (source : text)
    (self : PublicHistoryObservationV3) : PublicHistoryObservationV3 := {|
  o3_timestamp := o3_timestamp self; o3_reset_at := o3_reset_at self;
  o3_remaining_percent := o3_remaining_percent self;
  o3_task_active_since_previous := o3_task_active_since_previous self;
  o3_models := models; o3_models_complete := complete; o3_model_source := source |}.
Definition confirmed (self : PublicHistoryObservationV3) : bool :=
  text_eqb (o3_model_source self) (lit "confirmed") && o3_models_complete self.
Definition suppress_row (marks : watermarks) (reset_at : Z) (observation : PublicHistoryObservationV3) :
    watermarks * PublicHistoryObservationV3 :=
  if negb (confirmed observation) then (marks, observation)
  else match o3_models observation with
  | None => (marks, observation)
  | Some models =>
      let suppressed := map h3_model (List.filter (regresses marks reset_at) models) in
      if bool_decide (suppressed = []) then
        (fold_left (advance reset_at) models marks,
         with_models (Some (by_model models)) (o3_models_complete observation) (o3_model_source observation)
           observation)
      else
        let models := List.filter (λ candidate, negb (bool_decide (h3_model candidate ∈ suppressed))) models in
        (marks,
         with_models (if bool_decide (models = []) then None else Some (by_model models)) false
           (lit "legacy-unknown") observation)
  end.
Definition suppress_step (s : watermarks * history_map) (key : Z * Z) : watermarks * history_map :=
  let '(marks, history) := s in
  match history !! key with
  | Some observation =>
      let '(marks, observation) := suppress_row marks key.1 observation in
      (marks, <[key := observation]> history)
  | None => s
  end.
Definition suppress_regressing_history_models (history : history_map) : history_map :=
  (fold_left suppress_step (keys_of history) (∅, history)).2.
