(* ===== verification/RegressionFacts.v ===== *)
(** * The published history of a period does not go backwards

    Shows that the watermarks of Regression.v stand for all the rows kept so far, and
    characterises the rows that are kept by comparing them with each other. *)

From S2P Require Import Prelude Text Float64 Contract Details Spans ReadIntervals TaskActivity TaskSpans TaskRows Regression.

(** ** Watermarks stand for all they were advanced with *)
Lemma u64_latest c m w :
  optional_u64_does_not_regress m w = true →
  optional_u64_does_not_regress c (latest m w)
  = optional_u64_does_not_regress c w && optional_u64_does_not_regress c m.
Proof. destruct c, m, w; simpl; lia. Qed.
Lemma f64_latest c m w :
  optional_f64_does_not_regress m w = true →
  optional_f64_does_not_regress c (latest m w)
  = optional_f64_does_not_regress c w && optional_f64_does_not_regress c m.
Proof.
  destruct c as [c|], m as [m|], w as [w|]; simpl; try done; [|by rewrite andb_true_r].
  intros Hw. destruct (f64_leb m c) eqn:E; [|by rewrite andb_false_r].
  by rewrite (f64_leb_trans w m c).
Qed.
Lemma advance_dominates c m w :
  history_model_dominates m w = true →
  history_model_dominates c (advance_history_model_watermark w m)
  = history_model_dominates c w && history_model_dominates c m.
Proof.
  unfold history_model_dominates. rewrite !andb_true_iff. intros (((((Ht & Hi) & Hc) & Hcw) & Ho) & Hd). simpl.
  rewrite !u64_latest, f64_latest by done.
  replace (h3_total_tokens m <=? h3_total_tokens c)
    with ((h3_total_tokens w <=? h3_total_tokens c) && (h3_total_tokens m <=? h3_total_tokens c)) by lia.
  repeat match goal with |- context [?a <=? ?b] => generalize (a <=? b) end.
  repeat match goal with |- context [optional_u64_does_not_regress ?a ?b] =>
    generalize (optional_u64_does_not_regress a b) end.
  repeat match goal with |- context [optional_f64_does_not_regress ?a ?b] =>
    generalize (optional_f64_does_not_regress a b) end.
  intros. repeat match goal with b : bool |- _ => destruct b; simpl; try done end.
Qed.
Lemma advance_regresses marks reset reset' m c :
  regresses marks reset m = false →
  regresses (advance reset marks m) reset' c = false ↔
  regresses marks reset' c = false ∧ (reset' = reset → h3_model c = h3_model m → history_model_dominates c m = true).
Proof.
  unfold regresses, advance. intros Hm.
  destruct (decide ((reset, h3_model m) = (reset', h3_model c))) as [[= <- Hn]|Hne].
  - rewrite <-Hn, lookup_insert_eq. simpl.
    destruct (marks !! (reset, h3_model m)) as [w|] eqn:E; simpl in *.
    + rewrite negb_false_iff in *. rewrite (advance_dominates c m w Hm), andb_true_iff, negb_false_iff.
      naive_solver.
    + rewrite negb_false_iff. naive_solver.
  - rewrite lookup_insert_ne by done. split; [|by intros []]. intros H. split; [done|].
    intros -> Hn. by destruct Hne; rewrite Hn.
Qed.
(** A row whose models have different names, none of which regresses. *)
Lemma advance_all marks reset models reset' c :
  NoDup (map h3_model models) → (∀ m, m ∈ models → regresses marks reset m = false) →
  regresses (fold_left (advance reset) models marks) reset' c = false ↔
  regresses marks reset' c = false ∧ ∀ m, m ∈ models → reset' = reset → h3_model c = h3_model m →
    history_model_dominates c m = true.
Proof.
  revert marks. induction models as [|m models IH]; intros marks Hnd Hno; simpl.
  { split; [intros; split; [done|]; by intros ? ?%elem_of_nil|by intros []]. }
  simpl in Hnd. apply NoDup_cons in Hnd as [Hm Hnd].
  rewrite IH; [| |intros m' Hm']; [|done|].
  - rewrite advance_regresses by (apply Hno, list_elem_of_here). split.
    + intros [[? ?] ?]. split; [done|]. intros m' [->|]%elem_of_cons; auto.
    + intros [? Hall]. split_and!; [done|apply Hall, list_elem_of_here|].
      intros m' Hm'. apply Hall. by apply list_elem_of_further.
  - apply advance_regresses; [apply Hno, list_elem_of_here|].
    split; [by apply Hno, list_elem_of_further|]. intros _ Hn. destruct Hm. rewrite <-Hn.
    apply list_elem_of_fmap. eauto.
Qed.

(** ** The pass over the rows *)
Definition distinct_models (h : history_map) : Prop :=
  ∀ k r models, h !! k = Some r → o3_models r = Some models → NoDup (map h3_model models).
(** The models of a row that other rows are compared with. *)
Definition kept_models (r : PublicHistoryObservationV3) : list PublicHistoryModelUsageV3 :=
  if confirmed r then default [] (o3_models r) else [].
(** Nothing a row kept at one of [keys] says is above the candidate. *)
Definition above (h : history_map) (keys : list (Z * Z)) (reset_at : Z) (c : PublicHistoryModelUsageV3) : Prop :=
  ∀ k r m, k ∈ keys → k.1 = reset_at → h !! k = Some r → m ∈ kept_models r → h3_model c = h3_model m →
    history_model_dominates c m = true.
Definition marked (h : history_map) (keys : list (Z * Z)) (marks : watermarks) : Prop :=
  ∀ reset_at c, regresses marks reset_at c = false ↔ above h keys reset_at c.
Lemma above_app h keys keys' reset c :
  above h (keys ++ keys') reset c ↔ above h keys reset c ∧ above h keys' reset c.
Proof. unfold above. setoid_rewrite elem_of_app. naive_solver. Qed.
Lemma above_ext h h' keys reset c :
  (∀ k, k ∈ keys → h !! k = h' !! k) → above h keys reset c ↔ above h' keys reset c.
Proof. unfold above. intros H. split; intros Ha k r m Hk; [rewrite <-(H k Hk)|rewrite (H k Hk)]; eauto. Qed.
Lemma by_model_elem m models : m ∈ by_model models ↔ m ∈ models.
Proof. apply sort_by_elem. Qed.

Lemma suppress_row_marks h keys marks k r :
  marked h keys marks → NoDup (map h3_model (default [] (o3_models r))) → h !! k = Some (suppress_row marks k.1 r).2 →
  marked h (keys ++ [k]) (suppress_row marks k.1 r).1.
Proof.
  intros Hm Hnd Hk reset c. rewrite above_app, <-(Hm reset c).
  assert (above h [k] reset c ↔ ∀ m, m ∈ kept_models (suppress_row marks k.1 r).2 → reset = k.1 →
    h3_model c = h3_model m → history_model_dominates c m = true) as ->.
  { unfold above. setoid_rewrite list_elem_of_singleton. split; [naive_solver|].
    intros H k' r' m -> <-. rewrite Hk. intros [= <-]. auto. }
  unfold suppress_row in *. destruct (confirmed r) eqn:Ec; simpl in *.
  2: { unfold kept_models. rewrite Ec. setoid_rewrite elem_of_nil. naive_solver. }
  destruct (o3_models r) as [models|] eqn:Em; simpl in *.
  2: { unfold kept_models. rewrite Ec, Em. simpl. setoid_rewrite elem_of_nil. naive_solver. }
  destruct (bool_decide_reflect (map h3_model (List.filter (regresses marks k.1) models) = [])) as [Hnil|Hne]; simpl.
  - rewrite advance_all by
      (first [done|intros m Hin; destruct (regresses marks k.1 m) eqn:Er; [|done];
        assert (m ∈ List.filter (regresses marks k.1) models) as Hf by (by apply elem_of_filter_bool);
        apply map_eq_nil in Hnil; rewrite Hnil in Hf; by apply elem_of_nil in Hf]).
    unfold kept_models. replace (confirmed (with_models _ _ _ r)) with true by done. simpl.
    by setoid_rewrite by_model_elem.
  - unfold kept_models. replace (confirmed (with_models _ _ _ r)) with false; [|done].
    setoid_rewrite elem_of_nil. naive_solver.
Qed.

Lemma suppress_fold h keys :
  distinct_models h → NoDup keys → (∀ k, k ∈ keys → is_Some (h !! k)) →
  let s := fold_left suppress_step keys (∅, h) in
  (∀ k, k ∉ keys → s.2 !! k = h !! k) ∧ marked s.2 keys s.1
  ∧ ∀ pre k post r, keys = pre ++ k :: post → h !! k = Some r →
      ∃ marks, marked s.2 pre marks ∧ s.2 !! k = Some (suppress_row marks k.1 r).2.
Proof.
  intros Hd. induction keys as [|k keys IH] using rev_ind; simpl; intros Hnd Hkeys.
  { split_and!; [done| |by intros []]. intros reset c. split; [by intros _ ? ? ? ?%elem_of_nil|done]. }
  apply NoDup_app in Hnd as (Hnd & Hk & _).
  assert (k ∉ keys) as Hnew by (intros Hin; apply (Hk k Hin), list_elem_of_here).
  destruct IH as (Hout & Hm & Hrows); [done|intros; apply Hkeys, elem_of_app; by left|].
  rewrite fold_left_app. simpl. destruct (fold_left suppress_step keys (∅, h)) as [marks h1]. simpl in *.
  destruct (Hkeys k) as [r Hr]; [rewrite elem_of_app; right; apply list_elem_of_here|].
  rewrite Hout, Hr by done. destruct (suppress_row marks k.1 r) as [marks' r'] eqn:Es. simpl.
  assert (∀ k', k' ∈ keys → h1 !! k' = <[k:=r']> h1 !! k') as Hsame.
  { intros k' Hin. rewrite lookup_insert_ne; [done|]. by intros ->. }
  assert (∀ pre post, keys = pre ++ post → ∀ marks, marked h1 pre marks → marked (<[k:=r']> h1) pre marks) as Hpre.
  { intros pre post -> ms Hms reset c. rewrite (Hms reset c). apply above_ext. intros k' Hin.
    apply Hsame. rewrite elem_of_app. by left. }
  split_and!.
  - intros k' [H1 H2]%not_elem_of_app. rewrite lookup_insert_ne; [auto|]. intros ->. apply H2, list_elem_of_here.
  - replace marks' with (suppress_row marks k.1 r).1 by (by rewrite Es). apply suppress_row_marks.
    + apply (Hpre keys []); [by rewrite app_nil_r|done].
    + destruct (o3_models r) eqn:Em; [by apply (Hd k r)|constructor].
    + by rewrite lookup_insert_eq, Es.
  - intros pre k' post r0 E Hr0. destruct post as [|p post _] using rev_ind.
    + apply app_inj_tail in E as [<- <-]. rewrite Hr in Hr0. injection Hr0 as <-. exists marks.
      rewrite lookup_insert_eq, Es. split; [|done]. apply (Hpre keys []); [by rewrite app_nil_r|done].
    + rewrite app_comm_cons, (assoc_L (++)) in E. apply app_inj_tail in E as [-> <-].
      destruct (Hrows pre k' post r0 eq_refl Hr0) as (ms & Hms & Hrow). exists ms.
      split; [by apply (Hpre pre (k' :: post))|]. rewrite <-Hsame; [done|].
      rewrite elem_of_app. right. apply list_elem_of_here.
Qed.

(** ** Rows before a row *)
Lemma NoDup_map_inj {A B} (f : A → B) (l : list A) x y :
  NoDup (map f l) → x ∈ l → y ∈ l → f x = f y → x = y.
Proof.
  intros Hnd [i Hi]%list_elem_of_lookup [j Hj]%list_elem_of_lookup E.
  assert (i = j) as ->; [|congruence]. apply (NoDup_lookup (map f l) i j (f x)); [done|..].
  - by rewrite list_lookup_fmap, Hi.
  - by rewrite list_lookup_fmap, Hj, E.
Qed.
Lemma keys_of_before h pre k post k1 :
  keys_of h = pre ++ k :: post → k1.1 = k.1 → k1 ∈ pre ↔ is_Some (h !! k1) ∧ k1.2 < k.2.
Proof.
  intros E H1. rewrite <-elem_of_keys_of, E. pose proof (keys_of_NoDup h) as Hnd. rewrite E in Hnd.
  assert (StronglySorted (λ a b : Z * Z, span_leb a b = true) (pre ++ k :: post)) as Hs.
  { rewrite <-E. apply sort_by_sorted.
    - intros a b. rewrite !span_leb_iff. lia.
    - intros a b c. rewrite !span_leb_iff. lia. }
  apply NoDup_app in Hnd as (_ & Hk & Hpost).
  apply NoDup_cons in Hpost as [Hkpost _]. split.
  - intros Hin. split; [rewrite elem_of_app; by left|].
    assert (span_leb k1 k = true) as Hle.
    { apply (StronglySorted_app_1_elem_of (λ a b : Z * Z, span_leb a b = true) pre (k :: post)); [done..|].
      apply list_elem_of_here. }
    apply span_leb_iff in Hle. assert (k1.2 ≠ k.2); [|lia]. intros H2. apply (Hk k1 Hin).
    replace k1 with k by (destruct k, k1; simpl in *; congruence). apply list_elem_of_here.
  - intros [[Hin|[->|Hin]%elem_of_cons]%elem_of_app Hlt]; [done|lia|].
    apply StronglySorted_app_1_r, StronglySorted_inv in Hs as [_ Hs].
    apply (Forall_forall _ _) with (x := k1) in Hs; [|done]. apply span_leb_iff in Hs. lia.
Qed.
(** A model observation that falls below no earlier row kept for the same period. *)
Definition no_regress (h : history_map) (k : Z * Z) (c : PublicHistoryModelUsageV3) : Prop :=
  ∀ k1 r1 m, k1.1 = k.1 → k1.2 < k.2 → h !! k1 = Some r1 → m ∈ kept_models r1 → h3_model c = h3_model m →
    history_model_dominates c m = true.

Lemma suppression_rows h k r :
  distinct_models h → h !! k = Some r →
  let h' := suppress_regressing_history_models h in
  ∃ marks, h' !! k = Some (suppress_row marks k.1 r).2
    ∧ ∀ c, regresses marks k.1 c = false ↔ no_regress h' k c.
Proof.
  intros Hd Hr. cbn zeta. unfold suppress_regressing_history_models.
  destruct (suppress_fold h (keys_of h) Hd (keys_of_NoDup h)) as (Hout & _ & Hrows).
  { intros k'. by rewrite elem_of_keys_of. }
  assert (k ∈ keys_of h) as (pre & post & E)%list_elem_of_split by (rewrite elem_of_keys_of; eauto).
  destruct (Hrows pre k post r E Hr) as (marks & Hm & Hk). exists marks. split; [done|].
  intros c. rewrite (Hm k.1 c). unfold above, no_regress. split.
  - intros H k1 r1 m H1 H2 Hk1 Hin Hn. apply (H k1 r1 m); [|done..].
    apply (keys_of_before h pre k post); [done..|]. split; [|done].
    destruct (decide (k1 ∈ keys_of h)) as [Hin1|Hout1]; [by apply elem_of_keys_of|].
    rewrite Hout in Hk1 by done. eauto.
  - intros H k1 r1 m Hin H1 Hk1 Hm1 Hn. apply (H k1 r1 m); [done| |done..].
    by apply (keys_of_before h pre k post k1 E H1) in Hin as [_ ?].
Qed.

Lemma suppress_absent h k :
  distinct_models h → h !! k = None → suppress_regressing_history_models h !! k = None.
Proof.
  intros Hd Hk. destruct (suppress_fold h (keys_of h) Hd (keys_of_NoDup h)) as (Hout & _).
  { intros k'. by rewrite elem_of_keys_of. }
  unfold suppress_regressing_history_models. rewrite Hout; [done|]. rewrite elem_of_keys_of, Hk. by intros [].
Qed.

(** Rows that are not both directly observed and complete stay as they are. Any other row
    is kept, its models in the order of their names, when none of its models falls below
    a row of the same period kept before it; else only the models that do not are left,
    and the row is no longer taken as an observation. *)
Theorem suppression_exact h :
  distinct_models h →
  let h' := suppress_regressing_history_models h in
  ∀ k, match h !! k with
  | None => h' !! k = None
  | Some r =>
      match (if confirmed r then o3_models r else None) with
      | None => h' !! k = Some r
      | Some models =>
          (Forall (no_regress h' k) models →
            h' !! k = Some (with_models (Some (by_model models)) true (lit "confirmed") r))
          ∧ (¬ Forall (no_regress h' k) models → ∃ left, (∀ m, m ∈ left ↔ m ∈ models ∧ no_regress h' k m)
            ∧ h' !! k = Some (with_models (if bool_decide (left = []) then None else Some (by_model left)) false
                                (lit "legacy-unknown") r))
      end
  end.
Proof.
  intros Hd h' k. destruct (h !! k) as [r|] eqn:Hr.
  2: { by apply suppress_absent. }
  destruct (suppression_rows h k r Hd Hr) as (marks & Hk & Hm). fold h' in Hk, Hm. rewrite Hk.
  unfold suppress_row. destruct (confirmed r) eqn:Ec; simpl; [|done].
  destruct (o3_models r) as [models|] eqn:Em; [|done].
  apply andb_true_iff in Ec as [Hs%text_eqb_true Hc]. rewrite Hs, Hc.
  assert (Forall (no_regress h' k) models ↔ map h3_model (List.filter (regresses marks k.1) models) = []) as Hall.
  { rewrite Forall_forall. setoid_rewrite <-Hm. split.
    - intros H. destruct (List.filter _ models) as [|m l] eqn:E; [done|].
      assert (m ∈ List.filter (regresses marks k.1) models) as [Hin Hreg]%elem_of_filter_bool
        by (rewrite E; apply list_elem_of_here). by rewrite H in Hreg.
    - intros Hnil%map_eq_nil m Hin. destruct (regresses marks k.1 m) eqn:E; [|done].
      assert (m ∈ List.filter (regresses marks k.1) models) as Hf by (by apply elem_of_filter_bool).
      rewrite Hnil in Hf. by apply elem_of_nil in Hf. }
  destruct (bool_decide_reflect (map h3_model (List.filter (regresses marks k.1) models) = [])) as [Hnil|Hne].
  - split; [done|tauto].
  - split; [tauto|]. intros _. eexists. split; [|done]. intros m. rewrite elem_of_filter_bool.
    rewrite negb_true_iff, bool_decide_eq_false, <-Hm. split; intros [Hin Hreg]; (split; [done|]).
    + destruct (regresses marks k.1 m) eqn:E; [|done]. destruct Hreg. apply list_elem_of_fmap. exists m.
      by rewrite elem_of_filter_bool.
    + intros (m' & Hn & [Hin' Hr']%elem_of_filter_bool)%list_elem_of_fmap.
      assert (m = m') as ->; [|congruence].
      apply (NoDup_map_inj h3_model models); [by apply (Hd k r)|done..].
Qed.
(** Of two rows that are kept for one period, the later one has no total, component or
    amount of a model below what the earlier one has. *)
Lemma kept_monotone h k1 k2 r1 r2 m1 m2 :
  distinct_models h → let h' := suppress_regressing_history_models h in
  h' !! k1 = Some r1 → h' !! k2 = Some r2 → k1.1 = k2.1 → k1.2 < k2.2 →
  m1 ∈ kept_models r1 → m2 ∈ kept_models r2 → h3_model m1 = h3_model m2 → history_model_dominates m2 m1 = true.
Proof.
  intros Hd h' H1 H2 E Hlt Hm1 Hm2 En.
  destruct (h !! k2) as [r|] eqn:Hr.
  2: { exfalso. unfold h' in H2. by rewrite suppress_absent in H2. }
  destruct (suppression_rows h k2 r Hd Hr) as (marks & Hk & Hm). fold h' in Hk, Hm.
  rewrite H2 in Hk. injection Hk as ->.
  assert (regresses marks k2.1 m2 = false) as Hno; [|by apply (proj1 (Hm m2) Hno k1 r1 m1)].
  unfold suppress_row, kept_models in Hm2. destruct (confirmed r) eqn:Ec; simpl in Hm2; [|rewrite Ec in Hm2; by apply elem_of_nil in Hm2].
  destruct (o3_models r) as [models|] eqn:Em; simpl in Hm2; [|rewrite Ec, Em in Hm2; by apply elem_of_nil in Hm2].
  destruct (bool_decide_reflect (map h3_model (List.filter (regresses marks k2.1) models) = [])) as [Hnil|]; simpl in Hm2.
  - assert (confirmed (with_models (Some (by_model models)) (o3_models_complete r) (o3_model_source r) r) = true) as Ec'
      by done.
    rewrite Ec' in Hm2. simpl in Hm2. rewrite by_model_elem in Hm2.
    destruct (regresses marks k2.1 m2) eqn:Ereg; [|done]. exfalso. apply map_eq_nil in Hnil.
    assert (m2 ∈ List.filter (regresses marks k2.1) models) as Hf by (by apply elem_of_filter_bool).
    rewrite Hnil in Hf. by apply elem_of_nil in Hf.
  - unfold confirmed in Hm2. simpl in Hm2. by apply elem_of_nil in Hm2.
Qed.

(** *** Three rows of one period; the second falls below the first *)
Definition example_usage (model : string) (total : Z) (input : option Z) : PublicHistoryModelUsageV3 := {|
  h3_model := lit model; h3_total_tokens := total; h3_input_tokens := input; h3_cached_input_tokens := None;
  h3_cache_write_input_tokens := None; h3_output_tokens := None; h3_total_dollars := None |}.
Definition example_observation (timestamp : Z) (models : list PublicHistoryModelUsageV3) :
    PublicHistoryObservationV3 := {|
  o3_timestamp := timestamp; o3_reset_at := 1000; o3_remaining_percent := None;
  o3_task_active_since_previous := None; o3_models := Some models; o3_models_complete := true;
  o3_model_source := lit "confirmed" |}.
Definition example_falling : history_map := list_to_map [
  ((1000, 60), example_observation 60 [example_usage "b" 7 None; example_usage "a" 10 (Some 9)]);
  ((1000, 120), example_observation 120 [example_usage "a" 10 (Some 8); example_usage "b" 8 None]);
  ((1000, 180), example_observation 180 [example_usage "a" 12 None; example_usage "b" 7 (Some 3)])].
Lemma example_falling_distinct : distinct_models example_falling.
Proof.
  intros k r models Hk%elem_of_list_to_map_2 Hm.
  repeat (apply elem_of_cons in Hk as [[= -> ->]|Hk];
    [injection Hm as <-; apply (bool_decide_eq_true (NoDup _)); by vm_compute|]).
  by apply elem_of_nil in Hk.
Qed.
Lemma suppression_exact_witness :
  let h' := suppress_regressing_history_models example_falling in
  let k := (1000, 120) in
  match example_falling !! k with
  | None => h' !! k = None
  | Some r =>
      match (if confirmed r then o3_models r else None) with
      | None => h' !! k = Some r
      | Some models =>
          (Forall (no_regress h' k) models →
            h' !! k = Some (with_models (Some (by_model models)) true (lit "confirmed") r))
          ∧ (¬ Forall (no_regress h' k) models → ∃ left, (∀ m, m ∈ left ↔ m ∈ models ∧ no_regress h' k m)
            ∧ h' !! k = Some (with_models (if bool_decide (left = []) then None else Some (by_model left)) false
                                (lit "legacy-unknown") r))
      end
  end.
Proof. exact (suppression_exact example_falling example_falling_distinct (1000, 120)). Defined.
Example example_falling_rows :
  map (λ k, (λ r, (o3_models_complete r, map h3_total_tokens (default [] (o3_models r))))
              <$> suppress_regressing_history_models example_falling !! k) [(1000, 60); (1000, 120); (1000, 180)]
  = [Some (true, [10; 7]); Some (false, [8]); Some (true, [12; 7])].
Proof. by vm_compute. Qed.
