(* ===== verification/HistoryProjection.v ===== *)
(** * The projection of the history

    Models [read_history_projection_for_intervals] of
    [crates/codex-info-db-reader/src/lib.rs] and what it calls: the parent rows are joined
    with the observations and model groups of the same minute, rows that would go
    backwards are taken back (Regression.v), and the activity of tasks is assigned
    (TaskActivity.v); and the projection of the result to the older versions. The
    period labels the source assigns at the end are those of HistoryPeriods.v. *)

From S2P Require Import Prelude Text Float64 Json Contract TokenFacts Details Pricing Accounts Spans ReadIntervals TaskActivity SqlRow StoredHistory Regression.

(** ** The models of a row *)
Definition fixed_dollars (sample : StoredHistorySample) (model : text) : option f64 :=
  if text_eqb model (lit "SOL") then rs_sol_dollars sample
  else if text_eqb model (lit "TERRA") then rs_terra_dollars sample
  else if text_eqb model (lit "LUNA") then rs_luna_dollars sample
  else None.
(** [Option::or] *)
Definition option_or {A} (a b : option A) : option A := match a with Some _ => a | None => b end.
Definition history_model_usage_v3_with_family_fallback (total : RawModelTotal) (sample : StoredHistorySample)
    (family_fallback_allowed : bool) : PublicHistoryModelUsageV3 := {|
  h3_model := rm_model total; h3_total_tokens := rm_total_tokens total; h3_input_tokens := rm_input_tokens total;
  h3_cached_input_tokens := rm_cached_input_tokens total;
  h3_cache_write_input_tokens := rm_cache_write_input_tokens total;
  h3_output_tokens := rm_output_tokens total;
  h3_total_dollars := option_or (rm_total_dollars total)
    (if family_fallback_allowed then fixed_dollars sample (rm_model total) else None) |}.
Definition legacy_history_models_v3 (sample : StoredHistorySample) : list PublicHistoryModelUsageV3 :=
  filter_map (λ '(model, total_tokens, total_dollars),
    total ← total_tokens;
    Some {| h3_model := lit model; h3_total_tokens := total; h3_input_tokens := None;
            h3_cached_input_tokens := None; h3_cache_write_input_tokens := None; h3_output_tokens := None;
            h3_total_dollars := total_dollars |})
    [("SOL"%string, rs_sol_tokens sample, rs_sol_dollars sample);
     ("TERRA"%string, rs_terra_tokens sample, rs_terra_dollars sample);
     ("LUNA"%string, rs_luna_tokens sample, rs_luna_dollars sample)].
Definition totals_of (group : HistoryModelGroup) : list RawModelTotal := map snd (rows (hg_totals group)).
(** The fixed column of a family is not repeated beside an exact model of the family. *)
Definition family_fallback_allowed (totals : list RawModelTotal) (total : RawModelTotal) : bool :=
  negb (is_any (rm_model total) ["SOL"; "TERRA"; "LUNA"])
  || negb (existsb (λ peer, negb (text_eqb (rm_model peer) (rm_model total))
                            && bool_decide (family (rm_model peer) = Some (rm_model total))) totals).
Definition push_legacy (models : list PublicHistoryModelUsageV3) (legacy : PublicHistoryModelUsageV3) :
    list PublicHistoryModelUsageV3 :=
  if negb (existsb (λ model, bool_decide (family (h3_model model) = family (h3_model legacy))) models)
  then models ++ [legacy] else models.
Definition history_models_v3 (group : option HistoryModelGroup) (sample : StoredHistorySample)
    (models_complete : bool) : option (list PublicHistoryModelUsageV3) :=
  let totals := from_option totals_of [] group in
  let models := map (λ total, history_model_usage_v3_with_family_fallback total sample
                                (family_fallback_allowed totals total)) totals in
  let models := if negb models_complete then fold_left push_legacy (legacy_history_models_v3 sample) models
                else models in
  let models := by_model models in
  then_some (models_complete || negb (bool_decide (models = []))) models.

(** ** The rows *)
Record HistoryInputs := {
  hi_observations : list StoredHistoryObservation;
  hi_generations : gset Z;
  hi_groups : gmap (Z * Z) HistoryModelGroup
}.
Definition nonzero_tokens (value : option Z) : bool := is_some_and (λ v, negb (v =? 0)) value.
Definition nonzero_dollars (value : option f64) : bool := is_some_and (λ v, negb (f64_eqb v f64_zero)) value.
Definition has_numerics (sample : StoredHistorySample) : bool :=
  nonzero_tokens (rs_sol_tokens sample) || nonzero_tokens (rs_terra_tokens sample)
  || nonzero_tokens (rs_luna_tokens sample) || nonzero_dollars (rs_sol_dollars sample)
  || nonzero_dollars (rs_terra_dollars sample) || nonzero_dollars (rs_luna_dollars sample).
Definition nonempty_group (group : HistoryModelGroup) : bool := negb (bool_decide (hg_totals group = ∅)).
Definition project_row (quota_only : bool) (stored : option StoredHistoryObservation)
    (group : option HistoryModelGroup) (provenance : bool) (sample : StoredHistorySample) :
    PublicHistoryObservationV3 :=
  let empty_set := stored ≫= so_empty_model_set_complete in
  let empty_conflict := opt_is_some empty_set && (opt_is_some group || has_numerics sample) in
  let model_source :=
    if quota_only || empty_conflict then Unavailable
    else match stored with
         | Some observation => so_model_source observation
         | None => if provenance then Unavailable else LegacyUnknown
         end in
  let group_models_complete := default (is_some_and model_set_complete group) empty_set in
  let source :=
    match model_source with
    | Unavailable => Unavailable
    | ReconstructedFromSession => ReconstructedFromSession
    | Confirmed =>
        if bool_decide (empty_set = Some true) || is_some_and nonempty_group group then Confirmed
        else LegacyUnknown
    | LegacyUnknown => LegacyUnknown
    end in
  let models_complete := bool_decide (source = Confirmed) && group_models_complete in
  let models :=
    match source with
    | ReconstructedFromSession | Unavailable => None
    | _ => if opt_is_some empty_set then Some [] else history_models_v3 group sample models_complete
    end in
  {| o3_timestamp := rs_timestamp sample; o3_reset_at := rs_reset_at sample;
     o3_remaining_percent := rs_remaining_percent sample; o3_task_active_since_previous := None;
     o3_models := models; o3_models_complete := models_complete; o3_model_source := source_str source |}.
Definition observation_key (observation : StoredHistoryObservation) : Z * Z :=
  (so_reset_at observation, so_timestamp observation).
Definition by_key (observations : list StoredHistoryObservation) : gmap (Z * Z) StoredHistoryObservation :=
  fold_left (λ values observation, <[observation_key observation := observation]> values) observations ∅.
Definition add_sample (quota_only_keys : gset (Z * Z)) (inputs : HistoryInputs)
    (observations_by_key : gmap (Z * Z) StoredHistoryObservation) (history : history_map)
    (sample : StoredHistorySample) : history_map :=
  let key := (rs_reset_at sample, rs_timestamp sample) in
  <[key := project_row (bool_decide (key ∈ quota_only_keys)) (observations_by_key !! key) (hi_groups inputs !! key)
             (bool_decide (rs_timestamp sample ∈ hi_generations inputs)) sample]> history.
(** Observations without a parent row stay visible in a period that is shown. *)
Definition unavailable_point (reset_at : Z) (observation : StoredHistoryObservation) : PublicHistoryObservationV3 := {|
  o3_timestamp := so_timestamp observation; o3_reset_at := reset_at;
  o3_remaining_percent := so_remaining_percent observation; o3_task_active_since_previous := None;
  o3_models := None; o3_models_complete := false; o3_model_source := lit "unavailable" |}.
Definition sidecar_in_period (observation : StoredHistoryObservation) (period : PublicHistoryPeriod) : bool :=
  (i64_saturating_sub (hp_reset_at period) RESET_AT_TOLERANCE_SECONDS <=? so_reset_at observation)
  && (so_reset_at observation <=? hp_reset_at period)
  && history_minute_in_period (so_timestamp observation) (hp_start_at period) (hp_end_at period).
Definition add_sidecar (periods : list PublicHistoryPeriod) (history : history_map)
    (observation : StoredHistoryObservation) : history_map :=
  if negb (bool_decide (so_model_source observation = Unavailable)) then history
  else match List.find (sidecar_in_period observation) periods with
  | None => history
  | Some period =>
      let key := (hp_reset_at period, so_timestamp observation) in
      match history !! key with
      | Some _ => history
      | None => <[key := unavailable_point (hp_reset_at period) observation]> history
      end
  end.
Definition join_rows (quota_only_keys : gset (Z * Z)) (inputs : HistoryInputs) (cutoff observed_at : Z)
    (samples : list StoredHistorySample) (periods : list PublicHistoryPeriod) : history_map :=
  let observations := List.filter (λ value, (cutoff <? so_timestamp value) && (so_timestamp value <=? observed_at))
                        (hi_observations inputs) in
  let history := fold_left (add_sample quota_only_keys inputs (by_key observations)) samples ∅ in
  fold_left (add_sidecar periods) observations history.
(** [BTreeMap::into_values] *)
Definition values_of (history : history_map) : list PublicHistoryObservationV3 :=
  filter_map (λ key, history !! key) (keys_of history).
Definition project_history (quota_only_keys : gset (Z * Z)) (inputs : HistoryInputs) (cutoff observed_at : Z)
    (samples : list StoredHistorySample) (periods : list PublicHistoryPeriod) (evidence : TaskActivityEvidence)
    (intervals : ReadIntervals) : history_map :=
  let history := join_rows quota_only_keys inputs cutoff observed_at samples periods in
  let history := suppress_regressing_history_models history in
  assign_task_activity_for_intervals history periods evidence intervals.

Section read.
Context {N : Type} `{JsonNumber N}.
Context (from_str : text → option (Value N)) (parse_f64 : text → option f64).
(** The two tables, [None] for one that does not exist, with the columns the second has. *)
Record HistoryTables := {
  ht_observations : option (list Row);
  ht_models : option (list Row);
  ht_cache_write : bool;
  ht_total_dollars : bool
}.
Definition read_history_inputs (intervals : ReadIntervals) (legacy_alias_reset_at : option Z) (window_seconds : Z)
    (tables : HistoryTables) : HistoryInputs :=
  let '(observations, generations) :=
    read_stored_history_observations_for_intervals from_str intervals legacy_alias_reset_at window_seconds
      (ht_observations tables) in
  {| hi_observations := filter_map (λ key, observations !! key)
       (sort_by span_leb (map fst (map_to_list observations)));
     hi_generations := generations;
     hi_groups := read_history_model_groups_for_intervals parse_f64 (ht_cache_write tables)
       (ht_total_dollars tables) intervals legacy_alias_reset_at window_seconds (ht_models tables) |}.
Definition read_history_projection_for_intervals (tables : HistoryTables) (samples : list StoredHistorySample)
    (periods : list PublicHistoryPeriod) (observed_at cutoff : Z) (evidence : TaskActivityEvidence)
    (intervals : ReadIntervals) (quota_only_keys : gset (Z * Z)) (current_reset_at : option Z)
    (window_seconds : Z) (history_is_canonical : bool) : list PublicHistoryObservationV3 :=
  let legacy_alias_reset_at := opt_filter (λ _, negb history_is_canonical) current_reset_at in
  let inputs := read_history_inputs intervals legacy_alias_reset_at window_seconds tables in
  values_of (project_history quota_only_keys inputs cutoff observed_at samples periods evidence intervals).
End read.

(** ** Older versions *)
Definition legacy_by_key (samples : list StoredHistorySample) : gmap (Z * Z) StoredHistorySample :=
  fold_left (λ values sample,
    let key := (rs_reset_at sample, rs_timestamp sample) in
    match values !! key with Some _ => values | None => <[key := sample]> values end) samples ∅.
Definition observation_v2 (legacy : gmap (Z * Z) StoredHistorySample) (sample : PublicHistoryObservationV3) :
    PublicHistoryObservation :=
  let fixed := opt_filter (λ legacy, opt_is_some (legacy_raw legacy))
                 (legacy !! (o3_reset_at sample, o3_timestamp sample)) in
  let legacy := if is_any (o3_model_source sample) ["reconstructed-from-session"; "unavailable"] then None else fixed in
  {| ho_timestamp := o3_timestamp sample; ho_reset_at := o3_reset_at sample;
     ho_remaining_percent := o3_remaining_percent sample;
     ho_sol_dollars := legacy ≫= rs_sol_dollars; ho_terra_dollars := legacy ≫= rs_terra_dollars;
     ho_luna_dollars := legacy ≫= rs_luna_dollars; ho_sol_tokens := legacy ≫= rs_sol_tokens;
     ho_terra_tokens := legacy ≫= rs_terra_tokens; ho_luna_tokens := legacy ≫= rs_luna_tokens;
     ho_model_source :=
       if negb (opt_is_some fixed) && is_any (o3_model_source sample) ["confirmed"; "legacy-unknown"]
       then lit "unavailable" else o3_model_source sample |}.
Definition history_observations_v2_from_stored (samples : list StoredHistorySample)
    (history_v3 : list PublicHistoryObservationV3) : list PublicHistoryObservation :=
  map (observation_v2 (legacy_by_key samples)) history_v3.
Definition history_samples_v1 (samples : list PublicHistoryObservation) : list PublicHistorySample :=
  filter_map as_legacy_sample samples.
