(* ===== verification/ProjectionFacts.v ===== *)
(** * What the published history claims

    Relates the rows of HistoryProjection.v to the contract of the published document:
    what a row may claim, that models are well formed, and that the history of a period
    does not go backwards, from the rows of the tables to the published list. *)

From S2P Require Import Prelude Text Float64 Json Contract TokenFacts Details Pricing Accounts Spans ReadIntervals TaskActivity TaskSpans TaskRows SqlRow TaskEvidence StoredHistory Regression RegressionFacts HistoryProjection.

(** ** What a row may claim *)
Definition usage_facts (m : PublicHistoryModelUsageV3) : TokenFacts := {|
  tf_total := h3_total_tokens m; tf_input := h3_input_tokens m; tf_cached_input := h3_cached_input_tokens m;
  tf_cache_write_input := h3_cache_write_input_tokens m; tf_output := h3_output_tokens m |}.
(** A published name with consistent token facts. *)
Definition usage_ok (m : PublicHistoryModelUsageV3) : Prop :=
  is_valid_public_model_name (h3_model m) = true ∧ validate_fact (usage_facts m) = Ok ().
Record row_ok (r : PublicHistoryObservationV3) : Prop := {
  ok_source : is_any (o3_model_source r) ["confirmed"; "reconstructed-from-session"; "unavailable"; "legacy-unknown"]
              = true;
  ok_complete : o3_models_complete r = true → o3_model_source r = lit "confirmed" ∧ is_Some (o3_models r);
  ok_no_numbers :
    is_any (o3_model_source r) ["reconstructed-from-session"; "unavailable"] = true → o3_models r = None;
  ok_models : ∀ models, o3_models r = Some models →
    NoDup (map h3_model models) ∧ StronglySorted (λ a b, text_leb (h3_model a) (h3_model b) = true) models
    ∧ Forall usage_ok models
}.
Lemma row_ok_activity f r : row_ok r → row_ok (with_activity f r).
Proof. by intros []. Qed.
Lemma row_ok_metadata r :
  o3_models r = None → o3_models_complete r = false → o3_model_source r = lit "unavailable" → row_ok r.
Proof. intros H1 H2 H3. split; rewrite ?H1, ?H2, ?H3; try done. Qed.
Lemma by_model_sorted models : StronglySorted (λ a b, text_leb (h3_model a) (h3_model b) = true) (by_model models).
Proof.
  apply sort_by_sorted; intros; [apply text_leb_total|by eapply text_leb_trans].
Qed.
Lemma by_model_names models : map h3_model (by_model models) ≡ₚ map h3_model models.
Proof. apply fmap_Permutation, sort_by_perm. Qed.

(** ** Groups *)
Definition total_facts (t : RawModelTotal) : TokenFacts := {|
  tf_total := rm_total_tokens t; tf_input := rm_input_tokens t; tf_cached_input := rm_cached_input_tokens t;
  tf_cache_write_input := rm_cache_write_input_tokens t; tf_output := rm_output_tokens t |}.
Definition sound_group (g : HistoryModelGroup) : Prop :=
  ∀ k t, hg_totals g !! k = Some t →
    rm_model t = k ∧ is_valid_public_model_name k = true ∧ validate_fact (total_facts t) = Ok ().
Definition sound_groups (groups : gmap (Z * Z) HistoryModelGroup) : Prop :=
  ∀ key g, groups !! key = Some g → sound_group g.
Lemma insert_total_sound row reset_at complete valid g :
  is_valid_public_model_name (rm_model row) = true → numeric_facts_are_consistent row = true →
  sound_group g → sound_group (insert_total row reset_at complete valid g).
Proof.
  intros Hn Hf Hg k t. simpl. destruct (decide (rm_model row = k)) as [<-|Hne].
  - rewrite lookup_insert_eq. intros [= <-]. split_and!; [done..|]. unfold numeric_facts_are_consistent in Hf.
    unfold total_facts. by destruct (validate_fact _) as [[]|].
  - rewrite lookup_insert_ne by done. apply Hg.
Qed.
Lemma add_total_sound current canonical reset_at timestamp g complete row :
  sound_group g → sound_group (add_total current canonical reset_at timestamp g complete row).
Proof.
  intros Hg. unfold add_total. destruct (_ || _) eqn:E; [exact Hg|].
  rewrite !orb_false_iff, !negb_false_iff in E. destruct E as [[[_ _] Hn] Hf].
  destruct (hg_source_reset_at g !! rm_model row); [destruct (_ && _); [done|]; destruct (_ && _)|destruct (hg_complete_known g)];
    first [exact Hg|by apply insert_total_sound].
Qed.
Lemma read_groups_sound parse_f64 cw td intervals current window rows :
  sound_groups (read_history_model_groups_for_intervals parse_f64 cw td intervals current window rows).
Proof.
  unfold read_history_model_groups_for_intervals.
  assert (∀ l groups, sound_groups groups →
    sound_groups (fold_left (group_row parse_f64 cw td intervals current window) l groups)) as H; [|by apply H].
  induction l as [|row l IH]; simpl; [done|]. intros groups Hg. apply IH. unfold group_row.
  destruct (sql_i64 row 0) as [reset_at|]; [|done]. destruct (sql_i64 row 1) as [timestamp|]; [|done].
  destruct (negb _); [done|]. set (key := (_, timestamp)).
  assert (sound_group (default HistoryModelGroup_default (groups !! key))) as Hold.
  { destruct (groups !! key) as [g|] eqn:E; [by apply (Hg key)|by intros ??]. }
  intros key' g. destruct (decide (key = key')) as [<-|Hne].
  - rewrite lookup_insert_eq. intros [= <-]. destruct (total_of_row _ _ _ row) as [[complete t]|]; [|exact Hold].
    by apply add_total_sound.
  - rewrite lookup_insert_ne by done. apply Hg.
Qed.

(** ** The models of a row *)
Lemma totals_of_names g : sound_group g → map rm_model (totals_of g) = map fst (rows (hg_totals g)).
Proof.
  intros Hg. unfold totals_of. rewrite map_map. apply map_ext_in. intros [k t] Hin. simpl.
  apply list_elem_of_In, elem_of_rows in Hin. by apply Hg.
Qed.
Definition models_ok (models : list PublicHistoryModelUsageV3) : Prop :=
  NoDup (map h3_model models) ∧ Forall usage_ok models.
Lemma group_models_ok g sample allowed :
  sound_group g →
  models_ok (map (λ t, history_model_usage_v3_with_family_fallback t sample (allowed t)) (totals_of g)).
Proof.
  intros Hg. split.
  - rewrite map_map. simpl. change (map (λ t, rm_model t) (totals_of g)) with (map rm_model (totals_of g)).
    rewrite totals_of_names by done. apply rows_NoDup.
  - apply Forall_forall. intros m (t & -> & Ht)%list_elem_of_fmap. unfold totals_of in Ht.
    apply list_elem_of_fmap in Ht as ([k t'] & -> & Hin%elem_of_rows). simpl in *.
    destruct (Hg k t' Hin) as (Hk & Hname & Hfacts). split; simpl; [by rewrite Hk|exact Hfacts].
Qed.
Lemma push_legacy_ok models legacy : models_ok models → usage_ok legacy → models_ok (push_legacy models legacy).
Proof.
  intros [Hnd Hall] Hl. unfold push_legacy.
  destruct (existsb _ models) eqn:E; simpl; [done|]. apply existsb_false_Forall in E. split.
  - rewrite map_app. simpl. apply NoDup_app. split_and!; [done| |apply NoDup_singleton].
    intros n (m & -> & Hm)%list_elem_of_fmap Hn%list_elem_of_singleton.
    eapply Forall_forall in E; [|exact Hm]. apply bool_decide_eq_false in E. apply E. by rewrite Hn.
  - apply Forall_app. split; [done|]. by constructor.
Qed.
(** The token columns are [u64]. *)
Definition token_widths (sample : StoredHistorySample) : Prop :=
  ∀ t, rs_sol_tokens sample = Some t ∨ rs_terra_tokens sample = Some t ∨ rs_luna_tokens sample = Some t → is_u64 t.
Lemma legacy_models_ok sample : token_widths sample → Forall usage_ok (legacy_history_models_v3 sample).
Proof.
  intros Hw. apply Forall_forall. intros m ([[name tokens] dollars] & Hin & Hm)%elem_of_filter_map.
  destruct tokens as [total|]; [|done]. injection Hm as <-.
  assert (is_u64 total) as Ht.
  { apply Hw. repeat (apply elem_of_cons in Hin as [[= _ <- _]|Hin]; [by auto|]). by apply elem_of_nil in Hin. }
  split; simpl.
  - clear -Hin. repeat (apply elem_of_cons in Hin as [[= -> _ _]|Hin]; [by vm_compute|]). by apply elem_of_nil in Hin.
  - unfold is_u64 in Ht. unfold validate_fact, tf_validate. simpl. by replace (total <? 0) with false by lia.
Qed.
Lemma history_models_ok group sample complete models :
  token_widths sample → (∀ g, group = Some g → sound_group g) → history_models_v3 group sample complete = Some models →
  NoDup (map h3_model models) ∧ StronglySorted (λ a b, text_leb (h3_model a) (h3_model b) = true) models
  ∧ Forall usage_ok models.
Proof.
  intros Hw Hg. unfold history_models_v3, then_some. destruct (_ || _); [|done]. intros [= <-].
  match goal with |- context [by_model ?l] => assert (models_ok l) as [Hnd Hall] end.
  { assert (∀ models, models_ok models →
      models_ok (fold_left push_legacy (legacy_history_models_v3 sample) models)) as Hpush.
    { pose proof (legacy_models_ok sample Hw) as Hleg. revert Hleg. generalize (legacy_history_models_v3 sample).
      induction l as [|m l IH]; simpl; [done|]. intros [Hm Hl]%Forall_cons models Hok. apply IH; [done|].
      by apply push_legacy_ok. }
    assert (models_ok (map (λ total, history_model_usage_v3_with_family_fallback total sample
      (family_fallback_allowed (from_option totals_of [] group) total)) (from_option totals_of [] group))) as Hbase.
    { destruct group as [g|]; [by apply group_models_ok, Hg|]. split; simpl; constructor. }
    destruct complete; simpl; [exact Hbase|by apply Hpush]. }
  split_and!; [by rewrite by_model_names|apply by_model_sorted|].
  apply Forall_forall. intros m Hm. rewrite by_model_elem in Hm. exact (proj1 (Forall_forall _ _) Hall m Hm).
Qed.

(** ** Rows through the projection *)
Lemma project_row_ok quota_only stored group provenance sample :
  token_widths sample → (∀ g, group = Some g → sound_group g) →
  row_ok (project_row quota_only stored group provenance sample).
Proof.
  intros Hw Hg. unfold project_row.
  set (model_source := if _ || _ then Unavailable else _). set (empty_set := stored ≫= _).
  set (source := match model_source with Unavailable => _ | _ => _ end).
  set (complete := default _ _). set (models := match source with Unavailable => _ | _ => _ end).
  assert (∀ l, models = Some l →
    NoDup (map h3_model l) ∧ StronglySorted (λ a b, text_leb (h3_model a) (h3_model b) = true) l ∧ Forall usage_ok l)
    as Hmodels.
  { intros l. unfold models. destruct source; [|done|done|]; destruct (opt_is_some empty_set);
      first [intros [= <-]; repeat split; constructor|by apply history_models_ok]. }
  split; cbn [o3_models o3_models_complete o3_model_source]; [by destruct source| | |exact Hmodels].
  - unfold models. destruct source; simpl; try done. intros Hc. rewrite Hc. split; [done|].
    destruct (opt_is_some empty_set); [done|]. unfold history_models_v3. simpl. done.
  - unfold models. by destruct source.
Qed.
Definition rows_ok (h : history_map) : Prop :=
  ∀ k r, h !! k = Some r → row_ok r ∧ o3_reset_at r = k.1 ∧ o3_timestamp r = k.2.
Lemma insert_ok h k r :
  rows_ok h → row_ok r → o3_reset_at r = k.1 → o3_timestamp r = k.2 → rows_ok (<[k:=r]> h).
Proof.
  intros Hh Hr H1 H2 k' r'. destruct (decide (k = k')) as [<-|Hne].
  - rewrite lookup_insert_eq. by intros [= <-].
  - rewrite lookup_insert_ne by done. apply Hh.
Qed.
Lemma join_rows_ok keys inputs cutoff observed_at samples periods :
  Forall token_widths samples → sound_groups (hi_groups inputs) →
  rows_ok (join_rows keys inputs cutoff observed_at samples periods).
Proof.
  intros Hw Hg. unfold join_rows. set (observations := List.filter _ _). set (stored := by_key observations).
  assert (rows_ok (fold_left (add_sample keys inputs stored) samples ∅)) as H0.
  { assert (∀ l h, Forall token_widths l → rows_ok h → rows_ok (fold_left (add_sample keys inputs stored) l h)) as H;
      [|by apply H; [|intros ??]].
    induction l as [|sample l IH]; simpl; [done|]. intros h [Hs Hl]%Forall_cons Hh. apply IH; [done|].
    apply insert_ok; [done| |done..]. apply project_row_ok; [done|]. intros g. apply Hg. }
  revert H0. generalize (fold_left (add_sample keys inputs stored) samples ∅). clear.
  induction observations as [|o l IH]; simpl; [done|]. intros h Hh. apply IH. unfold add_sidecar.
  destruct (negb _); [done|]. destruct (List.find _ _) as [period|]; [|done].
  destruct (h !! _) eqn:E; [done|]. apply insert_ok; [done| |done..]. by apply row_ok_metadata.
Qed.
Lemma suppress_ok h : rows_ok h → rows_ok (suppress_regressing_history_models h).
Proof.
  intros Hh. assert (distinct_models h) as Hd.
  { intros k r models Hk Hm. destruct (Hh k r Hk) as [Hr _]. by apply (ok_models r Hr). }
  intros k r' Hk'. destruct (h !! k) as [r|] eqn:Hr.
  2: { exfalso. by rewrite (suppress_absent h k Hd Hr) in Hk'. }
  destruct (Hh k r Hr) as ([Hs Hc Hn Hm] & H1 & H2). destruct (suppression_rows h k r Hd Hr) as (marks & Hk & _).
  rewrite Hk in Hk'. injection Hk' as <-. unfold suppress_row.
  destruct (confirmed r) eqn:Ec; simpl; [|by split_and!].
  destruct (o3_models r) as [models|] eqn:Em; simpl; [|split_and!; [split; by rewrite ?Em|done..]].
  destruct (Hm models eq_refl) as (Hnd & _ & Hall). apply andb_true_iff in Ec as [Esource%text_eqb_true Ecomplete].
  destruct (bool_decide _); simpl; (split_and!; [|done..]); split; cbn [with_models o3_models o3_models_complete o3_model_source].
  - done.
  - intros _. split; [done|]. eauto.
  - rewrite Esource. by vm_compute.
  - intros l [= <-]. split_and!; [by rewrite by_model_names|apply by_model_sorted|].
    unfold by_model. by rewrite (sort_by_perm _ _).
  - by vm_compute.
  - done.
  - by vm_compute.
  - intros l. destruct (bool_decide _); [done|]. intros [= <-]. split_and!.
    + rewrite by_model_names. by apply filter_NoDup_map.
    + apply by_model_sorted.
    + unfold by_model. rewrite (sort_by_perm _ _). rewrite Forall_forall in *.
      intros m [Hin _]%elem_of_filter_bool. by apply Hall.
Qed.

(** ** Rows through the assignment of activity *)
(** Only flags change, and rows that claim nothing are added. *)
Definition flagged (h h' : history_map) : Prop :=
  ∀ k, match h !! k with
  | Some r => ∃ f, h' !! k = Some (with_activity f r)
  | None => h' !! k = None ∨ ∃ f, h' !! k = Some (with_activity f (empty_point k.1 k.2))
  end.
Lemma with_activity_same r : with_activity (o3_task_active_since_previous r) r = r.
Proof. by destruct r. Qed.
#[export] Instance flagged_preorder : PreOrder flagged.
Proof.
  split.
  - intros h k. destruct (h !! k) as [r|]; [|by left]. exists (o3_task_active_since_previous r).
    by rewrite with_activity_same.
  - intros h1 h2 h3 H1 H2 k. specialize (H1 k). specialize (H2 k). destruct (h1 !! k) as [r|].
    + destruct H1 as [f E]. rewrite E in H2. destruct H2 as [g E']. by exists g.
    + destruct H1 as [E|[f E]]; rewrite E in H2; [done|]. destruct H2 as [g E']. right. by exists g.
Qed.
Lemma flagged_fold {A} (step : history_map → A → history_map) l h :
  (∀ h a, flagged h (step h a)) → flagged h (fold_left step l h).
Proof.
  intros Hstep. revert h. induction l as [|a l IH]; simpl; intros h; [done|]. by trans (step h a).
Qed.
Lemma flagged_insert_missing reset_at h t : flagged h (insert_missing reset_at h t).
Proof.
  intros k. unfold insert_missing. destruct (h !! (reset_at, t)) as [row|] eqn:E.
  - destruct (h !! k) as [r|]; [|by left]. exists (o3_task_active_since_previous r). by rewrite with_activity_same.
  - destruct (decide ((reset_at, t) = k)) as [<-|Hne].
    + rewrite E, lookup_insert_eq. right. by exists None.
    + rewrite lookup_insert_ne by done. destruct (h !! k) as [r|]; [|by left].
      exists (o3_task_active_since_previous r). by rewrite with_activity_same.
Qed.
Lemma flagged_alter (f : option bool) (key : Z * Z) (h : history_map) : flagged h (alter (with_activity f) key h).
Proof.
  intros k. destruct (decide (key = k)) as [<-|Hne].
  - rewrite lookup_alter_eq. destruct (h !! key); simpl; [by eexists|by left].
  - rewrite lookup_alter_ne by done. destruct (h !! k) as [r|]; [|by left].
    exists (o3_task_active_since_previous r). by rewrite with_activity_same.
Qed.
Lemma flagged_clear (h : history_map) : flagged h (with_activity None <$> h).
Proof. intros k. rewrite lookup_fmap. destruct (h !! k); simpl; [by eexists|by left]. Qed.
Lemma flagged_period complete activity intervals h period :
  flagged h (assign_period complete activity intervals h period).
Proof.
  unfold assign_period. generalize (sort_by (λ a b : Z * Z, a.2 <=? b.2) (List.filter (in_period period) (keys_of h))).
  intros l. assert (∀ (s : history_map * option Z),
    flagged s.1 (fold_left (assign_row complete activity intervals period) l s).1) as H; [|by apply (H (h, None))].
  induction l as [|key l IH]; simpl; intros s; [done|].
  trans (assign_row complete activity intervals period s key).1; [|apply IH].
  destruct s as [h0 prev]. simpl. apply flagged_alter.
Qed.
Lemma assign_flagged h periods evidence intervals :
  flagged h (assign_task_activity_for_intervals h periods evidence intervals).
Proof.
  unfold assign_task_activity_for_intervals. set (activity := from_evidence_for_intervals evidence intervals).
  etrans; [|apply flagged_fold; intros; apply flagged_period].
  etrans; [|apply flagged_clear]. apply flagged_fold. intros h' period. unfold add_cadence.
  apply (flagged_fold (λ history '(left_, right_), _)). intros h'' [l r].
  destruct (bool_decide _); [|done]. apply flagged_fold. intros. apply flagged_insert_missing.
Qed.
Lemma flagged_ok h h' : flagged h h' → rows_ok h → rows_ok h'.
Proof.
  intros Hf Hh k r' Hk. specialize (Hf k). destruct (h !! k) as [r|] eqn:Hr.
  - destruct Hf as [f E]. rewrite E in Hk. injection Hk as <-. destruct (Hh k r Hr) as (? & ? & ?).
    split_and!; [by apply row_ok_activity|done..].
  - destruct Hf as [E|[f E]]; rewrite E in Hk; [done|]. injection Hk as <-.
    split_and!; [by apply row_ok_metadata|done..].
Qed.

(** ** The published list *)
Lemma elem_of_history_values h r : r ∈ values_of h ↔ ∃ k, h !! k = Some r.
Proof.
  unfold values_of. rewrite elem_of_filter_map. setoid_rewrite elem_of_keys_of. split; [naive_solver|].
  intros [k Hk]. exists k. by rewrite Hk.
Qed.
(** One row is published before another: its period is earlier, or its minute within the
    same period. *)
Definition earlier_row (r1 r2 : PublicHistoryObservationV3) : Prop :=
  o3_reset_at r1 < o3_reset_at r2 ∨ (o3_reset_at r1 = o3_reset_at r2 ∧ o3_timestamp r1 < o3_timestamp r2).
(** A row and a later one: the first comes before it, and if they are of one period no
    number of a model that both observe is lower in the second. *)
Definition not_below (r1 r2 : PublicHistoryObservationV3) : Prop :=
  earlier_row r1 r2 ∧ (o3_reset_at r1 = o3_reset_at r2 →
  ∀ m1 m2, m1 ∈ kept_models r1 → m2 ∈ kept_models r2 → h3_model m1 = h3_model m2 →
    history_model_dominates m2 m1 = true).
Lemma values_of_sorted (R : PublicHistoryObservationV3 → PublicHistoryObservationV3 → Prop) h :
  (∀ k1 k2 r1 r2, h !! k1 = Some r1 → h !! k2 = Some r2 → k1.1 < k2.1 ∨ k1.1 = k2.1 ∧ k1.2 < k2.2 → R r1 r2) →
  StronglySorted R (values_of h).
Proof.
  intros HR. unfold values_of.
  assert (StronglySorted (λ a b : Z * Z, span_leb a b = true) (keys_of h)) as Hs.
  { apply sort_by_sorted.
    - intros a b. rewrite !span_leb_iff. lia.
    - intros a b c. rewrite !span_leb_iff. lia. }
  pose proof (keys_of_NoDup h) as Hnd. induction Hs as [|k l Hs IH Hk]; simpl; [constructor|].
  apply NoDup_cons in Hnd as [Hnot Hnd]. destruct (h !! k) as [r|] eqn:Hr; [|by apply IH].
  constructor; [by apply IH|]. apply Forall_forall. intros r2 (k2 & Hin & Hr2)%elem_of_filter_map.
  apply (HR k k2); [done..|]. apply (Forall_forall _ _) with (x := k2) in Hk; [|done].
  apply span_leb_iff in Hk. assert (k ≠ k2) as Hne by (by intros ->). destruct k, k2. simpl in *.
  destruct Hk as [?|[-> ?]]; [lia|]. right. split; [done|]. assert (z0 ≠ z2) by congruence. lia.
Qed.

Section published.
Context {N : Type} `{JsonNumber N}.
Context (from_str : text → option (Value N)) (parse_f64 : text → option f64).
Context (tables : HistoryTables) (samples : list StoredHistorySample) (periods : list PublicHistoryPeriod).
Context (observed_at cutoff : Z) (evidence : TaskActivityEvidence) (intervals : ReadIntervals).
Context (quota_only_keys : gset (Z * Z)) (current_reset_at : option Z) (window_seconds : Z).
Context (history_is_canonical : bool).
Context (Hwidths : Forall token_widths samples).
Let inputs := read_history_inputs from_str parse_f64 intervals
  (opt_filter (λ _, negb history_is_canonical) current_reset_at) window_seconds tables.
Let joined := join_rows quota_only_keys inputs cutoff observed_at samples periods.
Let history := project_history quota_only_keys inputs cutoff observed_at samples periods evidence intervals.
Let published := read_history_projection_for_intervals from_str parse_f64 tables samples periods observed_at cutoff
  evidence intervals quota_only_keys current_reset_at window_seconds history_is_canonical.

Lemma joined_ok : rows_ok joined.
Proof.
  apply join_rows_ok; [done|]. unfold inputs, read_history_inputs.
  destruct (read_stored_history_observations_for_intervals _ _ _ _ _) as [? ?]. apply read_groups_sound.
Qed.
Lemma joined_distinct : distinct_models joined.
Proof. intros k r models Hk Hm. destruct (joined_ok k r Hk) as [Hr _]. by apply (ok_models r Hr). Qed.
Lemma published_ok : rows_ok history.
Proof. apply (flagged_ok (suppress_regressing_history_models joined)); [apply assign_flagged|apply suppress_ok, joined_ok]. Qed.

(** C19. Whatever the tables hold, a published row claims complete models only as a direct
    observation, has no model numbers when its source is reconstructed or unavailable,
    and lists its models once each, in order, under published names, with token facts
    that are consistent. *)
Theorem published_rows_ok : Forall row_ok published.
Proof.
  apply Forall_forall. intros r [k Hk]%elem_of_history_values. by apply (published_ok k r).
Qed.
(** C18. The published history is sorted: every row is of an earlier period than the rows
    after it, or of the same period and an earlier minute. And within a period no number
    of a directly observed model falls from one complete row to a later one. *)
Theorem published_history_never_falls : StronglySorted not_below published.
Proof.
  apply values_of_sorted. intros k1 k2 r1 r2 H1 H2 Hlt.
  pose proof (published_ok k1 r1 H1) as (_ & E1 & E1'). pose proof (published_ok k2 r2 H2) as (_ & E2 & E2').
  split; [unfold earlier_row; by rewrite E1, E2, E1', E2'|].
  intros E m1 m2 Hm1 Hm2 En. rewrite E1, E2 in E. assert (k1.2 < k2.2) as Ht by lia.
  assert (∀ k r m, history !! k = Some r → m ∈ kept_models r → ∃ r0,
    suppress_regressing_history_models joined !! k = Some r0 ∧ m ∈ kept_models r0) as Hback.
  { intros k r m Hk Hm. pose proof (assign_flagged (suppress_regressing_history_models joined) periods evidence
      intervals k) as Hf. change (assign_task_activity_for_intervals _ periods evidence intervals) with history in Hf.
    destruct (suppress_regressing_history_models joined !! k) as [r0|].
    - destruct Hf as [f Ef]. rewrite Ef in Hk. injection Hk as <-. by exists r0.
    - destruct Hf as [Ef|[f Ef]]; rewrite Ef in Hk; [done|]. injection Hk as <-. by apply elem_of_nil in Hm. }
  destruct (Hback k1 r1 m1 H1 Hm1) as (r1' & H1' & Hm1'). destruct (Hback k2 r2 m2 H2 Hm2) as (r2' & H2' & Hm2').
  by apply (kept_monotone joined k1 k2 r1' r2' m1 m2 joined_distinct).
Qed.
End published.

(** ** The oldest version *)
(** The first parent row of a minute. *)
Definition parent_row (samples : list StoredHistorySample) (row : PublicHistoryObservationV3) :
    option StoredHistorySample :=
  List.find (λ s, (rs_reset_at s =? o3_reset_at row) && (rs_timestamp s =? o3_timestamp row)) samples.
Definition v1_sample (samples : list StoredHistorySample) (row : PublicHistoryObservationV3) :
    option PublicHistorySample :=
  if legacy_source (o3_model_source row) then
    raw ← parent_row samples row ≫= legacy_raw;
    Some {| hs_timestamp := o3_timestamp row; hs_reset_at := o3_reset_at row;
            hs_remaining_percent := o3_remaining_percent row; hs_sol_dollars := rs_sol_dollars raw;
            hs_terra_dollars := rs_terra_dollars raw; hs_luna_dollars := rs_luna_dollars raw;
            hs_sol_tokens := rs_sol_tokens raw; hs_terra_tokens := rs_terra_tokens raw;
            hs_luna_tokens := rs_luna_tokens raw |}
  else None.
Lemma legacy_by_key_find samples row :
  legacy_by_key samples !! (o3_reset_at row, o3_timestamp row) = parent_row samples row.
Proof.
  unfold legacy_by_key, parent_row.
  assert (∀ (values : gmap (Z * Z) StoredHistorySample), fold_left (λ values sample,
      let key := (rs_reset_at sample, rs_timestamp sample) in
      match values !! key with Some _ => values | None => <[key := sample]> values end) samples values
        !! (o3_reset_at row, o3_timestamp row)
    = match values !! (o3_reset_at row, o3_timestamp row) with
      | Some s => Some s
      | None => List.find (λ s, (rs_reset_at s =? o3_reset_at row) && (rs_timestamp s =? o3_timestamp row)) samples
      end) as H; [|by rewrite H, lookup_empty].
  induction samples as [|s samples IH]; intros values; simpl; [by destruct (_ !! _)|]. rewrite IH.
  destruct (decide ((rs_reset_at s, rs_timestamp s) = (o3_reset_at row, o3_timestamp row))) as [E|Hne].
  - rewrite E. injection E as E1 E2. rewrite (proj2 (Z.eqb_eq _ _) E1), (proj2 (Z.eqb_eq _ _) E2). simpl.
    destruct (values !! (o3_reset_at row, o3_timestamp row)) eqn:Ev; [by rewrite Ev|]. by rewrite lookup_insert_eq.
  - replace ((rs_reset_at s =? o3_reset_at row) && (rs_timestamp s =? o3_timestamp row)) with false.
    2: { symmetry. apply andb_false_iff. rewrite !Z.eqb_neq. destruct (decide (rs_reset_at s = o3_reset_at row)); [|by left].
         right. congruence. }
    destruct (values !! (rs_reset_at s, rs_timestamp s)); [done|]. by rewrite lookup_insert_ne.
Qed.
Lemma not_legacy source :
  is_any source ["reconstructed-from-session"; "unavailable"] = true → legacy_source source = false.
Proof.
  unfold legacy_source, is_any. simpl. rewrite !orb_true_iff, !text_eqb_true.
  intros [->|[->|[=]]]; by vm_compute.
Qed.
Lemma as_legacy_sample_of_v2 samples row :
  as_legacy_sample (observation_v2 (legacy_by_key samples) row) = v1_sample samples row.
Proof.
  unfold observation_v2. rewrite legacy_by_key_find. unfold v1_sample, as_legacy_sample. cbn [ho_model_source].
  destruct (is_any (o3_model_source row) ["reconstructed-from-session"; "unavailable"]) eqn:E.
  { rewrite (not_legacy _ E). rewrite andb_comm.
    change (is_any (o3_model_source row) ["confirmed"; "legacy-unknown"]) with (legacy_source (o3_model_source row)).
    rewrite (not_legacy _ E). simpl. by rewrite (not_legacy _ E). }
  change (is_any (o3_model_source row) ["confirmed"; "legacy-unknown"]) with (legacy_source (o3_model_source row)).
  destruct (parent_row samples row) as [legacy|]; simpl.
  2: { by destruct (legacy_source (o3_model_source row)) eqn:El; simpl; rewrite ?El. }
  unfold legacy_raw. destruct legacy as [t r p [sd|] [td|] [ld|] [st|] [tt|] [lt|]]; simpl;
    destruct (legacy_source (o3_model_source row)) eqn:El; simpl; rewrite ?El; done.
Qed.
(** The oldest version lists exactly the rows that are observed or of unknown provenance
    and whose parent row has all the fixed columns, with the values of that row. *)
Theorem v1_rows_exact samples history_v3 :
  history_samples_v1 (history_observations_v2_from_stored samples history_v3)
  = filter_map (v1_sample samples) history_v3.
Proof.
  unfold history_samples_v1, history_observations_v2_from_stored.
  induction history_v3 as [|row l IH]; simpl; [done|]. rewrite as_legacy_sample_of_v2. by rewrite IH.
Qed.

(** *** Two minutes of one period, directly observed; the second falls below the first *)
Definition example_document (timestamp : Z) : Value Z := Object [
  (lit "kind", VString (lit "codex-info-usage-observation-v1")); (lit "model_source", VString (lit "confirmed"));
  (lit "remaining_percent", Null); (lit "reset_at", Number 1020); (lit "timestamp", Number timestamp)].
Definition example_from_str (t : text) : option (Value Z) := example_document <$> parse_unsigned u64_max t.
Definition example_text (s : string) : ValueRef := SqlText (string_bytes s).
Definition example_model_row (timestamp : Z) (model total : string) : Row :=
  [SqlInteger 1020; SqlInteger timestamp; example_text model; example_text total; SqlNull; SqlNull; SqlNull; SqlInteger 1].
Definition example_history_tables : HistoryTables := {|
  ht_observations := Some [[SqlInteger 2; SqlInteger 60; example_text "60"];
                           [SqlInteger 3; SqlInteger 120; example_text "120"]];
  ht_models := Some [example_model_row 60 "gpt-6-sol" "50"; example_model_row 60 "o4" "7";
                     example_model_row 120 "gpt-6-sol" "40"; example_model_row 120 "o4" "8"];
  ht_cache_write := false; ht_total_dollars := false |}.
Definition example_sample (timestamp : Z) (sol : option Z) : StoredHistorySample := {|
  rs_timestamp := timestamp; rs_reset_at := 1020; rs_remaining_percent := None; rs_sol_dollars := None;
  rs_terra_dollars := None; rs_luna_dollars := None; rs_sol_tokens := sol; rs_terra_tokens := None;
  rs_luna_tokens := Some 3 |}.
Definition example_samples : list StoredHistorySample := [example_sample 60 (Some 50); example_sample 120 (Some 40)].
Lemma example_widths : Forall token_widths example_samples.
Proof.
  constructor; [|constructor; [|constructor]]; intros t; simpl; unfold is_u64, u64_max;
    intros [H|[H|H]]; try done; injection H as <-; lia.
Qed.
Definition example_published : list PublicHistoryObservationV3 :=
  @read_history_projection_for_intervals Z integer_numbers example_from_str (λ _, None) example_history_tables
    example_samples [] 600 0 (no_evidence true) unbounded ∅ (Some 1020) 960 true.
Lemma published_rows_ok_witness : Forall token_widths example_samples ∧ Forall row_ok example_published.
Proof.
  split; [exact example_widths|].
  exact (@published_rows_ok Z integer_numbers example_from_str (λ _, None) example_history_tables
    example_samples [] 600 0 (no_evidence true) unbounded ∅ (Some 1020) 960 true example_widths).
Defined.
Lemma published_history_never_falls_witness :
  Forall token_widths example_samples ∧ StronglySorted not_below example_published.
Proof.
  split; [exact example_widths|].
  exact (@published_history_never_falls Z integer_numbers example_from_str (λ _, None) example_history_tables
    example_samples [] 600 0 (no_evidence true) unbounded ∅ (Some 1020) 960 true example_widths).
Defined.
(** The first minute is complete; of the second, only the model that did not fall is left. *)
Example example_published_rows :
  map (λ r, (o3_timestamp r, o3_models_complete r, map h3_total_tokens (default [] (o3_models r)))) example_published
  = [(60, true, [50; 7]); (120, false, [8])].
Proof. by vm_compute. Qed.
