(* ===== verification/Canonicalize.v ===== *)
(** * Canonical history rows

    Models [canonicalize_history_with_sources_and_limit] of
    [crates/codex-info-db-reader/src/lib.rs] and its helpers: the rows of an older
    database, whose reset times drift, are gathered into groups of one quota period
    each, and every minute is given to at most one group. The maps the source builds
    over minutes are functions of the minute here. *)

From S2P Require Import Prelude Text Float64 Contract Details Recordings Spans ReadIntervals TaskActivity SqlRow StoredHistory.

Definition MOVING_RESET_GROUP_MAX_DRIFT_SECONDS : Z := 5 * 60.
Definition MOVING_RESET_STEP_TOLERANCE_SECONDS : Z := 180.
Definition MOVING_RESET_MIN_HORIZON_SECONDS : Z := 86400.
Abbreviation RawRow := (RawSample f64 Z).
Record SourcedRawSample := { sr_row : RawRow; sr_source_timestamp : Z; sr_source_reset_at : Z }.
Definition row_timestamp (self : SourcedRawSample) : Z := rs_timestamp (sr_row self).
Definition row_reset_at (self : SourcedRawSample) : Z := rs_reset_at (sr_row self).
Definition row_remaining (self : SourcedRawSample) : option f64 := rs_remaining_percent (sr_row self).
Record ResetGroup := { rg_canonical_reset_at : Z; rg_start : Z; rg_rows : list SourcedRawSample }.
Record CanonicalStorageSample := {
  cs_sample : PublicHistorySample;
  cs_source_timestamp : Z;
  cs_source_reset_at : Z
}.
Definition near (a b : Z) : bool := Z.abs (a - b) <=? RESET_AT_TOLERANCE_SECONDS.
Definition minute_of_row (self : SourcedRawSample) : Z := row_timestamp self - row_timestamp self mod 60.
Definition row_leb (a b : SourcedRawSample) : bool :=
  span_leb (row_timestamp a, row_reset_at a) (row_timestamp b, row_reset_at b).
Definition group_leb (a b : ResetGroup) : bool :=
  span_leb (rg_start a, rg_canonical_reset_at a) (rg_start b, rg_canonical_reset_at b).

(** ** Which rows belong together *)
Definition reset_coordinates_form_moving_step (anchor_timestamp anchor_reset_at candidate_timestamp
    candidate_reset_at : Z) : bool :=
  if (candidate_timestamp <=? anchor_timestamp) || (candidate_reset_at <=? anchor_reset_at) then false
  else
    let timestamp_delta := candidate_timestamp - anchor_timestamp in
    let reset_delta := candidate_reset_at - anchor_reset_at in
    let anchor_horizon := i64_saturating_sub anchor_reset_at anchor_timestamp in
    let candidate_horizon := i64_saturating_sub candidate_reset_at candidate_timestamp in
    (reset_delta <=? MOVING_RESET_GROUP_MAX_DRIFT_SECONDS)
    && (MOVING_RESET_MIN_HORIZON_SECONDS <=? anchor_horizon)
    && (MOVING_RESET_MIN_HORIZON_SECONDS <=? candidate_horizon)
    && (Z.abs (anchor_horizon - candidate_horizon) <=? MOVING_RESET_STEP_TOLERANCE_SECONDS)
    && (Z.abs (reset_delta - timestamp_delta) <=? MOVING_RESET_STEP_TOLERANCE_SECONDS).
Definition cumulative_vector_dominates (candidate required : RawRow) : bool :=
  f64_leb (rs_sol_dollars required) (rs_sol_dollars candidate)
  && f64_leb (rs_terra_dollars required) (rs_terra_dollars candidate)
  && f64_leb (rs_luna_dollars required) (rs_luna_dollars candidate)
  && (rs_sol_tokens required <=? rs_sol_tokens candidate)
  && (rs_terra_tokens required <=? rs_terra_tokens candidate)
  && (rs_luna_tokens required <=? rs_luna_tokens candidate).
Definition quota_observations_agree (anchor candidate : RawRow) : bool :=
  match rs_remaining_percent anchor, rs_remaining_percent candidate with
  | Some anchor, Some candidate => f64_eqb anchor candidate
  | _, _ => true
  end.
Definition reset_belongs_to_group (anchor candidate : RawRow) : bool :=
  if near (rs_reset_at candidate) (rs_reset_at anchor) then true
  else if rs_timestamp candidate =? rs_timestamp anchor then
    (rs_reset_at anchor <? rs_reset_at candidate)
    && (rs_reset_at candidate - rs_reset_at anchor <=? MOVING_RESET_GROUP_MAX_DRIFT_SECONDS)
    && quota_observations_agree anchor candidate
    && (cumulative_vector_dominates candidate anchor || cumulative_vector_dominates anchor candidate)
  else reset_coordinates_form_moving_step (rs_timestamp anchor) (rs_reset_at anchor) (rs_timestamp candidate)
         (rs_reset_at candidate).

(** ** Grouping *)
Definition sourced (row : RawRow) : SourcedRawSample := {|
  sr_row := row; sr_source_timestamp := rs_timestamp row; sr_source_reset_at := rs_reset_at row |}.
Definition with_row_reset (reset_at : Z) (self : SourcedRawSample) : SourcedRawSample := {|
  sr_row := {| rs_timestamp := rs_timestamp (sr_row self); rs_reset_at := reset_at;
    rs_remaining_percent := rs_remaining_percent (sr_row self);
    rs_sol_dollars := rs_sol_dollars (sr_row self); rs_terra_dollars := rs_terra_dollars (sr_row self);
    rs_luna_dollars := rs_luna_dollars (sr_row self); rs_sol_tokens := rs_sol_tokens (sr_row self);
    rs_terra_tokens := rs_terra_tokens (sr_row self); rs_luna_tokens := rs_luna_tokens (sr_row self) |};
  sr_source_timestamp := sr_source_timestamp self; sr_source_reset_at := sr_source_reset_at self |}.
Definition alias_row (current_reset_at : option Z) (row : SourcedRawSample) : SourcedRawSample :=
  match current_reset_at with
  | Some authority => if near (row_reset_at row) authority then with_row_reset authority row else row
  | None => row
  end.
(** From the newest group back, as long as its last row is not too old. *)
Fixpoint search_group (groups : list (nat * ResetGroup)) (row : SourcedRawSample) : option nat :=
  match groups with
  | [] => None
  | (index, group) :: rest =>
      let anchor := default row (last (rg_rows group)) in
      if reset_belongs_to_group (sr_row anchor) (sr_row row) then Some index
      else if MOVING_RESET_GROUP_MAX_DRIFT_SECONDS <? i64_saturating_sub (row_timestamp row) (row_timestamp anchor)
      then None
      else search_group rest row
  end.
Definition push_row (row : SourcedRawSample) (group : ResetGroup) : ResetGroup := {|
  rg_canonical_reset_at := Z.max (rg_canonical_reset_at group) (row_reset_at row); rg_start := rg_start group;
  rg_rows := rg_rows group ++ [row] |}.
Definition group_step (current_reset_at : option Z) (groups : list ResetGroup) (row : SourcedRawSample) :
    list ResetGroup :=
  let row := alias_row current_reset_at row in
  match search_group (rev (imap pair groups)) row with
  | Some index => alter (push_row row) index groups
  | None => groups ++ [{| rg_canonical_reset_at := row_reset_at row; rg_start := row_timestamp row; rg_rows := [row] |}]
  end.
Definition initial_groups (current_reset_at : option Z) (rows : list RawRow) : list ResetGroup :=
  fold_left (group_step current_reset_at) (sort_by row_leb (map sourced rows)) [].

(** ** Merging *)
(** Groups of exactly one reset; the index of the first one is kept. *)
Definition absorb (group existing : ResetGroup) : ResetGroup := {|
  rg_canonical_reset_at := rg_canonical_reset_at existing; rg_start := Z.min (rg_start existing) (rg_start group);
  rg_rows := rg_rows existing ++ rg_rows group |}.
Definition exact_step (s : list ResetGroup * gmap Z nat) (group : ResetGroup) : list ResetGroup * gmap Z nat :=
  let '(merged, indexes) := s in
  match indexes !! rg_canonical_reset_at group with
  | Some index => (alter (absorb group) index merged, indexes)
  | None => (merged ++ [group], <[rg_canonical_reset_at group := length merged]> indexes)
  end.
Definition sort_rows (group : ResetGroup) : ResetGroup := {|
  rg_canonical_reset_at := rg_canonical_reset_at group; rg_start := rg_start group;
  rg_rows := sort_by row_leb (rg_rows group) |}.
Definition exact_merge (groups : list ResetGroup) : list ResetGroup :=
  sort_by group_leb (map sort_rows (fold_left exact_step groups ([], ∅)).1).
(** [Iterator::position] *)
Fixpoint position {A} (p : A → bool) (l : list A) : option nat :=
  match l with
  | [] => None
  | x :: rest => if p x then Some O else S <$> position p rest
  end.
Definition absorb_family (group existing : ResetGroup) : ResetGroup := sort_rows {|
  rg_canonical_reset_at := Z.max (rg_canonical_reset_at existing) (rg_canonical_reset_at group);
  rg_start := Z.min (rg_start existing) (rg_start group); rg_rows := rg_rows existing ++ rg_rows group |}.
Definition family_step (merged : list ResetGroup) (group : ResetGroup) : list ResetGroup :=
  match position (λ existing, near (rg_canonical_reset_at existing) (rg_canonical_reset_at group)) merged with
  | Some index => alter (absorb_family group) index merged
  | None => merged ++ [group]
  end.
Definition family_merge (groups : list ResetGroup) : list ResetGroup :=
  sort_by group_leb (fold_left family_step groups []).

(** ** Stale tails and shadowed groups *)
Definition has_quota (group : ResetGroup) : bool := existsb (λ row, opt_is_some (row_remaining row)) (rg_rows group).
(** [Iterator::max], [Iterator::min] *)
Definition max_of (l : list Z) : option Z :=
  match l with [] => None | x :: rest => Some (fold_left Z.max rest x) end.
Definition min_of (l : list Z) : option Z :=
  match l with [] => None | x :: rest => Some (fold_left Z.min rest x) end.
Definition group_end (group : ResetGroup) : Z := default (rg_start group) (max_of (map row_timestamp (rg_rows group))).
Fixpoint fixed_from (previous : option SourcedRawSample) (rows : list SourcedRawSample) : option Z :=
  match rows with
  | [] => None
  | row :: rest =>
      let fixed anchor :=
        negb (row_timestamp anchor / 60 =? row_timestamp row / 60)
        && near (row_reset_at anchor) (row_reset_at row)
        && (opt_is_some (row_remaining anchor) || opt_is_some (row_remaining row))
        && negb (reset_coordinates_form_moving_step (row_timestamp anchor) (row_reset_at anchor)
                   (row_timestamp row) (row_reset_at row)) in
      match opt_filter fixed previous with
      | Some anchor => Some (row_timestamp anchor)
      | None => fixed_from (Some row) rest
      end
  end.
Definition fixed_reset_transition_start (group : ResetGroup) : option Z :=
  fixed_from None (List.filter (λ row, near (row_reset_at row) (rg_canonical_reset_at group)) (rg_rows group)).
Definition moving (group : ResetGroup) : bool :=
  existsb (λ '(a, b), reset_coordinates_form_moving_step (row_timestamp a) (row_reset_at a) (row_timestamp b)
                        (row_reset_at b)) (windows (rg_rows group)).
(** The groups of one start are compared with the quota of the groups before them; the
    fuel is the number of groups. *)
Fixpoint shadow_from (fuel : nat) (prior_quota_max_end : option Z) (groups : list ResetGroup) : list bool :=
  match fuel, groups with
  | S fuel, group :: _ =>
      let count := partition_point (λ g, rg_start g =? rg_start group) groups in
      let batch := take count groups in
      let shadowed g := moving g && is_some_and (λ prior, group_end g <? prior) prior_quota_max_end in
      let raise prior g :=
        if has_quota g then Some (match prior with Some prior => Z.max prior (group_end g) | None => group_end g end)
        else prior in
      map shadowed batch ++ shadow_from fuel (fold_left raise batch prior_quota_max_end) (drop count groups)
  | _, _ => []
  end.
Definition shadowed_moving_reset_groups (groups : list ResetGroup) : list bool :=
  shadow_from (length groups) None groups.
Definition retain_rows (p : SourcedRawSample → bool) (group : ResetGroup) : ResetGroup := {|
  rg_canonical_reset_at := rg_canonical_reset_at group; rg_start := rg_start group;
  rg_rows := List.filter p (rg_rows group) |}.
Definition clip_candidate (starts : list (option Z)) (shadowed : list bool) (groups : list ResetGroup)
    (candidate_index : nat) : list ResetGroup :=
  match shadowed !! candidate_index, starts !! candidate_index, groups !! candidate_index with
  | Some false, Some (Some _), Some candidate =>
      imap (λ index prior,
        if bool_decide (index < candidate_index)%nat
           && negb (rg_canonical_reset_at candidate
                    <=? i64_saturating_add (rg_canonical_reset_at prior) RESET_AT_TOLERANCE_SECONDS)
        then retain_rows (λ row, row_timestamp row <? rg_start candidate) prior else prior) groups
  | _, _, _ => groups
  end.
Definition restart (group : ResetGroup) : ResetGroup := {|
  rg_canonical_reset_at := rg_canonical_reset_at group;
  rg_start := default (rg_start group) (min_of (map row_timestamp (rg_rows group))); rg_rows := rg_rows group |}.
Definition clip_stale_reset_group_tails (groups : list ResetGroup) : list ResetGroup :=
  map restart (fold_left (clip_candidate (map fixed_reset_transition_start groups)
                            (shadowed_moving_reset_groups groups)) (seq 0 (length groups)) groups).
Definition remove_shadowed_moving_reset_groups (groups : list ResetGroup) : list ResetGroup :=
  filter_map (λ '(group, shadowed), then_some (negb shadowed) group)
    (zip groups (shadowed_moving_reset_groups groups)).
Definition reset_groups (current_reset_at : option Z) (rows : list RawRow) : list ResetGroup :=
  let groups := family_merge (exact_merge (initial_groups current_reset_at rows)) in
  remove_shadowed_moving_reset_groups
    (List.filter (λ group, negb (bool_decide (length (rg_rows group) = 0%nat))) (clip_stale_reset_group_tails groups)).

(** ** The current group *)
(** [Iterator::min_by_key] over indexed groups: the first of the least. *)
Fixpoint closest (authority : Z) (groups : list (nat * ResetGroup)) : option (nat * Z) :=
  match groups with
  | [] => None
  | (index, group) :: rest =>
      let distance := Z.abs (rg_canonical_reset_at group - authority) in
      match closest authority rest with
      | Some (other, least) => if least <? distance then Some (other, least) else Some (index, distance)
      | None => Some (index, distance)
      end
  end.
Definition current_group_of (current_reset_at : option Z) (groups : list ResetGroup) : option nat :=
  authority ← current_reset_at;
  fst <$> closest authority
    (List.filter (λ '(_, group), near (rg_canonical_reset_at group) authority) (imap pair groups)).
Definition quota_period_minute_start (reset_at window_seconds : Z) : option Z :=
  opt_filter valid_public_timestamp
    (quota_period_start reset_at window_seconds ?> λ start, i64_checked_mul (start / 60) 60).
Definition current_start_of (current_reset_at : option Z) (window_seconds : Z) (groups : list ResetGroup) :
    option Z :=
  index ← current_group_of current_reset_at groups;
  group ← groups !! index;
  let observed_group_start := rg_start group - rg_start group mod 60 in
  Some (match (current_reset_at ≫= λ reset_at, quota_period_minute_start reset_at window_seconds) with
        | Some theoretical => Z.min theoretical observed_group_start
        | None => observed_group_start
        end).

(** ** The owner of a minute *)
(** The indexes of the groups with a row in a minute, in order. *)
Definition minute_owners (groups : list ResetGroup) (minute : Z) : list nat :=
  map fst (List.filter (λ '(_, group), existsb (λ row, minute_of_row row =? minute) (rg_rows group))
             (imap pair groups)).
(** Whether a group has quota, and its first and last minute. *)
Definition group_facts (group : ResetGroup) : bool * Z * Z :=
  let minutes := map (λ row, row_timestamp row / 60 * 60) (rg_rows group) in
  (has_quota group, default (rg_start group / 60 * 60) (min_of minutes),
   default (rg_start group / 60 * 60) (max_of minutes)).
Definition facts_at (groups : list ResetGroup) (index : nat) : bool * Z * Z :=
  from_option group_facts (false, 0, 0) (groups !! index).
Definition first_minute (groups : list ResetGroup) (index : nat) : Z := (facts_at groups index).1.2.
Definition last_minute (groups : list ResetGroup) (index : nat) : Z := (facts_at groups index).2.
(** The only one of the indexes that passes. *)
Definition the_only (p : nat → bool) (indexes : list nat) : option nat :=
  match List.filter p indexes with [owner] => Some owner | _ => None end.
(** The owner of a minute with rows of several groups, if it can be told. *)
Definition resolve_minute (groups : list ResetGroup) (minute : Z) (indexes : list nat) : option nat :=
  let isolated owner := forallb (λ index, Nat.eqb index owner
    || ((first_minute groups index =? minute) && (last_minute groups index =? minute))) indexes in
  let bracketing := opt_filter isolated (the_only (λ index,
    (first_minute groups index <? minute) && (minute <? last_minute groups index)) indexes) in
  match bracketing with
  | Some owner => Some owner
  | None =>
      match the_only (λ index, (facts_at groups index).1.1) indexes with
      | Some owner => Some owner
      | None =>
          owner ← the_only (λ index,
            (from_option rg_start 0 (groups !! index) / 60 * 60 =? minute) && (minute <? last_minute groups index))
            indexes;
          if existsb (λ index, negb (Nat.eqb index owner) && (minute <? last_minute groups index)) indexes
          then None else Some owner
      end
  end.
Definition contested (groups : list ResetGroup) (minute : Z) : bool :=
  (1 <? length (minute_owners groups minute))%nat.
Definition ambiguous_minute (groups : list ResetGroup) (minute : Z) : bool :=
  contested groups minute && negb (opt_is_some (resolve_minute groups minute (minute_owners groups minute))).
(** A minute another group owns, or none does. *)
Definition lost_minute (groups : list ResetGroup) (group_index : nat) (minute : Z) : bool :=
  contested groups minute
  && negb (bool_decide (resolve_minute groups minute (minute_owners groups minute) = Some group_index)).
Definition all_minutes (groups : list ResetGroup) : list Z :=
  dedup_sorted (concat (map (λ group, map minute_of_row (rg_rows group)) groups)).

(** ** One row for a minute *)
(** The one quota of the rows, [None] when two differ. *)
Fixpoint final_quota (quota : option f64) (values : list f64) : option (option f64) :=
  match values with
  | [] => Some quota
  | value :: rest =>
      if is_some_and (λ previous, negb (f64_eqb value previous)) quota then None
      else final_quota (Some value) rest
  end.
(** [f64::max] *)
Definition f64_max (a b : f64) : f64 :=
  if negb (f64_eqb a a) then b else if negb (f64_eqb b b) then a else if f64_leb a b then b else a.
Definition max_step (m : f64 * f64 * f64 * Z * Z * Z) (row : SourcedRawSample) : f64 * f64 * f64 * Z * Z * Z :=
  let '(sd, td, ld, st, ttk, lt) := m in
  let r := sr_row row in
  (f64_max sd (rs_sol_dollars r), f64_max td (rs_terra_dollars r), f64_max ld (rs_luna_dollars r),
   Z.max st (rs_sol_tokens r), Z.max ttk (rs_terra_tokens r), Z.max lt (rs_luna_tokens r)).
Definition is_dominant (quota : option f64) (maximums : f64 * f64 * f64 * Z * Z * Z) (row : SourcedRawSample) : bool :=
  let '(sd, td, ld, st, ttk, lt) := maximums in
  let r := sr_row row in
  f64_leb sd (rs_sol_dollars r) && f64_leb td (rs_terra_dollars r) && f64_leb ld (rs_luna_dollars r)
  && (st <=? rs_sol_tokens r) && (ttk <=? rs_terra_tokens r) && (lt <=? rs_luna_tokens r)
  && is_none_or (λ remaining, is_some_and (λ x, f64_eqb x remaining) (rs_remaining_percent r)) quota.
Definition source_leb (a b : SourcedRawSample) : bool :=
  span_leb (sr_source_timestamp a, sr_source_reset_at a) (sr_source_timestamp b, sr_source_reset_at b).
Definition dominant_row (minute_rows : list SourcedRawSample) : option SourcedRawSample :=
  let minute_rows := sort_by source_leb minute_rows in
  quota ← final_quota None (filter_map row_remaining minute_rows);
  let maximums := fold_left max_step minute_rows (f64_zero, f64_zero, f64_zero, 0, 0, 0) in
  List.find (is_dominant quota maximums) (rev minute_rows).
Definition canonical_sample (reset_at minute : Z) (dominant : SourcedRawSample) : CanonicalStorageSample :=
  let r := sr_row dominant in {|
  cs_sample := {| hs_timestamp := minute; hs_reset_at := reset_at; hs_remaining_percent := rs_remaining_percent r;
    hs_sol_dollars := rs_sol_dollars r; hs_terra_dollars := rs_terra_dollars r;
    hs_luna_dollars := rs_luna_dollars r; hs_sol_tokens := rs_sol_tokens r; hs_terra_tokens := rs_terra_tokens r;
    hs_luna_tokens := rs_luna_tokens r |};
  cs_source_timestamp := sr_source_timestamp dominant; cs_source_reset_at := sr_source_reset_at dominant |}.

(** ** The canonical rows *)
Definition kept_row (current_group : option nat) (current_start : option Z) (groups : list ResetGroup)
    (group_index : nat) (row : SourcedRawSample) : bool :=
  negb (bool_decide (Some group_index = current_group)
        && is_some_and (λ start, row_timestamp row <? start) current_start)
  && negb (lost_minute groups group_index (minute_of_row row)).
Definition canonical_group (current_group : option nat) (current_start : option Z) (groups : list ResetGroup)
    (group_index : nat) (group : ResetGroup) : list CanonicalStorageSample :=
  let rows := List.filter (kept_row current_group current_start groups group_index) (rg_rows group) in
  filter_map (λ minute,
    canonical_sample (rg_canonical_reset_at group) minute
      <$> dominant_row (List.filter (λ row, minute_of_row row =? minute) rows))
    (dedup_sorted (map minute_of_row rows)).
Definition sample_leb (a b : CanonicalStorageSample) : bool :=
  span_leb (hs_reset_at (cs_sample a), hs_timestamp (cs_sample a))
    (hs_reset_at (cs_sample b), hs_timestamp (cs_sample b)).
Definition canonical_rows (current_reset_at : option Z) (window_seconds : Z) (groups : list ResetGroup) :
    list CanonicalStorageSample :=
  let current_group := current_group_of current_reset_at groups in
  let current_start := current_start_of current_reset_at window_seconds groups in
  sort_by sample_leb (concat (imap (canonical_group current_group current_start groups) groups)).
Definition canonicalize_history_with_sources_and_limit (rows : list RawRow) (current_reset_at : option Z)
    (window_seconds : Z) (max_rows : option Z) (reject_ambiguous : bool) :
    result ReaderError (list CanonicalStorageSample) :=
  let groups := reset_groups current_reset_at rows in
  _ ← match List.find (ambiguous_minute groups) (all_minutes groups) with
      | Some minute =>
          reject (InvalidValue (lit "history period ownership is ambiguous at timestamp " ++ i64_to_string minute)) when
            reject_ambiguous;
          Ok ()
      | None => Ok ()
      end;
  let canonical := canonical_rows current_reset_at window_seconds groups in
  let count := Z.of_nat (length canonical) in
  reject (TooManyRows count) when is_some_and (λ limit, limit <? count) max_rows;
  Ok canonical.
Definition canonicalize_history_with_limit (rows : list RawRow) (current_reset_at : option Z)
    (window_seconds : Z) (max_rows : option Z) : result ReaderError (list PublicHistorySample) :=
  map cs_sample <$> canonicalize_history_with_sources_and_limit rows current_reset_at window_seconds max_rows false.
Definition canonicalize_history (rows : list RawRow) (current_reset_at : option Z) (window_seconds : Z) :
    result ReaderError (list PublicHistorySample) :=
  canonicalize_history_with_limit rows current_reset_at window_seconds None.
Definition HISTORY_WINDOW_SECONDS : Z := 31 * 24 * 60 * 60.
Definition normalize_current_period_samples (current_reset_at : option Z) (window_seconds : Z)
    (samples : list PublicHistorySample) : list PublicHistorySample :=
  map (λ sample, {| hs_timestamp := hs_timestamp sample;
    hs_reset_at := canonical_period_reset_at (hs_reset_at sample) (hs_timestamp sample) current_reset_at window_seconds;
    hs_remaining_percent := hs_remaining_percent sample; hs_sol_dollars := hs_sol_dollars sample;
    hs_terra_dollars := hs_terra_dollars sample; hs_luna_dollars := hs_luna_dollars sample;
    hs_sol_tokens := hs_sol_tokens sample; hs_terra_tokens := hs_terra_tokens sample;
    hs_luna_tokens := hs_luna_tokens sample |}) samples.
Definition canonicalize_history_for_public_window (rows : list RawRow) (current_reset_at : option Z)
    (window_seconds : Z) : result ReaderError (list PublicHistorySample) :=
  if bool_decide (length rows = 0%nat) then Ok []
  else
    let observed_at := default 0 (max_of (map rs_timestamp rows)) in
    let cutoff := i64_saturating_sub observed_at HISTORY_WINDOW_SECONDS in
    let recent := List.filter (λ row, (cutoff <? rs_timestamp row) && (rs_timestamp row <=? observed_at)) rows in
    samples ← canonicalize_history recent current_reset_at window_seconds;
    let samples := normalize_current_period_samples current_reset_at window_seconds samples in
    if bool_decide (length samples = 0%nat) && negb (bool_decide (length recent = 0%nat))
    then canonicalize_history recent None 0
    else Ok samples.
Definition canonicalize_history_for_storage_with_sources (rows : list RawRow) (current_reset_at : option Z)
    (window_seconds : Z) : result ReaderError (list CanonicalStorageSample) :=
  if bool_decide (length rows = 0%nat) then Ok []
  else canonicalize_history_with_sources_and_limit rows current_reset_at window_seconds None true.
Definition canonicalize_history_for_storage (rows : list RawRow) (current_reset_at : option Z)
    (window_seconds : Z) : result ReaderError (list PublicHistorySample) :=
  map cs_sample <$> canonicalize_history_for_storage_with_sources rows current_reset_at window_seconds.
