(* ===== verification/CanonicalFacts.v ===== *)
(** * What the canonical history rows are

    The groups of Canonicalize.v gather the rows without loss; every canonical row is a
    recorded one, and no minute is published for two periods. *)

From S2P Require Import Prelude Text Float64 Contract Details Recordings Spans ReadIntervals TaskActivity SqlRow StoredHistory Canonicalize.

(** ** Lists of groups *)
Lemma elem_of_concat {A} (x : A) ls : x ∈ concat ls ↔ ∃ l, x ∈ l ∧ l ∈ ls.
Proof. setoid_rewrite list_elem_of_In. rewrite in_concat. naive_solver. Qed.
Definition rows_of (groups : list ResetGroup) : list SourcedRawSample := concat (map rg_rows groups).
Lemma rows_of_app l l' : rows_of (l ++ l') = rows_of l ++ rows_of l'.
Proof. unfold rows_of. by rewrite map_app, concat_app. Qed.
Lemma rows_of_perm l l' : l ≡ₚ l' → rows_of l ≡ₚ rows_of l'.
Proof.
  unfold rows_of. induction 1 as [|x l l' _ IH|x y l|l1 l2 l3 _ IH1 _ IH2]; simpl; [done| | |by etrans].
  - by rewrite IH.
  - rewrite !(assoc_L (++)). f_equiv. apply Permutation_app_comm.
Qed.
(** Changing one group by adding rows to it. *)
Lemma rows_of_alter f rows index groups :
  (∀ g, rg_rows (f g) ≡ₚ rg_rows g ++ rows) → is_Some (groups !! index) →
  rows_of (alter f index groups) ≡ₚ rows_of groups ++ rows.
Proof.
  intros Hf. revert index. induction groups as [|g groups IH]; intros index [g' Hg]; [done|].
  destruct index as [|index].
  - change (rows_of (alter f 0%nat (g :: groups))) with (rg_rows (f g) ++ rows_of groups).
    change (rows_of (g :: groups)) with (rg_rows g ++ rows_of groups).
    rewrite Hf, <-!(assoc_L (++)). f_equiv. apply Permutation_app_comm.
  - change (rows_of (alter f (S index) (g :: groups))) with (rg_rows g ++ rows_of (alter f index groups)).
    change (rows_of (g :: groups)) with (rg_rows g ++ rows_of groups).
    rewrite IH by eauto. by rewrite (assoc_L (++)).
Qed.
Lemma search_group_index groups row index :
  search_group groups row = Some index → ∃ g, (index, g) ∈ groups.
Proof.
  induction groups as [|[i g] groups IH]; simpl; [done|].
  destruct (reset_belongs_to_group _ _); [intros [= <-]; exists g; apply list_elem_of_here|].
  destruct (_ <? _); [done|]. intros [g' Hg]%IH. exists g'. by apply list_elem_of_further.
Qed.
Lemma elem_of_imap_pair {A} (l : list A) i a : (i, a) ∈ imap pair l ↔ l !! i = Some a.
Proof.
  rewrite list_elem_of_lookup. setoid_rewrite list_lookup_imap. split.
  - intros [j Hj]. destruct (l !! j) as [b|] eqn:E; [|done]. by injection Hj as -> ->.
  - intros Hi. exists i. by rewrite Hi.
Qed.
Lemma position_lookup {A} (p : A → bool) l i : position p l = Some i → is_Some (l !! i).
Proof.
  revert i. induction l as [|x l IH]; intros i; simpl; [done|]. destruct (p x); [intros [= <-]; eauto|].
  destruct (position p l) as [j|]; [|done]. intros [= <-]. by apply IH.
Qed.

Lemma in_rev_elem {A} (x : A) l : x ∈ l ↔ x ∈ rev l.
Proof. rewrite !list_elem_of_In. apply in_rev. Qed.

(** ** Grouping loses no row *)
Lemma group_step_rows current groups row :
  rows_of (group_step current groups row) ≡ₚ rows_of groups ++ [alias_row current row].
Proof.
  unfold group_step. destruct (search_group _ _) as [index|] eqn:E; [|by rewrite rows_of_app].
  apply search_group_index in E as [g Hg]. rewrite <-in_rev_elem, elem_of_imap_pair in Hg.
  by apply rows_of_alter; [|eauto].
Qed.
Lemma initial_groups_rows current rows :
  rows_of (initial_groups current rows) ≡ₚ map (alias_row current) (map sourced rows).
Proof.
  unfold initial_groups. transitivity (map (alias_row current) (sort_by row_leb (map sourced rows))).
  2: { apply fmap_Permutation, sort_by_perm. }
  assert (∀ l groups, rows_of (fold_left (group_step current) l groups) ≡ₚ rows_of groups ++ map (alias_row current) l)
    as H; [|by rewrite H].
  induction l as [|row l IH]; intros groups; simpl; [by rewrite app_nil_r|].
  rewrite IH, group_step_rows. by rewrite <-(assoc_L (++)).
Qed.
Lemma sort_rows_perm g : rg_rows (sort_rows g) ≡ₚ rg_rows g.
Proof. apply sort_by_perm. Qed.
Lemma rows_of_sort_rows groups : rows_of (map sort_rows groups) ≡ₚ rows_of groups.
Proof.
  induction groups as [|g groups IH]; [done|]. unfold rows_of in *. simpl. by rewrite IH, sort_by_perm.
Qed.
Definition indexed_groups (s : list ResetGroup * gmap Z nat) : Prop :=
  ∀ reset index, s.2 !! reset = Some index → is_Some (s.1 !! index).
Lemma exact_merge_rows groups : rows_of (exact_merge groups) ≡ₚ rows_of groups.
Proof.
  unfold exact_merge. rewrite (rows_of_perm _ _ (sort_by_perm _ _)), rows_of_sort_rows.
  assert (∀ l s, indexed_groups s → rows_of (fold_left exact_step l s).1 ≡ₚ rows_of s.1 ++ rows_of l) as H.
  { induction l as [|g l IH]; intros s Hs; simpl; [by rewrite app_nil_r|]. destruct s as [merged indexes].
    rewrite IH.
    - change (rows_of (g :: l)) with (rg_rows g ++ rows_of l). rewrite (assoc_L (++)). f_equiv. unfold exact_step.
      destruct (indexes !! rg_canonical_reset_at g) as [index|] eqn:E; simpl.
      + apply rows_of_alter; [done|by apply (Hs _ index E)].
      + rewrite rows_of_app. unfold rows_of at 2. simpl. by rewrite app_nil_r.
    - unfold exact_step. destruct (indexes !! rg_canonical_reset_at g) as [index|] eqn:E; intros reset i; simpl.
      + intros Hi. apply lookup_lt_is_Some_2. rewrite length_alter. by apply lookup_lt_is_Some_1, (Hs reset).
      + destruct (decide (rg_canonical_reset_at g = reset)) as [->|Hne].
        * rewrite lookup_insert_eq. intros [= <-]. rewrite lookup_app_r, Nat.sub_diag by lia. eauto.
        * rewrite lookup_insert_ne by done. intros Hi. destruct (Hs reset i Hi) as [g' Hg']. simpl in Hg'.
          rewrite lookup_app_l; [eauto|]. by apply lookup_lt_Some in Hg'. }
  by rewrite H.
Qed.
Lemma family_merge_rows groups : rows_of (family_merge groups) ≡ₚ rows_of groups.
Proof.
  unfold family_merge. rewrite (rows_of_perm _ _ (sort_by_perm _ _)).
  assert (∀ l merged, rows_of (fold_left family_step l merged) ≡ₚ rows_of merged ++ rows_of l) as H; [|by rewrite H].
  induction l as [|g l IH]; intros merged; simpl; [by rewrite app_nil_r|].
  rewrite IH. change (rows_of (g :: l)) with (rg_rows g ++ rows_of l). rewrite (assoc_L (++)). f_equiv.
  unfold family_step. destruct (position _ merged) as [index|] eqn:E.
  - apply rows_of_alter; [|by eapply position_lookup]. intros g'. apply sort_by_perm.
  - rewrite rows_of_app. unfold rows_of at 2. simpl. by rewrite app_nil_r.
Qed.
(** The rows are gathered into groups without loss or repetition, each with the reset it
    is given when it is close to the current one. *)
Theorem grouping_keeps_rows current rows :
  rows_of (family_merge (exact_merge (initial_groups current rows))) ≡ₚ map (alias_row current) (map sourced rows).
Proof. by rewrite family_merge_rows, exact_merge_rows, initial_groups_rows. Qed.

(** ** Rows are recorded rows *)
Section recorded.
Context (current : option Z) (rows : list RawRow).
(** The reset of a recorded row, or the current one. *)
Definition known_reset (reset : Z) : Prop := current = Some reset ∨ ∃ raw, raw ∈ rows ∧ rs_reset_at raw = reset.
Definition recorded_row (r : SourcedRawSample) : Prop :=
  ∃ raw, raw ∈ rows ∧ r = with_row_reset (row_reset_at r) (sourced raw) ∧ known_reset (row_reset_at r).
Definition recorded_group (g : ResetGroup) : Prop :=
  known_reset (rg_canonical_reset_at g) ∧ Forall recorded_row (rg_rows g).
Lemma max_known a b : known_reset a → known_reset b → known_reset (Z.max a b).
Proof. intros. by destruct (Z.max_spec a b) as [[_ ->]|[_ ->]]. Qed.
Lemma alias_recorded raw : raw ∈ rows → recorded_row (alias_row current (sourced raw)).
Proof.
  intros Hraw. exists raw. split; [done|]. unfold alias_row.
  assert (with_row_reset (rs_reset_at raw) (sourced raw) = sourced raw) as Hsame by by destruct raw.
  destruct current as [authority|] eqn:Ec; [destruct (near _ authority)|]; (split; [done|]).
  - by left.
  - right. by exists raw.
  - right. by exists raw.
Qed.
Lemma initial_recorded : Forall recorded_group (initial_groups current rows).
Proof.
  unfold initial_groups.
  assert (∀ l groups, Forall (λ r, recorded_row (alias_row current r)) l → Forall recorded_group groups →
    Forall recorded_group (fold_left (group_step current) l groups)) as H.
  { induction l as [|r l IH]; simpl; [done|]. intros groups [Hr Hl]%Forall_cons Hg. apply IH; [done|].
    assert (known_reset (row_reset_at (alias_row current r))) as Hk by by destruct Hr as (? & _ & _ & ?).
    unfold group_step. destruct (search_group _ _) as [index|].
    - apply Forall_alter; [done|]. intros g _ [Hc Hrows]. split; simpl; [by apply max_known|].
      apply Forall_app. split; [done|]. by constructor.
    - apply Forall_app. split; [done|]. constructor; [|constructor]. split; simpl; [done|]. by constructor. }
  apply H; [|constructor]. apply Forall_forall. intros r Hr. rewrite sort_by_elem in Hr.
  apply list_elem_of_fmap in Hr as (raw & -> & Hraw). by apply alias_recorded.
Qed.
Lemma sort_rows_recorded g : recorded_group g → recorded_group (sort_rows g).
Proof. intros [? ?]. split; [done|]. simpl. by rewrite (sort_by_perm _ _). Qed.
Lemma sort_groups_recorded groups : Forall recorded_group groups → Forall recorded_group (sort_by group_leb groups).
Proof. by rewrite (sort_by_perm _ _). Qed.
Lemma exact_recorded groups : Forall recorded_group groups → Forall recorded_group (exact_merge groups).
Proof.
  intros Hg. apply sort_groups_recorded, Forall_fmap.
  assert (∀ l s, Forall recorded_group l → Forall recorded_group s.1 →
    Forall recorded_group (fold_left exact_step l s).1) as H.
  { induction l as [|g l IH]; intros [merged indexes]; simpl; [done|]. intros [[Hk Hr] Hl]%Forall_cons Hm.
    apply IH; [done|]. unfold exact_step. destruct (indexes !! _) as [index|]; simpl.
    - apply Forall_alter; [done|]. intros e _ [? ?]. split; [done|]. simpl. by apply Forall_app.
    - apply Forall_app. split; [done|]. constructor; [by split|constructor]. }
  eapply Forall_impl; [by apply (H groups ([], ∅)); [|constructor]|]. apply sort_rows_recorded.
Qed.
Lemma family_recorded groups : Forall recorded_group groups → Forall recorded_group (family_merge groups).
Proof.
  intros Hg. apply sort_groups_recorded.
  assert (∀ l merged, Forall recorded_group l → Forall recorded_group merged →
    Forall recorded_group (fold_left family_step l merged)) as H; [|by apply H; [|constructor]].
  induction l as [|g l IH]; intros merged; simpl; [done|]. intros [[Hk Hr] Hl]%Forall_cons Hm.
  apply IH; [done|]. unfold family_step. destruct (position _ merged) as [index|].
  - apply Forall_alter; [done|]. intros e _ [? ?]. apply sort_rows_recorded. split; simpl; [by apply max_known|].
    by apply Forall_app.
  - apply Forall_app. split; [done|]. constructor; [by split|constructor].
Qed.
Lemma retain_recorded p g : recorded_group g → recorded_group (retain_rows p g).
Proof.
  intros [? Hr]. split; [done|]. simpl. rewrite Forall_forall in *. intros r [Hin _]%elem_of_filter_bool. by apply Hr.
Qed.
Lemma clip_recorded groups : Forall recorded_group groups → Forall recorded_group (clip_stale_reset_group_tails groups).
Proof.
  intros Hg. unfold clip_stale_reset_group_tails. apply Forall_fmap.
  apply Forall_impl with recorded_group; [|by intros g []].
  generalize (map fixed_reset_transition_start groups), (shadowed_moving_reset_groups groups).
  intros starts shadowed. generalize (seq 0 (length groups)). intros l. revert groups Hg.
  induction l as [|i l IH]; intros groups Hg; simpl; [done|]. apply IH. unfold clip_candidate.
  destruct (shadowed !! i) as [[]|], (starts !! i) as [[]|], (groups !! i) as [candidate|]; try done.
  apply Forall_forall. intros g [j Hj]%list_elem_of_lookup. rewrite list_lookup_imap in Hj.
  destruct (groups !! j) as [prior|] eqn:Ej; [|done]. injection Hj as <-.
  assert (recorded_group prior) as Hp by (by eapply Forall_lookup_1).
  destruct (_ && _); [by apply retain_recorded|done].
Qed.
Lemma reset_groups_recorded : Forall recorded_group (reset_groups current rows).
Proof.
  pose proof (clip_recorded _ (family_recorded _ (exact_recorded _ initial_recorded))) as H.
  unfold reset_groups. rewrite Forall_forall in *. intros g ([g' b] & Hin & Hb)%elem_of_filter_map.
  unfold then_some in Hb. destruct b; [done|]. injection Hb as ->.
  apply elem_of_zip_l in Hin. apply elem_of_filter_bool in Hin as [Hin _]. by apply H.
Qed.
End recorded.

(** ** One row for a minute *)
Lemma dominant_row_elem l d : dominant_row l = Some d → d ∈ l.
Proof.
  unfold dominant_row. intros (quota & _ & Hd)%bind_Some. apply find_some in Hd as [Hin _].
  apply in_rev, list_elem_of_In in Hin. by rewrite sort_by_elem in Hin.
Qed.
Lemma elem_of_minute_owners groups minute i :
  i ∈ minute_owners groups minute ↔ ∃ g r, groups !! i = Some g ∧ r ∈ rg_rows g ∧ minute_of_row r = minute.
Proof.
  unfold minute_owners. rewrite list_elem_of_fmap. split.
  - intros ([j g] & -> & [Hin Hr]%elem_of_filter_bool). apply elem_of_imap_pair in Hin.
    apply existsb_Exists, Exists_exists in Hr as (r & Hr & E%Z.eqb_eq). by exists g, r.
  - intros (g & r & Hg & Hr & E). exists (i, g). split; [done|]. apply elem_of_filter_bool.
    rewrite elem_of_imap_pair. split; [done|]. apply existsb_Exists, Exists_exists. exists r.
    split; [done|]. by apply Z.eqb_eq.
Qed.
(** No minute is kept for two groups. *)
Lemma kept_minute_unique cg cs groups i j gi gj ri rj :
  groups !! i = Some gi → groups !! j = Some gj → ri ∈ rg_rows gi → rj ∈ rg_rows gj →
  kept_row cg cs groups i ri = true → kept_row cg cs groups j rj = true →
  minute_of_row ri = minute_of_row rj → i = j.
Proof.
  intros Hi Hj Hri Hrj Ki Kj Em. destruct (decide (i = j)) as [|Hne]; [done|]. exfalso.
  unfold kept_row in Ki, Kj. rewrite !andb_true_iff, !negb_true_iff in *. destruct Ki as [_ Ki], Kj as [_ Kj].
  rewrite Em in Ki. set (m := minute_of_row rj) in *.
  assert (contested groups m = true) as Hc.
  { unfold contested. apply Nat.ltb_lt.
    assert (i ∈ minute_owners groups m) as Hii by (apply elem_of_minute_owners; by exists gi, ri).
    assert (j ∈ minute_owners groups m) as Hjj by (apply elem_of_minute_owners; by exists gj, rj).
    destruct (minute_owners groups m) as [|a [|b l]]; [by apply elem_of_nil in Hii| |simpl; lia].
    apply list_elem_of_singleton in Hii, Hjj. congruence. }
  unfold lost_minute in Ki, Kj. rewrite Hc in Ki, Kj. simpl in Ki, Kj.
  apply negb_false_iff, bool_decide_eq_true in Ki, Kj. congruence.
Qed.
Definition sample_minute (s : CanonicalStorageSample) : Z := hs_timestamp (cs_sample s).
Lemma elem_of_canonical_group cg cs groups i g s :
  s ∈ canonical_group cg cs groups i g → ∃ d, d ∈ rg_rows g ∧ kept_row cg cs groups i d = true
    ∧ s = canonical_sample (rg_canonical_reset_at g) (minute_of_row d) d.
Proof.
  unfold canonical_group. intros (minute & _ & Hs)%elem_of_filter_map.
  destruct (dominant_row _) as [d|] eqn:Ed; [|done]. injection Hs as <-.
  apply dominant_row_elem in Ed. apply elem_of_filter_bool in Ed as [[Hd Hk]%elem_of_filter_bool <-%Z.eqb_eq].
  by exists d.
Qed.
Lemma canonical_group_minutes cg cs groups i g : NoDup (map sample_minute (canonical_group cg cs groups i g)).
Proof.
  unfold canonical_group. set (rows := List.filter _ (rg_rows g)).
  assert (NoDup (dedup_sorted (map minute_of_row rows))) as Hnd.
  { unfold dedup_sorted. rewrite (sort_by_perm _ _). apply NoDup_elements. }
  induction Hnd as [|m l Hm Hnd IH]; simpl; [constructor|].
  destruct (dominant_row _) as [d|] eqn:Ed; simpl; [|done]. constructor; [|done].
  intros (s & Es & (m' & Hm' & Hs)%elem_of_filter_map)%list_elem_of_fmap.
  destruct (dominant_row (List.filter (λ row, minute_of_row row =? m') rows)) as [d'|]; [|done].
  injection Hs as <-. unfold sample_minute in Es. simpl in Es. by subst.
Qed.
Lemma NoDup_concat_imap {A B} (key : B → Z) (l : list A) (f : nat → A → list B) :
  (∀ i a, l !! i = Some a → NoDup (map key (f i a))) →
  (∀ i j a b x y, l !! i = Some a → l !! j = Some b → x ∈ f i a → y ∈ f j b → key x = key y → i = j) →
  NoDup (map key (concat (imap f l))).
Proof.
  revert f. induction l as [|a l IH]; intros f Hnd Hdisj; simpl; [constructor|].
  rewrite map_app. apply NoDup_app. split_and!.
  - by apply (Hnd 0%nat).
  - intros k (x & -> & Hx)%list_elem_of_fmap (y & E & Hy)%list_elem_of_fmap.
    apply elem_of_concat in Hy as (bs & Hy & Hbs). apply list_elem_of_lookup in Hbs as [j Hj].
    rewrite list_lookup_imap in Hj. destruct (l !! j) as [b|] eqn:Hb; [|done]. injection Hj as <-.
    by discriminate (Hdisj 0%nat (S j) a b x y eq_refl Hb Hx Hy E).
  - apply (IH (f ∘ S)).
    + intros i b Hb. by apply (Hnd (S i)).
    + intros i j b c x y Hb Hc Hx Hy E. by injection (Hdisj (S i) (S j) b c x y Hb Hc Hx Hy E).
Qed.
Lemma elem_of_canonical_rows current window groups s :
  s ∈ canonical_rows current window groups ↔ ∃ i g, groups !! i = Some g
    ∧ s ∈ canonical_group (current_group_of current groups) (current_start_of current window groups) groups i g.
Proof.
  unfold canonical_rows. rewrite sort_by_elem, elem_of_concat. split.
  - intros (l & Hs & [i Hi]%list_elem_of_lookup). rewrite list_lookup_imap in Hi.
    destruct (groups !! i) as [g|] eqn:Hg; [|done]. injection Hi as <-. by exists i, g.
  - intros (i & g & Hg & Hs). eexists. split; [exact Hs|]. apply list_elem_of_lookup. exists i.
    by rewrite list_lookup_imap, Hg.
Qed.
Lemma canonical_minutes current window groups : NoDup (map sample_minute (canonical_rows current window groups)).
Proof.
  unfold canonical_rows. rewrite (sort_by_perm _ _). apply NoDup_concat_imap.
  - intros. apply canonical_group_minutes.
  - intros i j gi gj x y Hi Hj (d & Hd & Kd & ->)%elem_of_canonical_group (e & He & Ke & ->)%elem_of_canonical_group E.
    exact (kept_minute_unique _ _ groups i j gi gj d e Hi Hj Hd He Kd Ke E).
Qed.

(** C25. Every canonical row has the values of one recorded row, at the minute of that row and
    under a reset that was recorded or is the current one; no minute appears twice, in
    whichever periods; and the rows are in the order of their periods and minutes. *)
Theorem canonical_rows_recorded rows current window max_rows reject_ambiguous canonical :
  canonicalize_history_with_sources_and_limit rows current window max_rows reject_ambiguous = Ok canonical →
  (∀ s, s ∈ canonical → ∃ raw reset, raw ∈ rows ∧ known_reset current rows reset
    ∧ s = canonical_sample reset (rs_timestamp raw - rs_timestamp raw mod 60) (sourced raw))
  ∧ NoDup (map sample_minute canonical)
  ∧ StronglySorted (λ a b, sample_leb a b = true) canonical.
Proof.
  unfold canonicalize_history_with_sources_and_limit. intros H. inv_ok.
  split_and!.
  - intros s (i & g & Hg & (d & Hd & _ & ->)%elem_of_canonical_group)%elem_of_canonical_rows.
    pose proof (reset_groups_recorded current rows) as Hall.
    apply (Forall_lookup_1 _ _ _ _ Hall) in Hg as [Hk Hrows].
    rewrite Forall_forall in Hrows. destruct (Hrows d Hd) as (raw & Hraw & Ed & _).
    exists raw, (rg_canonical_reset_at g). split_and!; [done..|]. rewrite Ed. by destruct raw.
  - apply canonical_minutes.
  - apply sort_by_sorted; unfold sample_leb.
    + intros a b. rewrite !span_leb_iff. simpl. lia.
    + intros a b c. rewrite !span_leb_iff. simpl. lia.
Qed.

(** *** Two periods that meet in one minute; only the second one has quota *)
Definition example_raw (timestamp reset : Z) (percent : option Z) (sol : Z) : RawRow := {|
  rs_timestamp := timestamp; rs_reset_at := reset; rs_remaining_percent := f64_of_Z <$> percent;
  rs_sol_dollars := f64_zero; rs_terra_dollars := f64_zero; rs_luna_dollars := f64_zero; rs_sol_tokens := sol;
  rs_terra_tokens := 0; rs_luna_tokens := 0 |}.
Definition example_raws : list RawRow := [
  example_raw 130 800000 (Some 98) 1; example_raw 60 700000 None 5; example_raw 125 700000 None 6;
  example_raw 200 800010 (Some 97) 2].
Definition example_canonical : list CanonicalStorageSample :=
  match canonicalize_history_with_sources_and_limit example_raws None 0 None true with
  | Ok canonical => canonical
  | Err _ => []
  end.
Lemma canonical_rows_recorded_witness :
  (∀ s, s ∈ example_canonical → ∃ raw reset, raw ∈ example_raws ∧ known_reset None example_raws reset
    ∧ s = canonical_sample reset (rs_timestamp raw - rs_timestamp raw mod 60) (sourced raw))
  ∧ NoDup (map sample_minute example_canonical)
  ∧ StronglySorted (λ a b, sample_leb a b = true) example_canonical.
Proof.
  refine (canonical_rows_recorded example_raws None 0 None true example_canonical _). by vm_compute.
Defined.
Example example_canonical_rows :
  map (λ s, (hs_reset_at (cs_sample s), sample_minute s, cs_source_timestamp s, hs_sol_tokens (cs_sample s)))
    example_canonical
  = [(700000, 60, 60, 5); (800010, 120, 130, 1); (800010, 180, 200, 2)].
Proof. by vm_compute. Qed.
