(* ===== verification/ThreadState.v ===== *)
(** * Descendants of the active threads

    Models [src/thread_state.rs]: the breadth-first search over the parent edges of the
    state database, with its limits and its check for cycles. What the source asks of
    SQLite, of the file system and of the Unicode tables is passed as an argument: the
    type of a schema object and the rows of its [table_info], the rows of the query for a
    batch of parents, the canonical path of a rollout and the upper case of a character.
    A row that cannot be stepped to is a row without columns. *)

From S2P Require Import Prelude Text Security SqlRow.

Definition MAX_NATIVE_THREAD_DEPTH : nat := 64.
Definition MAX_NATIVE_THREAD_DESCENDANTS : nat := 1024.
Definition QUERY_PARENT_BATCH : nat := 128.
Definition MAX_ROLLOUT_PATH_BYTES : Z := 16 * 1024.
Inductive ThreadStateError := UnsafePath | Database | InvalidSchema | InvalidRow | LimitExceeded | Cycle | Replaced.
Record NativeThreadCandidate := {
  nc_id : text;
  nc_created_at : option Z;
  nc_updated_at : Z;
  nc_title : text;
  nc_rollout_path : text;
  nc_parent_thread_id : text;
  nc_depth : Z
}.
Record NativeThreadRow := {
  nr_id : text;
  nr_created_at : option Z;
  nr_updated_at : Z;
  nr_title : text;
  nr_rollout_path : text;
  nr_parent_thread_id : text
}.
#[export] Instance NativeThreadRow_eq_dec : EqDecision NativeThreadRow.
Proof. solve_decision. Defined.
Record ColumnContract := { cc_declared_type : text; cc_not_null : bool; cc_primary_key : bool }.
#[export] Instance ColumnContract_eq_dec : EqDecision ColumnContract.
Proof. solve_decision. Defined.

Definition valid_thread_id (value : text) : bool :=
  in_range 1 128 (chars_count value) && negb (existsb is_control value).

(** ** Columns *)
(** [row.get::<_, String>], [row.get::<_, Option<String>>] and
    [row.get::<_, Option<i64>>]. *)
Definition get_string (row : Row) (index : nat) : option text :=
  match row !! index with Some (SqlText bytes) => from_utf8 bytes | _ => None end.
Definition get_optional_string (row : Row) (index : nat) : option (option text) :=
  match row !! index with
  | Some SqlNull => Some None
  | Some (SqlText bytes) => Some <$> from_utf8 bytes
  | _ => None
  end.
Definition get_integer (row : Row) (index : nat) : option Z :=
  match row !! index with Some (SqlInteger value) => Some value | _ => None end.
Definition get_optional_integer (row : Row) (index : nat) : option (option Z) :=
  match row !! index with
  | Some SqlNull => Some None
  | Some (SqlInteger value) => Some (Some value)
  | _ => None
  end.

(** ** The schema *)
(** What SQLite answers about its schema, [None] for an error. *)
Record StateSchema := {
  ss_object_type : text → option text;
  ss_table_info : text → option (list Row)
}.
Definition column_of (row : Row) : option (text * ColumnContract) :=
  name ← get_string row 1;
  declared_type ← get_string row 2;
  not_null ← get_integer row 3;
  primary_key ← get_integer row 5;
  Some (name, {| cc_declared_type := to_ascii_uppercase declared_type; cc_not_null := not_null =? 1;
    cc_primary_key := 0 <? primary_key |}).
Definition insert_column (columns : gmap text ColumnContract) (row : Row) :
    result ThreadStateError (gmap text ColumnContract) :=
  '(name, contract) ← ok_or (column_of row) InvalidSchema;
  reject InvalidSchema when opt_is_some (columns !! name);
  Ok (<[name := contract]> columns).
Definition table_columns (schema : StateSchema) (table : text) : result ThreadStateError (gmap text ColumnContract) :=
  object_type ← ok_or (ss_object_type schema table) InvalidSchema;
  reject InvalidSchema when negb (text_eqb object_type (lit "table"));
  reject InvalidSchema when negb (is_any table ["threads"; "thread_spawn_edges"]);
  rows ← ok_or (ss_table_info schema table) InvalidSchema;
  fold_result insert_column ∅ rows.
Definition require_column (columns : gmap text ColumnContract) (name declared_type : string)
    (not_null primary_key : bool) : result ThreadStateError () :=
  column ← ok_or (columns !! lit name) InvalidSchema;
  reject InvalidSchema when negb (text_eqb (cc_declared_type column) (lit declared_type))
    || negb (Bool.eqb (cc_not_null column) not_null) || negb (Bool.eqb (cc_primary_key column) primary_key);
  Ok ().
Arguments require_column columns (name declared_type)%_string_scope not_null primary_key.
Definition optional_text_column (columns : gmap text ColumnContract) (name : string) : result ThreadStateError bool :=
  match columns !! lit name with
  | None => Ok false
  | Some column =>
      reject InvalidSchema when negb (text_eqb (cc_declared_type column) (lit "TEXT"))
        || cc_not_null column || cc_primary_key column;
      Ok true
  end.
Arguments optional_text_column columns name%_string_scope.
Definition optional_integer_column (columns : gmap text ColumnContract) (name : string) :
    result ThreadStateError bool :=
  match columns !! lit name with
  | None => Ok false
  | Some column =>
      reject InvalidSchema when negb (text_eqb (cc_declared_type column) (lit "INTEGER")) || cc_primary_key column;
      Ok true
  end.
Arguments optional_integer_column columns name%_string_scope.
Definition validate_state_schema (schema : StateSchema) : result ThreadStateError () :=
  edges ← table_columns schema (lit "thread_spawn_edges");
  _ ← require_column edges "parent_thread_id" "TEXT" true false;
  _ ← require_column edges "child_thread_id" "TEXT" true true;
  _ ← require_column edges "status" "TEXT" true false;
  threads ← table_columns schema (lit "threads");
  _ ← require_column threads "id" "TEXT" false true;
  _ ← require_column threads "rollout_path" "TEXT" true false;
  _ ← require_column threads "updated_at" "INTEGER" true false;
  _ ← require_column threads "archived" "INTEGER" true false;
  _ ← require_column threads "name" "TEXT" false false;
  _ ← require_column threads "preview" "TEXT" true false;
  _ ← require_column threads "thread_source" "TEXT" false false;
  Ok ().

(** ** Paths and titles *)
(** [Path::file_name] of a Unix path: the last component that is not empty or a dot,
    unless it is two dots. *)
Definition file_name (path : text) : option text :=
  opt_filter (λ name, negb (text_eqb name (lit "..")))
    (last (List.filter (λ c, negb (text_eqb c [] || text_eqb c (lit "."))) (split 47 path))).
(** [Path::extension]: what follows the last dot of the file name, unless nothing is
    before that dot. *)
Definition extension (path : text) : option text :=
  name ← file_name path;
  let after := trim_start_matches (λ c, negb (c =? 46)) (reverse name) in
  match after with
  | _ :: (_ :: _) => Some (drop (length after) name)
  | _ => None
  end.
Section titles.
(** [char::to_uppercase], a table of Unicode. *)
Context (to_uppercase : Z → text).

Definition task_title_from_agent_path (path : text) : option text :=
  component ← trim <$> file_name path;
  match map (λ c, if c =? 95 then 32 else c) component with
  | [] => None
  | first :: characters =>
      opt_filter (λ title, negb (text_eqb title [])) (result_ok (bounded_thread_title (to_uppercase first ++ characters)))
  end.
(** The normalized form of an optional text, [None] when there is none. *)
Definition normalized (value : option text) : result ThreadStateError (option text) :=
  match value with
  | None => Ok None
  | Some value => Some <$> map_err (λ _, InvalidRow) (bounded_thread_title value)
  end.
Definition native_thread_title (name : option text) (preview : text) (agent_path agent_nickname : option text) :
    result ThreadStateError text :=
  normalized_name ← normalized name;
  let normalized_name := default [] normalized_name in
  normalized_preview ← map_err (λ _, InvalidRow) (bounded_thread_title preview);
  if negb (text_eqb normalized_name []) then Ok normalized_name
  else if negb (text_eqb normalized_preview []) then Ok normalized_preview
  else match agent_path ≫= task_title_from_agent_path with
  | Some title => Ok title
  | None =>
      nickname ← normalized agent_nickname;
      Ok (default (lit "アクティブなスレッド") (opt_filter (λ nickname, negb (text_eqb nickname [])) nickname))
  end.
End titles.

(** ** Cycles and depth *)
(** [steps] is what is left of the limit on steps. *)
Fixpoint climb (steps : nat) (child : text) (parents : gmap text text) (cursor : text) : bool :=
  match parents !! cursor with
  | None => false
  | Some ancestor =>
      if text_eqb ancestor child then true
      else match steps with O => true | S steps => climb steps child parents ancestor end
  end.
Definition creates_cycle (parent child : text) (parents : gmap text text) : bool :=
  if text_eqb parent child then true else climb MAX_NATIVE_THREAD_DESCENDANTS child parents parent.
(** [allowed] is what is left of the limit on the depth. *)
Fixpoint depth_from (allowed : nat) (parents : gmap text text) (visited : gset text) (depth : Z) (cursor : text) :
    result ThreadStateError Z :=
  match parents !! cursor with
  | None => Ok depth
  | Some parent =>
      reject Cycle when bool_decide (cursor ∈ visited);
      match allowed with
      | O => Err LimitExceeded
      | S allowed => depth_from allowed parents ({[cursor]} ∪ visited) (depth + 1) parent
      end
  end.
Definition relation_depth (thread_id : text) (parents : gmap text text) : result ThreadStateError Z :=
  depth_from MAX_NATIVE_THREAD_DEPTH parents ∅ 0 thread_id.

(** ** The search *)
(** The columns of a row of the query. *)
Record EdgeRow := {
  er_parent : text;
  er_id : text;
  er_rollout_path : option text;
  er_created_at : option Z;
  er_updated_at : option Z;
  er_archived : option Z;
  er_name : option text;
  er_preview : option text;
  er_source : option text;
  er_agent_path : option text;
  er_agent_nickname : option text
}.
Definition edge_of (row : Row) : option EdgeRow :=
  parent ← get_string row 0;
  id ← get_string row 1;
  rollout_path ← get_optional_string row 2;
  created_at ← get_optional_integer row 3;
  updated_at ← get_optional_integer row 4;
  archived ← get_optional_integer row 5;
  name ← get_optional_string row 6;
  preview ← get_optional_string row 7;
  source ← get_optional_string row 8;
  agent_path ← get_optional_string row 9;
  agent_nickname ← get_optional_string row 10;
  Some {| er_parent := parent; er_id := id; er_rollout_path := rollout_path; er_created_at := created_at;
    er_updated_at := updated_at; er_archived := archived; er_name := name; er_preview := preview;
    er_source := source; er_agent_path := agent_path; er_agent_nickname := agent_nickname |}.
Definition valid_edge (e : EdgeRow) : bool :=
  valid_thread_id (er_parent e) && valid_thread_id (er_id e)
  && is_some_and (λ value, 0 <? value) (er_updated_at e)
  && bool_decide (er_archived e = Some 0) && bool_decide (er_source e = Some (lit "subagent")).
(** [current.chunks(size)]; the fuel is the number of elements. *)
Fixpoint chunks_from {A} (fuel size : nat) (l : list A) : list (list A) :=
  match fuel, l with
  | S fuel, _ :: _ => take size l :: chunks_from fuel size (drop size l)
  | _, _ => []
  end.
Definition chunks {A} (size : nat) (l : list A) : list (list A) := chunks_from (length l) size l.
(** The optional columns the query selects. *)
Record Columns := { has_agent_path : bool; has_agent_nickname : bool; has_created_at : bool }.
Record SearchState := {
  st_discovered : gmap text NativeThreadRow;
  st_parents : gmap text text;
  st_next : list text
}.

Section search.
Context (to_uppercase : Z → text).
(** [security::canonical_regular_file_under] of the sessions directory. *)
Context (canonical_rollout : text → option text).
(** The query for the children of a batch of parents, with a limit on its rows; [None]
    when it cannot be run. *)
Context (select : Columns → list text → nat → option (list Row)).

Definition candidate_of (e : EdgeRow) : result ThreadStateError NativeThreadRow :=
  rollout_path ← ok_or (er_rollout_path e) InvalidRow;
  reject LimitExceeded when MAX_ROLLOUT_PATH_BYTES <? str_len rollout_path;
  path ← ok_or (canonical_rollout rollout_path) UnsafePath;
  reject UnsafePath when negb (bool_decide (extension path = Some (lit "jsonl")));
  preview ← ok_or (er_preview e) InvalidRow;
  title ← native_thread_title to_uppercase (er_name e) preview (er_agent_path e) (er_agent_nickname e);
  updated_at ← ok_or (er_updated_at e) InvalidRow;
  Ok {| nr_id := er_id e; nr_created_at := er_created_at e; nr_updated_at := updated_at; nr_title := title;
    nr_rollout_path := path; nr_parent_thread_id := er_parent e |}.
Definition search_row (s : SearchState) (row : Row) : result ThreadStateError SearchState :=
  e ← ok_or (edge_of row) InvalidRow;
  let parent := er_parent e in let id := er_id e in
  reject InvalidRow when negb (valid_edge e);
  reject InvalidRow when is_some_and (λ value, value <=? 0) (er_created_at e);
  reject Cycle when creates_cycle parent id (st_parents s);
  reject InvalidRow when is_some_and (λ existing, negb (text_eqb existing parent)) (st_parents s !! id);
  let parents := <[id := parent]> (st_parents s) in
  candidate ← candidate_of e;
  match st_discovered s !! id with
  | Some existing =>
      reject InvalidRow when negb (bool_decide (existing = candidate));
      Ok {| st_discovered := st_discovered s; st_parents := parents; st_next := st_next s |}
  | None =>
      reject LimitExceeded when (MAX_NATIVE_THREAD_DESCENDANTS <=? size (st_discovered s))%nat;
      Ok {| st_discovered := <[id := candidate]> (st_discovered s); st_parents := parents;
        st_next := st_next s ++ [id] |}
  end.
Definition search_batch (columns : Columns) (s : SearchState) (batch : list text) :
    result ThreadStateError SearchState :=
  reject LimitExceeded when (MAX_NATIVE_THREAD_DESCENDANTS <? size (st_discovered s))%nat;
  let remaining := (MAX_NATIVE_THREAD_DESCENDANTS - size (st_discovered s))%nat in
  found ← ok_or (select columns batch (S remaining)) Database;
  fold_result search_row s found.
(** The entries that were not expanded before, and what is expanded with them. *)
Fixpoint newly_expanded (expanded : gset text) (frontier : list text) : list text * gset text :=
  match frontier with
  | [] => ([], expanded)
  | id :: rest =>
      if bool_decide (id ∈ expanded) then newly_expanded expanded rest
      else let '(current, expanded) := newly_expanded ({[id]} ∪ expanded) rest in (id :: current, expanded)
  end.
(** The outer loop; [None] when the fuel runs out. *)
Fixpoint search (fuel : nat) (columns : Columns) (expanded : gset text) (frontier : list text)
    (discovered : gmap text NativeThreadRow) (parents : gmap text text) :
    option (result ThreadStateError SearchState) :=
  match fuel with
  | O => None
  | S fuel =>
      let '(current, expanded) := newly_expanded expanded frontier in
      if bool_decide (current = []) then
        Some (Ok {| st_discovered := discovered; st_parents := parents; st_next := [] |})
      else
        match fold_result (search_batch columns)
                {| st_discovered := discovered; st_parents := parents; st_next := [] |}
                (chunks QUERY_PARENT_BATCH current) with
        | Err e => Some (Err e)
        | Ok s => search fuel columns expanded (st_next s) (st_discovered s) (st_parents s)
        end
  end.
Definition with_depth (parents : gmap text text) (row : NativeThreadRow) :
    result ThreadStateError NativeThreadCandidate :=
  depth ← relation_depth (nr_id row) parents;
  depth ← ok_or (i32_try_from depth) LimitExceeded;
  Ok {| nc_id := nr_id row; nc_created_at := nr_created_at row; nc_updated_at := nr_updated_at row;
    nc_title := nr_title row; nc_rollout_path := nr_rollout_path row;
    nc_parent_thread_id := nr_parent_thread_id row; nc_depth := depth |}.
Definition add_candidate (parents : gmap text text) (candidates : list NativeThreadCandidate) (row : NativeThreadRow) :
    result ThreadStateError (list NativeThreadCandidate) :=
  candidate ← with_depth parents row;
  Ok (candidates ++ [candidate]).
(** Every round but the last discovers a row, and the limit on the rows bounds the rounds. *)
Definition search_fuel : nat := S (S (S MAX_NATIVE_THREAD_DESCENDANTS)).
Definition read_columns (schema : StateSchema) : result ThreadStateError Columns :=
  thread_columns ← table_columns schema (lit "threads");
  has_agent_path ← optional_text_column thread_columns "agent_path";
  has_agent_nickname ← optional_text_column thread_columns "agent_nickname";
  has_created_at ← optional_integer_column thread_columns "created_at";
  Ok {| has_agent_path := has_agent_path; has_agent_nickname := has_agent_nickname;
    has_created_at := has_created_at |}.
Definition read_descendants (schema : StateSchema) (owner_root_ids : list text) :
    option (result ThreadStateError (list NativeThreadCandidate)) :=
  if (MAX_NATIVE_THREAD_DESCENDANTS <? length owner_root_ids)%nat
     || existsb (λ id, negb (valid_thread_id id)) owner_root_ids
  then Some (Err LimitExceeded)
  else
    match read_columns schema with
    | Err e => Some (Err e)
    | Ok columns =>
        found ← search search_fuel columns ∅ owner_root_ids ∅ ∅;
        Some (s ← found;
              fold_result (add_candidate (st_parents s)) [] (map snd (rows (st_discovered s))))
    end.
(** The part of [load_native_descendants] inside the transaction. *)
Definition load_in_transaction (schema : StateSchema) (owner_root_ids : list text) :
    option (result ThreadStateError (list NativeThreadCandidate)) :=
  if bool_decide (owner_root_ids = []) then Some (Ok [])
  else match validate_state_schema schema with
       | Err e => Some (Err e)
       | Ok _ => read_descendants schema owner_root_ids
       end.
End search.
