(* ===== verification/DescendantFacts.v ===== *)
(** * The descendants that are listed

    Theorems on [ThreadState]: the search ends, and what it lists are exactly the threads
    below the given roots, each once and with its distance to the top. *)

From S2P Require Import Prelude Text Security SqlRow ThreadState.

(** ** The query *)
(** The documented behaviour of a [SELECT] with [WHERE .. IN] and [LIMIT] over the joined
    [edges]. *)
Definition selected (batch : list text) (row : Row) : bool :=
  is_some_and (λ parent, bool_decide (parent ∈ batch)) (get_string row 0).
Definition answers_query (edges : list Row) (query : list text → nat → option (list Row)) : Prop :=
  ∀ batch limit found, query batch limit = Some found →
    ∃ all, all ≡ₚ List.filter (selected batch) edges ∧ found = take limit all.
(** [child_thread_id] is the primary key of the edges, and [id] that of the threads they
    are joined with. *)
Definition keyed_by_child (edges : list Row) : Prop := NoDup (filter_map (λ row, get_string row 1) edges).
Definition edge (edges : list Row) (parent child : text) : Prop :=
  ∃ row, row ∈ edges ∧ get_string row 0 = Some parent ∧ get_string row 1 = Some child.

Lemma edge_of_strings row e :
  edge_of row = Some e → get_string row 0 = Some (er_parent e) ∧ get_string row 1 = Some (er_id e).
Proof.
  unfold edge_of. intros H. repeat (apply bind_Some in H as (? & ? & H)). injection H as <-. by split.
Qed.
Lemma filter_map_inj_on {A B} (f : A → option B) l x y b :
  NoDup (filter_map f l) → x ∈ l → y ∈ l → f x = Some b → f y = Some b → x = y.
Proof.
  intros Hnd Hx Hy Ex Ey. induction l as [|a l IH]; [by apply elem_of_nil in Hx|].
  simpl in Hnd. apply elem_of_cons in Hx, Hy.
  destruct Hx as [<-|Hx], Hy as [<-|Hy]; [done|rewrite Ex in Hnd|rewrite Ey in Hnd|].
  - exfalso. apply NoDup_cons in Hnd as [Hn _]. apply Hn, elem_of_filter_map. eauto.
  - exfalso. apply NoDup_cons in Hnd as [Hn _]. apply Hn, elem_of_filter_map. eauto.
  - apply IH; [|done..]. destruct (f a); [by apply NoDup_cons in Hnd as [_ ?]|done].
Qed.
Lemma filter_map_NoDup_filter {A B} (f : A → option B) (p : A → bool) l :
  NoDup (filter_map f l) → NoDup (filter_map f (List.filter p l)).
Proof.
  induction l as [|a l IH]; simpl; [done|]. destruct (f a) as [b|] eqn:E.
  - intros [Hn Hl]%NoDup_cons. destruct (p a); simpl; [rewrite E|by apply IH].
    apply NoDup_cons. split; [|by apply IH].
    intros (a' & [Ha' _]%elem_of_filter_bool & E')%elem_of_filter_map. apply Hn, elem_of_filter_map. eauto.
  - intros Hl. destruct (p a); simpl; [rewrite E|]; by apply IH.
Qed.

(** ** Following the parents *)
Fixpoint up (parents : gmap text text) (n : nat) (id : text) : option text :=
  match n with
  | O => Some id
  | S n => parents !! id ≫= up parents n
  end.
Lemma up_add parents n m id : up parents (n + m) id = up parents n id ≫= up parents m.
Proof.
  revert id. induction n as [|n IH]; intros id; simpl; [done|].
  destruct (parents !! id) as [p|]; simpl; [apply IH|done].
Qed.
Lemma up_none parents n m id : up parents n id = None → (n ≤ m)%nat → up parents m id = None.
Proof. intros H Hle. replace m with (n + (m - n))%nat by lia. by rewrite up_add, H. Qed.
Lemma up_cycle parents k id : up parents (S k) id = Some id → ∀ n, up parents n id ≠ None.
Proof.
  intros Hk n Hn. assert (∀ m, up parents (m * S k) id = Some id) as Hm.
  { induction m as [|m IH]; [done|]. change (S m * S k)%nat with (S k + m * S k)%nat. by rewrite up_add, Hk. }
  pose proof (up_none parents n (n * S k) id Hn ltac:(lia)) as H. by rewrite Hm in H.
Qed.
(** The depth is the number of steps to a thread without a parent. *)
Lemma depth_from_steps allowed parents visited depth cursor d :
  depth_from allowed parents visited depth cursor = Ok d →
  ∃ n top, d = depth + Z.of_nat n ∧ (n ≤ allowed)%nat ∧ up parents n cursor = Some top ∧ parents !! top = None.
Proof.
  revert visited depth cursor. induction allowed as [|allowed IH]; intros visited depth cursor; simpl;
    destruct (parents !! cursor) as [p|] eqn:E; intros H; inv_ok.
  - exists 0%nat, cursor. split_and!; [lia|lia|done|done].
  - apply IH in H as (n & top & -> & Hn & Hup & Htop). exists (S n), top.
    split_and!; [lia|lia| |done]. simpl. by rewrite E.
  - exists 0%nat, cursor. split_and!; [lia|lia|done|done].
Qed.

(** ** Chunks *)
Lemma chunks_from_concat {A} fuel size (l : list A) :
  (0 < size)%nat → (length l ≤ fuel)%nat → concat (chunks_from fuel size l) = l.
Proof.
  intros Hs. revert l. induction fuel as [|fuel IH]; intros [|a l] Hl; simpl in *; [done|lia|done|].
  destruct size as [|size]; [lia|]. simpl. rewrite IH by (rewrite length_drop; lia). by rewrite take_drop.
Qed.
Lemma chunks_concat {A} (size : nat) (l : list A) : (0 < size)%nat → concat (chunks size l) = l.
Proof. intros. by apply chunks_from_concat. Qed.

(** ** The frontier *)
Lemma newly_expanded_spec frontier expanded current expanded' :
  newly_expanded expanded frontier = (current, expanded') →
  NoDup current ∧ (∀ id, id ∈ current ↔ id ∈ frontier ∧ id ∉ expanded)
  ∧ (∀ id, id ∈ expanded' ↔ id ∈ expanded ∨ id ∈ frontier).
Proof.
  revert expanded current expanded'. induction frontier as [|id frontier IH]; intros expanded current expanded'; simpl.
  { intros [= <- <-]. split_and!; [constructor|set_solver..]. }
  case_bool_decide as Hin.
  - intros (Hnd & Hc & He)%IH. split_and!; [done|intros i; rewrite Hc, elem_of_cons|intros i; rewrite He, elem_of_cons];
      naive_solver.
  - destruct (newly_expanded _ frontier) as [c e] eqn:E. intros [= <- <-].
    apply IH in E as (Hnd & Hc & He). split_and!.
    + constructor; [|done]. rewrite Hc. set_solver.
    + intros i. rewrite elem_of_cons, Hc, elem_of_cons, not_elem_of_union, elem_of_singleton.
      destruct (decide (i = id)) as [->|]; tauto.
    + intros i. rewrite He, elem_of_cons, elem_of_union, elem_of_singleton. tauto.
Qed.

(** ** What has been accepted *)
Section search.
Context (to_uppercase : Z → text) (canonical_rollout : text → option text).
Context (select : Columns → list text → nat → option (list Row)) (columns : Columns).
Local Abbreviation candidate_of := (candidate_of to_uppercase canonical_rollout).
Local Abbreviation search_row := (search_row to_uppercase canonical_rollout).
Local Abbreviation search_batch := (search_batch to_uppercase canonical_rollout select columns).
Local Abbreviation search := (search to_uppercase canonical_rollout select).

(** What is required of an edge by itself. *)
Definition good_edge (e : EdgeRow) : bool := valid_edge e && is_none_or (λ value, 0 <? value) (er_created_at e).
(** The state after the edges [es] have been accepted. *)
Record accepted (es : list EdgeRow) (s : SearchState) : Prop := {
  acc_discovered : ∀ id r, st_discovered s !! id = Some r ↔ ∃ e, e ∈ es ∧ er_id e = id ∧ candidate_of e = Ok r;
  acc_parents : ∀ id p, st_parents s !! id = Some p ↔ ∃ e, e ∈ es ∧ er_id e = id ∧ er_parent e = p;
  acc_candidates : ∀ e, e ∈ es → is_ok (candidate_of e) = true ∧ good_edge e = true;
  acc_distinct : NoDup (map er_id es);
  acc_size : size (st_discovered s) = length es;
  acc_limit : (length es ≤ MAX_NATIVE_THREAD_DESCENDANTS)%nat
}.
Lemma candidate_of_id e r : candidate_of e = Ok r → nr_id r = er_id e ∧ nr_parent_thread_id r = er_parent e.
Proof. unfold ThreadState.candidate_of. intros H. inv_ok. by subst. Qed.

(** One row: a new child is accepted; a known one changes nothing. *)
Lemma search_row_Ok s row s' :
  search_row s row = Ok s' →
  ∃ e r, edge_of row = Some e ∧ good_edge e = true ∧ candidate_of e = Ok r
    ∧ (∀ p, st_parents s !! er_id e = Some p → p = er_parent e)
    ∧ st_parents s' = <[er_id e := er_parent e]> (st_parents s)
    ∧ ((st_discovered s !! er_id e = Some r ∧ st_discovered s' = st_discovered s ∧ st_next s' = st_next s)
       ∨ (st_discovered s !! er_id e = None ∧ (size (st_discovered s) < MAX_NATIVE_THREAD_DESCENDANTS)%nat
          ∧ st_discovered s' = <[er_id e := r]> (st_discovered s) ∧ st_next s' = st_next s ++ [er_id e])).
Proof.
  unfold ThreadState.search_row. intros H. inv_ok. rename x into e.
  destruct (ThreadState.candidate_of _ _ e) as [r|] eqn:Er; [|done]. simpl in H.
  exists e, r. split_and!; [done| |done|..].
  - unfold good_edge. apply andb_true_iff. split; [by apply negb_false_iff|].
    match goal with Hs : is_some_and (λ value : Z, _) _ = false |- _ => revert Hs end.
    destruct (er_created_at e); simpl; [lia|done].
  - intros p Hp. match goal with Hs : is_some_and _ _ = false |- _ => rewrite Hp in Hs; simpl in Hs;
      by apply negb_false_iff, bool_decide_eq_true in Hs end.
  - destruct (st_discovered s !! er_id e); inv_ok; by subst.
  - destruct (st_discovered s !! er_id e) as [existing|] eqn:Ed; inv_ok; subst; simpl.
    + left. match goal with Hs : negb (bool_decide _) = false |- _ =>
        apply negb_false_iff, bool_decide_eq_true in Hs end. by subst.
    + right. split_and!; [done|by apply Nat.leb_gt|done..].
Qed.
Lemma accept_row es s row s' :
  accepted es s → search_row s row = Ok s' →
  (∀ e e', edge_of row = Some e → e' ∈ es → er_id e' ≠ er_id e) →
  ∃ e, edge_of row = Some e ∧ accepted (es ++ [e]) s' ∧ st_next s' = st_next s ++ [er_id e].
Proof.
  intros Hacc Hrow Hkey. apply search_row_Ok in Hrow as (e & r & He & Hv & Hr & Hp & Eparents & Hcase).
  assert (∀ e', e' ∈ es → er_id e' ≠ er_id e) as Hnew by (intros e'; by apply Hkey).
  assert (st_discovered s !! er_id e = None) as Hnone.
  { destruct (st_discovered s !! er_id e) as [x|] eqn:E; [|done].
    apply (acc_discovered _ _ Hacc) in E as (e' & He' & E & _). by destruct (Hnew e' He'). }
  destruct Hcase as [(Hc & _)|(_ & Hlimit & Ed & En)]; [congruence|].
  exists e. split_and!; [done| |done]. split.
  - intros id x. rewrite Ed, lookup_insert_Some, (acc_discovered _ _ Hacc). setoid_rewrite elem_of_app.
    setoid_rewrite list_elem_of_singleton. split.
    + intros [[<- <-]|[Hne (e' & ? & ? & ?)]]; eauto 10.
    + intros (e' & [He'| ->] & <- & Hx); [right|left].
      * split; [intros E; by destruct (Hnew e' He')|by eauto].
      * split; [done|congruence].
  - intros id p. rewrite Eparents, lookup_insert_Some, (acc_parents _ _ Hacc). setoid_rewrite elem_of_app.
    setoid_rewrite list_elem_of_singleton. split.
    + intros [[<- <-]|[Hne (e' & ? & ? & ?)]]; eauto 10.
    + intros (e' & [He'| ->] & <- & <-); [right|left; done].
      split; [intros E; by destruct (Hnew e' He')|by eauto].
  - intros e' [He'| ->%list_elem_of_singleton]%elem_of_app; [by apply (acc_candidates _ _ Hacc)|by rewrite Hr].
  - rewrite map_app. apply NoDup_app. split_and!; [by apply (acc_distinct _ _ Hacc)| |apply NoDup_singleton].
    intros id (e' & -> & He')%list_elem_of_fmap Hin%list_elem_of_singleton. by apply (Hnew e' He').
  - rewrite Ed, map_size_insert_None by done. rewrite length_app, (acc_size _ _ Hacc). simpl. lia.
  - rewrite length_app, <-(acc_size _ _ Hacc). simpl. lia.
Qed.
Lemma accept_rows found es s s' :
  accepted es s → NoDup (filter_map (λ row, get_string row 1) found) →
  (∀ e row, e ∈ es → row ∈ found → get_string row 1 ≠ Some (er_id e)) →
  fold_result search_row s found = Ok s' →
  ∃ es', map edge_of found = map Some es' ∧ accepted (es ++ es') s' ∧ st_next s' = st_next s ++ map er_id es'.
Proof.
  revert es s. induction found as [|row found IH]; intros es s Hacc Hnd Hfresh; simpl.
  { intros [= <-]. exists []. by rewrite !app_nil_r. }
  destruct (search_row s row) as [s1|] eqn:Erow; [|done]. intros Hfold.
  apply (accept_row es) in Erow as (e & He & Hacc1 & En); [|done|].
  2: { intros e e' He He' E. apply (Hfresh e' row He'); [apply list_elem_of_here|].
       by apply edge_of_strings in He as [_ ->]; rewrite E. }
  pose proof (edge_of_strings _ _ He) as [_ Hc]. simpl in Hnd. rewrite Hc in Hnd. apply NoDup_cons in Hnd as [Hn Hnd].
  apply (IH (es ++ [e])) in Hfold as (es' & Es & Hacc' & En'); [|done..|].
  - exists (e :: es'). simpl. rewrite He, Es, En', En, <-!(assoc_L (++)). split_and!; [done| |done].
    by rewrite <-(assoc_L (++)) in Hacc'.
  - intros e' row' [He'| ->%list_elem_of_singleton]%elem_of_app Hrow'.
    + by apply Hfresh; [|apply list_elem_of_further].
    + intros E. apply Hn, elem_of_filter_map. by exists row'.
Qed.

(** ** The whole search *)
Context (edges : list Row).
Hypothesis Hanswers : answers_query edges (select columns).
Hypothesis Hkeyed : keyed_by_child edges.
Context (roots : list text).
(** The edges [es] are all the edges below the parents [X]; [current] and the children
    just found are still to be expanded. *)
Record explored (X : gset text) (current : list text) (es : list EdgeRow) (s : SearchState) : Prop := {
  ex_accepted : accepted es s;
  ex_rows : ∀ e, e ∈ es → ∃ row, row ∈ edges ∧ edge_of row = Some e;
  ex_parents : ∀ e, e ∈ es → er_parent e ∈ X;
  ex_complete : ∀ row parent, row ∈ edges → get_string row 0 = Some parent → parent ∈ X →
    ∃ e, e ∈ es ∧ edge_of row = Some e;
  ex_known : ∀ id, (id ∈ roots ∨ id ∈ map er_id es) ↔ (id ∈ X ∨ id ∈ current ∨ id ∈ st_next s);
  ex_reached : ∀ id, id ∈ X ∨ id ∈ current ∨ id ∈ st_next s → ∃ root, root ∈ roots ∧ rtc (edge edges) root id
}.
Lemma found_in_edges batch all found row n :
  all ≡ₚ List.filter (selected batch) edges → found = take n all → row ∈ found →
  row ∈ edges ∧ ∃ parent, get_string row 0 = Some parent ∧ parent ∈ batch.
Proof.
  intros Hall -> (i & Hrow%list_elem_of_lookup_2 & _)%elem_of_take. rewrite Hall in Hrow.
  apply elem_of_filter_bool in Hrow as [Hrow Hs]. split; [done|]. unfold selected in Hs.
  destruct (get_string row 0) as [p|]; [|done]. exists p. split; [done|]. by apply bool_decide_eq_true in Hs.
Qed.
Lemma found_distinct batch all n :
  all ≡ₚ List.filter (selected batch) edges → NoDup (filter_map (λ row, get_string row 1) (take n all)).
Proof.
  intros Hall. assert (NoDup (filter_map (λ row, get_string row 1) all)) as H.
  { rewrite (filter_map_perm _ _ _ Hall). by apply filter_map_NoDup_filter. }
  rewrite <-(take_drop n all), filter_map_app in H. by apply NoDup_app in H as [? _].
Qed.
(** The children of new parents are new. *)
Lemma found_fresh X current es s batch all found n e row :
  explored X current es s → (∀ id, id ∈ batch → id ∉ X) → all ≡ₚ List.filter (selected batch) edges →
  found = take n all → e ∈ es → row ∈ found → get_string row 1 ≠ Some (er_id e).
Proof.
  intros Hex Hdisj Hall Hfound He Hrow Hc. destruct (found_in_edges _ _ _ _ _ Hall Hfound Hrow) as (Hin & p & Hp & Hpb).
  destruct (ex_rows _ _ _ _ Hex e He) as (row' & Hin' & He'). pose proof (edge_of_strings _ _ He') as [Hp' Hc'].
  pose proof (filter_map_inj_on _ _ _ _ _ Hkeyed Hin Hin' Hc Hc') as ->.
  rewrite Hp' in Hp. injection Hp as <-. by apply (Hdisj _ Hpb), (ex_parents _ _ _ _ Hex).
Qed.
(** The limit on the rows of a query never hides one. *)
Lemma not_truncated (all : list Row) n m :
  (m + length (take (S (n - m)) all) ≤ n)%nat → take (S (n - m)) all = all.
Proof. rewrite length_take. intros H. apply take_ge. lia. Qed.
Lemma explore_batch X batch rest es s s' :
  explored X (batch ++ rest) es s → (∀ id, id ∈ batch → id ∉ X) → search_batch s batch = Ok s' →
  ∃ es', explored (list_to_set batch ∪ X) rest es' s'.
Proof.
  intros Hex Hdisj Hbatch. pose proof (ex_accepted _ _ _ _ Hex) as Hacc.
  unfold ThreadState.search_batch in Hbatch. inv_ok. rename x into found.
  match goal with Hs : select _ _ _ = Some _ |- _ => apply Hanswers in Hs as (all & Hall & Hfound) end.
  apply (accept_rows found es) in Hbatch as (es' & Ees & Hacc' & Enext); [|done|..].
  2: { rewrite Hfound. by eapply found_distinct. }
  2: { intros e row He Hrow. by eapply found_fresh. }
  assert (found = all) as ->.
  { rewrite Hfound, (acc_size _ _ Hacc). apply not_truncated. rewrite <-(acc_size _ _ Hacc) at 2. rewrite <-Hfound.
    apply (f_equal length) in Ees. rewrite !length_map in Ees. rewrite Ees, <-length_app. apply (acc_limit _ _ Hacc'). }
  assert (∀ e, e ∈ es' → ∃ row, row ∈ edges ∧ edge_of row = Some e ∧ er_parent e ∈ batch) as Hnew.
  { intros e He. assert (Some e ∈ map Some es') as Hm by by apply list_elem_of_fmap_2.
    rewrite <-Ees in Hm. apply list_elem_of_fmap in Hm as (row & Hrow & Hin).
    destruct (found_in_edges _ _ _ _ _ Hall Hfound Hin) as (Hin' & p & Hp & Hpb). exists row. symmetry in Hrow.
    pose proof (edge_of_strings _ _ Hrow) as [Hp' _]. split_and!; [done..|]. congruence. }
  exists (es ++ es'). split.
  - done.
  - intros e [He|He]%elem_of_app; [by eapply ex_rows|]. destruct (Hnew e He) as (row & ? & ? & _). by exists row.
  - intros e [He|He]%elem_of_app; rewrite elem_of_union, elem_of_list_to_set.
    + right. by eapply ex_parents.
    + left. by destruct (Hnew e He) as (row & _ & _ & ?).
  - intros row parent Hrow Hp [Hb|HX]%elem_of_union; setoid_rewrite elem_of_app.
    + apply elem_of_list_to_set in Hb. assert (row ∈ all) as Hin.
      { rewrite Hall. apply elem_of_filter_bool. split; [done|]. unfold selected. rewrite Hp. by apply bool_decide_eq_true. }
      assert (edge_of row ∈ map edge_of all) as Hm by by apply list_elem_of_fmap_2.
      rewrite Ees in Hm. apply list_elem_of_fmap in Hm as (e & He & Hin'). exists e. split; [by right|done].
    + destruct (ex_complete _ _ _ _ Hex row parent Hrow Hp HX) as (e & ? & ?). exists e. split; [by left|done].
  - intros id. rewrite map_app, Enext, !elem_of_app, elem_of_union, elem_of_list_to_set.
    pose proof (ex_known _ _ _ _ Hex id) as Hk. rewrite elem_of_app in Hk. tauto.
  - intros id. rewrite Enext, elem_of_app, elem_of_union, elem_of_list_to_set. intros Hid.
    assert (id ∈ map er_id es' ∨ id ∈ X ∨ id ∈ batch ++ rest ∨ id ∈ st_next s) as [Hid'|Hid'].
    { rewrite elem_of_app. tauto. }
    + apply list_elem_of_fmap in Hid' as (e & -> & He). destruct (Hnew e He) as (row & Hrow & Erow & Hpb).
      apply edge_of_strings in Erow as [Ep Ec].
      destruct (ex_reached _ _ _ _ Hex (er_parent e)) as (root & Hroot & Hr).
      { rewrite elem_of_app. auto. }
      exists root. split; [done|]. eapply rtc_r; [exact Hr|]. by exists row.
    + by apply (ex_reached _ _ _ _ Hex).
Qed.
Lemma explore_batches X batches es s s' :
  explored X (concat batches) es s → NoDup (concat batches) → (∀ id, id ∈ concat batches → id ∉ X) →
  fold_result search_batch s batches = Ok s' →
  ∃ es' X', explored X' [] es' s' ∧ (∀ id, id ∈ X' ↔ id ∈ X ∨ id ∈ concat batches).
Proof.
  revert X es s. induction batches as [|batch batches IH]; intros X es s Hex Hnd Hdisj; simpl in *.
  { intros [= <-]. exists es, X. split; [done|]. intros id. rewrite elem_of_nil. tauto. }
  destruct (search_batch s batch) as [s1|] eqn:Eb; [|done]. intros Hfold. apply NoDup_app in Hnd as (_ & Hdup & Hnd).
  apply (explore_batch X batch (concat batches) es) in Eb as (es1 & Hex1); [|done|].
  2: { intros id Hid. apply Hdisj, elem_of_app. by left. }
  apply (IH _ _ _ Hex1 Hnd) in Hfold as (es' & X' & Hex' & HX').
  - exists es', X'. split; [done|]. intros id. rewrite HX', elem_of_union, elem_of_list_to_set, elem_of_app. tauto.
  - intros id Hid. rewrite elem_of_union, elem_of_list_to_set. intros [Hb|HX]; [by apply (Hdup id)|].
    by apply (Hdisj id); [apply elem_of_app; right|].
Qed.
Lemma explored_shift X current current' es s s' :
  explored X current es s → st_discovered s' = st_discovered s → st_parents s' = st_parents s →
  (∀ id, id ∈ X ∨ id ∈ current ∨ id ∈ st_next s ↔ id ∈ X ∨ id ∈ current' ∨ id ∈ st_next s') →
  explored X current' es s'.
Proof.
  intros [[] ? ? ? Hknown Hreached] Ed Ep Hids. split; [|done..| |].
  - split; rewrite ?Ed, ?Ep; done.
  - intros id. by rewrite <-Hids.
  - intros id. rewrite <-Hids. apply Hreached.
Qed.
(** One round of the outer loop. *)
Lemma round_explored expanded frontier current expanded' es discovered parents :
  explored expanded frontier es {| st_discovered := discovered; st_parents := parents; st_next := [] |} →
  newly_expanded expanded frontier = (current, expanded') →
  explored expanded (concat (chunks QUERY_PARENT_BATCH current)) es
    {| st_discovered := discovered; st_parents := parents; st_next := [] |}
  ∧ NoDup (concat (chunks QUERY_PARENT_BATCH current))
  ∧ (∀ id, id ∈ concat (chunks QUERY_PARENT_BATCH current) → id ∉ expanded).
Proof.
  intros Hex (Hnd & Hc & He)%newly_expanded_spec. rewrite chunks_concat by (by apply Nat.ltb_lt). split_and!.
  - eapply explored_shift; [exact Hex|done..|]. intros id. rewrite Hc. simpl. destruct (decide (id ∈ expanded)); tauto.
  - done.
  - intros id. by rewrite Hc; intros [_ ?].
Qed.
Lemma explored_round expanded frontier current expanded' es discovered parents s :
  explored expanded frontier es {| st_discovered := discovered; st_parents := parents; st_next := [] |} →
  newly_expanded expanded frontier = (current, expanded') →
  fold_result search_batch {| st_discovered := discovered; st_parents := parents; st_next := [] |}
    (chunks QUERY_PARENT_BATCH current) = Ok s →
  ∃ es', explored expanded' (st_next s) es'
    {| st_discovered := st_discovered s; st_parents := st_parents s; st_next := [] |}.
Proof.
  intros Hex E Hs. destruct (round_explored _ _ _ _ _ _ _ Hex E) as (Hex0 & Hnd & Hdisj).
  apply (explore_batches _ _ _ _ _ Hex0 Hnd Hdisj) in Hs as (es1 & X1 & Hex1 & HX1).
  rewrite chunks_concat in HX1 by (by apply Nat.ltb_lt). apply newly_expanded_spec in E as (_ & Hc & He).
  assert (X1 = expanded') as ->.
  { apply set_eq. intros id. rewrite HX1, He, Hc. destruct (decide (id ∈ expanded)); tauto. }
  exists es1. eapply explored_shift; [exact Hex1|done..|]. intros id. simpl. rewrite !elem_of_nil. tauto.
Qed.
Lemma search_explored fuel expanded frontier discovered parents es s :
  explored expanded frontier es {| st_discovered := discovered; st_parents := parents; st_next := [] |} →
  search fuel columns expanded frontier discovered parents = Some (Ok s) →
  ∃ X es, explored X [] es s ∧ st_next s = [].
Proof.
  revert expanded frontier discovered parents es. induction fuel as [|fuel IH];
    intros expanded frontier discovered parents es Hex; simpl; [done|].
  destruct (newly_expanded expanded frontier) as [current expanded'] eqn:E.
  case_bool_decide as Hempty.
  - intros [= <-]. exists expanded, es. split; [|done]. eapply explored_shift; [exact Hex|done..|].
    intros id. simpl. apply newly_expanded_spec in E as (_ & Hc & _). pose proof (Hc id) as Hid. rewrite Hempty, elem_of_nil in Hid.
    destruct (decide (id ∈ expanded)); rewrite ?elem_of_nil; tauto.
  - destruct (fold_result _ _ _) as [s1|] eqn:Ef; [|done]. intros Hs.
    destruct (explored_round _ _ _ _ _ _ _ _ Hex E Ef) as [es1 Hex1]. by apply (IH _ _ _ _ es1) in Hs.
Qed.
Lemma explored_start : explored ∅ roots [] {| st_discovered := ∅; st_parents := ∅; st_next := [] |}.
Proof.
  split.
  - split; simpl.
    + intros id r. rewrite lookup_empty. split; [done|]. by intros (e & ?%elem_of_nil & _).
    + intros id p. rewrite lookup_empty. split; [done|]. by intros (e & ?%elem_of_nil & _).
    + by intros e ?%elem_of_nil.
    + constructor.
    + apply map_size_empty.
    + lia.
  - by intros e ?%elem_of_nil.
  - by intros e ?%elem_of_nil.
  - intros row p _ _ Hp. by apply elem_of_empty in Hp.
  - intros id. simpl. rewrite elem_of_empty, elem_of_nil. tauto.
  - intros id. simpl. rewrite elem_of_empty, elem_of_nil. intros [[]|[Hid|[]]]. exists id. split; [done|apply rtc_refl].
Qed.

(** ** When the search has ended *)
Section ended.
Context (X : gset text) (es : list EdgeRow) (s : SearchState).
Hypothesis Hex : explored X [] es s.
Hypothesis Hend : st_next s = [].
Lemma ended_known id : (id ∈ roots ∨ id ∈ map er_id es) ↔ id ∈ X.
Proof. rewrite (ex_known _ _ _ _ Hex), Hend, elem_of_nil. tauto. Qed.
Lemma ended_edge parent child : parent ∈ X → edge edges parent child → st_parents s !! child = Some parent ∧ child ∈ X.
Proof.
  intros HX (row & Hrow & Hp & Hc). destruct (ex_complete _ _ _ _ Hex row parent Hrow Hp HX) as (e & He & Ee).
  apply edge_of_strings in Ee as [Ep Ec]. rewrite Hp in Ep. rewrite Hc in Ec. injection Ep as ->. injection Ec as ->.
  split.
  - apply (acc_parents _ _ (ex_accepted _ _ _ _ Hex)). by exists e.
  - apply ended_known. right. apply list_elem_of_fmap. by exists e.
Qed.
Lemma ended_parent child parent :
  st_parents s !! child = Some parent → parent ∈ X ∧ edge edges parent child ∧ child ∈ map er_id es.
Proof.
  intros (e & He & <- & <-)%(acc_parents _ _ (ex_accepted _ _ _ _ Hex)). split_and!.
  - by apply (ex_parents _ _ _ _ Hex).
  - destruct (ex_rows _ _ _ _ Hex e He) as (row & Hrow & E). apply edge_of_strings in E as [? ?]. by exists row.
  - apply list_elem_of_fmap. by exists e.
Qed.
Lemma ended_ids id : id ∈ map er_id es ↔ ∃ root, root ∈ roots ∧ tc (edge edges) root id.
Proof.
  split.
  - intros (e & -> & He)%list_elem_of_fmap.
    destruct (ex_reached _ _ _ _ Hex (er_parent e)) as (root & Hroot & Hr); [left; by apply (ex_parents _ _ _ _ Hex)|].
    exists root. split; [done|]. destruct (ex_rows _ _ _ _ Hex e He) as (row & Hrow & E).
    apply edge_of_strings in E as [? ?]. eapply tc_rtc_l; [exact Hr|]. apply tc_once. by exists row.
  - intros (root & Hroot & Ht). assert (root ∈ X) as HX by by apply ended_known; left.
    clear Hroot. induction Ht as [a b Hab|a b c Hab _ IH].
    + apply ended_edge in Hab as [Hp _]; [|done]. by apply ended_parent in Hp as (_ & _ & ?).
    + apply IH. by apply ended_edge in Hab as [_ ?].
Qed.
(** Climbing from a descendant ends at the same distance from one root. *)
Lemma up_nsteps n id top : up (st_parents s) n id = Some top → nsteps (edge edges) n top id.
Proof.
  revert id. induction n as [|n IH]; intros id; simpl; [intros [= ->]; constructor|].
  destruct (st_parents s !! id) as [p|] eqn:E; [|done]. simpl. intros Hn%IH.
  apply ended_parent in E as (_ & He & _). by eapply nsteps_r.
Qed.
Lemma tc_up a b : a ∈ X → tc (edge edges) a b → ∃ k, up (st_parents s) (S k) b = Some a.
Proof.
  intros HX Ht. induction Ht as [a b Hab|a b c Hab _ IH].
  - apply ended_edge in Hab as [Hp _]; [|done]. exists 0%nat. simpl. by rewrite Hp.
  - apply ended_edge in Hab as [Hp Hb]; [|done]. destruct (IH Hb) as [k Hk]. exists (S k).
    replace (S (S k)) with (S k + 1)%nat by lia. rewrite up_add, Hk. simpl. by rewrite Hp.
Qed.
Lemma nsteps_up n a b : a ∈ X → nsteps (edge edges) n a b → up (st_parents s) n b = Some a.
Proof.
  intros HX Hn. induction Hn as [|n a b c Hab _ IH]; [done|]. apply ended_edge in Hab as [Hp Hb]; [|done].
  replace (S n) with (n + 1)%nat by lia. rewrite up_add, (IH Hb). simpl. by rewrite Hp.
Qed.
Lemma ended_top id n top :
  id ∈ X → up (st_parents s) n id = Some top → st_parents s !! top = None →
  top ∈ roots ∧ ¬ tc (edge edges) id id.
Proof.
  intros HX Hup Htop. split.
  - assert (top ∈ X) as Ht.
    { revert id HX Hup. induction n as [|n IH]; intros id HX; simpl; [by intros [= <-]|].
      destruct (st_parents s !! id) as [p|] eqn:E; [|done]. simpl. apply IH. by apply ended_parent in E as [? _]. }
    apply ended_known in Ht as [Ht|(e & -> & He)%list_elem_of_fmap]; [done|exfalso].
    assert (st_parents s !! er_id e = Some (er_parent e)) as Hs.
    { apply (acc_parents _ _ (ex_accepted _ _ _ _ Hex)). by exists e. }
    by rewrite Htop in Hs.
  - intros Ht. destruct (tc_up id id HX Ht) as [k Hk]. apply (up_cycle _ _ _ Hk (n + 1)).
    rewrite up_add, Hup. simpl. by rewrite Htop.
Qed.
End ended.
End search.

(** ** The candidates *)
Definition candidate_row (c : NativeThreadCandidate) : NativeThreadRow := {|
  nr_id := nc_id c; nr_created_at := nc_created_at c; nr_updated_at := nc_updated_at c; nr_title := nc_title c;
  nr_rollout_path := nc_rollout_path c; nr_parent_thread_id := nc_parent_thread_id c |}.
Lemma with_depth_Ok parents row c :
  with_depth parents row = Ok c → candidate_row c = row ∧ relation_depth (nr_id row) parents = Ok (nc_depth c).
Proof.
  unfold with_depth. intros H. inv_ok. subst. simpl. split; [by destruct row|].
  match goal with Hd : i32_try_from _ = Some _ |- _ => unfold i32_try_from in Hd end.
  destruct (in_range _ _ _); [|done]. simplify_eq. done.
Qed.
Lemma add_candidates_Ok parents rows candidates :
  fold_result (add_candidate parents) [] rows = Ok candidates →
  Forall2 (λ row c, with_depth parents row = Ok c) rows candidates.
Proof.
  apply (fold_result_ind (λ pre s, Forall2 (λ row c, with_depth parents row = Ok c) pre s)); [constructor|].
  intros pre row s s' _ Hpre Hstep. unfold add_candidate in Hstep. inv_ok. subst.
  apply Forall2_app; [done|]. by repeat constructor.
Qed.
Lemma candidates_rows parents rows candidates :
  fold_result (add_candidate parents) [] rows = Ok candidates → map candidate_row candidates = rows.
Proof.
  intros H%add_candidates_Ok. induction H as [|row c rows' cs Hr _ IH]; [done|].
  simpl. apply with_depth_Ok in Hr as [-> _]. by rewrite IH.
Qed.

(** ** The theorem *)
Section descendants.
Context (to_uppercase : Z → text) (canonical_rollout : text → option text).
Context (select : Columns → list text → nat → option (list Row)).
Local Abbreviation load_in_transaction := (load_in_transaction to_uppercase canonical_rollout select).
Local Abbreviation candidate_of := (candidate_of to_uppercase canonical_rollout).

(** What the source lists for one thread, if the edges are [edges]. *)
Definition listed (edges : list Row) (roots ids : list text) (c : NativeThreadCandidate) : Prop :=
  (∃ row e, row ∈ edges ∧ edge_of row = Some e ∧ good_edge e = true ∧ candidate_of e = Ok (candidate_row c))
  ∧ (∃ top, top ∈ roots ∧ top ∉ ids ∧ 0 < nc_depth c ≤ 64
      ∧ nsteps (edge edges) (Z.to_nat (nc_depth c)) top (nc_id c))
  ∧ ¬ tc (edge edges) (nc_id c) (nc_id c).
Lemma load_Ok schema roots candidates :
  load_in_transaction schema roots = Some (Ok candidates) →
  (roots = [] ∧ candidates = []) ∨ ∃ columns s, read_columns schema = Ok columns
    ∧ search to_uppercase canonical_rollout select search_fuel columns ∅ roots ∅ ∅ = Some (Ok s)
    ∧ fold_result (add_candidate (st_parents s)) [] (map snd (rows (st_discovered s))) = Ok candidates.
Proof.
  unfold ThreadState.load_in_transaction. case_bool_decide as Er; [intros [= <-]; by left|].
  destruct (validate_state_schema schema); [|done]. unfold read_descendants.
  destruct (_ || _); [done|]. destruct (read_columns schema) as [columns|] eqn:Ec; [|done].
  intros (found & Hs & H)%bind_Some. injection H as H. apply bind_Ok in H as (s & -> & H).
  right. by exists columns, s.
Qed.

(** *** Each candidate *)
Section ended_search.
Context (edges : list Row) (roots : list text) (X : gset text) (es : list EdgeRow) (s : SearchState).
Hypothesis Hex : explored to_uppercase canonical_rollout edges roots X [] es s.
Hypothesis Hend : st_next s = [].
Context (candidates : list NativeThreadCandidate).
Hypothesis Hfold : fold_result (add_candidate (st_parents s)) [] (map snd (rows (st_discovered s))) = Ok candidates.
Lemma discovered_ids : map nc_id candidates = map fst (rows (st_discovered s)).
Proof.
  transitivity (map nr_id (map candidate_row candidates)); [by rewrite map_map|].
  rewrite (candidates_rows _ _ _ Hfold), map_map. apply map_ext_in. intros [id r] Hin%list_elem_of_In. simpl.
  apply elem_of_rows, (acc_discovered _ _ _ _ (ex_accepted _ _ _ _ _ _ _ _ Hex)) in Hin as (e & _ & <- & Hr).
  by apply candidate_of_id in Hr as [? _].
Qed.
Lemma elem_of_ids id : id ∈ map nc_id candidates ↔ id ∈ map er_id es.
Proof.
  rewrite discovered_ids, !list_elem_of_fmap. pose proof (ex_accepted _ _ _ _ _ _ _ _ Hex) as Hacc. split.
  - intros ([i r] & -> & Hin). apply elem_of_rows, (acc_discovered _ _ _ _ Hacc) in Hin as (e & He & <- & _). by exists e.
  - intros (e & -> & He). destruct (acc_candidates _ _ _ _ Hacc e He) as [[r Hr]%is_ok_Ok _].
    exists (er_id e, r). split; [done|]. apply elem_of_rows, (acc_discovered _ _ _ _ Hacc). by exists e.
Qed.
Lemma candidate_depth c :
  c ∈ candidates → ∃ n top, nc_depth c = Z.of_nat n ∧ (n ≤ MAX_NATIVE_THREAD_DEPTH)%nat
    ∧ up (st_parents s) n (nc_id c) = Some top ∧ st_parents s !! top = None
    ∧ ∃ e, e ∈ es ∧ candidate_of e = Ok (candidate_row c).
Proof.
  intros Hc. pose proof (ex_accepted _ _ _ _ _ _ _ _ Hex) as Hacc.
  pose proof (add_candidates_Ok _ _ _ Hfold) as Hall. apply list_elem_of_lookup in Hc as [i Hi].
  apply (Forall2_lookup_r _ _ _ _ _ Hall) in Hi as (row & Hi & [Erow Hdepth]%with_depth_Ok).
  apply list_elem_of_lookup_2, list_elem_of_fmap in Hi as ([id r] & Er & Hin). simpl in Er. subst r. subst row.
  apply elem_of_rows, (acc_discovered _ _ _ _ Hacc) in Hin as (e & He & <- & Hr).
  change (nr_id (candidate_row c)) with (nc_id c) in Hdepth.
  apply depth_from_steps in Hdepth as (n & top & Ed & Hn & Hup & Htop). exists n, top. split_and!; [lia|done..|by exists e].
Qed.
Lemma candidate_listed c : c ∈ candidates → listed edges roots (map nc_id candidates) c.
Proof.
  intros Hc. pose proof (ex_accepted _ _ _ _ _ _ _ _ Hex) as Hacc.
  assert (nc_id c ∈ map er_id es) as Hid by (apply elem_of_ids, list_elem_of_fmap; by exists c).
  destruct (candidate_depth c Hc) as (n & top & Ed & Hn & Hup & Htop & e & He & Hr).
  destruct (ended_top _ _ _ _ _ _ _ Hex Hend (nc_id c) n top) as [Hroot Hacyclic]; [|done..|].
  { apply (ended_known _ _ _ _ _ _ _ Hex Hend). by right. }
  split_and!; [| |done].
  - destruct (ex_rows _ _ _ _ _ _ _ _ Hex e He) as (row & ? & ?). exists row, e.
    split_and!; [done..| |done]. by apply (acc_candidates _ _ _ _ Hacc).
  - exists top. assert (∀ x, x ∈ map er_id es → st_parents s !! x ≠ None) as Hparent.
    { intros x (e' & -> & He')%list_elem_of_fmap Hx.
      assert (st_parents s !! er_id e' = Some (er_parent e')) as Hp; [|by rewrite Hx in Hp].
      apply (acc_parents _ _ _ _ Hacc). by exists e'. }
    split_and!; [done| | |unfold MAX_NATIVE_THREAD_DEPTH in Hn; lia|].
    + rewrite elem_of_ids. intros Hx. by apply (Hparent _ Hx).
    + destruct n; [|lia]. injection Hup as <-. by destruct (Hparent _ Hid).
    + replace (Z.to_nat (nc_depth c)) with n by lia. by eapply up_nsteps.
Qed.
(** The same search accepts only short paths and few threads. *)
Lemma path_short root n id : root ∈ roots → nsteps (edge edges) n root id → (n ≤ MAX_NATIVE_THREAD_DEPTH)%nat.
Proof.
  intros Hroot Hn. assert (root ∈ X) as HX by by (apply (ended_known _ _ _ _ _ _ _ Hex Hend); left).
  pose proof (nsteps_up _ _ _ _ _ _ _ Hex Hend _ _ _ HX Hn) as Hup.
  destruct n as [|n]; [lia|]. assert (id ∈ map nc_id candidates) as (c & -> & Hc)%list_elem_of_fmap.
  { apply elem_of_ids, (ended_ids _ _ _ _ _ _ _ Hex Hend). exists root. split; [done|].
    apply tc_nsteps. exists (S n). split; [lia|done]. }
  destruct (candidate_depth c Hc) as (m & top & _ & Hm & Hupm & Htop & _).
  destruct (decide (S n ≤ m)%nat); [lia|]. pose proof (up_none (st_parents s) (m + 1) (S n) (nc_id c)) as H.
  rewrite H in Hup; [done| |lia]. rewrite up_add, Hupm. simpl. by rewrite Htop.
Qed.
Lemma few_descendants ids :
  NoDup ids → (∀ id, id ∈ ids → ∃ root, root ∈ roots ∧ tc (edge edges) root id) →
  (length ids ≤ MAX_NATIVE_THREAD_DESCENDANTS)%nat.
Proof.
  intros Hnd Hids. transitivity (length (map er_id es)).
  - apply submseteq_length, NoDup_submseteq; [done|]. intros id Hid. by apply (ended_ids _ _ _ _ _ _ _ Hex Hend), Hids.
  - rewrite length_map. apply (acc_limit _ _ _ _ (ex_accepted _ _ _ _ _ _ _ _ Hex)).
Qed.
End ended_search.

(** C27. What is listed when the search succeeds: exactly the threads below the given roots,
    each once and in the order of their names, at most 1,024; each with the values of a
    valid edge, and with its depth below a root that is itself not below any other,
    at most 64; and none of them below itself. *)
Theorem descendants_exact edges schema columns roots candidates :
  read_columns schema = Ok columns → answers_query edges (select columns) → keyed_by_child edges →
  load_in_transaction schema roots = Some (Ok candidates) →
  (∀ id, id ∈ map nc_id candidates ↔ ∃ root, root ∈ roots ∧ tc (edge edges) root id)
  ∧ NoDup (map nc_id candidates) ∧ StronglySorted (λ a b, text_leb a b = true) (map nc_id candidates)
  ∧ (length candidates ≤ MAX_NATIVE_THREAD_DESCENDANTS)%nat
  ∧ ∀ c, c ∈ candidates → listed edges roots (map nc_id candidates) c.
Proof.
  intros Hcolumns Hq Hkey [(-> & ->)|(columns' & s & Hc & Hs & Hfold)]%load_Ok.
  { split_and!; [|constructor|constructor|simpl; lia|by intros c ?%elem_of_nil].
    intros id. split; [by intros ?%elem_of_nil|by intros (root & ?%elem_of_nil & _)]. }
  rewrite Hcolumns in Hc. injection Hc as <-.
  apply (search_explored _ _ _ columns edges Hq Hkey roots _ _ _ _ _ [] _ (explored_start _ _ _ _)) in Hs
    as (X & es & Hex & Hend).
  split_and!.
  - intros id. rewrite (elem_of_ids _ _ _ _ _ Hex _ Hfold). by apply (ended_ids _ _ _ _ _ _ _ Hex Hend).
  - rewrite (discovered_ids _ _ _ _ _ Hex _ Hfold). apply rows_NoDup.
  - rewrite (discovered_ids _ _ _ _ _ Hex _ Hfold). apply StronglySorted_fmap
      with (R1 := λ a b : text * NativeThreadRow, text_leb a.1 b.1 = true); [done|apply rows_sorted].
  - pose proof (candidates_rows _ _ _ Hfold) as E. apply (f_equal length) in E. rewrite !length_map in E.
    pose proof (ex_accepted _ _ _ _ _ _ _ _ Hex) as Hacc. rewrite E. unfold rows. rewrite (sort_by_perm _ _).
    rewrite length_map_to_list, (acc_size _ _ _ _ Hacc). apply (acc_limit _ _ _ _ Hacc).
  - intros c. by apply (candidate_listed _ _ _ _ _ Hex Hend _ Hfold).
Qed.
End descendants.

(** *** A child, its child, and a thread of another root *)
Definition example_text (s : string) : ValueRef := SqlText (string_bytes s).
Arguments example_text s%_string_scope.
Definition example_edge (parent child path name : string) : Row := [
  example_text parent; example_text child; example_text path; SqlInteger 5; SqlInteger 9; SqlInteger 0; SqlNull;
  example_text ""; example_text "subagent"; example_text name; SqlNull].
Arguments example_edge (parent child path name)%_string_scope.
Definition example_edges : list Row := [
  example_edge "kid" "grand" "s/g.jsonl" "a/read_the_docs"; example_edge "root" "kid" "s/k.jsonl" "a/plan";
  example_edge "other" "x" "s/x.jsonl" "a/x"].
Definition example_column (name type : string) (not_null key : Z) : Row := [
  SqlInteger 0; example_text name; example_text type; SqlInteger not_null; SqlNull; SqlInteger key].
Arguments example_column (name type)%_string_scope not_null key.
Definition example_schema : StateSchema := {|
  ss_object_type := λ _, Some (lit "table");
  ss_table_info := λ table, Some (if text_eqb table (lit "threads") then [
    example_column "id" "TEXT" 0 1; example_column "rollout_path" "text" 1 0; example_column "updated_at" "INTEGER" 1 0;
    example_column "archived" "INTEGER" 1 0; example_column "name" "TEXT" 0 0; example_column "preview" "TEXT" 1 0;
    example_column "thread_source" "TEXT" 0 0; example_column "agent_path" "TEXT" 0 0;
    example_column "created_at" "INTEGER" 1 0]
  else [example_column "parent_thread_id" "TEXT" 1 0; example_column "child_thread_id" "TEXT" 1 1;
    example_column "status" "TEXT" 1 0]) |}.
Definition example_columns : Columns := {| has_agent_path := true; has_agent_nickname := false; has_created_at := true |}.
Definition example_select (columns : Columns) (batch : list text) (limit : nat) : option (list Row) :=
  Some (take limit (List.filter (selected batch) example_edges)).
Definition example_upper (c : Z) : text := to_ascii_uppercase [c].
Definition example_load : option (result ThreadStateError (list NativeThreadCandidate)) :=
  load_in_transaction example_upper Some example_select example_schema [lit "root"].
Definition example_candidates : list NativeThreadCandidate :=
  match example_load with Some (Ok candidates) => candidates | _ => [] end.
Example example_descendants :
  map (λ c, (nc_id c, nc_depth c, nc_title c, nc_parent_thread_id c)) example_candidates
  = [(lit "grand", 2, lit "Read the docs", lit "kid"); (lit "kid", 1, lit "Plan", lit "root")].
Proof. by vm_compute. Qed.
Lemma example_answers : answers_query example_edges (example_select example_columns).
Proof. intros batch limit found [= <-]. by eexists. Qed.
Lemma example_keyed : keyed_by_child example_edges.
Proof. apply (bool_decide_unpack _). by vm_compute. Qed.
Lemma descendants_exact_witness :
  let ids := map nc_id example_candidates in
  (∀ id, id ∈ ids ↔ ∃ root, root ∈ [lit "root"] ∧ tc (edge example_edges) root id)
  ∧ NoDup ids ∧ StronglySorted (λ a b, text_leb a b = true) ids
  ∧ (length example_candidates ≤ MAX_NATIVE_THREAD_DESCENDANTS)%nat
  ∧ ∀ c, c ∈ example_candidates → listed example_upper Some example_edges [lit "root"] ids c.
Proof.
  refine (descendants_exact example_upper Some example_select example_edges example_schema example_columns
    [lit "root"] example_candidates _ example_answers example_keyed _); by vm_compute.
Defined.
