(* ===== verification/DescendantSearch.v ===== *)
(** * When the search for descendants ends, and when it succeeds

    Theorems on [ThreadState]: the fuel of the search is enough whatever the database
    answers, and a well-formed forest within the limits is accepted. *)

From S2P Require Import Prelude Text Security SqlRow ThreadState DescendantFacts.

(** ** The search ends *)
Section fuel.
Context (to_uppercase : Z → text) (canonical_rollout : text → option text).
Context (select : Columns → list text → nat → option (list Row)).
Local Abbreviation search_row := (search_row to_uppercase canonical_rollout).
Local Abbreviation search_batch columns := (search_batch to_uppercase canonical_rollout select columns).

(** Rows are discovered one by one, within the limit. *)
Definition counted (found : nat) (s : SearchState) : Prop :=
  size (st_discovered s) = (found + length (st_next s))%nat
  ∧ (size (st_discovered s) ≤ MAX_NATIVE_THREAD_DESCENDANTS)%nat.
Lemma search_row_counted found s row s' : counted found s → search_row s row = Ok s' → counted found s'.
Proof.
  unfold counted. intros [Hc Hl] (e & r & _ & _ & _ & _ & _ & [(_ & -> & ->)|(Hn & Hlt & Ed & En)])%search_row_Ok; [done|].
  rewrite Ed, En, length_app, map_size_insert_None by done. simpl. lia.
Qed.
Lemma search_batch_counted columns found s batch s' :
  counted found s → search_batch columns s batch = Ok s' → counted found s'.
Proof.
  intros Hc H. unfold ThreadState.search_batch in H. inv_ok. revert H.
  apply (fold_result_ind (λ _, counted found)); [done|]. intros pre row s1 s2 _. apply search_row_counted.
Qed.
Lemma search_ends fuel columns expanded frontier discovered parents :
  (size discovered ≤ MAX_NATIVE_THREAD_DESCENDANTS)%nat → (1 ≤ fuel)%nat →
  (frontier ≠ [] → MAX_NATIVE_THREAD_DESCENDANTS - size discovered + 2 ≤ fuel)%nat →
  ∃ r, search to_uppercase canonical_rollout select fuel columns expanded frontier discovered parents = Some r.
Proof.
  revert expanded frontier discovered parents.
  induction fuel as [|fuel IH]; intros expanded frontier discovered parents Hsize Hone Hfuel; [lia|]. simpl.
  destruct (newly_expanded expanded frontier) as [current expanded'] eqn:E.
  case_bool_decide as Hempty; [eauto|].
  assert (frontier ≠ []) as Hf.
  { intros ->. simpl in E. by injection E as <- _. }
  destruct (fold_result _ _ _) as [s|e] eqn:Es; [|eauto].
  assert (counted (size discovered) s) as [Hs Hl].
  { revert Es. apply (fold_result_ind (λ _, counted (size discovered))).
    - split; simpl; lia.
    - intros pre batch s1 s2 _. apply search_batch_counted. }
  specialize (Hfuel Hf). apply IH; [done|lia|]. destruct (st_next s); [done|]. simpl in Hs. lia.
Qed.
(** Whatever the database answers, the search for descendants ends: its rounds are bounded
    by the limit on the descendants. *)
Theorem descendants_end schema roots :
  ∃ r, load_in_transaction to_uppercase canonical_rollout select schema roots = Some r.
Proof.
  unfold load_in_transaction. case_bool_decide; [eauto|]. destruct (validate_state_schema schema); [|eauto].
  unfold read_descendants. destruct (_ || _); [eauto|]. destruct (read_columns schema) as [columns|]; [|eauto].
  destruct (search_ends search_fuel columns ∅ roots ∅ ∅) as [r Hr].
  - rewrite map_size_empty. lia.
  - unfold search_fuel. lia.
  - rewrite map_size_empty. unfold search_fuel. lia.
  - rewrite Hr. simpl. eauto.
Qed.
End fuel.

(** ** The depth *)
Lemma depth_from_succeeds allowed parents visited depth cursor :
  up parents (S allowed) cursor = None → (∀ v, v ∈ visited → ∃ k, up parents (S k) v = Some cursor) →
  is_ok (depth_from allowed parents visited depth cursor) = true.
Proof.
  revert visited depth cursor. induction allowed as [|allowed IH]; intros visited depth cursor Hup Hv;
    cbn [depth_from]; destruct (parents !! cursor) as [p|] eqn:E; [|done| |done].
  - cbn [up] in Hup. by rewrite E in Hup.
  - case_bool_decide as Hin.
    + exfalso. destruct (Hv _ Hin) as [k Hk]. by apply (up_cycle _ _ _ Hk (S (S allowed))).
    + assert (∀ n, up parents (S n) cursor = up parents n p) as Hstep by (intros n; cbn [up]; by rewrite E).
      apply IH; [by rewrite <-Hstep|]. intros v [->%elem_of_singleton|[k Hk]%Hv]%elem_of_union.
      * exists 0%nat. by rewrite Hstep.
      * exists (S k). replace (S (S k)) with (S k + 1)%nat by lia. rewrite up_add, Hk. simpl. by rewrite E.
Qed.
Lemma climb_true steps child parents cursor :
  climb steps child parents cursor = true →
  (∃ n, up parents (S n) cursor = Some child) ∨ is_Some (up parents (S steps) cursor).
Proof.
  revert cursor. induction steps as [|steps IH]; intros cursor; simpl; destruct (parents !! cursor) as [a|] eqn:E;
    [|done| |done]; destruct (text_eqb a child) eqn:Ea.
  - apply bool_decide_eq_true in Ea as ->. left. by exists 0%nat.
  - intros _. right. by exists a.
  - apply bool_decide_eq_true in Ea as ->. left. by exists 0%nat.
  - intros [[n Hn]|Hs]%IH.
    + left. by exists (S n).
    + by right.
Qed.

(** ** Forests that are accepted *)
Section accepted_forest.
Context (to_uppercase : Z → text) (canonical_rollout : text → option text).
Context (select : Columns → list text → nat → option (list Row)) (columns : Columns).
Local Abbreviation candidate_of := (candidate_of to_uppercase canonical_rollout).
Local Abbreviation search_row := (search_row to_uppercase canonical_rollout).
Local Abbreviation search_batch := (search_batch to_uppercase canonical_rollout select columns).
Local Abbreviation accepted := (accepted to_uppercase canonical_rollout).
Context (edges : list Row) (roots : list text).

Definition below (id : text) : Prop := ∃ root, root ∈ roots ∧ rtc (edge edges) root id.
(** Every edge below the roots is good and gives a candidate; no path from a root is longer
    than the limit on the depth; and there are not too many threads. *)
Record acceptable_forest : Prop := {
  af_edges : ∀ row parent, row ∈ edges → get_string row 0 = Some parent → below parent →
    ∃ e, edge_of row = Some e ∧ good_edge e = true ∧ is_ok (candidate_of e) = true;
  af_depth : ∀ root n id, root ∈ roots → nsteps (edge edges) n root id → (n ≤ MAX_NATIVE_THREAD_DEPTH)%nat;
  af_count : ∀ ids, NoDup ids → (∀ id, id ∈ ids → ∃ root, root ∈ roots ∧ tc (edge edges) root id) →
    (length ids ≤ MAX_NATIVE_THREAD_DESCENDANTS)%nat
}.
Hypothesis Hforest : acceptable_forest.
Hypothesis Hanswers : answers_query edges (select columns).
Hypothesis Hkeyed : keyed_by_child edges.
Hypothesis Hselect : ∀ batch limit, is_Some (select columns batch limit).

Lemma below_nsteps id n x : below x → nsteps (edge edges) n x id → (n ≤ MAX_NATIVE_THREAD_DEPTH)%nat.
Proof.
  intros (root & Hroot & [m Hm]%rtc_nsteps) Hn. pose proof (nsteps_trans _ _ _ _ _ Hm Hn) as H.
  apply (af_depth Hforest _ _ _ Hroot) in H. lia.
Qed.
Lemma below_acyclic id k : below id → ¬ nsteps (edge edges) (S k) id id.
Proof.
  intros Hb Hk. assert (∀ m, nsteps (edge edges) (m * S k) id id) as Hm.
  { induction m as [|m IH]; [constructor|]. by apply (nsteps_trans (S k) (m * S k) id id id). }
  pose proof (below_nsteps id _ id Hb (Hm 65%nat)) as H. unfold MAX_NATIVE_THREAD_DEPTH in H. lia.
Qed.
(** Accepted edges that start below the roots. *)
Definition sound (es : list EdgeRow) : Prop :=
  ∀ e, e ∈ es → below (er_parent e) ∧ ∃ row, row ∈ edges ∧ edge_of row = Some e.
Lemma sound_edge es e : sound es → e ∈ es → edge edges (er_parent e) (er_id e).
Proof. intros Hs He. destruct (Hs e He) as (_ & row & Hrow & [? ?]%edge_of_strings). by exists row. Qed.
Lemma sound_up es s n id x :
  sound es → accepted es s → up (st_parents s) n id = Some x → below id → nsteps (edge edges) n x id ∧ below x.
Proof.
  intros Hs Hacc. revert id. induction n as [|n IH]; intros id; simpl.
  { intros [= ->]. split; [constructor|done]. }
  destruct (st_parents s !! id) as [p|] eqn:E; [|done]. simpl. intros Hup Hid.
  apply (acc_parents _ _ _ _ Hacc) in E as (e & He & <- & <-). destruct (IH _ Hup) as [Hn Hx]; [by apply Hs|].
  split; [|done]. eapply nsteps_r; [exact Hn|]. by eapply sound_edge.
Qed.
Lemma no_cycle es s e :
  sound es → accepted es s → below (er_parent e) → edge edges (er_parent e) (er_id e) →
  creates_cycle (er_parent e) (er_id e) (st_parents s) = false.
Proof.
  intros Hs Hacc Hb He. unfold creates_cycle. destruct (text_eqb _ _) eqn:E.
  { apply bool_decide_eq_true in E. destruct (below_acyclic (er_parent e) 0 Hb). apply nsteps_once. by rewrite E at 2. }
  apply not_true_is_false. intros [[n Hn]|[x Hx]]%climb_true.
  - destruct (sound_up _ _ _ _ _ Hs Hacc Hn Hb) as [Hsteps Hid].
    apply (below_acyclic (er_id e) (S n) Hid). by eapply nsteps_r.
  - destruct (sound_up _ _ _ _ _ Hs Hacc Hx Hb) as [Hsteps Hid].
    pose proof (below_nsteps _ _ _ Hid Hsteps) as H.
    unfold MAX_NATIVE_THREAD_DEPTH, MAX_NATIVE_THREAD_DESCENDANTS in H. lia.
Qed.
Lemma room es s e :
  sound es → accepted es s → below (er_parent e) → edge edges (er_parent e) (er_id e) →
  (∀ e', e' ∈ es → er_id e' ≠ er_id e) → (length es < MAX_NATIVE_THREAD_DESCENDANTS)%nat.
Proof.
  intros Hs Hacc Hb He Hnew. assert (∀ e', below (er_parent e') → edge edges (er_parent e') (er_id e') →
    ∃ root, root ∈ roots ∧ tc (edge edges) root (er_id e')) as Hd.
  { intros e' (root & Hroot & Hr) He'. exists root. split; [done|]. by eapply tc_rtc_l, tc_once. }
  pose proof (af_count Hforest (er_id e :: map er_id es)) as H. simpl in H. rewrite length_map in H. apply H.
  - apply NoDup_cons. split; [|by apply (acc_distinct _ _ _ _ Hacc)].
    intros (e' & E & He')%list_elem_of_fmap. by apply (Hnew e').
  - intros id [->|(e' & -> & He')%list_elem_of_fmap]%elem_of_cons; [by apply Hd|].
    apply Hd; [by apply Hs|by eapply sound_edge].
Qed.
Lemma search_row_succeeds es s row :
  sound es → accepted es s → row ∈ edges → (∃ p, get_string row 0 = Some p ∧ below p) →
  (∀ e, e ∈ es → get_string row 1 ≠ Some (er_id e)) →
  ∃ e s', edge_of row = Some e ∧ below (er_parent e) ∧ search_row s row = Ok s'.
Proof.
  intros Hs Hacc Hrow (p & Hp & Hb) Hfresh. destruct (af_edges Hforest row p Hrow Hp Hb) as (e & He & Hgood & [r Hr]%is_ok_Ok).
  pose proof (edge_of_strings _ _ He) as [Hp' Hc]. rewrite Hp in Hp'. injection Hp' as ->.
  assert (edge edges (er_parent e) (er_id e)) as Hedge by by exists row.
  assert (∀ e', e' ∈ es → er_id e' ≠ er_id e) as Hnew.
  { intros e' He' E. apply (Hfresh e' He'). by rewrite Hc, E. }
  unfold good_edge in Hgood. apply andb_true_iff in Hgood as [Hv Hcreated].
  unfold ThreadState.search_row. rewrite He. cbn [ok_or mbind result_bind]. rewrite Hv. cbn [negb].
  replace (is_some_and (λ value : Z, value <=? 0) (er_created_at e)) with false
    by (destruct (er_created_at e); simpl in *; [lia|done]).
  rewrite (no_cycle es) by done. rewrite Hr. cbn [mbind result_bind].
  destruct (st_parents s !! er_id e) as [p'|] eqn:Ep.
  { apply (acc_parents _ _ _ _ Hacc) in Ep as (e' & He' & E & _). by destruct (Hnew e' He'). }
  destruct (st_discovered s !! er_id e) as [r'|] eqn:Ed.
  { apply (acc_discovered _ _ _ _ Hacc) in Ed as (e' & He' & E & _). by destruct (Hnew e' He'). }
  cbn [is_some_and]. rewrite (acc_size _ _ _ _ Hacc). rewrite (proj2 (Nat.leb_gt _ _)) by by eapply room. eauto 10.
Qed.
Lemma rows_succeed found es s :
  sound es → accepted es s → NoDup (filter_map (λ row, get_string row 1) found) →
  (∀ e row, e ∈ es → row ∈ found → get_string row 1 ≠ Some (er_id e)) →
  (∀ row, row ∈ found → row ∈ edges ∧ ∃ p, get_string row 0 = Some p ∧ below p) →
  is_ok (fold_result search_row s found) = true.
Proof.
  revert es s. induction found as [|row found IH]; intros es s Hs Hacc Hnd Hfresh Hfound; simpl; [done|].
  destruct (Hfound row) as [Hrow Hp]; [apply list_elem_of_here|].
  destruct (search_row_succeeds es s row Hs Hacc Hrow Hp) as (e & s1 & He & Hb & Hs1).
  { intros e He. apply Hfresh; [done|apply list_elem_of_here]. }
  rewrite Hs1. pose proof (edge_of_strings _ _ He) as [_ Hc]. simpl in Hnd. rewrite Hc in Hnd.
  apply NoDup_cons in Hnd as [Hn Hnd].
  apply (accept_row _ _ es) in Hs1 as (e1 & He1 & Hacc1 & _); [|done|].
  2: { intros e1 e' He1 He' E. apply (Hfresh e' row He'); [apply list_elem_of_here|].
       apply edge_of_strings in He1 as [_ ->]. by rewrite E. }
  rewrite He in He1. injection He1 as <-. apply (IH (es ++ [e])); [|done..| |].
  - intros e' [He'| ->%list_elem_of_singleton]%elem_of_app; [by apply Hs|]. split; [done|by exists row].
  - intros e' row' [He'| ->%list_elem_of_singleton]%elem_of_app Hrow'.
    + by apply Hfresh; [|apply list_elem_of_further].
    + intros E. apply Hn, elem_of_filter_map. by exists row'.
  - intros row' Hrow'. apply Hfound. by apply list_elem_of_further.
Qed.
Local Abbreviation explored := (explored to_uppercase canonical_rollout edges roots).
Lemma explored_sound X current es s : explored X current es s → sound es.
Proof.
  intros Hex e He. split; [|by eapply ex_rows]. apply (ex_reached _ _ _ _ _ _ _ _ Hex). left. by eapply ex_parents.
Qed.
Lemma batch_succeeds X batch rest es s :
  explored X (batch ++ rest) es s → (∀ id, id ∈ batch → id ∉ X) → is_ok (search_batch s batch) = true.
Proof.
  intros Hex Hdisj. pose proof (ex_accepted _ _ _ _ _ _ _ _ Hex) as Hacc. unfold ThreadState.search_batch.
  rewrite (proj2 (Nat.ltb_ge _ _)) by (rewrite (acc_size _ _ _ _ Hacc); apply (acc_limit _ _ _ _ Hacc)).
  destruct (Hselect batch (S (MAX_NATIVE_THREAD_DESCENDANTS - size (st_discovered s)))) as [found Hfound].
  rewrite Hfound. simpl. apply Hanswers in Hfound as (all & Hall & Hfound).
  apply (rows_succeed found es); [by eapply explored_sound|done|rewrite Hfound; by eapply found_distinct|..].
  - intros e row He Hrow. by eapply found_fresh.
  - intros row Hrow. destruct (found_in_edges _ _ _ _ _ _ Hall Hfound Hrow) as (Hin & p & Hp & Hpb).
    split; [done|]. exists p. split; [done|]. apply (ex_reached _ _ _ _ _ _ _ _ Hex). rewrite elem_of_app. auto.
Qed.
Lemma batches_succeed X batches es s :
  explored X (concat batches) es s → NoDup (concat batches) → (∀ id, id ∈ concat batches → id ∉ X) →
  is_ok (fold_result search_batch s batches) = true.
Proof.
  revert X es s. induction batches as [|batch batches IH]; intros X es s Hex Hnd Hdisj; simpl in *; [done|].
  apply NoDup_app in Hnd as (_ & Hdup & Hnd).
  assert (∀ id, id ∈ batch → id ∉ X) as Hd by (intros id Hid; apply Hdisj, elem_of_app; by left).
  destruct (proj1 (is_ok_Ok _) (batch_succeeds _ _ _ _ _ Hex Hd)) as [s1 Hs1]. rewrite Hs1.
  eapply explore_batch in Hs1 as (es1 & Hex1); [|done..]. apply (IH _ _ _ Hex1 Hnd).
  intros id Hid. rewrite elem_of_union, elem_of_list_to_set. intros [Hb|HX]; [by apply (Hdup id)|].
  by apply (Hdisj id); [apply elem_of_app; right|].
Qed.
Lemma search_succeeds fuel expanded frontier discovered parents es r :
  explored expanded frontier es {| st_discovered := discovered; st_parents := parents; st_next := [] |} →
  search to_uppercase canonical_rollout select fuel columns expanded frontier discovered parents = Some r →
  is_ok r = true.
Proof.
  revert expanded frontier discovered parents es. induction fuel as [|fuel IH];
    intros expanded frontier discovered parents es Hex; simpl; [done|].
  destruct (newly_expanded expanded frontier) as [current expanded'] eqn:E.
  case_bool_decide as Hempty; [by intros [= <-]|].
  destruct (round_explored _ _ _ _ _ _ _ _ _ _ _ Hex E) as (Hex0 & Hnd & Hdisj).
  destruct (proj1 (is_ok_Ok _) (batches_succeed _ _ _ _ Hex0 Hnd Hdisj)) as [s1 Hs1]. rewrite Hs1.
  destruct (explored_round _ _ _ _ _ Hanswers Hkeyed _ _ _ _ _ _ _ _ _ Hex E Hs1) as [es1 Hex1]. by apply (IH _ _ _ _ es1).
Qed.
(** Every thread found has a depth within the limit. *)
Lemma candidates_succeed X es s :
  explored X [] es s → st_next s = [] →
  is_ok (fold_result (add_candidate (st_parents s)) [] (map snd (rows (st_discovered s)))) = true.
Proof.
  intros Hex Hend. pose proof (ex_accepted _ _ _ _ _ _ _ _ Hex) as Hacc.
  assert (∀ l acc, (∀ r, r ∈ l → is_ok (with_depth (st_parents s) r) = true) →
    is_ok (fold_result (add_candidate (st_parents s)) acc l) = true) as Hfold.
  { induction l as [|r l IH]; intros acc Hl; simpl; [done|].
    destruct (proj1 (is_ok_Ok _) (Hl r (list_elem_of_here _ _))) as [c Hc]. unfold add_candidate at 1.
    rewrite Hc. simpl. apply IH. intros r' Hr'. by apply Hl, list_elem_of_further. }
  apply Hfold. intros r ([id r'] & -> & Hin)%list_elem_of_fmap. simpl.
  apply elem_of_rows, (acc_discovered _ _ _ _ Hacc) in Hin as (e & He & <- & [Er _]%candidate_of_id).
  unfold with_depth, relation_depth. rewrite Er.
  assert (below (er_id e)) as Hb.
  { destruct (explored_sound _ _ _ _ Hex e He) as [(root & Hroot & Hr) _]. exists root. split; [done|].
    eapply rtc_r; [exact Hr|]. eapply sound_edge; [by eapply explored_sound|done]. }
  assert (is_ok (depth_from MAX_NATIVE_THREAD_DEPTH (st_parents s) ∅ 0 (er_id e)) = true) as [d Hd]%is_ok_Ok.
  { apply depth_from_succeeds; [|by intros v ?%elem_of_empty]. destruct (up _ _ _) as [x|] eqn:Hup; [|done].
    destruct (sound_up _ _ _ _ _ (explored_sound _ _ _ _ Hex) Hacc Hup Hb) as [Hn Hx].
    pose proof (below_nsteps _ _ _ Hx Hn). lia. }
  rewrite Hd. apply depth_from_steps in Hd as (n & _ & -> & Hn & _). unfold MAX_NATIVE_THREAD_DEPTH in Hn.
  unfold i32_try_from. cbn [mbind result_bind]. by rewrite (proj2 (in_range_true _ _ _)) by width.
Qed.
End accepted_forest.

(** *** The theorem *)
(** With a database that answers every query, the search succeeds exactly for at most
    1,024 valid roots above an acceptable forest: every other forest is an error. *)
Theorem descendants_accepted to_uppercase canonical_rollout select edges schema columns roots :
  validate_state_schema schema = Ok () → read_columns schema = Ok columns →
  answers_query edges (select columns) → keyed_by_child edges →
  (∀ batch limit, is_Some (select columns batch limit)) →
  (∃ candidates, load_in_transaction to_uppercase canonical_rollout select schema roots = Some (Ok candidates))
  ↔ (length roots ≤ MAX_NATIVE_THREAD_DESCENDANTS)%nat ∧ Forall (λ id, valid_thread_id id = true) roots
    ∧ acceptable_forest to_uppercase canonical_rollout edges roots.
Proof.
  intros Hschema Hcolumns Hq Hkey Hselect. unfold load_in_transaction. rewrite Hschema.
  case_bool_decide as Er.
  { subst roots. split; [|by eauto]. intros _. split_and!; [simpl; lia|constructor|].
    split; [by intros ? ? _ _ (? & ?%elem_of_nil & _)|by intros ? ? ? ?%elem_of_nil|].
    intros [|id ids] _ H; simpl; [lia|]. by destruct (H id (list_elem_of_here _ _)) as (? & ?%elem_of_nil & _). }
  unfold read_descendants. rewrite Hcolumns. split.
  - intros [candidates H]. destruct (_ || _) eqn:Eroots; [done|]. apply orb_false_iff in Eroots as [El Ev].
    apply bind_Some in H as (found & Hs & H). injection H as H. apply bind_Ok in H as (s & -> & Hfold).
    apply (search_explored _ _ _ columns edges Hq Hkey roots _ _ _ _ _ [] _ (explored_start _ _ _ _)) in Hs
      as (X & es & Hex & Hend).
    split_and!; [by apply Nat.ltb_ge| |split].
    + apply existsb_false_Forall in Ev. eapply Forall_impl; [exact Ev|]. by intros id ?%negb_false_iff.
    + intros row parent Hrow Hp (root & Hroot & Hr). assert (parent ∈ X) as HX.
      { apply (ended_known _ _ _ _ _ _ _ Hex Hend). apply rtc_tc in Hr as [<-|Ht]; [by left|right].
        apply (ended_ids _ _ _ _ _ _ _ Hex Hend). by exists root. }
      destruct (ex_complete _ _ _ _ _ _ _ _ Hex row parent Hrow Hp HX) as (e & He & Erow).
      destruct (acc_candidates _ _ _ _ (ex_accepted _ _ _ _ _ _ _ _ Hex) e He). by exists e.
    + intros root n id. by apply (path_short _ _ _ _ _ _ _ Hex Hend _ Hfold).
    + by apply (few_descendants _ _ _ _ _ _ _ Hex Hend).
  - intros (Hl & Hv & Hforest). rewrite (proj2 (Nat.ltb_ge _ _) Hl).
    rewrite (proj2 (existsb_false_Forall _ _)).
    2: { eapply Forall_impl; [exact Hv|]. intros id Hid. simpl in *. by rewrite Hid. }
    simpl orb. cbn iota. destruct (search_ends to_uppercase canonical_rollout select search_fuel columns ∅ roots ∅ ∅) as [r Hr].
    { rewrite map_size_empty. lia. }
    { unfold search_fuel. lia. }
    { rewrite map_size_empty. unfold search_fuel. lia. }
    pose proof (search_succeeds _ _ _ _ _ _ Hforest Hq Hkey Hselect _ _ _ _ _ [] _ (explored_start _ _ _ _) Hr) as Hok.
    destruct r as [s|]; [|done]. rewrite Hr. simpl.
    apply (search_explored _ _ _ columns edges Hq Hkey roots _ _ _ _ _ [] _ (explored_start _ _ _ _)) in Hr
      as (X & es & Hex & Hend).
    destruct (proj1 (is_ok_Ok _) (candidates_succeed _ _ _ _ Hforest _ _ _ Hex Hend)) as [candidates Hc].
    rewrite Hc. eauto.
Qed.
Lemma descendants_accepted_witness :
  (∃ candidates, example_load = Some (Ok candidates))
  ↔ (length [lit "root"] ≤ MAX_NATIVE_THREAD_DESCENDANTS)%nat ∧ Forall (λ id, valid_thread_id id = true) [lit "root"]
    ∧ acceptable_forest example_upper Some example_edges [lit "root"].
Proof.
  refine (descendants_accepted example_upper Some example_select example_edges example_schema example_columns
    [lit "root"] _ _ example_answers example_keyed _); [by vm_compute..|]. by eexists.
Defined.
