(* ===== verification/HistoryPeriods.v ===== *)
(** * Periods and gaps of the published history

    Models the part of [build_details_for_intervals] of
    [crates/codex-info-db-reader/src/lib.rs] that selects the rows of the window, derives
    the periods from them with their labels, and places the confirmed gaps into the
    periods. The calendar of the retention window is the [chrono] library's: subtracting
    months from a time is an argument. *)

From S2P Require Import Prelude Text Float64 Contract Details Recordings Spans ReadIntervals TaskActivity SqlRow StoredHistory Canonicalize.

(** [Iterator::min_by] and [Iterator::max_by]: the first of the least, the last of the
    greatest. *)
Definition min_by {A} (leb : A → A → bool) (l : list A) : option A :=
  fold_left (λ best x, match best with Some b => if leb b x then Some b else Some x | None => Some x end) l None.
Definition max_by {A} (leb : A → A → bool) (l : list A) : option A :=
  fold_left (λ best x, match best with Some b => if leb b x then Some x else Some b | None => Some x end) l None.

(** ** Windows *)
Inductive HistoryWindow := Recent | Retained.
Definition HistoryWindow_cutoff (self : HistoryWindow) (observed_at : Z) : Z :=
  match self with
  | Recent => i64_saturating_sub observed_at HISTORY_WINDOW_SECONDS
  | Retained => 0
  end.
Record PublicationWindow := { pw_at : Z; pw_retained_start : Z }.
(** [months_before at n] is the time [n] months before [at]: [None] when [at] is not a time
    of the calendar, [Some None] when the earlier time is not. *)
Definition PublicationWindow_at (months_before : Z → Z → option (option Z)) (at_ : Z) :
    result ReaderError PublicationWindow :=
  reject (InvalidValue (lit "publication time is invalid")) when negb (valid_public_timestamp at_);
  time ← ok_or (months_before at_ 3) (InvalidValue (lit "publication time is invalid"));
  retained_start ← ok_or time (InvalidValue (lit "retention time is invalid"));
  Ok {| pw_at := at_; pw_retained_start := retained_start |}.
Definition cutoff (self : PublicationWindow) (history : HistoryWindow) : Z :=
  match history with
  | Recent => i64_saturating_sub (pw_at self) HISTORY_WINDOW_SECONDS
  | Retained => pw_retained_start self / 60 * 60 - 1
  end.
Definition raw_upper (self : PublicationWindow) : Z := pw_at self / 60 * 60 + 59.

(** ** Rows of the window *)
Definition with_timestamp (timestamp : Z) (row : StoredHistorySample) : StoredHistorySample := {|
  rs_timestamp := timestamp; rs_reset_at := rs_reset_at row; rs_remaining_percent := rs_remaining_percent row;
  rs_sol_dollars := rs_sol_dollars row; rs_terra_dollars := rs_terra_dollars row;
  rs_luna_dollars := rs_luna_dollars row; rs_sol_tokens := rs_sol_tokens row;
  rs_terra_tokens := rs_terra_tokens row; rs_luna_tokens := rs_luna_tokens row |}.
Definition row_key (row : StoredHistorySample) : Z * Z := (rs_reset_at row, rs_timestamp row).
Definition select_row (selected : gmap (Z * Z) StoredHistorySample) (row : StoredHistorySample) :
    gmap (Z * Z) StoredHistorySample :=
  let sample := with_timestamp (rs_timestamp row - rs_timestamp row mod 60) row in
  <[row_key sample := sample]> selected.
Definition preserve_nullable_history_samples (rows : list StoredHistorySample) : list StoredHistorySample :=
  map snd (sort_by (λ a b, span_leb a.1 b.1) (map_to_list (fold_left select_row rows ∅))).
(** Quota of another account, before the first row of this one. *)
Definition quota_candidate (authoritative_start window_reset_at prefix_end observed_at : Z) (intervals : ReadIntervals)
    (row : StoredHistorySample) : bool :=
  negb ((rs_timestamp row <? authoritative_start - authoritative_start mod 60)
        || (window_reset_at <? rs_timestamp row) || (prefix_end <=? rs_timestamp row)
        || (observed_at <? rs_timestamp row) || intersects_canonical_minute intervals (rs_timestamp row)).
(** The first quota of each minute, and the minutes that have two. *)
Definition quota_step (s : gmap Z f64 * gset Z) (row : StoredHistorySample) : gmap Z f64 * gset Z :=
  match rs_remaining_percent row with
  | None => s
  | Some remaining_percent =>
      match s.1 !! rs_timestamp row with
      | None => (<[rs_timestamp row := remaining_percent]> s.1, s.2)
      | Some first =>
          if negb (f64_eqb first remaining_percent) then (s.1, {[rs_timestamp row]} ∪ s.2) else s
      end
  end.
Definition quota_sample (reset_at timestamp : Z) (remaining_percent : f64) : StoredHistorySample := {|
  rs_timestamp := timestamp; rs_reset_at := reset_at; rs_remaining_percent := Some remaining_percent;
  rs_sol_dollars := None; rs_terra_dollars := None; rs_luna_dollars := None; rs_sol_tokens := None;
  rs_terra_tokens := None; rs_luna_tokens := None |}.
Definition by_minute (candidates : gmap Z f64) : list (Z * f64) :=
  sort_by (λ a b, a.1 <=? b.1) (map_to_list candidates).
Definition quota_only_history_projection_samples (all_history owned_history : list StoredHistorySample)
    (current_reset_at current_window_reset_at : option Z) (window_seconds observed_at : Z) (intervals : ReadIntervals) :
    list StoredHistorySample :=
  default [] (
    authority ← current_reset_at;
    window_reset_at ← current_window_reset_at;
    authoritative_start ← quota_period_start window_reset_at window_seconds;
    first_owned_timestamp ← min_of (map rs_timestamp (List.filter (λ row,
      (authoritative_start <=? rs_timestamp row) && (rs_timestamp row <=? window_reset_at)
      && (rs_timestamp row <=? observed_at)) owned_history));
    lifecycle_prefix_end ← quota_only_prefix_end intervals authoritative_start;
    let prefix_end := Z.min first_owned_timestamp lifecycle_prefix_end in
    let '(candidates, conflicts) := fold_left quota_step
      (List.filter (quota_candidate authoritative_start window_reset_at prefix_end observed_at intervals) all_history)
      (∅, ∅) in
    Some (filter_map (λ '(timestamp, remaining_percent),
      then_some (negb (bool_decide (timestamp ∈ conflicts))) (quota_sample authority timestamp remaining_percent))
      (by_minute candidates))).
Definition authoritative_history_projection_samples (samples : list PublicHistorySample)
    (current_reset_at current_window_reset_at : option Z) (window_seconds : Z) : list PublicHistorySample :=
  default samples (
    authority ← current_reset_at;
    current_reset ← min_by (λ a b, (Z.abs (authority - a) <? Z.abs (authority - b))
                                   || ((Z.abs (authority - a) =? Z.abs (authority - b)) && (b <=? a)))
      (List.filter (λ reset_at, near reset_at authority) (map hs_reset_at samples));
    window_reset_at ← current_window_reset_at;
    authoritative_start ← quota_period_start window_reset_at window_seconds;
    Some (List.filter (λ sample, negb (near (hs_reset_at sample) current_reset
      && (hs_timestamp sample <? authoritative_start - authoritative_start mod 60))) samples)).
(** The rows of the window in one of three forms: canonical already, complete legacy rows,
    or rows of which some are partial. *)
Definition window_samples (history_is_canonical : bool) (recent : list StoredHistorySample)
    (current_reset_at current_window_reset_at : option Z) (window_seconds : Z) :
    result ReaderError (list StoredHistorySample) :=
  if history_is_canonical then
    let start := current_window_reset_at ≫= λ reset, quota_period_minute_start reset window_seconds in
    Ok (List.filter (λ row, negb (bool_decide (Some (rs_reset_at row) = current_reset_at))
                            || is_none_or (λ start, start <=? rs_timestamp row) start) recent)
  else if forallb (λ row, opt_is_some (legacy_raw row)) recent then
    let recent := filter_map legacy_raw recent in
    samples ← canonicalize_history_with_limit recent current_reset_at window_seconds None;
    let samples := normalize_current_period_samples current_reset_at window_seconds samples in
    samples ← (if bool_decide (length samples = 0%nat) && negb (bool_decide (length recent = 0%nat))
               then canonicalize_history_with_limit recent None 0 None else Ok samples);
    Ok (map stored_of_sample
      (authoritative_history_projection_samples samples current_reset_at current_window_reset_at window_seconds))
  else Ok (preserve_nullable_history_samples recent).
(** A row of another account's quota that no row of this one has. *)
Definition add_quota_only (s : list StoredHistorySample * gset (Z * Z)) (quota_only : StoredHistorySample) :
    list StoredHistorySample * gset (Z * Z) :=
  if existsb (λ sample, bool_decide (row_key sample = row_key quota_only)) s.1 then s
  else (s.1 ++ [quota_only], {[row_key quota_only]} ∪ s.2).
Definition publish_samples (window : option PublicationWindow) (cutoff : Z) (samples : list StoredHistorySample) :
    list StoredHistorySample :=
  let samples := match window with
                 | Some window => List.filter (λ sample, (cutoff <? rs_timestamp sample)
                                                         && (rs_timestamp sample <=? pw_at window)) samples
                 | None => samples
                 end in
  sort_by (λ a b, span_leb (row_key a) (row_key b)) samples.

(** ** Labels *)
(** [{value:0width}]: the sign counts, the digits are padded with zeros. *)
Definition zero_pad (width : nat) (digits : text) : text := replicate (width - length digits) 48 ++ digits.
Definition format_padded (width : nat) (value : Z) : text :=
  if value <? 0 then 45 :: zero_pad (width - 1) (to_dec (- value)) else zero_pad width (to_dec value).
(** The method call applies to the whole conditional. *)
Definition civil_date_from_days (days_since_unix_epoch : Z) : Z * Z * Z :=
  let z := days_since_unix_epoch + 719468 in
  let era := (if 0 <=? z then z else z - 146096) / 146097 in
  let day_of_era := z - era * 146097 in
  let year_of_era :=
    (day_of_era - Z.quot day_of_era 1460 + Z.quot day_of_era 36524 - Z.quot day_of_era 146096) / 365 in
  let year := year_of_era + era * 400 in
  let day_of_year := day_of_era - (365 * year_of_era + Z.quot year_of_era 4 - Z.quot year_of_era 100) in
  let month_part := (5 * day_of_year + 2) / 153 in
  let day := day_of_year - (153 * month_part + 2) / 5 + 1 in
  let month := month_part + (if month_part <? 10 then 3 else -9) in
  let year := year + (if month <=? 2 then 1 else 0) in
  (year, month, day).
Definition i64_checked_add (a b : Z) : option Z := then_some (in_range i64_min i64_max (a + b)) (a + b).
Definition format_jst_timestamp (timestamp : Z) : option text :=
  shifted ← i64_checked_add timestamp (9 * 60 * 60);
  let days := shifted / 86400 in
  let seconds := shifted mod 86400 in
  let '(year, month, day) := civil_date_from_days days in
  let hour := Z.quot seconds 3600 in
  let minute := Z.quot (seconds mod 3600) 60 in
  let second := seconds mod 60 in
  Some (format_padded 4 year ++ lit "/" ++ format_padded 2 month ++ lit "/" ++ format_padded 2 day ++ lit " "
    ++ format_padded 2 hour ++ lit ":" ++ format_padded 2 minute ++ lit ":" ++ format_padded 2 second
    ++ lit " +09:00").
Definition format_jst_period_label (start_at end_at : Z) (current : bool) : text :=
  match format_jst_timestamp start_at with
  | None => lit "期間不明"
  | Some start =>
      match format_jst_timestamp end_at with
      | None => lit "期間不明"
      | Some end_ => start ++ lit " ～ " ++ end_ ++ (if current then lit "（現在）" else [])
      end
  end.
Definition with_label (label : text) (period : PublicHistoryPeriod) : PublicHistoryPeriod := {|
  hp_id := hp_id period; hp_start_at := hp_start_at period; hp_end_at := hp_end_at period;
  hp_reset_at := hp_reset_at period; hp_label := label; hp_current := hp_current period |}.
Definition base_label (current_window_reset_at : option Z) (period : PublicHistoryPeriod) : text :=
  format_jst_period_label (hp_start_at period)
    (if hp_current period then default (hp_reset_at period) current_window_reset_at else hp_end_at period)
    (hp_current period).
(** A label of several periods names the reset as well. *)
Definition assign_history_period_labels (current_window_reset_at : option Z) (periods : list PublicHistoryPeriod) :
    list PublicHistoryPeriod :=
  let base_labels := map (base_label current_window_reset_at) periods in
  map (λ period,
    let base := base_label current_window_reset_at period in
    if (1 <? length (List.filter (text_eqb base) base_labels))%nat
    then with_label (base ++ lit "（期限 " ++ default (lit "時刻不明") (format_jst_timestamp (hp_reset_at period))
                       ++ lit "）") period
    else with_label base period) periods.

(** ** Periods *)
Definition range_step (ranges : gmap Z (Z * Z)) (row : Z * Z) : gmap Z (Z * Z) :=
  let '(reset_at, timestamp) := row in
  <[reset_at := match ranges !! reset_at with
                | Some range => (Z.min range.1 timestamp, Z.max range.2 timestamp)
                | None => (timestamp, timestamp)
                end]> ranges.
Definition by_reset (ranges : gmap Z (Z * Z)) : list (Z * (Z * Z)) :=
  sort_by (λ a b, a.1 <=? b.1) (map_to_list ranges).
Definition current_reset (history_is_canonical : bool) (current_reset_at : option Z) (resets : list Z) : option Z :=
  authority ← current_reset_at;
  min_by (λ a b, Z.abs (a - authority) <=? Z.abs (b - authority))
    (List.filter (λ reset_at, if history_is_canonical then reset_at =? authority else near reset_at authority) resets).
(** Without a current period, the one that ends last is marked instead; a canonical history
    whose current reset has no rows marks none. *)
Definition fallback_reset (history_is_canonical : bool) (current_reset_at current : option Z)
    (ranges : list (Z * (Z * Z))) : option Z :=
  match current with
  | Some current => Some current
  | None =>
      if history_is_canonical && opt_is_some current_reset_at then None
      else fst <$> max_by (λ a b, span_leb (a.2.2, a.1) (b.2.2, b.1)) ranges
  end.
Definition period_of (observed_at history_upper : Z) (current_bounds : option (Z * Z)) (current fallback : option Z)
    (range : Z * (Z * Z)) : PublicHistoryPeriod :=
  let '(reset_at, (observed_start, observed_end)) := range in
  let is_current := bool_decide (Some reset_at = current) in
  let '(start_at, end_at) :=
    if is_current then default (observed_start, Z.min observed_end observed_at) current_bounds
    else (observed_start, Z.min (Z.min observed_end history_upper) reset_at) in
  {| hp_id := i64_to_string reset_at; hp_start_at := start_at; hp_end_at := end_at; hp_reset_at := reset_at;
     hp_label := []; hp_current := is_current || bool_decide (Some reset_at = fallback) |}.
(** Newest starts first; then the greater reset and id. *)
Definition period_leb (left right : PublicHistoryPeriod) : bool :=
  (hp_start_at right <? hp_start_at left)
  || ((hp_start_at right =? hp_start_at left)
      && ((hp_reset_at right <? hp_reset_at left)
          || ((hp_reset_at right =? hp_reset_at left) && text_leb (hp_id right) (hp_id left)))).
Definition history_periods_at (samples : list (Z * Z)) (observed_at history_upper : Z)
    (current_reset_at current_window_reset_at : option Z) (window_seconds : Z) (history_is_canonical : bool) :
    list PublicHistoryPeriod :=
  let ranges := by_reset (fold_left range_step samples ∅) in
  let current := current_reset history_is_canonical current_reset_at (map fst ranges) in
  let fallback := fallback_reset history_is_canonical current_reset_at current ranges in
  let current_bounds :=
    current_window_reset_at ≫= λ reset_at, current_period_bounds reset_at window_seconds observed_at in
  let periods := map (period_of observed_at history_upper current_bounds current fallback) ranges in
  sort_by period_leb (assign_history_period_labels current_window_reset_at periods).
(** The end of the part of a period that an interval owns, from the minute it starts in. *)
Definition owned_part (period : PublicHistoryPeriod) (interval : ReadInterval) : option Z :=
  let visible_start := from_option (λ start, start - start mod 60) i64_min (ri_start_at interval) in
  let start := Z.max visible_start (hp_start_at period) in
  let end_ := Z.min (default i64_max (ri_end_at interval ≫= λ end_, i64_checked_sub end_ 1)) (hp_end_at period) in
  then_some (start <=? end_) end_.
Definition owned_end (intervals : ReadIntervals) (period : PublicHistoryPeriod) : option Z :=
  last (filter_map (owned_part period) intervals).
(** A period keeps its start, and is dropped when nothing of it is owned. *)
Definition clip_period (intervals : ReadIntervals) (period : PublicHistoryPeriod) : option PublicHistoryPeriod :=
  last_end ← owned_end intervals period;
  then_some (hp_start_at period <=? last_end) {|
    hp_id := hp_id period; hp_start_at := hp_start_at period; hp_end_at := last_end;
    hp_reset_at := hp_reset_at period; hp_label := hp_label period;
    hp_current := contains intervals (hp_reset_at period) && hp_current period |}.
Definition clip_history_periods (intervals : ReadIntervals) (periods : list PublicHistoryPeriod) :
    list PublicHistoryPeriod := filter_map (clip_period intervals) periods.

(** ** The newest quota *)
Definition latest_of {A} (leb : A → A → bool) (p : A → bool) (rows : list A) : option A := max_by leb (List.filter p rows).
Definition has_percent (row : StoredHistorySample) : bool := opt_is_some (rs_remaining_percent row).
Definition latest_leb (a b : StoredHistorySample) : bool :=
  span_leb (rs_timestamp a, rs_reset_at a) (rs_timestamp b, rs_reset_at b).
(** By time, then the rows of the authority, then by reset. *)
Definition authority_leb (authority : Z) (a b : StoredHistorySample) : bool :=
  let of_authority row := if rs_reset_at row =? authority then 1 else 0 in
  (rs_timestamp a <? rs_timestamp b)
  || ((rs_timestamp a =? rs_timestamp b)
      && span_leb (of_authority a, rs_reset_at a) (of_authority b, rs_reset_at b)).
Definition latest_quota_row (rows : list StoredHistorySample) (current_reset_at current_window_reset_at : option Z)
    (window_seconds : Z) (history_is_canonical : bool) : option StoredHistorySample :=
  if history_is_canonical then
    authority ← current_reset_at;
    let window_reset := default authority current_window_reset_at in
    start ← quota_period_start window_reset window_seconds;
    latest_of (λ a b, rs_timestamp a <=? rs_timestamp b) (λ row,
      (rs_reset_at row =? authority) && has_percent row && (start <=? rs_timestamp row)
      && (rs_timestamp row <=? window_reset)) rows
  else
    let in_window :=
      authority ← current_reset_at;
      start ← quota_period_start authority window_seconds;
      latest_of (authority_leb authority) (λ row,
        has_percent row && (start <=? rs_timestamp row) && (rs_timestamp row <=? authority)) rows in
    let of_authority :=
      authority ← current_reset_at;
      latest_of latest_leb (λ row, has_percent row && near (rs_reset_at row) authority) rows in
    match in_window with
    | Some row => Some row
    | None => match of_authority with
              | Some row => Some row
              | None => latest_of latest_leb has_percent rows
              end
    end.

(** ** Gaps *)
(** A row of the ledger: its id, reset, start, end and reason; [None] when a column has
    another type, which fails the whole query. *)
Definition gap_of (row : Row) : option PublicHistoryGap :=
  match row with
  | [SqlText gap_id; SqlInteger reset_at; SqlInteger start_at; SqlInteger end_at; SqlText reason] =>
      gap_id ← from_utf8 gap_id;
      reason ← from_utf8 reason;
      Some {| hg_gap_id := gap_id; hg_reset_at := reset_at; hg_start_at := start_at; hg_end_at := end_at;
              hg_reason := reason |}
  | _ => None
  end.
Definition valid_gap_id (value : text) : bool := (str_len value =? 32) && forallb is_lower_hex value.
Definition valid_gap_reason (value : text) : bool :=
  is_any value ["daemon_stop_unrecoverable"; "reset_hint_expired"; "auth_epoch_tombstoned"].
Definition gap_step (s : list PublicHistoryGap * gset text) (row : Row) :
    result ReaderError (list PublicHistoryGap * gset text) :=
  gap ← ok_or (gap_of row) ReaderSqlite;
  if negb (valid_gap_id (hg_gap_id gap)) || negb (valid_gap_reason (hg_reason gap))
     || negb (valid_public_timestamp (hg_reset_at gap)) || negb (valid_public_timestamp (hg_start_at gap))
     || negb (valid_public_timestamp (hg_end_at gap)) || (hg_end_at gap <? hg_start_at gap)
  then Ok s
  else if bool_decide (hg_gap_id gap ∈ s.2) then Ok s
  else Ok (s.1 ++ [gap], {[hg_gap_id gap]} ∪ s.2).
(** [ledger] is what the query returns for its two bounds, [None] without the table. *)
Definition read_confirmed_gaps (ledger : option (Z → Z → list Row)) (window : option PublicationWindow) :
    result ReaderError (list PublicHistoryGap) :=
  match ledger with
  | None => Ok []
  | Some ledger =>
      let '(lower, upper) := from_option (λ window, (pw_retained_start window, pw_at window)) (i64_min, i64_max) window in
      fst <$> fold_result gap_step ([], ∅) (ledger lower upper)
  end.
Definition clip_gap (window : option PublicationWindow) (gap : PublicHistoryGap) : PublicHistoryGap :=
  match window with
  | None => gap
  | Some window => {|
      hg_gap_id := hg_gap_id gap; hg_reset_at := hg_reset_at gap;
      hg_start_at := Z.max (hg_start_at gap) (pw_retained_start window);
      hg_end_at := Z.min (hg_end_at gap) (pw_at window); hg_reason := hg_reason gap |}
  end.
Definition read_confirmed_gaps_for_intervals (ledger : option (Z → Z → list Row)) (intervals : ReadIntervals)
    (window : option PublicationWindow) : result ReaderError (list PublicHistoryGap) :=
  gaps ← read_confirmed_gaps ledger window;
  Ok (map (clip_gap window)
    (List.filter (λ gap, contains intervals (hg_start_at gap) && contains intervals (hg_end_at gap)) gaps)).
(** The first period a gap lies in, whose reset it takes. *)
Definition place_gap (periods : list PublicHistoryPeriod) (gap : PublicHistoryGap) : option PublicHistoryGap :=
  period ← List.find (λ period, near (hg_reset_at gap) (hp_reset_at period)
    && (hp_start_at period <=? hg_start_at gap) && (hg_end_at gap <=? hp_end_at period)) periods;
  Some {| hg_gap_id := hg_gap_id gap; hg_reset_at := hp_reset_at period; hg_start_at := hg_start_at gap;
          hg_end_at := hg_end_at gap; hg_reason := hg_reason gap |}.
Definition gap_leb (a b : PublicHistoryGap) : bool := negb (gap_gtb a b).
(** A gap that meets the one kept before it is dropped. *)
Definition keep_gap (kept : list PublicHistoryGap) (gap : PublicHistoryGap) : list PublicHistoryGap :=
  if is_some_and (λ previous, (hg_reset_at previous =? hg_reset_at gap) && (hg_start_at gap <=? hg_end_at previous))
       (last kept) then kept else kept ++ [gap].
Definition select_gaps (periods : list PublicHistoryPeriod) (confirmed_gaps : list PublicHistoryGap) :
    list PublicHistoryGap :=
  fold_left keep_gap (sort_by gap_leb (filter_map (place_gap periods) confirmed_gaps)) [].

(** ** The periods and gaps of a document *)
Record HistoryAuthority := {
  ha_current_reset_at : option Z;
  ha_current_window_reset_at : option Z;
  ha_window_seconds : Z;
  ha_history_is_canonical : bool;
  ha_window : option PublicationWindow
}.
(** The periods are clipped before the rows are projected and again after it, and labelled
    last. *)
Definition document_periods (authority : HistoryAuthority) (intervals : ReadIntervals) (observed_at history_upper : Z)
    (samples : list StoredHistorySample) : list PublicHistoryPeriod :=
  let periods := history_periods_at (map row_key samples) observed_at history_upper (ha_current_reset_at authority)
    (ha_current_window_reset_at authority) (ha_window_seconds authority) (ha_history_is_canonical authority) in
  let periods := clip_history_periods intervals periods in
  assign_history_period_labels (ha_current_window_reset_at authority) (clip_history_periods intervals periods).
Definition document_gaps (authority : HistoryAuthority) (intervals : ReadIntervals) (ledger : option (Z → Z → list Row))
    (observed_at history_upper : Z) (samples : list StoredHistorySample) : result ReaderError (list PublicHistoryGap) :=
  confirmed_gaps ← read_confirmed_gaps_for_intervals ledger intervals (ha_window authority);
  Ok (select_gaps (document_periods authority intervals observed_at history_upper samples) confirmed_gaps).
