(* ===== verification/PeriodFacts.v ===== *)
(** * The periods and gaps meet the published contract

    Theorems on [HistoryPeriods] against the clauses of [Details]: under a quota receipt,
    the periods and the gaps the reader puts into a document are accepted by the contract's
    validator, whatever the rows, the owned intervals and the ledger hold. *)

From S2P Require Import Prelude Text Float64 Contract Details Recordings Spans ReadIntervals TaskActivity SqlRow StoredHistory Calendar Canonicalize HistoryPeriods.

(** ** Labels *)
Definition label_char (c : Z) : bool := negb (is_control c || is_bidi_formatting c).
Definition label_text (limit : nat) (s : text) : Prop :=
  forallb label_char s = true ∧ (length s ≤ limit)%nat.
Lemma label_app m n s t : label_text m s → label_text n t → label_text (m + n) (s ++ t).
Proof. intros [Hs Hm] [Ht Hn]. split; [by rewrite forallb_app, Hs|]. rewrite length_app. lia. Qed.
Lemma label_weaken m n s : (m ≤ n)%nat → label_text m s → label_text n s.
Proof. intros Hmn [Hs Hm]. split; [done|lia]. Qed.
Lemma label_self s : forallb label_char s = true → label_text (length s) s.
Proof. by split. Qed.
Lemma label_digits s : Forall digit s → forallb label_char s = true.
Proof.
  intros H. apply forallb_Forall. eapply Forall_impl; [exact H|]. unfold digit. intros c Hc.
  unfold label_char, is_control, is_bidi_formatting, in_range. lia.
Qed.
Lemma dec_digits_length fuel n acc : (length (dec_digits fuel n acc) ≤ fuel + length acc)%nat.
Proof.
  revert n acc. induction fuel as [|fuel IH]; intros n acc; simpl; [lia|]. destruct (n <? 10); simpl; [lia|].
  specialize (IH (n / 10) (48 + n mod 10 :: acc)). simpl in IH. lia.
Qed.
Lemma to_dec_length k n : 0 ≤ n < 2 ^ Z.of_nat k → (length (to_dec n) ≤ S k)%nat.
Proof.
  intros Hn. unfold to_dec. pose proof (dec_digits_length (S (Z.to_nat (Z.log2 n))) n []) as H. simpl in H.
  assert (Z.log2 n ≤ Z.of_nat k); [|simpl; lia]. destruct (decide (n = 0)) as [->|]; [simpl; lia|].
  apply Z.lt_le_incl, Z.log2_lt_pow2; lia.
Qed.
Lemma label_padded width value :
  (1 ≤ width ≤ 4)%nat → - 2 ^ 17 < value < 2 ^ 17 → label_text 19 (format_padded width value).
Proof.
  intros Hw Hv. assert (∀ w n, (w ≤ 4)%nat → 0 ≤ n < 2 ^ 17 → label_text 18 (zero_pad w (to_dec n))) as Hpad.
  { intros w n Hw' Hn. unfold zero_pad. pose proof (to_dec_length 17 n Hn) as Hl. split.
    - apply label_digits, Forall_app. split; [|apply to_dec_digits; lia]. apply Forall_replicate. unfold digit. lia.
    - rewrite length_app, length_replicate. lia. }
  unfold format_padded. destruct (value <? 0) eqn:E.
  - destruct (Hpad (width - 1)%nat (- value)) as [Hc Hl]; [lia|lia|]. split; simpl; [done|lia].
  - destruct (Hpad width value) as [Hc Hl]; [lia|lia|]. split; [done|lia].
Qed.
(** The two conversions of the sources agree from the year 0 on. *)
Lemma civil_date_agrees days :
  0 ≤ days + 719468 → civil_date_from_days days = civil_date_from_unix_days days.
Proof.
  intros Hz. unfold civil_date_from_days, civil_date_from_unix_days. rewrite floor_div_div by lia.
  replace (0 <=? days + 719468) with true by lia. set (era := (days + 719468) / 146097).
  set (doe := days + 719468 - era * 146097). assert (0 ≤ doe < 146097) as Hdoe by (unfold doe, era; div_lia).
  set (yoe_n := doe - Z.quot doe 1460 + Z.quot doe 36524 - Z.quot doe 146096).
  assert (0 ≤ yoe_n) by (unfold yoe_n; rewrite !Z.quot_div_nonneg by lia; div_lia).
  rewrite (Z.quot_div_nonneg yoe_n 365) by lia. set (yoe := yoe_n / 365).
  set (doy := doe - (365 * yoe + Z.quot yoe 4 - Z.quot yoe 100)).
  assert (0 ≤ doy) as Hdoy.
  { unfold doy, yoe. rewrite !Z.quot_div_nonneg by div_lia. unfold yoe_n. rewrite !Z.quot_div_nonneg by lia.
    clear -Hdoe. div_lia. }
  rewrite (Z.quot_div_nonneg (5 * doy + 2) 153) by lia. set (mp := (5 * doy + 2) / 153).
  assert (0 ≤ mp) by (unfold mp; div_lia). by rewrite (Z.quot_div_nonneg (153 * mp + 2) 5) by lia.
Qed.
(** Rough bounds on a date, for the length of a label. *)
Lemma civil_date_bounds days :
  0 ≤ days < 4000000 → let '(year, month, day) := civil_date_from_days days in
  - 2 ^ 17 < year < 2 ^ 17 ∧ - 2 ^ 17 < month < 2 ^ 17 ∧ - 2 ^ 17 < day < 2 ^ 17.
Proof.
  intros Hd. unfold civil_date_from_days. replace (0 <=? days + 719468) with true by lia.
  set (era := (days + 719468) / 146097). assert (0 ≤ era < 40) as Hera by (unfold era; div_lia).
  set (doe := days + 719468 - era * 146097). assert (0 ≤ doe < 146097) as Hdoe by (unfold doe, era; div_lia).
  set (yoe := (doe - Z.quot doe 1460 + Z.quot doe 36524 - Z.quot doe 146096) / 365).
  assert (0 ≤ yoe < 410) as Hyoe by (unfold yoe; rewrite !Z.quot_div_nonneg by lia; clear -Hdoe; div_lia).
  set (doy := doe - (365 * yoe + Z.quot yoe 4 - Z.quot yoe 100)).
  assert (0 ≤ doy < 1000) as Hdoy.
  { unfold doy, yoe. rewrite !Z.quot_div_nonneg by (rewrite ?Z.quot_div_nonneg by lia; clear -Hdoe; div_lia).
    clear -Hdoe. div_lia. }
  set (mp := (5 * doy + 2) / 153). assert (0 ≤ mp < 40) as Hmp by (unfold mp; clear -Hdoy; div_lia).
  set (month := mp + (if mp <? 10 then 3 else -9)).
  assert (- 6000 < month < 6000) as Hmonth by (unfold month; destruct (mp <? 10); lia). cbn zeta beta iota.
  split; [destruct (month <=? 2); lia|]. split; [lia|]. clearbody mp doy. clear -Hmp Hdoy. div_lia.
Qed.
Lemma jst_label t : timestamp_ok t → ∃ s, format_jst_timestamp t = Some s ∧ label_text 130 s ∧ s ≠ [].
Proof.
  unfold timestamp_ok, Contract.MAX_PUBLIC_UNIX_SECONDS. intros Ht. unfold format_jst_timestamp, i64_checked_add.
  rewrite (proj2 (in_range_true _ _ _)) by (unfold i64_min, i64_max; lia).
  unfold then_some. cbn [mbind option_bind]. cbv zeta. change (9 * 60 * 60) with 32400.
  set (days := (t + 32400) / 86400). assert (0 ≤ days < 4000000) as Hd by (unfold days; div_lia).
  set (seconds := (t + 32400) mod 86400). assert (0 ≤ seconds < 86400) as Hs by (unfold seconds; div_lia).
  pose proof (civil_date_bounds days Hd) as Hb. destruct (civil_date_from_days days) as [[year month] day].
  destruct Hb as (Hy & Hm & Hday). eexists. split; [reflexivity|]. split.
  - eapply label_weaken; cycle 1.
    + repeat first [apply label_padded; [lia|]|by apply label_self|apply label_app]; try done.
      * rewrite Z.quot_div_nonneg by lia. clear -Hs. div_lia.
      * rewrite Z.quot_div_nonneg by div_lia. clear -Hs. div_lia.
      * clear -Hs. div_lia.
    + vm_compute. lia.
  - intros E%(f_equal (@length Z)). rewrite !length_app in E. simpl in E. lia.
Qed.
Lemma label_valid s : s ≠ [] → label_text 512 s → valid_text s MAX_PUBLIC_HISTORY_LABEL_SCALARS = true.
Proof.
  intros Hs [Hc Hl]. unfold valid_text, chars_count, MAX_PUBLIC_HISTORY_LABEL_SCALARS. rewrite !andb_true_iff. split_and!.
  - apply negb_true_iff. by apply bool_decide_eq_false.
  - lia.
  - apply negb_true_iff, existsb_false_Forall. apply forallb_Forall in Hc. eapply Forall_impl; [exact Hc|].
    intros c. unfold label_char. by rewrite negb_true_iff.
Qed.
Definition period_times (period : PublicHistoryPeriod) : Prop :=
  timestamp_ok (hp_start_at period) ∧ timestamp_ok (hp_end_at period) ∧ timestamp_ok (hp_reset_at period).
Lemma base_label_text current_window period :
  given timestamp_ok current_window → period_times period →
  label_text 270 (base_label current_window period) ∧ base_label current_window period ≠ [].
Proof.
  intros Hw (Hs & He & Hr). unfold base_label, format_jst_period_label.
  destruct (jst_label _ Hs) as (start & -> & Hls & Hns).
  destruct (jst_label (if hp_current period then default (hp_reset_at period) current_window else hp_end_at period))
    as (end_ & -> & Hle & _).
  { destruct (hp_current period); [|done]. destruct current_window as [w|]; [by apply Hw|done]. }
  split.
  - eapply label_weaken; cycle 1.
    + repeat first [exact Hls|exact Hle|by apply label_self|apply label_app].
      instantiate (1 := 5%nat). destruct (hp_current period); split; [done|simpl; lia..].
    + vm_compute. lia.
  - by destruct start.
Qed.
(** Labelling changes the labels alone, and every label is a valid text. *)
Lemma assign_labels_map {A} (f : PublicHistoryPeriod → A) current_window periods :
  (∀ label p, f (with_label label p) = f p) → map f (assign_history_period_labels current_window periods) = map f periods.
Proof. intros Hf. unfold assign_history_period_labels. rewrite map_map. apply map_ext. intros p. by case_match. Qed.
Lemma assign_labels_elem current_window periods p' :
  given timestamp_ok current_window → Forall period_times periods →
  p' ∈ assign_history_period_labels current_window periods →
  ∃ p label, p ∈ periods ∧ p' = with_label label p ∧ valid_text label MAX_PUBLIC_HISTORY_LABEL_SCALARS = true.
Proof.
  intros Hw Hp (p & -> & Hin)%list_elem_of_fmap. rewrite Forall_forall in Hp. destruct (Hp p Hin) as (Hs & He & Hr).
  destruct (base_label_text current_window p Hw (Hp p Hin)) as [Hb Hne].
  cbv zeta. case_match; (eexists p, _; split_and!; [done|reflexivity|]); apply label_valid.
  - by destruct (base_label current_window p).
  - destruct (jst_label _ Hr) as (reset & -> & Hlr & _). eapply label_weaken; cycle 1.
    + repeat first [exact Hb|exact Hlr|by apply label_self|apply label_app].
    + vm_compute. lia.
  - done.
  - eapply label_weaken; [|exact Hb]. lia.
Qed.

(** ** Ranges of the rows *)
(** The range of a reset goes from its first to its last row. *)
Definition range_exact (samples : list (Z * Z)) (reset_at : Z) (range : Z * Z) : Prop :=
  (reset_at, range.1) ∈ samples ∧ (reset_at, range.2) ∈ samples
  ∧ ∀ t, (reset_at, t) ∈ samples → range.1 ≤ t ≤ range.2.
Lemma range_spec samples reset_at :
  match fold_left range_step samples ∅ !! reset_at with
  | Some range => range_exact samples reset_at range
  | None => ∀ t, (reset_at, t) ∉ samples
  end.
Proof.
  induction samples as [|[r t] samples IH] using rev_ind.
  { simpl. rewrite lookup_empty. by intros t ?%elem_of_nil. }
  rewrite fold_left_app. simpl. set (m := fold_left range_step samples ∅) in *.
  destruct (decide (r = reset_at)) as [->|Hne].
  - rewrite lookup_insert. case_decide; [|done]. destruct (m !! reset_at) as [[lo hi]|]; unfold range_exact in *; simpl in *.
    + destruct IH as (Hlo & Hhi & Hall). setoid_rewrite elem_of_app. setoid_rewrite list_elem_of_singleton. split_and!.
      * destruct (Z.min_spec lo t) as [[_ ->]|[_ ->]]; auto.
      * destruct (Z.max_spec hi t) as [[_ ->]|[_ ->]]; auto.
      * intros t' [Ht%Hall|[= ->]]; [lia|]. specialize (Hall _ Hlo). lia.
    + setoid_rewrite elem_of_app. setoid_rewrite list_elem_of_singleton. split_and!; [by right..|].
      intros t' [Ht%IH|[= ->]]; [done|lia].
  - rewrite lookup_insert_ne by done. destruct (m !! reset_at) as [range|]; unfold range_exact in *.
    + destruct IH as (Hlo & Hhi & Hall). setoid_rewrite elem_of_app. setoid_rewrite list_elem_of_singleton.
      split_and!; [by left..|]. intros t' [Ht|[= ? ?]]; [by apply Hall|done].
    + intros t' [Ht|[= ? ?]%list_elem_of_singleton]%elem_of_app; [by apply (IH t')|done].
Qed.
Lemma elem_of_by_reset m reset_at range : (reset_at, range) ∈ by_reset m ↔ m !! reset_at = Some range.
Proof. unfold by_reset. by rewrite sort_by_elem, elem_of_map_to_list. Qed.
Lemma by_reset_NoDup m : NoDup (map fst (by_reset m)).
Proof. unfold by_reset. rewrite (sort_by_perm _ _). apply NoDup_fst_map_to_list. Qed.

(** ** Periods *)
(** What the validator reads of a period apart from its label. *)
Abbreviation unlabelled p := (hp_id p, hp_start_at p, hp_end_at p, hp_reset_at p, hp_current p).
Lemma i64_to_string_inj a b : i64_to_string a = i64_to_string b → a = b.
Proof.
  assert (∀ n, 0 ≤ n → head (to_dec n) ≠ Some 45) as Hhead.
  { intros n Hn. pose proof (to_dec_digits n Hn) as H. destruct (to_dec n) as [|c l]; [done|].
    apply Forall_cons in H as [Hc _]. unfold digit in Hc. simpl. injection 1. lia. }
  unfold i64_to_string. destruct (a <? 0) eqn:Ea, (b <? 0) eqn:Eb; intros H.
  - injection H as H. apply to_dec_inj in H; lia.
  - exfalso. apply (Hhead b); [lia|]. by rewrite <-H.
  - exfalso. apply (Hhead a); [lia|]. by rewrite H.
  - apply to_dec_inj in H; lia.
Qed.
#[export] Instance i64_to_string_injective : Inj (=) (=) i64_to_string := i64_to_string_inj.
Lemma reset_id_valid reset_at : timestamp_ok reset_at → valid_text (i64_to_string reset_at) MAX_PUBLIC_ID_SCALARS = true.
Proof.
  unfold timestamp_ok, Contract.MAX_PUBLIC_UNIX_SECONDS. intros Hr. unfold i64_to_string.
  replace (reset_at <? 0) with false by lia. change MAX_PUBLIC_ID_SCALARS with MAX_PUBLIC_HISTORY_LABEL_SCALARS.
  apply label_valid; [apply dec_digits_nonnil|]. split; [by apply label_digits, to_dec_digits; lia|].
  pose proof (to_dec_length 40 reset_at). lia.
Qed.
Section periods.
Context (samples : list (Z * Z)) (observed_at history_upper : Z) (current_reset_at current_window_reset_at : option Z).
Context (window_seconds : Z) (history_is_canonical : bool).
Local Abbreviation ranges := (by_reset (fold_left range_step samples ∅)).
Local Abbreviation current := (current_reset history_is_canonical current_reset_at (map fst ranges)).
Local Abbreviation fallback := (fallback_reset history_is_canonical current_reset_at current ranges).
Local Abbreviation bounds :=
  (current_window_reset_at ≫= λ reset_at, current_period_bounds reset_at window_seconds observed_at).
Local Abbreviation periods :=
  (history_periods_at samples observed_at history_upper current_reset_at current_window_reset_at window_seconds
     history_is_canonical).
Definition raw_periods : list PublicHistoryPeriod :=
  map (period_of observed_at history_upper bounds current fallback) ranges.
Lemma raw_periods_reset : map hp_reset_at raw_periods = map fst ranges.
Proof.
  unfold raw_periods. rewrite map_map. apply map_ext. intros [r [lo hi]]. unfold period_of. by repeat case_match.
Qed.
Lemma raw_periods_id : map hp_id raw_periods = map i64_to_string (map hp_reset_at raw_periods).
Proof.
  unfold raw_periods. rewrite !map_map. apply map_ext. intros [r [lo hi]]. unfold period_of. by repeat case_match.
Qed.
(** One period for each reset of the rows. *)
Lemma history_periods_elem p : p ∈ periods → ∃ p0, p0 ∈ raw_periods ∧ unlabelled p = unlabelled p0.
Proof.
  unfold history_periods_at. rewrite sort_by_elem. intros (p0 & -> & Hin)%list_elem_of_fmap. exists p0.
  split; [done|]. cbv zeta. by case_match.
Qed.
Lemma history_periods_resets : map hp_reset_at periods ≡ₚ map fst ranges.
Proof.
  unfold history_periods_at. rewrite (fmap_Permutation hp_reset_at _ _ (sort_by_perm _ _)).
  change (hp_reset_at <$> ?l) with (map hp_reset_at l). rewrite assign_labels_map by done.
  fold raw_periods. by rewrite raw_periods_reset.
Qed.
End periods.

(** ** Clipping *)
Lemma owned_end_le intervals p e : owned_end intervals p = Some e → e ≤ hp_end_at p.
Proof.
  unfold owned_end. intros H. apply last_Some_elem_of, elem_of_filter_map in H as (i & _ & Hi).
  unfold owned_part, then_some in Hi. cbv zeta in Hi. destruct (_ <=? _); [|done]. injection Hi as <-. lia.
Qed.
Lemma clip_period_Some intervals p p' :
  clip_period intervals p = Some p' →
  hp_id p' = hp_id p ∧ hp_start_at p' = hp_start_at p ∧ hp_reset_at p' = hp_reset_at p
  ∧ hp_start_at p' ≤ hp_end_at p' ≤ hp_end_at p ∧ (hp_current p' = true → hp_current p = true)
  ∧ owned_end intervals p = Some (hp_end_at p').
Proof.
  unfold clip_period. intros (e & He & H)%bind_Some. unfold then_some in H.
  destruct (hp_start_at p <=? e) eqn:E; [|done]. injection H as <-. simpl. apply owned_end_le in He as Hle.
  split_and!; try done; [lia..|]. by intros [_ ?]%andb_true_iff.
Qed.
(** In order and apart. *)
Lemma no_overlap_apart previous l :
  no_overlap previous l = true → Forall proper l →
  StronglySorted (λ i j, end_or_max i ≤ start_or_min j) l
  ∧ Forall (λ i, ∀ e, previous = Some e → e ≤ start_or_min i) l.
Proof.
  revert previous. induction l as [|i l IH]; intros previous; simpl; [by split; constructor|].
  destruct (is_some_and _ previous) eqn:E; [done|]. intros Ho [Hi Hl]%Forall_cons.
  destruct (IH _ Ho Hl) as [Hs Hnext]. assert (Forall (λ j, end_or_max i ≤ start_or_min j) l) as Hj.
  { eapply Forall_impl; [exact Hnext|]. intros j Hj. by apply Hj. }
  assert (∀ e, previous = Some e → e ≤ start_or_min i) as Hp by (intros e ->; simpl in E; lia).
  split; constructor; [done..|]. eapply Forall_impl; [exact Hj|]. intros j Hij e He.
  pose proof (proper_bounds i Hi). specialize (Hp _ He). simpl in Hij. lia.
Qed.
Lemma intervals_apart l intervals :
  ReadIntervals_new l = Ok intervals → Forall (λ i, is_empty i = false) intervals →
  Forall proper intervals ∧ StronglySorted (λ i j, end_or_max i ≤ start_or_min j) intervals.
Proof.
  intros H He. assert (Forall proper intervals) as Hp.
  { pose proof (read_intervals_spec l) as Hs. rewrite H in Hs. destruct Hs as (Hperm & _ & Hb & _).
    rewrite <-Hperm in Hb. rewrite Forall_forall in *. intros i Hi. split; [by apply Hb|by apply He]. }
  split; [done|]. unfold ReadIntervals_new in H. destruct (_ || _); [done|].
  destruct (negb _) eqn:Eo; [done|]. injection H as <-. apply negb_false_iff in Eo.
  rewrite filter_all in Eo.
  - by apply no_overlap_apart in Eo as [? _].
  - intros i Hi. rewrite Forall_forall in He. by rewrite (He i Hi).
Qed.
Lemma owned_part_in p i :
  proper i → hp_start_at p ≤ hp_end_at p → timestamp_ok (hp_end_at p) →
  interval_contains i (hp_end_at p) = true → owned_part p i = Some (hp_end_at p).
Proof.
  intros Hp Hse Ht [Hs He]%interval_contains_iff. destruct Hp as [Hb _].
  apply invalid_bounds_false in Hb as (Hbs & Hbe & _).
  unfold timestamp_ok, Contract.MAX_PUBLIC_UNIX_SECONDS, ReadIntervals.MAX_PUBLIC_UNIX_SECONDS in *.
  unfold owned_part. cbv zeta.
  assert (from_option (λ start, start - start mod 60) i64_min (ri_start_at i) ≤ hp_end_at p) as Hstart.
  { destruct (ri_start_at i) as [s|]; simpl; [|unfold i64_min; lia].
    specialize (Hs _ eq_refl). pose proof (Z.mod_pos_bound s 60). lia. }
  assert (hp_end_at p ≤ default i64_max (ri_end_at i ≫= λ e, i64_checked_sub e 1)) as Hend.
  { destruct (ri_end_at i) as [e|]; simpl; [|unfold i64_max; lia]. specialize (He _ eq_refl). specialize (Hbe _ eq_refl).
    unfold i64_checked_sub. rewrite (proj2 (in_range_true _ _ _)) by (unfold i64_min, i64_max; lia). simpl. lia. }
  rewrite Z.min_r by done. unfold then_some. by replace (_ <=? hp_end_at p) with true by lia.
Qed.
Lemma owned_part_after p i v :
  proper i → timestamp_ok (hp_end_at p) → hp_end_at p < start_or_min i → owned_part p i = Some v → v = hp_end_at p.
Proof.
  intros Hp Ht Hs. apply proper_bounds in Hp as Hb. destruct Hp as [Hi _]. apply invalid_bounds_false in Hi as (Hbs & Hbe & _).
  unfold timestamp_ok, Contract.MAX_PUBLIC_UNIX_SECONDS, ReadIntervals.MAX_PUBLIC_UNIX_SECONDS in *.
  unfold owned_part, then_some. cbv zeta. destruct (_ <=? _); [|done]. intros [= <-].
  destruct (ri_end_at i) as [e|] eqn:Ee; simpl; [|unfold i64_max; lia]. specialize (Hbe _ eq_refl).
  unfold i64_checked_sub. rewrite (proj2 (in_range_true _ _ _)) by (unfold i64_min, i64_max; lia). simpl.
  unfold start_or_min, end_or_max in *. rewrite Ee in Hb. simpl in Hb. lia.
Qed.
(** A period whose last second is owned keeps its end. *)
Lemma owned_end_kept intervals p :
  Forall proper intervals → StronglySorted (λ i j, end_or_max i ≤ start_or_min j) intervals →
  hp_start_at p ≤ hp_end_at p → timestamp_ok (hp_end_at p) → contains intervals (hp_end_at p) = true →
  owned_end intervals p = Some (hp_end_at p).
Proof.
  intros Hp Hs Hse Ht (i & Hi & Hown)%contains_iff. unfold owned_end.
  induction Hs as [|j l Hs IH Hj]; [by apply elem_of_nil in Hi|]. apply Forall_cons in Hp as [Hpj Hp]. simpl.
  apply elem_of_cons in Hi as [->|Hi].
  - rewrite (owned_part_in p j) by done. assert (Forall (λ v, v = hp_end_at p) (filter_map (owned_part p) l)) as Hall.
    { apply Forall_forall. intros v (k & Hk & Hv)%elem_of_filter_map.
      pose proof (proj1 (Forall_forall _ _) Hp k Hk) as Hpk. pose proof (proj1 (Forall_forall _ _) Hj k Hk) as Hjk.
      apply (owned_part_after p k); [done..| |done]. apply interval_contains_iff in Hown as [_ Hown].
      simpl in Hjk. unfold end_or_max in Hjk. destruct (ri_end_at j) as [e|]; simpl in Hjk;
        [specialize (Hown _ eq_refl); lia|]. apply proper_bounds in Hpk. lia. }
    rewrite last_cons. destruct (last _) as [v|] eqn:El; [|done]. apply last_Some_elem_of in El.
    by rewrite (proj1 (Forall_forall _ _) Hall v El).
  - specialize (IH Hp Hi). destruct (owned_part p j) as [v|]; [|done]. by rewrite last_cons, IH.
Qed.

(** An interval without any time moves the end of a period into time nobody owns: the
    clipping does not skip it, where [intersects_canonical_minute] and
    [quota_only_prefix_end] do. *)
Example empty_interval_extends_period :
  let intervals := [{| ri_start_at := Some 1; ri_end_at := Some 100 |}; {| ri_start_at := Some 150; ri_end_at := Some 150 |}] in
  let period := {| hp_id := []; hp_start_at := 10; hp_end_at := 1000; hp_reset_at := 1000; hp_label := []; hp_current := false |} in
  ReadIntervals_new intervals = Ok intervals ∧ owned_end intervals period = Some 149
  ∧ owned_end (take 1 intervals) period = Some 99 ∧ contains intervals 149 = false.
Proof. by vm_compute. Qed.
