(* ===== verification/DocumentHistory.v ===== *)
(** * The history of a document is accepted

    Under a quota receipt, the periods and gaps that [HistoryPeriods] puts into a document
    satisfy the clauses of the contract's validator ([details_clauses]). *)

From S2P Require Import Prelude Text Float64 Contract Details Recordings Spans ReadIntervals TaskActivity SqlRow StoredHistory Canonicalize HistoryPeriods PeriodFacts.

Lemma filter_map_NoDup_map {A B C} (f : A → option B) (g : A → C) (h : B → C) l :
  (∀ a b, f a = Some b → h b = g a) → NoDup (map g l) → NoDup (map h (filter_map f l)).
Proof.
  intros Hfg. induction l as [|a l IH]; simpl; [done|]. intros [Ha Hl]%NoDup_cons.
  destruct (f a) as [b|] eqn:E; [|by apply IH]. simpl. apply NoDup_cons. split; [|by apply IH].
  rewrite (Hfg a b E). intros (b' & E' & (a' & Ha' & Hf)%elem_of_filter_map)%list_elem_of_fmap.
  apply Ha. rewrite E', (Hfg a' b' Hf). by apply list_elem_of_fmap_2.
Qed.
Lemma one_flagged {A B} (f : A → B) (p : A → bool) (v : option B) l :
  NoDup (map f l) → (∀ a, a ∈ l → p a = true → Some (f a) = v) → (length (List.filter p l) ≤ 1)%nat.
Proof.
  intros Hnd Hv. destruct (List.filter p l) as [|a [|b rest]] eqn:E; simpl; [lia|lia|exfalso].
  assert (NoDup (map f (List.filter p l))) as H by by apply filter_NoDup_map. rewrite E in H. simpl in H.
  apply NoDup_cons in H as [H _]. apply H, elem_of_cons. left.
  assert (∀ x, x ∈ List.filter p l → Some (f x) = v) as Hf by (intros x [? ?]%elem_of_filter_bool; by apply Hv).
  rewrite E in Hf. assert (Some (f a) = Some (f b)) as Hab; [|congruence].
  by rewrite (Hf a), (Hf b) by (rewrite !elem_of_cons; auto).
Qed.

Lemma min_by_elem {A} (leb : A → A → bool) l a : min_by leb l = Some a → a ∈ l.
Proof.
  unfold min_by. assert (∀ best, fold_left (λ best x, match best with
    | Some b => if leb b x then Some b else Some x | None => Some x end) l best = Some a → best = Some a ∨ a ∈ l) as H.
  { induction l as [|x l IH]; intros best; simpl; [by left|]. rewrite elem_of_cons. intros [E|E]%IH; [|by auto].
    destruct best as [b|]; [destruct (leb b x)|]; naive_solver. }
  by intros [?|?]%H.
Qed.
Lemma unlabelled_eq p p' :
  unlabelled p = unlabelled p' → hp_id p = hp_id p' ∧ hp_start_at p = hp_start_at p' ∧ hp_end_at p = hp_end_at p'
    ∧ hp_reset_at p = hp_reset_at p' ∧ hp_current p = hp_current p'.
Proof. by intros [= -> -> -> -> ->]. Qed.

Section document.
Context (authority : HistoryAuthority) (intervals : ReadIntervals) (observed_at history_upper : Z).
Context (samples : list StoredHistorySample).
Local Abbreviation row_keys := (map row_key samples).
Local Abbreviation ranges := (by_reset (fold_left range_step row_keys ∅)).
Local Abbreviation current :=
  (current_reset (ha_history_is_canonical authority) (ha_current_reset_at authority) (map fst ranges)).
Local Abbreviation fallback :=
  (fallback_reset (ha_history_is_canonical authority) (ha_current_reset_at authority) current ranges).
Local Abbreviation raw :=
  (raw_periods row_keys observed_at history_upper (ha_current_reset_at authority) (ha_current_window_reset_at authority)
     (ha_window_seconds authority) (ha_history_is_canonical authority)).
Local Abbreviation clipped :=
  (clip_history_periods intervals (clip_history_periods intervals
     (history_periods_at row_keys observed_at history_upper (ha_current_reset_at authority)
        (ha_current_window_reset_at authority) (ha_window_seconds authority) (ha_history_is_canonical authority)))).
Local Abbreviation periods := (document_periods authority intervals observed_at history_upper samples).

Local Abbreviation unclipped :=
  (history_periods_at row_keys observed_at history_upper (ha_current_reset_at authority)
     (ha_current_window_reset_at authority) (ha_window_seconds authority) (ha_history_is_canonical authority)).
Local Abbreviation bounds :=
  (ha_current_window_reset_at authority ≫= λ reset_at, current_period_bounds reset_at (ha_window_seconds authority) observed_at).
Lemma unclipped_elem p :
  p ∈ unclipped → ∃ reset_at range, range_exact row_keys reset_at range
    ∧ unlabelled p = unlabelled (period_of observed_at history_upper bounds current fallback (reset_at, range)).
Proof.
  intros (p0 & ([r range] & -> & Hin)%list_elem_of_fmap & E)%history_periods_elem. exists r, range. split; [|done].
  apply elem_of_by_reset in Hin. pose proof (range_spec row_keys r) as H. by rewrite Hin in H.
Qed.
Lemma clipped_elem p : p ∈ clipped → ∃ p1 p2, p2 ∈ unclipped
  ∧ clip_period intervals p2 = Some p1 ∧ clip_period intervals p1 = Some p.
Proof. intros (p1 & (p2 & H2 & E2)%elem_of_filter_map & E1)%elem_of_filter_map. by exists p1, p2. Qed.
Lemma clipped_resets : NoDup (map hp_reset_at clipped).
Proof.
  do 2 (eapply filter_map_NoDup_map; [by intros a b (_ & _ & ? & _)%clip_period_Some|]).
  rewrite history_periods_resets. apply by_reset_NoDup.
Qed.
(** A current period is the one of the fallback reset. *)
Lemma period_of_current range :
  hp_current (period_of observed_at history_upper bounds current fallback range) = true → Some range.1 = fallback.
Proof.
  destruct range as [r [lo hi]]. unfold period_of. cbv zeta.
  destruct (if bool_decide _ then _ else _). simpl. intros [H|H]%orb_true_iff; apply bool_decide_eq_true in H; [|done].
  unfold fallback_reset. by rewrite <-H.
Qed.
Lemma period_of_reset range : hp_reset_at (period_of observed_at history_upper bounds current fallback range) = range.1.
Proof. destruct range as [r [lo hi]]. unfold period_of. cbv zeta. by destruct (if bool_decide _ then _ else _). Qed.
Lemma clipped_current p : p ∈ clipped → hp_current p = true → Some (hp_reset_at p) = fallback.
Proof.
  intros (p1 & p2 & H2 & E2 & E1)%clipped_elem Hc.
  apply clip_period_Some in E1 as (_ & _ & R1 & _ & C1 & _). apply clip_period_Some in E2 as (_ & _ & R2 & _ & C2 & _).
  apply unclipped_elem in H2 as (r & range & _ & (_ & _ & _ & Er & Ec)%unlabelled_eq).
  rewrite R1, R2, Er, period_of_reset. apply period_of_current. rewrite <-Ec. auto.
Qed.

(** ** Under a quota receipt *)
Context (q : PublicQuota) (start_at end_at : Z).
Hypothesis Hcanonical : ha_history_is_canonical authority = true.
Hypothesis Hreset : ha_current_reset_at authority = Some (pq_reset_at q).
Hypothesis Hwindow : ha_current_window_reset_at authority = Some (pq_reset_at q).
Hypothesis Hseconds : ha_window_seconds authority = pq_window_seconds q.
(** The receipt is observed within its window. *)
Hypothesis Hbounds : current_period_bounds (pq_reset_at q) (pq_window_seconds q) observed_at = Some (start_at, end_at).
Hypothesis Hrows : ∀ row, row ∈ samples → timestamp_ok (rs_timestamp row) ∧ timestamp_ok (rs_reset_at row).

Lemma bounds_ok : timestamp_ok start_at ∧ timestamp_ok (pq_reset_at q) ∧ start_at ≤ end_at ≤ pq_reset_at q.
Proof.
  revert Hbounds. unfold current_period_bounds. destruct (valid_timestamp observed_at); simpl; [|done].
  intros (s & Hs & H)%bind_Some. unfold then_some in H. destruct (s <=? _) eqn:E; [|done]. injection H as <- <-.
  unfold current_period_start_at in Hs. destruct (valid_timestamp (pq_reset_at q)) eqn:Er; simpl in Hs; [|done].
  destruct (_ <=? 0); [done|]. apply opt_filter_Some in Hs as [_ Hs]. apply timestamp_true in Hs, Er.
  split_and!; [done..|lia|lia].
Qed.
Lemma range_rows reset_at range :
  range_exact row_keys reset_at range → timestamp_ok reset_at ∧ timestamp_ok range.1 ∧ timestamp_ok range.2.
Proof.
  intros ((row & [= -> ->] & Hrow)%list_elem_of_fmap & (row' & [= E ->] & Hrow')%list_elem_of_fmap & _).
  destruct (Hrows _ Hrow). destruct (Hrows _ Hrow'). done.
Qed.
(** A current period is exactly the window of the quota. *)
Lemma unclipped_ok p :
  p ∈ unclipped → hp_id p = i64_to_string (hp_reset_at p) ∧ timestamp_ok (hp_reset_at p) ∧ timestamp_ok (hp_start_at p)
    ∧ hp_end_at p ≤ hp_reset_at p ∧ (hp_current p = true → hp_start_at p = start_at ∧ hp_end_at p = end_at).
Proof.
  intros (r & [lo hi] & (Hr & Hlo & _)%range_rows & (-> & -> & -> & -> & ->)%unlabelled_eq)%unclipped_elem.
  destruct bounds_ok as (Hs & Hq & Hse). simpl in Hlo.
  assert (∀ x, Some x = current → x = pq_reset_at q) as Hcurrent.
  { intros x Hx. symmetry in Hx. unfold current_reset in Hx. rewrite Hreset, Hcanonical in Hx. simpl in Hx.
    apply min_by_elem in Hx. apply elem_of_filter_bool in Hx as [_ Hx]. lia. }
  unfold period_of. cbv zeta. rewrite Hwindow, Hseconds. cbn [mbind option_bind]. rewrite Hbounds. cbn [default].
  case_bool_decide as Hc; simpl.
  - apply Hcurrent in Hc as ->. split_and!; [done..|lia|done].
  - split_and!; [done..|lia|]. intros H%bool_decide_eq_true. exfalso. apply Hc. rewrite H. unfold fallback_reset.
    rewrite Hcanonical, Hreset. simpl. by destruct (min_by _ _).
Qed.
Lemma clipped_ok p :
  p ∈ clipped → period_times p ∧ hp_start_at p ≤ hp_end_at p ≤ hp_reset_at p ∧ hp_id p = i64_to_string (hp_reset_at p).
Proof.
  intros (p1 & p2 & (Eid & Hr & Hs & Hle & _)%unclipped_ok & E2 & E1)%clipped_elem.
  apply clip_period_Some in E1 as (I1 & S1 & R1 & L1 & _ & _). apply clip_period_Some in E2 as (I2 & S2 & R2 & L2 & _ & _).
  unfold period_times, timestamp_ok in *. rewrite I1, I2, R1, R2, S1, S2 in *. split_and!; (done || lia).
Qed.
Lemma clipped_window l p :
  ReadIntervals_new l = Ok intervals → Forall (λ i, is_empty i = false) intervals → contains intervals end_at = true →
  p ∈ clipped → hp_current p = true → hp_start_at p = start_at ∧ hp_end_at p = end_at.
Proof.
  intros Hnew Hne Hown (p1 & p2 & (_ & _ & _ & _ & Hcur)%unclipped_ok & E2 & E1)%clipped_elem Hc.
  apply clip_period_Some in E1 as (_ & S1 & _ & _ & C1 & O1). apply clip_period_Some in E2 as (_ & S2 & _ & _ & C2 & O2).
  destruct (intervals_apart _ _ Hnew Hne) as [Hp Hsorted]. destruct Hcur as [Hs2 He2]; [auto|].
  destruct bounds_ok as (Hs & Hq & Hse). assert (timestamp_ok end_at) as Hte by (unfold timestamp_ok in *; lia).
  assert (∀ p', hp_start_at p' = start_at → hp_end_at p' = end_at → owned_end intervals p' = Some end_at) as Hkept.
  { intros p' Es Ee. rewrite <-Ee. apply owned_end_kept; rewrite ?Es, ?Ee; (done || lia). }
  rewrite (Hkept p2) in O2 by done. injection O2 as O2. rewrite (Hkept p1) in O1 by congruence. injection O1 as O1.
  split; congruence.
Qed.
Lemma document_periods_elem p :
  p ∈ periods → ∃ p0 label, p0 ∈ clipped ∧ p = with_label label p0
    ∧ valid_text label MAX_PUBLIC_HISTORY_LABEL_SCALARS = true.
Proof.
  apply assign_labels_elem.
  - rewrite Hwindow. intros w [= <-]. by destruct bounds_ok as (_ & ? & _).
  - apply Forall_forall. intros p0 Hp. by apply clipped_ok.
Qed.
Lemma document_periods_ok p : p ∈ periods → period_ok p ∧ hp_id p = i64_to_string (hp_reset_at p).
Proof.
  intros (p0 & label & Hin & -> & Hl)%document_periods_elem. destruct (clipped_ok p0 Hin) as ((Hs & He & Hr) & Hle & Hid).
  split; [|done]. unfold period_ok. simpl. split_and!; [|done|..].
  - rewrite Hid. by apply reset_id_valid.
  - unfold timestamp_ok in Hs. lia.
  - lia.
  - lia.
  - unfold timestamp_ok in Hr. lia.
Qed.
Lemma document_resets : NoDup (map hp_reset_at periods).
Proof. unfold document_periods. rewrite assign_labels_map by done. apply clipped_resets. Qed.
End document.

(** C28. Take a canonical history with a quota receipt [q]: the authority's current reset and
    window reset are the receipt's, its window length is the receipt's, and the receipt is
    observed inside its window ([current_period_bounds] gives the window so far). If the
    times and resets of the rows are in the public range, then, whatever else the rows and
    the owned intervals are, the periods of the document satisfy what the contract asks of
    them: each is well formed, ids and resets are distinct, and at most one is current;
    and if the last second of the quota's window so far is owned, by intervals that hold
    some time each, a current period is exactly that window. *)
Theorem document_periods_accepted authority intervals observed_at history_upper samples q start_at end_at :
  ha_history_is_canonical authority = true → ha_current_reset_at authority = Some (pq_reset_at q) →
  ha_current_window_reset_at authority = Some (pq_reset_at q) → ha_window_seconds authority = pq_window_seconds q →
  current_period_bounds (pq_reset_at q) (pq_window_seconds q) observed_at = Some (start_at, end_at) →
  (∀ row, row ∈ samples → timestamp_ok (rs_timestamp row) ∧ timestamp_ok (rs_reset_at row)) →
  let periods := document_periods authority intervals observed_at history_upper samples in
  Forall period_ok periods ∧ NoDup (map hp_id periods) ∧ NoDup (map hp_reset_at periods)
  ∧ (length (List.filter hp_current periods) ≤ 1)%nat
  ∧ (∀ l, ReadIntervals_new l = Ok intervals → Forall (λ i, is_empty i = false) intervals →
      contains intervals end_at = true →
      Forall (λ p, hp_current p = true → current_ok (Some observed_at) (Some q) p) periods).
Proof.
  intros Hc Hr Hw Hs Hb Hrows periods.
  pose proof (document_periods_ok _ intervals _ history_upper _ _ _ _ Hc Hr Hw Hs Hb Hrows) as Hok.
  pose proof (document_resets authority intervals observed_at history_upper samples) as Hnd.
  split_and!; [|  |done| |].
  - apply Forall_forall. intros p Hp. by apply Hok.
  - assert (map hp_id periods = map i64_to_string (map hp_reset_at periods)) as ->.
    { rewrite map_map. apply map_ext_in. intros p Hp%list_elem_of_In. by apply Hok. }
    by apply (NoDup_fmap_2 i64_to_string).
  - eapply one_flagged; [exact Hnd|]. intros p Hp Hcur.
    apply (document_periods_elem _ _ _ _ _ _ _ _ Hc Hr Hw Hs Hb Hrows) in Hp as (p0 & label & Hin & -> & _).
    exact (clipped_current authority intervals observed_at history_upper samples p0 Hin Hcur).
  - intros l Hnew Hne Hown. apply Forall_forall. intros p Hp Hcur. exists observed_at. split; [done|]. rewrite Hb.
    apply (document_periods_elem _ _ _ _ _ _ _ _ Hc Hr Hw Hs Hb Hrows) in Hp as (p0 & label & Hin & -> & _).
    destruct (clipped_window _ _ _ _ _ _ _ _ Hc Hr Hw Hs Hb Hrows l p0 Hnew Hne Hown Hin Hcur) as [Es Ee].
    simpl. by rewrite Es, Ee.
Qed.
