(* ===== verification/DocumentGaps.v ===== *)
(** * The gaps of a document are accepted

    The gaps that [HistoryPeriods] reads from the ledger and places into the periods of a
    document satisfy the clauses of the contract's validator; and no gap of a period is
    left out unless it meets one that is kept. *)

From S2P Require Import Prelude Text Float64 Contract Details Recordings Spans ReadIntervals TaskActivity SqlRow StoredHistory Canonicalize HistoryPeriods PeriodFacts DocumentHistory.

(** ** The order of the gaps *)
Lemma gap_leb_iff a b :
  gap_leb a b = true ↔ hg_reset_at a < hg_reset_at b ∨ hg_reset_at a = hg_reset_at b ∧
    (hg_start_at a < hg_start_at b ∨ hg_start_at a = hg_start_at b ∧
      (hg_end_at a < hg_end_at b ∨ hg_end_at a = hg_end_at b ∧ text_leb (hg_gap_id a) (hg_gap_id b) = true)).
Proof.
  unfold gap_leb, gap_gtb, gap_compare, text_leb.
  destruct (Z.compare_spec (hg_reset_at a) (hg_reset_at b)); simpl; [|split; auto; lia..].
  destruct (Z.compare_spec (hg_start_at a) (hg_start_at b)); simpl; [|split; auto; lia..].
  destruct (Z.compare_spec (hg_end_at a) (hg_end_at b)); simpl; [|split; auto; lia..].
  destruct (text_compare _ _); simpl; split; auto; lia.
Qed.
Lemma gap_leb_total a b : gap_leb a b = true ∨ gap_leb b a = true.
Proof. rewrite !gap_leb_iff. pose proof (text_leb_total (hg_gap_id a) (hg_gap_id b)). lia. Qed.
Lemma gap_leb_trans a b c : gap_leb a b = true → gap_leb b c = true → gap_leb a c = true.
Proof.
  rewrite !gap_leb_iff. pose proof (text_leb_trans (hg_gap_id a) (hg_gap_id b) (hg_gap_id c)).
  intros [?|[? [?|[? [?|[? Hab]]]]]] [?|[? [?|[? [?|[? Hbc]]]]]]; lia || (specialize (H Hab Hbc); lia).
Qed.

(** ** Gaps that meet *)
Lemma StronglySorted_snoc {A} (R : A → A → Prop) l x : StronglySorted R l → Forall (λ y, R y x) l → StronglySorted R (l ++ [x]).
Proof.
  intros Hs. induction Hs as [|y l Hs IH Hy]; simpl; [by repeat constructor|]. intros [Hyx Hl]%Forall_cons.
  constructor; [by apply IH|]. apply Forall_app. split; [done|]. by constructor.
Qed.
Lemma StronglySorted_sublist {A} (R : A → A → Prop) l k : k `sublist_of` l → StronglySorted R l → StronglySorted R k.
Proof.
  induction 1 as [|x k l Hsub IH|x k l Hsub IH]; intros Hs; [done| |].
  - apply StronglySorted_inv in Hs as [Hs Hx]. constructor; [by apply IH|].
    apply Forall_forall. intros y Hy. apply (proj1 (Forall_forall _ _) Hx). by apply (sublist_subseteq _ _ Hsub).
  - apply StronglySorted_inv in Hs as [Hs _]. by apply IH.
Qed.
Lemma last_is_Some_elem {A} (x : A) l : x ∈ l → ∃ front y, l = front ++ [y] ∧ (x ∈ front ∨ x = y).
Proof.
  destruct l as [|y front] using rev_ind; [by intros ?%elem_of_nil|]. intros Hx. exists front, y.
  split; [done|]. by rewrite elem_of_app, list_elem_of_singleton in Hx.
Qed.
Definition apart (g h : PublicHistoryGap) : Prop := hg_reset_at g = hg_reset_at h → hg_end_at g < hg_start_at h.
Definition meets (g h : PublicHistoryGap) : Prop :=
  hg_reset_at g = hg_reset_at h ∧ hg_start_at g ≤ hg_end_at h ∧ hg_start_at h ≤ hg_end_at g.
Lemma keep_gaps_spec l :
  StronglySorted (λ a b, gap_leb a b = true) l → (∀ g, g ∈ l → hg_start_at g ≤ hg_end_at g) →
  let kept := fold_left keep_gap l [] in
  kept `sublist_of` l ∧ StronglySorted apart kept ∧ ∀ g, g ∈ l → g ∈ kept ∨ ∃ h, h ∈ kept ∧ meets g h.
Proof.
  induction l as [|h l IH] using rev_ind; intros Hs Hle; simpl.
  { split_and!; [done|constructor|by intros g ?%elem_of_nil]. }
  apply StronglySorted_app in Hs as (Hlh & Hs & _). rewrite fold_left_app. simpl.
  destruct IH as (Hsub & Hap & Hkept); [done|by intros g Hg; apply Hle, elem_of_app; left|].
  set (kept := fold_left keep_gap l []) in *. assert (∀ g, g ∈ kept → g ∈ l) as Hin by by apply sublist_subseteq.
  assert (∀ g, g ∈ kept → hg_reset_at g = hg_reset_at h → hg_start_at g ≤ hg_start_at h) as Hstart.
  { intros g Hg E. specialize (Hlh g h (Hin g Hg) (list_elem_of_here _ _)). apply gap_leb_iff in Hlh. lia. }
  assert (hg_start_at h ≤ hg_end_at h) as Hh by by (apply Hle, elem_of_app; right; apply list_elem_of_here).
  unfold keep_gap. destruct (is_some_and _ (last kept)) eqn:El.
  - destruct (last kept) as [prev|] eqn:Elast; [|done]. simpl in El. apply last_Some_elem_of in Elast as Hprev.
    split_and!; [by apply sublist_inserts_r|done|]. intros g [Hg| ->%list_elem_of_singleton]%elem_of_app; [by apply Hkept|].
    right. exists prev. split; [done|]. unfold meets. specialize (Hstart prev Hprev). lia.
  - split_and!.
    + by apply sublist_app.
    + apply StronglySorted_snoc; [done|]. apply Forall_forall. intros g Hg E. pose proof (StronglySorted_sublist _ _ _ Hsub Hs) as Hks.
      revert Hap Hks Hin Hg El. clear Hsub Hkept Hstart. generalize kept. clear kept. intros kept Hap Hks Hin Hg El.
      apply last_is_Some_elem in Hg as (front & prev & -> & Hg). rewrite last_snoc in El. simpl in El.
      apply StronglySorted_app in Hap as (Hfp & _ & _). apply StronglySorted_app in Hks as (Hks & _ & _).
      assert (prev ∈ front ++ [prev]) as Hprev by (apply elem_of_app; right; apply list_elem_of_here).
      assert (hg_start_at prev ≤ hg_end_at prev) as Hpp by by (apply Hle, elem_of_app; left; apply Hin).
      pose proof (Hlh _ _ (Hin prev Hprev) (list_elem_of_here _ _)) as H1. apply gap_leb_iff in H1.
      destruct Hg as [Hg| ->]; [|lia]. specialize (Hfp g prev Hg (list_elem_of_here _ _)). unfold apart in Hfp.
      specialize (Hks g prev Hg (list_elem_of_here _ _)). apply gap_leb_iff in Hks.
      lia.
    + intros g [Hg| ->%list_elem_of_singleton]%elem_of_app; setoid_rewrite elem_of_app.
      * destruct (Hkept g Hg) as [?|(k & ? & ?)]; [by auto|]. right. exists k. auto.
      * left. right. apply list_elem_of_here.
Qed.

(** ** The ledger *)
Lemma valid_public_timestamp_ok t : valid_public_timestamp t = true ↔ timestamp_ok t.
Proof. unfold valid_public_timestamp, timestamp_ok, Contract.MAX_PUBLIC_UNIX_SECONDS. lia. Qed.
Lemma gaps_read rows gaps ids :
  fold_result gap_step ([], ∅) rows = Ok (gaps, ids) →
  NoDup (map hg_gap_id gaps) ∧ ∀ g, g ∈ gaps → gap_ok g ∧ ∃ row, row ∈ rows ∧ gap_of row = Some g.
Proof.
  intros H. cut ((∀ id, id ∈ ids ↔ id ∈ map hg_gap_id gaps) ∧ NoDup (map hg_gap_id gaps)
    ∧ ∀ g, g ∈ gaps → gap_ok g ∧ ∃ row, row ∈ rows ∧ gap_of row = Some g); [tauto|].
  revert H. apply (fold_result_ind (λ pre s, (∀ id, id ∈ s.2 ↔ id ∈ map hg_gap_id s.1) ∧ NoDup (map hg_gap_id s.1)
    ∧ ∀ g, g ∈ s.1 → gap_ok g ∧ ∃ row, row ∈ pre ∧ gap_of row = Some g) gap_step rows ([], ∅) (gaps, ids)).
  { simpl. split_and!; [intros id; by rewrite elem_of_nil, elem_of_empty|constructor|by intros g ?%elem_of_nil]. }
  intros pre row [gaps' ids'] s' _ (Hids & Hnd & Hg) Hstep. simpl in *. unfold gap_step in Hstep. inv_ok.
  rename x into gap.
  assert (∀ g, g ∈ gaps' → gap_ok g ∧ ∃ row', row' ∈ pre ++ [row] ∧ gap_of row' = Some g) as Hg'.
  { intros g (Hok & row' & Hrow' & E)%Hg. split; [done|]. exists row'. split; [apply elem_of_app; by left|done]. }
  destruct (_ || _) eqn:Ev; [by injection Hstep as <-|]. case_bool_decide as Hin; injection Hstep as <-; [done|].
  simpl. rewrite !orb_false_iff, !negb_false_iff in Ev. destruct Ev as (((((Hid & Hreason) & Hr) & Hs) & He) & Hse).
  split_and!.
  - intros id. rewrite map_app. simpl. rewrite elem_of_union, elem_of_app, elem_of_singleton, list_elem_of_singleton, Hids.
    tauto.
  - rewrite map_app. apply NoDup_app. split_and!; [done| |apply NoDup_singleton].
    intros id Hid' ->%list_elem_of_singleton. by apply Hin, Hids.
  - intros g [?| ->%list_elem_of_singleton]%elem_of_app; [by apply Hg'|]. split.
    + apply valid_public_timestamp_ok in Hr, Hs, He. unfold gap_ok. apply is_any_true in Hreason. split_and!; (done || lia).
    + exists row. split; [apply elem_of_app; right; apply list_elem_of_here|done].
Qed.
(** The documented behaviour of the query: rows outside its two bounds are not returned. *)
Definition answers_ledger (ledger : option (Z → Z → list Row)) : Prop :=
  ∀ query lower upper row gap, ledger = Some query → row ∈ query lower upper → gap_of row = Some gap →
    lower ≤ hg_end_at gap ∧ hg_start_at gap ≤ upper.
Definition window_ok (window : option PublicationWindow) : Prop :=
  ∀ w, window = Some w → timestamp_ok (pw_at w) ∧ pw_retained_start w ≤ pw_at w.
Lemma confirmed_ok ledger intervals window gaps :
  answers_ledger ledger → window_ok window → read_confirmed_gaps_for_intervals ledger intervals window = Ok gaps →
  NoDup (map hg_gap_id gaps) ∧ Forall gap_ok gaps.
Proof.
  intros Hledger Hw H. unfold read_confirmed_gaps_for_intervals in H. inv_ok. subst. rename x into read.
  assert (NoDup (map hg_gap_id read) ∧ ∀ g, g ∈ read → gap_ok g
    ∧ (∀ w, window = Some w → pw_retained_start w ≤ hg_end_at g ∧ hg_start_at g ≤ pw_at w)) as [Hnd Hok].
  { match goal with Hr : read_confirmed_gaps _ _ = Ok _ |- _ => unfold read_confirmed_gaps in Hr; rename Hr into Hread end.
    destruct ledger as [query|]; [|injection Hread as <-; split; [constructor|by intros g ?%elem_of_nil]].
    destruct (from_option _ _ window) as [lower upper] eqn:Ebounds.
    destruct (fold_result _ _ _) as [[gaps ids]|] eqn:Ef; [|done]. injection Hread as <-.
    apply gaps_read in Ef as [Hnd Hg]. split; [done|]. intros g (Hok & row & Hrow & E)%Hg. split; [done|].
    intros w ->. simpl in Ebounds. injection Ebounds as <- <-. by apply (Hledger _ _ _ _ _ eq_refl Hrow). }
  split.
  - assert (∀ l, map hg_gap_id (map (clip_gap window) l) = map hg_gap_id l) as ->.
    { intros l. rewrite map_map. apply map_ext. intros g. by destruct window. }
    by apply filter_NoDup_map.
  - apply Forall_forall. intros g (g0 & -> & [Hg _]%elem_of_filter_bool)%list_elem_of_fmap.
    destruct (Hok g0 Hg) as [(Hid & Hr & Hs & He & Hse & Hreason) Hin]. destruct window as [w|]; [|done].
    destruct (Hw w eq_refl) as [Hat Hret]. specialize (Hin w eq_refl). unfold clip_gap, gap_ok, timestamp_ok in *. simpl.
    split_and!; (done || lia).
Qed.

(** ** The periods of the gaps *)
Lemma place_gap_Some periods g g' :
  place_gap periods g = Some g' → hg_gap_id g' = hg_gap_id g ∧ hg_start_at g' = hg_start_at g
    ∧ hg_end_at g' = hg_end_at g ∧ hg_reason g' = hg_reason g
    ∧ ∃ p, p ∈ periods ∧ hg_reset_at g' = hp_reset_at p ∧ hp_start_at p ≤ hg_start_at g' ∧ hg_end_at g' ≤ hp_end_at p.
Proof.
  unfold place_gap. intros (p & [Hp Hin]%find_some & H)%bind_Some. injection H as <-. simpl. split_and!; [done..|].
  exists p. apply list_elem_of_In in Hp. split_and!; (done || lia).
Qed.
Lemma only_one_keyed {A} (f : A → Z) (P : A → Prop) l x :
  NoDup (map f l) → x ∈ l → P x → (∀ y, y ∈ l → P y → f y = f x) → only_one P l x.
Proof.
  intros Hnd (before & after & ->)%list_elem_of_split Hx Hy. exists before, after. split_and!; [done..|].
  apply Forall_forall. intros y Hin HP. rewrite map_app in Hnd. simpl in Hnd.
  assert (f y = f x) as E. { apply Hy; [|done]. rewrite elem_of_app, elem_of_cons. apply elem_of_app in Hin. tauto. }
  apply NoDup_app in Hnd as (_ & Hd & [Hn _]%NoDup_cons). apply elem_of_app in Hin as [Hin|Hin].
  - apply (Hd (f y)); [by apply list_elem_of_fmap_2|]. rewrite E. apply list_elem_of_here.
  - apply Hn. rewrite <-E. by apply list_elem_of_fmap_2.
Qed.
Section selection.
Context (periods : list PublicHistoryPeriod) (confirmed : list PublicHistoryGap).
Hypothesis Hresets : NoDup (map hp_reset_at periods).
Hypothesis Hids : ∀ p, p ∈ periods → hp_id p = i64_to_string (hp_reset_at p).
Hypothesis Hperiods : Forall period_ok periods.
Hypothesis Hconfirmed : Forall gap_ok confirmed.
Local Abbreviation placed := (sort_by gap_leb (filter_map (place_gap periods) confirmed)).
Lemma placed_ok g : g ∈ placed → gap_ok g ∧ ∃ p, p ∈ periods ∧ hg_reset_at g = hp_reset_at p
  ∧ hp_start_at p ≤ hg_start_at g ∧ hg_end_at g ≤ hp_end_at p.
Proof.
  rewrite sort_by_elem. intros (g0 & Hg0 & (Eid & Es & Ee & Er & p & Hp & Hr & Hin)%place_gap_Some)%elem_of_filter_map.
  split; [|by exists p]. destruct (proj1 (Forall_forall _ _) Hconfirmed g0 Hg0) as (? & ? & ? & ? & ? & ?).
  destruct (proj1 (Forall_forall _ _) Hperiods p Hp) as (_ & _ & ? & ?).
  unfold gap_ok, timestamp_ok, Contract.MAX_PUBLIC_UNIX_SECONDS in *. rewrite Eid, Es, Ee, Er, Hr. split_and!; (done || lia).
Qed.
Lemma gap_host g p : g ∈ placed → p ∈ periods → gap_fits periods g p ↔
  hg_reset_at g = hp_reset_at p ∧ hp_start_at p ≤ hg_start_at g ∧ hg_end_at g ≤ hp_end_at p.
Proof.
  intros (_ & q & Hq & Er & _)%placed_ok Hp. unfold gap_fits, stands_for. split; [|by intros [? ?]; split; [left|]].
  intros [[?|[Hn _]] ?]; [done|]. exfalso. apply Hn. rewrite Er. by apply list_elem_of_fmap_2.
Qed.
Lemma select_gaps_ok :
  let gaps := select_gaps periods confirmed in
  Forall gap_ok gaps ∧ Forall (λ g, ∃ p, only_one (gap_fits periods g) periods p) gaps
  ∧ StronglySorted (gaps_apart periods) gaps ∧ Sorted (λ g h, gap_compare g h ≠ Gt) gaps
  ∧ gaps `sublist_of` placed
  ∧ ∀ g, g ∈ confirmed → ∀ g', place_gap periods g = Some g' → g' ∈ gaps ∨ ∃ h, h ∈ gaps ∧ meets g' h.
Proof.
  intros gaps. pose proof (sort_by_sorted gap_leb gap_leb_total gap_leb_trans (filter_map (place_gap periods) confirmed)) as Hs.
  destruct (keep_gaps_spec placed Hs) as (Hsub & Hap & Hkept).
  { intros g ((_ & _ & _ & _ & ? & _) & _)%placed_ok. done. }
  fold (select_gaps periods confirmed) in Hsub, Hap, Hkept. fold gaps in Hsub, Hap, Hkept.
  assert (∀ g, g ∈ gaps → g ∈ placed) as Hin by by apply sublist_subseteq.
  assert (∀ g p, g ∈ gaps → only_one (gap_fits periods g) periods p → hg_reset_at g = hp_reset_at p ∧ p ∈ periods) as Hhost.
  { intros g p Hg [Hp Hfit]%only_one_fits. by apply gap_host in Hfit as [? _]; [|apply Hin|]. }
  split_and!; [| | | |done|].
  - apply Forall_forall. intros g Hg. by apply placed_ok, Hin.
  - apply Forall_forall. intros g Hg. destruct (placed_ok g (Hin g Hg)) as (_ & p & Hp & Er & Hse). exists p.
    apply (only_one_keyed hp_reset_at); [done..| |].
    + apply gap_host; [by apply Hin|done|by split].
    + intros y Hy Hfit. apply gap_host in Hfit as [? _]; [|by apply Hin|done]. congruence.
  - clear Hsub. revert Hap. assert (∀ g, g ∈ gaps → g ∈ gaps) as Hself by done. revert Hself. generalize gaps at 1 3 4.
    intros l Hl Hap. induction Hap as [|g l Hap IH Hg]; [constructor|].
    constructor; [apply IH; intros h Hh; by apply Hl, list_elem_of_further|]. apply Forall_forall. intros h Hh p q Hp Hq E.
    left. apply (proj1 (Forall_forall _ _) Hg h Hh).
    apply Hhost in Hp as [-> Hp]; [|apply Hl, list_elem_of_here]. apply Hhost in Hq as [-> Hq]; [|by apply Hl, list_elem_of_further].
    rewrite (Hids p Hp), (Hids q Hq) in E. by apply i64_to_string_inj.
  - apply StronglySorted_Sorted. apply (StronglySorted_weaken (λ a b, gap_leb a b = true)).
    + intros a b. unfold gap_leb, gap_gtb. by destruct (gap_compare a b).
    + by eapply StronglySorted_sublist.
  - intros g Hg g' Hg'. apply Hkept. rewrite sort_by_elem. apply elem_of_filter_map. by exists g.
Qed.
End selection.

(** C29. Take a canonical history with a quota receipt [q] (the authority's current reset,
    window reset and window length are the receipt's, and the receipt is observed inside
    its window), rows whose times and resets are in the public range, a publication window
    in order, and a ledger whose query returns no gap outside the bounds it is given. Then
    the gaps of the document, when it has them, satisfy what the contract asks of them:
    each is well formed, ids are distinct, each lies in exactly one period, gaps of one
    period do not meet, and they are in order. And no confirmed gap that lies in a period
    is lost: it is published, or meets a published gap of its period. *)
Theorem document_gaps_accepted authority intervals ledger observed_at history_upper samples q start_at end_at gaps :
  ha_history_is_canonical authority = true → ha_current_reset_at authority = Some (pq_reset_at q) →
  ha_current_window_reset_at authority = Some (pq_reset_at q) → ha_window_seconds authority = pq_window_seconds q →
  current_period_bounds (pq_reset_at q) (pq_window_seconds q) observed_at = Some (start_at, end_at) →
  (∀ row, row ∈ samples → timestamp_ok (rs_timestamp row) ∧ timestamp_ok (rs_reset_at row)) →
  answers_ledger ledger → window_ok (ha_window authority) →
  document_gaps authority intervals ledger observed_at history_upper samples = Ok gaps →
  let periods := document_periods authority intervals observed_at history_upper samples in
  (Forall gap_ok gaps ∧ NoDup (map hg_gap_id gaps)
   ∧ Forall (λ g, ∃ p, only_one (gap_fits periods g) periods p) gaps
   ∧ StronglySorted (gaps_apart periods) gaps ∧ Sorted (λ g h, gap_compare g h ≠ Gt) gaps)
  ∧ ∃ confirmed, read_confirmed_gaps_for_intervals ledger intervals (ha_window authority) = Ok confirmed
      ∧ ∀ g, g ∈ confirmed → ∀ g', place_gap periods g = Some g' → g' ∈ gaps ∨ ∃ h, h ∈ gaps ∧ meets g' h.
Proof.
  intros Hc Hr Hw Hs Hb Hrows Hledger Hwindow Hgaps periods. unfold document_gaps in Hgaps.
  apply bind_Ok in Hgaps as (confirmed & Hread & Hgaps). injection Hgaps as <-.
  destruct (confirmed_ok _ _ _ _ Hledger Hwindow Hread) as [Hnd Hok].
  pose proof (document_periods_ok _ intervals _ history_upper _ _ _ _ Hc Hr Hw Hs Hb Hrows) as Hperiods.
  pose proof (document_resets authority intervals observed_at history_upper samples) as Hresets.
  destruct (select_gaps_ok periods confirmed Hresets (λ p Hp, proj2 (Hperiods p Hp))) as (? & ? & ? & ? & Hsub & ?).
  { apply Forall_forall. intros p Hp. by apply Hperiods. }
  { done. }
  split; [|by exists confirmed]. split_and!; [done| |done..].
  eapply sublist_NoDup; [|apply (fmap_sublist hg_gap_id); exact Hsub]. rewrite (sort_by_perm _ _).
  refine (filter_map_NoDup_map _ hg_gap_id hg_gap_id _ _ Hnd). intros a b Hab. by apply place_gap_Some in Hab as [? _].
Qed.

(** *** Rows of two periods, an interval that starts inside the first, and four gaps *)
Definition example_row (timestamp reset : Z) : StoredHistorySample := {|
  rs_timestamp := timestamp; rs_reset_at := reset; rs_remaining_percent := Some f64_zero;
  rs_sol_dollars := None; rs_terra_dollars := None; rs_luna_dollars := None; rs_sol_tokens := None;
  rs_terra_tokens := None; rs_luna_tokens := None |}.
Definition example_rows : list StoredHistorySample :=
  [example_row 6000 90000; example_row 6600 90000; example_row 90600 190000; example_row 93600 190000].
Definition example_quota : PublicQuota := {|
  pq_remaining_percent := f64_zero; pq_reset_at := 190000; pq_window_seconds := 100000; pq_monthly := false |}.
Definition example_authority : HistoryAuthority := {|
  ha_current_reset_at := Some 190000; ha_current_window_reset_at := Some 190000; ha_window_seconds := 100000;
  ha_history_is_canonical := true; ha_window := Some {| pw_at := 100000; pw_retained_start := 5000 |} |}.
Definition example_owned : ReadIntervals := [{| ri_start_at := Some 6100; ri_end_at := None |}].
Definition example_gap (digit : Z) (reset start_at end_at : Z) : Row := [
  SqlText (replicate 32 digit); SqlInteger reset; SqlInteger start_at; SqlInteger end_at;
  SqlText (lit "reset_hint_expired")].
Definition example_table : list Row := [
  example_gap 49 189990 90200 90300; example_gap 50 190000 90250 90400; example_gap 51 90000 6200 6500;
  example_gap 52 90000 100 200].
Definition example_query (lower upper : Z) : list Row :=
  List.filter (λ row, is_some_and (λ gap, (lower <=? hg_end_at gap) && (hg_start_at gap <=? upper)) (gap_of row))
    example_table.
Definition example_ledger : option (Z → Z → list Row) := Some example_query.
Definition example_document : result ReaderError (list PublicHistoryGap) :=
  document_gaps example_authority example_owned example_ledger 95000 95000 example_rows.
Definition example_gaps : list PublicHistoryGap := default [] (result_ok example_document).
Definition example_periods : list PublicHistoryPeriod :=
  document_periods example_authority example_owned 95000 95000 example_rows.
Example example_period_list :
  map (λ p, (hp_start_at p, hp_end_at p, hp_reset_at p, hp_current p)) example_periods
  = [(90000, 95000, 190000, true); (6000, 6600, 90000, false)]
  ∧ map hp_label example_periods = [lit "1970/01/02 10:00:00 +09:00 ～ 1970/01/03 13:46:40 +09:00（現在）";
      lit "1970/01/01 10:40:00 +09:00 ～ 1970/01/01 10:50:00 +09:00"].
Proof. by vm_compute. Qed.
Example example_gap_list :
  map (λ g, (hg_reset_at g, hg_start_at g, hg_end_at g)) example_gaps = [(90000, 6200, 6500); (190000, 90200, 90300)].
Proof. by vm_compute. Qed.
Lemma example_rows_ok row : row ∈ example_rows → timestamp_ok (rs_timestamp row) ∧ timestamp_ok (rs_reset_at row).
Proof. revert row. apply Forall_forall. repeat constructor; by vm_compute. Qed.
Lemma example_ledger_ok : answers_ledger example_ledger.
Proof.
  intros query lower upper row gap Hq. injection Hq as <-. unfold example_query. generalize example_table.
  intros table [_ H]%elem_of_filter_bool E. rewrite E in H. simpl in H. lia.
Qed.
Lemma example_window_ok : window_ok (ha_window example_authority).
Proof. intros w [= <-]. by vm_compute. Qed.
Lemma document_periods_accepted_witness :
  Forall period_ok example_periods ∧ NoDup (map hp_id example_periods) ∧ NoDup (map hp_reset_at example_periods)
  ∧ (length (List.filter hp_current example_periods) ≤ 1)%nat
  ∧ (∀ l, ReadIntervals_new l = Ok example_owned → Forall (λ i, is_empty i = false) example_owned →
      contains example_owned 95000 = true →
      Forall (λ p, hp_current p = true → current_ok (Some 95000) (Some example_quota) p) example_periods).
Proof.
  refine (document_periods_accepted example_authority example_owned 95000 95000 example_rows example_quota 90000 95000
    _ _ _ _ _ example_rows_ok); by vm_compute.
Defined.
Lemma document_gaps_accepted_witness :
  (Forall gap_ok example_gaps ∧ NoDup (map hg_gap_id example_gaps)
   ∧ Forall (λ g, ∃ p, only_one (gap_fits example_periods g) example_periods p) example_gaps
   ∧ StronglySorted (gaps_apart example_periods) example_gaps ∧ Sorted (λ g h, gap_compare g h ≠ Gt) example_gaps)
  ∧ ∃ confirmed,
      read_confirmed_gaps_for_intervals example_ledger example_owned (ha_window example_authority) = Ok confirmed
      ∧ ∀ g, g ∈ confirmed → ∀ g', place_gap example_periods g = Some g' →
          g' ∈ example_gaps ∨ ∃ h, h ∈ example_gaps ∧ meets g' h.
Proof.
  refine (document_gaps_accepted example_authority example_owned example_ledger 95000 95000 example_rows example_quota
    90000 95000 example_gaps _ _ _ _ _ example_rows_ok example_ledger_ok example_window_ok _); by vm_compute.
Defined.
