(* ===== verification/GapLedger.v ===== *)
(** * The recorder's gap ledger

    Models the gap ledger of [crates/codex-info-db-writer/src/lib.rs]: the value
    checks of a [RecorderGap], its row in the table [recorder_gap_ledger] with the
    constraints of its schema, the only permitted state changes ([begin_recorder_gap],
    [recover_recorder_gap], [confirm_recorder_gap], [transition_recorder_gap]), the
    reconciliation of the pending intervals with one source rescan
    ([reconcile_pending_recorder_gaps]) and the two loaders. A ledger is the table
    under its current schema, a finite map from the primary key to the row; an
    operation that returns an error rolls its transaction back. *)

From S2P Require Import Prelude Text Contract SourceAdmission.

(** ** Errors of the store (those these functions return) *)
Inductive SqliteError := InvalidQuery | ConstraintViolation.
Inductive UsageStoreError :=
  | Sqlite (error : SqliteError)
  | InvalidImport (message : text)
  | GenerationOverflow.
Abbreviation store_result := (result UsageStoreError).
Definition invalid {A} (message : string) : store_result A := Err (InvalidImport (lit message)).
Arguments invalid {A} message%_string_scope.

(** ** Values *)
Definition GAP_LEDGER_REASONS : list text :=
  map lit ["daemon_stop_unrecoverable"; "reset_hint_expired"; "auth_epoch_tombstoned"].
Definition GAP_LEDGER_STATES : list text := map lit ["pending"; "confirmed"; "recovered"; "rejected"].
Definition RECORDER_GAP_ID_BYTES : Z := 16.
Definition RECORDER_GAP_TEXT_BYTES : Z := 512.
Definition MAX_RECORDER_GAP_SOURCE_MINUTES : Z := 31 * 24 * 60.
Definition UNRESOLVED : text := lit "unresolved".

Record RecorderGap := {
  rg_gap_id : text;
  rg_partition_id : text;
  rg_source_identity_before : text;
  rg_source_identity_after : text;
  rg_cursor_before : text;
  rg_cursor_after : text;
  rg_stopped_at_monotonic_ns : Z;
  rg_resumed_at_monotonic_ns : option Z;
  rg_start_at : Z;
  rg_end_at : Z;
  rg_reset_at : option Z;
  rg_reason : text;
  rg_state : text;
  rg_owner_collector_epoch : Z;
  rg_confirmation_cycle_seq : Z
}.
#[export] Instance RecorderGap_eq_dec : EqDecision RecorderGap.
Proof. solve_decision. Defined.

Definition validate_lower_hex (value : text) (bytes : Z) (field : string) : store_result () :=
  if negb (lower_hex value bytes)
  then Err (InvalidImport (lit field ++ lit " is not canonical lower hexadecimal")) else Ok ().
Arguments validate_lower_hex value bytes field%_string_scope.
Definition is_ascii_control (c : Z) : bool := in_range 0 31 c || (c =? 127).
Definition validate_gap_text (value : text) (field : string) : store_result () :=
  if bool_decide (value = []) || (RECORDER_GAP_TEXT_BYTES <? str_len value)
     || negb (is_ascii value) || existsb is_ascii_control value
  then Err (InvalidImport (lit field ++ lit " is invalid")) else Ok ().
Arguments validate_gap_text value field%_string_scope.

Definition validate_recorder_gap (gap : RecorderGap) (expected_partition_id : option text) :
    store_result () :=
  _ ← validate_lower_hex (rg_gap_id gap) RECORDER_GAP_ID_BYTES "gap_id";
  _ ← validate_lower_hex (rg_partition_id gap) 32 "partition_id";
  if is_some_and (λ expected, negb (text_eqb expected (rg_partition_id gap))) expected_partition_id
  then invalid "recorder gap partition identity mismatch"
  else
  _ ← validate_gap_text (rg_source_identity_before gap) "source_identity_before";
  _ ← validate_gap_text (rg_source_identity_after gap) "source_identity_after";
  _ ← validate_gap_text (rg_cursor_before gap) "cursor_before";
  _ ← validate_gap_text (rg_cursor_after gap) "cursor_after";
  if (rg_stopped_at_monotonic_ns gap =? 0)
     || is_some_and (λ resumed, resumed <? rg_stopped_at_monotonic_ns gap)
          (rg_resumed_at_monotonic_ns gap)
     || (rg_start_at gap <=? 0)
     || (rg_end_at gap <? rg_start_at gap)
     || is_some_and (λ reset, reset <=? 0) (rg_reset_at gap)
     || negb (bool_decide (rg_reason gap ∈ GAP_LEDGER_REASONS))
     || negb (bool_decide (rg_state gap ∈ GAP_LEDGER_STATES))
     || (rg_owner_collector_epoch gap =? 0)
     || (rg_confirmation_cycle_seq gap =? 0)
  then invalid "recorder gap bounds or state are invalid"
  else Ok ().

Definition validate_gap_repair_proof (gap : RecorderGap) : store_result () :=
  if negb (opt_is_some (rg_resumed_at_monotonic_ns gap))
     || text_eqb (rg_source_identity_after gap) UNRESOLVED
     || text_eqb (rg_cursor_after gap) UNRESOLVED
     || is_none_or (λ reset_at, reset_at <? rg_end_at gap) (rg_reset_at gap)
  then invalid "recorder gap terminal transition lacks source proof"
  else Ok ().

(** One source rescan: the arguments of [reconcile_pending_recorder_gaps]. *)
Record SourceRescan := {
  sr_source_identity_after : text;
  sr_cursor_after : text;
  sr_resumed_at_monotonic_ns : Z;
  sr_reset_at : Z;
  sr_owner_collector_epoch : Z;
  sr_confirmation_cycle_seq : Z;
  sr_source_minutes : list Z;
  sr_source_closed : bool
}.
(** The loop over the minutes, with the minute before. *)
Fixpoint check_source_minutes (previous : option Z) (minutes : list Z) : store_result () :=
  match minutes with
  | [] => Ok ()
  | minute :: rest =>
      if (minute <=? 0) || negb (minute mod 60 =? 0)
      then invalid "recorder source proof minute is not canonical"
      else if is_some_and (λ previous, minute <=? previous) previous
      then invalid "recorder source proof minutes are not unique and sorted"
      else check_source_minutes (Some minute) rest
  end.
Definition validate_recorder_source_rescan (scan : SourceRescan) : store_result () :=
  _ ← validate_gap_text (sr_source_identity_after scan) "source_identity_after";
  _ ← validate_gap_text (sr_cursor_after scan) "cursor_after";
  if text_eqb (sr_source_identity_after scan) UNRESOLVED || text_eqb (sr_cursor_after scan) UNRESOLVED
  then invalid "recorder source proof is unresolved"
  else if (sr_resumed_at_monotonic_ns scan =? 0) || (sr_reset_at scan <=? 0)
     || (sr_owner_collector_epoch scan =? 0) || (sr_confirmation_cycle_seq scan =? 0)
     || (MAX_RECORDER_GAP_SOURCE_MINUTES <? Z.of_nat (length (sr_source_minutes scan)))
  then invalid "recorder source proof bounds are invalid"
  else check_source_minutes None (sr_source_minutes scan).

Definition i64_checked_add (a b : Z) : option Z :=
  if in_range i64_min i64_max (a + b) then Some (a + b) else None.
(** The first and the last minute start a source has to show for the gap. *)
Definition gap_expected_source_minutes (gap : RecorderGap) : option (Z * Z) :=
  next ← i64_checked_add (rg_start_at gap / 60) 1;
  first ← i64_checked_mul next 60;
  last ← i64_checked_mul (rg_end_at gap / 60) 60;
  then_some (first <=? last) (first, last).
(** [minutes[start..start + required]], when the slice has them all. *)
Definition get_slice {A} (l : list A) (start required : nat) : option (list A) :=
  if (start + required <=? length l)%nat then Some (take required (drop start l)) else None.
Fixpoint consecutive_minutes (expected : Z) (minutes : list Z) : bool :=
  match minutes with
  | [] => true
  | minute :: rest => (minute =? expected) && consecutive_minutes (expected + 60) rest
  end.
Definition source_minutes_cover_gap (gap : RecorderGap) (source_minutes : list Z) : bool :=
  match gap_expected_source_minutes gap with
  | None => false
  | Some (first, last) =>
      let required := (last - first) / 60 + 1 in
      if (required =? 0) || (MAX_RECORDER_GAP_SOURCE_MINUTES <? required) then false
      else
        let start_index := partition_point (λ minute, minute <? first) source_minutes in
        is_some_and (consecutive_minutes first)
          (get_slice source_minutes start_index (Z.to_nat required))
  end.
Definition source_minutes_overlap_gap (gap : RecorderGap) (source_minutes : list Z) : bool :=
  existsb (λ minute, (rg_start_at gap <=? minute) && (minute <=? rg_end_at gap)) source_minutes.

(** ** The table [recorder_gap_ledger] *)
Record GapRow := {
  gr_gap_id : text;
  gr_partition_id : text;
  gr_source_identity_before : text;
  gr_source_identity_after : text;
  gr_cursor_before : text;
  gr_cursor_after : text;
  gr_stopped_at_monotonic_ns : Z;
  gr_resumed_at_monotonic_ns : option Z;
  gr_start_at : Z;
  gr_end_at : Z;
  gr_reset_at : option Z;
  gr_reason : text;
  gr_state : text;
  gr_owner_collector_epoch : text;
  gr_confirmation_cycle_seq : text
}.
Abbreviation Ledger := (gmap text GapRow).

(** SQLite's [length] of a text counts the characters before a NUL; [GLOB '*[^..]*']
    asks for a character outside the class. *)
Fixpoint sql_length (s : text) : Z :=
  match s with [] => 0 | c :: s' => if c =? 0 then 0 else 1 + sql_length s' end.
Definition sql_length_between (s : text) (lo hi : Z) : bool := in_range lo hi (sql_length s).
(** The [CHECK] constraints of the schema. *)
Definition gap_row_checks (row : GapRow) : bool :=
  (sql_length (gr_gap_id row) =? 32) && forallb is_lower_hex (gr_gap_id row)
  && (sql_length (gr_partition_id row) =? 64) && forallb is_lower_hex (gr_partition_id row)
  && sql_length_between (gr_source_identity_before row) 1 512
  && sql_length_between (gr_source_identity_after row) 1 512
  && sql_length_between (gr_cursor_before row) 1 512
  && sql_length_between (gr_cursor_after row) 1 512
  && (0 <? gr_stopped_at_monotonic_ns row)
  && is_none_or (λ resumed, gr_stopped_at_monotonic_ns row <=? resumed) (gr_resumed_at_monotonic_ns row)
  && (0 <? gr_start_at row) && (gr_start_at row <=? gr_end_at row)
  && is_none_or (λ reset, 0 <? reset) (gr_reset_at row)
  && is_any (gr_reason row) ["daemon_stop_unrecoverable"; "reset_hint_expired"; "auth_epoch_tombstoned"]
  && is_any (gr_state row) ["pending"; "confirmed"; "recovered"; "rejected"]
  && (sql_length (gr_owner_collector_epoch row) =? 32)
  && forallb is_lower_hex (gr_owner_collector_epoch row)
  && sql_length_between (gr_confirmation_cycle_seq row) 1 20
  && forallb is_ascii_digit (gr_confirmation_cycle_seq row).

(** [u128::from_str_radix(text, 16)]: digits of either case after an optional plus sign. *)
Definition hex_digit_of (c : Z) : option Z :=
  if is_ascii_digit c then Some (c - 48)
  else if in_range 97 102 c then Some (c - 87)
  else if in_range 65 70 c then Some (c - 55)
  else None.
Fixpoint parse_hex_digits (max acc : Z) (s : text) : option Z :=
  match s with
  | [] => Some acc
  | c :: s' =>
      digit ← hex_digit_of c;
      if acc * 16 + digit <=? max then parse_hex_digits max (acc * 16 + digit) s' else None
  end.
Definition from_str_radix_16 (max : Z) (s : text) : option Z :=
  match s with
  | [] => None
  | c :: s' =>
      if c =? 43 then match s' with [] => None | _ => parse_hex_digits max 0 s' end
      else parse_hex_digits max 0 s
  end.

(** [Option<Result<..>>::transpose] *)
Definition transpose {A} (o : option (store_result A)) : store_result (option A) :=
  match o with None => Ok None | Some (Ok a) => Ok (Some a) | Some (Err e) => Err e end.
Definition u64_from_sql (value : Z) : store_result Z := ok_or (u64_try_from value) (Sqlite InvalidQuery).
Definition recorder_gap_from_row (row : GapRow) : store_result RecorderGap :=
  stopped ← u64_from_sql (gr_stopped_at_monotonic_ns row);
  resumed ← transpose (u64_from_sql <$> gr_resumed_at_monotonic_ns row);
  epoch ← ok_or (from_str_radix_16 u128_max (gr_owner_collector_epoch row)) (Sqlite InvalidQuery);
  seq ← ok_or (opt_filter (λ value, text_eqb (to_dec value) (gr_confirmation_cycle_seq row))
                 (parse_unsigned u64_max (gr_confirmation_cycle_seq row))) (Sqlite InvalidQuery);
  Ok {| rg_gap_id := gr_gap_id row; rg_partition_id := gr_partition_id row;
        rg_source_identity_before := gr_source_identity_before row;
        rg_source_identity_after := gr_source_identity_after row;
        rg_cursor_before := gr_cursor_before row; rg_cursor_after := gr_cursor_after row;
        rg_stopped_at_monotonic_ns := stopped; rg_resumed_at_monotonic_ns := resumed;
        rg_start_at := gr_start_at row; rg_end_at := gr_end_at row; rg_reset_at := gr_reset_at row;
        rg_reason := gr_reason row; rg_state := gr_state row;
        rg_owner_collector_epoch := epoch; rg_confirmation_cycle_seq := seq |}.

(** [i64::try_from] of the unsigned clock, and the parameters of the [INSERT]. *)
Definition monotonic_to_sql (value : Z) : store_result Z :=
  ok_or (opt_filter (in_range 0 i64_max) (Some value))
    (InvalidImport (lit "gap monotonic timestamp exceeds SQLite range")).
Definition gap_row (gap : RecorderGap) : store_result GapRow :=
  stopped ← monotonic_to_sql (rg_stopped_at_monotonic_ns gap);
  resumed ← transpose (monotonic_to_sql <$> rg_resumed_at_monotonic_ns gap);
  Ok {| gr_gap_id := rg_gap_id gap; gr_partition_id := rg_partition_id gap;
        gr_source_identity_before := rg_source_identity_before gap;
        gr_source_identity_after := rg_source_identity_after gap;
        gr_cursor_before := rg_cursor_before gap; gr_cursor_after := rg_cursor_after gap;
        gr_stopped_at_monotonic_ns := stopped; gr_resumed_at_monotonic_ns := resumed;
        gr_start_at := rg_start_at gap; gr_end_at := rg_end_at gap; gr_reset_at := rg_reset_at gap;
        gr_reason := rg_reason gap; gr_state := rg_state gap;
        gr_owner_collector_epoch := hex_nibbles 32 (rg_owner_collector_epoch gap);
        gr_confirmation_cycle_seq := to_dec (rg_confirmation_cycle_seq gap) |}.
(** A write of a row fails when a constraint of the schema does. *)
Definition write_row (ledger : Ledger) (row : GapRow) : store_result Ledger :=
  if gap_row_checks row then Ok (<[gr_gap_id row := row]> ledger) else Err (Sqlite ConstraintViolation).
(** The six columns of the [UPDATE]. *)
Definition update_row (row : GapRow) (gap : RecorderGap) (resumed : option Z) : GapRow := {|
  gr_gap_id := gr_gap_id row; gr_partition_id := gr_partition_id row;
  gr_source_identity_before := gr_source_identity_before row;
  gr_source_identity_after := rg_source_identity_after gap;
  gr_cursor_before := gr_cursor_before row; gr_cursor_after := rg_cursor_after gap;
  gr_stopped_at_monotonic_ns := gr_stopped_at_monotonic_ns row;
  gr_resumed_at_monotonic_ns := resumed;
  gr_start_at := gr_start_at row; gr_end_at := gr_end_at row; gr_reset_at := gr_reset_at row;
  gr_reason := rg_reason gap; gr_state := rg_state gap;
  gr_owner_collector_epoch := gr_owner_collector_epoch row;
  gr_confirmation_cycle_seq := to_dec (rg_confirmation_cycle_seq gap) |}.
(** [SELECT EXISTS(..)] of a confirmed row that meets the interval, other than [except]. *)
Definition confirmed_overlap (ledger : Ledger) (partition_id : text) (start_at end_at : Z)
    (except : option text) : bool :=
  existsb (λ row, text_eqb (gr_partition_id row) partition_id
                  && text_eqb (gr_state row) (lit "confirmed")
                  && negb (is_some_and (text_eqb (gr_gap_id row)) except)
                  && (gr_start_at row <=? end_at) && (start_at <=? gr_end_at row))
    (map snd (map_to_list ledger)).

(** ** The operations of a partition's store *)
Section store.
Context (partition_id : text).

Definition find_gap (ledger : Ledger) (gap_id : text) : store_result (option RecorderGap) :=
  transpose (recorder_gap_from_row <$> ledger !! gap_id).

Definition upsert_recorder_gap (ledger : Ledger) (gap : RecorderGap) : store_result Ledger :=
  _ ← validate_recorder_gap gap (Some partition_id);
  existing ← find_gap ledger (rg_gap_id gap);
  match existing with
  | Some existing =>
      if negb (bool_decide (existing = gap))
      then invalid "recorder gap replay conflicts with stored record" else Ok ledger
  | None =>
      if negb (text_eqb (rg_state gap) (lit "pending"))
      then invalid "new recorder gaps must start pending"
      else row ← gap_row gap; write_row ledger row
  end.
Definition begin_recorder_gap (ledger : Ledger) (gap : RecorderGap) : store_result Ledger :=
  if negb (text_eqb (rg_state gap) (lit "pending"))
  then invalid "new recorder gaps must start pending" else upsert_recorder_gap ledger gap.

(** What the pending record fixes for its terminal one. *)
Definition transition_contradicts (existing gap : RecorderGap) : bool :=
  negb (text_eqb (rg_state existing) (lit "pending"))
  || negb (is_any (rg_state gap) ["recovered"; "confirmed"; "rejected"])
  || negb (text_eqb (rg_partition_id existing) (rg_partition_id gap))
  || negb (text_eqb (rg_source_identity_before existing) (rg_source_identity_before gap))
  || negb (text_eqb (rg_cursor_before existing) (rg_cursor_before gap))
  || negb (rg_stopped_at_monotonic_ns existing =? rg_stopped_at_monotonic_ns gap)
  || negb (rg_start_at existing =? rg_start_at gap)
  || negb (rg_end_at existing =? rg_end_at gap)
  || negb (bool_decide (rg_reset_at existing = rg_reset_at gap))
  || negb (text_eqb (rg_reason existing) (rg_reason gap))
  || negb (rg_owner_collector_epoch existing =? rg_owner_collector_epoch gap)
  || (opt_is_some (rg_resumed_at_monotonic_ns existing)
      && negb (bool_decide (rg_resumed_at_monotonic_ns existing = rg_resumed_at_monotonic_ns gap))).
Definition transition_recorder_gap (ledger : Ledger) (gap : RecorderGap) : store_result Ledger :=
  _ ← validate_recorder_gap gap (Some partition_id);
  existing ← find_gap ledger (rg_gap_id gap);
  match existing, ledger !! rg_gap_id gap with
  | Some existing, Some row =>
      if bool_decide (existing = gap) then Ok ledger
      else if transition_contradicts existing gap
      then invalid "recorder gap transition contradicts its pending record"
      else
      _ ← (if is_any (rg_state gap) ["recovered"; "confirmed"]
           then validate_gap_repair_proof gap else Ok ());
      if text_eqb (rg_state gap) (lit "confirmed")
         && confirmed_overlap ledger (rg_partition_id gap) (rg_start_at gap) (rg_end_at gap)
              (Some (rg_gap_id gap))
      then invalid "confirmed recorder gap overlaps an existing interval"
      else
      resumed ← transpose (monotonic_to_sql <$> rg_resumed_at_monotonic_ns gap);
      write_row ledger (update_row row gap resumed)
  | _, _ => invalid "recorder gap transition requires an existing pending record"
  end.
Definition record_recorder_gap := transition_recorder_gap.
Definition recover_recorder_gap (ledger : Ledger) (gap : RecorderGap) : store_result Ledger :=
  if negb (text_eqb (rg_state gap) (lit "recovered"))
  then invalid "recovered recorder gaps must use recovered state"
  else _ ← validate_gap_repair_proof gap; transition_recorder_gap ledger gap.
Definition confirm_recorder_gap (ledger : Ledger) (gap : RecorderGap) : store_result Ledger :=
  if negb (text_eqb (rg_state gap) (lit "confirmed"))
  then invalid "confirmed recorder gaps must use confirmed state"
  else _ ← validate_gap_repair_proof gap; transition_recorder_gap ledger gap.

(** [ORDER BY start_at, end_at, gap_id] *)
Definition gap_order (a b : GapRow) : bool :=
  if gr_start_at a =? gr_start_at b then
    if gr_end_at a =? gr_end_at b then text_leb (gr_gap_id a) (gr_gap_id b)
    else gr_end_at a <? gr_end_at b
  else gr_start_at a <? gr_start_at b.
Fixpoint collect_rows (rows : list GapRow) : store_result (list RecorderGap) :=
  match rows with
  | [] => Ok []
  | row :: rest => gap ← recorder_gap_from_row row; gaps ← collect_rows rest; Ok (gap :: gaps)
  end.
Definition load_recorder_gaps (ledger : Ledger) : store_result (list RecorderGap) :=
  gaps ← collect_rows (sort_by gap_order (map snd (map_to_list ledger)));
  _ ← fold_result (λ _ gap, validate_recorder_gap gap (Some partition_id)) () gaps;
  Ok gaps.

Definition gap_key_leb (a b : RecorderGap) : bool :=
  if rg_start_at a =? rg_start_at b then
    if rg_end_at a =? rg_end_at b then text_leb (rg_gap_id a) (rg_gap_id b)
    else rg_end_at a <? rg_end_at b
  else rg_start_at a <? rg_start_at b.
(** [Option<i64>] orders [None] first. *)
Definition gap_public_leb (a b : RecorderGap) : bool :=
  if bool_decide (rg_reset_at a = rg_reset_at b) then gap_key_leb a b
  else match rg_reset_at a, rg_reset_at b with
       | None, _ => true | Some _, None => false | Some x, Some y => x <? y end.
Definition overlap_step (furthest_end : option Z) (gap : RecorderGap) : store_result (option Z) :=
  if is_some_and (λ e, rg_start_at gap <=? e) furthest_end
  then invalid "confirmed recorder gaps overlap"
  else Ok (Some (Z.max (default (rg_end_at gap) furthest_end) (rg_end_at gap))).
Definition load_confirmed_recorder_gaps (ledger : Ledger) : store_result (list RecorderGap) :=
  all ← load_recorder_gaps ledger;
  let gaps := sort_by gap_key_leb
    (List.filter (λ gap, text_eqb (rg_state gap) (lit "confirmed") && opt_is_some (rg_reset_at gap)) all) in
  _ ← fold_result overlap_step None gaps;
  Ok (sort_by gap_public_leb gaps).

(** ** Reconciliation with one source rescan *)
Definition stale_proof (scan : SourceRescan) (gap : RecorderGap) : bool :=
  (rg_owner_collector_epoch gap =? sr_owner_collector_epoch scan)
  && (sr_confirmation_cycle_seq scan <=? rg_confirmation_cycle_seq gap).
(** The state the rescan proves for a pending gap, if it proves one. *)
Definition resolved_state (scan : SourceRescan) (gap : RecorderGap) : option text :=
  match rg_reset_at gap with
  | None => Some (lit "rejected")
  | Some gap_reset =>
      if negb (gap_reset =? sr_reset_at scan) then Some (lit "rejected")
      else if source_minutes_cover_gap gap (sr_source_minutes scan) then Some (lit "recovered")
      else if sr_source_closed scan && negb (source_minutes_overlap_gap gap (sr_source_minutes scan))
      then Some (lit "confirmed")
      else None
  end.
Definition terminal_gap (scan : SourceRescan) (gap : RecorderGap) (state : text) : RecorderGap := {|
  rg_gap_id := rg_gap_id gap; rg_partition_id := rg_partition_id gap;
  rg_source_identity_before := rg_source_identity_before gap;
  rg_source_identity_after := sr_source_identity_after scan;
  rg_cursor_before := rg_cursor_before gap; rg_cursor_after := sr_cursor_after scan;
  rg_stopped_at_monotonic_ns := rg_stopped_at_monotonic_ns gap;
  rg_resumed_at_monotonic_ns := Some (sr_resumed_at_monotonic_ns scan);
  rg_start_at := rg_start_at gap; rg_end_at := rg_end_at gap; rg_reset_at := rg_reset_at gap;
  rg_reason := rg_reason gap; rg_state := state;
  rg_owner_collector_epoch := rg_owner_collector_epoch gap;
  rg_confirmation_cycle_seq := sr_confirmation_cycle_seq scan |}.
(** One turn of the loop: the transaction of each transition commits on its own. *)
Definition resolve_gap (scan : SourceRescan) (ledger : Ledger) (gap : RecorderGap) :
    store_result (Ledger * option RecorderGap) :=
  if stale_proof scan gap then Ok (ledger, None)
  else
  match resolved_state scan gap with
  | None => Ok (ledger, None)
  | Some state =>
      let confirmed := text_eqb state (lit "confirmed") in
      let overlaps := confirmed
        && confirmed_overlap ledger (rg_partition_id gap) (rg_start_at gap) (rg_end_at gap) None in
      let terminal := terminal_gap scan gap (if overlaps then lit "rejected" else state) in
      ledger ← (if text_eqb state (lit "recovered") then recover_recorder_gap ledger terminal
                else if confirmed && negb overlaps then confirm_recorder_gap ledger terminal
                else record_recorder_gap ledger terminal);
      Ok (ledger, Some terminal)
  end.
Fixpoint resolve_gaps (scan : SourceRescan) (ledger : Ledger) (pending : list RecorderGap) :
    Ledger * store_result (list RecorderGap) :=
  match pending with
  | [] => (ledger, Ok [])
  | gap :: rest =>
      match resolve_gap scan ledger gap with
      | Err e => (ledger, Err e)
      | Ok (ledger, terminal) =>
          let '(ledger, transitioned) := resolve_gaps scan ledger rest in
          (ledger, transitioned ≫= λ gaps, Ok (opt_list terminal ++ gaps))
      end
  end.
Definition is_pending (gap : RecorderGap) : bool := text_eqb (rg_state gap) (lit "pending").
Definition reconcile_pending_recorder_gaps (ledger : Ledger) (scan : SourceRescan) :
    Ledger * store_result (list RecorderGap) :=
  match validate_recorder_source_rescan scan with
  | Err e => (ledger, Err e)
  | Ok _ =>
      match load_recorder_gaps ledger with
      | Err e => (ledger, Err e)
      | Ok gaps => resolve_gaps scan ledger (List.filter is_pending gaps)
      end
  end.
End store.
