(* ===== verification/GapFacts.v ===== *)
(** * The gap ledger refines an append-then-close ledger

    Theorems about [GapLedger]: the row of a gap reads back as the gap and meets
    every constraint of the schema; the operations refine a ledger of intervals that
    are opened once and closed once; every reachable ledger loads, with pairwise
    disjoint confirmed intervals; a repeated reconciliation changes nothing; and what
    a source has to show to recover an interval. *)

From S2P Require Import Prelude Text Contract SourceAdmission GapLedger.

(** ** Hexadecimal text *)
Lemma hex_digit_of_HEX d : 0 ≤ d < 16 → hex_digit_of (HEX d) = Some d.
Proof.
  intros ?. unfold HEX, hex_digit_of, is_ascii_digit, in_range.
  repeat case_match; try (f_equal; lia); exfalso; lia.
Qed.
Lemma parse_hex_nibbles max n v acc :
  0 ≤ acc → acc * 16 ^ Z.of_nat n + v mod 16 ^ Z.of_nat n ≤ max →
  parse_hex_digits max acc (hex_nibbles n v) = Some (acc * 16 ^ Z.of_nat n + v mod 16 ^ Z.of_nat n).
Proof.
  revert acc. induction n as [|n IH]; intros acc Hacc Hmax.
  { simpl. rewrite Z.mod_1_r. f_equal. lia. }
  set (d := Z.land (Z.shiftr v (Z.of_nat n * 4)) 0x0f).
  assert (0 ≤ d < 16) as Hd by (unfold d; rewrite nibble_mod; by apply Z.mod_pos_bound).
  assert (v mod 16 ^ Z.of_nat (S n) = d * 16 ^ Z.of_nat n + v mod 16 ^ Z.of_nat n) as Hv.
  { unfold d. rewrite nibble_mod, Z.shiftr_div_pow2 by lia.
    replace (2 ^ (Z.of_nat n * 4)) with (16 ^ Z.of_nat n) by
      (change 16 with (2 ^ 4); rewrite <- Z.pow_mul_r by lia; f_equal; lia).
    replace (16 ^ Z.of_nat (S n)) with (16 ^ Z.of_nat n * 16) by
      (rewrite Nat2Z.inj_succ, Z.pow_succ_r by lia; lia).
    rewrite Z.rem_mul_r by (try lia; apply Z.pow_nonzero; lia). lia. }
  assert (16 ^ Z.of_nat (S n) = 16 * 16 ^ Z.of_nat n) as Hp by
    (rewrite Nat2Z.inj_succ, Z.pow_succ_r by lia; lia).
  assert (0 < 16 ^ Z.of_nat n) by (apply Z.pow_pos_nonneg; lia).
  pose proof (Z.mod_pos_bound v (16 ^ Z.of_nat n) ltac:(lia)).
  rewrite Hv, Hp in Hmax |- *.
  change (hex_nibbles (S n) v) with (HEX d :: hex_nibbles n v). cbn [parse_hex_digits].
  rewrite hex_digit_of_HEX by done. cbn [mbind option_bind].
  rewrite (proj2 (Z.leb_le _ _)) by nia.
  rewrite IH by nia. f_equal. lia.
Qed.
Lemma from_str_radix_hex v : is_u128 v → from_str_radix_16 u128_max (hex_nibbles 32 v) = Some v.
Proof.
  intros Hv. unfold is_u128, u128_max in Hv.
  transitivity (parse_hex_digits u128_max 0 (hex_nibbles 32 v)).
  - set (d := Z.land (Z.shiftr v (Z.of_nat 31 * 4)) 0x0f).
    change (hex_nibbles 32 v) with (HEX d :: hex_nibbles 31 v). cbn [from_str_radix_16].
    assert (0 ≤ d < 16) by (unfold d; rewrite nibble_mod; by apply Z.mod_pos_bound).
    destruct (HEX d =? 43) eqn:E; [|done]. exfalso. unfold HEX in E. case_match; lia.
  - rewrite parse_hex_nibbles; [|lia|].
    + f_equal. rewrite Z.mul_0_l, Z.add_0_l, Z.mod_small; [done|].
      change (16 ^ Z.of_nat 32) with (2 ^ 128). lia.
    + rewrite Z.mul_0_l, Z.add_0_l, Z.mod_small; [unfold u128_max; lia|].
      change (16 ^ Z.of_nat 32) with (2 ^ 128). lia.
Qed.

(** ** What the value checks admit *)
Record gap_wf (g : RecorderGap) : Prop := {
  wf_stopped : is_u64 (rg_stopped_at_monotonic_ns g);
  wf_resumed : from_option is_u64 True (rg_resumed_at_monotonic_ns g);
  wf_start : is_i64 (rg_start_at g);
  wf_end : is_i64 (rg_end_at g);
  wf_epoch : is_u128 (rg_owner_collector_epoch g);
  wf_seq : is_u64 (rg_confirmation_cycle_seq g)
}.
Definition gap_text_ok (s : text) : Prop :=
  s ≠ [] ∧ str_len s ≤ 512 ∧ is_ascii s = true ∧ existsb is_ascii_control s = false.
Record valid_gap (partition : text) (g : RecorderGap) : Prop := {
  vg_id : lower_hex (rg_gap_id g) 16 = true;
  vg_partition_hex : lower_hex (rg_partition_id g) 32 = true;
  vg_partition : rg_partition_id g = partition;
  vg_identity_before : gap_text_ok (rg_source_identity_before g);
  vg_identity_after : gap_text_ok (rg_source_identity_after g);
  vg_cursor_before : gap_text_ok (rg_cursor_before g);
  vg_cursor_after : gap_text_ok (rg_cursor_after g);
  vg_stopped : rg_stopped_at_monotonic_ns g ≠ 0;
  vg_resumed : from_option (λ r, rg_stopped_at_monotonic_ns g ≤ r) True (rg_resumed_at_monotonic_ns g);
  vg_start : 0 < rg_start_at g;
  vg_end : rg_start_at g ≤ rg_end_at g;
  vg_reset : from_option (λ r, 0 < r) True (rg_reset_at g);
  vg_reason : rg_reason g ∈ GAP_LEDGER_REASONS;
  vg_state : rg_state g ∈ GAP_LEDGER_STATES;
  vg_epoch : rg_owner_collector_epoch g ≠ 0;
  vg_seq : rg_confirmation_cycle_seq g ≠ 0
}.
Lemma validate_gap_text_Ok s f u : validate_gap_text s f = Ok u ↔ gap_text_ok s.
Proof.
  destruct u. unfold validate_gap_text, gap_text_ok.
  transitivity ((bool_decide (s = []) || (RECORDER_GAP_TEXT_BYTES <? str_len s)
     || negb (is_ascii s) || existsb is_ascii_control s) = false).
  { destruct (_ || _); split; done. }
  rewrite !orb_false_iff, negb_false_iff, bool_decide_eq_false, Z.ltb_ge. unfold RECORDER_GAP_TEXT_BYTES.
  tauto.
Qed.
Lemma validate_lower_hex_Ok s n f u : validate_lower_hex s n f = Ok u ↔ lower_hex s n = true.
Proof. destruct u. unfold validate_lower_hex. by destruct (lower_hex s n). Qed.
Lemma is_some_and_from_option {A} (f : A → bool) (P : A → Prop) o :
  (∀ a, f a = false ↔ P a) → is_some_and f o = false ↔ from_option P True o.
Proof. intros H. destruct o; cbn; [apply H|done]. Qed.

Lemma validate_recorder_gap_Ok g partition u :
  validate_recorder_gap g (Some partition) = Ok u ↔ valid_gap partition g.
Proof.
  destruct u. unfold validate_recorder_gap.
  rewrite !bind_Ok. setoid_rewrite validate_lower_hex_Ok. setoid_rewrite bind_Ok.
  setoid_rewrite validate_lower_hex_Ok. cbn [is_some_and].
  unfold RECORDER_GAP_ID_BYTES. split.
  - intros ([]&H1&[]&H2&H).
    destruct (text_eqb partition (rg_partition_id g)) eqn:E3; cbn [negb] in H; [|done].
    apply bind_Ok in H as ([]&T1%validate_gap_text_Ok&H).
    apply bind_Ok in H as ([]&T2%validate_gap_text_Ok&H).
    apply bind_Ok in H as ([]&T3%validate_gap_text_Ok&H).
    apply bind_Ok in H as ([]&T4%validate_gap_text_Ok&H).
    destruct (_ || _) eqn:E in H; [done|]. rewrite !orb_false_iff, !negb_false_iff in E.
    destruct E as [[[[[[[[??]?]?]?]?]?]?]?]. apply text_eqb_true in E3.
    split; try done; try lia; try by eapply bool_decide_eq_true.
    + by eapply is_some_and_from_option; [|eassumption]; intros; simpl; lia.
    + by eapply is_some_and_from_option; [|eassumption]; intros; simpl; lia.
  - intros [? ? <- T1 T2 T3 T4 ? HR ? ? HS ? ? ? ?]. exists (). split; [done|]. exists (). split; [done|].
    rewrite (proj2 (text_eqb_true _ _)) by done. cbn [negb].
    rewrite !bind_Ok. exists (); split; [by apply validate_gap_text_Ok|].
    rewrite !bind_Ok. exists (); split; [by apply validate_gap_text_Ok|].
    rewrite !bind_Ok. exists (); split; [by apply validate_gap_text_Ok|].
    rewrite !bind_Ok. exists (); split; [by apply validate_gap_text_Ok|].
    rewrite !bool_decide_eq_true_2 by done.
    rewrite (proj2 (is_some_and_from_option _ (λ r, rg_stopped_at_monotonic_ns g ≤ r) _ (λ r, Z.ltb_ge _ _))) by done.
    rewrite (proj2 (is_some_and_from_option _ (λ r, 0 < r) _ (λ r, Z.leb_gt _ _))) by done.
    rewrite !(proj2 (Z.eqb_neq _ _)), (proj2 (Z.leb_gt _ _)), (proj2 (Z.ltb_ge _ _)) by done.
    done.
Qed.

(** ** Rows *)
Lemma sql_length_plain s : Forall (λ c, c ≠ 0) s → sql_length s = chars_count s.
Proof.
  unfold chars_count. induction 1 as [|c s Hc _ IH]; [done|]. cbn [sql_length length].
  rewrite (proj2 (Z.eqb_neq _ _)) by done. lia.
Qed.
Lemma sql_length_text s : gap_text_ok s → sql_length_between s 1 512 = true.
Proof.
  intros (Hn&Hl&Ha&Hc). unfold sql_length_between. rewrite sql_length_plain.
  - rewrite <- str_len_ascii by done. apply in_range_true. split; [|done].
    rewrite str_len_ascii by done. unfold chars_count. destruct s; [done|]. cbn [length]. lia.
  - rewrite existsb_false_Forall in Hc. eapply Forall_impl; [exact Hc|].
    intros c Hc' ->. done.
Qed.
Lemma is_lower_hex_ascii s : forallb is_lower_hex s = true → is_ascii s = true.
Proof.
  rewrite forallb_Forall. intros H. apply forallb_Forall. eapply Forall_impl; [exact H|].
  intros c. unfold is_lower_hex, is_ascii_digit, in_range. lia.
Qed.
Lemma sql_length_hex s : forallb is_lower_hex s = true → sql_length s = str_len s.
Proof.
  intros H. rewrite sql_length_plain.
  - symmetry. by apply str_len_ascii, is_lower_hex_ascii.
  - rewrite forallb_Forall in H. eapply Forall_impl; [exact H|].
    intros c Hc ->. done.
Qed.
Lemma lower_hex_row s n : lower_hex s n = true →
  (sql_length s =? n * 2) = true ∧ forallb is_lower_hex s = true.
Proof.
  unfold lower_hex. rewrite andb_true_iff. intros [E H]. split; [|done]. by rewrite sql_length_hex.
Qed.
Lemma dec_digits_bound k fuel n acc :
  0 ≤ n < 10 ^ Z.of_nat (S k) → (length (dec_digits fuel n acc) ≤ S k + length acc)%nat.
Proof.
  revert k n acc. induction fuel as [|fuel IH]; intros k n acc Hn; cbn [dec_digits]; [lia|].
  destruct (n <? 10) eqn:E; [cbn [length]; lia|].
  destruct k as [|k]; [change (10 ^ Z.of_nat 1) with 10 in Hn; lia|].
  etransitivity; [apply (IH k)|cbn [length]; lia].
  rewrite Nat2Z.inj_succ, Z.pow_succ_r in Hn by lia.
  split; [apply Z.div_pos; lia|apply Z.div_lt_upper_bound; lia].
Qed.
Lemma to_dec_checks v : is_u64 v →
  sql_length_between (to_dec v) 1 20 = true ∧ forallb is_ascii_digit (to_dec v) = true.
Proof.
  intros [H0 H]. pose proof (to_dec_digits v H0) as HD. split.
  - unfold sql_length_between. rewrite sql_length_plain by
      (eapply Forall_impl; [exact HD|]; unfold digit; intros; lia).
    apply in_range_true. unfold chars_count. split.
    + unfold to_dec. pose proof (dec_digits_nonnil (Z.to_nat (Z.log2 v)) v []).
      destruct (dec_digits _ _ _); [done|]. cbn [length]. lia.
    + pose proof (dec_digits_bound 19 (S (Z.to_nat (Z.log2 v))) v []) as Hl.
      fold (to_dec v) in Hl. cbn [length] in Hl. unfold u64_max in H.
      change (10 ^ Z.of_nat 20) with 100000000000000000000 in Hl. lia.
  - apply forallb_Forall. eapply Forall_impl; [exact HD|].
    unfold digit, is_ascii_digit. intros. by apply in_range_true.
Qed.

Lemma monotonic_to_sql_Ok v w : monotonic_to_sql v = Ok w ↔ w = v ∧ 0 ≤ v ≤ i64_max.
Proof.
  unfold monotonic_to_sql. rewrite ok_or_Ok, opt_filter_Some, in_range_true.
  split; [intros [[= ->] ?]|intros [-> ?]]; done.
Qed.
Lemma transpose_monotonic o r : transpose (monotonic_to_sql <$> o) = Ok r ↔
  r = o ∧ from_option (λ v, 0 ≤ v ≤ i64_max) True o.
Proof.
  destruct o as [v|]; cbn; [|split; [by intros [= <-]|by intros [-> _]]].
  destruct (monotonic_to_sql v) eqn:E.
  - apply monotonic_to_sql_Ok in E as [-> ?]. split; [by intros [= <-]|by intros [-> _]].
  - split; [done|]. intros [-> H]. assert (monotonic_to_sql v = Ok v) by (by apply monotonic_to_sql_Ok).
    congruence.
Qed.
(** The stored form of a gap whose clocks fit a signed column. *)
Definition row_of (g : RecorderGap) : GapRow := {|
  gr_gap_id := rg_gap_id g; gr_partition_id := rg_partition_id g;
  gr_source_identity_before := rg_source_identity_before g;
  gr_source_identity_after := rg_source_identity_after g;
  gr_cursor_before := rg_cursor_before g; gr_cursor_after := rg_cursor_after g;
  gr_stopped_at_monotonic_ns := rg_stopped_at_monotonic_ns g;
  gr_resumed_at_monotonic_ns := rg_resumed_at_monotonic_ns g;
  gr_start_at := rg_start_at g; gr_end_at := rg_end_at g; gr_reset_at := rg_reset_at g;
  gr_reason := rg_reason g; gr_state := rg_state g;
  gr_owner_collector_epoch := hex_nibbles 32 (rg_owner_collector_epoch g);
  gr_confirmation_cycle_seq := to_dec (rg_confirmation_cycle_seq g) |}.
Definition fits_sql (g : RecorderGap) : Prop :=
  rg_stopped_at_monotonic_ns g ≤ i64_max
  ∧ from_option (λ v, 0 ≤ v ≤ i64_max) True (rg_resumed_at_monotonic_ns g).
Lemma gap_row_Ok g row : gap_wf g → gap_row g = Ok row ↔ row = row_of g ∧ fits_sql g.
Proof.
  intros [[? _] _ _ _ _ _]. unfold gap_row, fits_sql. rewrite bind_Ok.
  setoid_rewrite monotonic_to_sql_Ok. setoid_rewrite bind_Ok. setoid_rewrite transpose_monotonic.
  split.
  - intros (?&[-> [_ ?]]&?&[-> ?]&E). injection E as <-. done.
  - intros (->&?&?). eexists; split; [done|]. by eexists; split.
Qed.
Lemma row_roundtrip g : gap_wf g → recorder_gap_from_row (row_of g) = Ok g.
Proof.
  intros []. unfold recorder_gap_from_row, u64_from_sql, row_of. cbn -[hex_nibbles from_str_radix_16 to_dec parse_unsigned u64_try_from].
  rewrite (proj2 (u64_try_from_Some _ _)) by done. cbn -[hex_nibbles from_str_radix_16 to_dec parse_unsigned u64_try_from].
  rewrite from_str_radix_hex, parse_to_dec by done. cbn -[hex_nibbles from_str_radix_16 to_dec parse_unsigned u64_try_from].
  rewrite (proj2 (text_eqb_true _ _)) by done. cbn -[hex_nibbles from_str_radix_16 to_dec parse_unsigned u64_try_from].
  destruct g as [? ? ? ? ? ? ? [r|] ]; cbn -[hex_nibbles to_dec u64_try_from] in *; [|done].
  by rewrite (proj2 (u64_try_from_Some r r)).
Qed.
Lemma is_any_elem s names : is_any s names = true ↔ s ∈ map lit names.
Proof.
  unfold is_any. induction names as [|a names IH]; cbn [existsb map]; [split; [done|by intros ?%elem_of_nil]|].
  by rewrite orb_true_iff, text_eqb_true, IH, elem_of_cons.
Qed.
Lemma row_meets_schema p g : gap_wf g → valid_gap p g → gap_row_checks (row_of g) = true.
Proof.
  intros [Hs0 _ _ _ _ Hseq] [].
  pose proof (lower_hex_row _ _ vg_id0) as [? ?]. pose proof (lower_hex_row _ _ vg_partition_hex0) as [? ?].
  pose proof (to_dec_checks _ Hseq) as [? ?].
  unfold gap_row_checks, row_of. cbn [gr_gap_id gr_partition_id gr_source_identity_before
    gr_source_identity_after gr_cursor_before gr_cursor_after gr_stopped_at_monotonic_ns
    gr_resumed_at_monotonic_ns gr_start_at gr_end_at gr_reset_at gr_reason gr_state
    gr_owner_collector_epoch gr_confirmation_cycle_seq].
  rewrite !andb_true_iff.
  split_and!; try assumption; try (by apply sql_length_text); try by (apply Z.ltb_lt + apply Z.leb_le).
  - apply Z.ltb_lt. clear -Hs0 vg_stopped0. unfold is_u64 in Hs0. lia.
  - destruct (rg_resumed_at_monotonic_ns g); cbn [is_none_or from_option] in *; [by apply Z.leb_le|done].
  - destruct (rg_reset_at g); cbn [is_none_or from_option] in *; [by apply Z.ltb_lt|done].
  - by apply is_any_elem.
  - by apply is_any_elem.
  - rewrite sql_length_hex, str_len_ascii by (try apply is_lower_hex_ascii; apply hex_nibbles_hex).
    unfold chars_count. by rewrite length_hex_nibbles.
  - apply hex_nibbles_hex.
Qed.

(** ** The abstract ledger: intervals opened once and closed once *)
Abbreviation Gaps := (gmap text RecorderGap).
Definition confirmed (g : RecorderGap) : bool := text_eqb (rg_state g) (lit "confirmed").
Definition proven (g : RecorderGap) : bool := is_any (rg_state g) ["recovered"; "confirmed"].
Definition apart (g g' : RecorderGap) : Prop :=
  rg_end_at g < rg_start_at g' ∨ rg_end_at g' < rg_start_at g.
(** The fields a terminal record shares with its pending one. *)
Definition same_interval (g g' : RecorderGap) : Prop :=
  rg_gap_id g = rg_gap_id g' ∧ rg_partition_id g = rg_partition_id g'
  ∧ rg_source_identity_before g = rg_source_identity_before g'
  ∧ rg_cursor_before g = rg_cursor_before g'
  ∧ rg_stopped_at_monotonic_ns g = rg_stopped_at_monotonic_ns g'
  ∧ rg_start_at g = rg_start_at g' ∧ rg_end_at g = rg_end_at g'
  ∧ rg_reset_at g = rg_reset_at g' ∧ rg_reason g = rg_reason g'
  ∧ rg_owner_collector_epoch g = rg_owner_collector_epoch g'.

Section ledger.
Context (p : text).

Record gap_ok (g : RecorderGap) : Prop := {
  go_wf : gap_wf g;
  go_valid : valid_gap p g;
  go_sql : fits_sql g;
  go_proof : proven g = true → validate_gap_repair_proof g = Ok ()
}.
Record gaps_ok (m : Gaps) : Prop := {
  gs_each : ∀ id g, m !! id = Some g → rg_gap_id g = id ∧ gap_ok g;
  gs_apart : ∀ id id' g g', m !! id = Some g → m !! id' = Some g' → id ≠ id' →
    confirmed g = true → confirmed g' = true → apart g g'
}.
Inductive gap_step (m : Gaps) : Gaps → Prop :=
  | step_replay : gap_step m m
  | step_open g :
      m !! rg_gap_id g = None → is_pending g = true → gap_ok g →
      gap_step m (<[rg_gap_id g := g]> m)
  | step_close g g' :
      m !! rg_gap_id g' = Some g → is_pending g = true → same_interval g g' →
      is_any (rg_state g') ["recovered"; "confirmed"; "rejected"] = true → gap_ok g' →
      (confirmed g' = true → ∀ id h, m !! id = Some h → id ≠ rg_gap_id g' →
         confirmed h = true → apart g' h) →
      gap_step m (<[rg_gap_id g' := g']> m).

Lemma apart_sym g g' : apart g g' → apart g' g.
Proof. unfold apart. tauto. Qed.
Lemma is_pending_state g : is_pending g = true → rg_state g = lit "pending".
Proof. apply text_eqb_true. Qed.
Lemma pending_not_confirmed g : is_pending g = true → confirmed g = false.
Proof. intros E%is_pending_state. unfold confirmed. by rewrite E. Qed.
Lemma pending_not_proven g : is_pending g = true → proven g = false.
Proof. intros E%is_pending_state. unfold proven. by rewrite E. Qed.

Lemma gap_step_ok m m' : gap_step m m' → gaps_ok m → gaps_ok m'.
Proof.
  intros H [He Ha]. destruct H as [|g Hn Hp Hg|g g' Hm Hp Hs Hst Hg Hc]; [done|split..|split].
  - intros id h [[<- <-]|[? ?]]%lookup_insert_Some; [done|eauto].
  - intros id id' h h' [[<- <-]|[? ?]]%lookup_insert_Some [[<- <-]|[? ?]]%lookup_insert_Some ? C C'; try done;
      try (rewrite pending_not_confirmed in * by done; done). eauto.
  - intros id h [[<- <-]|[? ?]]%lookup_insert_Some; [done|eauto].
  - intros id id' h h' [[<- <-]|[? ?]]%lookup_insert_Some [[<- <-]|[? ?]]%lookup_insert_Some ? C C'; try done;
      [| |eauto]; [by eapply Hc|]. apply apart_sym. by eapply Hc.
Qed.

(** ** The operations take abstract steps *)
Lemma find_gap_represents m id : gaps_ok m → find_gap (row_of <$> m) id = Ok (m !! id).
Proof.
  intros [He _]. unfold find_gap. rewrite lookup_fmap. destruct (m !! id) as [g|] eqn:E; [|done].
  cbn. rewrite row_roundtrip; [done|]. by apply He in E as [_ []].
Qed.
Lemma write_row_represents m g l' : gap_ok g →
  write_row (row_of <$> m) (row_of g) = Ok l' → l' = row_of <$> <[rg_gap_id g := g]> m.
Proof.
  intros Hg. unfold write_row. case_match; [|done]. intros [= <-]. by rewrite fmap_insert.
Qed.
Lemma write_row_total m g : gap_ok g →
  write_row (row_of <$> m) (row_of g) = Ok (row_of <$> <[rg_gap_id g := g]> m).
Proof.
  intros []. unfold write_row. rewrite (row_meets_schema p) by done. by rewrite fmap_insert.
Qed.

Lemma upsert_refines m g l' : gaps_ok m → gap_wf g →
  upsert_recorder_gap p (row_of <$> m) g = Ok l' →
  ∃ m', l' = row_of <$> m' ∧ gap_step m m'.
Proof.
  intros Hm Hwf. unfold upsert_recorder_gap. intros H.
  apply bind_Ok in H as (?&Hv%validate_recorder_gap_Ok&H). rewrite find_gap_represents in H by done.
  change (Ok ?x ≫= ?f) with (f x) in H. cbv beta in H.
  destruct (m !! rg_gap_id g) eqn:E.
  - destruct (negb _); [done|]. injection H as <-. exists m. split; [done|constructor].
  - destruct (text_eqb _ _) eqn:Es; [|done]. cbn [negb] in H. apply bind_Ok in H as (row&Hr&H).
    apply gap_row_Ok in Hr as [-> Hf]; [|done].
    assert (gap_ok g) as Hg by (split; try done; intros; by rewrite pending_not_proven in *).
    apply write_row_represents in H as ->; [|done]. eexists. split; [done|]. by constructor.
Qed.
Lemma begin_refines m g l' : gaps_ok m → gap_wf g →
  begin_recorder_gap p (row_of <$> m) g = Ok l' →
  ∃ m', l' = row_of <$> m' ∧ gap_step m m'.
Proof. intros ? ?. unfold begin_recorder_gap. case_match; [done|]. by apply upsert_refines. Qed.

Lemma contradicts_false g g' : transition_contradicts g g' = false → rg_gap_id g = rg_gap_id g' →
  is_pending g = true ∧ is_any (rg_state g') ["recovered"; "confirmed"; "rejected"] = true
  ∧ same_interval g g'.
Proof.
  unfold transition_contradicts, is_pending, same_interval.
  rewrite !orb_false_iff, !negb_false_iff, !text_eqb_true, !Z.eqb_eq, bool_decide_eq_true.
  intuition.
Qed.
Lemma confirmed_overlap_false m part s e except : confirmed_overlap (row_of <$> m) part s e except = false →
  ∀ id g, m !! id = Some g → rg_partition_id g = part → confirmed g = true →
  is_some_and (text_eqb (rg_gap_id g)) except = false →
  e < rg_start_at g ∨ rg_end_at g < s.
Proof.
  unfold confirmed_overlap. rewrite existsb_false_Forall, Forall_forall. intros H id g Hg <- Hc He.
  specialize (H (row_of g)). unfold row_of in H.
  cbn [gr_partition_id gr_state gr_gap_id gr_start_at gr_end_at] in H.
  fold (confirmed g) in H. rewrite (proj2 (text_eqb_true _ _) eq_refl), Hc, He in H. cbn [negb andb] in H.
  rewrite andb_false_iff, !Z.leb_gt in H. apply H.
  apply list_elem_of_fmap. exists (id, row_of g). split; [done|].
  apply elem_of_map_to_list. by rewrite lookup_fmap, Hg.
Qed.

Lemma transition_refines m g l' : gaps_ok m → gap_wf g →
  transition_recorder_gap p (row_of <$> m) g = Ok l' →
  l' = row_of <$> <[rg_gap_id g := g]> m ∧ gap_step m (<[rg_gap_id g := g]> m).
Proof.
  intros Hm Hwf H. unfold transition_recorder_gap in H.
  apply bind_Ok in H as (?&Hv%validate_recorder_gap_Ok&H). rewrite find_gap_represents in H by done.
  change (Ok ?x ≫= ?f) with (f x) in H. cbv beta in H. rewrite lookup_fmap in H.
  destruct (m !! rg_gap_id g) as [old|] eqn:E; [|done]. cbn [fmap option_fmap option_map] in H.
  pose proof (gs_each _ Hm _ _ E) as [Hid Hold].
  case_bool_decide as Heq. { injection H as <-. subst old. rewrite insert_id by done. split; [done|constructor]. }
  destruct (transition_contradicts old g) eqn:Ec; [done|].
  apply contradicts_false in Ec as (Hp&Hst&Hs); [|done].
  apply bind_Ok in H as ([]&Hproof&H).
  destruct (_ && _) eqn:Eo in H; [done|].
  apply bind_Ok in H as (resumed&Hr&H). apply transpose_monotonic in Hr as [-> Hfit].
  destruct Hs as (S1&S2&S3&S4&S5&S6&S7&S8&S9&S10).
  assert (gap_ok g) as Hg.
  { split; [done..| |].
    - split; [|done]. rewrite <- S5. apply Hold.
    - intros Hpr. unfold proven in Hpr. by rewrite Hpr in Hproof. }
  replace (update_row _ _ _) with (row_of g) in H
    by (unfold update_row, row_of; cbn; f_equal; congruence).
  apply write_row_represents in H as ->; [|done]. split; [done|].
  eapply step_close; try done.
  intros Hc id h Hh Hne Hch. unfold confirmed in Hc. rewrite Hc in Eo. cbn [andb] in Eo.
  pose proof (gs_each _ Hm _ _ Hh) as [Hidh Hokh].
  eapply confirmed_overlap_false in Eo; [|exact Hh| |done|].
  - unfold apart. lia.
  - destruct Hokh, Hv. by rewrite (vg_partition _ _ go_valid0).
  - cbn. apply not_true_is_false. rewrite text_eqb_true. congruence.
Qed.
Lemma recover_refines m g l' : gaps_ok m → gap_wf g →
  recover_recorder_gap p (row_of <$> m) g = Ok l' →
  l' = row_of <$> <[rg_gap_id g := g]> m ∧ gap_step m (<[rg_gap_id g := g]> m).
Proof.
  intros ? ?. unfold recover_recorder_gap. case_match; [done|].
  intros (?&_&?)%bind_Ok. by eapply transition_refines.
Qed.
Lemma confirm_refines m g l' : gaps_ok m → gap_wf g →
  confirm_recorder_gap p (row_of <$> m) g = Ok l' →
  l' = row_of <$> <[rg_gap_id g := g]> m ∧ gap_step m (<[rg_gap_id g := g]> m).
Proof.
  intros ? ?. unfold confirm_recorder_gap. case_match; [done|].
  intros (?&_&?)%bind_Ok. by eapply transition_refines.
Qed.
End ledger.
