(* ===== verification/GapReconcile.v ===== *)
(** * Loading and reconciling the gap ledger

    The second half of the theorems about [GapLedger]: which minutes a source has
    to show to recover a gap, what the two loaders return, that a reconciliation takes
    abstract steps only, changes nothing when repeated, and is stopped by a pending
    gap whose clock is ahead of the rescan's. *)

From S2P Require Import Prelude Text Contract SourceAdmission GapLedger GapFacts.

(** ** The minutes that recover a gap *)
Lemma check_source_minutes_Ok previous minutes u : check_source_minutes previous minutes = Ok u ↔
  Forall (λ m, 0 < m ∧ m mod 60 = 0 ∧ from_option (λ q, q < m) True previous) minutes
  ∧ StronglySorted Z.lt minutes.
Proof.
  destruct u. revert previous. induction minutes as [|m ms IH]; intros previous; cbn [check_source_minutes].
  { split; [by repeat constructor|done]. }
  rewrite Forall_cons. destruct (m <=? 0) eqn:E1; cbn [orb].
  { split; [done|]. intros ((?&_)&_). lia. }
  destruct (m mod 60 =? 0) eqn:E2; cbn [negb].
  2: { split; [done|]. intros (((?&?&_)&_)&_). lia. }
  destruct (is_some_and _ previous) eqn:E3.
  { split; [done|]. intros (((_&_&Hq)&_)&_). destruct previous; cbn in *; [lia|done]. }
  rewrite IH. cbn [from_option]. split.
  - intros [HF HS]. split_and!; try lia.
    + destruct previous; cbn in *; [lia|done].
    + eapply Forall_impl; [exact HF|]. intros x (?&?&?). split_and!; try done.
      destruct previous; cbn in *; [lia|done].
    + constructor; [done|]. eapply Forall_impl; [exact HF|]. by intros x (?&?&?).
  - intros [[? HF] HS]. inversion HS as [|? ? HS' HL]; subst. split; [|done].
    rewrite Forall_forall in HF, HL. apply Forall_forall. intros x Hx.
    pose proof (HF x Hx) as (?&?&_). by pose proof (HL x Hx).
Qed.

Definition minute_start (m : Z) : Prop := m mod 60 = 0.
Lemma consecutive_complete n first L :
  minute_start first → StronglySorted Z.lt L → Forall (λ m, minute_start m ∧ first ≤ m) L →
  (∀ i, 0 ≤ i < Z.of_nat n → first + 60 * i ∈ L) →
  (n ≤ length L)%nat ∧ consecutive_minutes first (take n L) = true.
Proof.
  revert first L. induction n as [|n IH]; intros first L Hf HS HF Hall; [split; [lia|done]|].
  pose proof (Hall 0 ltac:(lia)) as H0. rewrite Z.mul_0_r, Z.add_0_r in H0.
  destruct L as [|x L]; [by apply elem_of_nil in H0|].
  inversion HS as [|? ? HS' HL]; subst. apply Forall_cons in HF as [[Hx1 Hx2] HF].
  rewrite Forall_forall in HL.
  assert (x = first) as ->.
  { apply elem_of_cons in H0 as [->|H0]; [done|]. specialize (HL _ H0). lia. }
  destruct (IH (first + 60) L) as [Hl Hc].
  - unfold minute_start in *. div_lia.
  - done.
  - rewrite Forall_forall in HF |- *. intros m Hm. pose proof (HF m Hm) as [Hm1 _].
    pose proof (HL m Hm). split; [done|]. unfold minute_start in *. clear -Hm1 Hx1 H. div_lia.
  - intros i Hi. specialize (Hall (i + 1) ltac:(lia)).
    apply elem_of_cons in Hall as [Hall|Hall]; [lia|].
    by replace (first + 60 + 60 * i) with (first + 60 * (i + 1)) by lia.
  - cbn [length take consecutive_minutes]. rewrite Z.eqb_refl. split; [lia|done].
Qed.
Lemma consecutive_sound first L i : consecutive_minutes first L = true →
  0 ≤ i < Z.of_nat (length L) → first + 60 * i ∈ L.
Proof.
  revert first i. induction L as [|x L IH]; intros first i H Hi; [cbn in Hi; lia|].
  cbn [consecutive_minutes] in H. apply andb_true_iff in H as [->%Z.eqb_eq H].
  apply elem_of_cons. destruct (decide (i = 0)) as [->|]; [left; lia|right].
  replace (first + 60 * i) with (first + 60 + 60 * (i - 1)) by lia.
  apply IH; [done|]. cbn [length] in Hi. lia.
Qed.
Lemma drop_partition_point first L x : StronglySorted Z.lt L →
  x ∈ drop (partition_point (λ m, m <? first) L) L ↔ x ∈ L ∧ first ≤ x.
Proof.
  induction 1 as [|y L HS IH HL]; [cbn; split; [by intros ?%elem_of_nil|by intros [?%elem_of_nil _]]|].
  cbn [partition_point]. destruct (y <? first) eqn:E; cbn [drop].
  - rewrite IH, elem_of_cons. split; [tauto|]. intros [[->|?] ?]; [lia|done].
  - rewrite elem_of_cons. rewrite Forall_forall in HL. split; [|tauto].
    intros [->|Hx]; [split; [by left|lia]|]. specialize (HL x Hx). split; [by right|lia].
Qed.
Lemma drop_sorted n L : StronglySorted Z.lt L → StronglySorted Z.lt (drop n L).
Proof. intros HS. revert n. induction HS; intros [|k]; cbn; try by constructor. done. Qed.

Definition boundary_inside (g : RecorderGap) (m : Z) : Prop :=
  minute_start m ∧ rg_start_at g < m ≤ rg_end_at g.
Lemma expected_minutes_spec g : gap_wf g → 0 < rg_start_at g →
  match gap_expected_source_minutes g with
  | Some (first, last) => minute_start first ∧ minute_start last ∧ first ≤ last
      ∧ ∀ m, boundary_inside g m ↔ minute_start m ∧ first ≤ m ≤ last
  | None => ∀ m, ¬ boundary_inside g m
  end.
Proof.
  intros [_ _ [? Hs] [? He] _ _] Hpos. unfold gap_expected_source_minutes, i64_checked_add, i64_checked_mul,
    boundary_inside, minute_start.
  set (s := rg_start_at g) in *. set (e := rg_end_at g) in *. clearbody s e.
  unfold i64_max, i64_min in *.
  assert (∀ m, m mod 60 = 0 ∧ s < m ≤ e ↔ m mod 60 = 0 ∧ (s / 60 + 1) * 60 ≤ m ≤ e / 60 * 60) as Hm.
  { intros m. split; intros [? ?]; (split; [done|]); div_lia. }
  rewrite (proj2 (in_range_true _ _ (s / 60 + 1))) by (clear Hm; div_lia). cbn [mbind option_bind].
  destruct (in_range _ _ ((s / 60 + 1) * 60)) eqn:E1; cbn [mbind option_bind].
  2: { intros m [Hm1 Hm2]. apply in_range_false in E1. clear Hm. div_lia. }
  destruct (in_range _ _ (e / 60 * 60)) eqn:E0.
  2: { intros m [Hm1 Hm2]. apply in_range_false in E0. clear Hm E1. div_lia. }
  cbn [mbind option_bind]. unfold then_some. destruct (_ <=? _) eqn:E2.
  - split_and!; [by rewrite Z.mod_mul|by rewrite Z.mod_mul|lia|done].
  - intros m [_ ?]%Hm. lia.
Qed.

(** A rescan recovers a gap exactly when the gap holds a minute start after its own
    start and the rescan saw all of them. *)
Lemma cover_gap_exact g minutes u :
  gap_wf g → 0 < rg_start_at g → check_source_minutes None minutes = Ok u →
  Z.of_nat (length minutes) ≤ MAX_RECORDER_GAP_SOURCE_MINUTES →
  source_minutes_cover_gap g minutes = true ↔
  (∃ m, boundary_inside g m) ∧ ∀ m, boundary_inside g m → m ∈ minutes.
Proof.
  intros Hwf Hpos [HF HS]%check_source_minutes_Ok Hlen. unfold source_minutes_cover_gap.
  pose proof (expected_minutes_spec g Hwf Hpos) as Hspec.
  destruct (gap_expected_source_minutes g) as [[first last]|].
  2: { split; [done|]. intros [[m Hm] _]. by apply Hspec in Hm. }
  destruct Hspec as (Hf&Hl&Hle&Hin). unfold minute_start in Hf, Hl.
  set (k := (last - first) / 60).
  assert (last = first + 60 * k ∧ 0 ≤ k) as [Hlast Hk] by (unfold k; div_lia).
  clearbody k. rewrite (proj2 (Z.eqb_neq (k + 1) 0)) by lia. cbn [orb].
  set (rest := drop (partition_point (λ m, m <? first) minutes) minutes).
  assert (StronglySorted Z.lt rest) as HSr by by apply drop_sorted.
  assert (∀ x, x ∈ rest ↔ x ∈ minutes ∧ first ≤ x) as Hrest by (intros; by apply drop_partition_point).
  assert ((∃ m, boundary_inside g m) ∧ (∀ m, boundary_inside g m → m ∈ minutes) ↔
          ∀ i, 0 ≤ i < Z.of_nat (Z.to_nat (k + 1)) → first + 60 * i ∈ rest) as ->.
  { split.
    - intros [_ H] i Hi. apply Hrest. split; [|lia]. apply H, Hin. unfold minute_start.
      split; [div_lia|lia].
    - intros H. split; [exists first; apply Hin; unfold minute_start; split; [done|lia]|].
      intros m [Hm1 Hm2]%Hin. unfold minute_start in Hm1.
      specialize (H ((m - first) / 60)). replace (first + 60 * ((m - first) / 60)) with m in H by div_lia.
      apply Hrest, H. div_lia. }
  destruct (MAX_RECORDER_GAP_SOURCE_MINUTES <? k + 1) eqn:Emax.
  - split; [done|]. intros H. exfalso.
    pose proof (consecutive_complete (Z.to_nat (k + 1)) first rest Hf HSr) as [Hn _]; [|done|].
    + rewrite Forall_forall in HF. apply Forall_forall. intros m [Hm ?]%Hrest.
      split; [|done]. by destruct (HF m Hm) as (_&?&_).
    + unfold rest in Hn. rewrite length_drop in Hn. lia.
  - unfold get_slice. destruct (Nat.leb_spec (partition_point (λ m, m <? first) minutes + Z.to_nat (k + 1))
      (length minutes)) as [Hl2|Hl2]; cbn [is_some_and].
    + fold rest. split.
      * intros Hc i Hi. assert (first + 60 * i ∈ take (Z.to_nat (k + 1)) rest) as Ht; 
        [|by apply elem_of_take in Ht as (j&?%list_elem_of_lookup_2&_)]. apply (consecutive_sound _ _ _ Hc).
        rewrite length_take. unfold rest. rewrite length_drop. lia.
      * intros H. apply consecutive_complete; try done.
        rewrite Forall_forall in HF. apply Forall_forall. intros m [Hm ?]%Hrest.
        split; [|done]. by destruct (HF m Hm) as (_&?&_).
    + split; [done|]. intros H. exfalso.
      pose proof (consecutive_complete (Z.to_nat (k + 1)) first rest Hf HSr) as [Hn _]; [|done|].
      * rewrite Forall_forall in HF. apply Forall_forall. intros m [Hm ?]%Hrest.
        split; [|done]. by destruct (HF m Hm) as (_&?&_).
      * unfold rest in Hn. rewrite length_drop in Hn. lia.
Qed.

(** ** The loaders *)
Section ledger.
Context (p : text).

Lemma collect_rows_represent gs : Forall gap_wf gs → collect_rows (map row_of gs) = Ok gs.
Proof. induction 1 as [|g gs Hg _ IH]; [done|]. cbn [map collect_rows]. rewrite row_roundtrip by done. by rewrite IH. Qed.
Lemma elem_of_gaps (m : Gaps) g : g ∈ map snd (map_to_list m) ↔ ∃ id, m !! id = Some g.
Proof.
  change (map snd (map_to_list m)) with (snd <$> map_to_list m). rewrite list_elem_of_fmap. split.
  - intros ([id g']&->&H%elem_of_map_to_list). by exists id.
  - intros [id H%elem_of_map_to_list]. by exists (id, g).
Qed.
Definition loaded (m : Gaps) : list RecorderGap := sort_by gap_key_leb (map snd (map_to_list m)).
Lemma elem_of_loaded m g : g ∈ loaded m ↔ ∃ id, m !! id = Some g.
Proof. unfold loaded. by rewrite sort_by_elem, elem_of_gaps. Qed.
Lemma gap_key_leb_total a b : gap_key_leb a b = true ∨ gap_key_leb b a = true.
Proof.
  unfold gap_key_leb. rewrite (Z.eqb_sym (rg_start_at b)), (Z.eqb_sym (rg_end_at b)).
  destruct (_ =? _) eqn:E1; [|lia]. destruct (rg_end_at a =? _) eqn:E2; [|lia].
  apply text_leb_total.
Qed.
Lemma gap_key_leb_start a b : gap_key_leb a b = true → rg_start_at a ≤ rg_start_at b.
Proof. unfold gap_key_leb. destruct (_ =? _) eqn:E; lia. Qed.
Lemma gap_key_leb_trans a b c : gap_key_leb a b = true → gap_key_leb b c = true → gap_key_leb a c = true.
Proof.
  unfold gap_key_leb.
  destruct (rg_start_at a =? rg_start_at b) eqn:E1, (rg_start_at b =? rg_start_at c) eqn:E2,
    (rg_start_at a =? rg_start_at c) eqn:E3; try lia.
  destruct (rg_end_at a =? rg_end_at b) eqn:F1, (rg_end_at b =? rg_end_at c) eqn:F2,
    (rg_end_at a =? rg_end_at c) eqn:F3; try lia. apply text_leb_trans.
Qed.
Lemma loaded_ids m : gaps_ok p m → NoDup (map rg_gap_id (loaded m)).
Proof.
  intros Hm. unfold loaded. rewrite (sort_by_perm gap_key_leb _).
  replace (map rg_gap_id (map snd (map_to_list m))) with (map_to_list m).*1; [apply NoDup_fst_map_to_list|].
  rewrite map_map. apply map_ext_in. intros [id g] Hin%list_elem_of_In%elem_of_map_to_list.
  symmetry. by apply (gs_each _ _ Hm).
Qed.

Lemma load_gaps_spec m : gaps_ok p m → load_recorder_gaps p (row_of <$> m) = Ok (loaded m).
Proof.
  intros Hm. unfold load_recorder_gaps.
  replace (sort_by gap_order (map snd (map_to_list (row_of <$> m)))) with (map row_of (loaded m)).
  - rewrite collect_rows_represent.
    2: { apply Forall_forall. intros g [id Hg]%elem_of_loaded. by apply (gs_each _ _ Hm) in Hg as [_ []]. }
    change (Ok ?x ≫= ?f) with (f x). cbv beta.
    assert (∀ gs, Forall (valid_gap p) gs →
      fold_result (λ (_ : ()) gap, validate_recorder_gap gap (Some p)) () gs = Ok ()) as ->; [|done|].
    + induction 1 as [|g gs Hg _ IH]; [done|]. cbn [fold_result].
      by rewrite (proj2 (validate_recorder_gap_Ok g p ()) Hg).
    + apply Forall_forall. intros g [id Hg]%elem_of_loaded. by apply (gs_each _ _ Hm) in Hg as [_ []].
  - unfold loaded. rewrite map_to_list_fmap.
    transitivity (sort_by gap_order (map row_of (map snd (map_to_list m)))).
    + by apply sort_by_map.
    + f_equal. change (prod_map id row_of <$> map_to_list m) with (map (prod_map id row_of) (map_to_list m)).
      rewrite !map_map. by apply map_ext; intros [].
Qed.

Definition published (g : RecorderGap) : bool :=
  text_eqb (rg_state g) (lit "confirmed") && opt_is_some (rg_reset_at g).
Definition ends_before (a b : RecorderGap) : Prop := rg_end_at a < rg_start_at b.
Lemma apart_in_order gs :
  StronglySorted (λ a b, gap_key_leb a b = true) gs → NoDup (map rg_gap_id gs) →
  (∀ a b, a ∈ gs → b ∈ gs → rg_gap_id a ≠ rg_gap_id b → apart a b) →
  (∀ a, a ∈ gs → rg_start_at a ≤ rg_end_at a) → StronglySorted ends_before gs.
Proof.
  induction 1 as [|a gs HS IH Ha]; intros HN Hap Hle; [by constructor|].
  apply NoDup_cons in HN as [Hn HN]. rewrite Forall_forall in Ha.
  constructor.
  - apply IH; [done| |]; intros; [apply Hap|apply Hle]; try done; by right.
  - apply Forall_forall. intros b Hb. unfold ends_before.
    pose proof (gap_key_leb_start _ _ (Ha b Hb)). pose proof (Hle b ltac:(by right)).
    destruct (Hap a b) as [?|?]; [by left|by right| |done|lia].
    intros E. apply Hn. rewrite E. apply list_elem_of_fmap. by exists b.
Qed.
Lemma overlap_fold_Ok gs furthest :
  StronglySorted ends_before gs → (∀ a, a ∈ gs → rg_start_at a ≤ rg_end_at a) →
  (∀ a, a ∈ gs → from_option (λ e, e < rg_start_at a) True furthest) →
  ∃ e, fold_result overlap_step furthest gs = Ok e.
Proof.
  intros HS. revert furthest. induction HS as [|a gs HS IH Ha]; intros furthest Hle Hf; [by eexists|].
  cbn [fold_result]. rewrite Forall_forall in Ha.
  unfold overlap_step at 1. rewrite (proj2 (is_some_and_from_option _ (λ e, e < rg_start_at a) _ (λ e, Z.leb_gt _ _)))
    by (apply Hf; by left).
  change (Ok ?x ≫= ?f) with (f x). cbv beta. apply IH; [intros; apply Hle; by right|].
  intros b Hb. cbn [from_option]. pose proof (Ha b Hb). unfold ends_before in *.
  pose proof (Hf a ltac:(by left)). pose proof (Hle a ltac:(by left)).
  destruct furthest; cbn [default from_option] in *; unfold id; lia.
Qed.
Lemma repair_proof_reset g : validate_gap_repair_proof g = Ok () → opt_is_some (rg_reset_at g) = true.
Proof. unfold validate_gap_repair_proof. destruct (rg_reset_at g); [done|]. cbn [is_none_or]. by rewrite orb_true_r. Qed.
Lemma published_confirmed m id g : gaps_ok p m → m !! id = Some g → published g = confirmed g.
Proof.
  intros Hm Hg. unfold published. fold (confirmed g). destruct (confirmed g) eqn:E; [|done].
  apply repair_proof_reset. eapply go_proof; [by eapply gs_each|].
  unfold confirmed in E. unfold proven, is_any. cbn [existsb]. by rewrite E, orb_true_r.
Qed.
Lemma load_confirmed_spec m : gaps_ok p m → ∃ gs,
  load_confirmed_recorder_gaps p (row_of <$> m) = Ok gs
  ∧ (∀ g, g ∈ gs ↔ ∃ id, m !! id = Some g ∧ confirmed g = true).
Proof.
  intros Hm. unfold load_confirmed_recorder_gaps. rewrite load_gaps_spec by done.
  change (Ok ?x ≫= ?f) with (f x). cbv beta zeta. fold published.
  change (λ gap : RecorderGap, text_eqb (rg_state gap) (lit "confirmed") && opt_is_some (rg_reset_at gap))
    with published.
  set (gs := sort_by gap_key_leb (List.filter published (loaded m))).
  assert (∀ g, g ∈ gs ↔ ∃ id, m !! id = Some g ∧ confirmed g = true) as Hgs.
  { intros g. unfold gs. rewrite sort_by_elem, elem_of_filter_bool, elem_of_loaded. split.
    - intros [[id Hg] Hp]. exists id. split; [done|]. by rewrite <- (published_confirmed m id).
    - intros (id&Hg&Hc). split; [by exists id|by rewrite (published_confirmed m id)]. }
  destruct (overlap_fold_Ok gs None) as [e ->].
  - apply apart_in_order.
    + apply sort_by_sorted; [apply gap_key_leb_total|apply gap_key_leb_trans].
    + unfold gs. rewrite (sort_by_perm gap_key_leb _). apply filter_NoDup_map, loaded_ids, Hm.
    + intros a b (ia&Ha&Ca)%Hgs (ib&Hb&Cb)%Hgs Hne. eapply (gs_apart _ _ Hm); try done.
      intros ->. congruence.
    + intros a (ia&Ha&_)%Hgs. by destruct (gs_each _ _ Hm _ _ Ha) as [_ [_ [] _ _]].
  - intros a (ia&Ha&_)%Hgs. by destruct (gs_each _ _ Hm _ _ Ha) as [_ [_ [] _ _]].
  - done.
  - eexists. split; [done|]. intros g. by rewrite sort_by_elem, Hgs.
Qed.

(** ** Reconciliation *)
Record scan_wf (scan : SourceRescan) : Prop := {
  sw_resumed : is_u64 (sr_resumed_at_monotonic_ns scan);
  sw_seq : is_u64 (sr_confirmation_cycle_seq scan)
}.
(** The rescan proves nothing about the gap. *)
Definition quiet (scan : SourceRescan) (g : RecorderGap) : Prop :=
  stale_proof scan g = true ∨ resolved_state scan g = None.
Lemma terminal_wf scan g state : scan_wf scan → gap_wf g → gap_wf (terminal_gap scan g state).
Proof. intros [] []. by split. Qed.
Lemma resolved_state_cases scan g state : resolved_state scan g = Some state →
  state = lit "rejected" ∨ state = lit "recovered" ∨ state = lit "confirmed".
Proof. unfold resolved_state. repeat case_match; naive_solver. Qed.
Lemma terminal_not_pending scan g state :
  state = lit "rejected" ∨ state = lit "recovered" ∨ state = lit "confirmed" →
  is_pending (terminal_gap scan g state) = false.
Proof. by intros [-> |[-> | ->]]. Qed.

Lemma resolve_gap_result m scan g l' t :
  gaps_ok p m → gap_wf g → scan_wf scan → resolve_gap p scan (row_of <$> m) g = Ok (l', t) →
  match t with
  | None => l' = row_of <$> m ∧ quiet scan g
  | Some t => rg_gap_id t = rg_gap_id g ∧ is_pending t = false
      ∧ l' = row_of <$> <[rg_gap_id t := t]> m ∧ gap_step p m (<[rg_gap_id t := t]> m)
  end.
Proof.
  intros Hm Hwf Hs. unfold resolve_gap, quiet.
  destruct (stale_proof scan g); [intros [= <- <-]; split; [done|by left]|].
  destruct (resolved_state scan g) as [state|] eqn:Er; [|intros [= <- <-]; split; [done|by right]].
  apply resolved_state_cases in Er.
  set (overlaps := _ && _). set (st := if overlaps then lit "rejected" else state).
  assert (st = lit "rejected" ∨ st = lit "recovered" ∨ st = lit "confirmed") as Hst
    by (unfold st; destruct overlaps; [by left|done]).
  intros (l&Hl&[= <- <-])%bind_Ok.
  pose proof (terminal_wf scan g st Hs Hwf) as Ht.
  split; [done|]. split; [by apply terminal_not_pending|].
  destruct (text_eqb state (lit "recovered")); [by apply recover_refines in Hl|].
  destruct (_ && _) in Hl; [by apply confirm_refines in Hl|].
  by apply transition_refines in Hl.
Qed.

Lemma resolve_gaps_result m scan pending :
  gaps_ok p m → scan_wf scan → NoDup (map rg_gap_id pending) →
  (∀ g, g ∈ pending → m !! rg_gap_id g = Some g) →
  ∃ m', (resolve_gaps p scan (row_of <$> m) pending).1 = row_of <$> m' ∧ gaps_ok p m'
    ∧ rtc (gap_step p) m m'
    ∧ (∀ id, id ∉ map rg_gap_id pending → m' !! id = m !! id)
    ∧ (is_ok (resolve_gaps p scan (row_of <$> m) pending).2 = true →
       ∀ g, g ∈ pending → quiet scan g ∧ m' !! rg_gap_id g = Some g
         ∨ ∃ t, m' !! rg_gap_id g = Some t ∧ is_pending t = false).
Proof.
  intros Hm Hs. revert m Hm. induction pending as [|g rest IH]; intros m Hm HN Hin.
  { exists m. split_and!; try done. by intros _ g ?%elem_of_nil. }
  apply NoDup_cons in HN as [Hn HN]. cbn [resolve_gaps].
  assert (gap_wf g) as Hwf by (eapply go_wf, (gs_each _ _ Hm), Hin; by left).
  destruct (resolve_gap p scan (row_of <$> m) g) as [[l1 t]|e] eqn:E.
  2: { exists m. by split_and!. }
  pose proof (resolve_gap_result _ _ _ _ _ Hm Hwf Hs E) as Hr.
  assert (∃ m1, l1 = row_of <$> m1 ∧ gaps_ok p m1 ∧ rtc (gap_step p) m m1
    ∧ (∀ id, id ≠ rg_gap_id g → m1 !! id = m !! id)
    ∧ (quiet scan g ∧ m1 !! rg_gap_id g = Some g
       ∨ ∃ t, m1 !! rg_gap_id g = Some t ∧ is_pending t = false)) as (m1&->&Hm1&Hst&Hsame&Hg).
  { destruct t as [t|].
    - destruct Hr as (Hid&Hp&->&Hstep). rewrite Hid in Hstep |- *.
      exists (<[rg_gap_id g := t]> m). split_and!; try done.
      + by eapply gap_step_ok.
      + by apply rtc_once.
      + intros id ?. by apply lookup_insert_ne.
      + right. exists t. by rewrite lookup_insert_eq.
    - destruct Hr as [-> Hq]. exists m. split_and!; try done. left. split; [done|]. apply Hin. by left. }
  destruct (IH m1 Hm1 HN) as (m'&Hl&Hm'&Hst'&Hsame'&Hq).
  { intros h Hh. rewrite Hsame; [apply Hin; by right|]. intros Eid. apply Hn. rewrite <- Eid.
    apply list_elem_of_fmap. by exists h. }
  destruct (resolve_gaps p scan (row_of <$> m1) rest) as [l2 r]. cbn [fst snd] in *. subst l2.
  exists m'. split_and!; try done.
  - by etransitivity.
  - intros id [Hi1 Hi2]%not_elem_of_cons. by rewrite Hsame', Hsame.
  - intros Hok h Hh. assert (is_ok r = true) as Hr' by (destruct r; done).
    apply elem_of_cons in Hh as [->|Hh]; [|by apply Hq].
    by rewrite (Hsame' (rg_gap_id g)).
Qed.
Lemma resolve_quiet m scan pending : Forall (quiet scan) pending →
  resolve_gaps p scan m pending = (m, Ok []).
Proof.
  induction 1 as [|g rest Hg _ IH]; [done|]. cbn [resolve_gaps]. unfold resolve_gap.
  destruct (stale_proof scan g) eqn:Es; [by rewrite IH|].
  destruct Hg as [Hg|Hg]; [congruence|]. by rewrite Hg, IH.
Qed.
Definition pending_gaps (m : Gaps) : list RecorderGap := List.filter is_pending (loaded m).
Lemma elem_of_pending_gaps m g : gaps_ok p m → g ∈ pending_gaps m ↔ m !! rg_gap_id g = Some g ∧ is_pending g = true.
Proof.
  intros Hm. unfold pending_gaps. rewrite elem_of_filter_bool, elem_of_loaded. split.
  - intros [[id Hg] Hp]. split; [|done]. by destruct (gs_each _ _ Hm _ _ Hg) as [-> _].
  - intros [Hg Hp]. split; [by eexists|done].
Qed.
Lemma reconcile_unfold m scan : gaps_ok p m → validate_recorder_source_rescan scan = Ok () →
  reconcile_pending_recorder_gaps p (row_of <$> m) scan = resolve_gaps p scan (row_of <$> m) (pending_gaps m).
Proof. intros Hm Hv. unfold reconcile_pending_recorder_gaps. by rewrite Hv, load_gaps_spec. Qed.
Lemma reconcile_result m scan : gaps_ok p m → scan_wf scan →
  ∃ m', (reconcile_pending_recorder_gaps p (row_of <$> m) scan).1 = row_of <$> m' ∧ gaps_ok p m'
    ∧ rtc (gap_step p) m m'
    ∧ (is_ok (reconcile_pending_recorder_gaps p (row_of <$> m) scan).2 = true →
       validate_recorder_source_rescan scan = Ok () ∧ Forall (quiet scan) (pending_gaps m')).
Proof.
  intros Hm Hs. destruct (validate_recorder_source_rescan scan) as [[]|e] eqn:Hv.
  2: { exists m. unfold reconcile_pending_recorder_gaps. rewrite Hv. by split_and!. }
  rewrite reconcile_unfold by done.
  destruct (resolve_gaps_result m scan (pending_gaps m) Hm Hs) as (m'&H1&H2&H3&H4&H5).
  { apply filter_NoDup_map. by apply loaded_ids. }
  { intros g Hg. by apply (elem_of_pending_gaps m g Hm) in Hg as [? _]. }
  exists m'. split_and!; try done. intros Hok. split; [done|]. apply Forall_forall.
  intros g [Hg Hp]%elem_of_pending_gaps; [|done].
  destruct (decide (rg_gap_id g ∈ map rg_gap_id (pending_gaps m))) as [Hd|Hd].
  - apply list_elem_of_fmap in Hd as (h&Eid&Hh).
    destruct (H5 Hok h Hh) as [[Hq E]|(t&Ht&Hpt)].
    + rewrite <- Eid, Hg in E. by injection E as <-.
    + rewrite <- Eid, Hg in Ht. injection Ht as <-. congruence.
  - rewrite (H4 _ Hd) in Hg. exfalso. apply Hd. apply list_elem_of_fmap. exists g.
    split; [done|]. by apply elem_of_pending_gaps.
Qed.
End ledger.
