(* ===== verification/GapProperties.v ===== *)
(** * Every history of the gap ledger

    The calls of the store as a step relation on ledgers, and what holds after any
    number of them, failed reconciliations included. *)

From S2P Require Import Prelude Text Contract SourceAdmission GapLedger GapFacts GapReconcile.

Section calls.
Context (p : text).

(** A call that returns, or a reconciliation, which keeps the transitions it
    committed before an error. *)
Inductive ledger_call (l : Ledger) : Ledger → Prop :=
  | call_upsert g l' : gap_wf g → upsert_recorder_gap p l g = Ok l' → ledger_call l l'
  | call_begin g l' : gap_wf g → begin_recorder_gap p l g = Ok l' → ledger_call l l'
  | call_record g l' : gap_wf g → record_recorder_gap p l g = Ok l' → ledger_call l l'
  | call_recover g l' : gap_wf g → recover_recorder_gap p l g = Ok l' → ledger_call l l'
  | call_confirm g l' : gap_wf g → confirm_recorder_gap p l g = Ok l' → ledger_call l l'
  | call_reconcile scan : scan_wf scan →
      ledger_call l (reconcile_pending_recorder_gaps p l scan).1.
Definition reachable (l : Ledger) : Prop := rtc ledger_call ∅ l.

Lemma call_steps m l' : gaps_ok p m → ledger_call (row_of <$> m) l' →
  ∃ m', l' = row_of <$> m' ∧ gaps_ok p m' ∧ rtc (gap_step p) m m'.
Proof.
  intros Hm H. assert (∀ m', l' = row_of <$> m' → gap_step p m m' →
    ∃ m', l' = row_of <$> m' ∧ gaps_ok p m' ∧ rtc (gap_step p) m m') as Hone.
  { intros m' -> Hs. exists m'. split_and!; [done|by eapply gap_step_ok|by apply rtc_once]. }
  destruct H as [g l' Hg H|g l' Hg H|g l' Hg H|g l' Hg H|g l' Hg H|scan Hs].
  - apply upsert_refines in H as (m'&?&?); eauto.
  - apply begin_refines in H as (m'&?&?); eauto.
  - apply transition_refines in H as [? ?]; eauto.
  - apply recover_refines in H as [? ?]; eauto.
  - apply confirm_refines in H as [? ?]; eauto.
  - destruct (reconcile_result p m scan Hm Hs) as (m'&?&?&?&_). by exists m'.
Qed.
Lemma empty_ok : gaps_ok p ∅.
Proof. by split. Qed.
Lemma reachable_from m l : gaps_ok p m → rtc ledger_call (row_of <$> m) l →
  ∃ m', l = row_of <$> m' ∧ gaps_ok p m' ∧ rtc (gap_step p) m m'.
Proof.
  intros Hm H. remember (row_of <$> m) as l0 eqn:E. revert m Hm E.
  induction H as [l|l l1 l2 Hc _ IH]; intros m Hm ->; [by exists m|].
  apply call_steps in Hc as (m1&->&Hm1&Hs1); [|done].
  destruct (IH m1 Hm1 eq_refl) as (m2&->&Hm2&Hs2). exists m2. split_and!; [done..|by etransitivity].
Qed.
Lemma reachable_ledger l : reachable l → ∃ m, l = row_of <$> m ∧ gaps_ok p m ∧ rtc (gap_step p) ∅ m.
Proof.
  intros H. apply (reachable_from ∅); [apply empty_ok|]. by rewrite fmap_empty.
Qed.

Lemma same_interval_refl g : same_interval g g.
Proof. by repeat split. Qed.
Lemma same_interval_trans g g' g'' : same_interval g g' → same_interval g' g'' → same_interval g g''.
Proof. unfold same_interval. intuition congruence. Qed.
Lemma closed_states_final (m m' : Gaps) id g : rtc (gap_step p) m m' → gaps_ok p m → m !! id = Some g →
  ∃ g', m' !! id = Some g' ∧ same_interval g g' ∧ (is_pending g = false → g' = g).
Proof.
  intros H. revert g. induction H as [m|m m1 m2 Hs _ IH]; intros g Hm Hg.
  { exists g. split_and!; [done|apply same_interval_refl|done]. }
  assert (∃ g1, m1 !! id = Some g1 ∧ same_interval g g1 ∧ (is_pending g = false → g1 = g)) as (g1&Hg1&Hi1&Hf1).
  { destruct Hs as [|h Hn Hp Hok|h h' Hh Hp Hi Hst Hok Hc].
    - exists g. split_and!; [done|apply same_interval_refl|done].
    - exists g. rewrite lookup_insert_ne by congruence. split_and!; [done|apply same_interval_refl|done].
    - destruct (decide (id = rg_gap_id h')) as [->|Hne].
      + exists h'. rewrite lookup_insert_eq. assert (h = g) as -> by congruence.
        split_and!; [done..|congruence].
      + exists g. rewrite lookup_insert_ne by done. split_and!; [done|apply same_interval_refl|done]. }
  destruct (IH g1 (gap_step_ok _ _ _ Hs Hm) Hg1) as (g2&Hg2&Hi2&Hf2).
  exists g2. split_and!; [done|by eapply same_interval_trans|].
  intros Hp. specialize (Hf1 Hp). subst g1. by apply Hf2.
Qed.

(** ** A pending gap whose clock is ahead of the rescan's *)
Lemma stale_clock_resolve scan l g : stale_proof scan g = false →
  is_Some (resolved_state scan g) → sr_resumed_at_monotonic_ns scan < rg_stopped_at_monotonic_ns g →
  ∃ e, resolve_gap p scan l g = Err e.
Proof.
  intros Hp [state Hs] Hclock. unfold resolve_gap. rewrite Hp, Hs. cbv zeta.
  match goal with |- context [terminal_gap scan g ?s] => set (st := s) end.
  assert (∀ l', transition_recorder_gap p l (terminal_gap scan g st) ≠ Ok l') as Hbad.
  { intros l' H. unfold transition_recorder_gap in H.
    apply bind_Ok in H as (?&Hv%validate_recorder_gap_Ok&_). destruct Hv.
    cbn [rg_resumed_at_monotonic_ns rg_stopped_at_monotonic_ns terminal_gap from_option] in vg_resumed. lia. }
  match goal with |- ∃ e, ?r ≫= _ = Err e => destruct r as [l'|e] eqn:E; [|by exists e] end.
  exfalso. destruct (text_eqb state (lit "recovered")); [|destruct (_ && negb _) in E].
  - unfold recover_recorder_gap in E. destruct (negb _) in E; [done|]. apply bind_Ok in E as (?&_&E). by eapply Hbad.
  - unfold confirm_recorder_gap in E. destruct (negb _) in E; [done|]. apply bind_Ok in E as (?&_&E). by eapply Hbad.
  - by eapply Hbad.
Qed.
Lemma stale_clock_resolve_all scan m pending g :
  gaps_ok p m → scan_wf scan → NoDup (map rg_gap_id pending) →
  (∀ h, h ∈ pending → m !! rg_gap_id h = Some h) → g ∈ pending → stale_proof scan g = false →
  is_Some (resolved_state scan g) → sr_resumed_at_monotonic_ns scan < rg_stopped_at_monotonic_ns g →
  ∃ m' e, resolve_gaps p scan (row_of <$> m) pending = (row_of <$> m', Err e) ∧ gaps_ok p m'
    ∧ m' !! rg_gap_id g = Some g.
Proof.
  intros Hm Hs HN Hin Hg Hp Hr Hclock. revert m Hm Hin.
  induction pending as [|h rest IH]; intros m Hm Hin; [by apply elem_of_nil in Hg|].
  apply NoDup_cons in HN as [Hn HN]. cbn [resolve_gaps].
  destruct (resolve_gap p scan (row_of <$> m) h) as [[l1 t]|e] eqn:E.
  2: { exists m, e. split_and!; [done..|]. by apply Hin. }
  apply elem_of_cons in Hg as [<-|Hg].
  { destruct (stale_clock_resolve scan (row_of <$> m) g Hp Hr Hclock) as [e E']. congruence. }
  assert (rg_gap_id g ≠ rg_gap_id h) as Hne.
  { intros Eid. apply Hn. rewrite <- Eid. apply list_elem_of_fmap. by exists g. }
  assert (gap_wf h) as Hwf by (eapply go_wf, (gs_each _ _ Hm), Hin; by left).
  pose proof (resolve_gap_result _ _ _ _ _ _ Hm Hwf Hs E) as Ht.
  assert (∃ m1, l1 = row_of <$> m1 ∧ gaps_ok p m1 ∧ ∀ id, id ≠ rg_gap_id h → m1 !! id = m !! id)
    as (m1&->&Hm1&Hsame).
  { destruct t as [t|].
    - destruct Ht as (Hid&_&->&Hstep). exists (<[rg_gap_id t := t]> m). split_and!; [done|by eapply gap_step_ok|].
      intros id ?. apply lookup_insert_ne. congruence.
    - destruct Ht as [-> _]. by exists m. }
  destruct (IH HN Hg m1 Hm1) as (m'&e&->&Hm'&Hg').
  { intros k Hk. rewrite Hsame; [apply Hin; by right|]. intros Eid. apply Hn. rewrite <- Eid.
    apply list_elem_of_fmap. by exists k. }
  by exists m', e.
Qed.
End calls.

(** ** Properties *)

(** C7. The ledger refines the abstract ledger of intervals opened once and closed once:
    after any calls the table is the encoding of a map of valid gaps reached by
    opening a pending gap under a new id, or closing a pending gap with the same
    interval and identity, a confirmed one only if no confirmed interval meets it. *)
Theorem ledger_refines p l : reachable p l →
  ∃ m, l = row_of <$> m ∧ gaps_ok p m ∧ rtc (gap_step p) ∅ m.
Proof. apply reachable_ledger. Qed.

(** No call loses or reinterprets a stored gap: it keeps its interval, period and
    owner, and once it is no longer pending no call changes it at all. *)
Theorem closed_gap_is_final p l l' id g :
  reachable p l → rtc (ledger_call p) l l' → find_gap l id = Ok (Some g) →
  ∃ g', find_gap l' id = Ok (Some g') ∧ same_interval g g' ∧ (is_pending g = false → g' = g).
Proof.
  intros (m&->&Hm&_)%reachable_ledger Hc. rewrite (find_gap_represents p) by done. intros [= Hg].
  apply reachable_from in Hc as (m'&->&Hm'&Hst); [|done].
  destruct (closed_states_final _ _ _ _ _ Hst Hm Hg) as (g'&Hg'&?&?).
  exists g'. rewrite (find_gap_represents p) by done. by rewrite Hg'.
Qed.

(** Every reachable ledger loads: the public loader returns exactly the confirmed
    gaps, whose closed intervals are pairwise disjoint, and never its overlap error. *)
Theorem confirmed_gaps_load p l : reachable p l →
  ∃ gs, load_confirmed_recorder_gaps p l = Ok gs
    ∧ (∀ g, g ∈ gs ↔ ∃ id, find_gap l id = Ok (Some g) ∧ confirmed g = true)
    ∧ (∀ g g', g ∈ gs → g' ∈ gs → rg_gap_id g ≠ rg_gap_id g' → apart g g').
Proof.
  intros (m&->&Hm&_)%reachable_ledger. destruct (load_confirmed_spec p m Hm) as (gs&Hl&Hgs).
  assert (∀ id g, find_gap (row_of <$> m) id = Ok (Some g) ↔ m !! id = Some g) as Hf.
  { intros id g. rewrite (find_gap_represents p) by done. split; [by intros [=]|by intros ->]. }
  exists gs. split_and!; [done| |].
  - intros g. rewrite Hgs. by setoid_rewrite Hf.
  - intros g g' (id&Hg&C)%Hgs (id'&Hg'&C')%Hgs Hne. eapply (gs_apart _ _ Hm); try done.
    intros ->. congruence.
Qed.

(** C8. Repeating an acknowledged rescan is a no-op: after a reconciliation that
    returned, the same rescan changes no row and reports no transition. *)
Theorem reconcile_idempotent p l scan l' ts :
  reachable p l → scan_wf scan → reconcile_pending_recorder_gaps p l scan = (l', Ok ts) →
  reconcile_pending_recorder_gaps p l' scan = (l', Ok []).
Proof.
  intros (m&->&Hm&_)%reachable_ledger Hs H.
  destruct (reconcile_result p m scan Hm Hs) as (m'&Hl&Hm'&_&Hq). rewrite H in Hl, Hq. cbn [fst snd] in *.
  destruct (Hq eq_refl) as [Hv HF]. subst l'. rewrite reconcile_unfold by done. by apply resolve_quiet.
Qed.

(** A rescan recovers a pending gap exactly when at least one minute starts inside
    it, after the instant the recorder stopped, and the rescan saw every such minute. *)
Theorem recovery_needs_every_minute p l g scan :
  reachable p l → find_gap l (rg_gap_id g) = Ok (Some g) → validate_recorder_source_rescan scan = Ok () →
  source_minutes_cover_gap g (sr_source_minutes scan) = true ↔
  (∃ m, m mod 60 = 0 ∧ rg_start_at g < m ≤ rg_end_at g)
  ∧ ∀ m, m mod 60 = 0 → rg_start_at g < m ≤ rg_end_at g → m ∈ sr_source_minutes scan.
Proof.
  intros (m&->&Hm&_)%reachable_ledger. rewrite (find_gap_represents p) by done. intros [= Hg] Hv.
  destruct (gs_each _ _ Hm _ _ Hg) as [_ [Hwf [] _ _]].
  unfold validate_recorder_source_rescan in Hv.
  apply bind_Ok in Hv as (?&_&Hv). apply bind_Ok in Hv as (?&_&Hv).
  destruct (_ || _) in Hv; [done|]. destruct (_ || _) eqn:E in Hv; [done|].
  rewrite !orb_false_iff, Z.ltb_ge in E. destruct E as [_ Hlen].
  rewrite (cover_gap_exact g _ () Hwf vg_start Hv Hlen). unfold boundary_inside, minute_start.
  split; (intros [? H]; split; [done|]); [intros k ? ?; by apply H|intros k [? ?]; by apply H].
Qed.

(** C9. A monotonic clock that restarts stops the ledger: while one pending gap that the
    rescan decides has a stop mark ahead of the rescan's clock, every reconciliation
    returns an error and leaves that gap pending. *)
Theorem restarted_clock_blocks_reconciliation p l scan g :
  reachable p l → scan_wf scan → find_gap l (rg_gap_id g) = Ok (Some g) → is_pending g = true →
  stale_proof scan g = false → is_Some (resolved_state scan g) →
  sr_resumed_at_monotonic_ns scan < rg_stopped_at_monotonic_ns g →
  ∃ l' e, reconcile_pending_recorder_gaps p l scan = (l', Err e)
    ∧ find_gap l' (rg_gap_id g) = Ok (Some g).
Proof.
  intros (m&->&Hm&_)%reachable_ledger Hs Hg Hp Hst Hr Hclock.
  rewrite (find_gap_represents p) in Hg by done. injection Hg as Hg.
  destruct (validate_recorder_source_rescan scan) as [[]|e] eqn:Hv.
  2: { exists (row_of <$> m), e. unfold reconcile_pending_recorder_gaps. rewrite Hv.
       by rewrite (find_gap_represents p), Hg. }
  rewrite reconcile_unfold by done.
  destruct (stale_clock_resolve_all p scan m (pending_gaps m) g) as (m'&e&->&Hm'&Hg'); try done.
  - apply filter_NoDup_map. by apply (loaded_ids p).
  - intros h Hh. by apply (elem_of_pending_gaps p m h Hm) in Hh as [? _].
  - by apply (elem_of_pending_gaps p m g Hm).
  - exists (row_of <$> m'), e. by rewrite (find_gap_represents p), Hg'.
Qed.

(** ** A stop at second 100, restarted at second 250 *)
Definition example_partition : text := repeat 48 64.
Definition example_gap : RecorderGap := {|
  rg_gap_id := repeat 97 32; rg_partition_id := example_partition;
  rg_source_identity_before := lit "resident"; rg_source_identity_after := UNRESOLVED;
  rg_cursor_before := lit "generation-1"; rg_cursor_after := UNRESOLVED;
  rg_stopped_at_monotonic_ns := 40; rg_resumed_at_monotonic_ns := None;
  rg_start_at := 100; rg_end_at := 250; rg_reset_at := Some 2000;
  rg_reason := lit "daemon_stop_unrecoverable"; rg_state := lit "pending";
  rg_owner_collector_epoch := 7; rg_confirmation_cycle_seq := 1 |}.
Definition example_scan (resumed : Z) : SourceRescan := {|
  sr_source_identity_after := lit "authenticated-quota"; sr_cursor_after := lit "collector:7";
  sr_resumed_at_monotonic_ns := resumed; sr_reset_at := 2000; sr_owner_collector_epoch := 7;
  sr_confirmation_cycle_seq := 9; sr_source_minutes := [60; 120; 180; 240]; sr_source_closed := true |}.
Definition example_ledger : Ledger :=
  default ∅ (result_ok (begin_recorder_gap example_partition ∅ example_gap)).
Definition example_outcome := reconcile_pending_recorder_gaps example_partition example_ledger (example_scan 50).

Lemma ok_default {E A} (d : A) (r : result E A) : is_ok r = true → r = Ok (default d (result_ok r)).
Proof. by destruct r. Qed.
Lemma example_gap_wf : gap_wf example_gap.
Proof. by split. Qed.
Lemma example_scan_wf resumed : is_u64 resumed → scan_wf (example_scan resumed).
Proof. by split. Qed.
Lemma example_reachable : reachable example_partition example_ledger.
Proof.
  apply rtc_once. apply (call_begin _ _ example_gap); [apply example_gap_wf|].
  apply ok_default. by vm_compute.
Qed.
Lemma example_found : find_gap example_ledger (rg_gap_id example_gap) = Ok (Some example_gap).
Proof. by vm_compute. Qed.

Lemma ledger_refines_witness :
  ∃ m, example_ledger = row_of <$> m ∧ gaps_ok example_partition m ∧ rtc (gap_step example_partition) ∅ m.
Proof. apply ledger_refines, example_reachable. Defined.
Lemma closed_gap_is_final_witness :
  ∃ g', find_gap example_outcome.1 (rg_gap_id example_gap) = Ok (Some g')
    ∧ same_interval example_gap g' ∧ (is_pending example_gap = false → g' = example_gap).
Proof.
  apply (closed_gap_is_final example_partition example_ledger).
  - apply example_reachable.
  - apply rtc_once, call_reconcile, example_scan_wf. done.
  - apply example_found.
Defined.
Lemma confirmed_gaps_load_witness :
  ∃ gs, load_confirmed_recorder_gaps example_partition example_ledger = Ok gs
    ∧ (∀ g, g ∈ gs ↔ ∃ id, find_gap example_ledger id = Ok (Some g) ∧ confirmed g = true)
    ∧ (∀ g g', g ∈ gs → g' ∈ gs → rg_gap_id g ≠ rg_gap_id g' → apart g g').
Proof. apply confirmed_gaps_load, example_reachable. Defined.
Lemma reconcile_idempotent_witness :
  map rg_state (default [] (result_ok example_outcome.2)) = [lit "recovered"]
  ∧ reconcile_pending_recorder_gaps example_partition example_outcome.1 (example_scan 50) = (example_outcome.1, Ok []).
Proof.
  split; [by vm_compute|].
  apply (reconcile_idempotent example_partition example_ledger (example_scan 50) example_outcome.1
    (default [] (result_ok example_outcome.2))).
  - apply example_reachable.
  - by apply example_scan_wf.
  - rewrite <- ok_default by (by vm_compute). unfold example_outcome. by destruct (reconcile_pending_recorder_gaps _ _ _).
Defined.
Lemma recovery_needs_every_minute_witness :
  (source_minutes_cover_gap example_gap (sr_source_minutes (example_scan 50)) = true ↔
  (∃ m, m mod 60 = 0 ∧ rg_start_at example_gap < m ≤ rg_end_at example_gap)
  ∧ ∀ m, m mod 60 = 0 → rg_start_at example_gap < m ≤ rg_end_at example_gap →
      m ∈ sr_source_minutes (example_scan 50))
  ∧ source_minutes_cover_gap example_gap (sr_source_minutes (example_scan 50)) = true.
Proof.
  split; [|by vm_compute].
  apply (recovery_needs_every_minute example_partition example_ledger).
  - apply example_reachable.
  - apply example_found.
  - by vm_compute.
Defined.
Lemma restarted_clock_blocks_reconciliation_witness :
  ∃ l' e, reconcile_pending_recorder_gaps example_partition example_ledger (example_scan 30) = (l', Err e)
    ∧ find_gap l' (rg_gap_id example_gap) = Ok (Some example_gap).
Proof.
  apply restarted_clock_blocks_reconciliation.
  - apply example_reachable.
  - by apply example_scan_wf.
  - apply example_found.
  - by vm_compute.
  - by vm_compute.
  - eexists. by vm_compute.
  - by vm_compute.
Defined.
