(* ===== verification/ModelReconcile.v ===== *)
(** * The writer's model totals and the reconciliation of a rejected period

    Models the algebra of [SessionModelTotal] in [crates/codex-info-db-writer/src/lib.rs]:
    the canonical form of a vector of totals, its sums, the two orders in which a vector
    dominates another, the proof that a counter was reset, and
    [reconcile_rejected_generation_model_totals], which merges the totals of a retained
    period with those stored under a rejected alias of it. *)

From S2P Require Import Prelude Text TokenFacts Pricing SessionRecord History GapLedger.

Definition MAX_SESSION_MODEL_BYTES : Z := 512.
Definition valid_session_model (model : text) : bool :=
  negb (bool_decide (model = [])) && (str_len model <=? MAX_SESSION_MODEL_BYTES)
  && text_eqb (trim model) model && negb (existsb is_control model).

(** [SessionModelTotal::tokens], [replace_tokens], [pricing_usage] *)
Definition total_tokens_of (self : SessionModelTotal) : TokenFacts := facts (st_tokens self).
Definition replace_tokens (self : SessionModelTotal) (tokens : TokenFacts) : SessionModelTotal := {|
  st_model := st_model self; st_tokens := from_facts tokens |}.
Definition pricing_usage (self : SessionModelTotal) : option Usage :=
  input ← ts_input (st_tokens self);
  cached ← ts_cached_input (st_tokens self);
  output ← ts_output (st_tokens self);
  Some {| u_input_tokens := input; u_cached_input_tokens := cached;
          u_cache_write_input_tokens := ts_cache_write_input (st_tokens self);
          u_output_tokens := output |}.

(** [canonical.into_values().collect()] *)
Definition values_of (m : gmap text SessionModelTotal) : list SessionModelTotal := map snd (rows m).
Definition canonical_step (canonical : gmap text SessionModelTotal) (total : SessionModelTotal) :
    store_result (gmap text SessionModelTotal) :=
  if negb (valid_session_model (st_model total)) || negb (is_ok (validate_fact (total_tokens_of total)))
  then invalid "session model total is invalid"
  else if opt_is_some (canonical !! st_model total) then invalid "duplicate session model total"
  else Ok (<[st_model total := total]> canonical).
Definition canonicalize_model_totals (totals : list SessionModelTotal) : store_result (list SessionModelTotal) :=
  canonical ← fold_result canonical_step ∅ totals; Ok (values_of canonical).

Definition checked_add_model_total (target source : SessionModelTotal) : store_result SessionModelTotal :=
  tokens ← map_err (λ _, InvalidImport (lit "session model total sum is invalid"))
             (checked_sum (total_tokens_of target) (total_tokens_of source));
  Ok (replace_tokens target tokens).

Definition optional_counter_dominates (l r : option Z) (may_lose_knowledge : bool) : bool :=
  match l, r with
  | Some l, Some r => r <=? l
  | None, None => true
  | None, Some _ => may_lose_knowledge
  | Some _, None => false
  end.
Definition model_total_dominates (l r : SessionModelTotal) : bool :=
  let a := st_tokens l in let b := st_tokens r in
  text_eqb (st_model l) (st_model r) && (ts_total b <=? ts_total a)
  && optional_counter_dominates (ts_input a) (ts_input b) false
  && optional_counter_dominates (ts_cached_input a) (ts_cached_input b) false
  && optional_counter_dominates (ts_output a) (ts_output b) false
  && match ts_cache_write_input a, ts_cache_write_input b with
     | Some a, Some b => b <=? a
     | None, None => true
     | _, _ => false
     end.

(** A component that did not fall below a positive baseline, or is known on one side only. *)
Definition reset_unproven (component : option Z * option Z) : bool :=
  match component with
  | (Some before, Some after) => (0 <? before) && (before <=? after)
  | (None, None) => false
  | _ => true
  end.
Definition model_total_reset_is_proven (baseline observed : SessionModelTotal) : bool :=
  let a := st_tokens baseline in let b := st_tokens observed in
  if negb (text_eqb (st_model baseline) (st_model observed)) then false
  else if existsb reset_unproven
       [(Some (ts_total a), Some (ts_total b)); (ts_input a, ts_input b);
        (ts_cached_input a, ts_cached_input b); (ts_output a, ts_output b)] then false
  else match ts_cache_write_input a, ts_cache_write_input b with
       | Some before, Some after => negb ((0 <? before) && (before <=? after))
       | None, None => true
       | _, _ => false
       end.
Definition cumulative_model_totals_are_complete (totals : list SessionModelTotal) : bool :=
  forallb (λ total, let t := st_tokens total in
    opt_is_some (ts_input t) && opt_is_some (ts_cached_input t)
    && opt_is_some (ts_output t) && opt_is_some (ts_cache_write_input t)) totals.

(** [iter().map(|total| (model, total)).collect::<BTreeMap>()]: the last entry of a model stays. *)
Definition by_model (totals : list SessionModelTotal) : gmap text SessionModelTotal :=
  fold_left (λ m total, <[st_model total := total]> m) totals ∅.
Definition model_totals_dominate (l r : list SessionModelTotal) : bool :=
  forallb (λ required, is_some_and (λ candidate, model_total_dominates candidate required)
                         (by_model l !! st_model required)) r.
Definition timeline_dominates (candidate required : SessionModelTotal) : bool :=
  let a := st_tokens candidate in let b := st_tokens required in
  (ts_total b <=? ts_total a)
  && optional_counter_dominates (ts_input a) (ts_input b) true
  && optional_counter_dominates (ts_cached_input a) (ts_cached_input b) true
  && optional_counter_dominates (ts_output a) (ts_output b) true
  && match ts_cache_write_input a, ts_cache_write_input b with
     | Some a, Some b => b <=? a
     | None, _ => true
     | Some _, None => false
     end.
Definition timeline_model_totals_dominate (l r : list SessionModelTotal) : bool :=
  forallb (λ required, is_some_and (λ candidate, timeline_dominates candidate required)
                         (by_model l !! st_model required)) r.

Definition zero_total (model : text) : SessionModelTotal := {| st_model := model; st_tokens := ModelCounter_default |}.
Definition add_step (combined : gmap text SessionModelTotal) (offset : SessionModelTotal) :
    option (gmap text SessionModelTotal) :=
  let total := default (zero_total (st_model offset)) (combined !! st_model offset) in
  tokens ← result_ok (checked_sum (total_tokens_of total) (total_tokens_of offset));
  Some (<[st_model offset := replace_tokens total tokens]> combined).
Definition checked_add_model_totals (l r : list SessionModelTotal) : option (list SessionModelTotal) :=
  combined ← try_fold add_step (by_model l) r;
  result_ok (canonicalize_model_totals (values_of combined)).

(** One model of the merge; [None] when its two values are ambiguous. *)
Definition reconcile_model (baseline current : option SessionModelTotal) : option SessionModelTotal :=
  match baseline, current with
  | Some baseline, Some current =>
      if model_total_dominates current baseline then Some current
      else if model_total_reset_is_proven baseline current then
        combined ← checked_add_model_totals [baseline] [current]; head combined
      else None
  | Some baseline, None => Some baseline
  | None, Some current => Some current
  | None, None => None
  end.
Fixpoint reconcile_models (canonical rejected : gmap text SessionModelTotal) (models : list text) :
    option (list SessionModelTotal) :=
  match models with
  | [] => Some []
  | model :: rest =>
      total ← reconcile_model (canonical !! model) (rejected !! model);
      totals ← reconcile_models canonical rejected rest;
      Some (total :: totals)
  end.
(** [keys().chain(keys()).collect::<BTreeSet>()] *)
Definition models_of (canonical rejected : gmap text SessionModelTotal) : list text :=
  sort_by text_leb (elements (dom canonical ∪ dom rejected : gset text)).
Definition reconcile_rejected_generation_model_totals (canonical rejected : list SessionModelTotal) :
    store_result (option (list SessionModelTotal)) :=
  canonical ← canonicalize_model_totals canonical;
  rejected ← canonicalize_model_totals rejected;
  if negb (cumulative_model_totals_are_complete canonical)
     || negb (cumulative_model_totals_are_complete rejected)
  then Ok None
  else
    let canonical_by_model := by_model canonical in
    let rejected_by_model := by_model rejected in
    match reconcile_models canonical_by_model rejected_by_model
            (models_of canonical_by_model rejected_by_model) with
    | None => Ok None
    | Some reconciled => totals ← canonicalize_model_totals reconciled; Ok (Some totals)
    end.

(** * What the reconciliation of a rejected period returns

    Theorems about [ModelReconcile]: the canonical form of a vector of totals, the
    outcome of [reconcile_rejected_generation_model_totals] on every pair of vectors,
    that no retained counter ever falls, and that the two interpretations of a model
    agree where both apply. *)

Definition total_ok (t : SessionModelTotal) : Prop :=
  valid_session_model (st_model t) = true ∧ validate_fact (total_tokens_of t) = Ok ().
Definition model_before (a b : SessionModelTotal) : Prop := text_leb (st_model a) (st_model b) = true.
(** A vector in canonical form. *)
Definition canonical_form (ts : list SessionModelTotal) : Prop :=
  Forall total_ok ts ∧ NoDup (map st_model ts) ∧ StronglySorted model_before ts.
Definition keyed (m : gmap text SessionModelTotal) : Prop := ∀ k t, m !! k = Some t → st_model t = k.

(** ** Values of a keyed map *)
Lemma elem_of_values m t : keyed m → t ∈ values_of m ↔ m !! st_model t = Some t.
Proof.
  intros Hk. unfold values_of. change (map snd (rows m)) with (snd <$> rows m).
  rewrite list_elem_of_fmap. split.
  - intros ([k t']&->&H%elem_of_rows). cbn. by rewrite (Hk k t' H).
  - intros H%elem_of_rows. by exists (st_model t, t).
Qed.
Lemma values_models m : keyed m → map st_model (values_of m) = map fst (rows m).
Proof.
  intros Hk. unfold values_of. rewrite map_map. apply map_ext_in.
  intros [k t] H%list_elem_of_In%elem_of_rows. cbn. by apply Hk.
Qed.
Lemma values_sorted m : keyed m → StronglySorted model_before (values_of m).
Proof.
  intros Hk. unfold values_of. pose proof (rows_sorted m) as HS.
  assert (∀ r, r ∈ rows m → st_model r.2 = r.1) as Hin.
  { intros [k t] H%elem_of_rows. by apply Hk. }
  induction HS as [|r rs HS IH Hr]; [constructor|]. cbn [map]. constructor.
  - apply IH. intros. apply Hin. by right.
  - apply Forall_forall. intros t (r'&->&Hr')%list_elem_of_fmap. rewrite Forall_forall in Hr.
    unfold model_before. rewrite !Hin; [by apply Hr|by right|by left].
Qed.
Lemma values_NoDup m : keyed m → NoDup (map st_model (values_of m)).
Proof. intros. rewrite values_models by done. apply rows_NoDup. Qed.

(** ** The canonical form *)
Definition invalid_total (ts : list SessionModelTotal) : Prop := ¬ (Forall total_ok ts ∧ NoDup (map st_model ts)).
Lemma canonical_step_Ok m t m' : canonical_step m t = Ok m' ↔
  total_ok t ∧ m !! st_model t = None ∧ m' = <[st_model t := t]> m.
Proof.
  unfold canonical_step, total_ok. destruct (valid_session_model _); cbn [negb orb]; [|split; [done|by intros [[] _]]].
  destruct (validate_fact _) as [[]|]; cbn [is_ok negb]; [|split; [done|by intros [[] _]]].
  destruct (m !! _) eqn:E; cbn; [split; [done|by intros (_&?&_)]|].
  split; [by intros [= <-]|by intros (_&_&->)].
Qed.
Lemma canonical_fold ts m : keyed m →
  match fold_result canonical_step m ts with
  | Ok m' => keyed m' ∧ Forall total_ok ts ∧ NoDup (map st_model ts)
      ∧ (∀ t, t ∈ ts → m !! st_model t = None)
      ∧ (∀ t, m' !! st_model t = Some t ↔ m !! st_model t = Some t ∨ t ∈ ts)
  | Err _ => ¬ (Forall total_ok ts ∧ NoDup (map st_model ts) ∧ ∀ t, t ∈ ts → m !! st_model t = None)
  end.
Proof.
  revert m. induction ts as [|t ts IH]; intros m Hk; cbn [fold_result].
  { split_and!; try done; [constructor|by intros t ?%elem_of_nil|].
    intros t. split; [by left|]. by intros [?|?%elem_of_nil]. }
  destruct (canonical_step m t) as [m1|e] eqn:E.
  - apply canonical_step_Ok in E as (Hok&Hn&->).
    assert (keyed (<[st_model t := t]> m)) as Hk1.
    { intros k u [[<- <-]|[_ ?]]%lookup_insert_Some; [done|by apply Hk]. }
    specialize (IH _ Hk1). cbn [mbind result_bind]. destruct (fold_result _ _ ts) as [m'|e].
    + destruct IH as (Hk'&HF&HN&Hfresh&Hel).
      assert (st_model t ∉ map st_model ts) as Hnot.
      { intros (u&Eu&Hu)%list_elem_of_fmap. specialize (Hfresh u Hu). rewrite <- Eu, lookup_insert_eq in Hfresh. done. }
      split_and!; [done|by constructor|by constructor| |].
      * intros u [->|Hu]%elem_of_cons; [done|]. specialize (Hfresh u Hu).
        by apply lookup_insert_None in Hfresh as [? _].
      * intros u. rewrite Hel, elem_of_cons, lookup_insert_Some. split; [|].
        -- intros [[[_ ->]|[_ ?]]|?]; tauto.
        -- intros [Hu|[->|Hu]]; [|by left; left|by right]. left. right. split; [congruence|done].
    + intros (HF&HN&Hfresh). apply IH. inversion HF; subst. apply NoDup_cons in HN as [Hn' HN].
      split_and!; [done..|]. intros u Hu. rewrite lookup_insert_ne; [apply Hfresh; by right|].
      intros Eu. apply Hn'. rewrite Eu. apply list_elem_of_fmap. by exists u.
  - intros (HF&HN&Hfresh). inversion HF; subst.
    assert (canonical_step m t = Ok (<[st_model t := t]> m)) by
      (apply canonical_step_Ok; split_and!; [done|apply Hfresh; by left|done]).
    congruence.
Qed.
Lemma keyed_empty : keyed ∅.
Proof. intros k t H. by rewrite lookup_empty in H. Qed.
Lemma canonicalize_spec ts :
  match canonicalize_model_totals ts with
  | Ok rs => canonical_form rs ∧ rs ≡ₚ ts
  | Err _ => invalid_total ts
  end.
Proof.
  unfold canonicalize_model_totals, invalid_total. pose proof (canonical_fold ts ∅ keyed_empty) as H.
  destruct (fold_result _ _ ts) as [m|e]; cbn.
  - destruct H as (Hk&HF&HN&_&Hel). assert (values_of m ≡ₚ ts) as Hp.
    { apply NoDup_Permutation.
      - eapply NoDup_fmap_1, values_NoDup, Hk.
      - by eapply NoDup_fmap_1.
      - intros t. rewrite elem_of_values by done. rewrite Hel, lookup_empty. naive_solver. }
    split; [|done]. split_and!; [by rewrite Hp|by apply values_NoDup|by apply values_sorted].
  - intros [HF HN]. apply H. split_and!; [done..|]. intros. apply lookup_empty.
Qed.
Lemma canonicalize_Ok ts rs : canonicalize_model_totals ts = Ok rs → canonical_form rs ∧ rs ≡ₚ ts.
Proof. intros E. pose proof (canonicalize_spec ts) as H. by rewrite E in H. Qed.
Lemma canonicalize_total ts : Forall total_ok ts → NoDup (map st_model ts) → ∃ rs,
  canonicalize_model_totals ts = Ok rs ∧ canonical_form rs ∧ rs ≡ₚ ts.
Proof.
  intros HF HN. pose proof (canonicalize_spec ts) as H. destruct (canonicalize_model_totals ts) as [rs|e].
  - by exists rs.
  - by destruct H.
Qed.

(** ** Looking a model up *)
Lemma by_model_fold (ts : list SessionModelTotal) (m0 : gmap text SessionModelTotal) k t : NoDup (map st_model ts) →
  fold_left (λ m total, <[st_model total := total]> m) ts m0 !! k = Some t ↔
  (t ∈ ts ∧ st_model t = k) ∨ (k ∉ map st_model ts ∧ m0 !! k = Some t).
Proof.
  revert m0. induction ts as [|u ts IH]; intros m0 HN; cbn [fold_left map].
  { split; [intros H; right; split; [apply not_elem_of_nil|done]|]. by intros [[?%elem_of_nil _]|[_ ?]]. }
  apply NoDup_cons in HN as [Hn HN]. rewrite IH by done. rewrite elem_of_cons, not_elem_of_cons, lookup_insert_Some.
  split.
  - intros [[? ?]|[Hk [[<- <-]|[? ?]]]]; [left; tauto|left; tauto|right]. split; [split; [congruence|done]|done].
  - intros [[[->|?] <-]|[[? ?] ?]]; [right; split; [done|by left]|by left|right].
    split; [done|right; split; [congruence|done]].
Qed.
Lemma by_model_lookup ts k t : NoDup (map st_model ts) →
  by_model ts !! k = Some t ↔ t ∈ ts ∧ st_model t = k.
Proof.
  intros HN. unfold by_model. rewrite by_model_fold by done. rewrite lookup_empty. naive_solver.
Qed.
Lemma by_model_perm ts rs : NoDup (map st_model ts) → rs ≡ₚ ts → by_model rs = by_model ts.
Proof.
  intros HN Hp. apply map_eq. intros k. apply option_eq. intros t.
  rewrite !by_model_lookup; [by rewrite Hp|done|by rewrite Hp].
Qed.
Lemma by_model_dom ts k : NoDup (map st_model ts) → is_Some (by_model ts !! k) ↔ k ∈ map st_model ts.
Proof.
  intros HN. split.
  - intros [t [Ht <-]%by_model_lookup]; [|done]. apply list_elem_of_fmap. by exists t.
  - intros (t&->&Ht)%list_elem_of_fmap. exists t. by apply by_model_lookup.
Qed.

(** ** One model *)
Definition total_wf (t : SessionModelTotal) : Prop := tf_wf (total_tokens_of t).
Definition complete_total (t : SessionModelTotal) : Prop := cumulative_model_totals_are_complete [t] = true.
Record good_total (t : SessionModelTotal) : Prop := {
  gt_ok : total_ok t; gt_wf : total_wf t; gt_complete : complete_total t }.
Definition sum_total (a b : SessionModelTotal) : SessionModelTotal :=
  replace_tokens a (pointwise_sum (total_tokens_of a) (total_tokens_of b)).
(** The sum of two totals of a model, when it fits in 64 bits. *)
Lemma add_singletons a b : good_total a → good_total b → st_model a = st_model b →
  checked_add_model_totals [a] [b]
  = if ts_total (st_tokens a) + ts_total (st_tokens b) <=? u64_max then Some [sum_total a b] else None.
Proof.
  intros [[Hva Hfa] Hwa _] [[Hvb Hfb] Hwb _] Em. unfold checked_add_model_totals. cbn [try_fold].
  unfold add_step. rewrite <- Em. unfold by_model. cbn [fold_left]. rewrite lookup_insert_eq. cbn [from_option]. unfold id.
  rewrite (checked_sum_total_decides _ _ Hwa Hwb Hfa Hfb).
  change (tf_total (total_tokens_of a)) with (ts_total (st_tokens a)).
  change (tf_total (total_tokens_of b)) with (ts_total (st_tokens b)).
  destruct (Z.leb_spec (ts_total (st_tokens a) + ts_total (st_tokens b)) u64_max) as [Hle|Hgt]; [|done].
  cbn [result_ok mbind option_bind]. fold (sum_total a b). rewrite insert_insert_eq, insert_empty.
  destruct (pointwise_sum_valid _ _ Hwa Hwb Hfa Hfb Hle) as (_&Hv&_).
  assert (values_of {[st_model a := sum_total a b]} = [sum_total a b]) as ->
    by (unfold values_of, rows; by rewrite map_to_list_singleton).
  unfold canonicalize_model_totals. cbn [fold_result].
  assert (canonical_step ∅ (sum_total a b) = Ok {[st_model a := sum_total a b]}) as ->.
  { apply canonical_step_Ok. split_and!; [|done..]. split; [done|].
    unfold sum_total, replace_tokens, total_tokens_of. cbn [st_tokens]. by rewrite facts_from. }
  unfold mbind, result_bind. cbn [result_ok]. unfold values_of, rows. by rewrite map_to_list_singleton.
Qed.

Lemma complete_total_cases t : complete_total t → ∃ m n i c o w,
  t = {| st_model := m; st_tokens := {| ts_total := n; ts_input := Some i; ts_cached_input := Some c;
         ts_output := Some o; ts_cache_write_input := Some w |} |}.
Proof.
  unfold complete_total. destruct t as [m [n [i|] [c|] [o|] [w|]]]; cbn; try done. intros _. by repeat eexists.
Qed.
Lemma sum_total_good a b : good_total a → good_total b → st_model a = st_model b →
  ts_total (st_tokens a) + ts_total (st_tokens b) ≤ u64_max →
  good_total (sum_total a b) ∧ model_total_dominates (sum_total a b) a = true.
Proof.
  intros [[Hva Hfa] Hwa Hca] [[Hvb Hfb] Hwb Hcb] Em Hfit.
  destruct (pointwise_sum_valid _ _ Hwa Hwb Hfa Hfb Hfit) as (Hw&Hv&_).
  assert (total_tokens_of (sum_total a b) = pointwise_sum (total_tokens_of a) (total_tokens_of b)) as Et
    by (unfold sum_total, replace_tokens, total_tokens_of; cbn [st_tokens]; apply facts_from).
  apply complete_total_cases in Hca as (m&n&i&c&o&w&->), Hcb as (m'&n'&i'&c'&o'&w'&->).
  cbn in Em. subst m'. split.
  - split; [split; [done|by rewrite Et]|unfold total_wf; by rewrite Et|done].
  - destruct Hwb as [Hb1 Hb2 Hb3 Hb4 Hb5]. unfold opt_u64, is_u64 in *. cbn in *.
    unfold model_total_dominates. cbn. rewrite (proj2 (text_eqb_true m m) eq_refl). lia.
Qed.
Lemma dominates_refl t : model_total_dominates t t = true.
Proof.
  unfold model_total_dominates. rewrite (proj2 (text_eqb_true _ _) eq_refl).
  destruct t as [m [n [i|] [c|] [o|] [w|]]]; cbn; lia.
Qed.

(** What a merged model is: a value seen, or the sum of the two, which then fits. *)
Lemma reconcile_model_spec baseline current :
  from_option good_total True baseline → from_option good_total True current →
  (∀ b c, baseline = Some b → current = Some c → st_model b = st_model c) →
  match reconcile_model baseline current with
  | Some r => good_total r
      ∧ (∀ b, baseline = Some b → model_total_dominates r b = true)
      ∧ (∀ c, current = Some c → st_model r = st_model c)
  | None => baseline = None ∧ current = None ∨ ∃ b c, baseline = Some b ∧ current = Some c
      ∧ model_total_dominates c b = false
      ∧ (model_total_reset_is_proven b c = true → u64_max < ts_total (st_tokens b) + ts_total (st_tokens c))
  end.
Proof.
  intros Hb Hc Hm. destruct baseline as [b|], current as [c|]; cbn [from_option] in *; cbn [reconcile_model].
  - specialize (Hm b c eq_refl eq_refl). destruct (model_total_dominates c b) eqn:Ed.
    { split_and!; [done|by intros ? [= <-]|by intros ? [= <-]]. }
    destruct (model_total_reset_is_proven b c) eqn:Er.
    2: { right. exists b, c. split_and!; [done..|]. congruence. }
    rewrite (add_singletons b c) by done.
    destruct (Z.leb_spec (ts_total (st_tokens b) + ts_total (st_tokens c)) u64_max) as [Hle|Hgt].
    + cbn [mbind option_bind head]. destruct (sum_total_good b c Hb Hc Hm Hle) as [? ?].
      split_and!; [done|by intros ? [= <-]|]. by intros ? [= <-].
    + cbn [mbind option_bind]. right. exists b, c. by split_and!.
  - split_and!; [done| |done]. intros ? [= <-]. apply dominates_refl.
  - split_and!; [done|done|]. by intros ? [= <-].
  - by left.
Qed.
Lemma dominates_model a b : model_total_dominates a b = true → st_model a = st_model b.
Proof. unfold model_total_dominates. rewrite !andb_true_iff, text_eqb_true. tauto. Qed.

(** ** All models *)
Lemma reconcile_models_Forall2 C R models rs :
  reconcile_models C R models = Some rs ↔
  Forall2 (λ model r, reconcile_model (C !! model) (R !! model) = Some r) models rs.
Proof.
  revert rs. induction models as [|model models IH]; intros rs; cbn [reconcile_models].
  { split; [intros [= <-]; constructor|by intros ->%Forall2_nil_inv_l]. }
  split.
  - destruct (reconcile_model _ _) as [r|] eqn:E; [|done]. cbn [mbind option_bind].
    destruct (reconcile_models _ _ _) as [rs'|]; [|done]. cbn [mbind option_bind]. intros [= <-].
    constructor; [done|by apply IH].
  - intros (r&rs'&E&H&->)%Forall2_cons_inv_l. rewrite E. cbn [mbind option_bind].
    by rewrite (proj2 (IH rs') H).
Qed.
Lemma reconcile_models_None C R models :
  reconcile_models C R models = None → ∃ m, m ∈ models ∧ reconcile_model (C !! m) (R !! m) = None.
Proof.
  induction models as [|model models IH]; cbn [reconcile_models]; [done|].
  destruct (reconcile_model _ _) as [r|] eqn:E; cbn [mbind option_bind].
  - destruct (reconcile_models _ _ _); [done|]. intros _. destruct (IH eq_refl) as (m&?&?).
    exists m. split; [by right|done].
  - intros _. exists model. split; [by left|done].
Qed.
Lemma elem_of_models C R m : m ∈ models_of C R ↔ is_Some (C !! m) ∨ is_Some (R !! m).
Proof. unfold models_of. by rewrite sort_by_elem, elem_of_elements, elem_of_union, !elem_of_dom. Qed.
Lemma models_NoDup C R : NoDup (models_of C R).
Proof. unfold models_of. rewrite (sort_by_perm text_leb _). apply NoDup_elements. Qed.

Definition lookup_total (ts : list SessionModelTotal) (m : text) : option SessionModelTotal := by_model ts !! m.
(** The two values of a model admit no interpretation, or only a sum that overflows. *)
Definition ambiguous (b c : SessionModelTotal) : Prop :=
  model_total_dominates c b = false
  ∧ (model_total_reset_is_proven b c = true → u64_max < ts_total (st_tokens b) + ts_total (st_tokens c)).
Definition totals_wf (ts : list SessionModelTotal) : Prop := Forall total_wf ts.

Lemma lookup_good ts k : canonical_form ts → totals_wf ts → cumulative_model_totals_are_complete ts = true →
  from_option good_total True (lookup_total ts k).
Proof.
  intros (HF&HN&_) Hw Hc. unfold lookup_total. destruct (by_model ts !! k) as [t|] eqn:E; [|done]. cbn [from_option].
  apply by_model_lookup in E as [Ht _]; [|done].
  unfold totals_wf in Hw. rewrite Forall_forall in HF, Hw. split; [by apply HF|by apply Hw|].
  unfold complete_total, cumulative_model_totals_are_complete in *. rewrite forallb_Forall, Forall_forall in Hc.
  cbn [forallb]. by rewrite Hc.
Qed.
Lemma lookup_keyed ts k t : NoDup (map st_model ts) → lookup_total ts k = Some t → st_model t = k.
Proof. intros HN [_ ?]%by_model_lookup; done. Qed.
Lemma complete_perm ts rs : rs ≡ₚ ts →
  cumulative_model_totals_are_complete rs = cumulative_model_totals_are_complete ts.
Proof.
  intros Hp. unfold cumulative_model_totals_are_complete. apply eq_iff_eq_true.
  by rewrite !forallb_Forall, Hp.
Qed.

(** The merge of two canonical, complete vectors. *)
Lemma merge_spec C R :
  canonical_form C → canonical_form R → totals_wf C → totals_wf R →
  cumulative_model_totals_are_complete C = true → cumulative_model_totals_are_complete R = true →
  match reconcile_models (by_model C) (by_model R) (models_of (by_model C) (by_model R)) with
  | Some rs => ∃ out, canonicalize_model_totals rs = Ok out ∧ canonical_form out
      ∧ (∀ m, lookup_total out m = reconcile_model (lookup_total C m) (lookup_total R m))
      ∧ (∀ m b, lookup_total C m = Some b → ∃ r, lookup_total out m = Some r ∧ model_total_dominates r b = true)
  | None => ∃ m b c, lookup_total C m = Some b ∧ lookup_total R m = Some c ∧ ambiguous b c
  end.
Proof.
  intros HC HR HwC HwR HcC HcR.
  assert (∀ m, match reconcile_model (lookup_total C m) (lookup_total R m) with
    | Some r => good_total r ∧ st_model r = m
        ∧ (∀ b, lookup_total C m = Some b → model_total_dominates r b = true)
    | None => lookup_total C m = None ∧ lookup_total R m = None
        ∨ ∃ b c, lookup_total C m = Some b ∧ lookup_total R m = Some c ∧ ambiguous b c end) as Hone.
  { intros m.
    assert (∀ b, lookup_total C m = Some b → st_model b = m) as KC by (intros b; apply lookup_keyed, HC).
    assert (∀ c, lookup_total R m = Some c → st_model c = m) as KR by (intros c; apply lookup_keyed, HR).
    pose proof (reconcile_model_spec (lookup_total C m) (lookup_total R m)
      (lookup_good C m HC HwC HcC) (lookup_good R m HR HwR HcR)) as H.
    destruct (reconcile_model _ _) as [r|] eqn:Er.
    - destruct H as (Hg&Hd&Hmod); [intros b c Eb Ec; by rewrite (KC b), (KR c)|]. split_and!; [done| |done].
      destruct (lookup_total R m) as [c|]; [by rewrite (Hmod c eq_refl), (KR c)|].
      destruct (lookup_total C m) as [b|]; [|done]. rewrite (dominates_model r b (Hd b eq_refl)). by apply KC.
    - apply H. intros b c Eb Ec. by rewrite (KC b), (KR c). }
  destruct (reconcile_models _ _ _) as [rs|] eqn:E.
  - apply reconcile_models_Forall2 in E.
    assert (map st_model rs = models_of (by_model C) (by_model R)) as Emap.
    { induction E as [|m r ms rs Hr _ IH]; [done|]. cbn [map]. f_equal; [|done].
      specialize (Hone m). unfold lookup_total in Hone. rewrite Hr in Hone. by destruct Hone as (_&?&_). }
    assert (∀ m r, reconcile_model (lookup_total C m) (lookup_total R m) = Some r ↔ r ∈ rs ∧ st_model r = m) as Hin.
    { intros m r. split.
      - intros Hr. assert (m ∈ models_of (by_model C) (by_model R)) as Hm.
        { apply elem_of_models. unfold lookup_total in Hr. destruct (by_model C !! m), (by_model R !! m); try done; eauto. }
        apply list_elem_of_lookup in Hm as [i Hi]. destruct (Forall2_lookup_l _ _ _ _ _ E Hi) as (r'&Hr'&E').
        unfold lookup_total in Hr. rewrite Hr in E'. injection E' as <-. split; [by eapply list_elem_of_lookup_2|].
        specialize (Hone m). unfold lookup_total in Hone. rewrite Hr in Hone. by destruct Hone as (_&?&_).
      - intros [Hr <-]. apply list_elem_of_lookup in Hr as [i Hi].
        destruct (Forall2_lookup_r _ _ _ _ _ E Hi) as (m&Hm&E').
        specialize (Hone m). unfold lookup_total in Hone |- *. rewrite E' in Hone. destruct Hone as (_&->&_). done. }
    destruct (canonicalize_total rs) as (out&Hout&Hform&Hp).
    + apply Forall_forall. intros r Hr. specialize (Hone (st_model r)).
      rewrite (proj2 (Hin (st_model r) r)) in Hone by done. by destruct Hone as [[? _ _] _].
    + rewrite Emap. apply models_NoDup.
    + exists out. assert (∀ m, lookup_total out m = reconcile_model (lookup_total C m) (lookup_total R m)) as Hlook.
      { intros m. apply option_eq. intros r. rewrite Hin. unfold lookup_total. rewrite by_model_lookup by apply Hform.
        by rewrite Hp. }
      split_and!; [done..|]. intros m b Hb. specialize (Hone m). rewrite Hlook.
      assert (m ∈ models_of (by_model C) (by_model R)) as Hm by (apply elem_of_models; left; by exists b).
      apply list_elem_of_lookup in Hm as [i Hi]. destruct (Forall2_lookup_l _ _ _ _ _ E Hi) as (r&_&E').
      unfold lookup_total in *. rewrite E' in Hone |- *. exists r. split; [done|]. by apply Hone.
  - apply reconcile_models_None in E as (m&Hm&E). apply elem_of_models in Hm.
    specialize (Hone m). unfold lookup_total in Hone |- *. rewrite E in Hone.
    destruct Hone as [[E1 E2]|(b&c&?&?&?)]; [|by exists m, b, c].
    rewrite E1, E2 in Hm. destruct Hm as [[? ?]|[? ?]]; done.
Qed.

Lemma dominate_lookup out C : NoDup (map st_model C) →
  (∀ m b, lookup_total C m = Some b → ∃ r, lookup_total out m = Some r ∧ model_total_dominates r b = true) →
  model_totals_dominate out C = true.
Proof.
  intros HN H. unfold model_totals_dominate. apply forallb_Forall, Forall_forall. intros b Hb.
  destruct (H (st_model b) b) as (r&Hr&Hd); [by apply by_model_lookup|].
  unfold lookup_total in Hr. by rewrite Hr.
Qed.

(** C10. The outcome on every pair of vectors. An error says that a vector is not a set of
    consistent totals; no answer says that a component is unknown, or names a model
    whose two values neither grow, nor reset with a sum that fits; an answer is in
    canonical form, holds for every model of either vector the value [reconcile_model]
    gives, and no retained counter falls. The merged vector is never refused. *)
Theorem rejected_generation_exact C R :
  totals_wf C → totals_wf R →
  match reconcile_rejected_generation_model_totals C R with
  | Ok (Some out) => canonical_form out
      ∧ (∀ m, lookup_total out m = reconcile_model (lookup_total C m) (lookup_total R m))
      ∧ model_totals_dominate out C = true
  | Ok None => cumulative_model_totals_are_complete C = false
      ∨ cumulative_model_totals_are_complete R = false
      ∨ ∃ m b c, lookup_total C m = Some b ∧ lookup_total R m = Some c ∧ ambiguous b c
  | Err _ => invalid_total C ∨ invalid_total R
  end.
Proof.
  intros HwC HwR. unfold reconcile_rejected_generation_model_totals.
  pose proof (canonicalize_spec C) as HC. destruct (canonicalize_model_totals C) as [C'|]; [|by left].
  pose proof (canonicalize_spec R) as HR. destruct (canonicalize_model_totals R) as [R'|]; [|by right].
  destruct HC as [HC PC], HR as [HR PR]. cbn [mbind result_bind].
  assert (NoDup (map st_model C) ∧ NoDup (map st_model R)) as [NC NR] by (rewrite <- PC, <- PR; split; [apply HC|apply HR]).
  rewrite (complete_perm _ _ PC), (complete_perm _ _ PR).
  destruct (cumulative_model_totals_are_complete C) eqn:EC; [|by left].
  destruct (cumulative_model_totals_are_complete R) eqn:ER; [|by right; left]. cbn [negb orb].
  assert (totals_wf C' ∧ totals_wf R') as [WC WR] by (unfold totals_wf in *; by rewrite PC, PR).
  rewrite <- (complete_perm _ _ PC) in EC. rewrite <- (complete_perm _ _ PR) in ER.
  pose proof (merge_spec C' R' HC HR WC WR EC ER) as H.
  assert (lookup_total C' = lookup_total C ∧ lookup_total R' = lookup_total R) as [LC LR]
    by (unfold lookup_total; by rewrite (by_model_perm C C'), (by_model_perm R R')).
  rewrite LC, LR in H. destruct (reconcile_models _ _ _) as [rs|]; [|by right; right].
  destruct H as (out&Hout&Hform&Hl&Hd). rewrite Hout. cbn [mbind result_bind].
  split_and!; [apply Hform..|done|by apply dominate_lookup].
Qed.

(** The two interpretations never disagree: a model that both continues its counters
    and counts as reset had spent nothing, and the sum is the value observed. *)
Theorem interpretations_agree b c :
  good_total b → good_total c → model_total_dominates c b = true → model_total_reset_is_proven b c = true →
  checked_add_model_totals [b] [c] = Some [c].
Proof.
  intros Hb Hc Hd Hr. pose proof (dominates_model _ _ Hd) as Em. rewrite (add_singletons b c) by done.
  destruct Hb as [_ Wb Cb], Hc as [_ Wc Cc].
  apply complete_total_cases in Cb as (m&n&i&ca&o&w&->), Cc as (m'&n'&i'&ca'&o'&w'&->).
  cbn in Em. subst m'. destruct Wb as [Wb1 Wb2 Wb3 Wb4 Wb5], Wc as [Wc1 _ _ _ _]. unfold opt_u64, is_u64 in *.
  cbn in Wb1, Wb2, Wb3, Wb4, Wb5, Wc1.
  unfold model_total_dominates in Hd. cbn in Hd. rewrite (proj2 (text_eqb_true m m) eq_refl) in Hd.
  unfold model_total_reset_is_proven in Hr. cbn in Hr. rewrite (proj2 (text_eqb_true m m) eq_refl) in Hr. cbn in Hr.
  assert (n = 0 ∧ i = 0 ∧ ca = 0 ∧ o = 0 ∧ w = 0) as (->&->&->&->&->).
  { destruct (_ || _) eqn:E in Hr; [done|]. rewrite !orb_false_iff, !andb_false_iff in E. lia. }
  cbn [st_tokens ts_total]. rewrite (proj2 (Z.leb_le _ _)) by lia.
  unfold sum_total, replace_tokens, pointwise_sum, total_tokens_of, facts, from_facts. cbn.
  by rewrite !Z.add_0_l.
Qed.

(** ** A retained period and its alias *)
Definition example_total (model : string) (input output : Z) : SessionModelTotal := {|
  st_model := lit model;
  st_tokens := {| ts_total := input + output; ts_input := Some input; ts_cached_input := Some 0;
                  ts_output := Some output; ts_cache_write_input := Some 0 |} |}.
Definition example_canonical := [example_total "gpt-b" 100 50; example_total "gpt-a" 10 10; example_total "gpt-c" 7 7].
Definition example_rejected := [example_total "gpt-a" 20 10; example_total "gpt-b" 3 2; example_total "gpt-d" 1 1].
Definition outcome (r : store_result (option (list SessionModelTotal))) : option (list (text * Z)) :=
  match r with
  | Ok (Some out) => Some (map (λ t, (st_model t, ts_total (st_tokens t))) out)
  | _ => None
  end.
Lemma example_totals_wf : totals_wf example_canonical ∧ totals_wf example_rejected.
Proof. split; repeat constructor; done. Qed.
Lemma rejected_generation_exact_witness :
  outcome (reconcile_rejected_generation_model_totals example_canonical example_rejected)
  = Some [(lit "gpt-a", 30); (lit "gpt-b", 155); (lit "gpt-c", 14); (lit "gpt-d", 2)]
  ∧ match reconcile_rejected_generation_model_totals example_canonical example_rejected with
  | Ok (Some out) => canonical_form out
      ∧ (∀ m, lookup_total out m = reconcile_model (lookup_total example_canonical m) (lookup_total example_rejected m))
      ∧ model_totals_dominate out example_canonical = true
  | Ok None => cumulative_model_totals_are_complete example_canonical = false
      ∨ cumulative_model_totals_are_complete example_rejected = false
      ∨ ∃ m b c, lookup_total example_canonical m = Some b ∧ lookup_total example_rejected m = Some c ∧ ambiguous b c
  | Err _ => invalid_total example_canonical ∨ invalid_total example_rejected
  end.
Proof.
  split; [by vm_compute|].
  apply rejected_generation_exact; [exact (proj1 example_totals_wf)|exact (proj2 example_totals_wf)].
Defined.
Definition spent_nothing := example_total "gpt-a" 0 0.
Lemma interpretations_agree_witness :
  checked_add_model_totals [spent_nothing] [example_total "gpt-a" 20 10] = Some [example_total "gpt-a" 20 10].
Proof.
  apply interpretations_agree; [| |by vm_compute|by vm_compute];
    (split; [split; by vm_compute|by repeat split|by vm_compute]).
Defined.
