(* ===== verification/QuotaPeriods.v ===== *)
(** * Quota transitions, retained authorities and ownership intervals

    Models how [crates/codex-info-db-writer/src/lib.rs] decides which period an
    observed quota belongs to ([classify_quota_transition]), which retained collection
    state is the authority for a period whose deadline has not passed
    ([select_predeadline_quota_authority]), the grouping of samples into reset periods
    ([build_reset_periods]) and the ownership intervals of an account
    ([canonical_lifecycle_intervals], [lifecycle_contains]). *)

From S2P Require Import Prelude Text Float64 TokenFacts SessionRecord History GapLedger.

Definition RESET_GROUP_TOLERANCE_SECONDS : Z := 60.
Definition RESET_WINDOW_START_OVERLAP_TOLERANCE_SECONDS : Z := 120.
Definition MAX_PUBLIC_UNIX_SECONDS : Z := 253402300799.
Definition abs_diff (a b : Z) : Z := Z.abs (a - b).

(** ** Quota transitions *)
Definition same_reset_group (l r : Z) : bool :=
  (0 <? l) && (0 <? r) && (abs_diff l r <=? RESET_GROUP_TOLERANCE_SECONDS).
Definition reset_window_started_between_observations
    (previous_reset_at previous_observed_at next_reset_at next_window_seconds observed_at : Z) : bool :=
  if (next_reset_at <=? previous_reset_at) || (observed_at <=? previous_observed_at) then false
  else
  match i64_checked_sub next_reset_at next_window_seconds with
  | None => false
  | Some next_start_at =>
      let reset_advance := i64_saturating_sub next_reset_at previous_reset_at in
      let observation_advance := i64_saturating_sub observed_at previous_observed_at in
      let tracks_observation_clock :=
        abs_diff reset_advance observation_advance <=? RESET_GROUP_TOLERANCE_SECONDS in
      (i64_saturating_sub previous_observed_at RESET_WINDOW_START_OVERLAP_TOLERANCE_SECONDS <=? next_start_at)
      && (next_start_at <=? observed_at) && negb tracks_observation_clock
  end.

Inductive QuotaTransition := Initial | SamePeriod | Boundary | Rejected.
#[export] Instance QuotaTransition_eq_dec : EqDecision QuotaTransition.
Proof. solve_decision. Defined.
Record PreviousQuotaState := {
  pq_reset_at : option Z; pq_window_seconds : Z; pq_observed_at : option Z; pq_remaining_percent : option f64 }.
Record QuotaCandidate := {
  qc_reset_at : Z; qc_window_seconds : Z; qc_remaining_percent : option f64; qc_observed_at : Z }.
Definition hundred : f64 := f64_of_Z 100.
(** [value.is_finite() && (0.0..=100.0).contains(&value)] *)
Definition is_percent (value : f64) : bool :=
  f64_is_finite value && f64_leb f64_zero value && f64_leb value hundred.

Definition candidate_is_valid (candidate : QuotaCandidate) : bool :=
  (0 <? qc_observed_at candidate) && (qc_observed_at candidate <? qc_reset_at candidate)
  && (0 <? qc_window_seconds candidate)
  && opt_is_some (i64_checked_sub (qc_reset_at candidate) (qc_window_seconds candidate))
  && is_some_and is_percent (qc_remaining_percent candidate).
Definition successor_window_started (previous_reset_at : Z) (candidate : QuotaCandidate) : bool :=
  (previous_reset_at <=? qc_observed_at candidate) && (previous_reset_at <? qc_reset_at candidate)
  && is_some_and (λ next_start_at, same_reset_group previous_reset_at next_start_at)
       (i64_checked_sub (qc_reset_at candidate) (qc_window_seconds candidate)).
Definition classify_quota_transition (previous : PreviousQuotaState) (candidate : QuotaCandidate) :
    QuotaTransition :=
  if negb (candidate_is_valid candidate) then Rejected
  else
  match pq_reset_at previous, pq_observed_at previous, pq_remaining_percent previous with
  | None, _, _ => Initial
  | Some _, None, _ | Some _, Some _, None => Rejected
  | Some reset_at, Some observed_at, Some remaining =>
      if (reset_at <=? 0) || (pq_window_seconds previous <=? 0) || (observed_at <=? 0)
         || (qc_observed_at candidate <? observed_at) || negb (is_percent remaining)
      then Rejected
      else
        let newly_started_window := reset_window_started_between_observations
          reset_at observed_at (qc_reset_at candidate) (qc_window_seconds candidate)
          (qc_observed_at candidate) in
        let quota_recovered := is_some_and (λ next, f64_ltb remaining next) (qc_remaining_percent candidate) in
        if successor_window_started reset_at candidate
           || ((reset_at <? qc_reset_at candidate) && newly_started_window && quota_recovered)
        then Boundary
        else if (qc_window_seconds candidate =? pq_window_seconds previous)
             && (same_reset_group reset_at (qc_reset_at candidate)
                 || ((reset_at <? qc_reset_at candidate)
                     && is_some_and (λ next, f64_leb next remaining) (qc_remaining_percent candidate)))
        then SamePeriod
        else Rejected
  end.

(** ** The authority for a period before its deadline *)
Record SessionQuotaObservation := { sq_observed_at : Z; sq_remaining_percent : f64 }.
Section authority.
Context {Checkpoint : Type}.
Record SessionCollectionState := {
  cs_data_generation : Z;
  cs_reset_at : Z;
  cs_latest_quota_reset_at : Z;
  cs_window_seconds : Z;
  cs_collector_epoch : option Z;
  cs_cycle_seq : Z;
  cs_last_quota_observation : option SessionQuotaObservation;
  cs_checkpoints : list Checkpoint;
  cs_model_totals : list SessionModelTotal
}.
Definition no_previous : PreviousQuotaState := {|
  pq_reset_at := None; pq_window_seconds := 0; pq_observed_at := None; pq_remaining_percent := None |}.
Definition as_previous (state : SessionCollectionState) (o : SessionQuotaObservation) : PreviousQuotaState := {|
  pq_reset_at := Some (cs_reset_at state); pq_window_seconds := cs_window_seconds state;
  pq_observed_at := Some (sq_observed_at o); pq_remaining_percent := Some (sq_remaining_percent o) |}.
Definition as_candidate (state : SessionCollectionState) (o : SessionQuotaObservation) : QuotaCandidate := {|
  qc_reset_at := cs_reset_at state; qc_window_seconds := cs_window_seconds state;
  qc_remaining_percent := Some (sq_remaining_percent o); qc_observed_at := sq_observed_at o |}.
Definition is_initial (candidate : QuotaCandidate) : bool :=
  bool_decide (classify_quota_transition no_previous candidate = Initial).
Definition usable_authority (current : SessionCollectionState) (seen : SessionQuotaObservation)
    (candidate : SessionCollectionState) : bool :=
  match cs_last_quota_observation candidate with
  | None => false
  | Some observation =>
      (0 <? cs_data_generation candidate)
      && (cs_data_generation candidate <? cs_data_generation current)
      && (sq_observed_at observation <=? sq_observed_at seen)
      && (sq_observed_at seen <? cs_reset_at candidate)
      && is_initial (as_candidate candidate observation)
      && match classify_quota_transition (as_previous candidate observation) (as_candidate current seen) with
         | SamePeriod | Rejected => true
         | _ => false
         end
  end.
(** [sort_by_key] with [Reverse(data_generation)] is stable. *)
Definition newest_first (a b : SessionCollectionState) : bool := cs_data_generation b <=? cs_data_generation a.
Definition select_predeadline_quota_authority (current : SessionCollectionState)
    (retained : list SessionCollectionState) : option SessionCollectionState :=
  seen ← cs_last_quota_observation current;
  if (cs_data_generation current =? 0) || negb (is_initial (as_candidate current seen)) then None
  else
    let candidates := sort_by newest_first (List.filter (usable_authority current seen) retained) in
    selected ← head candidates;
    if existsb (λ candidate, negb (cs_window_seconds candidate =? cs_window_seconds selected)
                             || negb (same_reset_group (cs_reset_at candidate) (cs_reset_at selected))) candidates
    then None else Some selected.
End authority.
Arguments SessionCollectionState : clear implicits.

(** ** Reset periods of samples *)
Record ResetPeriod := { rp_canonical_id : Z; rp_start_timestamp : Z; rp_end_timestamp : Z }.
Record ResetPeriodAccumulator := { ra_min_reset_at : Z; ra_canonical_id : Z; ra_start_timestamp : Z }.
Definition sample_before (a b : UsageHistorySample) : bool :=
  if hs_reset_at a =? hs_reset_at b then hs_timestamp a <=? hs_timestamp b else hs_reset_at a <? hs_reset_at b.
Definition new_group (sample : UsageHistorySample) : ResetPeriodAccumulator := {|
  ra_min_reset_at := hs_reset_at sample; ra_canonical_id := hs_reset_at sample;
  ra_start_timestamp := hs_timestamp sample |}.
Definition join_group (current : ResetPeriodAccumulator) (sample : UsageHistorySample) : ResetPeriodAccumulator := {|
  ra_min_reset_at := ra_min_reset_at current;
  ra_canonical_id := Z.max (ra_canonical_id current) (hs_reset_at sample);
  ra_start_timestamp := Z.min (ra_start_timestamp current) (hs_timestamp sample) |}.
(** The groups with the last one first. *)
Definition group_step (groups : list ResetPeriodAccumulator) (sample : UsageHistorySample) :
    list ResetPeriodAccumulator :=
  match groups with
  | [] => [new_group sample]
  | current :: rest =>
      if hs_reset_at sample - ra_min_reset_at current <=? RESET_GROUP_TOLERANCE_SECONDS
      then join_group current sample :: rest
      else new_group sample :: groups
  end.
Fixpoint close_groups (groups : list ResetPeriodAccumulator) : list ResetPeriod :=
  match groups with
  | [] => []
  | group :: rest =>
      {| rp_canonical_id := ra_canonical_id group; rp_start_timestamp := ra_start_timestamp group;
         rp_end_timestamp := match rest with
                             | next :: _ => Z.min (ra_canonical_id group) (ra_start_timestamp next)
                             | [] => ra_canonical_id group
                             end |} :: close_groups rest
  end.
Definition newest_period (a b : ResetPeriod) : bool :=
  if rp_start_timestamp a =? rp_start_timestamp b then rp_canonical_id b <=? rp_canonical_id a
  else rp_start_timestamp b <? rp_start_timestamp a.
Definition reset_groups (samples : list UsageHistorySample) : list ResetPeriodAccumulator :=
  rev (fold_left group_step (sort_by sample_before samples) []).
Definition build_reset_periods (samples : list UsageHistorySample) : list ResetPeriod :=
  sort_by newest_period (close_groups (reset_groups samples)).

(** ** Ownership intervals *)
Record SessionLifecycleInterval := { li_start_at : option Z; li_end_at : option Z }.
Definition interval_contains (self : SessionLifecycleInterval) (timestamp : Z) : bool :=
  is_none_or (λ start, start <=? timestamp) (li_start_at self)
  && is_none_or (λ end_at, timestamp <? end_at) (li_end_at self).
Definition start_key (interval : SessionLifecycleInterval) : Z := default i64_min (li_start_at interval).
Definition end_key (interval : SessionLifecycleInterval) : Z := default i64_max (li_end_at interval).
Definition interval_before (a b : SessionLifecycleInterval) : bool :=
  if start_key a =? start_key b then end_key a <=? end_key b else start_key a <? start_key b.
Definition interval_invalid (interval : SessionLifecycleInterval) : bool :=
  is_some_and (λ value, negb (in_range 1 MAX_PUBLIC_UNIX_SECONDS value)) (li_start_at interval)
  || is_some_and (λ value, negb (in_range 1 MAX_PUBLIC_UNIX_SECONDS value)) (li_end_at interval)
  || is_some_and (λ '(start, end_at), end_at <? start) (opt_zip (li_start_at interval) (li_end_at interval)).
Definition interval_empty (interval : SessionLifecycleInterval) : bool :=
  is_some_and (λ '(start, end_at), start =? end_at) (opt_zip (li_start_at interval) (li_end_at interval)).
Definition interval_step (previous_end : option Z) (interval : SessionLifecycleInterval) :
    store_result (option Z) :=
  if interval_empty interval then Ok previous_end
  else if is_some_and (λ previous_end, start_key interval <? previous_end) previous_end
  then invalid "account lifecycle intervals overlap"
  else Ok (Some (end_key interval)).
Definition canonical_lifecycle_intervals (intervals : list SessionLifecycleInterval) :
    store_result (list SessionLifecycleInterval) :=
  if bool_decide (intervals = []) then invalid "account lifecycle intervals are missing"
  else
    let canonical := sort_by interval_before intervals in
    if existsb interval_invalid canonical then invalid "account lifecycle interval is invalid"
    else
      _ ← fold_result interval_step None canonical;
      Ok canonical.
Definition lifecycle_contains (intervals : list SessionLifecycleInterval) (timestamp : Z) : bool :=
  existsb (λ interval, interval_contains interval timestamp) intervals.

(** * When a period ends, and who owns a timestamp

    Theorems about [QuotaPeriods]: exactly when an observation opens a new period,
    which retained state is selected as the authority, that the reset periods place
    every sample once, and that accepted ownership intervals share no timestamp. *)

(** ** Quota transitions *)
Record valid_candidate (c : QuotaCandidate) : Prop := {
  vc_observed : 0 < qc_observed_at c < qc_reset_at c;
  vc_window : 0 < qc_window_seconds c;
  vc_percent : ∃ v, qc_remaining_percent c = Some v ∧ is_percent v = true
}.
Record valid_previous (p : PreviousQuotaState) (reset observed : Z) (remaining : f64) : Prop := {
  vp_reset : pq_reset_at p = Some reset ∧ 0 < reset;
  vp_window : 0 < pq_window_seconds p;
  vp_observed : pq_observed_at p = Some observed ∧ 0 < observed;
  vp_remaining : pq_remaining_percent p = Some remaining ∧ is_percent remaining = true
}.
Definition candidate_wf (c : QuotaCandidate) : Prop :=
  is_i64 (qc_reset_at c) ∧ is_i64 (qc_window_seconds c) ∧ is_i64 (qc_observed_at c).
Definition window_start (c : QuotaCandidate) : Z := qc_reset_at c - qc_window_seconds c.
Lemma candidate_is_valid_true c : candidate_wf c →
  candidate_is_valid c = true ↔ valid_candidate c.
Proof.
  intros (H1&H2&H3). unfold candidate_is_valid, is_i64 in *. rewrite !andb_true_iff, !Z.ltb_lt. split.
  - intros ((((?&?)&?)&?)&Hp). split; [lia|lia|].
    destruct (qc_remaining_percent c) as [v|]; [by exists v|done].
  - intros [[? ?] ? (v&->&Hv)]. split_and!; try lia; [|done].
    unfold i64_checked_sub. rewrite (proj2 (in_range_true _ _ _)); [done|]. unfold i64_max, i64_min in *. lia.
Qed.
Lemma window_start_sub c : candidate_wf c → valid_candidate c →
  i64_checked_sub (qc_reset_at c) (qc_window_seconds c) = Some (window_start c).
Proof.
  intros (H1&H2&H3) [[? ?] ? _]. unfold i64_checked_sub, window_start, is_i64 in *.
  rewrite (proj2 (in_range_true _ _ _)); [done|]. unfold i64_max, i64_min in *. lia.
Qed.

(** The window of the deadline [reset] was reached and the candidate's window starts
    within a minute of it. *)
Definition follows_deadline (reset : Z) (c : QuotaCandidate) : Prop :=
  reset ≤ qc_observed_at c ∧ reset < qc_reset_at c
  ∧ 0 < window_start c ∧ Z.abs (reset - window_start c) ≤ 60.
(** The candidate's window started between the observations, up to two minutes early,
    its deadline did not just move with the clock, and quota came back. *)
Definition recovered_between (reset observed : Z) (remaining : f64) (c : QuotaCandidate) : Prop :=
  reset < qc_reset_at c ∧ observed < qc_observed_at c
  ∧ observed - 120 ≤ window_start c ≤ qc_observed_at c
  ∧ 60 < Z.abs ((qc_reset_at c - reset) - (qc_observed_at c - observed))
  ∧ ∃ next, qc_remaining_percent c = Some next ∧ f64_ltb remaining next = true.

Lemma window_started_spec reset observed c : candidate_wf c → valid_candidate c →
  is_i64 reset → is_i64 observed → 0 < reset → 0 < observed →
  reset_window_started_between_observations reset observed (qc_reset_at c) (qc_window_seconds c) (qc_observed_at c)
  = true ↔
  reset < qc_reset_at c ∧ observed < qc_observed_at c
  ∧ observed - 120 ≤ window_start c ≤ qc_observed_at c
  ∧ 60 < Z.abs ((qc_reset_at c - reset) - (qc_observed_at c - observed)).
Proof.
  intros Hwf Hv Hr Ho Hr0 Ho0. unfold reset_window_started_between_observations.
  rewrite (window_start_sub c Hwf Hv). destruct Hwf as (H1&H2&H3), Hv as [[? ?] ? _].
  set (s := window_start c). clearbody s.
  unfold is_i64, i64_saturating_sub, abs_diff, RESET_GROUP_TOLERANCE_SECONDS,
    RESET_WINDOW_START_OVERLAP_TOLERANCE_SECONDS, i64_max, i64_min in *.
  destruct (_ || _) eqn:E; [split; [done|lia]|].
  rewrite !andb_true_iff, negb_true_iff, !Z.leb_le, Z.leb_gt. lia.
Qed.
Lemma successor_spec reset c : candidate_wf c → valid_candidate c → 0 < reset →
  successor_window_started reset c = true ↔ follows_deadline reset c.
Proof.
  intros Hwf Hv Hr. unfold successor_window_started, follows_deadline. rewrite (window_start_sub c Hwf Hv).
  cbn [is_some_and]. unfold same_reset_group, abs_diff, RESET_GROUP_TOLERANCE_SECONDS.
  rewrite !andb_true_iff, !Z.leb_le, !Z.ltb_lt. tauto.
Qed.
Lemma is_some_and_iff {A} (f : A → bool) o : is_some_and f o = true ↔ ∃ a, o = Some a ∧ f a = true.
Proof. destruct o; cbn; naive_solver. Qed.

Lemma boundary_spec p c reset observed remaining :
  candidate_wf c → valid_previous p reset observed remaining → is_i64 reset → is_i64 observed →
  classify_quota_transition p c = Boundary ↔
  valid_candidate c ∧ observed ≤ qc_observed_at c
  ∧ (follows_deadline reset c ∨ recovered_between reset observed remaining c).
Proof.
  intros Hwf [[Er Hr] Hw [Eo Ho] [Em Hm]] Hir Hio. unfold classify_quota_transition. rewrite Er, Eo, Em.
  destruct (candidate_is_valid c) eqn:Ev; cbn [negb].
  2: { split; [done|]. intros [Hv _]. apply candidate_is_valid_true in Hv; [congruence|done]. }
  apply candidate_is_valid_true in Ev; [|done].
  rewrite (proj2 (Z.leb_gt reset 0)), (proj2 (Z.leb_gt (pq_window_seconds p) 0)),
    (proj2 (Z.leb_gt observed 0)), Hm by done. cbn [orb negb].
  destruct (Z.ltb_spec (qc_observed_at c) observed) as [Hlt|Hge]; cbn [orb].
  { split; [done|]. intros (_&?&_). lia. }
  transitivity (successor_window_started reset c
    || ((reset <? qc_reset_at c)
        && reset_window_started_between_observations reset observed (qc_reset_at c) (qc_window_seconds c) (qc_observed_at c)
        && is_some_and (λ next, f64_ltb remaining next) (qc_remaining_percent c)) = true).
  { destruct (_ || _); [done|]. destruct (_ && _); done. }
  rewrite orb_true_iff, successor_spec, !andb_true_iff, window_started_spec, is_some_and_iff, Z.ltb_lt by done.
  unfold recovered_between. tauto.
Qed.

(** ** Authority *)
Section authority.
Context {Checkpoint : Type}.
Implicit Types state current : SessionCollectionState Checkpoint.

Lemma newest_first_trans (a b c : SessionCollectionState Checkpoint) :
  newest_first a b = true → newest_first b c = true → newest_first a c = true.
Proof. unfold newest_first. lia. Qed.
Lemma newest_first_total (a b : SessionCollectionState Checkpoint) :
  newest_first a b = true ∨ newest_first b a = true.
Proof. unfold newest_first. lia. Qed.

(** The current state is an admissible first observation of a period. *)
Definition replaceable current (seen : SessionQuotaObservation) : Prop :=
  cs_last_quota_observation current = Some seen ∧ cs_data_generation current ≠ 0
  ∧ is_initial (as_candidate current seen) = true.
Definition same_period state state' : Prop :=
  cs_window_seconds state = cs_window_seconds state'
  ∧ same_reset_group (cs_reset_at state) (cs_reset_at state') = true.
Lemma authority_spec current retained selected :
  select_predeadline_quota_authority current retained = Some selected →
  ∃ seen, replaceable current seen ∧ selected ∈ retained
  ∧ usable_authority current seen selected = true
  ∧ (∀ state, state ∈ retained → usable_authority current seen state = true →
       cs_data_generation state ≤ cs_data_generation selected ∧ same_period state selected).
Proof.
  unfold select_predeadline_quota_authority. intros H.
  destruct (cs_last_quota_observation current) as [seen|] eqn:Es; [|done]. cbn [mbind option_bind] in H.
  destruct (_ || _) eqn:E0 in H; [done|]. apply orb_false_iff in E0 as [Hg Hi]. apply negb_false_iff in Hi.
  set (cands := sort_by newest_first (List.filter (usable_authority current seen) retained)) in *.
  assert (∀ state, state ∈ cands ↔ state ∈ retained ∧ usable_authority current seen state = true) as Hin
    by (intros; unfold cands; by rewrite sort_by_elem, elem_of_filter_bool).
  assert (StronglySorted (λ a b, newest_first a b = true) cands) as HS
    by (apply sort_by_sorted; [apply newest_first_total|apply newest_first_trans]).
  destruct cands as [|s rest]; [done|]. cbn [head mbind option_bind] in H.
  destruct (existsb _ _) eqn:Ex; [done|]. injection H as <-.
  exists seen. rewrite existsb_false_Forall, Forall_forall in Ex.
  split; [split_and!; [done|by apply Z.eqb_neq|done]|].
  destruct (proj1 (Hin s) ltac:(by left)) as [? ?]. split_and!; [done..|].
  intros state Hr Hu. assert (state ∈ s :: rest) as Hs by (by apply Hin). split.
  - apply elem_of_cons in Hs as [->|Hs]; [lia|]. inversion HS as [|? ? _ Hall]; subst.
    rewrite Forall_forall in Hall. specialize (Hall state Hs). unfold newest_first in Hall. lia.
  - specialize (Ex state Hs). cbv beta in Ex. apply orb_false_iff in Ex as [E1 E2].
    rewrite negb_false_iff in E1, E2. split; [by apply Z.eqb_eq|done].
Qed.
Lemma authority_exists current retained seen :
  replaceable current seen →
  (∃ state, state ∈ retained ∧ usable_authority current seen state = true) →
  (∀ state state', state ∈ retained → state' ∈ retained → usable_authority current seen state = true →
     usable_authority current seen state' = true → same_period state state') →
  is_Some (select_predeadline_quota_authority current retained).
Proof.
  intros (Es&Hg&Hi) (state&Hr&Hu) Hall. unfold select_predeadline_quota_authority. rewrite Es. cbn [mbind option_bind].
  rewrite (proj2 (Z.eqb_neq _ _)), Hi by done. cbn [orb negb].
  set (cands := sort_by newest_first (List.filter (usable_authority current seen) retained)).
  assert (∀ state, state ∈ cands ↔ state ∈ retained ∧ usable_authority current seen state = true) as Hin
    by (intros; unfold cands; by rewrite sort_by_elem, elem_of_filter_bool).
  assert (state ∈ cands) as Hs by (by apply Hin). clearbody cands.
  destruct cands as [|s rest]; [by apply elem_of_nil in Hs|]. cbn [head mbind option_bind].
  rewrite existsb_false; [done|]. intros x Hx.
  destruct (proj1 (Hin x) Hx) as [Hx1 Hx2], (proj1 (Hin s) ltac:(by left)) as [Hs1 Hs2].
  destruct (Hall x s Hx1 Hs1 Hx2 Hs2) as [Hw Hsame].
  by rewrite Hsame, (proj2 (Z.eqb_eq _ _) Hw).
Qed.
End authority.

(** ** Reset periods *)
Definition groups_apart (later earlier : ResetPeriodAccumulator) : Prop :=
  ra_min_reset_at earlier + 60 < ra_min_reset_at later.
Definition group_holds (g : ResetPeriodAccumulator) (s : UsageHistorySample) : Prop :=
  ra_min_reset_at g ≤ hs_reset_at s ≤ ra_canonical_id g ∧ ra_start_timestamp g ≤ hs_timestamp s.
Record groups_ok (pre : list UsageHistorySample) (groups : list ResetPeriodAccumulator) : Prop := {
  go_held : ∀ s, s ∈ pre → ∃ g, g ∈ groups ∧ group_holds g s;
  go_width : ∀ g, g ∈ groups → ra_min_reset_at g ≤ ra_canonical_id g ≤ ra_min_reset_at g + 60;
  go_seen : ∀ g, g ∈ groups → (∃ s, s ∈ pre ∧ hs_reset_at s = ra_canonical_id g)
      ∧ ∃ s, s ∈ pre ∧ hs_timestamp s = ra_start_timestamp g ∧ ra_min_reset_at g ≤ hs_reset_at s ≤ ra_canonical_id g;
  go_apart : StronglySorted groups_apart groups;
  go_last : ∀ s g, s ∈ pre → head groups = Some g → hs_reset_at s ≤ ra_canonical_id g
}.
Lemma group_step_ok pre groups s : groups_ok pre groups → (∀ s', s' ∈ pre → hs_reset_at s' ≤ hs_reset_at s) →
  groups_ok (pre ++ [s]) (group_step groups s).
Proof.
  intros [H1 H2 H3 H4 H5] Hs. unfold group_step. destruct groups as [|g rest].
  { assert (pre = []) as ->.
    { destruct pre as [|a pre]; [done|]. destruct (H1 a ltac:(by left)) as (g&Hg%elem_of_nil&_). done. }
    unfold new_group. split.
    - intros s' ->%list_elem_of_singleton. eexists. split; [by left|]. unfold group_holds. cbn. lia.
    - intros g ->%list_elem_of_singleton. cbn. lia.
    - intros g ->%list_elem_of_singleton. cbn. split; [by exists s; split; [left|]|].
      exists s. split_and!; [by left|done|lia|lia].
    - repeat constructor.
    - intros s' g ->%list_elem_of_singleton [= <-]. cbn. lia. }
  unfold RESET_GROUP_TOLERANCE_SECONDS.
  inversion H4 as [|? ? H4' Hall]; subst.
  destruct (H3 g ltac:(by left)) as [(sc&Hsc&Ec) (st&Hst&Et&Hrange)].
  pose proof (H2 g ltac:(by left)) as Hw. pose proof (Hs sc Hsc) as Hsc'.
  assert (∀ h, h ∈ rest → (∃ s0, s0 ∈ pre ++ [s] ∧ hs_reset_at s0 = ra_canonical_id h)
      ∧ ∃ s0, s0 ∈ pre ++ [s] ∧ hs_timestamp s0 = ra_start_timestamp h
          ∧ ra_min_reset_at h ≤ hs_reset_at s0 ≤ ra_canonical_id h) as Hrest.
  { intros h Hh. destruct (H3 h ltac:(by right)) as [(a&?&?) (b&?&?&?)].
    split; [exists a|exists b]; rewrite elem_of_app; tauto. }
  destruct (Z.leb_spec (hs_reset_at s - ra_min_reset_at g) 60) as [Hle|Hgt].
  - split.
    + intros s' [Hs'| ->%list_elem_of_singleton]%elem_of_app.
      * destruct (H1 s' Hs') as (h&[->|Hh]%elem_of_cons&Hhold).
        -- eexists. split; [by left|]. unfold group_holds in *. cbn. lia.
        -- exists h. split; [by right|done].
      * eexists. split; [by left|]. unfold group_holds. cbn. lia.
    + intros h [->|Hh]%elem_of_cons; [cbn; lia|]. apply H2. by right.
    + intros h [->|Hh]%elem_of_cons; [|by apply Hrest]. cbn. split.
      * exists s. rewrite elem_of_app, list_elem_of_singleton. split; [by right|lia].
      * destruct (Z.le_ge_cases (ra_start_timestamp g) (hs_timestamp s)).
        -- exists st. rewrite elem_of_app. split_and!; [by left|lia|lia|lia].
        -- exists s. rewrite elem_of_app, list_elem_of_singleton. split_and!; [by right|lia|lia|lia].
    + by constructor.
    + intros s' h [Hs'| ->%list_elem_of_singleton]%elem_of_app [= <-]; cbn; [|lia].
      specialize (Hs s' Hs'). lia.
  - split.
    + intros s' [Hs'| ->%list_elem_of_singleton]%elem_of_app.
      * destruct (H1 s' Hs') as (h&Hh&Hhold). exists h. split; [by right|done].
      * exists (new_group s). split; [by left|]. unfold group_holds, new_group. cbn. lia.
    + intros h [->|Hh]%elem_of_cons; [cbn; lia|by apply H2].
    + intros h [->|[->|Hh]%elem_of_cons]%elem_of_cons; [| |by apply Hrest].
      * cbn. split; [exists s|exists s]; rewrite elem_of_app, list_elem_of_singleton; split_and!; try lia; by right.
      * split; [exists sc|exists st]; rewrite elem_of_app; tauto.
    + constructor; [done|]. apply Forall_forall. intros h Hh. unfold groups_apart. cbn.
      apply elem_of_cons in Hh as [->|Hh]; [lia|]. rewrite Forall_forall in Hall.
      specialize (Hall h Hh). unfold groups_apart in Hall. lia.
    + intros s' h [Hs'| ->%list_elem_of_singleton]%elem_of_app [= <-]; cbn; [by apply Hs|lia].
Qed.
Lemma sample_before_total a b : sample_before a b = true ∨ sample_before b a = true.
Proof. unfold sample_before. rewrite (Z.eqb_sym (hs_reset_at b)). destruct (_ =? _) eqn:E; lia. Qed.
Lemma sample_before_trans a b c : sample_before a b = true → sample_before b c = true → sample_before a c = true.
Proof.
  unfold sample_before. destruct (hs_reset_at a =? hs_reset_at b) eqn:E1, (hs_reset_at b =? hs_reset_at c) eqn:E2,
    (hs_reset_at a =? hs_reset_at c) eqn:E3; lia.
Qed.
Lemma groups_fold l pre groups :
  StronglySorted (λ a b, sample_before a b = true) l → groups_ok pre groups →
  (∀ s s', s ∈ pre → s' ∈ l → hs_reset_at s ≤ hs_reset_at s') →
  groups_ok (pre ++ l) (fold_left group_step l groups).
Proof.
  intros HS. revert pre groups. induction HS as [|s l HS IH Hs]; intros pre groups Hok Hle.
  { by rewrite app_nil_r. }
  cbn [fold_left]. change (s :: l) with ([s] ++ l). rewrite app_assoc. apply IH.
  - apply group_step_ok; [done|]. intros s' Hs'. apply Hle; [done|by left].
  - intros a b [Ha| ->%list_elem_of_singleton]%elem_of_app Hb; [apply Hle; [done|by right]|].
    rewrite Forall_forall in Hs. specialize (Hs b Hb). unfold sample_before in Hs.
    destruct (_ =? _) eqn:E in Hs; lia.
Qed.
Lemma groups_of_samples samples :
  groups_ok (sort_by sample_before samples) (fold_left group_step (sort_by sample_before samples) []).
Proof.
  apply (groups_fold _ []).
  - apply sort_by_sorted; [apply sample_before_total|apply sample_before_trans].
  - split; [by intros ? ?%elem_of_nil|by intros ? ?%elem_of_nil|by intros ? ?%elem_of_nil|constructor|done].
  - by intros ? ? ?%elem_of_nil.
Qed.
Lemma close_groups_map groups : map rp_canonical_id (close_groups groups) = map ra_canonical_id groups
  ∧ map rp_start_timestamp (close_groups groups) = map ra_start_timestamp groups.
Proof. induction groups as [|g rest [IH1 IH2]]; [done|]. cbn. by rewrite IH1, IH2. Qed.
Lemma elem_of_close_groups groups g : g ∈ groups → ∃ p, p ∈ close_groups groups
  ∧ rp_canonical_id p = ra_canonical_id g ∧ rp_start_timestamp p = ra_start_timestamp g.
Proof.
  induction groups as [|h rest IH]; [by intros ?%elem_of_nil|].
  intros [->|Hg]%elem_of_cons; cbn [close_groups].
  - eexists. split; [by left|done].
  - destruct (IH Hg) as (p&?&?&?). exists p. split; [by right|done].
Qed.
Lemma close_groups_end groups p : p ∈ close_groups groups → rp_end_timestamp p ≤ rp_canonical_id p.
Proof.
  induction groups as [|h rest IH]; cbn [close_groups]; [by intros ?%elem_of_nil|].
  intros [->|Hp]%elem_of_cons; [|by apply IH]. cbn. destruct rest; lia.
Qed.
Lemma groups_canonical_NoDup groups : StronglySorted groups_apart groups →
  (∀ g, g ∈ groups → ra_min_reset_at g ≤ ra_canonical_id g ≤ ra_min_reset_at g + 60) →
  NoDup (map ra_canonical_id groups).
Proof.
  induction 1 as [|g rest HS IH Hall]; intros Hw; cbn; [constructor|]. constructor.
  - intros (h&Eh&Hh)%list_elem_of_fmap. rewrite Forall_forall in Hall. specialize (Hall h Hh).
    unfold groups_apart in Hall. pose proof (Hw g ltac:(by left)). pose proof (Hw h ltac:(by right)). lia.
  - apply IH. intros. apply Hw. by right.
Qed.
Lemma same_keys_fold l l' groups :
  map (λ s, (hs_reset_at s, hs_timestamp s)) l = map (λ s, (hs_reset_at s, hs_timestamp s)) l' →
  fold_left group_step l groups = fold_left group_step l' groups.
Proof.
  revert l' groups. induction l as [|s l IH]; intros [|s' l'] groups E; try done.
  cbn [map] in E. injection E as E1 E2 E. cbn [fold_left].
  replace (group_step groups s') with (group_step groups s); [by apply IH|].
  unfold group_step, new_group, join_group. by rewrite E1, E2.
Qed.
Definition key_before (a b : Z * Z) : bool := if a.1 =? b.1 then a.2 <=? b.2 else a.1 <? b.1.
Lemma sort_keys_perm l l' : l ≡ₚ l' → sort_by key_before l = sort_by key_before l'.
Proof.
  intros Hp. apply (StronglySorted_unique_strong (λ a b, key_before a b = true)).
  - intros [a1 a2] [b1 b2] _ _. unfold key_before. cbn.
    destruct (a1 =? b1) eqn:E, (b1 =? a1) eqn:E'; try lia; intros; f_equal; lia.
  - apply sort_by_sorted; unfold key_before; [intros [a1 a2] [b1 b2]|intros [a1 a2] [b1 b2] [c1 c2]]; cbn; repeat case_match; lia.
  - apply sort_by_sorted; unfold key_before; [intros [a1 a2] [b1 b2]|intros [a1 a2] [b1 b2] [c1 c2]]; cbn; repeat case_match; lia.
  - by rewrite !(sort_by_perm key_before _).
Qed.

(** ** Ownership intervals *)
Record valid_interval (i : SessionLifecycleInterval) : Prop := {
  vi_start : from_option (λ s, 1 ≤ s ≤ MAX_PUBLIC_UNIX_SECONDS) True (li_start_at i);
  vi_end : from_option (λ e, 1 ≤ e ≤ MAX_PUBLIC_UNIX_SECONDS) True (li_end_at i);
  vi_order : ∀ s e, li_start_at i = Some s → li_end_at i = Some e → s ≤ e
}.
Lemma interval_invalid_false i : interval_invalid i = false ↔ valid_interval i.
Proof.
  unfold interval_invalid. rewrite !orb_false_iff. destruct i as [[s|] [e|]]; cbn; split.
  all: try (intros [[? ?] ?]); try (intros [? ? ?]); try split; cbn in *; rewrite ?negb_false_iff, ?in_range_true in *; try done; try lia.
  all: try (intros ? ? [= <-] [= <-]; lia).
  all: try (split; lia). specialize (vi_order0 s e eq_refl eq_refl). lia.
Qed.
Definition ends_by_start (a b : SessionLifecycleInterval) : Prop := end_key a ≤ start_key b.
Definition nonempty (i : SessionLifecycleInterval) : bool := negb (interval_empty i).
Lemma nonempty_keys i : valid_interval i → nonempty i = true ↔ start_key i < end_key i.
Proof.
  intros [Hs He Ho]. unfold nonempty, interval_empty, start_key, end_key, MAX_PUBLIC_UNIX_SECONDS, i64_min, i64_max in *.
  destruct (li_start_at i) as [s|], (li_end_at i) as [e|]; cbn in *; unfold id; try (split; [lia|done]).
  specialize (Ho s e eq_refl eq_refl). rewrite negb_true_iff, Z.eqb_neq. lia.
Qed.
Lemma contains_keys i t : valid_interval i → i64_min ≤ t < i64_max →
  interval_contains i t = true ↔ start_key i ≤ t < end_key i.
Proof.
  intros [Hs He _] Ht. unfold interval_contains, start_key, end_key in *.
  rewrite andb_true_iff. destruct (li_start_at i), (li_end_at i); cbn; unfold id; rewrite ?Z.leb_le, ?Z.ltb_lt; lia.
Qed.
Lemma start_key_bound i : valid_interval i → i64_min ≤ start_key i < i64_max.
Proof.
  intros [Hs _ _]. unfold start_key, MAX_PUBLIC_UNIX_SECONDS, i64_min, i64_max in *.
  destruct (li_start_at i); cbn in *; unfold id; lia.
Qed.
Lemma interval_fold l previous :
  (∀ i, i ∈ l → nonempty i = true → start_key i < end_key i) →
  is_ok (fold_result interval_step previous l) = true ↔
  (∀ i, i ∈ l → nonempty i = true → from_option (λ p, p ≤ start_key i) True previous)
  ∧ StronglySorted ends_by_start (List.filter nonempty l).
Proof.
  revert previous. induction l as [|i l IH]; intros previous Hne; cbn [fold_result List.filter].
  { split; [|done]. intros _. split; [by intros ? ?%elem_of_nil|constructor]. }
  assert (∀ j, j ∈ l → nonempty j = true → start_key j < end_key j) as Hne' by (intros; apply Hne; [by right|done]).
  unfold interval_step at 1. destruct (nonempty i) eqn:Hi; pose proof Hi as Ei; unfold nonempty in Ei;
    [apply negb_true_iff in Ei|apply negb_false_iff in Ei]; rewrite Ei.
  2: { cbn [mbind result_bind]. rewrite (IH previous Hne'). split; intros [H1 H2]; (split; [|done]); intros j.
    - intros [->|Hj]%elem_of_cons Hn; [congruence|by apply H1].
    - intros Hj. apply H1. by right. }
  pose proof (Hne i ltac:(by left) Hi) as Hlt.
  destruct (is_some_and _ previous) eqn:Ep.
  { split; [done|]. intros [H1 _]. specialize (H1 i ltac:(by left) Hi). destruct previous; cbn in *; [lia|done]. }
  cbn [mbind result_bind]. rewrite (IH _ Hne'). cbn [from_option]. split.
  - intros [H1 H2]. assert (from_option (λ p, p ≤ start_key i) True previous) as Hp
      by (destruct previous; cbn in *; [lia|done]). split.
    + intros j [->|Hj]%elem_of_cons Hn; [done|]. specialize (H1 j Hj Hn). destruct previous; cbn in *; [lia|done].
    + constructor; [done|]. apply Forall_forall. intros j [Hj Hn]%elem_of_filter_bool. by apply H1.
  - intros [H1 H2]. inversion H2 as [|? ? H2' Hall]; subst. split; [|done].
    intros j Hj Hn. rewrite Forall_forall in Hall. apply Hall. by apply elem_of_filter_bool.
Qed.
Lemma interval_before_total a b : interval_before a b = true ∨ interval_before b a = true.
Proof. unfold interval_before. rewrite (Z.eqb_sym (start_key b)). destruct (_ =? _) eqn:E; lia. Qed.
Lemma interval_before_trans a b c : interval_before a b = true → interval_before b c = true → interval_before a c = true.
Proof.
  unfold interval_before. destruct (start_key a =? start_key b) eqn:E1, (start_key b =? start_key c) eqn:E2,
    (start_key a =? start_key c) eqn:E3; lia.
Qed.
(** In the order of the starts, and of the ends where two intervals start together. *)
Definition starts_then_ends (a b : SessionLifecycleInterval) : Prop :=
  start_key a < start_key b ∨ (start_key a = start_key b ∧ end_key a ≤ end_key b).
Lemma interval_before_keys a b : interval_before a b = true → starts_then_ends a b.
Proof. unfold interval_before, starts_then_ends. destruct (_ =? _) eqn:E; lia. Qed.
(** No timestamp belongs to intervals at two positions. *)
Definition one_owner (l : list SessionLifecycleInterval) : Prop :=
  ∀ i j a b t, l !! i = Some a → l !! j = Some b → i64_min ≤ t < i64_max →
    interval_contains a t = true → interval_contains b t = true → i = j.
Lemma contains_nonempty i t : valid_interval i → i64_min ≤ t < i64_max → interval_contains i t = true → nonempty i = true.
Proof. intros Hv Ht. rewrite (contains_keys i t Hv Ht), (nonempty_keys i Hv). lia. Qed.

Lemma sorted_filter_lookup l : Forall valid_interval l → StronglySorted ends_by_start (List.filter nonempty l) →
  one_owner l.
Proof.
  intros HF. induction HF as [|x l Hx HF IH]; intros HS; [intros i j a b t Hi; by rewrite lookup_nil in Hi|].
  cbn [List.filter] in HS.
  assert (StronglySorted ends_by_start (List.filter nonempty l)
    ∧ (nonempty x = true → ∀ y, y ∈ l → nonempty y = true → ends_by_start x y)) as [HS' Hx'].
  { destruct (nonempty x); [|done]. inversion HS as [|? ? HS' Hall]; subst. split; [done|].
    intros _ y Hy Hn. rewrite Forall_forall in Hall. apply Hall. by apply elem_of_filter_bool. }
  specialize (IH HS'). rewrite Forall_forall in HF.
  assert (∀ j b t, l !! j = Some b → i64_min ≤ t < i64_max → interval_contains x t = true →
    interval_contains b t = true → False) as Hno.
  { intros j b t Hj Ht Hcx Hcb. apply list_elem_of_lookup_2 in Hj. pose proof (HF b Hj) as Hb.
    pose proof (contains_nonempty x t Hx Ht Hcx) as Nx. pose proof (contains_nonempty b t Hb Ht Hcb) as Nb.
    specialize (Hx' Nx b Hj Nb). unfold ends_by_start in Hx'.
    rewrite contains_keys in Hcx, Hcb by done. lia. }
  intros [|i] [|j] a b t Hi Hj Ht Ha Hb; cbn in Hi, Hj; [done| | |].
  - injection Hi as ->. exfalso. by eapply Hno.
  - injection Hj as ->. exfalso. by eapply Hno.
  - f_equal. by eapply IH.
Qed.
Lemma one_owner_sorted l : Forall valid_interval l → StronglySorted (λ a b, interval_before a b = true) l →
  one_owner l → StronglySorted ends_by_start (List.filter nonempty l).
Proof.
  intros HF HS. induction HS as [|x l HS IH Hall]; intros Ho; [constructor|].
  apply Forall_cons in HF as [Hx HF]. rewrite Forall_forall in Hall.
  assert (one_owner l) as Ho'.
  { intros i j a b t Hi Hj Ht Ha Hb. assert (S i = S j) as E by (by eapply (Ho (S i) (S j))). by injection E. }
  cbn [List.filter]. destruct (nonempty x) eqn:Nx; [|by apply IH]. constructor; [by apply IH|].
  apply Forall_forall. intros y [Hy Ny]%elem_of_filter_bool. unfold ends_by_start.
  assert (valid_interval y) as Vy by (rewrite Forall_forall in HF; by apply HF).
  destruct (Z.le_gt_cases (end_key x) (start_key y)) as [|Hgt]; [done|exfalso].
  specialize (Hall y Hy). apply list_elem_of_lookup in Hy as [j Hj].
  pose proof (start_key_bound y Vy) as Hb.
  assert (0%nat = S j); [|done]. apply (Ho 0%nat (S j) x y (start_key y)); try done.
  - apply contains_keys; [done|done|]. unfold interval_before in Hall. destruct (_ =? _) eqn:E in Hall; lia.
  - apply contains_keys; [done|done|]. apply nonempty_keys in Ny; [lia|done].
Qed.
(** The number of intervals that contain a timestamp does not depend on their order. *)
Definition owners (l : list SessionLifecycleInterval) (t : Z) : nat :=
  length (List.filter (λ i, interval_contains i t) l).
Lemma one_owner_count l : one_owner l ↔ ∀ t, i64_min ≤ t < i64_max → (owners l t ≤ 1)%nat.
Proof.
  unfold owners. induction l as [|x l IH].
  { split; [cbn; lia|intros _ i j a b t Hi; by rewrite lookup_nil in Hi]. }
  assert (∀ t, interval_contains x t = true →
    (length (List.filter (λ i, interval_contains i t) l) = 0)%nat ↔ ∀ j b, l !! j = Some b → interval_contains b t = false) as Hzero.
  { intros t _. rewrite length_zero_iff_nil. split.
    - intros E j b Hj%list_elem_of_lookup_2. destruct (interval_contains b t) eqn:Eb; [|done].
      assert (b ∈ List.filter (λ i, interval_contains i t) l) as Hb by (by apply elem_of_filter_bool).
      rewrite E in Hb. by apply elem_of_nil in Hb.
    - intros H. apply filter_none. intros b Hb. apply list_elem_of_lookup in Hb as [j Hj]. by eapply H. }
  split.
  - intros Ho t Ht. cbn [List.filter]. destruct (interval_contains x t) eqn:Ex.
    + cbn [length]. rewrite (proj2 (Hzero t Ex)); [lia|]. intros j b Hj. destruct (interval_contains b t) eqn:Eb; [|done].
      exfalso. assert (0%nat = S j) by (by eapply (Ho 0%nat (S j))). done.
    + apply IH; [|done]. intros i j a b t' Hi Hj Ht' Ha Hb.
      assert (S i = S j) as E by (by eapply (Ho (S i) (S j))). by injection E.
  - intros Hc. assert (one_owner l) as Ho.
    { apply IH. intros t Ht. specialize (Hc t Ht). cbn [List.filter] in Hc. destruct (interval_contains x t); cbn in Hc; lia. }
    assert (∀ j b t, l !! j = Some b → i64_min ≤ t < i64_max → interval_contains x t = true →
      interval_contains b t = true → False) as Hno.
    { intros j b t Hj Ht Hx Hb. specialize (Hc t Ht). cbn [List.filter] in Hc. rewrite Hx in Hc. cbn [length] in Hc.
      pose proof (proj1 (Hzero t Hx) ltac:(lia) j b Hj). congruence. }
    intros [|i] [|j] a b t Hi Hj Ht Ha Hb; cbn in Hi, Hj; [done| | |f_equal; by eapply Ho].
    + injection Hi as ->. exfalso. by eapply Hno.
    + injection Hj as ->. exfalso. by eapply Hno.
Qed.
#[export] Instance one_owner_proper : Proper (Permutation ==> iff) one_owner.
Proof.
  intros l l' Hp. rewrite !one_owner_count. unfold owners.
  split; intros Hc t Ht; specialize (Hc t Ht); by rewrite (filter_bool_perm _ _ _ Hp) in *.
Qed.
Lemma lifecycle_spec intervals :
  match canonical_lifecycle_intervals intervals with
  | Ok out =>
      (intervals ≠ [] ∧ Forall valid_interval intervals ∧ one_owner intervals)
      ∧ out ≡ₚ intervals ∧ StronglySorted starts_then_ends out
      ∧ StronglySorted ends_by_start (List.filter nonempty out)
  | Err _ => intervals = [] ∨ ¬ Forall valid_interval intervals ∨ ¬ one_owner intervals
  end.
Proof.
  unfold canonical_lifecycle_intervals. case_bool_decide as Hnil; [by left|].
  set (l := sort_by interval_before intervals).
  assert (l ≡ₚ intervals) as Hp by apply sort_by_perm.
  assert (StronglySorted (λ a b, interval_before a b = true) l) as HS
    by (apply sort_by_sorted; [apply interval_before_total|apply interval_before_trans]).
  destruct (existsb interval_invalid l) eqn:Ex.
  { right. left. rewrite <- Hp. intros HF. apply existsb_Exists, Exists_exists in Ex as (i&Hi&Hbad).
    rewrite Forall_forall in HF. apply HF, interval_invalid_false in Hi. congruence. }
  assert (Forall valid_interval l) as HF.
  { apply existsb_false_Forall in Ex. eapply Forall_impl; [exact Ex|]. intros i. apply interval_invalid_false. }
  pose proof (interval_fold l None) as Hf. rewrite Forall_forall in HF.
  destruct (fold_result interval_step None l) as [e|e]; cbn [mbind result_bind].
  - assert (StronglySorted ends_by_start (List.filter nonempty l)) as HE
      by (apply Hf; [intros i Hi; apply nonempty_keys; by apply HF|done]).
    split; [split; [done|]|split_and!; [done| |done]].
    + rewrite <- Hp. split; [by apply Forall_forall|]. apply sorted_filter_lookup; [by apply Forall_forall|done].
    + eapply StronglySorted_weaken; [exact interval_before_keys|exact HS].
  - right. right. rewrite <- Hp. intros Ho. assert (is_ok (Err (A:=option Z) e) = true); [|done].
    apply Hf; [intros i Hi; apply nonempty_keys; by apply HF|]. split; [done|].
    apply one_owner_sorted; [by apply Forall_forall|done|done].
Qed.

(** ** Properties *)

(** C11. An observation opens a new period exactly when it is valid, not older than the last
    one, and either the accepted deadline has passed and the new window starts within a
    minute of it, or the new window started between the two observations (up to two
    minutes early), its deadline did not just advance with the clock, and quota came
    back. A later deadline alone never opens one. *)
Theorem quota_boundary_exact p c reset observed remaining :
  candidate_wf c → valid_previous p reset observed remaining → is_i64 reset → is_i64 observed →
  classify_quota_transition p c = Boundary ↔
  valid_candidate c ∧ observed ≤ qc_observed_at c
  ∧ (follows_deadline reset c ∨ recovered_between reset observed remaining c).
Proof. apply boundary_spec. Qed.

(** A selected authority is a retained state the current one can replace: it is usable,
    the newest of the usable ones, and every usable one names its period; one is
    selected whenever there is a usable state and all usable ones agree. *)
Theorem predeadline_authority_exact {Checkpoint} (current : SessionCollectionState Checkpoint) retained :
  (∀ selected, select_predeadline_quota_authority current retained = Some selected →
     ∃ seen, replaceable current seen ∧ selected ∈ retained ∧ usable_authority current seen selected = true
     ∧ ∀ state, state ∈ retained → usable_authority current seen state = true →
         cs_data_generation state ≤ cs_data_generation selected ∧ same_period state selected)
  ∧ (∀ seen, replaceable current seen →
     (∃ state, state ∈ retained ∧ usable_authority current seen state = true) →
     (∀ state state', state ∈ retained → state' ∈ retained → usable_authority current seen state = true →
        usable_authority current seen state' = true → same_period state state') →
     is_Some (select_predeadline_quota_authority current retained)).
Proof. split; [apply authority_spec|apply authority_exists]. Qed.

(** The reset periods of samples: every sample falls in a period whose deadline is at
    most a minute later than the sample's and which starts no later; no two periods
    share a deadline; a period ends by its deadline; and the order in which the samples
    are stored does not matter. *)
Theorem reset_periods_exact samples :
  (∀ s, s ∈ samples → ∃ p, p ∈ build_reset_periods samples
     ∧ hs_reset_at s ≤ rp_canonical_id p ≤ hs_reset_at s + 60 ∧ rp_start_timestamp p ≤ hs_timestamp s)
  ∧ NoDup (map rp_canonical_id (build_reset_periods samples))
  ∧ (∀ p, p ∈ build_reset_periods samples → rp_end_timestamp p ≤ rp_canonical_id p)
  ∧ (∀ samples', samples' ≡ₚ samples → build_reset_periods samples' = build_reset_periods samples).
Proof.
  destruct (groups_of_samples samples) as [H1 H2 H3 H4 H5].
  unfold build_reset_periods. split_and!.
  - intros s Hs. destruct (H1 s) as (g&Hg&[Hr1 Hr2]); [by apply sort_by_elem|].
    assert (g ∈ reset_groups samples) as Hg' by (unfold reset_groups; by rewrite <- Permutation_rev).
    apply elem_of_close_groups in Hg' as (p&Hp&Ec&Es). pose proof (H2 g Hg).
    exists p. rewrite sort_by_elem. split; [done|lia].
  - rewrite (sort_by_perm newest_period _), (proj1 (close_groups_map _)). unfold reset_groups.
    rewrite map_rev, <- Permutation_rev. by apply groups_canonical_NoDup.
  - intros p. rewrite sort_by_elem. apply close_groups_end.
  - intros samples' Hp. f_equal. f_equal. unfold reset_groups. f_equal. apply same_keys_fold.
    rewrite !(sort_by_map sample_before key_before) by done. by apply sort_keys_perm, Permutation_map.
Qed.

(** C12. Ownership intervals are accepted exactly when there is at least one, each is well
    ordered and inside the public time range, and no timestamp belongs to two of them.
    What is returned then is the same intervals, sorted by their start and, where two
    start together, by their end (an open side counting as the least or the greatest
    time), and of those that are not empty each ends by the start of the later ones. Any
    other list is refused. *)
Theorem ownership_intervals_exact intervals :
  match canonical_lifecycle_intervals intervals with
  | Ok out =>
      (intervals ≠ [] ∧ Forall valid_interval intervals ∧ one_owner intervals)
      ∧ out ≡ₚ intervals ∧ StronglySorted starts_then_ends out
      ∧ StronglySorted ends_by_start (List.filter nonempty out)
  | Err _ => intervals = [] ∨ ¬ Forall valid_interval intervals ∨ ¬ one_owner intervals
  end.
Proof. apply lifecycle_spec. Qed.

(** ** A weekly window *)
Definition example_previous : PreviousQuotaState := {|
  pq_reset_at := Some 1000000; pq_window_seconds := 604800; pq_observed_at := Some 900000;
  pq_remaining_percent := Some (f64_of_Z 40) |}.
Definition example_candidate (reset remaining : Z) : QuotaCandidate := {|
  qc_reset_at := reset; qc_window_seconds := 604800; qc_remaining_percent := Some (f64_of_Z remaining);
  qc_observed_at := 900600 |}.
Lemma quota_boundary_exact_witness :
  (classify_quota_transition example_previous (example_candidate 1505000 100) = Boundary ↔
   valid_candidate (example_candidate 1505000 100) ∧ 900000 ≤ qc_observed_at (example_candidate 1505000 100)
   ∧ (follows_deadline 1000000 (example_candidate 1505000 100)
      ∨ recovered_between 1000000 900000 (f64_of_Z 40) (example_candidate 1505000 100)))
  ∧ classify_quota_transition example_previous (example_candidate 1505000 100) = Boundary
  ∧ classify_quota_transition example_previous (example_candidate 1505000 30) = SamePeriod.
Proof.
  split; [|split; by vm_compute].
  apply (quota_boundary_exact example_previous); [by repeat split|split; by vm_compute|done|done].
Defined.
