(* ===== verification/SessionReplay.v ===== *)
(** * Saved session events: replay, lineage and sums

    Models the in-memory handling of [SessionEvent]s in
    [crates/codex-info-db-writer/src/lib.rs]: what a valid event is, exact replay and
    ambiguous lineage, [canonicalize_session_events], which keeps every distinct event
    in time order, and the sums of the events per model and family. *)

From S2P Require Import Prelude Text TokenFacts ModelNames Pricing SourceAdmission SessionRecord History GapLedger ModelReconcile QuotaPeriods.

(** ** Orders of tuple keys *)
Inductive atom := AText (t : text) | ANum (z : Z) | AOpt (o : option Z).
Definition opt_compare (a b : option Z) : comparison :=
  match a, b with
  | None, None => Eq | None, Some _ => Lt | Some _, None => Gt | Some x, Some y => Z.compare x y
  end.
Definition atom_compare (a b : atom) : comparison :=
  match a, b with
  | AText x, AText y => text_compare x y
  | ANum x, ANum y => Z.compare x y
  | AOpt x, AOpt y => opt_compare x y
  | AText _, _ => Lt | _, AText _ => Gt
  | ANum _, _ => Lt | _, ANum _ => Gt
  end.
Fixpoint key_compare (a b : list atom) : comparison :=
  match a, b with
  | [], [] => Eq
  | [], _ => Lt
  | _, [] => Gt
  | x :: a', y :: b' => match atom_compare x y with Eq => key_compare a' b' | c => c end
  end.
Definition key_leb (a b : list atom) : bool := match key_compare a b with Gt => false | _ => true end.

Record SessionEvent := {
  se_root_identity : text;
  se_relative_path : text;
  se_file_device : Z;
  se_file_inode : Z;
  se_prefix_generation : Z;
  se_range_start : Z;
  se_range_end : Z;
  se_record_sha256 : text;
  se_event_index : Z;
  se_timestamp : Z;
  se_model : text;
  se_tokens : TokenSnapshot
}.
#[export] Instance SessionEvent_eq_dec : EqDecision SessionEvent.
Proof. solve_decision. Defined.

(** [RecordedSessionSource::validate] of a key. *)
Definition check_session_key (root_identity relative_path : text) : store_result () :=
  if bool_decide (root_identity = []) || (MAX_RECORDED_ROOT_IDENTITY_BYTES <? str_len root_identity)
     || negb (is_ascii root_identity)
  then invalid "recorded session root identity is invalid"
  else if bool_decide (relative_path = []) || (MAX_RECORDED_RELATIVE_PATH_BYTES <? str_len relative_path)
     || negb (is_relative_normal relative_path)
  then invalid "recorded session relative path is invalid"
  else Ok ().
Definition validate_session_event (event : SessionEvent) : store_result () :=
  _ ← check_session_key (se_root_identity event) (se_relative_path event);
  if (se_range_end event <=? se_range_start event)
     || (i64_max <? se_range_start event) || (i64_max <? se_range_end event)
     || (i64_max <? se_event_index event) || (se_prefix_generation event =? 0)
     || (se_timestamp event <=? 0) || (MAX_PUBLIC_UNIX_SECONDS <? se_timestamp event)
     || negb (valid_session_model (se_model event))
     || negb (is_ok (validate_fact (facts (se_tokens event))))
  then invalid "session event is invalid"
  else if negb (validate_sha256 (se_record_sha256 event))
  then invalid "session event record is not a SHA-256 digest"
  else Ok ().

Definition event_model_total (event : SessionEvent) : SessionModelTotal := {|
  st_model := se_model event; st_tokens := se_tokens event |}.
Definition sum_step (totals : list SessionModelTotal) (event : SessionEvent) :
    store_result (list SessionModelTotal) :=
  _ ← validate_session_event event;
  ok_or (checked_add_model_totals totals [event_model_total event]) GenerationOverflow.
Definition sum_session_events (events : list SessionEvent) : store_result (list SessionModelTotal) :=
  fold_result sum_step [] events.
Definition event_has_usage (event : SessionEvent) : bool :=
  let t := se_tokens event in
  (0 <? ts_total t) || is_some_and (Z.ltb 0) (ts_input t) || is_some_and (Z.ltb 0) (ts_cached_input t)
  || is_some_and (Z.ltb 0) (ts_output t) || is_some_and (Z.ltb 0) (ts_cache_write_input t).
Definition tokens_step (tokens : Z * Z * Z) (total : SessionModelTotal) : Z * Z * Z :=
  let '(sol, terra, luna) := tokens in
  match family (st_model total) with
  | Some name =>
      if text_eqb name (lit "SOL") then (u64_saturating_add sol (ts_total (st_tokens total)), terra, luna)
      else if text_eqb name (lit "TERRA") then (sol, u64_saturating_add terra (ts_total (st_tokens total)), luna)
      else if text_eqb name (lit "LUNA") then (sol, terra, u64_saturating_add luna (ts_total (st_tokens total)))
      else tokens
  | None => tokens
  end.
Definition session_totals_history_tokens (totals : list SessionModelTotal) : Z * Z * Z :=
  fold_left tokens_step totals (0, 0, 0).

Definition is_legacy_family_key (model : text) : bool := is_any model ["SOL"; "TERRA"; "LUNA"; "ASTRA"].
Definition session_event_models_replay_compatible (existing candidate : text) : bool :=
  text_eqb existing candidate
  || (is_legacy_family_key existing && bool_decide (family candidate = Some existing))
  || (is_legacy_family_key candidate && bool_decide (family existing = Some candidate)).
Definition session_event_is_replay (existing candidate : SessionEvent) : bool := bool_decide (existing = candidate).
Definition session_event_has_ambiguous_lineage (existing candidate : SessionEvent) : bool :=
  negb (se_prefix_generation existing =? se_prefix_generation candidate)
  && text_eqb (se_root_identity existing) (se_root_identity candidate)
  && text_eqb (se_relative_path existing) (se_relative_path candidate)
  && (se_file_device existing =? se_file_device candidate)
  && (se_file_inode existing =? se_file_inode candidate)
  && (se_timestamp existing =? se_timestamp candidate)
  && session_event_models_replay_compatible (se_model existing) (se_model candidate)
  && bool_decide (se_tokens existing = se_tokens candidate)
  && (se_range_start existing <? se_range_end candidate)
  && (se_range_start candidate <? se_range_end existing).

Definition session_event_primary_key (e : SessionEvent) : list atom :=
  [AText (se_root_identity e); AText (se_relative_path e); ANum (se_file_device e); ANum (se_file_inode e);
   ANum (se_prefix_generation e); ANum (se_range_start e); ANum (se_range_end e);
   AText (se_record_sha256 e); ANum (se_event_index e)].
Definition session_event_replay_group_key (e : SessionEvent) : list atom :=
  [AText (se_root_identity e); AText (se_relative_path e); ANum (se_file_device e); ANum (se_file_inode e);
   ANum (se_timestamp e); AText (se_model e); ANum (ts_total (se_tokens e)); AOpt (ts_input (se_tokens e));
   AOpt (ts_cached_input (se_tokens e)); AOpt (ts_output (se_tokens e));
   AOpt (ts_cache_write_input (se_tokens e))].
#[export] Instance atom_eq_dec : EqDecision atom.
Proof. solve_decision. Defined.

(** [entry(key).or_default().push(event)]: the keys in order, each with its events in
    the order they came. *)
Definition replay_groups (events : list SessionEvent) : list (list SessionEvent) :=
  map (λ key, List.filter (λ e, bool_decide (session_event_replay_group_key e = key)) events)
    (sort_by key_leb (remove_dups (map session_event_replay_group_key events))).
(** The loop over a group with the set of keys [seen]: the events kept, and whether one was not. *)
Fixpoint unseen (seen : list (list atom)) (group : list SessionEvent) : list SessionEvent * bool :=
  match group with
  | [] => ([], false)
  | event :: rest =>
      if bool_decide (session_event_primary_key event ∈ seen) then ((unseen seen rest).1, true)
      else
        let '(kept, dropped) := unseen (session_event_primary_key event :: seen) rest in
        (event :: kept, dropped)
  end.
Definition event_order (e : SessionEvent) : list atom :=
  [ANum (se_timestamp e); AText (se_root_identity e); AText (se_relative_path e);
   ANum (se_range_start e); ANum (se_event_index e)].
Definition canonicalize_session_events (events : list SessionEvent) : list SessionEvent * bool :=
  let groups := replay_groups events in
  let canonical := concat (map (λ group, (unseen [] group).1) groups) in
  (sort_by (λ a b, key_leb (event_order a) (event_order b)) canonical,
   existsb (λ group, (unseen [] group).2) groups).

(** * The canonical events, and their sums

    Theorems about [SessionReplay]: the canonical events are the distinct saved ones in
    time order, lineage is a symmetric relation between different generations, and the
    sums of events exist exactly when every event is valid and every model fits. *)

(** ** Order of keys *)
Lemma opt_compare_Eq a b : opt_compare a b = Eq ↔ a = b.
Proof. destruct a, b; cbn; rewrite ?Z.compare_eq_iff; naive_solver. Qed.
Lemma atom_compare_Eq a b : atom_compare a b = Eq ↔ a = b.
Proof.
  destruct a, b; cbn; try done; rewrite ?text_compare_Eq, ?Z.compare_eq_iff, ?opt_compare_Eq; naive_solver.
Qed.
Lemma opt_compare_antisym a b : opt_compare b a = CompOpp (opt_compare a b).
Proof. destruct a, b; cbn; try done. apply Z.compare_antisym. Qed.
Lemma atom_compare_antisym a b : atom_compare b a = CompOpp (atom_compare a b).
Proof.
  destruct a, b; cbn; try done; [apply text_compare_antisym|apply Z.compare_antisym|apply opt_compare_antisym].
Qed.
Lemma atom_compare_trans a b c : atom_compare a b ≠ Gt → atom_compare b c ≠ Gt → atom_compare a c ≠ Gt.
Proof.
  destruct a as [s|x|x], b as [t|y|y], c as [u|z|z]; cbn; try done; [apply text_compare_trans| |].
  - destruct (Z.compare_spec x y), (Z.compare_spec y z), (Z.compare_spec x z); try done; lia.
  - destruct x as [x|], y as [y|], z as [z|]; cbn; try done.
    destruct (Z.compare_spec x y), (Z.compare_spec y z), (Z.compare_spec x z); try done; lia.
Qed.
Lemma key_compare_antisym a b : key_compare b a = CompOpp (key_compare a b).
Proof.
  revert b. induction a as [|x a IH]; intros [|y b]; cbn; try done.
  rewrite (atom_compare_antisym x y). destruct (atom_compare x y); cbn; [apply IH|done|done].
Qed.
Lemma key_compare_trans a b c : key_compare a b ≠ Gt → key_compare b c ≠ Gt → key_compare a c ≠ Gt.
Proof.
  revert b c. induction a as [|x a IH]; intros [|y b] [|z c]; cbn; try done.
  pose proof (atom_compare_trans x y z) as Ht.
  destruct (atom_compare x y) eqn:E1.
  - apply atom_compare_Eq in E1 as ->. destruct (atom_compare y z); [apply IH|done|done].
  - destruct (atom_compare y z) eqn:E2; [apply atom_compare_Eq in E2 as ->; by rewrite E1| |done].
    intros _ _. destruct (atom_compare x z) eqn:E3; [|done|by destruct Ht].
    apply atom_compare_Eq in E3 as ->. rewrite atom_compare_antisym, E2 in E1. done.
  - done.
Qed.
Lemma key_leb_total a b : key_leb a b = true ∨ key_leb b a = true.
Proof. unfold key_leb. rewrite (key_compare_antisym a b). destruct (key_compare a b); auto. Qed.
Lemma key_leb_trans a b c : key_leb a b = true → key_leb b c = true → key_leb a c = true.
Proof.
  unfold key_leb. pose proof (key_compare_trans a b c).
  destruct (key_compare a b), (key_compare b c), (key_compare a c); naive_solver.
Qed.

(** ** Canonical events *)
Lemma keys_determine_event e e' :
  session_event_replay_group_key e = session_event_replay_group_key e' →
  session_event_primary_key e = session_event_primary_key e' → e = e'.
Proof.
  unfold session_event_replay_group_key, session_event_primary_key.
  destruct e as [? ? ? ? ? ? ? ? ? ? ? []], e' as [? ? ? ? ? ? ? ? ? ? ? []]; cbn.
  intros H1 H2. by simplify_eq.
Qed.
(** A group: events with one replay key. *)
Definition one_key (group : list SessionEvent) : Prop :=
  ∀ e e', e ∈ group → e' ∈ group → session_event_replay_group_key e = session_event_replay_group_key e'.
Lemma unseen_spec seen group : one_key group →
  NoDup (unseen seen group).1
  ∧ (∀ e, e ∈ (unseen seen group).1 ↔ e ∈ group ∧ session_event_primary_key e ∉ seen)
  ∧ ((unseen seen group).2 = false ↔ NoDup group ∧ ∀ e, e ∈ group → session_event_primary_key e ∉ seen).
Proof.
  revert seen. induction group as [|e group IH]; intros seen H; cbn [unseen].
  { split_and!; [constructor| |].
    - intros e. cbn. split; [by intros ?%elem_of_nil|by intros [?%elem_of_nil _]].
    - cbn. split; [intros _; split; [constructor|by intros ? ?%elem_of_nil]|done]. }
  assert (one_key group) as H' by (intros a b Ha Hb; apply H; by right).
  case_bool_decide as Hs; cbn [fst snd].
  - destruct (IH seen H') as (HN&Hin&_). split_and!; [done| |].
    + intros a. rewrite Hin, elem_of_cons. split; [tauto|]. intros [[->|?] ?]; done.
    + split; [done|]. intros [_ Hn]. exfalso. apply (Hn e); [by left|done].
  - destruct (IH (session_event_primary_key e :: seen) H') as (HN&Hin&Hd).
    destruct (unseen (session_event_primary_key e :: seen) group) as [kept dropped]. cbn [fst snd] in *.
    assert (∀ a, a ∈ group → session_event_primary_key a = session_event_primary_key e → a = e) as Hinj.
    { intros a Ha Ek. apply keys_determine_event; [|done]. apply H; [by right|by left]. }
    split_and!.
    + constructor; [|done]. rewrite Hin, not_elem_of_cons. by intros [_ [? _]].
    + intros a. rewrite !elem_of_cons, Hin, not_elem_of_cons. split.
      * intros [->|(?&?&?)]; [split; [by left|done]|split; [by right|done]].
      * intros [[->|Ha] Hn]; [by left|]. destruct (decide (a = e)) as [->|Hne]; [by left|right].
        split; [done|split; [|done]]. intros Ek. by apply Hne, Hinj.
    + rewrite Hd, NoDup_cons. split.
      * intros [HNg Hn]. split.
        -- split; [|done]. intros He. specialize (Hn e He). by apply not_elem_of_cons in Hn as [? _].
        -- intros a [->|Ha]%elem_of_cons; [done|]. specialize (Hn a Ha). by apply not_elem_of_cons in Hn as [_ ?].
      * intros [[Hne HNg] Hn]. split; [done|]. intros a Ha. apply not_elem_of_cons. split; [|apply Hn; by right].
        intros Ek. apply Hne. by rewrite <- (Hinj a Ha Ek).
Qed.

Lemma replay_groups_spec events :
  (∀ g, g ∈ replay_groups events → one_key g ∧ ∀ e, e ∈ g → e ∈ events)
  ∧ (∀ e, e ∈ events → ∃ g, g ∈ replay_groups events ∧ e ∈ g).
Proof.
  unfold replay_groups. split.
  - intros g (k&->&_)%list_elem_of_fmap. split.
    + intros a b [_ Ha]%elem_of_filter_bool [_ Hb]%elem_of_filter_bool.
      apply bool_decide_eq_true in Ha, Hb. congruence.
    + by intros e [? _]%elem_of_filter_bool.
  - intros e He. eexists. split.
    + apply list_elem_of_fmap. exists (session_event_replay_group_key e). split; [done|].
      rewrite sort_by_elem, elem_of_remove_dups. apply list_elem_of_fmap. by exists e.
    + apply elem_of_filter_bool. split; [done|]. by apply bool_decide_eq_true.
Qed.
Definition kept_events (groups : list (list SessionEvent)) : list SessionEvent :=
  concat (map (λ group, (unseen [] group).1) groups).
Definition group_keys_distinct (groups : list (list SessionEvent)) : Prop :=
  StronglySorted (λ g h, ∀ a b, a ∈ g → b ∈ h → session_event_replay_group_key a ≠ session_event_replay_group_key b) groups.
Lemma replay_groups_distinct events : group_keys_distinct (replay_groups events).
Proof.
  unfold replay_groups, group_keys_distinct.
  assert (NoDup (sort_by key_leb (remove_dups (map session_event_replay_group_key events)))) as HN
    by (rewrite (sort_by_perm key_leb _); apply NoDup_remove_dups).
  induction HN as [|k ks Hk _ IH]; cbn [map]; [constructor|]. constructor; [done|].
  apply Forall_forall. intros g (k'&->&Hk')%list_elem_of_fmap a b [_ Ha]%elem_of_filter_bool [_ Hb]%elem_of_filter_bool E.
  apply bool_decide_eq_true in Ha, Hb. apply Hk. congruence.
Qed.
Lemma elem_of_kept groups e : (∀ g, g ∈ groups → one_key g) →
  e ∈ kept_events groups ↔ ∃ g, g ∈ groups ∧ e ∈ g.
Proof.
  intros H. unfold kept_events. rewrite list_elem_of_In, in_concat. setoid_rewrite <- list_elem_of_In. split.
  - intros (l&(g&->&Hg)%list_elem_of_fmap&He). exists g. split; [done|].
    by apply (unseen_spec [] g (H g Hg)) in He as [? _].
  - intros (g&Hg&He). eexists. split; [apply list_elem_of_fmap; by exists g|].
    apply (unseen_spec [] g (H g Hg)). split; [done|apply not_elem_of_nil].
Qed.
Lemma kept_NoDup groups : (∀ g, g ∈ groups → one_key g) → group_keys_distinct groups → NoDup (kept_events groups).
Proof.
  intros H HS. induction HS as [|g groups HS IH Hall]; [constructor|].
  unfold kept_events. cbn [map concat]. apply NoDup_app.
  destruct (unseen_spec [] g (H g ltac:(by left))) as (HN&Hin&_). split_and!; [done| |].
  - intros e He Hk. apply Hin in He as [He _].
    apply (elem_of_kept groups) in Hk as (h&Hh&Heh); [|intros; apply H; by right].
    rewrite Forall_forall in Hall. by apply (Hall h Hh e e).
  - apply IH. intros. apply H. by right.
Qed.
(** Every group is free of repeats exactly when the events are. *)
Lemma NoDup_groups {A K} `{EqDecision K} (key : A → K) (l : list A) :
  (∀ k, NoDup (List.filter (λ a, bool_decide (key a = k)) l)) → NoDup l.
Proof.
  induction l as [|x l IH]; intros H; [constructor|]. constructor.
  - specialize (H (key x)). cbn [List.filter] in H. rewrite bool_decide_eq_true_2 in H by done.
    apply NoDup_cons in H as [Hx _]. intros Hin. apply Hx. apply elem_of_filter_bool.
    split; [done|by apply bool_decide_eq_true].
  - apply IH. intros k. specialize (H k). cbn [List.filter] in H. case_bool_decide; [|done].
    by apply NoDup_cons in H as [_ ?].
Qed.
Lemma dropped_spec events :
  existsb (λ group, (unseen [] group).2) (replay_groups events) = false ↔ NoDup events.
Proof.
  destruct (replay_groups_spec events) as [Hg Hc]. rewrite existsb_false_Forall, Forall_forall. split.
  - intros H. apply (NoDup_groups session_event_replay_group_key). intros k.
    destruct (List.filter _ events) as [|e rest] eqn:E; [constructor|].
    assert (e ∈ List.filter (λ e, bool_decide (session_event_replay_group_key e = k)) events) as He
      by (rewrite E; by left).
    rewrite <- E. apply elem_of_filter_bool in He as [He Hk]. apply bool_decide_eq_true in Hk as <-.
    assert (List.filter (λ a, bool_decide (session_event_replay_group_key a = session_event_replay_group_key e)) events
      ∈ replay_groups events) as Hin.
    { unfold replay_groups. apply list_elem_of_fmap. exists (session_event_replay_group_key e). split; [done|].
      rewrite sort_by_elem, elem_of_remove_dups. apply list_elem_of_fmap. by exists e. }
    pose proof (H _ Hin) as Hd. by apply (unseen_spec [] _ (proj1 (Hg _ Hin))) in Hd as [? _].
  - intros HN g Hin. apply (unseen_spec [] g (proj1 (Hg g Hin))). split; [|intros; apply not_elem_of_nil].
    unfold replay_groups in Hin. apply list_elem_of_fmap in Hin as (k&->&_). rewrite <- (map_id (List.filter _ _)).
    apply filter_NoDup_map. by rewrite map_id.
Qed.
Lemma canonical_events_spec events :
  let out := (canonicalize_session_events events).1 in
  NoDup out ∧ (∀ e, e ∈ out ↔ e ∈ events)
  ∧ StronglySorted (λ a b, se_timestamp a ≤ se_timestamp b) out
  ∧ ((canonicalize_session_events events).2 = true ↔ ¬ NoDup events).
Proof.
  destruct (replay_groups_spec events) as [Hg Hc]. cbn [canonicalize_session_events fst snd].
  fold (kept_events (replay_groups events)). set (leb := λ a b, key_leb (event_order a) (event_order b)).
  split_and!.
  - rewrite (sort_by_perm leb _). apply kept_NoDup; [by intros g Hin; apply Hg|apply replay_groups_distinct].
  - intros e. rewrite sort_by_elem, elem_of_kept by (intros g Hin; by apply Hg). split.
    + intros (g&Hin&He). by apply Hg in Hin as [_ ?]; auto.
    + apply Hc.
  - eapply StronglySorted_weaken; [|apply sort_by_sorted; intros *; [apply key_leb_total|apply key_leb_trans]].
    intros a b. unfold leb, key_leb, event_order. cbn.
    destruct (Z.compare_spec (se_timestamp a) (se_timestamp b)); intros; try done; lia.
  - rewrite <- not_false_iff_true, dropped_spec. done.
Qed.

(** ** Sums *)
Definition event_ok (e : SessionEvent) : Prop := validate_session_event e = Ok ().
Definition event_wf (e : SessionEvent) : Prop := tf_wf (facts (se_tokens e)).
Definition facts_of (events : list SessionEvent) (m : text) : list TokenFacts :=
  map (λ e, facts (se_tokens e)) (List.filter (λ e, text_eqb (se_model e) m) events).
Definition summed (events : list SessionEvent) (m : text) : option TokenFacts :=
  match facts_of events m with [] => None | ds => Some (sum_facts ds) end.
Lemma summed_nonempty events m : facts_of events m ≠ [] → summed events m = Some (sum_facts (facts_of events m)).
Proof. unfold summed. by destruct (facts_of events m). Qed.
(** The canonical vector whose total of a model is the sum of its events. *)
Definition sums_of (events : list SessionEvent) (totals : list SessionModelTotal) : Prop :=
  canonical_form totals ∧ ∀ m, total_tokens_of <$> lookup_total totals m = summed events m.
Definition events_fit (events : list SessionEvent) : Prop :=
  ∀ m, tf_total (sum_facts (facts_of events m)) ≤ u64_max.

Lemma event_ok_facts e : event_ok e → valid_session_model (se_model e) = true ∧ validate_fact (facts (se_tokens e)) = Ok ().
Proof.
  unfold event_ok, validate_session_event. intros H. apply bind_Ok in H as (?&_&H).
  destruct (_ || _) eqn:E in H; [done|]. rewrite !orb_false_iff, !negb_false_iff in E.
  destruct E as [[_ ?] E]. split; [done|]. by destruct (validate_fact _) as [[]|].
Qed.
Lemma facts_of_snoc events e m :
  facts_of (events ++ [e]) m = facts_of events m ++ (if text_eqb (se_model e) m then [facts (se_tokens e)] else []).
Proof. unfold facts_of. rewrite List.filter_app, map_app. cbn. by destruct (text_eqb _ _). Qed.
Lemma facts_of_good events m : Forall event_ok events → Forall event_wf events → Forall good_fact (facts_of events m).
Proof.
  intros Ho Hw. rewrite Forall_forall in Ho, Hw. apply Forall_forall.
  intros d (e&->&[He _]%elem_of_filter_bool)%list_elem_of_fmap. split; [by apply Hw|by apply event_ok_facts, Ho].
Qed.
Lemma facts_of_perm events events' m : events ≡ₚ events' → facts_of events m ≡ₚ facts_of events' m.
Proof. intros Hp. unfold facts_of. by apply Permutation_map, filter_bool_perm. Qed.

Definition total_before (totals : list SessionModelTotal) (m : text) : SessionModelTotal :=
  default (zero_total m) (lookup_total totals m).
Lemma keyed_by_model totals : NoDup (map st_model totals) → keyed (by_model totals).
Proof. intros HN k t [_ ?]%by_model_lookup; done. Qed.
(** Adding one total to a canonical vector. *)
Lemma add_one totals x : canonical_form totals → Forall total_wf totals → total_ok x → total_wf x →
  match checked_add_model_totals totals [x] with
  | Some out => canonical_form out ∧ Forall total_wf out
      ∧ tf_total (total_tokens_of (total_before totals (st_model x))) + tf_total (total_tokens_of x) ≤ u64_max
      ∧ (∀ m, total_tokens_of <$> lookup_total out m =
           if text_eqb (st_model x) m
           then Some (pointwise_sum (total_tokens_of (total_before totals m)) (total_tokens_of x))
           else total_tokens_of <$> lookup_total totals m)
  | None => u64_max < tf_total (total_tokens_of (total_before totals (st_model x))) + tf_total (total_tokens_of x)
  end.
Proof.
  intros (HF&HN&HS) HW [Hvm Hvf] Hw. unfold checked_add_model_totals. cbn [try_fold]. unfold add_step.
  fold (lookup_total totals (st_model x)). fold (total_before totals (st_model x)).
  set (prev := total_before totals (st_model x)).
  assert (st_model prev = st_model x ∧ validate_fact (total_tokens_of prev) = Ok () ∧ total_wf prev) as (Em&Hpf&Hpw).
  { unfold prev, total_before. destruct (lookup_total totals (st_model x)) as [t|] eqn:E; cbn.
    - apply by_model_lookup in E as [Ht Hm]; [|done]. rewrite Forall_forall in HF, HW.
      split_and!; [done|by apply HF|by apply HW].
    - split_and!; [done|by vm_compute|by repeat split]. }
  rewrite (checked_sum_total_decides _ _ Hpw Hw Hpf Hvf).
  destruct (Z.leb_spec (tf_total (total_tokens_of prev) + tf_total (total_tokens_of x)) u64_max) as [Hle|Hgt]; [|done].
  destruct (pointwise_sum_valid _ _ Hpw Hw Hpf Hvf Hle) as (Hsw&Hsv&_).
  cbn [result_ok mbind option_bind]. set (new := replace_tokens prev _).
  assert (total_tokens_of new = pointwise_sum (total_tokens_of prev) (total_tokens_of x)) as En
    by (unfold new, replace_tokens, total_tokens_of; cbn [st_tokens]; apply facts_from).
  assert (st_model new = st_model x) as Enm by done.
  set (m1 := <[st_model x := new]> (by_model totals)).
  assert (keyed m1) as Hk.
  { intros k t [[<- <-]|[_ H]]%lookup_insert_Some; [done|]. by eapply keyed_by_model. }
  assert (∀ t, t ∈ values_of m1 → total_ok t ∧ total_wf t) as Hall.
  { intros t Ht. apply elem_of_values in Ht; [|done].
    apply lookup_insert_Some in Ht as [[_ <-]|[_ Ht]].
    - split; [split; [by rewrite Enm|by rewrite En]|unfold total_wf; by rewrite En].
    - apply by_model_lookup in Ht as [Ht _]; [|done]. rewrite Forall_forall in HF, HW. split; [by apply HF|by apply HW]. }
  destruct (canonicalize_total (values_of m1)) as (out&->&Hform&Hp).
  { apply Forall_forall. intros t Ht. by apply Hall. }
  { by apply values_NoDup. }
  cbn [result_ok]. split; [done|]. split; [|split; [done|]].
  { rewrite Hp. apply Forall_forall. intros t Ht. by apply Hall. }
  assert (∀ m, lookup_total out m = m1 !! m) as Hlook.
  { intros m. apply option_eq. intros t. unfold lookup_total. rewrite by_model_lookup by apply Hform.
    rewrite Hp, elem_of_values by done. split; [by intros [? <-]|]. intros H. by rewrite (Hk m t H). }
  intros m. rewrite Hlook. unfold m1. destruct (text_eqb (st_model x) m) eqn:E.
  - apply text_eqb_true in E as <-. rewrite lookup_insert_eq. cbn. by rewrite En.
  - rewrite lookup_insert_ne; [done|]. intros Em'. by rewrite (proj2 (text_eqb_true _ _) Em') in E.
Qed.
Lemma sum_before events totals m : sums_of events totals →
  total_tokens_of (total_before totals m) = sum_facts (facts_of events m).
Proof.
  intros [_ Hl]. specialize (Hl m). unfold total_before, summed in *.
  destruct (lookup_total totals m) as [t|]; cbn in *.
  - destruct (facts_of events m); [done|]. by injection Hl.
  - by destruct (facts_of events m).
Qed.
Lemma sum_fold events : Forall event_wf events →
  match sum_session_events events with
  | Ok totals => Forall event_ok events ∧ events_fit events ∧ sums_of events totals ∧ Forall total_wf totals
  | Err _ => ¬ (Forall event_ok events ∧ events_fit events)
  end.
Proof.
  unfold sum_session_events. induction events as [|e events IH] using rev_ind; intros Hw.
  { cbn [fold_result]. split_and!; [constructor|by intros m; vm_compute| |constructor].
    split; [|done]. split_and!; constructor. }
  apply Forall_app in Hw as [Hw He]. apply Forall_inv in He. specialize (IH Hw).
  rewrite fold_result_app. destruct (fold_result sum_step [] events) as [totals|err].
  2: { cbn [mbind result_bind]. intros [Ho Hf]. apply IH. apply Forall_app in Ho as [Ho _]. split; [done|].
       intros m. specialize (Hf m). rewrite facts_of_snoc in Hf. destruct (text_eqb _ _); [|by rewrite app_nil_r in Hf].
       rewrite sum_facts_snoc in Hf. cbn [pointwise_sum tf_total] in Hf. pose proof (proj1 (wf_total _ He)) as H0. cbn [facts tf_total] in H0, Hf. lia. }
  destruct IH as (Ho&Hf&Hs&HW). cbn [mbind result_bind fold_result]. unfold sum_step at 1.
  destruct (validate_session_event e) as [[]|err] eqn:Ev; cbn [mbind result_bind].
  2: { intros [Hall _]. apply Forall_app in Hall as [_ Hall]. apply Forall_inv in Hall.
       unfold event_ok in Hall. congruence. }
  destruct (event_ok_facts e Ev) as [Hm Hv].
  pose proof (add_one totals (event_model_total e) (proj1 Hs) HW (conj Hm Hv) He) as Ha.
  rewrite (sum_before events totals _ Hs) in Ha. cbn [event_model_total st_model] in Ha.
  assert (∀ m, facts_of (events ++ [e]) m = if text_eqb (se_model e) m
    then facts_of events m ++ [facts (se_tokens e)] else facts_of events m) as Hsn.
  { intros m. rewrite facts_of_snoc. destruct (text_eqb _ _); [done|apply app_nil_r]. }
  destruct (checked_add_model_totals totals [event_model_total e]) as [out|]; cbn [ok_or mbind result_bind].
  - destruct Ha as (Hform&Hwf&Hle&Hl). split_and!; [by apply Forall_app; split; [|by constructor]| | |done].
    + intros m. rewrite Hsn. destruct (text_eqb (se_model e) m) eqn:E; [|apply Hf].
      apply text_eqb_true in E as <-. by rewrite sum_facts_snoc.
    + split; [done|]. intros m. rewrite Hl. destruct (text_eqb (se_model e) m) eqn:E.
      * rewrite (sum_before events totals _ Hs).
        assert (facts_of (events ++ [e]) m = facts_of events m ++ [facts (se_tokens e)]) as Em by (by rewrite Hsn, E).
        rewrite (summed_nonempty (events ++ [e])), Em by (rewrite Em; by destruct (facts_of events m)).
        by rewrite sum_facts_snoc.
      * unfold summed. rewrite Hsn, E. apply (proj2 Hs).
  - intros [_ Hfit]. specialize (Hfit (se_model e)). rewrite Hsn in Hfit.
    rewrite (proj2 (text_eqb_true _ _) eq_refl), sum_facts_snoc in Hfit.
    cbn [pointwise_sum tf_total] in Hfit. change (total_tokens_of (event_model_total e)) with (facts (se_tokens e)) in Ha. lia.
Qed.

#[export] Instance events_fit_proper : Proper (Permutation ==> iff) events_fit.
Proof.
  intros l l' Hp. unfold events_fit.
  split; intros H m; specialize (H m); by rewrite (sum_facts_perm _ _ (facts_of_perm _ _ m Hp)) in *.
Qed.

(** ** Properties *)

(** The canonical events are the distinct saved events in time order: none is invented,
    lost or repeated, and the flag says exactly whether a byte-for-byte repeat was
    dropped. *)
Theorem canonical_events_exact events :
  let out := (canonicalize_session_events events).1 in
  NoDup out ∧ (∀ e, e ∈ out ↔ e ∈ events)
  ∧ StronglySorted (λ a b, se_timestamp a ≤ se_timestamp b) out
  ∧ ((canonicalize_session_events events).2 = true ↔ ¬ NoDup events).
Proof. apply canonical_events_spec. Qed.

(** Summing saved events succeeds exactly when every event is valid and the total of
    every model fits in 64 bits; the totals are then in canonical form and hold, for each
    model with an event, the component-wise sum of its events. *)
Theorem event_sums_exact events :
  Forall event_wf events →
  match sum_session_events events with
  | Ok totals => Forall event_ok events ∧ events_fit events ∧ sums_of events totals
  | Err _ => ¬ (Forall event_ok events ∧ events_fit events)
  end.
Proof.
  intros Hw. pose proof (sum_fold events Hw) as H. destruct (sum_session_events events); [|done]. tauto.
Qed.

(** Ambiguous lineage relates two events of different generations and never an event to
    its exact replay; it does not depend on which of the two was saved first. *)
Theorem lineage_symmetric e e' :
  session_event_has_ambiguous_lineage e e' = session_event_has_ambiguous_lineage e' e
  ∧ (session_event_has_ambiguous_lineage e e' = true → session_event_is_replay e e' = false).
Proof.
  split.
  - unfold session_event_has_ambiguous_lineage, session_event_models_replay_compatible, text_eqb.
    rewrite (Z.eqb_sym (se_prefix_generation e')), (Z.eqb_sym (se_file_device e')), (Z.eqb_sym (se_file_inode e')),
      (Z.eqb_sym (se_timestamp e')),
      (bool_decide_ext (se_root_identity e' = se_root_identity e) (se_root_identity e = se_root_identity e')),
      (bool_decide_ext (se_relative_path e' = se_relative_path e) (se_relative_path e = se_relative_path e')),
      (bool_decide_ext (se_tokens e' = se_tokens e) (se_tokens e = se_tokens e')),
      (bool_decide_ext (se_model e' = se_model e) (se_model e = se_model e')) by done.
    rewrite <- !andb_assoc, <- !orb_assoc, (orb_comm (is_legacy_family_key (se_model e) && _)),
      (andb_comm (se_range_start e' <? _)). done.
  - unfold session_event_is_replay. intros H. apply bool_decide_eq_false. intros ->.
    unfold session_event_has_ambiguous_lineage in H. by rewrite Z.eqb_refl in H.
Qed.

(** ** Two records of one file *)
Definition example_event (start index : Z) (model : string) (input : Z) : SessionEvent := {|
  se_root_identity := lit "root"; se_relative_path := lit "a.jsonl"; se_file_device := 1; se_file_inode := 2;
  se_prefix_generation := 3; se_range_start := start; se_range_end := start + 10;
  se_record_sha256 := repeat 97 64; se_event_index := index; se_timestamp := 1000 + index;
  se_model := lit model;
  se_tokens := {| ts_total := input + 5; ts_input := Some input; ts_cached_input := None;
                  ts_output := Some 5; ts_cache_write_input := Some 0 |} |}.
Definition example_events := [example_event 20 2 "gpt-a" 7; example_event 0 1 "gpt-a" 3; example_event 40 3 "gpt-b" 1].
Lemma event_sums_exact_witness :
  match sum_session_events example_events with
  | Ok totals => Forall event_ok example_events ∧ events_fit example_events ∧ sums_of example_events totals
  | Err _ => ¬ (Forall event_ok example_events ∧ events_fit example_events)
  end
  ∧ match sum_session_events example_events with
    | Ok totals => map (λ t, (st_model t, ts_total (st_tokens t))) totals = [(lit "gpt-a", 20); (lit "gpt-b", 6)]
    | Err _ => False end.
Proof. split; [apply event_sums_exact; repeat constructor; done|by vm_compute]. Defined.
