(* ===== verification/AnchorRecovery.v ===== *)
(** * Token-anchor recoveries

    Models the recovery of a token anchor in [crates/codex-info-db-writer/src/lib.rs]:
    the identity of the evidence (the bytes hashed by [session_token_anchor_recovery_id]),
    the value checks, and the stored JSON payload ([encode_session_token_anchor_recovery],
    [decode_session_token_anchor_recovery]). The SHA-256 digest and serde_json's text
    form of a value are parameters. *)

From S2P Require Import Prelude Text Json Contract TokenFacts SourceAdmission SessionRecord History GapLedger SessionReplay.

Record SessionPendingRange := {
  spr_root_identity : text;
  spr_relative_path : text;
  spr_file_device : Z;
  spr_file_inode : Z;
  spr_start_offset : Z;
  spr_end_offset : Z;
  spr_collector_epoch : Z;
  spr_cycle_seq : Z;
  spr_prefix_generation : Z;
  spr_record_sha256 : text;
  spr_parser_version : text;
  spr_reason : text;
  spr_complete : bool
}.
Record SessionTokenAnchor := {
  sta_root_identity : text;
  sta_relative_path : text;
  sta_file_device : Z;
  sta_file_inode : Z;
  sta_prefix_generation : Z;
  sta_committed_offset : Z;
  sta_prefix_sha256 : text;
  sta_collector_epoch : Z;
  sta_cycle_seq : Z;
  sta_fully_attributed_from_zero : bool;
  sta_tokens : TokenSnapshot
}.
Record SessionTokenAnchorRecovery := {
  sar_recovery_id : text;
  sar_pending : SessionPendingRange;
  sar_anchor : SessionTokenAnchor;
  sar_current_root_identity : text;
  sar_current_relative_path : text;
  sar_current_file_device : Z;
  sar_current_file_inode : Z;
  sar_cursor_offset : Z;
  sar_cursor_prefix_generation : Z;
  sar_cursor_collector_epoch : Z;
  sar_cursor_cycle_seq : Z
}.

(** ** The hashed bytes *)
(** [to_be_bytes] of an [n]-byte integer *)
Fixpoint be_bytes (n : nat) (value : Z) : list Z :=
  match n with O => [] | S m => (value / 256 ^ Z.of_nat m) mod 256 :: be_bytes m value end.
Definition update_text (value : text) : list Z := be_bytes 8 (str_len value) ++ as_bytes value.
Definition update_optional_u64 (value : option Z) : list Z :=
  match value with Some value => 1 :: be_bytes 8 value | None => [0] end.
Definition bool_byte (b : bool) : list Z := [if b then 1 else 0].
(** A byte string literal with its final [\0]. *)
Definition literal (s : string) : list Z := string_bytes s ++ [0].
Arguments literal s%_string_scope.

Definition partial_anchor (anchor : SessionTokenAnchor) : bool :=
  let t := sta_tokens anchor in
  negb (opt_is_some (ts_input t)) || negb (opt_is_some (ts_cached_input t)) || negb (opt_is_some (ts_output t)).
Definition recovery_preimage (pending : SessionPendingRange) (anchor : SessionTokenAnchor) : list Z :=
  let partial := partial_anchor anchor in
  let t := sta_tokens anchor in
  (if partial then literal "codex-info-session-token-anchor-recovery-v2"
   else literal "codex-info-session-token-anchor-recovery-v1")
  ++ update_text (spr_root_identity pending) ++ update_text (spr_relative_path pending)
  ++ update_text (spr_record_sha256 pending) ++ update_text (spr_parser_version pending)
  ++ update_text (spr_reason pending)
  ++ be_bytes 8 (spr_file_device pending) ++ be_bytes 8 (spr_file_inode pending)
  ++ be_bytes 8 (spr_start_offset pending) ++ be_bytes 8 (spr_end_offset pending)
  ++ be_bytes 8 (spr_cycle_seq pending)
  ++ be_bytes 16 (spr_collector_epoch pending) ++ be_bytes 16 (spr_prefix_generation pending)
  ++ bool_byte (spr_complete pending)
  ++ update_text (sta_root_identity anchor) ++ update_text (sta_relative_path anchor)
  ++ update_text (sta_prefix_sha256 anchor)
  ++ be_bytes 8 (sta_file_device anchor) ++ be_bytes 8 (sta_file_inode anchor)
  ++ be_bytes 8 (sta_committed_offset anchor) ++ be_bytes 8 (sta_cycle_seq anchor)
  ++ be_bytes 8 (ts_total t)
  ++ (if partial
      then update_optional_u64 (ts_input t) ++ update_optional_u64 (ts_cached_input t)
           ++ update_optional_u64 (ts_output t)
      else be_bytes 8 (default 0 (ts_input t)) ++ be_bytes 8 (default 0 (ts_cached_input t))
           ++ be_bytes 8 (default 0 (ts_output t)))
  ++ be_bytes 16 (sta_prefix_generation anchor) ++ be_bytes 16 (sta_collector_epoch anchor)
  ++ bool_byte (sta_fully_attributed_from_zero anchor)
  ++ update_optional_u64 (ts_cache_write_input t).

(** ** Checks *)
Definition check_sha256 (value : text) (field : string) : store_result () :=
  if negb (validate_sha256 value) then Err (InvalidImport (lit field ++ lit " is not a SHA-256 digest")) else Ok ().
Arguments check_sha256 value field%_string_scope.
Definition validate_session_pending_range (range : SessionPendingRange) : store_result () :=
  _ ← check_session_key (spr_root_identity range) (spr_relative_path range);
  if (i64_max <? spr_start_offset range) || (i64_max <? spr_end_offset range)
     || (spr_end_offset range <? spr_start_offset range)
     || (spr_collector_epoch range =? 0) || (spr_cycle_seq range =? 0) || (spr_prefix_generation range =? 0)
     || bool_decide (spr_parser_version range = []) || (128 <? str_len (spr_parser_version range))
     || existsb is_control (spr_parser_version range)
     || bool_decide (spr_reason range = []) || (512 <? str_len (spr_reason range))
     || existsb is_control (spr_reason range)
  then invalid "session pending range is invalid"
  else check_sha256 (spr_record_sha256 range) "session pending range record".
Definition validate_session_token_anchor (anchor : SessionTokenAnchor) : store_result () :=
  _ ← check_session_key (sta_root_identity anchor) (sta_relative_path anchor);
  if (i64_max <? sta_committed_offset anchor) || (sta_collector_epoch anchor =? 0)
     || (sta_cycle_seq anchor =? 0) || (sta_prefix_generation anchor =? 0)
     || negb (is_ok (validate_raw_counter (facts (sta_tokens anchor))))
  then invalid "session token anchor is invalid"
  else check_sha256 (sta_prefix_sha256 anchor) "session token anchor prefix".

Section recovery.
Context (sha256 : list Z → text).
Context {N : Type} `{JsonNumber N}.
(** [serde_json::to_string] and [serde_json::from_str], with the text of their errors. *)
Context (to_string : Value N → result text text) (from_str : text → result text (Value N)).

Definition session_token_anchor_recovery_id (pending : SessionPendingRange) (anchor : SessionTokenAnchor) : text :=
  sha256 (recovery_preimage pending anchor).
Definition validate_session_token_anchor_recovery (recovery : SessionTokenAnchorRecovery) : store_result () :=
  let pending := sar_pending recovery in
  let anchor := sar_anchor recovery in
  _ ← validate_session_pending_range pending;
  _ ← validate_session_token_anchor anchor;
  if negb (text_eqb (spr_reason pending) (lit "checkpoint-token-anchor-missing"))
     || negb (spr_complete pending)
     || negb (text_eqb (sar_current_root_identity recovery) (spr_root_identity pending))
     || negb (text_eqb (sar_current_relative_path recovery) (spr_relative_path pending))
     || negb (sar_current_file_device recovery =? spr_file_device pending)
     || negb (sar_current_file_inode recovery =? spr_file_inode pending)
     || (i64_max <? sar_cursor_offset recovery)
     || (sar_cursor_prefix_generation recovery =? 0)
     || (sar_cursor_collector_epoch recovery =? 0)
     || (sar_cursor_cycle_seq recovery =? 0)
     || negb (sar_cursor_collector_epoch recovery =? sta_collector_epoch anchor)
     || negb (spr_collector_epoch pending =? sta_collector_epoch anchor)
     || negb (text_eqb (sta_root_identity anchor) (sar_current_root_identity recovery))
     || negb (text_eqb (sta_relative_path anchor) (sar_current_relative_path recovery))
     || negb (text_eqb (sar_recovery_id recovery) (session_token_anchor_recovery_id pending anchor))
  then invalid "session token anchor recovery is invalid"
  else check_sha256 (sar_recovery_id recovery) "session token anchor recovery".

(** ** The payload *)
(** [json!({ .. })] *)
Definition json_object (members : list (text * Value N)) : Value N :=
  Object (fold_left (λ m row, map_insert row.1 row.2 m) members []).
Definition dec_value (value : Z) : Value N := VString (to_dec value).
Definition hex_value_of (value : Z) : Value N := VString (hex_nibbles 32 value).
Definition opt_value (value : option Z) : Value N := from_option dec_value Null value.
Definition pending_value (pending : SessionPendingRange) : Value N := json_object
  [(lit "root_identity", VString (spr_root_identity pending));
   (lit "relative_path", VString (spr_relative_path pending));
   (lit "file_device", dec_value (spr_file_device pending));
   (lit "file_inode", dec_value (spr_file_inode pending));
   (lit "start_offset", dec_value (spr_start_offset pending));
   (lit "end_offset", dec_value (spr_end_offset pending));
   (lit "collector_epoch", hex_value_of (spr_collector_epoch pending));
   (lit "cycle_seq", dec_value (spr_cycle_seq pending));
   (lit "prefix_generation", hex_value_of (spr_prefix_generation pending));
   (lit "record_sha256", VString (spr_record_sha256 pending));
   (lit "parser_version", VString (spr_parser_version pending));
   (lit "reason", VString (spr_reason pending));
   (lit "complete", Bool (spr_complete pending))].
Definition anchor_value (anchor : SessionTokenAnchor) : Value N :=
  let t := sta_tokens anchor in json_object
  [(lit "root_identity", VString (sta_root_identity anchor));
   (lit "relative_path", VString (sta_relative_path anchor));
   (lit "file_device", dec_value (sta_file_device anchor));
   (lit "file_inode", dec_value (sta_file_inode anchor));
   (lit "prefix_generation", hex_value_of (sta_prefix_generation anchor));
   (lit "committed_offset", dec_value (sta_committed_offset anchor));
   (lit "prefix_sha256", VString (sta_prefix_sha256 anchor));
   (lit "collector_epoch", hex_value_of (sta_collector_epoch anchor));
   (lit "cycle_seq", dec_value (sta_cycle_seq anchor));
   (lit "fully_attributed_from_zero", Bool (sta_fully_attributed_from_zero anchor));
   (lit "total_tokens", dec_value (ts_total t));
   (lit "input_tokens", opt_value (ts_input t));
   (lit "cached_input_tokens", opt_value (ts_cached_input t));
   (lit "output_tokens", opt_value (ts_output t));
   (lit "cache_write_input_tokens", opt_value (ts_cache_write_input t))].
Definition current_value (recovery : SessionTokenAnchorRecovery) : Value N := json_object
  [(lit "root_identity", VString (sar_current_root_identity recovery));
   (lit "relative_path", VString (sar_current_relative_path recovery));
   (lit "file_device", dec_value (sar_current_file_device recovery));
   (lit "file_inode", dec_value (sar_current_file_inode recovery));
   (lit "cursor_offset", dec_value (sar_cursor_offset recovery));
   (lit "cursor_prefix_generation", hex_value_of (sar_cursor_prefix_generation recovery));
   (lit "cursor_collector_epoch", hex_value_of (sar_cursor_collector_epoch recovery));
   (lit "cursor_cycle_seq", dec_value (sar_cursor_cycle_seq recovery))].
Definition recovery_value (recovery : SessionTokenAnchorRecovery) : Value N := json_object
  [(lit "version", Number (number_of_u64 (if partial_anchor (sar_anchor recovery) then 2 else 1)));
   (lit "recovery_id", VString (sar_recovery_id recovery));
   (lit "pending", pending_value (sar_pending recovery));
   (lit "anchor", anchor_value (sar_anchor recovery));
   (lit "current", current_value recovery)].
Definition encode_session_token_anchor_recovery (recovery : SessionTokenAnchorRecovery) : store_result text :=
  _ ← validate_session_token_anchor_recovery recovery;
  encoded ← map_err (λ error, InvalidImport (lit "session token anchor encoding failed: " ++ error))
              (to_string (recovery_value recovery));
  if 1048576 <? str_len encoded then invalid "session token anchor recovery exceeds the storage limit"
  else Ok encoded.

Definition malformed {A} : store_result A := invalid "session token anchor payload is malformed".
Definition not_canonical {A} : store_result A := invalid "session token anchor payload is not canonical".
Abbreviation members := (list (text * Value N)).
Definition payload_object (value : Value N) (field : text) : store_result members :=
  from_option Ok malformed (value_get field value ≫= as_object).
Definition payload_string (object : members) (field : text) : store_result text :=
  from_option Ok malformed (get field object ≫= as_str).
Definition canonical_decimal (value : text) : store_result Z :=
  parsed ← from_option Ok malformed (parse_unsigned u64_max value);
  if negb (text_eqb (to_dec parsed) value) then not_canonical else Ok parsed.
Definition decimal (object : members) (field : text) : store_result Z :=
  value ← payload_string object field; canonical_decimal value.
Definition hexadecimal (object : members) (field : text) : store_result Z :=
  value ← payload_string object field;
  parsed ← from_option Ok malformed (from_str_radix_16 u128_max value);
  if negb (text_eqb (hex_nibbles 32 parsed) value) then not_canonical
  else from_option Ok malformed (parse_unsigned u128_max (to_dec parsed)).
Definition boolean (object : members) (field : text) : store_result bool :=
  from_option Ok malformed (get field object ≫= as_bool).
Definition optional_decimal (object : members) (field : text) : store_result (option Z) :=
  match get field object with
  | Some Null => Ok None
  | Some (VString value) => parsed ← canonical_decimal value; Ok (Some parsed)
  | _ => malformed
  end.

Definition decode_pending (o : members) : store_result SessionPendingRange :=
  root_identity ← payload_string o (lit "root_identity");
  relative_path ← payload_string o (lit "relative_path");
  file_device ← decimal o (lit "file_device");
  file_inode ← decimal o (lit "file_inode");
  start_offset ← decimal o (lit "start_offset");
  end_offset ← decimal o (lit "end_offset");
  collector_epoch ← hexadecimal o (lit "collector_epoch");
  cycle_seq ← decimal o (lit "cycle_seq");
  prefix_generation ← hexadecimal o (lit "prefix_generation");
  record_sha256 ← payload_string o (lit "record_sha256");
  parser_version ← payload_string o (lit "parser_version");
  reason ← payload_string o (lit "reason");
  complete ← boolean o (lit "complete");
  Ok {| spr_root_identity := root_identity; spr_relative_path := relative_path;
        spr_file_device := file_device; spr_file_inode := file_inode; spr_start_offset := start_offset;
        spr_end_offset := end_offset; spr_collector_epoch := collector_epoch; spr_cycle_seq := cycle_seq;
        spr_prefix_generation := prefix_generation; spr_record_sha256 := record_sha256;
        spr_parser_version := parser_version; spr_reason := reason; spr_complete := complete |}.
Definition decode_anchor (o : members) : store_result SessionTokenAnchor :=
  root_identity ← payload_string o (lit "root_identity");
  relative_path ← payload_string o (lit "relative_path");
  file_device ← decimal o (lit "file_device");
  file_inode ← decimal o (lit "file_inode");
  prefix_generation ← hexadecimal o (lit "prefix_generation");
  committed_offset ← decimal o (lit "committed_offset");
  prefix_sha256 ← payload_string o (lit "prefix_sha256");
  collector_epoch ← hexadecimal o (lit "collector_epoch");
  cycle_seq ← decimal o (lit "cycle_seq");
  fully_attributed_from_zero ← boolean o (lit "fully_attributed_from_zero");
  total_tokens ← decimal o (lit "total_tokens");
  input_tokens ← optional_decimal o (lit "input_tokens");
  cached_input_tokens ← optional_decimal o (lit "cached_input_tokens");
  output_tokens ← optional_decimal o (lit "output_tokens");
  cache_write_input_tokens ← optional_decimal o (lit "cache_write_input_tokens");
  Ok {| sta_root_identity := root_identity; sta_relative_path := relative_path;
        sta_file_device := file_device; sta_file_inode := file_inode;
        sta_prefix_generation := prefix_generation; sta_committed_offset := committed_offset;
        sta_prefix_sha256 := prefix_sha256; sta_collector_epoch := collector_epoch;
        sta_cycle_seq := cycle_seq; sta_fully_attributed_from_zero := fully_attributed_from_zero;
        sta_tokens := {| ts_total := total_tokens; ts_input := input_tokens;
          ts_cached_input := cached_input_tokens; ts_output := output_tokens;
          ts_cache_write_input := cache_write_input_tokens |} |}.
Definition decode_current (recovery_id : text) (pending : SessionPendingRange) (anchor : SessionTokenAnchor)
    (o : members) : store_result SessionTokenAnchorRecovery :=
  root_identity ← payload_string o (lit "root_identity");
  relative_path ← payload_string o (lit "relative_path");
  file_device ← decimal o (lit "file_device");
  file_inode ← decimal o (lit "file_inode");
  cursor_offset ← decimal o (lit "cursor_offset");
  cursor_prefix_generation ← hexadecimal o (lit "cursor_prefix_generation");
  cursor_collector_epoch ← hexadecimal o (lit "cursor_collector_epoch");
  cursor_cycle_seq ← decimal o (lit "cursor_cycle_seq");
  Ok {| sar_recovery_id := recovery_id; sar_pending := pending; sar_anchor := anchor;
        sar_current_root_identity := root_identity; sar_current_relative_path := relative_path;
        sar_current_file_device := file_device; sar_current_file_inode := file_inode;
        sar_cursor_offset := cursor_offset; sar_cursor_prefix_generation := cursor_prefix_generation;
        sar_cursor_collector_epoch := cursor_collector_epoch; sar_cursor_cycle_seq := cursor_cycle_seq |}.
Definition decode_session_token_anchor_recovery (recovery_id payload_json : text) :
    store_result SessionTokenAnchorRecovery :=
  value ← map_err (λ error, InvalidImport (lit "session token anchor payload is malformed: " ++ error))
            (from_str payload_json);
  let version := value_get (lit "version") value ≫= value_as_u64 in
  _ ← (if negb (bool_decide (version = Some 1) || bool_decide (version = Some 2))
       then invalid "session token anchor payload version or identity mismatch"
       else
         object ← from_option Ok malformed (as_object value);
         stored ← payload_string object (lit "recovery_id");
         if negb (text_eqb stored recovery_id)
         then invalid "session token anchor payload version or identity mismatch" else Ok ());
  pending_object ← payload_object value (lit "pending");
  pending ← decode_pending pending_object;
  anchor_object ← payload_object value (lit "anchor");
  anchor ← decode_anchor anchor_object;
  if negb (Bool.eqb (bool_decide (version = Some 1)) (negb (partial_anchor anchor)))
  then invalid "token anchor version and knownness mismatch"
  else
  current_object ← payload_object value (lit "current");
  recovery ← decode_current recovery_id pending anchor current_object;
  _ ← validate_session_token_anchor_recovery recovery;
  Ok recovery.
End recovery.
