(* ===== verification/AnchorFacts.v ===== *)
(** * Anchor recoveries are identified by all their evidence, and read back

    Theorems about [AnchorRecovery]: the hashed bytes determine every field of the
    pending range and the anchor, and a payload that was encoded decodes to the same
    recovery. *)

From S2P Require Import Prelude Text Json Contract TokenFacts SourceAdmission SessionRecord History GapLedger GapFacts SessionReplay AnchorRecovery.

(** ** Self-delimiting encodings *)
Definition self_delimiting {A} (ok : A → Prop) (enc : A → list Z) : Prop :=
  ∀ a b r s, ok a → ok b → enc a ++ r = enc b ++ s → a = b ∧ r = s.

Lemma fixed_width {A} (ok : A → Prop) (enc : A → list Z) n :
  (∀ a, ok a → length (enc a) = n) → (∀ a b, ok a → ok b → enc a = enc b → a = b) → self_delimiting ok enc.
Proof.
  intros Hl Hi a b r s Ha Hb E. apply app_inj_1 in E as [E ->]; [|by rewrite !Hl].
  split; [by apply Hi|done].
Qed.
Lemma length_be_bytes n v : length (be_bytes n v) = n.
Proof. induction n; cbn; congruence. Qed.
Lemma be_bytes_mod n v w : be_bytes n v = be_bytes n w → v mod 256 ^ Z.of_nat n = w mod 256 ^ Z.of_nat n.
Proof.
  induction n as [|n IH]; intros E; [by rewrite !Z.mod_1_r|].
  injection E as E1 E2. specialize (IH E2).
  replace (256 ^ Z.of_nat (S n)) with (256 ^ Z.of_nat n * 256) by (rewrite Nat2Z.inj_succ, Z.pow_succ_r by lia; lia).
  rewrite !Z.rem_mul_r by (try lia; apply Z.pow_nonzero; lia). congruence.
Qed.
Lemma be_bytes_delimit n : self_delimiting (λ v, 0 ≤ v < 256 ^ Z.of_nat n) (be_bytes n).
Proof.
  apply (fixed_width _ _ n); [intros; apply length_be_bytes|].
  intros v w Hv Hw E%be_bytes_mod. by rewrite !Z.mod_small in E.
Qed.
Lemma u64_delimit : self_delimiting is_u64 (be_bytes 8).
Proof.
  intros a b r s [? Ha] [? Hb]. unfold u64_max in *.
  apply be_bytes_delimit; change (256 ^ Z.of_nat 8) with (2 ^ 64); lia.
Qed.
Lemma u128_delimit : self_delimiting is_u128 (be_bytes 16).
Proof.
  intros a b r s [? Ha] [? Hb]. unfold u128_max in *.
  apply be_bytes_delimit; change (256 ^ Z.of_nat 16) with (2 ^ 128); lia.
Qed.
Lemma bool_delimit : self_delimiting (λ _, True) bool_byte.
Proof. intros [] [] r s _ _ E; injection E; done. Qed.
Lemma optional_delimit : self_delimiting (from_option is_u64 True) update_optional_u64.
Proof.
  intros [a|] [b|] r s Ha Hb E; cbn [update_optional_u64 app] in E; try done.
  - apply (f_equal tail) in E. cbn [tail] in E. by apply u64_delimit in E as [-> ->].
  - by injection E as ->.
Qed.

(** ** Text *)
Definition is_scalar (c : Z) : Prop := 0 ≤ c ≤ 1114111 ∧ ¬ 55296 ≤ c ≤ 57343.
Lemma from_utf8_char c r : is_scalar c → from_utf8 (utf8_char c ++ r) = cons c <$> from_utf8 r.
Proof.
  intros [Hc Hs]. unfold utf8_char.
  destruct (Z.ltb_spec c 128) as [H1|H1].
  { cbn [app from_utf8]. by rewrite (proj2 (in_range_true 0 127 c)) by lia. }
  destruct (Z.ltb_spec c 2048) as [H2|H2].
  { cbn [app from_utf8]. set (a := 192 + c / 64). set (b := 128 + c mod 64).
    assert (194 ≤ a ≤ 223 ∧ 128 ≤ b ≤ 191 ∧ (a - 192) * 64 + (b - 128) = c) as (Ha&Hb&E) by (unfold a, b; div_lia).
    clearbody a b. rewrite (proj2 (in_range_false 0 127 a)), (proj2 (in_range_true 194 223 a)) by lia.
    unfold is_cont. rewrite (proj2 (in_range_true 128 191 b)) by lia. by rewrite E. }
  destruct (Z.ltb_spec c 65536) as [H3|H3].
  { cbn [app from_utf8]. set (a := 224 + c / 4096). set (b := 128 + (c / 64) mod 64). set (d := 128 + c mod 64).
    assert (224 ≤ a ≤ 239 ∧ 128 ≤ b ≤ 191 ∧ 128 ≤ d ≤ 191 ∧ (a - 224) * 4096 + (b - 128) * 64 + (d - 128) = c)
      as (Ha&Hb&Hd&E) by (unfold a, b, d; div_lia).
    clearbody a b d. rewrite (proj2 (in_range_false 0 127 a)), (proj2 (in_range_false 194 223 a)),
      (proj2 (in_range_true 224 239 a)) by lia.
    cbv zeta. rewrite E. unfold is_cont.
    rewrite (proj2 (in_range_true 128 191 b)), (proj2 (in_range_true 128 191 d)), (proj2 (Z.leb_le 2048 c)),
      (proj2 (in_range_false 55296 57343 c)) by lia. done. }
  cbn [app from_utf8]. set (a := 240 + c / 262144). set (b := 128 + (c / 4096) mod 64).
  set (d := 128 + (c / 64) mod 64). set (e := 128 + c mod 64).
  assert (240 ≤ a ≤ 244 ∧ 128 ≤ b ≤ 191 ∧ 128 ≤ d ≤ 191 ∧ 128 ≤ e ≤ 191
    ∧ (a - 240) * 262144 + (b - 128) * 4096 + (d - 128) * 64 + (e - 128) = c) as (Ha&Hb&Hd&He&E)
    by (unfold a, b, d, e; div_lia).
  clearbody a b d e. rewrite (proj2 (in_range_false 0 127 a)), (proj2 (in_range_false 194 223 a)),
    (proj2 (in_range_false 224 239 a)), (proj2 (in_range_true 240 244 a)) by lia.
  cbv zeta. rewrite E. unfold is_cont.
  rewrite (proj2 (in_range_true 128 191 b)), (proj2 (in_range_true 128 191 d)), (proj2 (in_range_true 128 191 e)),
    (proj2 (in_range_true 65536 1114111 c)) by lia. done.
Qed.
Lemma from_as_bytes s : Forall is_scalar s → from_utf8 (as_bytes s) = Some s.
Proof.
  induction 1 as [|c s Hc _ IH]; [done|]. unfold as_bytes in *. cbn [flat_map].
  rewrite from_utf8_char by done. by rewrite IH.
Qed.
Lemma length_as_bytes s : Z.of_nat (length (as_bytes s)) = str_len s.
Proof.
  induction s as [|c s IH]; [done|]. unfold as_bytes, str_len in *. cbn [flat_map foldr].
  rewrite length_app, Nat2Z.inj_add, IH. f_equal. unfold utf8_char, utf8_width. by repeat case_match.
Qed.
Definition text_wf (s : text) : Prop := Forall is_scalar s ∧ str_len s ≤ u64_max.
Lemma text_delimit : self_delimiting text_wf update_text.
Proof.
  intros a b r s [Ha La] [Hb Lb] E. unfold update_text in E. rewrite <- !app_assoc in E.
  apply u64_delimit in E as [El E]; [|split; [rewrite <- length_as_bytes; lia|done]..].
  apply app_inj_1 in E as [E ->].
  2: { rewrite <- !length_as_bytes in El. by apply Nat2Z.inj. }
  split; [|done]. apply (f_equal from_utf8) in E. rewrite !from_as_bytes in E by done. by injection E.
Qed.

(** ** The identity of the evidence *)
Record pending_wf (p : SessionPendingRange) : Prop := {
  pw_texts : text_wf (spr_root_identity p) ∧ text_wf (spr_relative_path p) ∧ text_wf (spr_record_sha256 p)
    ∧ text_wf (spr_parser_version p) ∧ text_wf (spr_reason p);
  pw_u64 : is_u64 (spr_file_device p) ∧ is_u64 (spr_file_inode p) ∧ is_u64 (spr_start_offset p)
    ∧ is_u64 (spr_end_offset p) ∧ is_u64 (spr_cycle_seq p);
  pw_u128 : is_u128 (spr_collector_epoch p) ∧ is_u128 (spr_prefix_generation p)
}.
Record anchor_wf (a : SessionTokenAnchor) : Prop := {
  aw_texts : text_wf (sta_root_identity a) ∧ text_wf (sta_relative_path a) ∧ text_wf (sta_prefix_sha256 a);
  aw_u64 : is_u64 (sta_file_device a) ∧ is_u64 (sta_file_inode a) ∧ is_u64 (sta_committed_offset a)
    ∧ is_u64 (sta_cycle_seq a);
  aw_u128 : is_u128 (sta_prefix_generation a) ∧ is_u128 (sta_collector_epoch a);
  aw_tokens : tf_wf (facts (sta_tokens a))
}.
(** Take the next field of both sides. *)
Ltac next lem := match goal with H : _ ++ _ = _ ++ _ |- _ =>
  apply lem in H as [? H]; [|assumption..] end.

Lemma counters_delimit t t' r s :
  opt_u64 (ts_input t) → opt_u64 (ts_cached_input t) → opt_u64 (ts_output t) →
  opt_u64 (ts_input t') → opt_u64 (ts_cached_input t') → opt_u64 (ts_output t') →
  update_optional_u64 (ts_input t) ++ update_optional_u64 (ts_cached_input t) ++ update_optional_u64 (ts_output t) ++ r
  = update_optional_u64 (ts_input t') ++ update_optional_u64 (ts_cached_input t') ++ update_optional_u64 (ts_output t') ++ s →
  ts_input t = ts_input t' ∧ ts_cached_input t = ts_cached_input t' ∧ ts_output t = ts_output t' ∧ r = s.
Proof. intros ? ? ? ? ? ? E. do 3 next optional_delimit. done. Qed.
Lemma known_delimit t t' r s :
  opt_u64 (ts_input t) → opt_u64 (ts_cached_input t) → opt_u64 (ts_output t) →
  opt_u64 (ts_input t') → opt_u64 (ts_cached_input t') → opt_u64 (ts_output t') →
  is_Some (ts_input t) ∧ is_Some (ts_cached_input t) ∧ is_Some (ts_output t) →
  is_Some (ts_input t') ∧ is_Some (ts_cached_input t') ∧ is_Some (ts_output t') →
  be_bytes 8 (default 0 (ts_input t)) ++ be_bytes 8 (default 0 (ts_cached_input t))
    ++ be_bytes 8 (default 0 (ts_output t)) ++ r
  = be_bytes 8 (default 0 (ts_input t')) ++ be_bytes 8 (default 0 (ts_cached_input t'))
    ++ be_bytes 8 (default 0 (ts_output t')) ++ s →
  ts_input t = ts_input t' ∧ ts_cached_input t = ts_cached_input t' ∧ ts_output t = ts_output t' ∧ r = s.
Proof.
  intros H1 H2 H3 H4 H5 H6 ([a Ea]&[b Eb]&[c Ec]) ([a' Ea']&[b' Eb']&[c' Ec']).
  rewrite Ea, Eb, Ec, Ea', Eb', Ec' in *. unfold opt_u64 in *. cbn [from_option] in *. unfold id. intros E.
  do 3 next u64_delimit. by subst.
Qed.
Lemma partial_known a : partial_anchor a = false →
  is_Some (ts_input (sta_tokens a)) ∧ is_Some (ts_cached_input (sta_tokens a)) ∧ is_Some (ts_output (sta_tokens a)).
Proof. unfold partial_anchor. destruct (sta_tokens a) as [? [?|] [?|] [?|] ?]; cbn; try done. Qed.

Lemma preimage_injective p p' a a' :
  pending_wf p → pending_wf p' → anchor_wf a → anchor_wf a' →
  recovery_preimage p a = recovery_preimage p' a' → p = p' ∧ a = a'.
Proof.
  intros [] [] [? ? ? [Ht Hi Hc Hw Ho]] [? ? ? [Ht' Hi' Hc' Hw' Ho']] E. destruct_and!.
  cbn [facts tf_total tf_input tf_cached_input tf_output tf_cache_write_input] in *.
  unfold recovery_preimage in E.
  assert (partial_anchor a = partial_anchor a') as Ep.
  { destruct (partial_anchor a), (partial_anchor a'); try done; exfalso; revert E; unfold literal; cbn; done. }
  rewrite Ep in E.
  assert (∀ x : list Z, self_delimiting (λ _ : (), True) (λ _, x)) as Hconst
    by (intros x [] [] r s _ _ ?%app_inv_head; done).
  apply (Hconst _ () ()) in E as [_ E]; [|done..].
  do 5 next text_delimit. do 5 next u64_delimit. do 2 next u128_delimit.
  apply bool_delimit in E as [? E]; [|done..].
  do 3 next text_delimit. do 5 next u64_delimit.
  assert (ts_input (sta_tokens a) = ts_input (sta_tokens a') ∧ ts_cached_input (sta_tokens a) = ts_cached_input (sta_tokens a')
    ∧ ts_output (sta_tokens a) = ts_output (sta_tokens a')
    ∧ be_bytes 16 (sta_prefix_generation a) ++ be_bytes 16 (sta_collector_epoch a)
      ++ bool_byte (sta_fully_attributed_from_zero a) ++ update_optional_u64 (ts_cache_write_input (sta_tokens a))
      = be_bytes 16 (sta_prefix_generation a') ++ be_bytes 16 (sta_collector_epoch a')
      ++ bool_byte (sta_fully_attributed_from_zero a') ++ update_optional_u64 (ts_cache_write_input (sta_tokens a')))
    as (?&?&?&E2).
  { destruct (partial_anchor a') eqn:Ep'; rewrite <- !app_assoc in E.
    - by apply counters_delimit.
    - apply known_delimit; try done; by apply partial_known. }
  clear E. rename E2 into E. do 2 next u128_delimit. apply bool_delimit in E as [? E]; [|done..].
  rewrite <- (app_nil_r (update_optional_u64 _)) in E. rewrite <- (app_nil_r (update_optional_u64 (ts_cache_write_input (sta_tokens a')))) in E.
  next optional_delimit.
  destruct p, p'; cbn in *. destruct a as [? ? ? ? ? ? ? ? ? ? []], a' as [? ? ? ? ? ? ? ? ? ? []]; cbn in *.
  subst. done.
Qed.

(** ** The payload reads back *)
Lemma get_map_insert {A} k k' (v : A) m : get k (map_insert k' v m) = if text_eqb k k' then Some v else get k m.
Proof.
  induction m as [|[k0 v0] m IH]; cbn [map_insert get]; [done|].
  destruct (text_compare k' k0) eqn:E; cbn [get]; [|done|].
  - apply text_compare_Eq in E as ->. by destruct (text_eqb k k0).
  - rewrite IH. destruct (text_eqb k k0) eqn:E0, (text_eqb k k') eqn:E1; try done.
    apply text_eqb_true in E0, E1. subst. by rewrite (proj2 (text_compare_Eq _ _)) in E.
Qed.
Lemma get_app {A} k (l l' : list (text * A)) : get k (l ++ l') = match get k l with Some v => Some v | None => get k l' end.
Proof. induction l as [|[k0 v0] l IH]; cbn [get app]; [done|]. destruct (text_eqb k k0); [done|apply IH]. Qed.
Lemma get_fold {A} k (l m : list (text * A)) :
  get k (fold_left (λ m row, map_insert row.1 row.2 m) l m) = get k (rev l ++ m).
Proof.
  revert m. induction l as [|[k0 v0] l IH]; intros m; [done|]. cbn [fold_left rev fst snd].
  rewrite IH, <- app_assoc, !get_app, get_map_insert. destruct (get k (rev l)); [done|]. cbn [app get].
  by destruct (text_eqb k k0).
Qed.
Lemma get_here {A} k (v : A) l : get k ((k, v) :: l) = Some v.
Proof. cbn [get]. by rewrite (proj2 (text_eqb_true k k)). Qed.
Lemma get_skip {A} k k' (v : A) l : text_eqb k k' = false → get k ((k', v) :: l) = get k l.
Proof. intros E. cbn [get]. by rewrite E. Qed.
(** The value of a literal key of an object literal. *)
Ltac find_field :=
  rewrite get_fold; cbn [rev app];
  repeat match goal with
  | |- get ?k ((?k', _) :: _) = _ =>
      tryif constr_eq k k' then apply get_here
      else (etransitivity; [apply get_skip; vm_compute; reflexivity|])
  end.

Section payload.
Context {N : Type} `{JsonNumber N}.
Implicit Types o : list (text * Value N).

Lemma payload_string_get o f s : get f o = Some (VString s) → payload_string o f = Ok s.
Proof. intros E. unfold payload_string. by rewrite E. Qed.
Lemma canonical_decimal_to_dec z : is_u64 z → canonical_decimal (to_dec z) = Ok z.
Proof.
  intros Hz. unfold canonical_decimal. rewrite parse_to_dec by done. cbn [from_option mbind result_bind].
  by rewrite (proj2 (text_eqb_true _ _) eq_refl).
Qed.
Lemma decimal_get o f z : is_u64 z → get f o = Some (dec_value z) → decimal o f = Ok z.
Proof.
  intros Hz E. unfold decimal. rewrite (payload_string_get o f (to_dec z) E). by apply canonical_decimal_to_dec.
Qed.
Lemma hexadecimal_get o f z : is_u128 z → get f o = Some (hex_value_of z) → hexadecimal o f = Ok z.
Proof.
  intros Hz E. unfold hexadecimal. rewrite (payload_string_get o f _ E). cbn [mbind result_bind].
  rewrite from_str_radix_hex by done. cbn [from_option mbind result_bind].
  rewrite (proj2 (text_eqb_true _ _) eq_refl), parse_to_dec by done. done.
Qed.
Lemma boolean_get o f b : get f o = Some (Bool b) → boolean o f = Ok b.
Proof. intros E. unfold boolean. by rewrite E. Qed.
Lemma optional_get o f z : opt_u64 z → get f o = Some (opt_value z) → optional_decimal o f = Ok z.
Proof.
  intros Hz E. unfold optional_decimal. rewrite E. destruct z as [z|]; [|done]. cbn [opt_value from_option dec_value].
  by rewrite canonical_decimal_to_dec.
Qed.
Section binds.
Context {A : Type} (o : list (text * Value N)) (f : text) (r : store_result A).
Lemma bind_string s k : get f o = Some (VString s) → k s = r → (payload_string o f ≫= k) = r.
Proof. intros E <-. by rewrite (payload_string_get o f s E). Qed.
Lemma bind_decimal z k : get f o = Some (dec_value z) → is_u64 z → k z = r → (decimal o f ≫= k) = r.
Proof. intros E Hz <-. by rewrite (decimal_get o f z Hz E). Qed.
Lemma bind_hexadecimal z k : get f o = Some (hex_value_of z) → is_u128 z → k z = r → (hexadecimal o f ≫= k) = r.
Proof. intros E Hz <-. by rewrite (hexadecimal_get o f z Hz E). Qed.
Lemma bind_boolean b k : get f o = Some (Bool b) → k b = r → (boolean o f ≫= k) = r.
Proof. intros E <-. by rewrite (boolean_get o f b E). Qed.
Lemma bind_optional z k : get f o = Some (opt_value z) → opt_u64 z → k z = r → (optional_decimal o f ≫= k) = r.
Proof. intros E Hz <-. by rewrite (optional_get o f z Hz E). Qed.
End binds.
Ltac read_field := first
  [ eapply bind_string; [find_field|] | eapply bind_decimal; [find_field|assumption|]
  | eapply bind_hexadecimal; [find_field|assumption|] | eapply bind_boolean; [find_field|]
  | eapply bind_optional; [find_field|assumption|] ]; cbv beta.

Definition members_of (v : Value N) : list (text * Value N) := from_option (λ m, m) [] (as_object v).
Lemma payload_object_get o f v l : get f o = Some v → v = json_object l →
  payload_object (Object o) f = Ok (members_of v).
Proof. intros E ->. unfold payload_object, value_get. cbn [as_object mbind option_bind]. by rewrite E. Qed.
Lemma decode_pending_value p : pending_wf p → decode_pending (members_of (pending_value p)) = Ok p.
Proof.
  intros [_ ? ?]. destruct_and!. unfold decode_pending, pending_value, members_of, json_object.
  cbn [as_object from_option]. repeat read_field. by destruct p.
Qed.
Lemma decode_anchor_value a : anchor_wf a → decode_anchor (members_of (anchor_value a)) = Ok a.
Proof.
  intros [_ ? ? [? ? ? ? ?]]. destruct_and!. unfold decode_anchor, anchor_value, members_of, json_object.
  cbn [as_object from_option]. repeat read_field. by destruct a as [? ? ? ? ? ? ? ? ? ? []].
Qed.
Record recovery_wf (r : SessionTokenAnchorRecovery) : Prop := {
  rw_pending : pending_wf (sar_pending r);
  rw_anchor : anchor_wf (sar_anchor r);
  rw_u64 : is_u64 (sar_current_file_device r) ∧ is_u64 (sar_current_file_inode r)
    ∧ is_u64 (sar_cursor_offset r) ∧ is_u64 (sar_cursor_cycle_seq r);
  rw_u128 : is_u128 (sar_cursor_prefix_generation r) ∧ is_u128 (sar_cursor_collector_epoch r)
}.
Lemma decode_current_value r : recovery_wf r →
  decode_current (sar_recovery_id r) (sar_pending r) (sar_anchor r) (members_of (current_value r)) = Ok r.
Proof.
  intros [_ _ ? ?]. destruct_and!. unfold decode_current, current_value, members_of, json_object.
  cbn [as_object from_option]. repeat read_field. by destruct r.
Qed.
End payload.

Lemma bind_step {E A B} (m : result E A) a (k : A → result E B) r : m = Ok a → k a = r → (m ≫= k) = r.
Proof. by intros -> <-. Qed.
Section roundtrip.
Context {N : Type} `{JsonNumber N} (sha256 : list Z → text).
Context (to_string : Value N → result text text) (from_str : text → result text (Value N)).
(** A number made from 1 or 2 reads back. *)
Context (Hnumber : ∀ n, n = 1 ∨ n = 2 → as_u64 (number_of_u64 n) = Some n).

Lemma decode_encode r payload : recovery_wf r →
  (∀ t, to_string (recovery_value r) = Ok t → from_str t = Ok (recovery_value r)) →
  encode_session_token_anchor_recovery sha256 to_string r = Ok payload →
  decode_session_token_anchor_recovery sha256 from_str (sar_recovery_id r) payload = Ok r.
Proof.
  intros Hwf Hjson He. unfold encode_session_token_anchor_recovery in He.
  apply bind_Ok in He as ([]&Hv&He). apply bind_Ok in He as (t&Ht&He).
  destruct (1048576 <? str_len t); [done|]. injection He as <-. apply map_err_Ok in Ht.
  unfold decode_session_token_anchor_recovery. eapply bind_step; [by rewrite (Hjson t Ht)|].
  set (n := if partial_anchor (sar_anchor r) then 2 else 1).
  set (o := members_of (recovery_value r)).
  assert (recovery_value r = Object o) as Eo by done.
  assert (get (lit "version") o = Some (Number (number_of_u64 n))) as G1 by
    (unfold o, recovery_value, members_of, json_object; cbn [as_object from_option]; find_field).
  assert (get (lit "recovery_id") o = Some (VString (sar_recovery_id r))) as G2 by
    (unfold o, recovery_value, members_of, json_object; cbn [as_object from_option]; find_field).
  assert (get (lit "pending") o = Some (pending_value (sar_pending r))) as G3 by
    (unfold o, recovery_value, members_of, json_object; cbn [as_object from_option]; find_field).
  assert (get (lit "anchor") o = Some (anchor_value (sar_anchor r))) as G4 by
    (unfold o, recovery_value, members_of, json_object; cbn [as_object from_option]; find_field).
  assert (get (lit "current") o = Some (current_value r)) as G5 by
    (unfold o, recovery_value, members_of, json_object; cbn [as_object from_option]; find_field).
  rewrite Eo. clearbody o.
  assert (∀ f, value_get f (Object o) = get f o) as Eget by done.
  assert (value_get (lit "version") (Object o) ≫= value_as_u64 = Some n) as ->.
  { rewrite Eget, G1. apply Hnumber. unfold n. destruct (partial_anchor _); tauto. }
  assert (negb (bool_decide (Some n = Some 1) || bool_decide (Some n = Some 2)) = false) as ->
    by (unfold n; by destruct (partial_anchor _)).
  eapply bind_step.
  { cbn [as_object from_option]. eapply bind_step; [done|]. eapply bind_step; [by apply payload_string_get|].
    by rewrite (proj2 (text_eqb_true _ _) eq_refl). }
  eapply bind_step; [by eapply payload_object_get|]. eapply bind_step; [apply decode_pending_value, Hwf|].
  eapply bind_step; [by eapply payload_object_get|]. eapply bind_step; [apply decode_anchor_value, Hwf|].
  assert (negb (Bool.eqb (bool_decide (Some n = Some 1)) (negb (partial_anchor (sar_anchor r)))) = false) as ->
    by (unfold n; by destruct (partial_anchor _)).
  eapply bind_step; [by eapply payload_object_get|]. eapply bind_step; [by apply decode_current_value|].
  eapply bind_step; [exact Hv|done].
Qed.
End roundtrip.

(** ** Properties *)

(** The bytes hashed for a recovery determine its evidence: two recoveries with the same
    hash input have the same pending range and the same anchor, in every field. *)
Theorem recovery_evidence_identified p p' a a' :
  pending_wf p → pending_wf p' → anchor_wf a → anchor_wf a' →
  recovery_preimage p a = recovery_preimage p' a' → p = p' ∧ a = a'.
Proof. apply preimage_injective. Qed.

(** C13. A stored recovery reads back: when the JSON text of its payload parses to the same
    value, decoding an encoded recovery under its identity returns the recovery. *)
Theorem anchor_recovery_roundtrip {N} `{JsonNumber N} sha256 to_string from_str r payload :
  (∀ n, n = 1 ∨ n = 2 → as_u64 (number_of_u64 (N:=N) n) = Some n) →
  recovery_wf r →
  (∀ t, to_string (recovery_value r) = Ok t → from_str t = Ok (recovery_value r)) →
  encode_session_token_anchor_recovery sha256 to_string r = Ok payload →
  decode_session_token_anchor_recovery sha256 from_str (sar_recovery_id r) payload = Ok r.
Proof. intros Hn. by apply decode_encode. Qed.

(** ** A recovery after a lost anchor *)
Definition example_pending : SessionPendingRange := {|
  spr_root_identity := lit "root"; spr_relative_path := lit "a.jsonl"; spr_file_device := 1; spr_file_inode := 2;
  spr_start_offset := 100; spr_end_offset := 250; spr_collector_epoch := 7; spr_cycle_seq := 3;
  spr_prefix_generation := 5; spr_record_sha256 := repeat 97 64; spr_parser_version := lit "1";
  spr_reason := lit "checkpoint-token-anchor-missing"; spr_complete := true |}.
Definition example_anchor (input : option Z) : SessionTokenAnchor := {|
  sta_root_identity := lit "root"; sta_relative_path := lit "a.jsonl"; sta_file_device := 1; sta_file_inode := 2;
  sta_prefix_generation := 5; sta_committed_offset := 90; sta_prefix_sha256 := repeat 98 64;
  sta_collector_epoch := 7; sta_cycle_seq := 2; sta_fully_attributed_from_zero := true;
  sta_tokens := {| ts_total := 12; ts_input := input; ts_cached_input := Some 0; ts_output := Some 2;
                   ts_cache_write_input := None |} |}.
Definition example_sha256 (bytes : list Z) : text := repeat 99 64.
Definition example_recovery : SessionTokenAnchorRecovery := {|
  sar_recovery_id := repeat 99 64; sar_pending := example_pending; sar_anchor := example_anchor (Some 10);
  sar_current_root_identity := lit "root"; sar_current_relative_path := lit "a.jsonl";
  sar_current_file_device := 1; sar_current_file_inode := 2; sar_cursor_offset := 260;
  sar_cursor_prefix_generation := 6; sar_cursor_collector_epoch := 7; sar_cursor_cycle_seq := 4 |}.
Definition example_to_string (v : Value Z) : result text text := Ok (lit "payload").
Definition example_from_str (t : text) : result text (Value Z) := Ok (recovery_value (H := integer_numbers) example_recovery).

Lemma ascii_wf s : forallb (in_range 0 127) s = true → (length s ≤ 1000)%nat → text_wf s.
Proof.
  intros HF Hl. split.
  - apply forallb_Forall in HF. eapply Forall_impl; [exact HF|].
    intros c Hc%in_range_true. unfold is_scalar. lia.
  - rewrite str_len_ascii; [unfold chars_count, u64_max; lia|]. apply forallb_Forall.
    apply forallb_Forall in HF. eapply Forall_impl; [exact HF|]. intros c Hc%in_range_true. cbn. lia.
Qed.
Lemma example_pending_wf : pending_wf example_pending.
Proof. split; [split_and!; apply ascii_wf; vm_compute; (done || lia)|by repeat split|by repeat split]. Qed.
Lemma example_anchor_wf input : opt_u64 input → anchor_wf (example_anchor input).
Proof.
  intros Hi. split; [split_and!; apply ascii_wf; vm_compute; (done || lia)|by repeat split|by repeat split|].
  split; try done; by repeat split.
Qed.
Lemma example_recovery_wf : recovery_wf example_recovery.
Proof. split; [apply example_pending_wf|by apply example_anchor_wf|by repeat split|by repeat split]. Qed.
Lemma recovery_evidence_identified_witness :
  example_pending = example_pending ∧ example_anchor None = example_anchor None.
Proof.
  apply recovery_evidence_identified; [apply example_pending_wf..|by apply example_anchor_wf|by apply example_anchor_wf|done].
Defined.
Lemma anchor_recovery_roundtrip_witness :
  decode_session_token_anchor_recovery (H := integer_numbers) example_sha256 example_from_str
    (sar_recovery_id example_recovery) (lit "payload") = Ok example_recovery.
Proof.
  apply (anchor_recovery_roundtrip (H := integer_numbers) example_sha256 example_to_string example_from_str).
  - intros n [-> | ->]; by vm_compute.
  - apply example_recovery_wf.
  - done.
  - by vm_compute.
Defined.
