(* ===== verification/HistoryIndex.v ===== *)
(** * The history index of the REST server

    Models [crates/codex-info-rest/src/history.rs] and the history pages of
    [crates/codex-info-rest/src/lib.rs]: the index of an archive built once per
    publication, the cursor of a page with the fingerprint of everything before it,
    the resumption after a cursor by binary search, and the page documents. SHA-256
    and the JSON text of a value are parameters; a [json!] document is the record of
    its members. *)

From S2P Require Import Prelude Text Contract Details RecordedUsage Recordings SqlRow.

Inductive HistorySource := Canonical | Raw.
Definition source_tag (self : HistorySource) : text :=
  match self with Canonical => lit "c" | Raw => lit "r" end.

(** The archive of [codex-info-db-reader], with the immutable source archive in [raw]. *)
Inductive HistoryArchive := {
  ha_aliases : gmap Z Z;
  ha_raw : option HistoryArchive;
  ha_periods : list PublicHistoryPeriod;
  ha_samples : list PublicHistoryObservationV3;
  ha_gaps : list PublicHistoryGap;
  ha_origins : gmap Z Z
}.
Record PeriodIndex := {
  pi_samples : list nat;
  pi_gaps : list nat;
  pi_has_token_usage : bool;
  pi_fingerprints : list (list Z);
  pi_source : HistorySource;
  pi_storage_epoch : Z
}.
Record HistoryIndex := {
  hi_periods : gmap text PeriodIndex;
  hi_raw_periods : gmap text PeriodIndex
}.
#[export] Instance PublicHistoryObservationV3_inhabited : Inhabited PublicHistoryObservationV3 :=
  populate {| o3_timestamp := 0; o3_reset_at := 0; o3_remaining_percent := None;
              o3_task_active_since_previous := None; o3_models := None; o3_models_complete := false;
              o3_model_source := [] |}.
#[export] Instance PublicHistoryGap_inhabited : Inhabited PublicHistoryGap :=
  populate {| hg_gap_id := []; hg_reset_at := 0; hg_start_at := 0; hg_end_at := 0; hg_reason := [] |}.

(** ** The rows of each period *)
Definition by_reset (periods : list PublicHistoryPeriod) : gmap Z (list PublicHistoryPeriod) :=
  fold_left (λ m p, <[hp_reset_at p := default [] (m !! hp_reset_at p) ++ [p]]> m) periods ∅.
(** [range(reset..=reset + 60)] *)
Definition periods_near (resets : gmap Z (list PublicHistoryPeriod)) (reset : Z) : list PublicHistoryPeriod :=
  concat (map snd (List.filter (λ row, in_range reset (i64_saturating_add reset 60) row.1)
    (sort_by (λ a b, a.1 <=? b.1) (map_to_list resets)))).
Definition uses_tokens (sample : PublicHistoryObservationV3) : bool :=
  is_some_and (existsb (λ model, 0 <? h3_total_tokens model)) (o3_models sample).
Definition holds_sample (resets : gmap Z (list PublicHistoryPeriod)) (sample : PublicHistoryObservationV3)
    (period : PublicHistoryPeriod) : bool :=
  ((o3_reset_at sample =? hp_reset_at period) || negb (opt_is_some (resets !! o3_reset_at sample)))
  && history_minute_in_period (o3_timestamp sample) (hp_start_at period) (hp_end_at period).
Definition push_sample (row : nat) (sample : PublicHistoryObservationV3) (indexed : PeriodIndex) : PeriodIndex := {|
  pi_samples := pi_samples indexed ++ [row]; pi_gaps := pi_gaps indexed;
  pi_has_token_usage := pi_has_token_usage indexed || uses_tokens sample;
  pi_fingerprints := pi_fingerprints indexed; pi_source := pi_source indexed;
  pi_storage_epoch := pi_storage_epoch indexed |}.
(** [periods.get_mut(&period.id).expect(..)]: the id was inserted with its period. *)
Definition sample_step (resets : gmap Z (list PublicHistoryPeriod)) (periods : gmap text PeriodIndex)
    (entry : nat * PublicHistoryObservationV3) : gmap text PeriodIndex :=
  fold_left (λ periods period,
    if holds_sample resets entry.2 period then alter (push_sample entry.1 entry.2) (hp_id period) periods
    else periods) (periods_near resets (o3_reset_at entry.2)) periods.
Definition holds_gap (resets : gmap Z (list PublicHistoryPeriod)) (gap : PublicHistoryGap)
    (period : PublicHistoryPeriod) : bool :=
  negb ((negb (hg_reset_at gap =? hp_reset_at period) && opt_is_some (resets !! hg_reset_at gap))
        || (hg_start_at gap <? hp_start_at period) || (hp_end_at period <? hg_end_at gap)).
Definition push_gap (row : nat) (indexed : PeriodIndex) : PeriodIndex := {|
  pi_samples := pi_samples indexed; pi_gaps := pi_gaps indexed ++ [row];
  pi_has_token_usage := pi_has_token_usage indexed;
  pi_fingerprints := pi_fingerprints indexed; pi_source := pi_source indexed;
  pi_storage_epoch := pi_storage_epoch indexed |}.
Definition gap_row_step (resets : gmap Z (list PublicHistoryPeriod)) (periods : gmap text PeriodIndex)
    (entry : nat * PublicHistoryGap) : gmap text PeriodIndex :=
  fold_left (λ periods period,
    if holds_gap resets entry.2 period then alter (push_gap entry.1) (hp_id period) periods else periods)
    (periods_near resets (hg_reset_at entry.2)) periods.
Definition empty_index (source : HistorySource) (storage_epoch : Z) : PeriodIndex := {|
  pi_samples := []; pi_gaps := []; pi_has_token_usage := false; pi_fingerprints := [];
  pi_source := source; pi_storage_epoch := storage_epoch |}.
(** [iter().enumerate()] *)
Definition enumerate {A} (l : list A) : list (nat * A) := zip (seq 0 (length l)) l.
Definition index_rows (archive : HistoryArchive) (storage_epoch : Z) (source : HistorySource) :
    gmap text PeriodIndex :=
  let resets := by_reset (ha_periods archive) in
  let periods := fold_left (λ m p, <[hp_id p := empty_index source storage_epoch]> m) (ha_periods archive) ∅ in
  let periods := fold_left (sample_step resets) (enumerate (ha_samples archive)) periods in
  fold_left (gap_row_step resets) (enumerate (ha_gaps archive)) periods.

(** ** Fingerprints *)
Fixpoint le_bytes (n : nat) (value : Z) : list Z :=
  match n with O => [] | S m => value mod 256 :: le_bytes m (value / 256) end.
Fixpoint minutes_from (count : nat) (minute : Z) : list Z :=
  match count with O => [] | S count => minute :: minutes_from count (minute + 60) end.
(** [while minute < end_at { ..; minute += 60 }] from the start of the first minute *)
Definition interval_minutes (interval : LocalUsageInterval) : list Z :=
  let minute := lui_start_at interval / 60 * 60 in
  minutes_from (Z.to_nat ((lui_end_at interval - minute + 59) / 60)) minute.
Definition is_unused (state : LocalUsageState) : bool := match state with Unused => true | _ => false end.
Definition used_byte (state : LocalUsageState) : Z := match state with Used => 1 | _ => 0 end.
Definition interval_bytes (interval : LocalUsageInterval) : list Z :=
  flat_map (λ minute, le_bytes 8 minute ++ [used_byte (lui_state interval)]) (interval_minutes interval).
Definition local_evidence (recordings : option RecordedArchive) (start end_ : Z) : list Z :=
  match recordings with
  | None => string_bytes "local-unavailable" ++ [10]
  | Some recordings =>
      match local_usage recordings start end_ with
      | Err _ => string_bytes "local-invalid" ++ [10]
      | Ok local => flat_map interval_bytes
                      (List.filter (λ value, negb (is_unused (lui_state value))) (lu_intervals local))
      end
  end.

Definition sample_at (samples : list PublicHistoryObservationV3) (row : nat) : PublicHistoryObservationV3 :=
  samples !!! row.

Section index.
(** The digest, and the JSON text of the identity of a period and of an observation. *)
Context (sha256 : list Z → list Z).
Context (identity_json : Z * text * Z * list PublicHistoryGap → list Z).
Context (sample_json : PublicHistoryObservationV3 → list Z).

Definition prefix_header (archive : HistoryArchive) (storage_epoch : Z) (source : HistorySource)
    (period : PublicHistoryPeriod) (gaps : list nat) : list Z :=
  string_bytes "codex-info-rest-history-prefix-v2" ++ [10] ++ source_tag source ++ [10]
  ++ identity_json (storage_epoch, hp_id period, hp_reset_at period, map (λ row, ha_gaps archive !!! row) gaps)
  ++ [10].
(** The bytes one row adds to the hash: the observation, then the local evidence up to
    the next observation or past the end of the period. *)
Definition row_bytes (archive : HistoryArchive) (recordings : option RecordedArchive)
    (period : PublicHistoryPeriod) (first : bool) (row : nat) (next : option nat) : list Z :=
  let sample := sample_at (ha_samples archive) row in
  let start := if first then hp_start_at period else o3_timestamp sample in
  let end_ := match next with
              | Some next => o3_timestamp (sample_at (ha_samples archive) next)
              | None => i64_saturating_add (hp_end_at period) 1
              end in
  sample_json sample ++ [10] ++ local_evidence recordings start end_.
(** The loop over the positions, with the bytes hashed so far. *)
Fixpoint fingerprints_from (archive : HistoryArchive) (recordings : option RecordedArchive)
    (period : PublicHistoryPeriod) (first : bool) (hashed : list Z) (rows : list nat) : list (list Z) :=
  match rows with
  | [] => []
  | row :: rest =>
      let hashed := hashed ++ row_bytes archive recordings period first row (head rest) in
      sha256 hashed :: fingerprints_from archive recordings period false hashed rest
  end.
Definition fingerprint_period (archive : HistoryArchive) (recordings : option RecordedArchive)
    (storage_epoch : Z) (source : HistorySource) (periods : gmap text PeriodIndex)
    (period : PublicHistoryPeriod) : gmap text PeriodIndex :=
  alter (λ indexed,
    {| pi_samples := pi_samples indexed; pi_gaps := pi_gaps indexed;
       pi_has_token_usage := pi_has_token_usage indexed;
       pi_fingerprints := pi_fingerprints indexed
         ++ fingerprints_from archive recordings period true
              (prefix_header archive storage_epoch source period (pi_gaps indexed)) (pi_samples indexed);
       pi_source := pi_source indexed; pi_storage_epoch := pi_storage_epoch indexed |})
    (hp_id period) periods.
Definition build_archive (archive : HistoryArchive) (recordings : option RecordedArchive)
    (storage_epoch : Z) (source : HistorySource) : gmap text PeriodIndex :=
  fold_left (fingerprint_period archive recordings storage_epoch source) (ha_periods archive)
    (index_rows archive storage_epoch source).
Definition raw_archive (archive : HistoryArchive) : HistoryArchive := default archive (ha_raw archive).
Definition HistoryIndex_build (retained_history : HistoryArchive) (recordings : option RecordedArchive)
    (storage_epoch : Z) : HistoryIndex := {|
  hi_periods := build_archive retained_history recordings storage_epoch Canonical;
  hi_raw_periods := build_archive (raw_archive retained_history) recordings storage_epoch Raw |}.
End index.

(** ** Cursors *)
Definition hex (bytes : list Z) : text :=
  flat_map (λ byte, [HEX (Z.shiftr byte 4); HEX (Z.land byte 15)]) bytes.
Definition resume (self : PeriodIndex) (samples : list PublicHistoryObservationV3) (position : nat) : text :=
  let sample := sample_at samples (pi_samples self !!! position) in
  lit "h1." ++ i64_to_string (o3_reset_at sample) ++ lit "." ++ i64_to_string (o3_timestamp sample)
  ++ lit "." ++ hex (pi_fingerprints self !!! position).
Definition sample_key (sample : PublicHistoryObservationV3) : Z * Z := (o3_reset_at sample, o3_timestamp sample).
Definition key_order (a b : Z * Z) : comparison :=
  match Z.compare a.1 b.1 with Eq => Z.compare a.2 b.2 | c => c end.
(** The binary search, with fuel for its iterations. *)
Fixpoint search (fuel : nat) (self : PeriodIndex) (samples : list PublicHistoryObservationV3)
    (key : Z * Z) (fingerprint : text) (low high : nat) : option nat :=
  match fuel with
  | O => None
  | S fuel =>
      if (low <? high)%nat then
        let mid := (low + (high - low) / 2)%nat in
        match key_order (sample_key (sample_at samples (pi_samples self !!! mid))) key with
        | Lt => search fuel self samples key fingerprint (mid + 1) high
        | Gt => search fuel self samples key fingerprint low mid
        | Eq => then_some (text_eqb fingerprint (hex (pi_fingerprints self !!! mid))) (mid + 1)%nat
        end
      else None
  end.
Definition start_after (self : PeriodIndex) (samples : list PublicHistoryObservationV3) (cursor : text) :
    option nat :=
  match split 46 cursor with
  | [tag; reset; timestamp; fingerprint] =>
      if negb (text_eqb tag (lit "h1")) || negb (str_len fingerprint =? 64)
         || negb (forallb is_lower_hex fingerprint)
      then None
      else
        reset_at ← parse_i64 reset;
        timestamp_at ← parse_i64 timestamp;
        if negb (text_eqb reset (i64_to_string reset_at)) || negb (text_eqb timestamp (i64_to_string timestamp_at))
        then None
        else
          let high := length (pi_samples self) in
          search (S high) self samples (reset_at, timestamp_at) fingerprint 0 high
  | _ => None
  end.

(** ** Pages *)
Inductive RouteError := Serialization | HistoryUnavailable | UnknownPeriod | StaleCursor | ResourceTooLarge.
Definition MAX_HISTORY_PAGE : nat := 1024.
Definition selected_history_archive (retained : HistoryArchive) (period : text) : HistoryArchive * bool :=
  if opt_is_some (parse_i64 period) then (raw_archive retained, true) else (retained, false).
Definition history_selection (retained : HistoryArchive) (index : HistoryIndex) (period cursor : option text) :
    result RouteError (HistoryArchive * PeriodIndex * nat) :=
  period ← ok_or period UnknownPeriod;
  let '(archive, raw) := selected_history_archive retained period in
  indexed ← ok_or ((if raw then hi_raw_periods index else hi_periods index) !! period)
              (if opt_is_some cursor then StaleCursor else UnknownPeriod);
  start ← match cursor with
          | Some cursor => ok_or (start_after indexed (ha_samples archive) cursor) StaleCursor
          | None => Ok 0%nat
          end;
  Ok (archive, indexed, start).
Record HistoryPage := {
  pg_history_samples : list PublicHistoryObservationV3;
  pg_history_gaps : list PublicHistoryGap;
  pg_next_cursor : option text;
  pg_resume_cursor : option text
}.
Definition page_end (indexed : PeriodIndex) (start : nat) : nat :=
  Nat.min (start + MAX_HISTORY_PAGE) (length (pi_samples indexed)).
Definition page_of (archive : HistoryArchive) (indexed : PeriodIndex) (start : nat) (cursor : option text) :
    HistoryPage :=
  let end_ := page_end indexed start in
  let resume_cursor := if (0 <? end_)%nat then Some (resume indexed (ha_samples archive) (end_ - 1)) else cursor in
  {| pg_history_samples := map (sample_at (ha_samples archive)) (take (end_ - start) (drop start (pi_samples indexed)));
     pg_history_gaps := if opt_is_some cursor then [] else map (λ row, ha_gaps archive !!! row) (pi_gaps indexed);
     pg_next_cursor := if (end_ <? length (pi_samples indexed))%nat then resume_cursor else None;
     pg_resume_cursor := resume_cursor |}.
Definition history_document (retained : HistoryArchive) (index : HistoryIndex) (period cursor : option text) :
    result RouteError HistoryPage :=
  _ ← ok_or period UnknownPeriod;
  '(archive, indexed, start) ← history_selection retained index period cursor;
  Ok (page_of archive indexed start cursor).

(** The range of the local evidence beside a page. *)
Definition evidence_range (archive : HistoryArchive) (indexed : PeriodIndex) (selected : PublicHistoryPeriod)
    (start : nat) : Z * Z :=
  let end_ := page_end indexed start in
  let at_ position := (λ row, o3_timestamp (sample_at (ha_samples archive) row)) <$> pi_samples indexed !! position in
  let start_at := if (start =? 0)%nat then hp_start_at selected
                  else default (hp_start_at selected)
                         ((λ t, Z.max t (hp_start_at selected)) <$> at_ (start - 1)%nat) in
  let end_at := default (i64_saturating_add (hp_end_at selected) 1) (at_ end_) in
  (start_at, Z.max end_at (i64_saturating_add start_at 1)).
Definition serialize_history_extended (retained : HistoryArchive) (index : HistoryIndex)
    (recordings : option RecordedArchive) (history_available : bool) (period cursor : option text) :
    result RouteError (HistoryPage * LocalUsage) :=
  if negb history_available then Err HistoryUnavailable
  else
    requested_id ← ok_or period UnknownPeriod;
    '(archive, indexed, start) ← history_selection retained index period cursor;
    selected ← ok_or (List.find (λ candidate, text_eqb (hp_id candidate) requested_id) (ha_periods archive))
                 UnknownPeriod;
    let '(start_at, end_at) := evidence_range archive indexed selected start in
    let evidence := default (LocalUsage_unavailable start_at end_at)
                      (recordings ≫= λ archive, result_ok (local_usage archive start_at end_at)) in
    document ← history_document retained index period cursor;
    Ok (document, evidence).
