(* ===== verification/HistoryRows.v ===== *)
(** * What the history index holds

    The rows of each period of an archive, from the loops of [index_rows], and the
    bytes behind each fingerprint. *)

From S2P Require Import Prelude Text Contract Details RecordedUsage Recordings SqlRow HistoryIndex.

(** ** The specification: the rows of a period *)
Section rows_of.
Context (archive : HistoryArchive).
Notation periods := (ha_periods archive).
Definition near (reset : Z) (period : PublicHistoryPeriod) : bool :=
  in_range reset (i64_saturating_add reset 60) (hp_reset_at period).
Definition owns_sample (period : PublicHistoryPeriod) (sample : PublicHistoryObservationV3) : bool :=
  near (o3_reset_at sample) period && holds_sample (by_reset periods) sample period.
Definition owns_gap (period : PublicHistoryPeriod) (gap : PublicHistoryGap) : bool :=
  near (hg_reset_at gap) period && holds_gap (by_reset periods) gap period.
Definition sample_rows (period : PublicHistoryPeriod) : list (nat * PublicHistoryObservationV3) :=
  List.filter (λ e, owns_sample period e.2) (enumerate (ha_samples archive)).
Definition gap_rows (period : PublicHistoryPeriod) : list (nat * PublicHistoryGap) :=
  List.filter (λ e, owns_gap period e.2) (enumerate (ha_gaps archive)).
End rows_of.

(** ** The map of the periods by deadline *)
Lemma by_reset_snoc ps p : by_reset (ps ++ [p]) =
  <[hp_reset_at p := default [] (by_reset ps !! hp_reset_at p) ++ [p]]> (by_reset ps).
Proof. unfold by_reset. by rewrite fold_left_app. Qed.

Lemma map_to_list_replace {A} (m : gmap Z A) k a :
  map_to_list (<[k := a]> m) ≡ₚ (k, a) :: map_to_list (delete k m).
Proof. rewrite <- insert_delete_eq. apply map_to_list_insert, lookup_delete_eq. Qed.

Lemma groups_perm (f : Z → bool) ps :
  concat (map snd (List.filter (λ row, f row.1) (map_to_list (by_reset ps))))
  ≡ₚ List.filter (λ p, f (hp_reset_at p)) ps.
Proof.
  induction ps as [|p ps IH] using rev_ind; [unfold by_reset; cbn [fold_left]; by rewrite map_to_list_empty|].
  rewrite by_reset_snoc, List.filter_app, <- IH.
  rewrite (filter_bool_perm _ _ _ (map_to_list_replace _ _ _)).
  destruct (by_reset ps !! hp_reset_at p) as [l|] eqn:El.
  - assert (Hm : map_to_list (by_reset ps) ≡ₚ (hp_reset_at p, l) :: map_to_list (delete (hp_reset_at p) (by_reset ps))).
    { symmetry. by apply map_to_list_delete. }
    rewrite (filter_bool_perm _ _ _ Hm). cbn [List.filter fst]. destruct (f (hp_reset_at p)); cbn [map concat snd default].
    + rewrite <- (app_assoc l), <- (app_assoc l). by rewrite (Permutation_app_comm [p]).
    + by rewrite app_nil_r.
  - rewrite delete_id by done. cbn [List.filter fst]. destruct (f (hp_reset_at p)); cbn [map concat snd default app].
    + apply Permutation_cons_append.
    + by rewrite app_nil_r.
Qed.

Lemma periods_near_perm ps reset :
  periods_near (by_reset ps) reset ≡ₚ List.filter (near reset) ps.
Proof.
  unfold periods_near. rewrite <- (groups_perm (in_range reset (i64_saturating_add reset 60)) ps).
  rewrite <- !flat_map_concat_map. apply Permutation_flat_map, filter_bool_perm, sort_by_perm.
Qed.

(** ** What the loops push *)
(** A loop that alters the entry of each period that passes a test. *)
Definition alter_if {V} (f : V → V) (h : PublicHistoryPeriod → bool) (m : gmap text V) (p : PublicHistoryPeriod) :=
  if h p then alter f (hp_id p) m else m.
Definition touches (h : PublicHistoryPeriod → bool) (id : text) (ps : list PublicHistoryPeriod) : bool :=
  existsb (λ p, text_eqb (hp_id p) id && h p) ps.
Lemma touches_absent h id ps : id ∉ map hp_id ps → touches h id ps = false.
Proof.
  intros Hn. apply existsb_false. intros p Hp. apply andb_false_intro1, not_true_iff_false. rewrite text_eqb_true.
  intros <-. by apply Hn, list_elem_of_fmap_2.
Qed.
Lemma fold_alter {V} (f : V → V) h ps m id : NoDup (map hp_id ps) →
  fold_left (alter_if f h) ps m !! id = (if touches h id ps then f else λ v, v) <$> m !! id.
Proof.
  revert m. induction ps as [|p ps IH]; intros m; cbn [map]; [intros _; cbn; by rewrite option_fmap_id|].
  rewrite NoDup_cons. intros [Hp Hn]. cbn [fold_left touches existsb]. rewrite IH by done. fold (touches h id ps).
  unfold alter_if. destruct (text_eqb (hp_id p) id) eqn:E; cbn [andb orb].
  - apply text_eqb_true in E as <-. rewrite touches_absent by done. rewrite option_fmap_id, orb_false_r.
    destruct (h p); [by rewrite lookup_alter_eq|by rewrite option_fmap_id].
  - f_equal. destruct (h p); [|done]. apply lookup_alter_ne. intros <-. by rewrite (proj2 (text_eqb_true _ _)) in E.
Qed.
Lemma touches_one h p ps : NoDup (map hp_id ps) → p ∈ ps → touches h (hp_id p) ps = h p.
Proof.
  intros Hn Hp. unfold touches. apply eq_true_iff_eq. rewrite existsb_Exists, Exists_exists. split.
  - intros (q & Hq & [Hid%text_eqb_true Hh]%andb_true_iff).
    by rewrite <- (map_inj_on hp_id ps q p Hn Hq Hp Hid).
  - intros Hh. exists p. split; [done|]. rewrite Hh, andb_true_r. by apply text_eqb_true.
Qed.
Lemma touches_near (g : PublicHistoryPeriod → bool) h l p ps :
  NoDup (map hp_id ps) → p ∈ ps → l ≡ₚ List.filter g ps →
  NoDup (map hp_id l) ∧ touches h (hp_id p) l = g p && h p.
Proof.
  intros Hn Hp Hl.
  assert (Hnl : NoDup (map hp_id l)) by (rewrite Hl; by apply filter_NoDup_map).
  split; [done|]. destruct (g p) eqn:Eg; cbn [andb].
  - apply touches_one; [done|]. by rewrite Hl, elem_of_filter_bool.
  - apply touches_absent. intros (q & Hid & Hq)%list_elem_of_fmap.
    rewrite Hl, elem_of_filter_bool in Hq. destruct Hq as [Hq Hg].
    rewrite <- (map_inj_on hp_id ps p q Hn Hp Hq Hid) in Hg. congruence.
Qed.

Section loops.
Context (archive : HistoryArchive) (Hids : NoDup (map hp_id (ha_periods archive))).
Notation resets := (by_reset (ha_periods archive)).

Lemma sample_step_lookup m e p : p ∈ ha_periods archive →
  sample_step resets m e !! hp_id p
  = (if owns_sample archive p e.2 then push_sample e.1 e.2 else λ v, v) <$> m !! hp_id p.
Proof.
  intros Hp. destruct (touches_near (near (o3_reset_at e.2)) (holds_sample resets e.2) _ p _ Hids Hp
    (periods_near_perm (ha_periods archive) (o3_reset_at e.2))) as [Hn Ht].
  unfold sample_step. fold (alter_if (push_sample e.1 e.2) (holds_sample resets e.2)).
  rewrite fold_alter by done. by rewrite Ht.
Qed.
Lemma gap_step_lookup m e p : p ∈ ha_periods archive →
  gap_row_step resets m e !! hp_id p = (if owns_gap archive p e.2 then push_gap e.1 else λ v, v) <$> m !! hp_id p.
Proof.
  intros Hp. destruct (touches_near (near (hg_reset_at e.2)) (holds_gap resets e.2) _ p _ Hids Hp
    (periods_near_perm (ha_periods archive) (hg_reset_at e.2))) as [Hn Ht].
  unfold gap_row_step. fold (alter_if (push_gap e.1) (holds_gap resets e.2)).
  rewrite fold_alter by done. by rewrite Ht.
Qed.

Definition with_rows (idx : PeriodIndex) (samples : list (nat * PublicHistoryObservationV3))
    (gaps : list (nat * PublicHistoryGap)) : PeriodIndex := {|
  pi_samples := pi_samples idx ++ map fst samples; pi_gaps := pi_gaps idx ++ map fst gaps;
  pi_has_token_usage := pi_has_token_usage idx || existsb (λ e, uses_tokens e.2) samples;
  pi_fingerprints := pi_fingerprints idx; pi_source := pi_source idx; pi_storage_epoch := pi_storage_epoch idx |}.
Lemma with_no_rows idx : with_rows idx [] [] = idx.
Proof. destruct idx. unfold with_rows. cbn. by rewrite !app_nil_r, orb_false_r. Qed.

Lemma sample_fold_lookup es m idx p : p ∈ ha_periods archive → m !! hp_id p = Some idx →
  fold_left (sample_step resets) es m !! hp_id p
  = Some (with_rows idx (List.filter (λ e, owns_sample archive p e.2) es) []).
Proof.
  intros Hp. revert m idx. induction es as [|e es IH]; intros m idx Hm; cbn [fold_left List.filter].
  { by rewrite with_no_rows. }
  assert (Hs := sample_step_lookup m e p Hp). rewrite Hm in Hs. cbn [fmap option_fmap option_map] in Hs.
  rewrite (IH _ _ Hs). destruct (owns_sample archive p e.2); [|done].
  unfold with_rows, push_sample. cbn. by rewrite !app_nil_r, <- app_assoc, <- orb_assoc.
Qed.
Lemma gap_fold_lookup es m idx p : p ∈ ha_periods archive → m !! hp_id p = Some idx →
  fold_left (gap_row_step resets) es m !! hp_id p
  = Some (with_rows idx [] (List.filter (λ e, owns_gap archive p e.2) es)).
Proof.
  intros Hp. revert m idx. induction es as [|e es IH]; intros m idx Hm; cbn [fold_left List.filter].
  { by rewrite with_no_rows. }
  assert (Hs := gap_step_lookup m e p Hp). rewrite Hm in Hs. cbn [fmap option_fmap option_map] in Hs.
  rewrite (IH _ _ Hs). destruct (owns_gap archive p e.2); [|done].
  unfold with_rows, push_gap. cbn. by rewrite !app_nil_r, <- app_assoc, !orb_false_r.
Qed.
Lemma insert_fold_lookup {V} (v : V) (ps : list PublicHistoryPeriod) (m : gmap text V) id :
  fold_left (λ m p, <[hp_id p := v]> m) ps m !! id = if existsb (λ p, text_eqb (hp_id p) id) ps then Some v else m !! id.
Proof.
  revert m. induction ps as [|p ps IH]; intros m; cbn [fold_left existsb]; [done|]. rewrite IH.
  destruct (text_eqb (hp_id p) id) eqn:E; cbn [orb].
  - apply text_eqb_true in E as <-. rewrite lookup_insert_eq. by destruct (existsb _ ps).
  - destruct (existsb _ ps); [done|]. apply lookup_insert_ne. intros <-. by rewrite (proj2 (text_eqb_true _ _)) in E.
Qed.

(** The entry of a period lists its samples and its gaps in the order of the archive. *)
Lemma index_rows_lookup epoch source p : p ∈ ha_periods archive →
  index_rows archive epoch source !! hp_id p
  = Some (with_rows (empty_index source epoch) (sample_rows archive p) (gap_rows archive p)).
Proof.
  intros Hp. unfold index_rows. cbv zeta. erewrite gap_fold_lookup; [|done|apply sample_fold_lookup; [done|]].
  2: { rewrite insert_fold_lookup. rewrite (proj2 (existsb_Exists _ _)); [done|].
       apply Exists_exists. exists p. split; [done|]. by apply text_eqb_true. }
  unfold with_rows. cbn [empty_index pi_samples pi_gaps pi_has_token_usage pi_fingerprints pi_source pi_storage_epoch].
  cbn. by rewrite !app_nil_r, orb_false_r.
Qed.
Lemma index_rows_unknown epoch source id : id ∉ map hp_id (ha_periods archive) →
  index_rows archive epoch source !! id = None.
Proof.
  intros Hid. unfold index_rows. cbv zeta.
  assert (Hf : ∀ {E} (step : gmap text PeriodIndex → E → gmap text PeriodIndex) es m,
    (∀ m e, m !! id = None → step m e !! id = None) → m !! id = None → fold_left step es m !! id = None).
  { intros E step es. induction es; intros m Hs Hm; cbn; auto. }
  assert (Ha : ∀ (f : PeriodIndex → PeriodIndex) h ps m, m !! id = None → fold_left (alter_if f h) ps m !! id = None).
  { intros f h ps m. apply Hf. intros m' q Hm. unfold alter_if. destruct (h q); [|done].
    destruct (decide (hp_id q = id)) as [<-|]; [by rewrite lookup_alter_eq, Hm|by rewrite lookup_alter_ne]. }
  apply Hf; [intros m e; apply Ha|]. apply Hf; [intros m e; apply Ha|].
  rewrite insert_fold_lookup. destruct (existsb _ _) eqn:E; [|done].
  apply existsb_Exists, Exists_exists in E as (q & Hq & <-%text_eqb_true). by destruct Hid; apply list_elem_of_fmap_2.
Qed.
End loops.

(** ** The bytes behind the fingerprints *)
Section fingerprints.
Context (sha256 : list Z → list Z) (identity_json : Z * text * Z * list PublicHistoryGap → list Z).
Context (sample_json : PublicHistoryObservationV3 → list Z).
Context (archive : HistoryArchive) (recordings : option RecordedArchive) (epoch : Z) (source : HistorySource).

Fixpoint row_parts (p : PublicHistoryPeriod) (first : bool) (rows : list nat) : list (list Z) :=
  match rows with
  | [] => []
  | row :: rest => row_bytes sample_json archive recordings p first row (head rest) :: row_parts p false rest
  end.
(** Everything hashed up to a position. *)
Definition prefix_bytes (p : PublicHistoryPeriod) (gaps rows : list nat) (position : nat) : list Z :=
  prefix_header identity_json archive epoch source p gaps ++ concat (take (S position) (row_parts p true rows)).

Lemma row_parts_length p first rows : length (row_parts p first rows) = length rows.
Proof. revert first. induction rows; intros first; cbn; auto. Qed.
Lemma row_parts_lookup p first rows i row : rows !! i = Some row →
  row_parts p first rows !! i
  = Some (row_bytes sample_json archive recordings p (first && (i =? 0)%nat) row (rows !! S i)).
Proof.
  revert first i. induction rows as [|r rows IH]; intros first [|i] Hr; [done..| |]; cbn in *.
  - injection Hr as ->. by rewrite andb_true_r, head_lookup.
  - etrans; [apply (IH false i Hr)|]. by rewrite andb_false_r.
Qed.
Lemma fingerprints_from_length p first hashed rows :
  length (fingerprints_from sha256 sample_json archive recordings p first hashed rows) = length rows.
Proof. revert first hashed. induction rows; intros first hashed; cbn; auto. Qed.
Lemma fingerprints_from_lookup p first hashed rows i : (i < length rows)%nat →
  fingerprints_from sha256 sample_json archive recordings p first hashed rows !! i
  = Some (sha256 (hashed ++ concat (take (S i) (row_parts p first rows)))).
Proof.
  revert first hashed i. induction rows as [|r rows IH]; intros first hashed i Hi; cbn [length] in Hi; [lia|].
  destruct i as [|i]; cbn [fingerprints_from row_parts lookup list_lookup].
  - cbn. by rewrite take_0, app_nil_r.
  - change (take (S (S i)) (?x :: ?l)) with (x :: take (S i) l). cbn [concat].
    rewrite app_assoc. apply IH. lia.
Qed.

(** The entry of a period in the index of the archive. *)
Definition period_index (p : PublicHistoryPeriod) : PeriodIndex :=
  let rows := map fst (sample_rows archive p) in
  let gaps := map fst (gap_rows archive p) in
  {| pi_samples := rows; pi_gaps := gaps;
     pi_has_token_usage := existsb (λ e, uses_tokens e.2) (sample_rows archive p);
     pi_fingerprints := fingerprints_from sha256 sample_json archive recordings p true
       (prefix_header identity_json archive epoch source p gaps) rows;
     pi_source := source; pi_storage_epoch := epoch |}.
Lemma fingerprint_fold ps m id : id ∉ map hp_id ps →
  fold_left (fingerprint_period sha256 identity_json sample_json archive recordings epoch source) ps m !! id = m !! id.
Proof.
  revert m. induction ps as [|p ps IH]; intros m; cbn [map]; [done|]. rewrite not_elem_of_cons.
  intros [Hp Hps]. cbn [fold_left]. rewrite IH by done. by apply lookup_alter_ne.
Qed.
Lemma build_archive_lookup p : NoDup (map hp_id (ha_periods archive)) → p ∈ ha_periods archive →
  build_archive sha256 identity_json sample_json archive recordings epoch source !! hp_id p = Some (period_index p).
Proof.
  intros Hn Hp. unfold build_archive. pose proof (index_rows_lookup archive Hn epoch source p Hp) as Hi.
  revert Hi. apply list_elem_of_split in Hp as (l & l' & El). revert Hn. rewrite El.
  rewrite map_app, NoDup_app. cbn [map]. rewrite NoDup_cons. intros (Hl & Hd & Hl' & _) Hi.
  rewrite fold_left_app. cbn [fold_left]. rewrite fingerprint_fold by done. unfold fingerprint_period at 1.
  rewrite lookup_alter_eq, fingerprint_fold, Hi.
  - cbn. done.
  - intros Hid. apply (Hd _ Hid). left.
Qed.
Lemma build_archive_known id : NoDup (map hp_id (ha_periods archive)) →
  is_Some (build_archive sha256 identity_json sample_json archive recordings epoch source !! id) →
  ∃ p, p ∈ ha_periods archive ∧ hp_id p = id.
Proof.
  intros Hn Hs. destruct (decide (id ∈ map hp_id (ha_periods archive))) as [(p & -> & Hp)%list_elem_of_fmap|Hid]; [by exists p|].
  unfold build_archive in Hs. rewrite fingerprint_fold in Hs by done.
  rewrite index_rows_unknown in Hs by done. by destruct Hs.
Qed.
Lemma period_fingerprint p i : (i < length (pi_samples (period_index p)))%nat →
  pi_fingerprints (period_index p) !!! i
  = sha256 (prefix_bytes p (pi_gaps (period_index p)) (pi_samples (period_index p)) i).
Proof. intros Hi. apply list_lookup_total_correct. by apply fingerprints_from_lookup. Qed.
End fingerprints.

(** ** The rows are those of the period, in the order of the archive *)
Lemma enumerate_lookup {A} (l : list A) i : enumerate l !! i = (λ a, (i, a)) <$> l !! i.
Proof.
  unfold enumerate. destruct (l !! i) as [a|] eqn:El.
  - apply lookup_lt_Some in El as Hi. apply lookup_zip_Some. split; [|done]. rewrite lookup_seq. lia.
  - apply lookup_ge_None in El. apply lookup_ge_None. rewrite length_zip_with, length_seq. lia.
Qed.
Lemma elem_of_enumerate {A} (l : list A) i a : (i, a) ∈ enumerate l ↔ l !! i = Some a.
Proof.
  rewrite list_elem_of_lookup. split.
  - intros (j & Hj). rewrite enumerate_lookup in Hj. destruct (l !! j) eqn:E; [|done]. by injection Hj as <- <-.
  - intros Hi. exists i. by rewrite enumerate_lookup, Hi.
Qed.
Lemma enumerate_sorted {A} (l : list A) : StronglySorted (λ a b, (a.1 < b.1)%nat) (enumerate l).
Proof.
  unfold enumerate. generalize O. induction l as [|a l IH]; intros n; cbn; [constructor|].
  constructor; [apply IH|]. apply Forall_forall. intros [i b] Hi. apply elem_of_zip_l, elem_of_seq in Hi. cbn. lia.
Qed.
