(* ===== verification/HistoryCursor.v ===== *)
(** * Cursors of the history pages

    The bytes behind a fingerprint determine the observations before it; the binary
    search finds the observation a cursor names; and the pages that follow a cursor
    complete what the client holds. *)

From S2P Require Import Prelude Text Contract Details RecordedUsage Recordings SqlRow HistoryIndex HistoryRows.

(** ** The local evidence ends where the next observation begins *)
Inductive evidence_blocks : list Z → Prop :=
| blocks_nil : evidence_blocks []
| blocks_cons b0 b1 b2 b3 b4 b5 b6 b7 s l : b0 ≠ 123 → (s = 0 ∨ s = 1) → evidence_blocks l →
    evidence_blocks (b0 :: b1 :: b2 :: b3 :: b4 :: b5 :: b6 :: b7 :: s :: l).
Definition unavailable_line : list Z := string_bytes "local-unavailable" ++ [10].
Definition invalid_line : list Z := string_bytes "local-invalid" ++ [10].
Definition evidence_ok (e : list Z) : Prop :=
  evidence_blocks e ∨ e = unavailable_line ∨ e = invalid_line.
(** What may follow: nothing, or the opening brace of an observation. *)
Definition follows_ok (rest : list Z) : Prop := rest = [] ∨ ∃ r, rest = 123 :: r.

Lemma evidence_blocks_app l l' : evidence_blocks l → evidence_blocks l' → evidence_blocks (l ++ l').
Proof. induction 1; intros; cbn; [done|constructor; auto]. Qed.
Lemma minutes_from_elem count minute m : m ∈ minutes_from count minute ↔
  ∃ k, 0 ≤ k < Z.of_nat count ∧ m = minute + 60 * k.
Proof.
  revert minute. induction count as [|c IH]; intros minute; cbn [minutes_from].
  - rewrite elem_of_nil. naive_solver lia.
  - rewrite elem_of_cons, IH. split.
    + intros [->|(k & Hk & ->)]; [exists 0; lia|exists (k + 1); lia].
    + intros (k & Hk & ->). destruct (decide (k = 0)) as [->|]; [left; lia|right; exists (k - 1); lia].
Qed.
(** The minutes hashed for an interval are those that meet it, from its first minute. *)
Lemma interval_minutes_elem i m : m ∈ interval_minutes i ↔
  m mod 60 = 0 ∧ lui_start_at i / 60 * 60 ≤ m < lui_end_at i.
Proof.
  unfold interval_minutes. cbv zeta. rewrite minutes_from_elem. split.
  - intros (k & Hk & ->). assert (k < (lui_end_at i - lui_start_at i / 60 * 60 + 59) / 60) by lia.
    split; [|div_lia]. replace (_ + 60 * k) with ((lui_start_at i / 60 + k) * 60) by lia. apply Z.mod_mul. lia.
  - intros [Hm Hr]. exists (m / 60 - lui_start_at i / 60). div_lia.
Qed.
Lemma le_bytes_head m : m mod 60 = 0 → ∃ b1 b2 b3 b4 b5 b6 b7, le_bytes 8 m = [m mod 256; b1; b2; b3; b4; b5; b6; b7]
  ∧ m mod 256 ≠ 123.
Proof.
  intros Hm. do 7 eexists. split; [reflexivity|]. intros E.
  assert (m mod 4 = 0) by div_lia. assert (m mod 4 = 3) by div_lia. lia.
Qed.
Lemma local_evidence_ok recordings start end_ : evidence_ok (local_evidence recordings start end_).
Proof.
  unfold local_evidence. destruct recordings as [r|]; [|by right; left].
  destruct (local_usage r start end_) as [local|]; [|by right; right].
  left. induction (List.filter _ _) as [|i l IH]; cbn [flat_map]; [constructor|].
  apply evidence_blocks_app; [|done]. unfold interval_bytes. clear IH l.
  assert (Hm : ∀ m, m ∈ interval_minutes i → m mod 60 = 0) by (intros m; rewrite interval_minutes_elem; tauto).
  induction (interval_minutes i) as [|m ms IH]; cbn [flat_map]; [constructor|].
  destruct (le_bytes_head m) as (b1 & b2 & b3 & b4 & b5 & b6 & b7 & -> & Hne); [apply Hm; left|].
  cbn [app]. constructor; [done|destruct (lui_state i); auto|]. apply IH. intros m' Hm'. apply Hm. by right.
Qed.

Lemma evidence_split e e' r r' : evidence_ok e → evidence_ok e' → follows_ok r → follows_ok r' →
  e ++ r = e' ++ r' → e = e' ∧ r = r'.
Proof.
  assert (Hbb : ∀ e, evidence_blocks e → ∀ e' r r', evidence_blocks e' → follows_ok r → follows_ok r' →
    e ++ r = e' ++ r' → e = e' ∧ r = r').
  { induction 1 as [|b0 b1 b2 b3 b4 b5 b6 b7 s l Hb Hs Hl IH]; intros f q q' Hf Hq Hq' E.
    - inversion Hf; subst; [done|]. destruct Hq as [->|[? ->]]; [done|]. cbn in E. congruence.
    - inversion Hf as [|c0 c1 c2 c3 c4 c5 c6 c7 t l' Hc Ht Hl']; subst.
      { destruct Hq' as [->|[? ->]]; [done|]. cbn in E. congruence. }
      cbn [app] in E. injection E as -> -> -> -> -> -> -> -> -> E.
      destruct (IH l' q q' Hl' Hq Hq' E) as [-> ->]. done. }
  assert (Hbw : ∀ e w r r', evidence_blocks e → w = unavailable_line ∨ w = invalid_line → follows_ok r →
    e ++ r ≠ w ++ r').
  { intros f w q q' Hf Hw Hq E. inversion Hf as [|b0 b1 b2 b3 b4 b5 b6 b7 s l Hb Hs Hl]; subst.
    - destruct Hq as [->|[? ->]]; destruct Hw as [-> | ->]; done.
    - destruct Hw as [-> | ->]; cbn in E; injection E; intros; subst; destruct Hs; lia. }
  intros [He|He] [He'|He'] Hr Hr' E.
  - by eapply Hbb.
  - by destruct (Hbw e e' r r' He He' Hr).
  - by destruct (Hbw e' e r' r He' He Hr').
  - destruct He as [-> | ->], He' as [-> | ->]; [by apply app_inv_head in E as ->|..|by apply app_inv_head in E as ->];
      exfalso; apply (f_equal (λ l, nth 6 l 0)) in E; discriminate E.
Qed.
Lemma newline_split (a b r r' : list Z) : 10 ∉ a → 10 ∉ b → a ++ 10 :: r = b ++ 10 :: r' → a = b ∧ r = r'.
Proof.
  revert b. induction a as [|x a IH]; intros [|y b] Ha Hb E; cbn in E.
  - by injection E as ->.
  - injection E as <- E. by destruct Hb; left.
  - injection E as -> E. by destruct Ha; left.
  - injection E as -> E. apply not_elem_of_cons in Ha as [_ Ha], Hb as [_ Hb].
    destruct (IH b Ha Hb E) as [-> ->]. done.
Qed.

(** One row: the JSON text of an object on one line, and its evidence. *)
Definition line_ok (j : list Z) : Prop := (∃ r, j = 123 :: r) ∧ 10 ∉ j.
Definition part_ok (part : list Z * list Z) : Prop := line_ok part.1 ∧ evidence_ok part.2.
Definition part_bytes (part : list Z * list Z) : list Z := part.1 ++ 10 :: part.2.
Lemma parts_follow ps : Forall part_ok ps → follows_ok (concat (map part_bytes ps)).
Proof.
  intros H. destruct H as [|[j e] ps [[[r Hj] _] _] _]; [by left|]. right. cbn [fst] in Hj. subst j. by eexists.
Qed.
Lemma parts_inj ps ps' : Forall part_ok ps → Forall part_ok ps' →
  concat (map part_bytes ps) = concat (map part_bytes ps') → ps = ps'.
Proof.
  intros H. revert ps'. induction H as [|[j e] ps [[Hj Hn] He] Hps IH]; intros ps' H' E.
  - destruct H' as [|[j' e'] ps' [[[r' Hj] _] _] _]; [done|]. cbn [fst] in Hj. subst j'. discriminate E.
  - destruct H' as [|[j' e'] ps' [[Hj' Hn'] He'] Hps'].
    { destruct Hj as [r Hj]. cbn [fst] in Hj. subst j. discriminate E. }
    cbn [map concat] in E. unfold part_bytes at 1 3 in E. cbn [fst snd] in *.
    rewrite <- !app_assoc in E. cbn [app] in E. apply newline_split in E as [-> E]; [|done..].
    apply evidence_split in E as [-> E]; [|done|done|by apply parts_follow|by apply parts_follow].
    f_equal. by apply IH.
Qed.

(** ** What a fingerprint commits to *)
Lemma source_tag_line source : 10 ∉ source_tag source.
Proof. destruct source; vm_compute; intros [?|?%elem_of_nil]%elem_of_cons; lia. Qed.
Definition period_samples (archive : HistoryArchive) (p : PublicHistoryPeriod) : list PublicHistoryObservationV3 :=
  map snd (sample_rows archive p).
Lemma sample_rows_at archive p : map (sample_at (ha_samples archive)) (map fst (sample_rows archive p)) = period_samples archive p.
Proof.
  unfold period_samples. rewrite map_map. apply map_ext_in. intros [i s] Hi%list_elem_of_In.
  apply elem_of_filter_bool in Hi as [Hi%elem_of_enumerate _]. by apply list_lookup_total_correct.
Qed.
Lemma sample_rows_lookup archive p i row : map fst (sample_rows archive p) !! i = Some row →
  period_samples archive p !! i = Some (sample_at (ha_samples archive) row).
Proof. intros Hi. rewrite <- sample_rows_at. by rewrite (list_lookup_fmap _ _ i), Hi. Qed.

Section commitment.
Context (identity_json : Z * text * Z * list PublicHistoryGap → list Z).
Context (sample_json : PublicHistoryObservationV3 → list Z).
(** JSON text is printed on one line; an observation prints as an object. *)
Context (sample_line : ∀ s, line_ok (sample_json s)) (identity_line : ∀ i, 10 ∉ identity_json i).

Lemma row_parts_pairs archive recordings p first rows : ∃ ps,
  row_parts sample_json archive recordings p first rows = map part_bytes ps
  ∧ map fst ps = map (λ row, sample_json (sample_at (ha_samples archive) row)) rows ∧ Forall part_ok ps.
Proof.
  revert first. induction rows as [|row rows IH]; intros first; [by exists []|].
  destruct (IH false) as (ps & Hb & Hf & Hok). cbn [row_parts map]. rewrite Hb, <- Hf.
  eexists ((_, _) :: ps). split; [reflexivity|]. split; [done|]. constructor; [|done]. split; [apply sample_line|].
  apply local_evidence_ok.
Qed.

Definition period_identity (archive : HistoryArchive) (epoch : Z) (p : PublicHistoryPeriod) :
    Z * text * Z * list PublicHistoryGap :=
  (epoch, hp_id p, hp_reset_at p, map snd (gap_rows archive p)).
Lemma gap_rows_at archive p : map (λ row, ha_gaps archive !!! row) (map fst (gap_rows archive p)) = map snd (gap_rows archive p).
Proof.
  rewrite map_map. apply map_ext_in. intros [i s] Hi%list_elem_of_In.
  apply elem_of_filter_bool in Hi as [Hi%elem_of_enumerate _]. by apply list_lookup_total_correct.
Qed.

(** Equal bytes before two positions: the same period, the same gaps, the same position
    and the same observations up to it, as they are printed. *)
Lemma prefix_commits a ra ea sa p i b rb eb sb q j :
  (i < length (period_samples a p))%nat → (j < length (period_samples b q))%nat →
  prefix_bytes identity_json sample_json a ra ea sa p (map fst (gap_rows a p)) (map fst (sample_rows a p)) i
  = prefix_bytes identity_json sample_json b rb eb sb q (map fst (gap_rows b q)) (map fst (sample_rows b q)) j →
  sa = sb ∧ identity_json (period_identity a ea p) = identity_json (period_identity b eb q) ∧ i = j
  ∧ map sample_json (take (S i) (period_samples a p)) = map sample_json (take (S j) (period_samples b q)).
Proof.
  intros Hi Hj E. unfold prefix_bytes, prefix_header in E. rewrite !gap_rows_at in E.
  rewrite <- !app_assoc in E. apply app_inv_head in E. cbn [app] in E. injection E as E.
  apply newline_split in E as [Es E]; [|apply source_tag_line..].
  apply newline_split in E as [Ei E]; [|apply identity_line..].
  destruct (row_parts_pairs a ra p true (map fst (sample_rows a p))) as (ps & Hp & Hpf & Hpo).
  destruct (row_parts_pairs b rb q true (map fst (sample_rows b q))) as (qs & Hq & Hqf & Hqo).
  rewrite Hp, Hq, !firstn_map in E. apply parts_inj in E; [|by apply Forall_take..].
  assert (Hlp : length ps = length (period_samples a p)).
  { unfold period_samples. rewrite <- (length_map fst ps), Hpf, !length_map. done. }
  assert (Hlq : length qs = length (period_samples b q)).
  { unfold period_samples. rewrite <- (length_map fst qs), Hqf, !length_map. done. }
  assert (Hij : i = j).
  { apply (f_equal length) in E. rewrite !length_take in E. lia. }
  split_and!; [by destruct sa, sb|done|done|].
  apply (f_equal (map fst)) in E. rewrite <- !firstn_map, Hpf, Hqf in E.
  rewrite <- !sample_rows_at, <- !firstn_map, (map_map (sample_at _)), (map_map (sample_at _)). exact E.
Qed.
End commitment.

(** ** Keys in order *)
Definition key_lt (a b : PublicHistoryObservationV3) : Prop := key_order (sample_key a) (sample_key b) = Lt.
Lemma key_order_Eq a b : key_order a b = Eq ↔ a = b.
Proof.
  destruct a as [x y], b as [x' y']. unfold key_order. cbn [fst snd].
  destruct (Z.compare_spec x x') as [->|?|?]; [rewrite Z.compare_eq_iff|..]; split; intros; simplify_eq; try done; lia.
Qed.
Lemma key_order_Lt a b : key_order a b = Lt ↔ a.1 < b.1 ∨ (a.1 = b.1 ∧ a.2 < b.2).
Proof.
  unfold key_order. destruct (Z.compare_spec a.1 b.1); [rewrite Z.compare_lt_iff|..]; split; intros; try done; lia.
Qed.
Lemma key_order_Gt a b : key_order a b = Gt ↔ key_order b a = Lt.
Proof.
  rewrite key_order_Lt. unfold key_order.
  destruct (Z.compare_spec a.1 b.1); [rewrite Z.compare_gt_iff|..]; split; intros; try done; lia.
Qed.
Lemma key_order_trans a b c : key_order a b = Lt → key_order b c = Lt → key_order a c = Lt.
Proof. rewrite !key_order_Lt. lia. Qed.

Lemma enumerate_snd {A} (l : list A) : map snd (enumerate l) = l.
Proof. unfold enumerate. apply (snd_zip (seq 0 (length l)) l). by rewrite length_seq. Qed.
Lemma StronglySorted_map_iff {A B} (R : B → B → Prop) (f : A → B) l :
  StronglySorted R (map f l) ↔ StronglySorted (λ a b, R (f a) (f b)) l.
Proof.
  induction l as [|a l IH]; cbn; [split; constructor|].
  split; inversion 1; subst; constructor; try (by apply IH); by apply Forall_map.
Qed.
Lemma period_samples_sorted archive p :
  StronglySorted key_lt (ha_samples archive) → StronglySorted key_lt (period_samples archive p).
Proof.
  intros Hs. unfold period_samples, sample_rows. apply StronglySorted_map_iff, StronglySorted_filter_bool.
  apply StronglySorted_map_iff. by rewrite enumerate_snd.
Qed.

(** ** The binary search *)
Section searching.
Context (self : PeriodIndex) (samples : list PublicHistoryObservationV3).
Definition position_key (i : nat) : Z * Z := sample_key (sample_at samples (pi_samples self !!! i)).
Context (Hsorted : ∀ i j, (i < j < length (pi_samples self))%nat → key_order (position_key i) (position_key j) = Lt).

(** A position with the key is found, and its fingerprint decides; otherwise nothing is. *)
Lemma search_spec fuel key fingerprint low high :
  (high ≤ length (pi_samples self))%nat → (high - low < fuel)%nat →
  match search fuel self samples key fingerprint low high with
  | Some next => ∃ i, (low ≤ i < high)%nat ∧ next = S i ∧ position_key i = key
      ∧ fingerprint = hex (pi_fingerprints self !!! i)
  | None => ∀ i, (low ≤ i < high)%nat → position_key i = key → fingerprint ≠ hex (pi_fingerprints self !!! i)
  end.
Proof.
  revert low high. induction fuel as [|fuel IH]; intros low high Hh Hf; [lia|]. cbn [search].
  destruct (low <? high)%nat eqn:El; [apply Nat.ltb_lt in El|apply Nat.ltb_ge in El; intros; lia].
  set (mid := (low + (high - low) / 2)%nat). fold (position_key mid).
  assert (Hm : (low ≤ mid < high)%nat).
  { unfold mid. assert ((high - low) / 2 < high - low)%nat by (apply Nat.div_lt; lia). lia. }
  destruct (key_order (position_key mid) key) eqn:E.
  - apply key_order_Eq in E. destruct (text_eqb _ _) eqn:Ef; cbn [then_some].
    + apply text_eqb_true in Ef. exists mid. split_and!; [lia|lia|lia|done|done].
    + intros i Hi Ei Eq. destruct (Nat.lt_trichotomy i mid) as [Hlt|[->|Hlt]].
      * specialize (Hsorted i mid ltac:(lia)). rewrite Ei, <- E in Hsorted. by rewrite (proj2 (key_order_Eq _ _)) in Hsorted.
      * by rewrite (proj2 (text_eqb_true _ _) Eq) in Ef.
      * specialize (Hsorted mid i ltac:(lia)). rewrite Ei, <- E in Hsorted. by rewrite (proj2 (key_order_Eq _ _)) in Hsorted.
  - specialize (IH (mid + 1)%nat high Hh ltac:(lia)). destruct (search _ _ _ _ _ _ _).
    + destruct IH as (i & Hi & IH). exists i. split; [lia|done].
    + intros i Hi Ei. destruct (decide (mid < i)%nat); [apply IH; [lia|done]|].
      exfalso. assert (Hle : key_order (position_key i) key = Lt).
      { destruct (decide (i = mid)) as [->|]; [done|]. eapply key_order_trans; [apply Hsorted|exact E]. lia. }
      rewrite Ei in Hle. by rewrite (proj2 (key_order_Eq _ _)) in Hle.
  - specialize (IH low mid ltac:(lia) ltac:(lia)). destruct (search _ _ _ _ _ _ _).
    + destruct IH as (i & Hi & IH). exists i. split; [lia|done].
    + intros i Hi Ei. destruct (decide (i < mid)%nat); [apply IH; [lia|done]|].
      exfalso. apply key_order_Gt in E. assert (Hle : key_order key (position_key i) = Lt).
      { destruct (decide (i = mid)) as [->|]; [done|]. eapply key_order_trans; [exact E|apply Hsorted]. lia. }
      rewrite Ei in Hle. by rewrite (proj2 (key_order_Eq _ _)) in Hle.
Qed.
End searching.

(** ** The text of a cursor *)
Lemma no_dot_digits s : Forall digit s → 46 ∉ s.
Proof. intros H Hi. rewrite Forall_forall in H. specialize (H _ Hi). unfold digit in H. lia. Qed.
Lemma i64_to_string_no_dot v : 46 ∉ i64_to_string v.
Proof.
  unfold i64_to_string. case_match; [rewrite not_elem_of_cons; split; [lia|]|]; apply no_dot_digits, to_dec_digits; lia.
Qed.
Lemma parse_i64_to_string v : is_i64 v → parse_i64 (i64_to_string v) = Some v.
Proof.
  intros Hv. unfold i64_to_string. destruct (v <? 0) eqn:E.
  - assert (Hd : Forall digit (to_dec (- v))) by (apply to_dec_digits; lia).
    pose proof (dec_digits_nonnil (Z.to_nat (Z.log2 (- v))) (- v) []) as Hne. fold (to_dec (- v)) in Hne.
    destruct (to_dec (- v)) as [|c l] eqn:Ed; [done|]. cbn [parse_i64].
    rewrite parse_digits_value; [|done|done|].
    + rewrite <- Ed, to_dec_value by lia. cbn. f_equal. lia.
    + rewrite <- Ed, to_dec_value by lia. revert Hv. width.
  - pose proof (parse_to_dec i64_max v) as Hp. pose proof (to_dec_digits v) as Hd.
    destruct (to_dec v) as [|c l]; [by discriminate Hp; revert Hv; width|].
    assert (Hc : c ≠ 45). { apply Forall_cons in Hd as [Hd _]; [|lia]. unfold digit in Hd. lia. }
    replace (parse_i64 (c :: l)) with (parse_unsigned i64_max (c :: l)); [apply Hp; revert Hv; width|].
    unfold parse_i64. repeat case_match; congruence.
Qed.
Definition digest_ok (l : list Z) : Prop := length l = 32%nat ∧ Forall (λ b, 0 ≤ b < 256) l.
Lemma hex_epoch_text l : hex l = epoch_text l.
Proof. done. Qed.
Lemma hex_ok l : digest_ok l → forallb is_lower_hex (hex l) = true ∧ str_len (hex l) = 64 ∧ 46 ∉ hex l.
Proof.
  intros [Hl Hb]. rewrite hex_epoch_text. pose proof (epoch_text_hex l Hb) as Hx.
  assert (Hc : ∀ c, c ∈ epoch_text l → is_lower_hex c = true).
  { intros c Hc. by apply forallb_Forall, Forall_forall with (x := c) in Hx. }
  split_and!; [done|..].
  - rewrite str_len_ascii; [unfold chars_count; rewrite length_epoch_text; lia|].
    apply forallb_Forall, Forall_forall. intros c Hi. specialize (Hc c Hi).
    revert Hc. unfold is_lower_hex, is_ascii_digit, in_range. lia.
  - intros Hi. by specialize (Hc 46 Hi).
Qed.
Lemma hex_inj l l' : digest_ok l → digest_ok l' → hex l = hex l' → l = l'.
Proof. intros [_ H] [_ H']. rewrite !hex_epoch_text. by apply epoch_text_inj. Qed.

Section cursor_text.
Context (self : PeriodIndex) (samples : list PublicHistoryObservationV3).
Notation key i := (position_key self samples i).
Context (Hsorted : ∀ i j, (i < j < length (pi_samples self))%nat → key_order (key i) (key j) = Lt).
Context (Hdigest : ∀ i, (i < length (pi_samples self))%nat → digest_ok (pi_fingerprints self !!! i)).
Context (Hkeys : ∀ i, (i < length (pi_samples self))%nat → is_i64 (key i).1 ∧ is_i64 (key i).2).

Lemma resume_fields i : (i < length (pi_samples self))%nat →
  split 46 (resume self samples i)
  = [lit "h1"; i64_to_string (key i).1; i64_to_string (key i).2; hex (pi_fingerprints self !!! i)].
Proof.
  intros Hi. unfold resume. change (lit "h1.") with (lit "h1" ++ [46]). change (lit ".") with [46].
  rewrite <- app_assoc. cbn [app]. rewrite split_app.
  2: { replace (lit "h1") with [104; 49] by done. rewrite !not_elem_of_cons. split_and!; [lia..|]. apply not_elem_of_nil. }
  rewrite split_app by apply i64_to_string_no_dot. rewrite split_app by apply i64_to_string_no_dot.
  rewrite split_absent; [done|]. by apply hex_ok, Hdigest.
Qed.
(** A cursor is accepted exactly when it is the cursor of one of the positions, and then
    the page after it starts at the next one. *)
Lemma start_after_spec cursor next :
  start_after self samples cursor = Some next ↔
  ∃ i, (i < length (pi_samples self))%nat ∧ next = S i ∧ cursor = resume self samples i.
Proof.
  split.
  - unfold start_after. destruct (split 46 cursor) as [|tag [|reset [|timestamp [|fp []]]]] eqn:Es; try done.
    destruct (negb _ || _ || _) eqn:Ec; [done|]. apply orb_false_iff in Ec as [[Et _]%orb_false_iff _].
    apply negb_false_iff, text_eqb_true in Et as ->.
    destruct (parse_i64 reset) as [r|]; [|done]. destruct (parse_i64 timestamp) as [t|]; [|done]. cbn [mbind option_bind].
    destruct (negb _ || _) eqn:En; [done|]. apply orb_false_iff in En as [Er Et].
    apply negb_false_iff, text_eqb_true in Er, Et. cbv zeta.
    pose proof (search_spec self samples Hsorted (S (length (pi_samples self))) (r, t) fp 0 (length (pi_samples self)) ltac:(lia) ltac:(lia)) as Hs.
    intros E. rewrite E in Hs. destruct Hs as (i & Hi & -> & Hk & ->). exists i. split_and!; [lia|done|].
    rewrite <- (join_split 46 cursor), Es, <- (join_split 46 (resume self samples i)), resume_fields by lia.
    by rewrite Hk, Er, Et.
  - intros (i & Hi & -> & ->). unfold start_after. rewrite resume_fields by done.
    destruct (hex_ok _ (Hdigest i Hi)) as (Hx & Hl & _). rewrite (proj2 (text_eqb_true _ _) eq_refl), Hx, Hl.
    destruct (Hkeys i Hi) as [H1 H2]. cbn [negb orb]. change (negb (64 =? 64)) with false. cbn [orb].
    rewrite (parse_i64_to_string _ H1), (parse_i64_to_string _ H2). cbn [mbind option_bind].
    rewrite !(proj2 (text_eqb_true _ _) eq_refl). cbn [negb orb]. cbv zeta.
    pose proof (search_spec self samples Hsorted (S (length (pi_samples self))) ((key i).1, (key i).2)
      (hex (pi_fingerprints self !!! i)) 0 (length (pi_samples self)) ltac:(lia) ltac:(lia)) as Hs.
    destruct (search _ _ _ _ _ _ _) as [next|].
    + destruct Hs as (j & Hj & -> & Hk & _). f_equal. f_equal.
      destruct (Nat.lt_trichotomy i j) as [Hij|[->|Hij]]; [|done|]; exfalso.
      * specialize (Hsorted i j ltac:(lia)). rewrite Hk in Hsorted. by rewrite (proj2 (key_order_Eq _ _)) in Hsorted by (by destruct (key i)).
      * specialize (Hsorted j i ltac:(lia)). rewrite Hk in Hsorted. by rewrite (proj2 (key_order_Eq _ _)) in Hsorted by (by destruct (key i)).
    + by destruct (Hs i ltac:(lia)); [destruct (key i)|].
Qed.
End cursor_text.
