(* ===== verification/HistoryPages.v ===== *)
(** * Following the pages of a period

    The pages a client gets by following cursors are the observations of the period,
    each once and in order, and a cursor from an older publication is resumed only where
    it completes what the client already holds. *)

From S2P Require Import Prelude Text Contract Details RecordedUsage Recordings SqlRow HistoryIndex HistoryRows HistoryCursor.

(** The pages a client collects from a cursor, until one names no next cursor. *)
Inductive follows (doc : option text → result RouteError HistoryPage) :
    option text → list (list PublicHistoryObservationV3) → Prop :=
| follows_last c page : doc c = Ok page → pg_next_cursor page = None →
    follows doc c [pg_history_samples page]
| follows_more c page next pages : doc c = Ok page → pg_next_cursor page = Some next →
    follows doc (Some next) pages → follows doc c (pg_history_samples page :: pages).
Lemma follows_fun doc c pages pages' : follows doc c pages → follows doc c pages' → pages' = pages.
Proof.
  intros H. revert pages'. induction H as [c page Hd Hn|c page next pages Hd Hn Hf IH]; intros pages' H'.
  - inversion H' as [c' page' Hd' Hn'|c' page' next' pages'' Hd' Hn' Hf']; subst;
      rewrite Hd in Hd'; injection Hd' as <-; [done|congruence].
  - inversion H' as [c' page' Hd' Hn'|c' page' next' pages'' Hd' Hn' Hf']; subst;
      rewrite Hd in Hd'; injection Hd' as <-; [congruence|].
    rewrite Hn in Hn'. injection Hn' as <-. f_equal. by apply IH.
Qed.

(** A publication that serves a period under an id: ids name one period, and the
    observations are in the order of their keys. *)
Record served (retained : HistoryArchive) (id : text) (raw : bool) (archive : HistoryArchive)
    (p : PublicHistoryPeriod) : Prop := {
  sv_archive : selected_history_archive retained id = (archive, raw);
  sv_ids : NoDup (map hp_id (ha_periods archive));
  sv_period : p ∈ ha_periods archive;
  sv_id : hp_id p = id;
  sv_sorted : StronglySorted key_lt (ha_samples archive);
  sv_keys : Forall (λ s, is_i64 (o3_reset_at s) ∧ is_i64 (o3_timestamp s)) (ha_samples archive)
}.
Definition source_of (raw : bool) : HistorySource := if raw then Raw else Canonical.
(** Pages of 1,024 observations; an empty period still has one. *)
Definition page_count (observations : nat) : nat := S ((observations - 1) / MAX_HISTORY_PAGE).

Section pages.
Context (sha256 : list Z → list Z) (identity_json : Z * text * Z * list PublicHistoryGap → list Z).
Context (sample_json : PublicHistoryObservationV3 → list Z).
Context (digest : ∀ l, digest_ok (sha256 l)).
Notation build := (HistoryIndex_build sha256 identity_json sample_json).
Notation index := (period_index sha256 identity_json sample_json).

Section one.
Context (retained : HistoryArchive) (recordings : option RecordedArchive) (epoch : Z).
Context (id : text) (raw : bool) (archive : HistoryArchive) (p : PublicHistoryPeriod).
Context (Hserved : served retained id raw archive p).
Notation self := (index archive recordings epoch (source_of raw) p).
Notation doc := (history_document retained (build retained recordings epoch) (Some id)).

Lemma served_index :
  (if raw then hi_raw_periods (build retained recordings epoch) else hi_periods (build retained recordings epoch)) !! id
  = Some self.
Proof.
  destruct Hserved as [Ha Hn Hp Hid _ _]. rewrite <- Hid. revert Ha. unfold selected_history_archive.
  destruct raw; destruct (opt_is_some _); intros Ha; simplify_eq; by apply build_archive_lookup.
Qed.
Lemma samples_length : length (pi_samples self) = length (period_samples archive p).
Proof. unfold period_samples. cbn. by rewrite !length_map. Qed.
Lemma cursor_position_lookup i : (i < length (pi_samples self))%nat →
  period_samples archive p !! i = Some (sample_at (ha_samples archive) (pi_samples self !!! i)).
Proof.
  intros Hi. apply lookup_lt_is_Some in Hi as [row Hr]. rewrite (list_lookup_total_correct _ _ _ Hr).
  by apply sample_rows_lookup.
Qed.
Lemma positions_sorted i j : (i < j < length (pi_samples self))%nat →
  key_order (position_key self (ha_samples archive) i) (position_key self (ha_samples archive) j) = Lt.
Proof.
  intros Hij. pose proof (period_samples_sorted archive p (sv_sorted _ _ _ _ _ Hserved)) as Hs.
  eapply (StronglySorted_nth key_lt); [exact Hs|apply cursor_position_lookup; lia|apply cursor_position_lookup; lia|lia].
Qed.
Lemma position_keys i : (i < length (pi_samples self))%nat →
  is_i64 (position_key self (ha_samples archive) i).1 ∧ is_i64 (position_key self (ha_samples archive) i).2.
Proof.
  intros Hi. pose proof (sv_keys _ _ _ _ _ Hserved) as Hk. rewrite Forall_forall in Hk. apply Hk.
  apply cursor_position_lookup, list_elem_of_lookup_2 in Hi. unfold period_samples in Hi.
  apply list_elem_of_fmap in Hi as ([j s] & -> & Hs%elem_of_filter_bool). destruct Hs as [Hs%elem_of_enumerate _].
  by eapply list_elem_of_lookup_2.
Qed.
Lemma served_start cursor next : start_after self (ha_samples archive) cursor = Some next ↔
  ∃ i, (i < length (period_samples archive p))%nat ∧ next = S i ∧ cursor = resume self (ha_samples archive) i.
Proof.
  rewrite <- samples_length. apply start_after_spec; [apply positions_sorted| |apply position_keys].
  intros i Hi. rewrite period_fingerprint by done. apply digest.
Qed.
Lemma served_selection cursor : history_selection retained (build retained recordings epoch) (Some id) cursor =
  match cursor with
  | Some cursor => start ← ok_or (start_after self (ha_samples archive) cursor) StaleCursor; Ok (archive, self, start)
  | None => Ok (archive, self, 0%nat)
  end.
Proof.
  unfold history_selection. change (ok_or (Some id) UnknownPeriod) with (@Ok RouteError _ id). cbn [mbind result_bind].
  rewrite (sv_archive _ _ _ _ _ Hserved), served_index. by destruct cursor.
Qed.
Lemma served_page start cursor :
  match cursor with Some c => start_after self (ha_samples archive) c = Some start | None => start = 0%nat end →
  doc cursor = Ok (page_of archive self start cursor).
Proof.
  intros Hc. unfold history_document. change (ok_or (Some id) UnknownPeriod) with (@Ok RouteError _ id).
  cbn [mbind result_bind]. rewrite served_selection. destruct cursor as [c|]; [|by subst]. by rewrite Hc.
Qed.
Lemma page_samples start : map (sample_at (ha_samples archive)) (take (page_end self start - start) (drop start (pi_samples self)))
  = take (page_end self start - start) (drop start (period_samples archive p)).
Proof. rewrite <- firstn_map, <- skipn_map. f_equal. f_equal. apply sample_rows_at. Qed.

Lemma pages_from k start cursor : (length (period_samples archive p) - start ≤ k)%nat →
  (start ≤ length (period_samples archive p))%nat →
  match cursor with Some c => start_after self (ha_samples archive) c = Some start | None => start = 0%nat end →
  ∃ pages, follows doc cursor pages ∧ concat pages = drop start (period_samples archive p)
    ∧ length pages = page_count (length (period_samples archive p) - start).
Proof.
  revert start cursor. induction k as [k IH] using lt_wf_ind. intros start cursor Hk Hs Hc.
  pose proof (served_page start cursor Hc) as Hd. set (n := length (period_samples archive p)) in *.
  assert (Hend : page_end self start = Nat.min (start + 1024) n) by (unfold page_end; by rewrite samples_length).
  destruct (decide (page_end self start < n)%nat) as [Hlt|Hge].
  - assert (He : page_end self start = (start + 1024)%nat) by lia.
    destruct (IH (k - 1024)%nat ltac:(lia) (page_end self start) (Some (resume self (ha_samples archive) (page_end self start - 1))))
      as (pages & Hf & Hp & Hl); [lia|lia|by apply served_start; exists (page_end self start - 1)%nat; split_and!; [lia|lia|]|].
    eexists. split; [eapply follows_more; [exact Hd| |exact Hf]|split].
    + cbn [page_of pg_next_cursor]. rewrite samples_length. fold n.
      rewrite (proj2 (Nat.ltb_lt _ _) Hlt), (proj2 (Nat.ltb_lt 0 _)) by lia. done.
    + cbn [concat page_of pg_history_samples]. rewrite page_samples, Hp.
      rewrite <- (take_drop (page_end self start - start) (drop start _)) at 2. f_equal. rewrite drop_drop. f_equal. lia.
    + cbn [length]. rewrite Hl. unfold page_count, MAX_HISTORY_PAGE. rewrite He. f_equal.
      replace (n - start - 1)%nat with (1 * 1024 + (n - (start + 1024) - 1))%nat by lia.
      rewrite Nat.div_add_l by lia. lia.
  - eexists. split; [eapply follows_last; [exact Hd|]|split].
    + cbn [page_of pg_next_cursor]. rewrite samples_length. fold n. by rewrite (proj2 (Nat.ltb_ge _ _)) by lia.
    + cbn [concat page_of pg_history_samples]. rewrite page_samples, app_nil_r. apply take_ge. rewrite length_drop. fold n. lia.
    + cbn [length]. unfold page_count, MAX_HISTORY_PAGE. rewrite Nat.div_small by lia. done.
Qed.
End one.
End pages.

Section properties.
Context (sha256 : list Z → list Z) (identity_json : Z * text * Z * list PublicHistoryGap → list Z).
Context (sample_json : PublicHistoryObservationV3 → list Z).

(** Following the pages of a period from the first one ends, after one request per
    1,024 observations, and collects exactly the observations of the period, each once
    and in order. *)
Theorem pages_exact retained recordings epoch id raw archive p :
  (∀ l, digest_ok (sha256 l)) → served retained id raw archive p →
  let doc := history_document retained (HistoryIndex_build sha256 identity_json sample_json retained recordings epoch)
               (Some id) in
  ∃ pages, follows doc None pages ∧ concat pages = period_samples archive p
    ∧ length pages = page_count (length (period_samples archive p))
    ∧ ∀ pages', follows doc None pages' → pages' = pages.
Proof.
  intros Hd Hs doc. destruct (pages_from sha256 identity_json sample_json Hd retained recordings epoch id raw archive p Hs
    (length (period_samples archive p)) 0 None) as (pages & Hf & Hc & Hl); [lia|lia|done|].
  exists pages. rewrite drop_0, Nat.sub_0_r in *. split_and!; [done..|]. intros pages' Hf'. by eapply follows_fun.
Qed.

(** The bytes hashed for a position of a period. *)
Definition hashed (archive : HistoryArchive) (recordings : option RecordedArchive) (epoch : Z)
    (p : PublicHistoryPeriod) (raw : bool) (i : nat) : list Z :=
  prefix_bytes identity_json sample_json archive recordings epoch (source_of raw) p
    (map fst (gap_rows archive p)) (map fst (sample_rows archive p)) i.
(** The digest tells what a cursor was made from apart from what it may be compared to. *)
Definition no_collision (bytes : list Z) (b : HistoryArchive) (rb : option RecordedArchive) (eb : Z)
    (pb : PublicHistoryPeriod) (raw : bool) : Prop :=
  ∀ j, sha256 bytes = sha256 (hashed b rb eb pb raw j) → bytes = hashed b rb eb pb raw j.

Lemma resume_position archive recordings epoch raw p (samples : list PublicHistoryObservationV3) i : (i < length (period_samples archive p))%nat →
  pi_fingerprints (period_index sha256 identity_json sample_json archive recordings epoch (source_of raw) p) !!! i
  = sha256 (hashed archive recordings epoch p raw i)
  ∧ (samples = ha_samples archive → ∀ s, period_samples archive p !! i = Some s →
     position_key (period_index sha256 identity_json sample_json archive recordings epoch (source_of raw) p) samples i
     = sample_key s).
Proof.
  intros Hi. rewrite <- (samples_length sha256 identity_json sample_json recordings epoch raw) in Hi. split.
  - by rewrite period_fingerprint.
  - intros -> s Hs. rewrite (cursor_position_lookup sha256 identity_json sample_json recordings epoch raw archive p i Hi) in Hs.
    by injection Hs as <-.
Qed.
End properties.

(** A cursor of an older publication is accepted only at its own position, with the same
    printed prefix, the same period and the same gaps. *)
Lemma resumed_prefix sha256 identity_json sample_json ra ea a pa rb_retained rb eb b pb id raw i next :
  (∀ l, digest_ok (sha256 l)) → (∀ s, line_ok (sample_json s)) → (∀ v, 10 ∉ identity_json v) →
  served rb_retained id raw b pb → (i < length (period_samples a pa))%nat →
  no_collision sha256 identity_json sample_json (hashed identity_json sample_json a ra ea pa raw i) b rb eb pb raw →
  let index archive recordings epoch p :=
    period_index sha256 identity_json sample_json archive recordings epoch (source_of raw) p in
  start_after (index b rb eb pb) (ha_samples b) (resume (index a ra ea pa) (ha_samples a) i) = Some next →
  next = S i ∧ (i < length (period_samples b pb))%nat
  ∧ map sample_json (take (S i) (period_samples a pa)) = map sample_json (take (S i) (period_samples b pb))
  ∧ identity_json (period_identity a ea pa) = identity_json (period_identity b eb pb).
Proof.
  intros Hdig Hline Hid Hb Hi Hno index Es.
  apply (served_start sha256 identity_json sample_json Hdig rb_retained rb eb id raw b pb Hb) in Es as (j & Hj & -> & Ec).
  assert (E : sha256 (hashed identity_json sample_json a ra ea pa raw i) = sha256 (hashed identity_json sample_json b rb eb pb raw j)).
  { pose proof (resume_fields (index a ra ea pa) (ha_samples a)) as Hfa.
    pose proof (resume_fields (index b rb eb pb) (ha_samples b)) as Hfb.
    destruct (resume_position sha256 identity_json sample_json a ra ea raw pa (ha_samples a) i Hi) as [Ea _].
    destruct (resume_position sha256 identity_json sample_json b rb eb raw pb (ha_samples b) j Hj) as [Eb _].
    apply hex_inj; [apply Hdig..|]. rewrite <- Ea, <- Eb.
    specialize (Hfa ltac:(intros k Hk; unfold index; rewrite period_fingerprint by done; apply Hdig) i).
    specialize (Hfb ltac:(intros k Hk; unfold index; rewrite period_fingerprint by done; apply Hdig) j).
    unfold index in Hfa, Hfb. rewrite samples_length in Hfa, Hfb. specialize (Hfa Hi). specialize (Hfb Hj).
    unfold index in Ec. rewrite Ec, Hfb in Hfa. by injection Hfa. }
  by apply Hno, (prefix_commits identity_json sample_json Hline Hid) in E as (Hp & Ei & -> & Em).
Qed.

(** C33. A client that holds the observations of an older publication up to a cursor gets a
    stale-cursor answer, or pages that complete them to exactly the observations of the
    newer one, as they are printed, with the same period and the same gaps; a cursor
    whose prefix is unchanged is accepted. *)
Theorem resumed_client_complete sha256 identity_json sample_json ra_retained ra ea a pa rb_retained rb eb b pb id raw i :
  (∀ l, digest_ok (sha256 l)) → (∀ s, line_ok (sample_json s)) → (∀ v, 10 ∉ identity_json v) →
  served ra_retained id raw a pa → served rb_retained id raw b pb →
  (i < length (period_samples a pa))%nat → no_collision sha256 identity_json sample_json (hashed identity_json sample_json a ra ea pa raw i) b rb eb pb raw →
  let index archive recordings epoch p :=
    period_index sha256 identity_json sample_json archive recordings epoch (source_of raw) p in
  let cursor := resume (index a ra ea pa) (ha_samples a) i in
  let doc := history_document rb_retained
               (HistoryIndex_build sha256 identity_json sample_json rb_retained rb eb) (Some id) in
  match doc (Some cursor) with
  | Ok _ => ∃ pages, follows doc (Some cursor) pages
      ∧ map sample_json (take (S i) (period_samples a pa) ++ concat pages) = map sample_json (period_samples b pb)
      ∧ identity_json (period_identity a ea pa) = identity_json (period_identity b eb pb)
  | Err e => e = StaleCursor
      ∧ ¬ (period_samples a pa !! i = period_samples b pb !! i
           ∧ hashed identity_json sample_json a ra ea pa raw i = hashed identity_json sample_json b rb eb pb raw i)
  end.
Proof.
  intros Hdig Hline Hid Ha Hb Hi Hno index cursor doc.
  pose proof (served_start sha256 identity_json sample_json Hdig rb_retained rb eb id raw b pb Hb) as Hst.
  destruct (start_after (index b rb eb pb) (ha_samples b) cursor) as [next|] eqn:Es.
  - unfold doc. erewrite served_page; [|exact Hb|exact Es].
    destruct (resumed_prefix sha256 identity_json sample_json ra ea a pa rb_retained rb eb b pb id raw i next Hdig Hline Hid
      Hb Hi Hno Es) as (-> & Hj & Em & Ep).
    destruct (pages_from sha256 identity_json sample_json Hdig rb_retained rb eb id raw b pb Hb
      (length (period_samples b pb)) (S i) (Some cursor)) as (pages & Hf & Hc & _); [lia|lia|done|].
    exists pages. split; [done|]. split; [|done]. by rewrite Hc, map_app, Em, <- map_app, take_drop.
  - unfold doc, history_document. change (ok_or (Some id) UnknownPeriod) with (@Ok RouteError _ id). cbn [mbind result_bind].
    erewrite served_selection by exact Hb. fold (index b rb eb pb). rewrite Es. cbn [ok_or mbind result_bind]. split; [done|].
    intros [Ek Eh]. assert (Hj : (i < length (period_samples b pb))%nat).
    { apply lookup_lt_is_Some in Hi as [s Hs]. rewrite Hs in Ek. by eapply lookup_lt_Some. }
    enough (start_after (index b rb eb pb) (ha_samples b) cursor = Some (S i)) by congruence.
    apply Hst. exists i. split_and!; [done..|].
    apply lookup_lt_is_Some in Hi as Hs. destruct Hs as [s Hs].
    destruct (resume_position sha256 identity_json sample_json a ra ea raw pa (ha_samples a) i Hi) as [Ea Ka].
    destruct (resume_position sha256 identity_json sample_json b rb eb raw pb (ha_samples b) i Hj) as [Eb Kb].
    specialize (Ka eq_refl s Hs). rewrite Ek in Hs. specialize (Kb eq_refl s Hs).
    unfold cursor, resume, index. cbv zeta. rewrite Ea, Eb, Eh. unfold position_key, sample_key in Ka, Kb.
    pose proof (f_equal fst (eq_trans Ka (eq_sym Kb))) as E1. pose proof (f_equal snd (eq_trans Ka (eq_sym Kb))) as E2.
    cbn [fst snd] in E1, E2. by rewrite E1, E2.
Qed.

(** ** Witnesses: two observations of one period, and a digest that tells lengths apart *)
Definition demo_digest (bytes : list Z) : list Z := le_bytes 32 (Z.of_nat (length bytes)).
Definition demo_sample (timestamp : Z) : PublicHistoryObservationV3 := {|
  o3_timestamp := timestamp; o3_reset_at := 10000; o3_remaining_percent := None;
  o3_task_active_since_previous := None; o3_models := None; o3_models_complete := false; o3_model_source := lit "unavailable" |}.
Definition demo_period : PublicHistoryPeriod := {|
  hp_id := lit "week"; hp_start_at := 60; hp_end_at := 9000; hp_reset_at := 10000; hp_label := lit "week"; hp_current := true |}.
Definition demo_archive : HistoryArchive := {|
  ha_aliases := ∅; ha_raw := None; ha_periods := [demo_period]; ha_samples := [demo_sample 60; demo_sample 120];
  ha_gaps := []; ha_origins := ∅ |}.
Definition demo_identity (v : Z * text * Z * list PublicHistoryGap) : list Z := [].
Definition demo_json (s : PublicHistoryObservationV3) : list Z := 123 :: to_dec (o3_timestamp s).
Lemma le_bytes_ok n v : length (le_bytes n v) = n ∧ Forall (λ b, 0 ≤ b < 256) (le_bytes n v).
Proof.
  revert v. induction n as [|n IH]; intros v; cbn [le_bytes]; [done|]. destruct (IH (v / 256)) as [Hl Hb].
  split; [cbn; congruence|]. constructor; [by apply Z.mod_pos_bound|done].
Qed.
Lemma demo_digest_ok l : digest_ok (demo_digest l).
Proof. apply le_bytes_ok. Qed.
Lemma demo_served : served demo_archive (lit "week") false demo_archive demo_period.
Proof.
  split; try done.
  - apply NoDup_singleton.
  - by apply list_elem_of_singleton.
  - repeat constructor.
  - cbn [ha_samples demo_archive]. rewrite !Forall_cons. split_and!; [cbn; width..|apply Forall_nil_2].
Qed.
Lemma demo_line s : 0 ≤ o3_timestamp s → line_ok (demo_json s).
Proof.
  intros Hs. split; [by eexists|]. apply not_elem_of_cons. split; [lia|]. intros Hi.
  pose proof (to_dec_digits _ Hs) as Hd. rewrite Forall_forall in Hd. specialize (Hd _ Hi). unfold digit in Hd. lia.
Qed.
Definition demo_line_json (s : PublicHistoryObservationV3) : list Z :=
  if 0 <=? o3_timestamp s then demo_json s else [123].
Lemma demo_line_ok s : line_ok (demo_line_json s).
Proof.
  unfold demo_line_json. destruct (0 <=? o3_timestamp s) eqn:E; [apply demo_line; lia|].
  split; [by eexists|]. apply not_elem_of_cons. split; [lia|apply not_elem_of_nil].
Qed.
Lemma demo_no_collision : no_collision demo_digest demo_identity demo_line_json
  (hashed demo_identity demo_line_json demo_archive None 1 demo_period false 0) demo_archive None 1 demo_period false.
Proof.
  intros j. destruct j as [|j]; [done|].
  unfold hashed, prefix_bytes. rewrite (take_ge _ (S (S j))) by (rewrite row_parts_length; change (2 ≤ S (S j))%nat; lia).
  intros E. vm_compute in E. discriminate E.
Qed.
Lemma pages_exact_witness :
  ∃ pages, follows (history_document demo_archive
      (HistoryIndex_build demo_digest demo_identity demo_line_json demo_archive None 1) (Some (lit "week"))) None pages
    ∧ concat pages = [demo_sample 60; demo_sample 120] ∧ length pages = 1%nat.
Proof.
  destruct (pages_exact demo_digest demo_identity demo_line_json demo_archive None 1 (lit "week") false demo_archive
    demo_period demo_digest_ok demo_served) as (pages & Hf & Hc & Hl & _).
  exists pages. split; [exact Hf|]. split; [rewrite Hc; vm_compute; reflexivity|rewrite Hl; vm_compute; reflexivity].
Defined.
Lemma resumed_client_complete_witness :
  let doc := history_document demo_archive
    (HistoryIndex_build demo_digest demo_identity demo_line_json demo_archive None 1) (Some (lit "week")) in
  let cursor := resume (period_index demo_digest demo_identity demo_line_json demo_archive None 1 Canonical demo_period)
    (ha_samples demo_archive) 0 in
  ∃ pages, follows doc (Some cursor) pages
    ∧ map demo_line_json (demo_sample 60 :: concat pages) = map demo_line_json [demo_sample 60; demo_sample 120].
Proof.
  assert (Hi : (0 < length (period_samples demo_archive demo_period))%nat) by (vm_compute; lia).
  pose proof (resumed_client_complete demo_digest demo_identity demo_line_json demo_archive None 1 demo_archive demo_period
    demo_archive None 1 demo_archive demo_period (lit "week") false 0 demo_digest_ok demo_line_ok
    (λ _, not_elem_of_nil 10) demo_served demo_served Hi demo_no_collision) as H.
  cbv zeta in H |- *. destruct (history_document _ _ _ _) as [page|e] eqn:E.
  - destruct H as (pages & Hf & Hm & _). exists pages. split; [exact Hf|].
    replace (period_samples demo_archive demo_period) with [demo_sample 60; demo_sample 120] in Hm
      by (vm_compute; reflexivity). exact Hm.
  - exfalso. apply (proj2 H). split; vm_compute; reflexivity.
Defined.
