(* ===== verification/PublishFrame.v ===== *)
(** * Frames of the REST publication

    Models the frames of [crates/codex-info-rest/src/lib.rs] and the evidence of
    [crates/codex-info-db-reader/src/lib.rs] they are compared by: the issuer of public
    identities ([PairIssuer]), a published frame ([PublishedSnapshot]), the reprojection
    witness, and the three relations between a published frame and a candidate
    ([same_public_domain], [history_facts_preserved], [same_commit_reprojection]).
    SHA-256 and [serde_json::to_vec] are parameters. *)

From S2P Require Import Prelude Text Float64 Contract Details RecordedUsage Recordings ReadIntervals SqlRow StoredHistory Canonicalize HistoryPeriods HistoryIndex.

(** ** Public identities *)
Record PairIssuer := { iss_epoch : list Z; iss_counter : Z; iss_failed : bool }.
Definition issuer_from_epoch (epoch : list Z) : option PairIssuer :=
  if bool_decide (epoch = repeat 0 16) then None
  else Some {| iss_epoch := epoch; iss_counter := 0; iss_failed := false |}.
Definition issue_batch (self : PairIssuer) (n : nat) : PairIssuer * option (list text) :=
  if iss_failed self then (self, None)
  else
    match u128_checked_add (iss_counter self) (Z.of_nat n) with
    | None => ({| iss_epoch := iss_epoch self; iss_counter := iss_counter self; iss_failed := true |}, None)
    | Some counter =>
        ({| iss_epoch := iss_epoch self; iss_counter := counter; iss_failed := iss_failed self |},
         Some (map (λ offset, identity (from_epoch_counter (iss_epoch self) (iss_counter self + Z.of_nat offset + 1)))
                 (seq 0 n)))
    end.
Definition issue (self : PairIssuer) : PairIssuer * option text :=
  let '(self, pairs) := issue_batch self 1 in (self, pairs ≫= head).

(** ** The reprojection witness of the reader *)
Record ReaderPartition := {
  rp_schema_version : text; rp_profile_scope_id : text; rp_account_scope_id : text;
  rp_storage_epoch : Z; rp_partition_id : text
}.
#[export] Instance ReaderPartition_eq_dec : EqDecision ReaderPartition. Proof. solve_decision. Defined.
Record CollectionCommit := { cc_generation : Z; cc_collector_epoch : option Z; cc_cycle_seq : Z }.
#[export] Instance CollectionCommit_eq_dec : EqDecision CollectionCommit. Proof. solve_decision. Defined.
Record StoredRowsWitness := { sw_columns : list text; sw_rows : list (list ValueRef) }.
Record ReprojectionWitness := {
  rw_window : option PublicationWindow;
  rw_commit : option CollectionCommit;
  rw_partition : option ReaderPartition;
  rw_ownership : ReadIntervals;
  rw_quota : option StoredRowsWitness;
  rw_retained_quota : option StoredRowsWitness;
  rw_current_key : option (Z * Z);
  rw_current_sidecar : option StoredRowsWitness;
  rw_current_metadata : option StoredRowsWitness;
  rw_previous_current_key : option (Z * Z);
  rw_previous_current_sidecar : option StoredRowsWitness;
  rw_previous_current_metadata : option StoredRowsWitness
}.
(** The derived equalities; a real column is compared as a number. *)
Fixpoint list_eqb {A} (eqb : A → A → bool) (l l' : list A) : bool :=
  match l, l' with
  | [], [] => true
  | a :: l, a' :: l' => eqb a a' && list_eqb eqb l l'
  | _, _ => false
  end.
Definition option_eqb {A} (eqb : A → A → bool) (o o' : option A) : bool :=
  match o, o' with Some a, Some a' => eqb a a' | None, None => true | _, _ => false end.
Definition value_eqb (a b : ValueRef) : bool :=
  match a, b with
  | SqlNull, SqlNull => true
  | SqlInteger x, SqlInteger y => x =? y
  | SqlReal x, SqlReal y => f64_eqb x y
  | SqlText x, SqlText y | SqlBlob x, SqlBlob y => bool_decide (x = y)
  | _, _ => false
  end.
Definition rows_eqb (a b : list (list ValueRef)) : bool := list_eqb (list_eqb value_eqb) a b.
Definition witness_eqb (a b : option StoredRowsWitness) : bool :=
  option_eqb (λ a b, bool_decide (sw_columns a = sw_columns b) && rows_eqb (sw_rows a) (sw_rows b)) a b.

Definition same_authority_values (self other : ReprojectionWitness) : bool :=
  bool_decide (rw_partition self = rw_partition other) && bool_decide (rw_ownership self = rw_ownership other)
  && witness_eqb (rw_quota self) (rw_quota other).
Definition same_commit_authority (self other : ReprojectionWitness) : bool :=
  opt_is_some (rw_commit self) && bool_decide (rw_commit self = rw_commit other)
  && bool_decide (rw_partition self = rw_partition other) && bool_decide (rw_ownership self = rw_ownership other)
  && witness_eqb (rw_quota self) (rw_quota other).
Definition current_model_time_bounds (reset_at window_seconds : Z) (publication : option PublicationWindow)
    (history_is_canonical : bool) : option (Z * Z) :=
  start ← (if history_is_canonical then quota_period_minute_start reset_at window_seconds
           else quota_period_start reset_at window_seconds);
  Some match publication with
       | None => (start, reset_at)
       | Some window =>
           if history_is_canonical
           then (Z.max start (pw_retained_start window / 60 * 60), Z.min reset_at (raw_upper window))
           else (Z.max start (pw_retained_start window), Z.min reset_at (pw_at window))
       end.
Definition current_observation_is_eligible_at (self : ReprojectionWitness) (key : option (Z * Z))
    (window : PublicationWindow) (quota : PublicQuota) : bool :=
  is_some_and (λ '(timestamp, reset),
    (reset =? pq_reset_at quota)
    && is_some_and (λ '(start, end_), (start <=? timestamp) && (timestamp <=? end_))
         (current_model_time_bounds reset (pq_window_seconds quota) (Some window) (opt_is_some (rw_partition self)))) key.
(** The rows of the receipts between two times; [None] when a time is not an integer. *)
Fixpoint common_rows (index : nat) (lower upper : Z) (rows : list (list ValueRef)) : option (list (list ValueRef)) :=
  match rows with
  | [] => Some []
  | row :: rest =>
      match row !! index with
      | Some (SqlInteger timestamp) =>
          common ← common_rows index lower upper rest;
          Some (if (lower <? timestamp) && (timestamp <=? upper) then row :: common else common)
      | _ => None
      end
  end.
(** [iter().position(..)] *)
Fixpoint position {A} (f : A → bool) (l : list A) : option nat :=
  match l with [] => None | a :: l => if f a then Some O else S <$> position f l end.
Definition same_common_quota_receipts (self other : ReprojectionWitness) : bool :=
  let bounds :=
    match rw_window self, rw_window other with
    | Some left_, Some right_ =>
        Some (Z.max (cutoff left_ Retained) (cutoff right_ Retained), Z.min (raw_upper left_) (raw_upper right_))
    | None, None => Some (i64_min, i64_max)
    | _, _ => None
    end in
  match bounds with
  | None => false
  | Some (lower, upper) =>
      match rw_retained_quota self, rw_retained_quota other with
      | None, None => true
      | Some left_, Some right_ =>
          if bool_decide (sw_columns left_ = sw_columns right_) then
            match position (text_eqb (lit "observed_at")) (sw_columns left_) with
            | None => false
            | Some index =>
                match common_rows index lower upper (sw_rows left_), common_rows index lower upper (sw_rows right_) with
                | Some l, Some r => rows_eqb l r
                | _, _ => false
                end
            end
          else false
      | _, _ => false
      end
  end.
Definition same_current_observation (self other : ReprojectionWitness) : bool :=
  bool_decide (rw_current_key self = rw_current_key other)
  && witness_eqb (rw_current_sidecar self) (rw_current_sidecar other)
  && witness_eqb (rw_current_metadata self) (rw_current_metadata other).
Definition preserves_previous_current_observation (self previous : ReprojectionWitness) : bool :=
  if negb (opt_is_some (rw_current_key previous)) then true
  else if bool_decide (rw_current_key self = rw_current_key previous) then same_current_observation self previous
  else bool_decide (rw_previous_current_key self = rw_current_key previous)
       && witness_eqb (rw_previous_current_sidecar self) (rw_current_sidecar previous)
       && witness_eqb (rw_previous_current_metadata self) (rw_current_metadata previous).

(** ** Frames *)
Inductive CurrentModelsStatus := ModelsComplete | ModelsPartial | ModelsUnavailable.
#[export] Instance CurrentModelsStatus_eq_dec : EqDecision CurrentModelsStatus. Proof. solve_decision. Defined.
Record CurrentPublication := { cp_state : PublicState; cp_models_status : CurrentModelsStatus }.
Record DbSnapshot := {
  ds_generation : Z;
  ds_data_hash : text;
  ds_history_available : bool;
  ds_has_pending_ranges : bool;
  ds_acquisition_degraded : bool;
  ds_current : CurrentPublication;
  ds_details : PublicDetails;
  ds_models_v3 : list PublicModelUsageV3;
  ds_history_samples_v3 : list PublicHistoryObservationV3;
  ds_history_samples_v2 : list PublicHistoryObservation;
  ds_retained_history : HistoryArchive;
  ds_recordings : option RecordedArchive;
  ds_reprojection_witness : option ReprojectionWitness
}.
(** [directory_pages] names the shared cache of encoded pages. *)
Record PublishedSnapshot := {
  ps_generation : Z;
  ps_data_hash : text;
  ps_pair : text;
  ps_history_available : bool;
  ps_has_pending_ranges : bool;
  ps_acquisition_degraded : bool;
  ps_current : CurrentPublication;
  ps_details : PublicDetails;
  ps_models_v3 : list PublicModelUsageV3;
  ps_history_samples_v3 : list PublicHistoryObservationV3;
  ps_history_samples_v2 : list PublicHistoryObservation;
  ps_retained_history : HistoryArchive;
  ps_local_recordings : option RecordedArchive;
  ps_history_index : HistoryIndex;
  ps_directory_indices : list nat * list nat;
  ps_directory_pages : nat;
  ps_reprojection_witness : option ReprojectionWitness;
  ps_history_reprojection_witness : option ReprojectionWitness
}.

(** ** Details of a frame *)
Definition legacy_running (thread : PublicThread) : bool :=
  match pt_activity_status thread with None | Some PublicRunning => true | _ => false end.
Definition without_activity (thread : PublicThread) : PublicThread := {|
  pt_id := pt_id thread; pt_title := pt_title thread; pt_activity_status := None;
  pt_parent_thread_id := pt_parent_thread_id thread; pt_model := pt_model thread;
  pt_model_label := pt_model_label thread; pt_total_tokens := pt_total_tokens thread;
  pt_context_usage_tokens := pt_context_usage_tokens thread;
  pt_context_window_tokens := pt_context_window_tokens thread; pt_created_at := pt_created_at thread;
  pt_last_user_message_at := pt_last_user_message_at thread; pt_is_subagent := pt_is_subagent thread;
  pt_depth := pt_depth thread |}.
Definition legacy_running_rows (threads : list PublicThread) : list PublicThread :=
  map without_activity (List.filter legacy_running threads).
Definition state_when (degraded : bool) (state : PublicState) : PublicState := if degraded then StateError else state.
Definition details_v1 (snapshot : PublishedSnapshot) (degraded : bool) : PublicDetails :=
  let details := ps_details snapshot in
  let threads := legacy_running_rows (d_threads details) in
  {| d_state := state_when degraded (d_state details); d_observed_at := d_observed_at details;
     d_authenticated := d_authenticated details; d_plan_label := d_plan_label details; d_quota := d_quota details;
     d_models := d_models details; d_active_thread_count := count threads;
     d_history_periods := d_history_periods details; d_history_samples := d_history_samples details;
     d_history_gaps := d_history_gaps details; d_threads := threads;
     d_estimated_cost_label := d_estimated_cost_label details |}.
Definition details_v2 (snapshot : PublishedSnapshot) : PublicDetailsV2 :=
  let details := v2_of_v1 (ps_details snapshot) in
  {| d2_state := d2_state details; d2_observed_at := d2_observed_at details;
     d2_authenticated := d2_authenticated details; d2_plan_label := d2_plan_label details;
     d2_quota := d2_quota details; d2_models := d2_models details;
     d2_active_thread_count := d2_active_thread_count details; d2_history_periods := d2_history_periods details;
     d2_history_samples := ps_history_samples_v2 snapshot; d2_history_gaps := d2_history_gaps details;
     d2_threads := d2_threads details; d2_estimated_cost_label := d2_estimated_cost_label details |}.
Definition details_v2_for_wire (snapshot : PublishedSnapshot) (degraded : bool) : PublicDetailsV2 :=
  let details := details_v2 snapshot in
  let threads := legacy_running_rows (d2_threads details) in
  {| d2_state := state_when degraded (d2_state details); d2_observed_at := d2_observed_at details;
     d2_authenticated := d2_authenticated details; d2_plan_label := d2_plan_label details;
     d2_quota := d2_quota details; d2_models := d2_models details;
     d2_active_thread_count := count threads; d2_history_periods := d2_history_periods details;
     d2_history_samples := d2_history_samples details; d2_history_gaps := d2_history_gaps details;
     d2_threads := threads; d2_estimated_cost_label := d2_estimated_cost_label details |}.
Definition details_v3 (snapshot : PublishedSnapshot) (degraded : bool) : PublicDetailsV3 :=
  let details := from_v2_with_models_and_history (details_v2 snapshot) (ps_models_v3 snapshot)
                   (ps_history_samples_v3 snapshot) in
  {| d3_state := state_when degraded (d3_state details); d3_observed_at := d3_observed_at details;
     d3_authenticated := d3_authenticated details; d3_plan_label := d3_plan_label details;
     d3_quota := d3_quota details; d3_models := d3_models details;
     d3_active_thread_count := d3_active_thread_count details;
     d3_open_session_thread_count := d3_open_session_thread_count details;
     d3_history_periods := d3_history_periods details; d3_history_samples := d3_history_samples details;
     d3_history_gaps := d3_history_gaps details; d3_threads := d3_threads details |}.

(** ** The directory of a frame *)
Definition raw_history_archive (snapshot : PublishedSnapshot) : HistoryArchive :=
  raw_archive (ps_retained_history snapshot).
Definition raw_member_has_token_usage (archive : HistoryArchive) (history : HistoryIndex) (period : PublicHistoryPeriod) : bool :=
  existsb (λ raw_period, is_some_and pi_has_token_usage (hi_raw_periods history !! hp_id raw_period))
    (List.filter (λ raw_period,
       (hp_reset_at raw_period =? hp_reset_at period)
       || is_some_and (λ reset, reset =? hp_reset_at period) (ha_aliases archive !! hp_reset_at raw_period))
       (ha_periods (raw_archive archive))).
Definition lists_period (history : HistoryIndex) (period : PublicHistoryPeriod) : bool :=
  hp_current period
  || is_some_and (λ entry, negb (bool_decide (pi_samples entry = [])) || negb (bool_decide (pi_gaps entry = [])))
       (hi_periods history !! hp_id period).
Definition selects_period (archive : HistoryArchive) (history : HistoryIndex) (period : PublicHistoryPeriod) : bool :=
  hp_current period || is_some_and pi_has_token_usage (hi_periods history !! hp_id period)
  || raw_member_has_token_usage archive history period.
Definition period_before (a b : PublicHistoryPeriod) : bool :=
  if hp_reset_at a =? hp_reset_at b then text_leb (hp_id a) (hp_id b) else hp_reset_at a <? hp_reset_at b.
(** Positions of the listed periods in the order of deadline and id, and those of them
    that can be selected. [archive.periods[index]] is in bounds. *)
Definition directory_indices (archive : HistoryArchive) (history : HistoryIndex) : list nat * list nat :=
  let listed := List.filter (λ entry, lists_period history entry.2) (enumerate (ha_periods archive)) in
  let all := sort_by (λ a b, period_before a.2 b.2) listed in
  (map fst all, map fst (List.filter (λ entry, selects_period archive history entry.2) all)).

Section facts.
(** The values that are compared by their JSON text. *)
Inductive Fact :=
| FactDetails (details : PublicDetails)
| FactDetailsV2 (details : PublicDetailsV2)
| FactDetailsV3 (details : PublicDetailsV3)
| FactArchive (archive : HistoryArchive)
| FactDirectory (directory : list (PublicHistoryPeriod * option Z * bool))
| FactObservationV3 (row : PublicHistoryObservationV3)
| FactObservation (row : PublicHistoryObservation)
| FactSample (row : PublicHistorySample)
| FactGap (gap : PublicHistoryGap)
| FactQuota (quota : option PublicQuota)
| FactThreads (threads : list PublicThread)
| FactModels (models : list PublicDetailedModelUsage)
| FactModelsV3 (models : list PublicModelUsageV3)
| FactSources (sources : option (list PublicHistoryObservationV3 * list PublicHistoryGap)).
Context (to_vec : Fact → option (list Z)).

Definition exact_fact (left_ right_ : Fact) : bool :=
  is_some_and (λ '(l, r), bool_decide (l = r)) (opt_zip (to_vec left_) (to_vec right_)).
Definition common_facts_equal {T} (fact : T → Fact) (left_ right_ : list T) (lower upper : Z) (timestamp : T → Z) : bool :=
  let common := List.filter (λ row, (lower <? timestamp row) && (timestamp row <=? upper)) in
  list_eqb (λ l r, exact_fact (fact l) (fact r)) (common left_) (common right_).

Definition public_state (snapshot : PublishedSnapshot) : PublicState :=
  if ps_acquisition_degraded snapshot then StateError else cp_state (ps_current snapshot).
Definition directory (snapshot : PublishedSnapshot) : list (PublicHistoryPeriod * option Z * bool) :=
  let archive := ps_retained_history snapshot in
  filter_map (λ period,
    indexed ← hi_periods (ps_history_index snapshot) !! hp_id period;
    then_some (hp_current period || negb (bool_decide (pi_samples indexed = [])) || negb (bool_decide (pi_gaps indexed = [])))
      (period, ha_origins archive !! hp_reset_at period,
       hp_current period || pi_has_token_usage indexed
       || raw_member_has_token_usage archive (ps_history_index snapshot) period)) (ha_periods archive).
Definition period_ids (snapshot : PublishedSnapshot) : gset text :=
  list_to_set (map hp_id (ha_periods (ps_retained_history snapshot))).
(** The rows of one period: as many, with the same cursors, printed alike. *)
Definition same_period_rows (previous candidate : PublishedSnapshot) (id : text) : bool :=
  match hi_periods (ps_history_index previous) !! id, hi_periods (ps_history_index candidate) !! id with
  | Some old, Some new =>
      (length (pi_samples old) =? length (pi_samples new))%nat && (length (pi_gaps old) =? length (pi_gaps new))%nat
      && bool_decide (pi_fingerprints old = pi_fingerprints new)
      && forallb (λ '(l, r), exact_fact (FactObservationV3 (ha_samples (ps_retained_history previous) !!! l))
                                        (FactObservationV3 (ha_samples (ps_retained_history candidate) !!! r)))
           (zip (pi_samples old) (pi_samples new))
      && forallb (λ '(l, r), exact_fact (FactGap (ha_gaps (ps_retained_history previous) !!! l))
                                        (FactGap (ha_gaps (ps_retained_history candidate) !!! r)))
           (zip (pi_gaps old) (pi_gaps new))
  | _, _ => false
  end.
Definition same_public_domain (previous candidate : PublishedSnapshot) : bool :=
  let old_degraded := ps_acquisition_degraded previous in
  let new_degraded := ps_acquisition_degraded candidate in
  if negb (Bool.eqb (ps_history_available previous) (ps_history_available candidate))
     || negb (bool_decide (cp_models_status (ps_current previous) = cp_models_status (ps_current candidate)))
     || negb (bool_decide (public_state previous = public_state candidate))
     || negb (exact_fact (FactDetails (details_v1 previous old_degraded)) (FactDetails (details_v1 candidate new_degraded)))
     || negb (exact_fact (FactDetailsV2 (details_v2_for_wire previous old_degraded))
                         (FactDetailsV2 (details_v2_for_wire candidate new_degraded)))
     || negb (exact_fact (FactDetailsV3 (details_v3 previous old_degraded)) (FactDetailsV3 (details_v3 candidate new_degraded)))
  then false
  else if negb (ps_history_available previous) then true
  else if negb (exact_fact (FactArchive (raw_history_archive previous)) (FactArchive (raw_history_archive candidate))) then false
  else if negb (exact_fact (FactDirectory (directory previous)) (FactDirectory (directory candidate))) then false
  else if negb (bool_decide (period_ids previous = period_ids candidate)) then false
  else forallb (same_period_rows previous candidate) (sort_by text_leb (elements (period_ids previous))).

(** ** Facts a reprojection keeps *)
Definition clipped_gap (lower upper : Z) (gap : PublicHistoryGap) : option (text * (Z * Z * Z * text)) :=
  let start := Z.max (hg_start_at gap) lower in
  let end_ := Z.min (hg_end_at gap) upper in
  then_some (start <=? end_) (hg_gap_id gap, (hg_reset_at gap, start, end_, hg_reason gap)).
Definition clipped_gaps (lower upper : Z) (archive : HistoryArchive) : gmap text (Z * Z * Z * text) :=
  fold_left (λ m row, <[row.1 := row.2]> m) (filter_map (clipped_gap lower upper) (ha_gaps archive)) ∅.
Definition add_source {T} (project : list PublicHistoryObservationV3 * list PublicHistoryGap → T →
      list PublicHistoryObservationV3 * list PublicHistoryGap) (reset : T → Z)
    (facts : gmap Z (list PublicHistoryObservationV3 * list PublicHistoryGap)) (row : T) :=
  <[reset row := project (default ([], []) (facts !! reset row)) row]> facts.
Definition source_facts (archive : HistoryArchive) : gmap Z (list PublicHistoryObservationV3 * list PublicHistoryGap) :=
  let facts := fold_left (add_source (λ f row, (f.1 ++ [row], f.2)) o3_reset_at) (ha_samples archive) ∅ in
  fold_left (add_source (λ f gap, (f.1, f.2 ++ [gap])) hg_reset_at) (ha_gaps archive) facts.
Definition archive_period_facts_preserved (previous candidate : HistoryArchive) : bool :=
  let periods_by_id := fold_left (λ m p, <[hp_id p := p]> m) (ha_periods candidate) (∅ : gmap text PublicHistoryPeriod) in
  let old_sources := source_facts previous in
  let new_sources := source_facts candidate in
  forallb (λ period,
    match periods_by_id !! hp_id period with
    | None => true
    | Some next =>
        (hp_reset_at period =? hp_reset_at next) && Bool.eqb (hp_current period) (hp_current next)
        && (bool_decide (ha_origins previous !! hp_reset_at period = ha_origins candidate !! hp_reset_at period)
            || negb (exact_fact (FactSources (old_sources !! hp_reset_at period))
                                (FactSources (new_sources !! hp_reset_at period))))
    end) (ha_periods previous).
Record CommonBounds := { cb_lower : Z; cb_upper : Z; cb_recent_lower : Z; cb_recent_upper : Z; cb_gap_lower : Z; cb_gap_upper : Z }.
Definition common_bounds (old new : option PublicationWindow) : option CommonBounds :=
  match old, new with
  | Some old, Some new => Some {|
      cb_lower := Z.max (pw_retained_start old / 60 * 60 - 1) (pw_retained_start new / 60 * 60 - 1);
      cb_upper := Z.min (pw_at old) (pw_at new);
      cb_recent_lower := Z.max (i64_saturating_sub (pw_at old) (31 * 86400)) (i64_saturating_sub (pw_at new) (31 * 86400));
      cb_recent_upper := Z.min (pw_at old) (pw_at new);
      cb_gap_lower := Z.max (pw_retained_start old) (pw_retained_start new);
      cb_gap_upper := Z.min (pw_at old) (pw_at new) |}
  | None, None => Some {| cb_lower := i64_min; cb_upper := i64_max; cb_recent_lower := i64_min;
                          cb_recent_upper := i64_max; cb_gap_lower := i64_min; cb_gap_upper := i64_max |}
  | _, _ => None
  end.
Definition history_facts_preserved (previous candidate : PublishedSnapshot) : bool :=
  match ps_history_reprojection_witness previous, ps_history_reprojection_witness candidate with
  | Some old, Some new =>
      if negb (same_commit_authority old new) || negb (same_common_quota_receipts old new) then false
      else
      match common_bounds (rw_window old) (rw_window new) with
      | None => false
      | Some b =>
          let old_raw := raw_history_archive previous in
          let new_raw := raw_history_archive candidate in
          if negb (common_facts_equal FactObservationV3 (ha_samples old_raw) (ha_samples new_raw) (cb_lower b) (cb_upper b) o3_timestamp)
             || negb (common_facts_equal FactObservationV3 (ha_samples (ps_retained_history previous))
                        (ha_samples (ps_retained_history candidate)) (cb_lower b) (cb_upper b) o3_timestamp)
             || negb (common_facts_equal FactSample (d_history_samples (ps_details previous))
                        (d_history_samples (ps_details candidate)) (cb_recent_lower b) (cb_recent_upper b) hs_timestamp)
             || negb (common_facts_equal FactObservation (ps_history_samples_v2 previous)
                        (ps_history_samples_v2 candidate) (cb_recent_lower b) (cb_recent_upper b) ho_timestamp)
          then false
          else if negb (bool_decide (clipped_gaps (cb_gap_lower b) (cb_gap_upper b) (ps_retained_history previous)
                                     = clipped_gaps (cb_gap_lower b) (cb_gap_upper b) (ps_retained_history candidate)))
               || negb (bool_decide (clipped_gaps (cb_gap_lower b) (cb_gap_upper b) old_raw
                                     = clipped_gaps (cb_gap_lower b) (cb_gap_upper b) new_raw))
          then false
          else archive_period_facts_preserved (ps_retained_history previous) (ps_retained_history candidate)
               && archive_period_facts_preserved old_raw new_raw
      end
  | _, _ => false
  end.

(** ** A reprojection of the same commit *)
Definition no_models (snapshot : PublishedSnapshot) : bool :=
  bool_decide (ps_models_v3 snapshot = []) && bool_decide (d_models (ps_details snapshot) = [])
  && bool_decide (cp_models_status (ps_current snapshot) = ModelsUnavailable).
Definition model_selection_valid (previous candidate : PublishedSnapshot) (old new : ReprojectionWitness) : bool :=
  let eligible key window :=
    is_some_and (current_observation_is_eligible_at new key window) (d_quota (ps_details candidate)) in
  let old_key := rw_current_key old in
  let new_key := rw_current_key new in
  if bool_decide (old_key = new_key) then
    exact_fact (FactModelsV3 (ps_models_v3 previous)) (FactModelsV3 (ps_models_v3 candidate))
    && exact_fact (FactModels (d_models (ps_details previous))) (FactModels (d_models (ps_details candidate)))
    && bool_decide (cp_models_status (ps_current previous) = cp_models_status (ps_current candidate))
  else
  match old_key, rw_window old, rw_window new with
  | None, Some old_window, Some new_window =>
      no_models previous && (eligible new_key new_window && negb (eligible new_key old_window))
  | None, _, _ => false
  | Some _, Some old_window, Some new_window =>
      if negb (opt_is_some new_key) then no_models candidate && negb (eligible old_key new_window)
      else eligible new_key new_window && (negb (eligible new_key old_window) || negb (eligible old_key new_window))
  | Some _, _, _ => false
  end.
Definition same_commit_reprojection (previous candidate : PublishedSnapshot) (known_history : option PublishedSnapshot) : bool :=
  match ps_reprojection_witness previous, ps_reprojection_witness candidate with
  | Some old, Some new =>
      if negb (same_commit_authority old new) || negb (preserves_previous_current_observation new old)
         || negb (same_common_quota_receipts old new)
         || negb (Bool.eqb (ps_has_pending_ranges previous) (ps_has_pending_ranges candidate))
         || negb (Bool.eqb (ps_acquisition_degraded previous) (ps_acquisition_degraded candidate))
         || negb (bool_decide (cp_state (ps_current previous) = cp_state (ps_current candidate)))
         || negb (Bool.eqb (d_authenticated (ps_details previous)) (d_authenticated (ps_details candidate)))
         || negb (bool_decide (d_plan_label (ps_details previous) = d_plan_label (ps_details candidate)))
         || negb (exact_fact (FactQuota (d_quota (ps_details previous))) (FactQuota (d_quota (ps_details candidate))))
         || negb (d_active_thread_count (ps_details previous) =? d_active_thread_count (ps_details candidate))
         || negb (exact_fact (FactThreads (d_threads (ps_details previous))) (FactThreads (d_threads (ps_details candidate))))
      then false
      else if negb (model_selection_valid previous candidate old new) then false
      else negb (ps_history_available candidate)
           || is_none_or (λ known, history_facts_preserved known candidate)
                (opt_filter (λ known, ps_generation known =? ps_generation candidate) known_history)
  | _, _ => false
  end.
End facts.
