(* ===== verification/PublishStore.v ===== *)
(** * The publication store of an account

    Models [AccountStore] of [crates/codex-info-rest/src/lib.rs]: the frame being
    served, the last verified history beside it, and every operation that replaces
    either ([refresh], [admit_candidate], [admit_independent_history],
    [complete_reader_lane]) or withdraws them. What the reader returns is an argument of
    the operation; the locks make each operation one step; the diagnostic log is left
    out. The issuer of identities is shared with the other accounts. *)

From S2P Require Import Prelude Text Float64 Contract Details RecordedUsage Recordings ReadIntervals SqlRow HistoryPeriods HistoryIndex PublishFrame.

Record RecorderCommitNotice := {
  rn_pid : Z; rn_process_starttime : Z; rn_owner_nonce : text; rn_partition_id : text;
  rn_commit : CollectionCommit; rn_degraded : bool
}.
Inductive ReaderIntent := Independent | Unconfirmed | Recorder (notice : RecorderCommitNotice).
Inductive ReaderLane := LaneCurrent | LaneHistory.
Record DbChangeMarker := { dm_generation : Z; dm_has_pending_ranges : bool; dm_acquisition_degraded : bool }.
Inductive RefreshStatus :=
| Updated (generation : Z) | UnchangedAt (generation : Z) | RetainedLastGood (generation : Z) | StatusUnavailable.
Record StoreInner := {
  si_current : option PublishedSnapshot;
  si_last_verified_history : option PublishedSnapshot;
  si_degraded : bool;
  si_reader_unavailable : bool;
  si_retained_read_failure : bool;
  si_admitted_source : option ReaderIntent
}.
Definition StoreInner_new : StoreInner := {|
  si_current := None; si_last_verified_history := None; si_degraded := false; si_reader_unavailable := false;
  si_retained_read_failure := false; si_admitted_source := None |}.
Record Store := { st_issuer : PairIssuer; st_inner : StoreInner }.

Definition set_health (inner : StoreInner) (degraded unavailable retained : bool) : StoreInner := {|
  si_current := si_current inner; si_last_verified_history := si_last_verified_history inner;
  si_degraded := degraded; si_reader_unavailable := unavailable; si_retained_read_failure := retained;
  si_admitted_source := si_admitted_source inner |}.
(** A candidate refused by a publication guard: the frame stays but is not served. *)
Definition refuse (inner : StoreInner) : StoreInner := set_health inner true true false.
Definition set_current (inner : StoreInner) (frame : PublishedSnapshot) : StoreInner := {|
  si_current := Some frame; si_last_verified_history := si_last_verified_history inner;
  si_degraded := ps_acquisition_degraded frame; si_reader_unavailable := false; si_retained_read_failure := false;
  si_admitted_source := si_admitted_source inner |}.
Definition set_history (inner : StoreInner) (history : option PublishedSnapshot) : StoreInner := {|
  si_current := si_current inner; si_last_verified_history := history; si_degraded := si_degraded inner;
  si_reader_unavailable := si_reader_unavailable inner;
  si_retained_read_failure := si_retained_read_failure inner; si_admitted_source := si_admitted_source inner |}.
Definition set_source (inner : StoreInner) (source : option ReaderIntent) : StoreInner := {|
  si_current := si_current inner; si_last_verified_history := si_last_verified_history inner;
  si_degraded := si_degraded inner; si_reader_unavailable := si_reader_unavailable inner;
  si_retained_read_failure := si_retained_read_failure inner; si_admitted_source := source |}.

(** [matches!(error, Io(_) | Sqlite(_))] *)
Definition ordinary_failure (error : ReaderError) : bool :=
  match error with ReaderIo | ReaderSqlite => true | _ => false end.
Definition retain_read_failure (inner : StoreInner) (error : ReaderError) : StoreInner :=
  set_health inner true true
    (opt_is_some (si_current inner) && (negb (si_reader_unavailable inner) || si_retained_read_failure inner)
     && ordinary_failure error).
Definition same_history_owner (left_ right_ : option ReaderIntent) : bool :=
  match left_, right_ with
  | Some (Recorder l), Some (Recorder r) =>
      (rn_pid l =? rn_pid r) && (rn_process_starttime l =? rn_process_starttime r)
      && text_eqb (rn_owner_nonce l) (rn_owner_nonce r) && text_eqb (rn_partition_id l) (rn_partition_id r)
      && bool_decide (cc_collector_epoch (rn_commit l) = cc_collector_epoch (rn_commit r))
  | Some Independent, Some Independent | None, None => true
  | _, _ => false
  end.

(** ** Identities and caches of a frame *)
Definition with_identity (frame : PublishedSnapshot) (pair : text) (pages : nat) : PublishedSnapshot := {|
  ps_generation := ps_generation frame; ps_data_hash := ps_data_hash frame; ps_pair := pair;
  ps_history_available := ps_history_available frame; ps_has_pending_ranges := ps_has_pending_ranges frame;
  ps_acquisition_degraded := ps_acquisition_degraded frame; ps_current := ps_current frame;
  ps_details := ps_details frame; ps_models_v3 := ps_models_v3 frame;
  ps_history_samples_v3 := ps_history_samples_v3 frame; ps_history_samples_v2 := ps_history_samples_v2 frame;
  ps_retained_history := ps_retained_history frame; ps_local_recordings := ps_local_recordings frame;
  ps_history_index := ps_history_index frame; ps_directory_indices := ps_directory_indices frame;
  ps_directory_pages := pages; ps_reprojection_witness := ps_reprojection_witness frame;
  ps_history_reprojection_witness := ps_history_reprojection_witness frame |}.
Definition with_pair (frame : PublishedSnapshot) (pair : text) : PublishedSnapshot :=
  with_identity frame pair (ps_directory_pages frame).
Definition share_identity (frame previous : PublishedSnapshot) : PublishedSnapshot :=
  with_identity frame (ps_pair previous) (ps_directory_pages previous).

Section store.
Context (sha256 : list Z → list Z) (to_vec : Fact → option (list Z)).
Context (identity_json : Z * text * Z * list PublicHistoryGap → list Z).
(** The derived equality of frames, which compares floating-point fields as numbers. *)
Context (frames_equal : PublishedSnapshot → PublishedSnapshot → bool).

Definition digest_text (bytes : list Z) : text := hex (sha256 bytes).
(** [expect(..)]: a validated archive is serialisable. *)
Definition publication_data_hash (snapshot : DbSnapshot) : text :=
  match ha_raw (ds_retained_history snapshot) with
  | None => ds_data_hash snapshot
  | Some raw => digest_text (string_bytes "codex-info-rest-publication-data-v2" ++ [0]
                  ++ as_bytes (ds_data_hash snapshot) ++ default [] (to_vec (FactArchive raw)))
  end.
Definition candidate_from_db_for_account (snapshot : DbSnapshot) (storage_epoch : Z) (pages : nat) : PublishedSnapshot :=
  let history_index := HistoryIndex_build sha256 identity_json (λ row, default [] (to_vec (FactObservationV3 row)))
                         (ds_retained_history snapshot) (ds_recordings snapshot) storage_epoch in
  {| ps_generation := ds_generation snapshot; ps_data_hash := publication_data_hash snapshot; ps_pair := [];
     ps_history_available := ds_history_available snapshot; ps_has_pending_ranges := ds_has_pending_ranges snapshot;
     ps_acquisition_degraded := ds_acquisition_degraded snapshot; ps_current := ds_current snapshot;
     ps_details := ds_details snapshot; ps_models_v3 := ds_models_v3 snapshot;
     ps_history_samples_v3 := ds_history_samples_v3 snapshot; ps_history_samples_v2 := ds_history_samples_v2 snapshot;
     ps_retained_history := ds_retained_history snapshot; ps_local_recordings := ds_recordings snapshot;
     ps_history_index := history_index;
     ps_directory_indices := directory_indices (ds_retained_history snapshot) history_index;
     ps_directory_pages := pages; ps_reprojection_witness := ds_reprojection_witness snapshot;
     ps_history_reprojection_witness := if ds_history_available snapshot then ds_reprojection_witness snapshot else None |}.

(** The frame [self] with the history of another one. *)
Definition end_current_period (observed_at : option Z) (period : PublicHistoryPeriod) : PublicHistoryPeriod :=
  match observed_at with
  | Some observed_at =>
      if hp_current period then
        {| hp_id := hp_id period; hp_start_at := hp_start_at period;
           hp_end_at := Z.min (hp_reset_at period) observed_at; hp_reset_at := hp_reset_at period;
           hp_label := hp_label period; hp_current := hp_current period |}
      else period
  | None => period
  end.
Definition history_details (details history : PublicDetails) : PublicDetails := {|
  d_state := d_state details; d_observed_at := d_observed_at details; d_authenticated := d_authenticated details;
  d_plan_label := d_plan_label details; d_quota := d_quota details; d_models := d_models details;
  d_active_thread_count := d_active_thread_count details;
  d_history_periods := map (end_current_period (d_observed_at details)) (d_history_periods history);
  d_history_samples := d_history_samples history; d_history_gaps := d_history_gaps history;
  d_threads := d_threads details; d_estimated_cost_label := d_estimated_cost_label details |}.
Definition with_history (self history : PublishedSnapshot) : result ContractError PublishedSnapshot :=
  let details := history_details (ps_details self) (ps_details history) in
  _ ← validate_history_domain details;
  Ok {| ps_generation := ps_generation self;
        ps_data_hash := digest_text (as_bytes (ps_data_hash self) ++ as_bytes (ps_data_hash history));
        ps_pair := ps_pair self; ps_history_available := ps_history_available history;
        ps_has_pending_ranges := ps_has_pending_ranges self;
        ps_acquisition_degraded := ps_acquisition_degraded self; ps_current := ps_current self;
        ps_details := details; ps_models_v3 := ps_models_v3 self;
        ps_history_samples_v3 := ps_history_samples_v3 history;
        ps_history_samples_v2 := ps_history_samples_v2 history;
        ps_retained_history := ps_retained_history history; ps_local_recordings := ps_local_recordings history;
        ps_history_index := ps_history_index history; ps_directory_indices := ps_directory_indices history;
        ps_directory_pages := ps_directory_pages history; ps_reprojection_witness := ps_reprojection_witness self;
        ps_history_reprojection_witness := ps_history_reprojection_witness history |}.

(** ** Admission *)
Definition source_rewrite (previous candidate : PublishedSnapshot) : bool :=
  match ps_reprojection_witness previous, ps_reprojection_witness candidate with
  | Some old, Some new =>
      negb (same_authority_values old new) || negb (bool_decide (rw_commit old = rw_commit new))
      || negb (same_common_quota_receipts old new) || negb (preserves_previous_current_observation new old)
  | _, _ => false
  end.
(** The guard on a candidate of the generation being served. *)
Definition guard_refuses (inner : StoreInner) (previous candidate : PublishedSnapshot) : bool :=
  source_rewrite previous candidate
  || (negb (text_eqb (ps_data_hash previous) (ps_data_hash candidate))
      && negb (same_commit_reprojection to_vec previous candidate (si_last_verified_history inner))).
(** Publication under a new identity. *)
Definition publish_new (store : Store) (candidate : PublishedSnapshot) (failed : RefreshStatus) : Store * RefreshStatus :=
  let '(issuer, minted) := issue (st_issuer store) in
  match minted with
  | None => ({| st_issuer := issuer; st_inner := refuse (st_inner store) |}, failed)
  | Some id => ({| st_issuer := issuer; st_inner := set_current (st_inner store) (with_pair candidate id) |},
                Updated (ps_generation candidate))
  end.
(** The admission, and whether it returned before the source was recorded. *)
Definition admit_frame (store : Store) (candidate : PublishedSnapshot) : Store * RefreshStatus :=
  let inner := st_inner store in
  let refused status := ({| st_issuer := st_issuer store; st_inner := refuse inner |}, status) in
  match si_current inner with
  | None => publish_new store candidate StatusUnavailable
  | Some previous =>
      if (ps_generation previous =? ps_generation candidate) && guard_refuses inner previous candidate
      then refused (RetainedLastGood (ps_generation previous))
      else if ps_generation candidate <? ps_generation previous
      then refused (RetainedLastGood (ps_generation previous))
      else if same_public_domain to_vec previous candidate then
        let candidate := share_identity candidate previous in
        let frame := if frames_equal candidate previous then previous else candidate in
        ({| st_issuer := st_issuer store; st_inner := set_current inner frame |}, UnchangedAt (ps_generation candidate))
      else publish_new store candidate (RetainedLastGood (ps_generation previous))
  end.
Definition frame_epoch (frame : PublishedSnapshot) : option (option Z) :=
  proof ← ps_reprojection_witness frame; commit ← rw_commit proof; Some (cc_collector_epoch commit).
Definition record_source (inner : StoreInner) (source : option ReaderIntent) : StoreInner :=
  let epoch_changed := is_some_and (λ '(history, current), negb (bool_decide (frame_epoch history = frame_epoch current)))
                         (opt_zip (si_last_verified_history inner) (si_current inner)) in
  let inner := if epoch_changed || negb (same_history_owner (si_admitted_source inner) source)
               then set_history inner None else inner in
  let inner := match si_current inner with
               | Some current => if ps_history_available current then set_history inner (Some current) else inner
               | None => inner
               end in
  set_source inner source.
Definition admitted (status : RefreshStatus) : bool :=
  match status with Updated _ | UnchangedAt _ => true | _ => false end.
Definition admit_candidate (store : Store) (candidate : result ReaderError PublishedSnapshot)
    (source : option ReaderIntent) : Store * RefreshStatus :=
  match candidate with
  | Ok candidate =>
      let '(store, status) := admit_frame store candidate in
      (if admitted status
       then {| st_issuer := st_issuer store; st_inner := record_source (st_inner store) source |} else store, status)
  | Err error =>
      let inner := retain_read_failure (st_inner store) error in
      ({| st_issuer := st_issuer store; st_inner := inner |},
       match si_current inner with Some current => RetainedLastGood (ps_generation current) | None => StatusUnavailable end)
  end.
(** [marker] and [snapshot] are what the reader returns when it is asked. *)
Definition refresh (store : Store) (marker : result ReaderError (option DbChangeMarker))
    (snapshot : result ReaderError DbSnapshot) (storage_epoch : Z) (pages : nat) : Store * RefreshStatus :=
  let inner := st_inner store in
  let read := admit_candidate store
                (snapshot ≫= λ snapshot, Ok (candidate_from_db_for_account snapshot storage_epoch pages)) None in
  let keep inner := {| st_issuer := st_issuer store; st_inner := inner |} in
  match si_current inner with
  | None => read
  | Some current =>
      match marker with
      | Ok (Some marker) =>
          if (dm_generation marker =? ps_generation current)
             && Bool.eqb (dm_has_pending_ranges marker) (ps_has_pending_ranges current)
             && Bool.eqb (dm_acquisition_degraded marker) (ps_acquisition_degraded current)
             && negb (si_reader_unavailable inner)
          then (keep (set_health inner (dm_acquisition_degraded marker) (si_reader_unavailable inner)
                        (si_retained_read_failure inner)), UnchangedAt (ps_generation current))
          else if dm_generation marker <? ps_generation current
          then (keep (refuse inner), RetainedLastGood (ps_generation current))
          else read
      | Ok None => read
      | Err error => (keep (retain_read_failure inner error), RetainedLastGood (ps_generation current))
      end
  end.

(** ** Independent history *)
Definition witness_window (frame : PublishedSnapshot) : option PublicationWindow :=
  proof ← ps_history_reprojection_witness frame; rw_window proof.
Definition share_or_issue (store : Store) (candidate : PublishedSnapshot) : Store * result string () :=
  let '(issuer, minted) := issue (st_issuer store) in
  match minted with
  | None => ({| st_issuer := issuer; st_inner := st_inner store |}, Err "pair_issuance_failed"%string)
  | Some id => ({| st_issuer := issuer; st_inner := set_history (st_inner store) (Some (with_pair candidate id)) |}, Ok ())
  end.
Definition admit_independent_history (store : Store) (candidate : PublishedSnapshot) (source : ReaderIntent) :
    Store * result string () :=
  let inner := st_inner store in
  let refused (reason : string) := (store, Err reason) in
  if negb (opt_is_some (si_current inner)) || si_reader_unavailable inner
     || negb (same_history_owner (si_admitted_source inner) (Some source))
  then refused "intent_superseded"%string
  else
  match opt_filter (λ _, ps_history_available candidate) (ps_history_reprojection_witness candidate) with
  | None => refused "history_authority_changed"%string
  | Some proof =>
      match rw_window proof with
      | None => refused "history_authority_changed"%string
      | Some window =>
          if match source with
             | Recorder notice => negb (bool_decide (rw_commit proof = Some (rn_commit notice)))
                                  || negb (ps_generation candidate =? cc_generation (rn_commit notice))
             | _ => false
             end
          then refused "commit_not_acknowledged"%string
          else
          match si_last_verified_history inner with
          | None => share_or_issue store candidate
          | Some previous =>
              if ps_generation candidate <? ps_generation previous then refused "generation_superseded"%string
              else
              match witness_window previous with
              | None => refused "history_authority_changed"%string
              | Some old_window =>
                  if pw_at window <? pw_at old_window then refused "publication_window_superseded"%string
                  else if (ps_generation candidate =? ps_generation previous)
                       && negb (same_commit_reprojection to_vec previous candidate (Some previous))
                  then refused "same_commit_reprojection_rejected"%string
                  else if same_public_domain to_vec previous candidate then
                    let candidate := share_identity candidate previous in
                    if frames_equal candidate previous then (store, Ok ())
                    else ({| st_issuer := st_issuer store; st_inner := set_history inner (Some candidate) |}, Ok ())
                  else share_or_issue store candidate
              end
          end
      end
  end.

(** ** Withdrawal *)
Definition retire_history (inner : StoreInner) : StoreInner :=
  set_health (set_history inner None) (si_degraded inner) true false.
Definition history_owner_matches (inner : StoreInner) (intent : ReaderIntent) : bool :=
  same_history_owner (si_admitted_source inner) (Some intent).
Definition retain_expired_source (inner : StoreInner) (source : option ReaderIntent) : StoreInner :=
  set_health inner true true
    (opt_is_some (si_current inner) && (negb (si_reader_unavailable inner) || si_retained_read_failure inner)
     && same_history_owner (si_admitted_source inner) source).
Definition mark_unavailable (inner : StoreInner) : StoreInner := refuse inner.

(** ** Completion of a read by one of the two worker lanes *)
Definition lane_is_history (lane : ReaderLane) : bool := match lane with LaneHistory => true | LaneCurrent => false end.
Definition is_unconfirmed (intent : ReaderIntent) : bool := match intent with Unconfirmed => true | _ => false end.
(** A history read of the owner the latest intent names, no newer than it. *)
Definition same_owner_history (latest : option ReaderIntent) (intent : ReaderIntent) : bool :=
  match latest with
  | None => false
  | Some latest =>
      same_history_owner (Some latest) (Some intent)
      && match latest, intent with
         | Recorder new, Recorder old =>
             (cc_generation (rn_commit old) <? cc_generation (rn_commit new))
             || bool_decide (rn_commit new = rn_commit old)
         | Independent, Independent => true
         | _, _ => false
         end
  end.
Definition not_acknowledged (intent : ReaderIntent) (commit : option CollectionCommit) : bool :=
  match intent with Recorder notice => negb (bool_decide (commit = Some (rn_commit notice))) | _ => false end.
(** A current projection without history keeps the history of the frame it reprojects. *)
Definition keep_history (inner : StoreInner) (intent : ReaderIntent) (next : PublishedSnapshot) : PublishedSnapshot :=
  if negb (ps_history_available next) && history_owner_matches inner intent then
    match opt_filter (λ current, ps_history_available current && (ps_generation current =? ps_generation next)
                                 && same_commit_reprojection to_vec current next None) (si_current inner) with
    | Some current => default next (result_ok (with_history next current))
    | None => next
    end
  else next.
Definition older_window (old new : option ReprojectionWitness) : bool :=
  match old ≫= rw_window, new ≫= rw_window with Some old, Some new => pw_at new <? pw_at old | _, _ => false end.
(** The frame a history read admits, unless it is superseded. *)
Definition place_history (inner : StoreInner) (next : PublishedSnapshot) : option PublishedSnapshot :=
  match si_current inner with
  | None => Some next
  | Some current =>
      if (ps_generation next <? ps_generation current)
         || ((ps_generation next =? ps_generation current) && ps_history_available current
             && older_window (ps_history_reprojection_witness current) (ps_history_reprojection_witness next))
      then None
      else if (ps_generation next =? ps_generation current)
              && older_window (ps_reprojection_witness current) (ps_reprojection_witness next)
      then
        if negb (ps_history_available next) || negb (same_commit_reprojection to_vec next current None) then None
        else result_ok (with_history current next)
      else Some next
  end.
(** A current read that confirms the frame being served. *)
Definition confirms (inner : StoreInner) (next : PublishedSnapshot) : bool :=
  is_some_and (λ old,
    ps_history_available old && (ps_generation old =? ps_generation next)
    && same_commit_reprojection to_vec old next (si_last_verified_history inner)
    && bool_decide (cp_state (ps_current old) = cp_state (ps_current next))
    && bool_decide (cp_models_status (ps_current old) = cp_models_status (ps_current next))
    && bool_decide (d_observed_at (ps_details old) = d_observed_at (ps_details next))
    && exact_fact to_vec (FactModelsV3 (ps_models_v3 old)) (FactModelsV3 (ps_models_v3 next))) (si_current inner).
Definition confirm (inner : StoreInner) (intent : ReaderIntent) (next : PublishedSnapshot) : StoreInner :=
  set_health (set_source inner (Some intent)) (ps_acquisition_degraded next) false false.
(** [latest] is the intent last announced for the account, and [intent_is_latest] says
    that it is this very one. *)
Definition complete_reader_lane (store : Store) (stopped : bool) (latest : option ReaderIntent) (intent_is_latest : bool)
    (intent : ReaderIntent) (candidate : result ReaderError (PublishedSnapshot * option CollectionCommit))
    (lane : ReaderLane) : Store :=
  let inner := st_inner store in
  if stopped then store
  else if negb intent_is_latest && negb (lane_is_history lane && same_owner_history latest intent) then store
  else if is_unconfirmed intent then store
  else
  match candidate with
  | Ok (next, commit) =>
      if not_acknowledged intent commit then store
      else
      match lane with
      | LaneHistory =>
          if negb intent_is_latest
             || is_some_and (λ current, ps_generation next <? ps_generation current) (si_current inner)
          then (admit_independent_history store next intent).1
          else
          match place_history inner next with
          | None => store
          | Some next => (admit_candidate store (Ok next) (Some intent)).1
          end
      | LaneCurrent =>
          let next := keep_history inner intent next in
          if history_owner_matches inner intent && confirms inner next
          then {| st_issuer := st_issuer store; st_inner := confirm inner intent next |}
          else (admit_candidate store (Ok next) (Some intent)).1
      end
  | Err error =>
      match lane with
      | LaneHistory => store
      | LaneCurrent => (admit_candidate store (Err error) (Some intent)).1
      end
  end.
End store.

(** ** What a request captures *)
Inductive Route :=
| RouteHealth | RouteRuntime | RouteDetails | RouteDetailsV2 | RouteDetailsV3 | RouteAccountsV3 | RouteCurrentV3
| RouteCurrentV4 | RouteHistoryPeriodsV3 | RouteSelectableHistoryPeriodsV3 | RouteHistoryPeriodsV4
| RouteSelectableHistoryPeriodsV4 | RouteHistoryPeriodsV5 | RouteSelectableHistoryPeriodsV5 | RouteHistoryV3 | RouteThreadsV3.
#[export] Instance Route_eq_dec : EqDecision Route. Proof. solve_decision. Defined.
Definition history_resource (self : Route) : bool :=
  match self with
  | RouteDetails | RouteDetailsV2 | RouteDetailsV3 | RouteHistoryPeriodsV3 | RouteSelectableHistoryPeriodsV3
  | RouteHistoryPeriodsV4 | RouteSelectableHistoryPeriodsV4 | RouteHistoryPeriodsV5
  | RouteSelectableHistoryPeriodsV5 | RouteHistoryV3 => true
  | _ => false
  end.
Record HistoryFreshness := { hf_verified_at : Z; hf_current : bool }.
Record ResourceCapture := {
  rc_frame : option PublishedSnapshot; rc_unavailable : bool; rc_read_failed : bool;
  rc_freshness : option HistoryFreshness
}.
Definition captured_frame (inner : StoreInner) (route : Route) : option PublishedSnapshot :=
  if history_resource route
  then match si_last_verified_history inner with Some frame => Some frame | None => si_current inner end
  else si_current inner.
Definition freshness (inner : StoreInner) (frame : option PublishedSnapshot) : option HistoryFreshness :=
  frame ← frame;
  history ← ps_history_reprojection_witness frame;
  window ← rw_window history;
  served ← si_current inner;
  current ← ps_reprojection_witness served;
  Some {| hf_verified_at := pw_at window;
          hf_current := bool_decide (rw_commit history = rw_commit current)
            && is_some_and (λ latest, pw_at latest <=? pw_at window) (rw_window current) |}.
Definition capture_resource (inner : StoreInner) (route : Route) : ResourceCapture :=
  let frame := captured_frame inner route in
  {| rc_frame := frame;
     rc_unavailable := si_reader_unavailable inner && negb (si_retained_read_failure inner);
     rc_read_failed := si_retained_read_failure inner;
     rc_freshness := if history_resource route then freshness inner frame else None |}.
