(* ===== verification/PublishFacts.v ===== *)
(** * What a public identity stands for

    The events of the store of an account. Two frames that were ever published under one
    identity have the same canonical documents, whatever the reader returned and in
    whatever order the lanes completed; and each event keeps, replaces or withdraws the
    current frame only as a successful read, a failed one or a guard asks. *)

From S2P Require Import Prelude Text Float64 Contract Details RecordedUsage Recordings ReadIntervals SqlRow HistoryPeriods HistoryIndex PublishFrame PublishStore.

(** ** The public documents of a frame, as they are printed *)
Section documents.
Context (to_vec : Fact → option (list Z)).
Definition page_facts (snapshot : PublishedSnapshot) (id : text) :
    option (list (option (list Z)) * list (option (list Z)) * list (list Z)) :=
  (λ indexed,
    (map (λ row, to_vec (FactObservationV3 (ha_samples (ps_retained_history snapshot) !!! row))) (pi_samples indexed),
     map (λ row, to_vec (FactGap (ha_gaps (ps_retained_history snapshot) !!! row))) (pi_gaps indexed),
     pi_fingerprints indexed)) <$> hi_periods (ps_history_index snapshot) !! id.
Definition known_ids (snapshot : PublishedSnapshot) : list text := sort_by text_leb (elements (period_ids snapshot)).
Record Documents := {
  doc_history_available : bool;
  doc_models_status : CurrentModelsStatus;
  doc_state : PublicState;
  doc_details : option (list Z) * option (list Z) * option (list Z);
  (** the raw archive, the directory and the pages of every known period *)
  doc_history : option (option (list Z) * option (list Z)
                        * list (text * option (list (option (list Z)) * list (option (list Z)) * list (list Z))))
}.
Definition documents (snapshot : PublishedSnapshot) : Documents :=
  let degraded := ps_acquisition_degraded snapshot in
  {| doc_history_available := ps_history_available snapshot;
     doc_models_status := cp_models_status (ps_current snapshot); doc_state := public_state snapshot;
     doc_details := (to_vec (FactDetails (details_v1 snapshot degraded)),
                     to_vec (FactDetailsV2 (details_v2_for_wire snapshot degraded)),
                     to_vec (FactDetailsV3 (details_v3 snapshot degraded)));
     doc_history :=
       if ps_history_available snapshot
       then Some (to_vec (FactArchive (raw_history_archive snapshot)), to_vec (FactDirectory (directory snapshot)),
                  map (λ id, (id, page_facts snapshot id)) (known_ids snapshot))
       else None |}.

Lemma exact_fact_eq a b : exact_fact to_vec a b = true → to_vec a = to_vec b.
Proof.
  unfold exact_fact, opt_zip. destruct (to_vec a), (to_vec b); cbn; try done. rewrite bool_decide_eq_true. congruence.
Qed.
Lemma forallb_zip_map {A B} (f : A → Fact) (g : B → Fact) l l' : length l = length l' →
  forallb (λ '(a, b), exact_fact to_vec (f a) (g b)) (zip l l') = true →
  map (λ a, to_vec (f a)) l = map (λ b, to_vec (g b)) l'.
Proof.
  revert l'. induction l as [|a l IH]; intros [|b l'] Hl H; try done. cbn in H. apply andb_true_iff in H as [Ha H].
  cbn. rewrite (exact_fact_eq _ _ Ha). f_equal. apply IH; [cbn in Hl; lia|done].
Qed.
Lemma same_period_rows_page previous candidate id :
  same_period_rows to_vec previous candidate id = true → page_facts previous id = page_facts candidate id.
Proof.
  unfold same_period_rows, page_facts.
  destruct (hi_periods (ps_history_index previous) !! id) as [old|]; [|done].
  destruct (hi_periods (ps_history_index candidate) !! id) as [new|]; [|done].
  rewrite !andb_true_iff, bool_decide_eq_true, !Nat.eqb_eq. intros [[[[Hs Hg] Hf] Hsr] Hgr]. cbn. f_equal.
  by rewrite (forallb_zip_map _ _ _ _ Hs Hsr), (forallb_zip_map _ _ _ _ Hg Hgr), Hf.
Qed.
Lemma same_public_domain_documents previous candidate :
  same_public_domain to_vec previous candidate = true → documents previous = documents candidate.
Proof.
  unfold same_public_domain. cbv zeta.
  destruct (negb _ || _ || _ || _ || _ || _) eqn:Ec; [done|].
  rewrite !orb_false_iff, !negb_false_iff, !bool_decide_eq_true, eqb_true_iff in Ec.
  destruct Ec as [[[[[Ha Hm] Hs] H1] H2] H3]. apply exact_fact_eq in H1, H2, H3.
  intros H. unfold documents. cbv zeta. rewrite <- Ha, <- Hm, <- Hs, <- H1, <- H2, <- H3.
  destruct (ps_history_available previous); cbn [negb] in H; [|done].
  destruct (exact_fact _ _ _) eqn:Er in H; [|done]. destruct (exact_fact _ _ _) eqn:Ed in H; [|done]. cbn [negb] in H.
  destruct (bool_decide _) eqn:Ei in H; [|done]. cbn [negb] in H. apply bool_decide_eq_true in Ei.
  apply exact_fact_eq in Er, Ed. rewrite <- Er, <- Ed. unfold known_ids in *. rewrite <- Ei. do 3 f_equal.
  apply map_ext_in. intros id Hid. f_equal. apply same_period_rows_page.
  rewrite forallb_forall in H. by apply H.
Qed.
Lemma documents_identity frame minted pages : documents (with_identity frame minted pages) = documents frame.
Proof. done. Qed.
End documents.

(** ** Identities *)
Definition issuer_ok (issuer : PairIssuer) : Prop :=
  length (iss_epoch issuer) = 16%nat ∧ Forall (λ b, 0 ≤ b < 256) (iss_epoch issuer) ∧ is_u128 (iss_counter issuer).
(** The identity was issued: its counter is one of those used so far. *)
Definition issued (issuer : PairIssuer) (id : text) : Prop :=
  ∃ c, 1 ≤ c ≤ iss_counter issuer ∧ id = identity (from_epoch_counter (iss_epoch issuer) c).
Lemma issue_batch_ok issuer n : issuer_ok issuer →
  let issuer' := (issue_batch issuer n).1 in
  issuer_ok issuer' ∧ iss_epoch issuer' = iss_epoch issuer ∧ iss_counter issuer ≤ iss_counter issuer'.
Proof.
  intros (Hl & Hb & Hc). cbv zeta. unfold issue_batch. destruct (iss_failed issuer); [done|].
  destruct (u128_checked_add _ _) eqn:E; cbn [fst]; [|split_and!; [done|done|cbn; lia]].
  apply u128_checked_add_Some in E as [E Hr]. unfold issuer_ok, is_u128 in *. cbn [iss_epoch iss_counter].
  subst. cbn. split; [split; [done|split; [done|lia]]|split; [done|lia]].
Qed.
Lemma issue_some issuer issuer' id : issuer_ok issuer → issue issuer = (issuer', Some id) →
  issuer_ok issuer' ∧ iss_epoch issuer' = iss_epoch issuer ∧ iss_counter issuer' = iss_counter issuer + 1
  ∧ id = identity (from_epoch_counter (iss_epoch issuer) (iss_counter issuer + 1)).
Proof.
  intros Ho. pose proof (issue_batch_ok issuer 1 Ho) as Hb. unfold issue in *. unfold issue_batch in *.
  destruct (iss_failed issuer); [done|]. destruct (u128_checked_add _ _) eqn:E; [|done].
  apply u128_checked_add_Some in E as [-> Hr]. cbn in Hb |- *. injection 1 as <- <-. destruct Hb as (Hb & _ & _).
  split; [done|]. split; [done|]. split; [done|]. by rewrite Z.add_0_r.
Qed.
Lemma issue_none issuer issuer' : issuer_ok issuer → issue issuer = (issuer', None) →
  issuer_ok issuer' ∧ iss_epoch issuer' = iss_epoch issuer ∧ iss_counter issuer ≤ iss_counter issuer'.
Proof.
  intros Ho. pose proof (issue_batch_ok issuer 1 Ho) as Hb. unfold issue. destruct (issue_batch issuer 1). by injection 1 as <- _.
Qed.
Lemma issued_mono issuer issuer' id : iss_epoch issuer' = iss_epoch issuer → iss_counter issuer ≤ iss_counter issuer' →
  issued issuer id → issued issuer' id.
Proof. intros He Hc (c & Hr & ->). exists c. rewrite He. split; [lia|done]. Qed.

(** ** Runs of the server

    What may happen to the store of an account: a refresh, the completion of a read by one
    of the two lanes, the withdrawals, and the issuing of identities to other accounts. *)
Inductive StoreEvent :=
| EvRefresh (marker : result ReaderError (option DbChangeMarker)) (snapshot : result ReaderError DbSnapshot)
    (storage_epoch : Z) (pages : nat)
| EvLane (stopped : bool) (latest : option ReaderIntent) (is_latest : bool) (intent : ReaderIntent)
    (candidate : result ReaderError (PublishedSnapshot * option CollectionCommit)) (lane : ReaderLane)
| EvRetire | EvExpire (source : option ReaderIntent) | EvUnavailable
| EvOtherAccount (n : nat).
Section events.
Context (to_vec : Fact → option (list Z)) (sha256 : list Z → list Z).
Context (identity_json : Z * text * Z * list PublicHistoryGap → list Z).
Context (frames_equal : PublishedSnapshot → PublishedSnapshot → bool).
Definition with_inner (s : Store) (inner : StoreInner) : Store := {| st_issuer := st_issuer s; st_inner := inner |}.
Definition apply_event (s : Store) (ev : StoreEvent) : Store :=
  match ev with
  | EvRefresh marker snapshot storage_epoch pages =>
      (refresh sha256 to_vec identity_json frames_equal s marker snapshot storage_epoch pages).1
  | EvLane stopped latest is_latest intent candidate lane =>
      complete_reader_lane sha256 to_vec frames_equal s stopped latest is_latest intent candidate lane
  | EvRetire => with_inner s (retire_history (st_inner s))
  | EvExpire source => with_inner s (retain_expired_source (st_inner s) source)
  | EvUnavailable => with_inner s (mark_unavailable (st_inner s))
  | EvOtherAccount n => {| st_issuer := (issue_batch (st_issuer s) n).1; st_inner := st_inner s |}
  end.
Inductive store_step (s : Store) : Store → Prop :=
| step_event ev : store_step s (apply_event s ev).
End events.

(** ** Frames that are visible *)
Definition visible (store : Store) (frame : PublishedSnapshot) : Prop :=
  si_current (st_inner store) = Some frame ∨ si_last_verified_history (st_inner store) = Some frame.

Section published.
Context (to_vec : Fact → option (list Z)).
Notation documents := (documents to_vec).

(** The four ways a step changes what is visible. *)
Inductive publishes (s s' : Store) : Prop :=
| pub_keep : st_issuer s' = st_issuer s → (∀ f, visible s' f → visible s f) → publishes s s'
| pub_waste n : st_issuer s' = (issue_batch (st_issuer s) n).1 → (∀ f, visible s' f → visible s f) → publishes s s'
| pub_new frame : issue (st_issuer s) = (st_issuer s', Some (ps_pair frame)) →
    (∀ f, visible s' f → visible s f ∨ f = frame) → publishes s s'
| pub_share frame previous : st_issuer s' = st_issuer s → visible s previous → ps_pair frame = ps_pair previous →
    documents frame = documents previous → (∀ f, visible s' f → visible s f ∨ f = frame) → publishes s s'.

(** Everything published so far has an issued identity, which fixes its documents. *)
Record published_ok (log : list PublishedSnapshot) (s : Store) : Prop := {
  po_issuer : issuer_ok (st_issuer s);
  po_issued : ∀ f, f ∈ log → issued (st_issuer s) (ps_pair f);
  po_same : ∀ f g, f ∈ log → g ∈ log → ps_pair f = ps_pair g → documents f = documents g;
  po_visible : ∀ f, visible s f → f ∈ log
}.
Lemma fresh_identity issuer id c : issuer_ok issuer → issued issuer id → iss_counter issuer < c → is_u128 c →
  id ≠ identity (from_epoch_counter (iss_epoch issuer) c).
Proof.
  intros (Hl & Hb & Hc) (d & Hd & ->) Hlt Hu E. unfold is_u128 in *.
  assert (Hd' : is_u128 d) by (unfold is_u128; lia).
  assert (Ep : from_epoch_counter (iss_epoch issuer) d = from_epoch_counter (iss_epoch issuer) c).
  { destruct (from_epoch_counter (iss_epoch issuer) d), (from_epoch_counter (iss_epoch issuer) c). cbn in E. by subst. }
  apply (f_equal identity) in Ep. cbn [identity from_epoch_counter] in Ep. apply app_inv_head, app_inv_head, hex_nibbles_mod in Ep.
  change (2 ^ (Z.of_nat 32 * 4)) with (2 ^ 128) in Ep. revert Hu Hd'. unfold is_u128, u128_max. intros.
  rewrite !Z.mod_small in Ep by lia. lia.
Qed.
Lemma publishes_ok log s s' : published_ok log s → publishes s s' → ∃ log', published_ok (log' ++ log) s'.
Proof.
  intros [Hi Hl Hs Hv] [Eq Hsub|n Eq Hsub|frame E Hsub|frame previous Eq Hp Ep Ed Hsub].
  - exists []. split; [by rewrite Eq|by rewrite Eq|done|auto].
  - exists []. destruct (issue_batch_ok _ n Hi) as (Ho & He & Hc). rewrite <- Eq in Ho, He, Hc.
    split; [done|intros; eapply issued_mono; eauto|done|auto].
  - exists [frame]. destruct (issue_some _ _ _ Hi E) as (Ho & He & Hc & Hid).
    assert (Hfresh : ∀ f, f ∈ log → ps_pair f ≠ ps_pair frame).
    { intros f Hf. rewrite Hid. apply fresh_identity; [done|by apply Hl|lia|]. destruct Ho as (_ & _ & Ho). by rewrite Hc in Ho. }
    split; [done|..].
    + intros f [->|Hf]%elem_of_cons.
      * exists (iss_counter (st_issuer s')). rewrite Hid, He, Hc. destruct Hi as (_ & _ & Hi). unfold is_u128 in Hi. split; [lia|done].
      * eapply issued_mono; [done| |by apply Hl]. lia.
    + intros f g [->|Hf]%elem_of_cons [->|Hg]%elem_of_cons Epg; [done| | |by apply Hs].
      * by destruct (Hfresh g Hg).
      * by destruct (Hfresh f Hf).
    + intros f [Hf| ->]%Hsub; [right; by apply Hv|left].
  - exists [frame]. apply Hv in Hp as Hin. split; [by rewrite Eq|..].
    + rewrite Eq. intros f [->|Hf]%elem_of_cons; [rewrite Ep; by apply Hl|by apply Hl].
    + intros f g [->|Hf]%elem_of_cons [->|Hg]%elem_of_cons Epg; [done|..|by apply Hs].
      * rewrite Ed. apply Hs; [done|done|congruence].
      * rewrite Ed. apply Hs; [done|done|congruence].
    + intros f [Hf| ->]%Hsub; [right; by apply Hv|left].
Qed.

(** ** Every operation publishes in one of these ways *)
Context (sha256 : list Z → list Z) (identity_json : Z * text * Z * list PublicHistoryGap → list Z).
Context (frames_equal : PublishedSnapshot → PublishedSnapshot → bool).

Lemma publishes_keep s s1 s2 : publishes s s1 → st_issuer s2 = st_issuer s1 → (∀ f, visible s2 f → visible s1 f) → publishes s s2.
Proof.
  intros [Eq H|n Eq H|frame E H|frame previous Eq Hp Ep Ed H] Eq2 H2.
  - apply pub_keep; [congruence|auto].
  - eapply pub_waste; [by rewrite Eq2|auto].
  - eapply pub_new; [by rewrite Eq2|auto].
  - eapply pub_share; [by rewrite Eq2|done..|auto].
Qed.
Lemma publishes_refl s : publishes s s.
Proof. by apply pub_keep. Qed.
Lemma issue_waste issuer issuer' : issue issuer = (issuer', None) → issuer' = (issue_batch issuer 1).1.
Proof. unfold issue. destruct (issue_batch issuer 1). by injection 1 as <- _. Qed.

Lemma publish_new_publishes s candidate failed s' status :
  publish_new s candidate failed = (s', status) → publishes s s'.
Proof.
  unfold publish_new. destruct (issue (st_issuer s)) as [issuer [id|]] eqn:E; injection 1 as <- _.
  - apply (pub_new _ _ (with_pair candidate id)); [done|]. intros f [Hf|Hf]; cbn in Hf; [right; congruence|left; by right].
  - eapply (pub_waste _ _ 1); [by apply issue_waste|]. intros f [Hf|Hf]; [by left|by right].
Qed.
Lemma admit_publishes s candidate s' status :
  admit_frame to_vec frames_equal s candidate = (s', status) → publishes s s'.
Proof.
  unfold admit_frame. cbv zeta. destruct (si_current (st_inner s)) as [previous|] eqn:Ec; [|apply publish_new_publishes].
  assert (Hr : publishes s {| st_issuer := st_issuer s; st_inner := refuse (st_inner s) |}).
  { apply pub_keep; [done|]. intros f [Hf|Hf]; [by left|by right]. }
  destruct (_ && _); [by injection 1 as <- _|]. destruct (_ <? _); [by injection 1 as <- _|].
  destruct (same_public_domain _ _ _) eqn:Ed; [|apply publish_new_publishes].
  injection 1 as <- _. apply same_public_domain_documents in Ed.
  destruct (frames_equal _ _).
  - apply pub_keep; [done|]. intros f [Hf|Hf]; cbn in Hf; [left; congruence|by right].
  - apply (pub_share _ _ (share_identity candidate previous) previous); [done|by left|done|by rewrite Ed|].
    intros f [Hf|Hf]; cbn in Hf; [right; congruence|left; by right].
Qed.
Lemma record_source_visible issuer inner source f :
  visible {| st_issuer := issuer; st_inner := record_source inner source |} f →
  visible {| st_issuer := issuer; st_inner := inner |} f.
Proof.
  unfold record_source, visible. cbv zeta. destruct (_ || _), inner as [[current|] last ?? ? ?]; cbn;
    try destruct (ps_history_available current); cbn; naive_solver.
Qed.
Lemma admit_candidate_publishes s candidate source :
  publishes s (admit_candidate to_vec frames_equal s candidate source).1.
Proof.
  unfold admit_candidate. destruct candidate as [candidate|error].
  - destruct (admit_frame _ _ _ _) as [s1 status] eqn:E. apply admit_publishes in E. destruct (admitted status); [|done].
    eapply publishes_keep; [exact E|done|]. intros f. destruct s1. apply record_source_visible.
  - apply pub_keep; [done|]. intros f [Hf|Hf]; [by left|by right].
Qed.
Lemma refresh_publishes s marker snapshot epoch pages :
  publishes s (refresh sha256 to_vec identity_json frames_equal s marker snapshot epoch pages).1.
Proof.
  unfold refresh. cbv zeta.
  assert (Hk : ∀ inner, si_current inner = si_current (st_inner s) →
    si_last_verified_history inner = si_last_verified_history (st_inner s) →
    publishes s {| st_issuer := st_issuer s; st_inner := inner |}).
  { intros inner H1 H2. apply pub_keep; [done|]. unfold visible. cbn. by rewrite H1, H2. }
  destruct (si_current (st_inner s)) as [current|] eqn:Ec; [|apply admit_candidate_publishes].
  destruct marker as [[marker|]|error]; [|apply admit_candidate_publishes|by apply Hk].
  destruct (_ && _); [by apply Hk|]. destruct (_ <? _); [by apply Hk|apply admit_candidate_publishes].
Qed.
Lemma share_or_issue_publishes s candidate : publishes s (share_or_issue s candidate).1.
Proof.
  unfold share_or_issue. destruct (issue (st_issuer s)) as [issuer [id|]] eqn:E.
  - apply (pub_new _ _ (with_pair candidate id)); [done|]. intros f [Hf|Hf]; cbn in Hf; [left; by left|right; congruence].
  - eapply (pub_waste _ _ 1); [by apply issue_waste|]. intros f [Hf|Hf]; [by left|by right].
Qed.
Lemma admit_independent_publishes s candidate source :
  publishes s (admit_independent_history to_vec frames_equal s candidate source).1.
Proof.
  unfold admit_independent_history. cbv zeta. destruct (_ || _); [apply publishes_refl|].
  destruct (opt_filter _ _) as [proof|]; [|apply publishes_refl]. destruct (rw_window proof) as [window|]; [|apply publishes_refl].
  match goal with |- context [if ?b then (s, Err "commit_not_acknowledged"%string) else _] => destruct b end; [apply publishes_refl|].
  destruct (si_last_verified_history (st_inner s)) as [previous|] eqn:El; [|apply share_or_issue_publishes].
  destruct (_ <? _); [apply publishes_refl|]. destruct (witness_window previous) as [old|]; [|apply publishes_refl].
  destruct (_ <? _); [apply publishes_refl|]. destruct (_ && _); [apply publishes_refl|].
  destruct (same_public_domain _ _ _) eqn:Ed; [|apply share_or_issue_publishes].
  destruct (frames_equal _ _); [apply publishes_refl|]. apply same_public_domain_documents in Ed.
  apply (pub_share _ _ (share_identity candidate previous) previous); [done|by right|done|by rewrite Ed|].
  intros f [Hf|Hf]; cbn in Hf; [left; by left|right; congruence].
Qed.
Lemma complete_lane_publishes s stopped latest is_latest intent candidate lane :
  publishes s (complete_reader_lane sha256 to_vec frames_equal s stopped latest is_latest intent candidate lane).
Proof.
  unfold complete_reader_lane. cbv zeta. destruct stopped; [apply publishes_refl|]. destruct (_ && _); [apply publishes_refl|].
  destruct (is_unconfirmed intent); [apply publishes_refl|]. destruct candidate as [[next commit]|error].
  - destruct (not_acknowledged _ _); [apply publishes_refl|]. destruct lane.
    + destruct (_ && _); [|apply admit_candidate_publishes].
      apply pub_keep; [done|]. intros f [Hf|Hf]; [by left|by right].
    + destruct (_ || _); [apply admit_independent_publishes|].
      destruct (place_history _ _ _); [apply admit_candidate_publishes|apply publishes_refl].
  - destruct lane; [apply admit_candidate_publishes|apply publishes_refl].
Qed.

Notation step := (store_step to_vec sha256 identity_json frames_equal).
Lemma event_publishes s ev : publishes s (apply_event to_vec sha256 identity_json frames_equal s ev).
Proof.
  destruct ev as [marker snapshot epoch pages|stopped latest is_latest intent candidate lane| |source| |n].
  - apply refresh_publishes.
  - apply complete_lane_publishes.
  - apply pub_keep; [done|]. intros f [Hf|Hf]; cbn in Hf; [by left|done].
  - apply pub_keep; [done|]. intros f [Hf|Hf]; [by left|by right].
  - apply pub_keep; [done|]. intros f [Hf|Hf]; [by left|by right].
  - by apply (pub_waste _ _ n).
Qed.
Lemma steps_published_ok log s s' : published_ok log s → rtc step s s' → ∃ log', published_ok (log' ++ log) s'.
Proof.
  intros Hok Hs. revert log Hok. induction Hs as [s|s s1 s2 Hst Hs IH]; intros log Hok; [by exists []|].
  destruct Hst as [ev]. destruct (publishes_ok log s _ Hok (event_publishes s ev)) as (l1 & H1).
  destruct (IH _ H1) as (l2 & H2). exists (l2 ++ l1). by rewrite <- app_assoc.
Qed.
(** A server starts with nothing published and the issuer of a fresh epoch. *)
Definition started (s : Store) : Prop :=
  st_inner s = StoreInner_new ∧ issuer_ok (st_issuer s).
End published.

(** C31. An identity fixes the canonical documents: whatever the reader returned, in whatever
    order the current and the history lane completed, two frames that were ever visible
    under one identity have the same availability of the history, the same state and
    models status, and print the same details in all three versions, and, when the history
    is available, the same raw archive, the same directory, the same known periods and,
    of each, the same rows, gaps and page fingerprints. (The
    local-usage recordings, and the pages of a period that is served from the raw archive
    by its reset, are not compared when an identity is shared, and are not among these
    documents.) *)
Theorem identity_fixes_documents to_vec sha256 identity_json frames_equal s0 s s' f g :
  started s0 → rtc (store_step to_vec sha256 identity_json frames_equal) s0 s →
  rtc (store_step to_vec sha256 identity_json frames_equal) s s' →
  visible s f → visible s' g → ps_pair f = ps_pair g →
  documents to_vec f = documents to_vec g.
Proof.
  intros [Hi Ho] H1 H2 Hf Hg Ep.
  assert (H0 : published_ok to_vec [] s0).
  { split; [done|by intros h ?%elem_of_nil|by intros h h' ?%elem_of_nil|].
    intros h [Hh|Hh]; rewrite Hi in Hh; done. }
  destruct (steps_published_ok _ _ _ _ _ _ _ H0 H1) as (l1 & Hs).
  destruct (steps_published_ok _ _ _ _ _ _ _ Hs H2) as (l2 & Hs').
  apply (po_same _ _ _ Hs'); [|by apply (po_visible _ _ _ Hs')|done].
  apply elem_of_app. right. by apply (po_visible _ _ _ Hs).
Qed.

(** ** The last good frame *)
(** What a request is told of the frame: it is served, it is served as the last good one
    after a failed read, or it is withdrawn. *)
Inductive Health := Served | ServedStale | Withdrawn.
Definition health (capture : ResourceCapture) : Health :=
  if rc_unavailable capture then Withdrawn else if rc_read_failed capture then ServedStale else Served.
Definition inner_health (inner : StoreInner) : Health := health (capture_resource inner RouteHealth).
Lemma health_of_set inner degraded unavailable retained :
  inner_health (set_health inner degraded unavailable retained)
  = if retained then ServedStale else if unavailable then Withdrawn else Served.
Proof. unfold inner_health, health. cbn. by destruct unavailable, retained. Qed.
Lemma health_set_current inner frame : inner_health (set_current inner frame) = Served.
Proof. done. Qed.
Lemma health_refuse inner : inner_health (refuse inner) = Withdrawn.
Proof. done. Qed.

(** After an error the last good frame is served on, if there is one that was not
    withdrawn before and the failure is an ordinary one. *)
Definition after_failure (inner : StoreInner) (error : ReaderError) : Health :=
  match si_current inner, inner_health inner with
  | None, _ | _, Withdrawn => Withdrawn
  | Some _, _ => if ordinary_failure error then ServedStale else Withdrawn
  end.
Lemma health_failure inner error : inner_health (retain_read_failure inner error) = after_failure inner error.
Proof.
  unfold retain_read_failure. rewrite health_of_set. unfold after_failure, inner_health, health. cbn.
  by destruct (si_current inner), (si_reader_unavailable inner), (si_retained_read_failure inner), (ordinary_failure error).
Qed.
(** A step that does not serve a frame that was withdrawn, and does not make a stale one
    served as if it had been read again. *)
Definition not_revived (h h' : Health) : Prop := h' = Withdrawn ∨ h' = h ∨ (h = Served ∧ h' = ServedStale).
(** How a step may change the frame and its health; [read] says that it read a frame. *)
Record keeps_last_good (read : Prop) (inner inner' : StoreInner) : Prop := {
  kg_frame : ∀ f, si_current inner = Some f → ∃ g, si_current inner' = Some g
    ∧ ps_generation f ≤ ps_generation g ∧ (g = f ∨ (read ∧ inner_health inner' = Served));
  kg_health : not_revived (inner_health inner) (inner_health inner') ∨ (read ∧ inner_health inner' = Served)
}.
Lemma keeps_same (read : Prop) inner inner' : si_current inner' = si_current inner →
  not_revived (inner_health inner) (inner_health inner') ∨ (read ∧ inner_health inner' = Served) →
  keeps_last_good read inner inner'.
Proof. intros Hc Hw. split; [|done]. intros f Hf. exists f. rewrite Hc. split_and!; [done|lia|by left]. Qed.
Lemma keeps_set_current (read : Prop) inner frame : read →
  (∀ f, si_current inner = Some f → ps_generation f ≤ ps_generation frame) →
  keeps_last_good read inner (set_current inner frame).
Proof. intros Hr Hg. split; [|by right]. intros f Hf. exists frame. split_and!; [done|by apply Hg|by right]. Qed.
Lemma keeps_refuse read inner : keeps_last_good read inner (refuse inner).
Proof. apply keeps_same; [done|]. left. by left. Qed.
Lemma keeps_refl read inner : keeps_last_good read inner inner.
Proof. apply keeps_same; [done|]. left. right. by left. Qed.
Lemma keeps_failure read inner error : keeps_last_good read inner (retain_read_failure inner error).
Proof.
  apply keeps_same; [done|]. rewrite health_failure. unfold after_failure, not_revived.
  destruct (si_current inner), (inner_health inner), (ordinary_failure error); auto.
Qed.
Lemma keeps_impl (read read' : Prop) inner inner' : (read → read') → keeps_last_good read inner inner' → keeps_last_good read' inner inner'.
Proof. intros Hi [Hf Hh]. split; [|naive_solver]. intros f E. destruct (Hf f E) as (g & ?). exists g. naive_solver. Qed.

Section last_good.
Context (to_vec : Fact → option (list Z)) (sha256 : list Z → list Z).
Context (identity_json : Z * text * Z * list PublicHistoryGap → list Z).
Context (frames_equal : PublishedSnapshot → PublishedSnapshot → bool).
Notation apply_event := (apply_event to_vec sha256 identity_json frames_equal).

Lemma publish_new_keeps s candidate failed s' status :
  (∀ f, si_current (st_inner s) = Some f → ps_generation f ≤ ps_generation candidate) →
  publish_new s candidate failed = (s', status) → admitted failed = false →
  keeps_last_good True (st_inner s) (st_inner s') ∧ (admitted status = false → inner_health (st_inner s') = Withdrawn).
Proof.
  intros Hg. unfold publish_new. destruct (issue (st_issuer s)) as [issuer [id|]]; injection 1 as <- <-; cbn;
    split; try done; [by apply keeps_set_current|apply keeps_refuse].
Qed.
(** What is offered to the admission is served, or the frame is withdrawn. *)
Lemma admit_keeps s candidate s' status :
  admit_frame to_vec frames_equal s candidate = (s', status) →
  keeps_last_good True (st_inner s) (st_inner s') ∧ (admitted status = false → inner_health (st_inner s') = Withdrawn).
Proof.
  unfold admit_frame. cbv zeta. destruct (si_current (st_inner s)) as [previous|] eqn:Ec.
  2: { intros E. by apply publish_new_keeps in E; [|rewrite Ec|]. }
  destruct (_ && _); [injection 1 as <- <-; split; [apply keeps_refuse|done]|].
  destruct (ps_generation candidate <? ps_generation previous) eqn:El; [injection 1 as <- <-; split; [apply keeps_refuse|done]|].
  assert (Hg : ∀ f, si_current (st_inner s) = Some f → ps_generation f ≤ ps_generation candidate) by (rewrite Ec; intros f [= <-]; lia).
  destruct (same_public_domain _ _ _); [|intros E; by apply publish_new_keeps in E].
  injection 1 as <- <-. split; [|done]. apply keeps_set_current; [done|]. intros f Hf. specialize (Hg f Hf).
  rewrite Ec in Hf. injection Hf as <-. by destruct (frames_equal _ _).
Qed.
Lemma record_source_health inner source :
  si_current (record_source inner source) = si_current inner
  ∧ inner_health (record_source inner source) = inner_health inner.
Proof.
  unfold record_source. cbv zeta. destruct (_ || _), inner as [[current|] last ?? ? ?]; cbn;
    try destruct (ps_history_available current); done.
Qed.
Lemma admit_candidate_keeps s candidate source :
  keeps_last_good (is_ok candidate = true) (st_inner s)
    (st_inner (admit_candidate to_vec frames_equal s candidate source).1).
Proof.
  unfold admit_candidate. destruct candidate as [candidate|error]; [|apply keeps_failure].
  destruct (admit_frame _ _ _ _) as [s1 status] eqn:E. apply admit_keeps in E as [[Hf Hw] _].
  destruct (record_source_health (st_inner s1) source) as (Hc & Hh).
  split; destruct (admitted status); cbn [fst st_inner]; rewrite ?Hc, ?Hh; naive_solver.
Qed.
Lemma admit_candidate_withdraws s candidate source :
  admitted (admit_candidate to_vec frames_equal s (Ok candidate) source).2 = false →
  inner_health (st_inner (admit_candidate to_vec frames_equal s (Ok candidate) source).1) = Withdrawn.
Proof.
  unfold admit_candidate. destruct (admit_frame _ _ _ _) as [s1 status] eqn:E. apply admit_keeps in E as [_ Hw].
  cbn [fst snd]. intros Hs. rewrite Hs. by apply Hw.
Qed.
(** The frames a guard refuses: older ones, and ones of the same generation that rewrite it. *)
Definition refused (inner : StoreInner) (frame : PublishedSnapshot) : Prop :=
  ∃ current, si_current inner = Some current
    ∧ (ps_generation frame < ps_generation current
       ∨ (ps_generation frame = ps_generation current ∧ guard_refuses to_vec inner current frame = true)).
Lemma refused_not_admitted s candidate source : refused (st_inner s) candidate →
  admitted (admit_candidate to_vec frames_equal s (Ok candidate) source).2 = false.
Proof.
  intros (current & Hc & Hr). unfold admit_candidate, admit_frame. rewrite Hc. cbv zeta.
  destruct (_ && _) eqn:Eg; [done|]. destruct (_ <? _) eqn:El; [done|]. exfalso.
  apply andb_false_iff in Eg. destruct Hr as [Hr|[Hr Hg]]; [lia|]. destruct Eg as [Eg|Eg]; [lia|congruence].
Qed.
Lemma independent_keeps read s candidate source :
  keeps_last_good read (st_inner s) (st_inner (admit_independent_history to_vec frames_equal s candidate source).1).
Proof.
  assert (Hh : ∀ h, keeps_last_good read (st_inner s) (set_history (st_inner s) h)).
  { intros h. apply keeps_same; [done|]. left. right. by left. }
  assert (Hs : keeps_last_good read (st_inner s) (st_inner (share_or_issue s candidate).1)).
  { unfold share_or_issue. destruct (issue (st_issuer s)) as [issuer [id|]]; [apply Hh|apply keeps_refl]. }
  unfold admit_independent_history. cbv zeta. destruct (_ || _); [apply keeps_refl|].
  destruct (opt_filter _ _) as [proof|]; [|apply keeps_refl]. destruct (rw_window proof) as [window|]; [|apply keeps_refl].
  match goal with |- context [if ?b then (s, Err "commit_not_acknowledged"%string) else _] => destruct b end; [apply keeps_refl|].
  destruct (si_last_verified_history (st_inner s)) as [previous|]; [|done].
  destruct (_ <? _); [apply keeps_refl|]. destruct (witness_window previous) as [old|]; [|apply keeps_refl].
  destruct (_ <? _); [apply keeps_refl|]. destruct (_ && _); [apply keeps_refl|].
  destruct (same_public_domain _ _ _); [|done]. destruct (frames_equal _ _); [apply keeps_refl|apply Hh].
Qed.

(** *** What an event reads *)
(** It reads a frame: the reader answered, and, of a recorder, what it committed. *)
Definition reads_frame (s : Store) (ev : StoreEvent) : Prop :=
  match ev with
  | EvRefresh marker snapshot _ _ =>
      is_ok snapshot = true ∧ (si_current (st_inner s) = None ∨ is_ok marker = true)
  | EvLane stopped _ _ intent candidate _ =>
      stopped = false ∧ is_unconfirmed intent = false
      ∧ ∃ next commit, candidate = Ok (next, commit) ∧ not_acknowledged intent commit = false
  | _ => False
  end.
(** Its read failed with an error. *)
Definition fails_reading (s : Store) (ev : StoreEvent) (error : ReaderError) : Prop :=
  match ev with
  | EvRefresh marker snapshot _ _ =>
      match si_current (st_inner s) with
      | None => snapshot = Err error
      | Some _ => marker = Err error ∨ (marker = Ok None ∧ snapshot = Err error)
      end
  | EvLane stopped _ is_latest intent candidate lane =>
      stopped = false ∧ is_latest = true ∧ is_unconfirmed intent = false ∧ candidate = Err error ∧ lane = LaneCurrent
  | _ => False
  end.
(** The guards: a change marker older than the frame, a frame that was read and is not
    admitted, the end of the account or of its source. *)
Definition withdraws (s : Store) (ev : StoreEvent) : Prop :=
  let inner := st_inner s in
  match ev with
  | EvRefresh marker snapshot storage_epoch pages =>
      (∃ current m, si_current inner = Some current ∧ marker = Ok (Some m) ∧ dm_generation m < ps_generation current)
      ∨ (is_ok marker = true ∧ is_ok snapshot = true
         ∧ admitted (refresh sha256 to_vec identity_json frames_equal s marker snapshot storage_epoch pages).2 = false)
  | EvLane stopped _ is_latest intent candidate lane =>
      stopped = false ∧ is_latest = true ∧ is_unconfirmed intent = false ∧ lane = LaneCurrent
      ∧ ∃ next commit, candidate = Ok (next, commit) ∧ not_acknowledged intent commit = false
          ∧ let frame := keep_history sha256 to_vec inner intent next in
            refused inner frame ∧ confirms to_vec inner frame = false
  | EvRetire | EvUnavailable => True
  | EvExpire source => same_history_owner (si_admitted_source inner) source = false
  | EvOtherAccount _ => False
  end.

Lemma refresh_keeps s marker snapshot storage_epoch pages :
  keeps_last_good (reads_frame s (EvRefresh marker snapshot storage_epoch pages)) (st_inner s)
    (st_inner (apply_event s (EvRefresh marker snapshot storage_epoch pages))).
Proof.
  cbn [PublishFacts.apply_event]. unfold refresh. cbv zeta. set (read := admit_candidate _ _ _ _ _).
  assert (Hread : (si_current (st_inner s) = None ∨ is_ok marker = true) →
    keeps_last_good (reads_frame s (EvRefresh marker snapshot storage_epoch pages)) (st_inner s) (st_inner read.1)).
  { intros Hm. eapply keeps_impl; [|apply admit_candidate_keeps]. intros Hok. split; [|done]. by destruct snapshot. }
  destruct (si_current (st_inner s)) as [current|] eqn:Ec; [|apply Hread; by left].
  destruct marker as [[marker|]|error]; [|apply Hread; by right|apply keeps_failure].
  destruct (_ && _) eqn:Em; [|destruct (_ <? _); [apply keeps_refuse|apply Hread; by right]].
  apply keeps_same; [done|]. left. right. left. cbn [fst st_inner]. unfold inner_health, health. cbn. done.
Qed.
Lemma event_keeps s ev : keeps_last_good (reads_frame s ev) (st_inner s) (st_inner (apply_event s ev)).
Proof.
  destruct ev as [marker snapshot epoch pages|stopped latest is_latest intent candidate lane| |source| |n].
  - apply refresh_keeps.
  - cbn [PublishFacts.apply_event]. unfold complete_reader_lane. cbv zeta. destruct stopped; [apply keeps_refl|].
    destruct (_ && _); [apply keeps_refl|]. destruct (is_unconfirmed intent) eqn:Eu; [apply keeps_refl|].
    destruct candidate as [[next commit]|error].
    + destruct (not_acknowledged _ _) eqn:Ea; [apply keeps_refl|].
      assert (Hr : reads_frame s (EvLane false latest is_latest intent (Ok (next, commit)) lane))
        by (split_and!; [done|done|by exists next, commit]).
      destruct lane.
      * destruct (_ && _); [|eapply keeps_impl; [by intros _|apply admit_candidate_keeps]].
        apply keeps_same; [done|by right].
      * destruct (_ || _); [apply independent_keeps|].
        destruct (place_history _ _ _); [|apply keeps_refl].
        eapply keeps_impl; [by intros _|apply admit_candidate_keeps].
    + destruct lane; [|apply keeps_refl]. eapply keeps_impl; [|apply admit_candidate_keeps]. done.
  - apply keeps_same; [done|]. left. by left.
  - apply keeps_same; [done|]. cbn [PublishFacts.apply_event with_inner st_inner]. unfold retain_expired_source.
    rewrite health_of_set. left. unfold not_revived, inner_health, health. cbn.
    destruct (si_current _), (si_reader_unavailable _), (si_retained_read_failure _), (same_history_owner _ _); auto.
  - apply keeps_refuse.
  - apply keeps_refl.
Qed.
Lemma event_fails s ev error : fails_reading s ev error →
  inner_health (st_inner (apply_event s ev)) = after_failure (st_inner s) error.
Proof.
  destruct ev as [marker snapshot epoch pages|stopped latest is_latest intent candidate lane| |source| |n]; try done; cbn.
  - unfold refresh. cbv zeta. destruct (si_current (st_inner s)) as [current|] eqn:Ec.
    + intros [->|[-> ->]]; apply health_failure.
    + intros ->. apply health_failure.
  - intros (-> & -> & Hu & -> & ->). unfold complete_reader_lane. cbv zeta. rewrite Hu. cbn. apply health_failure.
Qed.
Lemma event_withdraws s ev : withdraws s ev → inner_health (st_inner (apply_event s ev)) = Withdrawn.
Proof.
  destruct ev as [marker snapshot epoch pages|stopped latest is_latest intent candidate lane| |source| |n];
    cbn [withdraws PublishFacts.apply_event]; try done.
  - unfold refresh. cbv zeta. intros [(current & m & -> & -> & Hlt)|(Hm & Hs & Ha)].
    + destruct (_ && _) eqn:E; [lia|]. by rewrite (proj2 (Z.ltb_lt _ _) Hlt).
    + destruct snapshot as [snapshot|]; [|done]. cbn [mbind result_bind] in *. revert Ha.
      destruct (si_current (st_inner s)) as [current|]; [|apply admit_candidate_withdraws].
      destruct marker as [[marker|]|]; [|apply admit_candidate_withdraws|done].
      destruct (_ && _); [done|]. destruct (_ <? _); [done|apply admit_candidate_withdraws].
  - intros (-> & -> & Hu & -> & next & commit & -> & Hack & Hr & Hconf). unfold complete_reader_lane. cbv zeta.
    rewrite Hu, Hack, Hconf, andb_false_r. cbn. by apply admit_candidate_withdraws, refused_not_admitted.
  - intros Hs. unfold retain_expired_source, with_inner. cbn [st_inner]. rewrite health_of_set, Hs. by rewrite andb_false_r.
Qed.
End last_good.


(** ** Witnesses: two generations of the same documents *)
Definition demo_epoch_issuer : PairIssuer := {| iss_epoch := repeat 7 16; iss_counter := 0; iss_failed := false |}.
Definition demo_store : Store := {| st_issuer := demo_epoch_issuer; st_inner := StoreInner_new |}.
Definition demo_db (generation : Z) : DbSnapshot := {|
  ds_generation := generation; ds_data_hash := lit "hash"; ds_history_available := true;
  ds_has_pending_ranges := false; ds_acquisition_degraded := false;
  ds_current := {| cp_state := Ready; cp_models_status := ModelsComplete |}; ds_details := PublicDetails_default;
  ds_models_v3 := []; ds_history_samples_v3 := []; ds_history_samples_v2 := [];
  ds_retained_history := {| ha_aliases := ∅; ha_raw := None; ha_periods := []; ha_samples := []; ha_gaps := []; ha_origins := ∅ |};
  ds_recordings := None; ds_reprojection_witness := None |}.
Definition demo_to_vec (fact : Fact) : option (list Z) :=
  match fact with FactDetails details => Some [if d_authenticated details then 1 else 0] | _ => Some [] end.
Definition demo_refresh (s : Store) (generation : Z) : Store :=
  (refresh (λ _, []) demo_to_vec (λ _, []) (λ _ _, false) s (Ok None) (Ok (demo_db generation)) 1 0).1.
Lemma identity_fixes_documents_witness :
  ∃ f g, visible (demo_refresh demo_store 1) f ∧ visible (demo_refresh (demo_refresh demo_store 1) 2) g
    ∧ ps_generation f = 1 ∧ ps_generation g = 2 ∧ documents demo_to_vec f = documents demo_to_vec g.
Proof.
  eexists _, _. split; [left; reflexivity|]. split; [left; reflexivity|]. split; [reflexivity|]. split; [reflexivity|].
  eapply (identity_fixes_documents demo_to_vec (λ _, []) (λ _, []) (λ _ _, false) demo_store
    (demo_refresh demo_store 1) (demo_refresh (demo_refresh demo_store 1) 2)).
  - split; [reflexivity|]. split; [reflexivity|]. split; [|unfold is_u128; cbn; width].
    repeat constructor; lia.
  - apply rtc_once. exact (step_event _ _ _ _ _ (EvRefresh (Ok None) (Ok (demo_db 1)) 1 0)).
  - apply rtc_once. exact (step_event _ _ _ _ _ (EvRefresh (Ok None) (Ok (demo_db 2)) 1 0)).
  - left; reflexivity.
  - left; reflexivity.
  - reflexivity.
Defined.
(** A second generation replaces the first; a failed read keeps it, and an older marker then
    withdraws it. *)
Definition demo_marker : DbChangeMarker := {|
  dm_generation := 1; dm_has_pending_ranges := false; dm_acquisition_degraded := false |}.
Definition demo_apply (s : Store) (ev : StoreEvent) : Store := apply_event demo_to_vec (λ _, []) (λ _, []) (λ _ _, false) s ev.
Definition demo_failed : Store := demo_apply (demo_refresh demo_store 2) (EvRefresh (Err ReaderIo) (Err ReaderIo) 1 0).
