(* ===== verification/PeriodDirectory.v ===== *)
(** * The period directory of the REST server

    Models the v5 directories of [crates/codex-info-rest/src/lib.rs]: the cursor of an
    offset, [directory_start], and [serialize_directory] with its budget and with the
    cache of encoded pages that the frames of one identity share. The JSON text of a row
    and of a cursor are parameters. The theorems: the cache never changes an answer; where
    every row fits on a page, following the cursors visits every period once, whatever
    other requests come in between; and a page that would start with a row that does not
    fit is refused. *)

From S2P Require Import Prelude Text Contract Details HistoryIndex PublishFrame.

Inductive Directory := AllPeriods | SelectablePeriods.
Definition directory_letter (directory : Directory) : Z := match directory with AllPeriods => 97 | SelectablePeriods => 115 end.
Definition directory_position (directory : Directory) : nat := match directory with AllPeriods => 0 | SelectablePeriods => 1 end.
Definition listed (snapshot : PublishedSnapshot) (directory : Directory) : list nat :=
  match directory with
  | AllPeriods => fst (ps_directory_indices snapshot)
  | SelectablePeriods => snd (ps_directory_indices snapshot)
  end.
(** [&snapshot.pair[3..]]: a published pair starts with [v1:]. *)
Definition cursor_prefix (snapshot : PublishedSnapshot) (directory : Directory) : text :=
  lit "d1." ++ drop 3 (ps_pair snapshot) ++ [46; directory_letter directory; 46].
Definition directory_cursor (snapshot : PublishedSnapshot) (directory : Directory) (offset : nat) : text :=
  cursor_prefix snapshot directory ++ to_dec (Z.of_nat offset).
Definition directory_start (snapshot : PublishedSnapshot) (directory : Directory) (cursor : option text) :
    result RouteError nat :=
  if negb (ps_history_available snapshot) then Err HistoryUnavailable
  else
  match cursor with
  | None => Ok 0%nat
  | Some cursor =>
      raw_offset ← ok_or (strip_prefix (cursor_prefix snapshot directory) cursor) StaleCursor;
      offset ← ok_or (parse_unsigned u64_max raw_offset) StaleCursor;
      if (offset =? 0) || (Z.of_nat (length (listed snapshot directory)) <=? offset)
         || negb (text_eqb (to_dec offset) raw_offset)
      then Err StaleCursor else Ok (Z.to_nat offset)
  end.

(** ** Bytes of a page *)
Definition page_prefix : list Z :=
  [123; 34] ++ string_bytes "api_version" ++ [34; 58; 34] ++ string_bytes "v5" ++ [34; 44; 34]
  ++ string_bytes "history_periods" ++ [34; 58; 91].
Definition SUFFIX : list Z := [93; 44; 34] ++ string_bytes "next_cursor" ++ [34; 58].
Abbreviation DirectorySequence := (gmap nat (list Z) * nat)%type.
(** The cached pages of each directory and budget. *)
Abbreviation DirectoryPages := (gmap (nat * Z) DirectorySequence).

Section directory.
Context (row_json : PublicHistoryPeriod → option Z → option (list Z)) (cursor_json : option text → option (list Z)).
Context (snapshot : PublishedSnapshot) (directory : Directory) (budget : Z).
Notation indices := (listed snapshot directory).
Notation archive := (ps_retained_history snapshot).

Definition row_bytes_at (index : nat) : option (list Z) :=
  period ← ha_periods archive !! index;
  row_json period (ha_origins archive !! hp_reset_at period).
Definition next_cursor (end_ : nat) : option text :=
  then_some (end_ <? length indices)%nat (directory_cursor snapshot directory end_).
Definition size (bytes : list Z) : Z := Z.of_nat (length bytes).
(** The loop over the rows from [end_] on, [first] while the page is empty. *)
Fixpoint encode_rows (end_ : nat) (first : bool) (body : list Z) (rest : list nat) : result RouteError (list Z * nat) :=
  match rest with
  | [] => Ok (body, end_)
  | index :: rest =>
      row ← ok_or (row_bytes_at index) Serialization;
      encoded_next ← ok_or (cursor_json (next_cursor (S end_))) Serialization;
      let comma := if first then [] else [44] in
      if budget <? size body + size comma + size row + size SUFFIX + size encoded_next + 1
      then (if first then Err ResourceTooLarge else Ok (body, end_))
      else encode_rows (S end_) false (body ++ comma ++ row) rest
  end.
Definition render_page (start : nat) : result RouteError (list Z * nat) :=
  '(body, end_) ← encode_rows start true page_prefix (drop start indices);
  encoded ← ok_or (cursor_json (next_cursor end_)) Serialization;
  let body := body ++ SUFFIX ++ encoded ++ [125] in
  if budget <? size body then Err ResourceTooLarge else Ok (body, end_).
Definition sequence_key : nat * Z := (directory_position directory, budget).
Definition serialize_directory (cache : DirectoryPages) (cursor : option text) : DirectoryPages * result RouteError (list Z) :=
  match directory_start snapshot directory cursor with
  | Err e => (cache, Err e)
  | Ok start =>
      let '(pages, frontier) := default (∅, 0%nat) (cache !! sequence_key) in
      let opened := <[sequence_key := (pages, frontier)]> cache in
      match pages !! start with
      | Some body => (opened, Ok body)
      | None =>
          match render_page start with
          | Err e => (opened, Err e)
          | Ok (body, end_) =>
              (if (start =? frontier)%nat then <[sequence_key := (<[start := body]> pages, end_)]> opened else opened, Ok body)
          end
      end
  end.
(** The answer without a cache. *)
Definition answer (cursor : option text) : result RouteError (list Z) :=
  start ← directory_start snapshot directory cursor;
  '(body, _) ← render_page start; Ok body.
End directory.

(** ** Cursors *)
Lemma cursor_start snapshot directory cursor start :
  ps_history_available snapshot = true → Z.of_nat (length (listed snapshot directory)) ≤ u64_max →
  directory_start snapshot directory cursor = Ok start ↔
  (cursor = None ∧ start = 0%nat)
  ∨ (cursor = Some (directory_cursor snapshot directory start) ∧ (0 < start < length (listed snapshot directory))%nat).
Proof.
  intros Ha Hmax. unfold directory_start. rewrite Ha. cbn [negb]. destruct cursor as [cursor|].
  2: { split; [intros [= <-]; by left|by intros [[_ ->]|[? _]]]. }
  split.
  - destruct (strip_prefix _ cursor) as [raw|] eqn:Es; [|done]. apply strip_prefix_Some in Es as ->. cbn [ok_or mbind result_bind].
    destruct (parse_unsigned _ raw) as [offset|] eqn:Eo; [|done]. cbn [ok_or mbind result_bind].
    destruct (_ || _) eqn:Ec; [done|]. intros [= <-]. apply orb_false_iff in Ec as [[E1 E2]%orb_false_iff E3].
    apply negb_false_iff, text_eqb_true in E3. apply parse_unsigned_range in Eo; [|by width].
    right. split; [|lia]. unfold directory_cursor. rewrite Z2Nat.id by lia. by rewrite E3.
  - intros [[? _]|[[= ->] Hs]]; [done|]. unfold directory_cursor. rewrite strip_prefix_app. cbn [ok_or mbind result_bind].
    rewrite parse_to_dec by lia. cbn [ok_or mbind result_bind].
    rewrite (proj2 (text_eqb_true _ _) eq_refl). replace (_ || _) with false by lia. by rewrite Nat2Z.id.
Qed.

(** ** The cache *)
Section cached.
Context (row_json : PublicHistoryPeriod → option Z → option (list Z)) (cursor_json : option text → option (list Z)).
Context (snapshot : PublishedSnapshot).
Notation render := (render_page row_json cursor_json snapshot).

(** Every cached page is the page that would be encoded. *)
Definition cache_ok (cache : DirectoryPages) : Prop :=
  ∀ directory budget pages frontier start body,
    cache !! sequence_key directory budget = Some (pages, frontier) → pages !! start = Some body →
    ∃ end_, render directory budget start = Ok (body, end_).
Lemma serialize_cached cache directory budget cursor : cache_ok cache →
  let '(cache', answer') := serialize_directory row_json cursor_json snapshot directory budget cache cursor in
  cache_ok cache' ∧ answer' = answer row_json cursor_json snapshot directory budget cursor.
Proof.
  intros Hok. unfold serialize_directory, answer. destruct (directory_start _ _ _) as [start|e]; [|done]. cbn [mbind result_bind].
  destruct (default _ _) as [pages frontier] eqn:Ep.
  assert (Hpages : ∀ s body, pages !! s = Some body → ∃ end_, render directory budget s = Ok (body, end_)).
  { intros s body Hs. destruct (cache !! sequence_key directory budget) as [[p f]|] eqn:Ec; cbn in Ep; [|by injection Ep as <- _].
    injection Ep as -> ->. by eapply Hok. }
  assert (Hset : ∀ p f, (∀ s body, p !! s = Some body → ∃ end_, render directory budget s = Ok (body, end_)) →
    cache_ok (<[sequence_key directory budget := (p, f)]> cache)).
  { intros p f Hp d b pages' frontier' s body Hl Hs. destruct (decide (sequence_key d b = sequence_key directory budget)) as [E|E].
    - rewrite E, lookup_insert_eq in Hl. injection Hl as <- <-. unfold sequence_key in E. injection E as Ed <-.
      assert (d = directory) as -> by (by destruct d, directory). by apply Hp.
    - rewrite lookup_insert_ne in Hl by done. by eapply Hok. }
  destruct (pages !! start) as [body|] eqn:Es.
  - split; [by apply Hset|]. destruct (Hpages _ _ Es) as (end_ & ->). done.
  - destruct (render directory budget start) as [[body end_]|e] eqn:Er; [|split; [by apply Hset|done]].
    split; [|done]. destruct (start =? frontier)%nat; [|by apply Hset]. rewrite insert_insert_eq. apply Hset.
    intros s b [[<- <-]|[_ Hs]]%lookup_insert_Some; [by eexists|by apply Hpages].
Qed.
(** The answers to a sequence of requests on one cache. *)
Fixpoint serve_requests (cache : DirectoryPages) (requests : list (Directory * Z * option text)) : list (result RouteError (list Z)) :=
  match requests with
  | [] => []
  | (directory, budget, cursor) :: rest =>
      let '(cache, reply) := serialize_directory row_json cursor_json snapshot directory budget cache cursor in
      reply :: serve_requests cache rest
  end.
Lemma serve_cached cache requests : cache_ok cache →
  serve_requests cache requests = map (λ '(directory, budget, cursor), answer row_json cursor_json snapshot directory budget cursor) requests.
Proof.
  revert cache. induction requests as [|[[d b] c] rest IH]; intros cache Hok; [done|]. cbn.
  pose proof (serialize_cached cache d b c Hok) as H. destruct (serialize_directory _ _ _ _ _ _ _) as [cache' reply].
  destruct H as [Hok' ->]. f_equal. by apply IH.
Qed.
(** The cache after a sequence of requests. *)
Definition after_requests (cache : DirectoryPages) (requests : list (Directory * Z * option text)) : DirectoryPages :=
  fold_left (λ cache '(directory, budget, cursor),
    (serialize_directory row_json cursor_json snapshot directory budget cache cursor).1) requests cache.
Lemma after_requests_ok cache requests : cache_ok cache → cache_ok (after_requests cache requests).
Proof.
  unfold after_requests. revert cache. induction requests as [|[[d b] c] rest IH]; intros cache Hok; [done|]. cbn.
  apply IH. pose proof (serialize_cached cache d b c Hok) as H. by destruct (serialize_directory _ _ _ _ _ _ _), H.
Qed.
Lemma empty_cache_ok : cache_ok ∅.
Proof. intros d b pages frontier start body Hl. by rewrite lookup_empty in Hl. Qed.
End cached.

(** The cache of encoded pages is invisible: any requests, for either directory, with any
    budgets and cursors, get the answers they would get without a cache. *)
Theorem directory_cache_transparent row_json cursor_json snapshot requests :
  serve_requests row_json cursor_json snapshot ∅ requests
  = map (λ '(directory, budget, cursor), answer row_json cursor_json snapshot directory budget cursor) requests.
Proof. apply serve_cached, empty_cache_ok. Qed.

(** ** Pages *)
Section visits.
Context (row_json : PublicHistoryPeriod → option Z → option (list Z)) (cursor_json : option text → option (list Z)).
Context (snapshot : PublishedSnapshot) (directory : Directory) (budget : Z).
Notation indices := (listed snapshot directory).
Notation row_at := (row_bytes_at row_json snapshot).
Notation next := (next_cursor snapshot directory).
Notation reply := (answer row_json cursor_json snapshot directory budget).

Fixpoint rows_text (first : bool) (rows : list nat) : list Z :=
  match rows with
  | [] => []
  | index :: rest => (if first then [] else [44]) ++ default [] (row_at index) ++ rows_text false rest
  end.
Definition range (start end_ : nat) : list nat := take (end_ - start) (drop start indices).
(** The page of the rows [start..end_]: the rows and the cursor of the next one. *)
Definition page_text (start end_ : nat) : list Z :=
  page_prefix ++ rows_text true (range start end_) ++ SUFFIX ++ default [] (cursor_json (next end_)) ++ [125].
Definition cursor_at (start : nat) : option text :=
  if (start =? 0)%nat then None else Some (directory_cursor snapshot directory start).
(** Requests from an offset on, each with the cursor the page before it named, on the cache
    that the requests before it left; [others k] are the requests of other clients that
    come before the [k]-th of the visit. *)
Context (others : nat → list (Directory * Z * option text)).
Notation serve cache start := (serialize_directory row_json cursor_json snapshot directory budget cache (cursor_at start)).
Notation met cache k := (after_requests row_json cursor_json snapshot cache (others k)).
Inductive visits (k : nat) (cache : DirectoryPages) (start : nat) : list (list nat) → Prop :=
| visits_last cache' : serve (met cache k) start = (cache', Ok (page_text start (length indices))) →
    size (page_text start (length indices)) ≤ budget → visits k cache start [range start (length indices)]
| visits_more cache' end_ pages : (start < end_ < length indices)%nat →
    serve (met cache k) start = (cache', Ok (page_text start end_)) → size (page_text start end_) ≤ budget →
    visits (S k) cache' end_ pages → visits k cache start (range start end_ :: pages).

(** Every row can be encoded and fits on a page of its own. *)
Record rows_fit : Prop := {
  rf_cursor : ∀ c, is_Some (cursor_json c);
  rf_row : ∀ o index, indices !! o = Some index → ∃ row, row_at index = Some row
    ∧ size page_prefix + size row + size SUFFIX + size (default [] (cursor_json (next (S o)))) + 1 ≤ budget;
  rf_empty : size page_prefix + size SUFFIX + size (default [] (cursor_json None)) + 1 ≤ budget
}.
(** The row at an offset is too large for a page of its own. *)
Definition too_large (offset : nat) : Prop :=
  ∃ index row encoded, indices !! offset = Some index ∧ row_at index = Some row
    ∧ cursor_json (next (S offset)) = Some encoded
    ∧ budget < size page_prefix + size row + size SUFFIX + size encoded + 1.
Lemma start_at start : ps_history_available snapshot = true → Z.of_nat (length indices) ≤ u64_max →
  (start = 0 ∨ start < length indices)%nat → directory_start snapshot directory (cursor_at start) = Ok start.
Proof.
  intros Ha Hm Hs. apply cursor_start; [done|done|]. unfold cursor_at.
  destruct (start =? 0)%nat eqn:E; [left; split; [done|lia]|right; split; [done|lia]].
Qed.
Lemma too_large_refused start : ps_history_available snapshot = true → Z.of_nat (length indices) ≤ u64_max →
  too_large start → reply (cursor_at start) = Err ResourceTooLarge.
Proof.
  intros Ha Hm (index & row & encoded & Hi & Hrow & Hnext & Hsize). pose proof (lookup_lt_Some _ _ _ Hi) as Hlt.
  unfold answer. rewrite start_at by auto. cbn [mbind result_bind]. unfold render_page.
  rewrite (drop_S _ _ _ Hi). cbn [encode_rows]. rewrite Hrow, Hnext. cbn [ok_or mbind result_bind]. cbv zeta.
  change (size []) with 0. by replace (budget <? _) with true by lia.
Qed.
Context (Hfit : rows_fit).
Definition room (body : list Z) (end_ : nat) : Prop :=
  size body + size SUFFIX + size (default [] (cursor_json (next end_))) + 1 ≤ budget.

Lemma size_app a b : size (a ++ b) = size a + size b.
Proof. unfold size. rewrite length_app. lia. Qed.
Lemma cursor_encoded c : cursor_json c = Some (default [] (cursor_json c)).
Proof. by destruct (rf_cursor Hfit c) as [b ->]. Qed.
Lemma encode_rows_spec rest end_ first body : rest = drop end_ indices → (end_ ≤ length indices)%nat →
  (first = true → body = page_prefix) → (first = false ∨ rest = [] → room body end_) →
  ∃ e, encode_rows row_json cursor_json snapshot directory budget end_ first body rest
       = Ok (body ++ rows_text first (take (e - end_) rest), e)
    ∧ (end_ ≤ e ≤ length indices)%nat ∧ (rest ≠ [] → first = true → end_ < e)%nat
    ∧ room (body ++ rows_text first (take (e - end_) rest)) e.
Proof.
  revert end_ first body. induction rest as [|index rest IH]; intros end_ first body Hr Hle Hfirst Hroom.
  - exists end_. cbn [encode_rows]. rewrite Nat.sub_diag, take_0, app_nil_r. split_and!; [done|lia|lia|done|auto].
  - assert (Hi : indices !! end_ = Some index) by (rewrite <- (Nat.add_0_r end_), <- lookup_drop, <- Hr; done).
    assert (Hlt : (end_ < length indices)%nat) by (by eapply lookup_lt_Some).
    destruct (rf_row Hfit _ _ Hi) as (row & Hrow & Hsize). cbn [encode_rows]. rewrite Hrow, (cursor_encoded (next (S end_))).
    cbn [ok_or mbind result_bind]. cbv zeta. set (comma := if first then [] else [44]).
    destruct (budget <? _) eqn:Eb.
    + destruct first; [exfalso; rewrite Hfirst in Eb by done; unfold comma in Eb; change (size []) with 0 in Eb; lia|].
      exists end_. rewrite Nat.sub_diag, take_0. cbn [rows_text]. rewrite app_nil_r. split_and!; [done|lia|lia|done|auto].
    + destruct (IH (S end_) false (body ++ comma ++ row)) as (e & He & Hrange & _ & Hroom').
      * rewrite <- (Nat.add_1_r end_), <- drop_drop, <- Hr. done.
      * lia.
      * done.
      * intros _. unfold room. rewrite !size_app. lia.
      * exists e. replace (e - end_)%nat with (S (e - S end_)) by lia. cbn [take rows_text]. rewrite Hrow. fold comma.
        cbn [default from_option id]. set (tail := rows_text false _) in *.
        replace (body ++ comma ++ row ++ tail) with ((body ++ comma ++ row) ++ tail) by (by rewrite <- !app_assoc).
        split_and!; [done|lia|lia|lia|done].
Qed.
Lemma render_page_spec start : (start ≤ length indices)%nat → (start = 0 ∨ start < length indices)%nat →
  ∃ e, render_page row_json cursor_json snapshot directory budget start = Ok (page_text start e, e)
    ∧ (start ≤ e ≤ length indices)%nat ∧ (start < length indices → start < e)%nat ∧ size (page_text start e) ≤ budget.
Proof.
  intros Hle Hs. destruct (encode_rows_spec (drop start indices) start true page_prefix) as (e & He & Hr & Hne & Hroom); [done|done|done| |].
  { intros [?|Hd]; [done|]. unfold room, next_cursor. assert (length indices - start = 0)%nat by (by rewrite <- length_drop, Hd).
    rewrite (proj2 (Nat.ltb_ge _ _)) by lia. apply (rf_empty Hfit). }
  exists e. unfold render_page. rewrite He. cbn [mbind result_bind]. rewrite (cursor_encoded (next e)). cbn [ok_or mbind result_bind].
  cbv zeta. fold (range start e) in *. rewrite <- !app_assoc. fold (page_text start e).
  assert (Hsz : size (page_text start e) ≤ budget).
  { unfold room in Hroom. unfold page_text. rewrite !size_app in *. change (size [125]) with 1. lia. }
  replace (budget <? size (page_text start e)) with false by lia. split_and!; [done|lia|lia| |done].
  intros Hlt. apply Hne; [|done]. intros Hd. apply (f_equal length) in Hd. rewrite length_drop in Hd. cbn in Hd. lia.
Qed.
Lemma reply_page start e : ps_history_available snapshot = true → Z.of_nat (length indices) ≤ u64_max →
  (start = 0 ∨ start < length indices)%nat →
  render_page row_json cursor_json snapshot directory budget start = Ok (page_text start e, e) →
  reply (cursor_at start) = Ok (page_text start e).
Proof. intros Ha Hm Hs Hr. unfold answer. rewrite start_at by done. cbn [mbind result_bind]. by rewrite Hr. Qed.
Lemma visits_from n k cache start : ps_history_available snapshot = true → Z.of_nat (length indices) ≤ u64_max →
  cache_ok row_json cursor_json snapshot cache →
  (length indices - start ≤ n)%nat → (start = 0 ∨ start < length indices)%nat →
  ∃ pages, visits k cache start pages ∧ concat pages = drop start indices.
Proof.
  intros Ha Hm. revert k cache start. induction n as [n IH] using lt_wf_ind. intros k cache start Hok Hn Hs.
  destruct (render_page_spec start) as (e & Hr & Hrange & Hne & Hsz); [lia|done|].
  pose proof (reply_page start e Ha Hm Hs Hr) as Hreply.
  pose proof (serialize_cached row_json cursor_json snapshot (met cache k) directory budget (cursor_at start)
    (after_requests_ok _ _ _ _ _ Hok)) as Hserve.
  destruct (serve (met cache k) start) as [cache' body] eqn:Es. destruct Hserve as [Hok' ->]. rewrite Hreply in Es.
  destruct (decide (e = length indices)) as [->|He].
  - exists [range start (length indices)]. split; [by eapply visits_last|]. cbn. rewrite app_nil_r. unfold range.
    apply take_ge. by rewrite length_drop.
  - destruct (IH (length indices - e)%nat ltac:(lia) (S k) cache' e Hok' ltac:(lia) ltac:(lia)) as (pages & Hv & Hp).
    exists (range start e :: pages). split; [eapply visits_more; [lia|done|done|done]|]. cbn. rewrite Hp. unfold range.
    replace e with ((e - start) + start)%nat at 2 by lia. rewrite <- (take_drop (e - start) (drop start indices)) at 2.
    f_equal. rewrite drop_drop. f_equal. lia.
Qed.
End visits.

(** C34. With an available history, in which every row and every cursor can be encoded and every
    row fits within the budget on a page of its own, following the cursors of a directory
    from its first page ends and visits every listed period once and in order; every page
    is within the budget, and holds the rows from its offset to that of the cursor it
    names. That is so whatever requests of other clients, for either directory and with
    any budgets and cursors, come in between and fill the shared cache. Where a listed
    row does not fit, the page that would start with it is refused as too large,
    whatever is cached. *)
Theorem directory_visits_all row_json cursor_json snapshot directory budget others :
  ps_history_available snapshot = true → Z.of_nat (length (listed snapshot directory)) ≤ u64_max →
  (rows_fit row_json cursor_json snapshot directory budget →
     ∃ pages, visits row_json cursor_json snapshot directory budget others 0 ∅ 0 pages
       ∧ concat pages = listed snapshot directory)
  ∧ (∀ offset requests, too_large row_json cursor_json snapshot directory budget offset →
       (serialize_directory row_json cursor_json snapshot directory budget
          (after_requests row_json cursor_json snapshot ∅ requests) (cursor_at snapshot directory offset)).2
       = Err ResourceTooLarge).
Proof.
  intros Ha Hm. pose proof (empty_cache_ok row_json cursor_json snapshot) as Hempty. split.
  - intros Hf. destruct (visits_from row_json cursor_json snapshot directory budget others Hf
      (length (listed snapshot directory)) 0 ∅ 0 Ha Hm Hempty) as (pages & Hv & Hc); [lia|by left|].
    exists pages. by rewrite drop_0 in Hc.
  - intros offset requests Hl. pose proof (serialize_cached row_json cursor_json snapshot
      (after_requests row_json cursor_json snapshot ∅ requests) directory budget (cursor_at snapshot directory offset)
      (after_requests_ok _ _ _ _ _ Hempty)) as Hserve.
    destruct (serialize_directory _ _ _ _ _ _ _) as [cache' body]. destruct Hserve as [_ ->].
    by apply too_large_refused.
Qed.

(** ** Witness: two periods, and a budget for one row a page *)
Definition demo_row (id : string) (reset : Z) : PublicHistoryPeriod := {|
  hp_id := lit id; hp_start_at := 60; hp_end_at := 600; hp_reset_at := reset; hp_label := []; hp_current := true |}.
Arguments demo_row id%_string_scope.
Definition demo_frame : PublishedSnapshot := {|
  ps_generation := 1; ps_data_hash := []; ps_pair := lit "v1:7f"; ps_history_available := true;
  ps_has_pending_ranges := false; ps_acquisition_degraded := false;
  ps_current := {| cp_state := Ready; cp_models_status := ModelsComplete |}; ps_details := PublicDetails_default;
  ps_models_v3 := []; ps_history_samples_v3 := []; ps_history_samples_v2 := [];
  ps_retained_history := {| ha_aliases := ∅; ha_raw := None; ha_periods := [demo_row "b" 900; demo_row "a" 800];
    ha_samples := []; ha_gaps := []; ha_origins := ∅ |};
  ps_local_recordings := None; ps_history_index := {| hi_periods := ∅; hi_raw_periods := ∅ |};
  ps_directory_indices := ([1; 0], [1; 0])%nat; ps_directory_pages := 0; ps_reprojection_witness := None;
  ps_history_reprojection_witness := None |}.
Definition demo_row_json (period : PublicHistoryPeriod) (origin : option Z) : option (list Z) := Some (hp_id period).
Definition demo_cursor_json (cursor : option text) : option (list Z) := Some (default (lit "null") cursor).
(** Another client asks for the selectable periods before the second page. *)
Definition demo_others (k : nat) : list (Directory * Z * option text) :=
  if (k =? 1)%nat then [(SelectablePeriods, 200, None); (AllPeriods, 70, None)] else [].
Lemma directory_visits_all_witness :
  (∃ pages, visits demo_row_json demo_cursor_json demo_frame AllPeriods 70 demo_others 0 ∅ 0 pages
     ∧ concat pages = [1; 0]%nat)
  ∧ (serialize_directory demo_row_json demo_cursor_json demo_frame AllPeriods 40 ∅ None).2 = Err ResourceTooLarge.
Proof.
  split.
  - apply (directory_visits_all demo_row_json demo_cursor_json demo_frame AllPeriods 70 demo_others);
      [reflexivity|vm_compute; discriminate|].
    split.
    + intros c. by eexists.
    + intros [|[|o]] index H; [injection H as <-|injection H as <-|destruct o; discriminate H];
        (eexists; split; [reflexivity|vm_compute; discriminate]).
    + vm_compute. discriminate.
  - apply (directory_visits_all demo_row_json demo_cursor_json demo_frame AllPeriods 40 demo_others)
      with (offset := 0%nat) (requests := []); [reflexivity|vm_compute; discriminate|].
    eexists _, _, _. split; [reflexivity|]. split; [reflexivity|]. split; [reflexivity|]. vm_compute. reflexivity.
Defined.
