(* ===== verification/HttpRequest.v ===== *)
(** * Requests to the REST server

    Models the request parser of [crates/codex-info-rest/src/lib.rs]: the bounded read
    of the header ([read_request]), the request line and its headers, the target with
    its query ([parse_target]) and the entity tag ([parse_etag]), and the status a
    connection answers before any document is built ([handle_connection]). What the
    socket delivers is a list of reads; the clock is the flag of each read. *)

From S2P Require Import Prelude Text Contract HistoryIndex PublishFrame PublishStore.

Definition MAX_REQUEST_LINE_BYTES : Z := 2048.
Definition MAX_HEADER_BYTES : Z := 8 * 1024.
Definition MAX_HEADER_COUNT : Z := 32.
Definition MAX_BODY_BYTES : Z := 32 * 1024 * 1024.
Inductive ParseError := BadRequest | HeadersTooLarge | BodyNotAllowed.
#[export] Instance ParseError_eq_dec : EqDecision ParseError. Proof. solve_decision. Defined.

(** ** Routes *)
Definition route_table : list (string * Route) := [
  ("/health", RouteHealth); ("/v1/health", RouteHealth); ("/v1/runtime", RouteRuntime);
  ("/v1/details", RouteDetails); ("/v2/details", RouteDetailsV2); ("/v3/details", RouteDetailsV3);
  ("/v3/accounts", RouteAccountsV3); ("/v3/current", RouteCurrentV3); ("/v4/current", RouteCurrentV4);
  ("/v3/history/periods", RouteHistoryPeriodsV3);
  ("/v3/history/periods/selectable", RouteSelectableHistoryPeriodsV3);
  ("/v4/history/periods", RouteHistoryPeriodsV4);
  ("/v4/history/periods/selectable", RouteSelectableHistoryPeriodsV4);
  ("/v5/history/periods", RouteHistoryPeriodsV5);
  ("/v5/history/periods/selectable", RouteSelectableHistoryPeriodsV5);
  ("/v3/history", RouteHistoryV3); ("/v3/threads", RouteThreadsV3)]%string.
Definition route_of_path (path : text) : option Route :=
  snd <$> List.find (λ row, text_eqb (lit row.1) path) route_table.
Definition route_v3 (self : Route) : bool :=
  match self with
  | RouteHealth | RouteRuntime | RouteDetails | RouteDetailsV2 => false
  | _ => true
  end.
Definition route_directory_v5 (self : Route) : bool :=
  match self with RouteHistoryPeriodsV5 | RouteSelectableHistoryPeriodsV5 => true | _ => false end.

(** ** The target *)
Definition valid_account_selector (value : text) : bool :=
  match strip_prefix (lit "account-") value with
  | None => false
  | Some epoch =>
      is_some_and (λ epoch, (0 <? epoch) && text_eqb value (lit "account-" ++ to_dec epoch))
        (parse_unsigned u64_max epoch)
  end.
Record Target := {
  tg_route : option Route; tg_account : option text; tg_period : option text; tg_cursor : option text
}.
Definition bare (route : option Route) : Target := {|
  tg_route := route; tg_account := None; tg_period := None; tg_cursor := None |}.
(** [pair.split_once('=')] with a value that is not empty and holds no other sign *)
Definition query_field (pair : text) : result ParseError (text * text) :=
  '(name, value) ← ok_or (split_once [61] pair) BadRequest;
  if bool_decide (value = []) || contains_char value 61 then Err BadRequest else Ok (name, value).
(** The fields the history route takes ([period_allowed]) and those of a directory. *)
Definition query_step (period_allowed : bool) (target : Target) (pair : text) : result ParseError Target :=
  '(name, value) ← query_field pair;
  if text_eqb name (lit "account") && negb (opt_is_some (tg_account target)) && valid_account_selector value
  then Ok {| tg_route := tg_route target; tg_account := Some value; tg_period := tg_period target; tg_cursor := tg_cursor target |}
  else if period_allowed && text_eqb name (lit "period") && negb (opt_is_some (tg_period target))
  then Ok {| tg_route := tg_route target; tg_account := tg_account target; tg_period := Some value; tg_cursor := tg_cursor target |}
  else if text_eqb name (lit "cursor") && negb (opt_is_some (tg_cursor target))
  then Ok {| tg_route := tg_route target; tg_account := tg_account target; tg_period := tg_period target; tg_cursor := Some value |}
  else Err BadRequest.
(** The only field of the other v3 routes. *)
Definition account_step (target : Target) (pair : text) : result ParseError Target :=
  '(name, value) ← ok_or (split_once [61] pair) BadRequest;
  if negb (text_eqb name (lit "account")) || bool_decide (value = []) || contains_char value 61
     || negb (valid_account_selector value) || opt_is_some (tg_account target)
  then Err BadRequest
  else Ok {| tg_route := tg_route target; tg_account := Some value; tg_period := tg_period target; tg_cursor := tg_cursor target |}.
Definition parse_target (target : text) : result ParseError Target :=
  if bool_decide (target = []) || contains_char target 35 || negb (starts_with target [47]) then Err BadRequest
  else
    let '(path, query) := default (target, []) (split_once [63] target) in
    let route := route_of_path path in
    let question := contains_char target 63 in
    let no_query := bool_decide (query = []) in
    if is_some_and route_directory_v5 route then
      if (question && no_query) || contains_char query 37 then Err BadRequest
      else fold_result (query_step false) (bare route) (if no_query then [] else split 38 query)
    else if negb (bool_decide (route = Some RouteHistoryV3)) then
      if is_some_and route_v3 route then
        if question && no_query then Err BadRequest
        else if bool_decide (route = Some RouteAccountsV3) then (if negb no_query then Err BadRequest else Ok (bare route))
        else if no_query then Ok (bare route)
        else if contains_char query 37 then Err BadRequest
        else fold_result account_step (bare route) (split 38 query)
      else if negb no_query then Ok (bare None) else Ok (bare route)
    else if no_query || contains_char query 37 then Err BadRequest
    else fold_result (query_step true) (bare route) (split 38 query).

(** ** Headers *)
Definition headers : Type := list (text * text).
Definition header (values : headers) (name : string) : option text :=
  snd <$> List.find (λ row, text_eqb row.1 (lit name)) values.
Arguments header values name%_string_scope.
Definition is_name_char (byte : Z) : bool := is_ascii_alphanumeric byte || (byte =? 45).
Definition header_step (values : headers) (line : text) : result ParseError headers :=
  if bool_decide (line = []) then Ok values
  else
    '(name, value) ← ok_or (split_once [58] line) BadRequest;
    if bool_decide (name = []) || negb (forallb is_name_char name) then Err BadRequest
    else if 1024 <? str_len value then Err HeadersTooLarge
    else
      let normalized := to_ascii_lowercase name in
      if existsb (λ row, text_eqb row.1 normalized) values then Err BadRequest
      else
        let values := values ++ [(normalized, trim value)] in
        if MAX_HEADER_COUNT <? Z.of_nat (length values) then Err HeadersTooLarge else Ok values.
Definition is_tag_char (byte : Z) : bool := is_ascii_alphanumeric byte || (byte =? 58) || (byte =? 45) || (byte =? 95).
(** Between the quotes; [&value[1..len - 1]] of a text that starts and ends with one. *)
Definition parse_etag (value : text) : result ParseError text :=
  let value := trim value in
  if (str_len value <? 2) || negb (starts_with value [34]) || negb (ends_with value [34]) then Err BadRequest
  else
    let tag := removelast (tail value) in
    if bool_decide (tag = []) || negb (forallb is_tag_char tag) then Err BadRequest else Ok tag.

(** ** Reading *)
Inductive ReadOutcome := Closed | Received (bytes : list Z) | Waiting | ReadFailed.
(** One turn of the loop: the request has timed out, or the socket is read. *)
Record ReadTurn := { rt_timed_out : bool; rt_outcome : ReadOutcome }.
Definition CRLF2 : list Z := [13; 10; 13; 10].
(** [windows(4).position(|window| window == b"\r\n\r\n")] *)
Fixpoint find_terminator (data : list Z) : option nat :=
  match data with
  | [] => None
  | _ :: rest => if bool_decide (take 4 data = CRLF2) then Some O else S <$> find_terminator rest
  end.
(** The data read and the end of its header; a list of turns that ends is a request that
    times out. *)
Fixpoint receive (data : list Z) (turns : list ReadTurn) : result ParseError (list Z * nat) :=
  match turns with
  | [] => Err BadRequest
  | turn :: turns =>
      if rt_timed_out turn then Err BadRequest
      else
      match rt_outcome turn with
      | Closed | ReadFailed => Err BadRequest
      | Waiting => receive data turns
      | Received bytes =>
          let data := data ++ bytes in
          if MAX_HEADER_BYTES <? Z.of_nat (length data) then Err HeadersTooLarge
          else
          match find_terminator data with
          | Some position => Ok (data, (position + 4)%nat)
          | None => receive data turns
          end
      end
  end.
(** [split("\r\n")] *)
Fixpoint split_lines (s : text) : list text :=
  match s with
  | [] => [[]]
  | 13 :: ((10 :: rest) as tail) => [] :: split_lines rest
  | c :: rest =>
      match split_lines rest with
      | line :: lines => (c :: line) :: lines
      | [] => [[c]]
      end
  end.
Record Request := {
  rq_method : text; rq_target : Target; rq_if_none_match : option text; rq_body_length : Z; rq_local_usage : bool
}.
Definition request_line (line : text) : result ParseError (text * text) :=
  if MAX_REQUEST_LINE_BYTES <? str_len line then Err HeadersTooLarge
  else
  match split 32 line with
  | [method; target; version] =>
      if negb (text_eqb version (lit "HTTP/1.1")) || bool_decide (method = []) then Err BadRequest
      else Ok (method, target)
  | _ => Err BadRequest
  end.
(** What follows the read: [authority] is the local address of the socket. *)
Definition parse_request (authority : option text) (data : list Z) (terminator : nat) : result ParseError Request :=
  let trailing := drop terminator data in
  text ← ok_or (from_utf8 (take terminator data)) BadRequest;
  match split_lines text with
  | [] => Err BadRequest
  | first :: lines =>
      '(method, target) ← request_line first;
      values ← fold_result header_step [] lines;
      authority ← ok_or authority BadRequest;
      if negb (bool_decide (header values "host" = Some authority)) then Err BadRequest
      else
        content_length ← match header values "content-length" with
                         | None => Ok 0
                         | Some value => ok_or (parse_unsigned u64_max value) BadRequest
                         end;
        if opt_is_some (header values "transfer-encoding") then Err BadRequest
        else if (MAX_BODY_BYTES <? content_length)
             || (negb (bool_decide (trailing = [])) && (content_length =? 0))
             || (Z.of_nat (length trailing) <? content_length)
        then Err BodyNotAllowed
        else
          target ← parse_target target;
          if_none_match ← match header values "if-none-match" with
                          | None => Ok None
                          | Some value => tag ← parse_etag value; Ok (Some tag)
                          end;
          Ok {| rq_method := method; rq_target := target; rq_if_none_match := if_none_match;
                rq_body_length := content_length;
                rq_local_usage := bool_decide (header values "codex-info-history-extensions" = Some (lit "local-usage-v1")) |}
  end.
Definition read_request (authority : option text) (turns : list ReadTurn) : result ParseError Request :=
  '(data, terminator) ← receive [] turns; parse_request authority data terminator.

(** ** The answer to a connection *)
Definition status_of_error (error : RouteError) : Z :=
  match error with
  | StaleCursor => 400 | HistoryUnavailable => 503 | Serialization => 500 | UnknownPeriod => 400 | ResourceTooLarge => 413
  end.
Definition status_of_parse (error : ParseError) : Z :=
  match error with HeadersTooLarge => 431 | BodyNotAllowed => 413 | BadRequest => 400 end.
(** The status, and the identity and the freshness its headers name. *)
Record Answer := { an_status : Z; an_pair : option text; an_freshness : option HistoryFreshness }.
Definition plain (status : Z) : Answer := {| an_status := status; an_pair := None; an_freshness := None |}.

Section answer.
(** The degraded identity of a frame is a digest of its identity. *)
Context (degraded_pair : text → text).
Definition response_pair (snapshot : PublishedSnapshot) (read_failed : bool) : text :=
  if read_failed then degraded_pair (ps_pair snapshot) else ps_pair snapshot.
(** What the store has for the request: the accounts and their identity, and the capture
    for a route; and the documents. *)
Context (has_account : text → bool) (accounts_pair : text) (capture : option text → Route → ResourceCapture).
Context (publication_failed : bool).
Context (runtime accounts : result RouteError (list Z)).
Context (document : PublishedSnapshot → Request → Route → bool → result RouteError (list Z)).
Definition answer_frame (request : Request) (route : Route) (captured : ResourceCapture) (snapshot : PublishedSnapshot) : Answer :=
  let read_failed := rc_read_failed captured in
  let pair := response_pair snapshot read_failed in
  match document snapshot request route (read_failed || ps_acquisition_degraded snapshot) with
  | Err error => plain (status_of_error error)
  | Ok _ =>
      {| an_status := if negb read_failed && route_v3 route && bool_decide (rq_if_none_match request = Some pair)
                      then 304 else 200;
         an_pair := Some pair; an_freshness := rc_freshness captured |}
  end.
Definition answer_request (request : Request) (route : Route) : Answer :=
  if negb (text_eqb (rq_method request) (lit "GET")) then plain 405
  else if 0 <? rq_body_length request then plain 413
  else if bool_decide (route = RouteHealth) then plain 200
  else if bool_decide (route = RouteRuntime) then
    match runtime with Ok _ => plain 200 | Err error => plain (status_of_error error) end
  else if bool_decide (route = RouteAccountsV3) then
    if bool_decide (rq_if_none_match request = Some accounts_pair)
    then {| an_status := 304; an_pair := Some accounts_pair; an_freshness := None |}
    else match accounts with
         | Ok _ => {| an_status := 200; an_pair := Some accounts_pair; an_freshness := None |}
         | Err _ => plain 500
         end
  else if negb (is_none_or has_account (tg_account (rq_target request))) then plain 400
  else
    let captured := capture (tg_account (rq_target request)) route in
    if rc_unavailable captured || publication_failed then plain 503
    else match rc_frame captured with
         | None => plain 503
         | Some snapshot => answer_frame request route captured snapshot
         end.
Definition handle_connection (request : result ParseError Request) : Answer :=
  match request with
  | Err error => plain (status_of_parse error)
  | Ok request =>
      match tg_route (rq_target request) with
      | None => plain 404
      | Some route => answer_request request route
      end
  end.
End answer.

(** * What the request parser of the REST server guarantees

    The bounded read of a header does not depend on how the socket cuts it into reads, and
    the targets the parser accepts are exactly those that can be printed back. *)

(** ** The read of a header *)
Lemma find_terminator_app a b p : find_terminator a = Some p → find_terminator (a ++ b) = Some p.
Proof.
  revert p. induction a as [|x a IH]; intros p; [done|]. cbn [find_terminator app].
  case_bool_decide as E; intros H.
  - injection H as [= <-]. rewrite bool_decide_eq_true_2; [done|].
    assert (4 ≤ length (x :: a))%nat as Hl.
    { apply (f_equal length) in E. rewrite length_take in E. change (length CRLF2) with 4%nat in E. lia. }
    change (x :: a ++ b) with ((x :: a) ++ b). by rewrite take_app_le by done.
  - destruct (find_terminator a) as [q|] eqn:Eq; [|done]. simpl in H. injection H as [= <-].
    rewrite bool_decide_eq_false_2, (IH q) by
      (done || (intros E'; apply E; clear E IH;
        assert (4 ≤ length (x :: a))%nat as Hl;
        [ revert q Eq; destruct a as [|? [|? [|? ?]]]; simpl; try lia; intros q; repeat case_bool_decide; naive_solver
        | change (x :: a ++ b) with ((x :: a) ++ b) in E'; by rewrite take_app_le in E' by done ])).
    done.
Qed.
Lemma find_terminator_room a p : find_terminator a = Some p → (p + 4 ≤ length a)%nat.
Proof.
  revert p. induction a as [|x a IH]; intros p; [done|]. cbn [find_terminator].
  case_bool_decide as E; intros H.
  - injection H as [= <-]. apply (f_equal length) in E. rewrite length_take in E. change (length CRLF2) with 4%nat in E. lia.
  - destruct (find_terminator a) as [q|]; [|done]. injection H as [= <-]. specialize (IH _ eq_refl). simpl. lia.
Qed.
(** A turn that begins within the time limit and does not end the read. *)
Definition quiet (turn : ReadTurn) : Prop :=
  rt_timed_out turn = false ∧
  match rt_outcome turn with Received bytes => bytes ≠ [] | Waiting => True | Closed | ReadFailed => False end.
(** The bytes a turn delivers. *)
Definition delivered (turn : ReadTurn) : list Z :=
  match rt_outcome turn with Received bytes => bytes | _ => [] end.
Lemma receive_chunks data turns p :
  Forall quiet turns → turns ≠ [] →
  let whole := data ++ concat (delivered <$> turns) in
  (length data < length whole)%nat →
  Z.of_nat (length whole) ≤ MAX_HEADER_BYTES → find_terminator whole = Some p → (p + 4 = length whole)%nat →
  receive data turns = Ok (whole, length whole).
Proof.
  cbv zeta. revert data. induction turns as [|turn turns IH]; intros data Hq _ Hlt Hmax Hp Hend.
  { simpl in Hlt. rewrite app_nil_r in Hlt. lia. }
  inversion_clear Hq as [|? ? [Ht Ho] Hq'].
  destruct turn as [timed outcome]; unfold delivered in *; cbn [rt_timed_out rt_outcome receive] in *; subst timed.
  destruct outcome as [|bytes| |]; try done.
  - rewrite !fmap_cons in *. cbn [concat rt_outcome] in *. rewrite !app_assoc in *.
    set (rest := concat _) in *. fold (delivered) in *.
    destruct (Z.ltb_spec MAX_HEADER_BYTES (Z.of_nat (length (data ++ bytes)))).
    { rewrite !length_app in *. lia. }
    destruct (find_terminator (data ++ bytes)) as [q|] eqn:Eq.
    + pose proof (find_terminator_app _ rest _ Eq) as E'. rewrite Hp in E'. injection E' as [= <-].
      pose proof (find_terminator_room _ _ Eq) as Hroom.
      assert (rest = []) as ->. { apply length_zero_iff_nil. rewrite length_app in Hend. lia. }
      rewrite app_nil_r in *. by rewrite Hend.
    + destruct turns as [|turn turns].
      { subst rest. simpl in Hp. rewrite app_nil_r in Hp. congruence. }
      apply IH; [done|done| |done|done|done].
      destruct (decide (rest = [])) as [E|E].
      { rewrite E, app_nil_r in Hp. congruence. }
      fold rest. rewrite length_app with (l' := rest). destruct rest; [done|]. simpl. lia.
  - rewrite !fmap_cons in *. cbn [concat rt_outcome app] in *. destruct turns as [|turn turns].
    { simpl in Hlt. rewrite app_nil_r in Hlt. lia. }
    by apply IH.
Qed.

Lemma find_terminator_prefix a b : find_terminator (a ++ b) = None → find_terminator a = None.
Proof. intros H. destruct (find_terminator a) as [q|] eqn:E; [|done]. by rewrite (find_terminator_app _ b _ E) in H. Qed.
(** Turns within the limit that deliver no complete header leave the rest to the next ones. *)
Lemma receive_incomplete data turns rest :
  Forall quiet turns → let whole := data ++ concat (delivered <$> turns) in
  Z.of_nat (length whole) ≤ MAX_HEADER_BYTES → find_terminator whole = None →
  receive data (turns ++ rest) = receive whole rest.
Proof.
  cbv zeta. intros Hq. revert data. induction Hq as [|turn turns [Ht Ho] Hq IH]; intros data Hmax Hnone.
  { cbn. by rewrite app_nil_r. }
  destruct turn as [timed outcome]; unfold delivered in *; cbn [app rt_timed_out rt_outcome receive] in *; subst timed.
  destruct outcome as [|bytes| |]; try done; rewrite !fmap_cons in *; cbn [concat rt_outcome app] in *; [|by apply IH].
  rewrite !app_assoc in *. rewrite length_app in Hmax.
  destruct (Z.ltb_spec MAX_HEADER_BYTES (Z.of_nat (length (data ++ bytes)))); [lia|].
  rewrite (find_terminator_prefix _ _ Hnone). apply IH; [by rewrite length_app|done].
Qed.
(** C35. Within the time limit the result of a request without a body does not depend on how
    its bytes arrive: when no turn of the read loop begins after the limit and the socket
    neither closes nor fails, then, whatever the sizes of the reads and however many turns
    find nothing, a header of at most 8 KiB that ends with the blank line is parsed as when
    it arrives in one read. And a turn that begins after the limit, before the header is
    complete, refuses the request, whatever would still arrive. *)
Theorem request_chunking authority turns data :
  Forall quiet turns → concat (delivered <$> turns) = data → Z.of_nat (length data) ≤ MAX_HEADER_BYTES →
  (∀ p, find_terminator data = Some p → (p + 4 = length data)%nat →
     read_request authority turns = parse_request authority data (length data))
  ∧ (find_terminator data = None → ∀ late rest, rt_timed_out late = true →
       read_request authority (turns ++ late :: rest) = Err BadRequest).
Proof.
  intros Hq Hd Hmax. unfold read_request. split.
  - intros p Hp Hend. assert (data ≠ []) as Hne by (destruct data; done).
    rewrite (receive_chunks [] turns p); cbn [app]; rewrite ?Hd; try done.
    + intros ->. by subst data.
    + destruct data; [done|]. simpl. lia.
  - intros Hnone late rest Hlate. rewrite receive_incomplete by (cbn [app]; rewrite ?Hd; done).
    cbn [receive]. by rewrite Hlate.
Qed.
Definition demo_header : list Z :=
  lit "GET /v5/history/periods?account=account-7&cursor=a3 HTTP/1.1" ++ [13; 10] ++ lit "Host: 127.0.0.1:8080" ++ CRLF2.
Definition demo_turns : list ReadTurn := [
  {| rt_timed_out := false; rt_outcome := Received (take 82 demo_header) |};
  {| rt_timed_out := false; rt_outcome := Waiting |};
  {| rt_timed_out := false; rt_outcome := Received (drop 82 demo_header) |}].
Lemma request_chunking_witness :
  read_request (Some (lit "127.0.0.1:8080")) demo_turns
    = parse_request (Some (lit "127.0.0.1:8080")) demo_header (length demo_header) ∧
  (rq_target <$> match read_request (Some (lit "127.0.0.1:8080")) demo_turns with Ok r => Some r | Err _ => None end)
    = Some {| tg_route := Some RouteHistoryPeriodsV5; tg_account := Some (lit "account-7");
              tg_period := None; tg_cursor := Some (lit "a3") |} ∧
  read_request None (take 2 demo_turns ++ [{| rt_timed_out := true; rt_outcome := Waiting |}]) = Err BadRequest.
Proof.
  split; [|split; [vm_compute; reflexivity|]].
  - apply (request_chunking _ _ demo_header) with (p := 82%nat);
      [|vm_compute; reflexivity|vm_compute; done|vm_compute; reflexivity|vm_compute; reflexivity].
    repeat constructor; vm_compute; done.
  - apply (request_chunking _ _ (take 82 demo_header)); [|vm_compute; reflexivity|vm_compute; done|vm_compute; reflexivity|done].
    repeat constructor; vm_compute; done.
Defined.

(** ** Targets *)
Definition path_of (route : Route) : text :=
  match List.find (λ row, bool_decide (row.2 = route)) route_table with Some row => lit row.1 | None => [] end.
Definition named (name : text) (value : option text) : list text :=
  match value with Some value => [name ++ 61 :: value] | None => [] end.
Definition pieces (target : Target) : list text :=
  named (lit "account") (tg_account target) ++ named (lit "period") (tg_period target)
  ++ named (lit "cursor") (tg_cursor target).
Definition print_target (target : Target) : text :=
  match tg_route target with
  | None => []
  | Some route => path_of route ++ match pieces target with [] => [] | ps => 63 :: join 38 ps end
  end.
Definition plain_value (value : text) : Prop := value ≠ [] ∧ ∀ x, x ∈ value → x ≠ 35 ∧ x ≠ 37 ∧ x ≠ 38 ∧ x ≠ 61.
Definition all_some (P : text → Prop) (o : option text) : Prop := ∀ value, o = Some value → P value.
(** The fields a route takes. *)
Definition fields_allowed (route : Route) (target : Target) : Prop :=
  if route_directory_v5 route then tg_period target = None
  else if bool_decide (route = RouteHistoryV3) then pieces target ≠ []
  else if route_v3 route && negb (bool_decide (route = RouteAccountsV3))
       then tg_period target = None ∧ tg_cursor target = None
  else pieces target = [].
Record printable (target : Target) (route : Route) : Prop := {
  pr_route : tg_route target = Some route;
  pr_account : all_some (λ v, plain_value v ∧ valid_account_selector v = true) (tg_account target);
  pr_period : all_some plain_value (tg_period target);
  pr_cursor : all_some plain_value (tg_cursor target);
  pr_allowed : fields_allowed route target
}.
Lemma contains_char_false s c : contains_char s c = false ↔ c ∉ s.
Proof.
  unfold contains_char. split.
  - intros H Hc. apply not_true_iff_false in H. apply H, existsb_exists. exists c. split; [by apply list_elem_of_In|lia].
  - intros H. apply not_true_iff_false. intros E. apply existsb_exists in E as (x & Hx & E).
    apply list_elem_of_In in Hx. assert (c = x) by lia. by subst.
Qed.
Lemma path_of_facts route : route_of_path (path_of route) = Some route ∧
  (∃ rest, path_of route = 47 :: rest) ∧ Forall (λ x, x ≠ 35 ∧ x ≠ 63) (path_of route).
Proof.
  destruct route; (split; [vm_compute; reflexivity|]); (split; [eexists; vm_compute; reflexivity|]);
    apply Forall_forall; intros x Hx; vm_compute in Hx; set_solver.
Qed.
Lemma split_once_piece name value : 61 ∉ name → split_once [61] (name ++ 61 :: value) = Some (name, value).
Proof. intros H. apply (split_once_app 61 [] name value H). Qed.
Lemma query_field_piece name value : 61 ∉ name → plain_value value →
  query_field (name ++ 61 :: value) = Ok (name, value).
Proof.
  intros Hn [Hne Hv]. unfold query_field. rewrite split_once_piece by done. simpl.
  rewrite bool_decide_eq_false_2 by done. rewrite (proj2 (contains_char_false value 61)) by naive_solver. done.
Qed.
Lemma account_name : 61 ∉ lit "account". Proof. vm_compute. set_solver. Qed.
Lemma period_name : 61 ∉ lit "period". Proof. vm_compute. set_solver. Qed.
Lemma cursor_name : 61 ∉ lit "cursor". Proof. vm_compute. set_solver. Qed.
Lemma account_piece allowed target v : plain_value v → valid_account_selector v = true → tg_account target = None →
  query_step allowed target (lit "account" ++ 61 :: v)
  = Ok {| tg_route := tg_route target; tg_account := Some v; tg_period := tg_period target; tg_cursor := tg_cursor target |}.
Proof. intros Hp Hv Ha. unfold query_step. rewrite (query_field_piece _ _ account_name Hp). simpl. by rewrite Ha, Hv. Qed.
Lemma period_piece target v : plain_value v → tg_period target = None →
  query_step true target (lit "period" ++ 61 :: v)
  = Ok {| tg_route := tg_route target; tg_account := tg_account target; tg_period := Some v; tg_cursor := tg_cursor target |}.
Proof. intros Hp Ha. unfold query_step. rewrite (query_field_piece _ _ period_name Hp). simpl. by rewrite Ha. Qed.
Lemma cursor_piece allowed target v : plain_value v → tg_cursor target = None →
  query_step allowed target (lit "cursor" ++ 61 :: v)
  = Ok {| tg_route := tg_route target; tg_account := tg_account target; tg_period := tg_period target; tg_cursor := Some v |}.
Proof.
  intros Hp Ha. unfold query_step. rewrite (query_field_piece _ _ cursor_name Hp). simpl.
  rewrite Ha. by destruct allowed.
Qed.
Lemma fold_pieces allowed target route : printable target route → (allowed = false → tg_period target = None) →
  fold_result (query_step allowed) (bare (Some route)) (pieces target) = Ok target.
Proof.
  intros [Hr Ha Hp Hc _] Hallowed. destruct target as [r [a|] [p|] [c|]]; unfold all_some, pieces, named in *; cbn in Hr, Ha, Hp, Hc, Hallowed |- *; subst r.
  all: try (destruct allowed; [|by specialize (Hallowed eq_refl)]).
  all: repeat first
    [ rewrite account_piece by (done || apply Ha; done)
    | rewrite period_piece by (done || apply Hp; done)
    | rewrite cursor_piece by (done || apply Hc; done) ]; cbn; done.
Qed.
Lemma split_join c ws : ws ≠ [] → Forall (λ w, c ∉ w) ws → split c (join c ws) = ws.
Proof.
  induction ws as [|w [|w' ws] IH]; intros Hne Hf; [done| |]; inversion_clear Hf as [|? ? Hw Hws].
  - by apply split_absent.
  - change (join c (w :: w' :: ws)) with (w ++ c :: join c (w' :: ws)). rewrite split_app by done. by rewrite IH.
Qed.
Definition clean (w : text) : Prop := w ≠ [] ∧ ∀ x, x ∈ w → x ≠ 35 ∧ x ≠ 37 ∧ x ≠ 38.
Lemma clean_named name value :
  Forall (λ x, x ≠ 35 ∧ x ≠ 37 ∧ x ≠ 38) name → all_some plain_value value → Forall clean (named name value).
Proof.
  intros Hn Hv. destruct value as [v|]; cbn; [|constructor]. constructor; [|constructor].
  destruct (Hv v eq_refl) as [_ Hx]. split; [by destruct name|].
  intros x [Hin|[->|Hin]%elem_of_cons]%elem_of_app; [by eapply Forall_forall in Hn|lia|naive_solver].
Qed.
Lemma pieces_clean target route : printable target route → Forall clean (pieces target).
Proof.
  intros [_ Ha Hp Hc _]. unfold pieces. rewrite !Forall_app.
  assert (all_some plain_value (tg_account target)) by (intros v Hv; by apply Ha).
  split_and!; apply clean_named; try done; apply Forall_forall; intros x Hx; vm_compute in Hx; set_solver.
Qed.
Lemma elem_of_join c x ws : x ∈ join c ws → x = c ∨ ∃ w, w ∈ ws ∧ x ∈ w.
Proof.
  induction ws as [|w [|w' ws] IH]; [by intros ?%elem_of_nil| |].
  - simpl. intros H. right. exists w. split; [set_solver|done].
  - change (join c (w :: w' :: ws)) with (w ++ c :: join c (w' :: ws)).
    intros [H|[->|H]%elem_of_cons]%elem_of_app; [right; exists w; set_solver|by left|].
    destruct (IH H) as [->|(v & Hv & Hx)]; [by left|right]. exists v. set_solver.
Qed.
Lemma join_clean ws : Forall clean ws → ∀ x, x ∈ join 38 ws → x ≠ 35 ∧ x ≠ 37.
Proof.
  intros Hf x [->|(w & Hw & Hx)]%elem_of_join; [lia|]. rewrite Forall_forall in Hf.
  destruct (Hf w Hw) as [_ H]. destruct (H x Hx) as (? & ? & ?). done.
Qed.
Lemma join_nonnil ws : ws ≠ [] → Forall clean ws → join 38 ws ≠ [].
Proof.
  destruct ws as [|w [|w' ws]]; [done| |]; intros _ Hf; inversion_clear Hf as [|? ? [Hw _] _]; [done|].
  change (join 38 (w :: w' :: ws)) with (w ++ 38 :: join 38 (w' :: ws)). by destruct w.
Qed.
(** How the target divides into its path and its query. *)
Lemma target_bare route : parse_target (path_of route) =
  if bool_decide (route = RouteHistoryV3) then Err BadRequest else Ok (bare (Some route)).
Proof. destruct route; vm_compute; reflexivity. Qed.
Lemma some_route (route r : Route) : bool_decide (Some route = Some r) = bool_decide (route = r).
Proof. apply bool_decide_ext. split; [by intros [= ->]|by intros ->]. Qed.
Lemma target_query route query : query ≠ [] → (∀ x, x ∈ query → x ≠ 35 ∧ x ≠ 37) →
  parse_target (path_of route ++ 63 :: query) =
  if route_directory_v5 route then fold_result (query_step false) (bare (Some route)) (split 38 query)
  else if negb (bool_decide (route = RouteHistoryV3)) then
    if route_v3 route then
      if bool_decide (route = RouteAccountsV3) then Err BadRequest
      else fold_result account_step (bare (Some route)) (split 38 query)
    else Ok (bare None)
  else fold_result (query_step true) (bare (Some route)) (split 38 query).
Proof.
  intros Hne Hq. destruct (path_of_facts route) as (Hroute & [rest Hrest] & Hpath). rewrite Forall_forall in Hpath.
  assert (63 ∉ path_of route) as H63 by (intros H; by destruct (Hpath _ H)).
  unfold parse_target.
  rewrite (bool_decide_eq_false_2 (_ ++ _ = [])) by (rewrite Hrest; done).
  rewrite (proj2 (contains_char_false (path_of route ++ 63 :: query) 35)).
  2:{ intros [H|[H|H]%elem_of_cons]%elem_of_app; [by destruct (Hpath _ H)|done|by destruct (Hq _ H)]. }
  assert (starts_with (path_of route ++ 63 :: query) [47] = true) as ->.
  { unfold starts_with. rewrite Hrest. done. }
  cbn [orb negb].
  pose proof (split_once_app 63 [] (path_of route) query H63) as Hs. cbn [app] in Hs. rewrite Hs.
  cbn [default from_option fst snd]. unfold id. cbv beta iota zeta. rewrite Hroute. cbn [is_some_and].
  rewrite (bool_decide_eq_false_2 (query = [])) by done.
  rewrite (proj2 (contains_char_false query 37)) by (intros H; by destruct (Hq _ H)).
  rewrite andb_false_r. cbn [orb negb].
  destruct (route_directory_v5 route) eqn:E5; [done|].
  rewrite (some_route route RouteHistoryV3), (some_route route RouteAccountsV3).
  done.
Qed.
Lemma account_step_piece target v : plain_value v → valid_account_selector v = true → tg_account target = None →
  account_step target (lit "account" ++ 61 :: v)
  = Ok {| tg_route := tg_route target; tg_account := Some v; tg_period := tg_period target; tg_cursor := tg_cursor target |}.
Proof.
  intros [Hne Hv] Hsel Ha. unfold account_step. rewrite split_once_piece by apply account_name. simpl.
  rewrite bool_decide_eq_false_2 by done. rewrite (proj2 (contains_char_false v 61)) by naive_solver.
  by rewrite Hsel, Ha.
Qed.
Lemma print_parse target route : printable target route → parse_target (print_target target) = Ok target.
Proof.
  intros Hpr. pose proof (pieces_clean _ _ Hpr) as Hclean. pose proof (fold_pieces false _ _ Hpr) as Hf5.
  pose proof (fold_pieces true _ _ Hpr) as Hf3. destruct Hpr as [Hr Ha Hp Hc Hall].
  unfold print_target. rewrite Hr. unfold fields_allowed in Hall.
  destruct (decide (pieces target = [])) as [E|E].
  - rewrite E, app_nil_r, target_bare.
    assert (target = bare (Some route)) as ->.
    { destruct target as [r [a|] [p|] [c|]]; try done. cbn in Hr. by subst r. }
    case_bool_decide as E3; [|done]. subst route. by destruct Hall.
  - destruct (pieces target) as [|w ws] eqn:Ep; [done|]. rewrite <- Ep in *.
    rewrite target_query by (by apply join_nonnil || by apply join_clean).
    assert (split 38 (join 38 (pieces target)) = pieces target) as ->.
    { apply split_join; [done|]. apply Forall_forall. intros v Hv. rewrite Forall_forall in Hclean.
      destruct (Hclean v Hv) as [_ H]. intros H38. naive_solver. }
    destruct (route_directory_v5 route); [by apply Hf5|]. case_bool_decide; [by apply Hf3|]. cbn [negb].
    destruct (route_v3 route); cbn [andb] in Hall; [|done]. case_bool_decide; [done|]. cbn [negb] in Hall.
    destruct Hall as [Hp0 Hc0]. clear Hclean Hf5 Hf3 Ep E.
    destruct target as [r [a|] p c]; cbn [tg_route tg_account tg_period tg_cursor] in *; subst; [|done].
    destruct (Ha a eq_refl). change (fold_result account_step (bare (Some route)) [lit "account" ++ 61 :: a] = Ok {|
      tg_route := Some route; tg_account := Some a; tg_period := None; tg_cursor := None |}).
    cbn [fold_result]. by rewrite account_step_piece.
Qed.
(** What every step over a query keeps. *)
Record fields_ok (route : Route) (target : Target) : Prop := {
  fo_route : tg_route target = Some route;
  fo_account : all_some (λ v, plain_value v ∧ valid_account_selector v = true) (tg_account target);
  fo_period : all_some plain_value (tg_period target);
  fo_cursor : all_some plain_value (tg_cursor target)
}.
Definition query_piece (w : text) : Prop := ∀ x, x ∈ w → x ≠ 35 ∧ x ≠ 37 ∧ x ≠ 38.
Lemma split_pieces c s w : w ∈ split c s → c ∉ w ∧ ∀ x, x ∈ w → x ∈ s.
Proof.
  revert w. induction s as [|x s IH]; intros w; simpl.
  { intros ->%list_elem_of_singleton. by split; [apply not_elem_of_nil|]. }
  pose proof (split_nonnil c s) as Hne. destruct (Z.eqb_spec x c) as [->|Hx].
  - intros [->|H]%elem_of_cons; [by split; [apply not_elem_of_nil|intros ? ?%elem_of_nil]|].
    destruct (IH w H) as [? Hsub]. split; [done|]. intros y Hy. apply elem_of_cons. right. by apply Hsub.
  - destruct (split c s) as [|v vs]; [done|]. intros [->|H]%elem_of_cons.
    + destruct (IH v) as [Hv Hsub]; [by left|]. split; [by apply not_elem_of_cons|].
      intros y [->|Hy]%elem_of_cons; apply elem_of_cons; [by left|right; by apply Hsub].
    + destruct (IH w) as [? Hsub]; [by right|]. split; [done|].
      intros y Hy. apply elem_of_cons. right. by apply Hsub.
Qed.
Lemma value_plain name value w : query_piece w → split_once [61] w = Some (name, value) →
  bool_decide (value = []) || contains_char value 61 = false → plain_value value.
Proof.
  intros Hw Hs [Hne H61]%orb_false_iff. apply split_once_Some in Hs. apply bool_decide_eq_false in Hne.
  apply contains_char_false in H61. split; [done|]. intros x Hx. destruct (Hw x) as (? & ? & ?); [set_solver|].
  split_and!; try done. intros ->. done.
Qed.
Lemma query_field_plain w name value : query_piece w → query_field w = Ok (name, value) → plain_value value.
Proof.
  intros Hw. unfold query_field. destruct (split_once [61] w) as [[n v]|] eqn:Es; [|done]. simpl.
  destruct (bool_decide (v = []) || contains_char v 61) eqn:Ev; [done|]. intros [= <- <-].
  by eapply value_plain.
Qed.
Lemma query_step_keeps allowed route target w target' : query_piece w → fields_ok route target →
  query_step allowed target w = Ok target' →
  fields_ok route target' ∧ pieces target' ≠ [] ∧ (allowed = false → tg_period target = None → tg_period target' = None).
Proof.
  intros Hw [Hr Ha Hp Hc]. unfold query_step.
  destruct (query_field w) as [[name value]|] eqn:Ef; unfold mbind, result_bind; [|done].
  pose proof (query_field_plain _ _ _ Hw Ef) as Hplain. clear Ef.
  assert (∀ P : text → Prop, P value → all_some P (Some value)) as Hone by (intros P HP v [= <-]; done).
  match goal with |- context [text_eqb name (lit "account") && ?b && ?c] => destruct (text_eqb name (lit "account") && b && c) eqn:E1 end.
  2: clear E1; match goal with |- context [allowed && ?b && ?c] => destruct (allowed && b && c) eqn:E2 end.
  3: clear E2; match goal with |- context [text_eqb name (lit "cursor") && ?b] => destruct (text_eqb name (lit "cursor") && b) end; [|done].
  all: intros [= <-]; cbn.
  - apply andb_true_iff in E1 as [_ Hsel].
    split; [|split; [by destruct target as [? ? [] []]|done]]. constructor; cbn; try done. by apply Hone.
  - rewrite !andb_true_iff in E2. destruct E2 as [[-> _] _].
    split; [|split; [by destruct target as [? [] ? []]|done]]. constructor; cbn; try done. by apply Hone.
  - split; [|split; [by destruct target as [? [] [] ?]|done]]. constructor; cbn; try done. by apply Hone.
Qed.
Lemma query_fold_keeps allowed route ws : ∀ target target', Forall query_piece ws → ws ≠ [] → fields_ok route target →
  fold_result (query_step allowed) target ws = Ok target' →
  fields_ok route target' ∧ pieces target' ≠ [] ∧ (allowed = false → tg_period target = None → tg_period target' = None).
Proof.
  induction ws as [|w ws IH]; intros target target' Hf Hne Hok; [done|].
  inversion_clear Hf as [|? ? Hw Hws]. cbn [fold_result].
  destruct (query_step allowed target w) as [next|] eqn:Es; [|done].
  destruct (query_step_keeps _ _ _ _ _ Hw Hok Es) as (Hok' & Hpiece & Hperiod).
  destruct ws as [|w' ws]; [by intros [= <-]|]. intros H.
  destruct (IH next target' Hws) as (? & ? & ?); [done..|]. split_and!; naive_solver.
Qed.
Lemma account_fold_keeps route ws : ∀ target target', Forall query_piece ws → fields_ok route target →
  tg_period target = None → tg_cursor target = None →
  fold_result account_step target ws = Ok target' →
  fields_ok route target' ∧ tg_period target' = None ∧ tg_cursor target' = None.
Proof.
  induction ws as [|w ws IH]; intros target target' Hf Hok Hp Hc; [by intros [= <-]|].
  inversion_clear Hf as [|? ? Hw Hws]. cbn [fold_result]. unfold account_step at 1.
  destruct (split_once [61] w) as [[name value]|] eqn:Es; [|done]. simpl.
  destruct (_ || opt_is_some (tg_account target)) eqn:Ev; [done|]. apply IH; cbn; try done.
  rewrite !orb_false_iff, !negb_false_iff in Ev. destruct Ev as ((((_ & E1) & E2) & E3) & _).
  destruct Hok as [Hr Ha Hp' Hc']. constructor; cbn; try done. intros v [= <-]. split; [|done].
  eapply value_plain; [done..|]. by rewrite E1, E2.
Qed.
Lemma bare_fields route : fields_ok route (bare (Some route)).
Proof. by constructor. Qed.
Lemma fields_printable route target : fields_ok route target → fields_allowed route target → printable target route.
Proof. intros [] ?. by constructor. Qed.
Lemma parse_printable s target route : parse_target s = Ok target → tg_route target = Some route → printable target route.
Proof.
  unfold parse_target. case_bool_decide as Hne; [done|]. destruct (contains_char s 35) eqn:E35; [done|].
  destruct (starts_with s [47]); [|done]. cbn [orb negb].
  destruct (default (s, []) (split_once [63] s)) as [path query] eqn:Eq.
  assert (∀ x, x ∈ query → x ∈ s) as Hsub.
  { destruct (split_once [63] s) as [[b a]|] eqn:Es; cbn in Eq; injection Eq as <- <-; [|set_solver].
    apply split_once_Some in Es. subst s. set_solver. }
  apply contains_char_false in E35.
  assert (contains_char query 37 = false → Forall query_piece (split 38 query)) as Hpieces.
  { intros E37%contains_char_false. apply Forall_forall. intros w Hw x Hx.
    destruct (split_pieces _ _ _ Hw) as [H38 Hin]. specialize (Hin x Hx). split_and!; intros ->; naive_solver. }
  assert (∀ found t, route_of_path path = found → tg_route t = Some route → tg_route t = found → found = Some route) as Hfound by congruence.
  destruct (route_of_path path) as [found|] eqn:Er; cbn [is_some_and].
  2:{ cbn. destruct (bool_decide (query = [])); intros [= <-]; done. }
  assert (∀ t, fields_ok found t → tg_route t = Some route → found = route) as Hsame by (intros t [H _ _ _] E; congruence).
  destruct (route_directory_v5 found) eqn:E5.
  { destruct ((_ && _) || contains_char query 37) eqn:Eb; [done|]. apply orb_false_iff in Eb as [_ E37].
    case_bool_decide as Hq; intros H Ht.
    - injection H as <-. injection Ht as <-. apply fields_printable; [apply bare_fields|]. unfold fields_allowed. by rewrite E5.
    - destruct (query_fold_keeps _ found _ _ _ (Hpieces E37) (split_nonnil _ _) (bare_fields found) H) as (Hok & _ & Hper).
      specialize (Hsame _ Hok Ht). subst found. apply fields_printable; [done|]. unfold fields_allowed. rewrite E5. by apply Hper. }
  rewrite (some_route found RouteHistoryV3), (some_route found RouteAccountsV3).
  assert (∀ t, fields_ok found t → tg_route t = Some route →
    (bool_decide (found = RouteHistoryV3) = true → pieces t ≠ []) →
    (bool_decide (found = RouteHistoryV3) = false →
     if route_v3 found && negb (bool_decide (found = RouteAccountsV3)) then tg_period t = None ∧ tg_cursor t = None else pieces t = []) →
    printable t route) as Hgoal.
  { intros t Hok Ht H1 H2. specialize (Hsame _ Hok Ht). subst found. apply fields_printable; [done|].
    unfold fields_allowed. rewrite E5. destruct (bool_decide (route = RouteHistoryV3)); [by apply H1|by apply H2]. }
  clear Hfound Hsame. destruct (bool_decide (found = RouteHistoryV3)) eqn:E3; cbn [negb].
  - destruct (bool_decide (query = []) || contains_char query 37) eqn:Eb; [done|].
    apply orb_false_iff in Eb as [_ E37]. intros H Ht.
    destruct (query_fold_keeps _ found _ _ _ (Hpieces E37) (split_nonnil _ _) (bare_fields found) H) as (Hok & Hpc & _).
    by apply Hgoal.
  - destruct (route_v3 found); cbn [andb negb] in *.
    + destruct (contains_char s 63 && bool_decide (query = [])); [done|].
      destruct (bool_decide (found = RouteAccountsV3)); cbn [andb negb] in *.
      { destruct (bool_decide (query = [])); [|done]. intros [= <-] Ht. by apply Hgoal; [apply bare_fields|..]. }
      destruct (bool_decide (query = [])).
      { intros [= <-] Ht. by apply Hgoal; [apply bare_fields|..]. }
      destruct (contains_char query 37) eqn:E37; [done|]. intros H Ht.
      destruct (account_fold_keeps found _ _ _ (Hpieces eq_refl) (bare_fields found) eq_refl eq_refl H) as (Hok & Hp & Hc).
      by apply Hgoal.
    + destruct (bool_decide (query = [])); cbn; intros [= <-] Ht; [|done]. by apply Hgoal; [apply bare_fields|..].
Qed.

(** C36. Targets and their parts determine each other: printing the route and the fields of a
    target and parsing the text gives it back, when its route takes these fields, its account
    is a canonical selector and no value holds a sign of the query syntax; and every target
    the parser accepts for a known route is one of these, so parsing what was accepted and
    printed again changes nothing. *)
Theorem target_roundtrip target route :
  tg_route target = Some route →
  (printable target route → parse_target (print_target target) = Ok target) ∧
  (∀ s, parse_target s = Ok target → printable target route ∧ parse_target (print_target target) = Ok target).
Proof.
  intros Hr. split; [apply print_parse|]. intros s Hs.
  pose proof (parse_printable _ _ _ Hs Hr) as Hp. split; [done|by eapply print_parse].
Qed.
Definition demo_target : Target := {|
  tg_route := Some RouteHistoryV3; tg_account := Some (lit "account-7"); tg_period := Some (lit "p-2");
  tg_cursor := Some (lit "aa.0.1") |}.
Lemma target_roundtrip_witness :
  print_target demo_target = lit "/v3/history?account=account-7&period=p-2&cursor=aa.0.1" ∧
  printable demo_target RouteHistoryV3 ∧ parse_target (print_target demo_target) = Ok demo_target.
Proof.
  split; [vm_compute; reflexivity|].
  destruct (target_roundtrip demo_target RouteHistoryV3 eq_refl) as [_ H].
  apply (H (lit "/v3/history?cursor=aa.0.1&account=account-7&period=p-2")). vm_compute. reflexivity.
Defined.
