(* ===== verification/ServerDetails.v ===== *)
(** * The details document of the application

    Models [src/server.rs]: the validation of the three versions of the details document
    that the application applies to what it publishes and to what it reads, with its own
    errors and its own rule for the period a row belongs to. The structs have the fields
    of those of [Details]; the origin of a period is not on the wire. *)

From Stdlib Require Import SpecFloat.
From S2P Require Import Prelude Text Float64 Contract Security Details HistoryIndex.

Module Server.
Inductive ApiSnapshotError :=
  InvalidObservedAt | InvalidQuota | InvalidModel | InvalidLabel | InvalidHistoryPeriod | InvalidHistorySample
| InvalidHistoryObservation | InvalidHistoryGap | InvalidThread | ListTooLong | Serialization | PublishedPairGenerationFailed.
Definition ApiSnapshotError_message (self : ApiSnapshotError) : string :=
  match self with
  | InvalidObservedAt => "public snapshot has an invalid observation time"
  | InvalidQuota => "public snapshot has an invalid quota"
  | InvalidModel => "public snapshot has an invalid model"
  | InvalidLabel => "public snapshot has an invalid label"
  | InvalidHistoryPeriod => "public snapshot has an invalid history period"
  | InvalidHistorySample => "public snapshot has an invalid history sample"
  | InvalidHistoryObservation => "public snapshot has an invalid history observation"
  | InvalidHistoryGap => "public snapshot has an invalid history gap"
  | InvalidThread => "public snapshot has an invalid thread"
  | ListTooLong => "public snapshot has too many rows"
  | Serialization => "public snapshot could not be serialized"
  | PublishedPairGenerationFailed => "published pair generation is permanently unavailable"
  end.
Definition MAX_PUBLIC_MODELS_V3 : Z := 1024.

Definition current_reset_sample_exceeds_observation (sample_reset_at sample_timestamp : Z)
    (observed_at current_reset_at : option Z) : bool :=
  bool_decide (current_reset_at = Some sample_reset_at)
  && is_none_or (λ observed_at, observed_at <? sample_timestamp) observed_at.
(** [!value.is_finite() || !(0.0..=100.0).contains(&value)] *)
Definition outside_percent (value : f64) : bool :=
  negb (f64_is_finite value) || negb (f64_leb f64_zero value && f64_leb value f64_hundred).
(** The filter of the matching periods, of a sample and of a gap. *)
Definition period_hosts (reset_at first last : Z) (period : PublicHistoryPeriod) : bool :=
  (i64_saturating_sub (hp_reset_at period) 60 <=? reset_at) && (reset_at <=? hp_reset_at period)
  && (hp_start_at period <=? first) && (last <=? hp_end_at period).

(** ** Version 1 *)
Definition check_model (names : gset text) (model : PublicDetailedModelUsage) : result ApiSnapshotError (gset text) :=
  reject InvalidModel when
    negb (is_any (dm_name model) ["SOL"; "TERRA"; "LUNA"]%string)
    || bool_decide (dm_name model ∈ names)
    || negb (valid_rate (dm_input_dollars model)) || negb (valid_rate (dm_cached_input_dollars model))
    || negb (valid_rate (dm_output_dollars model));
  Ok ({[dm_name model]} ∪ names).
Definition check_period (s : period_state) (period : PublicHistoryPeriod) : result ApiSnapshotError period_state :=
  reject InvalidHistoryPeriod when
    negb (valid_text (hp_id period) MAX_PUBLIC_ID_SCALARS)
    || bool_decide (hp_id period ∈ ps_ids s) || bool_decide (hp_reset_at period ∈ ps_resets s)
    || negb (valid_timestamp (hp_start_at period)) || negb (valid_timestamp (hp_end_at period))
    || negb (valid_timestamp (hp_reset_at period))
    || (hp_end_at period <? hp_start_at period) || (hp_reset_at period <? hp_end_at period)
    || negb (valid_text (hp_label period) MAX_PUBLIC_HISTORY_LABEL_SCALARS)
    || bool_decide (hp_label period = []);
  Ok {| ps_ids := {[hp_id period]} ∪ ps_ids s; ps_resets := {[hp_reset_at period]} ∪ ps_resets s;
        ps_current := if hp_current period then ps_current s + 1 else ps_current s |}.
Definition check_current_period (observed_at : option Z) (quota : option PublicQuota) (_ : ()) (period : PublicHistoryPeriod) :
    result ApiSnapshotError () :=
  if hp_current period then
    observed_at ← ok_or observed_at InvalidHistoryPeriod;
    match quota with
    | Some quota =>
        '(expected_start_at, expected_end_at) ← ok_or (current_period_bounds (pq_reset_at quota) (pq_window_seconds quota) observed_at)
                                                  InvalidHistoryPeriod;
        reject InvalidHistoryPeriod when
          negb (hp_start_at period =? expected_start_at) || negb (hp_end_at period =? expected_end_at);
        Ok tt
    | None =>
        reject InvalidHistoryPeriod when negb (hp_end_at period =? Z.min (hp_reset_at period) observed_at);
        Ok tt
    end
  else Ok tt.
Definition check_sample (d : PublicDetails) (s : sample_state) (sample : PublicHistorySample) : result ApiSnapshotError sample_state :=
  reject InvalidHistorySample when
    negb (valid_timestamp (hs_timestamp sample)) || negb (hs_timestamp sample mod 60 =? 0)
    || negb (valid_timestamp (hs_reset_at sample))
    || current_reset_sample_exceeds_observation (hs_reset_at sample) (hs_timestamp sample) (d_observed_at d)
         (pq_reset_at <$> d_quota d)
    || is_some_and outside_percent (hs_remaining_percent sample)
    || negb (valid_rate (hs_sol_dollars sample)) || negb (valid_rate (hs_terra_dollars sample))
    || negb (valid_rate (hs_luna_dollars sample));
  reject InvalidHistorySample when bool_decide (Details.sample_key sample ∈ ss_ids s);
  match List.filter (period_hosts (hs_reset_at sample) (hs_timestamp sample) (hs_timestamp sample)) (d_history_periods d) with
  | [period] =>
      reject InvalidHistorySample when bool_decide ((hp_id period, hs_timestamp sample) ∈ ss_canonical_ids s);
      reject InvalidHistorySample when
        is_some_and (λ previous, pair_gtb previous (Details.sample_key sample)) (ss_previous s);
      Ok {| ss_ids := {[Details.sample_key sample]} ∪ ss_ids s;
            ss_canonical_ids := {[(hp_id period, hs_timestamp sample)]} ∪ ss_canonical_ids s;
            ss_previous := Some (Details.sample_key sample) |}
  | _ => Err InvalidHistorySample
  end.
Definition check_gap (periods : list PublicHistoryPeriod) (s : gap_state) (gap : PublicHistoryGap) :
    result ApiSnapshotError gap_state :=
  reject InvalidHistoryGap when
    negb (valid_lower_hex32 (hg_gap_id gap)) || bool_decide (hg_gap_id gap ∈ gs_ids s)
    || negb (valid_timestamp (hg_reset_at gap)) || negb (valid_timestamp (hg_start_at gap))
    || negb (valid_timestamp (hg_end_at gap)) || (hg_end_at gap <? hg_start_at gap)
    || negb (is_any (hg_reason gap) ["daemon_stop_unrecoverable"; "reset_hint_expired"; "auth_epoch_tombstoned"]%string);
  match List.filter (period_hosts (hg_reset_at gap) (hg_start_at gap) (hg_end_at gap)) periods with
  | [period] =>
      reject InvalidHistoryGap when is_some_and (λ previous, gap_gtb previous gap) (gs_previous s);
      reject InvalidHistoryGap when
        existsb (λ '(period_id, start_at, end_at),
          text_eqb period_id (hp_id period) && (hg_start_at gap <=? end_at) && (start_at <=? hg_end_at gap)) (gs_ranges s);
      Ok {| gs_ids := {[hg_gap_id gap]} ∪ gs_ids s; gs_previous := Some gap;
            gs_ranges := gs_ranges s ++ [(hp_id period, hg_start_at gap, hg_end_at gap)] |}
  | _ => Err InvalidHistoryGap
  end.
Definition check_thread (thread_ids : gset text) (thread : PublicThread) : result ApiSnapshotError (gset text) :=
  reject InvalidThread when
    negb (valid_text (pt_id thread) MAX_PUBLIC_ID_SCALARS) || bool_decide (pt_id thread ∈ thread_ids)
    || negb (valid_text (pt_title thread) MAX_THREAD_TITLE_SCALARS) || bool_decide (pt_title thread = [])
    || negb (valid_text (pt_model thread) MAX_MODEL_SCALARS) || bool_decide (pt_model thread = [])
    || negb (valid_text (pt_model_label thread) MAX_ACCOUNT_ACTIVITY_LABEL_SCALARS) || bool_decide (pt_model_label thread = [])
    || negb (is_none_or (λ id, valid_text id MAX_PUBLIC_ID_SCALARS && negb (bool_decide (id = []))) (pt_parent_thread_id thread))
    || negb (is_none_or valid_timestamp (pt_created_at thread))
    || negb (is_none_or valid_timestamp (pt_last_user_message_at thread))
    || negb (is_none_or (in_range 0 1024) (pt_depth thread));
  Ok ({[pt_id thread]} ∪ thread_ids).
Definition validate_public_threads (threads : list PublicThread) : result ApiSnapshotError () :=
  reject ListTooLong when MAX_PUBLIC_THREADS <? count threads;
  _ ← fold_result check_thread ∅ threads;
  Ok tt.
Definition PublicDetails_validate (self : PublicDetails) : result ApiSnapshotError () :=
  reject InvalidObservedAt when is_some_and (λ timestamp, negb (valid_timestamp timestamp)) (d_observed_at self);
  reject InvalidQuota when
    is_some_and (λ quota, outside_percent (pq_remaining_percent quota) || negb (valid_timestamp (pq_reset_at quota))
                          || (pq_window_seconds quota <=? 0)) (d_quota self);
  reject InvalidLabel when is_some_and (λ label, negb (valid_text label MAX_PLAN_SCALARS)) (d_plan_label self);
  reject ListTooLong when MAX_PUBLIC_HISTORY_SAMPLES <? count (d_history_samples self);
  reject ListTooLong when MAX_PUBLIC_HISTORY_GAPS <? count (d_history_gaps self);
  reject ListTooLong when MAX_PUBLIC_MODELS <? count (d_models self);
  _ ← fold_result check_model ∅ (d_models self);
  periods ← fold_result check_period {| ps_ids := ∅; ps_resets := ∅; ps_current := 0 |} (d_history_periods self);
  reject InvalidHistoryPeriod when 1 <? ps_current periods;
  _ ← fold_result (check_current_period (d_observed_at self) (d_quota self)) tt (d_history_periods self);
  _ ← fold_result (check_sample self) {| ss_ids := ∅; ss_canonical_ids := ∅; ss_previous := None |} (d_history_samples self);
  _ ← fold_result (check_gap (d_history_periods self)) {| gs_ids := ∅; gs_previous := None; gs_ranges := [] |} (d_history_gaps self);
  _ ← validate_public_threads (d_threads self);
  reject InvalidLabel when
    negb (valid_text (d_estimated_cost_label self) MAX_STATUS_SCALARS) || bool_decide (d_estimated_cost_label self = []);
  Ok tt.

(** ** Version 2 *)
Definition to_v1_projection (self : PublicDetailsV2) : PublicDetails := {|
  d_state := d2_state self; d_observed_at := d2_observed_at self; d_authenticated := d2_authenticated self;
  d_plan_label := d2_plan_label self; d_quota := d2_quota self; d_models := d2_models self;
  d_active_thread_count := d2_active_thread_count self; d_history_periods := d2_history_periods self;
  d_history_samples := filter_map as_legacy_sample (d2_history_samples self);
  d_history_gaps := d2_history_gaps self; d_threads := d2_threads self;
  d_estimated_cost_label := d2_estimated_cost_label self |}.
Definition known_source (source : text) : bool :=
  is_any source ["confirmed"; "reconstructed-from-session"; "unavailable"; "legacy-unknown"]%string.
Definition modelless_source (source : text) : bool := is_any source ["unavailable"; "reconstructed-from-session"]%string.
Definition check_observation (d : PublicDetailsV2) (s : sample_state) (sample : PublicHistoryObservation) :
    result ApiSnapshotError sample_state :=
  let key := (ho_reset_at sample, ho_timestamp sample) in
  reject InvalidHistoryObservation when
    negb (valid_timestamp (ho_timestamp sample)) || negb (ho_timestamp sample mod 60 =? 0)
    || negb (valid_timestamp (ho_reset_at sample))
    || current_reset_sample_exceeds_observation (ho_reset_at sample) (ho_timestamp sample) (d2_observed_at d)
         (pq_reset_at <$> d2_quota d)
    || bool_decide (key ∈ ss_ids s) || is_some_and (λ previous, pair_gtb previous key) (ss_previous s)
    || negb (known_source (ho_model_source sample)) || is_some_and outside_percent (ho_remaining_percent sample);
  let values := [ho_sol_dollars sample; ho_terra_dollars sample; ho_luna_dollars sample] in
  let tokens := [ho_sol_tokens sample; ho_terra_tokens sample; ho_luna_tokens sample] in
  let complete := forallb opt_is_some values && forallb opt_is_some tokens in
  let empty := forallb (λ v, negb (opt_is_some v)) values && forallb (λ v, negb (opt_is_some v)) tokens in
  reject InvalidHistoryObservation when
    (modelless_source (ho_model_source sample) && negb empty)
    || (legacy_source (ho_model_source sample) && negb complete)
    || existsb (is_some_and (λ value, negb (valid_rate value))) values;
  match List.filter (period_hosts (ho_reset_at sample) (ho_timestamp sample) (ho_timestamp sample)) (d2_history_periods d) with
  | [period] =>
      reject InvalidHistoryObservation when bool_decide ((hp_id period, ho_timestamp sample) ∈ ss_canonical_ids s);
      Ok {| ss_ids := {[key]} ∪ ss_ids s; ss_canonical_ids := {[(hp_id period, ho_timestamp sample)]} ∪ ss_canonical_ids s;
            ss_previous := Some key |}
  | _ => Err InvalidHistoryObservation
  end.
Definition PublicDetailsV2_validate (self : PublicDetailsV2) : result ApiSnapshotError () :=
  reject ListTooLong when MAX_PUBLIC_HISTORY_SAMPLES <? count (d2_history_samples self);
  _ ← fold_result (check_observation self) {| ss_ids := ∅; ss_canonical_ids := ∅; ss_previous := None |} (d2_history_samples self);
  PublicDetails_validate (to_v1_projection self).

(** ** Version 3 *)
Definition validate_v3_model_tokens (model : text) (input cached : Z) (cache_write : option Z) : result ApiSnapshotError () :=
  reject InvalidModel when
    negb (valid_text model MAX_MODEL_SCALARS) || (input <? cached)
    || is_some_and (λ writes, is_none_or (λ discounted, input <? discounted) (u64_checked_add cached writes)) cache_write;
  Ok tt.
(** [SFsub] and [SFabs] are the subtraction and the absolute value of doubles. *)
Definition cost_components (cost : PublicModelCostV3) : list f64 :=
  [mc_ordinary_input_dollars cost; mc_cached_input_dollars cost; mc_cache_write_input_dollars cost; mc_output_dollars cost].
Definition invalid_cost (cost : PublicModelCostV3) : bool :=
  let sum := fold_left f64_add (cost_components cost) f64_zero in
  negb (valid_text (mc_price_version cost) MAX_PUBLIC_ID_SCALARS)
  || existsb (λ value, negb (valid_rate value)) (cost_components cost ++ [mc_total_dollars cost])
  || f64_ltb (f64_ratio 1 1000000) (SFabs (SFsub 53 1024 sum (mc_total_dollars cost))).
Definition check_model_v3 (model_ids : gset text) (model : PublicModelUsageV3) : result ApiSnapshotError (gset text) :=
  _ ← validate_v3_model_tokens (m3_model model) (m3_input_tokens model) (m3_cached_input_tokens model)
        (m3_cache_write_input_tokens model);
  reject InvalidModel when bool_decide (m3_model model ∈ model_ids);
  reject InvalidModel when is_some_and invalid_cost (m3_estimated_cost model);
  Ok ({[m3_model model]} ∪ model_ids).
Definition check_row_model (source : text) (names : gset text) (model : PublicHistoryModelUsageV3) :
    result ApiSnapshotError (gset text) :=
  let components := [h3_input_tokens model; h3_cached_input_tokens model; h3_output_tokens model] in
  let all_components := forallb opt_is_some components in
  let any_components := existsb opt_is_some components in
  reject InvalidHistoryObservation when
    negb (Bool.eqb any_components all_components) || negb (valid_text (h3_model model) MAX_MODEL_SCALARS)
    || is_some_and (λ value, negb (valid_rate value)) (h3_total_dollars model)
    || (text_eqb source (lit "confirmed") && negb all_components);
  _ ← match h3_input_tokens model, h3_cached_input_tokens model, h3_output_tokens model with
      | Some input, Some cached, Some _ => validate_v3_model_tokens (h3_model model) input cached (h3_cache_write_input_tokens model)
      | _, _, _ => Ok tt
      end;
  reject InvalidHistoryObservation when bool_decide (h3_model model ∈ names);
  Ok ({[h3_model model]} ∪ names).
(** What the conditions of the loop ask of a row alone. *)
Definition invalid_row (d : PublicDetailsV3) (sample : PublicHistoryObservationV3) : bool :=
  let source := o3_model_source sample in
  negb (valid_timestamp (o3_timestamp sample)) || negb (o3_timestamp sample mod 60 =? 0)
  || negb (valid_timestamp (o3_reset_at sample))
  || current_reset_sample_exceeds_observation (o3_reset_at sample) (o3_timestamp sample) (d3_observed_at d)
       (pq_reset_at <$> d3_quota d)
  || negb (known_source source) || is_some_and outside_percent (o3_remaining_percent sample)
  || (modelless_source source && opt_is_some (o3_models sample))
  || (modelless_source source && o3_models_complete sample)
  || (text_eqb source (lit "confirmed") && (negb (opt_is_some (o3_models sample)) || negb (o3_models_complete sample)))
  || (text_eqb source (lit "legacy-unknown") && o3_models_complete sample)
  || (o3_models_complete sample && negb (opt_is_some (o3_models sample))).
Definition check_row (d : PublicDetailsV3) (s : gset (Z * Z) * option (Z * Z)) (sample : PublicHistoryObservationV3) :
    result ApiSnapshotError (gset (Z * Z) * option (Z * Z)) :=
  let key := sample_key sample in
  reject InvalidHistoryObservation when
    invalid_row d sample || bool_decide (key ∈ s.1) || is_some_and (λ previous, pair_gtb previous key) s.2;
  reject InvalidHistoryObservation when
    negb (length (List.filter (period_hosts (o3_reset_at sample) (o3_timestamp sample) (o3_timestamp sample))
                    (d3_history_periods d)) =? 1)%nat;
  _ ← match o3_models sample with
      | Some models =>
          reject ListTooLong when MAX_PUBLIC_MODELS_V3 <? count models;
          fold_result (check_row_model (o3_model_source sample)) ∅ models
      | None => Ok ∅
      end;
  Ok ({[key]} ∪ s.1, Some key).
Definition common (self : PublicDetailsV3) : PublicDetailsV2 := {|
  d2_state := d3_state self; d2_observed_at := d3_observed_at self; d2_authenticated := d3_authenticated self;
  d2_plan_label := d3_plan_label self; d2_quota := d3_quota self; d2_models := [];
  d2_active_thread_count := d3_active_thread_count self; d2_history_periods := d3_history_periods self;
  d2_history_samples := []; d2_history_gaps := d3_history_gaps self; d2_threads := d3_threads self;
  d2_estimated_cost_label := lit "概算 —" |}.
Definition PublicDetailsV3_validate (self : PublicDetailsV3) : result ApiSnapshotError () :=
  _ ← PublicDetailsV2_validate (common self);
  reject ListTooLong when
    (MAX_PUBLIC_MODELS_V3 <? count (d3_models self)) || (MAX_PUBLIC_HISTORY_SAMPLES <? count (d3_history_samples self));
  _ ← fold_result check_model_v3 ∅ (d3_models self);
  _ ← fold_result (check_row self) (∅, None) (d3_history_samples self);
  Ok tt.
End Server.

(** ** What an accepted row is *)
Section specification.
Import Server.
(** A confirmed row is complete and has models; a legacy row may have some; no other does. *)
Definition source_agrees (source : text) (complete : bool) (models : option (list PublicHistoryModelUsageV3)) : Prop :=
  source = lit "confirmed" ∧ complete = true ∧ models ≠ None
  ∨ source = lit "legacy-unknown" ∧ complete = false
  ∨ source ∈ map lit ["unavailable"; "reconstructed-from-session"]%string ∧ complete = false ∧ models = None.
Definition row_ok (d : PublicDetailsV3) (s : PublicHistoryObservationV3) : Prop :=
  timestamp_ok (o3_timestamp s) ∧ timestamp_ok (o3_reset_at s) ∧ (60 | o3_timestamp s)
  ∧ (∀ quota, d3_quota d = Some quota → pq_reset_at quota = o3_reset_at s →
     ∃ now, d3_observed_at d = Some now ∧ o3_timestamp s ≤ now)
  ∧ given (λ v, outside_percent v = false) (o3_remaining_percent s)
  ∧ source_agrees (o3_model_source s) (o3_models_complete s) (o3_models s).
Definition tokens_ok (input cached : Z) (cache_write : option Z) : Prop :=
  cached ≤ input ∧ given (λ writes, cached + writes ≤ input ∧ cached + writes ≤ u64_max) cache_write.
(** The three counts are given together, and always on a confirmed row. *)
Definition row_model_ok (source : text) (m : PublicHistoryModelUsageV3) : Prop :=
  valid_text (h3_model m) MAX_MODEL_SCALARS = true ∧ given (λ v, valid_rate v = true) (h3_total_dollars m)
  ∧ match h3_input_tokens m, h3_cached_input_tokens m, h3_output_tokens m with
    | Some input, Some cached, Some _ => tokens_ok input cached (h3_cache_write_input_tokens m)
    | None, None, None => source ≠ lit "confirmed"
    | _, _, _ => False
    end.
Definition row_models_ok (s : PublicHistoryObservationV3) : Prop :=
  given (λ models, count models ≤ 1024 ∧ Forall (row_model_ok (o3_model_source s)) models ∧ NoDup (map h3_model models)) (o3_models s).
Definition row_hosted (d : PublicDetailsV3) (s : PublicHistoryObservationV3) : Prop :=
  ∃ p, only_one (λ q, period_hosts (o3_reset_at s) (o3_timestamp s) (o3_timestamp s) q = true) (d3_history_periods d) p.
Definition with_rows (d : PublicDetailsV3) (rows : list PublicHistoryObservationV3) : PublicDetailsV3 := {|
  d3_state := d3_state d; d3_observed_at := d3_observed_at d; d3_authenticated := d3_authenticated d;
  d3_plan_label := d3_plan_label d; d3_quota := d3_quota d; d3_models := d3_models d;
  d3_active_thread_count := d3_active_thread_count d; d3_open_session_thread_count := d3_open_session_thread_count d;
  d3_history_periods := d3_history_periods d; d3_history_samples := rows; d3_history_gaps := d3_history_gaps d;
  d3_threads := d3_threads d |}.

Lemma exceeds_false reset at_ observed current : current_reset_sample_exceeds_observation reset at_ observed current = false ↔
  (current = Some reset → ∃ now, observed = Some now ∧ at_ ≤ now).
Proof.
  unfold current_reset_sample_exceeds_observation. rewrite andb_false_iff, bool_decide_eq_false.
  destruct observed as [now|]; cbn [is_none_or].
  - rewrite Z.ltb_ge. split; [intros [?|?] ?; [done|by exists now]|].
    intros Hn. destruct (decide (current = Some reset)) as [E|]; [|by left]. right. by destruct (Hn E) as (? & [= <-] & ?).
  - split; [intros [?|?]; [done|done]|]. intros Hn. left. intros E. by destruct (Hn E) as (? & ? & _).
Qed.
Lemma source_conditions source complete (models : option (list PublicHistoryModelUsageV3)) :
  negb (known_source source) || ((modelless_source source && opt_is_some models) || (modelless_source source && complete)
  || (text_eqb source (lit "confirmed") && (negb (opt_is_some models) || negb complete))
  || (text_eqb source (lit "legacy-unknown") && complete) || (complete && negb (opt_is_some models))) = false ↔
  source_agrees source complete models.
Proof.
  unfold source_agrees. split.
  - rewrite orb_false_iff, negb_false_iff. intros [(x & Hx & ->%text_eqb_true)%existsb_exists E]. cbn in Hx.
    destruct Hx as [<-|[<-|[<-|[<-|[]]]]], complete, models; try (exfalso; vm_compute in E; discriminate E).
    + by left.
    + right. right. split_and!; [right; left|done|done].
    + right. right. split_and!; [left|done|done].
    + right. by left.
    + right. by left.
  - cbn [map]. rewrite !elem_of_cons.
    intros [(-> & -> & Hm)|[(-> & ->)|([->|[->|[]%elem_of_nil]] & -> & ->)]]; try reflexivity; destruct models; done || reflexivity.
Qed.
Lemma row_conditions d s : invalid_row d s = false ↔ row_ok d s.
Proof.
  unfold invalid_row, row_ok. cbv zeta. rewrite <- source_conditions. rewrite !orb_false_iff, !negb_false_iff, !timestamp_true,
    exceeds_false, is_some_and_false, Z.eqb_eq, Z.mod_divide by done.
  assert ((pq_reset_at <$> d3_quota d = Some (o3_reset_at s) → ∃ now, d3_observed_at d = Some now ∧ o3_timestamp s ≤ now)
    ↔ (∀ quota, d3_quota d = Some quota → pq_reset_at quota = o3_reset_at s → ∃ now, d3_observed_at d = Some now ∧ o3_timestamp s ≤ now)) as <-.
  { destruct (d3_quota d) as [q|]; cbn; [|naive_solver]. split; [intros Hn ? [= <-] E; apply Hn; by rewrite E|].
    intros Hn [= E]. by apply (Hn q). }
  tauto.
Qed.
Lemma tokens_conditions model input cached cache_write : guards (valid_text model MAX_MODEL_SCALARS = true ∧ tokens_ok input cached cache_write)
  (λ _, True) (validate_v3_model_tokens model input cached cache_write).
Proof.
  unfold validate_v3_model_tokens, tokens_ok. set (overflows := is_some_and _ _).
  assert (overflows = false ↔ given (λ writes, cached + writes ≤ input ∧ cached + writes ≤ u64_max) cache_write) as Ho.
  { unfold overflows. rewrite is_some_and_false. apply given_iff. intros writes. unfold u64_checked_add. case_match; cbn; [|lia].
    rewrite Z.ltb_ge. lia. }
  destruct (valid_text model MAX_MODEL_SCALARS); cbn [negb orb]; [|intros [? _]; done].
  destruct (Z.ltb_spec input cached); cbn [orb]; [intros (_ & ? & _); lia|].
  destruct overflows; [intros (_ & _ & Hg); by apply Ho in Hg|]. by split; [split; [|split; [|apply Ho]]|].
Qed.
Lemma models_conditions source models :
  guards (Forall (row_model_ok source) models ∧ NoDup (map h3_model models)) (λ _, True) (fold_result (check_row_model source) ∅ models).
Proof.
  apply (guards_iff (every (λ pre m, row_model_ok source m ∧ (h3_model m ∉ map h3_model pre)) [] models)).
  { by rewrite every_and, every_Forall, every_fresh. }
  pose proof (fold_result_guards (seen h3_model) (λ pre m, row_model_ok source m ∧ (h3_model m ∉ map h3_model pre))
    (check_row_model source)) as Hf.
  assert (guards (every (λ pre m, row_model_ok source m ∧ (h3_model m ∉ map h3_model pre)) [] models) (seen h3_model models)
    (fold_result (check_row_model source) ∅ models)) as Hg.
  { apply (Hf); [|apply seen_empty]. clear Hf. intros pre names m Hn. unfold check_row_model, row_model_ok. cbv zeta.
    pose proof (Hn (h3_model m)) as Hin. destruct (valid_text (h3_model m) MAX_MODEL_SCALARS) eqn:Ev.
    2: { cbn [negb]. rewrite orb_true_r. cbn. by intros [(? & _) _]. }
    cbn [negb]. rewrite orb_false_r.
    destruct (is_some_and (λ value, negb (valid_rate value)) (h3_total_dollars m)) eqn:Ed.
    { rewrite orb_true_r. cbn. intros [(_ & Hd & _) _]. apply not_false_iff_true in Ed. apply Ed. rewrite is_some_and_false.
      eapply given_iff; [|exact Hd]. intros v. cbn. by rewrite negb_false_iff. }
    rewrite orb_false_r. assert (given (λ v, valid_rate v = true) (h3_total_dollars m)) as Hd.
    { rewrite is_some_and_false in Ed. eapply given_iff; [|exact Ed]. intros v. cbn. by rewrite negb_false_iff. }
    destruct (h3_input_tokens m) as [input|], (h3_cached_input_tokens m) as [cached|], (h3_output_tokens m) as [output|];
      cbn [forallb existsb opt_is_some orb andb Bool.eqb negb]; try (intros [(_ & _ & []) _]).
    - rewrite andb_false_r. pose proof (tokens_conditions (h3_model m) input cached (h3_cache_write_input_tokens m)) as Ht.
      destruct (validate_v3_model_tokens _ _ _ _) as [[]|e]; unfold mbind, result_bind.
      + destruct Ht as [[_ Ht] _]. case_bool_decide as Hb; [intros [_ Hn']; by apply Hn', Hin|]. split; [|by apply seen_snoc].
        split; [done|]. by rewrite <- Hin.
      + intros [(_ & _ & Ht') _]. by apply Ht.
    - rewrite andb_true_r. destruct (text_eqb source (lit "confirmed")) eqn:Es.
      { apply text_eqb_true in Es. by intros [(_ & _ & ?) _]. }
      unfold mbind, result_bind. case_bool_decide as Hb; [intros [_ Hn']; by apply Hn', Hin|]. split; [|by apply seen_snoc].
      split; [|by rewrite <- Hin]. split_and!; [done|done|]. intros E%text_eqb_true. congruence. }
  unfold guards in *. destruct (fold_result _ _ _); tauto.
Qed.
Definition row_admitted (d : PublicDetailsV3) (pre : list PublicHistoryObservationV3) (s : PublicHistoryObservationV3) : Prop :=
  row_ok d s ∧ (sample_key s ∉ map sample_key pre) ∧ (∀ y, last pre = Some y → key_le (sample_key y) (sample_key s))
  ∧ row_hosted d s ∧ row_models_ok s.
Definition rows_seen (pre : list PublicHistoryObservationV3) (st : gset (Z * Z) * option (Z * Z)) : Prop :=
  seen sample_key pre st.1 ∧ st.2 = sample_key <$> last pre.
Lemma row_hosted_count d s : (length (List.filter (period_hosts (o3_reset_at s) (o3_timestamp s) (o3_timestamp s)) (d3_history_periods d)) =? 1)%nat = true
  ↔ row_hosted d s.
Proof.
  unfold row_hosted. setoid_rewrite <- filter_only_one. rewrite Nat.eqb_eq. split.
  - destruct (List.filter _ _) as [|p [|]]; intros [=]. by exists p.
  - by intros [p ->].
Qed.
Lemma row_step d pre st s : rows_seen pre st → guards (row_admitted d pre s) (rows_seen (pre ++ [s])) (check_row d st s).
Proof.
  intros [Hseen Hprev]. unfold check_row, row_admitted. cbv zeta.
  apply (guards_iff ((row_ok d s ∧ (sample_key s ∉ map sample_key pre) ∧ (∀ y, last pre = Some y → key_le (sample_key y) (sample_key s)))
    ∧ row_hosted d s ∧ row_models_ok s)); [tauto|].
  apply guards_reject; [|intros _; apply guards_reject; [by rewrite negb_false_iff, row_hosted_count|intros _]].
  - rewrite !orb_false_iff, row_conditions, bool_decide_eq_false, (Hseen (sample_key s)), is_some_and_false, Hprev.
    unfold given. destruct (last pre) as [y|]; cbn; [|naive_solver]. setoid_rewrite pair_gtb_false. naive_solver.
  - unfold row_models_ok, given. destruct (o3_models s) as [models|]; unfold mbind, result_bind.
    + destruct (Z.ltb_spec MAX_PUBLIC_MODELS_V3 (count models)) as [Hl|Hl]; unfold MAX_PUBLIC_MODELS_V3 in Hl.
      { intros Hm. destruct (Hm models eq_refl). lia. }
      pose proof (models_conditions (o3_model_source s) models) as Hm. destruct (fold_result _ _ _).
      * split; [by intros ? [= <-]; split; [lia|apply Hm]|]. split; cbn [fst snd]; [by apply seen_snoc|by rewrite last_snoc].
      * intros Hall. apply Hm. by destruct (Hall models eq_refl).
    + split; [done|]. split; cbn [fst snd]; [by apply seen_snoc|by rewrite last_snoc].
Qed.
Lemma rows_loop d rows : guards (Forall (row_ok d) rows ∧ NoDup (map sample_key rows)
    ∧ Sorted (λ a b, key_le (sample_key a) (sample_key b)) rows ∧ Forall (row_hosted d) rows ∧ Forall row_models_ok rows)
  (rows_seen rows) (fold_result (check_row d) (∅, None) rows).
Proof.
  apply (guards_iff (every (row_admitted d) [] rows)).
  { unfold row_admitted. by rewrite !every_and, !every_Forall, every_fresh, every_adjacent. }
  apply (fold_result_guards rows_seen (row_admitted d) (check_row d)); [apply row_step|]. split; [apply seen_empty|done].
Qed.
Lemma guards_Ok {E S} (P : Prop) (I : S → Prop) (r : result E S) : guards P I r → (∃ s, r = Ok s) ↔ P.
Proof. unfold guards. destruct r as [s|e]; [intros [? _]; split; [done|by exists s]|]. intros Hn. by split; [intros [? [=]]|]. Qed.
End specification.

(** The rows are checked last. *)
Lemma validate_rows (d : PublicDetailsV3) : let rows := d3_history_samples d in
  Server.PublicDetailsV3_validate d = Ok () ↔
  Server.PublicDetailsV3_validate (with_rows d []) = Ok () ∧ count rows ≤ 44640
  ∧ ∃ st, fold_result (Server.check_row d) (∅, None) rows = Ok st.
Proof.
  intros rows.
  unfold Server.PublicDetailsV3_validate. change (Server.common (with_rows d [])) with (Server.common d).
  change (d3_models (with_rows d [])) with (d3_models d). change (d3_history_samples (with_rows d [])) with (@nil PublicHistoryObservationV3).
  fold rows. unfold mbind, result_bind. destruct (Server.PublicDetailsV2_validate (Server.common d)); [|by split; [|intros [? _]]].
  change (Server.MAX_PUBLIC_MODELS_V3) with 1024. change MAX_PUBLIC_HISTORY_SAMPLES with 44640.
  destruct (1024 <? count (d3_models d)); cbn [orb]; [by split; [|intros [? _]]|].
  change (44640 <? count []) with false. destruct (Z.ltb_spec 44640 (count rows)); [split; [done|intros (_ & ? & _); lia]|].
  destruct (fold_result Server.check_model_v3 _ _); [|by split; [|intros [? _]]]. cbn [fold_result].
  destruct (fold_result (Server.check_row d) _ rows) as [st|e]; [split; [intros _; split_and!; [done|done|by exists st]|done]|].
  split; [done|]. by intros (_ & _ & st & [=]).
Qed.

(** C39. The application accepts a document with a history exactly when it accepts it
    without one and the rows are a history: at most 44,640 in the order of their keys with
    no key twice, each with valid fields, a source that agrees with its models, valid
    models, and exactly one period that reaches from its start to its end over the row. *)
Theorem rows_accepted (d : PublicDetailsV3) :
  let rows := d3_history_samples d in
  Server.PublicDetailsV3_validate d = Ok () ↔
  Server.PublicDetailsV3_validate (with_rows d []) = Ok () ∧ count rows ≤ 44640
  ∧ Forall (row_ok d) rows ∧ NoDup (map sample_key rows) ∧ Sorted (λ a b, key_le (sample_key a) (sample_key b)) rows
  ∧ Forall (row_hosted d) rows ∧ Forall row_models_ok rows.
Proof.
  intros rows. rewrite <- (guards_Ok _ _ _ (rows_loop d rows)). apply validate_rows.
Qed.

(** C40. A row of the minute in which its period starts is of the period for the contract
    and for the REST server, but when the period does not start on a minute and no other
    period reaches over the row, the application refuses the whole document. *)
Theorem first_minute_refused (d : PublicDetailsV3) (row : PublicHistoryObservationV3) (p : PublicHistoryPeriod) :
  row ∈ d3_history_samples d → p ∈ d3_history_periods d → hp_start_at p ≤ hp_end_at p → hp_start_at p mod 60 ≠ 0 →
  o3_reset_at row = hp_reset_at p → o3_timestamp row = hp_start_at p - hp_start_at p mod 60 →
  (∀ q, q ∈ d3_history_periods d → Server.period_hosts (o3_reset_at row) (o3_timestamp row) (o3_timestamp row) q = true → q = p) →
  holds_sample (by_reset (d3_history_periods d)) row p = true ∧ Server.PublicDetailsV3_validate d ≠ Ok ().
Proof.
  intros Hrow Hp Hspan Hmin Hreset Htime Hother.
  pose proof (Z.mod_pos_bound (hp_start_at p) 60 ltac:(lia)) as Hm. split.
  - unfold holds_sample, history_minute_in_period. rewrite Hreset, Z.eqb_refl. cbn [orb andb]. rewrite Htime. lia.
  - intros (_ & _ & Hv)%validate_rows. apply (guards_Ok _ _ _ (rows_loop d _)) in Hv as (_ & _ & _ & Hh & _). rewrite Forall_forall in Hh.
    destruct (Hh row Hrow) as [q Hq]. apply only_one_fits in Hq as [Hin Hq].
    rewrite (Hother q Hin Hq) in Hq.
    unfold Server.period_hosts in Hq. rewrite Htime in Hq. lia.
Qed.

(** ** Witness *)
Definition demo_listed : PublicHistoryPeriod := {|
  hp_id := lit "week"; hp_start_at := 90; hp_end_at := 9000; hp_reset_at := 10000; hp_label := lit "week"; hp_current := true |}.
Definition demo_row : PublicHistoryObservationV3 := {|
  o3_timestamp := 60; o3_reset_at := 10000; o3_remaining_percent := None; o3_task_active_since_previous := None;
  o3_models := None; o3_models_complete := false; o3_model_source := lit "unavailable" |}.
Definition demo_document : PublicDetailsV3 := {|
  d3_state := Ready; d3_observed_at := Some 9000; d3_authenticated := true; d3_plan_label := None; d3_quota := None;
  d3_models := []; d3_active_thread_count := 0; d3_open_session_thread_count := 0; d3_history_periods := [demo_listed];
  d3_history_samples := [demo_row]; d3_history_gaps := []; d3_threads := [] |}.
(** Without its row the document is accepted. *)
Lemma first_minute_refused_witness :
  Server.PublicDetailsV3_validate (with_rows demo_document []) = Ok ()
  ∧ Server.PublicDetailsV3_validate demo_document ≠ Ok ().
Proof.
  split; [vm_compute; reflexivity|].
  refine (proj2 (first_minute_refused demo_document demo_row demo_listed _ _ _ _ eq_refl eq_refl _)).
  - left.
  - left.
  - cbn. lia.
  - done.
  - intros q [->|[]%elem_of_nil]%elem_of_cons _. done.
Defined.
