(* ===== verification/HistoryClient.v ===== *)
(** * The history client of the desktop application

    Models how [src/main.rs] reads the history of a period from the REST server: the
    route of a page, one page ([fetch_service_history_page]), the merge of its rows
    ([merge_service_history_samples]), the loop over the pages with its recovery from a
    stale cursor, the commit of what was read ([apply_service_history_resource]) and the
    poll around it ([poll_service_graph_resources_with]). The request is a function on a
    state of the outside world, so that what the server answers may change from page to
    page. The copies of the rows made for the graphs are not part of the state here. *)

From S2P Require Import Prelude Text Float64 Json TokenFacts Contract Details RecordedUsage HistoryIndex ServerDetails.

Definition SERVICE_HISTORY_EXACT_STALE_CURSOR : string := "exact_stale_cursor_response".
Definition SERVICE_HISTORY_STALE_PREFIX : string := "stale_cursor".
Definition STALE_CURSOR_RESPONSE_MAX_BYTES : Z := 1024.
Definition RESET_AT_TOLERANCE_SECONDS : Z := 60.

(** The period of the desktop application carries its origin beside the six published
    fields. *)
Record ServicePeriod := { sp_origin_at : option Z; sp_period : PublicHistoryPeriod }.
Record ServiceDetailsHttpResponse := { sr_status : Z; sr_pair : option text; sr_body : list Z }.
Record ServiceHistoryPage := {
  hpg_next_cursor : option text; hpg_resume_cursor : option text;
  hpg_samples : list PublicHistoryObservationV3; hpg_gaps : list PublicHistoryGap;
  hpg_local_usage : option LocalUsage
}.
Inductive ServiceResourceFetch (T : Type) := Fresh (pair : text) (value : T) | NotModified (pair : text).
Arguments Fresh {T} pair value.
Arguments NotModified {T} pair.

(** ** Routes *)
Definition is_unreserved (byte : Z) : bool :=
  is_ascii_alphanumeric byte || (byte =? 45) || (byte =? 46) || (byte =? 95) || (byte =? 126).
Definition HEX_UPPER (digit : Z) : Z := if digit <? 10 then 48 + digit else 55 + digit.
Definition percent_encode_byte (byte : Z) : text :=
  if is_unreserved byte then [byte] else [37; HEX_UPPER (Z.shiftr byte 4); HEX_UPPER (Z.land byte 15)].
Definition percent_encode_query_component (value : text) : text := flat_map percent_encode_byte (as_bytes value).
Definition service_history_route (period_id : text) (cursor : option text) : text :=
  lit "/v3/history?period=" ++ percent_encode_query_component period_id
  ++ match cursor with Some cursor => lit "&cursor=" ++ percent_encode_query_component cursor | None => [] end.
Definition service_route_with_account (route : text) (account_id : option text) : text :=
  if negb (starts_with route (lit "/v3/") || starts_with route (lit "/v4/") || starts_with route (lit "/v5/")
           || starts_with route (lit "/v6/")) || text_eqb route (lit "/v3/accounts")
  then route
  else match account_id with
       | None => route
       | Some account_id =>
           route ++ [if contains_char route 63 then 38 else 63] ++ lit "account="
           ++ percent_encode_query_component account_id
       end.

(** ** Rows *)
Definition sanitize_untrusted_history_observation_v3 (o : PublicHistoryObservationV3) : PublicHistoryObservationV3 :=
  let row models complete source := {|
    o3_timestamp := o3_timestamp o; o3_reset_at := o3_reset_at o; o3_remaining_percent := o3_remaining_percent o;
    o3_task_active_since_previous := o3_task_active_since_previous o; o3_models := models;
    o3_models_complete := complete; o3_model_source := source |} in
  let source := o3_model_source o in
  if text_eqb source (lit "confirmed") && o3_models_complete o && opt_is_some (o3_models o) then o
  else if text_eqb source (lit "confirmed") && opt_is_some (o3_models o) then row (o3_models o) false (lit "legacy-unknown")
  else if text_eqb source (lit "legacy-unknown") then row (o3_models o) false source
  else if is_any source ["reconstructed-from-session"; "unavailable"]%string then row None false source
  else row None false (lit "unavailable").
Definition valid_published_pair (value : text) : bool :=
  (str_len value =? 67) && starts_with value (lit "v1:") && forallb is_lower_hex (drop 3 value)
  && existsb (λ byte, negb (byte =? 48)) (drop 35 value).
(** Insertion in the order of the keys; [None] where the key is present. *)
Fixpoint insert_row (sample : PublicHistoryObservationV3) (rows : list PublicHistoryObservationV3) :
    option (list PublicHistoryObservationV3) :=
  match rows with
  | [] => Some [sample]
  | row :: rest =>
      match key_order (sample_key sample) (sample_key row) with
      | Lt => Some (sample :: rows)
      | Eq => None
      | Gt => cons row <$> insert_row sample rest
      end
  end.
Definition base_row (rows : list PublicHistoryObservationV3) (sample : PublicHistoryObservationV3) :
    result string (list PublicHistoryObservationV3) :=
  ok_or (insert_row sample rows) "duplicate last-good history sample"%string.
Definition incoming_row (append_prefix : bool) (prefix_end : option (Z * Z))
    (rows : list PublicHistoryObservationV3) (sample : PublicHistoryObservationV3) :
    result string (list PublicHistoryObservationV3) :=
  match insert_row sample rows with
  | None => Err (if append_prefix then SERVICE_HISTORY_STALE_PREFIX else "duplicate history sample"%string)
  | Some inserted =>
      if append_prefix && is_some_and (λ end_, negb (bool_decide (key_order end_ (sample_key sample) = Lt))) prefix_end
      then Err SERVICE_HISTORY_STALE_PREFIX
      else if MAX_PUBLIC_HISTORY_SAMPLES <=? Z.of_nat (length rows)
      then Err "history resource exceeds the public safety bound"%string
      else Ok inserted
  end.
Definition merge_service_history_samples (base incoming : list PublicHistoryObservationV3) (append_prefix : bool) :
    result string (list PublicHistoryObservationV3) :=
  rows ← fold_result base_row [] base;
  fold_result (incoming_row append_prefix (sample_key <$> last rows)) rows incoming.

(** ** One page *)
Section client.
Context {N : Type} `{JsonNumber N}.
(** The JSON parser that rejects repeated keys, and the derived readers of the rows. *)
Context (decode_unique_json : list Z → result string (Value N)).
Context (observations_of : Value N → result string (list PublicHistoryObservationV3)).
Context (gaps_of : Value N → result string (list PublicHistoryGap)).
Context (local_usage_of : Value N → result string LocalUsage).
Context (periods_of : Value N → result string (list PublicHistoryPeriod)).

Definition sanitize_json_row (row : Value N) : Value N :=
  match row with
  | Object object =>
      let source := get (lit "model_source") object ≫= as_str in
      if is_some_and (λ s, is_any s ["confirmed"; "legacy-unknown"]%string) source then row
      else
        let object := if is_some_and (λ s, is_any s ["reconstructed-from-session"; "unavailable"]%string) source then object
                      else map_insert (lit "model_source") (VString (lit "unavailable")) object in
        Object (map_insert (lit "models_complete") (Bool false) (map_insert (lit "models") Null object))
  | _ => row
  end.
Definition sanitize_untrusted_history_json_rows (rows : Value N) : Value N :=
  match rows with Array rows => Array (map sanitize_json_row rows) | _ => rows end.
(** [BTreeMap::remove] *)
Definition map_remove (key : string) (object : list (text * Value N)) : option (Value N) * list (text * Value N) :=
  (get (lit key) object, List.filter (λ member, negb (text_eqb member.1 (lit key))) object).
Definition cursor_field (object : list (text * Value N)) (key message : string) : result string (option text) :=
  match opt_filter (λ value, negb (is_null value)) (get (lit key) object) with
  | None => Ok None
  | Some value =>
      cursor ← ok_or (opt_filter (λ s, negb (bool_decide (s = []))) (as_str value)) message; Ok (Some cursor)
  end.
Definition page_fields : gset text := list_to_set (map lit
  ["api_version"; "history_gaps"; "history_samples"; "next_cursor"; "resume_cursor"]%string).
Definition contract_error (self : ContractError) : string :=
  match self with
  | InvalidTimestamp => "invalid timestamp" | InvalidNumber => "invalid numeric value" | InvalidPeriod => "invalid history period"
  | InvalidSample => "invalid history sample" | InvalidGap => "invalid history gap" | InvalidModel => "invalid model"
  | TooManyItems => "too many public items"
  end.
Definition parse_local_usage (value : option (Value N)) : result string (option LocalUsage) :=
  match value with
  | None => Ok None
  | Some value =>
      local ← local_usage_of value;
      _ ← map_err contract_error (LocalUsage_validate local);
      Ok (Some local)
  end.
Definition parse_service_history_page_document (bytes : list Z) : result string ServiceHistoryPage :=
  document ← decode_unique_json bytes;
  object ← ok_or (as_object document) "history page document is not an object"%string;
  let '(version, object) := map_remove "api_version" object in
  if negb (bool_decide (version ≫= as_str = Some (lit "v3"))) then Err "history page document api_version is not v3"%string
  else
    let '(local, object) := map_remove "local_usage" object in
    local_usage ← parse_local_usage local;
    if negb (bool_decide ({[ lit "api_version" ]} ∪ list_to_set (map fst object) = page_fields))
    then Err "history page document fields differ from v3"%string
    else
      next_cursor ← cursor_field object "next_cursor" "history page next_cursor is invalid";
      resume_cursor ← cursor_field object "resume_cursor" "history page resume_cursor is invalid";
      rows ← ok_or (get (lit "history_samples") object) "history page document is missing samples"%string;
      samples ← observations_of (sanitize_untrusted_history_json_rows rows);
      let samples := map sanitize_untrusted_history_observation_v3 samples in
      gap_rows ← ok_or (get (lit "history_gaps") object) "history page document is missing gaps"%string;
      gaps ← gaps_of gap_rows;
      if negb (bool_decide (samples = [])) && negb (opt_is_some resume_cursor)
      then Err "history page samples are missing resume_cursor"%string
      else Ok {| hpg_next_cursor := next_cursor; hpg_resume_cursor := resume_cursor; hpg_samples := samples;
                 hpg_gaps := gaps; hpg_local_usage := local_usage |}.
Definition response_published_pair (response : ServiceDetailsHttpResponse) : result string text :=
  ok_or (sr_pair response) "missing details generation header"%string.
Definition is_exact_stale_cursor_response (response : ServiceDetailsHttpResponse) : bool :=
  if negb (sr_status response =? 400) || opt_is_some (sr_pair response)
     || (STALE_CURSOR_RESPONSE_MAX_BYTES <? Z.of_nat (length (sr_body response)))
  then false
  else
  match decode_unique_json (sr_body response) with
  | Ok (Object object) =>
      bool_decide ((list_to_set (map fst object) : gset text) = {[ lit "api_version"; lit "error" ]})
      && bool_decide (get (lit "api_version") object ≫= as_str = Some (lit "v1"))
      && bool_decide (get (lit "error") object ≫= as_str = Some (lit "stale_cursor"))
  | _ => false
  end.

(** What the requests of the client act on. *)
Context {W : Type} (request : W → text → option text → W * result string ServiceDetailsHttpResponse).
Definition read_page_response (cursor prior_pair : option text) (response : ServiceDetailsHttpResponse) :
    result string (ServiceResourceFetch ServiceHistoryPage) :=
  if sr_status response =? 304 then
    pair ← response_published_pair response;
    if negb (bool_decide (prior_pair = Some pair)) || negb (bool_decide (sr_body response = []))
    then Err "cacheless history page 304 or generation mismatch"%string else Ok (NotModified pair)
  else if negb (sr_status response =? 200) then
    Err (if opt_is_some cursor && is_exact_stale_cursor_response response then SERVICE_HISTORY_EXACT_STALE_CURSOR
         else "history page response is not HTTP 200"%string)
  else
    pair ← response_published_pair response;
    page ← parse_service_history_page_document (sr_body response);
    Ok (Fresh pair page).
(** [account_id] is what the closure of the caller adds to the route. *)
Definition fetch_service_history_page (w : W) (account_id : option text) (period_id : text) (cursor prior_pair : option text) :
    W * result string (ServiceResourceFetch ServiceHistoryPage) :=
  if is_some_and (λ pair, negb (valid_published_pair pair)) prior_pair
  then (w, Err "invalid history page generation header"%string)
  else
    let '(w, response) := request w (service_route_with_account (service_history_route period_id cursor) account_id) prior_pair in
    (w, response ≫= read_page_response cursor prior_pair).

(** ** The loop over the pages *)
Record PageLoop := {
  pl_full_refresh : bool; pl_append_prefix : bool;
  pl_samples : list PublicHistoryObservationV3; pl_gaps : list PublicHistoryGap; pl_local_usage : list LocalUsage;
  pl_request_cursor : option text; pl_first_page : bool; pl_seen_cursors : gset text; pl_page_count : Z;
  pl_recovery_attempted : bool; pl_require_head : bool
}.
(** What of the state of the client the loop reads. *)
Record PageContext := {
  pc_account : option text; pc_periods : list ServicePeriod; pc_period_id : text; pc_history_pair : text;
  pc_previous_pair : option text; pc_saved_cursor : option text
}.
Inductive PageTurn := Again (loop : PageLoop) | Finished (cursor : option text) (loop : PageLoop) | Failed (error : string) (loop : PageLoop).
Definition with_head_required (l : PageLoop) : PageLoop := {|
  pl_full_refresh := pl_full_refresh l; pl_append_prefix := pl_append_prefix l; pl_samples := pl_samples l;
  pl_gaps := pl_gaps l; pl_local_usage := pl_local_usage l; pl_request_cursor := pl_request_cursor l;
  pl_first_page := pl_first_page l; pl_seen_cursors := pl_seen_cursors l; pl_page_count := pl_page_count l;
  pl_recovery_attempted := pl_recovery_attempted l; pl_require_head := true |}.
(** The one restart from the head of the period after a stale cursor. *)
Definition restarted (l : PageLoop) : PageLoop := {|
  pl_full_refresh := true; pl_append_prefix := false; pl_samples := []; pl_gaps := []; pl_local_usage := [];
  pl_request_cursor := None; pl_first_page := true; pl_seen_cursors := ∅; pl_page_count := pl_page_count l;
  pl_recovery_attempted := true; pl_require_head := true |}.
Definition opened (l : PageLoop) : PageLoop := {|
  pl_full_refresh := pl_full_refresh l; pl_append_prefix := pl_append_prefix l; pl_samples := pl_samples l;
  pl_gaps := pl_gaps l; pl_local_usage := pl_local_usage l; pl_request_cursor := pl_request_cursor l;
  pl_first_page := pl_first_page l;
  pl_seen_cursors := match pl_request_cursor l with Some c => {[ c ]} ∪ pl_seen_cursors l | None => pl_seen_cursors l end;
  pl_page_count := pl_page_count l + 1;
  pl_recovery_attempted := pl_recovery_attempted l; pl_require_head := pl_require_head l |}.
Definition accept_local (context : PageContext) (usage : list LocalUsage) (local : option LocalUsage) : result string (list LocalUsage) :=
  match local with
  | None => Ok usage
  | Some local =>
      selected ← ok_or (List.find (λ period, text_eqb (hp_id (sp_period period)) (pc_period_id context)) (pc_periods context))
                   "selected local-usage period disappeared"%string;
      if (lu_start_at local <? hp_start_at (sp_period selected))
         || (i64_saturating_add (hp_end_at (sp_period selected)) 1 <? lu_end_at local)
      then Err "local usage is outside selected period"%string else Ok (usage ++ [local])
  end.
Definition accept_gaps (l : PageLoop) (gaps : list PublicHistoryGap) : result string (list PublicHistoryGap) :=
  if negb (pl_full_refresh l) then Ok (pl_gaps l)
  else if pl_first_page l then Ok gaps
  else if negb (bool_decide (gaps = [])) then Err "history page repeated the period gap set"%string
  else Ok (pl_gaps l).
(** A page that was read, under the checks of the loop. *)
Definition take_page (context : PageContext) (l : PageLoop) (pair : text) (page : ServiceHistoryPage) : PageTurn :=
  if negb (text_eqb pair (pc_history_pair context)) then Failed "history page generation differs from its directory" l
  else if negb (pl_full_refresh l) && negb (bool_decide (hpg_gaps page = [])) then
    Failed SERVICE_HISTORY_STALE_PREFIX (with_head_required l)
  else
  match accept_local context (pl_local_usage l) (hpg_local_usage page) with
  | Err error => Failed error l
  | Ok local_usage =>
      match merge_service_history_samples (pl_samples l) (hpg_samples page) (pl_append_prefix l) with
      | Err error => Failed error (if bool_decide (error = SERVICE_HISTORY_STALE_PREFIX) then with_head_required l else l)
      | Ok samples =>
          match accept_gaps l (hpg_gaps page) with
          | Err error => Failed error l
          | Ok gaps =>
              let taken first_page cursor := {|
                pl_full_refresh := pl_full_refresh l; pl_append_prefix := pl_append_prefix l; pl_samples := samples;
                pl_gaps := gaps; pl_local_usage := local_usage; pl_request_cursor := cursor; pl_first_page := first_page;
                pl_seen_cursors := pl_seen_cursors l; pl_page_count := pl_page_count l;
                pl_recovery_attempted := pl_recovery_attempted l; pl_require_head := pl_require_head l |} in
              match hpg_next_cursor page with
              | Some next =>
                  if bool_decide (pl_request_cursor l = Some next) then Failed "history page cursor did not advance" l
                  else Again (taken false (Some next))
              | None =>
                  Finished (match hpg_resume_cursor page with
                            | Some cursor => Some cursor
                            | None => if pl_full_refresh l then None else pc_saved_cursor context
                            end) (taken (pl_first_page l) (pl_request_cursor l))
              end
          end
      end
  end.
Definition page_result (context : PageContext) (l : PageLoop) (page : result string (ServiceResourceFetch ServiceHistoryPage)) : PageTurn :=
  match page with
  | Err error =>
      if bool_decide (error = SERVICE_HISTORY_EXACT_STALE_CURSOR) then
        if pl_first_page l && pl_append_prefix l && opt_is_some (pl_request_cursor l) && negb (pl_recovery_attempted l)
        then Again (restarted l)
        else if opt_is_some (pl_request_cursor l) then Failed SERVICE_HISTORY_STALE_PREFIX (with_head_required l)
        else Failed "history page response is not HTTP 200" l
      else Failed error l
  | Ok (NotModified served) =>
      if pl_full_refresh l || negb (text_eqb served (pc_history_pair context))
      then Failed "not-modified history page cannot replace current resource" l
      else Finished (pc_saved_cursor context) l
  | Ok (Fresh served page) => take_page context l served page
  end.
Definition page_turn (context : PageContext) (w : W) (l : PageLoop) : W * PageTurn :=
  if MAX_PUBLIC_HISTORY_SAMPLES + 1 <? pl_page_count l + 1 then (w, Failed "history resource exceeds the public safety bound" l)
  else if is_some_and (λ cursor, bool_decide (cursor ∈ pl_seen_cursors l)) (pl_request_cursor l) then
    (w, Failed "history cursor repeated" l)
  else
    let l := opened l in
    let conditional := if pl_first_page l && negb (pl_full_refresh l) then pc_previous_pair context else None in
    let '(w, page) := fetch_service_history_page w (pc_account context) (pc_period_id context) (pl_request_cursor l) conditional in
    (w, page_result context l page).
(** Every turn adds one to the bounded page count, so that [MAX + 2] turns are enough. *)
Fixpoint page_loop (fuel : nat) (context : PageContext) (w : W) (l : PageLoop) : W * PageTurn :=
  match fuel with
  | O => (w, Again l)
  | S fuel =>
      match page_turn context w l with
      | (w, Again l) => page_loop fuel context w l
      | done => done
      end
  end.
Definition loop_fuel : nat := Z.to_nat (MAX_PUBLIC_HISTORY_SAMPLES + 2).

(** ** What a poll commits *)
Record HistoryView := {
  hv_periods : list ServicePeriod; hv_periods_pair : option text;
  hv_samples : list PublicHistoryObservationV3; hv_gaps : list PublicHistoryGap; hv_local_usage : list LocalUsage;
  hv_pair : option text; hv_period_id : option text; hv_cursor : option text;
  (** The label of the selected period; [None] stands for the translated text. *)
  hv_selected_reset_at : option Z; hv_selected_period : option text
}.
Record PollControl := {
  pk_selectable : bool; pk_reset_required : bool; pk_pending_reset_at : option Z; pk_pending_failures : Z;
  pk_force : bool; pk_last_poll : Z; pk_error : option string
}.
Record ClientRoot := {
  cr_split_capable : bool; cr_current_pair : option text; cr_account : option text; cr_snapshot : option PublicDetailsV3
}.
(** What [from_value] reads does not carry the origin, which is set afterwards. *)
Definition take_origin (version : text) (rows : list (Value N) * list (option Z)) (row : Value N) :
    result string (list (Value N) * list (option Z)) :=
  fields ← ok_or (as_object row) "period is not an object"%string;
  if text_eqb version (lit "v4") then
    let '(origin, fields) := map_remove "origin_at" fields in
    origin ← ok_or origin "missing v4 origin"%string;
    origin ← if is_null origin then Ok None
             else
               at_ ← ok_or (value_as_i64 origin) "invalid origin"%string;
               if (at_ <=? 0) || is_none_or (λ start, start <? at_) (get (lit "start_at") fields ≫= value_as_i64)
               then Err "origin is outside period bounds"%string else Ok (Some at_);
    Ok (rows.1 ++ [Object fields], rows.2 ++ [origin])
  else if contains_key (lit "origin_at") fields then Err "v3 period contains origin"%string
  else Ok (rows.1 ++ [Object fields], rows.2 ++ [None]).
(** The end of the current period, or the latest end. *)
Definition directory_clock (periods : list PublicHistoryPeriod) : Z :=
  match List.find hp_current periods with
  | Some period => hp_end_at period
  | None => match map hp_end_at periods with [] => 1 | first :: rest => fold_left Z.max rest first end
  end.
Definition directory_document (periods : list PublicHistoryPeriod) : PublicDetails := {|
  d_state := Ready; d_observed_at := Some (directory_clock periods); d_authenticated := true; d_plan_label := None;
  d_quota := None; d_models := []; d_active_thread_count := 0; d_history_periods := periods; d_history_samples := [];
  d_history_gaps := []; d_threads := []; d_estimated_cost_label := lit "概算 —" |}.
Definition parse_service_history_periods_document (bytes : list Z) : result string (list ServicePeriod) :=
  document ← decode_unique_json bytes;
  object ← ok_or (as_object document) "history periods document is not an object"%string;
  if negb (bool_decide (list_to_set (map fst object) = ({[ lit "api_version"; lit "history_periods" ]} : gset text)))
  then Err "history periods document fields differ from v3"%string
  else
    version ← ok_or (opt_filter (λ v, text_eqb v (lit "v3") || text_eqb v (lit "v4")) (get (lit "api_version") object ≫= as_str))
                "unknown history periods version"%string;
    rows ← ok_or (get (lit "history_periods") object) "missing history periods"%string;
    rows ← ok_or (as_array rows) "history periods is not an array"%string;
    '(rows, origins) ← fold_result (take_origin version) ([], []) rows;
    periods ← periods_of (Array rows);
    _ ← map_err Server.ApiSnapshotError_message (Server.PublicDetails_validate (directory_document periods));
    Ok (map (λ '(period, origin), {| sp_origin_at := origin; sp_period := period |}) (zip periods origins)).

(** [PublicDetailsV3::validate], with the text of its error. *)
Definition validate (details : PublicDetailsV3) : result string () :=
  map_err Server.ApiSnapshotError_message (Server.PublicDetailsV3_validate details).
Definition select_public_history_period (periods : list ServicePeriod) (selected : Z) : option ServicePeriod :=
  match List.find (λ period, hp_reset_at (sp_period period) =? selected) periods with
  | Some period => Some period
  | None => List.find (λ period, Z.abs (hp_reset_at (sp_period period) - selected) <=? RESET_AT_TOLERANCE_SECONDS) periods
  end.
Definition opt_or {A} (a b : option A) : option A := match a with Some _ => a | None => b end.
Definition selected_period (view : HistoryView) (control : PollControl) (periods : list ServicePeriod) : option ServicePeriod :=
  opt_or (opt_or (pk_pending_reset_at control) (hv_selected_reset_at view) ≫= select_public_history_period periods)
    (opt_or (List.find (λ period, hp_current (sp_period period)) periods) (head periods)).
(** The current document with another history, on the clock of that history. *)
Definition with_history_resource (snapshot : PublicDetailsV3) (periods : list ServicePeriod)
    (samples : list PublicHistoryObservationV3) (gaps : list PublicHistoryGap) : PublicDetailsV3 := {|
  d3_state := d3_state snapshot;
  d3_observed_at := match List.find (λ period, hp_current (sp_period period)) periods with
                    | Some period => Some (hp_end_at (sp_period period)) | None => d3_observed_at snapshot end;
  d3_authenticated := d3_authenticated snapshot; d3_plan_label := d3_plan_label snapshot; d3_quota := None;
  d3_models := d3_models snapshot; d3_active_thread_count := d3_active_thread_count snapshot;
  d3_open_session_thread_count := d3_open_session_thread_count snapshot;
  d3_history_periods := map sp_period periods; d3_history_samples := samples; d3_history_gaps := gaps;
  d3_threads := [] |}.
Definition apply_service_history_resource (root : ClientRoot) (view : HistoryView) (control : PollControl) (pair : text)
    (periods : list ServicePeriod) (samples : list PublicHistoryObservationV3) (gaps : list PublicHistoryGap)
    (cursor : option text) : result string (HistoryView * PollControl) :=
  if negb (valid_published_pair pair) then Err "invalid history resource generation"%string
  else
    snapshot ← ok_or (cr_snapshot root) "history resource has no current root"%string;
    _ ← validate (with_history_resource snapshot periods samples gaps);
    let selected := sp_period <$> selected_period view control periods in
    Ok ({| hv_periods := periods; hv_periods_pair := Some pair; hv_samples := samples; hv_gaps := gaps;
           hv_local_usage := []; hv_pair := Some pair; hv_period_id := hp_id <$> selected; hv_cursor := cursor;
           hv_selected_reset_at := hp_reset_at <$> selected; hv_selected_period := hp_label <$> selected |},
        {| pk_selectable := pk_selectable control; pk_reset_required := false; pk_pending_reset_at := None;
           pk_pending_failures := 0; pk_force := pk_force control; pk_last_poll := pk_last_poll control; pk_error := None |}).
Definition apply_service_history_periods_resource (root : ClientRoot) (view : HistoryView) (control : PollControl)
    (pair : text) (periods : list ServicePeriod) : result string HistoryView :=
  if negb (valid_published_pair pair) then Err "invalid history periods generation"%string
  else
    snapshot ← ok_or (cr_snapshot root) "history periods have no current root"%string;
    _ ← validate (with_history_resource snapshot periods [] []);
    let selected := sp_period <$> selected_period view control periods in
    Ok {| hv_periods := periods; hv_periods_pair := Some pair; hv_samples := hv_samples view; hv_gaps := hv_gaps view;
          hv_local_usage := hv_local_usage view; hv_pair := hv_pair view; hv_period_id := hv_period_id view;
          hv_cursor := hv_cursor view; hv_selected_reset_at := hp_reset_at <$> selected;
          hv_selected_period := hp_label <$> selected |}.

(** ** The poll *)
Definition service_poll_due (last_poll : Z) (force : bool) (interval now : Z) : bool :=
  force || ((last_poll <=? now) && (interval <=? now - last_poll)).
Definition SERVICE_HISTORY_POLL_INTERVAL : Z := 60.
Definition read_periods_response (prior_pair : option text) (selectable : bool) (response : ServiceDetailsHttpResponse) :
    result string (ServiceResourceFetch (list ServicePeriod) * bool) :=
  if sr_status response =? 304 then
    pair ← response_published_pair response;
    if negb selectable || negb (bool_decide (prior_pair = Some pair)) || negb (bool_decide (sr_body response = []))
    then Err "cacheless history periods 304 or generation mismatch"%string else Ok (NotModified pair, selectable)
  else if negb (sr_status response =? 200) then Err "history periods response is not HTTP 200"%string
  else
    pair ← response_published_pair response;
    periods ← parse_service_history_periods_document (sr_body response);
    Ok (Fresh pair periods, selectable).
Definition fetch_service_history_periods_with_etag (w : W) (account_id prior_pair : option text) :
    W * result string (ServiceResourceFetch (list ServicePeriod) * bool) :=
  if is_some_and (λ pair, negb (valid_published_pair pair)) prior_pair
  then (w, Err "invalid history periods generation header"%string)
  else
    match request w (service_route_with_account (lit "/v3/history/periods/selectable") account_id) prior_pair with
    | (w, Err error) => (w, Err error)
    | (w, Ok response) =>
        if sr_status response =? 404 then
          let '(w, response) := request w (service_route_with_account (lit "/v3/history/periods") account_id) None in
          (w, response ≫= read_periods_response prior_pair false)
        else (w, read_periods_response prior_pair true response)
    end.
(** The directory the poll goes on with: its identity, its periods and whether it is the
    selectable one. *)
Definition refresh_directory (w : W) (root : ClientRoot) (view : HistoryView) (control : PollControl) :
    W * result string (option text * list ServicePeriod * bool) :=
  let '(w, fetched) := fetch_service_history_periods_with_etag w (cr_account root)
                         (opt_filter (λ _, pk_selectable control) (hv_periods_pair view)) in
  (w, '(fetched, selectable) ← fetched;
      Ok match fetched with
         | Fresh served periods => (Some served, periods, selectable)
         | NotModified served => (Some served, hv_periods view, selectable)
         end).
Definition page_start (view : HistoryView) (control : PollControl) (period_id : text) : PageLoop :=
  let full_refresh := pk_reset_required control || negb (opt_is_some (hv_pair view))
                      || negb (bool_decide (hv_period_id view = Some period_id)) || negb (opt_is_some (hv_cursor view)) in
  {| pl_full_refresh := full_refresh; pl_append_prefix := negb full_refresh;
     pl_samples := if full_refresh then [] else hv_samples view; pl_gaps := if full_refresh then [] else hv_gaps view;
     pl_local_usage := if full_refresh then [] else hv_local_usage view;
     pl_request_cursor := if full_refresh then None else hv_cursor view; pl_first_page := true;
     pl_seen_cursors := ∅; pl_page_count := 0; pl_recovery_attempted := false; pl_require_head := false |}.
(** The outcome of a poll: what it committed, or its error with the two flags that ask for
    the head of the period next time; a directory may be committed without pages. *)
Inductive PollOutcome :=
| Committed (view : HistoryView) (control : PollControl) (selectable : bool)
| PollFailed (view : HistoryView) (error : string) (require_head recovery_attempted : bool).
Definition set_local_usage (view : HistoryView) (usage : list LocalUsage) : HistoryView := {|
  hv_periods := hv_periods view; hv_periods_pair := hv_periods_pair view; hv_samples := hv_samples view;
  hv_gaps := hv_gaps view; hv_local_usage := usage; hv_pair := hv_pair view; hv_period_id := hv_period_id view;
  hv_cursor := hv_cursor view; hv_selected_reset_at := hv_selected_reset_at view;
  hv_selected_period := hv_selected_period view |}.
Definition commit_pages (root : ClientRoot) (view : HistoryView) (control : PollControl) (selectable : bool)
    (pair : text) (periods : list ServicePeriod) (turn : PageTurn) : PollOutcome :=
  match turn with
  | Finished cursor l =>
      match apply_service_history_resource root view control pair periods (pl_samples l) (pl_gaps l) cursor with
      | Ok (view, control) => Committed (set_local_usage view (pl_local_usage l)) control selectable
      | Err error => PollFailed view error (pl_require_head l) (pl_recovery_attempted l)
      end
  | Failed error l => PollFailed view error (pl_require_head l) (pl_recovery_attempted l)
  | Again l => PollFailed view EmptyString (pl_require_head l) (pl_recovery_attempted l)
  end.
Definition poll_pages (w : W) (root : ClientRoot) (view : HistoryView) (control : PollControl) (graph_open refreshed : bool)
    (directory : option text * list ServicePeriod * bool) : W * PollOutcome :=
  let '(found, periods, selectable) := directory in
  let failed error := PollFailed view error false false in
  match found with
  | None => (w, failed "history directory has no verified generation"%string)
  | Some served =>
      if negb graph_open then
        (w, if refreshed then
              match apply_service_history_periods_resource root view control served periods with
              | Ok view => Committed view control selectable
              | Err error => failed error
              end
            else Committed view control selectable)
      else
      match selected_period view control periods with
      | None => (w, match apply_service_history_resource root view control served periods [] [] None with
                    | Ok (view, control) => Committed view control selectable
                    | Err error => failed error
                    end)
      | Some period =>
          let context := {| pc_account := cr_account root; pc_periods := periods; pc_period_id := hp_id (sp_period period);
                            pc_history_pair := served; pc_previous_pair := hv_pair view; pc_saved_cursor := hv_cursor view |} in
          let '(w, turn) := page_loop loop_fuel context w (page_start view control (hp_id (sp_period period))) in
          (w, commit_pages root view control selectable served periods turn)
      end
  end.
Definition finish_poll (reset_required : bool) (control : PollControl) (outcome : PollOutcome) : HistoryView * PollControl :=
  match outcome with
  | Committed view control selectable =>
      (view, {| pk_selectable := selectable; pk_reset_required := false; pk_pending_reset_at := pk_pending_reset_at control;
                pk_pending_failures := 0; pk_force := false; pk_last_poll := pk_last_poll control; pk_error := None |})
  | PollFailed view error require_head recovery_attempted =>
      let newly_requires_head := require_head || bool_decide (error = SERVICE_HISTORY_STALE_PREFIX) || recovery_attempted in
      (view,
       if opt_is_some (pk_pending_reset_at control) && negb newly_requires_head then
         let failures := Z.min (pk_pending_failures control + 1) 255 in
         let retry_pending := failures <? 2 in
         {| pk_selectable := pk_selectable control; pk_reset_required := pk_reset_required control;
            pk_pending_reset_at := pk_pending_reset_at control; pk_pending_failures := failures; pk_force := retry_pending;
            pk_last_poll := pk_last_poll control; pk_error := if retry_pending then None else Some error |}
       else
         {| pk_selectable := pk_selectable control; pk_reset_required := pk_reset_required control || newly_requires_head;
            pk_pending_reset_at := pk_pending_reset_at control; pk_pending_failures := pk_pending_failures control;
            pk_force := newly_requires_head && negb reset_required; pk_last_poll := pk_last_poll control; pk_error := Some error |})
  end.
Definition poll_service_graph_resources_with (w : W) (root : ClientRoot) (view : HistoryView) (control : PollControl)
    (now : Z) (graph_open : bool) : W * (HistoryView * PollControl) :=
  if negb (service_poll_due (pk_last_poll control) (pk_force control) SERVICE_HISTORY_POLL_INTERVAL now)
     || negb (cr_split_capable root)
  then (w, (view, control))
  else
  match cr_current_pair root with
  | None => (w, (view, control))
  | Some current_pair =>
      let control := {| pk_selectable := pk_selectable control; pk_reset_required := pk_reset_required control;
                        pk_pending_reset_at := pk_pending_reset_at control; pk_pending_failures := pk_pending_failures control;
                        pk_force := pk_force control; pk_last_poll := now; pk_error := pk_error control |} in
      let refresh := pk_force control || negb (pk_selectable control) || bool_decide (hv_periods view = [])
                     || negb (bool_decide (hv_periods_pair view = Some current_pair)) in
      let '(w, directory) := if refresh then refresh_directory w root view control
                             else (w, Ok (hv_periods_pair view, hv_periods view, pk_selectable control)) in
      let '(w, outcome) := match directory with
                           | Err error => (w, PollFailed view error false false)
                           | Ok directory => poll_pages w root view control graph_open refresh directory
                           end in
      (w, finish_poll (pk_reset_required control) control outcome)
  end.
End client.
