(* ===== verification/ClientFacts.v ===== *)
(** * The desktop client and the REST server together

    What the poll of [HistoryClient] reads from a server that answers as [HttpRequest] and
    [HistoryIndex] say: the loop over the pages always finishes, and it ends with exactly
    the rows and the gaps the server publishes for the period, from the head of the
    period, from a saved cursor and from a cursor that has become stale. *)

From S2P Require Import Prelude Text Float64 Json TokenFacts Contract Details RecordedUsage Recordings SqlRow HistoryIndex HistoryRows HistoryCursor HistoryPages PublishFrame PublishStore HttpRequest ServerDetails HistoryClient.

(** ** The loop finishes *)
Section finishes.
Context {N : Type} `{JsonNumber N}.
Context (decode : list Z → result string (Value N)) (observations_of : Value N → result string (list PublicHistoryObservationV3)).
Context (gaps_of : Value N → result string (list PublicHistoryGap)) (local_usage_of : Value N → result string LocalUsage).
Context {W : Type} (request : W → text → option text → W * result string ServiceDetailsHttpResponse).
Notation turn := (page_turn decode observations_of gaps_of local_usage_of request).
Notation loop := (page_loop decode observations_of gaps_of local_usage_of request).

Lemma take_page_count context l served page l' : take_page context l served page = Again l' →
  pl_page_count l' = pl_page_count l.
Proof. unfold take_page. repeat case_match; try done. by intros [= <-]. Qed.
Lemma page_result_count context l page l' : page_result context l page = Again l' → pl_page_count l' = pl_page_count l.
Proof.
  unfold page_result. destruct page as [[served page|served]|e].
  - apply take_page_count.
  - by case_match.
  - repeat case_match; try done. by intros [= <-].
Qed.
Lemma turn_count context w l w' l' : turn context w l = (w', Again l') →
  pl_page_count l' = pl_page_count l + 1 ∧ pl_page_count l' ≤ MAX_PUBLIC_HISTORY_SAMPLES + 1.
Proof.
  unfold page_turn. destruct (Z.ltb_spec (MAX_PUBLIC_HISTORY_SAMPLES + 1) (pl_page_count l + 1)); [done|].
  destruct (is_some_and _ _); [done|]. destruct (fetch_service_history_page _ _ _ _ _ _ _ _ _ _) as [w0 page].
  intros [= _ E%page_result_count]. cbn [opened pl_page_count] in E. lia.
Qed.
Lemma loop_finishes_from fuel context w l : pl_page_count l ≤ MAX_PUBLIC_HISTORY_SAMPLES + 1 →
  MAX_PUBLIC_HISTORY_SAMPLES + 2 ≤ pl_page_count l + Z.of_nat fuel →
  match (loop fuel context w l).2 with Again _ => False | _ => True end.
Proof.
  revert w l. induction fuel as [|fuel IH]; intros w l Hc Hf; [lia|]. cbn [page_loop].
  destruct (turn context w l) as [w' [l'|cursor l'|error l']] eqn:Et; [|done|done].
  apply turn_count in Et. apply IH; lia.
Qed.
Lemma loop_more fuel more context w l : match (loop fuel context w l).2 with Again _ => False | _ => True end →
  loop (fuel + more) context w l = loop fuel context w l.
Proof.
  revert w l. induction fuel as [|fuel IH]; intros w l Hd; [done|]. cbn [page_loop Nat.add] in *.
  destruct (turn context w l) as [w' [l'|cursor l'|error l']] eqn:Et; [|done|done]. by apply IH.
Qed.
End finishes.

Lemma loop_fuel_Z : Z.of_nat loop_fuel = MAX_PUBLIC_HISTORY_SAMPLES + 2.
Proof. unfold loop_fuel. apply Z2Nat.id. unfold MAX_PUBLIC_HISTORY_SAMPLES. lia. Qed.

(** C38. The loop over the pages ends whatever the server answers, even if it answers
    differently each time: it finishes or fails within the fuel it is given, and more fuel
    changes nothing. *)
Theorem client_loop_finishes {N : Type} `{JsonNumber N} (decode : list Z → result string (Value N)) observations_of gaps_of
    local_usage_of {W} (request : W → text → option text → W * result string ServiceDetailsHttpResponse)
    context w view control period_id more :
  let run fuel := page_loop decode observations_of gaps_of local_usage_of request fuel context w
                    (page_start view control period_id) in
  match (run loop_fuel).2 with Again _ => False | _ => True end ∧ run (loop_fuel + more)%nat = run loop_fuel.
Proof.
  intros run. pose proof loop_fuel_Z as Hf. revert Hf. generalize loop_fuel. intros fuel Hf.
  assert (Hd : match (run fuel).2 with Again _ => False | _ => True end).
  { apply loop_finishes_from; cbn [page_start pl_page_count]; [|lia]. unfold MAX_PUBLIC_HISTORY_SAMPLES. lia. }
  split; [exact Hd|]. by apply loop_more.
Qed.

(** ** Merging *)
Lemma insert_last rows s : Forall (λ r, key_lt r s) rows → insert_row s rows = Some (rows ++ [s]).
Proof.
  induction 1 as [|r rows Hr _ IH]; cbn [insert_row app]; [done|]. unfold key_lt in Hr.
  apply key_order_Gt in Hr. by rewrite Hr, IH.
Qed.
Lemma sorted_snoc (rows : list PublicHistoryObservationV3) s rest : StronglySorted key_lt (rows ++ s :: rest) →
  Forall (λ r, key_lt r s) rows.
Proof.
  intros Hs. apply Forall_forall. intros r Hr. apply list_elem_of_lookup in Hr as [i Hi].
  pose proof (lookup_lt_Some _ _ _ Hi) as Hl.
  apply (StronglySorted_nth key_lt (rows ++ s :: rest) i (length rows)); [done| | |lia].
  - by rewrite lookup_app_l.
  - by rewrite lookup_app_r, Nat.sub_diag.
Qed.
Lemma merge_base rows : ∀ done_, StronglySorted key_lt (done_ ++ rows) → fold_result base_row done_ rows = Ok (done_ ++ rows).
Proof.
  induction rows as [|s rows IH]; intros d Hs; cbn [fold_result]; [by rewrite app_nil_r|].
  unfold base_row. rewrite (insert_last d s) by (by eapply sorted_snoc). cbn [ok_or].
  rewrite IH; [|by rewrite <- app_assoc]. by rewrite <- app_assoc.
Qed.
Lemma merge_incoming append end_ rows : ∀ done_, StronglySorted key_lt (done_ ++ rows) →
  Z.of_nat (length (done_ ++ rows)) ≤ MAX_PUBLIC_HISTORY_SAMPLES →
  (append = true → ∀ key, end_ = Some key → Forall (λ s, key_order key (sample_key s) = Lt) rows) →
  fold_result (incoming_row append end_) done_ rows = Ok (done_ ++ rows).
Proof.
  induction rows as [|s rows IH]; intros d Hs Hmax Hend; cbn [fold_result]; [by rewrite app_nil_r|].
  unfold incoming_row at 1. rewrite (insert_last d s) by (by eapply sorted_snoc).
  assert (append && is_some_and (λ end_, negb (bool_decide (key_order end_ (sample_key s) = Lt))) end_ = false) as ->.
  { destruct append; [|done]. destruct end_ as [key|]; [|done]. cbn.
    specialize (Hend eq_refl key eq_refl). inversion_clear Hend. by rewrite bool_decide_eq_true_2. }
  destruct (Z.leb_spec MAX_PUBLIC_HISTORY_SAMPLES (Z.of_nat (length d))) as [Hl|_].
  { rewrite length_app in Hmax. cbn [length] in Hmax. lia. }
  rewrite IH; [by rewrite <- app_assoc|by rewrite <- app_assoc|by rewrite <- app_assoc|].
  intros Ha key Hk. specialize (Hend Ha key Hk). by inversion_clear Hend.
Qed.
Lemma merge_sorted base incoming append : StronglySorted key_lt (base ++ incoming) →
  Z.of_nat (length (base ++ incoming)) ≤ MAX_PUBLIC_HISTORY_SAMPLES →
  merge_service_history_samples base incoming append = Ok (base ++ incoming).
Proof.
  intros Hs Hmax. unfold merge_service_history_samples.
  assert (fold_result base_row [] base = Ok base) as ->.
  { apply (merge_base base []). cbn [app]. revert Hs. by intros ?%StronglySorted_app_1_l. }
  cbn [mbind result_bind]. apply merge_incoming; [done..|]. intros _ key Hk. apply Forall_forall. intros s Hin.
  destruct (last base) as [r|] eqn:El; [|done]. cbn in Hk. injection Hk as <-.
  apply last_Some in El as [base' ->]. apply list_elem_of_lookup in Hin as [i Hi].
  apply (StronglySorted_nth key_lt ((base' ++ [r]) ++ incoming) (length base') (length (base' ++ [r]) + i)); [done| | |].
  - rewrite lookup_app_l by (rewrite length_app; cbn; lia). by rewrite lookup_app_r, Nat.sub_diag.
  - rewrite lookup_app_r by lia. by rewrite Nat.add_comm, Nat.add_sub.
  - rewrite length_app. cbn. lia.
Qed.

(** ** The route of a page *)
Definition unreserved (w : text) : Prop := w ≠ [] ∧ ∀ x, x ∈ w → is_unreserved x = true.
Lemma unreserved_ascii x : is_unreserved x = true →
  0 ≤ x < 128 ∧ x ≠ 35 ∧ x ≠ 37 ∧ x ≠ 38 ∧ x ≠ 61 ∧ x ≠ 63.
Proof. unfold is_unreserved, is_ascii_alphanumeric, is_ascii_digit, in_range. lia. Qed.
Lemma unreserved_plain w : unreserved w → plain_value w.
Proof. intros [Hne Hw]. split; [done|]. intros x Hx%Hw%unreserved_ascii. lia. Qed.
Lemma encode_unreserved w : unreserved w → percent_encode_query_component w = w.
Proof.
  intros [_ Hw]. unfold percent_encode_query_component, as_bytes. induction w as [|c w IH]; [done|]. cbn [flat_map].
  pose proof (Hw c ltac:(left)) as Hc. apply unreserved_ascii in Hc as Ha.
  unfold utf8_char at 1. destruct (Z.ltb_spec c 128); [|lia]. cbn [app flat_map].
  unfold percent_encode_byte at 1. rewrite Hc. cbn [app]. f_equal. apply IH. intros x Hx. apply Hw. by right.
Qed.
Lemma account_unreserved a : valid_account_selector a = true → unreserved a.
Proof.
  unfold valid_account_selector. destruct (strip_prefix _ a) as [epoch|] eqn:Es; [|done]. apply strip_prefix_Some in Es as ->.
  destruct (parse_unsigned _ epoch) as [e|]; [|done]. cbn [is_some_and]. intros [He%Z.ltb_lt E]%andb_true_iff.
  apply text_eqb_true in E. rewrite E. split; [done|]. intros x [Hx|Hx]%elem_of_app.
  - revert x Hx. apply Forall_forall. vm_compute. repeat constructor.
  - pose proof (to_dec_digits e ltac:(lia)) as Hd. rewrite Forall_forall in Hd. specialize (Hd x Hx). unfold digit in Hd.
    unfold is_unreserved, is_ascii_alphanumeric, is_ascii_digit, in_range. lia.
Qed.
Lemma unreserved_named name w : Forall (λ x, x ≠ 35 ∧ x ≠ 37 ∧ x ≠ 38) name → unreserved w → clean (name ++ 61 :: w).
Proof.
  intros Hn Hw. split; [by destruct name|]. apply unreserved_plain in Hw as [_ Hw].
  intros x [Hx|[->|Hx]%elem_of_cons]%elem_of_app; [by eapply Forall_forall in Hn|lia|naive_solver].
Qed.
Definition route_pieces (id : text) (cursor account : option text) : list text :=
  (lit "period" ++ 61 :: id) :: named (lit "cursor") cursor ++ named (lit "account") account.
Definition cursor_part (cursor : option text) : text :=
  match cursor with Some c => 38 :: lit "cursor" ++ 61 :: c | None => [] end.
Lemma history_route id cursor : unreserved id → all_some unreserved cursor →
  service_history_route id cursor = lit "/v3/history" ++ 63 :: lit "period" ++ 61 :: id ++ cursor_part cursor.
Proof.
  intros Hid Hc. unfold service_history_route. rewrite (encode_unreserved id Hid).
  change (lit "/v3/history?period=") with (lit "/v3/history" ++ 63 :: lit "period" ++ [61]).
  assert (match cursor with Some c => lit "&cursor=" ++ percent_encode_query_component c | None => [] end = cursor_part cursor) as ->.
  { destruct cursor as [c|]; [|done]. rewrite (encode_unreserved c (Hc c eq_refl)).
    change (lit "&cursor=") with (38 :: lit "cursor" ++ [61]). unfold cursor_part.
    rewrite <- !app_comm_cons, <- !app_assoc. done. }
  rewrite <- !app_assoc, <- !app_comm_cons, <- !app_assoc. done.
Qed.
Lemma history_route_kind rest : let route := lit "/v3/history" ++ 63 :: rest in
  starts_with route (lit "/v3/") = true ∧ text_eqb route (lit "/v3/accounts") = false ∧ contains_char route 63 = true.
Proof.
  split_and!; [reflexivity| |reflexivity]. apply not_true_iff_false. rewrite text_eqb_true. intros E. cbn in E. discriminate E.
Qed.
Lemma client_route id cursor account : unreserved id → all_some unreserved cursor → all_some unreserved account →
  service_route_with_account (service_history_route id cursor) account
  = path_of RouteHistoryV3 ++ 63 :: join 38 (route_pieces id cursor account).
Proof.
  intros Hid Hc Ha. rewrite history_route by done. change (path_of RouteHistoryV3) with (lit "/v3/history").
  set (rest := lit "period" ++ 61 :: id ++ cursor_part cursor).
  destruct (history_route_kind rest) as (H1 & H2 & H3). unfold service_route_with_account. rewrite H1, H2, H3. cbn [orb negb].
  assert (Hj : ∀ tail, join 38 ((lit "period" ++ 61 :: id) :: named (lit "cursor") cursor ++ tail)
    = rest ++ match tail with [] => [] | _ => 38 :: join 38 tail end).
  { intros tail. unfold rest, cursor_part. destruct cursor as [c|]; cbn [named app]; destruct tail as [|t tail];
      rewrite ?app_nil_r; try done;
      rewrite <- ?app_assoc, <- ?app_comm_cons, <- ?app_assoc, <- ?app_comm_cons, <- ?app_assoc; done. }
  unfold route_pieces. rewrite Hj. destruct account as [a|]; cbn [named]; [|by rewrite app_nil_r].
  rewrite (encode_unreserved a (Ha a eq_refl)). change (lit "account=") with (lit "account" ++ [61]).
  rewrite <- !app_assoc, <- !app_comm_cons. cbn [join app]. by rewrite <- ?app_assoc.
Qed.
Lemma client_target id cursor account : unreserved id → all_some unreserved cursor →
  all_some (λ a, valid_account_selector a = true) account →
  parse_target (service_route_with_account (service_history_route id cursor) account)
  = Ok {| tg_route := Some RouteHistoryV3; tg_account := account; tg_period := Some id; tg_cursor := cursor |}.
Proof.
  intros Hid Hc Ha. assert (Ha' : all_some unreserved account) by (intros a E; by apply account_unreserved, Ha).
  rewrite client_route by done.
  assert (Hclean : Forall clean (route_pieces id cursor account)).
  { unfold route_pieces. constructor; [|apply Forall_app; split].
    - apply unreserved_named; [|done]. vm_compute. repeat constructor; lia.
    - apply clean_named; [vm_compute; repeat constructor; lia|]. intros v E. by apply unreserved_plain, Hc.
    - apply clean_named; [vm_compute; repeat constructor; lia|]. intros v E. by apply unreserved_plain, Ha'. }
  rewrite target_query by (by apply join_nonnil || by apply join_clean). cbn [route_directory_v5].
  rewrite bool_decide_eq_true_2 by done. cbn [negb].
  rewrite split_join; [|done|].
  2:{ eapply Forall_impl; [exact Hclean|]. intros w [_ Hw] H38. by destruct (Hw 38 H38) as (_ & _ & ?). }
  unfold route_pieces. cbn [fold_result]. rewrite period_piece; [|by apply unreserved_plain|done]. cbn [named].
  destruct cursor as [c|]; cbn [named app fold_result]; [rewrite cursor_piece; [|by apply unreserved_plain, Hc|done]|];
    (destruct account as [a|]; cbn [named app fold_result];
      [rewrite account_piece; [|by apply unreserved_plain, Ha'|by apply Ha|done]|]); done.
Qed.

(** ** A page on the wire *)
(** Rows of a published history: a source that vouches for its models has them, and no
    other row carries any. *)
Definition trusted (o : PublicHistoryObservationV3) : Prop :=
  match o3_models o with
  | Some _ => (o3_model_source o = lit "confirmed" ∧ o3_models_complete o = true)
              ∨ (o3_model_source o = lit "legacy-unknown" ∧ o3_models_complete o = false)
  | None => is_any (o3_model_source o) ["legacy-unknown"; "reconstructed-from-session"; "unavailable"]%string = true
            ∧ o3_models_complete o = false
  end.
Lemma sanitize_trusted o : trusted o → sanitize_untrusted_history_observation_v3 o = o.
Proof.
  destruct o as [t r p a models complete source]. unfold trusted, sanitize_untrusted_history_observation_v3.
  cbn [o3_models o3_models_complete o3_model_source o3_timestamp o3_reset_at o3_remaining_percent o3_task_active_since_previous].
  destruct models as [models|].
  - intros [[-> ->]|[-> ->]]; reflexivity.
  - unfold is_any. rewrite existsb_exists. intros [(x & Hx & ->%text_eqb_true) ->].
    cbn in Hx. destruct Hx as [<-|[<-|[<-|[]]]]; reflexivity.
Qed.

Section wire.
Context {N : Type} `{JsonNumber N}.
Context (decode : list Z → result string (Value N)) (observations_of : Value N → result string (list PublicHistoryObservationV3)).
Context (gaps_of : Value N → result string (list PublicHistoryGap)) (local_usage_of : Value N → result string LocalUsage).
Notation parse := (parse_service_history_page_document decode observations_of gaps_of local_usage_of).
(** How the library prints numbers, percents, models and gaps. *)
Context (int_value : Z → Value N) (percent_value : option f64 → Value N).
Context (models_value : list PublicHistoryModelUsageV3 → Value N) (gaps_value : list PublicHistoryGap → Value N).
Context (local_value : LocalUsage → Value N).

Definition text_value (o : option text) : Value N := match o with Some t => VString t | None => Null end.
Definition row_value (o : PublicHistoryObservationV3) : Value N := Object [
  (lit "model_source", VString (o3_model_source o));
  (lit "models", match o3_models o with Some models => models_value models | None => Null end);
  (lit "models_complete", Bool (o3_models_complete o));
  (lit "remaining_percent", percent_value (o3_remaining_percent o));
  (lit "reset_at", int_value (o3_reset_at o));
  (lit "task_active_since_previous", match o3_task_active_since_previous o with Some active => Bool active | None => Null end);
  (lit "timestamp", int_value (o3_timestamp o))].
Definition page_members (page : HistoryPage) : list (text * Value N) := [
  (lit "history_gaps", gaps_value (pg_history_gaps page));
  (lit "history_samples", Array (map row_value (pg_history_samples page)));
  (lit "next_cursor", text_value (pg_next_cursor page));
  (lit "resume_cursor", text_value (pg_resume_cursor page))].
(** The document of a page, its members in the order of their keys. *)
Definition page_value (page : HistoryPage) (local : LocalUsage) : Value N := Object [
  (lit "api_version", VString (lit "v3"));
  (lit "history_gaps", gaps_value (pg_history_gaps page));
  (lit "history_samples", Array (map row_value (pg_history_samples page)));
  (lit "local_usage", local_value local);
  (lit "next_cursor", text_value (pg_next_cursor page));
  (lit "resume_cursor", text_value (pg_resume_cursor page))].
Definition client_page (page : HistoryPage) (local : LocalUsage) : ServiceHistoryPage := {|
  hpg_next_cursor := pg_next_cursor page; hpg_resume_cursor := pg_resume_cursor page;
  hpg_samples := pg_history_samples page; hpg_gaps := pg_history_gaps page; hpg_local_usage := Some local |}.
Lemma sanitize_row_value o : trusted o → sanitize_json_row (row_value o) = row_value o.
Proof.
  destruct o as [t r p a models complete source]. unfold trusted, row_value.
  cbn [o3_models o3_models_complete o3_model_source o3_timestamp o3_reset_at o3_remaining_percent o3_task_active_since_previous].
  destruct models as [models|].
  - intros [[-> ->]|[-> ->]]; reflexivity.
  - unfold is_any. rewrite existsb_exists. intros [(x & Hx & ->%text_eqb_true) ->].
    cbn in Hx. destruct Hx as [<-|[<-|[<-|[]]]]; reflexivity.
Qed.
Definition cursor_ok (o : option text) : Prop := o ≠ Some [].
Lemma text_cursor_field object key message o : get (lit key) object = Some (text_value o) → cursor_ok o →
  cursor_field object key message = Ok o.
Proof.
  intros Hg Ho. unfold cursor_field. rewrite Hg. destruct o as [c|]; cbn; [|done].
  rewrite bool_decide_eq_false_2 by congruence. done.
Qed.
Definition with_local (page : HistoryPage) (local : LocalUsage) : list (text * Value N) := [
  (lit "history_gaps", gaps_value (pg_history_gaps page));
  (lit "history_samples", Array (map row_value (pg_history_samples page)));
  (lit "local_usage", local_value local);
  (lit "next_cursor", text_value (pg_next_cursor page));
  (lit "resume_cursor", text_value (pg_resume_cursor page))].
Lemma page_removals page local :
  map_remove "api_version" ((lit "api_version", VString (lit "v3")) :: with_local page local)
  = (Some (VString (lit "v3")), with_local page local)
  ∧ map_remove "local_usage" (with_local page local) = (Some (local_value local), page_members page).
Proof. split; reflexivity. Qed.
Lemma page_keys page : bool_decide ({[ lit "api_version" ]} ∪ list_to_set (map fst (page_members page)) = page_fields) = true.
Proof.
  change (map fst (page_members page)) with (map lit ["history_gaps"; "history_samples"; "next_cursor"; "resume_cursor"]%string).
  vm_compute. reflexivity.
Qed.
Lemma page_members_get page :
  get (lit "history_samples") (page_members page) = Some (Array (map row_value (pg_history_samples page)))
  ∧ get (lit "history_gaps") (page_members page) = Some (gaps_value (pg_history_gaps page)).
Proof. split; reflexivity. Qed.
Lemma parse_page bytes page local :
  decode bytes = Ok (page_value page local) → Forall trusted (pg_history_samples page) →
  cursor_ok (pg_next_cursor page) → cursor_ok (pg_resume_cursor page) →
  (pg_history_samples page ≠ [] → pg_resume_cursor page ≠ None) →
  observations_of (Array (map row_value (pg_history_samples page))) = Ok (pg_history_samples page) →
  gaps_of (gaps_value (pg_history_gaps page)) = Ok (pg_history_gaps page) →
  local_usage_of (local_value local) = Ok local → LocalUsage_validate local = Ok () →
  parse bytes = Ok (client_page page local).
Proof.
  intros Hd Ht Hn Hr Hs Ho Hg Hl Hv. unfold parse_service_history_page_document. rewrite Hd. unfold page_value, mbind, result_bind.
  fold (with_local page local). cbn [ok_or as_object]. destruct (page_removals page local) as [-> ->]. rewrite page_keys.
  rewrite bool_decide_eq_true_2 by reflexivity. cbn [negb parse_local_usage]. unfold mbind, result_bind. rewrite Hl, Hv. cbn [map_err].
  rewrite (text_cursor_field _ _ _ (pg_next_cursor page)), (text_cursor_field _ _ _ (pg_resume_cursor page)) by (done || reflexivity).
  destruct (page_members_get page) as [-> ->]. cbn [ok_or sanitize_untrusted_history_json_rows].
  assert (map sanitize_json_row (map row_value (pg_history_samples page)) = map row_value (pg_history_samples page)) as ->.
  { rewrite map_map. apply map_ext_in. intros o Hin%list_elem_of_In. rewrite Forall_forall in Ht. by apply sanitize_row_value, Ht. }
  rewrite Ho, Hg.
  assert (map sanitize_untrusted_history_observation_v3 (pg_history_samples page) = pg_history_samples page) as ->.
  { rewrite <- (map_id (pg_history_samples page)) at 2. apply map_ext_in. intros o Hin%list_elem_of_In.
    rewrite Forall_forall in Ht. by apply sanitize_trusted, Ht. }
  replace (_ && _) with false; [done|]. symmetry. apply andb_false_iff.
  destruct (pg_history_samples page); [by left|]. right. destruct (pg_resume_cursor page); [done|]. by destruct Hs.
Qed.
End wire.

(** ** The server a client talks to *)
(** The document of the history route for a request, with the extension when it asks. *)
Definition rest_document (document_json : HistoryPage * LocalUsage → list Z) (plain_json : HistoryPage → list Z)
    (frame : PublishedSnapshot) (request : Request) (route : Route) (degraded : bool) : result RouteError (list Z) :=
  let target := rq_target request in
  if rq_local_usage request then
    document ← serialize_history_extended (ps_retained_history frame) (ps_history_index frame) (ps_local_recordings frame)
                 (ps_history_available frame) (tg_period target) (tg_cursor target);
    Ok (document_json document)
  else
    page ← (if negb (ps_history_available frame) then Err HistoryUnavailable
            else history_document (ps_retained_history frame) (ps_history_index frame) (tg_period target) (tg_cursor target));
    Ok (plain_json page).
(** The request the application sends for a route. *)
Definition client_request (target : Target) (route : text) (prior : option text) : Request := {|
  rq_method := lit "GET"; rq_target := target; rq_if_none_match := prior; rq_body_length := 0;
  rq_local_usage := starts_with route (lit "/v3/history?") |}.
Definition healthy_capture (frame : PublishedSnapshot) : ResourceCapture := {|
  rc_frame := Some frame; rc_unavailable := false; rc_read_failed := false; rc_freshness := None |}.
(** The answer of a server that holds one frame of every account and is healthy. *)
Definition rest_response (document_json : HistoryPage * LocalUsage → list Z) (plain_json : HistoryPage → list Z)
    (error_json : RouteError → list Z) (frame : PublishedSnapshot) (w : ()) (route : text) (prior : option text) :
    () * result string ServiceDetailsHttpResponse :=
  (w, match parse_target route with
      | Ok target =>
          match tg_route target with
          | Some RouteHistoryV3 =>
              let request := client_request target route prior in
              let document := rest_document document_json plain_json in
              let answer := handle_connection id (λ _, true) [] (λ _ _, healthy_capture frame) false (Err Serialization)
                              (Err Serialization) document (Ok request) in
              Ok {| sr_status := an_status answer; sr_pair := an_pair answer;
                    sr_body := match document frame request RouteHistoryV3 (ps_acquisition_degraded frame) with
                               | Ok body => if an_status answer =? 304 then [] else body
                               | Err error => error_json error
                               end |}
          | _ => Err "another resource"%string
          end
      | Err _ => Err "bad request"%string
      end).

Lemma resume_unreserved self samples i : digest_ok (pi_fingerprints self !!! i) → unreserved (resume self samples i).
Proof.
  intros Hd. unfold resume. split; [done|]. intros x.
  assert (Hnum : ∀ v, x ∈ i64_to_string v → is_unreserved x = true).
  { intros v. unfold i64_to_string. assert (∀ d, 0 ≤ d → x ∈ to_dec d → is_unreserved x = true) as Hdec.
    { intros d Hd0 Hx. pose proof (to_dec_digits d Hd0) as Hdig. rewrite Forall_forall in Hdig. specialize (Hdig x Hx).
      unfold digit in Hdig. unfold is_unreserved, is_ascii_alphanumeric, is_ascii_digit, in_range. lia. }
    case_match; [intros [->|Hx]%elem_of_cons; [done|]|intros Hx]; eapply Hdec; try exact Hx; lia. }
  assert (Hlit : ∀ w, forallb is_unreserved w = true → x ∈ w → is_unreserved x = true).
  { intros w Hw Hx. rewrite forallb_forall in Hw. apply Hw. by apply list_elem_of_In. }
  rewrite !elem_of_app. intros [Hx|[Hx|[Hx|[Hx|[Hx|Hx]]]]]; try (by eapply Hnum); try (by eapply Hlit; [|exact Hx]; reflexivity).
  destruct (hex_ok _ Hd) as (Hh & _ & _). rewrite forallb_forall in Hh. apply list_elem_of_In in Hx. specialize (Hh x Hx).
  unfold is_lower_hex, is_ascii_digit, in_range in Hh. unfold is_unreserved, is_ascii_alphanumeric, is_ascii_digit, in_range. lia.
Qed.

(** The cursor a client has when it holds the rows before a position. *)
Definition cursor_before (indexed : PeriodIndex) (samples : list PublicHistoryObservationV3) (position : nat) : option text :=
  match position with O => None | S i => Some (resume indexed samples i) end.
(** The client shows what a publication serves for a period. *)
Record in_step (view : HistoryView) (id pair : text) (archive : HistoryArchive) (indexed : PeriodIndex) (p : PublicHistoryPeriod) : Prop := {
  st_id : hv_period_id view = Some id;
  st_pair : hv_pair view = Some pair;
  st_samples : hv_samples view = period_samples archive p;
  st_gaps : hv_gaps view = map snd (gap_rows archive p);
  st_cursor : hv_cursor view = cursor_before indexed (ha_samples archive) (length (period_samples archive p))
}.

(** ** One published period, read by a client *)
Section published.
Context (sha256 : list Z → list Z) (identity_json : Z * text * Z * list PublicHistoryGap → list Z).
Context (sample_json : PublicHistoryObservationV3 → list Z) (digest : ∀ l, digest_ok (sha256 l)).
Context (frame : PublishedSnapshot) (recordings : option RecordedArchive) (epoch : Z).
Context (id : text) (raw : bool) (archive : HistoryArchive) (p : PublicHistoryPeriod).
Notation retained := (ps_retained_history frame).
Notation self := (period_index sha256 identity_json sample_json archive recordings epoch (source_of raw) p).
Notation rows := (period_samples archive p).
(** The frame serves the period, and what it publishes is within the limits of a document. *)
Record published : Prop := {
  pb_served : served retained id raw archive p;
  pb_index : ps_history_index frame = HistoryIndex_build sha256 identity_json sample_json retained recordings epoch;
  pb_available : ps_history_available frame = true;
  pb_pair : valid_published_pair (ps_pair frame) = true;
  pb_size : Z.of_nat (length rows) ≤ MAX_PUBLIC_HISTORY_SAMPLES;
  pb_trusted : Forall trusted rows;
  pb_id : unreserved id;
  pb_span : 1 ≤ hp_start_at p ≤ hp_end_at p ∧ hp_end_at p ≤ MAX_PUBLIC_UNIX_SECONDS
}.
Context (Hpub : published).
Notation extended := (serialize_history_extended retained (ps_history_index frame) (ps_local_recordings frame) (ps_history_available frame) (Some id)).

Lemma row_time s : s ∈ rows → o3_timestamp s ≤ hp_end_at p.
Proof.
  unfold period_samples. intros ([j s'] & -> & Hs%elem_of_filter_bool)%list_elem_of_fmap. destruct Hs as [_ Ho].
  cbn [snd] in *. unfold owns_sample, holds_sample, history_minute_in_period in Ho.
  apply andb_true_iff in Ho as [_ [_ [_ Ho%Z.leb_le]%andb_true_iff]%andb_true_iff]. done.
Qed.
Lemma index_row position row : pi_samples self !! position = Some row → sample_at (ha_samples archive) row ∈ rows.
Proof. intros Hr. apply sample_rows_lookup in Hr. by eapply list_elem_of_lookup_2. Qed.
Lemma evidence_in_period start : let '(from, to) := evidence_range archive self p start in
  hp_start_at p ≤ from < to ∧ to ≤ hp_end_at p + 1.
Proof.
  destruct Hpub as [_ _ _ _ _ _ _ [Hspan Hmax]]. unfold MAX_PUBLIC_UNIX_SECONDS in Hmax. unfold evidence_range. cbv zeta.
  assert (Hat : ∀ position d, d ≤ hp_end_at p + 1 → default d ((λ row, o3_timestamp (sample_at (ha_samples archive) row)) <$> pi_samples self !! position) ≤ hp_end_at p + 1).
  { intros position d Hd. destruct (pi_samples self !! position) as [row|] eqn:Er; cbn; [|done].
    apply index_row, row_time in Er. lia. }
  assert (Hsat : ∀ v, v ≤ hp_end_at p → i64_saturating_add v 1 ≤ hp_end_at p + 1) by (intros; unfold i64_saturating_add; width).
  assert (Hgt : ∀ v, v ≤ hp_end_at p → v < i64_saturating_add v 1) by (intros; unfold i64_saturating_add; width).
  set (from := if (start =? 0)%nat then _ else _).
  assert (Hfrom : hp_start_at p ≤ from ≤ hp_end_at p).
  { unfold from. destruct (start =? 0)%nat; [lia|]. destruct (pi_samples self !! (start - 1)%nat) as [row|] eqn:Er; cbn; [|lia].
    apply index_row, row_time in Er. lia. }
  specialize (Hgt from ltac:(lia)). specialize (Hsat from ltac:(lia)) as Hs1.
  pose proof (Hat (page_end self start) (i64_saturating_add (hp_end_at p) 1) (Hsat (hp_end_at p) ltac:(lia))). lia.
Qed.

(** Where a cursor leads, and the page from there. *)
Notation cursor_at := (cursor_before self (ha_samples archive)).
Lemma resume_inj i j : (i < length rows)%nat → (j < length rows)%nat →
  resume self (ha_samples archive) i = resume self (ha_samples archive) j → i = j.
Proof.
  intros Hi Hj E. pose proof (served_start sha256 identity_json sample_json digest retained recordings epoch id raw archive p (pb_served Hpub)) as Hst.
  assert (start_after self (ha_samples archive) (resume self (ha_samples archive) i) = Some (S i)) as E1 by (apply Hst; by exists i).
  assert (start_after self (ha_samples archive) (resume self (ha_samples archive) j) = Some (S j)) as E2 by (apply Hst; by exists j).
  rewrite E, E2 in E1. by injection E1.
Qed.
Lemma cursor_text start : (start ≤ length rows)%nat → all_some unreserved (cursor_at start).
Proof.
  intros Hs v Hv. destruct start as [|i]; [done|]. injection Hv as <-. apply resume_unreserved.
  rewrite period_fingerprint; [apply digest|]. rewrite (samples_length sha256 identity_json sample_json). lia.
Qed.
Lemma cursor_start_after start : (start ≤ length rows)%nat →
  match cursor_at start with Some c => start_after self (ha_samples archive) c = Some start | None => start = 0%nat end.
Proof.
  intros Hs. destruct start as [|i]; cbn; [done|].
  apply (served_start sha256 identity_json sample_json digest retained recordings epoch id raw archive p (pb_served Hpub)).
  exists i. split_and!; [lia|done|done].
Qed.
Lemma selected_found : List.find (λ candidate, text_eqb (hp_id candidate) id) (ha_periods archive) = Some p.
Proof.
  destruct Hpub as [[_ Hn Hp Hid _ _] _ _ _ _ _ _ _]. revert Hn Hp. induction (ha_periods archive) as [|q l IH]; intros Hn Hp.
  { by apply elem_of_nil in Hp. }
  cbn [map] in Hn. apply NoDup_cons in Hn as [Hq Hn]. cbn [List.find]. destruct (text_eqb (hp_id q) id) eqn:E.
  - apply text_eqb_true in E. apply elem_of_cons in Hp as [->|Hp]; [done|]. exfalso. apply Hq. rewrite E, <- Hid.
    by apply list_elem_of_fmap_2.
  - apply elem_of_cons in Hp as [->|Hp]; [|by apply IH]. rewrite Hid, (proj2 (text_eqb_true id id) eq_refl) in E. done.
Qed.
Lemma extended_page start cursor : (start ≤ length rows)%nat →
  match cursor with Some c => start_after self (ha_samples archive) c = Some start | None => start = 0%nat end →
  ∃ local, extended cursor = Ok (page_of archive self start cursor, local) ∧ LocalUsage_validate local = Ok ()
    ∧ hp_start_at p ≤ lu_start_at local ∧ lu_end_at local ≤ hp_end_at p + 1.
Proof.
  intros Hs Hc. unfold serialize_history_extended. rewrite (pb_available Hpub). cbn [negb].
  change (ok_or (Some id) UnknownPeriod) with (@Ok RouteError _ id). unfold mbind at 1, result_bind at 1.
  pose proof (served_page sha256 identity_json sample_json retained recordings epoch id raw archive p (pb_served Hpub) start cursor Hc) as Hd.
  pose proof (served_selection sha256 identity_json sample_json retained recordings epoch id raw archive p (pb_served Hpub) cursor) as Hsel.
  rewrite <- (pb_index Hpub) in Hd, Hsel. rewrite Hsel.
  assert (match cursor with
    | Some c => start0 ← ok_or (start_after self (ha_samples archive) c) StaleCursor; Ok (archive, self, start0)
    | None => Ok (archive, self, 0%nat) end = @Ok RouteError _ (archive, self, start)) as ->.
  { destruct cursor as [c|]; [by rewrite Hc|by subst]. }
  unfold mbind, result_bind in *. rewrite selected_found. cbn [ok_or].
  pose proof (evidence_in_period start) as He. destruct (evidence_range archive self p start) as [from to]. destruct He as [Hfrom Hto].
  rewrite Hd. eexists. split; [reflexivity|].
  destruct (pb_span Hpub) as [Hspan Hmax]. unfold MAX_PUBLIC_UNIX_SECONDS in Hmax.
  set (evidence := default _ _).
  assert (Hev : evidence = LocalUsage_unavailable from to ∨ ∃ r, local_usage r from to = Ok evidence).
  { unfold evidence. destruct (ps_local_recordings frame) as [r|]; cbn; [|by left].
    destruct (local_usage r from to) eqn:El; cbn; [right; by exists r|by left]. }
  destruct Hev as [->|[r Hr]].
  - unfold LocalUsage_validate, LocalUsage_unavailable, MAX_END_EXCLUSIVE. cbn.
    rewrite Z.eqb_refl, (proj2 (Z.leb_gt to from)), (proj2 (Z.ltb_ge from 1)), (proj2 (Z.ltb_ge 253402300800 to)), (proj2 (Z.ltb_ge to to)) by lia.
    cbn. rewrite Z.eqb_refl. split_and!; [done|lia|lia].
  - unfold local_usage in Hr. apply reject_Ok in Hr as [_ Hr]. apply bind_Ok in Hr as (minutes & _ & Hr).
    destruct (fold_left _ _ _) as [intervals cursor'] in Hr. apply bind_Ok in Hr as ([] & Hv & [= Hr]).
    rewrite <- Hr. split_and!; [|cbn; lia|cbn; lia]. unfold contract in Hv.
    apply map_err_Ok in Hv. exact Hv.
Qed.
Lemma extended_stale c : start_after self (ha_samples archive) c = None → extended (Some c) = Err StaleCursor.
Proof.
  intros Hc. unfold serialize_history_extended. rewrite (pb_available Hpub). cbn [negb].
  change (ok_or (Some id) UnknownPeriod) with (@Ok RouteError _ id). unfold mbind at 1, result_bind at 1.
  pose proof (served_selection sha256 identity_json sample_json retained recordings epoch id raw archive p (pb_served Hpub) (Some c)) as Hsel.
  rewrite <- (pb_index Hpub) in Hsel. by rewrite Hsel, Hc.
Qed.

Lemma page_end_eq start : page_end self start = Nat.min (start + 1024) (length rows).
Proof. unfold page_end. by rewrite (samples_length sha256 identity_json sample_json). Qed.
(** The page from a position: its rows, and the cursors after it. *)
Lemma page_at start : (start ≤ length rows)%nat →
  let page := page_of archive self start (cursor_at start) in
  let end_ := page_end self start in
  take start rows ++ pg_history_samples page = take end_ rows
  ∧ pg_history_gaps page = (if (start =? 0)%nat then map snd (gap_rows archive p) else [])
  ∧ pg_next_cursor page = (if (end_ <? length rows)%nat then cursor_at end_ else None)
  ∧ pg_resume_cursor page = cursor_at end_.
Proof.
  intros Hs page end_. pose proof (page_end_eq start) as He. fold end_ in He.
  assert (Hres : pg_resume_cursor page = cursor_at end_).
  { cbn [page page_of pg_resume_cursor]. fold end_. destruct end_ as [|e]; cbn; [|by rewrite Nat.sub_0_r].
    destruct start as [|start]; [done|]. lia. }
  split_and!.
  - assert (pg_history_samples page = take (end_ - start) (drop start rows)) as ->.
    { exact (page_samples sha256 identity_json sample_json recordings epoch raw archive p start). }
    rewrite <- (take_drop start (take end_ rows)), take_take, Nat.min_l by lia. f_equal. by rewrite skipn_firstn_comm.
  - assert (pg_history_gaps page = if opt_is_some (cursor_at start) then [] else map (λ row, ha_gaps archive !!! row) (map fst (gap_rows archive p))) as ->
      by done.
    rewrite gap_rows_at. by destruct start.
  - change (pg_next_cursor page) with (if (end_ <? length (pi_samples self))%nat then pg_resume_cursor page else None).
    by rewrite (samples_length sha256 identity_json sample_json), Hres.
  - done.
Qed.

(** *** The requests of the client *)
Context {N : Type} `{JsonNumber N}.
Context (decode : list Z → result string (Value N)) (observations_of : Value N → result string (list PublicHistoryObservationV3)).
Context (gaps_of : Value N → result string (list PublicHistoryGap)) (local_usage_of : Value N → result string LocalUsage).
Context (int_value : Z → Value N) (percent_value : option f64 → Value N).
Context (models_value : list PublicHistoryModelUsageV3 → Value N) (gaps_value : list PublicHistoryGap → Value N).
Context (local_value : LocalUsage → Value N).
Context (document_json : HistoryPage * LocalUsage → list Z) (plain_json : HistoryPage → list Z) (error_json : RouteError → list Z).
(** The application reads back what the server prints: the documents of the pages of the
    period, and the error of a stale cursor. *)
Record reads_back : Prop := {
  rb_document : ∀ start page local, (start ≤ length rows)%nat → extended (cursor_at start) = Ok (page, local) →
    decode (document_json (page, local)) = Ok (page_value int_value percent_value models_value gaps_value local_value page local)
    ∧ observations_of (Array (map (row_value int_value percent_value models_value) (pg_history_samples page))) = Ok (pg_history_samples page)
    ∧ gaps_of (gaps_value (pg_history_gaps page)) = Ok (pg_history_gaps page)
    ∧ local_usage_of (local_value local) = Ok local;
  rb_stale : decode (error_json StaleCursor) = Ok (Object [(lit "api_version", VString (lit "v1")); (lit "error", VString (lit "stale_cursor"))]);
  rb_stale_size : Z.of_nat (length (error_json StaleCursor)) ≤ STALE_CURSOR_RESPONSE_MAX_BYTES
}.
Context (Hread : reads_back).
Notation request := (rest_response document_json plain_json error_json frame).
Notation fetch := (fetch_service_history_page decode observations_of gaps_of local_usage_of request).
Context (account : option text) (Haccount : all_some (λ a, valid_account_selector a = true) account).

(** What the server answers to a request of the client for a page of the period. *)
Definition page_answer (cursor prior : option text) : ServiceDetailsHttpResponse :=
  match extended cursor with
  | Ok document =>
      if bool_decide (prior = Some (ps_pair frame)) then {| sr_status := 304; sr_pair := Some (ps_pair frame); sr_body := [] |}
      else {| sr_status := 200; sr_pair := Some (ps_pair frame); sr_body := document_json document |}
  | Err error => {| sr_status := status_of_error error; sr_pair := None; sr_body := error_json error |}
  end.
Lemma client_response cursor prior : all_some unreserved cursor →
  request () (service_route_with_account (service_history_route id cursor) account) prior = ((), Ok (page_answer cursor prior)).
Proof.
  intros Hc. unfold rest_response. rewrite (client_target id cursor account (pb_id Hpub) Hc Haccount). cbn [tg_route]. f_equal. f_equal.
  unfold handle_connection, answer_request, answer_frame, client_request, healthy_capture, rest_document, response_pair.
  assert (starts_with (service_route_with_account (service_history_route id cursor) account) (lit "/v3/history?") = true) as ->.
  { rewrite client_route; [|apply Hpub|done|]; [reflexivity|]. intros a Ha. by apply account_unreserved, Haccount. }
  cbn [rq_method rq_target rq_local_usage rq_if_none_match rq_body_length tg_route tg_account tg_period tg_cursor rc_unavailable
       rc_frame rc_read_failed rc_freshness orb negb].
  replace (text_eqb (lit "GET") (lit "GET")) with true by reflexivity.
  assert (is_none_or (λ _ : text, true) account = true) as -> by (by destruct account).
  do 3 (rewrite bool_decide_eq_false_2 by done). cbn [negb andb Z.ltb Z.compare].
  unfold page_answer, Datatypes.id. destruct (extended cursor) as [document|error] eqn:E; unfold mbind, result_bind; cbn [an_status an_pair plain].
  - case_bool_decide; reflexivity.
  - reflexivity.
Qed.

Definition usable (prior : option text) : Prop := all_some (λ q, valid_published_pair q = true ∧ q ≠ ps_pair frame) prior.
Lemma fetch_answer cursor prior : all_some unreserved cursor → all_some (λ q, valid_published_pair q = true) prior →
  fetch () account id cursor prior = ((), read_page_response decode observations_of gaps_of local_usage_of cursor prior
                                            (page_answer cursor prior)).
Proof.
  intros Hc Hp. unfold fetch_service_history_page. replace (is_some_and _ prior) with false.
  { by rewrite client_response. }
  destruct prior as [q|]; [|done]. cbn [is_some_and]. by rewrite (Hp q eq_refl).
Qed.
Lemma fetch_page start prior : (start ≤ length rows)%nat → usable prior → ∃ local,
  fetch () account id (cursor_at start) prior = ((), Ok (Fresh (ps_pair frame) (client_page (page_of archive self start (cursor_at start)) local)))
  ∧ hp_start_at p ≤ lu_start_at local ∧ lu_end_at local ≤ hp_end_at p + 1.
Proof.
  intros Hs Hp. destruct (extended_page start (cursor_at start) Hs (cursor_start_after start Hs)) as (local & He & Hv & Hl).
  exists local. split; [|done]. rewrite fetch_answer; [|by apply cursor_text|intros q Hq; by apply Hp].
  destruct (rb_document Hread start _ local Hs He) as (Hd & Ho & Hg & Hu). unfold page_answer. rewrite He.
  rewrite bool_decide_eq_false_2 by (intros Hq; by apply (Hp _ Hq)). unfold read_page_response. cbn [sr_status Z.eqb Pos.eqb negb].
  unfold response_published_pair. cbn [sr_pair sr_body ok_or]. unfold mbind at 1, result_bind at 1.
  destruct (page_at start Hs) as (Hrows & _ & Hnext & Hresume).
  erewrite parse_page; [reflexivity|exact Hd|..]; try done.
  - pose proof (pb_trusted Hpub) as Ht. rewrite Forall_forall in Ht |- *. intros s Hin. apply Ht.
    apply (elem_of_take s (page_end self start)) || idtac.
    rewrite <- (take_drop (page_end self start) rows). apply elem_of_app. left. rewrite <- Hrows. apply elem_of_app. by right.
  - rewrite Hnext. case_match; [|done]. by destruct (page_end self start).
  - rewrite Hresume. by destruct (page_end self start).
  - intros Hne. rewrite Hresume. destruct (page_end self start) eqn:E; [|done].
    exfalso. apply Hne. cbn [take] in Hrows. by apply app_eq_nil in Hrows as [_ ?].
Qed.
Lemma fetch_stale c prior : unreserved c → all_some (λ q, valid_published_pair q = true) prior →
  start_after self (ha_samples archive) c = None →
  fetch () account id (Some c) prior = ((), Err SERVICE_HISTORY_EXACT_STALE_CURSOR).
Proof.
  intros Hc Hp Hs. rewrite fetch_answer; [|by intros ? [= <-]|done]. unfold page_answer. rewrite extended_stale by done.
  unfold read_page_response. cbn [status_of_error sr_status Z.eqb Pos.eqb negb opt_is_some andb].
  unfold is_exact_stale_cursor_response. cbn [sr_status sr_pair sr_body Z.eqb Pos.eqb negb opt_is_some orb].
  destruct (Z.ltb_spec STALE_CURSOR_RESPONSE_MAX_BYTES (Z.of_nat (length (error_json StaleCursor)))) as [Hl|_].
  { pose proof (rb_stale_size Hread). lia. }
  rewrite (rb_stale Hread). cbn [map fst].
  rewrite !bool_decide_eq_true_2; [reflexivity| | |]; [reflexivity|reflexivity|].
  cbn [list_to_set]. set_solver.
Qed.
Lemma fetch_unmodified start : (start ≤ length rows)%nat →
  fetch () account id (cursor_at start) (Some (ps_pair frame)) = ((), Ok (NotModified (ps_pair frame))).
Proof.
  intros Hs. destruct (extended_page start (cursor_at start) Hs (cursor_start_after start Hs)) as (local & He & _).
  rewrite fetch_answer; [|by apply cursor_text|intros q [= <-]; apply Hpub]. unfold page_answer. rewrite He.
  rewrite bool_decide_eq_true_2 by done. unfold read_page_response. cbn [sr_status Z.eqb Pos.eqb].
  unfold response_published_pair. cbn [sr_pair sr_body ok_or]. unfold mbind, result_bind.
  by rewrite !bool_decide_eq_true_2.
Qed.

(** *** The loop over the pages of the period *)
Context (context : PageContext).
(** The loop reads the period, as the directory of the same publication lists it. *)
Record reads_period : Prop := {
  rp_account : pc_account context = account;
  rp_id : pc_period_id context = id;
  rp_pair : pc_history_pair context = ps_pair frame;
  rp_period : ∃ listed, List.find (λ period, text_eqb (hp_id (sp_period period)) id) (pc_periods context) = Some listed
                ∧ sp_period listed = p
}.
Context (Hcontext : reads_period).
Notation turn := (page_turn decode observations_of gaps_of local_usage_of request context ()).
Notation loop fuel := (page_loop decode observations_of gaps_of local_usage_of request fuel context ()).
Notation gaps := (map snd (gap_rows archive p)).
Definition condition (l : PageLoop) : option text :=
  if pl_first_page l && negb (pl_full_refresh l) then pc_previous_pair context else None.
(** The loop holds the rows before a position, and its next request is for the rest. *)
Record at_position (start : nat) (l : PageLoop) : Prop := {
  ap_start : (start ≤ length rows)%nat;
  ap_samples : pl_samples l = take start rows;
  ap_cursor : pl_request_cursor l = cursor_at start;
  ap_seen : ∀ c, c ∈ pl_seen_cursors l → ∃ j, (j < start)%nat ∧ cursor_at j = Some c;
  ap_gaps : if pl_full_refresh l && pl_first_page l then start = 0%nat else start ≠ 0%nat ∧ pl_gaps l = gaps;
  ap_count : pl_page_count l + Z.of_nat ((length rows - start) / 1024) ≤ MAX_PUBLIC_HISTORY_SAMPLES
}.
Definition complete (cursor : option text) (l : PageLoop) : Prop :=
  cursor = cursor_at (length rows) ∧ pl_samples l = rows ∧ pl_gaps l = gaps.

Lemma cursor_at_inj i j : (i ≤ length rows)%nat → (j ≤ length rows)%nat → cursor_at i = cursor_at j → i = j.
Proof.
  intros Hi Hj. destruct i as [|i], j as [|j]; unfold cursor_before; [done..|]. intros E. apply (inj Some) in E. f_equal. apply resume_inj; [lia|lia|done].
Qed.
Lemma not_seen start l : at_position start l →
  is_some_and (λ cursor, bool_decide (cursor ∈ pl_seen_cursors l)) (pl_request_cursor l) = false.
Proof.
  intros [Hs _ Hc Hseen _ _]. rewrite Hc. destruct (cursor_at start) as [c|] eqn:Ec; [|done]. cbn.
  apply bool_decide_eq_false_2. intros (j & Hj & Ej)%Hseen. rewrite <- Ec in Ej. apply cursor_at_inj in Ej; lia.
Qed.
Lemma opened_seen start l c : at_position start l → c ∈ pl_seen_cursors (opened l) → ∃ j, (j < S start)%nat ∧ cursor_at j = Some c.
Proof.
  intros [_ _ Hc Hseen _ _]. cbn [opened pl_seen_cursors]. rewrite Hc. destruct (cursor_at start) as [c'|] eqn:Ec.
  - intros [->%elem_of_singleton|Hin]%elem_of_union; [by exists start; split; [lia|]|]. apply Hseen in Hin as (j & ? & ?). exists j. split; [lia|done].
  - intros (j & ? & ?)%Hseen. exists j. split; [lia|done].
Qed.
Lemma local_accepted usage local : hp_start_at p ≤ lu_start_at local → lu_end_at local ≤ hp_end_at p + 1 →
  accept_local context usage (Some local) = Ok (usage ++ [local]).
Proof.
  intros Hl Hu. unfold accept_local. rewrite (rp_id Hcontext). destruct (rp_period Hcontext) as (listed & -> & Hp).
  unfold mbind, result_bind. cbn [ok_or]. rewrite Hp. destruct (pb_span Hpub) as [Hspan Hmax]. unfold MAX_PUBLIC_UNIX_SECONDS in Hmax.
  assert (i64_saturating_add (hp_end_at p) 1 = hp_end_at p + 1) as -> by (unfold i64_saturating_add; width).
  by rewrite (proj2 (Z.ltb_ge _ _)), (proj2 (Z.ltb_ge _ _)) by lia.
Qed.
Lemma published_rows_sorted : StronglySorted key_lt rows.
Proof. apply period_samples_sorted, (sv_sorted _ _ _ _ _ (pb_served Hpub)). Qed.
Lemma rows_taken start : StronglySorted key_lt (take start rows).
Proof. pose proof published_rows_sorted as Hs. rewrite <- (take_drop start rows) in Hs. by apply StronglySorted_app_1_l in Hs. Qed.
Lemma gaps_accepted start l : at_position start l → let page_gaps := if (start =? 0)%nat then gaps else [] in
  negb (pl_full_refresh l) && negb (bool_decide (page_gaps = [])) = false ∧ accept_gaps (opened l) page_gaps = Ok gaps.
Proof.
  intros [_ _ _ _ Hg _] page_gaps. unfold accept_gaps. cbn [opened pl_full_refresh pl_first_page pl_gaps].
  destruct (pl_full_refresh l), (pl_first_page l); cbn [andb negb] in *.
  - subst page_gaps. by rewrite Hg.
  - destruct Hg as [Hs ->]. subst page_gaps. by destruct start.
  - destruct Hg as [Hs ->]. subst page_gaps. by destruct start.
  - destruct Hg as [Hs ->]. subst page_gaps. by destruct start.
Qed.
(** A page of the period, taken by the loop at the position of the page. *)
Lemma take_position start l local : at_position start l → hp_start_at p ≤ lu_start_at local → lu_end_at local ≤ hp_end_at p + 1 →
  let page := client_page (page_of archive self start (cursor_at start)) local in
  let end_ := page_end self start in
  if (end_ <? length rows)%nat then ∃ l', take_page context (opened l) (ps_pair frame) page = Again l' ∧ at_position end_ l'
    ∧ pl_first_page l' = false
  else ∃ cursor l', take_page context (opened l) (ps_pair frame) page = Finished cursor l' ∧ complete cursor l'.
Proof.
  intros Hat Hl Hu page end_. pose proof Hat as [Hs Hsamples Hcursor Hseen Hgaps Hcount].
  destruct (page_at start Hs) as (Hrows & Hpgaps & Hnext & Hresume). pose proof (page_end_eq start) as He. fold end_ in He, Hrows, Hnext, Hresume.
  unfold take_page. rewrite (rp_pair Hcontext), (proj2 (text_eqb_true _ _) eq_refl). cbn [negb].
  cbn [page client_page hpg_gaps hpg_samples hpg_next_cursor hpg_resume_cursor hpg_local_usage].
  rewrite Hpgaps, Hnext, Hresume, local_accepted by done.
  change (pl_samples (opened l)) with (pl_samples l). rewrite Hsamples, merge_sorted, Hrows.
  2:{ rewrite Hrows. apply rows_taken. }
  2:{ rewrite Hrows, length_take. pose proof (pb_size Hpub). lia. }
  destruct (gaps_accepted start l Hat) as [Hkept Htaken]. change (pl_full_refresh (opened l)) with (pl_full_refresh l).
  rewrite Hkept, Htaken. clear Hkept Htaken. change (pl_request_cursor (opened l)) with (pl_request_cursor l). rewrite Hcursor.
  destruct (Nat.ltb_spec end_ (length rows)) as [Hlt|Hge].
  - assert (Hne : cursor_at start ≠ cursor_at end_) by (intros E%cursor_at_inj; lia).
    destruct (cursor_at end_) as [next|] eqn:Enext; [|destruct end_; [lia|done]]. rewrite bool_decide_eq_false_2 by done.
    eexists. split; [reflexivity|]. split; [|done]. split; cbn [pl_samples pl_request_cursor pl_seen_cursors pl_full_refresh pl_first_page pl_gaps pl_page_count opened].
    + lia.
    + done.
    + done.
    + intros c Hc. apply (opened_seen start l c Hat) in Hc as (j & ? & ?). exists j. split; [lia|done].
    + rewrite andb_false_r. split; [lia|done].
    + replace (length rows - start)%nat with (1 * 1024 + (length rows - end_))%nat in Hcount by lia.
      rewrite Nat.div_add_l in Hcount by lia. lia.
  - assert (Hn : end_ = length rows) by lia. eexists _, _. split; [reflexivity|].
    split; cbn [pl_samples pl_gaps]; [|split; [rewrite Hn; by apply take_ge|done]]. rewrite <- Hn.
    destruct (cursor_at end_) as [c|] eqn:Ec; [done|]. destruct (pl_full_refresh l) eqn:Ef; [done|].
    cbn [andb] in Hgaps. destruct Hgaps as [Hne _]. destruct end_; [lia|done].
Qed.
Lemma turn_position start l : at_position start l → usable (condition l) →
  if (page_end self start <? length rows)%nat then ∃ l', turn l = ((), Again l') ∧ at_position (page_end self start) l'
    ∧ pl_first_page l' = false
  else ∃ cursor l', turn l = ((), Finished cursor l') ∧ complete cursor l'.
Proof.
  intros Hat Hu. unfold page_turn. rewrite (not_seen start l Hat). pose proof Hat as [Hs _ Hcursor _ _ Hcount].
  destruct (Z.ltb_spec (MAX_PUBLIC_HISTORY_SAMPLES + 1) (pl_page_count l + 1)) as [Hc|_]; [lia|]. cbv zeta.
  change (pl_first_page (opened l)) with (pl_first_page l). change (pl_full_refresh (opened l)) with (pl_full_refresh l).
  fold (condition l). change (pl_request_cursor (opened l)) with (pl_request_cursor l).
  rewrite (rp_account Hcontext), (rp_id Hcontext), Hcursor.
  destruct (fetch_page start (condition l) Hs Hu) as (local & -> & Hl1 & Hl2). cbn [page_result].
  pose proof (take_position start l local Hat Hl1 Hl2) as Ht. cbv zeta in Ht.
  case_match; [destruct Ht as (l' & -> & Ht)|destruct Ht as (cursor & l' & -> & Ht)]; eauto.
Qed.
(** From its position the loop ends with the rows and the gaps of the period, if it ends. *)
Lemma loop_position fuel : ∀ start l, at_position start l → usable (condition l) →
  match (loop fuel l).2 with Again _ => True | Finished cursor l' => complete cursor l' | Failed _ _ => False end.
Proof.
  induction fuel as [|fuel IH]; intros start l Hat Hu; [done|]. cbn [page_loop]. pose proof (turn_position start l Hat Hu) as Ht.
  case_match.
  - destruct Ht as (l' & -> & Hat' & Hfirst). apply (IH _ _ Hat'). unfold condition. by rewrite Hfirst.
  - destruct Ht as (cursor & l' & -> & Ht). done.
Qed.

(** *** Where the loop starts *)
Lemma head_position view control : pl_full_refresh (page_start view control id) = true → at_position 0 (page_start view control id).
Proof.
  intros Hf. unfold page_start in *. cbn [pl_full_refresh] in Hf. rewrite Hf. cbn [negb].
  split; cbn [pl_samples pl_request_cursor pl_seen_cursors pl_full_refresh pl_first_page pl_gaps pl_page_count];
    [lia|done|done|by intros c ?%elem_of_empty|done|].
  - pose proof (pb_size Hpub). rewrite Nat.sub_0_r. rewrite Nat2Z.inj_div.
    pose proof (Z.div_le_upper_bound (Z.of_nat (length rows)) 1024 (Z.of_nat (length rows))). lia.
Qed.
Lemma head_complete view control fuel : pl_full_refresh (page_start view control id) = true →
  match (loop fuel (page_start view control id)).2 with Again _ => True | Finished cursor l' => complete cursor l' | Failed _ _ => False end.
Proof.
  intros Hf. apply (loop_position fuel 0); [by apply head_position|]. unfold condition. rewrite Hf, andb_false_r. done.
Qed.

(** An older publication of the period, which the client has read. *)
Context (older_recordings : option RecordedArchive) (older_epoch : Z) (older_archive : HistoryArchive) (older_p : PublicHistoryPeriod).
Context (older_pair : text).
Notation older := (period_index sha256 identity_json sample_json older_archive older_recordings older_epoch (source_of raw) older_p).
Notation older_rows := (period_samples older_archive older_p).
(** A name stands for one publication, the digest tells what the cursor of the older one
    was made from apart, and what is printed determines the rows and the gaps. *)
Record succeeds : Prop := {
  sc_pair : valid_published_pair older_pair = true;
  sc_name : older_pair = ps_pair frame → older_archive = archive ∧ older_recordings = recordings ∧ older_epoch = epoch ∧ older_p = p;
  sc_digest : no_collision sha256 identity_json sample_json
    (hashed identity_json sample_json older_archive older_recordings older_epoch older_p raw (length older_rows - 1))
    archive recordings epoch p raw;
  sc_rows : ∀ s s', s ∈ older_rows → s' ∈ rows → sample_json s = sample_json s' → s = s';
  sc_gaps : identity_json (period_identity older_archive older_epoch older_p) = identity_json (period_identity archive epoch p) →
    map snd (gap_rows older_archive older_p) = gaps
}.
Context (Hlines : ∀ s, line_ok (sample_json s)) (Hidentity : ∀ v, 10 ∉ identity_json v).

Lemma printed_rows i : succeeds → map sample_json (take (S i) older_rows) = map sample_json (take (S i) rows) →
  take (S i) older_rows = take (S i) rows.
Proof.
  intros Hsucc. pose proof (sc_rows Hsucc) as Hinj. revert Hinj. generalize (S i) older_rows rows. clear. intros n.
  induction n as [|n IH]; intros l l' Hinj; [done|]. destruct l as [|s l], l' as [|s' l']; try done. cbn [take map]. intros [= E El].
  f_equal; [apply Hinj; [left|left|done]|]. apply IH; [|done]. intros a b Ha Hb. apply Hinj; by right.
Qed.
(** The cursor of the older publication leads to the rest of the rows, or is stale. *)
Lemma older_cursor i : succeeds → length older_rows = S i →
  let cursor := resume older (ha_samples older_archive) i in
  match start_after self (ha_samples archive) cursor with
  | Some start => start = S i ∧ (S i ≤ length rows)%nat ∧ older_rows = take (S i) rows ∧ map snd (gap_rows older_archive older_p) = gaps
      ∧ Some cursor = cursor_at (S i)
  | None => unreserved cursor
  end.
Proof.
  intros Hsucc Hn cursor. destruct (start_after self (ha_samples archive) cursor) as [start|] eqn:Es.
  - assert (Hi : (i < length older_rows)%nat) by lia. pose proof (sc_digest Hsucc) as Hno. rewrite Hn in Hno. cbn [Nat.sub] in Hno.
    rewrite Nat.sub_0_r in Hno.
    destruct (resumed_prefix sha256 identity_json sample_json older_recordings older_epoch older_archive older_p retained recordings epoch
      archive p id raw i start digest Hlines Hidentity (pb_served Hpub) Hi Hno Es) as (-> & Hj & Em & Eid).
    split_and!; [done|lia| |by apply (sc_gaps Hsucc)|].
    + rewrite <- (printed_rows i Hsucc Em). by rewrite take_ge by lia.
    + apply (served_start sha256 identity_json sample_json digest retained recordings epoch id raw archive p (pb_served Hpub)) in Es
        as (j & _ & [= <-] & Ec). cbn [cursor_before]. by rewrite <- Ec.
  - apply resume_unreserved. rewrite period_fingerprint; [apply digest|]. rewrite (samples_length sha256 identity_json sample_json). lia.
Qed.

Section view.
Context (view : HistoryView) (control : PollControl).
Context (Hprevious : pc_previous_pair context = hv_pair view) (Hsaved : pc_saved_cursor context = hv_cursor view).
Notation start_ := (page_start view control id).
(** A stale cursor restarts the loop at the head of the period, once. *)
Lemma restart_complete c fuel : pl_first_page start_ && negb (pl_full_refresh start_) = true → pl_request_cursor start_ = Some c →
  unreserved c → start_after self (ha_samples archive) c = None → all_some (λ q, valid_published_pair q = true) (hv_pair view) →
  match (loop fuel start_).2 with Again _ => True | Finished cursor l' => complete cursor l' | Failed _ _ => False end.
Proof.
  intros Hfull Hc Hunres Hs Hpair. destruct fuel as [|fuel]; [done|]. cbn [page_loop]. unfold page_turn. cbv zeta.
  assert (MAX_PUBLIC_HISTORY_SAMPLES + 1 <? pl_page_count start_ + 1 = false) as -> by reflexivity. rewrite Hc. cbn [is_some_and].
  rewrite bool_decide_eq_false_2 by (by intros ?%elem_of_empty). rewrite (rp_account Hcontext), (rp_id Hcontext).
  change (pl_first_page (opened start_)) with (pl_first_page start_). change (pl_full_refresh (opened start_)) with (pl_full_refresh start_).
  change (pl_request_cursor (opened start_)) with (pl_request_cursor start_). rewrite Hfull, Hc, Hprevious.
  rewrite (fetch_stale c (hv_pair view) Hunres Hpair Hs). unfold page_result. rewrite bool_decide_eq_true_2 by done.
  cbn [pl_first_page page_start andb negb] in Hfull. change (pl_append_prefix (opened start_)) with (negb (pl_full_refresh start_)).
  change (pl_first_page (opened start_)) with true. change (pl_request_cursor (opened start_)) with (pl_request_cursor start_). rewrite Hfull, Hc.
  change (pl_recovery_attempted (opened start_)) with false. cbn [opt_is_some andb negb].
  apply (loop_position fuel 0); [|done].
  split; cbn [restarted pl_samples pl_request_cursor pl_seen_cursors pl_full_refresh pl_first_page pl_gaps pl_page_count];
    [lia|done|done|by intros ? ?%elem_of_empty|done|].
  change (pl_page_count (opened start_)) with 1. pose proof (pb_size Hpub) as Hsize. rewrite Nat.sub_0_r, Nat2Z.inj_div.
  unfold MAX_PUBLIC_HISTORY_SAMPLES in *. pose proof (Z.div_le_upper_bound (Z.of_nat (length rows)) 1024 44 ltac:(lia) ltac:(lia)). lia.
Qed.
Lemma unmodified_complete fuel : in_step view id older_pair older_archive older older_p → succeeds → older_pair = ps_pair frame →
  pl_full_refresh start_ = false →
  match (loop fuel start_).2 with Again _ => True | Finished cursor l' => complete cursor l' | Failed _ _ => False end.
Proof.
  intros Hstep Hsucc Hname Hfull. destruct fuel as [|fuel]; [done|]. destruct (sc_name Hsucc Hname) as (Ha & Hr & He & Hp').
  destruct Hstep as [Hid Hpair Hsamples Hgaps Hcursor]. rewrite Ha, Hr, He, Hp' in *. rewrite Hname in Hpair.
  pose proof Hfull as Hf. unfold page_start in Hf. cbn [pl_full_refresh] in Hf.
  cbn [page_loop]. unfold page_turn. cbv zeta. unfold page_start. cbn [pl_full_refresh]. rewrite Hf. cbn [negb].
  cbn [opened pl_page_count pl_request_cursor pl_seen_cursors pl_first_page pl_full_refresh andb negb].
  rewrite (proj2 (Z.ltb_ge _ _)) by (unfold MAX_PUBLIC_HISTORY_SAMPLES; lia).
  replace (is_some_and _ (hv_cursor view)) with false.
  2:{ destruct (hv_cursor view); [|done]. cbn. by rewrite bool_decide_eq_false_2 by (by intros ?%elem_of_empty). }
  rewrite (rp_account Hcontext), (rp_id Hcontext), Hprevious, Hpair, Hcursor.
  rewrite fetch_unmodified by lia. unfold page_result. cbn [pl_full_refresh orb]. rewrite (rp_pair Hcontext), (proj2 (text_eqb_true _ _) eq_refl).
  cbn [negb orb snd]. unfold complete. cbn [pl_samples pl_gaps]. by rewrite Hsaved, Hcursor.
Qed.
Lemma resumed_complete fuel i : in_step view id older_pair older_archive older older_p → succeeds → older_pair ≠ ps_pair frame →
  length older_rows = S i → pl_full_refresh start_ = false →
  match (loop fuel start_).2 with Again _ => True | Finished cursor l' => complete cursor l' | Failed _ _ => False end.
Proof.
  intros Hstep Hsucc Hname Hn Hfull. pose proof (older_cursor i Hsucc Hn) as Hc. cbv zeta in Hc. destruct Hstep as [Hid Hpair Hsamples Hgaps Hcursor].
  rewrite Hn in Hcursor. cbn [cursor_before] in Hcursor. set (cursor := resume older (ha_samples older_archive) i) in *.
  pose proof Hfull as Hf. unfold page_start in Hf. cbn [pl_full_refresh] in Hf.
  destruct (start_after self (ha_samples archive) cursor) as [start|] eqn:Es.
  - destruct Hc as (-> & Hle & Hrows & Hg & Ec). apply (loop_position fuel (S i)).
    + split; cbn [page_start pl_samples pl_request_cursor pl_seen_cursors pl_full_refresh pl_first_page pl_gaps pl_page_count];
        rewrite ?Hf; cbn [andb]; [done|by rewrite Hsamples|by rewrite Hcursor|by intros ? ?%elem_of_empty|by rewrite Hgaps|].
      pose proof (pb_size Hpub) as Hsize. rewrite Nat2Z.inj_div, Nat2Z.inj_sub by done. unfold MAX_PUBLIC_HISTORY_SAMPLES in *.
      pose proof (Z.div_le_upper_bound (Z.of_nat (length rows) - Z.of_nat (S i)) 1024 44 ltac:(lia) ltac:(lia)). lia.
    + unfold condition. rewrite Hfull. cbn [page_start pl_first_page andb negb]. rewrite Hprevious, Hpair. intros q [= <-].
      split; [apply Hsucc|done].
  - apply (restart_complete cursor); [by rewrite Hfull| |done|done|].
    + unfold page_start. cbn [pl_request_cursor]. by rewrite Hf.
    + rewrite Hpair. intros q [= <-]. apply Hsucc.
Qed.
Lemma start_complete fuel : pl_full_refresh start_ = true ∨ in_step view id older_pair older_archive older older_p ∧ succeeds →
  match (loop fuel start_).2 with Again _ => True | Finished cursor l' => complete cursor l' | Failed _ _ => False end.
Proof.
  intros Hs. destruct (pl_full_refresh start_) eqn:Hfull; [by apply head_complete|]. destruct Hs as [?|[Hstep Hsucc]]; [done|].
  destruct (decide (older_pair = ps_pair frame)); [by apply unmodified_complete|].
  destruct (length older_rows) as [|i] eqn:Hn; [|by apply (resumed_complete _ i)]. exfalso.
  pose proof (st_cursor _ _ _ _ _ _ Hstep) as Hc. rewrite Hn in Hc. cbn in Hc. unfold page_start in Hfull. cbn [pl_full_refresh] in Hfull.
  rewrite Hc in Hfull. cbn [opt_is_some negb] in Hfull. by rewrite orb_true_r in Hfull.
Qed.
End view.
End published.

Section properties.
Context {N : Type} `{JsonNumber N}.
Context (sha256 : list Z → list Z) (identity_json : Z * text * Z * list PublicHistoryGap → list Z).
Context (sample_json : PublicHistoryObservationV3 → list Z).
Context (decode : list Z → result string (Value N)) (observations_of : Value N → result string (list PublicHistoryObservationV3)).
Context (gaps_of : Value N → result string (list PublicHistoryGap)) (local_usage_of : Value N → result string LocalUsage).
Context (int_value : Z → Value N) (percent_value : option f64 → Value N).
Context (models_value : list PublicHistoryModelUsageV3 → Value N) (gaps_value : list PublicHistoryGap → Value N).
Context (local_value : LocalUsage → Value N).
Context (document_json : HistoryPage * LocalUsage → list Z) (plain_json : HistoryPage → list Z) (error_json : RouteError → list Z).
Notation index recordings epoch raw archive p := (period_index sha256 identity_json sample_json archive recordings epoch (source_of raw) p).

(** What the application checks before it shows the rows and gaps of a period: the document
    it holds, with the periods of the directory, those rows and those gaps. *)
Definition joined_check (snapshot : PublicDetailsV3) (periods : list ServicePeriod) (archive : HistoryArchive)
    (p : PublicHistoryPeriod) : result Server.ApiSnapshotError () :=
  Server.PublicDetailsV3_validate
    (with_history_resource snapshot periods (period_samples archive p) (map snd (gap_rows archive p))).
(** The poll commits the publication, or fails by that check alone and leaves the view. *)
Definition commits_or_refuses (view : HistoryView) (selectable : bool) (check : result Server.ApiSnapshotError ())
    (shows : HistoryView → Prop) (outcome : PollOutcome) : Prop :=
  match check with
  | Ok () => ∃ view' control', outcome = Committed view' control' selectable ∧ shows view'
      ∧ pk_reset_required control' = false ∧ pk_error control' = None
  | Err e => ∃ require_head recovery_attempted,
      outcome = PollFailed view (Server.ApiSnapshotError_message e) require_head recovery_attempted
  end.
Lemma commit_in_step frame recordings epoch id raw archive p root view control selectable periods selected snapshot cursor l :
  published sha256 identity_json sample_json frame recordings epoch id raw archive p →
  complete sha256 identity_json sample_json recordings epoch raw archive p cursor l →
  selected_period view control periods = Some selected → hp_id (sp_period selected) = id →
  cr_snapshot root = Some snapshot →
  commits_or_refuses view selectable (joined_check snapshot periods archive p)
    (λ view', in_step view' id (ps_pair frame) archive (index recordings epoch raw archive p) p)
    (commit_pages root view control selectable (ps_pair frame) periods (Finished cursor l)).
Proof.
  intros Hpub (Hcursor & Hsamples & Hgaps) Hsel Hid Hsnap. unfold commit_pages, apply_service_history_resource, commits_or_refuses.
  rewrite (pb_pair _ _ _ _ _ _ _ _ _ _ Hpub), Hsnap, Hsamples, Hgaps. cbn [negb ok_or]. unfold validate, mbind, result_bind.
  fold (joined_check snapshot periods archive p). destruct (joined_check snapshot periods archive p) as [[]|e]; cbn [map_err].
  - eexists _, _. split; [reflexivity|]. split; [|done].
    split; cbn [set_local_usage hv_period_id hv_pair hv_samples hv_gaps hv_cursor]; try done. rewrite Hsel. cbn. by rewrite Hid.
  - by eexists _, _.
Qed.

(** C37. Take a publication of a period that the directory lists, of at most 44,640 rows the
    application trusts, under names that need no escaping; a server that answers every
    request from one frame of it, read without failure and named as the directory says;
    and a client that reads back what that server prints. If the client is in step with
    an older publication, and names, digests and printed rows tell the two apart, or if
    it reads the period from its head, then the outcome of a poll depends only on the
    application's own check of the joined document (the one it holds, with the periods of
    the directory and the rows and gaps of the period). When the check passes, the poll commits and
    the client is in step with the newer publication: it shows exactly its rows and gaps
    and keeps the cursor after them, whether the server answered that nothing changed,
    resumed the rows, or called the cursor stale. When the check refuses the document,
    the poll fails with that error and the view stays as it was. *)
Theorem client_stays_in_step frame recordings epoch id raw archive p
    older_recordings older_epoch older_archive older_p older_pair root view control periods selectable refreshed snapshot selected listed :
  (∀ l, digest_ok (sha256 l)) → (∀ s, line_ok (sample_json s)) → (∀ v, 10 ∉ identity_json v) →
  published sha256 identity_json sample_json frame recordings epoch id raw archive p →
  reads_back sha256 identity_json sample_json frame recordings epoch id raw archive p decode observations_of gaps_of local_usage_of
    int_value percent_value models_value gaps_value local_value document_json error_json →
  all_some (λ a, valid_account_selector a = true) (cr_account root) →
  selected_period view control periods = Some selected → hp_id (sp_period selected) = id →
  List.find (λ period, text_eqb (hp_id (sp_period period)) id) periods = Some listed → sp_period listed = p →
  cr_snapshot root = Some snapshot →
  pl_full_refresh (page_start view control id) = true
  ∨ in_step view id older_pair older_archive (index older_recordings older_epoch raw older_archive older_p) older_p
    ∧ succeeds sha256 identity_json sample_json frame recordings epoch raw archive p older_recordings older_epoch older_archive
        older_p older_pair →
  commits_or_refuses view selectable (joined_check snapshot periods archive p)
    (λ view', in_step view' id (ps_pair frame) archive (index recordings epoch raw archive p) p)
    (poll_pages decode observations_of gaps_of local_usage_of (rest_response document_json plain_json error_json frame) () root view
      control true refreshed (Some (ps_pair frame), periods, selectable)).2.
Proof.
  intros Hdigest Hlines Hidentity Hpub Hread Haccount Hsel Hid Hfind Hlisted Hsnap Hstart.
  unfold poll_pages. cbn [negb]. rewrite Hsel, Hid. set (context := {| pc_account := cr_account root |}).
  assert (Hcontext : reads_period frame id p (cr_account root) context) by (split; [done|done|done|by exists listed]).
  pose proof loop_fuel_Z as Hfuel. revert Hfuel. generalize loop_fuel. intros fuel Hfuel. cbv zeta.
  pose proof (loop_finishes_from decode observations_of gaps_of local_usage_of (rest_response document_json plain_json error_json frame)
    fuel context () (page_start view control id)) as Hdone.
  cbn [page_start pl_page_count] in Hdone. specialize (Hdone ltac:(unfold MAX_PUBLIC_HISTORY_SAMPLES; lia) ltac:(lia)).
  assert (Hcomplete : match (page_loop decode observations_of gaps_of local_usage_of (rest_response document_json plain_json error_json frame)
      fuel context () (page_start view control id)).2 with
    | Again _ => True
    | Finished cursor l' => complete sha256 identity_json sample_json recordings epoch raw archive p cursor l'
    | Failed _ _ => False end).
  { eapply start_complete; try done. }
  destruct (page_loop _ _ _ _ _ fuel _ _ _) as [[] turn]. cbn [snd] in *. destruct turn as [l|cursor l|error l]; [done| |done].
  by apply (commit_in_step frame recordings epoch id raw archive p root view control selectable periods selected snapshot cursor l).
Qed.
End properties.

(** ** Witness: a client in step with one row of a period polls a publication of two *)
Definition demo_older : HistoryArchive := {|
  ha_aliases := ∅; ha_raw := None; ha_periods := [demo_period]; ha_samples := [demo_sample 60]; ha_gaps := []; ha_origins := ∅ |}.
Definition demo_pair (last : Z) : text := lit "v1:" ++ repeat 48 63 ++ [last].
Definition demo_frame : PublishedSnapshot := {|
  ps_generation := 2; ps_data_hash := []; ps_pair := demo_pair 50; ps_history_available := true; ps_has_pending_ranges := false;
  ps_acquisition_degraded := false; ps_current := {| cp_state := Ready; cp_models_status := ModelsComplete |};
  ps_details := PublicDetails_default; ps_models_v3 := []; ps_history_samples_v3 := []; ps_history_samples_v2 := [];
  ps_retained_history := demo_archive; ps_local_recordings := None;
  ps_history_index := HistoryIndex_build demo_digest demo_identity demo_line_json demo_archive None 1;
  ps_directory_indices := ([], []); ps_directory_pages := 0; ps_reprojection_witness := None; ps_history_reprojection_witness := None |}.
Notation demo_index archive := (period_index demo_digest demo_identity demo_line_json archive None 1 Canonical demo_period).
(** A page is sent as the number of its rows. *)
Definition demo_document_json (document : HistoryPage * LocalUsage) : list Z := [Z.of_nat (length (pg_history_samples document.1))].
Definition demo_local_value (local : LocalUsage) : Value Z := Array [Number (lu_start_at local); Number (lu_end_at local)].
Definition demo_local_usage_of (v : Value Z) : result string LocalUsage :=
  match v with Array [Number from; Number to] => Ok (LocalUsage_unavailable from to) | _ => Err "local usage"%string end.
Definition demo_row_of (v : Value Z) : PublicHistoryObservationV3 :=
  match value_get (lit "timestamp") v with Some (Number timestamp) => demo_sample timestamp | _ => demo_sample 0 end.
Definition demo_observations_of (v : Value Z) : result string (list PublicHistoryObservationV3) :=
  match v with Array rows => Ok (map demo_row_of rows) | _ => Err "rows"%string end.
Notation demo_page_value := (page_value Number (λ _, Null) (λ _, Null) (λ _, Array []) demo_local_value).
Definition demo_decode (bytes : list Z) : result string (Value Z) :=
  match bytes with
  | [rows] =>
      map_err (λ _ : RouteError, "page"%string)
        ('(page, local) ← serialize_history_extended demo_archive (ps_history_index demo_frame) None true (Some (lit "week"))
                            (cursor_before (demo_index demo_archive) (ha_samples demo_archive) (2 - Z.to_nat rows));
         Ok (demo_page_value page local))
  | _ => Ok (Object [(lit "api_version", VString (lit "v1")); (lit "error", VString (lit "stale_cursor"))])
  end.
Definition demo_root : ClientRoot := {|
  cr_split_capable := true; cr_current_pair := Some (demo_pair 50); cr_account := None; cr_snapshot := Some (with_rows demo_document []) |}.
Definition demo_view : HistoryView := {|
  hv_periods := []; hv_periods_pair := None; hv_samples := [demo_sample 60]; hv_gaps := []; hv_local_usage := [];
  hv_pair := Some (demo_pair 49); hv_period_id := Some (lit "week");
  hv_cursor := cursor_before (demo_index demo_older) (ha_samples demo_older) 1;
  hv_selected_reset_at := None; hv_selected_period := None |}.
Definition demo_control : PollControl := {|
  pk_selectable := true; pk_reset_required := false; pk_pending_reset_at := None; pk_pending_failures := 0; pk_force := false;
  pk_last_poll := 0; pk_error := None |}.
Definition demo_directory : ServicePeriod := {| sp_origin_at := None; sp_period := demo_period |}.

Lemma demo_published : published demo_digest demo_identity demo_line_json demo_frame None 1 (lit "week") false demo_archive demo_period.
Proof.
  split; [exact demo_served|done|done|reflexivity|vm_compute; done| | |vm_compute; done].
  - replace (period_samples demo_archive demo_period) with [demo_sample 60; demo_sample 120] by (vm_compute; reflexivity).
    repeat constructor.
  - split; [done|]. apply Forall_forall. vm_compute. repeat constructor.
Qed.
Lemma demo_reads_back : reads_back demo_digest demo_identity demo_line_json demo_frame None 1 (lit "week") false demo_archive demo_period
  demo_decode demo_observations_of (λ _, Ok []) demo_local_usage_of Number (λ _, Null) (λ _, Null) (λ _, Array []) demo_local_value
  demo_document_json (λ _, []).
Proof.
  split; [|reflexivity|vm_compute; done]. intros start page local Hs E.
  replace (length (period_samples demo_archive demo_period)) with 2%nat in Hs by (vm_compute; reflexivity).
  destruct start as [|[|[|]]]; [..|lia]; vm_compute in E; injection E as <- <-; split_and!; vm_compute; reflexivity.
Qed.
Lemma demo_succeeds : succeeds demo_digest demo_identity demo_line_json demo_frame None 1 false demo_archive demo_period
  None 1 demo_older demo_period (demo_pair 49).
Proof.
  split; [reflexivity|intros E; vm_compute in E; discriminate E| | |done].
  - intros j. destruct j as [|j]; [intros _; vm_compute; reflexivity|].
    unfold hashed, prefix_bytes. rewrite (take_ge _ (S (S j))) by (rewrite row_parts_length; change (2 ≤ S (S j))%nat; lia).
    intros E. vm_compute in E. discriminate E.
  - replace (period_samples demo_archive demo_period) with [demo_sample 60; demo_sample 120] by (vm_compute; reflexivity).
    replace (period_samples demo_older demo_period) with [demo_sample 60] by (vm_compute; reflexivity).
    intros s s' ->%list_elem_of_singleton [-> | ->%list_elem_of_singleton]%elem_of_cons E; [done|]. vm_compute in E. discriminate E.
Qed.
Lemma demo_in_step : in_step demo_view (lit "week") (demo_pair 49) demo_older (demo_index demo_older) demo_period.
Proof. split; vm_compute; reflexivity. Qed.
Lemma client_stays_in_step_witness : ∃ view' control',
  (poll_pages demo_decode demo_observations_of (λ _, Ok []) demo_local_usage_of
    (rest_response demo_document_json (λ _, []) (λ _, []) demo_frame) () demo_root demo_view demo_control true true
    (Some (demo_pair 50), [demo_directory], true)).2 = Committed view' control' true
  ∧ hv_samples view' = [demo_sample 60; demo_sample 120].
Proof.
  pose proof (client_stays_in_step demo_digest demo_identity demo_line_json demo_decode demo_observations_of (λ _, Ok [])
    demo_local_usage_of Number (λ _, Null) (λ _, Null) (λ _, Array []) demo_local_value demo_document_json (λ _, []) (λ _, [])
    demo_frame None 1 (lit "week") false demo_archive demo_period None 1 demo_older demo_period (demo_pair 49) demo_root demo_view
    demo_control [demo_directory] true true (with_rows demo_document []) demo_directory demo_directory
    demo_digest_ok demo_line_ok (λ _, not_elem_of_nil 10) demo_published demo_reads_back ltac:(done) ltac:(reflexivity)
    eq_refl ltac:(reflexivity) eq_refl eq_refl (or_intror (conj demo_in_step demo_succeeds))) as Hpoll.
  assert (joined_check (with_rows demo_document []) [demo_directory] demo_archive demo_period = Ok ()) as Hcheck
    by (vm_compute; reflexivity).
  rewrite Hcheck in Hpoll. destruct Hpoll as (view' & control' & E & Hstep & _).
  exists view', control'. split; [exact E|]. rewrite (st_samples _ _ _ _ _ _ Hstep). vm_compute. reflexivity.
Defined.
